(* ===== verification/_CoqProject ===== *)
-Q . S2P
Prelude.v
Errors.v
Packets.v
Kahn.v
Graphs.v
CompiledGraphs.v
MpmcQueue.v
MpmcConcurrent.v
NodeQueue.v
FrameAlignment.v
SyncCoordinator.v
JoinAwareSync.v
ExecutionTypes.v
Registry.v
Options.v
GraphLoader.v
LoaderCorrect.v
Trace.v
Contexts.v
SpscRing.v
LogFormat.v
Logger.v
LoggerCorrect.v
Schedulers.v
ThreadPool.v
ThreadPoolCorrect.v
PoolClients.v
EngineCore.v
EngineGather.v
Dataflow.v
Engine.v
EngineLog.v
EngineWaits.v
NodeLifecycle.v
NodeAtomic.v
EngineSim.v
EngineTermination.v
EngineRuns.v
EngineCorrect.v
EngineTrace.v
BatchRun.v
BatchCorrect.v
EngineShell.v
StreamInv.v
StreamRuns.v
StreamCorrect.v
StreamLedger.v
StreamFlow.v
Pipelines.v
PipelineCorrect.v
EndToEnd.v
System.v
SystemStreams.v
SystemFlow.v
