(* ===== verification/Prelude.v ===== *)
(** * AI Pipe: a verification development

    AI Pipe runs a graph of processing nodes on a work-stealing thread pool, on one
    batch of inputs or on streams of frames.  This library models the C++ sources
    under [src/] and proves what makes them correct.

    ** The program

    A user registers node types ([NodeRegistry], plugins through [PluginLoader]),
    builds a [Graph] by hand or from JSON ([config/graph_loader.cpp]), and wraps it in
    a [Pipeline] with a shared [PipelineContext].  The pipeline compiles the graph
    ([CompiledGraph]) and hands it to the [ExecutionEngine].  The engine keeps one
    bounded queue per input port ([LockFreeNodeQueue] on [LockFreeMPMCQueue]); when a
    scheduler strategy says so it moves a node from WAITING to READY and posts a task
    to the [WorkStealingThreadPool].  The task gathers the node's inputs (at a join,
    frames that belong together, [frame_alignment.hpp]), calls the node and pushes
    its outputs to the queues downstream.  Overflowing queues drop frames; a
    synchronization strategy ([JoinAwareSyncStrategy] on [SyncCoordinator]) makes the
    other branches between the same fork and join drop the frame too.  End of stream
    is latched port by port and cascades through the graph.  Results, errors and end
    of stream come back through callbacks, from which the pipeline answers its
    callers.

    ** Files

    Foundations
    - [Prelude] : machine integers, tactics, hints, lemmas on lists and maps.
    - [Errors] : [error.hpp].
    - [Packets] : [data_packet.hpp], [data_types.hpp], [frame_metadata.hpp].
    - [ExecutionTypes] : [execution_types.hpp], counters at 64 bits, doubles as IEEE
      binary64.

    Graphs
    - [Kahn] : the peeling loop that [Graph::hasCycle] and [CompiledGraph::compile]
      share, over the interface [CounterStore].
    - [Graphs] : [graph.hpp], [graph.cpp], [edge.hpp], the declarations of
      [i_logic_node.hpp].
    - [CompiledGraphs] : [compiled_graph.hpp].

    Queues
    - [MpmcQueue] : the ring of [lock_free_queue.hpp], sequentially, as an instance of
      the interface [FifoImpl] with [FifoLaws].
    - [MpmcConcurrent] : the same ring with any number of threads, one shared access
      per step.
    - [NodeQueue] : drop policies and statistics, over any [FifoImpl].

    Synchronization
    - [FrameAlignment] : [frame_alignment.hpp], over the interfaces [PortOps] and
      [AlignPolicy].
    - [SyncCoordinator] : [sync_coordinator.hpp].
    - [JoinAwareSync] : [join_aware_sync_strategy.hpp], [sync_strategies.hpp], the
      interface [SyncStrategy].

    Configuration
    - [Registry] : [node_registry.hpp], [node_registry.cpp], [plugin_loader.cpp],
      [plugin.hpp].
    - [Options] : the options of [pipeline.hpp] and the engine configuration made
      from them.
    - [GraphLoader], [LoaderCorrect] : [config/graph_loader.cpp] and what a document
      means.

    Logging
    - [SpscRing] : the ring of [logger.hpp], one shared access per step.
    - [LogFormat] : levels, text and JSON lines, hex dumps ([logger.hpp], [logger.cpp]).
    - [Logger], [LoggerCorrect] : the logger with its worker and files, and the log
      functions of [engine_log.cpp].

    Execution
    - [Trace] : [trace.hpp].
    - [Contexts] : [context.hpp], [context.cpp].
    - [Schedulers] : [scheduler_strategies.hpp], [i_scheduler_strategy.hpp].
    - [ThreadPool], [ThreadPoolCorrect] : [work_stealing_thread_pool.hpp], as threads
      that interleave.
    - [PoolClients] : its [waitForTasks], futures, exception handler and queries.
    - [EngineCore], [EngineGather], [Engine] : [execution_engine_impl.cpp] and [.hpp].
    - [EngineLog] : the interface [Follows]: a relation that contains the engine's
      elementary steps contains its operations; the log of callbacks and calls of user
      code only grows; the clock advances by what the calls take.
    - [EngineWaits] : the waits on the engine's completion condition, as threads that
      interleave.
    - [NodeLifecycle] : the abstract machine of a node's states, tasks and flushes.
    - [NodeAtomic] : the same machine one access at a time, with any number of threads
      and with the thread that loses the race for a flush.
    - [EngineSim], [EngineTermination], [EngineRuns], [EngineCorrect] : the engine
      follows that machine, its operations end, and what follows for every run.
    - [EngineTrace] : what the engine tells its trace sink.
    - [Dataflow] : the equations of a graph, a reference for what a batch computes.
    - [BatchRun], [BatchCorrect] : the engine computes them under every schedule.
    - [EngineShell] : the engine as its users see it: construction, strategies,
      initialization, guards, callbacks, queries.
    - [StreamInv], [StreamRuns], [StreamCorrect] : streams: an invariant with a
      measure of the work left, the operations that keep it, how streams end.
    - [StreamLedger], [StreamFlow] : where the packets sent to a node are, through every
      operation; what a node of a stream is called on.
    - [Pipelines], [PipelineCorrect] : [pipeline_impl.cpp], [pipeline_impl.hpp] and the
      builder of [pipeline.hpp], over the interface [EngineApi].
    - [EndToEnd] : a run of the facade on an engine that follows [Engine].
    - [System], [SystemStreams], [SystemFlow] : the engine of [EngineShell] as an
      instance of [EngineApi], and the whole system from a graph to its results, to the
      end of its stream and to what the stream computes.

    Each definition that translates code is preceded by the file, the lines and the
    symbol it translates.

    ** How the code is modelled

    A class is a record of its data members, an operation a function on it; a
    [size_t] or counter is an integer with its wrap-around written out; a
    [Result<T>] is a sum; a thrown exception is a value where it can be observed.
    A [std::any] is a value with its C++ type, and the types form an arbitrary
    universe ([CppTypes]).  An [unordered_map] is a [gmap]; where code iterates over
    one in a way that could matter, the order is a parameter.  User code (nodes,
    factories, plugins, callbacks), the dynamic loader, the file system, the JSON
    parser and the clocks are parameters.

    Concurrency appears where it decides correctness.  The ring, the thread pool and
    the waits on the engine interleave at each atomic access and each lock (sequentially consistent; the
    C++ memory orders are not represented).  In the engine one task, call or timer
    is one step of the detailed model, so what is said of its log and its results is
    about operations that do not overlap.  Its steps are related to the machine of
    [NodeAtomic], in which every access to a node's state and flags, every update of the
    task counter, every call of a node and every event told of it is an action of its
    own, and what is said of all interleavings is about that machine.  Components that hold a
    lock for a whole operation have the operation as their step; the context's
    log bridge, which releases its lock in between, has one step per critical
    section.

    ** What is proved

    - Graph: every sequence of mutations keeps the tables consistent; [hasCycle] is
      exact; [compile] fails exactly on empty, cyclic or starving graphs and its
      tables agree with the graph.
    - Queues: the ring is a bounded FIFO, also under concurrency (exactly once, in
      ticket order, no thread blocked by another); the node queue refines an
      abstract queue with three drop policies and accounts for every item.
    - Synchronization: the gather ends and delivers packets that belong together,
      losing no pairable frame; coordinated drops persist; the searches for forks
      and paths are sound and complete, and with them a drop on one branch reaches
      every other.
    - Thread pool: no task is lost or run twice; no wake-up of a worker is lost; a
      draining shutdown runs everything; the counters are exact; who waits for tasks
      and sees none pending finds every future resolved ([waited_futures_ready]).
      [waitForTasks_returns_early], [waitForTasks_misses_wakeup] and
      [shutdown_leaves_waiter] show what can go wrong around [waitForTasks].
    - Engine: it refines the node lifecycle ([engine_refines_lifecycle]); tasks of one
      node exclude one another in every interleaving of single accesses; the flush hook
      runs once, and [process] not after it as long as no check for the end of stream
      loses its race ([flush_once_and_last]; [losing_check_reopens_node] shows what
      happens when one does); callbacks fire at most once; the end-of-stream
      cascade and every operation terminate; nodes are set up in topological order
      and torn down in reverse; a thread that waits for the engine misses no wake-up
      ([engine_no_lost_wakeup]); the [Execute] events of the trace are the calls of user
      code, for each node in the order of its calls ([trace_tells_the_calls]), while a packet that arrives over an edge is not in
      the trace ([propagated_packets_not_enqueued]).
    - Batch: for a graph in which no port is fed twice, sources have at most one port,
      edges lead to declared ports and sinks have no colon in their names, and for nodes
      that are functions, whatever order the workers pick tasks in, every node runs once, on the packets
      that the equations of the graph determine, and the outputs of the sinks are
      reported once ([batch_computes_dataflow]); a run of the facade answers with them
      ([pipeline_run_computes_dataflow]), and so does an engine that is given another
      graph ([initialized_engine_computes]).  Put together, [makeBatchPipeline] makes of
      such a graph a pipeline every run of which answers with what the equations
      determine ([batch_pipeline_computes]), if its timeout leaves time for one call of
      each node and the waiting caller does not overtake the last task
      ([slow_batch_times_out] and [overtaken_batch_is_empty] show the other cases).  [straggler_ends_next_batch] shows a task of a
      failed batch that spoils the next one on the same engine; [shared_port_races] and
      [two_port_source_fails] show that the conditions are needed.
    - Streams: a stream of nodes with one input port each whose sources are closed
      ends, whatever order the workers pick tasks in, after a bounded number of tasks
      ([closed_stream_ends]); through the whole system, from [makeStreamPipeline] and
      [start], the pipeline then reports the end and tells each observer once
      ([stream_pipeline_ends]); in general a stream with nothing left to run has ended,
      or a join that is closed still holds a packet ([resting_stream_ended]; [stalled_join]
      is such a join).  Frames flow in order: a node with one fed port is called on a subsequence of what was
      sent to it, and what is missing was reported as dropped
      ([stream_frames_in_order]); if nothing was dropped, a tree of nodes that are
      functions has, at the end of the stream, processed what the reference semantics
      [arrivals] says, for the engine ([stream_computes]) and through the whole system
      ([stream_pipeline_computes]).  [shared_port_closes_early] is a port with two
      edges that closes when the first of them does; [inner_close_strands] is a port
      that a caller closes though an edge feeds it.
    - Configuration: an options object and a node's parameters mean what the schema
      says; a loaded graph is the document's; failures are the documented ones, except
      for two exceptions of the JSON library ([endpoint_port_throws],
      [parser_exception_escapes]);
      loading a plugin is all or nothing and destroying a loader undoes it.
    - Facade: which calls are refused, what a run answers, a future is resolved at
      most once, an error is left by [reset] only.
    - Logger: every record that passes the level filter is delivered once, the ones
      that go through the ring in order and at the latest at shutdown; its ring is a FIFO at every
      interleaving; rotation shifts the backups; a JSON line reads back as the entry,
      a hex dump as its bytes.
    - Foundations: parameters round-trip at their type, percentiles are least
      bounds, the rate limit is exact, execution ids are distinct, the trace export
      is well-formed.

    Where the code does something its comments exclude, a lemma shows it on a
    concrete input (for example [discarding_shutdown_hangs], [late_submission_stranded],
    [partial_inputs_lose_frame], [stopStreaming_never_waits], [endpoint_port_throws],
    [silent_success_returns_old_outputs], [cancelled_promise_adopts_next_run]).

    ** Fuel and bounds

    - Kahn's loop: one iteration per node, [compile_outcome] and [hasCycle_correct]
      show it is enough.
    - The ring's retry loops: sequentially a bounded number of rounds
      ([ring_refines_fifo]); positions stay below [2^63], hence the bound of [2^62]
      operations.
    - Eviction and clear loops of the node queue: the number of items
      ([nodeQueue_refines_abstract]).
    - The aligned gather: one pass more than there are packets
      ([gatherAligned_outcome]); the end-of-stream cascade: one more than there are
      nodes ([cascade_terminates]).  The number of tasks of [closed_stream_ends] and
      [stream_pipeline_ends] is bounded by the work measure of [StreamInv].  A wait of
      the engine in [System] lasts [patience] tasks at most, or until its deadline; one
      task per node is enough for a batch.
    - The fork search stops after 1000 rounds in the code; the theorem is for graphs
      of at most 999 nodes.  The path search recurses at most once per node.

    ** Not modelled

    - The log lines that the components write: the logger is modelled, which message
      is logged where is not.
    - Weak memory, and interleavings inside one engine task beyond those of
      [NodeAtomic] (of queues, statistics and results of different nodes).
    - Benchmarks, examples, tests and third-party code. *)

From Stdlib Require Export ZArith Lia.
From stdpp Require Export base tactics numbers option strings pretty list gmap.

(** ** Machine integers *)

Declare Scope pipe_scope.
Delimit Scope pipe_scope with pipe.

(** Widths used by the sources: [size_t], [FrameId] and the statistics
    counters are 64-bit, [NodeIndex] and [StreamId] are 32-bit. *)
Definition u64_mod : Z := 2 ^ 64.
Definition u32_mod : Z := 2 ^ 32.

Definition wrap64 (z : Z) : Z := z `mod` u64_mod.
Definition wrap32 (z : Z) : Z := z `mod` u32_mod.

(** [static_cast<std::intptr_t>] of a 64-bit word: two's complement. *)
Definition sint64 (z : Z) : Z :=
  if decide (wrap64 z < 2 ^ 63)%Z then wrap64 z else (wrap64 z - u64_mod)%Z.

Notation "a ⊞ b" := (wrap64 (a + b)%Z) (at level 50, left associativity) : pipe_scope.
Notation "a ⊟ b" := (wrap64 (a - b)%Z) (at level 50, left associativity) : pipe_scope.

Definition u64_max : Z := (u64_mod - 1)%Z.
Definition u32_max : Z := (u32_mod - 1)%Z.

(** Arithmetic on counters that wrap: [autorewrite with wrap] removes the inner
    wrap-arounds, [auto with pipe] discharges range conditions. *)
Create HintDb pipe discriminated.

Lemma wrap64_nonneg z : (0 ≤ wrap64 z)%Z.
Proof. unfold wrap64, u64_mod. pose proof (Z.mod_pos_bound z (2 ^ 64)). lia. Qed.

Lemma wrap64_lt z : (wrap64 z < u64_mod)%Z.
Proof. unfold wrap64, u64_mod. pose proof (Z.mod_pos_bound z (2 ^ 64)). lia. Qed.

Lemma wrap64_small z : (0 ≤ z < u64_mod)%Z → wrap64 z = z.
Proof. apply Z.mod_small. Qed.

Lemma wrap64_idem x : wrap64 (wrap64 x) = wrap64 x.
Proof. unfold wrap64. apply Zmod_mod. Qed.

Lemma wrap64_add_l a b : wrap64 (wrap64 a + b) = wrap64 (a + b).
Proof. unfold wrap64. apply Zplus_mod_idemp_l. Qed.

Lemma wrap64_sub_l a b : wrap64 (wrap64 a - b) = wrap64 (a - b).
Proof. unfold wrap64. apply Zminus_mod_idemp_l. Qed.

Lemma wrap64_congr x x' y : wrap64 x = wrap64 x' → wrap64 (x + y) = wrap64 (x' + y).
Proof. intros Heq. by rewrite <-wrap64_add_l, Heq, wrap64_add_l. Qed.

#[export] Hint Resolve wrap64_nonneg wrap64_lt : pipe.
#[export] Hint Rewrite wrap64_idem wrap64_add_l wrap64_sub_l : wrap.

(** ** Tactics *)

(** [bind_inv H x E]: the first computation of the bind in [H] succeeded. *)
Ltac bind_inv H x E :=
  match type of H with
  | context [@mbind option _ _ _ _ ?o] => destruct o as [x|] eqn:E; [cbn [mbind option_bind] in H|done]
  end.

(** ** Generic lemmas *)

Lemma filter_ext_elem {A} (P Q : A → Prop) `{!∀ x, Decision (P x), !∀ x, Decision (Q x)} (l : list A) :
  (∀ x, x ∈ l → P x ↔ Q x) → filter P l = filter Q l.
Proof.
  induction l as [|x l IH]; intros HPQ; [done|].
  rewrite !filter_cons, IH by set_solver.
  destruct (decide (P x)), (decide (Q x)); naive_solver set_solver.
Qed.

Lemma lookup_insert_inv {A} (l : list A) i y k x :
  <[i := y]> l !! k = Some x → (i = k ∧ x = y) ∨ (i ≠ k ∧ l !! k = Some x).
Proof.
  intros Hk. destruct (decide (i = k)) as [<-|Hne]; [left|right].
  - split; [done|]. destruct (decide (i < length l)) as [Hl|Hl].
    + rewrite list_lookup_insert_eq in Hk by done. by injection Hk as <-.
    + rewrite list_insert_ge in Hk by lia. apply lookup_lt_Some in Hk. lia.
  - by rewrite list_lookup_insert_ne in Hk.
Qed.

Lemma lookup_snoc_inv {A} (l : list A) y k x : (l ++ [y]) !! k = Some x → x = y ∨ l !! k = Some x.
Proof. intros [Hk|[_ Hk]]%lookup_app_Some; [by right|left]. by destruct (_ - _); simplify_eq/=. Qed.
