(* ===== verification/Errors.v ===== *)
(** * Error handling: [ErrorCode], [Error], [Result<T>], [Result<void>]

    Models [include/ai_pipe/error.hpp].  A [Result<T>] is a tagged union, here
    an inductive type; [Result<void>] is a different class in the source (it
    stores only an [Error] and is successful when that error's code is [Ok]),
    so it has its own record.  [std::string] is Stdlib's [string]. *)

From S2P Require Import Prelude.
Local Open Scope string_scope.
Local Open Scope list_scope.

(** src/include/ai_pipe/error.hpp:25-68 ErrorCode *)
Inductive ErrorCode :=
  | EC_Ok | EC_InternalError
  | EC_InvalidArgument | EC_InvalidState | EC_NotInitialized
  | EC_AlreadyInitialized | EC_GraphCycleDetected | EC_GraphEmpty
  | EC_InvalidConfiguration
  | EC_AlreadyRunning | EC_ExecutionFailed | EC_ExecutionTimeout
  | EC_ExecutionStopped | EC_ExecutionAborted
  | EC_StreamingNotSupported | EC_NotStreaming | EC_QueueRejected | EC_QueueFull
  | EC_NodeNotFound | EC_PortNotFound | EC_NoDownstreamConnection
  | EC_EndOfStreamSignaled
  | EC_NodeException | EC_NodeUnknownException | EC_InputUnavailable
  | EC_PluginLoadFailed | EC_PluginSymbolMissing | EC_PluginVersionMismatch
  | EC_PluginInUse.

#[export] Instance ErrorCode_eq_dec : EqDecision ErrorCode.
Proof. solve_decision. Defined.

(** src/include/ai_pipe/error.hpp:25-68 ErrorCode (underlying uint16_t values) *)
Definition errorCodeValue (c : ErrorCode) : Z :=
  match c with
  | EC_Ok => 0 | EC_InternalError => 1
  | EC_InvalidArgument => 100 | EC_InvalidState => 101
  | EC_NotInitialized => 102 | EC_AlreadyInitialized => 103
  | EC_GraphCycleDetected => 104 | EC_GraphEmpty => 105
  | EC_InvalidConfiguration => 106
  | EC_AlreadyRunning => 200 | EC_ExecutionFailed => 201
  | EC_ExecutionTimeout => 202 | EC_ExecutionStopped => 203
  | EC_ExecutionAborted => 204
  | EC_StreamingNotSupported => 300 | EC_NotStreaming => 301
  | EC_QueueRejected => 302 | EC_QueueFull => 303
  | EC_NodeNotFound => 304 | EC_PortNotFound => 305
  | EC_NoDownstreamConnection => 306 | EC_EndOfStreamSignaled => 307
  | EC_NodeException => 400 | EC_NodeUnknownException => 401
  | EC_InputUnavailable => 402
  | EC_PluginLoadFailed => 500 | EC_PluginSymbolMissing => 501
  | EC_PluginVersionMismatch => 502 | EC_PluginInUse => 503
  end%Z.

(** src/include/ai_pipe/error.hpp:73-135 errorCodeToString *)
Definition errorCodeToString (c : ErrorCode) : string :=
  match c with
  | EC_Ok => "Ok"
  | EC_InternalError => "InternalError"
  | EC_InvalidArgument => "InvalidArgument"
  | EC_InvalidState => "InvalidState"
  | EC_NotInitialized => "NotInitialized"
  | EC_AlreadyInitialized => "AlreadyInitialized"
  | EC_GraphCycleDetected => "GraphCycleDetected"
  | EC_GraphEmpty => "GraphEmpty"
  | EC_InvalidConfiguration => "InvalidConfiguration"
  | EC_AlreadyRunning => "AlreadyRunning"
  | EC_ExecutionFailed => "ExecutionFailed"
  | EC_ExecutionTimeout => "ExecutionTimeout"
  | EC_ExecutionStopped => "ExecutionStopped"
  | EC_ExecutionAborted => "ExecutionAborted"
  | EC_StreamingNotSupported => "StreamingNotSupported"
  | EC_NotStreaming => "NotStreaming"
  | EC_QueueRejected => "QueueRejected"
  | EC_QueueFull => "QueueFull"
  | EC_NodeNotFound => "NodeNotFound"
  | EC_PortNotFound => "PortNotFound"
  | EC_NoDownstreamConnection => "NoDownstreamConnection"
  | EC_EndOfStreamSignaled => "EndOfStreamSignaled"
  | EC_NodeException => "NodeException"
  | EC_NodeUnknownException => "NodeUnknownException"
  | EC_InputUnavailable => "InputUnavailable"
  | EC_PluginLoadFailed => "PluginLoadFailed"
  | EC_PluginSymbolMissing => "PluginSymbolMissing"
  | EC_PluginVersionMismatch => "PluginVersionMismatch"
  | EC_PluginInUse => "PluginInUse"
  end.

(** src/include/ai_pipe/error.hpp:146-173 Error (fields and constructors) *)
Record Error := mkError {
  err_code : ErrorCode;
  err_message : string;
  err_nodeName : string;
}.

#[export] Instance Error_eq_dec : EqDecision Error.
Proof. solve_decision. Defined.

(** src/include/ai_pipe/error.hpp:171-171 Error::isOk *)
Definition error_isOk (e : Error) : bool := bool_decide (err_code e = EC_Ok).

(** src/include/ai_pipe/error.hpp:177-186 Error::toString *)
Definition error_toString (e : Error) : string :=
  errorCodeToString (err_code e)
  +:+ (if decide (err_message e = "") then "" else ": " +:+ err_message e)
  +:+ (if decide (err_nodeName e = "") then ""
       else " [node: " +:+ err_nodeName e +:+ "]").

(** src/include/ai_pipe/error.hpp:200-200 Error::ok *)
Definition error_ok : Error := mkError EC_Ok "" "".
(** src/include/ai_pipe/error.hpp:227-229 Error::nodeNotFound *)
Definition error_nodeNotFound (n : string) : Error :=
  mkError EC_NodeNotFound ("Unknown node: " +:+ n) n.
(** src/include/ai_pipe/error.hpp:231-236 Error::portNotFound *)
Definition error_portNotFound (p n : string) : Error :=
  mkError EC_PortNotFound ("Port '" +:+ p +:+ "' not found on node: " +:+ n) n.
(** src/include/ai_pipe/error.hpp:223-225 Error::nodeException *)
Definition error_nodeException (msg n : string) : Error :=
  mkError EC_NodeException msg n.

(** src/include/ai_pipe/error.hpp:265-428 Result *)
Inductive Result (T : Type) :=
  | ROk (v : T)
  | RErr (e : Error).
Arguments ROk {T} v.
Arguments RErr {T} e.

Section Result.
Context {T : Type}.
Implicit Types r : Result T.

(** src/include/ai_pipe/error.hpp:286-293 Result::err *)
Definition result_err (c : ErrorCode) (msg node : string) : Result T :=
  RErr (mkError c msg node).

(** src/include/ai_pipe/error.hpp:349-353 Result::isOk *)
Definition result_isOk r : bool := match r with ROk _ => true | RErr _ => false end.

(** src/include/ai_pipe/error.hpp:372-384 Result::valueOr *)
Definition result_valueOr r (d : T) : T :=
  match r with ROk v => v | RErr _ => d end.

(** src/include/ai_pipe/error.hpp:400-405 Result::errorCode *)
Definition result_errorCode r : ErrorCode :=
  match r with ROk _ => EC_Ok | RErr e => err_code e end.

(** src/include/ai_pipe/error.hpp:407-412 Result::errorMessage *)
Definition result_errorMessage r : string :=
  match r with ROk _ => "" | RErr e => error_toString e end.
End Result.

(** src/include/ai_pipe/error.hpp:443-464 Result<void> *)
Record VoidResult := mkVoid { void_error : Error }.

(** src/include/ai_pipe/error.hpp:447-449 Result<void>::ok *)
Definition void_ok : VoidResult := mkVoid error_ok.

(** src/include/ai_pipe/error.hpp:457-464 Result<void>::err *)
Definition void_err (c : ErrorCode) (msg node : string) : VoidResult :=
  mkVoid (mkError c msg node).

(** src/include/ai_pipe/error.hpp:468-472 Result<void>::isOk *)
Definition void_isOk (r : VoidResult) : bool := error_isOk (void_error r).

(** src/include/ai_pipe/error.hpp:480-480 Result<void>::errorCode *)
Definition void_errorCode (r : VoidResult) : ErrorCode := err_code (void_error r).

(** src/include/ai_pipe/error.hpp:482-487 Result<void>::errorMessage *)
Definition void_errorMessage (r : VoidResult) : string :=
  if void_isOk r then "" else error_toString (void_error r).

Declare Scope result_scope.
Notation "x <-? c ; k" :=
  (match c with ROk x => k | RErr e => RErr e end)
  (at level 100, c at next level, right associativity) : result_scope.

(** ** Lemmas *)

Definition all_codes : list ErrorCode :=
  [EC_Ok; EC_InternalError; EC_InvalidArgument; EC_InvalidState; EC_NotInitialized;
   EC_AlreadyInitialized; EC_GraphCycleDetected; EC_GraphEmpty;
   EC_InvalidConfiguration; EC_AlreadyRunning; EC_ExecutionFailed;
   EC_ExecutionTimeout; EC_ExecutionStopped; EC_ExecutionAborted;
   EC_StreamingNotSupported; EC_NotStreaming; EC_QueueRejected; EC_QueueFull;
   EC_NodeNotFound; EC_PortNotFound; EC_NoDownstreamConnection;
   EC_EndOfStreamSignaled; EC_NodeException; EC_NodeUnknownException;
   EC_InputUnavailable; EC_PluginLoadFailed; EC_PluginSymbolMissing;
   EC_PluginVersionMismatch; EC_PluginInUse].

Lemma all_codes_complete c : c ∈ all_codes.
Proof. destruct c; unfold all_codes; set_solver. Qed.

(** Reading a code back from its numeric value or its name. *)
Definition codeOfValue (z : Z) : option ErrorCode :=
  list_find (λ c, errorCodeValue c = z) all_codes ≫= λ p, Some p.2.
Definition codeOfString (s : string) : option ErrorCode :=
  list_find (λ c, errorCodeToString c = s) all_codes ≫= λ p, Some p.2.

Lemma codeOfValue_errorCodeValue c : codeOfValue (errorCodeValue c) = Some c.
Proof. by destruct c. Qed.

Lemma codeOfString_errorCodeToString c : codeOfString (errorCodeToString c) = Some c.
Proof. by destruct c. Qed.

#[export] Instance errorCodeValue_inj : Inj (=) (=) errorCodeValue.
Proof.
  intros c1 c2 H. apply (f_equal codeOfValue) in H.
  rewrite !codeOfValue_errorCodeValue in H. congruence.
Qed.

#[export] Instance errorCodeToString_inj : Inj (=) (=) errorCodeToString.
Proof.
  intros c1 c2 H. apply (f_equal codeOfString) in H.
  rewrite !codeOfString_errorCodeToString in H. congruence.
Qed.

Lemma errorCodeValue_u16 c : (0 ≤ errorCodeValue c < 2 ^ 16)%Z.
Proof. by destruct c. Qed.

Lemma void_isOk_spec r : void_isOk r = true ↔ void_errorCode r = EC_Ok.
Proof. unfold void_isOk, error_isOk, void_errorCode. by rewrite bool_decide_eq_true. Qed.
