(* ===== verification/Packets.v ===== *)
(** * Packets and frame identity

    [DataPacket] and [TypedParam] ([include/ai_pipe/data_packet.hpp]),
    [mutableCopy] ([data_types.hpp]) and the frame metadata classes
    ([frame_metadata.hpp]).  [std::any] is a value with its dynamic type; the C++
    types a program stores are an arbitrary universe [CppTypes] with decidable
    identity ([std::type_info]), so every theorem holds for all of them.
    Timestamps are [steady_clock] nanoseconds. *)

From Stdlib Require Import Eqdep_dec.
From S2P Require Import Prelude Errors.
Local Open Scope string_scope.
Local Open Scope list_scope.
Local Open Scope Z_scope.

(** The types a program puts into packets: identity, [typeid(T).name()] and values. *)
Class CppTypes := {
  ty : Type;
  ty_eq_dec :: EqDecision ty;
  ty_name : ty → string;
  ty_val : ty → Type;
}.

Notation FrameId := Z (only parsing).
Notation StreamId := Z (only parsing).
Notation Timestamp := Z (only parsing).

(** src/include/ai_pipe/frame_metadata.hpp:40-40 k_invalid_frame_id *)
Definition k_invalid_frame_id : FrameId := 0.

(** src/include/ai_pipe/frame_metadata.hpp:58-59 k_end_of_stream_frame_id *)
Definition k_end_of_stream_frame_id : FrameId := u64_max.

(** src/include/ai_pipe/frame_metadata.hpp:62-62 k_default_stream_id *)
Definition k_default_stream_id : StreamId := 0.

(** src/include/ai_pipe/frame_metadata.hpp:65-65 k_max_frame_drift *)
Definition k_max_frame_drift : FrameId := 100.

Section Packet.
Context `{CppTypes}.

(** [std::any] holding a value. *)
Definition any : Type := { t : ty & ty_val t }.

Definition any_type (a : any) : ty := projT1 a.

(** [std::any_cast<T>(&value)]. *)
Definition any_cast (t : ty) (a : any) : option (ty_val t) :=
  match decide (any_type a = t) with
  | left e => Some (eq_rect _ ty_val (projT2 a) _ e)
  | right _ => None
  end.

(** src/include/ai_pipe/data_packet.hpp:21-118 DataPacket *)
Record DataPacket := mkPacket {
  dp_id : FrameId;
  dp_stream_id : StreamId;
  dp_timestamp : Timestamp;
  dp_params : list (string * any);
}.

(** src/include/ai_pipe/data_packet.hpp:27-29 DataPacket (member initialisers) *)
Definition emptyPacket : DataPacket := mkPacket 0 k_default_stream_id 0 [].

(** src/include/ai_pipe/data_packet.hpp:31-31 DataPacket::frameId *)
Definition dp_frameId (p : DataPacket) : FrameId := dp_id p.

(** src/include/ai_pipe/data_packet.hpp:32-34 DataPacket::hasFrameId *)
Definition hasFrameId (p : DataPacket) : bool := bool_decide (dp_id p ≠ k_invalid_frame_id).

(** src/include/ai_pipe/data_packet.hpp:97-104 DataPacket::findParam *)
Fixpoint findParam_in (params : list (string * any)) (key : string) : option any :=
  match params with
  | [] => None
  | (k, v) :: rest => if decide (k = key) then Some v else findParam_in rest key
  end.

Definition findParam (p : DataPacket) (key : string) : option any := findParam_in (dp_params p) key.

(** src/include/ai_pipe/data_packet.hpp:43-55 DataPacket::param *)
Definition param (t : ty) (p : DataPacket) (key : string) : Result (ty_val t) :=
  match findParam p key with
  | None => RErr (mkError EC_InvalidArgument ("Missing required parameter: " +:+ key) "")
  | Some value =>
      match any_cast t value with
      | Some typed => ROk typed
      | None => RErr (mkError EC_InvalidArgument
          ("Invalid parameter type for key '" +:+ key +:+ "'. Expected type: " +:+ ty_name t) "")
      end
  end.

(** The assignment through the pointer [findParam] returns: the first entry of
    the key is overwritten in place. *)
Fixpoint assignParam (params : list (string * any)) (key : string) (v : any) : list (string * any) :=
  match params with
  | [] => []
  | (k, w) :: rest => if decide (k = key) then (k, v) :: rest else (k, w) :: assignParam rest key v
  end.

(** src/include/ai_pipe/data_packet.hpp:58-64 DataPacket::setParam *)
Definition setParam (t : ty) (p : DataPacket) (key : string) (value : ty_val t) : DataPacket :=
  let v := existT t value : any in
  mkPacket (dp_id p) (dp_stream_id p) (dp_timestamp p)
    (match findParam p key with
     | Some _ => assignParam (dp_params p) key v
     | None => dp_params p ++ [(key, v)]
     end).

(** src/include/ai_pipe/data_packet.hpp:67-67 DataPacket::has(key) *)
Definition hasKey (p : DataPacket) (key : string) : bool := bool_decide (is_Some (findParam p key)).

(** src/include/ai_pipe/data_packet.hpp:70-77 DataPacket::has<T>() *)
Fixpoint hasType_in (t : ty) (params : list (string * any)) : bool :=
  match params with
  | [] => false
  | (_, v) :: rest => if decide (any_type v = t) then true else hasType_in t rest
  end.

Definition hasType (t : ty) (p : DataPacket) : bool := hasType_in t (dp_params p).

(** src/include/ai_pipe/data_packet.hpp:80-83 DataPacket::has<T>(key) *)
Definition hasTyped (t : ty) (p : DataPacket) (key : string) : bool :=
  match findParam p key with Some v => bool_decide (any_type v = t) | None => false end.

(** src/include/ai_pipe/data_packet.hpp:85-85 DataPacket::paramCount *)
Definition paramCount (p : DataPacket) : nat := length (dp_params p).

(** src/include/ai_pipe/data_packet.hpp:87-94 DataPacket::paramKeys *)
Definition paramKeys (p : DataPacket) : list string := (dp_params p).*1.

(** src/include/ai_pipe/data_packet.hpp:133-154 TypedParam *)
Record TypedParam (t : ty) := mkTypedParam { tp_key : string }.
Arguments tp_key {t} _.

(** src/include/ai_pipe/data_packet.hpp:140-142 TypedParam::read *)
Definition tp_read {t} (tp : TypedParam t) (p : DataPacket) : Result (ty_val t) := param t p (tp_key tp).

(** src/include/ai_pipe/data_packet.hpp:144-146 TypedParam::set *)
Definition tp_set {t} (tp : TypedParam t) (p : DataPacket) (value : ty_val t) : DataPacket :=
  setParam t p (tp_key tp) value.

(** src/include/ai_pipe/data_packet.hpp:148-150 TypedParam::in *)
Definition tp_in {t} (tp : TypedParam t) (p : DataPacket) : bool := hasTyped t p (tp_key tp).

(** src/include/ai_pipe/data_types.hpp:29-31 mutableCopy *)
Definition mutableCopy (packet : option DataPacket) : option DataPacket :=
  match packet with
  | Some p => Some (mkPacket (dp_id p) (dp_stream_id p) (dp_timestamp p) (dp_params p))
  | None => None
  end.

(** ** Lemmas on parameters *)

Lemma any_cast_same t (v : ty_val t) : any_cast t (existT t v) = Some v.
Proof.
  unfold any_cast; simpl. destruct (decide (t = t)) as [e|]; [|done].
  rewrite (UIP_dec (λ x y, decide (x = y)) e eq_refl). done.
Qed.

Lemma any_cast_Some t a v : any_cast t a = Some v ↔ a = existT t v.
Proof.
  split; [|intros ->; apply any_cast_same].
  unfold any_cast. destruct a as [t' w]; simpl. destruct (decide (t' = t)) as [e|]; [|done].
  destruct e. simpl. by intros [= ->].
Qed.

Lemma any_cast_other t a : any_type a ≠ t → any_cast t a = None.
Proof. intros Hne. unfold any_cast. by destruct (decide (any_type a = t)). Qed.

Lemma findParam_None params key : findParam_in params key = None ↔ key ∉ params.*1.
Proof.
  induction params as [|[k v] params IH]; simpl; [set_solver|].
  case_decide; [set_solver|]. rewrite IH. set_solver.
Qed.

Lemma findParam_assign params key v key' :
  is_Some (findParam_in params key) →
  findParam_in (assignParam params key v) key' =
  if decide (key = key') then Some v else findParam_in params key'.
Proof.
  induction params as [|[k w] params IH]; simpl; intros Hs; [by destruct Hs|].
  destruct (decide (k = key)) as [->|Hne]; simpl.
  - by destruct (decide (key = key')).
  - rewrite IH by done. destruct (decide (k = key')) as [->|]; [by rewrite decide_False|done].
Qed.

Lemma findParam_snoc params key v key' :
  findParam_in params key = None →
  findParam_in (params ++ [(key, v)]) key' =
  if decide (key = key') then Some v else findParam_in params key'.
Proof.
  induction params as [|[k w] params IH]; simpl; [done|].
  destruct (decide (k = key)) as [->|Hne]; [done|]. intros Hn.
  destruct (decide (k = key')) as [->|]; [by rewrite decide_False by done|by rewrite IH].
Qed.

Lemma findParam_setParam t p key v key' :
  findParam (setParam t p key v) key' =
  if decide (key = key') then Some (existT t v) else findParam p key'.
Proof.
  unfold findParam, setParam; simpl. fold (findParam p key).
  destruct (findParam p key) eqn:Hf; [by apply findParam_assign|by apply findParam_snoc].
Qed.

Lemma assignParam_keys params key v : (assignParam params key v).*1 = params.*1.
Proof.
  induction params as [|[k w] params IH]; simpl; [done|]. case_decide; simpl; [done|f_equal; apply IH].
Qed.

Lemma paramKeys_setParam t p key v :
  paramKeys (setParam t p key v) = if decide (key ∈ paramKeys p) then paramKeys p else paramKeys p ++ [key].
Proof.
  unfold paramKeys, setParam; simpl. destruct (findParam p key) eqn:Hf.
  - rewrite assignParam_keys, decide_True; [done|].
    destruct (decide (key ∈ (dp_params p).*1)) as [|Hn]; [done|].
    apply findParam_None in Hn. unfold findParam in Hf. congruence.
  - apply findParam_None in Hf. by rewrite fmap_app, decide_False.
Qed.

(** A packet built by writes: what it stores is the map of the writes. *)
Definition write (p : DataPacket) (kv : string * any) : DataPacket :=
  setParam (projT1 kv.2) p kv.1 (projT2 kv.2).

Lemma write_find p kv key' :
  findParam (write p kv) key' = if decide (kv.1 = key') then Some kv.2 else findParam p key'.
Proof. unfold write. rewrite findParam_setParam. destruct kv as [k [t v]]; done. Qed.

Lemma writes_find p kvs (m : gmap string any) :
  (∀ key, findParam p key = m !! key) →
  ∀ key, findParam (foldl write p kvs) key = foldl (λ m kv, <[kv.1 := kv.2]> m) m kvs !! key.
Proof.
  revert p m. induction kvs as [|kv kvs IH]; intros p m Hm key; simpl; [done|].
  apply IH. intros key'. rewrite write_find.
  destruct (decide (kv.1 = key')) as [<-|Hne]; [by rewrite lookup_insert_eq|by rewrite lookup_insert_ne].
Qed.

Lemma writes_keys p kvs :
  NoDup (paramKeys p) →
  NoDup (paramKeys (foldl write p kvs)) ∧ paramKeys p `prefix_of` paramKeys (foldl write p kvs).
Proof.
  revert p. induction kvs as [|kv kvs IH]; intros p Hnd; simpl; [done|].
  destruct (IH (write p kv)) as [Hnd' Hpre].
  { unfold write. rewrite paramKeys_setParam. case_decide; [done|].
    apply NoDup_app; split; [done|]. split; [set_solver|apply NoDup_singleton]. }
  split; [done|]. etrans; [|done]. unfold write. rewrite paramKeys_setParam.
  case_decide; [done|by apply prefix_app_r].
Qed.
End Packet.

(** [std::shared_ptr<const PortData>]; null is [None]. *)
Notation PortDataPtr := (option DataPacket).

(** ** Frame metadata *)

Local Open Scope string_scope.
Local Open Scope Z_scope.

Definition ns_per_ms : Z := 1000000.

(** src/include/ai_pipe/frame_metadata.hpp:167-246 BasicFrameMetadata; and TimestampFrameMetadata (256-318):
    the two implementations of IFrameMetadata *)
Inductive FrameMetadata :=
  | BasicFrameMetadata (frameId : FrameId) (streamId : StreamId) (timestamp : Timestamp)
  | TimestampFrameMetadata (frameId : FrameId) (streamId : StreamId) (timestamp : Timestamp)
      (syncTolerance_ms : Z).

(** src/include/ai_pipe/frame_metadata.hpp:199-199 frameId *)
Definition fm_frameId (m : FrameMetadata) : FrameId :=
  match m with BasicFrameMetadata f _ _ | TimestampFrameMetadata f _ _ _ => f end.

(** src/include/ai_pipe/frame_metadata.hpp:200-200 streamId *)
Definition fm_streamId (m : FrameMetadata) : StreamId :=
  match m with BasicFrameMetadata _ s _ | TimestampFrameMetadata _ s _ _ => s end.

(** src/include/ai_pipe/frame_metadata.hpp:201-201 timestamp *)
Definition fm_timestamp (m : FrameMetadata) : Timestamp :=
  match m with BasicFrameMetadata _ _ t | TimestampFrameMetadata _ _ t _ => t end.

(** src/include/ai_pipe/frame_metadata.hpp:128-130 IFrameMetadata::isValid *)
Definition fm_isValid (m : FrameMetadata) : bool := bool_decide (fm_frameId m ≠ k_invalid_frame_id).

(** src/include/ai_pipe/frame_metadata.hpp:140-142 IFrameMetadata::isEndOfStream *)
Definition fm_isEndOfStream (m : FrameMetadata) : bool :=
  bool_decide (fm_frameId m = k_end_of_stream_frame_id).

(** src/include/ai_pipe/frame_metadata.hpp:203-207 BasicFrameMetadata::shouldSyncWith *)
Definition basic_shouldSyncWith (m other : FrameMetadata) : bool :=
  bool_decide (fm_frameId m = fm_frameId other).

(** src/include/ai_pipe/frame_metadata.hpp:280-285 TimestampFrameMetadata::shouldSyncWith *)
Definition ts_shouldSyncWith (tol_ms : Z) (m other : FrameMetadata) : bool :=
  bool_decide (Z.abs (fm_timestamp m - fm_timestamp other) ≤ tol_ms * ns_per_ms).

(** The virtual call. *)
Definition shouldSyncWith (m other : FrameMetadata) : bool :=
  match m with
  | BasicFrameMetadata _ _ _ => basic_shouldSyncWith m other
  | TimestampFrameMetadata _ _ _ tol => ts_shouldSyncWith tol m other
  end.

(** src/include/ai_pipe/frame_metadata.hpp:209-222 BasicFrameMetadata::compareTo *)
Definition basic_compareTo (m other : FrameMetadata) : Z :=
  if decide (fm_frameId m < fm_frameId other) then -1
  else if decide (fm_frameId m > fm_frameId other) then 1
  else if decide (fm_timestamp m < fm_timestamp other) then -1
  else if decide (fm_timestamp m > fm_timestamp other) then 1
  else 0.

(** src/include/ai_pipe/frame_metadata.hpp:287-294 TimestampFrameMetadata::compareTo *)
Definition ts_compareTo (m other : FrameMetadata) : Z :=
  if decide (fm_timestamp m < fm_timestamp other) then -1
  else if decide (fm_timestamp m > fm_timestamp other) then 1
  else 0.

(** The virtual call. *)
Definition compareTo (m other : FrameMetadata) : Z :=
  match m with
  | BasicFrameMetadata _ _ _ => basic_compareTo m other
  | TimestampFrameMetadata _ _ _ _ => ts_compareTo m other
  end.

(** src/include/ai_pipe/frame_metadata.hpp:228-235 BasicFrameMetadata::toString (and, with its own
    prefix, TimestampFrameMetadata::toString 300-307) *)
Definition fm_toString (m : FrameMetadata) : string :=
  let ms := Z.quot (fm_timestamp m) ns_per_ms in
  let name := match m with
              | BasicFrameMetadata _ _ _ => "Frame"
              | TimestampFrameMetadata _ _ _ _ => "TimestampFrame"
              end in
  name +:+ "{id=" +:+ pretty (fm_frameId m) +:+ ", stream=" +:+ pretty (fm_streamId m)
       +:+ ", ts=" +:+ pretty ms +:+ "ms}".

(** src/include/ai_pipe/frame_metadata.hpp:172-175 BasicFrameMetadata::BasicFrameMetadata *)
Definition newBasic (now : Timestamp) : FrameMetadata := BasicFrameMetadata k_invalid_frame_id k_default_stream_id now.

(** src/include/ai_pipe/frame_metadata.hpp:180-184 BasicFrameMetadata::BasicFrameMetadata(FrameId, StreamId) *)
Definition newBasicWith (frame_id : FrameId) (stream_id : StreamId) (now : Timestamp) : FrameMetadata :=
  BasicFrameMetadata frame_id stream_id now.

(** src/include/ai_pipe/frame_metadata.hpp:261-262 k_default_sync_tolerance *)
Definition k_default_sync_tolerance : Z := 33.

(** src/include/ai_pipe/frame_metadata.hpp:264-268 TimestampFrameMetadata::TimestampFrameMetadata *)
Definition newTimestamp (now : Timestamp) : FrameMetadata :=
  TimestampFrameMetadata k_invalid_frame_id k_default_stream_id now k_default_sync_tolerance.

(** src/include/ai_pipe/frame_metadata.hpp:238-238 BasicFrameMetadata::setFrameId *)
Definition fm_setFrameId (m : FrameMetadata) (id : FrameId) : FrameMetadata :=
  match m with BasicFrameMetadata _ s t => BasicFrameMetadata id s t | _ => m end.

(** src/include/ai_pipe/frame_metadata.hpp:239-239 BasicFrameMetadata::setStreamId *)
Definition fm_setStreamId (m : FrameMetadata) (id : StreamId) : FrameMetadata :=
  match m with BasicFrameMetadata f _ t => BasicFrameMetadata f id t | _ => m end.

(** src/include/ai_pipe/frame_metadata.hpp:240-240 BasicFrameMetadata::setTimestamp *)
Definition fm_setTimestamp (m : FrameMetadata) (ts : Timestamp) : FrameMetadata :=
  match m with BasicFrameMetadata f s _ => BasicFrameMetadata f s ts | _ => m end.

(** src/include/ai_pipe/frame_metadata.hpp:309-311 TimestampFrameMetadata::setSyncTolerance *)
Definition fm_setSyncTolerance (m : FrameMetadata) (tolerance : Z) : FrameMetadata :=
  match m with TimestampFrameMetadata f s t _ => TimestampFrameMetadata f s t tolerance | _ => m end.

(** src/include/ai_pipe/frame_metadata.hpp:330-335 FrameMetadataFactory::createBasic; the
    function-local static counter is the state *)
Definition createBasic (next_id : FrameId) (stream_id : StreamId) (now : Timestamp)
    : FrameId * FrameMetadata :=
  (wrap64 (next_id + 1), BasicFrameMetadata next_id stream_id now).

(** src/include/ai_pipe/frame_metadata.hpp:344-348 FrameMetadataFactory::createEndOfStream *)
Definition createEndOfStream (stream_id : StreamId) (now : Timestamp) : FrameMetadata :=
  BasicFrameMetadata k_end_of_stream_frame_id stream_id now.

(** src/include/ai_pipe/frame_metadata.hpp:353-355 operator< *)
Definition fm_lt (l r : FrameMetadata) : bool := bool_decide (compareTo l r < 0).

(** src/include/ai_pipe/frame_metadata.hpp:361-363 operator<= *)
Definition fm_le (l r : FrameMetadata) : bool := bool_decide (compareTo l r ≤ 0).

(** src/include/ai_pipe/frame_metadata.hpp:357-359 operator> *)
Definition fm_gt (l r : FrameMetadata) : bool := bool_decide (0 < compareTo l r).

(** src/include/ai_pipe/frame_metadata.hpp:365-367 operator>= *)
Definition fm_ge (l r : FrameMetadata) : bool := bool_decide (0 ≤ compareTo l r).

(** src/include/ai_pipe/frame_metadata.hpp:373-375 operator!= *)
Definition fm_ne (l r : FrameMetadata) : bool := bool_decide (compareTo l r ≠ 0).

(** src/include/ai_pipe/frame_metadata.hpp:369-371 operator== *)
Definition fm_eq (l r : FrameMetadata) : bool := bool_decide (compareTo l r = 0).

(** The two implementations compare by different keys; a stream uses one of them. *)
Definition same_kind (m m' : FrameMetadata) : Prop :=
  match m, m' with
  | BasicFrameMetadata _ _ _, BasicFrameMetadata _ _ _
  | TimestampFrameMetadata _ _ _ _, TimestampFrameMetadata _ _ _ _ => True
  | _, _ => False
  end.

(** The frames [n] calls of [createBasic] return. *)
Fixpoint createBasics (n : nat) (next_id : FrameId) (stream_id : StreamId) (now : Timestamp) : list FrameMetadata :=
  match n with
  | O => []
  | S n => let '(next_id, m) := createBasic next_id stream_id now in m :: createBasics n next_id stream_id now
  end.

Lemma createBasics_ids n next stream_id now :
  0 ≤ next → next + Z.of_nat n ≤ u64_max →
  fm_frameId <$> createBasics n next stream_id now = (λ k, next + Z.of_nat k) <$> seq 0 n.
Proof.
  revert next. induction n as [|n IH]; intros next Hp Hb; [done|]. cbn [createBasics createBasic fmap list_fmap fm_frameId seq].
  f_equal; [lia|]. rewrite wrap64_small by (unfold u64_max in Hb; lia).
  etrans; [apply IH; unfold u64_max in *; lia|]. rewrite <-fmap_S_seq, <-list_fmap_compose. apply list_fmap_ext. intros _ k _. simpl. lia.
Qed.

(** ** Claims *)

(** The factory's ids count up from one: as long as there are fewer than [2^64 - 1]
    calls each frame is valid, none is taken for an end-of-stream tag, and frames made
    later compare as later. *)
Theorem createBasic_frames n stream_id now :
  Z.of_nat n < u64_max →
  let frames := createBasics n 1 stream_id now in
  (∀ m, m ∈ frames → fm_isValid m = true ∧ fm_isEndOfStream m = false) ∧
  (∀ i j m m', (i < j)%nat → frames !! i = Some m → frames !! j = Some m' → fm_frameId m < fm_frameId m').
Proof.
  intros Hn frames. assert (fm_frameId <$> frames = (λ k, 1 + Z.of_nat k) <$> seq 0 n) as Hids by (apply createBasics_ids; lia).
  assert (∀ i m, frames !! i = Some m → (i < n)%nat ∧ fm_frameId m = 1 + Z.of_nat i) as Hat.
  { intros i m Hi. assert ((fm_frameId <$> frames) !! i = Some (fm_frameId m)) as Hf by (by rewrite list_lookup_fmap, Hi).
    rewrite Hids, list_lookup_fmap in Hf. apply fmap_Some in Hf as (k & Hk & Hf). apply lookup_seq in Hk as [-> Hk].
    split; [done|]. rewrite Hf. lia. }
  split.
  - intros m [i [Hi Hm]%Hat]%list_elem_of_lookup. unfold fm_isValid, fm_isEndOfStream, k_invalid_frame_id, k_end_of_stream_frame_id.
    rewrite Hm, bool_decide_eq_true, bool_decide_eq_false. lia.
  - intros i j m m' Hij [_ ->]%Hat [_ ->]%Hat. lia.
Qed.

(** Writing a parameter and reading any key back: the key written gives
    exactly the value at its own type and an InvalidArgument error at every
    other type; every other key answers as before; frame identity is untouched. *)
Theorem param_roundtrip `{CppTypes} (t : ty) (p : DataPacket) (key : string) (v : ty_val t) :
  param t (setParam t p key v) key = ROk v ∧
  (∀ t', t' ≠ t → ∃ e, param t' (setParam t p key v) key = RErr e ∧ err_code e = EC_InvalidArgument) ∧
  (∀ t' key', key' ≠ key → param t' (setParam t p key v) key' = param t' p key') ∧
  hasTyped t (setParam t p key v) key = true ∧
  dp_id (setParam t p key v) = dp_id p ∧ dp_stream_id (setParam t p key v) = dp_stream_id p ∧
  dp_timestamp (setParam t p key v) = dp_timestamp p.
Proof.
  unfold param, hasTyped. split_and!; [..|done|done|done].
  - by rewrite findParam_setParam, decide_True, any_cast_same.
  - intros t' Ht'. rewrite findParam_setParam, decide_True, any_cast_other by done. by eexists.
  - intros t' key' Hk. by rewrite findParam_setParam, decide_False.
  - rewrite findParam_setParam, decide_True by done. by apply bool_decide_eq_true.
Qed.

(** After any sequence of writes into an empty packet, the flat storage
    behaves as the map of those writes (last write wins), each key is stored
    once, and a successful typed read happens exactly when the map holds a value
    of that type. *)
Theorem packet_refines_map `{CppTypes} (kvs : list (string * any)) :
  let p := foldl write emptyPacket kvs in
  let m := foldl (λ m kv, <[kv.1 := kv.2]> m) (∅ : gmap string any) kvs in
  (∀ key, findParam p key = m !! key) ∧
  NoDup (paramKeys p) ∧
  (∀ key, key ∈ paramKeys p ↔ is_Some (m !! key)) ∧
  paramCount p = size m ∧
  (∀ t key v, param t p key = ROk v ↔ m !! key = Some (existT t v)).
Proof.
  intros p m. assert (∀ key, findParam p key = m !! key) as Hfind by (by apply writes_find).
  destruct (writes_keys emptyPacket kvs (NoDup_nil_2)) as [Hnd _]. fold p in Hnd.
  assert (∀ key, key ∈ paramKeys p ↔ is_Some (m !! key)) as Hkeys.
  { intros key. rewrite <-Hfind, <-not_eq_None_Some. unfold findParam, paramKeys.
    rewrite findParam_None. split; [tauto|]. intros Hn. by apply dec_stable. }
  split_and!; [done|done|done| |].
  - unfold paramCount. rewrite <-(length_fmap fst (dp_params p)), <-size_dom.
    change ((dp_params p).*1) with (paramKeys p).
    rewrite <-(size_list_to_set (C := gset string) (paramKeys p)) by done.
    f_equal. apply set_eq. intros key. by rewrite elem_of_list_to_set, elem_of_dom, Hkeys.
  - intros t key v. unfold param. rewrite Hfind. destruct (m !! key) as [a|]; [|done].
    destruct (any_cast t a) as [w|] eqn:Hc.
    + apply any_cast_Some in Hc as ->. split; [by intros [= ->]|].
      intros [= Heq]. apply inj_pair2_eq_dec in Heq; [by subst|]. intros x y. apply (decide (x = y)).
    + split; [done|]. intros [= ->]. by rewrite any_cast_same in Hc.
Qed.

(** On metadata of one kind, compareTo is a total preorder with the sign
    convention the interface states: it is antisymmetric in sign, transitive,
    and any two frames are comparable; two basic frames compare equal exactly
    when both frame id and timestamp agree. *)
Theorem compareTo_total_order (a b c : FrameMetadata) :
  same_kind a b → same_kind b c →
  compareTo b a = - compareTo a b ∧
  (fm_le a b = true → fm_le b c = true → fm_le a c = true) ∧
  (fm_le a b = true ∨ fm_le b a = true) ∧
  (fm_lt a b = negb (fm_le b a)) ∧
  (∀ f s t f' s' t', a = BasicFrameMetadata f s t → b = BasicFrameMetadata f' s' t' →
     fm_eq a b = true ↔ f = f' ∧ t = t').
Proof.
  intros Hab Hbc. unfold fm_le, fm_lt, fm_eq. rewrite !bool_decide_eq_true.
  assert (∀ x y : Z, bool_decide (x < 0) = negb (bool_decide (y ≤ 0)) ↔ (x < 0 ↔ ¬ y ≤ 0)) as Hlt.
  { intros x y. rewrite <-bool_decide_not. split; [|by intros; apply bool_decide_ext].
    intros Heq. by rewrite <-(bool_decide_eq_true (x < 0)), Heq, bool_decide_eq_true. }
  rewrite Hlt. clear Hlt.
  unfold compareTo, basic_compareTo, ts_compareTo.
  destruct a, b, c; try done; simpl; split_and!; try (repeat case_decide; lia).
  all: intros ? ? ? ? ? ? [= <- <- <-] [= <- <- <-]; rewrite bool_decide_eq_true;
    repeat case_decide; lia.
Qed.

Lemma compareTo_total_order_witness :
  compareTo (BasicFrameMetadata 2 0 7) (BasicFrameMetadata 1 0 9) =
  - compareTo (BasicFrameMetadata 1 0 9) (BasicFrameMetadata 2 0 7).
Proof.
  exact (proj1 (compareTo_total_order (BasicFrameMetadata 1 0 9) (BasicFrameMetadata 2 0 7)
                  (BasicFrameMetadata 3 1 1) I I)).
Defined.

(** Frames of different kinds are compared by different keys: equality is then not
    symmetric, which is why [compareTo_total_order] is about one kind. *)
Lemma mixed_kinds_asymmetric :
  fm_eq (TimestampFrameMetadata 1 0 7 33) (BasicFrameMetadata 2 0 7) = true ∧
  fm_eq (BasicFrameMetadata 2 0 7) (TimestampFrameMetadata 1 0 7 33) = false.
Proof. split; reflexivity. Qed.
