(* ===== verification/Kahn.v ===== *)
(** * Kahn's algorithm, generically

    [Graph::hasCycle] (src/graph.cpp) and [CompiledGraph::compile]
    (compiled_graph.hpp) run the same iterative peeling loop over two different
    representations: an [unordered_map] of in-degrees keyed by node pointer, and
    a [vector<int>] indexed by [NodeIndex]; the first counts the peeled nodes,
    the second records them.  The loop is written once here, over an interface
    [CounterStore] for the mutable counters and an accumulator [emit] for what a
    pop contributes; the two clients instantiate both.  The correctness theorem
    is proved once, against the interface's laws. *)

From S2P Require Import Prelude.

(** What the loop needs of the mutable in-degree table. *)
Class CounterStore (St A : Type) := {
  cs_get : St → A → Z;
  cs_set : St → A → Z → St;
  cs_valid : St → A → Prop;
}.
Class CounterStoreLaws (St A : Type) `{EqDecision A, CounterStore St A} := {
  cs_get_set s a b z :
    cs_valid s a → cs_get (cs_set s a z) b = if decide (a = b) then z else cs_get s b;
  cs_valid_set s a b z : cs_valid s b → cs_valid (cs_set s a z) b;
}.

Section Loop.
Context {A St R : Type} `{!EqDecision A, !CounterStore St A}.
Context (adj : A → list A) (emit : R → A → R).

(** src/src/graph.cpp:236-240 Graph::hasCycle (loop over the neighbours) *)
Definition relax (st : St * list A) (neighbor : A) : St * list A :=
  let '(remaining, ready) := st in
  let c := (cs_get remaining neighbor - 1)%Z in
  (cs_set remaining neighbor c,
   if decide (c = 0%Z) then ready ++ [neighbor] else ready).

(** src/src/graph.cpp:227-241 Graph::hasCycle (while loop); [None] is running out of fuel *)
Fixpoint kahn_loop (fuel : nat) (remaining : St) (ready : list A) (acc : R)
    : option R :=
  match ready with
  | [] => Some acc
  | current :: ready' =>
      match fuel with
      | O => None
      | S fuel' =>
          let '(remaining', ready'') :=
            fold_left relax (adj current) (remaining, ready') in
          kahn_loop fuel' remaining' ready'' (emit acc current)
      end
  end.
End Loop.

(** The loop with any accumulator is the loop that records pops, folded. *)
Lemma kahn_loop_emit {A St R} `{!EqDecision A, !CounterStore St A} adj
    (emit : R → A → R) fuel (rem : St) ready acc :
  kahn_loop adj emit fuel rem ready acc =
  (λ out, fold_left emit out acc) <$>
    kahn_loop adj (λ out a, out ++ [a]) fuel rem ready [].
Proof.
  assert (∀ pre, kahn_loop adj emit fuel rem ready (fold_left emit pre acc) =
    (λ out, fold_left emit out acc) <$>
      kahn_loop adj (λ out a, out ++ [a]) fuel rem ready pre) as H.
  { revert rem ready. induction fuel as [|f IH]; intros rem [|c r] pre; simpl; try done.
    destruct (fold_left relax (adj c) (rem, r)) as [rem' r'].
    rewrite <-IH. by rewrite fold_left_app. }
  apply (H []).
Qed.

(** Number of occurrences of [a] in [l]. *)
Definition occ {A} `{!EqDecision A} (a : A) (l : list A) : nat :=
  length (filter (λ b, b = a) l).

Section Occ.
Context {A : Type} `{!EqDecision A}.
Implicit Types (a : A) (l : list A).

Lemma occ_app a l k : occ a (l ++ k) = occ a l + occ a k.
Proof. unfold occ. by rewrite list.filter_app, length_app. Qed.

Lemma occ_cons a b l : occ a (b :: l) = (if decide (b = a) then 1 else 0) + occ a l.
Proof. unfold occ. rewrite filter_cons. by case_decide. Qed.

Lemma occ_perm a l k : l ≡ₚ k → occ a l = occ a k.
Proof. intros H. unfold occ. by rewrite H. Qed.

Lemma occ_pos a l : 0 < occ a l ↔ a ∈ l.
Proof.
  induction l as [|b l IH].
  - split; [unfold occ; simpl; lia | set_solver].
  - rewrite occ_cons, elem_of_cons. case_decide; subst; [split; [by left|lia]|].
    rewrite Nat.add_0_l, IH. split; [by right|]. by intros [->|].
Qed.

Lemma occ_zero a l : occ a l = 0 ↔ a ∉ l.
Proof. rewrite <-occ_pos. lia. Qed.
End Occ.

(** Adjacency lists built by bucketing an edge list on its sources carry each
    edge into [q] exactly once. *)
Lemma occ_bind_buckets {E A} `{!EqDecision A} (src dst : E → A) (es : list E) ns q :
  NoDup ns → (∀ e, e ∈ es → src e ∈ ns) →
  occ q (ns ≫= λ p, dst <$> filter (λ e, src e = p) es) =
  length (filter (λ e, dst e = q) es).
Proof.
  intros Hnd. induction es as [|e es IH]; intros Hes.
  { clear Hes Hnd. induction ns as [|n ns IHn]; [done|]. exact IHn. }
  rewrite filter_cons.
  transitivity ((if decide (dst e = q) then 1 else 0) +
    occ q (ns ≫= λ p, dst <$> filter (λ e, src e = p) es));
    [|rewrite IH by set_solver; by case_decide].
  assert (src e ∈ ns) as Hin by set_solver. clear IH Hes.
  assert (∀ ks, src e ∉ ks →
    (ks ≫= λ p, dst <$> filter (λ e, src e = p) (e :: es)) =
    (ks ≫= λ p, dst <$> filter (λ e, src e = p) es)) as Hks.
  { intros ks Hks. induction ks as [|k ks IHk]; [done|].
    rewrite !bind_cons, filter_cons, decide_False by set_solver. by rewrite IHk by set_solver. }
  induction ns as [|n ns IHn]; [set_solver|]. apply NoDup_cons in Hnd as [Hn Hnd].
  rewrite !bind_cons, !occ_app, filter_cons.
  destruct (decide (src e = n)) as [<-|Hne].
  - rewrite fmap_cons, occ_cons, Hks by done. lia.
  - rewrite IHn by set_solver. lia.
Qed.

Section Correct.
Context {A St : Type} `{!EqDecision A, !CounterStore St A, !CounterStoreLaws St A}.
Context (adj : A → list A) (nodes : list A).
Context (nodes_nodup : NoDup nodes).
Context (adj_closed : ∀ u v, u ∈ nodes → v ∈ adj u → v ∈ nodes).

(** The directed graph the loop works on, and what a cycle in it is. *)
Definition gedge (u v : A) : Prop := u ∈ nodes ∧ v ∈ adj u.
Definition cyclic : Prop := ∃ a, tc gedge a a.

(** In-edges (with multiplicity) that [a] receives from the nodes of [us]. *)
Definition indeg_from (us : list A) (a : A) : nat := occ a (us ≫= adj).

(** Every node of [out] has all its predecessors strictly before it. *)
Definition topological (out : list A) : Prop :=
  ∀ i v u, out !! i = Some v → gedge u v → u ∈ take i out.

Lemma indeg_from_app us ws a : indeg_from (us ++ ws) a = indeg_from us a + indeg_from ws a.
Proof. unfold indeg_from. by rewrite bind_app, occ_app. Qed.

Lemma indeg_from_singleton u a : indeg_from [u] a = occ a (adj u).
Proof. unfold indeg_from. simpl. by rewrite app_nil_r. Qed.

Lemma indeg_split out a :
  NoDup out → out ⊆ nodes →
  indeg_from nodes a = indeg_from out a + indeg_from (filter (.∉ out) nodes) a.
Proof.
  intros Hnd Hsub. rewrite <-indeg_from_app. unfold indeg_from. apply occ_perm.
  apply bind_Permutation. apply NoDup_Permutation; [done| |].
  - apply NoDup_app. split_and!; [done| |by apply NoDup_filter].
    intros x ? ?%list_elem_of_filter. naive_solver.
  - intros x. rewrite elem_of_app, list_elem_of_filter.
    destruct (decide (x ∈ out)); set_solver.
Qed.

(** One pass over the neighbours of a popped node. *)
Lemma relax_fold ns (rem : St) ready rem' ready' :
  (∀ a, a ∈ nodes → cs_valid rem a) →
  (∀ a, a ∈ ns → a ∈ nodes) →
  (∀ a, a ∈ nodes → (Z.of_nat (occ a ns) ≤ cs_get rem a)%Z) →
  fold_left relax ns (rem, ready) = (rem', ready') →
  (∀ a, a ∈ nodes → cs_valid rem' a) ∧
  (∀ a, a ∈ nodes → cs_get rem' a = (cs_get rem a - Z.of_nat (occ a ns))%Z) ∧
  ∃ new, ready' = ready ++ new ∧ NoDup new ∧
    ∀ a, a ∈ new ↔ a ∈ ns ∧ cs_get rem a = Z.of_nat (occ a ns).
Proof.
  revert rem ready. induction ns as [|n ns IH]; intros rem ready Hval Hin Hle Hf; simpl in Hf.
  { simplify_eq. split_and!; [done| |exists []].
    - intros a Ha. unfold occ; simpl. lia.
    - rewrite app_nil_r. split_and!; [done|constructor|set_solver]. }
  assert (n ∈ nodes) as Hn by set_solver.
  set (c := (cs_get rem n - 1)%Z) in *.
  assert (∀ b, cs_get (cs_set rem n c) b = if decide (n = b) then c else cs_get rem b)
    as Hget by (intros; apply cs_get_set; auto).
  assert (cs_get rem n = c + 1)%Z as Hc by (unfold c; lia).
  assert (∀ a, a ∈ nodes → Z.of_nat (occ a ns) ≤ cs_get (cs_set rem n c) a)%Z as Hle'.
  { intros a Ha. rewrite Hget. specialize (Hle a Ha). rewrite occ_cons in Hle.
    destruct (decide (n = a)); subst; lia. }
  apply IH in Hf as (Hv & Hg & new & -> & Hnd & Hnew); [|eauto using cs_valid_set|set_solver|done].
  split_and!; [done| |].
  { intros a Ha. rewrite Hg, Hget, occ_cons by done.
    destruct (decide (n = a)); subst; lia. }
  assert (∀ a, a ∈ ns → a ∈ nodes) as Hns by set_solver.
  specialize (Hle' n Hn). rewrite Hget in Hle'. rewrite decide_True in Hle' by done.
  destruct (decide (c = 0%Z)) as [Hc0|Hc0].
  - exists (n :: new). rewrite <-app_assoc. split_and!; [done| |].
    + constructor; [|done]. rewrite Hnew. intros [Hin' _]. apply occ_pos in Hin'. lia.
    + intros a. rewrite elem_of_cons, Hnew, elem_of_cons, occ_cons, Hget.
      destruct (decide (n = a)) as [<-|Hne].
      * rewrite Hc, Hc0. split; [intros _; split; [by left|lia]|by left].
      * split; [intros [->|[? ?]]; [done|split; [by right|lia]]|].
        intros [[->|?] ?]; [done|right; split; [done|lia]].
  - exists new. split_and!; [done|done|].
    intros a. rewrite Hnew, elem_of_cons, occ_cons, Hget.
    destruct (decide (n = a)) as [<-|Hne].
    + rewrite Hc. split; [intros [? ?]; split; [by left|lia]|].
      intros [_ He]. split; [|lia]. apply occ_pos. lia.
    + split; [intros [? ?]; split; [by right|lia]|].
      intros [[->|?] ?]; [done|split; [done|lia]].
Qed.

(** The loop invariant: what is true each time the [while] condition is tested. *)
Record kahn_inv (rem : St) (ready out : list A) : Prop := {
  ki_valid : ∀ a, a ∈ nodes → cs_valid rem a;
  ki_nodup : NoDup (out ++ ready);
  ki_sub : out ++ ready ⊆ nodes;
  ki_count : ∀ a, a ∈ nodes →
    cs_get rem a = (Z.of_nat (indeg_from nodes a) - Z.of_nat (indeg_from out a))%Z;
  ki_ready : ∀ a, a ∈ nodes → a ∈ out ++ ready ↔ cs_get rem a = 0%Z;
  ki_topo : topological out;
}.

Lemma kahn_inv_pred rem ready out u v :
  kahn_inv rem ready out → v ∈ out ++ ready → gedge u v → u ∈ out.
Proof.
  intros [_ Hnd Hsub Hcnt Hrdy _] Hv [Hu Huv].
  assert (v ∈ nodes) as Hvn by set_solver.
  apply Hrdy in Hv as Hz; [|done]. rewrite Hcnt in Hz by done.
  apply NoDup_app in Hnd as (Hnd & _ & _).
  rewrite (indeg_split out) in Hz by set_solver.
  destruct (decide (u ∈ out)) as [|Hno]; [done|exfalso].
  assert (v ∈ filter (.∉ out) nodes ≫= adj) as Hin.
  { apply list_elem_of_bind. exists u. by rewrite list_elem_of_filter. }
  apply occ_pos in Hin. unfold indeg_from in Hz. lia.
Qed.

Lemma kahn_inv_step rem cur ready out rem' ready' :
  kahn_inv rem (cur :: ready) out →
  fold_left relax (adj cur) (rem, ready) = (rem', ready') →
  kahn_inv rem' ready' (out ++ [cur]).
Proof.
  intros Hinv Hf. pose proof Hinv as [Hval Hnd Hsub Hcnt Hrdy Htopo].
  assert (cur ∈ nodes) as Hcur by set_solver.
  assert (NoDup (out ++ [cur])) as Hnd1.
  { replace (out ++ cur :: ready) with ((out ++ [cur]) ++ ready) in Hnd by by rewrite <-app_assoc.
    by apply NoDup_app in Hnd as (? & _ & _). }
  assert (∀ a, a ∈ nodes → Z.of_nat (occ a (adj cur)) ≤ cs_get rem a)%Z as Hle.
  { intros a Ha. rewrite Hcnt, (indeg_split (out ++ [cur])) by (done || set_solver).
    rewrite indeg_from_app, indeg_from_singleton. lia. }
  destruct (relax_fold _ _ _ _ _ Hval (λ a, adj_closed cur a Hcur) Hle Hf)
    as (Hval' & Hget' & new & -> & Hndn & Hnew).
  assert (∀ a, a ∈ new → a ∉ out ++ cur :: ready) as Hfresh.
  { intros a Ha Hold. apply Hnew in Ha as [Ha1 Ha2]. apply Hrdy in Hold; [|set_solver].
    apply occ_pos in Ha1. lia. }
  assert ((out ++ [cur]) ++ ready ++ new ≡ₚ (out ++ cur :: ready) ++ new) as Hperm.
  { by rewrite <-!app_assoc. }
  constructor.
  - done.
  - rewrite Hperm. apply NoDup_app. set_solver.
  - rewrite Hperm. set_solver.
  - intros a Ha. rewrite Hget', Hcnt, indeg_from_app, indeg_from_singleton by done. lia.
  - intros a Ha. rewrite Hperm, elem_of_app, (Hrdy a Ha), Hnew, Hget' by done.
    specialize (Hle a Ha).
    destruct (decide (a ∈ adj cur)) as [Hin|Hin].
    + apply occ_pos in Hin as ?. naive_solver lia.
    + apply occ_zero in Hin as ->. naive_solver lia.
  - intros i v u Hi Huv. apply lookup_app_Some in Hi as [Hi|[Hlen Hi]].
    + rewrite take_app_le by (apply lookup_lt_Some in Hi; lia). by eapply Htopo.
    + apply list_lookup_singleton_Some in Hi as [Hi0 <-].
      replace i with (length out) by lia. rewrite take_app_length.
      eapply kahn_inv_pred; [done| |done]. set_solver.
Qed.

Lemma kahn_loop_inv fuel rem ready out :
  kahn_inv rem ready out → length nodes < length out + fuel →
  ∃ rem' out', kahn_loop adj (λ out a, out ++ [a]) fuel rem ready out = Some out' ∧
    kahn_inv rem' [] out'.
Proof.
  revert rem ready out. induction fuel as [|f IH]; intros rem ready out Hinv Hlen.
  { exfalso. pose proof (ki_nodup _ _ _ Hinv) as Hnd. pose proof (ki_sub _ _ _ Hinv) as Hsub.
    assert (length (out ++ ready) ≤ length nodes).
    { by apply submseteq_length, NoDup_submseteq. }
    rewrite length_app in *. lia. }
  destruct ready as [|cur ready]; simpl; [eauto|].
  destruct (fold_left relax (adj cur) (rem, ready)) as [rem' ready'] eqn:Hf.
  apply IH; [by eapply kahn_inv_step|]. rewrite length_app. simpl. lia.
Qed.

(** A finite nonempty set in which everybody has a predecessor has a cycle. *)
Lemma chain_exists (rest : list A) a n :
  a ∈ rest → (∀ v, v ∈ rest → ∃ u, u ∈ rest ∧ gedge u v) →
  ∃ l, length l = S n ∧ l ⊆ rest ∧
    ∀ i u v, l !! i = Some u → l !! (i + 1) = Some v → gedge v u.
Proof.
  intros Ha Hpred. induction n as [|n (l & Hlen & Hsub & Hl)].
  { exists [a]. split_and!; [done|set_solver|]. intros [|i] u v; simpl; [naive_solver|done]. }
  destruct (last l) as [z|] eqn:Hz; [|apply last_None in Hz; by subst].
  rewrite last_lookup, Hlen in Hz. simpl in Hz.
  destruct (Hpred z) as (u & Hu & Huz).
  { apply Hsub. by eapply list_elem_of_lookup_2. }
  exists (l ++ [u]). split_and!; [rewrite length_app; simpl; lia|set_solver|].
  intros i x y Hx Hy. apply lookup_app_Some in Hy as [Hy|[Hge Hy]].
  - apply (Hl i); [|done]. apply lookup_lt_Some in Hy.
    by rewrite lookup_app_l in Hx by lia.
  - apply list_lookup_singleton_Some in Hy as [Hi <-].
    rewrite lookup_app_l in Hx by lia. replace i with n in Hx by lia. naive_solver.
Qed.

Lemma chain_tc (l : list A) i k u v :
  (∀ i u v, l !! i = Some u → l !! (i + 1) = Some v → gedge v u) →
  l !! i = Some u → l !! (i + 1 + k) = Some v → tc gedge v u.
Proof.
  intros Hl Hi. revert v. induction k as [|k IH]; intros v Hv.
  { apply tc_once. apply (Hl i); [done|]. by rewrite Nat.add_0_r in Hv. }
  destruct (lookup_lt_is_Some_2 l (i + 1 + k)) as [w Hw].
  { apply lookup_lt_Some in Hv. lia. }
  apply tc_l with w; [|by apply IH].
  apply (Hl (i + 1 + k)); [done|]. by replace (i + 1 + k + 1) with (i + 1 + S k) by lia.
Qed.

Lemma cyclic_of_rest (rest : list A) a :
  a ∈ rest → (∀ v, v ∈ rest → ∃ u, u ∈ rest ∧ gedge u v) → cyclic.
Proof.
  intros Ha Hpred. destruct (chain_exists rest a (length rest) Ha Hpred) as (l & Hlen & Hsub & Hl).
  destruct (decide (NoDup l)) as [Hnd|Hnd].
  { apply NoDup_submseteq, submseteq_length in Hsub; [|done]. lia. }
  assert (∃ i j x, i < j ∧ l !! i = Some x ∧ l !! j = Some x) as (i & j & x & Hij & Hi & Hj).
  { clear -Hnd EqDecision0. induction l as [|y l IH]; [destruct Hnd; constructor|].
    destruct (decide (y ∈ l)) as [Hy|Hy].
    - apply list_elem_of_lookup in Hy as [j Hj]. exists 0, (S j), y. simpl. split_and!; [lia|done|done].
    - destruct IH as (i & j & x & ? & ? & ?); [by rewrite NoDup_cons in Hnd; naive_solver|].
      exists (S i), (S j), x. simpl. split_and!; [lia|done|done]. }
  exists x. apply (chain_tc l i (j - i - 1)); [done|done|]. by replace (i + 1 + (j - i - 1)) with j by lia.
Qed.

(** A topologically sorted enumeration of all the nodes excludes cycles. *)
Lemma topological_acyclic out : topological out → nodes ⊆ out → NoDup out → ¬ cyclic.
Proof.
  intros Htopo Hsub Hnd [a Ha].
  assert (∀ u v, tc gedge u v → ∀ i j, out !! i = Some u → out !! j = Some v → i < j) as Hlt.
  { intros u v Htc. induction Htc as [u v Huv|u w v Huw _ IH]; intros i j Hi Hj.
    - pose proof (Htopo j v u Hj Huv) as Hu. apply list_elem_of_lookup in Hu as [k Hk].
      apply lookup_take_Some in Hk as [Hk Hkj].
      by rewrite (NoDup_lookup _ _ _ _ Hnd Hi Hk).
    - assert (w ∈ out) as Hw by (destruct Huw; set_solver).
      apply list_elem_of_lookup in Hw as [k Hk].
      specialize (IH k j Hk Hj).
      pose proof (Htopo k w u Hk Huw) as Hu. apply list_elem_of_lookup in Hu as [k' Hk'].
      apply lookup_take_Some in Hk' as [Hk' ?]. rewrite (NoDup_lookup _ _ _ _ Hnd Hi Hk'). lia. }
  assert (a ∈ nodes) as Han.
  { inversion Ha as [? ? [? _]|? ? ? [? _]]; done. }
  apply Hsub, list_elem_of_lookup in Han as [i Hi]. specialize (Hlt a a Ha i i Hi Hi). lia.
Qed.

(** The whole algorithm: it ends within [St (length nodes)] iterations, pops a
    duplicate-free topological order, and pops every node iff there is no cycle. *)
Lemma kahn_correct (rem0 : St) :
  (∀ a, a ∈ nodes → cs_valid rem0 a) →
  (∀ a, a ∈ nodes → cs_get rem0 a = Z.of_nat (indeg_from nodes a)) →
  ∃ order,
    kahn_loop adj (λ out a, out ++ [a]) (S (length nodes)) rem0
      (filter (λ a, cs_get rem0 a = 0%Z) nodes) [] = Some order ∧
    NoDup order ∧ order ⊆ nodes ∧ topological order ∧
    (length order = length nodes → ¬ cyclic) ∧ (length order ≠ length nodes → cyclic).
Proof.
  intros Hval Hcnt.
  destruct (kahn_loop_inv (S (length nodes)) rem0 (filter (λ a, cs_get rem0 a = 0%Z) nodes) [])
    as (rem' & order & Hrun & [_ Hnd Hsub Hcnt' Hrdy Htopo]).
  { constructor; simpl; [done|by apply NoDup_filter| |..].
    - intros x. rewrite list_elem_of_filter. naive_solver.
    - intros a Ha. rewrite Hcnt by done. change (indeg_from [] a) with 0. lia.
    - intros a Ha. rewrite list_elem_of_filter. naive_solver.
    - intros i v u Hi. by rewrite lookup_nil in Hi. }
  { simpl. lia. }
  rewrite app_nil_r in *. exists order. split_and!; [done|done|done|done| |].
  - intros Hlen. apply (topological_acyclic order); [done| |done].
    intros x Hx. destruct (decide (x ∈ order)); [done|exfalso].
    assert (length (x :: order) ≤ length nodes); [|simpl in *; lia].
    apply submseteq_length, NoDup_submseteq; [by constructor|set_solver].
  - intros Hne.
    assert (∃ a, a ∈ nodes ∧ a ∉ order) as (a & Ha & Hao).
    { destruct (decide (Exists (.∉ order) nodes)) as [Hex|Hex].
      - by apply list.Exists_exists in Hex.
      - apply not_Exists_Forall in Hex; [|apply _]. rewrite list.Forall_forall in Hex.
        destruct Hne. apply Nat.le_antisymm.
        + by apply submseteq_length, NoDup_submseteq.
        + apply submseteq_length, NoDup_submseteq; [done|]. intros x Hx.
          destruct (decide (x ∈ order)); [done|]. exfalso. by apply (Hex x Hx). }
    apply (cyclic_of_rest (filter (.∉ order) nodes) a); [by apply list_elem_of_filter|].
    intros v [Hv Hvn]%list_elem_of_filter.
    assert (0 < indeg_from (filter (.∉ order) nodes) v) as Hpos.
    { rewrite Hrdy, Hcnt', (indeg_split order) in Hv by done. lia. }
    unfold indeg_from in Hpos. apply occ_pos, list_elem_of_bind in Hpos as (u & Huv & Hu).
    exists u. split; [done|]. apply list_elem_of_filter in Hu. split; naive_solver.
Qed.
End Correct.
