(* ===== verification/Graphs.v ===== *)
(** * The mutable pipeline graph: [Graph], [Edge], the static part of [ILogicNode]

    Models [include/ai_pipe/graph.hpp], [edge.hpp], [src/graph.cpp] and the
    declarations of [i_logic_node.hpp] the graph reads.  Nodes are user code
    behind [shared_ptr<ILogicNode>]: a pointer is an address, and the node's
    (virtual, const) declarations are a parameter [deref] of the model.  The
    hash tables keyed by pointer or name are [gmap]s; [m_nodes] and [m_edges]
    are lists in insertion order. *)

From S2P Require Import Prelude Kahn.
Local Open Scope string_scope.
Local Open Scope list_scope.

(** [std::type_index]; [typeid(void)] is the "untyped" declaration. *)
Definition TypeIndex := string.
Definition typeid_void : TypeIndex := "void".

(** src/include/ai_pipe/i_logic_node.hpp:21-26 ILogicNode (name) and the declarations at 99-122 *)
Record ILogicNode := mkNode {
  getName : string;
  getExpectedInputPorts : list string;
  getExpectedOutputPorts : list string;
  portPayloadType : string → TypeIndex;
}.

Abbreviation NodePtr := nat (only parsing).

(** src/include/ai_pipe/edge.hpp:10-21 Edge *)
Record Edge := mkEdge {
  source_node : NodePtr;
  source_port : string;
  dest_node : NodePtr;
  dest_port : string;
}.

#[export] Instance Edge_eq_dec : EqDecision Edge.
Proof. solve_decision. Defined.

(** src/include/ai_pipe/graph.hpp:86-103 Graph (data members); [m_inDegree] holds ints, here unbounded: a degree is at
    most the number of edges *)
Record Graph := mkGraph {
  m_nodes : list NodePtr;
  m_edges : list Edge;
  m_nodeMap : gmap string NodePtr;
  m_adjListOut : gmap NodePtr (list NodePtr);
  m_adjListIn : gmap NodePtr (list NodePtr);
  m_inDegree : gmap NodePtr Z;
  m_edgeKeys : gset string;
}.

(** src/include/ai_pipe/graph.hpp:23-23 Graph::Graph *)
Definition empty_graph : Graph := mkGraph [] [] ∅ ∅ ∅ ∅ ∅.

Definition NUL : string := String Ascii.zero EmptyString.

(** src/src/graph.cpp:110-116 Graph::addEdge (edge_key) *)
Definition edge_key (sn sp dn dp : string) : string :=
  sn +:+ NUL +:+ sp +:+ NUL +:+ dn +:+ NUL +:+ dp.

Section GraphOps.
Context (deref : NodePtr → ILogicNode).
Implicit Types (g : Graph) (p : NodePtr).

(** src/src/graph.cpp:7-24 Graph::addNode; [None] is the null [shared_ptr] *)
Definition addNode g (node : option NodePtr) : Graph * bool :=
  match node with
  | None => (g, false)
  | Some p =>
      let name := getName (deref p) in
      match m_nodeMap g !! name with
      | Some _ => (g, false)
      | None =>
          (mkGraph (m_nodes g ++ [p]) (m_edges g)
             (<[name := p]> (m_nodeMap g))
             (<[p := []]> (m_adjListOut g))
             (<[p := []]> (m_adjListIn g))
             (<[p := 0%Z]> (m_inDegree g))
             (m_edgeKeys g), true)
      end
  end.

(** src/src/graph.cpp:26-32 Graph::getNode *)
Definition getNode g (name : string) : option NodePtr := m_nodeMap g !! name.

(** src/src/graph.cpp:54-70 Graph::addEdge (source port declared) *)
Definition source_port_ok (node : ILogicNode) (port : string) : bool :=
  let expected := getExpectedOutputPorts node in
  if bool_decide (expected = []) && negb (bool_decide (port = "")) then false
  else if negb (bool_decide (port = "")) then bool_decide (port ∈ expected)
  else true.

(** src/src/graph.cpp:72-89 Graph::addEdge (destination port declared) *)
Definition dest_port_ok (node : ILogicNode) (port : string) : bool :=
  let expected := getExpectedInputPorts node in
  if bool_decide (expected = []) && negb (bool_decide (port = "")) then false
  else if negb (bool_decide (port = "")) then bool_decide (port ∈ expected)
  else true.

(** src/src/graph.cpp:90-106 Graph::addEdge (payload type validation) *)
Definition payload_ok (src dst : ILogicNode) (sp dp : string) : bool :=
  if negb (bool_decide (sp = "")) && negb (bool_decide (dp = "")) then
    let st := portPayloadType src sp in
    let dt := portPayloadType dst dp in
    negb (negb (bool_decide (st = typeid_void)) &&
          negb (bool_decide (dt = typeid_void)) &&
          negb (bool_decide (st = dt)))
  else true.

(** src/src/graph.cpp:38-133 Graph::addEdge *)
Definition addEdge g (sname sport dname dport : string) : Graph * bool :=
  match getNode g sname with
  | None => (g, false)
  | Some s =>
  match getNode g dname with
  | None => (g, false)
  | Some d =>
    if negb (source_port_ok (deref s) sport) then (g, false)
    else if negb (dest_port_ok (deref d) dport) then (g, false)
    else if negb (payload_ok (deref s) (deref d) sport dport) then (g, false)
    else
      let key := edge_key sname sport dname dport in
      if decide (key ∈ m_edgeKeys g) then (g, false)
      else
        (mkGraph (m_nodes g) (m_edges g ++ [mkEdge s sport d dport])
           (m_nodeMap g)
           (<[s := default [] (m_adjListOut g !! s) ++ [d]]> (m_adjListOut g))
           (<[d := default [] (m_adjListIn g !! d) ++ [s]]> (m_adjListIn g))
           (<[d := (default 0 (m_inDegree g !! d) + 1)%Z]> (m_inDegree g))
           ({[key]} ∪ m_edgeKeys g), true)
  end
  end.

(** src/src/graph.cpp:137-148 Graph::getInDegree *)
Definition getInDegree g (node : option NodePtr) : Z :=
  match node with
  | None => 0%Z
  | Some p => match m_inDegree g !! p with Some d => d | None => 0%Z end
  end.

(** src/src/graph.cpp:150-162 Graph::getOutDegree *)
Definition getOutDegree g (node : option NodePtr) : Z :=
  match node with
  | None => 0%Z
  | Some p => match m_adjListOut g !! p with Some l => Z.of_nat (length l) | None => 0%Z end
  end.

(** src/src/graph.cpp:164-175 Graph::getOutgoingNeighbors *)
Definition getOutgoingNeighbors g (node : option NodePtr) : list NodePtr :=
  match node with
  | None => []
  | Some p => match m_adjListOut g !! p with Some l => l | None => [] end
  end.

(** src/src/graph.cpp:177-188 Graph::getIncomingNeighbors *)
Definition getIncomingNeighbors g (node : option NodePtr) : list NodePtr :=
  match node with
  | None => []
  | Some p => match m_adjListIn g !! p with Some l => l | None => [] end
  end.

(** src/src/graph.cpp:190-199 Graph::getIncomingEdges *)
Definition getIncomingEdges g p : list Edge :=
  filter (λ e, dest_node e = p) (m_edges g).

(** src/src/graph.cpp:201-210 Graph::getOutgoingEdges *)
Definition getOutgoingEdges g p : list Edge :=
  filter (λ e, source_node e = p) (m_edges g).

(** [std::unordered_map<NodePtr, int>]: [operator[]] default-inserts zero. *)
#[export] Instance degree_map_store : CounterStore (gmap NodePtr Z) NodePtr := {
  cs_get m p := default 0%Z (m !! p);
  cs_set m p z := <[p := z]> m;
  cs_valid _ _ := True;
}.
#[export] Instance degree_map_laws : CounterStoreLaws (gmap NodePtr Z) NodePtr.
Proof.
  split; [|done]. intros m a b z _. unfold cs_get, cs_set, degree_map_store.
  rewrite lookup_insert. by case_decide.
Qed.

(** src/src/graph.cpp:212-244 Graph::hasCycle; the loop is [Kahn.kahn_loop] counting pops *)
Definition hasCycle g : option bool :=
  let remaining := m_inDegree g in
  let ready := filter (λ p, cs_get remaining p = 0%Z) (m_nodes g) in
  let adj p := getOutgoingNeighbors g (Some p) in
  processed ← kahn_loop adj (λ n _, S n) (S (length (m_nodes g))) remaining ready 0;
  Some (negb (bool_decide (processed = length (m_nodes g)))).

(** src/src/graph.cpp:246-254 Graph::clear *)
Definition clear g : Graph := empty_graph.

(** ** Invariant *)

Definition key_of (e : Edge) : string :=
  edge_key (getName (deref (source_node e))) (source_port e)
           (getName (deref (dest_node e))) (dest_port e).

(** An edge respects the declarations of both its endpoints. *)
Definition edge_declared (e : Edge) : Prop :=
  source_port_ok (deref (source_node e)) (source_port e) = true ∧
  dest_port_ok (deref (dest_node e)) (dest_port e) = true ∧
  payload_ok (deref (source_node e)) (deref (dest_node e)) (source_port e) (dest_port e) = true.

(** Table [m] has exactly the keys [ns], with value [F p] at [p]. *)
Definition indexes {V} (m : gmap NodePtr V) (ns : list NodePtr) (F : NodePtr → V) : Prop :=
  ∀ p, m !! p = if decide (p ∈ ns) then Some (F p) else None.

(** Every index structure agrees with the node and edge lists. *)
Record graph_wf g : Prop := {
  gw_nodup : NoDup (m_nodes g);
  gw_map : ∀ n p, m_nodeMap g !! n = Some p ↔ p ∈ m_nodes g ∧ getName (deref p) = n;
  gw_ends : ∀ e, e ∈ m_edges g → source_node e ∈ m_nodes g ∧ dest_node e ∈ m_nodes g;
  gw_out : indexes (m_adjListOut g) (m_nodes g) (λ p, dest_node <$> getOutgoingEdges g p);
  gw_in : indexes (m_adjListIn g) (m_nodes g) (λ p, source_node <$> getIncomingEdges g p);
  gw_deg : indexes (m_inDegree g) (m_nodes g) (λ p, Z.of_nat (length (getIncomingEdges g p)));
  gw_keys : m_edgeKeys g = list_to_set (key_of <$> m_edges g);
  gw_keys_nodup : NoDup (key_of <$> m_edges g);
  gw_declared : ∀ e, e ∈ m_edges g → edge_declared e;
}.

(** The abstract edge relation and cyclicity of a graph. *)
Definition graph_edge g (u v : NodePtr) : Prop :=
  ∃ e, e ∈ m_edges g ∧ source_node e = u ∧ dest_node e = v.
Definition graph_cyclic g : Prop := ∃ p, tc (graph_edge g) p p.

(** The public mutators, as one step relation. *)
Inductive graph_step : Graph → Graph → Prop :=
  | gs_addNode g node : graph_step g (addNode g node).1
  | gs_addEdge g sn sp dn dp : graph_step g (addEdge g sn sp dn dp).1
  | gs_clear g : graph_step g (clear g).

(** ** Lemmas *)

Lemma empty_graph_wf : graph_wf empty_graph.
Proof.
  constructor; simpl; try done; try (by constructor); set_solver.
Qed.

Lemma indexes_add {V} (m : gmap NodePtr V) ns F p x :
  indexes m ns F → p ∉ ns → F p = x → indexes (<[p := x]> m) (ns ++ [p]) F.
Proof.
  intros Hm Hp Hx q. rewrite lookup_insert, Hm.
  destruct (decide (p = q)) as [<-|Hne].
  - rewrite decide_True by set_solver. by rewrite Hx.
  - destruct (decide (q ∈ ns)); [rewrite decide_True|rewrite decide_False]; set_solver.
Qed.

Lemma indexes_update {V} (m : gmap NodePtr V) ns F F' p :
  indexes m ns F → p ∈ ns → (∀ q, p ≠ q → F' q = F q) →
  indexes (<[p := F' p]> m) ns F'.
Proof.
  intros Hm Hp HF q. rewrite lookup_insert, Hm.
  destruct (decide (p = q)) as [<-|Hne]; [by rewrite decide_True|].
  case_decide; [by rewrite HF|done].
Qed.

Lemma indexes_lookup {V} (m : gmap NodePtr V) ns F p :
  indexes m ns F → p ∈ ns → m !! p = Some (F p).
Proof. intros Hm Hp. by rewrite Hm, decide_True. Qed.

Lemma filter_edges_fresh (f : Edge → NodePtr) g p :
  (∀ e, e ∈ m_edges g → f e ∈ m_nodes g) → p ∉ m_nodes g →
  filter (λ e, f e = p) (m_edges g) = [].
Proof.
  intros Hf Hp. destruct (filter _ _) as [|e l] eqn:E; [done|exfalso].
  assert (e ∈ filter (λ e, f e = p) (m_edges g)) as He by (rewrite E; set_solver).
  apply list_elem_of_filter in He as [<- He]. by apply Hp, Hf.
Qed.

Lemma addNode_wf g node : graph_wf g → graph_wf (addNode g node).1.
Proof.
  intros Hwf. destruct node as [p|]; [|done]. simpl.
  destruct (m_nodeMap g !! getName (deref p)) as [q|] eqn:Hnone; [done|simpl].
  pose proof Hwf as [Hnd Hmap Hends Hout Hin Hdeg Hkeys Hkn Hdecl].
  assert (p ∉ m_nodes g) as Hp.
  { intros Hp. assert (m_nodeMap g !! getName (deref p) = Some p) by (by apply Hmap). congruence. }
  assert (getOutgoingEdges g p = [] ∧ getIncomingEdges g p = []) as [Ho Hi].
  { split; apply filter_edges_fresh; try done; intros e He; by apply Hends. }
  constructor; simpl; try done.
  - apply NoDup_app. split_and!; [done|set_solver|apply NoDup_singleton].
  - intros n q. rewrite lookup_insert. case_decide as Hn.
    + subst n. split; [intros [= <-]; set_solver|]. intros [[?|?]%elem_of_app Hq].
      * assert (m_nodeMap g !! getName (deref p) = Some q) by (by apply Hmap). congruence.
      * set_solver.
    + rewrite Hmap, elem_of_app, list_elem_of_singleton. naive_solver.
  - intros e He. apply Hends in He. set_solver.
  - apply indexes_add; [done|done|]. exact (f_equal (fmap dest_node) Ho).
  - apply indexes_add; [done|done|]. exact (f_equal (fmap source_node) Hi).
  - apply indexes_add; [done|done|]. exact (f_equal (λ l, Z.of_nat (length l)) Hi).
Qed.

(** What [addEdge] does: either nothing, or every check passed. *)
Lemma addEdge_cases g sn sp dn dp g' b :
  addEdge g sn sp dn dp = (g', b) →
  (b = false ∧ g' = g) ∨
  (b = true ∧ ∃ s d, getNode g sn = Some s ∧ getNode g dn = Some d ∧
     source_port_ok (deref s) sp = true ∧ dest_port_ok (deref d) dp = true ∧
     payload_ok (deref s) (deref d) sp dp = true ∧
     edge_key sn sp dn dp ∉ m_edgeKeys g ∧
     g' = mkGraph (m_nodes g) (m_edges g ++ [mkEdge s sp d dp]) (m_nodeMap g)
       (<[s := default [] (m_adjListOut g !! s) ++ [d]]> (m_adjListOut g))
       (<[d := default [] (m_adjListIn g !! d) ++ [s]]> (m_adjListIn g))
       (<[d := (default 0 (m_inDegree g !! d) + 1)%Z]> (m_inDegree g))
       ({[edge_key sn sp dn dp]} ∪ m_edgeKeys g)).
Proof.
  unfold addEdge. intros H.
  destruct (getNode g sn) as [s|] eqn:Hs; [|naive_solver].
  destruct (getNode g dn) as [d|] eqn:Hd; [|naive_solver].
  destruct (source_port_ok _ _) eqn:H1; simpl in H; [|naive_solver].
  destruct (dest_port_ok _ _) eqn:H2; simpl in H; [|naive_solver].
  destruct (payload_ok _ _ _ _) eqn:H3; simpl in H; [|naive_solver].
  case_decide; naive_solver.
Qed.

Lemma addEdge_wf g sn sp dn dp : graph_wf g → graph_wf (addEdge g sn sp dn dp).1.
Proof.
  intros Hwf. destruct (addEdge g sn sp dn dp) as [g' b] eqn:Hadd. simpl.
  apply addEdge_cases in Hadd as [[_ ->]|(_ & s & d & Hs & Hd & Hsp & Hdp & Hpl & Hkey & ->)]; [done|].
  pose proof Hwf as [Hnd Hmap Hends Hout Hin Hdeg Hkeys Hkn Hdecl].
  apply Hmap in Hs as [Hs Hsn], Hd as [Hd Hdn].
  rewrite (indexes_lookup _ _ _ _ Hout Hs), (indexes_lookup _ _ _ _ Hin Hd),
    (indexes_lookup _ _ _ _ Hdeg Hd). simpl.
  assert (key_of (mkEdge s sp d dp) = edge_key sn sp dn dp) as Hk.
  { unfold key_of; simpl. by rewrite Hsn, Hdn. }
  set (e := mkEdge s sp d dp) in *.
  set (g' := mkGraph _ _ _ _ _ _ _).
  assert (∀ q, getOutgoingEdges g' q =
    if decide (s = q) then getOutgoingEdges g q ++ [e] else getOutgoingEdges g q) as Ho.
  { intros q. unfold getOutgoingEdges; simpl. rewrite filter_app, filter_cons, filter_nil.
    simpl. case_decide; [done|]. by rewrite app_nil_r. }
  assert (∀ q, getIncomingEdges g' q =
    if decide (d = q) then getIncomingEdges g q ++ [e] else getIncomingEdges g q) as Hi.
  { intros q. unfold getIncomingEdges; simpl. rewrite filter_app, filter_cons, filter_nil.
    simpl. case_decide; [done|]. by rewrite app_nil_r. }
  constructor; simpl; try done.
  - intros e' [He|He%list_elem_of_singleton]%elem_of_app; [by apply Hends|by subst].
  - replace (_ ++ [d]) with (dest_node <$> getOutgoingEdges g' s)
      by by rewrite Ho, decide_True, fmap_app.
    apply (indexes_update _ _ _ (λ p, dest_node <$> getOutgoingEdges g' p) _ Hout Hs).
    intros q Hne. by rewrite Ho, decide_False.
  - replace (_ ++ [s]) with (source_node <$> getIncomingEdges g' d)
      by by rewrite Hi, decide_True, fmap_app.
    apply (indexes_update _ _ _ (λ p, source_node <$> getIncomingEdges g' p) _ Hin Hd).
    intros q Hne. by rewrite Hi, decide_False.
  - replace (_ + 1)%Z with (Z.of_nat (length (getIncomingEdges g' d)))
      by (rewrite Hi, decide_True, length_app by done; simpl; lia).
    apply (indexes_update _ _ _ (λ p, Z.of_nat (length (getIncomingEdges g' p))) _ Hdeg Hd).
    intros q Hne. by rewrite Hi, decide_False.
  - rewrite fmap_app, list_to_set_app_L, Hkeys. simpl. rewrite Hk. set_solver.
  - rewrite fmap_app. simpl. rewrite Hk. apply NoDup_app.
    split_and!; [done| |apply NoDup_singleton].
    intros x Hx ->%list_elem_of_singleton. apply Hkey. rewrite Hkeys. by apply elem_of_list_to_set.
  - intros e' [He|He%list_elem_of_singleton]%elem_of_app; [by apply Hdecl|by subst].
Qed.

Lemma graph_step_wf g g' : graph_step g g' → graph_wf g → graph_wf g'.
Proof.
  intros Hstep Hwf.
  destruct Hstep; [by apply addNode_wf|by apply addEdge_wf|apply empty_graph_wf].
Qed.

Lemma getOutgoingNeighbors_wf g p :
  graph_wf g → p ∈ m_nodes g →
  getOutgoingNeighbors g (Some p) = dest_node <$> getOutgoingEdges g p.
Proof. intros Hwf Hp. simpl. by rewrite (indexes_lookup _ _ _ _ (gw_out _ Hwf) Hp). Qed.

Lemma hasCycle_total g :
  graph_wf g → ∃ b, hasCycle g = Some b ∧ (b = true ↔ graph_cyclic g).
Proof.
  intros Hwf. pose proof Hwf as [Hnd Hmap Hends Hout Hin Hdeg Hkeys Hkn Hdecl].
  set (adj := λ p, getOutgoingNeighbors g (Some p)).
  assert (∀ u v, u ∈ m_nodes g → v ∈ adj u ↔ ∃ e, e ∈ m_edges g ∧ source_node e = u ∧ dest_node e = v)
    as Hadj.
  { intros u v Hu. unfold adj. rewrite getOutgoingNeighbors_wf by done.
    rewrite list_elem_of_fmap. unfold getOutgoingEdges.
    setoid_rewrite list_elem_of_filter. naive_solver. }
  destruct (kahn_correct adj (m_nodes g)) with (rem0 := m_inDegree g)
    as (order & Hrun & Hond & Hosub & _ & Hlen1 & Hlen2).
  { done. }
  { intros u v Hu Hv. apply Hadj in Hv as (e & He & _ & <-); [|done]. by apply Hends. }
  { done. }
  { intros a Ha. unfold cs_get; simpl. rewrite (indexes_lookup _ _ _ _ Hdeg Ha). simpl.
    f_equal. unfold indeg_from, getIncomingEdges.
    rewrite <-(occ_bind_buckets source_node dest_node (m_edges g) (m_nodes g)) by (try done; intros; by apply Hends).
    f_equal. apply Forall_bind_ext, Forall_forall. intros u Hu.
    symmetry. by apply getOutgoingNeighbors_wf. }
  unfold hasCycle. rewrite kahn_loop_emit. fold adj.
  rewrite Hrun. simpl. eexists; split; [done|].
  assert (fold_left (λ n (_ : NodePtr), S n) order 0 = length order) as ->.
  { clear. assert (∀ k, fold_left (λ n (_ : NodePtr), S n) order k = k + length order) as H.
    { induction order as [|x l IH]; intros k; simpl; [lia|]. rewrite IH. lia. }
    apply H. }
  rewrite negb_true_iff, bool_decide_eq_false.
  assert (cyclic adj (m_nodes g) ↔ graph_cyclic g) as Hc.
  { assert (∀ u v, gedge adj (m_nodes g) u v ↔ graph_edge g u v) as He.
    { intros u v. unfold gedge, graph_edge. split; [intros [Hu Hv]; by apply Hadj|].
      intros (e & He & <- & <-). pose proof (Hends e He) as [? _]. split; [done|].
      apply Hadj; [done|]. by exists e. }
    split; intros [a Ha]; exists a; (eapply (tc_congruence id); [|exact Ha]); apply He. }
  rewrite <-Hc. split; [done|]. intros Hcyc Heq. by apply Hlen1.
Qed.
End GraphOps.

Lemma reachable_graph_wf deref g :
  rtc (graph_step deref) empty_graph g → graph_wf deref g.
Proof.
  intros H. apply (rtc_ind_r (graph_wf deref)) in H; [done|apply empty_graph_wf|].
  eauto using graph_step_wf.
Qed.

(** ** Composite edge keys *)

(** No NUL character: what makes the separator of [edge_key] unambiguous. *)
Fixpoint nul_free (s : string) : bool :=
  match s with
  | EmptyString => true
  | String c s' => negb (Ascii.eqb c Ascii.zero) && nul_free s'
  end.

Lemma nul_split s1 s2 t1 t2 :
  nul_free s1 = true → nul_free s2 = true →
  s1 +:+ NUL +:+ t1 = s2 +:+ NUL +:+ t2 → s1 = s2 ∧ t1 = t2.
Proof.
  revert s2. induction s1 as [|c s1 IH]; intros [|c2 s2]; simpl; intros H1 H2 Heq.
  - by injection Heq.
  - injection Heq as <- _. by simpl in H2.
  - injection Heq as -> _. by simpl in H1.
  - injection Heq as -> Heq. apply andb_true_iff in H1 as [_ H1], H2 as [_ H2].
    destruct (IH s2 H1 H2 Heq) as [-> ->]. done.
Qed.

Lemma edge_key_inj sn sp dn dp sn' sp' dn' dp' :
  nul_free sn && nul_free sp && nul_free dn = true →
  nul_free sn' && nul_free sp' && nul_free dn' = true →
  edge_key sn sp dn dp = edge_key sn' sp' dn' dp' →
  sn = sn' ∧ sp = sp' ∧ dn = dn' ∧ dp = dp'.
Proof.
  rewrite !andb_true_iff. intros [[? ?] ?] [[? ?] ?] Hk. unfold edge_key in Hk.
  apply nul_split in Hk as [-> Hk]; [|done|done]. apply nul_split in Hk as [-> Hk]; [|done|done].
  by apply nul_split in Hk as [-> ->].
Qed.

(** The names an edge's key is built from are free of the separator. *)
Definition edge_nul_free (deref : NodePtr → ILogicNode) (e : Edge) : bool :=
  nul_free (getName (deref (source_node e))) && nul_free (source_port e)
  && nul_free (getName (deref (dest_node e))).

Lemma addEdge_true_iff deref g sn sp dn dp :
  graph_wf deref g →
  nul_free sn && nul_free sp && nul_free dn = true →
  (∀ e, e ∈ m_edges g → edge_nul_free deref e = true) →
  (addEdge deref g sn sp dn dp).2 = true ↔
  ∃ s d, getNode g sn = Some s ∧ getNode g dn = Some d ∧
    edge_declared deref (mkEdge s sp d dp) ∧ mkEdge s sp d dp ∉ m_edges g.
Proof.
  intros Hwf Hnf Hall. destruct (addEdge deref g sn sp dn dp) as [g' b] eqn:Hadd. simpl. split.
  - intros ->. apply addEdge_cases in Hadd
      as [[? _]|(_ & s & d & Hs & Hd & Hsp & Hdp & Hpl & Hkey & _)]; [done|].
    exists s, d. split_and!; try done. intros Hin. apply Hkey.
    rewrite (gw_keys _ _ Hwf), elem_of_list_to_set, list_elem_of_fmap.
    exists (mkEdge s sp d dp). split; [|done]. unfold key_of; simpl.
    apply (gw_map _ _ Hwf) in Hs as [_ ->], Hd as [_ ->]. done.
  - intros (s & d & Hs & Hd & (Hsp & Hdp & Hpl) & Hnew). simpl in *.
    unfold addEdge in Hadd. rewrite Hs, Hd, Hsp, Hdp, Hpl in Hadd. simpl in Hadd.
    case_decide as Hkey; [exfalso|by injection Hadd].
    rewrite (gw_keys _ _ Hwf), elem_of_list_to_set, list_elem_of_fmap in Hkey.
    destruct Hkey as (e & Heq & He). unfold key_of in Heq.
    apply edge_key_inj in Heq as (Hn1 & -> & Hn2 & ->); [|done|by apply Hall].
    destruct (gw_ends _ _ Hwf e He) as [Hse Hde].
    assert (getNode g sn = Some (source_node e)) as Hs' by (by apply (gw_map _ _ Hwf)).
    assert (getNode g dn = Some (dest_node e)) as Hd' by (by apply (gw_map _ _ Hwf)).
    rewrite Hs in Hs'. rewrite Hd in Hd'. simplify_eq. by destruct e.
Qed.

(** ** Properties *)

Section Example.
(** Four untyped nodes [n0 .. n3], each with one input and one output port. *)
Definition ex_node (p : NodePtr) : ILogicNode :=
  mkNode ("n" +:+ pretty p) ["in"] ["out"] (λ _, typeid_void).
Definition ex_link g (a b : NodePtr) : Graph :=
  (addEdge ex_node g ("n" +:+ pretty a) "out" ("n" +:+ pretty b) "in").1.
Definition ex_nodes : Graph :=
  fold_left (λ g p, (addNode ex_node g (Some p)).1) [0; 1; 2; 3] empty_graph.
(** A diamond, and the diamond closed into a cycle. *)
Definition ex_diamond : Graph :=
  ex_link (ex_link (ex_link (ex_link ex_nodes 0 1) 0 2) 1 3) 2 3.
Definition ex_loop : Graph := ex_link ex_diamond 3 0.

Lemma ex_diamond_reachable : rtc (graph_step ex_node) empty_graph ex_diamond.
Proof.
  assert (∀ g a b, rtc (graph_step ex_node) empty_graph g →
    rtc (graph_step ex_node) empty_graph (ex_link g a b)) as Hl.
  { intros. eapply rtc_r; [done|constructor]. }
  assert (∀ l g, rtc (graph_step ex_node) empty_graph g →
    rtc (graph_step ex_node) empty_graph (fold_left (λ g p, (addNode ex_node g (Some p)).1) l g)) as Hn.
  { induction l as [|p l IH]; intros g Hg; [done|].
    apply IH. eapply rtc_r; [done|constructor]. }
  repeat apply Hl. apply Hn, rtc_refl.
Qed.

Lemma ex_loop_reachable : rtc (graph_step ex_node) empty_graph ex_loop.
Proof. eapply rtc_r; [apply ex_diamond_reachable|constructor]. Qed.
End Example.

(** C25: every sequence of [addNode], [addEdge] and [clear] calls keeps all the
    derived tables of a [Graph] (name map, both adjacency maps, in-degrees, the
    duplicate-edge key set) consistent with its node and edge lists, keeps node
    names unique, and admits only edges whose ports and payload types both
    endpoints declare. *)
Theorem graph_invariant deref g :
  rtc (graph_step deref) empty_graph g → graph_wf deref g.
Proof. apply reachable_graph_wf. Qed.

Lemma graph_invariant_witness :
  rtc (graph_step ex_node) empty_graph ex_loop ∧ graph_wf ex_node ex_loop.
Proof. split; [apply ex_loop_reachable|apply graph_invariant, ex_loop_reachable]. Defined.

(** C26: on every graph the public mutators can build, [hasCycle] terminates
    (its work list empties within one iteration per node) and returns [true]
    exactly when the edge relation has a cycle. *)
Theorem hasCycle_correct deref g :
  rtc (graph_step deref) empty_graph g →
  ∃ b, hasCycle g = Some b ∧ (b = true ↔ graph_cyclic g).
Proof.
  intros H. by apply (hasCycle_total deref), reachable_graph_wf.
Qed.

Lemma hasCycle_correct_witness :
  hasCycle ex_diamond = Some false ∧ hasCycle ex_loop = Some true ∧ graph_cyclic ex_loop.
Proof.
  split; [vm_compute; reflexivity|]. split; [vm_compute; reflexivity|].
  destruct (hasCycle_correct ex_node ex_loop ex_loop_reachable) as (b & Hb & Hiff).
  apply Hiff. assert (hasCycle ex_loop = Some true) as Ht by (vm_compute; reflexivity).
  congruence.
Defined.

(** In a graph whose names contain no NUL, [addEdge] succeeds exactly when
    both nodes exist, the ports and payload types are compatible with the
    declarations, and no identical edge is present: the NUL-separated key
    neither misses a duplicate nor rejects a distinct edge. *)
Theorem addEdge_accepts_iff deref g sn sp dn dp :
  rtc (graph_step deref) empty_graph g →
  nul_free sn && nul_free sp && nul_free dn = true →
  (∀ e, e ∈ m_edges g → edge_nul_free deref e = true) →
  (addEdge deref g sn sp dn dp).2 = true ↔
  ∃ s d, getNode g sn = Some s ∧ getNode g dn = Some d ∧
    edge_declared deref (mkEdge s sp d dp) ∧ mkEdge s sp d dp ∉ m_edges g.
Proof.
  intros H. by apply addEdge_true_iff, reachable_graph_wf.
Qed.

Lemma addEdge_accepts_iff_witness :
  (addEdge ex_node ex_loop "n1" "out" "n2" "in").2 = true ∧
  (addEdge ex_node ex_loop "n0" "out" "n1" "in").2 = false.
Proof.
  split.
  - apply (addEdge_accepts_iff ex_node ex_loop "n1" "out" "n2" "in");
      [apply ex_loop_reachable|reflexivity| |].
    + apply Forall_forall. vm_compute. repeat constructor.
    + exists 1, 2. split_and!; try (vm_compute; reflexivity).
      * split_and!; vm_compute; reflexivity.
      * apply (bool_decide_unpack _). vm_compute. exact I.
  - vm_compute; reflexivity.
Defined.

(** Names may contain NUL, and then the composite key is ambiguous: here the two
    distinct, well-declared edges [a:x -> b\0c:y] and [a:x\0b -> c:y] share a key
    and the second one is refused as a duplicate. *)
Definition nul_node (p : NodePtr) : ILogicNode :=
  match p with
  | 0 => mkNode "a" [] ["x"; "x" +:+ NUL +:+ "b"] (λ _, typeid_void)
  | 1 => mkNode ("b" +:+ NUL +:+ "c") ["y"] [] (λ _, typeid_void)
  | _ => mkNode "c" ["y"] [] (λ _, typeid_void)
  end.

Lemma edge_key_ambiguous :
  let g := fold_left (λ g p, (addNode nul_node g (Some p)).1) [0; 1; 2] empty_graph in
  let r1 := addEdge nul_node g "a" "x" ("b" +:+ NUL +:+ "c") "y" in
  let r2 := addEdge nul_node r1.1 "a" ("x" +:+ NUL +:+ "b") "c" "y" in
  r1.2 = true ∧ r2.2 = false ∧ m_edges r2.1 = [mkEdge 0 "x" 1 "y"].
Proof. vm_compute. done. Qed.
