(* ===== verification/CompiledGraphs.v ===== *)
(** * The immutable indexed graph: [CompiledGraph]

    Models [include/ai_pipe/compiled_graph.hpp].  A [NodeIndex] is a position in
    the node list; [k_invalid_index] and [k_invalid_port] are [None].  The
    vectors of the class are lists of the same length as [m_nodes], and the
    working tables of [compile] ([input_ports], [port_covered], [remaining]) are
    explicit.  [compile] returns [None] only if the Kahn loop runs out of fuel,
    which the theorems exclude. *)

From S2P Require Import Prelude Errors Kahn Graphs.
Local Open Scope string_scope.
Local Open Scope list_scope.

(** src/include/ai_pipe/compiled_graph.hpp:31-40 CompiledGraph::OutEdge *)
Record OutEdge := mkOutEdge {
  oe_source_port : string;
  oe_dest_node : nat;
  oe_dest_port : string;
  oe_dest_port_index : option nat;
}.

#[export] Instance OutEdge_eq_dec : EqDecision OutEdge.
Proof. solve_decision. Defined.

(** src/include/ai_pipe/compiled_graph.hpp:238-253 CompiledGraph (data members) *)
Record CompiledGraph := mkCompiled {
  cg_nodes : list NodePtr;
  cg_nameToIndex : gmap string nat;
  cg_ptrToIndex : gmap NodePtr nat;
  cg_outEdges : list (list OutEdge);
  cg_successors : list (list nat);
  cg_predecessors : list (list nat);
  cg_inDegree : list Z;
  cg_topoOrder : list nat;
  cg_sourceNodes : list nat;
  cg_sinkNodes : list nat;
}.

(** [std::vector<int>] indexed by [NodeIndex]. *)
#[export] Instance degree_vec_store : CounterStore (list Z) nat := {
  cs_get l i := default 0%Z (l !! i);
  cs_set l i z := <[i := z]> l;
  cs_valid l i := i < length l;
}.
#[export] Instance degree_vec_laws : CounterStoreLaws (list Z) nat.
Proof.
  split; unfold cs_get, cs_set, cs_valid, degree_vec_store; intros l a b z Ha.
  - rewrite list_lookup_insert. repeat case_decide; naive_solver.
  - by rewrite length_insert.
Qed.

(** [std::find] then [push_back]: append unless already present. *)
Definition push_unique {A} `{!EqDecision A} (l : list A) (x : A) : list A :=
  if decide (x ∈ l) then l else l ++ [x].

(** The tables filled by the single pass over the edges. *)
Record EdgePass := mkPass {
  ep_out : list (list OutEdge);
  ep_succ : list (list nat);
  ep_pred : list (list nat);
  ep_deg : list Z;
  ep_cov : list (list bool);
}.

(** src/include/ai_pipe/compiled_graph.hpp:129-133 CompiledGraph::compile (targets of the out edges) *)
Definition edge_targets (t : EdgePass) (i : nat) : list nat :=
  oe_dest_node <$> default [] (ep_out t !! i).

(** src/include/ai_pipe/compiled_graph.hpp:91-99 CompiledGraph::compile (dest_port_index) *)
Definition port_index (ports : list string) (port : string) : option nat :=
  fst <$> list_find (λ p, p = port) ports.

Section Compile.
Context (deref : NodePtr → ILogicNode).

(** src/include/ai_pipe/compiled_graph.hpp:82-112 CompiledGraph::compile (edge pass, one edge) *)
Definition edge_step (ptrToIndex : gmap NodePtr nat) (input_ports : list (list string))
    (acc : option EdgePass) (e : Edge) : option EdgePass :=
  t ← acc;
  src ← ptrToIndex !! source_node e;
  dst ← ptrToIndex !! dest_node e;
  let dpi := port_index (default [] (input_ports !! dst)) (dest_port e) in
  Some (mkPass
    (alter (λ l, l ++ [mkOutEdge (source_port e) dst (dest_port e) dpi]) src (ep_out t))
    (alter (λ l, push_unique l dst) src (ep_succ t))
    (alter (λ l, push_unique l src) dst (ep_pred t))
    (alter (λ d, d + 1)%Z dst (ep_deg t))
    (match dpi with
     | Some pi => alter (λ c, <[pi := true]> c) dst (ep_cov t)
     | None => ep_cov t
     end)).

(** src/include/ai_pipe/compiled_graph.hpp:59-78 CompiledGraph::compile (tables before the pass) *)
Definition index_nodes (nodes : list NodePtr) (count : nat)
    : gmap string nat * gmap NodePtr nat * list (list string) :=
  fold_left (λ '(names, ptrs, ports) i,
    match nodes !! i with
    | Some p => (<[getName (deref p) := i]> names, <[p := i]> ptrs,
                 ports ++ [getExpectedInputPorts (deref p)])
    | None => (names, ptrs, ports)
    end) (seq 0 count) (∅, ∅, []).

(** src/include/ai_pipe/compiled_graph.hpp:156-170 CompiledGraph::compile (connectivity validation) *)
Definition starving_port (deg : list Z) (ports : list (list string)) (cov : list (list bool))
    (count : nat) : option (nat * string) :=
  head (seq 0 count ≫= λ i,
    if decide (deg !! i = Some 0%Z) then []
    else (λ ps, (i, ps.1)) <$>
      filter (λ ps, ps.2 = false) (zip (default [] (ports !! i)) (default [] (cov !! i)))).

(** src/include/ai_pipe/compiled_graph.hpp:50-173 CompiledGraph::compile *)
Definition compile (g : Graph) : option (Result CompiledGraph) :=
  let nodes := m_nodes g in
  if decide (nodes = []) then Some (result_err EC_GraphEmpty "Graph has no nodes" "")
  else
    let count := Z.to_nat (wrap32 (Z.of_nat (length nodes))) in
    let '(names, ptrs, ports) := index_nodes nodes count in
    let init := mkPass (replicate count []) (replicate count []) (replicate count [])
                       (replicate count 0%Z) ((λ ps, replicate (length ps) false) <$> ports) in
    match fold_left (edge_step ptrs ports) (m_edges g) (Some init) with
    | None => Some (result_err EC_InternalError
                "Edge references a node that is not in the graph" "")
    | Some t =>
        let remaining := ep_deg t in
        let ready := filter (λ i, cs_get remaining i = 0%Z) (seq 0 count) in
        topo ← kahn_loop (edge_targets t) (λ out a, out ++ [a]) (S count) remaining ready [];
        if decide (length topo ≠ count) then
          Some (result_err EC_GraphCycleDetected "Graph contains a cycle" "")
        else
          let sources := filter (λ i, ep_deg t !! i = Some 0%Z) (seq 0 count) in
          let sinks := filter (λ i, ep_out t !! i = Some []) (seq 0 count) in
          match starving_port (ep_deg t) ports (ep_cov t) count with
          | Some (i, port) =>
              let name := match nodes !! i with Some p => getName (deref p) | None => "" end in
              Some (result_err EC_InvalidConfiguration
                ("Input port '" +:+ port +:+ "' of node '" +:+ name +:+
                 "' has no incoming edge; the node could never execute") name)
          | None =>
              Some (ROk (mkCompiled nodes names ptrs (ep_out t) (ep_succ t) (ep_pred t)
                          (ep_deg t) topo sources sinks))
          end
    end.
End Compile.

Section Lookup.
Implicit Types cg : CompiledGraph.

(** src/include/ai_pipe/compiled_graph.hpp:177-180 CompiledGraph::indexOf *)
Definition indexOf cg (name : string) : option nat := cg_nameToIndex cg !! name.

(** src/include/ai_pipe/compiled_graph.hpp:182-185 CompiledGraph::indexOfPtr *)
Definition indexOfPtr cg (p : NodePtr) : option nat := cg_ptrToIndex cg !! p.

(** src/include/ai_pipe/compiled_graph.hpp:187-191 CompiledGraph::node, nodeCount *)
Definition cg_node cg (i : nat) : option NodePtr := cg_nodes cg !! i.

(** src/include/ai_pipe/compiled_graph.hpp:195-198 CompiledGraph::outEdges *)
Definition outEdges cg (i : nat) : list OutEdge := default [] (cg_outEdges cg !! i).
(** src/include/ai_pipe/compiled_graph.hpp:200-204 CompiledGraph::successors *)
Definition successors cg (i : nat) : list nat := default [] (cg_successors cg !! i).
(** src/include/ai_pipe/compiled_graph.hpp:206-210 CompiledGraph::predecessors *)
Definition predecessors cg (i : nat) : list nat := default [] (cg_predecessors cg !! i).

(** src/include/ai_pipe/compiled_graph.hpp:212-215 CompiledGraph::inDegree *)
Definition inDegree cg (i : nat) : Z := default 0%Z (cg_inDegree cg !! i).
(** src/include/ai_pipe/compiled_graph.hpp:217-219 CompiledGraph::isSource *)
Definition isSource cg (i : nat) : bool := bool_decide (inDegree cg i = 0%Z).
(** src/include/ai_pipe/compiled_graph.hpp:221-223 CompiledGraph::isSink *)
Definition isSink cg (i : nat) : bool := bool_decide (outEdges cg i = []).
End Lookup.

(** ** Lemmas: vectors filled bucket by bucket *)

(** [v] has length [n] and holds [F i] at every index [i]. *)
Definition tabulates {V} (v : list V) (n : nat) (F : nat → V) : Prop :=
  length v = n ∧ ∀ i, i < n → v !! i = Some (F i).

Lemma tabulates_replicate {V} n (x : V) : tabulates (replicate n x) n (λ _, x).
Proof. split; [apply length_replicate|]. intros i Hi. by apply lookup_replicate. Qed.

Lemma tabulates_alter {V} (v : list V) n F F' h k :
  tabulates v n F → (∀ i, i < n → F' i = if decide (k = i) then h (F i) else F i) →
  tabulates (alter h k v) n F'.
Proof.
  intros [Hlen Hv] HF. split; [by rewrite length_alter|]. intros i Hi.
  rewrite HF by done. destruct (decide (k = i)) as [->|Hne].
  - by rewrite list_lookup_alter_eq, Hv.
  - by rewrite list_lookup_alter_ne, Hv.
Qed.

Lemma tabulates_ext {V} (v : list V) n F F' :
  tabulates v n F → (∀ i, i < n → F' i = F i) → tabulates v n F'.
Proof. intros [Hlen Hv] HF. split; [done|]. intros i Hi. by rewrite Hv, HF. Qed.

Lemma tabulates_default {V} (v : list V) n F i d :
  tabulates v n F → i < n → default d (v !! i) = F i.
Proof. intros [_ Hv] Hi. by rewrite Hv. Qed.

(** Duplicates removed, first occurrences kept. *)
Definition dedup {A} `{!EqDecision A} (l : list A) : list A := fold_left push_unique l [].

Section Dedup.
Context {A : Type} `{!EqDecision A}.
Implicit Types (l : list A) (x : A).

Lemma dedup_snoc l x : dedup (l ++ [x]) = push_unique (dedup l) x.
Proof. unfold dedup. by rewrite fold_left_app. Qed.

Lemma push_unique_elem l x y : y ∈ push_unique l x ↔ y ∈ l ∨ y = x.
Proof. unfold push_unique. case_decide; set_solver. Qed.

Lemma dedup_elem l y : y ∈ dedup l ↔ y ∈ l.
Proof.
  induction l as [|x l IH] using rev_ind; [done|].
  rewrite dedup_snoc, push_unique_elem, IH. set_solver.
Qed.

Lemma dedup_nodup l : NoDup (dedup l).
Proof.
  induction l as [|x l IH] using rev_ind; [constructor|].
  rewrite dedup_snoc. unfold push_unique. case_decide; [done|].
  apply NoDup_app. split_and!; [done|set_solver|apply NoDup_singleton].
Qed.
End Dedup.

Lemma port_index_Some ports port pi :
  port_index ports port = Some pi →
  ports !! pi = Some port ∧ ∀ j, j < pi → ports !! j ≠ Some port.
Proof.
  unfold port_index. intros ([i p] & (Hp & -> & Hlt)%list_find_Some & ->)%fmap_Some.
  simpl. split; [done|]. intros j Hj Hjp. by apply (Hlt _ _ Hjp Hj).
Qed.

Lemma port_index_elem ports port : is_Some (port_index ports port) ↔ port ∈ ports.
Proof.
  unfold port_index. rewrite fmap_is_Some. split.
  - intros [[i p] (Hp & -> & _)%list_find_Some]. by eapply list_elem_of_lookup_2.
  - intros Hin. by apply (list_find_elem_of (λ p, p = port) ports port).
Qed.

(** ** Lemmas: the tables before the edge pass *)

Lemma count_exact n :
  (Z.of_nat n < u32_mod)%Z → Z.to_nat (wrap32 (Z.of_nat n)) = n.
Proof. intros Hn. unfold wrap32. rewrite Z.mod_small by lia. lia. Qed.

Section CompileLemmas.
Context (deref : NodePtr → ILogicNode) (g : Graph) (Hwf : graph_wf deref g).
Local Notation nodes := (m_nodes g).
Local Notation n := (length (m_nodes g)).

Lemma node_names_inj i j p q :
  nodes !! i = Some p → nodes !! j = Some q → getName (deref p) = getName (deref q) → i = j.
Proof.
  intros Hp Hq Hn. pose proof Hwf as [Hnd Hmap _ _ _ _ _ _ _].
  assert (m_nodeMap g !! getName (deref p) = Some p) as H1.
  { apply Hmap. split; [by eapply list_elem_of_lookup_2|done]. }
  assert (m_nodeMap g !! getName (deref p) = Some q) as H2.
  { apply Hmap. split; [by eapply list_elem_of_lookup_2|done]. }
  assert (p = q) as -> by congruence. by eapply NoDup_lookup.
Qed.

Lemma index_nodes_spec (k : nat) :
  (k ≤ n)%nat →
  ∃ names ptrs, index_nodes deref nodes k =
    (names, ptrs, (λ p, getExpectedInputPorts (deref p)) <$> take k nodes) ∧
  (∀ nm i, names !! nm = Some i ↔ i < k ∧ ∃ p, nodes !! i = Some p ∧ getName (deref p) = nm) ∧
  (∀ p i, ptrs !! p = Some i ↔ i < k ∧ nodes !! i = Some p).
Proof.
  induction k as [|k IH]; intros Hk.
  { exists ∅, ∅. split_and!; [done| |]; intros; rewrite lookup_empty; naive_solver lia. }
  destruct IH as (names & ptrs & Heq & Hnames & Hptrs); [lia|].
  destruct (lookup_lt_is_Some_2 nodes k) as [p Hp]; [lia|].
  unfold index_nodes in *. rewrite seq_S, fold_left_app, Heq. simpl. rewrite Hp.
  do 2 eexists. split_and!.
  - f_equal. rewrite (take_S_r _ _ _ Hp), fmap_app. done.
  - intros nm i. rewrite lookup_insert. case_decide as Hnm.
    + subst nm. split; [intros [= <-]; split; [lia|by exists p]|].
      intros (Hi & q & Hq & Hn). f_equal. symmetry. by eapply node_names_inj.
    + rewrite Hnames. split; [naive_solver lia|]. intros (Hi & q & Hq & Hn).
      split; [|by exists q]. assert (i ≠ k) by naive_solver. lia.
  - intros q i. rewrite lookup_insert. case_decide as Hqp.
    + subst q. split; [intros [= <-]; split; [lia|done]|].
      intros (Hi & Hq). f_equal. by eapply NoDup_lookup; [apply (gw_nodup _ _ Hwf)|..].
    + rewrite Hptrs. split; [naive_solver lia|]. intros [Hi Hq].
      split; [|done]. assert (i ≠ k) by naive_solver. lia.
Qed.

(** ** Lemmas: the edge pass *)

Section Pass.
Context (ptrs : gmap NodePtr nat).
Context (Hptrs : ∀ p i, ptrs !! p = Some i ↔ i < n ∧ nodes !! i = Some p).

Definition ix (p : NodePtr) : nat := default 0 (ptrs !! p).
Definition ports_tbl : list (list string) := (λ p, getExpectedInputPorts (deref p)) <$> nodes.
Definition ports_at (i : nat) : list string := default [] (ports_tbl !! i).
Definition route (e : Edge) : OutEdge :=
  mkOutEdge (source_port e) (ix (dest_node e)) (dest_port e)
    (port_index (ports_at (ix (dest_node e))) (dest_port e)).
Definition fed (es : list Edge) (i pi : nat) : Prop :=
  Exists (λ e, ix (dest_node e) = i ∧ port_index (ports_at i) (dest_port e) = Some pi) es.
#[local] Instance fed_dec es i pi : Decision (fed es i pi).
Proof. unfold fed. apply _. Defined.

(** The tables after the edges [es] have been processed. *)
Record pass_spec (es : list Edge) (t : EdgePass) : Prop := {
  ps_out : tabulates (ep_out t) n (λ i, route <$> filter (λ e, ix (source_node e) = i) es);
  ps_succ : tabulates (ep_succ t) n
    (λ i, dedup ((ix ∘ dest_node) <$> filter (λ e, ix (source_node e) = i) es));
  ps_pred : tabulates (ep_pred t) n
    (λ i, dedup ((ix ∘ source_node) <$> filter (λ e, ix (dest_node e) = i) es));
  ps_deg : tabulates (ep_deg t) n
    (λ i, Z.of_nat (length (filter (λ e, ix (dest_node e) = i) es)));
  ps_cov : tabulates (ep_cov t) n
    (λ i, imap (λ pi _, bool_decide (fed es i pi)) (ports_at i));
}.

Lemma ix_lookup p : p ∈ nodes → ptrs !! p = Some (ix p) ∧ ix p < n ∧ nodes !! ix p = Some p.
Proof.
  intros [i Hi]%list_elem_of_lookup. pose proof (lookup_lt_Some _ _ _ Hi).
  assert (ptrs !! p = Some i) as Hp by (by apply Hptrs).
  unfold ix. rewrite Hp. done.
Qed.

Lemma filter_snoc_key (f : Edge → nat) es e i :
  filter (λ e, f e = i) (es ++ [e]) =
  if decide (f e = i) then filter (λ e, f e = i) es ++ [e] else filter (λ e, f e = i) es.
Proof. rewrite filter_app, filter_cons, filter_nil. case_decide; [done|]. by rewrite app_nil_r. Qed.

Lemma edge_step_spec es e t :
  pass_spec es t → source_node e ∈ nodes → dest_node e ∈ nodes →
  ∃ t', edge_step ptrs ports_tbl (Some t) e = Some t' ∧ pass_spec (es ++ [e]) t'.
Proof.
  intros [Hout Hsucc Hpred Hdeg Hcov] Hs Hd.
  apply ix_lookup in Hs as (Hs & Hsn & _), Hd as (Hd & Hdn & _).
  unfold edge_step. simpl. rewrite Hs, Hd. simpl. fold (ports_at (ix (dest_node e))).
  eexists; split; [done|]. constructor; simpl.
  - eapply tabulates_alter; [done|]. intros i Hi. rewrite filter_snoc_key.
    case_decide; [|done]. subst i. by rewrite fmap_app.
  - eapply tabulates_alter; [done|]. intros i Hi. rewrite filter_snoc_key.
    case_decide; [|done]. subst i. rewrite fmap_app. apply dedup_snoc.
  - eapply tabulates_alter; [done|]. intros i Hi. rewrite filter_snoc_key.
    case_decide; [|done]. subst i. rewrite fmap_app. apply dedup_snoc.
  - eapply tabulates_alter; [done|]. intros i Hi. rewrite filter_snoc_key.
    case_decide; [|done]. rewrite length_app. simpl. lia.
  - assert (∀ i pi, fed (es ++ [e]) i pi ↔ fed es i pi ∨
      (ix (dest_node e) = i ∧ port_index (ports_at i) (dest_port e) = Some pi)) as Hfed.
    { intros i pi. unfold fed. rewrite Exists_app, Exists_cons, Exists_nil. tauto. }
    destruct (port_index (ports_at (ix (dest_node e))) (dest_port e)) as [pi|] eqn:Hpi.
    + eapply tabulates_alter; [done|]. intros i Hi. apply list_eq. intros j.
      destruct (decide (ix (dest_node e) = i)) as [<-|Hne].
      * rewrite list_lookup_insert, length_imap, !list_lookup_imap.
        destruct (port_index_Some _ _ _ Hpi) as [Hport _].
        pose proof (lookup_lt_Some _ _ _ Hport).
        destruct (decide (pi = j ∧ pi < length (ports_at (ix (dest_node e))))) as [[<- _]|Hn].
        -- rewrite Hport. simpl. f_equal. apply bool_decide_eq_true. apply Hfed. by right.
        -- destruct (ports_at _ !! j); simpl; [|done]. f_equal. apply bool_decide_ext.
           rewrite Hfed. rewrite Hpi. naive_solver.
      * rewrite !list_lookup_imap. destruct (ports_at i !! j); simpl; [|done].
        f_equal. apply bool_decide_ext. rewrite Hfed. naive_solver.
    + eapply tabulates_ext; [done|]. intros i Hi. apply list_eq. intros j.
      rewrite !list_lookup_imap. destruct (ports_at i !! j); simpl; [|done].
      f_equal. apply bool_decide_ext. rewrite Hfed. split; [|by left].
      intros [?|[<- ?]]; [done|congruence].
Qed.

Definition pass_init : EdgePass :=
  mkPass (replicate n []) (replicate n []) (replicate n []) (replicate n 0%Z)
    ((λ ps, replicate (length ps) false) <$> ports_tbl).

Lemma pass_init_spec : pass_spec [] pass_init.
Proof.
  constructor; simpl; try apply tabulates_replicate.
  split; [unfold ports_tbl; by rewrite !length_fmap|]. intros i Hi.
  destruct (lookup_lt_is_Some_2 nodes i Hi) as [p Hp].
  unfold ports_at, ports_tbl. rewrite !list_lookup_fmap, Hp. simpl. f_equal.
  apply list_eq. intros j. rewrite list_lookup_imap.
  destruct (getExpectedInputPorts (deref p) !! j) as [x|] eqn:Hj; simpl.
  - by rewrite lookup_replicate_2 by (by eapply lookup_lt_Some).
  - apply lookup_ge_None in Hj. apply lookup_ge_None. by rewrite length_replicate.
Qed.

Lemma edge_pass_spec :
  ∃ t, fold_left (edge_step ptrs ports_tbl) (m_edges g) (Some pass_init) = Some t ∧
    pass_spec (m_edges g) t.
Proof.
  pose proof (gw_ends _ _ Hwf) as Hends. revert Hends.
  induction (m_edges g) as [|e es IH] using rev_ind; intros Hends.
  { exists pass_init. split; [done|apply pass_init_spec]. }
  destruct IH as (t & Ht & Hspec); [set_solver|].
  destruct (Hends e) as [Hs Hd]; [set_solver|].
  rewrite fold_left_app, Ht. simpl fold_left. by apply edge_step_spec.
Qed.

(** ** Lemmas: from indices back to the graph *)

Lemma ix_inj p q : p ∈ nodes → q ∈ nodes → ix p = ix q → p = q.
Proof. intros (_ & _ & Hp)%ix_lookup (_ & _ & Hq)%ix_lookup Heq. congruence. Qed.

Lemma ix_at i p : nodes !! i = Some p → ix p = i.
Proof.
  intros Hi. destruct (ix_lookup p) as (Hp & _); [by eapply list_elem_of_lookup_2|].
  apply Hptrs in Hp as [_ Hp]. by eapply NoDup_lookup; [apply (gw_nodup _ _ Hwf)|..].
Qed.

Lemma filter_by_ix (f : Edge → NodePtr) i p :
  (∀ e, e ∈ m_edges g → f e ∈ nodes) → nodes !! i = Some p →
  filter (λ e, ix (f e) = i) (m_edges g) = filter (λ e, f e = p) (m_edges g).
Proof.
  intros Hf Hi. assert (p ∈ nodes) as Hp by by eapply list_elem_of_lookup_2.
  revert Hf. induction (m_edges g) as [|e es IH]; intros Hf; [done|].
  rewrite !filter_cons, IH by set_solver.
  assert (ix (f e) = i ↔ f e = p) as Hiff.
  { split; [|intros ->; by apply ix_at]. intros He. apply ix_inj; [set_solver|done|].
    rewrite He. symmetry. by apply ix_at. }
  destruct (decide (f e = p)), (decide (ix (f e) = i)); naive_solver.
Qed.

Lemma ports_at_node i p : nodes !! i = Some p → ports_at i = getExpectedInputPorts (deref p).
Proof. intros Hi. unfold ports_at, ports_tbl. by rewrite list_lookup_fmap, Hi. Qed.
End Pass.
End CompileLemmas.

(** ** Specification *)

Section Spec.
Context (deref : NodePtr → ILogicNode) (g : Graph).

(** Every declared input position of every non-source node is the target of an edge. *)
Definition ports_fed : Prop :=
  ∀ p, p ∈ m_nodes g → getIncomingEdges g p ≠ [] →
  ∀ pi port, getExpectedInputPorts (deref p) !! pi = Some port →
  ∃ e, e ∈ getIncomingEdges g p ∧
    port_index (getExpectedInputPorts (deref p)) (dest_port e) = Some pi.

(** A routing entry is the precomputed image of a graph edge. *)
Definition routes (oe : OutEdge) (e : Edge) : Prop :=
  oe_source_port oe = source_port e ∧ oe_dest_port oe = dest_port e ∧
  m_nodes g !! oe_dest_node oe = Some (dest_node e) ∧
  oe_dest_port_index oe =
    port_index (getExpectedInputPorts (deref (dest_node e))) (dest_port e).

(** [i] comes strictly before [j] in [l]. *)
Definition before (l : list nat) (i j : nat) : Prop :=
  ∃ a b, l !! a = Some i ∧ l !! b = Some j ∧ a < b.

Record compiled_ok (cg : CompiledGraph) : Prop := {
  co_nodes : cg_nodes cg = m_nodes g;
  co_names nm i : indexOf cg nm = Some i ↔
    ∃ p, m_nodes g !! i = Some p ∧ getName (deref p) = nm;
  co_ptrs p i : indexOfPtr cg p = Some i ↔ m_nodes g !! i = Some p;
  co_out i p : m_nodes g !! i = Some p → Forall2 routes (outEdges cg i) (getOutgoingEdges g p);
  co_out_end i : (length (m_nodes g) ≤ i)%nat → outEdges cg i = [];
  co_deg i p : m_nodes g !! i = Some p →
    inDegree cg i = Z.of_nat (length (getIncomingEdges g p));
  co_succ i j p q : m_nodes g !! i = Some p → m_nodes g !! j = Some q →
    j ∈ successors cg i ↔ graph_edge g p q;
  co_pred i j p q : m_nodes g !! i = Some p → m_nodes g !! j = Some q →
    i ∈ predecessors cg j ↔ graph_edge g p q;
  co_succ_nodup i : i < length (m_nodes g) → NoDup (successors cg i) ∧ NoDup (predecessors cg i);
  co_range i j : j ∈ successors cg i ∨ j ∈ predecessors cg i →
    i < length (m_nodes g) ∧ j < length (m_nodes g);
  co_topo_perm : cg_topoOrder cg ≡ₚ seq 0 (length (m_nodes g));
  co_topo i j p q : m_nodes g !! i = Some p → m_nodes g !! j = Some q → graph_edge g p q →
    before (cg_topoOrder cg) i j;
  co_sources : cg_sourceNodes cg = filter (λ i, isSource cg i = true) (seq 0 (length (m_nodes g)));
  co_sinks : cg_sinkNodes cg = filter (λ i, isSink cg i = true) (seq 0 (length (m_nodes g)));
}.
End Spec.

(** ** Lemmas: what [compile] returns *)

Section Outcome.
Context (deref : NodePtr → ILogicNode) (g : Graph) (Hwf : graph_wf deref g).
Context (ptrs : gmap NodePtr nat).
Context (Hptrs : ∀ p i, ptrs !! p = Some i ↔ i < length (m_nodes g) ∧ m_nodes g !! i = Some p).
Context (t : EdgePass) (Ht : pass_spec deref g ptrs (m_edges g) t).
Local Notation nodes := (m_nodes g).
Local Notation n := (length (m_nodes g)).
Local Notation adj := (edge_targets t).

Lemma index_of_elem p : p ∈ nodes → ∃ i, nodes !! i = Some p ∧ i < n.
Proof. intros [i Hi]%list_elem_of_lookup. exists i. split; [done|by eapply lookup_lt_Some]. Qed.

Lemma ends_in e : e ∈ m_edges g → source_node e ∈ nodes ∧ dest_node e ∈ nodes.
Proof. apply (gw_ends _ _ Hwf). Qed.

Lemma deg_at i p : nodes !! i = Some p →
  ep_deg t !! i = Some (Z.of_nat (length (getIncomingEdges g p))).
Proof.
  intros Hi. destruct (ps_deg _ _ _ _ _ Ht) as [_ Hd].
  rewrite Hd by (by eapply lookup_lt_Some). do 3 f_equal.
  apply (filter_by_ix deref g Hwf ptrs Hptrs dest_node); [|done]. intros e He. by apply ends_in.
Qed.

Lemma out_at i p : nodes !! i = Some p →
  ep_out t !! i = Some (route deref g ptrs <$> getOutgoingEdges g p).
Proof.
  intros Hi. destruct (ps_out _ _ _ _ _ Ht) as [_ Ho].
  rewrite Ho by (by eapply lookup_lt_Some). do 2 f_equal.
  apply (filter_by_ix deref g Hwf ptrs Hptrs source_node); [|done]. intros e He. by apply ends_in.
Qed.

Lemma adj_elem i j p q : nodes !! i = Some p → nodes !! j = Some q →
  j ∈ adj i ↔ graph_edge g p q.
Proof.
  intros Hi Hj. unfold edge_targets. rewrite (out_at i p Hi). simpl. rewrite <-list_fmap_compose, list_elem_of_fmap.
  unfold graph_edge, getOutgoingEdges. setoid_rewrite list_elem_of_filter. simpl. split.
  - intros (e & -> & <- & He). exists e. split_and!; [done|done|].
    destruct (ix_lookup g ptrs Hptrs (dest_node e)) as (_ & _ & Hd); [by apply ends_in|]. congruence.
  - intros (e & He & <- & <-). exists e. split; [|done]. symmetry. by apply (ix_at deref g Hwf ptrs Hptrs).
Qed.

Lemma adj_range i j : i < n → j ∈ adj i → j < n.
Proof.
  intros [p Hp]%lookup_lt_is_Some_2 Hj. unfold edge_targets in Hj. rewrite (out_at i p Hp) in Hj. simpl in Hj.
  rewrite <-list_fmap_compose, list_elem_of_fmap in Hj. destruct Hj as (e & -> & He). simpl.
  apply list_elem_of_filter in He as [_ He].
  by destruct (ix_lookup g ptrs Hptrs (dest_node e)) as (_ & ? & _); [by apply ends_in|].
Qed.

Lemma gedge_nodes i j p q : nodes !! i = Some p → nodes !! j = Some q →
  gedge adj (seq 0 n) i j ↔ graph_edge g p q.
Proof.
  intros Hi Hj. unfold gedge. rewrite (adj_elem i j p q) by done.
  rewrite elem_of_seq. apply lookup_lt_Some in Hi. naive_solver lia.
Qed.

Lemma gedge_range i j : gedge adj (seq 0 n) i j → i < n ∧ j < n.
Proof. intros [Hi%elem_of_seq Hj]. assert (i < n) by lia. split; [done|by eapply adj_range]. Qed.

Lemma cyclic_nodes : cyclic adj (seq 0 n) ↔ graph_cyclic g.
Proof.
  split.
  - intros [a Ha]. exists (default 0 (nodes !! a)).
    eapply (tc_congruence (λ i, default 0 (nodes !! i))); [|exact Ha].
    intros i j Hij. destruct (gedge_range i j Hij) as [[p Hp]%lookup_lt_is_Some_2 [q Hq]%lookup_lt_is_Some_2].
    rewrite Hp, Hq. simpl. by eapply gedge_nodes.
  - intros [p Hp]. exists (ix ptrs p). eapply (tc_congruence (ix ptrs)); [|exact Hp].
    intros u v Huv. pose proof Huv as (e & He & <- & <-). destruct (ends_in e He) as [Hs Hd].
    apply (ix_lookup g ptrs Hptrs) in Hs as (_ & _ & Hs), Hd as (_ & _ & Hd).
    by eapply gedge_nodes.
Qed.

Lemma kahn_outcome :
  ∃ topo, kahn_loop adj (λ out a, out ++ [a]) (S n) (ep_deg t)
      (filter (λ i, cs_get (ep_deg t) i = 0%Z) (seq 0 n)) [] = Some topo ∧
    NoDup topo ∧ topo ⊆ seq 0 n ∧ topological adj (seq 0 n) topo ∧
    (length topo = n → ¬ graph_cyclic g) ∧ (length topo ≠ n → graph_cyclic g).
Proof.
  destruct (kahn_correct adj (seq 0 n)) with (rem0 := ep_deg t) as (topo & H).
  - apply NoDup_seq.
  - intros u v Hu Hv. apply elem_of_seq in Hu. apply elem_of_seq.
    pose proof (adj_range u v ltac:(lia) Hv). lia.
  - intros a Ha%elem_of_seq. unfold cs_valid; simpl.
    destruct (ps_deg _ _ _ _ _ Ht) as [-> _]. lia.
  - intros a Ha%elem_of_seq. unfold cs_get, indeg_from; simpl.
    rewrite (tabulates_default _ _ _ a 0%Z (ps_deg _ _ _ _ _ Ht)) by lia. f_equal.
    rewrite <-(occ_bind_buckets (ix ptrs ∘ source_node) (ix ptrs ∘ dest_node) _ (seq 0 n)).
    + f_equal. apply Forall_bind_ext, Forall_forall. intros i Hi%elem_of_seq.
      unfold edge_targets. rewrite (tabulates_default _ _ _ i [] (ps_out _ _ _ _ _ Ht)) by lia.
      by rewrite <-list_fmap_compose.
    + apply NoDup_seq.
    + intros e He. apply elem_of_seq. simpl.
      destruct (ix_lookup g ptrs Hptrs (source_node e)) as (_ & ? & _); [by apply ends_in|]. lia.
  - exists topo. rewrite length_seq, cyclic_nodes in H. exact H.
Qed.

Lemma fed_iff i p pi : nodes !! i = Some p →
  fed deref g ptrs (m_edges g) i pi ↔
  ∃ e, e ∈ getIncomingEdges g p ∧
    port_index (getExpectedInputPorts (deref p)) (dest_port e) = Some pi.
Proof.
  intros Hi. unfold fed, getIncomingEdges. rewrite Exists_exists.
  setoid_rewrite list_elem_of_filter. rewrite (ports_at_node deref g i p Hi).
  split; intros (e & He); exists e; [destruct He as (He & Hx & Hpi)|destruct He as ((Hx & He) & Hpi)].
  - split_and!; [|done|done]. apply (ix_inj g ptrs Hptrs); [by apply ends_in|by eapply list_elem_of_lookup_2|].
    rewrite Hx. symmetry. by apply (ix_at deref g Hwf ptrs Hptrs).
  - split_and!; [done| |done]. subst p. by apply (ix_at deref g Hwf ptrs Hptrs).
Qed.

(** Port [pi] of node [i] is reported as starving. *)
Lemma starving_iff i port :
  (i, port) ∈ (seq 0 n ≫= λ i,
    if decide (ep_deg t !! i = Some 0%Z) then []
    else (λ ps, (i, ps.1)) <$> filter (λ ps, ps.2 = false)
      (zip (default [] (ports_tbl deref g !! i)) (default [] (ep_cov t !! i)))) ↔
  ∃ p pi, nodes !! i = Some p ∧ getIncomingEdges g p ≠ [] ∧
    getExpectedInputPorts (deref p) !! pi = Some port ∧
    ¬ ∃ e, e ∈ getIncomingEdges g p ∧
      port_index (getExpectedInputPorts (deref p)) (dest_port e) = Some pi.
Proof.
  assert (∀ i p, nodes !! i = Some p → ep_deg t !! i = Some 0%Z ↔ getIncomingEdges g p = []) as Hz.
  { intros k p Hk. rewrite (deg_at k p Hk). destruct (getIncomingEdges g p); simpl; [done|].
    by split. }
  rewrite list_elem_of_bind. setoid_rewrite elem_of_seq. split.
  - intros (k & Hin & Hk). destruct (lookup_lt_is_Some_2 nodes k) as [p Hp]; [lia|].
    case_decide as Hd; [by apply elem_of_nil in Hin|].
    apply list_elem_of_fmap in Hin as ([x b] & Hpair & Hf). simpl in Hpair. simplify_eq.
    apply list_elem_of_filter in Hf as [Hb Hzip]. simpl in Hb. subst b.
    apply list_elem_of_lookup in Hzip as [pi Hpi]. fold (ports_at deref g k) in Hpi.
    rewrite (ports_at_node deref g k p Hp) in Hpi.
    rewrite (tabulates_default _ _ _ k [] (ps_cov _ _ _ _ _ Ht)) in Hpi by lia.
    apply lookup_zip_Some in Hpi as [Hx Hcov].
    rewrite list_lookup_imap, (ports_at_node deref g k p Hp), Hx in Hcov. simpl in Hcov.
    injection Hcov as Hcov%bool_decide_eq_false. exists p, pi.
    split_and!; [done| |done|by rewrite <-(fed_iff k p pi Hp)]. by rewrite <-(Hz k p Hp).
  - intros (p & pi & Hp & Hne & Hport & Hnf). pose proof (lookup_lt_Some _ _ _ Hp).
    exists i. split; [|lia]. rewrite decide_False by (by rewrite (Hz i p Hp)).
    apply list_elem_of_fmap. exists (port, false). split; [done|].
    apply list_elem_of_filter. split; [done|]. apply list_elem_of_lookup. exists pi.
    fold (ports_at deref g i). rewrite (ports_at_node deref g i p Hp).
    rewrite (tabulates_default _ _ _ i [] (ps_cov _ _ _ _ _ Ht)) by lia.
    apply lookup_zip_Some. split; [done|].
    rewrite list_lookup_imap, (ports_at_node deref g i p Hp), Hport. simpl. f_equal.
    apply bool_decide_eq_false. by rewrite (fed_iff i p pi Hp).
Qed.

Lemma starving_port_spec :
  match starving_port (ep_deg t) (ports_tbl deref g) (ep_cov t) n with
  | None => ports_fed deref g
  | Some _ => ¬ ports_fed deref g
  end.
Proof.
  unfold starving_port. destruct (head _) as [[i port]|] eqn:Hh.
  - apply head_Some_elem_of, starving_iff in Hh as (p & pi & Hp & Hne & Hport & Hnf).
    intros Hfed. apply Hnf, (Hfed p) with port; [by eapply list_elem_of_lookup_2|done|done].
  - apply head_None in Hh. intros p (i & Hi & _)%index_of_elem Hne pi port Hport.
    destruct (decide (fed deref g ptrs (m_edges g) i pi)) as [Hf|Hf].
    { by apply (fed_iff i p pi Hi). }
    exfalso. eapply not_elem_of_nil. rewrite <-Hh. apply starving_iff.
    exists p, pi. split_and!; [done|done|done|]. by rewrite <-(fed_iff i p pi Hi).
Qed.

Lemma succ_at i : i < n → default [] (ep_succ t !! i) = dedup (adj i).
Proof.
  intros Hi. unfold edge_targets.
  rewrite (tabulates_default _ _ _ i [] (ps_succ _ _ _ _ _ Ht)) by done.
  rewrite (tabulates_default _ _ _ i [] (ps_out _ _ _ _ _ Ht)) by done.
  by rewrite <-list_fmap_compose.
Qed.

Lemma pred_elem i j p q : nodes !! i = Some p → nodes !! j = Some q →
  i ∈ default [] (ep_pred t !! j) ↔ graph_edge g p q.
Proof.
  intros Hi Hj. pose proof (lookup_lt_Some _ _ _ Hj).
  rewrite (tabulates_default _ _ _ j [] (ps_pred _ _ _ _ _ Ht)) by done.
  rewrite dedup_elem, list_elem_of_fmap.
  rewrite (filter_by_ix deref g Hwf ptrs Hptrs dest_node j q) by (try done; intros; by apply ends_in).
  unfold graph_edge. setoid_rewrite list_elem_of_filter. simpl. split.
  - intros (e & -> & <- & He). exists e. split_and!; [done| |done].
    destruct (ix_lookup g ptrs Hptrs (source_node e)) as (_ & _ & Hd); [by apply ends_in|]. congruence.
  - intros (e & He & <- & <-). exists e. split; [|done]. symmetry. by apply (ix_at deref g Hwf ptrs Hptrs).
Qed.

Lemma routes_route e : e ∈ m_edges g → routes deref g (route deref g ptrs e) e.
Proof.
  intros He. destruct (ix_lookup g ptrs Hptrs (dest_node e)) as (_ & _ & Hd); [by apply ends_in|].
  unfold routes; simpl. split_and!; [done|done|done|]. by rewrite (ports_at_node deref g _ _ Hd).
Qed.

Lemma compiled_ok_of names topo :
  (∀ nm i, names !! nm = Some i ↔ i < n ∧ ∃ p, nodes !! i = Some p ∧ getName (deref p) = nm) →
  NoDup topo → topo ⊆ seq 0 n → topological adj (seq 0 n) topo → length topo = n →
  compiled_ok deref g
    (mkCompiled nodes names ptrs (ep_out t) (ep_succ t) (ep_pred t) (ep_deg t) topo
       (filter (λ i, ep_deg t !! i = Some 0%Z) (seq 0 n))
       (filter (λ i, ep_out t !! i = Some []) (seq 0 n))).
Proof.
  intros Hnames Hnd Hsub Htopo Hlen.
  assert (topo ≡ₚ seq 0 n) as Hperm.
  { apply submseteq_length_Permutation; [by apply NoDup_submseteq|]. rewrite length_seq. lia. }
  constructor; simpl; try done; unfold indexOf, indexOfPtr, outEdges, inDegree, successors,
    predecessors, isSource, isSink, inDegree, outEdges; simpl.
  - intros nm i. rewrite Hnames. split; [naive_solver|]. intros (p & Hp & Hn).
    split; [by eapply lookup_lt_Some|by exists p].
  - intros p i. rewrite Hptrs. split; [naive_solver|]. intros Hi.
    split; [by eapply lookup_lt_Some|done].
  - intros i p Hi. rewrite (out_at i p Hi). simpl. apply Forall2_fmap_l.
    apply Forall_Forall2_diag, Forall_forall. intros e [_ He]%list_elem_of_filter.
    by apply routes_route.
  - intros i Hi. destruct (ps_out _ _ _ _ _ Ht) as [Hlo _]. by rewrite lookup_ge_None_2 by lia.
  - intros i p Hi. by rewrite (deg_at i p Hi).
  - intros i j p q Hi Hj. rewrite succ_at, dedup_elem by (by eapply lookup_lt_Some).
    by apply adj_elem.
  - intros i j p q Hi Hj. by apply pred_elem.
  - intros i Hi. rewrite succ_at by done.
    rewrite (tabulates_default _ _ _ i [] (ps_pred _ _ _ _ _ Ht)) by done.
    split; apply dedup_nodup.
  - intros i j Hij. destruct (decide (i < n)) as [Hi|Hi].
    + split; [done|]. destruct Hij as [Hij|Hij].
      * rewrite succ_at, dedup_elem in Hij by done. by eapply adj_range.
      * rewrite (tabulates_default _ _ _ i [] (ps_pred _ _ _ _ _ Ht)) in Hij by done.
        rewrite dedup_elem, list_elem_of_fmap in Hij. destruct Hij as (e & -> & He).
        apply list_elem_of_filter in He as [_ He].
        by destruct (ix_lookup g ptrs Hptrs (source_node e)) as (_ & ? & _); [by apply ends_in|].
    + destruct (ps_succ _ _ _ _ _ Ht) as [Hls _], (ps_pred _ _ _ _ _ Ht) as [Hlp _].
      rewrite !lookup_ge_None_2 in Hij by lia. simpl in Hij. set_solver.
  - intros i j p q Hi Hj Hpq. assert (j ∈ topo) as Hjt.
    { rewrite Hperm. apply elem_of_seq. apply lookup_lt_Some in Hj. lia. }
    apply list_elem_of_lookup in Hjt as [b Hb].
    assert (i ∈ take b topo) as Hit.
    { eapply Htopo; [done|]. by eapply gedge_nodes. }
    apply list_elem_of_lookup in Hit as [a Ha]. apply lookup_take_Some in Ha as [Ha Hab].
    by exists a, b.
  - apply filter_ext_elem. intros i Hi%elem_of_seq.
    rewrite bool_decide_eq_true. destruct (lookup_lt_is_Some_2 nodes i) as [p Hp]; [lia|].
    rewrite (deg_at i p Hp). simpl. split; congruence.
  - apply filter_ext_elem. intros i Hi%elem_of_seq.
    rewrite bool_decide_eq_true. destruct (lookup_lt_is_Some_2 nodes i) as [p Hp]; [lia|].
    rewrite (out_at i p Hp). simpl. split; congruence.
Qed.
End Outcome.

(** The four ways [compile] can end, and when. *)
Definition compile_result_ok (deref : NodePtr → ILogicNode) (g : Graph)
    (r : Result CompiledGraph) : Prop :=
  match r with
  | ROk cg => m_nodes g ≠ [] ∧ ¬ graph_cyclic g ∧ ports_fed deref g ∧ compiled_ok deref g cg
  | RErr e =>
      (err_code e = EC_GraphEmpty ∧ m_nodes g = []) ∨
      (err_code e = EC_GraphCycleDetected ∧ graph_cyclic g) ∨
      (err_code e = EC_InvalidConfiguration ∧ ¬ graph_cyclic g ∧ ¬ ports_fed deref g)
  end.

Lemma compile_outcome_wf deref g :
  graph_wf deref g → (Z.of_nat (length (m_nodes g)) < u32_mod)%Z →
  ∃ r, compile deref g = Some r ∧ compile_result_ok deref g r.
Proof.
  intros Hwf Hsmall. unfold compile. case_decide as Hempty.
  { eexists; split; [done|]. left. done. }
  rewrite count_exact by done.
  destruct (index_nodes_spec deref g Hwf (length (m_nodes g))) as (names & ptrs & -> & Hnames & Hptrs); [lia|].
  rewrite firstn_all. fold (ports_tbl deref g). fold (pass_init deref g).
  destruct (edge_pass_spec deref g Hwf ptrs Hptrs) as (t & -> & Ht).
  destruct (kahn_outcome deref g Hwf ptrs Hptrs t Ht) as (topo & Hrun & Hnd & Hsub & Htopo & Hac & Hcy).
  rewrite Hrun. simpl. case_decide as Hlen.
  { eexists; split; [done|]. right; left. split; [done|by apply Hcy]. }
  specialize (Hac Hlen).
  pose proof (starving_port_spec deref g Hwf ptrs Hptrs t Ht) as Hstarve.
  destruct (starving_port _ _ _ _) as [[i port]|].
  { eexists; split; [done|]. right; right. done. }
  eexists; split; [done|]. simpl. split_and!; [done|done|done|].
  by eapply compiled_ok_of.
Qed.

Lemma compile_inv deref g cg :
  rtc (graph_step deref) empty_graph g → (Z.of_nat (length (m_nodes g)) < u32_mod)%Z →
  compile deref g = Some (ROk cg) → compiled_ok deref g cg ∧ ¬ graph_cyclic g.
Proof.
  intros Hr Hsmall Hc. apply reachable_graph_wf in Hr as Hwf.
  destruct (compile_outcome_wf deref g Hwf Hsmall) as (r & Hr' & Hok).
  rewrite Hc in Hr'. injection Hr' as <-. by destruct Hok as (_ & ? & _ & ?).
Qed.

(** ** Properties *)

(** C24: compiling any graph built by the public mutators (fewer than 2^32 nodes)
    terminates, and its result is determined by the graph: [GraphEmpty] for no
    nodes, [GraphCycleDetected] exactly for cyclic graphs, [InvalidConfiguration]
    exactly for an acyclic graph with a declared input port of a non-source node
    that no edge feeds, and otherwise a compiled graph all of whose tables
    (name and pointer index, routing entries with their port index, in-degrees,
    deduplicated successors and predecessors, topological order, sources,
    sinks) agree with the source graph. *)
Theorem compile_outcome deref g :
  rtc (graph_step deref) empty_graph g → (Z.of_nat (length (m_nodes g)) < u32_mod)%Z →
  ∃ r, compile deref g = Some r ∧ compile_result_ok deref g r.
Proof. intros H. by apply compile_outcome_wf, reachable_graph_wf. Qed.

Lemma compile_outcome_witness :
  ∃ e, compile ex_node ex_loop = Some (RErr e) ∧ err_code e = EC_GraphCycleDetected ∧
    graph_cyclic ex_loop.
Proof.
  destruct (compile_outcome ex_node ex_loop ex_loop_reachable) as (r & Hr & Hok);
    [vm_compute; reflexivity|].
  assert (compile ex_node ex_loop =
    Some (result_err EC_GraphCycleDetected "Graph contains a cycle" "")) as Hc
    by (vm_compute; reflexivity).
  rewrite Hr in Hc. injection Hc as ->. exists (mkError EC_GraphCycleDetected "Graph contains a cycle" "").
  split; [exact Hr|]. split; [reflexivity|].
  destruct Hok as [[Hx _]|[[_ Hx]|[Hx _]]]; [discriminate Hx|exact Hx|discriminate Hx].
Defined.

(** In a successfully compiled graph, [topologicalOrder] enumerates every
    node exactly once and every edge of the graph goes forward in it. *)
Theorem topologicalOrder_sound deref g cg :
  rtc (graph_step deref) empty_graph g → (Z.of_nat (length (m_nodes g)) < u32_mod)%Z →
  compile deref g = Some (ROk cg) →
  cg_topoOrder cg ≡ₚ seq 0 (length (m_nodes g)) ∧
  ∀ e, e ∈ m_edges g → ∃ i j,
    indexOfPtr cg (source_node e) = Some i ∧ indexOfPtr cg (dest_node e) = Some j ∧
    before (cg_topoOrder cg) i j.
Proof.
  intros Hr Hsmall Hc. apply reachable_graph_wf in Hr as Hwf.
  destruct (compile_outcome_wf deref g Hwf Hsmall) as (r & Hr' & Hok).
  rewrite Hc in Hr'. injection Hr' as <-. destruct Hok as (_ & _ & _ & Hok).
  split; [apply Hok|]. intros e He. destruct (gw_ends _ _ Hwf e He) as [Hs Hd].
  apply list_elem_of_lookup in Hs as [i Hi], Hd as [j Hj]. exists i, j.
  split_and!; [by apply Hok|by apply Hok|].
  eapply (co_topo _ _ _ Hok); [done|done|by exists e].
Qed.

Definition ex_compiled (f : CompiledGraph → option nat) : option nat :=
  match compile ex_node ex_diamond with Some (ROk cg) => f cg | _ => None end.

Lemma ex_compiled_indices :
  ex_compiled (λ cg, indexOfPtr cg 1) = Some 1 ∧ ex_compiled (λ cg, indexOfPtr cg 3) = Some 3 ∧
  (Z.of_nat (length (m_nodes ex_diamond)) < u32_mod)%Z.
Proof. vm_compute. done. Qed.

Lemma ex_diamond_edge : mkEdge 1 "out" 3 "in" ∈ m_edges ex_diamond.
Proof. apply (bool_decide_unpack _). vm_compute. exact I. Qed.

Lemma ex_compiled_some k f :
  ex_compiled f = Some k → ∃ cg, compile ex_node ex_diamond = Some (ROk cg).
Proof.
  unfold ex_compiled. destruct (compile ex_node ex_diamond) as [[cg|e]|]; [|done|done].
  intros _. by exists cg.
Qed.

Lemma ex_compiled_get cg f :
  compile ex_node ex_diamond = Some (ROk cg) → ex_compiled f = f cg.
Proof. unfold ex_compiled. by intros ->. Qed.

Lemma topologicalOrder_sound_witness :
  ∃ cg, compile ex_node ex_diamond = Some (ROk cg) ∧ before (cg_topoOrder cg) 1 3.
Proof.
  destruct ex_compiled_indices as (H1 & H3 & Hs).
  destruct (ex_compiled_some _ _ H1) as [cg Hc]. exists cg. split; [exact Hc|].
  rewrite (ex_compiled_get cg _ Hc) in H1. rewrite (ex_compiled_get cg _ Hc) in H3.
  destruct (topologicalOrder_sound ex_node ex_diamond cg ex_diamond_reachable Hs Hc) as [_ H].
  destruct (H _ ex_diamond_edge) as (i & j & Hi & Hj & Hb).
  simpl in Hi, Hj, H1, H3. rewrite H1 in Hi. rewrite H3 in Hj.
  injection Hi as <-. injection Hj as <-. exact Hb.
Defined.
