(* ===== verification/MpmcQueue.v ===== *)
(** * The bounded ring buffer: [LockFreeMPMCQueue], sequential behaviour

    Models the core queue of [src/lock_free_queue.hpp] as one thread sees it:
    the cells with their sequence tags, the two positions, and every operation
    with its retry loop.  (The interleaved behaviour is in [MpmcConcurrent].)
    [size_t] positions are 64-bit words; the signed difference
    [intptr_t(seq) - intptr_t(pos)] is written with the conversion explicit and
    is defined behaviour as long as no position reaches [2^63], which is the
    hypothesis [in_range] of the theorems.  A moved-from or default [T] is
    [None].

    The contract the rest of the program relies on is the interface
    [FifoImpl]/[FifoLaws] (a bounded FIFO over lists); [Ring] is proved to be an
    instance of it. *)

From S2P Require Import Prelude.
Local Open Scope Z_scope.

(** ** The interface *)

(** The operations [LockFreeNodeQueue] calls on its core queue.  [None] results
    stand for a retry loop that does not end. *)
Class FifoImpl (Q T : Type) := {
  q_tryPush : Q → T → option (Q * bool);
  q_tryPop : Q → option (Q * option T);
  q_tryPeek : Q → option T;
  q_size : Q → Z;
  q_capacity : Q → Z;
}.

(** [q_repr b q l]: [q] holds the items [l], oldest first, and at most [b] more
    pushes are covered by the no-overflow hypothesis. *)
Class FifoLaws (Q T : Type) `{!FifoImpl Q T} := {
  q_repr : nat → Q → list T → Prop;
  q_repr_mono b b' q l : (b' ≤ b)%nat → q_repr b q l → q_repr b' q l;
  q_cap_pos b q l : q_repr b q l → 2 ≤ q_capacity q;
  q_len b q l : q_repr b q l → Z.of_nat (length l) ≤ q_capacity q;
  q_size_spec b q l : q_repr b q l → q_size q = Z.of_nat (length l);
  q_peek_spec b q l : q_repr b q l → q_tryPeek q = head l;
  q_push_full b q l x : q_repr b q l → Z.of_nat (length l) = q_capacity q →
    q_tryPush q x = Some (q, false);
  q_push_room b q l x : q_repr (S b) q l → Z.of_nat (length l) < q_capacity q →
    ∃ q', q_tryPush q x = Some (q', true) ∧ q_repr b q' (l ++ [x]) ∧
          q_capacity q' = q_capacity q;
  q_pop_empty b q : q_repr b q [] → q_tryPop q = Some (q, None);
  q_pop_cons b q x l : q_repr b q (x :: l) →
    ∃ q', q_tryPop q = Some (q', Some x) ∧ q_repr b q' l ∧ q_capacity q' = q_capacity q;
}.

(** ** The ring buffer *)

(** src/src/lock_free_queue.hpp:371-374 LockFreeMPMCQueue::Cell *)
Record Cell (T : Type) := mkCell { c_sequence : Z; c_data : option T }.
Arguments mkCell {T} _ _.
Arguments c_sequence {T} _.
Arguments c_data {T} _.

(** src/src/lock_free_queue.hpp:406-416 LockFreeMPMCQueue (data members) *)
Record Ring (T : Type) := mkRing {
  r_capacity : Z;
  r_mask : Z;
  r_buffer : list (Cell T);
  r_enqueuePos : Z;
  r_dequeuePos : Z;
}.
Arguments mkRing {T} _ _ _ _ _.
Arguments r_capacity {T} _.
Arguments r_mask {T} _.
Arguments r_buffer {T} _.
Arguments r_enqueuePos {T} _.
Arguments r_dequeuePos {T} _.

(** src/src/lock_free_queue.hpp:378-393 LockFreeMPMCQueue::roundUpPowerOf2 *)
Definition roundUpPowerOf2 (v : Z) : Z :=
  if decide (v ≤ 2) then 2
  else
    let v := v - 1 in
    let v := Z.lor v (Z.shiftr v 1) in
    let v := Z.lor v (Z.shiftr v 2) in
    let v := Z.lor v (Z.shiftr v 4) in
    let v := Z.lor v (Z.shiftr v 8) in
    let v := Z.lor v (Z.shiftr v 16) in
    let v := Z.lor v (Z.shiftr v 32) in
    wrap64 (v + 1).

Section RingOps.
Context {T : Type}.
Implicit Types (q : Ring T) (item : T).

(** src/src/lock_free_queue.hpp:135-146 LockFreeMPMCQueue::LockFreeMPMCQueue *)
Definition newRing (min_capacity : Z) : Ring T :=
  let cap := roundUpPowerOf2 (if decide (min_capacity < 2) then 2 else min_capacity) in
  mkRing cap (cap - 1)
    ((λ i, mkCell (Z.of_nat i) None) <$> seq 0 (Z.to_nat cap)) 0 0.

(** Index [pos & m_mask] of a position. *)
Definition slot q (pos : Z) : nat := Z.to_nat (Z.land pos (r_mask q)).

Definition cell_at q (pos : Z) : Cell T := default (mkCell 0 None) (r_buffer q !! slot q pos).

(** src/src/lock_free_queue.hpp:173-203 LockFreeMPMCQueue::tryPush (retry loop) *)
Fixpoint tryPush_loop (fuel : nat) q (pos : Z) item : option (Ring T * bool) :=
  match fuel with
  | O => None
  | S fuel' =>
      let seq := c_sequence (cell_at q pos) in
      let diff := sint64 seq - sint64 pos in
      if decide (diff = 0) then
        if decide (r_enqueuePos q = pos) then (* compare_exchange *)
          Some (mkRing (r_capacity q) (r_mask q)
                  (<[slot q pos := mkCell (wrap64 (pos + 1)) (Some item)]> (r_buffer q))
                  (wrap64 (pos + 1)) (r_dequeuePos q), true)
        else tryPush_loop fuel' q (r_enqueuePos q) item
      else if decide (diff < 0) then Some (q, false)
      else tryPush_loop fuel' q (r_enqueuePos q) item
  end.

(** src/src/lock_free_queue.hpp:173-203 LockFreeMPMCQueue::tryPush *)
Definition tryPush q item : option (Ring T * bool) := tryPush_loop 2 q (r_enqueuePos q) item.

(** src/src/lock_free_queue.hpp:208-238 LockFreeMPMCQueue::tryPop (retry loop) *)
Fixpoint tryPop_loop (fuel : nat) q (pos : Z) : option (Ring T * option T) :=
  match fuel with
  | O => None
  | S fuel' =>
      let cell := cell_at q pos in
      let diff := sint64 (c_sequence cell) - sint64 (wrap64 (pos + 1)) in
      if decide (diff = 0) then
        if decide (r_dequeuePos q = pos) then
          Some (mkRing (r_capacity q) (r_mask q)
                  (<[slot q pos := mkCell (wrap64 (pos + r_capacity q)) None]> (r_buffer q))
                  (r_enqueuePos q) (wrap64 (pos + 1)), c_data cell)
        else tryPop_loop fuel' q (r_dequeuePos q)
      else if decide (diff < 0) then Some (q, None)
      else tryPop_loop fuel' q (r_dequeuePos q)
  end.

(** src/src/lock_free_queue.hpp:208-238 LockFreeMPMCQueue::tryPop; [None] inside is [false] *)
Definition tryPop q : option (Ring T * option T) := tryPop_loop 2 q (r_dequeuePos q).

(** src/src/lock_free_queue.hpp:327-337 LockFreeMPMCQueue::tryPeek *)
Definition tryPeek q : option T :=
  let pos := r_dequeuePos q in
  let cell := cell_at q pos in
  if decide (sint64 (c_sequence cell) - sint64 (wrap64 (pos + 1)) ≠ 0) then None
  else c_data cell.

(** src/src/lock_free_queue.hpp:345-349 LockFreeMPMCQueue::size *)
Definition ring_size q : Z :=
  if decide (r_dequeuePos q ≤ r_enqueuePos q) then r_enqueuePos q - r_dequeuePos q else 0.

(** src/src/lock_free_queue.hpp:351-352 LockFreeMPMCQueue::empty *)
Definition ring_empty q : bool := bool_decide (ring_size q = 0).

(** src/src/lock_free_queue.hpp:354-354 LockFreeMPMCQueue::isFull *)
Definition ring_isFull q : bool := bool_decide (r_capacity q ≤ ring_size q).
End RingOps.

#[export] Instance ring_fifo {T} : FifoImpl (Ring T) T := {
  q_tryPush := tryPush;
  q_tryPop := tryPop;
  q_tryPeek := tryPeek;
  q_size := ring_size;
  q_capacity := r_capacity;
}.

(** ** Lemmas: rounding up to a power of two *)

(** Bit [i] of [y] says whether some bit of [x] in [i, i+k) is set. *)
Definition smeared (k x y : Z) : Prop :=
  ∀ i, 0 ≤ i → Z.testbit y i = true ↔ ∃ j, 0 ≤ j < k ∧ Z.testbit x (i + j) = true.

Lemma smeared_refl x : smeared 1 x x.
Proof.
  intros i Hi. split.
  - intros H. exists 0. split; [lia|]. by rewrite Z.add_0_r.
  - intros (j & Hj & H). by replace (i + j) with i in H by lia.
Qed.

Lemma smeared_double k x y :
  0 ≤ k → smeared k x y → smeared (2 * k) x (Z.lor y (Z.shiftr y k)).
Proof.
  intros Hk Hy i Hi. rewrite Z.lor_spec, Z.shiftr_spec, orb_true_iff by lia.
  rewrite (Hy i), (Hy (i + k)) by lia. split.
  - intros [(j & Hj & H)|(j & Hj & H)]; [exists j; split; [lia|done]|].
    exists (k + j). split; [lia|]. by rewrite Z.add_assoc.
  - intros (j & Hj & H). destruct (decide (j < k)) as [Hlt|Hge]; [left; exists j; split; [lia|done]|].
    right. exists (j - k). split; [lia|]. by replace (i + k + (j - k)) with (i + j) by lia.
Qed.

Lemma smeared_ones x y :
  0 < x < 2 ^ 64 → smeared 64 x y → 0 ≤ y → y = 2 ^ (Z.log2 x + 1) - 1.
Proof.
  intros Hx Hy Hy0. pose proof (Z.log2_nonneg x).
  assert (Z.log2 x < 64) by (apply Z.log2_lt_pow2; lia).
  replace (2 ^ (Z.log2 x + 1) - 1) with (Z.ones (Z.log2 x + 1)) by (rewrite Z.ones_equiv; lia).
  apply Z.bits_inj'. intros i Hi. apply eq_true_iff_eq. rewrite (Hy i Hi).
  destruct (decide (i ≤ Z.log2 x)) as [Hle|Hgt].
  - rewrite Z.ones_spec_low by lia. split; [done|]. intros _.
    exists (Z.log2 x - i). split; [lia|]. replace (i + (Z.log2 x - i)) with (Z.log2 x) by lia.
    apply Z.bit_log2. lia.
  - rewrite Z.ones_spec_high by lia. split; [|done].
    intros (j & Hj & H1). rewrite Z.bits_above_log2 in H1 by lia. done.
Qed.

Lemma lor_shiftr_nonneg v k : 0 ≤ v → 0 ≤ Z.lor v (Z.shiftr v k).
Proof. intros Hv. by rewrite Z.lor_nonneg, Z.shiftr_nonneg. Qed.

Lemma roundUpPowerOf2_spec v :
  v ≤ 2 ^ 63 →
  ∃ k, 1 ≤ k ≤ 63 ∧ roundUpPowerOf2 v = 2 ^ k ∧ v ≤ 2 ^ k ∧ (2 < v → 2 ^ (k - 1) < v).
Proof.
  intros Hv. unfold roundUpPowerOf2. case_decide as Hle.
  { exists 1. lia. }
  set (x := v - 1). assert (1 < x < 2 ^ 63) as Hx by (unfold x; lia).
  assert (0 < x < 2 ^ 64) as Hx' by lia.
  match goal with |- context [wrap64 (?e + 1)] => set (y := e) end.
  assert (smeared 64 x y) as Hy.
  { unfold y. apply (smeared_double 32), (smeared_double 16), (smeared_double 8),
      (smeared_double 4), (smeared_double 2), (smeared_double 1), smeared_refl; lia. }
  assert (0 ≤ y) as Hy0.
  { unfold y. repeat apply lor_shiftr_nonneg. lia. }
  apply smeared_ones in Hy as ->; [|done|done].
  pose proof (Z.log2_spec x) as Hlog. pose proof (Z.log2_nonneg x).
  assert (Z.log2 x < 63) by (apply Z.log2_lt_pow2; lia).
  assert (1 ≤ Z.log2 x + 1) by lia.
  exists (Z.log2 x + 1). replace (2 ^ (Z.log2 x + 1) - 1 + 1) with (2 ^ (Z.log2 x + 1)) by lia.
  replace (Z.log2 x + 1 - 1) with (Z.log2 x) by lia.
  split_and!; [lia|lia| |unfold x in *; lia|unfold x in *; lia].
  unfold wrap64. apply Z.mod_small. split; [lia|]. apply Z.pow_lt_mono_r; lia.
Qed.

(** ** Lemmas: the representation invariant *)

Lemma sint64_small z : 0 ≤ z < 2 ^ 63 → sint64 z = z.
Proof.
  intros Hz. unfold sint64, wrap64. rewrite Z.mod_small by (unfold u64_mod; lia).
  by rewrite decide_True by lia.
Qed.

(** Two positions of one window of [cap] positions never share a slot. *)
Lemma window_mod_inj cap d p p' :
  0 < cap → d ≤ p < d + cap → d ≤ p' < d + cap → p `mod` cap = p' `mod` cap → p = p'.
Proof.
  intros Hc Hp Hp' Heq.
  pose proof (Z.div_mod p cap ltac:(lia)). pose proof (Z.div_mod p' cap ltac:(lia)).
  assert (p `div` cap = p' `div` cap); [|lia].
  destruct (Z.lt_trichotomy (p `div` cap) (p' `div` cap)) as [|[|]]; [nia|done|nia].
Qed.

Section RingRepr.
Context {T : Type}.
Implicit Types (q : Ring T) (l : list T).

(** What the cell of position [p] holds, given the contents [l] queued from [deq]. *)
Definition cell_ok q l (p : Z) : Prop :=
  if decide (p < r_enqueuePos q)
  then ∃ x, l !! Z.to_nat (p - r_dequeuePos q) = Some x ∧
            cell_at q p = mkCell (p + 1) (Some x)
  else c_sequence (cell_at q p) = p.

Record ring_repr (b : nat) q l : Prop := {
  rr_pow : ∃ k, 1 ≤ k ≤ 63 ∧ r_capacity q = 2 ^ k ∧ r_mask q = 2 ^ k - 1;
  rr_len : length (r_buffer q) = Z.to_nat (r_capacity q);
  rr_pos : 0 ≤ r_dequeuePos q ∧ r_enqueuePos q = r_dequeuePos q + Z.of_nat (length l) ∧
           Z.of_nat (length l) ≤ r_capacity q;
  rr_range : r_enqueuePos q + r_capacity q + Z.of_nat b < 2 ^ 63;
  rr_cells : ∀ p, r_dequeuePos q ≤ p < r_dequeuePos q + r_capacity q → cell_ok q l p;
}.

Lemma ring_cap b q l : ring_repr b q l → 2 ≤ r_capacity q < 2 ^ 63.
Proof.
  intros [(k & Hk & Hc & _) _ Hpos Hr _]. split; [|lia].
  rewrite Hc. change 2 with (2 ^ 1) at 1. apply Z.pow_le_mono_r; lia.
Qed.

Lemma slot_mod b q l p : ring_repr b q l → slot q p = Z.to_nat (p `mod` r_capacity q).
Proof.
  intros [(k & Hk & -> & Hm) _ _ _ _]. unfold slot. rewrite Hm. f_equal.
  replace (2 ^ k - 1) with (Z.ones k) by (rewrite Z.ones_equiv; lia).
  apply Z.land_ones. lia.
Qed.

Lemma slot_lt b q l p : ring_repr b q l → (slot q p < length (r_buffer q))%nat.
Proof.
  intros H. rewrite (slot_mod _ _ _ _ H), (rr_len _ _ _ H).
  pose proof (ring_cap _ _ _ H). pose proof (Z.mod_pos_bound p (r_capacity q)). lia.
Qed.

(** Positions [d .. d+cap-1] occupy distinct slots, so storing at one of them
    leaves the others alone. *)
Lemma cell_at_store b q l buf c p p' e d :
  ring_repr b q l → buf = <[slot q p := c]> (r_buffer q) →
  r_dequeuePos q ≤ p < r_dequeuePos q + r_capacity q →
  r_dequeuePos q ≤ p' < r_dequeuePos q + r_capacity q →
  cell_at (mkRing (r_capacity q) (r_mask q) buf e d) p' =
  if decide (p = p') then c else cell_at q p'.
Proof.
  intros H -> Hp Hp'. unfold cell_at, slot; simpl. fold (slot q p'). fold (slot q p).
  rewrite list_lookup_insert. pose proof (slot_lt b q l p H).
  destruct (decide (p = p')) as [<-|Hne]; [by rewrite decide_True|].
  rewrite decide_False; [done|]. intros [Heq _].
  rewrite !(slot_mod _ _ _ _ H) in Heq. pose proof (ring_cap _ _ _ H).
  pose proof (Z.mod_pos_bound p (r_capacity q)). pose proof (Z.mod_pos_bound p' (r_capacity q)).
  apply Hne, (window_mod_inj (r_capacity q) (r_dequeuePos q)); lia.
Qed.

Lemma cell_seq_range b q l p :
  ring_repr b q l → r_dequeuePos q ≤ p < r_dequeuePos q + r_capacity q →
  0 ≤ c_sequence (cell_at q p) < 2 ^ 63.
Proof.
  intros H Hp. pose proof (rr_cells _ _ _ H p Hp) as Hc. unfold cell_ok in Hc.
  pose proof (rr_pos _ _ _ H). pose proof (rr_range _ _ _ H).
  case_decide; [destruct Hc as (x & _ & ->); simpl; lia|lia].
Qed.

(** One lap of the ring later the same slot is reused. *)
Lemma cell_at_lap b q l : ring_repr b q l →
  cell_at q (r_dequeuePos q + r_capacity q) = cell_at q (r_dequeuePos q).
Proof.
  intros H. unfold cell_at. rewrite !(slot_mod _ _ _ _ H). pose proof (ring_cap _ _ _ H).
  do 3 f_equal. rewrite <-(Z.mod_add (r_dequeuePos q) 1) by lia. f_equal. lia.
Qed.

Lemma ring_push_room b q l x :
  ring_repr (S b) q l → Z.of_nat (length l) < r_capacity q →
  ∃ q', tryPush q x = Some (q', true) ∧ ring_repr b q' (l ++ [x]) ∧ r_capacity q' = r_capacity q.
Proof.
  intros H Hlen. pose proof (ring_cap _ _ _ H). pose proof H as [Hpow Hbl Hpos Hrange Hcells].
  set (d := r_dequeuePos q) in *. set (e := r_enqueuePos q) in *.
  assert (d ≤ e < d + r_capacity q) as He by lia.
  pose proof (Hcells e He) as Hce. unfold cell_ok in Hce. fold e in Hce.
  rewrite decide_False in Hce by lia.
  unfold tryPush, tryPush_loop. fold e. rewrite Hce, decide_True by lia.
  rewrite decide_True by done. rewrite wrap64_small by (unfold u64_mod; lia).
  eexists; split; [done|]. split; [|done]. constructor; simpl; try done.
  - by rewrite length_insert.
  - rewrite length_app. simpl. fold d. lia.
  - lia.
  - intros p Hp. fold d in Hp. unfold cell_ok; simpl. fold d.
    rewrite (cell_at_store _ q l _ _ e p _ _ H eq_refl He Hp).
    pose proof (Hcells p Hp) as Hcp. unfold cell_ok in Hcp. fold e d in Hcp.
    destruct (decide (e = p)) as [<-|Hne].
    + rewrite decide_True by lia. exists x. split; [|done].
      rewrite lookup_app_r by lia. by replace (Z.to_nat (e - d) - length l)%nat with 0%nat by lia.
    + destruct (decide (p < e)).
      * rewrite decide_True by lia. destruct Hcp as (y & Hy & Hc). exists y. split; [|done].
        by apply lookup_app_l_Some.
      * by rewrite decide_False by lia.
Qed.

Lemma ring_push_full b q l x :
  ring_repr b q l → Z.of_nat (length l) = r_capacity q → tryPush q x = Some (q, false).
Proof.
  intros H Hlen. pose proof (ring_cap _ _ _ H). pose proof H as [_ _ Hpos Hrange Hcells].
  assert (r_enqueuePos q = r_dequeuePos q + r_capacity q) as He by lia.
  unfold tryPush, tryPush_loop. rewrite He, (cell_at_lap _ _ _ H).
  pose proof (Hcells (r_dequeuePos q) ltac:(lia)) as Hcd. unfold cell_ok in Hcd.
  rewrite decide_True in Hcd by lia. destruct Hcd as (y & _ & ->). simpl.
  rewrite !sint64_small by lia. rewrite decide_False by lia. by rewrite decide_True by lia.
Qed.

Lemma ring_pop_empty b q : ring_repr b q [] → tryPop q = Some (q, None).
Proof.
  intros H. pose proof (ring_cap _ _ _ H). pose proof H as [_ _ Hpos Hrange Hcells].
  simpl in Hpos. pose proof (Hcells (r_dequeuePos q) ltac:(lia)) as Hc. unfold cell_ok in Hc.
  rewrite decide_False in Hc by lia. unfold tryPop, tryPop_loop.
  rewrite Hc, wrap64_small by (unfold u64_mod; lia). rewrite !sint64_small by lia.
  rewrite decide_False by lia. by rewrite decide_True by lia.
Qed.

Lemma ring_head b q x l : ring_repr b q (x :: l) →
  cell_at q (r_dequeuePos q) = mkCell (r_dequeuePos q + 1) (Some x).
Proof.
  intros H. pose proof (ring_cap _ _ _ H). pose proof H as [_ _ Hpos Hrange Hcells].
  simpl in Hpos. pose proof (Hcells (r_dequeuePos q) ltac:(lia)) as Hc. unfold cell_ok in Hc.
  rewrite decide_True in Hc by lia. rewrite Z.sub_diag in Hc. by destruct Hc as (y & [= <-] & ->).
Qed.

Lemma ring_pop_cons b q x l : ring_repr b q (x :: l) →
  ∃ q', tryPop q = Some (q', Some x) ∧ ring_repr b q' l ∧ r_capacity q' = r_capacity q.
Proof.
  intros H. pose proof (ring_cap _ _ _ H). pose proof H as [Hpow Hbl Hpos Hrange Hcells].
  pose proof (ring_head _ _ _ _ H) as Hh. rewrite length_cons in Hpos.
  set (d := r_dequeuePos q) in *. set (e := r_enqueuePos q) in *.
  unfold tryPop, tryPop_loop. fold d. rewrite Hh. simpl.
  rewrite !wrap64_small by (unfold u64_mod; lia). rewrite decide_True by lia.
  rewrite decide_True by done. eexists; split; [done|]. split; [|done]. constructor; simpl; try done.
  - by rewrite length_insert.
  - fold e. lia.
  - intros p Hp. unfold cell_ok; simpl. fold e.
    destruct (decide (p = d + r_capacity q)) as [->|Hne].
    + rewrite decide_False by lia. unfold cell_at, slot; simpl.
      fold (slot q d). fold (slot q (d + r_capacity q)).
      replace (slot q (d + r_capacity q)) with (slot q d).
      * rewrite list_lookup_insert_eq by (by eapply slot_lt). done.
      * rewrite !(slot_mod _ _ _ _ H). f_equal. rewrite <-(Z.mod_add d 1) by lia. f_equal. lia.
    + rewrite (cell_at_store _ q _ _ _ d p _ _ H eq_refl) by (fold d; lia).
      rewrite (decide_False (P := d = p)) by lia. pose proof (Hcells p ltac:(lia)) as Hcp.
      unfold cell_ok in Hcp. fold e d in Hcp. case_decide; [|done].
      destruct Hcp as (y & Hy & ->). exists y. split; [|done].
      replace (Z.to_nat (p - d)) with (S (Z.to_nat (p - (d + 1)))) in Hy by lia. done.
Qed.

Lemma ring_peek b q l : ring_repr b q l → tryPeek q = head l.
Proof.
  intros H. pose proof (ring_cap _ _ _ H). pose proof H as [_ _ Hpos Hrange Hcells].
  unfold tryPeek. rewrite (wrap64_small (_ + 1)) by (unfold u64_mod; lia).
  destruct l as [|x l]; rewrite ?length_cons, ?length_nil in Hpos; simpl.
  - pose proof (Hcells (r_dequeuePos q) ltac:(lia)) as Hc. unfold cell_ok in Hc.
    rewrite decide_False in Hc by lia. rewrite Hc, !sint64_small by lia. by rewrite decide_True by lia.
  - rewrite (ring_head _ _ _ _ H). cbn [c_sequence c_data]. rewrite !sint64_small by lia.
    by rewrite decide_False by lia.
Qed.
End RingRepr.

#[export] Instance ring_laws {T} : FifoLaws (Ring T) T.
Proof.
  refine {| q_repr := ring_repr |}; simpl.
  - intros b b' q l Hb [? ? ? Hr ?]. constructor; [done|done|done|lia|done].
  - intros b q l H. apply ring_cap in H. lia.
  - intros b q l H. apply rr_pos in H. lia.
  - intros b q l H. apply rr_pos in H. unfold ring_size. rewrite decide_True; lia.
  - apply ring_peek.
  - intros b q l x. exact (ring_push_full b q l x).
  - intros b q l x. apply ring_push_room.
  - apply ring_pop_empty.
  - intros b q x l. apply ring_pop_cons.
Defined.

Lemma newRing_repr {T} (min_capacity : Z) (b : nat) :
  min_capacity ≤ 2 ^ 61 → Z.of_nat b < 2 ^ 62 →
  q_repr b (newRing min_capacity : Ring T) [] ∧
  min_capacity ≤ r_capacity (newRing min_capacity : Ring T).
Proof.
  intros Hmin Hb. set (m := if decide (min_capacity < 2) then 2 else min_capacity).
  assert (min_capacity ≤ m ≤ 2 ^ 61) as Hm by (unfold m; case_decide; lia).
  assert (m ≤ 2 ^ 63) as Hm63 by lia.
  destruct (roundUpPowerOf2_spec m Hm63) as (k & Hk & Hcap & Hge & Hleast).
  assert (2 ^ k ≤ 2 ^ 61).
  { destruct (decide (k ≤ 61)); [apply Z.pow_le_mono_r; lia|].
    assert (2 ^ 61 ≤ 2 ^ (k - 1)) by (apply Z.pow_le_mono_r; lia).
    destruct (decide (2 < m)); [lia|]. exfalso.
    unfold roundUpPowerOf2 in Hcap. rewrite decide_True in Hcap by lia.
    assert (2 ^ 2 ≤ 2 ^ k) by (apply Z.pow_le_mono_r; lia). lia. }
  assert (0 < 2 ^ k) by (apply Z.pow_pos_nonneg; lia).
  unfold newRing. fold m. rewrite Hcap. split; [|simpl; lia]. simpl. constructor; simpl.
  - by exists k.
  - by rewrite length_fmap, length_seq.
  - lia.
  - lia.
  - intros p Hp. unfold cell_ok; simpl. rewrite decide_False by lia.
    unfold cell_at, slot; simpl.
    replace (2 ^ k - 1) with (Z.ones k) by (rewrite Z.ones_equiv; lia).
    rewrite Z.land_ones, Z.mod_small by lia.
    rewrite list_lookup_fmap, lookup_seq_lt by lia. simpl. lia.
Qed.

(** The reference implementation: a list with its capacity. *)
Record BoundedList (T : Type) := mkBounded { bl_capacity : Z; bl_items : list T }.
Arguments mkBounded {T} _ _.
Arguments bl_capacity {T} _.
Arguments bl_items {T} _.

#[export] Instance bounded_list_fifo {T} : FifoImpl (BoundedList T) T := {
  q_tryPush q x :=
    Some (if decide (Z.of_nat (length (bl_items q)) < bl_capacity q)
          then (mkBounded (bl_capacity q) (bl_items q ++ [x]), true) else (q, false));
  q_tryPop q :=
    Some (match bl_items q with
          | [] => (q, None)
          | x :: l => (mkBounded (bl_capacity q) l, Some x)
          end);
  q_tryPeek q := head (bl_items q);
  q_size q := Z.of_nat (length (bl_items q));
  q_capacity := bl_capacity;
}.

#[export] Instance bounded_list_laws {T} : FifoLaws (BoundedList T) T.
Proof.
  refine {| q_repr b q l := bl_items q = l ∧ 2 ≤ bl_capacity q ∧
                            Z.of_nat (length l) ≤ bl_capacity q |}; simpl.
  - naive_solver.
  - naive_solver.
  - naive_solver.
  - naive_solver.
  - naive_solver.
  - intros b q l x (-> & ? & ?) ?. by rewrite decide_False by lia.
  - intros b q l x (-> & ? & ?) ?. rewrite decide_True by lia. eexists; split; [done|].
    simpl. rewrite length_app. simpl. split_and!; [done|done|lia|done].
  - intros b q (-> & ? & ?). done.
  - intros b q x l (-> & ? & ?). eexists; split; [done|]. simpl in *.
    split_and!; [done|done|lia|done].
Defined.

(** ** Force-push *)

Section ForcePush.
Context {Q T : Type} `{!FifoImpl Q T}.

(** src/src/lock_free_queue.hpp:283-287 LockFreeMPMCQueue::forcePush (spin on [tryPush], at most [n] times) *)
Fixpoint spin_push (n : nat) (q : Q) (item : T) : option (Q * bool) :=
  match n with
  | O => Some (q, false)
  | S n' => '(q', ok) ← q_tryPush q item; if (ok : bool) then Some (q', true) else spin_push n' q' item
  end.

(** src/src/lock_free_queue.hpp:293-307 LockFreeMPMCQueue::forcePush (phase 2: re-evictions) *)
Fixpoint reevict_push (rounds spins : nat) (q : Q) (item : T) : option (Q * bool) :=
  match rounds with
  | O => Some (q, false)
  | S rounds' =>
      '(q1, re_evicted) ← q_tryPop q;
      '(q2, ok) ← (match re_evicted with
                   | Some _ => spin_push spins q1 item
                   | None => Some (q1, false)
                   end);
      if (ok : bool) then Some (q2, true)
      else
        '(q3, ok3) ← q_tryPush q2 item;
        if (ok3 : bool) then Some (q3, true) else reevict_push rounds' spins q3 item
  end.

(** src/src/lock_free_queue.hpp:311-316 LockFreeMPMCQueue::forcePush (phase 3: unbounded retry) *)
Fixpoint assist_push (fuel : nat) (q : Q) (item : T) : option Q :=
  match fuel with
  | O => None
  | S fuel' =>
      '(q1, ok) ← q_tryPush q item;
      if (ok : bool) then Some q1
      else '(q2, _) ← q_tryPop q1; assist_push fuel' q2 item
  end.

Definition k_spin_limit : nat := 256.

Definition k_max_reevictions : nat := 8.

(** src/src/lock_free_queue.hpp:258-317 LockFreeMPMCQueue::forcePush; the result
    carries the [evicted] out parameter and the returned flag *)
Definition forcePush (fuel : nat) (q : Q) (item : T) : option (Q * option T * bool) :=
  '(q1, ok) ← q_tryPush q item;
  if (ok : bool) then Some (q1, None, false)
  else
    '(q2, evicted) ← q_tryPop q1;
    match evicted with
    | None =>
        '(q3, ok3) ← spin_push k_spin_limit q2 item;
        if (ok3 : bool) then Some (q3, None, false)
        else '(q4, _) ← q_tryPush q3 item; Some (q4, None, false)
    | Some _ =>
        '(q3, ok3) ← spin_push k_spin_limit q2 item;
        if (ok3 : bool) then Some (q3, evicted, true)
        else
          '(q4, ok4) ← reevict_push k_max_reevictions k_spin_limit q3 item;
          if (ok4 : bool) then Some (q4, evicted, true)
          else q5 ← assist_push fuel q4 item; Some (q5, evicted, true)
    end.

Context `{!FifoLaws Q T}.

Lemma forcePush_room b fuel q l x :
  q_repr (S b) q l → Z.of_nat (length l) < q_capacity q →
  ∃ q', forcePush fuel q x = Some (q', None, false) ∧ q_repr b q' (l ++ [x]) ∧
        q_capacity q' = q_capacity q.
Proof.
  intros H Hlen. destruct (q_push_room _ _ _ x H Hlen) as (q' & Hp & H').
  exists q'. unfold forcePush. by rewrite Hp.
Qed.

Lemma forcePush_full b fuel q y l x :
  q_repr (S b) q (y :: l) → Z.of_nat (length (y :: l)) = q_capacity q →
  ∃ q', forcePush fuel q x = Some (q', Some y, true) ∧ q_repr b q' (l ++ [x]) ∧
        q_capacity q' = q_capacity q.
Proof.
  intros H Hlen. destruct (q_pop_cons _ _ _ _ H) as (q1 & Hpop & H1 & Hc1).
  destruct (q_push_room _ _ _ x H1) as (q2 & Hpush & H2 & Hc2).
  { rewrite length_cons in Hlen. lia. }
  exists q2. unfold forcePush. rewrite (q_push_full _ _ _ x H Hlen); simpl.
  rewrite Hpop; simpl. rewrite Hpush; simpl. split_and!; [done|done|congruence].
Qed.
End ForcePush.

(** ** Sequences of operations *)

(** A call on the queue and what it returns. *)
Inductive fifo_op (T : Type) :=
  | OpPush (x : T) | OpPop | OpPeek | OpSize | OpForcePush (x : T).
Arguments OpPush {T} _.
Arguments OpPop {T}.
Arguments OpPeek {T}.
Arguments OpSize {T}.
Arguments OpForcePush {T} _.

Inductive fifo_answer (T : Type) :=
  | AnsBool (ok : bool) | AnsItem (x : option T) | AnsSize (n : Z)
  | AnsForced (evicted : option T) (did_evict : bool).
Arguments AnsBool {T} _.
Arguments AnsItem {T} _.
Arguments AnsSize {T} _.
Arguments AnsForced {T} _ _.

Section Runs.
Context {Q T : Type} `{!FifoImpl Q T}.

Definition run_op (q : Q) (op : fifo_op T) : option (Q * fifo_answer T) :=
  match op with
  | OpPush x => '(q', ok) ← q_tryPush q x; Some (q', AnsBool ok)
  | OpPop => '(q', r) ← q_tryPop q; Some (q', AnsItem r)
  | OpPeek => Some (q, AnsItem (q_tryPeek q))
  | OpSize => Some (q, AnsSize (q_size q))
  | OpForcePush x => '(q', ev, did) ← forcePush 1 q x; Some (q', AnsForced ev did)
  end.

Fixpoint run_ops (q : Q) (ops : list (fifo_op T)) : option (list (fifo_answer T)) :=
  match ops with
  | [] => Some []
  | op :: ops' => '(q', a) ← run_op q op; answers ← run_ops q' ops'; Some (a :: answers)
  end.
End Runs.

(** Two implementations of the interface that hold the same list answer every
    call alike and again hold the same list. *)
Lemma run_op_agree {Q1 Q2 T} `{!FifoImpl Q1 T, !FifoLaws Q1 T, !FifoImpl Q2 T, !FifoLaws Q2 T}
    b (q1 : Q1) (q2 : Q2) (l : list T) op :
  q_repr (S b) q1 l → q_repr (S b) q2 l → q_capacity q1 = q_capacity q2 →
  ∃ q1' q2' l' a, run_op q1 op = Some (q1', a) ∧ run_op q2 op = Some (q2', a) ∧
    q_repr b q1' l' ∧ q_repr b q2' l' ∧ q_capacity q1' = q_capacity q2'.
Proof.
  intros H1 H2 Hcap.
  assert (q_repr b q1 l) as H1' by (eapply q_repr_mono; [|done]; lia).
  assert (q_repr b q2 l) as H2' by (eapply q_repr_mono; [|done]; lia).
  pose proof (q_len _ _ _ H1) as Hl1. pose proof (q_cap_pos _ _ _ H1) as Hc1.
  destruct op as [x| | | |x]; simpl.
  - destruct (decide (Z.of_nat (length l) < q_capacity q1)) as [Hlt|Hge].
    + destruct (q_push_room _ _ _ x H1 Hlt) as (q1' & -> & ? & ?).
      destruct (q_push_room _ _ _ x H2 ltac:(lia)) as (q2' & -> & ? & ?).
      eexists _, _, _, _. split_and!; [done|done|done|done|congruence].
    + rewrite (q_push_full _ _ _ x H1) by lia. rewrite (q_push_full _ _ _ x H2) by lia.
      by eexists _, _, _, _.
  - destruct l as [|y l].
    + rewrite (q_pop_empty _ _ H1), (q_pop_empty _ _ H2). by eexists _, _, _, _.
    + destruct (q_pop_cons _ _ _ _ H1') as (q1' & -> & ? & ?).
      destruct (q_pop_cons _ _ _ _ H2') as (q2' & -> & ? & ?).
      eexists _, _, _, _. split_and!; [done|done|done|done|congruence].
  - rewrite (q_peek_spec _ _ _ H1), (q_peek_spec _ _ _ H2). by eexists _, _, _, _.
  - rewrite (q_size_spec _ _ _ H1), (q_size_spec _ _ _ H2). by eexists _, _, _, _.
  - destruct (decide (Z.of_nat (length l) < q_capacity q1)) as [Hlt|Hge].
    + destruct (forcePush_room _ 1 _ _ x H1 Hlt) as (q1' & -> & ? & ?).
      destruct (forcePush_room _ 1 _ _ x H2 ltac:(lia)) as (q2' & -> & ? & ?).
      eexists _, _, _, _. split_and!; [done|done|done|done|congruence].
    + destruct l as [|y l]; [simpl in *; lia|].
      destruct (forcePush_full _ 1 _ _ _ x H1 ltac:(lia)) as (q1' & -> & ? & ?).
      destruct (forcePush_full _ 1 _ _ _ x H2 ltac:(lia)) as (q2' & -> & ? & ?).
      eexists _, _, _, _. split_and!; [done|done|done|done|congruence].
Qed.

Lemma run_ops_agree {Q1 Q2 T} `{!FifoImpl Q1 T, !FifoLaws Q1 T, !FifoImpl Q2 T, !FifoLaws Q2 T}
    (ops : list (fifo_op T)) (q1 : Q1) (q2 : Q2) (l : list T) :
  q_repr (length ops) q1 l → q_repr (length ops) q2 l → q_capacity q1 = q_capacity q2 →
  ∃ answers, run_ops q1 ops = Some answers ∧ run_ops q2 ops = Some answers.
Proof.
  revert q1 q2 l. induction ops as [|op ops IH]; intros q1 q2 l H1 H2 Hcap; simpl; [by eexists|].
  destruct (run_op_agree _ _ _ _ op H1 H2 Hcap) as (q1' & q2' & l' & a & -> & -> & H1' & H2' & Hc').
  destruct (IH _ _ _ H1' H2' Hc') as (answers & Ha1 & Ha2). simpl. rewrite Ha1, Ha2.
  by eexists.
Qed.

(** ** Claims *)

(** For every minimum capacity up to [2^61] the ring rounds it up to a power
    of two, and every sequence of fewer than [2^62] calls of tryPush, tryPop,
    tryPeek, size and forcePush on a new ring terminates and gets exactly the
    answers a plain list bounded by that capacity gives: first-in first-out
    order, nothing lost or invented, refusals only when full (or empty), and a
    forced push evicts exactly the oldest item. *)
Theorem ring_refines_fifo {T : Type} (min_capacity : Z) (ops : list (fifo_op T)) :
  min_capacity ≤ 2 ^ 61 → Z.of_nat (length ops) < 2 ^ 62 →
  ∃ cap answers,
    r_capacity (newRing min_capacity : Ring T) = cap ∧ min_capacity ≤ cap ∧
    run_ops (newRing min_capacity : Ring T) ops = Some answers ∧
    run_ops (mkBounded cap [] : BoundedList T) ops = Some answers.
Proof.
  intros Hmin Hops. destruct (newRing_repr (T := T) _ _ Hmin Hops) as [Hrepr Hge].
  eexists. edestruct (run_ops_agree ops (newRing min_capacity : Ring T)
    (mkBounded (r_capacity (newRing min_capacity : Ring T)) [] : BoundedList T) []) as (answers & H1 & H2);
    [done| |done|by exists answers].
  pose proof (q_cap_pos _ _ _ Hrepr) as Hc. simpl in Hc |- *. split_and!; [done|done|lia].
Qed.

Definition ex_fifo_ops : list (fifo_op nat) :=
  [OpPop; OpPush 1%nat; OpPush 2%nat; OpPush 3%nat; OpPush 4%nat; OpPush 5%nat; OpPeek;
   OpForcePush 6%nat; OpPop; OpPop; OpSize; OpPush 7%nat; OpPop].

Lemma ex_fifo_ops_answers :
  run_ops (newRing 3 : Ring nat) ex_fifo_ops =
    Some [AnsItem None; AnsBool true; AnsBool true; AnsBool true; AnsBool true; AnsBool false;
          AnsItem (Some 1%nat); AnsForced (Some 1%nat) true; AnsItem (Some 2%nat);
          AnsItem (Some 3%nat); AnsSize 2; AnsBool true; AnsItem (Some 4%nat)].
Proof. vm_compute. reflexivity. Qed.

Lemma ring_refines_fifo_witness :
  ∃ cap answers,
    r_capacity (newRing 3 : Ring nat) = cap ∧ 3 ≤ cap ∧
    run_ops (newRing 3 : Ring nat) ex_fifo_ops = Some answers ∧
    run_ops (mkBounded cap [] : BoundedList nat) ex_fifo_ops = Some answers.
Proof. apply (ring_refines_fifo 3 ex_fifo_ops); simpl; lia. Defined.

(** The capacity computation returns the least power of two that is at least
    the request (and at least two), for every request up to [2^63]. *)
Theorem roundUpPowerOf2_least (v : Z) :
  v ≤ 2 ^ 63 →
  ∃ k, 1 ≤ k ∧ roundUpPowerOf2 v = 2 ^ k ∧ v ≤ 2 ^ k ∧
       ∀ k', 1 ≤ k' → v ≤ 2 ^ k' → 2 ^ k ≤ 2 ^ k'.
Proof.
  intros Hv. destruct (roundUpPowerOf2_spec v Hv) as (k & Hk & Heq & Hge & Hleast).
  exists k. split_and!; [lia|done|done|]. intros k' Hk' Hv'.
  destruct (decide (2 < v)) as [Hlt|Hle].
  - specialize (Hleast Hlt). apply Z.pow_le_mono_r; [lia|].
    assert (k - 1 < k'); [|lia]. apply (Z.pow_lt_mono_r_iff 2); lia.
  - rewrite <-Heq. unfold roundUpPowerOf2. rewrite decide_True by lia.
    change 2 with (2 ^ 1) at 1. apply Z.pow_le_mono_r; lia.
Qed.

Lemma roundUpPowerOf2_least_witness :
  ∃ k, 1 ≤ k ∧ roundUpPowerOf2 100 = 2 ^ k ∧ 100 ≤ 2 ^ k ∧
       ∀ k', 1 ≤ k' → 100 ≤ 2 ^ k' → 2 ^ k ≤ 2 ^ k'.
Proof. apply (roundUpPowerOf2_least 100). lia. Defined.

(** Above [2^63] the computation wraps to zero. *)
Lemma roundUpPowerOf2_wraps : roundUpPowerOf2 (2 ^ 63 + 1) = 0.
Proof. vm_compute. reflexivity. Qed.
