(* ===== verification/MpmcConcurrent.v ===== *)
(** * The ring buffer under concurrency

    Interleaving semantics of [LockFreeMPMCQueue::tryPush] and [tryPop]
    ([src/lock_free_queue.hpp]): any number of threads, each at a program point
    between two accesses to the shared ring, one shared access per step.  The
    weak compare-exchange may fail spuriously.  Accesses are interleaved in a
    single order (the release store that publishes a cell and the acquire load
    that reads it are what makes the plain accesses to [data] race-free; weaker
    orders of the relaxed position counters are not represented).

    [sinv] is the ownership invariant: every slot is in one phase of its current
    ticket (free, being written, ready, being read), at most one thread owns it.
    The theorems: items come out exactly once, each under the ticket it was
    pushed with, tickets are claimed in order; a quiescent ring is the sequential
    ring of [MpmcQueue] holding exactly the items not yet taken; a refused push
    or pop was justified when the sequence tag was read. *)

From stdpp Require Import functions.
From S2P Require Import Prelude MpmcQueue.
Local Open Scope Z_scope.

(** ** Threads and steps *)

(** src/src/lock_free_queue.hpp:173-238 LockFreeMPMCQueue::tryPush, tryPop (program
    points between two shared accesses) *)
Inductive pc (T : Type) :=
  | Idle
  | PushLoaded (pos : Z) (item : T)
  | PushRead (pos seq : Z) (item : T)
  | PushClaimed (pos : Z) (item : T)
  | PushWritten (pos : Z) (item : T)
  | PopLoaded (pos : Z)
  | PopRead (pos seq : Z)
  | PopClaimed (pos : Z)
  | PopTaken (pos : Z) (item : T).
Arguments Idle {T}.
Arguments PushLoaded {T} _ _.
Arguments PushRead {T} _ _ _.
Arguments PushClaimed {T} _ _.
Arguments PushWritten {T} _ _.
Arguments PopLoaded {T} _.
Arguments PopRead {T} _ _.
Arguments PopClaimed {T} _.
Arguments PopTaken {T} _ _.

(** What a step shows to an observer. *)
Inductive event (T : Type) :=
  | EvPushClaim (t : nat) (x : T)
  | EvPushed (t : nat)
  | EvPushFull (t : nat)
  | EvPopClaim (t : nat) (p : Z)
  | EvTake (t : nat) (p : Z) (x : T)
  | EvPopped (t : nat) (x : T)
  | EvPopEmpty (t : nat).
Arguments EvPushClaim {T} _ _.
Arguments EvPushed {T} _.
Arguments EvPushFull {T} _.
Arguments EvPopClaim {T} _ _.
Arguments EvTake {T} _ _ _.
Arguments EvPopped {T} _ _.
Arguments EvPopEmpty {T} _.

Record CState (T : Type) := mkC { cs_ring : Ring T; cs_pcs : gmap nat (pc T) }.
Arguments mkC {T} _ _.
Arguments cs_ring {T} _.
Arguments cs_pcs {T} _.

(** What the scheduler lets a thread do: begin a call when idle, or go on (with
    the compare-exchange failing spuriously or not). *)
Inductive action (T : Type) :=
  | StartPush (x : T) | StartPop | Run (spurious : bool).
Arguments StartPush {T} _.
Arguments StartPop {T}.
Arguments Run {T} _.

Section Steps.
Context {T : Type}.
Implicit Types (q : Ring T) (s : CState T).

Definition pc_of s (t : nat) : pc T := default Idle (cs_pcs s !! t).

Definition goto s (t : nat) (q : Ring T) (p : pc T) : CState T := mkC q (<[t := p]> (cs_pcs s)).

Definition store_cell q (pos : Z) (c : Cell T) : Ring T :=
  mkRing (r_capacity q) (r_mask q) (<[slot q pos := c]> (r_buffer q))
         (r_enqueuePos q) (r_dequeuePos q).

Definition set_enq q (e : Z) : Ring T :=
  mkRing (r_capacity q) (r_mask q) (r_buffer q) e (r_dequeuePos q).

Definition set_deq q (d : Z) : Ring T :=
  mkRing (r_capacity q) (r_mask q) (r_buffer q) (r_enqueuePos q) d.

(** src/src/lock_free_queue.hpp:173-203 LockFreeMPMCQueue::tryPush (one shared access) *)
Definition push_step (t : nat) (spurious : bool) s : option (CState T * list (event T)) :=
  let q := cs_ring s in
  match pc_of s t with
  | PushLoaded pos x => Some (goto s t q (PushRead pos (c_sequence (cell_at q pos)) x), [])
  | PushRead pos seq x =>
      let diff := sint64 seq - sint64 pos in
      if decide (diff = 0) then
        if decide (r_enqueuePos q = pos ∧ spurious = false)
        then Some (goto s t (set_enq q (wrap64 (pos + 1))) (PushClaimed pos x), [EvPushClaim t x])
        else Some (goto s t q (PushLoaded (r_enqueuePos q) x), [])
      else if decide (diff < 0) then Some (goto s t q Idle, [EvPushFull t])
      else Some (goto s t q (PushLoaded (r_enqueuePos q) x), [])
  | PushClaimed pos x =>
      Some (goto s t (store_cell q pos (mkCell (c_sequence (cell_at q pos)) (Some x)))
              (PushWritten pos x), [])
  | PushWritten pos x =>
      Some (goto s t (store_cell q pos (mkCell (wrap64 (pos + 1)) (c_data (cell_at q pos)))) Idle,
            [EvPushed t])
  | _ => None
  end.

(** src/src/lock_free_queue.hpp:208-238 LockFreeMPMCQueue::tryPop (one shared access) *)
Definition pop_step (t : nat) (spurious : bool) s : option (CState T * list (event T)) :=
  let q := cs_ring s in
  match pc_of s t with
  | PopLoaded pos => Some (goto s t q (PopRead pos (c_sequence (cell_at q pos))), [])
  | PopRead pos seq =>
      let diff := sint64 seq - sint64 (wrap64 (pos + 1)) in
      if decide (diff = 0) then
        if decide (r_dequeuePos q = pos ∧ spurious = false)
        then Some (goto s t (set_deq q (wrap64 (pos + 1))) (PopClaimed pos), [EvPopClaim t pos])
        else Some (goto s t q (PopLoaded (r_dequeuePos q)), [])
      else if decide (diff < 0) then Some (goto s t q Idle, [EvPopEmpty t])
      else Some (goto s t q (PopLoaded (r_dequeuePos q)), [])
  | PopClaimed pos =>
      x ← c_data (cell_at q pos);
      Some (goto s t (store_cell q pos (mkCell (c_sequence (cell_at q pos)) None)) (PopTaken pos x),
            [EvTake t pos x])
  | PopTaken pos x =>
      Some (goto s t (store_cell q pos (mkCell (wrap64 (pos + r_capacity q)) (c_data (cell_at q pos))))
              Idle, [EvPopped t x])
  | _ => None
  end.

Definition cstep (t : nat) (a : action T) s : option (CState T * list (event T)) :=
  match a, pc_of s t with
  | StartPush x, Idle => Some (goto s t (cs_ring s) (PushLoaded (r_enqueuePos (cs_ring s)) x), [])
  | StartPop, Idle => Some (goto s t (cs_ring s) (PopLoaded (r_dequeuePos (cs_ring s))), [])
  | Run sp, _ => match push_step t sp s with Some r => Some r | None => pop_step t sp s end
  | _, _ => None
  end.

Definition init (min_capacity : Z) : CState T := mkC (newRing min_capacity) ∅.

(** States reachable from a new ring, with the events on the way. *)
Inductive creach (min_capacity : Z) : CState T → list (event T) → Prop :=
  | creach_init : creach min_capacity (init min_capacity) []
  | creach_step s tr t a s' evs :
      creach min_capacity s tr → cstep t a s = Some (s', evs) →
      creach min_capacity s' (tr ++ evs).

(** Items in the order their tickets were claimed; tickets in the order they
    were claimed by consumers; what each consumer took under its ticket. *)
Definition pushes (tr : list (event T)) : list T :=
  omap (λ ev, match ev with EvPushClaim _ x => Some x | _ => None end) tr.

Definition pop_claims (tr : list (event T)) : list Z :=
  omap (λ ev, match ev with EvPopClaim _ p => Some p | _ => None end) tr.

Definition takes (tr : list (event T)) : list (Z * T) :=
  omap (λ ev, match ev with EvTake _ p x => Some (p, x) | _ => None end) tr.

(** A schedule run from the initial state. *)
Fixpoint run_schedule (sched : list (nat * action T)) s : option (CState T * list (event T)) :=
  match sched with
  | [] => Some (s, [])
  | (t, a) :: sched' =>
      '(s1, evs) ← cstep t a s;
      '(s2, evs') ← run_schedule sched' s1;
      Some (s2, evs ++ evs')
  end.
End Steps.

(** ** The ownership invariant *)

(** The phase of a slot: its current ticket and, while it is claimed, its owner. *)
Inductive phase :=
  | Free (p : Z) | Writing (p : Z) (t : nat) | Ready (p : Z) | Reading (p : Z) (t : nat).

Definition ticket (f : phase) : Z :=
  match f with Free p | Writing p _ | Ready p | Reading p _ => p end.

Definition owner (f : phase) : option nat :=
  match f with Writing _ t | Reading _ t => Some t | _ => None end.

Section Invariant.
Context {T : Type}.
Implicit Types (q : Ring T) (s : CState T) (pushed : list T) (ph : nat → phase).

Definition cell_i q (i : nat) : Cell T := default (mkCell 0 None) (r_buffer q !! i).

(** The slot in phase [f] holds [c]: the tag names the ticket, the ticket lies in
    the window its phase allows. *)
Definition phase_ok (e d cap : Z) pushed (c : Cell T) (f : phase) : Prop :=
  match f with
  | Free p => c_sequence c = p ∧ e ≤ p < d + cap
  | Writing p _ => c_sequence c = p ∧ d ≤ p < e
  | Ready p => c_sequence c = p + 1 ∧ c_data c = pushed !! Z.to_nat p ∧ d ≤ p < e
  | Reading p _ => c_sequence c = p + 1 ∧ p < d ∧ e ≤ p + cap
  end.

Definition slot_ok q pushed ph (i : nat) : Prop :=
  0 ≤ ticket (ph i) ∧ ticket (ph i) `mod` r_capacity q = Z.of_nat i ∧
  phase_ok (r_enqueuePos q) (r_dequeuePos q) (r_capacity q) pushed (cell_i q i) (ph i).

(** What a thread at program point [c] may rely on. *)
Definition thread_ok q pushed ph (t : nat) (c : pc T) : Prop :=
  match c with
  | Idle => True
  | PushLoaded pos _ => 0 ≤ pos ≤ r_enqueuePos q
  | PushRead pos seq _ => 0 ≤ pos ≤ r_enqueuePos q ∧ 0 ≤ seq ≤ c_sequence (cell_at q pos)
  | PopLoaded pos => 0 ≤ pos ≤ r_dequeuePos q
  | PopRead pos seq => 0 ≤ pos ≤ r_dequeuePos q ∧ 0 ≤ seq ≤ c_sequence (cell_at q pos)
  | PushClaimed p x => ph (slot q p) = Writing p t ∧ pushed !! Z.to_nat p = Some x
  | PushWritten p x =>
      ph (slot q p) = Writing p t ∧ pushed !! Z.to_nat p = Some x ∧ c_data (cell_at q p) = Some x
  | PopClaimed p => ph (slot q p) = Reading p t ∧ c_data (cell_at q p) = pushed !! Z.to_nat p
  | PopTaken p x => ph (slot q p) = Reading p t ∧ pushed !! Z.to_nat p = Some x
  end.

(** An owned slot's owner is indeed at the matching program point. *)
Definition owner_ok s (f : phase) : Prop :=
  match f with
  | Writing p t => ∃ x, pc_of s t = PushClaimed p x ∨ pc_of s t = PushWritten p x
  | Reading p t => pc_of s t = PopClaimed p ∨ ∃ x, pc_of s t = PopTaken p x
  | _ => True
  end.

Record sinv ph s pushed : Prop := {
  si_pow : ∃ k, 1 ≤ k ≤ 63 ∧ r_capacity (cs_ring s) = 2 ^ k ∧ r_mask (cs_ring s) = 2 ^ k - 1;
  si_len : length (r_buffer (cs_ring s)) = Z.to_nat (r_capacity (cs_ring s));
  si_enq : r_enqueuePos (cs_ring s) = Z.of_nat (length pushed);
  si_deq : 0 ≤ r_dequeuePos (cs_ring s) ≤ r_enqueuePos (cs_ring s) ∧
           r_enqueuePos (cs_ring s) ≤ r_dequeuePos (cs_ring s) + r_capacity (cs_ring s);
  si_range : r_enqueuePos (cs_ring s) + r_capacity (cs_ring s) < 2 ^ 63;
  si_slots : ∀ i, (i < length (r_buffer (cs_ring s)))%nat → slot_ok (cs_ring s) pushed ph i;
  si_threads : ∀ t, thread_ok (cs_ring s) pushed ph t (pc_of s t);
  si_owners : ∀ i, (i < length (r_buffer (cs_ring s)))%nat → owner_ok s (ph i);
}.

Lemma pc_of_goto s t q c t' : pc_of (goto s t q c) t' = if decide (t = t') then c else pc_of s t'.
Proof.
  unfold pc_of, goto; simpl. case_decide as Heq; [subst; by rewrite lookup_insert_eq|].
  by rewrite lookup_insert_ne.
Qed.

Section Facts.
Context {ph : nat → phase} {s : CState T} {pushed : list T} (I : sinv ph s pushed).
Notation q := (cs_ring s).

Lemma si_cap : 2 ≤ r_capacity q < 2 ^ 63.
Proof using I.
  destruct (si_pow _ _ _ I) as (k & Hk & Hc & _). pose proof (si_range _ _ _ I).
  pose proof (si_deq _ _ _ I). split; [|lia].
  rewrite Hc. change 2 with (2 ^ 1) at 1. apply Z.pow_le_mono_r; lia.
Qed.

Lemma si_slot_mod p : slot q p = Z.to_nat (p `mod` r_capacity q).
Proof using I.
  destruct (si_pow _ _ _ I) as (k & Hk & -> & Hm). unfold slot. rewrite Hm. f_equal.
  replace (2 ^ k - 1) with (Z.ones k) by (rewrite Z.ones_equiv; lia). apply Z.land_ones. lia.
Qed.

Lemma si_slot_lt p : (slot q p < length (r_buffer q))%nat.
Proof using I.
  rewrite si_slot_mod, (si_len _ _ _ I). pose proof si_cap.
  pose proof (Z.mod_pos_bound p (r_capacity q)). lia.
Qed.

Lemma si_slot p : slot_ok q pushed ph (slot q p).
Proof using I. apply (si_slots _ _ _ I), si_slot_lt. Qed.

(** The ticket in the slot of [p] is congruent to [p]. *)
Lemma si_ticket p : ticket (ph (slot q p)) `mod` r_capacity q = p `mod` r_capacity q.
Proof using I.
  destruct (si_slot p) as (_ & -> & _). rewrite si_slot_mod. pose proof si_cap.
  pose proof (Z.mod_pos_bound p (r_capacity q)). lia.
Qed.

Lemma si_slot_ticket i : (i < length (r_buffer q))%nat → slot q (ticket (ph i)) = i.
Proof using I.
  intros Hi. destruct (si_slots _ _ _ I i Hi) as (_ & Hm & _). rewrite si_slot_mod, Hm. lia.
Qed.

Lemma si_slot_inj p p' : p `mod` r_capacity q = p' `mod` r_capacity q → slot q p = slot q p'.
Proof using I. intros Heq. by rewrite !si_slot_mod, Heq. Qed.

(** Congruent tickets less than a lap apart are equal. *)
Lemma si_same p p' : p `mod` r_capacity q = p' `mod` r_capacity q →
  p - r_capacity q < p' < p + r_capacity q → p = p'.
Proof using I.
  intros Heq Hlt. pose proof si_cap.
  destruct (decide (p ≤ p')) as [Hle|Hgt].
  - apply (window_mod_inj (r_capacity q) p); [lia|lia|lia|done].
  - apply (window_mod_inj (r_capacity q) p'); [lia|lia|lia|done].
Qed.

Lemma si_cell_seq p : 0 ≤ c_sequence (cell_at q p) < 2 ^ 63.
Proof using I.
  destruct (si_slot p) as (Ht & _ & Hph). pose proof (si_range _ _ _ I). pose proof (si_deq _ _ _ I).
  pose proof si_cap. change (cell_at q p) with (cell_i q (slot q p)).
  destruct (ph (slot q p)); simpl in *; lia.
Qed.

(** The tag of the slot the next producer looks at is never ahead of it. *)
Lemma si_enq_tag p : r_enqueuePos q = p → p ≤ c_sequence (cell_at q p) →
  ph (slot q p) = Free p ∧ p < r_dequeuePos q + r_capacity q.
Proof using I.
  intros He Hseq. destruct (si_slot p) as (Ht & _ & Hph). pose proof (si_ticket p) as Hm.
  pose proof (si_deq _ _ _ I). pose proof si_cap. change (cell_at q p) with (cell_i q (slot q p)) in Hseq.
  destruct (ph (slot q p)) as [p'|p' t'|p'|p' t']; simpl in *; try lia.
  - assert (p' = p) as -> by (apply si_same; [done|lia]). split; [done|lia].
  - assert (p' = p) by (apply si_same; [done|lia]). lia.
  - assert (p' = p) by (apply si_same; [done|lia]). lia.
Qed.

Lemma si_deq_tag p : r_dequeuePos q = p → p < c_sequence (cell_at q p) → ph (slot q p) = Ready p.
Proof using I.
  intros He Hseq. destruct (si_slot p) as (Ht & _ & Hph). pose proof (si_ticket p) as Hm.
  pose proof (si_deq _ _ _ I). pose proof si_cap. change (cell_at q p) with (cell_i q (slot q p)) in Hseq.
  destruct (ph (slot q p)) as [p'|p' t'|p'|p' t']; simpl in *; try lia.
  - assert (p' = p) by (apply si_same; [done|lia]). lia.
  - assert (p' = p) by (apply si_same; [done|lia]). lia.
  - by assert (p' = p) as -> by (apply si_same; [done|lia]).
Qed.

(** A thread that is not between claim and release owns no slot. *)
Lemma si_not_owner t i : (i < length (r_buffer q))%nat → owner (ph i) = Some t →
  match pc_of s t with
  | PushClaimed p _ | PushWritten p _ | PopClaimed p | PopTaken p _ => i = slot q p
  | _ => False
  end.
Proof using I.
  intros Hi Ho. pose proof (si_owners _ _ _ I i Hi) as Hok.
  pose proof (si_slot_ticket i Hi) as Hs.
  destruct (ph i) as [p|p t'|p|p t'] eqn:Hf; simpl in *; simplify_eq.
  - by destruct Hok as (x & [-> | ->]).
  - by destruct Hok as [-> | (x & ->)].
Qed.
End Facts.

(** A step that touches nothing shared and owns nothing. *)
Lemma sinv_local ph s pushed t c :
  sinv ph s pushed → (∀ i, (i < length (r_buffer (cs_ring s)))%nat → owner (ph i) ≠ Some t) →
  thread_ok (cs_ring s) pushed ph t c → sinv ph (goto s t (cs_ring s) c) pushed.
Proof.
  intros I Hno Hc. destruct I as [? ? ? ? ? ? Hth Hown]. constructor; try done.
  - intros t'. rewrite pc_of_goto. simpl. case_decide; [by subst|done].
  - intros i Hi. specialize (Hown i Hi). specialize (Hno i Hi).
    destruct (ph i) as [p|p t'|p|p t']; simpl in *; try done; rewrite pc_of_goto, decide_False; naive_solver.
Qed.

(** A step of [t] on the slot of [p], which nobody else owns. *)
Section Update.
Context (ph : nat → phase) (s : CState T) (pushed : list T) (I : sinv ph s pushed).
Context (t : nat) (p : Z) (f' : phase) (c' : pc T) (buf' : list (Cell T)) (e' d' : Z) (pushed' : list T).
Notation q := (cs_ring s).
Notation q' := (mkRing (r_capacity q) (r_mask q) buf' e' d').
Notation ph' := (<[slot q p := f']> ph).
Context (Hmine : ∀ i, (i < length (r_buffer q))%nat → owner (ph i) = Some t → i = slot q p).
Context (Hnotother : ∀ t', t' ≠ t → owner (ph (slot q p)) ≠ Some t').
Context (Hlen : length buf' = length (r_buffer q)).
Context (Hframe : ∀ i, i ≠ slot q p → buf' !! i = r_buffer q !! i).
Context (Htag : c_sequence (cell_at q p) ≤ c_sequence (cell_at q' p)).
Context (Hgrow : r_enqueuePos q ≤ e' ∧ r_dequeuePos q ≤ d' ∧ pushed `prefix_of` pushed').

Lemma update_cell i : i ≠ slot q p → cell_i q' i = cell_i q i.
Proof using Hframe. intros Hi. unfold cell_i; simpl. by rewrite Hframe. Qed.

Lemma update_tag p' : c_sequence (cell_at q p') ≤ c_sequence (cell_at q' p').
Proof using Hframe Htag.
  destruct (decide (slot q p' = slot q p)) as [Heq|Hne].
  - unfold cell_at, slot in *; simpl in *. by rewrite Heq.
  - change (cell_at q' p') with (cell_i q' (slot q p')). by rewrite update_cell.
Qed.

Lemma update_other t' : t' ≠ t → thread_ok q' pushed' ph' t' (pc_of s t').
Proof using I Hnotother Hlen Hframe Htag Hgrow.
  intros Ht. destruct Hgrow as (He & Hd & Hpre). pose proof (si_threads _ _ _ I t') as Hok.
  assert (∀ p', owner (ph (slot q p')) = Some t' → slot q p' ≠ slot q p) as Hne.
  { intros p' Ho Heq. rewrite Heq in Ho. by eapply Hnotother. }
  assert (∀ p', slot q p' ≠ slot q p → cell_at q' p' = cell_at q p') as Hcell.
  { intros p' Hp'. by apply update_cell. }
  destruct (pc_of s t') as [|p' x|p' seq x|p' x|p' x|p'|p' seq|p'|p' x]; simpl in *; try done; try lia.
  - pose proof (update_tag p'). lia.
  - destruct Hok as [Hph Hx]. specialize (Hne p'). rewrite Hph in Hne. specialize (Hne eq_refl).
    change (slot q' p') with (slot q p'). rewrite fn_lookup_insert_ne by done.
    eauto using prefix_lookup_Some.
  - destruct Hok as (Hph & Hx & Hdata). specialize (Hne p'). rewrite Hph in Hne. specialize (Hne eq_refl).
    change (slot q' p') with (slot q p'). rewrite fn_lookup_insert_ne, Hcell by done.
    eauto using prefix_lookup_Some.
  - pose proof (update_tag p'). lia.
  - destruct Hok as [Hph Hx]. specialize (Hne p'). rewrite Hph in Hne. specialize (Hne eq_refl).
    change (slot q' p') with (slot q p'). rewrite fn_lookup_insert_ne, Hcell by done.
    split; [done|]. rewrite Hx. destruct (si_slot I p') as (Ht0 & _ & Hok'). rewrite Hph in *.
    simpl in Ht0, Hok'. pose proof (si_enq _ _ _ I). pose proof (si_deq _ _ _ I).
    destruct (lookup_lt_is_Some_2 pushed (Z.to_nat p')) as [y Hy]; [lia|].
    rewrite Hy. symmetry. eauto using prefix_lookup_Some.
  - destruct Hok as [Hph Hx]. specialize (Hne p'). rewrite Hph in Hne. specialize (Hne eq_refl).
    change (slot q' p') with (slot q p'). rewrite fn_lookup_insert_ne by done.
    eauto using prefix_lookup_Some.
Qed.

Context (Hnew : 0 ≤ ticket f' ∧ ticket f' `mod` r_capacity q = p `mod` r_capacity q ∧
                phase_ok e' d' (r_capacity q) pushed' (cell_at q' p) f').
Context (Hothers : ∀ i, (i < length (r_buffer q))%nat →
   ticket (ph i) `mod` r_capacity q ≠ p `mod` r_capacity q →
   phase_ok (r_enqueuePos q) (r_dequeuePos q) (r_capacity q) pushed (cell_i q i) (ph i) →
   phase_ok e' d' (r_capacity q) pushed' (cell_i q i) (ph i)).
Context (Hpos : e' = Z.of_nat (length pushed') ∧ 0 ≤ d' ≤ e' ∧ e' ≤ d' + r_capacity q ∧
                e' + r_capacity q < 2 ^ 63).
Context (Hthread : thread_ok q' pushed' ph' t c').
Context (Howner : owner_ok (goto s t q' c') f').

Lemma sinv_update : sinv ph' (goto s t q' c') pushed'.
Proof using All.
  destruct Hpos as (He & Hd & Hed & Hrange). constructor; simpl; try done.
  - apply (si_pow _ _ _ I).
  - rewrite Hlen. apply (si_len _ _ _ I).
  - intros i. rewrite Hlen. intros Hi. unfold slot_ok; simpl.
    pose proof (si_slots _ _ _ I i Hi) as (Ht0 & Hm & Hok).
    destruct (decide (i = slot q p)) as [->|Hne].
    + rewrite fn_lookup_insert. destruct Hnew as (? & -> & ?). split; [done|]. split; [|done].
      by rewrite <-(si_ticket I p), Hm.
    + rewrite fn_lookup_insert_ne, update_cell by done. split; [done|]. split; [done|].
      apply Hothers; [done| |done]. intros Heq. apply Hne.
      rewrite <-(si_slot_ticket I i Hi). by apply (si_slot_inj I).
  - intros t'. rewrite pc_of_goto. case_decide as Heq; [by subst|]. by apply update_other.
  - intros i. rewrite Hlen. intros Hi.
    destruct (decide (i = slot q p)) as [->|Hne]; [by rewrite fn_lookup_insert|].
    rewrite fn_lookup_insert_ne by done. pose proof (si_owners _ _ _ I i Hi) as Hok.
    assert (owner (ph i) ≠ Some t) as Hno by (intros Ho; by apply Hne, Hmine).
    destruct (ph i) as [p'|p' t'|p'|p' t']; simpl in *; try done;
      rewrite pc_of_goto, decide_False; naive_solver.
Qed.
End Update.

Lemma store_cell_at ph s pushed p c : sinv ph s pushed → cell_at (store_cell (cs_ring s) p c) p = c.
Proof.
  intros I. unfold cell_at. change (slot (store_cell (cs_ring s) p c) p) with (slot (cs_ring s) p).
  simpl. by rewrite list_lookup_insert_eq by apply (si_slot_lt I).
Qed.

(** The owner of a claimed slot replaces its cell and its phase. *)
Lemma sinv_store ph s pushed t p c f' c' :
  sinv ph s pushed → owner (ph (slot (cs_ring s) p)) = Some t →
  (∀ i, (i < length (r_buffer (cs_ring s)))%nat → owner (ph i) = Some t → i = slot (cs_ring s) p) →
  c_sequence (cell_at (cs_ring s) p) ≤ c_sequence c →
  0 ≤ ticket f' ∧ ticket f' `mod` r_capacity (cs_ring s) = p `mod` r_capacity (cs_ring s) ∧
    phase_ok (r_enqueuePos (cs_ring s)) (r_dequeuePos (cs_ring s)) (r_capacity (cs_ring s)) pushed c f' →
  thread_ok (store_cell (cs_ring s) p c) pushed (<[slot (cs_ring s) p := f']> ph) t c' →
  owner_ok (goto s t (store_cell (cs_ring s) p c) c') f' →
  sinv (<[slot (cs_ring s) p := f']> ph) (goto s t (store_cell (cs_ring s) p c) c') pushed.
Proof.
  intros I Ho Hmine Htag Hnew Hth Hown. pose proof (store_cell_at _ _ _ p c I) as Hc.
  pose proof (si_deq _ _ _ I). pose proof (si_enq _ _ _ I). pose proof (si_range _ _ _ I).
  unfold store_cell in *. apply (sinv_update ph s pushed); try done.
  - rewrite Ho. naive_solver.
  - by rewrite length_insert.
  - intros i Hi. by rewrite list_lookup_insert_ne.
  - by rewrite Hc.
  - by rewrite Hc.
  - lia.
Qed.

Lemma push_loop_owns ph s pushed t i :
  sinv ph s pushed → (i < length (r_buffer (cs_ring s)))%nat →
  match pc_of s t with PushClaimed _ _ | PushWritten _ _ | PopClaimed _ | PopTaken _ _ => False | _ => True end →
  owner (ph i) ≠ Some t.
Proof. intros I Hi Hpc Ho. pose proof (si_not_owner I t i Hi Ho). by destruct (pc_of s t). Qed.

Lemma push_claim_sinv ph s pushed t pos x :
  sinv ph s pushed → r_enqueuePos (cs_ring s) = pos → pos ≤ c_sequence (cell_at (cs_ring s) pos) →
  pos + 1 + r_capacity (cs_ring s) < 2 ^ 63 →
  (∀ i, (i < length (r_buffer (cs_ring s)))%nat → owner (ph i) ≠ Some t) →
  sinv (<[slot (cs_ring s) pos := Writing pos t]> ph)
    (goto s t (set_enq (cs_ring s) (pos + 1)) (PushClaimed pos x)) (pushed ++ [x]).
Proof.
  intros I He Hseq Hr Hno. destruct (si_enq_tag I pos He Hseq) as [Hfree Hroom].
  destruct (si_slot I pos) as (_ & _ & Hok). rewrite Hfree in Hok. simpl in Hok.
  pose proof (si_deq _ _ _ I) as Hdeq. pose proof (si_enq _ _ _ I) as Henq. pose proof (si_cap I) as Hcap.
  change (cell_i (cs_ring s) (slot (cs_ring s) pos)) with (cell_at (cs_ring s) pos) in Hok.
  unfold set_enq. eapply (sinv_update ph s pushed I t pos (Writing pos t)); simpl; try done.
  - naive_solver.
  - intros t' _. by rewrite Hfree.
  - split_and!; [lia|lia|by apply prefix_app_r].
  - destruct Hok as [Hok _]. split_and!; [lia|done|exact Hok|lia|lia].
  - intros i Hi Hne Hoki. destruct (ph i) as [p'|p' t'|p'|p' t'] eqn:Hi'; simpl in *.
    + assert (p' ≠ pos) by congruence. lia.
    + lia.
    + destruct Hoki as (? & -> & ?). split_and!; [done| |lia|lia]. rewrite lookup_app_l; [done|lia].
    + assert (p' + r_capacity (cs_ring s) ≠ pos); [|lia].
      intros Hlap. apply Hne. rewrite <-(Z.mod_add p' 1) by lia. f_equal. lia.
  - rewrite length_app; simpl. lia.
  - change (slot _ pos) with (slot (cs_ring s) pos) at 2. rewrite fn_lookup_insert.
    split; [done|]. rewrite lookup_app_r by lia.
    by replace (Z.to_nat pos - length pushed)%nat with 0%nat by lia.
  - exists x. rewrite pc_of_goto, decide_True by done. by left.
Qed.

Lemma push_step_sinv ph s pushed t sp s' evs :
  sinv ph s pushed → push_step t sp s = Some (s', evs) →
  Z.of_nat (length (pushed ++ pushes evs)) + r_capacity (cs_ring s) < 2 ^ 63 →
  ∃ ph', sinv ph' s' (pushed ++ pushes evs).
Proof.
  intros I Hstep Hr. unfold push_step in Hstep. pose proof (si_threads _ _ _ I t) as Hth.
  pose proof (si_range _ _ _ I) as Hrange. pose proof (si_deq _ _ _ I) as Hdeq.
  pose proof (si_enq _ _ _ I) as Henq. pose proof (si_cap I) as Hcap.
  pose proof (λ i Hi, push_loop_owns _ _ _ t i I Hi) as Hno.
  pose proof (λ i Hi, si_not_owner I t i Hi) as Hmine.
  destruct (pc_of s t) as [|pos x|pos seq x|pos x|pos x| | | |] eqn:Hpc; try done; simpl in Hth.
  - (* load the tag *)
    simplify_eq; simpl. rewrite app_nil_r. exists ph. apply sinv_local; [done|by naive_solver|].
    simpl. pose proof (si_cell_seq I pos). lia.
  - destruct Hth as (Hpos & Hseq). pose proof (si_cell_seq I pos) as Hcs.
    rewrite !sint64_small in Hstep by lia.
    case_decide as Hd; [case_decide as Hcas|case_decide as Hneg]; simplify_eq; simpl;
      rewrite ?app_nil_r; [|exists ph; apply sinv_local; [done|by naive_solver|simpl; lia]..].
    destruct Hcas as [He _]. simpl in Hr. rewrite length_app in Hr. simpl in Hr.
    rewrite wrap64_small by (unfold u64_mod; lia).
    eexists. apply (push_claim_sinv _ _ _ t pos x I); [done|lia|lia|naive_solver].
  - (* write the data *)
    destruct Hth as (Hph & Hx). simplify_eq; simpl. rewrite app_nil_r.
    destruct (si_slot I pos) as (Ht0 & _ & Hok). rewrite Hph in Hok, Ht0. simpl in Hok, Ht0.
    exists (<[slot (cs_ring s) pos := Writing pos t]> ph). apply sinv_store; simpl; try done.
    + by rewrite Hph.
    + rewrite store_cell_at with (ph := ph) (pushed := pushed) by done.
      by rewrite fn_lookup_insert.
    + exists x. rewrite pc_of_goto, decide_True by done. by right.
  - (* publish *)
    destruct Hth as (Hph & Hx & Hdata). simplify_eq; simpl. rewrite app_nil_r.
    destruct (si_slot I pos) as (Ht0 & _ & Hok). rewrite Hph in Hok, Ht0. simpl in Hok, Ht0.
    rewrite wrap64_small by (unfold u64_mod; lia).
    change (cell_i (cs_ring s) (slot (cs_ring s) pos)) with (cell_at (cs_ring s) pos) in Hok.
    exists (<[slot (cs_ring s) pos := Ready pos]> ph). apply sinv_store; simpl; try done.
    + by rewrite Hph.
    + lia.
    + split_and!; [done|done|done|congruence|lia|lia].
Qed.

Lemma pop_claim_sinv ph s pushed t pos :
  sinv ph s pushed → r_dequeuePos (cs_ring s) = pos → pos < c_sequence (cell_at (cs_ring s) pos) →
  (∀ i, (i < length (r_buffer (cs_ring s)))%nat → owner (ph i) ≠ Some t) →
  sinv (<[slot (cs_ring s) pos := Reading pos t]> ph)
    (goto s t (set_deq (cs_ring s) (pos + 1)) (PopClaimed pos)) pushed.
Proof.
  intros I He Hseq Hno. pose proof (si_deq_tag I pos He Hseq) as Hready.
  destruct (si_slot I pos) as (_ & _ & Hok). rewrite Hready in Hok. simpl in Hok.
  pose proof (si_deq _ _ _ I) as Hdeq. pose proof (si_enq _ _ _ I) as Henq. pose proof (si_cap I) as Hcap.
  pose proof (si_range _ _ _ I) as Hrange.
  change (cell_i (cs_ring s) (slot (cs_ring s) pos)) with (cell_at (cs_ring s) pos) in Hok.
  destruct Hok as (Htag & Hdata & Hok).
  unfold set_deq. eapply (sinv_update ph s pushed I t pos (Reading pos t)); simpl; try done.
  - naive_solver.
  - intros t' _. by rewrite Hready.
  - split_and!; [lia|lia|done].
  - split_and!; [lia|done|exact Htag|lia|lia].
  - intros i Hi Hne Hoki.
    destruct (ph i) as [p'|p' t'|p'|p' t'] eqn:Hi'; simpl in *; [lia| | |lia];
      assert (p' ≠ pos) by congruence; naive_solver lia.
  - lia.
  - change (slot _ pos) with (slot (cs_ring s) pos) at 2. rewrite fn_lookup_insert. done.
  - rewrite pc_of_goto, decide_True by done. by left.
Qed.

Lemma pop_step_sinv ph s pushed t sp s' evs :
  sinv ph s pushed → pop_step t sp s = Some (s', evs) → ∃ ph', sinv ph' s' (pushed ++ pushes evs).
Proof.
  intros I Hstep. unfold pop_step in Hstep. pose proof (si_threads _ _ _ I t) as Hth.
  pose proof (si_range _ _ _ I) as Hrange. pose proof (si_deq _ _ _ I) as Hdeq.
  pose proof (si_enq _ _ _ I) as Henq. pose proof (si_cap I) as Hcap.
  pose proof (λ i Hi, push_loop_owns _ _ _ t i I Hi) as Hno.
  pose proof (λ i Hi, si_not_owner I t i Hi) as Hmine.
  destruct (pc_of s t) as [| | | | |pos|pos seq|pos|pos x] eqn:Hpc; try done; simpl in Hth.
  - simplify_eq; simpl. rewrite app_nil_r. exists ph. apply sinv_local; [done|by naive_solver|].
    simpl. pose proof (si_cell_seq I pos). lia.
  - destruct Hth as (Hpos & Hseq). pose proof (si_cell_seq I pos) as Hcs.
    rewrite wrap64_small in Hstep by (unfold u64_mod; lia). rewrite !sint64_small in Hstep by lia.
    case_decide as Hd; [case_decide as Hcas|case_decide as Hneg]; simplify_eq; simpl;
      rewrite ?app_nil_r; [|exists ph; apply sinv_local; [done|by naive_solver|simpl; lia]..].
    destruct Hcas as [He _]. eexists. apply (pop_claim_sinv _ _ _ t pos I); [done|lia|naive_solver].
  - destruct Hth as (Hph & Hdata). destruct (si_slot I pos) as (Ht0 & _ & Hok).
    rewrite Hph in Hok, Ht0. simpl in Hok, Ht0. rewrite Hdata in Hstep.
    destruct (pushed !! Z.to_nat pos) as [x|] eqn:Hx; simplify_eq/=. rewrite app_nil_r.
    exists (<[slot (cs_ring s) pos := Reading pos t]> ph). apply sinv_store; simpl; try done.
    + by rewrite Hph.
    + by rewrite fn_lookup_insert.
    + rewrite pc_of_goto, decide_True by done. right. by exists x.
  - destruct Hth as (Hph & Hx). simplify_eq; simpl. rewrite app_nil_r.
    destruct (si_slot I pos) as (Ht0 & _ & Hok). rewrite Hph in Hok, Ht0. simpl in Hok, Ht0.
    rewrite wrap64_small by (unfold u64_mod; lia).
    change (cell_i (cs_ring s) (slot (cs_ring s) pos)) with (cell_at (cs_ring s) pos) in Hok.
    exists (<[slot (cs_ring s) pos := Free (pos + r_capacity (cs_ring s))]> ph).
    apply sinv_store; simpl; try done.
    + by rewrite Hph.
    + lia.
    + split_and!; [lia| |done|lia|lia]. rewrite <-(Z.mod_add pos 1) by lia. f_equal. lia.
Qed.

Lemma cstep_sinv ph s pushed t a s' evs :
  sinv ph s pushed → cstep t a s = Some (s', evs) →
  Z.of_nat (length (pushed ++ pushes evs)) + r_capacity (cs_ring s) < 2 ^ 63 →
  ∃ ph', sinv ph' s' (pushed ++ pushes evs).
Proof.
  intros I Hstep Hr. pose proof (si_deq _ _ _ I) as Hdeq. unfold cstep in Hstep.
  pose proof (λ i Hi, push_loop_owns _ _ _ t i I Hi) as Hno. destruct a as [x| |sp].
  - destruct (pc_of s t) eqn:Hpc; simplify_eq. exists ph. simpl. rewrite app_nil_r.
    apply sinv_local; [done|naive_solver|simpl; lia].
  - destruct (pc_of s t) eqn:Hpc; simplify_eq. exists ph. simpl. rewrite app_nil_r.
    apply sinv_local; [done|naive_solver|simpl; lia].
  - assert (push_step t sp s = Some (s', evs) ∨ pop_step t sp s = Some (s', evs)) as [Hp|Hp].
    { destruct (pc_of s t), (push_step t sp s) as [r|]; simplify_eq; auto. }
    + by eapply push_step_sinv.
    + by eapply pop_step_sinv.
Qed.
End Invariant.

(** ** Reachable states *)

Section Reach.
Context {T : Type}.
Implicit Types (s : CState T) (tr : list (event T)).

Definition is_popclaimed (c : pc T) : Prop := match c with PopClaimed _ => True | _ => False end.

(** Every step is quiet for the consumers' tickets, claims one, or takes one. *)
Lemma cstep_cases t a s s' evs :
  cstep t a s = Some (s', evs) →
  r_capacity (cs_ring s') = r_capacity (cs_ring s) ∧
  ∃ c, s' = goto s t (cs_ring s') c ∧
  ((pop_claims evs = [] ∧ takes evs = [] ∧ r_dequeuePos (cs_ring s') = r_dequeuePos (cs_ring s) ∧
     ¬ is_popclaimed c ∧ ¬ is_popclaimed (pc_of s t)) ∨
   (pop_claims evs = [r_dequeuePos (cs_ring s)] ∧ takes evs = [] ∧ pushes evs = [] ∧
     r_dequeuePos (cs_ring s') = wrap64 (r_dequeuePos (cs_ring s) + 1) ∧
     c = PopClaimed (r_dequeuePos (cs_ring s)) ∧ ¬ is_popclaimed (pc_of s t)) ∨
   (∃ p x, pop_claims evs = [] ∧ takes evs = [(p, x)] ∧ pushes evs = [] ∧
     r_dequeuePos (cs_ring s') = r_dequeuePos (cs_ring s) ∧ c = PopTaken p x ∧
     pc_of s t = PopClaimed p ∧ c_data (cell_at (cs_ring s) p) = Some x)).
Proof.
  intros Hstep. unfold cstep, push_step, pop_step in Hstep.
  destruct a as [y| |sp], (pc_of s t) as [|pos x|pos seq x|pos x|pos x|pos|pos seq|pos|pos x] eqn:Hpc;
    repeat (case_decide; simplify_eq/=); try (apply bind_Some in Hstep as (v & Hd & Hstep));
    simplify_eq/=; (split; [done|]); eexists; (split; [done|]); try (by left; split_and!; [..|tauto|tauto]).
  - right. left. destruct_and!. subst. split_and!; try done. tauto.
  - right. right. exists pos, v. by split_and!.
Qed.

Lemma init_sinv (min_capacity : Z) :
  min_capacity ≤ 2 ^ 61 →
  sinv (λ i, Free (Z.of_nat i)) (init min_capacity : CState T) [] ∧
  r_capacity (newRing min_capacity : Ring T) ≤ 2 ^ 62.
Proof.
  intros Hmin. destruct (newRing_repr (T := T) min_capacity (Z.to_nat (2 ^ 62 - 1)) Hmin) as [Hrepr Hge]; [lia|].
  simpl in Hrepr. pose proof (ring_cap _ _ _ Hrepr) as Hcap. destruct Hrepr as [Hpow Hlen Hpos Hrange Hcells].
  simpl in Hpos. destruct Hpos as (_ & Hee & _).
  set (q := newRing min_capacity : Ring T) in *.
  assert (r_dequeuePos q = 0) as Hd0 by done. assert (r_enqueuePos q = 0) as He0 by done.
  split; [|lia].
  constructor; change (cs_ring (init min_capacity)) with q; rewrite ?Hd0, ?He0; try done.
  - lia.
  - lia.
  - intros i Hi. rewrite Hlen in Hi. unfold slot_ok, ticket, phase_ok. rewrite Hd0, He0, Z.mod_small by lia.
    split; [lia|]. split; [done|]. split; [|lia].
    specialize (Hcells (Z.of_nat i) ltac:(lia)). unfold cell_ok in Hcells.
    rewrite decide_False in Hcells by lia. etrans; [|exact Hcells]. f_equal.
    unfold cell_at, cell_i. destruct Hpow as (k & Hk & Hc & Hm). unfold slot. rewrite Hm.
    replace (2 ^ k - 1) with (Z.ones k) by (rewrite Z.ones_equiv; lia).
    rewrite Z.land_ones, Z.mod_small by lia. by rewrite Nat2Z.id.
Qed.

Lemma pushes_app tr tr' : pushes (tr ++ tr') = pushes tr ++ pushes tr'.
Proof. apply omap_app. Qed.

Lemma creach_sinv (min_capacity : Z) s tr :
  min_capacity ≤ 2 ^ 61 → creach min_capacity s tr → Z.of_nat (length (pushes tr)) < 2 ^ 62 →
  r_capacity (cs_ring s) = r_capacity (newRing min_capacity : Ring T) ∧ ∃ ph, sinv ph s (pushes tr).
Proof.
  intros Hmin Hreach. pose proof (init_sinv min_capacity Hmin) as [Hinit Hcap].
  induction Hreach as [|s tr t a s' evs Hreach IH Hstep]; intros Hlen; [by eauto|].
  rewrite pushes_app in Hlen |- *. rewrite length_app in Hlen.
  destruct (IH ltac:(lia)) as (Hc & ph & I). destruct (cstep_cases _ _ _ _ _ Hstep) as [Hc' _].
  split; [congruence|]. eapply cstep_sinv; [done..|]. rewrite length_app, Hc. lia.
Qed.

(** What the events say of the tickets. *)
Record tinv s tr : Prop := {
  ti_claims : pop_claims tr = Z.of_nat <$> seq 0 (Z.to_nat (r_dequeuePos (cs_ring s)));
  ti_takes : ∀ p x, (p, x) ∈ takes tr →
    0 ≤ p < r_dequeuePos (cs_ring s) ∧ pushes tr !! Z.to_nat p = Some x;
  ti_nodup : NoDup (takes tr).*1;
  ti_all : ∀ p, 0 ≤ p < r_dequeuePos (cs_ring s) →
    p ∈ (takes tr).*1 ∨ ∃ t, pc_of s t = PopClaimed p;
  ti_pending : ∀ t p, pc_of s t = PopClaimed p → p ∉ (takes tr).*1;
}.

Lemma cstep_tinv ph t a s s' evs tr :
  sinv ph s (pushes tr) → tinv s tr → cstep t a s = Some (s', evs) → tinv s' (tr ++ evs).
Proof.
  intros I [Hclaims Htakes Hnd Hall Hpend] Hstep.
  destruct (cstep_cases _ _ _ _ _ Hstep) as (_ & c & Hs' & Hcases).
  assert (∀ t', pc_of s' t' = if decide (t = t') then c else pc_of s t') as Hpc.
  { intros t'. rewrite Hs'. apply pc_of_goto. }
  pose proof (si_deq _ _ _ I) as Hdeq. pose proof (si_range _ _ _ I) as Hrange.
  pose proof (si_cap I) as Hcap.
  assert (∀ p x, (p, x) ∈ takes tr → 0 ≤ p < r_dequeuePos (cs_ring s) ∧
                 pushes (tr ++ evs) !! Z.to_nat p = Some x) as Htakes'.
  { intros p x Hp. rewrite pushes_app. destruct (Htakes p x Hp) as [? ?].
    split; [done|]. by apply lookup_app_l_Some. }
  destruct Hcases as [(H1 & H2 & H3 & H4 & H5)|[(H1 & H2 & H3 & H4 & H5 & H6)|(p & x & H1 & H2 & H3 & H4 & H5 & H6 & H7)]].
  - constructor; unfold pop_claims, takes in *; rewrite omap_app, ?H1, ?H2, ?H3, ?app_nil_r; try done.
    + intros p Hp. destruct (Hall p Hp) as [?|[t' Ht']]; [by left|right]. exists t'.
      rewrite Hpc, decide_False; [done|]. intros <-. rewrite Ht' in H5. simpl in H5. tauto.
    + intros t' p. rewrite Hpc. case_decide; [intros ->; simpl in H4; tauto|apply Hpend].
  - rewrite wrap64_small in H4 by (unfold u64_mod; lia).
    constructor; unfold pop_claims, takes in *; rewrite omap_app, ?H1, ?H2, ?H4, ?app_nil_r; try done.
    + rewrite Hclaims, Z2Nat.inj_add, Nat.add_1_r, seq_S, fmap_app by lia. simpl. by rewrite Z2Nat.id by lia.
    + intros p x Hp. destruct (Htakes' p x Hp). split; [lia|done].
    + intros p Hp. destruct (decide (p = r_dequeuePos (cs_ring s))) as [->|Hne].
      * right. exists t. by rewrite Hpc, decide_True.
      * destruct (Hall p ltac:(lia)) as [?|[t' Ht']]; [by left|right]. exists t'.
        rewrite Hpc, decide_False; [done|]. intros <-. rewrite Ht' in H6. simpl in H6. tauto.
    + intros t' p. rewrite Hpc. case_decide; [|apply Hpend]. subst c. intros [= <-].
      intros ([p' x] & Heq & Hin)%list_elem_of_fmap. simpl in Heq. subst p'.
      destruct (Htakes _ _ Hin). lia.
  - pose proof (si_threads _ _ _ I t) as Hth. rewrite H6 in Hth. destruct Hth as [Hph Hx].
    destruct (si_slot I p) as (Ht0 & _ & Hok). rewrite Hph in Ht0, Hok. simpl in Ht0, Hok.
    constructor; unfold pop_claims, takes in *;
      rewrite omap_app, ?H1, ?H2, ?H4, ?app_nil_r; try done.
    + intros p' x' [Hp'|Hp']%elem_of_app; [by apply Htakes'|].
      apply list_elem_of_singleton in Hp' as [= -> ->]. split; [lia|].
      rewrite pushes_app. apply lookup_app_l_Some. congruence.
    + rewrite fmap_app. apply NoDup_app. split; [done|]. split; [|apply NoDup_singleton].
      intros p' Hp' ->%list_elem_of_singleton. by eapply Hpend.
    + intros p' Hp'. rewrite fmap_app.
      destruct (Hall p' Hp') as [?|[t' Ht']]; [left; apply elem_of_app; by left|].
      destruct (decide (t = t')) as [<-|Hne]; [left|right].
      * assert (p' = p) as -> by congruence. apply elem_of_app. right. by apply list_elem_of_singleton.
      * exists t'. by rewrite Hpc, decide_False.
    + intros t' p'. rewrite Hpc, fmap_app. case_decide as Ht; [by subst|]. intros Ht' Hin.
      apply elem_of_app in Hin as [Hin|Hin]; [by eapply Hpend|].
      apply list_elem_of_singleton in Hin. simpl in Hin. subst p'.
      pose proof (si_threads _ _ _ I t') as Hth'. rewrite Ht' in Hth'. destruct Hth' as [Hph' _].
      congruence.
Qed.

Lemma creach_tinv (min_capacity : Z) s tr :
  min_capacity ≤ 2 ^ 61 → creach min_capacity s tr → Z.of_nat (length (pushes tr)) < 2 ^ 62 → tinv s tr.
Proof.
  intros Hmin Hreach. induction Hreach as [|s tr t a s' evs Hreach IH Hstep]; intros Hlen.
  - split; simpl; [done|by intros p x ?%not_elem_of_nil|apply NoDup_nil_2|lia|].
    intros t p Hpc. unfold pc_of in Hpc; simpl in Hpc. by rewrite lookup_empty in Hpc.
  - rewrite pushes_app, length_app in Hlen.
    destruct (creach_sinv _ _ _ Hmin Hreach) as (_ & ph & I); [lia|].
    eapply cstep_tinv; [done| |done]. apply IH. lia.
Qed.
End Reach.

(** ** Running alone *)

Section Solo.
Context {T : Type}.
Implicit Types (s : CState T).

Definition is_idle (c : pc T) : bool := match c with Idle => true | _ => false end.

(** Thread [t] runs alone, at most [n] steps, until its call returns. *)
Fixpoint solo (n : nat) (t : nat) s : option (CState T) :=
  if is_idle (pc_of s t) then Some s
  else match n with
       | O => None
       | S n' => '(s', _) ← cstep t (Run false) s; solo n' t s'
       end.

Definition finishes (n t : nat) s : Prop := ∃ s', solo n t s = Some s' ∧ pc_of s' t = Idle.

Lemma finishes_idle n t s : pc_of s t = Idle → finishes n t s.
Proof. intros H. exists s. by destruct n; simpl; rewrite H. Qed.

Lemma finishes_step n t s s1 evs :
  cstep t (Run false) s = Some (s1, evs) → finishes n t s1 → finishes (S n) t s.
Proof.
  intros Hstep (s' & Hsolo & Hidle). destruct (is_idle (pc_of s t)) eqn:Hi.
  - apply finishes_idle. by destruct (pc_of s t).
  - exists s'. cbn [solo]. by rewrite Hi, Hstep.
Qed.

Lemma finishes_mono n m t s : (n ≤ m)%nat → finishes n t s → finishes m t s.
Proof.
  intros Hle (s' & Hsolo & Hidle). exists s'. split; [|done]. clear Hidle. revert m s Hle Hsolo.
  induction n as [|n IH]; intros m s Hle Hsolo; cbn [solo] in Hsolo.
  - destruct (is_idle (pc_of s t)) eqn:Hi; simplify_eq. by destruct m; simpl; rewrite Hi.
  - destruct m as [|m]; [lia|]. cbn [solo]. destruct (is_idle (pc_of s t)); [done|].
    destruct (cstep t (Run false) s) as [[s1 evs]|]; [|done]. apply IH; [lia|done].
Qed.

Lemma pc_of_goto_eq s t (q : Ring T) c : pc_of (goto s t q c) t = c.
Proof. by rewrite pc_of_goto, decide_True. Qed.

Lemma push_tail t s pos x n : pc_of s t = PushClaimed pos x ∨ pc_of s t = PushWritten pos x →
  finishes (2 + n) t s.
Proof.
  intros Hpc. assert (∀ s1, pc_of s1 t = PushWritten pos x → finishes (S n) t s1) as Hw.
  { intros s1 H1. eapply finishes_step; [unfold cstep, push_step; by rewrite H1|].
    apply finishes_idle, pc_of_goto_eq. }
  destruct Hpc as [Hpc|Hpc]; [|by eapply finishes_mono, Hw; [lia|]].
  eapply finishes_step; [unfold cstep, push_step; by rewrite Hpc|]. apply Hw, pc_of_goto_eq.
Qed.

Lemma pop_tail t s pos x n : pc_of s t = PopTaken pos x → finishes (1 + n) t s.
Proof.
  intros Hpc. eapply finishes_step; [unfold cstep, push_step, pop_step; by rewrite Hpc|].
  apply finishes_idle, pc_of_goto_eq.
Qed.

Section WithInv.
Context {ph : nat → phase} {s0 : CState T} {pushed : list T} (I : sinv ph s0 pushed) (t : nat).

(** [s] differs from [s0] only in where [t] is. *)
Lemma push_read_fresh s seq x n :
  cs_ring s = cs_ring s0 →
  pc_of s t = PushRead (r_enqueuePos (cs_ring s0)) seq x →
  seq = c_sequence (cell_at (cs_ring s0) (r_enqueuePos (cs_ring s0))) → finishes (3 + n) t s.
Proof using I.
  intros Hq Hpc Hseq. pose proof (si_range _ _ _ I). pose proof (si_deq _ _ _ I). pose proof (si_cap I).
  pose proof (si_cell_seq I (r_enqueuePos (cs_ring s0))) as Hcs.
  destruct (decide (r_enqueuePos (cs_ring s0) ≤ seq)) as [Hle|Hlt].
  - destruct (si_enq_tag I _ eq_refl) as [Hfree _]; [lia|].
    destruct (si_slot I (r_enqueuePos (cs_ring s0))) as (_ & _ & Hok). rewrite Hfree in Hok.
    simpl in Hok. destruct Hok as [Hok _].
    change (cell_i (cs_ring s0) (slot (cs_ring s0) ?p)) with (cell_at (cs_ring s0) p) in Hok.
    eapply finishes_step.
    { unfold cstep, push_step. rewrite Hpc, Hq, Hseq, Hok, decide_True, decide_True by (done || lia). done. }
    eapply push_tail. left. apply pc_of_goto_eq.
  - eapply finishes_step.
    { unfold cstep, push_step. rewrite Hpc, !sint64_small, decide_False, decide_True by lia. done. }
    apply finishes_idle, pc_of_goto_eq.
Qed.

Lemma push_loaded_fresh s x n :
  cs_ring s = cs_ring s0 → pc_of s t = PushLoaded (r_enqueuePos (cs_ring s0)) x → finishes (4 + n) t s.
Proof using I.
  intros Hq Hpc. eapply finishes_step; [unfold cstep, push_step; by rewrite Hpc|].
  eapply push_read_fresh; [done|apply pc_of_goto_eq|by rewrite Hq].
Qed.

Lemma push_read_any s pos seq x n :
  cs_ring s = cs_ring s0 → pc_of s t = PushRead pos seq x → finishes (5 + n) t s.
Proof using I.
  intros Hq Hpc.
  assert (∀ s1, cstep t (Run false) s = Some (s1, []) → cs_ring s1 = cs_ring s0 →
          pc_of s1 t = PushLoaded (r_enqueuePos (cs_ring s0)) x → finishes (5 + n) t s) as Hreload.
  { intros s1 Hstep Hq1 Hpc1. eapply finishes_step; [done|]. by eapply push_loaded_fresh. }
  destruct (cstep t (Run false) s) as [[s1 evs]|] eqn:Hstep.
  - pose proof Hstep as Hstep'. unfold cstep, push_step in Hstep. rewrite Hpc, Hq in Hstep.
    repeat case_decide; simplify_eq.
    + eapply finishes_step; [done|]. eapply push_tail. left. apply pc_of_goto_eq.
    + eapply Hreload; [done|done|apply pc_of_goto_eq].
    + eapply finishes_step; [done|]. apply finishes_idle, pc_of_goto_eq.
    + eapply Hreload; [done|done|apply pc_of_goto_eq].
  - unfold cstep, push_step in Hstep. rewrite Hpc in Hstep. by repeat case_decide.
Qed.

Lemma pop_claimed_tail s pos x n :
  pc_of s t = PopClaimed pos → c_data (cell_at (cs_ring s) pos) = Some x → finishes (2 + n) t s.
Proof using Type.
  intros Hpc Hd. eapply finishes_step; [unfold cstep, push_step, pop_step; by rewrite Hpc, Hd|].
  eapply pop_tail, pc_of_goto_eq.
Qed.

(** The claim of a ready slot finds the item there. *)
Lemma pop_claim_data pos seq :
  r_dequeuePos (cs_ring s0) = pos → pos < seq ≤ c_sequence (cell_at (cs_ring s0) pos) →
  ∃ x, c_data (cell_at (cs_ring s0) pos) = Some x.
Proof using I.
  intros Hd Hseq. pose proof (si_deq_tag I pos Hd ltac:(lia)) as Hready.
  destruct (si_slot I pos) as (Ht0 & _ & Hok). rewrite Hready in Ht0, Hok. simpl in Ht0, Hok.
  change (cell_i (cs_ring s0) (slot (cs_ring s0) pos)) with (cell_at (cs_ring s0) pos) in Hok.
  destruct Hok as (_ & Hdata & Hp). rewrite Hdata. pose proof (si_enq _ _ _ I).
  destruct (lookup_lt_is_Some_2 pushed (Z.to_nat pos)) as [y Hy]; [lia|]. by exists y.
Qed.

Lemma pop_read_fresh s seq n :
  cs_ring s = cs_ring s0 →
  pc_of s t = PopRead (r_dequeuePos (cs_ring s0)) seq →
  seq = c_sequence (cell_at (cs_ring s0) (r_dequeuePos (cs_ring s0))) → finishes (3 + n) t s.
Proof using I.
  intros Hq Hpc Hseq. pose proof (si_range _ _ _ I). pose proof (si_deq _ _ _ I). pose proof (si_cap I).
  set (d := r_dequeuePos (cs_ring s0)) in *. pose proof (si_cell_seq I d) as Hcs.
  assert (wrap64 (d + 1) = d + 1) as Hw by (apply wrap64_small; unfold u64_mod; lia).
  destruct (decide (d < seq)) as [Hlt|Hge].
  - destruct (pop_claim_data d seq eq_refl) as [x Hx]; [lia|].
    pose proof (si_deq_tag I d eq_refl ltac:(lia)) as Hready.
    destruct (si_slot I d) as (_ & _ & Hok). rewrite Hready in Hok. simpl in Hok. destruct Hok as [Hok _].
    change (cell_i (cs_ring s0) (slot (cs_ring s0) d)) with (cell_at (cs_ring s0) d) in Hok.
    eapply finishes_step.
    { unfold cstep, push_step, pop_step. rewrite Hpc, Hq, Hw, Hseq, Hok.
      rewrite decide_True, decide_True by (done || lia). done. }
    eapply pop_claimed_tail; [apply pc_of_goto_eq|exact Hx].
  - eapply finishes_step.
    { unfold cstep, push_step, pop_step.
      rewrite Hpc, Hw, !sint64_small, decide_False, decide_True by lia. done. }
    apply finishes_idle, pc_of_goto_eq.
Qed.

Lemma pop_loaded_fresh s n :
  cs_ring s = cs_ring s0 → pc_of s t = PopLoaded (r_dequeuePos (cs_ring s0)) → finishes (4 + n) t s.
Proof using I.
  intros Hq Hpc. eapply finishes_step; [unfold cstep, push_step, pop_step; by rewrite Hpc|].
  eapply pop_read_fresh; [done|apply pc_of_goto_eq|by rewrite Hq].
Qed.

Lemma pop_read_any s pos seq n :
  cs_ring s = cs_ring s0 → pc_of s t = PopRead pos seq →
  0 ≤ pos ≤ r_dequeuePos (cs_ring s0) → 0 ≤ seq ≤ c_sequence (cell_at (cs_ring s0) pos) →
  finishes (5 + n) t s.
Proof using I.
  intros Hq Hpc Hpos Hseq. pose proof (si_range _ _ _ I). pose proof (si_deq _ _ _ I).
  pose proof (si_cap I). pose proof (si_cell_seq I pos).
  assert (∀ s1, cstep t (Run false) s = Some (s1, []) → cs_ring s1 = cs_ring s0 →
          pc_of s1 t = PopLoaded (r_dequeuePos (cs_ring s0)) → finishes (5 + n) t s) as Hreload.
  { intros s1 Hstep Hq1 Hpc1. eapply finishes_step; [done|]. by eapply pop_loaded_fresh. }
  destruct (cstep t (Run false) s) as [[s1 evs]|] eqn:Hstep.
  - pose proof Hstep as Hstep'. unfold cstep, push_step, pop_step in Hstep. rewrite Hpc, Hq in Hstep.
    rewrite wrap64_small in Hstep by (unfold u64_mod; lia). rewrite !sint64_small in Hstep by lia.
    repeat case_decide; simplify_eq.
    + eapply finishes_step; [done|]. destruct_and!.
      destruct (pop_claim_data pos seq) as [x Hx]; [done|lia|].
      eapply pop_claimed_tail; [apply pc_of_goto_eq|exact Hx].
    + eapply Hreload; [done|done|apply pc_of_goto_eq].
    + eapply finishes_step; [done|]. apply finishes_idle, pc_of_goto_eq.
    + eapply Hreload; [done|done|apply pc_of_goto_eq].
  - unfold cstep, push_step, pop_step in Hstep. rewrite Hpc in Hstep. by repeat case_decide.
Qed.

Lemma solo_finishes : finishes 6 t s0.
Proof using I.
  pose proof (si_threads _ _ _ I t) as Hth.
  destruct (pc_of s0 t) as [|pos x|pos seq x|pos x|pos x|pos|pos seq|pos|pos x] eqn:Hpc; simpl in Hth.
  - by apply finishes_idle.
  - eapply finishes_step; [unfold cstep, push_step; by rewrite Hpc|].
    eapply (push_read_any _ _ _ _ 0); [done|apply pc_of_goto_eq].
  - by eapply (push_read_any _ _ _ _ 1).
  - eapply (push_tail _ _ _ _ 4). by left.
  - eapply (push_tail _ _ _ _ 4). by right.
  - eapply finishes_step; [unfold cstep, push_step, pop_step; by rewrite Hpc|].
    pose proof (si_cell_seq I pos). eapply (pop_read_any _ _ _ 0); [done|apply pc_of_goto_eq|done|lia].
  - destruct Hth. by eapply (pop_read_any _ _ _ 1).
  - destruct Hth as [Hph Hx]. destruct (si_slot I pos) as (Ht0 & _ & Hok). rewrite Hph in Ht0, Hok.
    simpl in Ht0, Hok. pose proof (si_enq _ _ _ I). pose proof (si_deq _ _ _ I).
    destruct (lookup_lt_is_Some_2 pushed (Z.to_nat pos)) as [y Hy]; [lia|].
    eapply (pop_claimed_tail _ _ _ 4); [done|]. by rewrite Hx.
  - by eapply (pop_tail _ _ _ _ 5).
Qed.
End WithInv.
End Solo.

(** ** Quiescent states *)

Section Quiescent.
Context {T : Type}.
Implicit Types (s : CState T) (tr : list (event T)).

Definition quiescent s : Prop := ∀ t, pc_of s t = Idle.

Lemma quiescent_repr ph s pushed :
  sinv ph s pushed → quiescent s →
  ring_repr 0 (cs_ring s) (drop (Z.to_nat (r_dequeuePos (cs_ring s))) pushed).
Proof.
  intros I Hq. pose proof (si_deq _ _ _ I). pose proof (si_enq _ _ _ I). pose proof (si_range _ _ _ I).
  constructor; [apply (si_pow _ _ _ I)|apply (si_len _ _ _ I)| |lia|].
  { rewrite length_drop. lia. }
  intros p Hp. unfold cell_ok. destruct (si_slot I p) as (Ht0 & _ & Hok). pose proof (si_ticket I p) as Hm.
  assert (owner (ph (slot (cs_ring s) p)) = None) as Hown.
  { destruct (owner (ph (slot (cs_ring s) p))) as [t|] eqn:Ho; [|done].
    pose proof (si_not_owner I t _ (si_slot_lt I p) Ho) as Hf. by rewrite Hq in Hf. }
  change (cell_at (cs_ring s) p) with (cell_i (cs_ring s) (slot (cs_ring s) p)).
  destruct (ph (slot (cs_ring s) p)) as [p'| |p'|]; simpl in *; try done.
  - assert (p' = p) as -> by (apply (si_same I); [done|lia]). rewrite decide_False by lia. tauto.
  - assert (p' = p) as -> by (apply (si_same I); [done|lia]). rewrite decide_True by lia.
    destruct (lookup_lt_is_Some_2 pushed (Z.to_nat p)) as [x Hx]; [lia|].
    exists x. rewrite lookup_drop.
    replace (Z.to_nat (r_dequeuePos (cs_ring s)) + Z.to_nat (p - r_dequeuePos (cs_ring s)))%nat
      with (Z.to_nat p) by lia.
    split; [done|]. destruct (cell_i _ _); simpl in *. destruct Hok as (-> & -> & _). by rewrite Hx.
Qed.

(** The first [n] items with their tickets. *)
Lemma elem_of_tickets (n : nat) (l : list T) p x :
  (n ≤ length l)%nat →
  (p, x) ∈ zip (Z.of_nat <$> seq 0 n) (take n l) ↔ 0 ≤ p < Z.of_nat n ∧ l !! Z.to_nat p = Some x.
Proof.
  intros Hn. rewrite list_elem_of_lookup. setoid_rewrite lookup_zip_Some.
  setoid_rewrite list_lookup_fmap_Some. setoid_rewrite lookup_seq. setoid_rewrite lookup_take_Some.
  split.
  - intros (i & (j & -> & -> & Hj) & Hx & Hi). by rewrite Nat2Z.id; split; [lia|].
  - intros [Hp Hx]. exists (Z.to_nat p). split; [|split; [done|lia]].
    exists (Z.to_nat p). split; lia.
Qed.

Lemma takes_perm s tr :
  tinv s tr → quiescent s → (length (pop_claims tr) ≤ length (pushes tr))%nat →
  takes tr ≡ₚ zip (pop_claims tr) (take (length (pop_claims tr)) (pushes tr)).
Proof.
  intros [Hclaims Htakes Hnd Hall Hpend] Hq Hlen.
  rewrite Hclaims, length_fmap, length_seq in *. set (n := Z.to_nat (r_dequeuePos (cs_ring s))) in *.
  apply NoDup_Permutation.
  - by eapply NoDup_fmap_1.
  - apply (NoDup_fmap_1 fst). rewrite fst_zip by (rewrite length_fmap, length_seq, length_take; lia).
    apply NoDup_fmap_2; [apply _|]. apply NoDup_seq.
  - intros [p x]. rewrite elem_of_tickets by done. split.
    + intros Hp. destruct (Htakes _ _ Hp) as [? ?]. split; [lia|done].
    + intros [Hp Hx]. destruct (Hall p ltac:(lia)) as [Hin|[t Ht]]; [|by rewrite Hq in Ht].
      apply list_elem_of_fmap in Hin as ([p' y] & Heq & Hin). simpl in Heq. subst p'.
      destruct (Htakes _ _ Hin). by simplify_eq.
Qed.
End Quiescent.

(** ** Claims *)

(** C9: in every interleaving of any number of producers and consumers (fewer
    than [2^62] pushes), consumers claim the tickets 0, 1, 2, ... in order, each
    ticket is taken at most once, and what is taken under ticket [p] is the item
    of the [p]-th successful push; at most [capacity] items are in flight. *)
Theorem mpmc_exactly_once_fifo {T : Type} (min_capacity : Z) (s : CState T) (tr : list (event T)) :
  min_capacity ≤ 2 ^ 61 → creach min_capacity s tr → Z.of_nat (length (pushes tr)) < 2 ^ 62 →
  pop_claims tr = Z.of_nat <$> seq 0 (length (pop_claims tr)) ∧
  NoDup (takes tr).*1 ∧
  (∀ p x, (p, x) ∈ takes tr → 0 ≤ p < Z.of_nat (length (pop_claims tr)) ∧
                              pushes tr !! Z.to_nat p = Some x) ∧
  Z.of_nat (length (pop_claims tr)) ≤ Z.of_nat (length (pushes tr)) ≤
    Z.of_nat (length (pop_claims tr)) + r_capacity (newRing min_capacity : Ring T).
Proof.
  intros Hmin Hreach Hlen. destruct (creach_sinv _ _ _ Hmin Hreach Hlen) as (Hc & ph & I).
  destruct (creach_tinv _ _ _ Hmin Hreach Hlen) as [Hclaims Htakes Hnd _ _].
  pose proof (si_deq _ _ _ I) as Hd. pose proof (si_enq _ _ _ I). rewrite Hc in Hd.
  assert (length (pop_claims tr) = Z.to_nat (r_dequeuePos (cs_ring s))) as Hl
    by (by rewrite Hclaims, length_fmap, length_seq).
  rewrite Hl. split_and!; [done|done| |lia|lia].
  intros p x Hp. destruct (Htakes p x Hp). split; [lia|done].
Qed.

(** Two producers race for a slot, one consumer runs between their claim and
    their publication, then pops both items. *)
Definition ex_schedule : list (nat * action nat) :=
  [(1, StartPush 10); (2, StartPush 20); (1, Run false); (2, Run false); (1, Run false);
   (2, Run false); (3, StartPop); (3, Run false); (3, Run false); (1, Run false); (1, Run false);
   (2, Run false); (2, Run true); (2, Run false); (2, Run false);
   (3, StartPop); (3, Run false); (3, Run false); (2, Run false); (2, Run false);
   (3, Run false); (3, Run false); (3, StartPop); (3, Run false); (3, Run false);
   (3, Run false); (3, Run false)]%nat.

Definition ex_run : CState nat * list (event nat) :=
  default (init 2, []) (run_schedule ex_schedule (init 2)).

Lemma run_schedule_reach {T} (m : Z) sched (s s' : CState T) tr evs :
  creach m s tr → run_schedule sched s = Some (s', evs) → creach m s' (tr ++ evs).
Proof.
  revert s tr evs. induction sched as [|[t a] sched IH]; intros s tr evs Hs Hrun.
  - cbn in Hrun. simplify_eq. by rewrite app_nil_r.
  - cbn [run_schedule] in Hrun. apply bind_Some in Hrun as ([s1 ev1] & Hstep & Hrun).
    apply bind_Some in Hrun as ([s2 ev2] & Hrun & Heq). injection Heq as <- <-.
    rewrite app_assoc. eapply IH; [|done]. by eapply creach_step.
Qed.

Lemma run_from_init {T} (m : Z) sched (r : CState T * list (event T)) :
  run_schedule sched (init m) = Some r → creach m (fst r) (snd r).
Proof.
  destruct r as [s evs]. intros Hrun.
  exact (run_schedule_reach m sched (init m) s [] evs (creach_init m) Hrun).
Qed.

Lemma ex_run_eq : run_schedule ex_schedule (init 2) = Some ex_run.
Proof. vm_compute. reflexivity. Qed.

Lemma ex_run_reach : creach 2 (fst ex_run) (snd ex_run).
Proof. exact (run_from_init 2 ex_schedule ex_run ex_run_eq). Qed.

Lemma ex_run_events :
  pushes (snd ex_run) = [10; 20]%nat ∧ takes (snd ex_run) = [(0, 10%nat); (1, 20%nat)].
Proof. split; vm_compute; reflexivity. Qed.

Lemma ex_run_short : Z.of_nat (length (pushes (snd ex_run))) < 2 ^ 62.
Proof. destruct ex_run_events as [-> _]. simpl. lia. Qed.

Lemma mpmc_exactly_once_fifo_witness :
  takes (snd ex_run) = [(0, 10%nat); (1, 20%nat)] ∧
  pop_claims (snd ex_run) = Z.of_nat <$> seq 0 (length (pop_claims (snd ex_run))).
Proof.
  split; [apply ex_run_events|].
  exact (proj1 (mpmc_exactly_once_fifo 2 (fst ex_run) (snd ex_run) ltac:(lia) ex_run_reach ex_run_short)).
Defined.

(** When no call is in progress, exactly the first claimed items have been
    taken (each once, under its own ticket: nothing lost, nothing duplicated)
    and the ring is the sequential bounded FIFO holding the remaining items. *)
Theorem mpmc_quiescent_fifo {T : Type} (min_capacity : Z) (s : CState T) (tr : list (event T)) :
  min_capacity ≤ 2 ^ 61 → creach min_capacity s tr → Z.of_nat (length (pushes tr)) < 2 ^ 62 →
  quiescent s →
  takes tr ≡ₚ zip (pop_claims tr) (take (length (pop_claims tr)) (pushes tr)) ∧
  q_repr 0 (cs_ring s) (drop (length (pop_claims tr)) (pushes tr)).
Proof.
  intros Hmin Hreach Hlen Hq. destruct (creach_sinv _ _ _ Hmin Hreach Hlen) as (_ & ph & I).
  pose proof (creach_tinv _ _ _ Hmin Hreach Hlen) as Ht.
  assert (length (pop_claims tr) = Z.to_nat (r_dequeuePos (cs_ring s))) as Hl
    by (by rewrite (ti_claims _ _ Ht), length_fmap, length_seq).
  pose proof (si_deq _ _ _ I). pose proof (si_enq _ _ _ I). split.
  - apply (takes_perm s); [done|done|lia].
  - rewrite Hl. by apply (quiescent_repr ph).
Qed.

Definition all_idle {T} (s : CState T) : bool :=
  bool_decide (map_Forall (λ _ c, is_idle c = true) (cs_pcs s)).

Lemma all_idle_quiescent {T} (s : CState T) : all_idle s = true → quiescent s.
Proof.
  intros Hall%bool_decide_eq_true t. unfold pc_of.
  destruct (cs_pcs s !! t) as [c|] eqn:Hc; [|done]. specialize (Hall t c Hc). by destruct c.
Qed.

Lemma ex_run_quiescent : quiescent (fst ex_run).
Proof. apply all_idle_quiescent. vm_compute. reflexivity. Qed.

Lemma mpmc_quiescent_fifo_witness :
  q_repr 0 (cs_ring (fst ex_run)) (drop (length (pop_claims (snd ex_run))) (pushes (snd ex_run))).
Proof.
  exact (proj2 (mpmc_quiescent_fifo 2 (fst ex_run) (snd ex_run) ltac:(lia) ex_run_reach ex_run_short
                  ex_run_quiescent)).
Defined.

(** No call can be blocked by other threads, wherever they are suspended: in
    every reachable state a thread that runs alone finishes its tryPush or
    tryPop within six shared accesses. *)
Theorem mpmc_obstruction_free {T : Type} (min_capacity : Z) (s : CState T) (tr : list (event T)) (t : nat) :
  min_capacity ≤ 2 ^ 61 → creach min_capacity s tr → Z.of_nat (length (pushes tr)) < 2 ^ 62 →
  ∃ s', solo 6 t s = Some s' ∧ pc_of s' t = Idle.
Proof.
  intros Hmin Hreach Hlen. destruct (creach_sinv _ _ _ Hmin Hreach Hlen) as (_ & ph & I).
  exact (solo_finishes I t).
Qed.

Lemma mpmc_obstruction_free_witness :
  ∃ s', solo 6 2 (fst ex_run) = Some s' ∧ pc_of s' 2 = Idle.
Proof.
  exact (mpmc_obstruction_free 2 (fst ex_run) (snd ex_run) 2 ltac:(lia) ex_run_reach ex_run_short).
Defined.

(** Refusals are justified at the moment the tag is read.  A tryPush whose
    read leads it to report "full" looked at the current enqueue position, and
    the item one lap behind is still in the ring or with a consumer that has not
    released its slot; a tryPop whose read leads it to report "empty" found the
    ring empty or the front item claimed but not yet published by its producer. *)
Theorem mpmc_refusals_justified {T : Type} (min_capacity : Z) (s : CState T) (tr : list (event T))
    (t : nat) (pos : Z) :
  min_capacity ≤ 2 ^ 61 → creach min_capacity s tr → Z.of_nat (length (pushes tr)) < 2 ^ 62 →
  let q := cs_ring s in
  (∀ x, pc_of s t = PushLoaded pos x → c_sequence (cell_at q pos) < pos →
     pos = r_enqueuePos q ∧
     (r_enqueuePos q - r_dequeuePos q = r_capacity q ∨
      ∃ t', pc_of s t' = PopClaimed (pos - r_capacity q) ∨
            ∃ y, pc_of s t' = PopTaken (pos - r_capacity q) y)) ∧
  (pc_of s t = PopLoaded pos → c_sequence (cell_at q pos) < pos + 1 →
     pos = r_dequeuePos q ∧
     (r_enqueuePos q = r_dequeuePos q ∨
      ∃ t' y, pc_of s t' = PushClaimed pos y ∨ pc_of s t' = PushWritten pos y)).
Proof.
  intros Hmin Hreach Hlen q. destruct (creach_sinv _ _ _ Hmin Hreach Hlen) as (_ & ph & I).
  pose proof (si_threads _ _ _ I t) as Hth. pose proof (si_deq _ _ _ I) as Hd. pose proof (si_cap I) as Hc.
  destruct (si_slot I pos) as (Ht0 & _ & Hok). pose proof (si_ticket I pos) as Hm.
  pose proof (si_owners _ _ _ I _ (si_slot_lt I pos)) as Hown. fold q in Hth, Hd, Hc, Hok, Hm, Hown, Ht0.
  change (cell_i q (slot q pos)) with (cell_at q pos) in Hok.
  split.
  - intros x Hpc Hlt. rewrite Hpc in Hth. simpl in Hth.
    assert (∀ p, p `mod` r_capacity q = pos `mod` r_capacity q → p < pos → p ≤ pos - r_capacity q) as Hlap.
    { intros p Hp Hp1. destruct (decide (p ≤ pos - r_capacity q)); [done|].
      assert (p = pos); [|lia]. apply (si_same I); [done|fold q; lia]. }
    destruct (ph (slot q pos)) as [p|p t'|p|p t'] eqn:Hf; simpl in *.
    + lia.
    + pose proof (Hlap p Hm ltac:(lia)). split; [lia|]. left. lia.
    + pose proof (Hlap p Hm ltac:(lia)). split; [lia|]. left. lia.
    + pose proof (Hlap p Hm ltac:(lia)). assert (p = pos - r_capacity q) as -> by lia.
      split; [lia|]. right. by exists t'.
  - intros Hpc Hlt. rewrite Hpc in Hth. simpl in Hth.
    destruct (ph (slot q pos)) as [p|p t'|p|p t'] eqn:Hf; simpl in *.
    + split; [lia|]. left. lia.
    + assert (p = pos) as -> by lia. split; [lia|]. right. exists t'. naive_solver.
    + lia.
    + assert (p ≤ pos - r_capacity q); [|split; [lia|left; lia]].
      destruct (decide (p ≤ pos - r_capacity q)); [done|].
      assert (p = pos); [|lia]. apply (si_same I); [done|fold q; lia].
Qed.

(** The consumer looks at the ring while the first producer has claimed but not
    published. *)
Definition ex_unpublished : CState nat * list (event nat) :=
  default (init 2, []) (run_schedule (take 7 ex_schedule) (init 2)).

Lemma ex_unpublished_eq : run_schedule (take 7 ex_schedule) (init 2) = Some ex_unpublished.
Proof. vm_compute. reflexivity. Qed.

Lemma ex_unpublished_reach : creach 2 (fst ex_unpublished) (snd ex_unpublished).
Proof. exact (run_from_init 2 (take 7 ex_schedule) ex_unpublished ex_unpublished_eq). Qed.

Lemma ex_unpublished_facts :
  Z.of_nat (length (pushes (snd ex_unpublished))) < 2 ^ 62 ∧
  pc_of (fst ex_unpublished) 3 = PopLoaded 0 ∧
  c_sequence (cell_at (cs_ring (fst ex_unpublished)) 0) < 0 + 1.
Proof. split_and!; vm_compute; reflexivity. Qed.

Lemma mpmc_refusals_justified_witness :
  r_enqueuePos (cs_ring (fst ex_unpublished)) = r_dequeuePos (cs_ring (fst ex_unpublished)) ∨
  ∃ t' y, pc_of (fst ex_unpublished) t' = PushClaimed 0 y ∨ pc_of (fst ex_unpublished) t' = PushWritten 0 y.
Proof.
  destruct ex_unpublished_facts as (Hlen & Hpc & Hseq).
  exact (proj2 (proj2 (mpmc_refusals_justified 2 (fst ex_unpublished) (snd ex_unpublished) 3 0
                         ltac:(lia) ex_unpublished_reach Hlen) Hpc Hseq)).
Defined.
