(* ===== verification/NodeQueue.v ===== *)
(** * Node queues: drop policies over the ring

    [LockFreeNodeQueue] of [src/lock_free_queue.hpp]: the three overflow
    policies with their eviction and retry loops, the statistics counters, the
    drop callback and the queries.  The queue underneath is any implementation
    of [FifoImpl]; the theorems use only [FifoLaws].  [nq_events] is the sequence
    of events handed to the drop callback; clock readings ([drop_time],
    [created_time]) and the two floating-point rates are not represented.

    The abstract contract is [spec_push]: what a push makes of the queued list,
    which items it drops, what it answers. *)

From S2P Require Import Prelude MpmcQueue Packets.
Local Open Scope string_scope.
Local Open Scope list_scope.
Local Open Scope Z_scope.

(** src/src/lock_free_queue.hpp:54-63 LockFreeDropPolicy *)
Inductive LockFreeDropPolicy := DropTail | DropHead | KeepLatest.

#[export] Instance LockFreeDropPolicy_eq_dec : EqDecision LockFreeDropPolicy.
Proof. solve_decision. Defined.

(** src/src/lock_free_queue.hpp:22-40 DropEvent *)
Record DropEvent := mkDropEvent {
  de_frame_id : FrameId;
  de_stream_id : StreamId;
  de_node_name : string;
  de_port_name : string;
  de_reason : string;
  de_queue_size_before : Z;
  de_queue_size_after : Z;
  de_total_drops : Z;
}.

(** src/src/lock_free_queue.hpp:35-39 DropEvent::toString *)
Definition dropEvent_toString (e : DropEvent) : string :=
  "DropEvent{frame=" +:+ pretty (de_frame_id e) +:+ ", stream=" +:+ pretty (de_stream_id e)
  +:+ ", node=" +:+ de_node_name e +:+ ", port=" +:+ de_port_name e
  +:+ ", reason=" +:+ de_reason e +:+ "}".

(** src/src/lock_free_queue.hpp:67-74 LockFreeQueueStatistics *)
Record QStats := mkQStats {
  total_pushed : Z;
  total_popped : Z;
  total_dropped : Z;
  total_rejected : Z;
  peak_size : Z;
}.

(** src/src/lock_free_queue.hpp:76-83 LockFreeQueueStatistics::reset *)
Definition qstats_reset : QStats := mkQStats 0 0 0 0 0.

(** src/src/lock_free_queue.hpp:434-444 LockFreeNodeQueue::Config *)
Record QConfig := mkQConfig {
  qc_capacity : Z;
  qc_drop_policy : LockFreeDropPolicy;
  qc_keep_latest_n : Z;
  qc_track_statistics : bool;
  qc_node_name : string;
  qc_port_name : string;
}.

(** src/src/lock_free_queue.hpp:434-444 LockFreeNodeQueue::Config (defaults) *)
Definition default_qconfig (capacity : Z) : QConfig := mkQConfig capacity DropHead 1 true "" "".

(** src/src/lock_free_queue.hpp:819-828 LockFreeNodeQueue (data members) *)
Record NodeQueue (Q T : Type) := mkNQ {
  nq_config : QConfig;
  nq_queue : Q;
  nq_stats : QStats;
  nq_callback : bool;
  nq_accessor : option (T → option FrameId);
  nq_events : list DropEvent;
}.
Arguments mkNQ {Q T} _ _ _ _ _ _.
Arguments nq_config {Q T} _.
Arguments nq_queue {Q T} _.
Arguments nq_stats {Q T} _.
Arguments nq_callback {Q T} _.
Arguments nq_accessor {Q T} _.
Arguments nq_events {Q T} _.

(** src/src/lock_free_queue.hpp:448-452 LockFreeNodeQueue::LockFreeNodeQueue *)
Definition newNodeQueue {T} (config : QConfig) : NodeQueue (Ring T) T :=
  mkNQ config (newRing (qc_capacity config)) qstats_reset false None [].

Section Ops.
Context {Q T : Type} `{!FifoImpl Q T}.
Implicit Types (s : NodeQueue Q T) (item : T).

Definition set_queue s (q : Q) : NodeQueue Q T :=
  mkNQ (nq_config s) q (nq_stats s) (nq_callback s) (nq_accessor s) (nq_events s).

Definition set_stats s (st : QStats) : NodeQueue Q T :=
  mkNQ (nq_config s) (nq_queue s) st (nq_callback s) (nq_accessor s) (nq_events s).

(** A counter's [fetch_add], guarded by [track_statistics] as every one is. *)
Definition tracked s (f : QStats → QStats) : NodeQueue Q T :=
  if qc_track_statistics (nq_config s) then set_stats s (f (nq_stats s)) else s.

Definition inc_pushed (st : QStats) : QStats :=
  mkQStats (wrap64 (total_pushed st + 1)) (total_popped st) (total_dropped st) (total_rejected st) (peak_size st).

Definition inc_popped (st : QStats) : QStats :=
  mkQStats (total_pushed st) (wrap64 (total_popped st + 1)) (total_dropped st) (total_rejected st) (peak_size st).

Definition inc_dropped (st : QStats) : QStats :=
  mkQStats (total_pushed st) (total_popped st) (wrap64 (total_dropped st + 1)) (total_rejected st) (peak_size st).

Definition inc_rejected (st : QStats) : QStats :=
  mkQStats (total_pushed st) (total_popped st) (total_dropped st) (wrap64 (total_rejected st + 1)) (peak_size st).

(** src/src/lock_free_queue.hpp:464-466 LockFreeNodeQueue::setDropPolicy *)
Definition setDropPolicy s (policy : LockFreeDropPolicy) : NodeQueue Q T :=
  let c := nq_config s in
  mkNQ (mkQConfig (qc_capacity c) policy (qc_keep_latest_n c) (qc_track_statistics c)
          (qc_node_name c) (qc_port_name c))
    (nq_queue s) (nq_stats s) (nq_callback s) (nq_accessor s) (nq_events s).

(** src/src/lock_free_queue.hpp:472-482 LockFreeNodeQueue::strategyName *)
Definition strategyName s : string :=
  match qc_drop_policy (nq_config s) with
  | DropTail => "DropTail"
  | DropHead => "DropHead"
  | KeepLatest => "KeepLatest" +:+ pretty (qc_keep_latest_n (nq_config s))
  end.

(** src/src/lock_free_queue.hpp:486-488 LockFreeNodeQueue::setDropCallback *)
Definition setDropCallback s (installed : bool) : NodeQueue Q T :=
  mkNQ (nq_config s) (nq_queue s) (nq_stats s) installed (nq_accessor s) (nq_events s).

(** src/src/lock_free_queue.hpp:490-503 LockFreeNodeQueue::setFrameIdAccessor *)
Definition setFrameIdAccessor s (accessor : T → option FrameId) : NodeQueue Q T :=
  mkNQ (nq_config s) (nq_queue s) (nq_stats s) (nq_callback s) (Some accessor) (nq_events s).

(** src/src/lock_free_queue.hpp:777-789 LockFreeNodeQueue::updatePeakSize *)
Definition updatePeakSize s : NodeQueue Q T :=
  tracked s (λ st,
    if decide (peak_size st < q_size (nq_queue s))
    then mkQStats (total_pushed st) (total_popped st) (total_dropped st) (total_rejected st)
           (q_size (nq_queue s))
    else st).

(** src/src/lock_free_queue.hpp:791-815 LockFreeNodeQueue::notifyDrop *)
Definition notifyDrop s (dropped_item : T) (reason : string) (size_before : Z) : NodeQueue Q T :=
  if nq_callback s then
    let frame_id := match nq_accessor s with
                    | Some accessor => default k_invalid_frame_id (accessor dropped_item)
                    | None => k_invalid_frame_id
                    end in
    mkNQ (nq_config s) (nq_queue s) (nq_stats s) (nq_callback s) (nq_accessor s)
      (nq_events s ++
        [mkDropEvent frame_id k_default_stream_id (qc_node_name (nq_config s))
           (qc_port_name (nq_config s)) reason size_before (q_size (nq_queue s))
           (total_dropped (nq_stats s))])
  else s.

(** src/src/lock_free_queue.hpp:772-775 LockFreeNodeQueue::evictOne *)
Definition evictOne s : option (NodeQueue Q T * option T) :=
  '(q, r) ← q_tryPop (nq_queue s); Some (set_queue s q, r).

(** src/src/lock_free_queue.hpp:631-638 LockFreeNodeQueue::pushDropHead (evict, count, report;
    the same block as 654-661, 703-709, 724-731, 746-753) *)
Definition evict_report s (reason : string) (size_before : Z) : option (NodeQueue Q T * bool) :=
  '(s1, evicted) ← evictOne s;
  Some (match evicted with
        | Some x => (notifyDrop (tracked s1 inc_dropped) x reason size_before, true)
        | None => (s1, false)
        end).

(** src/src/lock_free_queue.hpp:619-623 LockFreeNodeQueue::pushDropHead (bookkeeping of an
    accepted item; the same block follows every successful [tryPush]) *)
Definition accepted s (q : Q) : NodeQueue Q T := tracked (updatePeakSize (set_queue s q)) inc_pushed.

(** src/src/lock_free_queue.hpp:598-612 LockFreeNodeQueue::pushDropTail *)
Definition pushDropTail s item : option (NodeQueue Q T * bool) :=
  '(q, ok) ← q_tryPush (nq_queue s) item;
  Some (if (ok : bool) then (accepted s q, true) else (tracked (set_queue s q) inc_rejected, false)).

(** src/src/lock_free_queue.hpp:653-668 LockFreeNodeQueue::pushDropHead (final fallback loop;
    the same loop as 745-760 of [pushKeepLatest]) *)
Fixpoint fallback_push (fuel : nat) (reason : string) s item : option (NodeQueue Q T * bool) :=
  match fuel with
  | O => None
  | S fuel' =>
      '(q, ok) ← q_tryPush (nq_queue s) item;
      if (ok : bool) then Some (accepted s q, true)
      else
        '(s1, _) ← evict_report (set_queue s q) reason (q_size q);
        fallback_push fuel' reason s1 item
  end.

(** src/src/lock_free_queue.hpp:630-650 LockFreeNodeQueue::pushDropHead (eviction rounds) *)
Fixpoint dropHead_rounds (rounds : nat) s item : option (NodeQueue Q T * bool) :=
  match rounds with
  | O => Some (s, false)
  | S rounds' =>
      '(s1, _) ← evict_report s "DropHead overflow" (q_size (nq_queue s));
      '(q, ok) ← spin_push 128 (nq_queue s1) item;
      if (ok : bool) then Some (accepted s1 q, true)
      else dropHead_rounds rounds' (set_queue s1 q) item
  end.

(** src/src/lock_free_queue.hpp:616-669 LockFreeNodeQueue::pushDropHead *)
Definition pushDropHead (fuel : nat) s item : option (NodeQueue Q T * bool) :=
  '(q, ok) ← q_tryPush (nq_queue s) item;
  if (ok : bool) then Some (accepted s q, true)
  else
    '(s1, ok1) ← dropHead_rounds 4 (set_queue s q) item;
    if (ok1 : bool) then Some (s1, true)
    else fallback_push fuel "DropHead overflow (fallback)" s1 item.

(** src/src/lock_free_queue.hpp:701-713 LockFreeNodeQueue::pushKeepLatest (window loop) *)
Fixpoint keepLatest_evict (fuel : nat) (target_keep : Z) s : option (NodeQueue Q T) :=
  match fuel with
  | O => None
  | S fuel' =>
      if decide (target_keep ≤ q_size (nq_queue s)) then
        '(s1, evicted) ← evict_report s "KeepLatest overflow" (q_size (nq_queue s));
        if (evicted : bool) then keepLatest_evict fuel' target_keep s1 else Some s1
      else Some s
  end.

(** src/src/lock_free_queue.hpp:698-761 LockFreeNodeQueue::pushKeepLatest *)
Definition pushKeepLatest (fuel : nat) s item : option (NodeQueue Q T * bool) :=
  let n := qc_keep_latest_n (nq_config s) in
  let target_keep := if decide (0 < n) then n else 1 in
  s1 ← keepLatest_evict fuel target_keep s;
  '(q, ok) ← q_tryPush (nq_queue s1) item;
  if (ok : bool) then Some (accepted s1 q, true)
  else
    '(s2, _) ← evict_report (set_queue s1 q) "KeepLatest force overflow" (q_size q);
    '(q2, ok2) ← spin_push 128 (nq_queue s2) item;
    if (ok2 : bool) then Some (accepted s2 q2, true)
    else fallback_push fuel "KeepLatest overflow (fallback)" (set_queue s2 q2) item.

(** src/src/lock_free_queue.hpp:516-529 LockFreeNodeQueue::push *)
Definition push (fuel : nat) s item : option (NodeQueue Q T * bool) :=
  match qc_drop_policy (nq_config s) with
  | DropTail => pushDropTail s item
  | DropHead => pushDropHead fuel s item
  | KeepLatest => pushKeepLatest fuel s item
  end.

(** src/src/lock_free_queue.hpp:541-548 LockFreeNodeQueue::tryPeek *)
Definition nq_tryPeek s : option T := q_tryPeek (nq_queue s).

(** src/src/lock_free_queue.hpp:552-561 LockFreeNodeQueue::tryPop *)
Definition nq_tryPop s : option (NodeQueue Q T * option T) :=
  '(q, r) ← q_tryPop (nq_queue s);
  Some (match r with
        | Some x => (tracked (set_queue s q) inc_popped, Some x)
        | None => (set_queue s q, None)
        end).

(** src/src/lock_free_queue.hpp:567-567 LockFreeNodeQueue::size *)
Definition nq_size s : Z := q_size (nq_queue s).

(** src/src/lock_free_queue.hpp:565-565 LockFreeNodeQueue::empty *)
Definition nq_empty s : bool := bool_decide (q_size (nq_queue s) = 0).

(** src/src/lock_free_queue.hpp:575-580 LockFreeNodeQueue::clear *)
Fixpoint clear_loop (fuel : nat) (q : Q) : option Q :=
  match fuel with
  | O => None
  | S fuel' =>
      '(q', r) ← q_tryPop q;
      match (r : option T) with Some _ => clear_loop fuel' q' | None => Some q' end
  end.

Definition nq_clear (fuel : nat) s : option (NodeQueue Q T) :=
  q ← clear_loop fuel (nq_queue s); Some (set_queue s q).

(** src/src/lock_free_queue.hpp:588-588 LockFreeNodeQueue::resetStatistics *)
Definition resetStatistics s : NodeQueue Q T := set_stats s qstats_reset.
End Ops.

(** ** The contract *)

(** Window a push leaves room in: the ring's capacity, or the configured number
    of newest items if that is smaller. *)
Definition window (policy : LockFreeDropPolicy) (n cap : Z) : Z :=
  match policy with
  | KeepLatest => Z.min (Z.max n 1) cap
  | _ => cap
  end.

(** How many of the [len] queued items a push evicts. *)
Definition evictions (policy : LockFreeDropPolicy) (n cap : Z) (len : nat) : nat :=
  match policy with
  | DropTail => 0
  | _ => (len + 1 - Z.to_nat (window policy n cap))%nat
  end.

(** What a push does to the list of queued items: what is queued afterwards,
    which items are dropped, whether the new one is accepted. *)
Definition spec_push {T} (policy : LockFreeDropPolicy) (n cap : Z) (l : list T) (x : T)
    : list T * list T * bool :=
  if decide (policy = DropTail ∧ Z.of_nat (length l) = cap) then (l, [], false)
  else let k := evictions policy n cap (length l) in (drop k l ++ [x], take k l, true).

(** ** Lemmas *)

Section Facts.
Context {Q T : Type} `{!FifoImpl Q T, !FifoLaws Q T}.
Implicit Types (s : NodeQueue Q T) (l : list T).

(** [s] holds the items [l]. *)
Definition holds (b : nat) s l : Prop := q_repr b (nq_queue s) l.

(** Everything but queue, statistics and callback history is kept. *)
Definition same_setup s s' : Prop :=
  nq_config s' = nq_config s ∧ nq_callback s' = nq_callback s ∧ nq_accessor s' = nq_accessor s ∧
  q_capacity (nq_queue s') = q_capacity (nq_queue s).

#[global] Instance same_setup_refl : Reflexive same_setup.
Proof. by intros s. Qed.

#[global] Instance same_setup_trans : Transitive same_setup.
Proof. intros s1 s2 s3. unfold same_setup. intros. destruct_and!. split_and!; congruence. Qed.

Definition event_frames s (xs : list T) : list FrameId :=
  (λ x, match nq_accessor s with
        | Some accessor => default k_invalid_frame_id (accessor x)
        | None => k_invalid_frame_id
        end) <$> xs.

(** [s'] is [s] after dropping [xs] and accepting [acc] and rejecting [rej] items,
    as the counters and the callback saw it. *)
Definition accounted s s' (xs : list T) (acc rej : Z) : Prop :=
  same_setup s s' ∧
  (if nq_callback s then de_frame_id <$> nq_events s' = (de_frame_id <$> nq_events s) ++ event_frames s xs
   else nq_events s' = nq_events s) ∧
  (if qc_track_statistics (nq_config s) then
     wrap64 (total_pushed (nq_stats s')) = wrap64 (total_pushed (nq_stats s) + acc) ∧
     wrap64 (total_dropped (nq_stats s')) = wrap64 (total_dropped (nq_stats s) + Z.of_nat (length xs)) ∧
     wrap64 (total_rejected (nq_stats s')) = wrap64 (total_rejected (nq_stats s) + rej) ∧
     total_popped (nq_stats s') = total_popped (nq_stats s) ∧
     peak_size (nq_stats s') = (if decide (0 < acc) then Z.max (peak_size (nq_stats s)) (nq_size s')
                                else peak_size (nq_stats s))
   else nq_stats s' = nq_stats s).

Lemma accounted_refl s : accounted s s [] 0 0.
Proof.
  unfold accounted, event_frames. split; [done|].
  split; [destruct (nq_callback s); by rewrite ?app_nil_r|]. destruct (qc_track_statistics _); [|done].
  simpl. by rewrite !Z.add_0_r.
Qed.

Lemma accounted_trans s s1 s2 xs ys acc rej :
  accounted s s1 xs 0 0 → accounted s1 s2 ys acc rej → accounted s s2 (xs ++ ys) acc rej.
Proof.
  intros (H1 & E1 & C1) (H2 & E2 & C2). destruct H1 as (Hc & Hb & Ha & Hq).
  split; [by etrans; [|done]|]. rewrite Hc in C2. rewrite Hb in E2. split.
  - destruct (nq_callback s); [|congruence]. rewrite E2, E1. unfold event_frames.
    by rewrite Ha, fmap_app, app_assoc.
  - destruct (qc_track_statistics _); [|congruence].
    destruct C1 as (P1 & D1 & R1 & O1 & K1), C2 as (P2 & D2 & R2 & O2 & K2).
    rewrite Z.add_0_r in P1, R1. rewrite decide_False in K1 by lia.
    rewrite P2, D2, R2, O2, K2, O1, K1, length_app, Nat2Z.inj_add, Z.add_assoc.
    split_and!; [by apply wrap64_congr..|done|done].
Qed.

Lemma accepted_accounted b s q l :
  q_repr b q l → q_capacity q = q_capacity (nq_queue s) →
  holds b (accepted s q) l ∧ accounted s (accepted s q) [] 1 0.
Proof.
  intros Hq Hcap. unfold accepted, updatePeakSize, tracked, holds, accounted, same_setup, nq_size, event_frames. simpl.
  destruct (qc_track_statistics (nq_config s)) eqn:Htr; simpl; rewrite ?Htr; simpl.
  - split; [done|]. split; [done|]. split; [destruct (nq_callback s); by rewrite ?app_nil_r|].
    destruct (decide (peak_size (nq_stats s) < q_size q)) as [Hlt|Hge]; simpl;
      rewrite !wrap64_idem, !Z.add_0_r; (split_and!; [done..|]); lia.
  - split; [done|]. split; [done|]. split; [destruct (nq_callback s); by rewrite ?app_nil_r|done].
Qed.

Lemma evict_report_cons b s x l reason sz :
  holds b s (x :: l) →
  ∃ s1, evict_report s reason sz = Some (s1, true) ∧ holds b s1 l ∧ accounted s s1 [x] 0 0.
Proof.
  intros Hs. destruct (q_pop_cons _ _ _ _ Hs) as (q' & Hpop & Hq' & Hcap).
  unfold evict_report, evictOne. rewrite Hpop; simpl. eexists; split; [done|].
  unfold holds, accounted, same_setup, notifyDrop, tracked, nq_size, event_frames; simpl.
  destruct (qc_track_statistics (nq_config s)) eqn:Htr; simpl;
    destruct (nq_callback s) eqn:Hcb; simpl; rewrite ?Htr, ?wrap64_idem, ?fmap_app, ?Z.add_0_r; simpl;
    split_and!; done.
Qed.

Lemma tail_of_full b s l : holds b s l → Z.of_nat (length l) = q_capacity (nq_queue s) →
  ∃ x l', l = x :: l'.
Proof.
  intros Hs Hlen. pose proof (q_cap_pos _ _ _ Hs). destruct l as [|x l]; [simpl in *; lia|by eauto].
Qed.

(** A push that finds room. *)
Lemma room_accepted b s l x :
  holds (S b) s l → Z.of_nat (length l) < q_capacity (nq_queue s) →
  ∃ q, q_tryPush (nq_queue s) x = Some (q, true) ∧ q_capacity q = q_capacity (nq_queue s) ∧
       holds b (accepted s q) (l ++ [x]) ∧ accounted s (accepted s q) [] 1 0.
Proof.
  intros Hs Hlen. destruct (q_push_room _ _ _ x Hs Hlen) as (q & Hq & Hrepr & Hcap).
  destruct (accepted_accounted _ s _ _ Hrepr Hcap). by exists q.
Qed.

Lemma set_queue_same s : set_queue s (nq_queue s) = s.
Proof. by destruct s. Qed.

(** Evict the oldest of a full queue, then push: the slow path of both policies. *)
Lemma evict_then_push b s x y l reason sz :
  holds (S b) s (y :: l) → Z.of_nat (length (y :: l)) = q_capacity (nq_queue s) →
  ∃ s1 q, evict_report s reason sz = Some (s1, true) ∧
    spin_push 128 (nq_queue s1) x = Some (q, true) ∧
    holds b (accepted s1 q) (l ++ [x]) ∧ accounted s (accepted s1 q) [y] 1 0.
Proof.
  intros Hs Hlen. destruct (evict_report_cons _ _ _ _ reason sz Hs) as (s1 & Hev & Hs1 & Hacc1).
  assert (q_capacity (nq_queue s1) = q_capacity (nq_queue s)) as Hcap by apply Hacc1.
  rewrite length_cons in Hlen.
  destruct (room_accepted _ s1 l x Hs1) as (q & Hq & _ & Hh & Hacc2); [lia|].
  exists s1, q. split_and!; [done| |done|].
  - cbn [spin_push]. by rewrite Hq.
  - by apply (accounted_trans s s1 _ [y] []).
Qed.

Lemma pushDropHead_spec b fuel s l x :
  holds (S b) s l →
  let k := (length l + 1 - Z.to_nat (q_capacity (nq_queue s)))%nat in
  ∃ s', pushDropHead fuel s x = Some (s', true) ∧ holds b s' (drop k l ++ [x]) ∧
        accounted s s' (take k l) 1 0.
Proof.
  intros Hs k. pose proof (q_len _ _ _ Hs) as Hlen. pose proof (q_cap_pos _ _ _ Hs) as Hcp.
  unfold pushDropHead.
  destruct (decide (Z.of_nat (length l) < q_capacity (nq_queue s))) as [Hlt|Hge].
  - destruct (room_accepted _ _ _ x Hs Hlt) as (q & -> & _ & Hh & Hacc). simpl.
    eexists; split; [done|]. replace k with 0%nat by (unfold k; cbn [length] in *; lia). by rewrite drop_0, take_0.
  - rewrite (q_push_full _ _ _ x Hs) by lia. cbn [mbind option_bind]. rewrite set_queue_same.
    destruct (tail_of_full _ _ _ Hs) as (y & l' & ->); [lia|].
    destruct (evict_then_push _ _ x _ _ "DropHead overflow" (q_size (nq_queue s)) Hs)
      as (s1 & q & Hev & Hspin & Hh & Hacc); [lia|].
    cbn [dropHead_rounds]. rewrite Hev. cbn [mbind option_bind]. rewrite Hspin. cbn [mbind option_bind].
    eexists; split; [done|]. by replace k with 1%nat by (unfold k; cbn [length] in *; lia).
Qed.

Lemma keepLatest_evict_spec b n s l fuel :
  holds b s l → 1 ≤ n → (length l < fuel)%nat →
  let k := (length l + 1 - Z.to_nat n)%nat in
  ∃ s1, keepLatest_evict fuel n s = Some s1 ∧ holds b s1 (drop k l) ∧ accounted s s1 (take k l) 0 0.
Proof.
  revert s fuel. induction l as [|y l IH]; intros s fuel Hs Hn Hfuel k; (destruct fuel as [|fuel]; [lia|]);
    cbn [keepLatest_evict]; pose proof (q_size_spec _ _ _ Hs) as Hsz; rewrite Hsz.
  - rewrite decide_False by (simpl; lia). eexists; split; [done|]. replace k with 0%nat by (unfold k; cbn [length] in *; lia).
    split; [done|apply accounted_refl].
  - rewrite length_cons in *. destruct (decide (n ≤ Z.of_nat (S (length l)))) as [Hle|Hgt].
    + destruct (evict_report_cons _ _ _ _ "KeepLatest overflow" (Z.of_nat (S (length l))) Hs)
        as (s1 & -> & Hs1 & Hacc1). cbn [mbind option_bind].
      destruct (IH s1 fuel Hs1 Hn ltac:(lia)) as (s2 & -> & Hs2 & Hacc2). eexists; split; [done|].
      replace k with (S (length l + 1 - Z.to_nat n)) by (unfold k; cbn [length] in *; lia). split; [done|].
      by apply (accounted_trans s s1 s2 [y]).
    + eexists; split; [done|]. replace k with 0%nat by (unfold k; cbn [length] in *; lia).
      split; [done|apply accounted_refl].
Qed.

Lemma pushKeepLatest_spec b fuel s l x :
  holds (S b) s l → (length l < fuel)%nat →
  let k := evictions KeepLatest (qc_keep_latest_n (nq_config s)) (q_capacity (nq_queue s)) (length l) in
  ∃ s', pushKeepLatest fuel s x = Some (s', true) ∧ holds b s' (drop k l ++ [x]) ∧
        accounted s s' (take k l) 1 0.
Proof.
  intros Hs Hfuel k. pose proof (q_len _ _ _ Hs) as Hlen. pose proof (q_cap_pos _ _ _ Hs) as Hcp.
  unfold pushKeepLatest. set (n := qc_keep_latest_n (nq_config s)) in *.
  set (N := if decide (0 < n) then n else 1). assert (N = Z.max n 1) as HN by (unfold N; case_decide; lia).
  destruct (keepLatest_evict_spec (S b) N s l fuel Hs ltac:(lia) Hfuel) as (s1 & -> & Hs1 & Hacc1).
  cbn [mbind option_bind]. set (k1 := (length l + 1 - Z.to_nat N)%nat) in *.
  assert (q_capacity (nq_queue s1) = q_capacity (nq_queue s)) as Hcap by apply Hacc1.
  assert (k = (length l + 1 - Z.to_nat (Z.min N (q_capacity (nq_queue s))))%nat) as Hk
    by (unfold k, evictions, window; by rewrite HN).
  destruct (decide (Z.of_nat (length (drop k1 l)) < q_capacity (nq_queue s))) as [Hlt|Hge].
  - assert (k = k1) as -> by (rewrite length_drop in Hlt; unfold k1 in *; lia).
    destruct (room_accepted _ s1 _ x Hs1) as (q & -> & _ & Hh & Hacc2); [lia|].
    cbn [mbind option_bind]. eexists; split; [done|]. split; [done|].
    rewrite <-(app_nil_r (take k1 l)). by eapply accounted_trans.
  - assert (k1 = 0%nat ∧ k = 1%nat ∧ Z.of_nat (length l) = q_capacity (nq_queue s)) as (Hk1 & -> & Hfull)
      by (rewrite length_drop in Hge; unfold k1 in *; lia).
    rewrite Hk1, drop_0 in Hs1. rewrite Hk1, take_0 in Hacc1.
    rewrite (q_push_full _ _ _ x Hs1) by lia. cbn [mbind option_bind]. rewrite set_queue_same.
    destruct (tail_of_full _ _ _ Hs Hfull) as (y & l' & ->).
    destruct (evict_then_push _ s1 x _ _ "KeepLatest force overflow" (q_size (nq_queue s1)) Hs1)
      as (s2 & q & -> & Hspin & Hh & Hacc); [lia|].
    cbn [mbind option_bind]. rewrite Hspin. cbn [mbind option_bind]. eexists; split; [done|].
    split; [done|]. by apply (accounted_trans s s1 _ [] [y]).
Qed.

Lemma pushDropTail_spec b s l x :
  holds (S b) s l →
  ∃ s', pushDropTail s x = Some (s', bool_decide (Z.of_nat (length l) ≠ q_capacity (nq_queue s))) ∧
    holds b s' (if decide (Z.of_nat (length l) = q_capacity (nq_queue s)) then l else l ++ [x]) ∧
    if decide (Z.of_nat (length l) = q_capacity (nq_queue s))
    then accounted s s' [] 0 1 else accounted s s' [] 1 0.
Proof.
  intros Hs. pose proof (q_len _ _ _ Hs) as Hlen. unfold pushDropTail.
  destruct (decide (Z.of_nat (length l) = q_capacity (nq_queue s))) as [Heq|Hne].
  - rewrite (q_push_full _ _ _ x Hs) by lia. cbn [mbind option_bind]. rewrite set_queue_same.
    eexists. rewrite bool_decide_eq_false_2 by lia. split; [done|].
    split; [apply (q_repr_mono (S b)); [lia|]; unfold tracked; by destruct (qc_track_statistics _)|].
    unfold accounted, same_setup, tracked, event_frames; simpl.
    destruct (qc_track_statistics (nq_config s)) eqn:Htr; simpl; rewrite ?wrap64_idem, ?Z.add_0_r;
      split_and!; try done; destruct (nq_callback s); by rewrite ?app_nil_r.
  - destruct (room_accepted _ _ _ x Hs) as (q & -> & _ & Hh & Hacc); [lia|].
    eexists. rewrite bool_decide_eq_true_2 by lia. by split.
Qed.

(** Every push does what the contract says, and accounts for it. *)
Lemma push_spec b fuel s l x :
  holds (S b) s l → (length l < fuel)%nat →
  let '(l', dropped, ok) := spec_push (qc_drop_policy (nq_config s)) (qc_keep_latest_n (nq_config s))
                              (q_capacity (nq_queue s)) l x in
  ∃ s', push fuel s x = Some (s', ok) ∧ holds b s' l' ∧
        accounted s s' dropped (if ok then 1 else 0) (if ok then 0 else 1).
Proof.
  intros Hs Hfuel. unfold push, spec_push.
  destruct (qc_drop_policy (nq_config s)).
  - destruct (pushDropTail_spec _ _ _ x Hs) as (s' & Hp & Hh & Hacc).
    destruct (decide (Z.of_nat (length l) = q_capacity (nq_queue s))) as [Heq|Hne].
    + rewrite decide_True by done. rewrite bool_decide_eq_false_2 in Hp by lia. by exists s'.
    + rewrite decide_False by naive_solver. rewrite bool_decide_eq_true_2 in Hp by lia. by exists s'.
  - rewrite decide_False by naive_solver. by apply pushDropHead_spec.
  - rewrite decide_False by naive_solver. by apply pushKeepLatest_spec.
Qed.

Lemma tryPop_cons b s x l : holds b s (x :: l) →
  ∃ s', nq_tryPop s = Some (s', Some x) ∧ holds b s' l ∧ same_setup s s' ∧ nq_events s' = nq_events s ∧
    nq_stats s' = if qc_track_statistics (nq_config s) then inc_popped (nq_stats s) else nq_stats s.
Proof.
  intros Hs. destruct (q_pop_cons _ _ _ _ Hs) as (q & Hq & Hr & Hcap).
  unfold nq_tryPop. rewrite Hq. eexists; split; [done|]. unfold holds, same_setup, tracked; simpl.
  by destruct (qc_track_statistics _).
Qed.

Lemma tryPop_nil b s : holds b s [] → nq_tryPop s = Some (s, None).
Proof. intros Hs. unfold nq_tryPop. rewrite (q_pop_empty _ _ Hs). simpl. by rewrite set_queue_same. Qed.

Lemma clear_loop_spec b q l fuel : q_repr b q l → (length l < fuel)%nat →
  ∃ q', clear_loop (T := T) fuel q = Some q' ∧ q_repr b q' [] ∧ q_capacity q' = q_capacity q.
Proof.
  revert q fuel. induction l as [|x l IH]; intros q fuel Hq Hf; (destruct fuel as [|fuel]; [lia|]);
    cbn [clear_loop].
  - rewrite (q_pop_empty _ _ Hq). by eexists.
  - destruct (q_pop_cons _ _ _ _ Hq) as (q' & -> & Hq' & Hcap). cbn [mbind option_bind].
    destruct (IH q' fuel Hq') as (q'' & -> & ? & ?); [simpl in Hf; lia|].
    eexists; split; [done|]. split; [done|congruence].
Qed.
End Facts.

(** ** Sequences of operations *)

Inductive nq_op (T : Type) :=
  | NPush (x : T) | NPop | NPeek | NSize | NClear | NSetPolicy (p : LockFreeDropPolicy).
Arguments NPush {T} _.
Arguments NPop {T}.
Arguments NPeek {T}.
Arguments NSize {T}.
Arguments NClear {T}.
Arguments NSetPolicy {T} _.

Inductive nq_answer (T : Type) :=
  | NAok (ok : bool) | NAitem (x : option T) | NAsize (n : Z) | NAunit.
Arguments NAok {T} _.
Arguments NAitem {T} _.
Arguments NAsize {T} _.
Arguments NAunit {T}.

(** The loops of one operation need at most one round per queued item. *)
Definition nq_run_op {Q T} `{!FifoImpl Q T} (s : NodeQueue Q T) (op : nq_op T)
    : option (NodeQueue Q T * nq_answer T) :=
  let fuel := S (Z.to_nat (q_capacity (nq_queue s))) in
  match op with
  | NPush x => '(s', ok) ← push fuel s x; Some (s', NAok ok)
  | NPop => '(s', r) ← nq_tryPop s; Some (s', NAitem r)
  | NPeek => Some (s, NAitem (nq_tryPeek s))
  | NSize => Some (s, NAsize (nq_size s))
  | NClear => s' ← nq_clear fuel s; Some (s', NAunit)
  | NSetPolicy p => Some (setDropPolicy s p, NAunit)
  end.

Fixpoint nq_run {Q T} `{!FifoImpl Q T} (s : NodeQueue Q T) (ops : list (nq_op T))
    : option (NodeQueue Q T * list (nq_answer T)) :=
  match ops with
  | [] => Some (s, [])
  | op :: ops' =>
      '(s1, a) ← nq_run_op s op; '(s2, answers) ← nq_run s1 ops'; Some (s2, a :: answers)
  end.

(** The abstract queue: a list with a policy, and the items by fate. *)
Record AbsQueue (T : Type) := mkAbs {
  aq_policy : LockFreeDropPolicy;
  aq_items : list T;
  aq_accepted : nat;
  aq_rejected : nat;
  aq_popped : nat;
  aq_cleared : nat;
  aq_dropped : list T;
}.
Arguments mkAbs {T} _ _ _ _ _ _ _.
Arguments aq_policy {T} _.
Arguments aq_items {T} _.
Arguments aq_accepted {T} _.
Arguments aq_rejected {T} _.
Arguments aq_popped {T} _.
Arguments aq_cleared {T} _.
Arguments aq_dropped {T} _.

Definition abs_new {T} (p : LockFreeDropPolicy) : AbsQueue T := mkAbs p [] 0 0 0 0 [].

Definition abs_op {T} (n cap : Z) (a : AbsQueue T) (op : nq_op T) : AbsQueue T * nq_answer T :=
  match op with
  | NPush x =>
      let '(l', dropped, ok) := spec_push (aq_policy a) n cap (aq_items a) x in
      (mkAbs (aq_policy a) l' (aq_accepted a + if ok then 1 else 0) (aq_rejected a + if ok then 0 else 1)
         (aq_popped a) (aq_cleared a) (aq_dropped a ++ dropped), NAok ok)
  | NPop =>
      (mkAbs (aq_policy a) (tail (aq_items a)) (aq_accepted a) (aq_rejected a)
         (aq_popped a + if decide (aq_items a = []) then 0 else 1) (aq_cleared a) (aq_dropped a),
       NAitem (head (aq_items a)))
  | NPeek => (a, NAitem (head (aq_items a)))
  | NSize => (a, NAsize (Z.of_nat (length (aq_items a))))
  | NClear =>
      (mkAbs (aq_policy a) [] (aq_accepted a) (aq_rejected a) (aq_popped a)
         (aq_cleared a + length (aq_items a)) (aq_dropped a), NAunit)
  | NSetPolicy p =>
      (mkAbs p (aq_items a) (aq_accepted a) (aq_rejected a) (aq_popped a) (aq_cleared a) (aq_dropped a), NAunit)
  end%nat.

Fixpoint abs_run {T} (n cap : Z) (a : AbsQueue T) (ops : list (nq_op T)) : AbsQueue T * list (nq_answer T) :=
  match ops with
  | [] => (a, [])
  | op :: ops' =>
      let (a1, r) := abs_op n cap a op in
      let (a2, rs) := abs_run n cap a1 ops' in (a2, r :: rs)
  end.

Section Refinement.
Context {Q T : Type} `{!FifoImpl Q T, !FifoLaws Q T} (n cap : Z).
Implicit Types (s : NodeQueue Q T) (a : AbsQueue T).

(** Every item accepted is popped, dropped, cleared or still queued. *)
Definition conserved a : Prop :=
  (aq_accepted a = aq_popped a + length (aq_dropped a) + aq_cleared a + length (aq_items a))%nat.

Record refines (b : nat) (accessor : option (T → option FrameId)) s a : Prop := {
  rf_items : q_repr b (nq_queue s) (aq_items a);
  rf_cap : q_capacity (nq_queue s) = cap;
  rf_policy : qc_drop_policy (nq_config s) = aq_policy a;
  rf_n : qc_keep_latest_n (nq_config s) = n;
  rf_track : qc_track_statistics (nq_config s) = true;
  rf_cb : nq_callback s = true ∧ nq_accessor s = accessor;
  rf_pushed : wrap64 (total_pushed (nq_stats s)) = wrap64 (Z.of_nat (aq_accepted a));
  rf_popped : wrap64 (total_popped (nq_stats s)) = wrap64 (Z.of_nat (aq_popped a));
  rf_dropped : wrap64 (total_dropped (nq_stats s)) = wrap64 (Z.of_nat (length (aq_dropped a)));
  rf_rejected : wrap64 (total_rejected (nq_stats s)) = wrap64 (Z.of_nat (aq_rejected a));
  rf_events : de_frame_id <$> nq_events s = event_frames s (aq_dropped a);
  rf_peak : nq_size s ≤ peak_size (nq_stats s) ≤ cap;
  rf_conserved : conserved a;
}.

Lemma spec_push_conserves policy (l : list T) x l' dropped ok :
  spec_push policy n cap l x = (l', dropped, ok) →
  (length l' + length dropped = length l + if ok then 1 else 0)%nat.
Proof.
  unfold spec_push. case_decide; intros [= <- <- <-]; simpl; [lia|].
  rewrite length_app, length_drop, length_take. simpl. lia.
Qed.

Lemma spec_push_rejected policy (l : list T) x l' dropped :
  spec_push policy n cap l x = (l', dropped, false) → l' = l.
Proof. unfold spec_push. by case_decide; intros [= <- <-]. Qed.

Lemma event_frames_app s (xs ys : list T) : event_frames s (xs ++ ys) = event_frames s xs ++ event_frames s ys.
Proof. apply fmap_app. Qed.

Lemma push_refines b accessor s a x :
  refines (S b) accessor s a →
  let '(a', r) := abs_op n cap a (NPush x) in
  ∃ s', nq_run_op s (NPush x) = Some (s', r) ∧ refines b accessor s' a'.
Proof.
  intros [Hit Hcap Hpol Hn Htr Hcb Hpu Hpo Hdr Hre Hev Hpk Hco]. simpl.
  pose proof (q_len _ _ _ Hit) as Hlen. pose proof (q_cap_pos _ _ _ Hit) as Hcp.
  pose proof (push_spec b (S (Z.to_nat (q_capacity (nq_queue s)))) s (aq_items a) x Hit) as Hp.
  rewrite Hpol, Hn, Hcap in Hp. specialize (Hp ltac:(lia)). rewrite Hcap.
  destruct (spec_push (aq_policy a) n cap (aq_items a) x) as [[l' dropped] ok] eqn:Hsp.
  pose proof (spec_push_conserves _ _ _ _ _ _ Hsp) as Hc.
  destruct Hp as (s' & -> & Hh & (Hc' & Hb' & Ha' & Hq') & He & Hst).
  destruct Hcb as [Hcb Hac]. rewrite Hcb in He. rewrite Htr in Hst.
  destruct Hst as (P & D & R & O & K). simpl. eexists; split; [done|].
  pose proof (q_len _ _ _ Hh) as Hlen'. pose proof (q_size_spec _ _ _ Hh) as Hsz.
  rewrite Hq', Hcap in Hlen'. unfold nq_size in *. pose proof (q_size_spec _ _ _ Hit) as Hsz0.
  constructor; simpl; try congruence.
  - exact Hh.
  - split; congruence.
  - rewrite P, Nat2Z.inj_add. rewrite (wrap64_congr _ _ _ Hpu). by destruct ok.
  - rewrite D, length_app, Nat2Z.inj_add. by apply wrap64_congr.
  - rewrite R, Nat2Z.inj_add. rewrite (wrap64_congr _ _ _ Hre). by destruct ok.
  - rewrite He, event_frames_app, Hev. unfold event_frames. by rewrite Ha'.
  - unfold nq_size. rewrite K, Hsz. destruct ok; [rewrite decide_True by lia; lia|].
    rewrite decide_False by lia.
    assert (l' = aq_items a) as ->; [|lia]. by apply spec_push_rejected in Hsp.
  - unfold conserved in *; simpl. rewrite length_app. destruct ok; lia.
Qed.

Lemma op_refines b accessor s a op :
  refines (S b) accessor s a →
  let '(a', r) := abs_op n cap a op in
  ∃ s', nq_run_op s op = Some (s', r) ∧ refines b accessor s' a'.
Proof.
  intros Href. destruct op as [x| | | | |p]; [by apply push_refines|..];
    pose proof Href as [Hit Hcap Hpol Hn Htr Hcb Hpu Hpo Hdr Hre Hev Hpk Hco];
    pose proof (q_size_spec _ _ _ Hit) as Hsz; unfold nq_size in *.
  - simpl. destruct (aq_items a) as [|x l] eqn:Hl; simpl.
    + rewrite (tryPop_nil (S b)) by done. eexists; split; [done|].
      constructor; simpl; try done; [eapply q_repr_mono, Hit; lia|by rewrite Nat.add_0_r|].
      unfold conserved in *; simpl. rewrite Hl in Hco. simpl in Hco. lia.
    + destruct (tryPop_cons _ _ _ _ Hit) as (s' & -> & Hh & (Hc' & Hb' & Ha' & Hq') & He & Hst).
      rewrite Htr in Hst. eexists; split; [done|]. pose proof (q_size_spec _ _ _ Hh) as Hsz'.
      destruct Hcb as [Hcb Hac]. constructor; simpl; try congruence.
      * by apply (q_repr_mono (S b)); [lia|].
      * split; congruence.
      * by rewrite Hst.
      * rewrite Hst. simpl. rewrite wrap64_idem, Nat2Z.inj_add. by apply wrap64_congr.
      * by rewrite Hst.
      * by rewrite Hst.
      * rewrite He, Hev. unfold event_frames. by rewrite Ha'.
      * unfold nq_size. rewrite Hst. simpl. simpl in Hsz. lia.
      * unfold conserved in *; simpl. rewrite Hl in Hco. simpl in Hco. lia.
  - simpl. unfold nq_tryPeek. rewrite (q_peek_spec _ _ _ Hit). eexists; split; [done|].
    destruct Href; constructor; try done. eapply q_repr_mono, Hit; lia.
  - simpl. unfold nq_size. rewrite Hsz. eexists; split; [done|].
    destruct Href; constructor; try done. eapply q_repr_mono, Hit; lia.
  - simpl. pose proof (q_len _ _ _ Hit) as Hlen.
    destruct (clear_loop_spec _ _ _ (S (Z.to_nat (q_capacity (nq_queue s)))) Hit) as (q' & Hq & Hq' & Hcap'); [lia|].
    unfold nq_clear. rewrite Hq. cbn [mbind option_bind]. eexists; split; [done|].
    pose proof (q_size_spec _ _ _ Hq') as Hsz'. destruct Hcb as [Hcb Hac].
    constructor; simpl; try done; try congruence.
    + by apply (q_repr_mono (S b)); [lia|].
    + unfold nq_size; simpl. simpl in Hsz'. lia.
    + unfold conserved in *; simpl. lia.
  - simpl. eexists; split; [done|]. destruct Hcb as [Hcb Hac]. constructor; simpl; try done.
    by apply (q_repr_mono (S b)); [lia|].
Qed.

Lemma run_refines accessor ops s a :
  refines (length ops) accessor s a →
  let '(a', rs) := abs_run n cap a ops in
  ∃ s', nq_run s ops = Some (s', rs) ∧ refines 0 accessor s' a'.
Proof.
  revert s a. induction ops as [|op ops IH]; intros s a Href; cbn [abs_run nq_run]; [by exists s|].
  pose proof (op_refines _ _ _ _ op Href) as Hop. destruct (abs_op n cap a op) as [a1 r].
  destruct Hop as (s1 & -> & Href1). cbn [mbind option_bind]. pose proof (IH _ _ Href1) as Hrun.
  destruct (abs_run n cap a1 ops) as [a2 rs]. destruct Hrun as (s2 & -> & Href2).
  by exists s2.
Qed.
End Refinement.

(** ** Claims *)

(** A new queue with the callback and accessor installed. *)
Definition watched {T} (config : QConfig) (accessor : T → option FrameId) : NodeQueue (Ring T) T :=
  setDropCallback (setFrameIdAccessor (newNodeQueue config) accessor) true.

Lemma watched_refines {T} (config : QConfig) (accessor : T → option FrameId) (b : nat) :
  qc_capacity config ≤ 2 ^ 61 → Z.of_nat b < 2 ^ 62 → qc_track_statistics config = true →
  refines (qc_keep_latest_n config) (r_capacity (newRing (qc_capacity config) : Ring T)) b (Some accessor)
    (watched config accessor) (abs_new (qc_drop_policy config)).
Proof.
  intros Hcap Hb Htr. destruct (newRing_repr (T := T) _ _ Hcap Hb) as [Hrepr _].
  pose proof (q_cap_pos _ _ _ Hrepr) as Hc. simpl in Hc. constructor; try done.
  unfold nq_size, watched; simpl. unfold ring_size; simpl. lia.
Qed.

(** C27: every sequence of pushes, pops, peeks, size queries, clears and policy
    changes on a new node queue terminates and answers exactly as the abstract
    queue (a list with the three drop policies); the contents agree, every
    accepted, rejected, popped and dropped item is counted (counters are 64-bit),
    the drop callback saw exactly the dropped items' frame ids in order, and the
    recorded peak covers the current size and never exceeds the capacity. *)
Theorem nodeQueue_refines_abstract {T : Type} (config : QConfig) (accessor : T → option FrameId)
    (ops : list (nq_op T)) :
  qc_capacity config ≤ 2 ^ 61 → Z.of_nat (length ops) < 2 ^ 62 → qc_track_statistics config = true →
  let cap := r_capacity (newRing (qc_capacity config) : Ring T) in
  let '(a, answers) := abs_run (qc_keep_latest_n config) cap (abs_new (qc_drop_policy config)) ops in
  ∃ s, nq_run (watched config accessor) ops = Some (s, answers) ∧
    q_repr 0 (nq_queue s) (aq_items a) ∧
    wrap64 (total_pushed (nq_stats s)) = wrap64 (Z.of_nat (aq_accepted a)) ∧
    wrap64 (total_rejected (nq_stats s)) = wrap64 (Z.of_nat (aq_rejected a)) ∧
    wrap64 (total_popped (nq_stats s)) = wrap64 (Z.of_nat (aq_popped a)) ∧
    wrap64 (total_dropped (nq_stats s)) = wrap64 (Z.of_nat (length (aq_dropped a))) ∧
    de_frame_id <$> nq_events s = (λ x, default k_invalid_frame_id (accessor x)) <$> aq_dropped a ∧
    nq_size s ≤ peak_size (nq_stats s) ≤ cap.
Proof.
  intros Hcap Hops Htr cap. pose proof (watched_refines config accessor _ Hcap Hops Htr) as Hw.
  pose proof (run_refines _ _ _ _ _ _ Hw) as Hrun. fold cap in Hrun.
  destruct (abs_run _ _ _ _) as [a answers]. destruct Hrun as (s & Hs & Href).
  exists s. destruct Href as [Hit _ _ _ _ [_ Hacc] Hpu Hpo Hdr Hre Hev [Hpk1 Hpk2] _].
  unfold event_frames in Hev. rewrite Hacc in Hev. by split_and!.
Qed.

Definition ex_config : QConfig := mkQConfig 4 KeepLatest 2 true "detector" "image".

Definition ex_nq_ops : list (nq_op Z) :=
  [NPush 1; NPush 2; NPush 3; NPeek; NPop; NSetPolicy DropHead; NPush 4; NPush 5; NPush 6; NPush 7;
   NSetPolicy DropTail; NPush 8; NSize; NClear; NPop].

Lemma ex_abs_run :
  abs_run (qc_keep_latest_n ex_config) (r_capacity (newRing (qc_capacity ex_config) : Ring Z))
    (abs_new (qc_drop_policy ex_config)) ex_nq_ops =
  (mkAbs DropTail [] 7 1 1 4 [1; 3],
   [NAok true; NAok true; NAok true; NAitem (Some 2); NAitem (Some 2); NAunit; NAok true;
    NAok true; NAok true; NAok true; NAunit; NAok false; NAsize 4; NAunit; NAitem None]).
Proof. vm_compute. reflexivity. Qed.

Lemma nodeQueue_refines_abstract_witness :
  ∃ s, nq_run (watched ex_config (λ x : Z, Some x)) ex_nq_ops =
         Some (s, [NAok true; NAok true; NAok true; NAitem (Some 2); NAitem (Some 2); NAunit; NAok true;
                   NAok true; NAok true; NAok true; NAunit; NAok false; NAsize 4; NAunit; NAitem None]) ∧
       de_frame_id <$> nq_events s = [1; 3].
Proof.
  pose proof (nodeQueue_refines_abstract (T := Z) ex_config (λ x : Z, Some x) ex_nq_ops) as Hr.
  cbv zeta in Hr. rewrite ex_abs_run in Hr.
  destruct Hr as (s & Hs & _ & _ & _ & _ & _ & He & _); [simpl; lia|simpl; lia|reflexivity|].
  exists s. split; [exact Hs|exact He].
Defined.

(** Conservation.  With statistics on and no clear, at every point the number
    of accepted items is, modulo [2^64], the number popped plus the number
    dropped plus the number still queued. *)
Theorem nodeQueue_conservation {T : Type} (config : QConfig) (accessor : T → option FrameId)
    (ops : list (nq_op T)) :
  qc_capacity config ≤ 2 ^ 61 → Z.of_nat (length ops) < 2 ^ 62 → qc_track_statistics config = true →
  NClear ∉ ops →
  ∃ s answers, nq_run (watched config accessor) ops = Some (s, answers) ∧
    wrap64 (total_pushed (nq_stats s)) =
    wrap64 (total_popped (nq_stats s) + total_dropped (nq_stats s) + nq_size s).
Proof.
  intros Hcap Hops Htr Hnc. pose proof (watched_refines config accessor _ Hcap Hops Htr) as Hw.
  pose proof (run_refines _ _ _ _ _ _ Hw) as Hrun.
  assert (∀ n cap (a : AbsQueue T), NClear ∉ ops → aq_cleared (fst (abs_run n cap a ops)) = aq_cleared a) as Hcl.
  { clear. intros n cap. induction ops as [|op ops IH]; intros a Hn; simpl; [done|].
    destruct (abs_op n cap a op) as [a1 r] eqn:Ho. destruct (abs_run n cap a1 ops) as [a2 rs] eqn:Hr.
    specialize (IH a1 ltac:(set_solver)). rewrite Hr in IH. simpl in *. rewrite IH.
    destruct op; simpl in Ho; try (by simplify_eq); [|set_solver].
    destruct (spec_push _ _ _ _ _) as [[??]?]. by simplify_eq. }
  specialize (Hcl (qc_keep_latest_n config) (r_capacity (newRing (qc_capacity config) : Ring T))
                (abs_new (qc_drop_policy config)) Hnc).
  destruct (abs_run _ _ _ _) as [a answers]. destruct Hrun as (s & Hs & Href). exists s, answers.
  split; [done|]. destruct Href as [Hit _ _ _ _ _ Hpu Hpo Hdr _ _ _ Hco]. simpl in Hcl.
  unfold nq_size. rewrite (q_size_spec _ _ _ Hit), Hpu.
  rewrite (wrap64_congr (_ + _) (Z.of_nat (aq_popped a) + Z.of_nat (length (aq_dropped a)))).
  - unfold conserved in Hco. f_equal. lia.
  - rewrite (wrap64_congr _ _ _ Hpo). rewrite !(Z.add_comm (Z.of_nat (aq_popped a))). by apply wrap64_congr.
Qed.

Lemma ex_nq_ops_no_clear : NClear ∉ take 13 ex_nq_ops.
Proof.
  intros Hin. apply list_elem_of_In in Hin. simpl in Hin. naive_solver.
Qed.

Lemma nodeQueue_conservation_witness :
  ∃ s answers, nq_run (watched ex_config (λ x : Z, Some x)) (take 13 ex_nq_ops) = Some (s, answers) ∧
    wrap64 (total_pushed (nq_stats s)) =
    wrap64 (total_popped (nq_stats s) + total_dropped (nq_stats s) + nq_size s).
Proof.
  apply (nodeQueue_conservation (T := Z) ex_config (λ x : Z, Some x) (take 13 ex_nq_ops));
    [simpl; lia|simpl; lia|reflexivity|apply ex_nq_ops_no_clear].
Defined.

(** The single-producer contract of KeepLatest: on any queue (over any
    lawful core queue) a push succeeds, leaves at most [max(n, 1)] items, the
    newest ones with the pushed item last, and drops exactly the older ones. *)
Theorem keepLatest_window {Q T : Type} `{!FifoImpl Q T, !FifoLaws Q T} (b fuel : nat)
    (s : NodeQueue Q T) (l : list T) (x : T) :
  holds (S b) s l → qc_drop_policy (nq_config s) = KeepLatest → (length l < fuel)%nat →
  ∃ s' dropped kept,
    push fuel s x = Some (s', true) ∧ l = dropped ++ kept ∧ holds b s' (kept ++ [x]) ∧
    nq_size s' ≤ Z.max (qc_keep_latest_n (nq_config s)) 1 ∧ nq_size s' ≤ q_capacity (nq_queue s) ∧
    accounted s s' dropped 1 0.
Proof.
  intros Hs Hpol Hfuel. pose proof (q_cap_pos _ _ _ Hs) as Hcp.
  pose proof (push_spec b fuel s l x Hs Hfuel) as Hp. rewrite Hpol in Hp. unfold spec_push in Hp.
  rewrite decide_False in Hp by naive_solver. destruct Hp as (s' & Hp & Hh & Hacc).
  set (k := evictions _ _ _ _) in *. exists s', (take k l), (drop k l).
  assert (nq_size s' = Z.of_nat (length (drop k l ++ [x]))) as Hsz by (by apply (q_size_spec b)).
  rewrite length_app, length_drop in Hsz. simpl in Hsz. unfold k, evictions, window in Hsz.
  split_and!; [done|by rewrite take_drop|done|lia|lia|done].
Qed.

Definition ex_bounded : NodeQueue (BoundedList nat) nat :=
  mkNQ (mkQConfig 8 KeepLatest 3 true "" "") (mkBounded 8 [1; 2; 3; 4; 5]%nat) qstats_reset false None [].

Lemma keepLatest_window_witness :
  ∃ s' dropped kept, push 6 ex_bounded 6%nat = Some (s', true) ∧
    [1; 2; 3; 4; 5]%nat = dropped ++ kept ∧ holds 0 s' (kept ++ [6%nat]).
Proof.
  destruct (keepLatest_window 0 6 ex_bounded [1; 2; 3; 4; 5]%nat 6%nat) as (s' & dropped & kept & H1 & H2 & H3 & _);
    [split_and!; simpl; [reflexivity|lia|lia]|reflexivity|simpl; lia|].
  exists s', dropped, kept. split; [exact H1|split; [exact H2|exact H3]].
Defined.

(** DropHead never refuses and loses only the oldest item, only when full;
    a KeepLatest window at least as large as the ring behaves in the same way. *)
Theorem dropHead_evicts_only_when_full {Q T : Type} `{!FifoImpl Q T, !FifoLaws Q T} (b fuel : nat)
    (s : NodeQueue Q T) (l : list T) (x : T) :
  holds (S b) s l → (length l < fuel)%nat →
  qc_drop_policy (nq_config s) = DropHead ∨
    (qc_drop_policy (nq_config s) = KeepLatest ∧ q_capacity (nq_queue s) ≤ qc_keep_latest_n (nq_config s)) →
  ∃ s', push fuel s x = Some (s', true) ∧
    if decide (Z.of_nat (length l) = q_capacity (nq_queue s))
    then holds b s' (tail l ++ [x]) ∧ accounted s s' (option_list (head l)) 1 0
    else holds b s' (l ++ [x]) ∧ accounted s s' [] 1 0.
Proof.
  intros Hs Hfuel Hpol. pose proof (q_cap_pos _ _ _ Hs) as Hcp. pose proof (q_len _ _ _ Hs) as Hlen.
  pose proof (push_spec b fuel s l x Hs Hfuel) as Hp. unfold spec_push in Hp.
  rewrite decide_False in Hp by (destruct Hpol as [->|[-> _]]; naive_solver).
  destruct Hp as (s' & Hp & Hh & Hacc). exists s'. split; [done|].
  set (k := evictions _ _ _ _) in *.
  assert (k = (length l + 1 - Z.to_nat (q_capacity (nq_queue s)))%nat) as Hk.
  { unfold k, evictions, window. destruct Hpol as [->|[-> ?]]; [done|]. f_equal. lia. }
  case_decide as Hfull.
  - assert (k = 1%nat) as Hk1 by lia. rewrite Hk1 in Hh, Hacc. by destruct l.
  - assert (k = 0%nat) as Hk0 by lia. rewrite Hk0 in Hh, Hacc. by rewrite drop_0 in Hh.
Qed.

Definition ex_full : NodeQueue (BoundedList nat) nat :=
  mkNQ (default_qconfig 2) (mkBounded 2 [1; 2]%nat) qstats_reset false None [].

Lemma dropHead_evicts_only_when_full_witness :
  ∃ s', push 3 ex_full 3%nat = Some (s', true) ∧ holds 0 s' [2; 3]%nat.
Proof.
  destruct (dropHead_evicts_only_when_full 0 3 ex_full [1; 2]%nat 3%nat) as (s' & H1 & H2);
    [split_and!; simpl; [reflexivity|lia|lia]|simpl; lia|left; reflexivity|].
  exists s'. split; [exact H1|exact (proj1 H2)].
Defined.

(** The configured capacity is not the bound of either policy: the ring rounds it
    up.  With capacity 5 and a window of 5 the two policies keep 5 and 8 items. *)
Lemma keepLatest_at_configured_capacity_differs :
  let pushes := (λ x, NPush x) <$> seqZ 0 10 in
  let run c := snd <$> nq_run (watched c (λ x : Z, Some x)) (pushes ++ [NSize]) in
  (run (mkQConfig 5 KeepLatest 5 true "" "") ≫= last) = Some (NAsize 5) ∧
  (run (mkQConfig 5 DropHead 5 true "" "") ≫= last) = Some (NAsize 8).
Proof. split; vm_compute; reflexivity. Qed.
