(* ===== verification/FrameAlignment.v ===== *)
(** * Frame alignment at joins

    The three alignment policies and the aligned-gather loop of
    [src/frame_alignment.hpp].  The loop's callbacks are the operations of the
    interface [PortOps]; a policy is an instance of [AlignPolicy], whose law
    [ap_progress] is the progress guarantee the loop's comment relies on
    (proved for each policy).  Timestamps are nanoseconds since the clock's epoch
    and are taken non-negative and below [2^63], where the durations the code
    computes do not overflow. *)

From Stdlib Require Import Sorted.
From S2P Require Import Prelude Errors Packets.
Local Open Scope string_scope.
Local Open Scope list_scope.
Local Open Scope Z_scope.

(** ** Policies *)

(** What the gather loop asks of a policy. *)
Class AlignPolicy `{CppTypes} (P : Type) := {
  ap_reason : string;
  ap_aligned : P → list PortDataPtr → bool;
  ap_stale : P → list PortDataPtr → list nat;
  ap_pairsWith : P → DataPacket → DataPacket → bool;
}.

Section FrameIdPolicy.
Context `{CppTypes}.

(** [heads[i]]. *)
Definition head_or_null (heads : list PortDataPtr) (i : nat) : PortDataPtr :=
  match heads !! i with Some h => h | None => None end.

(** src/src/frame_alignment.hpp:17-60 FrameIdPolicy *)
Inductive FrameIdPolicy := mkFrameIdPolicy.

(** src/src/frame_alignment.hpp:20-22 FrameIdPolicy::headId *)
Definition headId (head : PortDataPtr) : FrameId :=
  match head with Some p => dp_frameId p | None => k_invalid_frame_id end.

(** src/src/frame_alignment.hpp:24-30 FrameIdPolicy::newestId *)
Definition newestId (heads : list PortDataPtr) : FrameId :=
  foldl (λ target head, Z.max target (headId head)) k_invalid_frame_id heads.

(** src/src/frame_alignment.hpp:32-41 FrameIdPolicy::aligned *)
Definition frameId_aligned (heads : list PortDataPtr) : bool :=
  let target := newestId heads in
  forallb (λ head, negb (bool_decide (headId head ≠ k_invalid_frame_id ∧ headId head ≠ target))) heads.

(** src/src/frame_alignment.hpp:43-54 FrameIdPolicy::forEachStale (indices, in call order) *)
Definition frameId_stale (heads : list PortDataPtr) : list nat :=
  let target := newestId heads in
  filter (λ i, headId (head_or_null heads i) ≠ k_invalid_frame_id ∧
               headId (head_or_null heads i) < target) (seq 0 (length heads)).

(** src/src/frame_alignment.hpp:56-59 FrameIdPolicy::pairsWith *)
Definition frameId_pairsWith (head reference : DataPacket) : bool :=
  negb (hasFrameId head) || bool_decide (dp_id head = dp_id reference).
End FrameIdPolicy.

#[export] Instance frameId_policy `{CppTypes} : AlignPolicy FrameIdPolicy := {
  ap_reason := "frame alignment drop";
  ap_aligned _ := frameId_aligned;
  ap_stale _ := frameId_stale;
  ap_pairsWith _ := frameId_pairsWith;
}.

Section StreamFrameIdPolicy.
Context `{CppTypes}.

(** src/src/frame_alignment.hpp:71-146 StreamFrameIdPolicy *)
Inductive StreamFrameIdPolicy := mkStreamFrameIdPolicy.

(** Heads that are not wildcards. *)
Definition keyed (head : PortDataPtr) : option DataPacket :=
  match head with Some p => if hasFrameId p then Some p else None | None => None end.

Definition key (p : DataPacket) : StreamId * FrameId := (dp_stream_id p, dp_id p).

(** src/src/frame_alignment.hpp:74-91 StreamFrameIdPolicy::aligned *)
Fixpoint stream_aligned_from (have_key : option (StreamId * FrameId)) (heads : list PortDataPtr) : bool :=
  match heads with
  | [] => true
  | head :: rest =>
      match keyed head with
      | None => stream_aligned_from have_key rest
      | Some p =>
          match have_key with
          | None => stream_aligned_from (Some (key p)) rest
          | Some k => if decide (dp_stream_id p ≠ fst k ∨ dp_id p ≠ snd k) then false
                      else stream_aligned_from have_key rest
          end
      end
  end.

Definition stream_aligned (heads : list PortDataPtr) : bool := stream_aligned_from None heads.

(** [std::pair]'s lexicographic [<]. *)
Definition key_lt (k k' : StreamId * FrameId) : bool :=
  bool_decide (fst k < fst k') || (bool_decide (fst k = fst k') && bool_decide (snd k < snd k')).

Definition head_at (heads : list PortDataPtr) (i : nat) : option DataPacket :=
  keyed (head_or_null heads i).

(** src/src/frame_alignment.hpp:96-101 StreamFrameIdPolicy::forEachStale (newest timestamp) *)
Definition newest_ts (heads : list PortDataPtr) : Timestamp :=
  foldl (λ newest head,
    match keyed head with
    | Some p => if decide (dp_timestamp p > newest) then dp_timestamp p else newest
    | None => newest
    end) 0 heads.

(** src/src/frame_alignment.hpp:117-128 StreamFrameIdPolicy::forEachStale (smallest key) *)
Definition min_index (heads : list PortDataPtr) : nat :=
  foldl (λ best i,
    match head_at heads i with
    | None => best
    | Some p =>
        match head_at heads best with
        | None => i
        | Some q => if key_lt (key p) (key q) then i else best
        end
    end) (length heads) (seq 0 (length heads)).

Definition older (heads : list PortDataPtr) (newest : Timestamp) (i : nat) : bool :=
  match head_at heads i with Some p => bool_decide (dp_timestamp p < newest) | None => false end.

Definition same_key (heads : list PortDataPtr) (m i : nat) : bool :=
  match head_at heads i, head_at heads m with
  | Some p, Some q => bool_decide (dp_stream_id p = dp_stream_id q) && bool_decide (dp_id p = dp_id q)
  | _, _ => false
  end.

(** src/src/frame_alignment.hpp:93-139 StreamFrameIdPolicy::forEachStale (indices, in call order) *)
Definition stream_stale (heads : list PortDataPtr) : list nat :=
  let by_time := filter (λ i, older heads (newest_ts heads) i = true) (seq 0 (length heads)) in
  match by_time with
  | _ :: _ => by_time
  | [] =>
      let m := min_index heads in
      if decide (m = length heads) then []
      else filter (λ i, same_key heads m i = true) (seq 0 (length heads))
  end.

(** src/src/frame_alignment.hpp:141-145 StreamFrameIdPolicy::pairsWith *)
Definition stream_pairsWith (head reference : DataPacket) : bool :=
  negb (hasFrameId head) ||
  (bool_decide (dp_stream_id head = dp_stream_id reference) && bool_decide (dp_id head = dp_id reference)).
End StreamFrameIdPolicy.

#[export] Instance stream_policy `{CppTypes} : AlignPolicy StreamFrameIdPolicy := {
  ap_reason := "stream alignment drop";
  ap_aligned _ := stream_aligned;
  ap_stale _ := stream_stale;
  ap_pairsWith _ := stream_pairsWith;
}.

Section TimestampPolicy.
Context `{CppTypes}.

(** src/src/frame_alignment.hpp:157-200 TimestampPolicy *)
Record TimestampPolicy := mkTimestampPolicy { tsp_tolerance_us : Z }.

Definition ns_per_us : Z := 1000.

Definition tolerance_ns (pol : TimestampPolicy) : Z := tsp_tolerance_us pol * ns_per_us.

(** [Timestamp::min()] and [Timestamp::max()]. *)
Definition ts_min : Timestamp := - 2 ^ 63.

Definition ts_max : Timestamp := 2 ^ 63 - 1.

Definition min_of (heads : list PortDataPtr) : Timestamp :=
  foldl (λ m head, match head with Some p => Z.min m (dp_timestamp p) | None => m end) ts_max heads.

Definition max_of (heads : list PortDataPtr) : Timestamp :=
  foldl (λ m head, match head with Some p => Z.max m (dp_timestamp p) | None => m end) ts_min heads.

(** src/src/frame_alignment.hpp:162-173 TimestampPolicy::aligned *)
Definition ts_aligned (pol : TimestampPolicy) (heads : list PortDataPtr) : bool :=
  bool_decide (min_of heads > max_of heads ∨ max_of heads - min_of heads ≤ tolerance_ns pol).

Definition beyond (pol : TimestampPolicy) (heads : list PortDataPtr) (i : nat) : bool :=
  match head_or_null heads i with
  | Some p => bool_decide (max_of heads - dp_timestamp p > tolerance_ns pol)
  | None => false
  end.

(** src/src/frame_alignment.hpp:175-191 TimestampPolicy::forEachStale (indices, in call order) *)
Definition ts_stale (pol : TimestampPolicy) (heads : list PortDataPtr) : list nat :=
  filter (λ i, beyond pol heads i = true) (seq 0 (length heads)).

(** src/src/frame_alignment.hpp:193-199 TimestampPolicy::pairsWith *)
Definition ts_pairsWith (pol : TimestampPolicy) (head reference : DataPacket) : bool :=
  let diff := if decide (dp_timestamp reference ≤ dp_timestamp head)
              then dp_timestamp head - dp_timestamp reference
              else dp_timestamp reference - dp_timestamp head in
  bool_decide (diff ≤ tolerance_ns pol).
End TimestampPolicy.

#[export] Instance timestamp_policy `{CppTypes} : AlignPolicy TimestampPolicy := {
  ap_reason := "timestamp alignment drop";
  ap_aligned := ts_aligned;
  ap_stale := ts_stale;
  ap_pairsWith := ts_pairsWith;
}.

(** ** The gather loop *)

(** The callbacks [gatherAligned] is given. *)
Class PortOps `{CppTypes} (St : Type) := {
  po_peek : St → nat → St * option PortDataPtr;
  po_pop : St → nat → St * bool;
  po_drop : St → nat → PortDataPtr → string → St;
  po_closed : St → nat → bool;
}.

Section Gather.
Context `{CppTypes} {P St : Type} `{!AlignPolicy P, !PortOps St}.

(** src/src/frame_alignment.hpp:238-251 gatherAligned (phase A, ports [i .. i+k-1]); [None] is
    the early return on a dry port *)
Fixpoint peek_heads (k i : nat) (s : St) : St * option (list (bool * PortDataPtr)) :=
  match k with
  | O => (s, Some [])
  | S k' =>
      if po_closed s i then
        let (s', rest) := peek_heads k' (S i) s in (s', cons (true, None) <$> rest)
      else
        match po_peek s i with
        | (s1, None) => (s1, None)
        | (s1, Some head) =>
            let (s', rest) := peek_heads k' (S i) s1 in (s', cons (false, head) <$> rest)
        end
  end.

(** src/src/frame_alignment.hpp:261-269 gatherAligned (phase B: pop the set) *)
Fixpoint pop_heads (i : nat) (heads : list (bool * PortDataPtr)) (s : St) : St * bool :=
  match heads with
  | [] => (s, true)
  | (true, _) :: rest => pop_heads (S i) rest s
  | (false, _) :: rest =>
      match po_pop s i with
      | (s1, true) => pop_heads (S i) rest s1
      | (s1, false) => (s1, false)
      end
  end.

(** src/src/frame_alignment.hpp:273-277 gatherAligned (phase C: discard) *)
Definition drop_heads (heads : list PortDataPtr) (stale : list nat) (s : St) : St :=
  foldl (λ s i, po_drop s i (head_or_null heads i) ap_reason) s stale.

(** src/src/frame_alignment.hpp:228-284 gatherAligned *)
Fixpoint gatherAligned (fuel port_count : nat) (policy : P) (s : St) : option (St * bool) :=
  match fuel with
  | O => None
  | S fuel' =>
      match peek_heads port_count 0 s with
      | (s1, None) => Some (s1, false)
      | (s1, Some hs) =>
          let heads := hs.*2 in
          if forallb fst hs then (* open_ports == 0 *) Some (s1, false)
          else if ap_aligned policy heads then Some (pop_heads 0 hs s1)
          else
            match ap_stale policy heads with
            | [] => Some (s1, false)
            | stale => gatherAligned fuel' port_count policy (drop_heads heads stale s1)
            end
      end
  end.
End Gather.

(** Any property of the gathering state that its callbacks preserve. *)
Lemma gatherAligned_preserves `{CppTypes} {P St} `{!AlignPolicy P, !PortOps St} (R : St → Prop) fuel n (policy : P) g g' ok :
  (∀ g k, R g → R (po_peek g k).1) → (∀ g k, R g → R (po_pop g k).1) →
  (∀ g k h r, R g → R (po_drop g k h r)) →
  R g → gatherAligned fuel n policy g = Some (g', ok) → R g'.
Proof.
  intros Hpeek Hpop Hdrop.
  assert (∀ m i g, R g → R (peek_heads m i g).1) as Hpeeks.
  { intros m. induction m as [|m IH]; intros i g0 Hg; simpl; [done|]. destruct (po_closed g0 i).
    - specialize (IH (S i) g0 Hg). by destruct (peek_heads m (S i) g0).
    - specialize (Hpeek g0 i Hg). destruct (po_peek g0 i) as [g1 [h|]]; [|done]. simpl in Hpeek.
      specialize (IH (S i) g1 Hpeek). by destruct (peek_heads m (S i) g1). }
  assert (∀ hs i g, R g → R (pop_heads i hs g).1) as Hpops.
  { intros hs. induction hs as [|[[] h] hs IH]; intros i g0 Hg; simpl; [done|by apply IH|].
    specialize (Hpop g0 i Hg). destruct (po_pop g0 i) as [g1 []]; [by apply IH|done]. }
  assert (∀ heads stale g, R g → R (drop_heads (P := P) heads stale g)) as Hdrops.
  { intros heads stale. unfold drop_heads. induction stale as [|k stale IH]; intros g0 Hg; simpl; [done|].
    by apply IH, Hdrop. }
  revert g. induction fuel as [|fuel IH]; intros g Hg; simpl; [done|].
  specialize (Hpeeks n 0%nat g Hg). destruct (peek_heads n 0%nat g) as [g1 [hs|]]; simpl in Hpeeks; [|by intros [= <- _]].
  destruct (forallb fst hs); [by intros [= <- _]|]. destruct (ap_aligned policy hs.*2).
  - intros [= Hp]. specialize (Hpops hs 0%nat g1 Hpeeks). by rewrite Hp in Hpops.
  - destruct (ap_stale policy hs.*2) as [|k stale]; [by intros [= <- _]|]. intros Hga.
    eapply IH; [|exact Hga]. apply Hdrops, Hdrop, Hpeeks.
Qed.

(** ** Laws *)

(** A policy makes progress: heads it does not accept contain one it discards,
    and it discards only actual packets. *)
Class AlignLaws `{CppTypes} (P : Type) `{!AlignPolicy P} := {
  ap_ok : P → list PortDataPtr → Prop;
  ap_progress policy heads : ap_ok policy heads → ap_aligned policy heads = false → ap_stale policy heads ≠ [];
  ap_stale_valid policy heads i : i ∈ ap_stale policy heads → ∃ p, heads !! i = Some (Some p);
}.

(** The ports behind the callbacks: queues of packets and the delivered set.
    Peeking may consume packets at the front (pending coordinated drops). *)
Class PortLaws `{CppTypes} (St : Type) `{!PortOps St} := {
  po_ports : St → list (list PortDataPtr);
  po_out : St → list (nat * PortDataPtr);
  po_peek_spec s i s' r : po_peek s i = (s', r) →
    ∃ q', q' `suffix_of` (po_ports s !!! i) ∧ po_ports s' = <[i := q']> (po_ports s) ∧
          r = head q' ∧ po_out s' = po_out s;
  po_pop_spec s i x q : po_ports s !! i = Some (x :: q) →
    ∃ s', po_pop s i = (s', true) ∧ po_ports s' = <[i := q]> (po_ports s) ∧
          po_out s' = po_out s ++ [(i, x)];
  po_drop_spec s i h r :
    po_ports (po_drop s i h r) = alter tail i (po_ports s) ∧ po_out (po_drop s i h r) = po_out s;
}.

Section PolicyLaws.
Context `{CppTypes}.

Lemma foldl_max_ge {A} (f : A → Z) l m : m ≤ foldl (λ t a, Z.max t (f a)) m l.
Proof. revert m. induction l as [|a l IH]; intros m; simpl; [lia|]. specialize (IH (Z.max m (f a))). lia. Qed.

Lemma foldl_max_elem {A} (f : A → Z) l m a : a ∈ l → f a ≤ foldl (λ t a, Z.max t (f a)) m l.
Proof.
  revert m. induction l as [|b l IH]; intros m Ha; [by apply not_elem_of_nil in Ha|]. simpl.
  apply elem_of_cons in Ha as [->|Ha]; [|by apply IH].
  pose proof (foldl_max_ge f l (Z.max m (f b))). lia.
Qed.

Lemma foldl_max_attained {A} (f : A → Z) l m :
  foldl (λ t a, Z.max t (f a)) m l = m ∨ ∃ a, a ∈ l ∧ foldl (λ t a, Z.max t (f a)) m l = f a.
Proof.
  revert m. induction l as [|b l IH]; intros m; simpl; [by left|].
  destruct (IH (Z.max m (f b))) as [->|(a & Ha & ->)]; [|right; exists a; set_solver].
  destruct (Z.max_spec m (f b)) as [[_ ->]|[_ ->]]; [|by left]. right. exists b. set_solver.
Qed.

Lemma newestId_ge heads h : h ∈ heads → headId h ≤ newestId heads.
Proof. apply foldl_max_elem. Qed.

Lemma frameId_aligned_true heads :
  frameId_aligned heads = true ↔
  ∀ h, h ∈ heads → headId h = k_invalid_frame_id ∨ headId h = newestId heads.
Proof.
  unfold frameId_aligned. rewrite forallb_forall. split; intros Hall h Hh.
  - apply list_elem_of_In in Hh. specialize (Hall h Hh).
    rewrite negb_true_iff, bool_decide_eq_false in Hall.
    destruct (decide (headId h = k_invalid_frame_id)); [by left|].
    destruct (decide (headId h = newestId heads)); [by right|]. naive_solver.
  - apply list_elem_of_In in Hh. rewrite negb_true_iff, bool_decide_eq_false. naive_solver.
Qed.

Lemma elem_of_frameId_stale heads i :
  i ∈ frameId_stale heads ↔
  ∃ h, heads !! i = Some h ∧ headId h ≠ k_invalid_frame_id ∧ headId h < newestId heads.
Proof.
  unfold frameId_stale. rewrite list_elem_of_filter, elem_of_seq. split.
  - intros [Hi Hlt]. destruct (lookup_lt_is_Some_2 heads i) as [h Hh]; [lia|].
    unfold head_or_null in Hi. rewrite Hh in Hi. by exists h.
  - intros (h & Hh & Hne & Hlt). unfold head_or_null. rewrite Hh. split; [done|]. apply lookup_lt_Some in Hh. lia.
Qed.

Lemma frameId_progress heads : frameId_aligned heads = false → frameId_stale heads ≠ [].
Proof.
  intros Hal Hnil. apply not_true_iff_false in Hal. apply Hal, frameId_aligned_true.
  intros h Hh. destruct (decide (headId h = k_invalid_frame_id)); [by left|right].
  destruct (decide (headId h < newestId heads)) as [Hlt|Hge]; [|pose proof (newestId_ge _ _ Hh); lia].
  apply list_elem_of_lookup in Hh as [i Hi].
  assert (i ∈ frameId_stale heads) as Hin by (apply elem_of_frameId_stale; by exists h).
  rewrite Hnil in Hin. by apply not_elem_of_nil in Hin.
Qed.

#[global] Instance frameId_laws : AlignLaws FrameIdPolicy.
Proof.
  refine {| ap_ok _ _ := True |}; simpl.
  - intros _ heads _. apply frameId_progress.
  - intros _ heads i (h & Hh & Hne & _)%elem_of_frameId_stale. destruct h as [p|]; [by exists p|done].
Defined.

Lemma head_at_Some heads i p : head_at heads i = Some p → heads !! i = Some (Some p).
Proof.
  unfold head_at, head_or_null, keyed. destruct (heads !! i) as [[q|]|]; simpl; try done.
  destruct (hasFrameId q); [by intros [= ->]|done].
Qed.

Lemma min_index_fold heads l m :
  (is_Some (head_at heads m) ∨ ∃ i, i ∈ l ∧ is_Some (head_at heads i)) →
  is_Some (head_at heads (foldl (λ best i,
    match head_at heads i with
    | None => best
    | Some p =>
        match head_at heads best with
        | None => i
        | Some q => if key_lt (key p) (key q) then i else best
        end
    end) m l)).
Proof.
  revert m. induction l as [|j l IH]; intros m Hm; simpl.
  - destruct Hm as [?|(i & Hi & _)]; [done|by apply not_elem_of_nil in Hi].
  - apply IH. destruct (head_at heads j) as [p|] eqn:Hj.
    + left. destruct (head_at heads m) as [q|] eqn:Hq; [|by rewrite Hj].
      destruct (key_lt _ _); [by rewrite Hj|by rewrite Hq].
    + destruct Hm as [?|(i & Hi & Hs)]; [by left|]. right. exists i. split; [|done].
      apply elem_of_cons in Hi as [->|]; [|done]. rewrite Hj in Hs. by destruct Hs.
Qed.

Lemma min_index_valid heads i p : head_at heads i = Some p →
  ∃ q, head_at heads (min_index heads) = Some q.
Proof.
  intros Hi. unfold min_index. apply min_index_fold. right. exists i. split; [|by rewrite Hi].
  apply head_at_Some, lookup_lt_Some in Hi. apply elem_of_seq. lia.
Qed.

Lemma stream_misaligned_keyed k heads : stream_aligned_from k heads = false →
  ∃ i p, head_at heads i = Some p.
Proof.
  revert k. induction heads as [|h heads IH]; intros k Hal; simpl in *; [done|].
  destruct (keyed h) as [p|] eqn:Hk; [exists 0%nat, p; by unfold head_at, head_or_null|].
  destruct (IH k Hal) as (i & p & Hi). by exists (S i), p.
Qed.

Lemma stream_progress heads : stream_aligned heads = false → stream_stale heads ≠ [].
Proof.
  intros Hal. unfold stream_stale. destruct (filter _ _); [|done].
  destruct (stream_misaligned_keyed _ _ Hal) as (i & p & Hi).
  destruct (min_index_valid _ _ _ Hi) as [q Hq].
  pose proof (lookup_lt_Some _ _ _ (head_at_Some _ _ _ Hq)) as Hlt.
  rewrite decide_False by lia. intros Hnil.
  assert (min_index heads ∈ filter (λ i, same_key heads (min_index heads) i = true) (seq 0 (length heads))) as Hin.
  { apply list_elem_of_filter. split; [|apply elem_of_seq; lia]. unfold same_key. rewrite Hq.
    by rewrite !bool_decide_eq_true_2. }
  rewrite Hnil in Hin. by apply not_elem_of_nil in Hin.
Qed.

#[global] Instance stream_laws : AlignLaws StreamFrameIdPolicy.
Proof.
  refine {| ap_ok _ _ := True |}; simpl.
  - intros _ heads _. apply stream_progress.
  - intros _ heads i Hi. unfold stream_stale in Hi.
    assert (∃ p, head_at heads i = Some p) as [p Hp]; [|by exists p; apply head_at_Some].
    destruct (filter (λ i, older _ _ i = true) _) as [|j l] eqn:Hf.
    + case_decide; [by apply not_elem_of_nil in Hi|]. apply list_elem_of_filter in Hi as [Hi _].
      unfold same_key in Hi. destruct (head_at heads i) as [p|]; [by exists p|done].
    + rewrite <-Hf in Hi. apply list_elem_of_filter in Hi as [Hi _]. unfold older in Hi.
      destruct (head_at heads i) as [p|]; [by exists p|done].
Defined.

(** Every packet's timestamp lies in the clock's range. *)
Definition ts_in_range (heads : list PortDataPtr) : Prop :=
  ∀ p, Some p ∈ heads → 0 ≤ dp_timestamp p < 2 ^ 63.

Lemma min_of_attained heads : ts_in_range heads →
  min_of heads = ts_max ∨ ∃ p, Some p ∈ heads ∧ dp_timestamp p = min_of heads.
Proof.
  unfold min_of. generalize ts_max as m. induction heads as [|h heads IH]; intros m Hr; simpl; [by left|].
  destruct (IH (match h with Some p => Z.min m (dp_timestamp p) | None => m end)) as [->|(p & Hp & Hm)].
  - intros p Hp. apply Hr. set_solver.
  - destruct h as [p|]; [|by left]. destruct (Z.min_spec m (dp_timestamp p)) as [[_ ->]|[_ ->]]; [by left|].
    right. exists p. split; [set_solver|done].
  - right. exists p. split; [set_solver|done].
Qed.

Lemma max_of_bound heads : ts_in_range heads → max_of heads < 2 ^ 63.
Proof.
  unfold max_of. assert (ts_min < 2 ^ 63) as Hm by (unfold ts_min; lia). revert Hm.
  generalize ts_min as m. induction heads as [|h heads IH]; intros m Hm Hr; simpl; [done|].
  apply IH; [|intros p Hp; apply Hr; set_solver].
  destruct h as [p|]; [|done]. specialize (Hr p ltac:(set_solver)). lia.
Qed.

Lemma ts_progress pol heads : ts_in_range heads → 0 ≤ tsp_tolerance_us pol →
  ts_aligned pol heads = false → ts_stale pol heads ≠ [].
Proof.
  intros Hr Htol Hal. unfold ts_aligned in Hal. apply bool_decide_eq_false in Hal.
  pose proof (max_of_bound _ Hr) as Hmax.
  destruct (min_of_attained _ Hr) as [Hmin|(p & Hp & Hmin)].
  { exfalso. apply Hal. right. rewrite Hmin. unfold ts_max, tolerance_ns, ns_per_us. lia. }
  apply list_elem_of_lookup in Hp as [i Hi]. intros Hnil.
  assert (i ∈ ts_stale pol heads) as Hin.
  { apply list_elem_of_filter. split; [|apply elem_of_seq; apply lookup_lt_Some in Hi; lia].
    unfold beyond, head_or_null. rewrite Hi. simpl. apply bool_decide_eq_true. rewrite Hmin. lia. }
  rewrite Hnil in Hin. by apply not_elem_of_nil in Hin.
Qed.

#[global] Instance timestamp_laws : AlignLaws TimestampPolicy.
Proof.
  refine {| ap_ok policy heads := ts_in_range heads ∧ 0 ≤ tsp_tolerance_us policy |}; simpl.
  - intros pol heads [Hr Htol]. by apply ts_progress.
  - intros pol heads i [Hi Hlt]%list_elem_of_filter. unfold beyond, head_or_null in Hi.
    destruct (heads !! i) as [[p|]|] eqn:Hh; simpl in Hi; try done. by exists p.
Defined.
End PolicyLaws.

(** ** The loop over lawful ports *)

Section GatherFacts.
Context `{CppTypes} {P St : Type} `{!AlignPolicy P, !AlignLaws P, !PortOps St, !PortLaws St}.
Implicit Types (s : St) (ports : list (list PortDataPtr)).

Definition total (ports : list (list PortDataPtr)) : nat := sum_list (length <$> ports).

Lemma total_cons p ports : total (p :: ports) = (length p + total ports)%nat.
Proof. done. Qed.

Lemma total_alter_cons ports i x q : ports !! i = Some (x :: q) →
  (total (alter tail i ports) < total ports)%nat.
Proof.
  revert i. induction ports as [|p ports IH]; intros [|i] Hi; [done|done| |].
  - simplify_eq/=. change (alter tail 0%nat ((x :: q) :: ports)) with (q :: ports).
    rewrite !total_cons, length_cons. lia.
  - change (alter tail (S i) (p :: ports)) with (p :: alter tail i ports).
    specialize (IH i Hi). rewrite !total_cons. lia.
Qed.

(** Front parts of the ports may have been removed. *)
Definition trimmed (ports ports' : list (list PortDataPtr)) : Prop :=
  length ports' = length ports ∧ ∀ i q, ports' !! i = Some q → ∃ q0, ports !! i = Some q0 ∧ q `suffix_of` q0.

#[global] Instance trimmed_refl : Reflexive trimmed.
Proof. intros ports. split; [done|]. intros i q Hq. by exists q. Qed.

#[global] Instance trimmed_trans : Transitive trimmed.
Proof.
  intros p1 p2 p3 [L1 H1] [L2 H2]. split; [congruence|]. intros i q Hq.
  destruct (H2 i q Hq) as (q2 & Hq2 & S2). destruct (H1 i q2 Hq2) as (q1 & Hq1 & S1).
  exists q1. split; [done|by etrans].
Qed.

Lemma trimmed_insert ports i q : q `suffix_of` (ports !!! i) → trimmed ports (<[i := q]> ports).
Proof.
  intros Hq. split; [by rewrite length_insert|]. intros j q' Hj.
  apply list_lookup_insert_Some in Hj as [(<- & -> & Hlt)|[Hne Hj]]; [|by exists q'].
  destruct (lookup_lt_is_Some_2 ports i Hlt) as [q0 Hq0]. exists q0. split; [done|].
  by rewrite (list_lookup_total_correct _ _ _ Hq0) in Hq.
Qed.

Lemma trimmed_total ports ports' : trimmed ports ports' → (total ports' ≤ total ports)%nat.
Proof.
  revert ports'. induction ports as [|p ports IH]; intros [|p' ports'] [Hl Hs]; [done|done|done|].
  rewrite !length_cons in Hl. rewrite !total_cons. destruct (Hs 0%nat p' eq_refl) as (q0 & [= <-] & Hsuf). apply suffix_length in Hsuf.
  specialize (IH ports'). assert (trimmed ports ports') as Ht.
  { split; [lia|]. intros i q Hq. exact (Hs (S i) q Hq). }
  specialize (IH Ht). lia.
Qed.

Lemma trimmed_alter ports i : trimmed ports (alter tail i ports).
Proof.
  split; [by rewrite length_alter|]. intros j q Hj. rewrite list_lookup_alter in Hj.
  case_decide; [|by exists q]. subst j. destruct (ports !! i) as [q0|] eqn:Hq; simplify_eq/=.
  exists q0. split; [done|]. destruct q0 as [|x q0]; [done|]. simpl. by exists [x].
Qed.

(** Peeking: ports may lose front packets; each open port's head is what was read. *)
Lemma peek_heads_spec k i s s' r :
  peek_heads k i s = (s', r) →
  trimmed (po_ports s) (po_ports s') ∧ po_out s' = po_out s ∧
  (∀ j, (j < i)%nat → po_ports s' !! j = po_ports s !! j) ∧
  (∀ hs, r = Some hs → length hs = k ∧
     ∀ j h, hs !! j = Some (false, h) → (i + j < length (po_ports s))%nat →
       ∃ q, po_ports s' !! (i + j)%nat = Some (h :: q)).
Proof.
  revert i s s' r. induction k as [|k IH]; intros i s s' r Hp; simpl in Hp.
  - simplify_eq. split_and!; [done|done|done|]. intros hs [= <-]. split; [done|]. by intros [|j] h.
  - destruct (po_closed s i).
    + destruct (peek_heads k (S i) s) as [s1 rest] eqn:Hr. destruct (IH _ _ _ _ Hr) as (H1 & H2 & H3 & H4).
      simplify_eq. split_and!; [done|done|intros j Hj; apply H3; lia|].
      intros hs Hhs. destruct rest as [rest|]; simplify_eq/=. destruct (H4 rest eq_refl) as [Hlen Hh].
      split; [simpl; lia|]. intros [|j] h Hj Hlt; simplify_eq/=.
      rewrite Nat.add_succ_r. by apply Hh; [|lia].
    + destruct (po_peek s i) as [s1 [h0|]] eqn:Hpk.
      * destruct (po_peek_spec _ _ _ _ Hpk) as (q' & Hsuf & Hports & Hhd & Hout).
        destruct (peek_heads k (S i) s1) as [s2 rest] eqn:Hr.
        destruct (IH _ _ _ _ Hr) as (H1 & H2 & H3 & H4). simplify_eq.
        assert (trimmed (po_ports s) (po_ports s1)) as Ht by (rewrite Hports; by apply trimmed_insert).
        split_and!; [by etrans|congruence| |].
        { intros j Hj. rewrite H3, Hports by lia. by rewrite list_lookup_insert_ne by lia. }
        intros hs Hhs. destruct rest as [rest|]; simplify_eq/=. destruct (H4 rest eq_refl) as [Hlen Hh].
        split; [simpl; lia|]. intros [|j] h Hj Hlt; simplify_eq/=.
        -- rewrite Nat.add_0_r in *. rewrite H3, Hports, list_lookup_insert_eq by lia.
           destruct q' as [|y q']; simplify_eq/=. by exists q'.
        -- rewrite Nat.add_succ_r. apply (Hh j h Hj). rewrite Hports, length_insert. lia.
      * destruct (po_peek_spec _ _ _ _ Hpk) as (q' & Hsuf & Hports & Hhd & Hout). simplify_eq.
        split_and!; [rewrite Hports; by apply trimmed_insert|done| |done].
        intros j Hj. rewrite Hports. by rewrite list_lookup_insert_ne by lia.
Qed.

Lemma drop_heads_trimmed heads stale s :
  trimmed (po_ports s) (po_ports (drop_heads (P := P) heads stale s)) ∧
  po_out (drop_heads (P := P) heads stale s) = po_out s.
Proof.
  unfold drop_heads. revert s. induction stale as [|i stale IH]; intros s; simpl; [done|].
  destruct (po_drop_spec s i (head_or_null heads i) ap_reason) as [Hp Ho].
  destruct (IH (po_drop s i (head_or_null heads i) ap_reason)) as [Ht Ho']. split; [|congruence].
  etrans; [|done]. rewrite Hp. apply trimmed_alter.
Qed.

(** A pass that discards shrinks the ports. *)
Lemma drop_heads_shrinks heads stale s i x q :
  po_ports s !! i = Some (x :: q) →
  (total (po_ports (drop_heads (P := P) heads (i :: stale) s)) < total (po_ports s))%nat.
Proof.
  intros Hi. destruct (po_drop_spec s i (head_or_null heads i) ap_reason) as [Hp _].
  destruct (drop_heads_trimmed heads stale (po_drop s i (head_or_null heads i) ap_reason)) as [Ht _].
  apply trimmed_total in Ht. rewrite Hp in Ht.
  change (drop_heads heads (i :: stale) s)
    with (drop_heads (P := P) heads stale (po_drop s i (head_or_null heads i) ap_reason)).
  pose proof (total_alter_cons _ _ _ _ Hi). lia.
Qed.

(** Popping the set: every open port's head goes out, in port order. *)
Definition delivered (i : nat) (hs : list (bool * PortDataPtr)) : list (nat * PortDataPtr) :=
  omap (λ jh : nat * (bool * PortDataPtr), match jh with (j, (false, h)) => Some (j, h) | _ => None end) (zip (seq i (length hs)) hs).

Lemma pop_heads_spec hs i s :
  (∀ j h, hs !! j = Some (false, h) → ∃ q, po_ports s !! (i + j)%nat = Some (h :: q)) →
  ∃ s', pop_heads i hs s = (s', true) ∧ po_out s' = po_out s ++ delivered i hs ∧
    (∀ j, (j < i)%nat → po_ports s' !! j = po_ports s !! j) ∧
    (∀ j (c : bool) h, hs !! j = Some (c, h) →
       po_ports s' !! (i + j)%nat =
       if c then po_ports s !! (i + j)%nat else tail <$> (po_ports s !! (i + j)%nat)) ∧
    (∀ j, (i + length hs ≤ j)%nat → po_ports s' !! j = po_ports s !! j).
Proof.
  revert i s. induction hs as [|[c h] hs IH]; intros i s Hq; simpl.
  - exists s. unfold delivered; simpl. rewrite app_nil_r. by split_and!.
  - destruct c.
    + destruct (IH (S i) s) as (s' & Hp & Ho & Hlt & Hin & Hge).
      { intros j h' Hj. destruct (Hq (S j) h' Hj) as [q Hq']. exists q. by replace (S i + j)%nat with (i + S j)%nat by lia. }
      exists s'. split_and!; [done|done|intros j Hj; apply Hlt; lia| |].
      * intros [|j] c' h' Hj; simplify_eq/=.
        -- rewrite Nat.add_0_r. by rewrite Hlt by lia.
        -- rewrite Nat.add_succ_r. by apply Hin with h'.
      * intros j Hj. apply Hge. lia.
    + destruct (Hq 0%nat h eq_refl) as [q Hi]. rewrite Nat.add_0_r in Hi.
      destruct (po_pop_spec _ _ _ _ Hi) as (s1 & -> & Hports & Hout).
      pose proof (lookup_lt_Some _ _ _ Hi) as Hil.
      destruct (IH (S i) s1) as (s' & Hp & Ho & Hlt & Hin & Hge).
      { intros j h' Hj. destruct (Hq (S j) h' Hj) as [q' Hq']. exists q'.
        rewrite Hports, list_lookup_insert_ne by lia. by replace (S i + j)%nat with (i + S j)%nat by lia. }
      exists s'. split_and!; [done| | | |].
      * rewrite Ho, Hout, <-app_assoc. done.
      * intros j Hj. rewrite Hlt, Hports, list_lookup_insert_ne by lia. done.
      * intros [|j] c' h' Hj; simplify_eq/=.
        -- rewrite Nat.add_0_r. rewrite Hlt, Hports, list_lookup_insert_eq, Hi by lia. done.
        -- rewrite Nat.add_succ_r, (Hin j c' h' Hj). rewrite Hports, list_lookup_insert_ne by lia. done.
      * intros j Hj. rewrite Hge, Hports, list_lookup_insert_ne by lia. done.
Qed.

(** Everything one call can do. *)
Definition gather_outcome (n : nat) (policy : P) s s' (ok : bool) : Prop :=
  if ok then
    ∃ hs sp, length hs = n ∧ forallb fst hs = false ∧ ap_aligned policy hs.*2 = true ∧
      trimmed (po_ports s) sp ∧ po_out s' = po_out s ++ delivered 0 hs ∧
      (∀ i h, hs !! i = Some (false, h) → ∃ q, sp !! i = Some (h :: q) ∧ po_ports s' !! i = Some q) ∧
      (∀ i h, hs !! i = Some (true, h) → po_ports s' !! i = sp !! i)
  else trimmed (po_ports s) (po_ports s') ∧ po_out s' = po_out s.

(** A closed port contributes a null head. *)
Lemma closed_head_null k i s s' hs j h :
  peek_heads k i s = (s', Some hs) → hs !! j = Some (true, h) → h = None.
Proof.
  revert i s hs j. induction k as [|k IH]; intros i s hs j Hpk Hj; simpl in Hpk; [by simplify_eq|].
  destruct (po_closed s i); [|destruct (po_peek s i) as [s2 [h0|]]];
    try (destruct (peek_heads k (S i) _) as [s3 rest] eqn:Hr; destruct rest as [rest|]);
    simplify_eq/=; destruct j as [|j]; simplify_eq/=; by eauto.
Qed.

Lemma gather_spec fuel n policy s :
  (n ≤ length (po_ports s))%nat →
  (total (po_ports s) < fuel)%nat →
  ∃ s' ok, gatherAligned fuel n policy s = Some (s', ok) ∧ gather_outcome n policy s s' ok.
Proof.
  revert s. induction fuel as [|fuel IH]; intros s Hn Hfuel; [lia|]. cbn [gatherAligned].
  destruct (peek_heads n 0 s) as [s1 r] eqn:Hpk.
  destruct (peek_heads_spec _ _ _ _ _ Hpk) as (Ht & Ho & _ & Hh).
  destruct r as [hs|]; [|by exists s1, false].
  destruct (Hh hs eq_refl) as [Hlen Hheads]. simpl in Hheads.
  destruct (forallb fst hs) eqn:Hall; [by exists s1, false|].
  assert (∀ j h, hs !! j = Some (false, h) → ∃ q, po_ports s1 !! (0 + j)%nat = Some (h :: q)) as Hq.
  { intros j h Hj. apply (Hheads j h Hj). apply lookup_lt_Some in Hj. lia. }
  assert (∀ i p, hs.*2 !! i = Some (Some p) → ∃ q, po_ports s1 !! i = Some (Some p :: q)) as Hhd.
  { intros i p ([c h] & Heq & Hi)%list_lookup_fmap_Some. simpl in Heq. subst h. destruct c.
    - by pose proof (closed_head_null _ _ _ _ _ _ _ Hpk Hi).
    - exact (Hq i _ Hi). }
  destruct (ap_aligned policy hs.*2) eqn:Hal.
  - destruct (pop_heads_spec hs 0 s1 Hq) as (s' & -> & Hout & _ & Hin & _). simpl in Hin.
    exists s', true. split; [done|]. exists hs, (po_ports s1). split_and!; try done; [congruence| |].
    + intros i h Hi. destruct (Hq i h Hi) as [q Hqi]. simpl in Hqi. exists q. split; [done|].
      rewrite (Hin i false h Hi). simpl. by rewrite Hqi.
    + intros i h Hi. by rewrite (Hin i true h Hi).
  - destruct (ap_stale policy hs.*2) as [|i stale] eqn:Hst; [by exists s1, false|].
    destruct (ap_stale_valid policy hs.*2 i) as [p Hp]; [rewrite Hst; set_solver|].
    destruct (Hhd i p Hp) as [q Hqi].
    destruct (drop_heads_trimmed hs.*2 (i :: stale) s1) as [Ht2 Ho2].
    pose proof (drop_heads_shrinks hs.*2 stale s1 i _ _ Hqi) as Hsh.
    pose proof (trimmed_total _ _ Ht) as Hle.
    set (s2 := drop_heads hs.*2 (i :: stale) s1) in *.
    assert (trimmed (po_ports s) (po_ports s2)) as Ht12 by (by etrans).
    destruct (IH s2) as (s' & ok & Hg & Hout); [destruct Ht12; lia|lia|].
    exists s', ok. split; [done|]. unfold gather_outcome in *. destruct ok.
    + destruct Hout as (hs' & sp & H1 & H2 & H3 & H4 & H5 & H6 & H7).
      exists hs', sp. split_and!; try done; [by etrans|congruence].
    + destruct Hout as [H1 H2]. split; [by etrans|congruence].
Qed.
End GatherFacts.

(** ** Ports as lists *)

Section ListPorts.
Context `{CppTypes}.

(** Plain queues, with the packets a coordinated drop is pending for. *)
Record ListPorts := mkLP {
  lp_ports : list (list PortDataPtr);
  lp_pending : nat → PortDataPtr → bool;
  lp_closed : list bool;
  lp_out : list (nat * PortDataPtr);
  lp_dropped : list (nat * PortDataPtr * string);
}.

Fixpoint skip_pending (f : PortDataPtr → bool) (q : list PortDataPtr) : list PortDataPtr :=
  match q with [] => [] | x :: q' => if f x then skip_pending f q' else q end.

Definition lp_set (s : ListPorts) (ports : list (list PortDataPtr)) : ListPorts :=
  mkLP ports (lp_pending s) (lp_closed s) (lp_out s) (lp_dropped s).

#[global] Instance list_ports_ops : PortOps ListPorts := {
  po_peek s i :=
    let q' := skip_pending (lp_pending s i) (lp_ports s !!! i) in
    (lp_set s (<[i := q']> (lp_ports s)), head q');
  po_pop s i :=
    match lp_ports s !! i with
    | Some (x :: q) =>
        (mkLP (<[i := q]> (lp_ports s)) (lp_pending s) (lp_closed s) (lp_out s ++ [(i, x)]) (lp_dropped s), true)
    | _ => (s, false)
    end;
  po_drop s i h r :=
    mkLP (alter tail i (lp_ports s)) (lp_pending s) (lp_closed s) (lp_out s) (lp_dropped s ++ [(i, h, r)]);
  po_closed s i := default false (lp_closed s !! i);
}.

Lemma skip_pending_suffix f q : skip_pending f q `suffix_of` q.
Proof.
  induction q as [|x q IH]; simpl; [done|]. destruct (f x); [|done]. by apply suffix_cons_r.
Qed.

#[global] Instance list_ports_laws : PortLaws ListPorts.
Proof.
  refine {| po_ports := lp_ports; po_out := lp_out |}; simpl.
  - intros s i s' r [= <- <-]. eexists. split_and!; [apply skip_pending_suffix|done|done|done].
  - intros s i x q Hi. rewrite Hi. by eexists.
  - done.
Defined.

(** *** Frame-id alignment of increasing streams *)

(** Each port's frames carry increasing, assigned ids. *)
Definition increasing (q : list PortDataPtr) : Prop :=
  StronglySorted (λ a b, headId a < headId b) q ∧ ∀ h, h ∈ q → 0 < headId h.

Definition has_id (c : FrameId) (q : list PortDataPtr) : Prop := ∃ h, h ∈ q ∧ headId h = c.

Definition all_open (s : ListPorts) : Prop :=
  (∀ i, po_closed s i = false) ∧ (∀ i h, lp_pending s i h = false).

Lemma skip_none f q : (∀ h, f h = false) → skip_pending f q = q.
Proof. intros Hf. destruct q as [|x q]; simpl; [done|]. by rewrite Hf. Qed.

(** With nothing closed or pending and every port non-empty, peeking reads the heads. *)
Lemma peek_all_open k i s : all_open s → (i + k ≤ length (lp_ports s))%nat →
  (∀ j q, (i ≤ j < i + k)%nat → lp_ports s !! j = Some q → q ≠ []) →
  ∃ hs, peek_heads k i s = (s, Some hs) ∧ length hs = k ∧
    ∀ j ch, hs !! j = Some ch → ∃ h q, ch = (false, h) ∧ lp_ports s !! (i + j)%nat = Some (h :: q).
Proof.
  intros [Hcl Hpd]. revert i. induction k as [|k IH]; intros i Hlen Hne; simpl.
  - eexists. split_and!; [done|done|]. by intros j ch Hj.
  - pose proof (Hcl i) as Hci. simpl in Hci. rewrite Hci.
    destruct (lookup_lt_is_Some_2 (lp_ports s) i) as [q Hq]; [lia|].
    rewrite (list_lookup_total_correct _ _ _ Hq), skip_none by done.
    rewrite list_insert_id by done. replace (lp_set s (lp_ports s)) with s by (by destruct s).
    destruct q as [|x q]; [by exfalso; eapply Hne; [|done|done]; lia|]. simpl.
    destruct (IH (S i)) as (hs & -> & Hl & Hh); [lia|intros j q' Hj; apply Hne; lia|].
    simpl. eexists. split_and!; [done|simpl; lia|]. intros [|j] ch Hj; simplify_eq/=.
    + rewrite Nat.add_0_r. by exists x, q.
    + destruct (Hh j ch Hj) as (h & q' & -> & Hq'). exists h, q'. by rewrite Nat.add_succ_r.
Qed.

Lemma increasing_head x q h : increasing (x :: q) → h ∈ x :: q → headId x ≤ headId h.
Proof.
  intros [Hs _] Hh. apply elem_of_cons in Hh as [->|Hh]; [lia|].
  apply StronglySorted_inv in Hs as [_ Hf]. rewrite Forall_forall in Hf. specialize (Hf h Hh). lia.
Qed.

Lemma increasing_tail x q : increasing (x :: q) → increasing q.
Proof. intros [Hs Hp]. apply StronglySorted_inv in Hs as [Hs _]. split; [done|]. intros h Hh. apply Hp. set_solver. Qed.

(** The ports still to be aligned on the least common id [c]. *)
Record converging (c : FrameId) (s : ListPorts) : Prop := {
  cv_open : all_open s;
  cv_inc : ∀ i q, lp_ports s !! i = Some q → increasing q;
  cv_has : ∀ i q, lp_ports s !! i = Some q → has_id c q;
  cv_least : ∀ c', (∀ i q, lp_ports s !! i = Some q → has_id c' q) → c ≤ c';
}.

Lemma drop_heads_ports heads stale s i :
  NoDup stale →
  lp_ports (drop_heads (P := FrameIdPolicy) heads stale s) !! i =
  (if decide (i ∈ stale) then tail <$> (lp_ports s !! i) else lp_ports s !! i) ∧
  lp_pending (drop_heads (P := FrameIdPolicy) heads stale s) = lp_pending s ∧
  lp_closed (drop_heads (P := FrameIdPolicy) heads stale s) = lp_closed s ∧
  lp_out (drop_heads (P := FrameIdPolicy) heads stale s) = lp_out s ∧
  length (lp_ports (drop_heads (P := FrameIdPolicy) heads stale s)) = length (lp_ports s).
Proof.
  unfold drop_heads. revert s. induction stale as [|j stale IH]; intros s Hnd; simpl.
  - done.
  - apply NoDup_cons in Hnd as [Hj Hnd].
    destruct (IH (mkLP (alter tail j (lp_ports s)) (lp_pending s) (lp_closed s) (lp_out s)
                   (lp_dropped s ++ [(j, head_or_null heads j, "frame alignment drop")])) Hnd)
      as (H1 & H2 & H3 & H4 & H5). simpl in *.
    split_and!; [|done|done|done|by rewrite H5, length_alter]. rewrite H1.
    destruct (decide (i = j)) as [->|Hne].
    + rewrite decide_False by done. rewrite decide_True by set_solver. by rewrite list_lookup_alter_eq.
    + rewrite list_lookup_alter_ne by done. destruct (decide (i ∈ stale)).
      * by rewrite decide_True by set_solver.
      * by rewrite decide_False by set_solver.
Qed.

Lemma delivered_open hs i : (∀ j ch, hs !! j = Some ch → fst ch = false) →
  delivered i hs = zip (seq i (length hs)) hs.*2.
Proof.
  unfold delivered. revert i. induction hs as [|[c h] hs IH]; intros i Hf; simpl; [done|].
  pose proof (Hf 0%nat (c, h) eq_refl) as Hc. simpl in Hc. subst c. simpl. f_equal.
  apply IH. intros j ch Hj. exact (Hf (S j) ch Hj).
Qed.

Lemma frameId_stale_nodup heads : NoDup (frameId_stale heads).
Proof. apply NoDup_filter, NoDup_seq. Qed.

(** What a successful gather on [c] leaves: one frame [c] per port goes out, the
    older ones before it are gone, the newer ones stay. *)
Definition aligned_on (c : FrameId) (s s' : ListPorts) : Prop :=
  ∃ hs, length hs = length (lp_ports s) ∧ lp_out s' = lp_out s ++ zip (seq 0 (length hs)) hs ∧
  ∀ i q, lp_ports s !! i = Some q →
    ∃ pre h post, q = pre ++ h :: post ∧ hs !! i = Some h ∧ headId h = c ∧
      (∀ x, x ∈ pre → headId x < c) ∧ lp_ports s' !! i = Some post.

(** Facts about one pass over converging ports. *)
Section Pass.
Context (c : FrameId) (s : ListPorts) (hs : list (bool * PortDataPtr)) (C : converging c s).
Context (Hlen : length hs = length (lp_ports s)).
Context (Hh : ∀ j ch, hs !! j = Some ch → ∃ h q, ch = (false, h) ∧ lp_ports s !! j = Some (h :: q)).

Lemma pass_head i q : lp_ports s !! i = Some q → ∃ h q', q = h :: q' ∧ hs !! i = Some (false, h).
Proof using Hlen Hh.
  intros Hq. destruct (lookup_lt_is_Some_2 hs i) as [ch Hch]; [apply lookup_lt_Some in Hq; lia|].
  destruct (Hh i ch Hch) as (h & q' & -> & Hq'). exists h, q'. split; [congruence|done].
Qed.

Lemma pass_elem h : h ∈ hs.*2 ↔ ∃ i q, lp_ports s !! i = Some (h :: q).
Proof using Hlen Hh.
  split.
  - intros ([ch h'] & -> & Hin)%list_elem_of_fmap. apply list_elem_of_lookup in Hin as [i Hi].
    destruct (Hh i _ Hi) as (h & q & [= -> ->] & Hq). by exists i, q.
  - intros (i & q & Hq). destruct (pass_head i _ Hq) as (h' & q' & [= -> ->] & Hi).
    apply list_elem_of_fmap. exists (false, h'). split; [done|]. by apply list_elem_of_lookup_2 with i.
Qed.

(** No head is newer than the common frame. *)
Lemma pass_head_le h : h ∈ hs.*2 → 0 < headId h ≤ c.
Proof using C Hlen Hh.
  intros (i & q & Hq)%pass_elem. pose proof (cv_inc _ _ C i _ Hq) as Hinc.
  destruct (cv_has _ _ C i _ Hq) as (x & Hx & <-). split; [apply Hinc; set_solver|].
  by eapply increasing_head.
Qed.

(** Aligned heads are exactly the least common frame. *)
Lemma pass_aligned : frameId_aligned hs.*2 = true → ∀ h, h ∈ hs.*2 → headId h = c.
Proof using C Hlen Hh.
  rewrite frameId_aligned_true. intros Hal h Hin.
  assert (∀ h', h' ∈ hs.*2 → headId h' = headId h) as Hsame.
  { intros h' Hin'. pose proof (pass_head_le _ Hin). pose proof (pass_head_le _ Hin').
    unfold k_invalid_frame_id in Hal. destruct (Hal h Hin), (Hal h' Hin'); lia. }
  apply Z.le_antisymm; [by apply pass_head_le|]. apply (cv_least _ _ C).
  intros i q Hq. destruct (pass_head i q Hq) as (h' & q' & -> & Hi).
  exists h'. split; [set_solver|]. apply Hsame, pass_elem. by exists i, q'.
Qed.

Context (Hne : lp_ports s ≠ []).

Lemma pass_newest_le : newestId hs.*2 ≤ c.
Proof using C Hlen Hh Hne.
  unfold newestId. destruct (foldl_max_attained headId hs.*2 k_invalid_frame_id) as [->|(h & Hin & ->)].
  - destruct (lp_ports s) as [|q qs] eqn:Hq; [done|].
    assert (lp_ports s !! 0%nat = Some q) as H0 by (by rewrite Hq).
    destruct (cv_has _ _ C 0%nat q H0) as (h & Hh' & <-).
    pose proof (proj2 (cv_inc _ _ C 0%nat q H0) h Hh'). unfold k_invalid_frame_id. lia.
  - apply pass_head_le, Hin.
Qed.

(** Discarding the stale heads keeps the ports converging on the same frame. *)
Lemma pass_drop : converging c (drop_heads (P := FrameIdPolicy) hs.*2 (frameId_stale hs.*2) s) ∧
  ∀ i q, lp_ports s !! i = Some q →
    ∃ pre q', q = pre ++ q' ∧ (∀ x, x ∈ pre → headId x < c) ∧
      lp_ports (drop_heads (P := FrameIdPolicy) hs.*2 (frameId_stale hs.*2) s) !! i = Some q'.
Proof using C Hlen Hh Hne.
  set (s2 := drop_heads hs.*2 (frameId_stale hs.*2) s).
  pose proof (λ i, drop_heads_ports hs.*2 (frameId_stale hs.*2) s i (frameId_stale_nodup _)) as Hd.
  fold s2 in Hd. pose proof pass_newest_le as Hnew.
  assert (∀ i q, lp_ports s !! i = Some q → ∃ pre q', q = pre ++ q' ∧
            (∀ x, x ∈ pre → headId x < c) ∧ lp_ports s2 !! i = Some q') as Hports.
  { intros i q Hq. destruct (Hd i) as (Hi & _). destruct (decide (i ∈ frameId_stale hs.*2)) as [Hst|Hst].
    - apply elem_of_frameId_stale in Hst as (h & Hhi & _ & Hlt). destruct (pass_head i q Hq) as (h' & q' & -> & Hi').
      assert (h' = h) as -> by (rewrite list_lookup_fmap, Hi' in Hhi; by simplify_eq/=).
      exists [h], q'. split_and!; [done|intros x ->%list_elem_of_singleton; lia|]. by rewrite Hi, Hq.
    - exists [], q. split_and!; [done|by intros x ?%not_elem_of_nil|by rewrite Hi]. }
  assert (∀ i q', lp_ports s2 !! i = Some q' → ∃ q, lp_ports s !! i = Some q) as Hback.
  { intros i q' Hi. apply lookup_lt_is_Some_2. destruct (Hd i) as (_ & _ & _ & _ & <-). by eapply lookup_lt_Some. }
  split; [|done]. constructor.
  - destruct (cv_open _ _ C) as [Hcl Hpd]. destruct (Hd 0%nat) as (_ & Hp & Hc & _).
    split; [|by rewrite Hp]. intros i. simpl. rewrite Hc. apply Hcl.
  - intros i q' Hi. destruct (Hback i q' Hi) as [q Hq]. destruct (Hports i q Hq) as (pre & q'' & -> & _ & Hi').
    simplify_eq. pose proof (cv_inc _ _ C i _ Hq) as Hinc. clear -Hinc.
    induction pre as [|x pre IH]; [done|]. by eapply IH, increasing_tail.
  - intros i q' Hi. destruct (Hback i q' Hi) as [q Hq]. destruct (Hports i q Hq) as (pre & q'' & -> & Hpre & Hi').
    simplify_eq. destruct (cv_has _ _ C i _ Hq) as (h & Hin & Hid).
    apply elem_of_app in Hin as [Hin|Hin]; [specialize (Hpre h Hin); lia|by exists h].
  - intros c' Hc'. apply (cv_least _ _ C). intros i q Hq.
    destruct (Hports i q Hq) as (pre & q'' & -> & _ & Hi'). destruct (Hc' i q'' Hi') as (h & Hin & Hid).
    exists h. split; [|done]. apply elem_of_app. by right.
Qed.
End Pass.

Lemma gather_converges fuel c s :
  converging c s → lp_ports s ≠ [] → (total (lp_ports s) < fuel)%nat →
  ∃ s', gatherAligned fuel (length (lp_ports s)) mkFrameIdPolicy s = Some (s', true) ∧ aligned_on c s s'.
Proof.
  revert s. induction fuel as [|fuel IH]; intros s C Hne Hfuel; [lia|]. cbn [gatherAligned].
  destruct (peek_all_open (length (lp_ports s)) 0 s (cv_open _ _ C)) as (hs & Hpk & Hlen & Hh); [lia| |].
  { intros j q _ Hq ->. destruct (cv_has _ _ C j _ Hq) as (h & Hin & _). by apply not_elem_of_nil in Hin. }
  simpl in Hh. rewrite Hpk.
  assert (forallb fst hs = false) as ->.
  { destruct hs as [|ch hs']; [by destruct (lp_ports s)|].
    destruct (Hh 0%nat ch eq_refl) as (h & q & -> & _). done. }
  simpl ap_aligned. destruct (frameId_aligned hs.*2) eqn:Hal.
  - destruct (pop_heads_spec hs 0 s) as (s' & Hpop & Hout & _ & Hin & _).
    { intros j h Hj. destruct (Hh j _ Hj) as (h' & q & [= <-] & Hq). by exists q. }
    rewrite Hpop. exists s'. split; [done|]. exists hs.*2. rewrite length_fmap. simpl in *.
    rewrite delivered_open in Hout; [|intros j ch Hj; by destruct (Hh j ch Hj) as (? & ? & -> & _)].
    split_and!; [done|done|]. intros i q Hq. destruct (pass_head s hs Hlen Hh i q Hq) as (h & q' & -> & Hi).
    exists [], h, q'. split_and!; [done|by rewrite list_lookup_fmap, Hi| | |].
    + apply (pass_aligned c s hs C Hlen Hh Hal). apply (pass_elem s hs Hlen Hh). by exists i, q'.
    + by intros x ?%not_elem_of_nil.
    + rewrite (Hin i false h Hi), Hq. done.
  - simpl ap_stale. destruct (pass_drop c s hs C Hlen Hh Hne) as [C2 Hports].
    pose proof (λ i, drop_heads_ports hs.*2 (frameId_stale hs.*2) s i (frameId_stale_nodup _)) as Hd.
    destruct (frameId_stale hs.*2) as [|i0 stale] eqn:Hst.
    { by apply frameId_progress in Hal. }
    set (s2 := drop_heads hs.*2 (i0 :: stale) s) in *.
    destruct (Hd 0%nat) as (_ & _ & _ & Hout2 & Hlen2).
    destruct (proj1 (elem_of_frameId_stale hs.*2 i0)) as (h0 & Hh0 & _); [rewrite Hst; set_solver|].
    apply list_lookup_fmap_Some in Hh0 as (ch & -> & Hi0). destruct (Hh i0 ch Hi0) as (h & q & -> & Hq0).
    pose proof (drop_heads_shrinks (P := FrameIdPolicy) hs.*2 stale s i0 _ _ Hq0) as Hsh. fold s2 in Hsh. simpl in Hsh.
    destruct (IH s2 C2) as (s' & Hg & hs' & Hl' & Ho' & Hr').
    + intros Hnil. rewrite Hnil in Hlen2. by destruct (lp_ports s).
    + lia.
    + rewrite Hlen2 in Hg, Hl'. exists s'. split; [done|]. exists hs'. split_and!; [done|congruence|].
      intros i q1 Hq1. destruct (Hports i q1 Hq1) as (pre & q2 & -> & Hpre & Hq2).
      destruct (Hr' i q2 Hq2) as (pre' & h' & post & -> & Hi' & Hid & Hpre' & Hpost).
      exists (pre ++ pre'), h', post. rewrite <-app_assoc. split_and!; try done.
      intros x [Hx|Hx]%elem_of_app; auto.
Qed.
End ListPorts.

(** ** Claims *)

(** Every policy keeps the progress promise the gather loop is written
    against: heads it does not accept as aligned contain a packet it discards,
    and it only ever discards actual packets (never a null head). *)
Theorem alignment_progress `{CppTypes} (heads : list PortDataPtr) (pol : TimestampPolicy) :
  ts_in_range heads → 0 ≤ tsp_tolerance_us pol →
  (frameId_aligned heads = false → frameId_stale heads ≠ []) ∧
  (stream_aligned heads = false → stream_stale heads ≠ []) ∧
  (ts_aligned pol heads = false → ts_stale pol heads ≠ []) ∧
  (∀ i, i ∈ frameId_stale heads ∨ i ∈ stream_stale heads ∨ i ∈ ts_stale pol heads →
     ∃ p, heads !! i = Some (Some p)).
Proof.
  intros Hr Htol. split_and!; [apply frameId_progress|apply stream_progress|by apply ts_progress|].
  intros i [Hi|[Hi|Hi]].
  - by apply (ap_stale_valid mkFrameIdPolicy).
  - by apply (ap_stale_valid mkStreamFrameIdPolicy).
  - by apply (ap_stale_valid pol).
Qed.

(** The gather loop ends within one pass more than there are waiting packets,
    on any lawful ports and with any of the policies.  If it reports
    success, it delivered exactly one packet from each port that was still open,
    in port order, these packets are aligned under the policy, and each port lost
    only its delivered packet and packets in front of it; otherwise nothing was
    delivered. *)
Theorem gatherAligned_outcome `{CppTypes} {P St : Type}
    `{!AlignPolicy P, !AlignLaws P, !PortOps St, !PortLaws St}
    (fuel n : nat) (policy : P) (s : St) :
  (n ≤ length (po_ports s))%nat →
  (total (po_ports s) < fuel)%nat →
  ∃ s' ok, gatherAligned fuel n policy s = Some (s', ok) ∧
  if ok then
    ∃ hs sp, length hs = n ∧ forallb fst hs = false ∧ ap_aligned policy hs.*2 = true ∧
      trimmed (po_ports s) sp ∧ po_out s' = po_out s ++ delivered 0 hs ∧
      (∀ i h, hs !! i = Some (false, h) → ∃ q, sp !! i = Some (h :: q) ∧ po_ports s' !! i = Some q) ∧
      (∀ i h, hs !! i = Some (true, h) → po_ports s' !! i = sp !! i)
  else trimmed (po_ports s) (po_ports s') ∧ po_out s' = po_out s.
Proof. intros Hn Hfuel. exact (gather_spec fuel n policy s Hn Hfuel). Qed.

(** C34: alignment by frame id loses no pairable frame: on ports whose frames
    carry increasing ids, if some id is present at every port then the loop
    succeeds, delivers at every port the frame with the least common id, discards
    only the frames before it and keeps every later frame. *)
Theorem gatherAligned_least_common `{CppTypes} (fuel : nat) (c : FrameId) (s : ListPorts) :
  all_open s → lp_ports s ≠ [] → (total (lp_ports s) < fuel)%nat →
  (∀ i q, lp_ports s !! i = Some q → increasing q) →
  (∀ i q, lp_ports s !! i = Some q → has_id c q) →
  (∀ c', (∀ i q, lp_ports s !! i = Some q → has_id c' q) → c ≤ c') →
  ∃ s' hs, gatherAligned fuel (length (lp_ports s)) mkFrameIdPolicy s = Some (s', true) ∧
    length hs = length (lp_ports s) ∧ lp_out s' = lp_out s ++ zip (seq 0 (length hs)) hs ∧
    ∀ i q, lp_ports s !! i = Some q →
      ∃ pre h post, q = pre ++ h :: post ∧ hs !! i = Some h ∧ headId h = c ∧
        (∀ x, x ∈ pre → headId x < c) ∧ lp_ports s' !! i = Some post.
Proof.
  intros Ho Hne Hfuel Hinc Hhas Hleast.
  destruct (gather_converges fuel c s) as (s' & Hg & hs & H1 & H2 & H3); [by constructor|done|done|].
  by exists s', hs.
Qed.

Section Examples.

(** Packets that carry integers. *)
Local Instance int_types : CppTypes :=
  {| ty := unit; ty_name _ := "i"; ty_val _ := Z |}.

Definition ex_frame (id : Z) : PortDataPtr := Some (mkPacket id 0 (id * 1000000) []).

(** Port 0 missed frames 3 and 5, port 1 missed frame 2. *)
Definition ex_ports : ListPorts :=
  mkLP [ex_frame <$> [2; 4; 6]; ex_frame <$> [1; 3; 4; 5; 6]] (λ _ _, false) [false; false] [] [].

Lemma ex_ports_total : (total (lp_ports ex_ports) < 9)%nat.
Proof. vm_compute. lia. Qed.

Lemma alignment_progress_witness :
  frameId_stale [ex_frame 2; ex_frame 1] ≠ [].
Proof.
  apply (alignment_progress [ex_frame 2; ex_frame 1] (mkTimestampPolicy 10)); [|simpl; lia|reflexivity].
  intros p Hp. apply list_elem_of_In in Hp. simpl in Hp.
  destruct Hp as [[= <-]|[[= <-]|[]]]; simpl; lia.
Defined.

Lemma gatherAligned_outcome_witness :
  ∃ s' ok, gatherAligned 9 2 mkStreamFrameIdPolicy ex_ports = Some (s', ok).
Proof.
  destruct (gatherAligned_outcome 9 2 mkStreamFrameIdPolicy ex_ports) as (s' & ok & Hg & _);
    [simpl; lia|exact ex_ports_total|].
  exists s', ok. exact Hg.
Defined.

Lemma ex_ports_nth i q : lp_ports ex_ports !! i = Some q →
  q = ex_frame <$> [2; 4; 6] ∨ q = ex_frame <$> [1; 3; 4; 5; 6].
Proof.
  intros Hq. unfold ex_ports in Hq. cbn [lp_ports] in Hq.
  destruct i as [|[|i]]; cbn in Hq; [left|right|discriminate]; by injection Hq as <-.
Qed.

Lemma ex_ports_hyps :
  all_open ex_ports ∧ (∀ i q, lp_ports ex_ports !! i = Some q → increasing q) ∧
  (∀ i q, lp_ports ex_ports !! i = Some q → has_id 4 q) ∧
  (∀ c', (∀ i q, lp_ports ex_ports !! i = Some q → has_id c' q) → 4 ≤ c').
Proof.
  assert (∀ l, StronglySorted Z.lt l → Forall (λ z, 0 < z) l → increasing (ex_frame <$> l)) as Hinc.
  { intros l Hs Hf. split.
    - induction Hs as [|z l Hs IH Hz]; [constructor|]. apply Forall_cons in Hf as [_ Hf].
      simpl. constructor; [by apply IH|]. apply Forall_fmap. eapply Forall_impl; [exact Hz|]. intros z' Hlt. exact Hlt.
    - intros h (z & -> & Hz)%list_elem_of_fmap. rewrite Forall_forall in Hf. by apply Hf. }
  split_and!.
  - split; [|done]. intros i. by destruct i as [|[|i]].
  - intros i q [->| ->]%ex_ports_nth; apply Hinc; repeat constructor; lia.
  - intros i q [->| ->]%ex_ports_nth; exists (ex_frame 4); (split; [|done]);
      apply list_elem_of_fmap; exists 4; (split; [done|]); set_solver.
  - intros c' Hc'. destruct (Hc' 0%nat _ eq_refl) as (h & (z & -> & Hz)%list_elem_of_fmap & Hid).
    destruct (Hc' 1%nat _ eq_refl) as (h' & (z' & -> & Hz')%list_elem_of_fmap & Hid').
    apply list_elem_of_In in Hz, Hz'. simpl in Hz, Hz', Hid, Hid'. lia.
Qed.

Lemma gatherAligned_least_common_witness :
  ∃ s' hs, gatherAligned 9 2 mkFrameIdPolicy ex_ports = Some (s', true) ∧
    lp_out s' = zip (seq 0 (length hs)) hs.
Proof.
  destruct ex_ports_hyps as (H1 & H2 & H3 & H4).
  assert (lp_ports ex_ports ≠ []) as H5 by discriminate.
  destruct (gatherAligned_least_common 9 4 ex_ports H1 H5 ex_ports_total H2 H3 H4)
    as (s' & hs & Hg & _ & Ho & _).
  exists s', hs. split; [exact Hg|exact Ho].
Defined.
End Examples.
