(* ===== verification/SyncCoordinator.v ===== *)
(** * The synchronization coordinator

    [BranchState], [SyncGroup], [SyncCoordinator] and [NodeSyncContext] of
    [src/sync_coordinator.hpp].  Hash maps and sets are [gmap] and [gset]; where
    the code iterates over one, the iteration order is that of the map and no
    theorem depends on it.  Each operation runs under the group's lock, so it is
    one step; callbacks of [reportDrop] are recorded in [co_calls].

    The theorems: a drop reported by one branch reaches every other branch that
    has not passed the frame, and stays in force through any other operations
    (cleanup included) until that branch acknowledges it; the watermark never
    moves back and is the minimum over the branches that have made progress. *)

From S2P Require Import Prelude Packets.
Local Open Scope string_scope.
Local Open Scope list_scope.
Local Open Scope Z_scope.

Notation SyncGroupId := string (only parsing).
Notation BranchId := string (only parsing).

(** ** Data *)

(** src/src/sync_coordinator.hpp:34-66 BranchState *)
Record BranchState := mkBranch {
  b_branch_id : BranchId;
  b_latest_frame : FrameId;
  b_processed_frame : FrameId;
  b_dropped_frames : gset FrameId;
  b_pending_sync_drops : gset FrameId;
  b_active : bool;
}.

(** src/src/sync_coordinator.hpp:46-46 BranchState::BranchState *)
Definition newBranch (id : BranchId) : BranchState :=
  mkBranch id k_invalid_frame_id k_invalid_frame_id ∅ ∅ true.

(** src/src/sync_coordinator.hpp:367-381 SyncGroup (data members) *)
Record SyncGroup := mkGroup {
  g_groupId : SyncGroupId;
  g_branches : gmap BranchId BranchState;
  g_globalDrops : gset FrameId;
  g_dropReasons : gmap FrameId string;
  g_watermark : FrameId;
}.

(** src/src/sync_coordinator.hpp:76-76 SyncGroup::SyncGroup *)
Definition newGroup (id : SyncGroupId) : SyncGroup := mkGroup id ∅ ∅ ∅ k_invalid_frame_id.

Definition set_branches (g : SyncGroup) (bs : gmap BranchId BranchState) : SyncGroup :=
  mkGroup (g_groupId g) bs (g_globalDrops g) (g_dropReasons g) (g_watermark g).

Definition set_pending (b : BranchState) (p : gset FrameId) : BranchState :=
  mkBranch (b_branch_id b) (b_latest_frame b) (b_processed_frame b) (b_dropped_frames b) p (b_active b).

Definition set_dropped (b : BranchState) (d : gset FrameId) : BranchState :=
  mkBranch (b_branch_id b) (b_latest_frame b) (b_processed_frame b) d (b_pending_sync_drops b) (b_active b).

(** ** Operations of a group *)

(** src/src/sync_coordinator.hpp:81-86 SyncGroup::addBranch *)
Definition addBranch (g : SyncGroup) (branch_id : BranchId) : SyncGroup :=
  match g_branches g !! branch_id with
  | Some _ => g
  | None => set_branches g (<[branch_id := newBranch branch_id]> (g_branches g))
  end.

(** src/src/sync_coordinator.hpp:88-95 SyncGroup::removeBranch (the flag set on the state being
    erased is not observable) *)
Definition removeBranch (g : SyncGroup) (branch_id : BranchId) : SyncGroup :=
  set_branches g (delete branch_id (g_branches g)).

(** src/src/sync_coordinator.hpp:97-100 SyncGroup::hasBranch *)
Definition hasBranch (g : SyncGroup) (branch_id : BranchId) : bool :=
  bool_decide (is_Some (g_branches g !! branch_id)).

(** src/src/sync_coordinator.hpp:102-110 SyncGroup::branchIds *)
Definition branchIds (g : SyncGroup) : list BranchId := (map_to_list (g_branches g)).*1.

(** src/src/sync_coordinator.hpp:112-115 SyncGroup::branchCount *)
Definition branchCount (g : SyncGroup) : nat := size (g_branches g).

(** src/src/sync_coordinator.hpp:121-139 SyncGroup::reportFrameReceived *)
Definition reportFrameReceived (g : SyncGroup) (branch_id : BranchId) (frame_id : FrameId)
    : SyncGroup * FrameId :=
  match g_branches g !! branch_id with
  | None => (g, g_watermark g)
  | Some st =>
      let latest := if decide (b_latest_frame st < frame_id) then frame_id else b_latest_frame st in
      let pending := if decide (frame_id ∈ g_globalDrops g)
                     then {[frame_id]} ∪ b_pending_sync_drops st else b_pending_sync_drops st in
      (set_branches g (<[branch_id := mkBranch (b_branch_id st) latest (b_processed_frame st)
                                        (b_dropped_frames st) pending (b_active st)]> (g_branches g)),
       g_watermark g)
  end.

(** src/src/sync_coordinator.hpp:344-351 SyncGroup::updateWatermarkLocked (one branch's progress) *)
Definition effective_processed (st : BranchState) : FrameId :=
  foldr (λ dropped eff,
    if decide (eff < dropped ∨ eff = k_invalid_frame_id) then Z.max eff dropped else eff)
    (b_processed_frame st) (elements (b_dropped_frames st)).

(** src/src/sync_coordinator.hpp:334-364 SyncGroup::updateWatermarkLocked *)
Definition updateWatermarkLocked (g : SyncGroup) : SyncGroup :=
  let new_watermark :=
    foldr (λ kb wm,
      let st := snd kb in
      if b_active st then
        let eff := effective_processed st in
        if decide (eff ≠ k_invalid_frame_id ∧ (wm = k_end_of_stream_frame_id ∨ eff < wm)) then eff else wm
      else wm) k_end_of_stream_frame_id (map_to_list (g_branches g)) in
  if decide (new_watermark ≠ k_end_of_stream_frame_id ∧ g_watermark g < new_watermark)
  then mkGroup (g_groupId g) (g_branches g) (g_globalDrops g) (g_dropReasons g) new_watermark
  else g.

(** src/src/sync_coordinator.hpp:142-156 SyncGroup::reportFrameProcessed *)
Definition reportFrameProcessed (g : SyncGroup) (branch_id : BranchId) (frame_id : FrameId) : SyncGroup :=
  match g_branches g !! branch_id with
  | None => g
  | Some st =>
      let processed := if decide (b_processed_frame st < frame_id) then frame_id else b_processed_frame st in
      updateWatermarkLocked
        (set_branches g (<[branch_id := mkBranch (b_branch_id st) (b_latest_frame st) processed
                             (b_dropped_frames st) (b_pending_sync_drops st) (b_active st)]> (g_branches g)))
  end.

(** The other branches that have not passed the frame. *)
Definition not_passed (frame_id : FrameId) (st : BranchState) : bool :=
  bool_decide (b_processed_frame st < frame_id ∨ b_processed_frame st = k_invalid_frame_id).

Definition mark_drop (branch_id : BranchId) (frame_id : FrameId) (other_id : BranchId) (st : BranchState)
    : BranchState :=
  if decide (other_id ≠ branch_id ∧ not_passed frame_id st = true)
  then set_pending st ({[frame_id]} ∪ b_pending_sync_drops st) else st.

(** src/src/sync_coordinator.hpp:166-197 SyncGroup::reportFrameDropped *)
Definition reportFrameDropped (g : SyncGroup) (branch_id : BranchId) (frame_id : FrameId) (reason : string)
    : SyncGroup * list BranchId :=
  match g_branches g !! branch_id with
  | None => (g, [])
  | Some st =>
      let bs := <[branch_id := set_dropped st ({[frame_id]} ∪ b_dropped_frames st)]> (g_branches g) in
      let affected := (filter (λ kb, kb.1 ≠ branch_id ∧ not_passed frame_id kb.2 = true) (map_to_list bs)).*1 in
      (mkGroup (g_groupId g) (map_imap (λ k b, Some (mark_drop branch_id frame_id k b)) bs)
         ({[frame_id]} ∪ g_globalDrops g) (<[frame_id := reason]> (g_dropReasons g)) (g_watermark g),
       affected)
  end.

(** src/src/sync_coordinator.hpp:201-215 SyncGroup::shouldDropFrame *)
Definition shouldDropFrame (g : SyncGroup) (branch_id : BranchId) (frame_id : FrameId) : bool :=
  if decide (frame_id ∈ g_globalDrops g) then true
  else match g_branches g !! branch_id with
       | Some st => bool_decide (frame_id ∈ b_pending_sync_drops st)
       | None => false
       end.

(** src/src/sync_coordinator.hpp:217-227 SyncGroup::getPendingSyncDrops *)
Definition getPendingSyncDrops (g : SyncGroup) (branch_id : BranchId) : gset FrameId :=
  match g_branches g !! branch_id with Some st => b_pending_sync_drops st | None => ∅ end.

(** src/src/sync_coordinator.hpp:229-237 SyncGroup::clearPendingSyncDrop *)
Definition clearPendingSyncDrop (g : SyncGroup) (branch_id : BranchId) (frame_id : FrameId) : SyncGroup :=
  match g_branches g !! branch_id with
  | None => g
  | Some st =>
      set_branches g (<[branch_id := set_dropped (set_pending st (b_pending_sync_drops st ∖ {[frame_id]}))
                                       ({[frame_id]} ∪ b_dropped_frames st)]> (g_branches g))
  end.

(** src/src/sync_coordinator.hpp:239-259 SyncGroup::clearPendingSyncDropsBefore *)
Definition clearPendingSyncDropsBefore (g : SyncGroup) (branch_id : BranchId) (frame_id : FrameId) : SyncGroup :=
  match g_branches g !! branch_id with
  | None => g
  | Some st =>
      let old := filter (λ f, f < frame_id) (b_pending_sync_drops st) in
      set_branches g (<[branch_id := set_dropped (set_pending st (b_pending_sync_drops st ∖ old))
                                       (old ∪ b_dropped_frames st)]> (g_branches g))
  end.

(** src/src/sync_coordinator.hpp:271-281 SyncGroup::minLatestFrame *)
Definition minLatestFrame (g : SyncGroup) : FrameId :=
  foldr (λ kb m, if decide (b_active (snd kb) = true ∧ b_latest_frame (snd kb) < m)
                 then b_latest_frame (snd kb) else m)
    k_end_of_stream_frame_id (map_to_list (g_branches g)).

(** src/src/sync_coordinator.hpp:285-307 SyncGroup::cleanup *)
Definition cleanup (g : SyncGroup) : SyncGroup :=
  let kept := filter (λ f, ¬ f < g_watermark g) (g_globalDrops g) in
  let erased := g_globalDrops g ∖ kept in
  mkGroup (g_groupId g)
    ((λ st, set_dropped st (filter (λ f, ¬ f < g_watermark g) (b_dropped_frames st))) <$> g_branches g)
    kept (filter (λ fr, fr.1 ∉ erased) (g_dropReasons g)) (g_watermark g).

(** src/src/sync_coordinator.hpp:313-331 SyncGroup::toString *)
Definition group_toString (g : SyncGroup) : string :=
  "SyncGroup{id=" +:+ g_groupId g +:+ ", branches=" +:+ pretty (size (g_branches g))
  +:+ ", watermark=" +:+ pretty (g_watermark g)
  +:+ ", globalDrops=" +:+ pretty (size (g_globalDrops g))
  +:+ foldr (λ kb acc,
        ", " +:+ fst kb +:+ ":(latest=" +:+ pretty (b_latest_frame (snd kb))
        +:+ ", processed=" +:+ pretty (b_processed_frame (snd kb))
        +:+ ", pending=" +:+ pretty (size (b_pending_sync_drops (snd kb))) +:+ ")" +:+ acc)
      "" (map_to_list (g_branches g)) +:+ "}".

(** ** The coordinator *)

(** A call of the coordinated-drop callback. *)
Record DropCall := mkDropCall {
  dc_group : SyncGroupId;
  dc_branch : BranchId;
  dc_frame : FrameId;
  dc_reason : string;
}.

(** src/src/sync_coordinator.hpp:643-652 SyncCoordinator (data members) *)
Record Coordinator := mkCoord {
  co_groups : gmap SyncGroupId SyncGroup;
  co_callback : bool;
  co_calls : list DropCall;
}.

Definition newCoordinator : Coordinator := mkCoord ∅ false [].

Definition set_group (c : Coordinator) (id : SyncGroupId) (g : SyncGroup) : Coordinator :=
  mkCoord (<[id := g]> (co_groups c)) (co_callback c) (co_calls c).

(** src/src/sync_coordinator.hpp:423-438 SyncCoordinator::createSyncGroup *)
Definition createSyncGroup (c : Coordinator) (group_id : SyncGroupId) (branch_ids : list BranchId)
    : Coordinator * bool :=
  match co_groups c !! group_id with
  | Some _ => (c, false)
  | None => (set_group c group_id (foldl addBranch (newGroup group_id) branch_ids), true)
  end.

(** src/src/sync_coordinator.hpp:440-443 SyncCoordinator::removeSyncGroup *)
Definition removeSyncGroup (c : Coordinator) (group_id : SyncGroupId) : Coordinator :=
  mkCoord (delete group_id (co_groups c)) (co_callback c) (co_calls c).

(** src/src/sync_coordinator.hpp:445-448 SyncCoordinator::hasSyncGroup *)
Definition hasSyncGroup (c : Coordinator) (group_id : SyncGroupId) : bool :=
  bool_decide (is_Some (co_groups c !! group_id)).

(** src/src/sync_coordinator.hpp:456-464 SyncCoordinator::syncGroupIds *)
Definition syncGroupIds (c : Coordinator) : list SyncGroupId := (map_to_list (co_groups c)).*1.

(** src/src/sync_coordinator.hpp:468-478 SyncCoordinator::addBranch *)
Definition co_addBranch (c : Coordinator) (group_id : SyncGroupId) (branch_id : BranchId) : Coordinator * bool :=
  match co_groups c !! group_id with
  | None => (c, false)
  | Some g => (set_group c group_id (addBranch g branch_id), true)
  end.

(** src/src/sync_coordinator.hpp:480-487 SyncCoordinator::removeBranch *)
Definition co_removeBranch (c : Coordinator) (group_id : SyncGroupId) (branch_id : BranchId) : Coordinator :=
  match co_groups c !! group_id with
  | None => c
  | Some g => set_group c group_id (removeBranch g branch_id)
  end.

(** src/src/sync_coordinator.hpp:492-502 SyncCoordinator::reportFrameReceived *)
Definition co_reportFrameReceived (c : Coordinator) (group_id : SyncGroupId) (branch_id : BranchId)
    (frame_id : FrameId) : Coordinator * FrameId :=
  match co_groups c !! group_id with
  | None => (c, k_invalid_frame_id)
  | Some g => let (g', w) := reportFrameReceived g branch_id frame_id in (set_group c group_id g', w)
  end.

(** src/src/sync_coordinator.hpp:505-513 SyncCoordinator::reportFrameProcessed *)
Definition co_reportFrameProcessed (c : Coordinator) (group_id : SyncGroupId) (branch_id : BranchId)
    (frame_id : FrameId) : Coordinator :=
  match co_groups c !! group_id with
  | None => c
  | Some g => set_group c group_id (reportFrameProcessed g branch_id frame_id)
  end.

(** src/src/sync_coordinator.hpp:526-552 SyncCoordinator::reportDrop *)
Definition co_reportDrop (c : Coordinator) (group_id : SyncGroupId) (branch_id : BranchId)
    (frame_id : FrameId) (reason : string) : Coordinator :=
  match co_groups c !! group_id with
  | None => c
  | Some g =>
      let (g', affected) := reportFrameDropped g branch_id frame_id reason in
      let c' := set_group c group_id g' in
      if co_callback c' then
        let drop_reason := "Sync drop from " +:+ branch_id +:+ ": " +:+ reason in
        mkCoord (co_groups c') (co_callback c')
          (co_calls c' ++ ((λ b, mkDropCall group_id b frame_id drop_reason) <$> affected))
      else c'
  end.

(** src/src/sync_coordinator.hpp:556-567 SyncCoordinator::shouldDropFrame *)
Definition co_shouldDropFrame (c : Coordinator) (group_id : SyncGroupId) (branch_id : BranchId)
    (frame_id : FrameId) : bool :=
  match co_groups c !! group_id with
  | None => false
  | Some g => shouldDropFrame g branch_id frame_id
  end.

(** src/src/sync_coordinator.hpp:569-580 SyncCoordinator::getPendingSyncDrops *)
Definition co_getPendingSyncDrops (c : Coordinator) (group_id : SyncGroupId) (branch_id : BranchId)
    : gset FrameId :=
  match co_groups c !! group_id with
  | None => ∅
  | Some g => getPendingSyncDrops g branch_id
  end.

(** src/src/sync_coordinator.hpp:582-590 SyncCoordinator::clearPendingSyncDrop *)
Definition co_clearPendingSyncDrop (c : Coordinator) (group_id : SyncGroupId) (branch_id : BranchId)
    (frame_id : FrameId) : Coordinator :=
  match co_groups c !! group_id with
  | None => c
  | Some g => set_group c group_id (clearPendingSyncDrop g branch_id frame_id)
  end.

(** src/src/sync_coordinator.hpp:594-603 SyncCoordinator::getWatermark *)
Definition getWatermark (c : Coordinator) (group_id : SyncGroupId) : FrameId :=
  match co_groups c !! group_id with
  | None => k_invalid_frame_id
  | Some g => g_watermark g
  end.

(** src/src/sync_coordinator.hpp:607-609 SyncCoordinator::setDropCallback *)
Definition co_setDropCallback (c : Coordinator) (installed : bool) : Coordinator :=
  mkCoord (co_groups c) installed (co_calls c).

(** src/src/sync_coordinator.hpp:613-619 SyncCoordinator::cleanup *)
Definition co_cleanup (c : Coordinator) : Coordinator :=
  mkCoord (cleanup <$> co_groups c) (co_callback c) (co_calls c).

(** src/src/sync_coordinator.hpp:622-625 SyncCoordinator::reset *)
Definition co_reset (c : Coordinator) : Coordinator := mkCoord ∅ (co_callback c) (co_calls c).

(** src/src/sync_coordinator.hpp:629-641 SyncCoordinator::toString *)
Definition coordinator_toString (c : Coordinator) : string :=
  "SyncCoordinator{groups=" +:+ pretty (size (co_groups c)) +:+ ":
" +:+ foldr (λ kg acc, "  " +:+ group_toString (snd kg) +:+ "
" +:+ acc) "" (map_to_list (co_groups c)) +:+ "}".

(** src/src/sync_coordinator.hpp:659-708 NodeSyncContext; a null coordinator is [false] *)
Record NodeSyncContext := mkNodeSync {
  ns_coordinator : bool;
  ns_groupId : SyncGroupId;
  ns_branchId : BranchId;
}.

(** src/src/sync_coordinator.hpp:667-671 NodeSyncContext::onFrameReceived *)
Definition onFrameReceived (n : NodeSyncContext) (c : Coordinator) (frame_id : FrameId) : Coordinator :=
  if ns_coordinator n then fst (co_reportFrameReceived c (ns_groupId n) (ns_branchId n) frame_id) else c.

(** src/src/sync_coordinator.hpp:674-678 NodeSyncContext::onFrameProcessed *)
Definition onFrameProcessed (n : NodeSyncContext) (c : Coordinator) (frame_id : FrameId) : Coordinator :=
  if ns_coordinator n then co_reportFrameProcessed c (ns_groupId n) (ns_branchId n) frame_id else c.

(** src/src/sync_coordinator.hpp:681-685 NodeSyncContext::onFrameDropped *)
Definition onFrameDropped (n : NodeSyncContext) (c : Coordinator) (frame_id : FrameId) (reason : string)
    : Coordinator :=
  if ns_coordinator n then co_reportDrop c (ns_groupId n) (ns_branchId n) frame_id reason else c.

(** src/src/sync_coordinator.hpp:687-692 NodeSyncContext::shouldSkipFrame *)
Definition shouldSkipFrame (n : NodeSyncContext) (c : Coordinator) (frame_id : FrameId) : bool :=
  if ns_coordinator n then co_shouldDropFrame c (ns_groupId n) (ns_branchId n) frame_id else false.

(** src/src/sync_coordinator.hpp:695-699 NodeSyncContext::acknowledgeSyncDrop *)
Definition acknowledgeSyncDrop (n : NodeSyncContext) (c : Coordinator) (frame_id : FrameId) : Coordinator :=
  if ns_coordinator n then co_clearPendingSyncDrop c (ns_groupId n) (ns_branchId n) frame_id else c.

(** ** Operations as steps *)

Inductive group_op :=
  | OAdd (b : BranchId) | ORemove (b : BranchId)
  | OReceived (b : BranchId) (f : FrameId) | OProcessed (b : BranchId) (f : FrameId)
  | ODropped (b : BranchId) (f : FrameId) (reason : string)
  | OClear (b : BranchId) (f : FrameId) | OClearBefore (b : BranchId) (f : FrameId)
  | OCleanup.

Definition group_step (g : SyncGroup) (op : group_op) : SyncGroup :=
  match op with
  | OAdd b => addBranch g b
  | ORemove b => removeBranch g b
  | OReceived b f => fst (reportFrameReceived g b f)
  | OProcessed b f => reportFrameProcessed g b f
  | ODropped b f r => fst (reportFrameDropped g b f r)
  | OClear b f => clearPendingSyncDrop g b f
  | OClearBefore b f => clearPendingSyncDropsBefore g b f
  | OCleanup => cleanup g
  end.

(** [op] makes branch [b] forget that it has to drop frame [f]. *)
Definition acknowledges (b : BranchId) (f : FrameId) (op : group_op) : Prop :=
  match op with
  | ORemove b' => b' = b
  | OClear b' f' => b' = b ∧ f' = f
  | OClearBefore b' f' => b' = b ∧ f < f'
  | _ => False
  end.

(** ** Lemmas *)

Definition pending_in (g : SyncGroup) (b : BranchId) (f : FrameId) : Prop :=
  ∃ st, g_branches g !! b = Some st ∧ f ∈ b_pending_sync_drops st.

Lemma pending_shouldDrop g b f : pending_in g b f → shouldDropFrame g b f = true.
Proof.
  intros (st & Hst & Hf). unfold shouldDropFrame. rewrite Hst. case_decide; [done|].
  by apply bool_decide_eq_true.
Qed.

(** Replacing a branch's state without shrinking its pending set. *)
Lemma pending_insert g b f b' st st' :
  g_branches g !! b' = Some st → (b' = b → b_pending_sync_drops st ⊆ b_pending_sync_drops st' ∨ f ∈ b_pending_sync_drops st') →
  pending_in g b f → pending_in (set_branches g (<[b' := st']> (g_branches g))) b f.
Proof.
  intros Hb' Hsub (st0 & Hst0 & Hf). unfold pending_in; simpl.
  destruct (decide (b' = b)) as [->|Hne].
  - exists st'. rewrite lookup_insert_eq. simplify_eq. split; [done|]. destruct (Hsub eq_refl); set_solver.
  - exists st0. by rewrite lookup_insert_ne.
Qed.

Lemma updateWatermark_branches g :
  g_branches (updateWatermarkLocked g) = g_branches g ∧
  g_globalDrops (updateWatermarkLocked g) = g_globalDrops g ∧
  g_dropReasons (updateWatermarkLocked g) = g_dropReasons g ∧
  g_watermark g ≤ g_watermark (updateWatermarkLocked g).
Proof. unfold updateWatermarkLocked. case_decide; simpl; split_and!; done || lia. Qed.

Lemma lookup_mark_drop b f (bs : gmap BranchId BranchState) k :
  map_imap (λ k st, Some (mark_drop b f k st)) bs !! k = mark_drop b f k <$> bs !! k.
Proof. rewrite map_lookup_imap. by destruct (bs !! k). Qed.

Lemma step_keeps_pending g op b f :
  pending_in g b f → ¬ acknowledges b f op → pending_in (group_step g op) b f.
Proof.
  intros Hp Hack. destruct op as [b'|b'|b' f'|b' f'|b' f' r|b' f'|b' f'|]; simpl in *.
  - unfold addBranch. destruct (g_branches g !! b') eqn:Hb'; [done|].
    destruct Hp as (st & Hst & Hf). exists st. simpl. rewrite lookup_insert_ne by congruence. done.
  - destruct Hp as (st & Hst & Hf). exists st. simpl. by rewrite lookup_delete_ne by congruence.
  - unfold reportFrameReceived. destruct (g_branches g !! b') as [st'|] eqn:Hb'; [|done]. simpl.
    eapply pending_insert; [done| |done]. intros _. left. simpl. case_decide; set_solver.
  - unfold reportFrameProcessed. destruct (g_branches g !! b') as [st'|] eqn:Hb'; [|done].
    unfold pending_in. rewrite (proj1 (updateWatermark_branches _)).
    eapply pending_insert; [done| |done]. intros _. by left.
  - unfold reportFrameDropped. destruct (g_branches g !! b') as [st'|] eqn:Hb'; [|done]. simpl.
    destruct Hp as (st & Hst & Hf). unfold pending_in; simpl. rewrite lookup_mark_drop.
    destruct (decide (b' = b)) as [->|Hne].
    + rewrite lookup_insert_eq. simplify_eq. eexists; split; [done|]. unfold mark_drop. case_decide; set_solver.
    + rewrite lookup_insert_ne, Hst by done. eexists; split; [done|]. unfold mark_drop. case_decide; set_solver.
  - unfold clearPendingSyncDrop. destruct (g_branches g !! b') as [st'|] eqn:Hb'; [|done].
    eapply pending_insert; [done| |done]. intros ->. right. simpl.
    destruct Hp as (st & Hst & Hf). simplify_eq. set_solver.
  - unfold clearPendingSyncDropsBefore. destruct (g_branches g !! b') as [st'|] eqn:Hb'; [|done].
    eapply pending_insert; [done| |done]. intros ->. right. simpl.
    destruct Hp as (st & Hst & Hf). simplify_eq. rewrite elem_of_difference, elem_of_filter. naive_solver.
  - destruct Hp as (st & Hst & Hf). unfold pending_in, cleanup; simpl. rewrite lookup_fmap, Hst.
    by eexists.
Qed.

Lemma steps_keep_pending ops g b f :
  pending_in g b f → Forall (λ op, ¬ acknowledges b f op) ops → pending_in (foldl group_step g ops) b f.
Proof.
  revert g. induction ops as [|op ops IH]; intros g Hp Hack; simpl; [done|].
  apply Forall_cons in Hack as [H1 H2]. apply IH; [by apply step_keeps_pending|done].
Qed.

(** ** Progress and the watermark *)

Lemma effective_processed_max st :
  effective_processed st = foldr Z.max (b_processed_frame st) (elements (b_dropped_frames st)).
Proof.
  unfold effective_processed. induction (elements (b_dropped_frames st)) as [|d l IH]; simpl; [done|].
  rewrite IH. case_decide; lia.
Qed.

(** A branch has progressed to the greatest frame it processed or dropped. *)
Lemma effective_processed_spec st :
  b_processed_frame st ≤ effective_processed st ∧
  (∀ f, f ∈ b_dropped_frames st → f ≤ effective_processed st) ∧
  (effective_processed st = b_processed_frame st ∨ effective_processed st ∈ b_dropped_frames st).
Proof.
  rewrite effective_processed_max. setoid_rewrite <-elem_of_elements.
  induction (elements (b_dropped_frames st)) as [|d l (IH1 & IH2 & IH3)]; simpl.
  - split_and!; [lia|by intros f ?%not_elem_of_nil|by left].
  - split_and!; [lia| |].
    + intros f [->|Hf]%elem_of_cons; [lia|]. specialize (IH2 f Hf). lia.
    + destruct (Z.max_spec d (foldr Z.max (b_processed_frame st) l)) as [[_ ->]|[_ ->]]; [|right; set_solver].
      destruct IH3 as [->|IH3]; [by left|right; set_solver].
Qed.

(** Frame ids are 64-bit words. *)
Definition frames_ok (g : SyncGroup) : Prop :=
  ∀ k st, g_branches g !! k = Some st → effective_processed st ≤ k_end_of_stream_frame_id.

(** The watermark candidate is the least progress among the branches that have any. *)
Lemma watermark_fold (l : list (BranchId * BranchState)) (r : FrameId) :
  (∀ kb, kb ∈ l → effective_processed kb.2 ≤ k_end_of_stream_frame_id) →
  r = foldr (λ kb wm,
      let st := snd kb in
      if b_active st then
        let eff := effective_processed st in
        if decide (eff ≠ k_invalid_frame_id ∧ (wm = k_end_of_stream_frame_id ∨ eff < wm)) then eff else wm
      else wm) k_end_of_stream_frame_id l →
  (r = k_end_of_stream_frame_id ∨
   ∃ kb, kb ∈ l ∧ b_active kb.2 = true ∧ effective_processed kb.2 = r ∧ r ≠ k_invalid_frame_id) ∧
  (∀ kb, kb ∈ l → b_active kb.2 = true → effective_processed kb.2 ≠ k_invalid_frame_id →
     r ≤ effective_processed kb.2) ∧ r ≤ k_end_of_stream_frame_id.
Proof.
  intros Hle ->. induction l as [|[k st] l IH]; simpl.
  - split_and!; [by left|by intros kb ?%not_elem_of_nil|done].
  - destruct IH as (IH1 & IH2 & IH3); [intros kb Hkb; apply Hle; set_solver|].
    pose proof (Hle (k, st) ltac:(set_solver)) as Hst. simpl in Hst.
    set (wm := foldr _ _ l) in *. destruct (b_active st) eqn:Hact; simpl; [case_decide as Hd|].
    + split_and!; [right; exists (k, st); split_and!; [set_solver|done|done|tauto]| |done].
      intros kb [->|Hkb]%elem_of_cons Ha He; simpl; [lia|]. specialize (IH2 kb Hkb Ha He). lia.
    + split_and!; [destruct IH1 as [->|(kb & Hkb & ?)]; [by left|right; exists kb; set_solver]| |done].
      intros kb [->|Hkb]%elem_of_cons Ha He; simpl in *; [|by apply IH2].
      destruct (decide (effective_processed st < wm)) as [Hlt|]; [|lia]. exfalso. apply Hd. split; [done|by right].
    + split_and!; [destruct IH1 as [->|(kb & Hkb & ?)]; [by left|right; exists kb; set_solver]| |done].
      intros kb [->|Hkb]%elem_of_cons Ha He; simpl in *; [congruence|by apply IH2].
Qed.

Lemma step_watermark_mono g op : g_watermark g ≤ g_watermark (group_step g op).
Proof.
  destruct op as [b'|b'|b' f'|b' f'|b' f' r|b' f'|b' f'|]; simpl; try done.
  - unfold addBranch. by destruct (g_branches g !! b').
  - unfold reportFrameReceived. by destruct (g_branches g !! b').
  - unfold reportFrameProcessed. destruct (g_branches g !! b'); [|done].
    etrans; [|apply updateWatermark_branches]. done.
  - unfold reportFrameDropped. by destruct (g_branches g !! b').
  - unfold clearPendingSyncDrop. by destruct (g_branches g !! b').
  - unfold clearPendingSyncDropsBefore. by destruct (g_branches g !! b').
Qed.

Lemma steps_watermark_mono ops g : g_watermark g ≤ g_watermark (foldl group_step g ops).
Proof.
  revert g. induction ops as [|op ops IH]; intros g; simpl; [done|].
  etrans; [apply step_watermark_mono|apply IH].
Qed.

(** What reporting a drop does. *)
Lemma reportFrameDropped_spec g b f r g' affected st :
  g_branches g !! b = Some st → reportFrameDropped g b f r = (g', affected) →
  (∀ b', b' ∈ affected ↔ b' ≠ b ∧ ∃ st', g_branches g !! b' = Some st' ∧ not_passed f st' = true) ∧
  NoDup affected ∧ f ∈ g_globalDrops g' ∧ g_dropReasons g' !! f = Some r ∧
  (∀ b', b' ∈ affected → pending_in g' b' f) ∧
  dom (g_branches g') = dom (g_branches g) ∧ g_watermark g' = g_watermark g.
Proof.
  intros Hb. unfold reportFrameDropped. rewrite Hb. intros [= <- <-]. simpl.
  set (bs := <[b := _]> (g_branches g)).
  assert (∀ b', b' ∈ (filter (λ kb, kb.1 ≠ b ∧ not_passed f kb.2 = true) (map_to_list bs)).*1 ↔
    b' ≠ b ∧ ∃ st', g_branches g !! b' = Some st' ∧ not_passed f st' = true) as Haff.
  { intros b'. rewrite list_elem_of_fmap. split.
    - intros ([k st'] & -> & [[Hne Hnp] Hin]%list_elem_of_filter). simpl in *.
      apply elem_of_map_to_list in Hin. unfold bs in Hin. rewrite lookup_insert_ne in Hin by done. eauto.
    - intros (Hne & st' & Hst' & Hnp). exists (b', st'). split; [done|]. apply list_elem_of_filter.
      split; [done|]. apply elem_of_map_to_list. unfold bs. by rewrite lookup_insert_ne. }
  split_and!; [done| |set_solver|by rewrite lookup_insert_eq| | |done].
  - eapply sublist_NoDup; [apply (NoDup_fst_map_to_list bs)|apply fmap_sublist, sublist_filter].
  - intros b' (Hne & st' & Hst' & Hnp)%Haff. unfold pending_in; simpl. rewrite lookup_mark_drop.
    unfold bs. rewrite lookup_insert_ne, Hst' by done. eexists; split; [done|].
    unfold mark_drop. rewrite decide_True by done. set_solver.
  - apply set_eq. intros k. rewrite !elem_of_dom, lookup_mark_drop, fmap_is_Some. unfold bs.
    rewrite lookup_insert_is_Some. destruct (decide (b = k)) as [<-|]; [rewrite Hb|]; naive_solver.
Qed.

(** ** Claims *)

(** C36: a drop reported by a registered branch is in force for every branch of
    the group, is returned for exactly the other branches that have not passed
    the frame, and for each of those it stays in force through any further
    operations of the group (receptions, progress, other drops, new branches,
    cleanup) until that branch itself acknowledges it or is removed. *)
Theorem coordinated_drop_persists (g : SyncGroup) (b : BranchId) (f : FrameId) (reason : string)
    (ops : list group_op) (st : BranchState) :
  g_branches g !! b = Some st →
  let '(g', affected) := reportFrameDropped g b f reason in
  (∀ b', shouldDropFrame g' b' f = true) ∧ NoDup affected ∧
  (∀ b', b' ∈ affected ↔ b' ≠ b ∧ ∃ st', g_branches g !! b' = Some st' ∧ not_passed f st' = true) ∧
  (∀ b', b' ∈ affected → Forall (λ op, ¬ acknowledges b' f op) ops →
     shouldDropFrame (foldl group_step g' ops) b' f = true).
Proof.
  intros Hb. destruct (reportFrameDropped g b f reason) as [g' affected] eqn:Hr.
  destruct (reportFrameDropped_spec _ _ _ _ _ _ _ Hb Hr) as (Haff & Hnd & Hglob & _ & Hpend & _).
  split_and!; [|done|done|].
  - intros b'. unfold shouldDropFrame. by rewrite decide_True.
  - intros b' Hb' Hack. apply pending_shouldDrop, steps_keep_pending; [by apply Hpend|done].
Qed.

(** Two branches; the first processes frame 5, drops frame 6 and the group is
    cleaned up. *)
Definition ex_group : SyncGroup := foldl addBranch (newGroup "join") ["left"; "right"].

Definition ex_later : list group_op :=
  [OProcessed "left" 9; OCleanup; OReceived "right" 6; OClear "right" 4; OAdd "third"].

Lemma ex_group_left : g_branches ex_group !! "left" = Some (newBranch "left").
Proof. vm_compute. reflexivity. Qed.

Lemma ex_group_right : g_branches ex_group !! "right" = Some (newBranch "right").
Proof. vm_compute. reflexivity. Qed.

Lemma ex_later_keeps : Forall (λ op, ¬ acknowledges "right" 6 op) ex_later.
Proof. unfold ex_later. repeat constructor; simpl; try tauto. intros [_ Hf]. discriminate. Qed.

Lemma coordinated_drop_persists_witness :
  shouldDropFrame (foldl group_step (fst (reportFrameDropped ex_group "left" 6 "overflow")) ex_later)
    "right" 6 = true.
Proof.
  pose proof (coordinated_drop_persists ex_group "left" 6 "overflow" ex_later _ ex_group_left) as H.
  destruct (reportFrameDropped ex_group "left" 6 "overflow") as [g' affected].
  destruct H as (_ & _ & Haff & Hkeep). apply Hkeep; [|apply ex_later_keeps].
  apply Haff. split; [discriminate|]. exists (newBranch "right"). split; [apply ex_group_right|reflexivity].
Defined.

(** The watermark never moves back under any sequence of operations; when
    reported progress moves it, its new value is the progress of some branch and
    no active branch that has made progress is behind it. *)
Theorem watermark_is_least_progress (g : SyncGroup) (b : BranchId) (f : FrameId) (ops : list group_op) :
  frames_ok (reportFrameProcessed g b f) →
  let g' := reportFrameProcessed g b f in
  g_watermark g ≤ g_watermark g' ∧ g_watermark g' ≤ g_watermark (foldl group_step g' ops) ∧
  (g_watermark g' ≠ g_watermark g →
     (∃ k st, g_branches g' !! k = Some st ∧ b_active st = true ∧ effective_processed st = g_watermark g') ∧
     (∀ k st, g_branches g' !! k = Some st → b_active st = true →
        effective_processed st ≠ k_invalid_frame_id → g_watermark g' ≤ effective_processed st)).
Proof.
  intros Hok g'. split_and!; [exact (step_watermark_mono g (OProcessed b f))|apply steps_watermark_mono|].
  unfold g', reportFrameProcessed in *. destruct (g_branches g !! b) as [st|] eqn:Hb; [|done].
  set (g1 := set_branches g _) in *. destruct (updateWatermark_branches g1) as (Hbr & _).
  unfold frames_ok in Hok. rewrite Hbr in *. unfold updateWatermarkLocked. case_decide as Hd; [|done].
  intros _. cbn [g_watermark g_branches]. edestruct watermark_fold as (H1 & H2 & _); [|reflexivity|].
  { intros [k st'] Hkb. apply elem_of_map_to_list in Hkb. by eapply Hok. }
  split.
  - destruct H1 as [H1|([k st'] & Hkb & Ha & He & _)]; [by destruct Hd|].
    exists k, st'. by apply elem_of_map_to_list in Hkb.
  - intros k st' Hst'. exact (H2 (k, st') (proj2 (elem_of_map_to_list _ _ _) Hst')).
Qed.

Lemma ex_group_frames : frames_ok (reportFrameProcessed ex_group "left" 5).
Proof.
  assert (map_Forall (λ _ st, effective_processed st ≤ k_end_of_stream_frame_id)
            (g_branches (reportFrameProcessed ex_group "left" 5))) as Hall.
  { apply (bool_decide_unpack _). vm_compute. exact I. }
  intros k st. apply Hall.
Qed.

Lemma watermark_is_least_progress_witness :
  g_watermark ex_group ≤ g_watermark (reportFrameProcessed ex_group "left" 5).
Proof. exact (proj1 (watermark_is_least_progress ex_group "left" 5 [] ex_group_frames)). Defined.

(** A branch that has processed nothing yet does not hold the watermark back: it
    passes frames that branch has still to process. *)
Lemma watermark_ignores_idle_branch :
  g_watermark (reportFrameProcessed ex_group "left" 5) = 5 ∧
  (b_processed_frame <$> g_branches (reportFrameProcessed ex_group "left" 5) !! "right") = Some 0.
Proof. split; vm_compute; reflexivity. Qed.

(** Cleanup forgets only what is behind the watermark: a drop of a frame at
    or after the watermark, or one a branch has still pending, answers as before,
    no frame becomes droppable that was not, and the recorded reasons remain
    exactly those of the remembered drops. *)
Theorem cleanup_safe (g : SyncGroup) (b : BranchId) (f : FrameId) :
  (g_watermark g ≤ f ∨ pending_in g b f → shouldDropFrame (cleanup g) b f = shouldDropFrame g b f) ∧
  (shouldDropFrame (cleanup g) b f = true → shouldDropFrame g b f = true) ∧
  (dom (g_dropReasons g) = g_globalDrops g → dom (g_dropReasons (cleanup g)) = g_globalDrops (cleanup g)) ∧
  g_watermark (cleanup g) = g_watermark g ∧ dom (g_branches (cleanup g)) = dom (g_branches g).
Proof.
  assert (∀ b', b_pending_sync_drops <$> g_branches (cleanup g) !! b' =
                b_pending_sync_drops <$> g_branches g !! b') as Hp.
  { intros b'. unfold cleanup; simpl. rewrite lookup_fmap. by destruct (g_branches g !! b'). }
  assert (∀ f', f' ∈ g_globalDrops (cleanup g) ↔ f' ∈ g_globalDrops g ∧ ¬ f' < g_watermark g) as Hg.
  { intros f'. unfold cleanup; simpl. rewrite elem_of_filter. tauto. }
  assert (∀ g' : SyncGroup, shouldDropFrame g' b f = true ↔ f ∈ g_globalDrops g' ∨ pending_in g' b f) as Hs.
  { intros g'. unfold shouldDropFrame, pending_in. case_decide; [naive_solver|].
    destruct (g_branches g' !! b); [rewrite bool_decide_eq_true|]; naive_solver. }
  assert (pending_in (cleanup g) b f ↔ pending_in g b f) as Hpi.
  { specialize (Hp b). split; intros (st & Hst & Hf); rewrite Hst in Hp; [symmetry in Hp|];
      apply fmap_Some in Hp as (st' & Hst' & Heq); exists st'; (split; [done|]); by rewrite <-Heq. }
  split_and!; [|rewrite !Hs, Hg, Hpi; tauto| |done|unfold cleanup; simpl; by rewrite dom_fmap_L].
  - intros Hf. apply eq_true_iff_eq. rewrite !Hs, Hg, Hpi. destruct Hf as [Hf|Hf]; [|tauto].
    assert (¬ f < g_watermark g) by lia. tauto.
  - intros Hdom. apply set_eq. intros f'. rewrite Hg, <-Hdom, !elem_of_dom. unfold cleanup; simpl.
    rewrite map_lookup_filter. rewrite <-Hdom. split.
    + intros [r Hr]. apply bind_Some in Hr as (r' & Hr' & Hr). apply bind_Some in Hr as (Hn & _ & _).
      simpl in Hn. split; [by eexists|]. rewrite elem_of_difference, elem_of_filter, elem_of_dom in Hn.
      intros Hlt. apply Hn. split; [by eexists|tauto].
    + intros [[r Hr] Hn]. exists r. rewrite Hr. simpl. rewrite option_guard_True; [done|].
      rewrite elem_of_difference, elem_of_filter. tauto.
Qed.

(** At the coordinator, a reported drop changes only its own group, and the
    callback is called once for each other branch of the group that has not
    passed the frame, with that frame and a reason naming the origin. *)
Theorem reportDrop_notifies (c : Coordinator) (gid : SyncGroupId) (b : BranchId) (f : FrameId)
    (reason : string) (g : SyncGroup) (st : BranchState) :
  co_groups c !! gid = Some g → g_branches g !! b = Some st → co_callback c = true →
  let c' := co_reportDrop c gid b f reason in
  (∀ gid', gid' ≠ gid → co_groups c' !! gid' = co_groups c !! gid') ∧
  (∀ b', co_shouldDropFrame c' gid b' f = true) ∧
  ∃ calls, co_calls c' = co_calls c ++ calls ∧ NoDup (dc_branch <$> calls) ∧
    ∀ call, call ∈ calls ↔
      (∃ st', g_branches g !! dc_branch call = Some st' ∧ not_passed f st' = true) ∧ dc_branch call ≠ b ∧
      dc_group call = gid ∧ dc_frame call = f ∧
      dc_reason call = "Sync drop from " +:+ b +:+ ": " +:+ reason.
Proof.
  intros Hg Hb Hcb c'. unfold c', co_reportDrop. rewrite Hg.
  destruct (reportFrameDropped g b f reason) as [g' affected] eqn:Hr.
  destruct (reportFrameDropped_spec _ _ _ _ _ _ _ Hb Hr) as (Haff & Hnd & Hglob & _).
  simpl. rewrite Hcb. split_and!.
  - intros gid' Hne. simpl. by rewrite lookup_insert_ne.
  - intros b'. unfold co_shouldDropFrame; simpl. rewrite lookup_insert_eq.
    unfold shouldDropFrame. by rewrite decide_True.
  - eexists. split; [done|]. rewrite <-list_fmap_compose. split; [by rewrite list_fmap_id|].
    intros [gr br fr re]. rewrite list_elem_of_fmap. simpl. split.
    + intros (b' & [= -> -> -> ->] & Hb'). apply Haff in Hb'. naive_solver.
    + intros (Hst & Hne & -> & -> & ->). exists br. split; [done|]. apply Haff. naive_solver.
Qed.

Definition ex_coordinator : Coordinator := mkCoord {["join" := ex_group]} true [].

Lemma ex_coordinator_group : co_groups ex_coordinator !! "join" = Some ex_group.
Proof. vm_compute. reflexivity. Qed.

Lemma reportDrop_notifies_witness :
  co_shouldDropFrame (co_reportDrop ex_coordinator "join" "left" 6 "overflow") "join" "right" 6 = true.
Proof.
  exact (proj1 (proj2 (reportDrop_notifies ex_coordinator "join" "left" 6 "overflow" ex_group
                         (newBranch "left") ex_coordinator_group ex_group_left eq_refl)) "right").
Defined.
