(* ===== verification/JoinAwareSync.v ===== *)
(** * Join-aware synchronization

    [JoinAwareSyncStrategy] ([src/join_aware_sync_strategy.hpp]) and
    [NoSyncStrategy] ([src/sync_strategies.hpp]): the search for the fork behind
    each join, the enumeration of the paths between them, the mapping of nodes to
    synchronization groups, and the drop protocol on top of the coordinator.

    The code iterates over hash containers while it searches; the order is the
    parameter [iter], of which only what the standard library promises is used
    (each element exactly once).  The path search recurses at most as deep as
    there are nodes, since a path never visits a node twice: fuel [S nodeCount]
    is enough, which [findAllPaths_correct] shows by completeness. *)

From S2P Require Import Prelude Errors Graphs CompiledGraphs Packets SyncCoordinator.
Local Open Scope string_scope.
Local Open Scope nat_scope.
Local Open Scope list_scope.

(** ** Path enumeration *)

Section Paths.
Context (succ : nat → list nat).

(** src/src/join_aware_sync_strategy.hpp:395-425 JoinAwareSyncStrategy::findAllPathsDFS; [visited]
    and [current_path] are restored on return, so they are passed down *)
Fixpoint findAllPathsDFS (fuel : nat) (current dest : nat) (current_path : list nat) (visited : gset nat)
    : list (list nat) :=
  match fuel with
  | O => []
  | S fuel' =>
      let visited := {[current]} ∪ visited in
      let current_path := current_path ++ [current] in
      if decide (current = dest) then
        if decide (2 ≤ length current_path)
        then [drop 1 (take (length current_path - 1) current_path)] else []
      else
        neighbor ← succ current;
        if decide (neighbor ∈ visited) then []
        else findAllPathsDFS fuel' neighbor dest current_path visited
  end.
End Paths.

(** src/src/join_aware_sync_strategy.hpp:384-393 JoinAwareSyncStrategy::findAllPaths *)
Definition findAllPaths (cg : CompiledGraph) (source dest : nat) : list (list nat) :=
  findAllPathsDFS (successors cg) (S (length (cg_nodes cg))) source dest [] ∅.

(** ** The fork search *)

(** src/src/join_aware_sync_strategy.hpp:263-268 JoinAwareSyncStrategy::ForkSearchResult
    ([None] is [valid == false]) *)
Record ForkSearchResult := mkFork { fork_node : nat; fork_paths : list (list nat) }.

(** src/src/join_aware_sync_strategy.hpp:290-292 JoinAwareSyncStrategy::findLowestCommonFork (is_fork) *)
Definition is_fork (cg : CompiledGraph) (i : nat) : bool := bool_decide (1 < length (successors cg i)).

(** src/src/join_aware_sync_strategy.hpp:296-301 JoinAwareSyncStrategy::findLowestCommonFork
    (parent_count) *)
Definition parent_count (cg : CompiledGraph) (preds : list nat) : gmap nat nat :=
  foldl (λ m gp, <[gp := S (default 0 (m !! gp))]> m) ∅ (pred ← preds; predecessors cg pred).

(** One source of the backward search: the nodes found and the queue. *)
Record Frontier := mkFrontier { fr_reach : gset nat; fr_queue : list nat }.

(** src/src/join_aware_sync_strategy.hpp:358-363 JoinAwareSyncStrategy::findLowestCommonFork
    (one queued node) *)
Definition expand_node (cg : CompiledGraph) (fr : Frontier) (current : nat) : Frontier :=
  foldl (λ fr pred,
    if decide (pred ∈ fr_reach fr) then fr
    else mkFrontier ({[pred]} ∪ fr_reach fr) (fr_queue fr ++ [pred])) fr (predecessors cg current).

(** src/src/join_aware_sync_strategy.hpp:350-365 JoinAwareSyncStrategy::findLowestCommonFork (one
    source's level: the nodes queued when the level starts are taken off in order) *)
Definition expand_level (cg : CompiledGraph) (fr : Frontier) : Frontier :=
  foldl (expand_node cg) (mkFrontier (fr_reach fr) []) (fr_queue fr).

Section LCF.
Context (iter : gset nat → list nat).

(** src/src/join_aware_sync_strategy.hpp:331-344 JoinAwareSyncStrategy::findLowestCommonFork
    (candidates) *)
Definition common_candidate (cg : CompiledGraph) (frs : list Frontier) : option nat :=
  match frs with
  | [] => None
  | fr0 :: rest =>
      head (filter (λ c, forallb (λ fr, bool_decide (c ∈ fr_reach fr)) rest = true ∧ is_fork cg c = true)
              (iter (fr_reach fr0)))
  end.

(** src/src/join_aware_sync_strategy.hpp:327-369 JoinAwareSyncStrategy::findLowestCommonFork (loop) *)
Fixpoint fork_loop (max_iterations : nat) (cg : CompiledGraph) (frs : list Frontier) : option nat :=
  match max_iterations with
  | O => None
  | S iterations =>
      match common_candidate cg frs with
      | Some fork => Some fork
      | None =>
          let any_progress := existsb (λ fr, negb (bool_decide (fr_queue fr = []))) frs in
          let frs' := expand_level cg <$> frs in
          if any_progress then fork_loop iterations cg frs' else None
      end
  end.

(** src/src/join_aware_sync_strategy.hpp:281-379 JoinAwareSyncStrategy::findLowestCommonFork *)
Definition findLowestCommonFork (cg : CompiledGraph) (join_index : nat) : option ForkSearchResult :=
  let preds := predecessors cg join_index in
  if decide (length preds < 2) then None
  else
    let parents := parent_count cg preds in
    let direct := head (filter (λ p, default 0 (parents !! p) = length preds ∧ is_fork cg p = true)
                          (iter (dom parents))) in
    match direct with
    | Some parent => Some (mkFork parent (findAllPaths cg parent join_index))
    | None =>
        let frs := (λ p, mkFrontier {[p]} [p]) <$> preds in
        match fork_loop 1000 cg frs with
        | Some fork => Some (mkFork fork (findAllPaths cg fork join_index))
        | None => None
        end
    end.
End LCF.

(** ** The strategy *)

(** src/src/join_aware_sync_strategy.hpp:438-452 JoinAwareSyncStrategy (data members) *)
Record JoinAware := mkJoinAware {
  ja_coordinator : Coordinator;
  ja_nodeMapping : gmap string (SyncGroupId * BranchId);
  ja_nodeMultiMapping : gmap string (list (SyncGroupId * BranchId));
  ja_debugInfo : list string;
}.

Definition newJoinAware : JoinAware := mkJoinAware newCoordinator ∅ ∅ [].

Definition set_coordinator (s : JoinAware) (c : Coordinator) : JoinAware :=
  mkJoinAware c (ja_nodeMapping s) (ja_nodeMultiMapping s) (ja_debugInfo s).

(** src/src/join_aware_sync_strategy.hpp:427-436 JoinAwareSyncStrategy::addNodeMapping *)
Definition addNodeMapping (s : JoinAware) (node_name : string) (gid : SyncGroupId) (bid : BranchId) : JoinAware :=
  mkJoinAware (ja_coordinator s)
    (match ja_nodeMapping s !! node_name with
     | Some _ => ja_nodeMapping s
     | None => <[node_name := (gid, bid)]> (ja_nodeMapping s)
     end)
    (<[node_name := default [] (ja_nodeMultiMapping s !! node_name) ++ [(gid, bid)]]> (ja_nodeMultiMapping s))
    (ja_debugInfo s).

Section Init.
Context (iter : gset nat → list nat) (deref : NodePtr → ILogicNode).

Definition name_at (cg : CompiledGraph) (i : nat) : string :=
  match cg_node cg i with Some p => getName (deref p) | None => "" end.

Fixpoint join_names (sep : string) (names : list string) : string :=
  match names with
  | [] => ""
  | [x] => x
  | x :: rest => x +:+ sep +:+ join_names sep rest
  end.

(** src/src/join_aware_sync_strategy.hpp:102-117 JoinAwareSyncStrategy::initialize (debug text) *)
Definition debug_line (cg : CompiledGraph) (gid fork join : string) (paths : list (list nat)) : string :=
  "Group[" +:+ gid +:+ "]: Fork=" +:+ fork +:+ ", Join=" +:+ join +:+ ", Branches="
  +:+ pretty (length paths) +:+ " {"
  +:+ join_names ", " ((λ path, "[" +:+ join_names "->" (name_at cg <$> path) +:+ "]") <$> paths) +:+ "}".

(** src/src/join_aware_sync_strategy.hpp:85-85 JoinAwareSyncStrategy::initialize (branch id) *)
Definition branch_name (k : nat) : BranchId := "branch_" +:+ pretty k.

(** src/src/join_aware_sync_strategy.hpp:72-77 JoinAwareSyncStrategy::initialize (group id) *)
Definition group_name (counter : nat) (fork join : string) : SyncGroupId :=
  "sync_group_" +:+ pretty counter +:+ "_" +:+ fork +:+ "_to_" +:+ join.

(** src/src/join_aware_sync_strategy.hpp:84-95 JoinAwareSyncStrategy::initialize (one path) *)
Definition map_path (cg : CompiledGraph) (gid : SyncGroupId) (s : JoinAware) (kp : nat * list nat) : JoinAware :=
  foldl (λ s i, addNodeMapping s (name_at cg i) gid (branch_name (fst kp))) s (snd kp).

(** src/src/join_aware_sync_strategy.hpp:62-120 JoinAwareSyncStrategy::initialize (one join) *)
Definition init_join (cg : CompiledGraph) (sc : JoinAware * nat) (join_index : nat) : JoinAware * nat :=
  let '(s, group_counter) := sc in
  match findLowestCommonFork iter cg join_index with
  | None => (s, group_counter)
  | Some r =>
      let fork_name := name_at cg (fork_node r) in
      let join_name := name_at cg join_index in
      let gid := group_name group_counter fork_name join_name in
      let branch_ids := branch_name <$> seq 0 (length (fork_paths r)) in
      let s1 := foldl (map_path cg gid) s (zip (seq 0 (length (fork_paths r))) (fork_paths r)) in
      (match branch_ids with
       | [] => s1
       | _ => mkJoinAware (fst (createSyncGroup (ja_coordinator s1) gid branch_ids))
                (ja_nodeMapping s1) (ja_nodeMultiMapping s1)
                (ja_debugInfo s1 ++ [debug_line cg gid fork_name join_name (fork_paths r)])
       end, S group_counter)
  end.

(** src/src/join_aware_sync_strategy.hpp:43-121 JoinAwareSyncStrategy::initialize *)
Definition initialize (s : JoinAware) (cg : CompiledGraph) : JoinAware :=
  let s0 := mkJoinAware (co_reset (ja_coordinator s)) ∅ ∅ [] in
  let join_points := filter (λ i, (1 < inDegree cg i)%Z) (seq 0 (length (cg_nodes cg))) in
  fst (foldl (init_join cg) (s0, 0) join_points).
End Init.

(** src/src/join_aware_sync_strategy.hpp:123-126 JoinAwareSyncStrategy::reset *)
Definition ja_reset (s : JoinAware) : JoinAware := set_coordinator s (co_reset (ja_coordinator s)).

(** src/src/join_aware_sync_strategy.hpp:128-133 JoinAwareSyncStrategy::registerSyncGroup *)
Definition registerSyncGroup (s : JoinAware) (gid : SyncGroupId) (bids : list BranchId) : JoinAware :=
  set_coordinator s (fst (createSyncGroup (ja_coordinator s) gid bids)).

(** src/src/join_aware_sync_strategy.hpp:135-139 JoinAwareSyncStrategy::mapNodeToGroup *)
Definition mapNodeToGroup (s : JoinAware) (node : string) (gid : SyncGroupId) (bid : BranchId) : JoinAware :=
  addNodeMapping s node gid bid.

Definition mappings (s : JoinAware) (node : string) : list (SyncGroupId * BranchId) :=
  default [] (ja_nodeMultiMapping s !! node).

(** src/src/join_aware_sync_strategy.hpp:155-169 JoinAwareSyncStrategy::reportDrop (one mapping) *)
Definition report_one (frame_id : FrameId) (reason : string) (ca : Coordinator * list BranchId)
    (gb : SyncGroupId * BranchId) : Coordinator * list BranchId :=
  let '(c, all_affected) := ca in
  let c' := co_reportDrop c (fst gb) (snd gb) frame_id reason in
  match co_groups c' !! fst gb with
  | None => (c', all_affected)
  | Some g =>
      (c', foldl (λ acc bid, if decide (bid ≠ snd gb ∧ bid ∉ acc) then acc ++ [bid] else acc)
             all_affected (branchIds g))
  end.

(** src/src/join_aware_sync_strategy.hpp:145-173 JoinAwareSyncStrategy::reportDrop *)
Definition ja_reportDrop (s : JoinAware) (node : string) (frame_id : FrameId) (reason : string)
    : JoinAware * list BranchId :=
  let '(c, affected) := foldl (report_one frame_id reason) (ja_coordinator s, []) (mappings s node) in
  (set_coordinator s c, affected).

(** src/src/join_aware_sync_strategy.hpp:177-194 JoinAwareSyncStrategy::shouldDrop *)
Definition ja_shouldDrop (s : JoinAware) (node : string) (frame_id : FrameId) : bool :=
  existsb (λ gb, bool_decide (frame_id ∈ co_getPendingSyncDrops (ja_coordinator s) (fst gb) (snd gb)))
    (mappings s node).

(** src/src/join_aware_sync_strategy.hpp:199-210 JoinAwareSyncStrategy::markProcessed *)
Definition ja_markProcessed (s : JoinAware) (node : string) (frame_id : FrameId) : JoinAware :=
  set_coordinator s
    (foldl (λ c gb, co_reportFrameProcessed c (fst gb) (snd gb) frame_id) (ja_coordinator s) (mappings s node)).

(** src/src/join_aware_sync_strategy.hpp:212-222 JoinAwareSyncStrategy::getWatermark *)
Definition ja_getWatermark (s : JoinAware) (gid : SyncGroupId) : FrameId :=
  match co_groups (ja_coordinator s) !! gid with None => 0%Z | Some g => g_watermark g end.

(** src/src/join_aware_sync_strategy.hpp:226-229 JoinAwareSyncStrategy::tracksNode *)
Definition ja_tracksNode (s : JoinAware) (node : string) : bool :=
  bool_decide (is_Some (ja_nodeMultiMapping s !! node)).

(** src/src/join_aware_sync_strategy.hpp:235-242 JoinAwareSyncStrategy::clone *)
Definition ja_clone (s : JoinAware) : JoinAware :=
  mkJoinAware newCoordinator (ja_nodeMapping s) (ja_nodeMultiMapping s) (ja_debugInfo s).

(** ** Paths: lemmas *)

(** [walk succ u l v]: from [u] one can step through the nodes [l] in turn, the last
    of which (or [u] itself) is [v]. *)
Fixpoint walk (succ : nat → list nat) (u : nat) (l : list nat) (v : nat) : Prop :=
  match l with
  | [] => u = v
  | w :: l' => w ∈ succ u ∧ walk succ w l' v
  end.

(** The inner nodes of a path given with both ends. *)
Definition inner (l : list nat) : list nat := drop 1 (take (length l - 1) l).

Lemma inner_snoc u m v : inner (u :: m ++ [v]) = m.
Proof.
  unfold inner. rewrite length_cons, length_app. simpl.
  replace (length m + 1 - 0) with (S (length m)) by lia. simpl. rewrite drop_0.
  by rewrite take_app_length.
Qed.

Section PathFacts.
Context (succ : nat → list nat) (n : nat) (Hrange : ∀ i j, i < n → j ∈ succ i → j < n).

Lemma NoDup_range_length (l : list nat) : NoDup l → (∀ x, x ∈ l → x < n) → length l ≤ n.
Proof using Type.
  intros Hnd Hl. rewrite <-(length_seq n 0). apply submseteq_length, NoDup_submseteq; [done|].
  intros x Hx. apply elem_of_seq. specialize (Hl x Hx). lia.
Qed.

Lemma dfs_spec fuel current dest path visited q :
  (∀ x, x ∈ visited ↔ x ∈ path) → NoDup (path ++ [current]) → (∀ x, x ∈ path ++ [current] → x < n) →
  n < fuel + length path + 1 →
  q ∈ findAllPathsDFS succ fuel current dest path visited ↔
  ∃ ext, walk succ current ext dest ∧ NoDup (path ++ current :: ext) ∧
         2 ≤ length (path ++ current :: ext) ∧ q = inner (path ++ current :: ext).
Proof using Hrange.
  revert current path visited. induction fuel as [|fuel IH]; intros current path visited Hv Hnd Hlt Hf.
  { exfalso. pose proof (NoDup_range_length _ Hnd Hlt) as Hl. rewrite length_app in Hl. simpl in Hl. lia. }
  cbn [findAllPathsDFS]. destruct (decide (current = dest)) as [<-|Hne].
  - assert (∀ ext, walk succ current ext current → NoDup (path ++ current :: ext) → ext = []) as Hext.
    { intros ext Hw Hn. destruct ext as [|w ext]; [done|]. exfalso.
      assert (current ∈ w :: ext) as Hin.
      { clear -Hw. destruct Hw as [_ Hw]. revert w Hw. induction ext as [|y ext IHx]; intros w Hw; simpl in Hw.
        - subst. set_solver.
        - apply elem_of_cons. right. by apply IHx, Hw. }
      apply NoDup_app in Hn as (_ & _ & Hn). by apply NoDup_cons in Hn as [Hn _]. }
    case_decide as H2; simpl.
    + rewrite list_elem_of_singleton. split; [intros ->; exists []; by split_and!|].
      intros (ext & Hw & Hn & _ & ->). by rewrite (Hext ext Hw Hn).
    + split; [by intros ?%not_elem_of_nil|]. intros (ext & Hw & Hn & Hl & _).
      rewrite (Hext ext Hw Hn) in Hl. done.
  - rewrite list_elem_of_bind. split.
    + intros (w & Hq & Hw). case_decide as Hvis; [by apply not_elem_of_nil in Hq|].
      assert (w ∉ path ++ [current]) as Hwp.
      { rewrite elem_of_union, elem_of_singleton, Hv in Hvis. rewrite elem_of_app, list_elem_of_singleton. tauto. }
      assert (current < n) as Hcn by (apply Hlt; set_solver).
      apply IH in Hq as (ext & Hwalk & Hn & Hl & ->).
      * exists (w :: ext). rewrite <-app_assoc in Hn, Hl |- *. simpl in *. by split_and!.
      * intros x. rewrite elem_of_union, elem_of_singleton, Hv, elem_of_app, list_elem_of_singleton. tauto.
      * apply NoDup_app. split; [done|]. split; [|apply NoDup_singleton].
        intros x Hx ->%list_elem_of_singleton. done.
      * intros x [Hx|Hx]%elem_of_app; [by apply Hlt|]. apply list_elem_of_singleton in Hx as ->. by eapply Hrange.
      * rewrite length_app. simpl. lia.
    + intros (ext & Hwalk & Hn & Hl & ->). destruct ext as [|w ext]; [done|]. destruct Hwalk as [Hw Hwalk].
      exists w. split; [|done].
      assert (w ∉ path ++ [current]) as Hwp.
      { change (path ++ current :: w :: ext) with (path ++ [current] ++ w :: ext) in Hn.
        rewrite app_assoc in Hn. apply NoDup_app in Hn as (_ & Hdis & _). intros Hin. apply (Hdis w Hin). set_solver. }
      rewrite decide_False.
      2:{ rewrite elem_of_union, elem_of_singleton, Hv. rewrite elem_of_app, list_elem_of_singleton in Hwp. tauto. }
      assert (current < n) as Hcn by (apply Hlt; set_solver).
      apply IH.
      * intros x. rewrite elem_of_union, elem_of_singleton, Hv, elem_of_app, list_elem_of_singleton. tauto.
      * apply NoDup_app. split; [done|]. split; [|apply NoDup_singleton].
        intros x Hx ->%list_elem_of_singleton. done.
      * intros x [Hx|Hx]%elem_of_app; [by apply Hlt|]. apply list_elem_of_singleton in Hx as ->. by eapply Hrange.
      * rewrite length_app. simpl. lia.
      * exists ext. rewrite <-app_assoc. simpl. by split_and!.
Qed.
End PathFacts.

Lemma walk_ends succ u ext v : walk succ u ext v → ∃ m, u :: ext = m ++ [v].
Proof.
  revert u. induction ext as [|w ext IH]; intros u Hw; simpl in Hw; [subst; by exists []|].
  destruct Hw as [_ Hw]. destruct (IH w Hw) as [m Hm]. exists (u :: m). by rewrite Hm.
Qed.

(** The path is recovered from its inner nodes and its ends. *)
Lemma inner_inj l m1 m2 v : l ≠ [] → inner (l ++ m1 ++ [v]) = inner (l ++ m2 ++ [v]) → m1 = m2.
Proof.
  destruct l as [|u l]; [done|]. intros _. simpl. rewrite !app_assoc, !inner_snoc. by intros ?%app_inv_head.
Qed.

(** Distinct paths are listed once. *)
Lemma dfs_nodup succ n fuel current dest path visited :
  (∀ i j, i < n → j ∈ succ i → j < n) → (∀ i, i < n → NoDup (succ i)) →
  (∀ x, x ∈ visited ↔ x ∈ path) → NoDup (path ++ [current]) → (∀ x, x ∈ path ++ [current] → x < n) →
  n < fuel + length path + 1 → NoDup (findAllPathsDFS succ fuel current dest path visited).
Proof.
  intros Hrange Hsucc. revert current path visited.
  induction fuel as [|fuel IH]; intros current path visited Hv Hnd Hlt Hf; [apply NoDup_nil_2|].
  cbn [findAllPathsDFS]. case_decide as Hd; [case_decide; [apply NoDup_singleton|apply NoDup_nil_2]|].
  assert (current < n) as Hcn by (apply Hlt; set_solver).
  assert (∀ x, x ∈ {[current]} ∪ visited ↔ x ∈ path ++ [current]) as Hv'.
  { intros x. rewrite elem_of_union, elem_of_singleton, Hv, elem_of_app, list_elem_of_singleton. tauto. }
  assert (∀ w, w ∈ succ current → w ∉ {[current]} ∪ visited →
    NoDup ((path ++ [current]) ++ [w]) ∧ (∀ x, x ∈ (path ++ [current]) ++ [w] → x < n)) as Hstep.
  { intros w Hw Hnv. rewrite Hv' in Hnv. split.
    - apply NoDup_app. split; [done|]. split; [|apply NoDup_singleton].
      intros x Hx ->%list_elem_of_singleton. done.
    - intros x [Hx|Hx]%elem_of_app; [by apply Hlt|]. apply list_elem_of_singleton in Hx as ->. by eapply Hrange. }
  assert (n < fuel + length (path ++ [current]) + 1) as Hf' by (rewrite length_app; simpl; lia).
  apply NoDup_bind; [|intros w Hw; case_decide as Hnv; [apply NoDup_nil_2|]|by apply Hsucc].
  - intros w1 w2 q Hw1 Hw2 Hq1 Hq2.
    destruct (decide (w1 ∈ {[current]} ∪ visited)) as [Hn1|Hn1]; [by apply not_elem_of_nil in Hq1|].
    destruct (decide (w2 ∈ {[current]} ∪ visited)) as [Hn2|Hn2]; [by apply not_elem_of_nil in Hq2|].
    destruct (Hstep w1 Hw1 Hn1) as [Hnd1 Hlt1], (Hstep w2 Hw2 Hn2) as [Hnd2 Hlt2].
    apply (dfs_spec succ n Hrange) in Hq1 as (e1 & Hk1 & _ & _ & ->); [|done..].
    apply (dfs_spec succ n Hrange) in Hq2 as (e2 & Hk2 & _ & _ & Heq); [|done..].
    destruct (walk_ends _ _ _ _ Hk1) as [m1 Hm1], (walk_ends _ _ _ _ Hk2) as [m2 Hm2].
    rewrite Hm1, Hm2 in Heq. apply inner_inj in Heq as ->; [congruence|by destruct path].
  - destruct (Hstep w Hw Hnv). by apply IH.
Qed.

(** ** The fork search: lemmas *)

(** [u] is an ancestor of [p], or [p] itself. *)
Definition ancestor (cg : CompiledGraph) (p u : nat) : Prop := rtc (λ a b, b ∈ predecessors cg a) p u.

(** [fr'] is [fr] with the nodes of [S] found, the new ones queued. *)
Definition grown (fr fr' : Frontier) (S : gset nat) : Prop :=
  fr_reach fr' = fr_reach fr ∪ S ∧
  (∀ x, x ∈ fr_queue fr' ↔ x ∈ fr_queue fr ∨ (x ∈ fr_reach fr' ∧ x ∉ fr_reach fr)) ∧
  size (fr_reach fr') + length (fr_queue fr) = size (fr_reach fr) + length (fr_queue fr').

Lemma grown_refl fr : grown fr fr ∅.
Proof. split_and!; [set_solver|set_solver|done]. Qed.

Lemma grown_trans fr1 fr2 fr3 S1 S2 : grown fr1 fr2 S1 → grown fr2 fr3 S2 → grown fr1 fr3 (S1 ∪ S2).
Proof.
  intros (R1 & Q1 & L1) (R2 & Q2 & L2). split_and!; [set_solver| |lia].
  intros x. rewrite Q2, Q1. destruct (decide (x ∈ fr_reach fr2)); set_solver.
Qed.

Lemma expand_node_grown cg fr current :
  grown fr (expand_node cg fr current) (list_to_set (predecessors cg current)).
Proof.
  unfold expand_node. generalize (predecessors cg current) as l. intros l. revert fr.
  induction l as [|p l IH]; intros fr; simpl; [apply grown_refl|].
  eapply grown_trans; [|apply IH]. case_decide as Hp.
  - split_and!; [set_solver|set_solver|done].
  - split_and!; simpl; [set_solver|set_solver|].
    rewrite size_union, size_singleton, length_app by set_solver. simpl. lia.
Qed.

Lemma expand_level_grown cg fr :
  grown (mkFrontier (fr_reach fr) []) (expand_level cg fr)
    (list_to_set (c ← fr_queue fr; predecessors cg c)).
Proof.
  unfold expand_level. generalize (mkFrontier (fr_reach fr) []) as f0. generalize (fr_queue fr) as l.
  intros l. induction l as [|c l IH]; intros f0; simpl; [apply grown_refl|].
  rewrite list_to_set_app_L. eapply grown_trans; [apply expand_node_grown|apply IH].
Qed.

(** The backward search from [p] after [k] levels. *)
Record search_inv (cg : CompiledGraph) (n k p : nat) (fr : Frontier) : Prop := {
  sr_start : p ∈ fr_reach fr;
  sr_sound : ∀ x, x ∈ fr_reach fr → ancestor cg p x;
  sr_range : ∀ x, x ∈ fr_reach fr → x < n;
  sr_queue : ∀ x, x ∈ fr_queue fr → x ∈ fr_reach fr;
  sr_closed : ∀ x y, x ∈ fr_reach fr → x ∉ fr_queue fr → y ∈ predecessors cg x → y ∈ fr_reach fr;
  sr_size : fr_queue fr ≠ [] → k < size (fr_reach fr);
}.

Section Search.
Context (cg : CompiledGraph) (n : nat).
Context (Hrange : ∀ i j, j ∈ predecessors cg i → i < n ∧ j < n).

Lemma search_init p : p < n → search_inv cg n 0 p (mkFrontier {[p]} [p]).
Proof using All.
  intros Hp. constructor; simpl.
  - set_solver.
  - intros x ->%elem_of_singleton. apply rtc_refl.
  - by intros x ->%elem_of_singleton.
  - set_solver.
  - set_solver.
  - intros _. change (0 < size ({[p]} : gset nat)). rewrite size_singleton. lia.
Qed.

Lemma search_step k p fr : search_inv cg n k p fr → search_inv cg n (S k) p (expand_level cg fr).
Proof using All.
  intros [Hst Hso Hra Hqu Hcl Hsz]. destruct (expand_level_grown cg fr) as (R & Q & L). simpl in *.
  assert (∀ x, x ∈ (list_to_set (c ← fr_queue fr; predecessors cg c) : gset nat) →
            ∃ c, c ∈ fr_queue fr ∧ x ∈ predecessors cg c) as Hnew.
  { intros x Hx. apply elem_of_list_to_set, list_elem_of_bind in Hx as (c & ? & ?). eauto. }
  constructor.
  - set_solver.
  - intros x. rewrite R. intros [Hx|(c & Hc & Hx)%Hnew]%elem_of_union; [by apply Hso|].
    eapply rtc_r; [by apply Hso, Hqu|done].
  - intros x. rewrite R. intros [Hx|(c & Hc & Hx)%Hnew]%elem_of_union; [by apply Hra|].
    by eapply Hrange.
  - intros x Hx. apply Q in Hx as [Hx|[Hx _]]; [by apply not_elem_of_nil in Hx|done].
  - intros x y Hx Hnq Hy. rewrite R. destruct (decide (x ∈ fr_reach fr)) as [Hxr|Hxr].
    + destruct (decide (x ∈ fr_queue fr)) as [Hxq|Hxq].
      * apply elem_of_union_r, elem_of_list_to_set, list_elem_of_bind. eauto.
      * apply elem_of_union_l. by eapply Hcl.
    + exfalso. apply Hnq, Q. by right.
  - intros Hne. assert (fr_queue fr ≠ []) as Hq0.
    { intros Hq0. destruct (fr_queue (expand_level cg fr)) as [|x l] eqn:Hq; [done|].
      destruct (proj1 (Q x)) as [Hx|[Hx Hnx]]; [set_solver|by apply not_elem_of_nil in Hx|].
      rewrite R in Hx. apply elem_of_union in Hx as [Hx|(c & Hc & _)%Hnew]; [done|].
      rewrite Hq0 in Hc. by apply not_elem_of_nil in Hc. }
    specialize (Hsz Hq0). destruct (fr_queue (expand_level cg fr)); [done|]. simpl in L. lia.
Qed.

(** A search that has stopped has found every ancestor. *)
Lemma search_done k p fr u : search_inv cg n k p fr → fr_queue fr = [] → ancestor cg p u → u ∈ fr_reach fr.
Proof using All.
  intros [Hst _ _ _ Hcl _] Hq Hanc. unfold ancestor in Hanc.
  assert (∀ x, x ∈ fr_reach fr → rtc (λ a b, b ∈ predecessors cg a) x u → u ∈ fr_reach fr) as Hgo; [|by eapply Hgo].
  intros x Hx Hr. induction Hr as [|x y z Hxy _ IH]; [done|]. apply IH; [done|].
  eapply Hcl; [exact Hx|rewrite Hq; apply not_elem_of_nil|done].
Qed.

Lemma search_bound k p fr : search_inv cg n k p fr → n ≤ k → fr_queue fr = [].
Proof using All.
  intros I Hk. destruct (fr_queue fr) eqn:Hq; [done|]. exfalso.
  pose proof (sr_size _ _ _ _ _ I) as Hs. rewrite Hq in Hs. specialize (Hs ltac:(done)).
  assert (size (fr_reach fr) ≤ size (set_seq 0 n : gset nat)) as Hle.
  { apply subseteq_size. intros x Hx. apply elem_of_set_seq. pose proof (sr_range _ _ _ _ _ I x Hx). lia. }
  rewrite size_set_seq in Hle. lia.
Qed.

Context (iter : gset nat → list nat) (Hiter : ∀ s, iter s ≡ₚ elements s).

Lemma elem_of_iter x s : x ∈ iter s ↔ x ∈ s.
Proof using All. by rewrite (Hiter s), elem_of_elements. Qed.

Lemma head_filter_Some (Pr : nat → Prop) `{∀ x, Decision (Pr x)} l x :
  head (filter Pr l) = Some x → x ∈ l ∧ Pr x.
Proof using All.
  intros Hh. assert (x ∈ filter Pr l) as Hx by (destruct (filter Pr l); simplify_eq/=; set_solver).
  by apply list_elem_of_filter in Hx as [? ?].
Qed.

Lemma head_filter_None (Pr : nat → Prop) `{∀ x, Decision (Pr x)} l :
  head (filter Pr l) = None → ∀ x, x ∈ l → ¬ Pr x.
Proof using All.
  intros Hh x Hx HP. assert (x ∈ filter Pr l) as Hin by (by apply list_elem_of_filter).
  destruct (filter Pr l); [by apply not_elem_of_nil in Hin|done].
Qed.

Lemma common_candidate_spec frs c :
  frs ≠ [] →
  match common_candidate iter cg frs with
  | Some c => is_fork cg c = true ∧ ∀ fr, fr ∈ frs → c ∈ fr_reach fr
  | None => is_fork cg c = true → ∃ fr, fr ∈ frs ∧ c ∉ fr_reach fr
  end.
Proof using All.
  destruct frs as [|fr0 rest]; [done|]. intros _. simpl.
  destruct (head _) as [c'|] eqn:Hh.
  - apply head_filter_Some in Hh as [Hin [Hall Hf]]. rewrite elem_of_iter in Hin. split; [done|].
    intros fr [->|Hfr]%elem_of_cons; [done|]. rewrite forallb_forall in Hall.
    specialize (Hall fr ltac:(by apply list_elem_of_In)). by apply bool_decide_eq_true in Hall.
  - intros Hf. destruct (decide (c ∈ fr_reach fr0)) as [Hc|Hc]; [|exists fr0; set_solver].
    rewrite <-elem_of_iter in Hc. pose proof (head_filter_None _ _ Hh c Hc) as Hn.
    destruct (forallb (λ fr, bool_decide (c ∈ fr_reach fr)) rest) eqn:Hall; [naive_solver|].
    apply not_true_iff_false in Hall. rewrite forallb_forall in Hall.
    destruct (decide (Exists (λ fr, c ∉ fr_reach fr) rest)) as [He|He].
    + apply Exists_exists in He as (fr & Hfr & Hnc). exists fr. set_solver.
    + exfalso. apply Hall. intros fr Hfr. apply bool_decide_eq_true. apply list_elem_of_In in Hfr.
      destruct (decide (c ∈ fr_reach fr)); [done|]. exfalso. apply He, Exists_exists. eauto.
Qed.

Lemma fork_loop_spec m k preds frs :
  preds ≠ [] → Forall2 (search_inv cg n k) preds frs → 0 < m → n < k + m →
  match fork_loop iter m cg frs with
  | Some c => is_fork cg c = true ∧ ∀ p, p ∈ preds → ancestor cg p c
  | None => ∀ c, is_fork cg c = true → ∃ p, p ∈ preds ∧ ¬ ancestor cg p c
  end.
Proof using All.
  intros Hne. revert k frs. induction m as [|m IH]; intros k frs Hf Hm Hk; [lia|].
  assert (frs ≠ []) as Hfne by (intros ->; by apply Forall2_nil_inv_r in Hf).
  cbn [fork_loop]. pose proof (common_candidate_spec frs) as Hcand.
  destruct (common_candidate iter cg frs) as [c|].
  - destruct (Hcand 0 Hfne) as [Hfork Hall]. split; [done|]. intros p [i Hi]%list_elem_of_lookup.
    destruct (Forall2_lookup_l _ _ _ _ _ Hf Hi) as (fr & Hfr & Hs).
    apply (sr_sound _ _ _ _ _ Hs), Hall. by eapply list_elem_of_lookup_2.
  - destruct (existsb _ frs) eqn:Hprog.
    + apply existsb_exists in Hprog as (fr & Hfr & Hq). apply list_elem_of_In, list_elem_of_lookup in Hfr as [i Hi].
      destruct (Forall2_lookup_r _ _ _ _ _ Hf Hi) as (p & _ & Hs).
      assert (¬ n ≤ k) by (intros Hle; by rewrite (search_bound _ _ _ Hs Hle) in Hq).
      apply (IH (S k)); [|lia|lia]. apply Forall2_fmap_r. eapply Forall2_impl; [exact Hf|].
      intros p' fr' Hs'. by apply search_step.
    + intros c Hfork. destruct (Hcand c Hfne Hfork) as (fr & Hfr & Hnc).
      apply list_elem_of_lookup in Hfr as [i Hi]. destruct (Forall2_lookup_r _ _ _ _ _ Hf Hi) as (p & Hp & Hs).
      exists p. split; [by eapply list_elem_of_lookup_2|]. intros Hanc. apply Hnc.
      eapply search_done; [done| |done]. destruct (decide (fr_queue fr = [])) as [|Hq]; [done|].
      exfalso. apply not_true_iff_false in Hprog. apply Hprog, existsb_exists. exists fr.
      split; [by apply list_elem_of_In; eapply list_elem_of_lookup_2|]. by rewrite bool_decide_eq_false_2.
Qed.

(** Occurrences counted by the map of parents. *)
Lemma parent_count_fold l (m : gmap nat nat) x :
  default 0 (foldl (λ m gp, <[gp := S (default 0 (m !! gp))]> m) m l !! x) =
  default 0 (m !! x) + length (filter (λ y, y = x) l).
Proof using All.
  revert m. induction l as [|y l IH]; intros m; simpl; [lia|]. rewrite IH, filter_cons.
  destruct (decide (y = x)) as [->|Hne].
  - rewrite lookup_insert_eq. simpl. lia.
  - by rewrite lookup_insert_ne.
Qed.

Lemma parent_count_all preds x :
  (∀ p, p ∈ preds → NoDup (predecessors cg p)) →
  default 0 (parent_count cg preds !! x) = length preds → ∀ p, p ∈ preds → x ∈ predecessors cg p.
Proof using All.
  unfold parent_count. rewrite parent_count_fold, lookup_empty. simpl.
  assert (∀ p, NoDup (predecessors cg p) → length (filter (λ y, y = x) (predecessors cg p)) ≤ 1 ∧
    (x ∉ predecessors cg p → length (filter (λ y, y = x) (predecessors cg p)) = 0)) as Hone.
  { intros p Hnd. split.
    - destruct (filter (λ y, y = x) (predecessors cg p)) as [|a [|b l]] eqn:Hf; simpl; try lia. exfalso.
      assert (NoDup (a :: b :: l)) as Hn by (rewrite <-Hf; by apply NoDup_filter).
      assert (∀ y, y ∈ a :: b :: l → y = x) as Hx by (intros y; rewrite <-Hf; by intros [? _]%list_elem_of_filter).
      rewrite (Hx a), (Hx b) in Hn by set_solver. apply NoDup_cons in Hn as [Hn _]. set_solver.
    - intros Hx. destruct (filter (λ y, y = x) (predecessors cg p)) as [|a l] eqn:Hf; [done|].
      assert (a ∈ filter (λ y, y = x) (predecessors cg p)) as Ha by (rewrite Hf; set_solver).
      apply list_elem_of_filter in Ha as [-> Ha]. done. }
  assert (∀ l, (∀ p, p ∈ l → NoDup (predecessors cg p)) →
    length (filter (λ y, y = x) (pred ← l; predecessors cg pred)) ≤ length l ∧
    (length (filter (λ y, y = x) (pred ← l; predecessors cg pred)) = length l →
       ∀ p, p ∈ l → x ∈ predecessors cg p)) as Hcount.
  { intros l. induction l as [|p l IH]; intros Hnd; [split; [done|]; by intros _ p ?%not_elem_of_nil|].
    rewrite bind_cons, filter_app, length_app, length_cons.
    destruct IH as [IH1 IH2]; [intros q Hq; apply Hnd; set_solver|].
    destruct (Hone p) as [H1 H0]; [apply Hnd; set_solver|].
    split; [lia|]. intros Heq q [->|Hq]%elem_of_cons; [|apply IH2; [lia|done]].
    destruct (decide (x ∈ predecessors cg p)) as [|Hx]; [done|]. specialize (H0 Hx). lia. }
  intros Hnd. by apply Hcount.
Qed.

(** What the search for a join's fork returns. *)
Lemma findLowestCommonFork_spec join_index :
  (∀ p, NoDup (predecessors cg p)) → n ≤ 999 →
  match findLowestCommonFork iter cg join_index with
  | Some r =>
      is_fork cg (fork_node r) = true ∧
      (∀ p, p ∈ predecessors cg join_index → ancestor cg p (fork_node r)) ∧
      fork_paths r = findAllPaths cg (fork_node r) join_index
  | None =>
      length (predecessors cg join_index) < 2 ∨
      ∀ c, is_fork cg c = true → ∃ p, p ∈ predecessors cg join_index ∧ ¬ ancestor cg p c
  end.
Proof using All.
  intros Hnd Hn. unfold findLowestCommonFork. case_decide as Hl; [by left|].
  set (preds := predecessors cg join_index) in *.
  destruct (head _) as [parent|] eqn:Hh.
  - apply head_filter_Some in Hh as [_ [Hc Hfork]]. simpl. split; [done|]. split; [|done].
    intros p Hp. apply rtc_once. eapply parent_count_all; [|done|done]. intros q _. apply Hnd.
  - pose proof (fork_loop_spec 1000 0 preds ((λ p, mkFrontier {[p]} [p]) <$> preds)) as Hloop.
    assert (preds ≠ []) as Hpne by (intros Hp; rewrite Hp in Hl; simpl in Hl; lia).
    specialize (Hloop Hpne). destruct (fork_loop iter 1000 cg _) as [fork|].
    + simpl. split_and!; [apply Hloop|apply Hloop|done]; try lia;
        apply Forall2_fmap_r, Forall_Forall2_diag, Forall_forall; intros p Hp; apply search_init; by eapply Hrange.
    + right. apply Hloop; try lia.
      apply Forall2_fmap_r, Forall_Forall2_diag, Forall_forall; intros p Hp; apply search_init; by eapply Hrange.
Qed.
End Search.

(** ** Initialization: lemmas *)

(** Decimal numerals contain no underscore, so the counter in a group id is read
    back unambiguously. *)
Definition underscore : Ascii.ascii := Ascii.Ascii true true true true true false true false.

Fixpoint up_to_underscore (s : string) : string :=
  match s with
  | EmptyString => ""
  | String c s' => if decide (c = underscore) then "" else String c (up_to_underscore s')
  end.

Fixpoint no_underscore (s : string) : Prop :=
  match s with EmptyString => True | String c s' => c ≠ underscore ∧ no_underscore s' end.

Lemma up_to_underscore_app d r : no_underscore d → up_to_underscore (d +:+ "_" +:+ r) = d.
Proof.
  induction d as [|c d IH]; simpl; [done|]. intros [Hc Hd]. rewrite decide_False by done. f_equal. by apply IH.
Qed.

Lemma pretty_N_char_digit x : pretty_N_char x ≠ underscore.
Proof. unfold pretty_N_char. repeat case_match; done. Qed.

Lemma pretty_N_go_digits x s : no_underscore s → no_underscore (pretty_N_go x s).
Proof.
  revert s. induction (N.lt_wf_0 x) as [x _ IH]; intros s Hs.
  destruct (decide (x = 0)%N) as [->|Hx]; [by rewrite pretty_N_go_0|].
  rewrite pretty_N_go_step by lia. apply IH; [apply N.div_lt; lia|]. split; [apply pretty_N_char_digit|done].
Qed.

Lemma pretty_nat_digits (k : nat) : no_underscore (pretty k).
Proof.
  unfold pretty, pretty_nat, pretty, pretty_N. case_decide; [done|]. by apply pretty_N_go_digits.
Qed.

Lemma group_name_counter c1 c2 f1 f2 j1 j2 : group_name c1 f1 j1 = group_name c2 f2 j2 → c1 = c2.
Proof.
  unfold group_name. intros Heq.
  assert (∀ p r1 r2, p +:+ r1 = p +:+ r2 → r1 = r2) as Hinj.
  { intros p. induction p as [|c p IH]; simpl; [done|]. intros r1 r2 [= H]. by apply IH. }
  apply Hinj in Heq. apply (f_equal up_to_underscore) in Heq.
  rewrite !up_to_underscore_app in Heq by apply pretty_nat_digits. by apply (inj pretty) in Heq.
Qed.

Lemma branch_name_inj k1 k2 : branch_name k1 = branch_name k2 → k1 = k2.
Proof. unfold branch_name. intros Heq. apply (inj (String.app "branch_")) in Heq. by apply (inj pretty) in Heq. Qed.

Section InitFacts.
Context (iter : gset nat → list nat) (deref : NodePtr → ILogicNode) (cg : CompiledGraph).

Lemma mappings_add s nd gid bid nd' x :
  x ∈ mappings (addNodeMapping s nd gid bid) nd' ↔ x ∈ mappings s nd' ∨ (nd' = nd ∧ x = (gid, bid)).
Proof.
  unfold mappings, addNodeMapping; simpl. destruct (decide (nd' = nd)) as [->|Hne].
  - rewrite lookup_insert_eq. simpl. rewrite elem_of_app, list_elem_of_singleton. tauto.
  - rewrite lookup_insert_ne by congruence. tauto.
Qed.

Lemma map_path_spec gid s kp :
  ja_coordinator (map_path deref cg gid s kp) = ja_coordinator s ∧
  ∀ nd x, x ∈ mappings (map_path deref cg gid s kp) nd ↔
    x ∈ mappings s nd ∨ (x = (gid, branch_name kp.1) ∧ ∃ i, i ∈ kp.2 ∧ name_at deref cg i = nd).
Proof.
  unfold map_path. generalize (kp.2) as l. intros l. revert s.
  induction l as [|i l IH]; intros s; simpl; [split; [done|]; intros nd x; set_solver|].
  destruct (IH (addNodeMapping s (name_at deref cg i) gid (branch_name kp.1))) as [Hc Hm].
  split; [by rewrite Hc|]. intros nd x. rewrite Hm, mappings_add. set_solver.
Qed.

Lemma map_paths_spec gid s l :
  ja_coordinator (foldl (map_path deref cg gid) s l) = ja_coordinator s ∧
  ∀ nd x, x ∈ mappings (foldl (map_path deref cg gid) s l) nd ↔
    x ∈ mappings s nd ∨ ∃ k path, (k, path) ∈ l ∧ x = (gid, branch_name k) ∧ ∃ i, i ∈ path ∧ name_at deref cg i = nd.
Proof.
  revert s. induction l as [|[k path] l IH]; intros s; simpl; [split; [done|]; intros nd x; set_solver|].
  destruct (IH (map_path deref cg gid s (k, path))) as [Hc Hm]. destruct (map_path_spec gid s (k, path)) as [Hc' Hm'].
  split; [by rewrite Hc|]. intros nd x. rewrite Hm, Hm'. simpl. setoid_rewrite elem_of_cons. naive_solver.
Qed.

(** The groups of the coordinator, and what the mappings refer to. *)
Definition has_branch (g : SyncGroup) (b : BranchId) : Prop := is_Some (g_branches g !! b).

Definition holds_at (c : Coordinator) (gid : SyncGroupId) (P : SyncGroup → Prop) : Prop :=
  ∃ g, co_groups c !! gid = Some g ∧ P g.

Definition ja_wf (s : JoinAware) : Prop :=
  ∀ nd gid bid, (gid, bid) ∈ mappings s nd → holds_at (ja_coordinator s) gid (λ g, has_branch g bid).

(** A group in which no branch has reported anything. *)
Definition fresh_group (g : SyncGroup) : Prop := map_Forall (λ b st, st = newBranch b) (g_branches g).

Record init_inv (s : JoinAware) (counter : nat) : Prop := {
  ii_wf : ja_wf s;
  ii_below : ∀ gid g, co_groups (ja_coordinator s) !! gid = Some g →
    fresh_group g ∧ ∃ c f j, c < counter ∧ gid = group_name c f j;
}.

(** The mappings of a join: each inner node of each path is mapped to its path's
    branch, and the branches are exactly the paths. *)
Definition covered (s : JoinAware) (gid : SyncGroupId) (r : ForkSearchResult) : Prop :=
  holds_at (ja_coordinator s) gid (λ g, fresh_group g ∧
    ∀ b, has_branch g b ↔ ∃ k, k < length (fork_paths r) ∧ b = branch_name k) ∧
  ∀ k path i, fork_paths r !! k = Some path → i ∈ path →
    (gid, branch_name k) ∈ mappings s (name_at deref cg i).

Definition ja_grows (s s' : JoinAware) : Prop :=
  (∀ nd x, x ∈ mappings s nd → x ∈ mappings s' nd) ∧
  (∀ gid g, co_groups (ja_coordinator s) !! gid = Some g → co_groups (ja_coordinator s') !! gid = Some g).

Lemma covered_grows s s' gid r : ja_grows s s' → covered s gid r → covered s' gid r.
Proof. intros [Hm Hg] [(g & Hl & HP) Hc]. split; [exists g; eauto|eauto]. Qed.

Lemma addBranches_spec bids g :
  fresh_group g →
  fresh_group (foldl addBranch g bids) ∧ ∀ b, has_branch (foldl addBranch g bids) b ↔ has_branch g b ∨ b ∈ bids.
Proof.
  revert g. induction bids as [|b0 bids IH]; intros g Hf; simpl; [split; [done|]; set_solver|].
  assert (fresh_group (addBranch g b0) ∧ ∀ b, has_branch (addBranch g b0) b ↔ has_branch g b ∨ b = b0) as [Hf' Hb].
  { unfold addBranch. destruct (g_branches g !! b0) as [st|] eqn:Hb0.
    - split; [done|]. intros b. split; [by left|]. intros [?| ->]; [done|]. by exists st.
    - unfold fresh_group, has_branch; simpl. split; [by apply map_Forall_insert_2|].
      intros b. rewrite lookup_insert_is_Some'. naive_solver. }
  destruct (IH _ Hf') as [Hf'' Hb']. split; [done|]. intros b. rewrite Hb', Hb, elem_of_cons. tauto.
Qed.

Lemma init_inv_le s c c' : c ≤ c' → init_inv s c → init_inv s c'.
Proof.
  intros Hle [Hw Hb]. split; [done|]. intros gid g Hg. destruct (Hb gid g Hg) as (? & d & f & j & ? & ?).
  split; [done|]. exists d, f, j. split; [lia|done].
Qed.

Lemma zip_seq_lookup {A} (l : list A) k x : (k, x) ∈ zip (seq 0 (length l)) l ↔ l !! k = Some x.
Proof.
  rewrite list_elem_of_lookup. split.
  - intros (i & Hi). apply lookup_zip_with_Some in Hi as (a & b & [= -> ->] & Ha & Hb).
    apply lookup_seq in Ha as [-> _]. done.
  - intros Hk. exists k. apply lookup_zip_with_Some. exists k, x. split_and!; [done| |done].
    apply lookup_seq. split; [lia|by eapply lookup_lt_Some].
Qed.

Lemma init_join_spec s c j s' c' :
  init_inv s c → init_join iter deref cg (s, c) j = (s', c') →
  init_inv s' c' ∧ ja_grows s s' ∧
  ∀ r, findLowestCommonFork iter cg j = Some r → fork_paths r ≠ [] → ∃ gid, covered s' gid r.
Proof.
  intros I. unfold init_join. destruct (findLowestCommonFork iter cg j) as [r|].
  2:{ intros [= <- <-]. split_and!; [done|by split|done]. }
  set (gid := group_name _ _ _). set (paths := fork_paths r).
  destruct (map_paths_spec gid s (zip (seq 0 (length paths)) paths)) as [Hc Hm].
  set (s1 := foldl _ s _) in *. destruct (branch_name <$> seq 0 (length paths)) as [|b0 bids] eqn:Hbids.
  - intros [= <- <-]. assert (paths = []) as Hnil.
    { destruct paths; [done|]. by rewrite length_cons in Hbids. }
    rewrite Hnil in Hm. simpl in Hm.
    assert (∀ nd x, x ∈ mappings s1 nd ↔ x ∈ mappings s nd) as Hm' by (intros nd x; rewrite Hm; set_solver).
    split_and!; [|split; [by intros nd x ?%Hm'|by rewrite Hc]|intros r' [= <-]; done].
    apply (init_inv_le _ c); [lia|]. destruct I as [Hw Hb]. split; [|by rewrite Hc].
    intros nd g b Hin. rewrite Hc. by apply (Hw nd), Hm'.
  - rewrite <-Hbids. clear b0 bids Hbids. set (bids := branch_name <$> seq 0 (length paths)).
    assert (co_groups (ja_coordinator s) !! gid = None) as Hnew.
    { destruct (co_groups (ja_coordinator s) !! gid) as [g|] eqn:Hg; [|done]. exfalso.
      destruct (ii_below _ _ I gid g Hg) as (_ & d & f & jn & Hd & Heq).
      apply group_name_counter in Heq. lia. }
    assert (∀ b, b ∈ bids ↔ ∃ k, k < length paths ∧ b = branch_name k) as Hbids.
    { intros b. unfold bids. rewrite list_elem_of_fmap. setoid_rewrite elem_of_seq.
      split; intros (k & ? & ?); exists k; split; done || lia. }
    destruct (addBranches_spec bids (newGroup gid)) as [Hfr Hbr]; [apply map_Forall_empty|].
    assert (∀ b, has_branch (foldl addBranch (newGroup gid) bids) b ↔ b ∈ bids) as Hbr'.
    { intros b. rewrite Hbr. unfold has_branch; simpl. rewrite lookup_empty, is_Some_alt. tauto. }
    unfold createSyncGroup. rewrite Hc, Hnew. simpl. intros [= <- <-].
    assert (ja_grows s (mkJoinAware (set_group (ja_coordinator s) gid (foldl addBranch (newGroup gid) bids))
      (ja_nodeMapping s1) (ja_nodeMultiMapping s1)
      (ja_debugInfo s1 ++ [debug_line deref cg gid (name_at deref cg (fork_node r)) (name_at deref cg j) paths]))) as Hgr.
    { split; [intros nd x Hx; apply Hm; by left|]. intros g0 g Hg. simpl. rewrite lookup_insert_ne; [done|].
      intros <-. congruence. }
    split_and!; [|exact Hgr|].
    + split.
      * intros nd g b Hin. apply Hm in Hin as [Hin|(k & path & Hk & [= -> ->] & _)].
        -- destruct (ii_wf _ _ I nd g b Hin) as (g' & Hg' & HP). exists g'. split; [by apply Hgr|done].
        -- eexists. simpl. rewrite lookup_insert_eq. split; [done|]. apply Hbr', Hbids. exists k.
           split; [by eapply lookup_lt_Some, zip_seq_lookup|done].
      * intros g0 g. simpl. destruct (decide (gid = g0)) as [<-|Hne].
        -- rewrite lookup_insert_eq. intros [= <-]. split; [done|]. repeat eexists. lia.
        -- rewrite lookup_insert_ne by done. intros Hg. destruct (ii_below _ _ I g0 g Hg) as (? & d & f & jn & ? & ?).
           split; [done|]. exists d, f, jn. split; [lia|done].
    + intros r' [= <-] _. exists gid. split.
      * eexists. simpl. rewrite lookup_insert_eq. split; [done|]. split; [done|]. intros b. by rewrite Hbr', Hbids.
      * intros k path i Hk Hi. apply Hm. right. exists k, path. split; [by apply zip_seq_lookup|]. eauto.
Qed.

Lemma init_joins_spec js s c :
  init_inv s c →
  let s' := (foldl (init_join iter deref cg) (s, c) js).1 in
  ja_wf s' ∧ ja_grows s s' ∧
  ∀ j r, j ∈ js → findLowestCommonFork iter cg j = Some r → fork_paths r ≠ [] → ∃ gid, covered s' gid r.
Proof.
  revert s c. induction js as [|j js IH]; intros s c I; cbn [foldl].
  { split_and!; [apply I|by split|by intros j r ?%not_elem_of_nil]. }
  destruct (init_join iter deref cg (s, c) j) as [s1 c1] eqn:Hj.
  destruct (init_join_spec _ _ _ _ _ I Hj) as (I1 & [Hm1 Hg1] & Hcov). destruct (IH _ _ I1) as (Hw & [Hm2 Hg2] & Hrest).
  split_and!; [done|split; eauto|]. intros j' r [->|Hj']%elem_of_cons Hr Hne; [|by eapply Hrest].
  destruct (Hcov r Hr Hne) as [gid Hgid]. exists gid. by eapply covered_grows.
Qed.

Lemma initialize_spec s :
  ja_wf (initialize iter deref s cg) ∧
  ∀ j r, j < length (cg_nodes cg) → (1 < inDegree cg j)%Z → findLowestCommonFork iter cg j = Some r →
    fork_paths r ≠ [] → ∃ gid, covered (initialize iter deref s cg) gid r.
Proof.
  unfold initialize. set (s0 := mkJoinAware _ _ _ _).
  assert (init_inv s0 0) as I0.
  { split; [intros nd g b Hin|by intros g g' Hg].
    unfold mappings in Hin; simpl in Hin. by apply not_elem_of_nil in Hin. }
  destruct (init_joins_spec (filter (λ i, (1 < inDegree cg i)%Z) (seq 0 (length (cg_nodes cg)))) s0 0 I0)
    as (Hw & _ & Hc). split; [done|]. intros j r Hj Hd. apply Hc. apply list_elem_of_filter.
  split; [done|]. apply elem_of_seq. lia.
Qed.
End InitFacts.

(** ** The drop protocol: lemmas *)

Lemma co_reportDrop_groups c gid b f r gid' :
  co_groups (co_reportDrop c gid b f r) !! gid' =
  (if decide (gid = gid') then (λ g, group_step g (ODropped b f r)) else id) <$> co_groups c !! gid'.
Proof.
  unfold co_reportDrop. destruct (co_groups c !! gid) as [g|] eqn:Hg.
  - destruct (reportFrameDropped g b f r) as [g' aff] eqn:Hr.
    transitivity (<[gid := g']> (co_groups c) !! gid'); [by destruct (co_callback _)|].
    case_decide as Hd; [subst; rewrite lookup_insert_eq, Hg; simpl; by rewrite Hr|].
    rewrite lookup_insert_ne by done. by rewrite option_fmap_id.
  - case_decide as Hd; [subst; by rewrite Hg|]. by rewrite option_fmap_id.
Qed.

Lemma co_reportFrameProcessed_groups c gid b f gid' :
  co_groups (co_reportFrameProcessed c gid b f) !! gid' =
  (if decide (gid = gid') then (λ g, group_step g (OProcessed b f)) else id) <$> co_groups c !! gid'.
Proof.
  unfold co_reportFrameProcessed. destruct (co_groups c !! gid) as [g|] eqn:Hg; simpl.
  - case_decide as Hd; [subst; by rewrite lookup_insert_eq, Hg|]. rewrite lookup_insert_ne by done.
    by rewrite option_fmap_id.
  - case_decide as Hd; [subst; by rewrite Hg|]. by rewrite option_fmap_id.
Qed.

(** Properties of a group that reports of drops, and of progress up to a frame,
    do not destroy. *)
Definition drop_stable (P : SyncGroup → Prop) : Prop := ∀ g b f r, P g → P (group_step g (ODropped b f r)).
Definition proc_stable (P : SyncGroup → Prop) (f : FrameId) : Prop := ∀ g b, P g → P (group_step g (OProcessed b f)).

Lemma holds_drop P c gid b f r gid' :
  drop_stable P → holds_at c gid' P → holds_at (co_reportDrop c gid b f r) gid' P.
Proof.
  intros Hs (g & Hg & HP). unfold holds_at. rewrite co_reportDrop_groups, Hg. simpl. eexists; split; [done|].
  case_decide; [by apply Hs|done].
Qed.

Lemma holds_proc P c gid b f gid' :
  proc_stable P f → holds_at c gid' P → holds_at (co_reportFrameProcessed c gid b f) gid' P.
Proof.
  intros Hs (g & Hg & HP). unfold holds_at. rewrite co_reportFrameProcessed_groups, Hg. simpl.
  eexists; split; [done|]. case_decide; [by apply Hs|done].
Qed.

(** The reports the engine sends while a pipeline runs. *)
Inductive ja_op := JDrop (node : string) (f : FrameId) (reason : string) | JProcessed (node : string) (f : FrameId).

Definition ja_step (s : JoinAware) (op : ja_op) : JoinAware :=
  match op with
  | JDrop nd f r => fst (ja_reportDrop s nd f r)
  | JProcessed nd f => ja_markProcessed s nd f
  end.

Definition stable_under (P : SyncGroup → Prop) (op : ja_op) : Prop :=
  match op with JDrop _ _ _ => drop_stable P | JProcessed _ f => proc_stable P f end.

Lemma report_one_fst f r ca gb :
  (report_one f r ca gb).1 = co_reportDrop ca.1 gb.1 gb.2 f r.
Proof. destruct ca as [c a]. simpl. by destruct (co_groups _ !! gb.1). Qed.

Lemma report_fold_holds P f r l ca gid :
  drop_stable P → holds_at ca.1 gid P → holds_at (foldl (report_one f r) ca l).1 gid P.
Proof.
  intros Hs. revert ca. induction l as [|gb l IH]; intros ca Hh; simpl; [done|].
  apply IH. rewrite report_one_fst. by apply holds_drop.
Qed.

Lemma ja_step_mappings s op nd : mappings (ja_step s op) nd = mappings s nd.
Proof. destruct op; simpl; [unfold ja_reportDrop; by destruct (foldl _ _ _)|done]. Qed.

Lemma ja_steps_mappings ops s nd : mappings (foldl ja_step s ops) nd = mappings s nd.
Proof. revert s. induction ops as [|op ops IH]; intros s; simpl; [done|]. by rewrite IH, ja_step_mappings. Qed.

Lemma ja_step_holds P s op gid :
  stable_under P op → holds_at (ja_coordinator s) gid P → holds_at (ja_coordinator (ja_step s op)) gid P.
Proof.
  intros Hs Hh. destruct op as [nd f r|nd f]; simpl in *.
  - pose proof (report_fold_holds P f r (mappings s nd) (ja_coordinator s, []) gid Hs Hh) as Hr.
    unfold ja_reportDrop. by destruct (foldl _ _ _).
  - revert Hh. generalize (ja_coordinator s) as c. generalize (mappings s nd) as l. intros l.
    induction l as [|gb l IH]; intros c Hh; simpl; [done|]. by apply IH, holds_proc.
Qed.

Lemma ja_steps_hold P ops s gid :
  Forall (stable_under P) ops → holds_at (ja_coordinator s) gid P →
  holds_at (ja_coordinator (foldl ja_step s ops)) gid P.
Proof.
  revert s. induction ops as [|op ops IH]; intros s Hs Hh; simpl; [done|].
  apply Forall_cons in Hs as [H1 H2]. apply IH; [done|]. by apply ja_step_holds.
Qed.

(** A pending drop survives every report. *)
Lemma pending_stable b f op : stable_under (λ g, pending_in g b f) op.
Proof. destruct op; simpl; intros g b' **; apply step_keeps_pending; simpl; tauto. Qed.

(** What a branch must satisfy to be affected by a drop of [f]. *)
Definition awaits (f : FrameId) (b : BranchId) (g : SyncGroup) : Prop :=
  ∃ st, g_branches g !! b = Some st ∧ not_passed f st = true.

Definition before_frame (f : FrameId) (op : ja_op) : Prop :=
  match op with JDrop _ _ _ => True | JProcessed _ f' => (f' < f)%Z end.

Lemma has_branch_stable b op : stable_under (λ g, has_branch g b) op.
Proof.
  destruct op as [nd f r|nd f]; simpl; [intros g b' f' r' Hb|intros g b' Hb]; unfold has_branch in *; simpl.
  - unfold reportFrameDropped. destruct (g_branches g !! b') as [st|] eqn:Hb'; [|done]. simpl.
    rewrite lookup_mark_drop, fmap_is_Some, lookup_insert_is_Some'. by right.
  - unfold reportFrameProcessed. destruct (g_branches g !! b') as [st|] eqn:Hb'; [|done].
    rewrite (proj1 (updateWatermark_branches _)). simpl. rewrite lookup_insert_is_Some'. by right.
Qed.

Lemma awaits_stable f b op : before_frame f op → stable_under (awaits f b) op.
Proof.
  destruct op as [nd f0 r|nd f0]; simpl; [intros _ g b' f' r'|intros Hlt g b'];
    intros (st & Hst & Hp); unfold awaits; simpl.
  - unfold reportFrameDropped. destruct (g_branches g !! b') as [st'|] eqn:Hb'; [|by exists st]. simpl.
    rewrite lookup_mark_drop. destruct (decide (b' = b)) as [->|Hne].
    + rewrite lookup_insert_eq. simplify_eq. eexists; split; [done|]. unfold mark_drop. by case_decide.
    + rewrite lookup_insert_ne, Hst by done. eexists; split; [done|]. unfold mark_drop. by case_decide.
  - unfold reportFrameProcessed. destruct (g_branches g !! b') as [st'|] eqn:Hb'; [|by exists st].
    rewrite (proj1 (updateWatermark_branches _)). simpl. destruct (decide (b' = b)) as [->|Hne].
    + rewrite lookup_insert_eq. simplify_eq. eexists; split; [done|]. unfold not_passed in *; simpl.
      apply bool_decide_eq_true. apply bool_decide_eq_true in Hp. case_decide; [by left|done].
    + rewrite lookup_insert_ne by done. by exists st.
Qed.

Lemma report_fold_affected f r l ca b : b ∈ ca.2 → b ∈ (foldl (report_one f r) ca l).2.
Proof.
  revert ca. induction l as [|gb l IH]; intros [c a] Hb; simpl; [done|]. apply IH.
  destruct (co_groups _ !! gb.1) as [g|]; [|done]. simpl. simpl in Hb. clear IH.
  revert a Hb. induction (branchIds g) as [|b' bs IHb]; intros a Hb; simpl; [done|].
  apply IHb. case_decide; [set_solver|done].
Qed.

Lemma elem_of_branchIds g b : b ∈ branchIds g ↔ has_branch g b.
Proof.
  unfold branchIds, has_branch. rewrite list_elem_of_fmap. split.
  - intros ([b' st] & -> & Hin%elem_of_map_to_list). by exists st.
  - intros [st Hst]. exists (b, st). by rewrite elem_of_map_to_list.
Qed.

(** Reporting a drop at a node reaches the other branches of its groups. *)
Lemma ja_reportDrop_reaches s nd f r gid b1 b2 :
  (gid, b1) ∈ mappings s nd → b1 ≠ b2 → holds_at (ja_coordinator s) gid (λ g, has_branch g b1) →
  holds_at (ja_coordinator s) gid (awaits f b2) →
  b2 ∈ (ja_reportDrop s nd f r).2 ∧
  holds_at (ja_coordinator (ja_reportDrop s nd f r).1) gid (λ g, pending_in g b2 f).
Proof.
  intros (l1 & l2 & Hl)%list_elem_of_split Hne H1 H2. unfold ja_reportDrop. rewrite Hl, foldl_app. simpl.
  apply (report_fold_holds _ f r l1 (ja_coordinator s, [])) in H1; [|exact (has_branch_stable b1 (JDrop nd f r))].
  apply (report_fold_holds _ f r l1 (ja_coordinator s, [])) in H2; [|exact (awaits_stable f b2 (JDrop nd f r) I)].
  set (ca := foldl (report_one f r) (ja_coordinator s, []) l1) in *. clearbody ca.
  assert (b2 ∈ (report_one f r ca (gid, b1)).2 ∧
          holds_at (report_one f r ca (gid, b1)).1 gid (λ g, pending_in g b2 f)) as [Ha Hp].
  { destruct ca as [c a], H1 as (g & Hg & [st1 Hb1]), H2 as (g' & Hg' & st2 & Hst2 & Hnp). simpl in *.
    rewrite Hg in Hg'. injection Hg' as <-.
    pose proof (co_reportDrop_groups c gid b1 f r gid) as Hgr. rewrite decide_True, Hg in Hgr by done. simpl in Hgr.
    destruct (reportFrameDropped g b1 f r) as [g2 aff] eqn:Hr.
    destruct (reportFrameDropped_spec _ _ _ _ _ _ _ Hb1 Hr) as (Haff & _ & _ & _ & Hpend & Hdom & _).
    simpl in Hgr. rewrite Hgr. simpl.
    assert (pending_in g2 b2 f) as Hp2 by (apply Hpend, Haff; split; [done|eauto]).
    split; [|exists g2; by split].
    assert (b2 ∈ branchIds g2) as Hin.
    { apply elem_of_branchIds. destruct Hp2 as (st & ? & _). by exists st. }
    revert a. induction (branchIds g2) as [|b bs IH]; intros a; [by apply not_elem_of_nil in Hin|]. simpl.
    apply elem_of_cons in Hin as [<-|Hin]; [|by apply IH].
    assert (∀ bs a, b2 ∈ a → b2 ∈ foldl (λ acc bid, if decide (bid ≠ b1 ∧ bid ∉ acc) then acc ++ [bid] else acc) a bs)
      as Hkeep.
    { clear. intros bs. induction bs as [|b bs IH]; intros a Ha; simpl; [done|]. apply IH. case_decide; set_solver. }
    apply Hkeep. case_decide as Hd; [set_solver|]. destruct (decide (b2 ∈ a)); [done|]. exfalso. by apply Hd. }
  set (ca' := report_one f r ca (gid, b1)) in *. clearbody ca'.
  pose proof (report_fold_affected f r l2 ca' b2 Ha) as Ha'.
  pose proof (report_fold_holds _ f r l2 ca' gid (pending_stable b2 f (JDrop nd f r)) Hp) as Hp'.
  destruct (foldl (report_one f r) ca' l2) as [c' a']. by split.
Qed.

Lemma pending_ja_shouldDrop s nd gid b f :
  (gid, b) ∈ mappings s nd → holds_at (ja_coordinator s) gid (λ g, pending_in g b f) →
  ja_shouldDrop s nd f = true.
Proof.
  intros Hm (g & Hg & st & Hst & Hf). unfold ja_shouldDrop. apply existsb_exists. exists (gid, b).
  split; [by apply list_elem_of_In|]. simpl. unfold co_getPendingSyncDrops, getPendingSyncDrops.
  rewrite Hg, Hst. by apply bool_decide_eq_true.
Qed.

(** ** No synchronization, and the strategy interface *)

Inductive NoSync := mkNoSync.

(** src/include/ai_pipe/i_sync_strategy.hpp:44-132 ISyncStrategy (the calls the engine makes per frame) *)
Class SyncStrategy (S : Type) := {
  sy_reportDrop : S → string → FrameId → string → S * list BranchId;
  sy_shouldDrop : S → string → FrameId → bool;
  sy_markProcessed : S → string → FrameId → S;
  sy_getWatermark : S → SyncGroupId → FrameId;
  sy_isEnabled : S → bool;
  sy_tracksNode : S → string → bool;
}.

#[export] Instance JoinAware_strategy : SyncStrategy JoinAware := {
  sy_reportDrop := ja_reportDrop;
  sy_shouldDrop := ja_shouldDrop;
  sy_markProcessed := ja_markProcessed;
  sy_getWatermark := ja_getWatermark;
  sy_isEnabled _ := true;
  sy_tracksNode := ja_tracksNode;
}.

(** src/src/sync_strategies.hpp:15-54 NoSyncStrategy *)
#[export] Instance NoSync_strategy : SyncStrategy NoSync := {
  sy_reportDrop s _ _ _ := (s, []);
  sy_shouldDrop _ _ _ := false;
  sy_markProcessed s _ _ := s;
  sy_getWatermark _ _ := 0%Z;
  sy_isEnabled _ := false;
  sy_tracksNode _ _ := false;
}.

(** What the engine relies on when it asks [tracksNode] once and then leaves out
    the calls for the nodes that are not tracked. *)
Class SyncStrategyLaws (S : Type) `{!SyncStrategy S} := {
  untracked_shouldDrop s nd f : sy_tracksNode s nd = false → sy_shouldDrop s nd f = false;
  untracked_markProcessed s nd f : sy_tracksNode s nd = false → sy_markProcessed s nd f = s;
  untracked_reportDrop s nd f r : sy_tracksNode s nd = false → sy_reportDrop s nd f r = (s, []);
  tracksNode_drop s nd f r nd' : sy_tracksNode (sy_reportDrop s nd f r).1 nd' = sy_tracksNode s nd';
  tracksNode_processed s nd f nd' : sy_tracksNode (sy_markProcessed s nd f) nd' = sy_tracksNode s nd';
}.

Lemma untracked_mappings s nd : ja_tracksNode s nd = false → mappings s nd = [].
Proof. unfold ja_tracksNode, mappings. intros H%bool_decide_eq_false. by rewrite <-eq_None_not_Some in H; rewrite H. Qed.

#[export] Instance JoinAware_laws : SyncStrategyLaws JoinAware.
Proof.
  split; simpl.
  - intros s nd f H. unfold ja_shouldDrop. by rewrite untracked_mappings.
  - intros s nd f H. unfold ja_markProcessed. rewrite untracked_mappings by done. by destruct s.
  - intros s nd f r H. unfold ja_reportDrop. rewrite untracked_mappings by done. by destruct s.
  - intros s nd f r nd'. unfold ja_reportDrop. by destruct (foldl _ _ _).
  - done.
Defined.

#[export] Instance NoSync_laws : SyncStrategyLaws NoSync.
Proof. split; simpl; try done. Defined.

(** After [reset] (and in a clone) the node mappings remain but their groups are
    gone: every node is still tracked, no reported drop has any effect and no
    frame is ever to be dropped. *)
Lemma reset_disables_drops s nd f r nd' :
  ja_tracksNode (ja_reset s) nd = ja_tracksNode s nd ∧
  ja_reportDrop (ja_reset s) nd f r = (ja_reset s, []) ∧ ja_shouldDrop (ja_reset s) nd' f = false.
Proof.
  split_and!; [done| |].
  - unfold ja_reportDrop, ja_reset. change (mappings (set_coordinator s _) nd) with (mappings s nd).
    assert (∀ l c, co_groups c = ∅ → foldl (report_one f r) (c, []) l = (c, [])) as Hfold.
    { intros l c Hc. induction l as [|gb l IH]; simpl; [done|].
      assert (co_reportDrop c gb.1 gb.2 f r = c) as -> by (unfold co_reportDrop; by rewrite Hc, lookup_empty).
      by rewrite Hc, lookup_empty. }
    by rewrite Hfold.
  - unfold ja_shouldDrop. apply not_true_iff_false. intros (gb & _ & Hb)%existsb_exists.
    unfold co_getPendingSyncDrops in Hb. simpl in Hb. rewrite lookup_empty in Hb.
    apply bool_decide_eq_true in Hb. set_solver.
Qed.

(** ** Claims *)

Section CompiledFacts.
Context (deref : NodePtr → ILogicNode) (g : Graph) (cg : CompiledGraph) (Hok : compiled_ok deref g cg).

Lemma compiled_succ_range i j : i < length (cg_nodes cg) → j ∈ successors cg i → j < length (cg_nodes cg).
Proof using Hok. rewrite (co_nodes _ _ _ Hok). intros _ Hj. by eapply (co_range _ _ _ Hok i); left. Qed.

Lemma compiled_pred_range i j :
  j ∈ predecessors cg i → i < length (cg_nodes cg) ∧ j < length (cg_nodes cg).
Proof using Hok. rewrite (co_nodes _ _ _ Hok). intros Hj. by eapply (co_range _ _ _ Hok i); right. Qed.

Lemma compiled_succ_nodup i : i < length (cg_nodes cg) → NoDup (successors cg i).
Proof using Hok. rewrite (co_nodes _ _ _ Hok). by apply (co_succ_nodup _ _ _ Hok). Qed.

Lemma compiled_pred_nodup i : NoDup (predecessors cg i).
Proof using Hok.
  destruct (decide (i < length (m_nodes g))) as [Hi|Hi]; [by apply (co_succ_nodup _ _ _ Hok)|].
  destruct (predecessors cg i) as [|j l] eqn:Hp; [apply NoDup_nil_2|]. exfalso.
  destruct (co_range _ _ _ Hok i j) as [? _]; [right; rewrite Hp; set_solver|done].
Qed.
End CompiledFacts.

(** In a compiled graph the path search between two nodes terminates with
    exactly the simple paths: a list of inner nodes is returned if and only if
    following the graph's edges through it leads from the source to the
    destination without visiting a node twice, and no path is returned twice. *)
Theorem findAllPaths_correct (deref : NodePtr → ILogicNode) (g : Graph) (cg : CompiledGraph) (source dest : nat) :
  rtc (graph_step deref) empty_graph g → (Z.of_nat (length (m_nodes g)) < u32_mod)%Z →
  compile deref g = Some (ROk cg) → source < length (cg_nodes cg) →
  NoDup (findAllPaths cg source dest) ∧
  ∀ q, q ∈ findAllPaths cg source dest ↔
    walk (successors cg) source (q ++ [dest]) dest ∧ NoDup (source :: q ++ [dest]).
Proof.
  intros Hr Hsmall Hc Hs. destruct (compile_inv _ _ _ Hr Hsmall Hc) as [Hok _].
  pose proof (compiled_succ_range _ _ _ Hok) as Hrange. unfold findAllPaths.
  assert (∀ x, x ∈ [source] → x < length (cg_nodes cg)) as Hlt by (by intros x ->%list_elem_of_singleton).
  split.
  - eapply dfs_nodup; [exact Hrange|exact (compiled_succ_nodup _ _ _ Hok)| | |exact Hlt|]; simpl;
      [set_solver|apply NoDup_singleton|lia].
  - intros q. rewrite (dfs_spec _ _ Hrange); simpl; [|set_solver|apply NoDup_singleton|exact Hlt|lia]. split.
    + intros (ext & Hw & Hnd & Hl & ->). destruct (walk_ends _ _ _ _ Hw) as [m Hm].
      destruct m as [|u m]; simplify_eq/=; [lia|]. by rewrite inner_snoc.
    + intros [Hw Hnd]. exists (q ++ [dest]). rewrite inner_snoc, length_app. simpl. split_and!; [done|done|lia|done].
Qed.

(** For a compiled graph of at most 999 nodes, whatever the iteration order
    of the hash sets, the fork search for a join returns a node with several
    successors that every direct predecessor of the join descends from, together
    with all paths from it to the join; it returns nothing only if the join has
    fewer than two predecessors or no such node exists. *)
Theorem findLowestCommonFork_correct (deref : NodePtr → ILogicNode) (g : Graph) (cg : CompiledGraph)
    (iter : gset nat → list nat) (join_index : nat) :
  rtc (graph_step deref) empty_graph g → compile deref g = Some (ROk cg) →
  length (m_nodes g) ≤ 999 → (∀ s, iter s ≡ₚ elements s) →
  match findLowestCommonFork iter cg join_index with
  | Some r =>
      1 < length (successors cg (fork_node r)) ∧
      (∀ p, p ∈ predecessors cg join_index → ancestor cg p (fork_node r)) ∧
      fork_paths r = findAllPaths cg (fork_node r) join_index
  | None =>
      length (predecessors cg join_index) < 2 ∨
      ¬ ∃ c, 1 < length (successors cg c) ∧ ∀ p, p ∈ predecessors cg join_index → ancestor cg p c
  end.
Proof.
  intros Hr Hc Hn Hiter. destruct (compile_inv deref g cg) as [Hok _]; [done|unfold u32_mod; lia|done|].
  pose proof (findLowestCommonFork_spec cg (length (cg_nodes cg)) (compiled_pred_range _ _ _ Hok) iter Hiter
    join_index (compiled_pred_nodup _ _ _ Hok)) as Hspec.
  rewrite (co_nodes _ _ _ Hok) in Hspec. specialize (Hspec Hn).
  destruct (findLowestCommonFork iter cg join_index) as [r|].
  - destruct Hspec as (Hf & Ha & Hp). by apply bool_decide_eq_true in Hf.
  - destruct Hspec as [Hl|Hno]; [by left|right]. intros (c & Hf & Hall).
    destruct (Hno c) as (p & Hp & Hna); [by apply bool_decide_eq_true|]. by apply Hna, Hall.
Qed.

(** C37: fork and join: once the strategy is initialized from a graph, whatever
    drops and earlier frames have been reported, a drop of a frame reported by a
    node on one path between a fork and its join is returned as affecting the
    branch of every other path, and every node on such a path is told to drop the
    frame, for as long as the strategy goes on receiving reports. *)
Theorem fork_join_drop_coordination (iter : gset nat → list nat) (deref : NodePtr → ILogicNode) (s0 : JoinAware)
    (cg : CompiledGraph) (j : nat) (r : ForkSearchResult) (k1 k2 : nat) (path1 path2 : list nat) (i1 i2 : nat)
    (f : FrameId) (reason : string) (earlier later : list ja_op) :
  j < length (cg_nodes cg) → (1 < inDegree cg j)%Z → findLowestCommonFork iter cg j = Some r →
  fork_paths r !! k1 = Some path1 → fork_paths r !! k2 = Some path2 → k1 ≠ k2 → i1 ∈ path1 → i2 ∈ path2 →
  Forall (before_frame f) earlier →
  let s := foldl ja_step (initialize iter deref s0 cg) earlier in
  let '(s', affected) := ja_reportDrop s (name_at deref cg i1) f reason in
  branch_name k2 ∈ affected ∧ ja_shouldDrop (foldl ja_step s' later) (name_at deref cg i2) f = true.
Proof.
  intros Hj Hdeg Hr Hk1 Hk2 Hne Hi1 Hi2 Hearly s.
  destruct (initialize_spec iter deref cg s0) as [_ Hcov].
  destruct (Hcov j r Hj Hdeg Hr) as (gid & (g & Hg & Hfr & Hbr) & Hmap); [by intros Hnil; rewrite Hnil in Hk1|].
  assert (b2has : ∃ st, g_branches g !! branch_name k2 = Some st).
  { apply (Hbr (branch_name k2)). exists k2. split; [by eapply lookup_lt_Some|done]. }
  destruct b2has as [st2 Hst2].
  assert (holds_at (ja_coordinator s) gid (λ g, has_branch g (branch_name k1))) as H1.
  { apply ja_steps_hold; [apply Forall_true; intros op; apply has_branch_stable|]. exists g. split; [done|].
    apply Hbr. exists k1. split; [by eapply lookup_lt_Some|done]. }
  assert (holds_at (ja_coordinator s) gid (awaits f (branch_name k2))) as H2.
  { apply ja_steps_hold; [eapply Forall_impl; [exact Hearly|]; intros op; apply awaits_stable|].
    exists g. split; [done|]. exists st2. split; [done|]. rewrite (Hfr _ _ Hst2).
    apply bool_decide_eq_true. by right. }
  assert (∀ nd, mappings s nd = mappings (initialize iter deref s0 cg) nd) as Hms by (intros; apply ja_steps_mappings).
  destruct (ja_reportDrop_reaches s (name_at deref cg i1) f reason gid (branch_name k1) (branch_name k2))
    as [Ha Hp]; [rewrite Hms; by eapply Hmap|by intros ?%branch_name_inj|done|done|].
  pose proof (ja_step_mappings s (JDrop (name_at deref cg i1) f reason) (name_at deref cg i2)) as Hm. simpl in Hm.
  destruct (ja_reportDrop s (name_at deref cg i1) f reason) as [s' affected]. simpl in *. split; [done|].
  eapply pending_ja_shouldDrop; [rewrite ja_steps_mappings, Hm, Hms; by eapply Hmap|].
  apply ja_steps_hold; [apply Forall_true; intros op; apply pending_stable|done].
Qed.

(** The diamond [n0 → n1, n2 → n3], compiled. *)
Definition ex_cg : CompiledGraph :=
  match compile ex_node ex_diamond with Some (ROk cg) => cg | _ => mkCompiled [] ∅ ∅ [] [] [] [] [] [] [] end.

Lemma ex_cg_compiled : compile ex_node ex_diamond = Some (ROk ex_cg).
Proof. unfold ex_cg. destruct ex_compiled_indices as [(cg & ->)%ex_compiled_some _]. done. Qed.

Lemma ex_cg_facts :
  0 < length (cg_nodes ex_cg) ∧ length (m_nodes ex_diamond) ≤ 999 ∧
  3 < length (cg_nodes ex_cg) ∧ (1 < inDegree ex_cg 3)%Z ∧
  findLowestCommonFork elements ex_cg 3 = Some (mkFork 0 [[1]; [2]]).
Proof. vm_compute. split_and!; done || lia. Qed.

Lemma ex_cg_walk : walk (successors ex_cg) 0 [2; 3] 3 ∧ NoDup [0; 2; 3].
Proof.
  split; [|apply (bool_decide_unpack _); vm_compute; exact I].
  cbn [walk]. split; [|split; [|done]]; apply (bool_decide_unpack _); vm_compute; exact I.
Qed.

Lemma findAllPaths_correct_witness : [2] ∈ findAllPaths ex_cg 0 3.
Proof.
  apply (findAllPaths_correct ex_node ex_diamond ex_cg 0 3 ex_diamond_reachable
           (proj2 (proj2 ex_compiled_indices)) ex_cg_compiled (proj1 ex_cg_facts)).
  exact ex_cg_walk.
Defined.

Lemma findLowestCommonFork_correct_witness :
  findLowestCommonFork elements ex_cg 3 = Some (mkFork 0 [[1]; [2]]) ∧
  ∀ p, p ∈ predecessors ex_cg 3 → ancestor ex_cg p 0.
Proof.
  destruct ex_cg_facts as (_ & Hn & _ & _ & Hr). split; [exact Hr|].
  pose proof (findLowestCommonFork_correct ex_node ex_diamond ex_cg elements 3 ex_diamond_reachable
                ex_cg_compiled Hn (λ s, Permutation_refl _)) as H.
  rewrite Hr in H. exact (proj1 (proj2 H)).
Defined.

Lemma fork_join_drop_coordination_witness :
  let s := foldl ja_step (initialize elements ex_node newJoinAware ex_cg) [JProcessed (name_at ex_node ex_cg 2) 5] in
  let '(s', affected) := ja_reportDrop s (name_at ex_node ex_cg 1) 6 "overflow" in
  branch_name 1 ∈ affected ∧
  ja_shouldDrop (foldl ja_step s' [JProcessed (name_at ex_node ex_cg 1) 7]) (name_at ex_node ex_cg 2) 6 = true.
Proof.
  destruct ex_cg_facts as (_ & _ & Hj & Hd & Hr).
  apply (fork_join_drop_coordination elements ex_node newJoinAware ex_cg 3 _ 0 1 [1] [2] 1 2 6 "overflow"
           [JProcessed (name_at ex_node ex_cg 2) 5] [JProcessed (name_at ex_node ex_cg 1) 7] Hj Hd Hr).
  - reflexivity.
  - reflexivity.
  - discriminate.
  - apply list_elem_of_singleton. reflexivity.
  - apply list_elem_of_singleton. reflexivity.
  - constructor; [simpl; lia|constructor].
Defined.
