(* ===== verification/ExecutionTypes.v ===== *)
(** * Execution types and statistics

    The enumerations, configuration records and statistics of
    [include/ai_pipe/execution_types.hpp].  Counters are 64-bit words; [double]
    values are IEEE binary64 numbers ([spec_float] with 53 bits of precision and
    exponent bound 1024), computed operation by operation as the code does.  The
    relaxed atomics of the statistics are read and written by one operation at a
    time.

    The theorems: the latency histogram counts each sample in the bucket its
    bounds announce, a percentile is the least bound below which the asked number
    of samples lies, and the per-node counters account for every execution. *)

From Stdlib Require Import Ascii Floats.SpecFloat.
From S2P Require Import Prelude Packets.
Local Open Scope string_scope.
Local Open Scope nat_scope.
Local Open Scope list_scope.
Local Open Scope Z_scope.

(** ** Doubles *)

Notation double := spec_float (only parsing).

(** [static_cast<double>] of an integer. *)
Definition to_double (z : Z) : double := binary_normalize 53 1024 z 0 false.
Definition dmul (x y : double) : double := SFmul 53 1024 x y.
Definition ddiv (x y : double) : double := SFdiv 53 1024 x y.
Definition dsub (x y : double) : double := SFsub 53 1024 x y.

(** [static_cast] of a double to an integer type: truncation. *)
Definition trunc_double (x : double) : Z :=
  match x with
  | S754_finite sign m e =>
      let v := if decide (0 ≤ e) then Z.pos m * 2 ^ e else Z.pos m / 2 ^ (- e) in
      if sign then - v else v
  | _ => 0
  end.

Definition dzero : double := S754_zero false.
Definition dhundred : double := to_double 100.

(** *** A double on a stream: six significant digits, the [%g] of C *)

(** The largest exponent of ten, from [x] down, that is not above [num / den]. *)
Fixpoint decimal_exponent (fuel : nat) (x num den : Z) : Z :=
  match fuel with
  | O => x
  | S fuel =>
      if (if decide (0 ≤ x) then bool_decide (10 ^ x * den ≤ num) else bool_decide (den ≤ num * 10 ^ (- x))) then x
      else decimal_exponent fuel (x - 1) num den
  end.

(** [num / den / 10 ^ x] to the nearest integer, ties to even. *)
Definition round_scaled (num den x : Z) : Z :=
  let n := if decide (0 ≤ x) then num else num * 10 ^ (- x) in
  let d := if decide (0 ≤ x) then den * 10 ^ x else den in
  let q := n / d in
  let r := n mod d in
  if decide (2 * r < d) then q
  else if decide (d < 2 * r) then q + 1
  else if Z.even q then q else q + 1.

Fixpoint strip_zeros (s : string) : string :=
  match s with
  | EmptyString => EmptyString
  | String c rest =>
      match strip_zeros rest with
      | EmptyString => if decide (c = "0"%char) then EmptyString else String c EmptyString
      | t => String c t
      end
  end.

Definition point (digits : string) : string := match digits with EmptyString => "" | _ => "." +:+ digits end.

(** [digits] has six digits and stands for [digits * 10 ^ (x - 5)]. *)
Definition general_format (digits : string) (x : Z) : string :=
  if decide (x < -4 ∨ 6 ≤ x) then
    String.substring 0 1 digits +:+ point (strip_zeros (String.substring 1 5 digits)) +:+
    (if decide (x < 0) then "e-" else "e+") +:+ (if decide (Z.abs x < 10) then "0" else "") +:+ pretty (Z.abs x)
  else if decide (0 ≤ x) then
    String.substring 0 (Z.to_nat (x + 1)) digits +:+
    point (strip_zeros (String.substring (Z.to_nat (x + 1)) (Z.to_nat (5 - x)) digits))
  else "0." +:+ String.substring 0 (Z.to_nat (- x - 1)) "000" +:+ strip_zeros digits.

(** The exponent of a double is between [-324] and [308]. *)
Definition print_double (v : double) : string :=
  match v with
  | S754_zero sign => if sign then "-0" else "0"
  | S754_infinity sign => if sign then "-inf" else "inf"
  | S754_nan => "nan"
  | S754_finite sign m e =>
      let num := if decide (0 ≤ e) then Z.pos m * 2 ^ e else Z.pos m in
      let den := if decide (0 ≤ e) then 1 else 2 ^ (- e) in
      let x := decimal_exponent 633 308 num den in
      let digits := round_scaled num den (x - 5) in
      (if sign then "-" else "") +:+
      (if decide (digits = 1000000) then general_format "100000" (x + 1) else general_format (pretty digits) x)
  end.

Example print_doubles :
  print_double <$> [dhundred; ddiv (to_double 200) (to_double 3); ddiv (to_double 1) (to_double 8); to_double 123456789;
    to_double 999999; ddiv (to_double 9999999) (to_double 10); ddiv (to_double (-1)) (to_double 30000); dsub dzero dhundred; ddiv (to_double 1) dzero] =
  ["100"; "66.6667"; "0.125"; "1.23457e+08"; "999999"; "1e+06"; "-3.33333e-05"; "-100"; "inf"].
Proof. vm_compute. reflexivity. Qed.

(** ** Enumerations *)

(** src/include/ai_pipe/execution_types.hpp:19-22 ExecutionMode *)
Inductive ExecutionMode := BATCH | STREAM.

(** src/include/ai_pipe/execution_types.hpp:27-35 executionModeToString *)
Definition executionModeToString (mode : ExecutionMode) : string :=
  match mode with BATCH => "BATCH" | STREAM => "STREAM" end.

(** src/include/ai_pipe/execution_types.hpp:58-62 AlignmentPolicy *)
Inductive AlignmentPolicy := AP_FrameId | AP_StreamFrameId | AP_Timestamp.

(** src/include/ai_pipe/execution_types.hpp:67-77 alignmentPolicyToString *)
Definition alignmentPolicyToString (policy : AlignmentPolicy) : string :=
  match policy with
  | AP_FrameId => "FrameId" | AP_StreamFrameId => "StreamFrameId" | AP_Timestamp => "Timestamp"
  end.

(** src/include/ai_pipe/execution_types.hpp:93-96 JoinTimeoutPolicy *)
Inductive JoinTimeoutPolicy := PartialInputs | SkipFrame.

(** src/include/ai_pipe/execution_types.hpp:101-109 joinTimeoutPolicyToString *)
Definition joinTimeoutPolicyToString (policy : JoinTimeoutPolicy) : string :=
  match policy with PartialInputs => "PartialInputs" | SkipFrame => "SkipFrame" end.

#[export] Instance ExecutionMode_eq : EqDecision ExecutionMode.
Proof. solve_decision. Defined.
#[export] Instance AlignmentPolicy_eq : EqDecision AlignmentPolicy.
Proof. solve_decision. Defined.
#[export] Instance JoinTimeoutPolicy_eq : EqDecision JoinTimeoutPolicy.
Proof. solve_decision. Defined.

(** ** Configuration *)

(** src/include/ai_pipe/execution_types.hpp:114-125 QueueConfig *)
Record QueueConfig := mkQueueConfig {
  qcfg_capacity : Z;
  qcfg_drop_strategy : string;
  qcfg_keep_latest_n : Z;
  qcfg_track_statistics : bool;
}.

(** src/include/ai_pipe/execution_types.hpp:140-143 PushStatus::Outcome *)
Inductive PushOutcome := Enqueued | Dropped.

(** src/include/ai_pipe/execution_types.hpp:139-158 PushStatus *)
Record PushStatus := mkPushStatus { ps_outcome : PushOutcome; ps_detail : string; ps_queue_size : Z }.

(** src/include/ai_pipe/execution_types.hpp:151-153 PushStatus::enqueued *)
Definition push_enqueued (size : Z) : PushStatus := mkPushStatus Enqueued "success" size.

(** src/include/ai_pipe/execution_types.hpp:155-157 PushStatus::dropped *)
Definition push_dropped (reason : string) (size : Z) : PushStatus := mkPushStatus Dropped reason size.

(** src/include/ai_pipe/execution_types.hpp:163-230 EngineConfig; durations in the unit of their type *)
Record EngineConfig := mkEngineConfig {
  ec_mode : ExecutionMode;
  ec_num_workers : Z;
  ec_default_queue_capacity : Z;
  ec_default_drop_strategy : string;
  ec_enable_sync_coordination : bool;
  ec_allow_partial_inputs : bool;
  ec_min_execution_interval_ms : Z;
  ec_alignment_policy : AlignmentPolicy;
  ec_alignment_tolerance_us : Z;
  ec_join_wait_timeout_ms : Z;
  ec_join_timeout_policy : JoinTimeoutPolicy;
  ec_enable_statistics : bool;
  ec_enable_drop_logging : bool;
}.

(** src/include/ai_pipe/execution_types.hpp:212-219 EngineConfig::batch *)
Definition config_batch (workers : Z) : EngineConfig :=
  mkEngineConfig BATCH workers 0 "DropHead" false false 0 AP_FrameId 33000 0 PartialInputs true true.

(** src/include/ai_pipe/execution_types.hpp:221-229 EngineConfig::stream *)
Definition config_stream (workers queue_capacity : Z) : EngineConfig :=
  mkEngineConfig STREAM workers queue_capacity "DropHead" true false 0 AP_FrameId 33000 0 PartialInputs true true.

(** ** The latency histogram *)

(** src/include/ai_pipe/execution_types.hpp:241-241 LatencyHistogram::k_num_buckets *)
Definition k_num_buckets : nat := 16.

(** src/include/ai_pipe/execution_types.hpp:243-245 LatencyHistogram::k_bucket_bounds *)
Definition k_bucket_bounds : list Z :=
  [10; 25; 50; 100; 250; 500; 1000; 2500; 5000; 10000; 25000; 50000; 100000; 250000; 500000].

(** src/include/ai_pipe/execution_types.hpp:249-253 LatencyHistogram::LatencyHistogram *)
Definition newHistogram : list Z := replicate k_num_buckets 0.

(** src/include/ai_pipe/execution_types.hpp:255-262 LatencyHistogram::getBucketIndex *)
Definition getBucketIndex (latency_us : Z) : nat :=
  foldr (λ ib rest, if decide (latency_us < snd ib) then fst ib else rest) (k_num_buckets - 1)%nat
    (zip (seq 0 (length k_bucket_bounds)) k_bucket_bounds).

(** src/include/ai_pipe/execution_types.hpp:264-267 LatencyHistogram::record *)
Definition record (buckets : list Z) (latency_us : Z) : list Z :=
  alter (λ c, wrap64 (c + 1)) (getBucketIndex latency_us) buckets.

(** src/include/ai_pipe/execution_types.hpp:269-273 LatencyHistogram::reset *)
Definition histogram_reset (buckets : list Z) : list Z := (λ _, 0) <$> buckets.

(** src/include/ai_pipe/execution_types.hpp:275-281 LatencyHistogram::totalCount *)
Definition totalCount (buckets : list Z) : Z := foldl (λ total c, wrap64 (total + c)) 0 buckets.

(** src/include/ai_pipe/execution_types.hpp:283-306 LatencyHistogram::getBucketLabel *)
Definition getBucketLabel (index : nat) : string :=
  if decide (index = 0%nat) then "<10us"
  else if decide (k_num_buckets - 1 ≤ index)%nat then ">=500ms"
  else
    let bound := default 0 (k_bucket_bounds !! index) in
    if decide (bound < 1000) then "<" +:+ pretty bound +:+ "us"
    else if decide (bound < 1000000) then
      if decide (bound `mod` 1000 = 0) then "<" +:+ pretty (bound `div` 1000) +:+ "ms"
      else
        let ms := ddiv (to_double bound) (to_double 1000) in
        let decimal := trunc_double (dmul (dsub ms (to_double (trunc_double ms))) (to_double 10)) in
        "<" +:+ pretty (trunc_double ms) +:+ (if decide (0 < decimal) then "." +:+ pretty decimal else "") +:+ "ms"
    else "<" +:+ pretty (bound `div` 1000) +:+ "ms".

(** ** Statistics of a node *)

(** src/include/ai_pipe/execution_types.hpp:311-324 NodeStatistics *)
Record NodeStatistics := mkNodeStatistics {
  ns_node_name : string;
  ns_execution_count : Z;
  ns_success_count : Z;
  ns_failure_count : Z;
  ns_total_processing_us : Z;
  ns_min_processing_us : Z;
  ns_max_processing_us : Z;
  ns_total_input_count : Z;
  ns_total_output_count : Z;
  ns_current_queue_depth : Z;
}.

Definition ratio (num den : Z) (otherwise : double) : double :=
  if decide (den = 0) then otherwise else ddiv (to_double num) (to_double den).

Definition percentage (num den : Z) (otherwise : double) : double :=
  if decide (den = 0) then otherwise else ddiv (dmul dhundred (to_double num)) (to_double den).

(** src/include/ai_pipe/execution_types.hpp:326-331 NodeStatistics::avgProcessingTimeUs *)
Definition ns_avgProcessingTimeUs (s : NodeStatistics) : double :=
  ratio (ns_total_processing_us s) (ns_success_count s) dzero.

(** src/include/ai_pipe/execution_types.hpp:333-338 NodeStatistics::successRate *)
Definition ns_successRate (s : NodeStatistics) : double :=
  percentage (ns_success_count s) (ns_execution_count s) dhundred.

(** src/include/ai_pipe/execution_types.hpp:341-350 AtomicNodeStatistics (data members) *)
Record AtomicNodeStatistics := mkANS {
  as_execution_count : Z;
  as_success_count : Z;
  as_failure_count : Z;
  as_total_processing_us : Z;
  as_min_processing_us : Z;
  as_max_processing_us : Z;
  as_total_input_count : Z;
  as_total_output_count : Z;
}.

(** src/include/ai_pipe/execution_types.hpp:395-405 AtomicNodeStatistics::reset *)
Definition as_reset : AtomicNodeStatistics := mkANS 0 0 0 0 u64_max 0 0 0.

(** src/include/ai_pipe/execution_types.hpp:352-355 AtomicNodeStatistics::recordIo *)
Definition recordIo (s : AtomicNodeStatistics) (inputs outputs : Z) : AtomicNodeStatistics :=
  mkANS (as_execution_count s) (as_success_count s) (as_failure_count s) (as_total_processing_us s)
    (as_min_processing_us s) (as_max_processing_us s)
    (wrap64 (as_total_input_count s + inputs)) (wrap64 (as_total_output_count s + outputs)).

(** src/include/ai_pipe/execution_types.hpp:357-378 AtomicNodeStatistics::recordExecution *)
Definition recordExecution (s : AtomicNodeStatistics) (success : bool) (processing_us : Z) : AtomicNodeStatistics :=
  mkANS (wrap64 (as_execution_count s + 1))
    (if success then wrap64 (as_success_count s + 1) else as_success_count s)
    (if success then as_failure_count s else wrap64 (as_failure_count s + 1))
    (wrap64 (as_total_processing_us s + processing_us))
    (if decide (processing_us < as_min_processing_us s) then processing_us else as_min_processing_us s)
    (if decide (as_max_processing_us s < processing_us) then processing_us else as_max_processing_us s)
    (as_total_input_count s) (as_total_output_count s).

(** src/include/ai_pipe/execution_types.hpp:380-393 AtomicNodeStatistics::snapshot *)
Definition as_snapshot (s : AtomicNodeStatistics) (name : string) : NodeStatistics :=
  mkNodeStatistics name (as_execution_count s) (as_success_count s) (as_failure_count s)
    (as_total_processing_us s) (as_min_processing_us s) (as_max_processing_us s)
    (as_total_input_count s) (as_total_output_count s) 0.

(** ** Statistics of the engine *)

(** src/include/ai_pipe/execution_types.hpp:410-443 EngineStatistics (data members); times in
    nanoseconds of the steady clock *)
Record EngineStatistics := mkES {
  es_total_executions : Z;
  es_successful_executions : Z;
  es_failed_executions : Z;
  es_total_input_frames : Z;
  es_total_output_frames : Z;
  es_total_dropped_frames : Z;
  es_total_join_timeouts : Z;
  es_total_queue_pushes : Z;
  es_total_queue_pops : Z;
  es_queue_full_events : Z;
  es_total_processing_time_us : Z;
  es_total_wait_time_us : Z;
  es_total_schedule_time_us : Z;
  es_latency_histogram : list Z;
  es_start_time : Z;
}.

(** src/include/ai_pipe/execution_types.hpp:445-461 EngineStatistics::reset *)
Definition es_reset (s : EngineStatistics) (now : Z) : EngineStatistics :=
  mkES 0 0 0 0 0 0 0 0 0 0 0 0 0 (histogram_reset (es_latency_histogram s)) now.

(** src/include/ai_pipe/execution_types.hpp:443-443 EngineStatistics::EngineStatistics *)
Definition newEngineStatistics (now : Z) : EngineStatistics := mkES 0 0 0 0 0 0 0 0 0 0 0 0 0 newHistogram now.

(** [fetch_add] on each counter. *)
Definition es_add_total_executions (s : EngineStatistics) (n : Z) : EngineStatistics :=
  mkES (wrap64 (es_total_executions s + n)) (es_successful_executions s) (es_failed_executions s)
    (es_total_input_frames s) (es_total_output_frames s) (es_total_dropped_frames s) (es_total_join_timeouts s)
    (es_total_queue_pushes s) (es_total_queue_pops s) (es_queue_full_events s) (es_total_processing_time_us s)
    (es_total_wait_time_us s) (es_total_schedule_time_us s) (es_latency_histogram s) (es_start_time s).
Definition es_add_successful_executions (s : EngineStatistics) (n : Z) : EngineStatistics :=
  mkES (es_total_executions s) (wrap64 (es_successful_executions s + n)) (es_failed_executions s)
    (es_total_input_frames s) (es_total_output_frames s) (es_total_dropped_frames s) (es_total_join_timeouts s)
    (es_total_queue_pushes s) (es_total_queue_pops s) (es_queue_full_events s) (es_total_processing_time_us s)
    (es_total_wait_time_us s) (es_total_schedule_time_us s) (es_latency_histogram s) (es_start_time s).
Definition es_add_failed_executions (s : EngineStatistics) (n : Z) : EngineStatistics :=
  mkES (es_total_executions s) (es_successful_executions s) (wrap64 (es_failed_executions s + n))
    (es_total_input_frames s) (es_total_output_frames s) (es_total_dropped_frames s) (es_total_join_timeouts s)
    (es_total_queue_pushes s) (es_total_queue_pops s) (es_queue_full_events s) (es_total_processing_time_us s)
    (es_total_wait_time_us s) (es_total_schedule_time_us s) (es_latency_histogram s) (es_start_time s).
Definition es_add_total_input_frames (s : EngineStatistics) (n : Z) : EngineStatistics :=
  mkES (es_total_executions s) (es_successful_executions s) (es_failed_executions s)
    (wrap64 (es_total_input_frames s + n)) (es_total_output_frames s) (es_total_dropped_frames s)
    (es_total_join_timeouts s) (es_total_queue_pushes s) (es_total_queue_pops s) (es_queue_full_events s)
    (es_total_processing_time_us s) (es_total_wait_time_us s) (es_total_schedule_time_us s)
    (es_latency_histogram s) (es_start_time s).
Definition es_add_total_output_frames (s : EngineStatistics) (n : Z) : EngineStatistics :=
  mkES (es_total_executions s) (es_successful_executions s) (es_failed_executions s) (es_total_input_frames s)
    (wrap64 (es_total_output_frames s + n)) (es_total_dropped_frames s) (es_total_join_timeouts s)
    (es_total_queue_pushes s) (es_total_queue_pops s) (es_queue_full_events s) (es_total_processing_time_us s)
    (es_total_wait_time_us s) (es_total_schedule_time_us s) (es_latency_histogram s) (es_start_time s).
Definition es_add_total_dropped_frames (s : EngineStatistics) (n : Z) : EngineStatistics :=
  mkES (es_total_executions s) (es_successful_executions s) (es_failed_executions s) (es_total_input_frames s)
    (es_total_output_frames s) (wrap64 (es_total_dropped_frames s + n)) (es_total_join_timeouts s)
    (es_total_queue_pushes s) (es_total_queue_pops s) (es_queue_full_events s) (es_total_processing_time_us s)
    (es_total_wait_time_us s) (es_total_schedule_time_us s) (es_latency_histogram s) (es_start_time s).
Definition es_add_total_join_timeouts (s : EngineStatistics) (n : Z) : EngineStatistics :=
  mkES (es_total_executions s) (es_successful_executions s) (es_failed_executions s) (es_total_input_frames s)
    (es_total_output_frames s) (es_total_dropped_frames s) (wrap64 (es_total_join_timeouts s + n))
    (es_total_queue_pushes s) (es_total_queue_pops s) (es_queue_full_events s) (es_total_processing_time_us s)
    (es_total_wait_time_us s) (es_total_schedule_time_us s) (es_latency_histogram s) (es_start_time s).
Definition es_add_total_queue_pushes (s : EngineStatistics) (n : Z) : EngineStatistics :=
  mkES (es_total_executions s) (es_successful_executions s) (es_failed_executions s) (es_total_input_frames s)
    (es_total_output_frames s) (es_total_dropped_frames s) (es_total_join_timeouts s)
    (wrap64 (es_total_queue_pushes s + n)) (es_total_queue_pops s) (es_queue_full_events s)
    (es_total_processing_time_us s) (es_total_wait_time_us s) (es_total_schedule_time_us s)
    (es_latency_histogram s) (es_start_time s).
Definition es_add_total_queue_pops (s : EngineStatistics) (n : Z) : EngineStatistics :=
  mkES (es_total_executions s) (es_successful_executions s) (es_failed_executions s) (es_total_input_frames s)
    (es_total_output_frames s) (es_total_dropped_frames s) (es_total_join_timeouts s) (es_total_queue_pushes s)
    (wrap64 (es_total_queue_pops s + n)) (es_queue_full_events s) (es_total_processing_time_us s)
    (es_total_wait_time_us s) (es_total_schedule_time_us s) (es_latency_histogram s) (es_start_time s).
Definition es_add_queue_full_events (s : EngineStatistics) (n : Z) : EngineStatistics :=
  mkES (es_total_executions s) (es_successful_executions s) (es_failed_executions s) (es_total_input_frames s)
    (es_total_output_frames s) (es_total_dropped_frames s) (es_total_join_timeouts s) (es_total_queue_pushes s)
    (es_total_queue_pops s) (wrap64 (es_queue_full_events s + n)) (es_total_processing_time_us s)
    (es_total_wait_time_us s) (es_total_schedule_time_us s) (es_latency_histogram s) (es_start_time s).
Definition es_add_total_processing_time_us (s : EngineStatistics) (n : Z) : EngineStatistics :=
  mkES (es_total_executions s) (es_successful_executions s) (es_failed_executions s) (es_total_input_frames s)
    (es_total_output_frames s) (es_total_dropped_frames s) (es_total_join_timeouts s) (es_total_queue_pushes s)
    (es_total_queue_pops s) (es_queue_full_events s) (wrap64 (es_total_processing_time_us s + n))
    (es_total_wait_time_us s) (es_total_schedule_time_us s) (es_latency_histogram s) (es_start_time s).
Definition es_add_total_wait_time_us (s : EngineStatistics) (n : Z) : EngineStatistics :=
  mkES (es_total_executions s) (es_successful_executions s) (es_failed_executions s) (es_total_input_frames s)
    (es_total_output_frames s) (es_total_dropped_frames s) (es_total_join_timeouts s) (es_total_queue_pushes s)
    (es_total_queue_pops s) (es_queue_full_events s) (es_total_processing_time_us s)
    (wrap64 (es_total_wait_time_us s + n)) (es_total_schedule_time_us s) (es_latency_histogram s)
    (es_start_time s).
Definition es_add_total_schedule_time_us (s : EngineStatistics) (n : Z) : EngineStatistics :=
  mkES (es_total_executions s) (es_successful_executions s) (es_failed_executions s) (es_total_input_frames s)
    (es_total_output_frames s) (es_total_dropped_frames s) (es_total_join_timeouts s) (es_total_queue_pushes s)
    (es_total_queue_pops s) (es_queue_full_events s) (es_total_processing_time_us s) (es_total_wait_time_us s)
    (wrap64 (es_total_schedule_time_us s + n)) (es_latency_histogram s) (es_start_time s).

(** src/include/ai_pipe/execution_types.hpp:463-465 EngineStatistics::recordLatency *)
Definition recordLatency (s : EngineStatistics) (latency_us : Z) : EngineStatistics :=
  mkES (es_total_executions s) (es_successful_executions s) (es_failed_executions s)
    (es_total_input_frames s) (es_total_output_frames s) (es_total_dropped_frames s)
    (es_total_join_timeouts s) (es_total_queue_pushes s) (es_total_queue_pops s) (es_queue_full_events s)
    (es_total_processing_time_us s) (es_total_wait_time_us s) (es_total_schedule_time_us s)
    (record (es_latency_histogram s) latency_us) (es_start_time s).

(** src/include/ai_pipe/execution_types.hpp:467-473 EngineStatistics::successRate *)
Definition es_successRate (s : EngineStatistics) : double :=
  percentage (es_successful_executions s) (es_total_executions s) dhundred.

(** src/include/ai_pipe/execution_types.hpp:475-482 EngineStatistics::dropRate *)
Definition es_dropRate (s : EngineStatistics) : double :=
  percentage (es_total_dropped_frames s) (wrap64 (es_total_output_frames s + es_total_dropped_frames s)) dzero.

Definition ns_per_s : Z := 1000000000.

(** src/include/ai_pipe/execution_types.hpp:484-492 EngineStatistics::throughput *)
Definition es_throughput (s : EngineStatistics) (now : Z) : double :=
  ratio (es_total_output_frames s) (Z.quot (now - es_start_time s) ns_per_s) dzero.

(** src/include/ai_pipe/execution_types.hpp:494-500 EngineStatistics::inputOutputRatio *)
Definition es_inputOutputRatio (s : EngineStatistics) : double :=
  ratio (es_total_input_frames s) (es_total_output_frames s) dzero.

(** src/include/ai_pipe/execution_types.hpp:502-508 EngineStatistics::avgProcessingTimeUs *)
Definition es_avgProcessingTimeUs (s : EngineStatistics) : double :=
  ratio (es_total_processing_time_us s) (es_successful_executions s) dzero.

(** src/include/ai_pipe/execution_types.hpp:510-516 EngineStatistics::avgWaitTimeUs *)
Definition es_avgWaitTimeUs (s : EngineStatistics) : double :=
  ratio (es_total_wait_time_us s) (es_total_queue_pops s) dzero.

(** src/include/ai_pipe/execution_types.hpp:518-524 EngineStatistics::avgScheduleTimeUs *)
Definition es_avgScheduleTimeUs (s : EngineStatistics) : double :=
  ratio (es_total_schedule_time_us s) (es_total_executions s) dzero.

(** src/include/ai_pipe/execution_types.hpp:537-565 EngineStatisticsSnapshot (data members) *)
Record EngineStatisticsSnapshot := mkSnapshot {
  sn_stats : EngineStatistics;
  sn_success_rate : double;
  sn_drop_rate : double;
  sn_throughput : double;
  sn_snapshot_time : Z;
  sn_node_stats : list NodeStatistics;
}.

(** src/include/ai_pipe/execution_types.hpp:567-571 EngineStatisticsSnapshot::EngineStatisticsSnapshot() *)
Definition emptySnapshot (now : Z) : EngineStatisticsSnapshot :=
  mkSnapshot (newEngineStatistics now) dzero dzero dzero now [].

(** src/include/ai_pipe/execution_types.hpp:573-611 EngineStatisticsSnapshot::EngineStatisticsSnapshot;
    every counter and bucket is copied *)
Definition takeSnapshot (s : EngineStatistics) (now : Z) : EngineStatisticsSnapshot :=
  mkSnapshot s (es_successRate s) (es_dropRate s) (es_throughput s now) now [].

(** src/include/ai_pipe/execution_types.hpp:613-615 EngineStatisticsSnapshot::totalFramesProcessed *)
Definition sn_totalFramesProcessed (sn : EngineStatisticsSnapshot) : Z := es_total_output_frames (sn_stats sn).

(** src/include/ai_pipe/execution_types.hpp:617-619 EngineStatisticsSnapshot::totalFramesDropped *)
Definition sn_totalFramesDropped (sn : EngineStatisticsSnapshot) : Z := es_total_dropped_frames (sn_stats sn).

(** src/include/ai_pipe/execution_types.hpp:621-626 EngineStatisticsSnapshot::inputOutputRatio *)
Definition sn_inputOutputRatio (sn : EngineStatisticsSnapshot) : double :=
  ratio (es_total_input_frames (sn_stats sn)) (es_total_output_frames (sn_stats sn)) dzero.

(** src/include/ai_pipe/execution_types.hpp:628-633 EngineStatisticsSnapshot::avgProcessingTimeUs *)
Definition sn_avgProcessingTimeUs (sn : EngineStatisticsSnapshot) : double :=
  ratio (es_total_processing_time_us (sn_stats sn)) (es_successful_executions (sn_stats sn)) dzero.

(** src/include/ai_pipe/execution_types.hpp:635-640 EngineStatisticsSnapshot::avgWaitTimeUs *)
Definition sn_avgWaitTimeUs (sn : EngineStatisticsSnapshot) : double :=
  ratio (es_total_wait_time_us (sn_stats sn)) (es_total_queue_pops (sn_stats sn)) dzero.

(** src/include/ai_pipe/execution_types.hpp:642-647 EngineStatisticsSnapshot::avgScheduleTimeUs *)
Definition sn_avgScheduleTimeUs (sn : EngineStatisticsSnapshot) : double :=
  ratio (es_total_schedule_time_us (sn_stats sn)) (es_total_executions (sn_stats sn)) dzero.

(** src/include/ai_pipe/execution_types.hpp:675-686 EngineStatisticsSnapshot::latencyPercentiles
    (get_percentile, the loop) *)
Fixpoint percentile_go (target : Z) (i : nat) (cumulative : Z) (buckets : list Z) : Z :=
  match buckets with
  | [] => 500000
  | c :: rest =>
      let cumulative := wrap64 (cumulative + c) in
      if decide (target ≤ cumulative) then default 500000 (k_bucket_bounds !! i)
      else percentile_go target (S i) cumulative rest
  end.

(** src/include/ai_pipe/execution_types.hpp:672-687 EngineStatisticsSnapshot::latencyPercentiles
    (get_percentile, from the target count on) *)
Definition percentile_at (buckets : list Z) (target : Z) : Z := percentile_go target 0 0 buckets.

(** src/include/ai_pipe/execution_types.hpp:673-674 EngineStatisticsSnapshot::latencyPercentiles
    (target) *)
Definition percentile_target (total : Z) (percentile : double) : Z :=
  trunc_double (ddiv (dmul (to_double total) percentile) dhundred).

(** The literals 50.0, 90.0, 95.0, 99.0 and 99.9. *)
Definition percentiles : list (string * double) :=
  [("p50", to_double 50); ("p90", to_double 90); ("p95", to_double 95); ("p99", to_double 99);
   ("p99.9", ddiv (to_double 999) (to_double 10))].

(** src/include/ai_pipe/execution_types.hpp:654-696 EngineStatisticsSnapshot::latencyPercentiles *)
Definition latencyPercentiles (sn : EngineStatisticsSnapshot) : list (string * double) :=
  let buckets := es_latency_histogram (sn_stats sn) in
  let total := totalCount buckets in
  if decide (total = 0) then (λ np, (fst np, dzero)) <$> percentiles
  else (λ np, (fst np, to_double (percentile_at buckets (percentile_target total (snd np))))) <$> percentiles.

(** src/include/ai_pipe/execution_types.hpp:698-709 EngineStatisticsSnapshot::histogramData *)
Definition histogramData (sn : EngineStatisticsSnapshot) : list (string * Z) :=
  (λ i, (getBucketLabel i, default 0 (es_latency_histogram (sn_stats sn) !! i))) <$> seq 0 k_num_buckets.

(** ** The histogram: lemmas *)

Definition count (P : Z → Prop) `{∀ x, Decision (P x)} (samples : list Z) : Z :=
  Z.of_nat (length (filter P samples)).

Lemma count_le P Q `{∀ x, Decision (P x), ∀ x, Decision (Q x)} samples :
  (∀ x, x ∈ samples → P x → Q x) → count P samples ≤ count Q samples.
Proof.
  unfold count. induction samples as [|x l IH]; intros HPQ; [done|]. rewrite !filter_cons.
  specialize (IH ltac:(set_solver)). specialize (HPQ x ltac:(set_solver)).
  destruct (decide (P x)), (decide (Q x)); simpl; try lia. tauto.
Qed.

Lemma count_ext P Q `{∀ x, Decision (P x), ∀ x, Decision (Q x)} samples :
  (∀ x, x ∈ samples → P x ↔ Q x) → count P samples = count Q samples.
Proof. intros HPQ. unfold count. by rewrite (filter_ext_elem P Q). Qed.

Lemma count_or P Q `{∀ x, Decision (P x), ∀ x, Decision (Q x)} samples :
  (∀ x, P x → Q x → False) → count (λ x, P x ∨ Q x) samples = count P samples + count Q samples.
Proof.
  unfold count. intros Hd. induction samples as [|x l IH]; [done|]. rewrite !filter_cons.
  destruct (decide (P x)), (decide (Q x)); destruct (decide (P x ∨ Q x)); simpl; try tauto; try lia.
  exfalso. eauto.
Qed.

Lemma count_bounds P `{∀ x, Decision (P x)} samples : 0 ≤ count P samples ≤ Z.of_nat (length samples).
Proof. unfold count. pose proof (length_filter P samples). lia. Qed.

Lemma count_all P `{∀ x, Decision (P x)} samples : (∀ x, P x) → count P samples = Z.of_nat (length samples).
Proof.
  unfold count. intros HP. induction samples as [|x l IH]; [done|].
  rewrite filter_cons, decide_True by done. simpl. lia.
Qed.

Lemma count_none P `{∀ x, Decision (P x)} samples : (∀ x, ¬ P x) → count P samples = 0.
Proof.
  unfold count. intros HP. induction samples as [|x l IH]; [done|]. by rewrite filter_cons, decide_False.
Qed.

(** A sample is counted at or before bucket [k] exactly if it is below its bound. *)
Lemma getBucketIndex_lt latency_us k b :
  k_bucket_bounds !! k = Some b → (getBucketIndex latency_us < S k)%nat ↔ latency_us < b.
Proof.
  intros Hb. assert (k < 15)%nat as Hk by (by apply lookup_lt_Some in Hb).
  unfold getBucketIndex, k_bucket_bounds, k_num_buckets in *. simpl.
  do 15 (destruct k as [|k]; [injection Hb as <-; repeat case_decide; lia|]). lia.
Qed.

Lemma getBucketIndex_range latency_us : (getBucketIndex latency_us < k_num_buckets)%nat.
Proof.
  unfold getBucketIndex, k_num_buckets, k_bucket_bounds. simpl. repeat (case_decide; [lia|]). lia.
Qed.

Definition histogram (samples : list Z) : list Z := foldl record newHistogram samples.

Lemma histogram_spec samples :
  Z.of_nat (length samples) < u64_mod →
  histogram samples = (λ i, count (λ l, getBucketIndex l = i) samples) <$> seq 0 k_num_buckets.
Proof.
  unfold histogram. induction samples as [|x l IH] using rev_ind; intros Hl; [done|].
  rewrite foldl_snoc, length_app in *. simpl in Hl. rewrite IH by lia. unfold record.
  apply list_eq. intros i. rewrite list_lookup_fmap.
  destruct (decide (getBucketIndex x = i)) as [Hi|Hi].
  - rewrite <-Hi, list_lookup_alter_eq, list_lookup_fmap. pose proof (getBucketIndex_range x) as Hr.
    rewrite lookup_seq_lt by done. simpl. f_equal. unfold count. rewrite filter_app, length_app, filter_cons.
    rewrite decide_True by done. simpl. pose proof (length_filter (λ l0, getBucketIndex l0 = getBucketIndex x) l).
    unfold wrap64. rewrite Z.mod_small; [lia|]. lia.
  - rewrite list_lookup_alter_ne, list_lookup_fmap by done. destruct (seq 0 k_num_buckets !! i) as [j|] eqn:Hj; [|done]. simpl. f_equal.
    apply lookup_seq in Hj as [-> _]. unfold count. rewrite filter_app, length_app, filter_cons.
    simpl. rewrite decide_False by done. simpl. lia.
Qed.

Lemma count_index_step i samples :
  count (λ l, (getBucketIndex l < i)%nat) samples + count (λ l, getBucketIndex l = i) samples =
  count (λ l, (getBucketIndex l < S i)%nat) samples.
Proof.
  rewrite <-count_or by (intros x ? ?; lia). apply count_ext. intros x _. lia.
Qed.

(** The bucket a percentile is read from. *)
Lemma percentile_go_spec samples target n i :
  Z.of_nat (length samples) < u64_mod → (i + n = k_num_buckets)%nat →
  count (λ l, (getBucketIndex l < i)%nat) samples < target ≤ Z.of_nat (length samples) →
  ∃ k, (k < k_num_buckets)%nat ∧
    percentile_go target i (count (λ l, (getBucketIndex l < i)%nat) samples)
      ((λ i, count (λ l, getBucketIndex l = i) samples) <$> seq i n) = default 500000 (k_bucket_bounds !! k) ∧
    count (λ l, (getBucketIndex l < k)%nat) samples < target ≤ count (λ l, (getBucketIndex l < S k)%nat) samples.
Proof.
  intros Hl. revert i. induction n as [|n IH]; intros i Hi Ht.
  - exfalso. assert (i = k_num_buckets) as -> by lia.
    rewrite count_all in Ht by apply getBucketIndex_range. lia.
  - cbn [seq fmap list_fmap percentile_go]. rewrite count_index_step.
    pose proof (count_bounds (λ l, (getBucketIndex l < S i)%nat) samples) as Hb.
    assert (wrap64 (count (λ l, (getBucketIndex l < S i)%nat) samples) =
            count (λ l, (getBucketIndex l < S i)%nat) samples) as -> by (unfold wrap64; rewrite Z.mod_small; lia).
    case_decide as Hd; [exists i; split_and!; [lia|done|lia|lia]|]. apply IH; [lia|]. lia.
Qed.

(** ** Claims *)

(** C38: the latency histogram and its percentiles: after fewer than 2^64 samples
    the total is the number of samples, and the value reported for a target count
    (at least 1) is the least bucket bound below which that many samples lie, or
    500000 when they do not lie below any bound. *)
Theorem percentile_is_least_bound (samples : list Z) (target : Z) :
  Z.of_nat (length samples) < u64_mod → 0 < target ≤ Z.of_nat (length samples) →
  let h := foldl record newHistogram samples in
  totalCount h = Z.of_nat (length samples) ∧ percentile_at h target ∈ k_bucket_bounds ∧
  (target ≤ count (λ l, l < percentile_at h target) samples ∨ percentile_at h target = 500000) ∧
  (∀ b, b ∈ k_bucket_bounds → b < percentile_at h target → count (λ l, l < b) samples < target).
Proof.
  intros Hl Ht h. fold (histogram samples) in h. unfold h. rewrite (histogram_spec samples Hl).
  assert (count (λ l, (getBucketIndex l < 0)%nat) samples = 0) as H0.
  { apply count_none. intros x. lia. }
  split; [|clear h].
  { clear h. unfold totalCount.
    assert (∀ n i, (i + n = k_num_buckets)%nat →
      foldl (λ total c, wrap64 (total + c)) (count (λ l, (getBucketIndex l < i)%nat) samples)
        ((λ i, count (λ l, getBucketIndex l = i) samples) <$> seq i n) =
      count (λ l, (getBucketIndex l < k_num_buckets)%nat) samples) as Hfold.
    { intros n. induction n as [|n IH]; intros i Hi; cbn [seq fmap list_fmap foldl];
        [do 2 f_equal; by replace i with k_num_buckets by lia|].
      rewrite count_index_step. pose proof (count_bounds (λ l, (getBucketIndex l < S i)%nat) samples).
      unfold wrap64 at 2. rewrite Z.mod_small by lia. apply IH. lia. }
    specialize (Hfold k_num_buckets 0%nat eq_refl). rewrite H0 in Hfold. rewrite Hfold.
    apply count_all, getBucketIndex_range. }
  destruct (percentile_go_spec samples target k_num_buckets 0 Hl eq_refl) as (k & Hk & Hp & Hlt & Hge); [lia|].
  unfold percentile_at. rewrite H0 in Hp. rewrite Hp.
  assert (∀ k' b, k_bucket_bounds !! k' = Some b → (k' < k)%nat → count (λ l, l < b) samples < target) as Hbelow.
  { intros k' b Hb Hlt'. eapply Z.le_lt_trans; [|exact Hlt]. apply count_le. intros x _ Hx.
    apply (getBucketIndex_lt x k' b Hb) in Hx. lia. }
  assert (∀ j b, k_bucket_bounds !! j = Some b → ∀ j' b', k_bucket_bounds !! j' = Some b' → b < b' → (j < j')%nat)
    as Hmono.
  { intros j b Hb j' b' Hb' Hbb. destruct (decide (j < j')%nat) as [|Hn]; [done|]. exfalso.
    assert (getBucketIndex b < S j')%nat as Hi by (by apply (getBucketIndex_lt b j' b')).
    assert (¬ (getBucketIndex b < S j)%nat) as Hi' by (rewrite (getBucketIndex_lt b j b Hb); lia). lia. }
  destruct (k_bucket_bounds !! k) as [b|] eqn:Hb; simpl.
  - split_and!; [by eapply list_elem_of_lookup_2| |].
    + left. erewrite count_ext; [exact Hge|]. intros x _. simpl. by rewrite (getBucketIndex_lt x k b Hb).
    + intros b' [k' Hb']%list_elem_of_lookup Hlt'. eapply Hbelow; [done|]. by eapply Hmono.
  - split_and!; [unfold k_bucket_bounds; set_solver|by right|].
    intros b' [k' Hb']%list_elem_of_lookup _. eapply Hbelow; [done|]. apply lookup_lt_Some in Hb'.
    apply lookup_ge_None in Hb. lia.
Qed.

Lemma percentile_is_least_bound_witness :
  percentile_at (foldl record newHistogram [5; 30; 30; 700000]) 3 = 50 ∧
  totalCount (foldl record newHistogram [5; 30; 30; 700000]) = 4.
Proof.
  split; [reflexivity|]. apply (percentile_is_least_bound [5; 30; 30; 700000] 3); unfold u64_mod; simpl; lia.
Defined.

(** The count asked for is rounded down: with few samples it is zero and the
    first bound is reported although no sample lies below it. *)
Lemma percentiles_of_one_sample :
  latencyPercentiles (takeSnapshot (recordLatency (newEngineStatistics 0) 400000) 0) =
  (λ np, (fst np, to_double 10)) <$> percentiles.
Proof. vm_compute. reflexivity. Qed.

(** The labels announce the bounds. *)
Lemma bucket_labels :
  getBucketLabel <$> seq 0 k_num_buckets =
  ["<10us"; "<25us"; "<50us"; "<100us"; "<250us"; "<500us"; "<1ms"; "<2.5ms"; "<5ms"; "<10ms"; "<25ms";
   "<50ms"; "<100ms"; "<250ms"; "<500ms"; ">=500ms"].
Proof. vm_compute. reflexivity. Qed.

(** Executions of a node, as recorded. *)
Definition executions (runs : list (bool * Z)) : AtomicNodeStatistics :=
  foldl (λ s r, recordExecution s (fst r) (snd r)) as_reset runs.

(** The statistics of a node account for its executions: for fewer than 2^64
    of them the execution count is their number, successes and failures add up to
    it, the processing time is their sum modulo 2^64, and the minimum and maximum
    are attained bounds of the recorded times. *)
Theorem node_statistics_account (runs : list (bool * Z)) :
  Z.of_nat (length runs) < u64_mod → (∀ r, r ∈ runs → 0 ≤ snd r ≤ u64_max) →
  let s := as_snapshot (foldl (λ s r, recordExecution s (fst r) (snd r)) as_reset runs) "n" in
  ns_execution_count s = Z.of_nat (length runs) ∧
  ns_success_count s = Z.of_nat (length (filter (λ r, fst r = true) runs)) ∧
  ns_success_count s + ns_failure_count s = ns_execution_count s ∧
  ns_total_processing_us s = wrap64 (foldr (λ r t, snd r + t) 0 runs) ∧
  (∀ r, r ∈ runs → ns_min_processing_us s ≤ snd r ≤ ns_max_processing_us s) ∧
  (runs ≠ [] → ns_min_processing_us s ∈ runs.*2 ∧ ns_max_processing_us s ∈ 0 :: runs.*2).
Proof.
  fold (executions runs). simpl. induction runs as [|[ok us] l IH] using rev_ind; intros Hl Hr.
  { split_and!; try done. by intros r ?%not_elem_of_nil. }
  rewrite length_app in Hl. simpl in Hl. pose proof (Hr (ok, us) ltac:(set_solver)) as Hus. simpl in Hus.
  destruct IH as (H1 & H2 & H3 & H4 & H5 & H6); [lia|intros r Hin; apply Hr; set_solver|].
  unfold executions in *. rewrite foldl_snoc. set (s := foldl _ as_reset l) in *. simpl.
  pose proof (length_filter (λ r, fst r = true) l) as Hf.
  assert (∀ z, 0 ≤ z < u64_mod → wrap64 z = z) as Hw by (intros z Hz; unfold wrap64; by rewrite Z.mod_small).
  assert (as_min_processing_us s = u64_max ∧ as_max_processing_us s = 0 ∨ l ≠ []) as Hl0.
  { destruct l; [left; done|by right]. }
  rewrite H1, H4, length_app, filter_app, length_app, fmap_app, foldr_app, filter_cons. simpl.
  split_and!.
  - rewrite Hw; lia.
  - destruct ok; simpl; [rewrite Hw|]; lia.
  - destruct ok; rewrite !Hw; lia.
  - unfold wrap64. rewrite Zplus_mod_idemp_l. f_equal. clear.
    induction l as [|r l IH]; simpl; lia.
  - intros r [Hin|Hin]%elem_of_app.
    + specialize (H5 r Hin). repeat case_decide; lia.
    + apply list_elem_of_singleton in Hin as ->. simpl. repeat case_decide; lia.
  - intros _. destruct Hl0 as [[Hmin Hmax]|Hne].
    + rewrite Hmin, Hmax. repeat case_decide; set_solver by lia.
    + specialize (H6 Hne) as [Hmin Hmax]. repeat case_decide; set_solver.
Qed.

Lemma node_statistics_account_witness :
  ns_execution_count (as_snapshot (executions [(true, 7); (false, 3)]) "n") = 2.
Proof.
  apply (node_statistics_account [(true, 7); (false, 3)]); [unfold u64_mod; simpl; lia|].
  intros r Hr. apply elem_of_cons in Hr. destruct Hr as [-> | Hr]; [unfold u64_max, u64_mod; simpl; lia|].
  apply list_elem_of_singleton in Hr. rewrite Hr. unfold u64_max, u64_mod; simpl; lia.
Defined.
