(* ===== verification/Registry.v ===== *)
(** * Node types at run time: [NodeRegistry] and [PluginLoader]

    [include/ai_pipe/node_registry.hpp], [src/plugin_loader.cpp] and [plugin.hpp].
    A factory is user code: it takes the state [W] of everything outside the
    framework, the instance name and a configuration packet, and answers with a
    node pointer (possibly null) or an error.  The registry is a map from type
    names to factories.

    A plugin is a shared library.  The dynamic loader, the file system and the
    library's own code are parameters of the model: what [dlopen] runs and what
    the two entry points do are functions on the registry, which may also throw.
    The theorems: a rejected plugin leaves no trace in the registry or the loader,
    and the types a loader brought in are gone when it is destroyed, whatever
    sequence of loads and unloads came before. *)

From Stdlib Require Import Ascii.
From stdpp Require Import sorting.
From S2P Require Import Prelude Errors Packets Graphs.
Local Open Scope string_scope.
Local Open Scope list_scope.

(** A call into foreign code returns a value or throws, with [what()] when the
    exception is a [std::exception]. *)
Inductive Call (A : Type) :=
  | Returned (a : A)
  | Threw (what : option string).
Arguments Returned {A} a.
Arguments Threw {A} what.

(** src/include/ai_pipe/node_registry.hpp:33-34 NodeRegistry::Factory *)
Definition Factory `{CppTypes} (W : Type) : Type :=
  W → string → DataPacket → W * Result (option NodePtr).

(** The registry is its table [m_factories]. *)
Abbreviation NodeRegistry W := (gmap string (Factory W)) (only parsing).

Section Registry.
Context `{CppTypes} {W : Type}.

(** ** The registry *)

(** src/include/ai_pipe/node_registry.hpp:51-62 NodeRegistry::registerFactory; a null
    [std::function] is [None] *)
Definition registerFactory (r : NodeRegistry W) (type_name : string) (factory : option (Factory W)) :
    NodeRegistry W * VoidResult :=
  match factory with
  | Some f =>
      if decide (type_name = "") then
        (r, void_err EC_InvalidArgument "Type name and factory must be non-empty" "")
      else match r !! type_name with
      | Some _ => (r, void_err EC_InvalidArgument ("Node type already registered: " +:+ type_name) "")
      | None => (<[type_name := f]> r, void_ok)
      end
  | None => (r, void_err EC_InvalidArgument "Type name and factory must be non-empty" "")
  end.

(** src/include/ai_pipe/node_registry.hpp:66-73 NodeRegistry::registerNode; [make_shared<Node>] is [ctor] *)
Definition registerNode (r : NodeRegistry W) (ctor : W → string → W * NodePtr) (type_name : string) :
    NodeRegistry W * VoidResult :=
  registerFactory r type_name
    (Some (λ w node_name _, let '(w', p) := ctor w node_name in (w', ROk (Some p)))).

(** src/include/ai_pipe/node_registry.hpp:78-86 NodeRegistry::registerConfiguredNode *)
Definition registerConfiguredNode (r : NodeRegistry W)
    (ctor : W → string → DataPacket → W * NodePtr) (type_name : string) : NodeRegistry W * VoidResult :=
  registerFactory r type_name
    (Some (λ w node_name config, let '(w', p) := ctor w node_name config in (w', ROk (Some p)))).

(** src/include/ai_pipe/node_registry.hpp:95-108 NodeRegistry::create *)
Definition create (r : NodeRegistry W) (w : W) (type_name node_name : string) (config : DataPacket) :
    W * Result (option NodePtr) :=
  match r !! type_name with
  | None => (w, result_err EC_InvalidArgument ("Unknown node type: " +:+ type_name) "")
  | Some factory => factory w node_name config
  end.

(** src/include/ai_pipe/node_registry.hpp:110-113 NodeRegistry::isRegistered *)
Definition isRegistered (r : NodeRegistry W) (type_name : string) : bool :=
  bool_decide (is_Some (r !! type_name)).

(** src/include/ai_pipe/node_registry.hpp:115-123 NodeRegistry::registeredTypes; the order is the
    hash table's, here that of [map_to_list] *)
Definition registeredTypes (r : NodeRegistry W) : list string := (map_to_list r).*1.

(** src/include/ai_pipe/node_registry.hpp:126-129 NodeRegistry::unregisterType *)
Definition unregisterType (r : NodeRegistry W) (type_name : string) : NodeRegistry W := delete type_name r.

(** src/include/ai_pipe/node_registry.hpp:134-137 NodeRegistry::snapshot *)
Definition snapshot (r : NodeRegistry W) : NodeRegistry W := r.

(** src/include/ai_pipe/node_registry.hpp:139-142 NodeRegistry::restore *)
Definition restore (r snap : NodeRegistry W) : NodeRegistry W := snap.

(** ** Plugins *)

(** src/include/ai_pipe/plugin.hpp:24-24 k_plugin_abi_version *)
Definition k_plugin_abi_version : Z := 2.

(** src/include/ai_pipe/version.hpp:11-12 AI_PIPE_VERSION *)
Definition AI_PIPE_VERSION : Z := 0 * 10000 + 6 * 100 + 0.

(** src/include/ai_pipe/plugin.hpp:42-51 PluginDescriptor; a [const char *] is [None] when null *)
Record PluginDescriptor := mkDescriptor {
  pd_abi_version : Z;
  pd_ai_pipe_version : Z;
  pd_name : option string;
  pd_version : option string;
  pd_provider : option string;
  pd_description : option string;
  pd_capabilities : option (list (option string));
  pd_capability_count : nat;
}.

(** A mapped library: what opening it did to the registry (static initialisers) and
    its two entry points, [None] when the symbol is missing. *)
Record Library := mkLibrary {
  lib_init : NodeRegistry W → NodeRegistry W;
  lib_descriptor : option (NodeRegistry W → NodeRegistry W * Call (option PluginDescriptor));
  lib_register : option (NodeRegistry W → NodeRegistry W * Call bool);
}.

(** The operating system: path resolution, [dlopen]/[dlclose], directories.  A path
    resolves the same way throughout ([None]: an error code); exceptions of the file
    system are not represented. *)
Class Platform := {
  weakly_canonical : string → option string;
  openLibrary : W → string → W * (Library + string);
  closeLibrary : W → Library → W;
  is_directory : W → string → bool;
  directory_iterator : W → string → list (string * string * bool) * option string;
}.
Context `{Platform}.

(** src/include/ai_pipe/plugin.hpp:72-82 PluginLoader::LoadedPlugin *)
Record LoadedPlugin := mkLoaded {
  lp_path : string;
  lp_name : string;
  lp_version : string;
  lp_provider : string;
  lp_description : string;
  lp_capabilities : list string;
  lp_ai_pipe_version : Z;
  lp_registered_types : list string;
}.

(** src/src/plugin_loader.cpp:142-147 PluginLoader::Impl *)
Record PluginLoader := mkLoader { plugins : list LoadedPlugin; resident_handles : list Library }.

(** The loader with what it acts on: the world and the process-wide registry. *)
Record Process := mkProcess { pr_world : W; pr_loader : PluginLoader; pr_registry : NodeRegistry W }.

(** src/src/plugin_loader.cpp:24-28 canonicalIdentity *)
Definition canonicalIdentity (path : string) : string :=
  match weakly_canonical path with Some canonical => canonical | None => path end.

(** src/src/plugin_loader.cpp:169-172 frameworkVersionCompatible *)
Definition frameworkVersionCompatible (plugin_version : Z) : bool :=
  bool_decide (plugin_version / 100 = AI_PIPE_VERSION / 100)%Z.

(** src/src/plugin_loader.cpp:174-178 versionToString *)
Definition versionToString (version : Z) : string :=
  pretty (version / 10000)%Z +:+ "." +:+ pretty ((version / 100) `mod` 100)%Z +:+ "." +:+
  pretty (version `mod` 100)%Z.

(** src/src/plugin_loader.cpp:180-180 safeString *)
Definition safeString (value : option string) : string := default "" value.

(** src/src/plugin_loader.cpp:282-288 PluginLoader::load (the types that were not there before, sorted) *)
Definition new_types (before after : NodeRegistry W) : list string :=
  merge_sort String.le (filter (λ type, before !! type = None) (registeredTypes after)).

(** src/src/plugin_loader.cpp:296-307 PluginLoader::load (filling [LoadedPlugin]) *)
Definition describe (identity name : string) (d : PluginDescriptor) (types : list string) : LoadedPlugin :=
  mkLoaded identity name (safeString (pd_version d)) (safeString (pd_provider d))
    (safeString (pd_description d))
    ((λ i, safeString (default [] (pd_capabilities d) !! i ≫= id)) <$> seq 0 (pd_capability_count d))
    (pd_ai_pipe_version d) types.

(** src/src/plugin_loader.cpp:184-316 PluginLoader::load *)
Definition load (s : Process) (path : string) : Process * Result LoadedPlugin :=
  let identity := canonicalIdentity path in
  let loaded := plugins (pr_loader s) in
  if decide (Exists (λ l, lp_path l = identity) loaded) then
    (s, result_err EC_InvalidArgument ("Plugin already loaded: " +:+ identity) "")
  else
  let registry_snapshot := snapshot (pr_registry s) in
  let '(w, opened) := openLibrary (pr_world s) identity in
  match opened with
  | inr why =>
      (mkProcess w (pr_loader s) (pr_registry s),
       result_err EC_PluginLoadFailed
         ("Failed to open shared library '" +:+ identity +:+ "': " +:+ why) "")
  | inl handle =>
  let r0 := lib_init handle (pr_registry s) in
  let reject (r : NodeRegistry W) code message :=
    (mkProcess (closeLibrary w handle) (pr_loader s) (restore r registry_snapshot),
     result_err code message "") in
  match lib_descriptor handle with
  | None => reject r0 EC_PluginSymbolMissing
      ("'" +:+ identity +:+ "' is not an AI Pipe plugin (missing ai_pipe_plugin_descriptor)")
  | Some descriptor_entry =>
  match descriptor_entry r0 with
  | (r1, Threw _) => reject r1 EC_PluginLoadFailed ("Plugin descriptor threw for '" +:+ identity +:+ "'")
  | (r1, Returned None) => reject r1 EC_PluginSymbolMissing
      ("'" +:+ identity +:+ "' returned a null plugin descriptor")
  | (r1, Returned (Some d)) =>
  if negb (bool_decide (pd_abi_version d = k_plugin_abi_version)) then
    reject r1 EC_PluginVersionMismatch
      ("'" +:+ identity +:+ "' uses plugin ABI revision " +:+ pretty (pd_abi_version d) +:+
       ", host expects " +:+ pretty k_plugin_abi_version)
  else if negb (frameworkVersionCompatible (pd_ai_pipe_version d)) then
    reject r1 EC_PluginVersionMismatch
      ("'" +:+ identity +:+ "' was built against ai_pipe " +:+
       versionToString (pd_ai_pipe_version d) +:+ ", host is " +:+
       versionToString AI_PIPE_VERSION +:+ " (major.minor must match)")
  else
  let name := safeString (pd_name d) in
  if bool_decide (name = "") then
    reject r1 EC_PluginLoadFailed ("'" +:+ identity +:+ "' has an empty plugin name")
  else if decide (Exists (λ l, lp_name l = name) loaded) then
    reject r1 EC_InvalidArgument ("Plugin name already loaded: " +:+ name)
  else if bool_decide (0 < pd_capability_count d)%nat && bool_decide (pd_capabilities d = None) then
    reject r1 EC_PluginLoadFailed ("'" +:+ identity +:+ "' has an invalid capability array")
  else
  match lib_register handle with
  | None => reject r1 EC_PluginSymbolMissing
      ("'" +:+ identity +:+ "' is missing ai_pipe_register_plugin_v1")
  | Some registration_entry =>
  match registration_entry r1 with
  | (r2, Threw what) => reject r2 EC_PluginLoadFailed
      ("Plugin registration threw for '" +:+ identity +:+ "'" +:+
       match what with Some m => ": " +:+ m | None => "" end)
  | (r2, Returned registered) =>
  let registered_types := new_types registry_snapshot r2 in
  if negb registered || bool_decide (registered_types = []) then
    reject r2 EC_PluginLoadFailed
      ("Plugin registration failed or registered no node types for '" +:+ identity +:+ "'")
  else
    let l := describe identity name d registered_types in
    (mkProcess w (mkLoader (loaded ++ [l]) (resident_handles (pr_loader s) ++ [handle])) r2, ROk l)
  end
  end
  end
  end
  end.

(** src/src/plugin_loader.cpp:357-359 PluginLoader::unload (the loop over a plugin's types) *)
Definition unregister_all (r : NodeRegistry W) (types : list string) : NodeRegistry W :=
  foldl unregisterType r types.

(** src/src/plugin_loader.cpp:351-366 PluginLoader::unload *)
Definition unload (s : Process) (path : string) : Process * VoidResult :=
  let identity := canonicalIdentity path in
  match list_find (λ l, lp_path l = identity) (plugins (pr_loader s)) with
  | Some (i, l) =>
      (mkProcess (pr_world s)
         (mkLoader (delete i (plugins (pr_loader s))) (resident_handles (pr_loader s)))
         (unregister_all (pr_registry s) (lp_registered_types l)), void_ok)
  | None => (s, void_err EC_InvalidArgument ("Plugin not loaded: " +:+ identity) "")
  end.

(** src/src/plugin_loader.cpp:154-165 PluginLoader::~PluginLoader *)
Definition destroy (s : Process) : NodeRegistry W :=
  foldl (λ r l, unregister_all r (lp_registered_types l)) (pr_registry s)
    (reverse (plugins (pr_loader s))).

(** [std::string::find(needle) != npos] *)
Definition str_contains (needle hay : string) : bool :=
  bool_decide (is_Some (String.index 0 needle hay)).

(** src/src/plugin_loader.cpp:30-43 isPluginCandidate (the POSIX branch) *)
Definition isPluginCandidate (filename : string) : bool :=
  str_contains "ai_pipe_plugin_" filename && str_contains ".so" filename.

(** src/src/plugin_loader.cpp:339-348 PluginLoader::loadDirectory (the loop over candidates) *)
Fixpoint load_all (s : Process) (candidates : list string) (loaded : list LoadedPlugin) :
    Process * Result (list LoadedPlugin) :=
  match candidates with
  | [] => (s, ROk loaded)
  | candidate :: rest =>
      match load s candidate with
      | (s', RErr e) => (s', RErr e)
      | (s', ROk l) => load_all s' rest (loaded ++ [l])
      end
  end.

(** src/src/plugin_loader.cpp:318-349 PluginLoader::loadDirectory *)
Definition loadDirectory (s : Process) (directory : string) : Process * Result (list LoadedPlugin) :=
  if negb (is_directory (pr_world s) directory) then
    (s, result_err EC_InvalidArgument ("Not a directory: " +:+ directory) "")
  else
  let '(entries, error) := directory_iterator (pr_world s) directory in
  let candidates := (λ e, e.1.1) <$>
    filter (λ e, Is_true (e.2 && isPluginCandidate e.1.2)) entries in
  match error with
  | Some why => (s, result_err EC_PluginLoadFailed ("Failed scanning '" +:+ directory +:+ "': " +:+ why) "")
  | None => load_all s (merge_sort String.le candidates) []
  end.

(** src/src/plugin_loader.cpp:56-68 splitSearchPath (the loop, POSIX separator); [item] is what was
    read since the last separator *)
Fixpoint split_go (source item : string) : list string :=
  let emit := if decide (item = "") then [] else [item] in
  match source with
  | EmptyString => emit
  | String c rest =>
      if Ascii.eqb c ":"%char then emit ++ split_go rest ""
      else split_go rest (item +:+ String c EmptyString)
  end.

(** src/src/plugin_loader.cpp:45-69 splitSearchPath *)
Definition splitSearchPath (value : option string) : list string :=
  match value with None => [] | Some source => split_go source "" end.

(** src/src/plugin_loader.cpp:368-378 PluginLoader::defaultSearchPaths; the environment variable and
    the library's directory (empty when unknown) are arguments *)
Definition defaultSearchPaths (env : option string) (library_directory : string) : list string :=
  splitSearchPath env ++
  (if decide (library_directory = "") then [] else [library_directory +:+ "/ai_pipe/plugins"]).

(** src/src/plugin_loader.cpp:386-406 PluginLoader::discover (the loop over paths) *)
Fixpoint discover_go (s : Process) (paths : list string) (visited : gset string)
    (all_loaded : list LoadedPlugin) : Process * Result (list LoadedPlugin) :=
  match paths with
  | [] => (s, ROk all_loaded)
  | path :: rest =>
      if negb (is_directory (pr_world s) path) then discover_go s rest visited all_loaded
      else
      let identity := canonicalIdentity path in
      if decide (identity ∈ visited) then discover_go s rest visited all_loaded
      else match loadDirectory s identity with
      | (s', RErr e) => (s', RErr e)
      | (s', ROk ls) => discover_go s' rest ({[identity]} ∪ visited) (all_loaded ++ ls)
      end
  end.

(** src/src/plugin_loader.cpp:380-407 PluginLoader::discover *)
Definition discover (s : Process) (env : option string) (library_directory : string)
    (search_paths : list string) : Process * Result (list LoadedPlugin) :=
  discover_go s (search_paths ++ defaultSearchPaths env library_directory) ∅ [].

(** ** Lemmas *)

(** A process whose loader and registry are those of [s]: only the world moved. *)
Definition untouched (s s' : Process) : Prop :=
  pr_loader s' = pr_loader s ∧ pr_registry s' = pr_registry s.

(** What a successful load rests on. *)
Record load_success (s s' : Process) (path : string) (l : LoadedPlugin) (lib : Library) : Prop := {
  ls_open : ∃ w, openLibrary (pr_world s) (canonicalIdentity path) = (w, inl lib);
  ls_path : lp_path l = canonicalIdentity path;
  ls_fresh_path : lp_path l ∉ lp_path <$> plugins (pr_loader s);
  ls_name : lp_name l ≠ "";
  ls_fresh_name : lp_name l ∉ lp_name <$> plugins (pr_loader s);
  ls_version : (lp_ai_pipe_version l / 100 = AI_PIPE_VERSION / 100)%Z;
  ls_entries : ∃ de re r1 d, lib_descriptor lib = Some de ∧ lib_register lib = Some re ∧
    de (lib_init lib (pr_registry s)) = (r1, Returned (Some d)) ∧
    re r1 = (pr_registry s', Returned true) ∧ pd_abi_version d = k_plugin_abi_version;
  ls_types : lp_registered_types l = new_types (pr_registry s) (pr_registry s');
  ls_some_types : lp_registered_types l ≠ [];
  ls_loader : plugins (pr_loader s') = plugins (pr_loader s) ++ [l];
}.

Definition rejection_codes : list ErrorCode :=
  [EC_InvalidArgument; EC_PluginLoadFailed; EC_PluginSymbolMissing; EC_PluginVersionMismatch].

Lemma not_Exists_fmap {A} (f : A → string) x (l : list A) : ¬ Exists (λ a, f a = x) l → x ∉ f <$> l.
Proof.
  intros Hn (a & -> & Ha)%list_elem_of_fmap. apply Hn, Exists_exists. eauto.
Qed.

(** The cases in which a plugin is rejected: the error is one of the documented ones. *)
Ltac reject_case Hl Herr :=
  left; injection Hl as <- <-; eapply Herr; [|done|done]; set_solver.

Lemma load_cases s path s' res :
  load s path = (s', res) →
  (∃ e, res = RErr e ∧ err_code e ∈ rejection_codes ∧ untouched s s') ∨
  (∃ l lib, res = ROk l ∧ load_success s s' path l lib).
Proof.
  unfold load. intros Hl.
  assert (∀ c m, c ∈ rejection_codes → untouched s s' → res = result_err c m "" →
    ∃ e, res = RErr e ∧ err_code e ∈ rejection_codes ∧ untouched s s') as Herr.
  { intros c m Hc Hu ->. by exists (mkError c m ""). }
  assert (untouched s s) as Hs by done.
  case_decide as Hp; [reject_case Hl Herr|].
  destruct (openLibrary _ _) as [w [lib|why]] eqn:Ho;
    [|reject_case Hl Herr].
  destruct (lib_descriptor lib) as [de|] eqn:Hde; [|reject_case Hl Herr].
  destruct (de _) as [r1 [[d|]|]] eqn:Hd; [|reject_case Hl Herr..].
  case_bool_decide as Habi; [|reject_case Hl Herr]. cbn [negb] in Hl.
  destruct (frameworkVersionCompatible _) eqn:Hv; [|reject_case Hl Herr]. cbn [negb] in Hl.
  case_bool_decide as Hname; [reject_case Hl Herr|].
  case_decide as Hnames; [reject_case Hl Herr|].
  destruct (_ && _); [reject_case Hl Herr|].
  destruct (lib_register lib) as [re|] eqn:Hre; [|reject_case Hl Herr].
  destruct (re r1) as [r2 [registered|what]] eqn:Hr; [|reject_case Hl Herr].
  destruct (negb registered || _) eqn:Hreg; [reject_case Hl Herr|].
  apply orb_false_iff in Hreg as [->%negb_false_iff Hty%bool_decide_eq_false].
  right. injection Hl as <- <-. eexists _, lib. split; [done|].
  constructor; simpl; eauto using not_Exists_fmap.
  - by apply bool_decide_eq_true in Hv.
  - by exists de, re, r1, d.
Qed.

Lemma elem_of_new_types before after t :
  t ∈ new_types before after ↔ before !! t = None ∧ is_Some (after !! t).
Proof.
  unfold new_types, registeredTypes. rewrite (merge_sort_Permutation String.le).
  rewrite list_elem_of_filter, list_elem_of_fmap. split.
  - intros [Hn ([k x] & -> & Hx%elem_of_map_to_list)]. by eauto.
  - intros [Hn [x Hx]]. split; [done|]. exists (t, x). split; [done|]. by apply elem_of_map_to_list.
Qed.

Lemma new_types_NoDup before after : NoDup (new_types before after).
Proof.
  unfold new_types, registeredTypes. rewrite (merge_sort_Permutation String.le).
  apply NoDup_filter, NoDup_fst_map_to_list.
Qed.

Lemma lookup_unregister_all ts r t :
  unregister_all r ts !! t = if decide (t ∈ ts) then None else r !! t.
Proof.
  unfold unregister_all, unregisterType. revert r. induction ts as [|x ts IH]; intros r; simpl; [done|].
  rewrite IH, lookup_delete. repeat case_decide; set_solver.
Qed.

(** The types a list of plugins brought in. *)
Definition all_types (ls : list LoadedPlugin) : list string := mjoin (lp_registered_types <$> ls).

Lemma unregister_plugins ls r t :
  foldl (λ r l, unregister_all r (lp_registered_types l)) r ls !! t =
    if decide (t ∈ all_types ls) then None else r !! t.
Proof.
  unfold all_types. revert r. induction ls as [|l ls IH]; intros r; csimpl; [done|].
  rewrite IH, lookup_unregister_all.
  destruct (decide (t ∈ lp_registered_types l ++ _)) as [Ht|Ht];
    rewrite elem_of_app in Ht; repeat case_decide; naive_solver.
Qed.

(** The registry is [base] plus what the loaded plugins registered, each once. *)
Record loader_inv (base : NodeRegistry W) (s : Process) : Prop := {
  li_paths : NoDup (lp_path <$> plugins (pr_loader s));
  li_names : NoDup (lp_name <$> plugins (pr_loader s));
  li_some : Forall (λ l, lp_registered_types l ≠ []) (plugins (pr_loader s));
  li_types : NoDup (all_types (plugins (pr_loader s)));
  li_fresh : ∀ t, t ∈ all_types (plugins (pr_loader s)) → base !! t = None;
  li_base : base ⊆ pr_registry s;
  li_only : ∀ t, is_Some (pr_registry s !! t) ↔
              is_Some (base !! t) ∨ t ∈ all_types (plugins (pr_loader s));
}.

Lemma loader_inv_untouched base s s' : untouched s s' → loader_inv base s → loader_inv base s'.
Proof. intros [Hl Hr] []. by constructor; rewrite ?Hl, ?Hr. Qed.

Lemma all_types_app ls ls' : all_types (ls ++ ls') = all_types ls ++ all_types ls'.
Proof. unfold all_types. by rewrite fmap_app, join_app. Qed.

Lemma loader_inv_destroy base s : loader_inv base s → destroy s = base.
Proof.
  intros [_ _ _ _ Hfresh Hbase Honly]. apply map_eq. intros t. unfold destroy.
  rewrite unregister_plugins.
  assert (t ∈ all_types (reverse (plugins (pr_loader s))) ↔ t ∈ all_types (plugins (pr_loader s))) as Hrev.
  { unfold all_types. by rewrite reverse_Permutation. }
  case_decide as Ht; rewrite Hrev in Ht; [by rewrite Hfresh|].
  destruct (base !! t) as [f|] eqn:Hb; [by eapply lookup_weaken|].
  apply eq_None_not_Some. rewrite Honly, Hb. intros [Hno|?]; [by apply is_Some_None in Hno|done].
Qed.

Lemma loader_inv_unload base s path : loader_inv base s → loader_inv base (unload s path).1.
Proof.
  intros Hinv. pose proof Hinv as [Hp Hn Hs Ht Hf Hb Ho]. unfold unload.
  destruct (list_find _ _) as [[i l]|] eqn:Hi; [|done].
  apply list_find_Some in Hi as (Hi & _ & _).
  assert (plugins (pr_loader s) ≡ₚ l :: delete i (plugins (pr_loader s))) as Hperm
    by (by apply delete_Permutation).
  set (rest := delete i _) in *. cbn [fst].
  assert (all_types (plugins (pr_loader s)) ≡ₚ lp_registered_types l ++ all_types rest) as Hty.
  { unfold all_types. by rewrite Hperm. }
  rewrite Hperm in Hp, Hn, Hs. rewrite Hty in Ht. apply NoDup_app in Ht as (_ & Hdis & Ht).
  apply NoDup_cons in Hp as [_ Hp], Hn as [_ Hn]. apply Forall_cons in Hs as [_ Hs].
  constructor; simpl; try done.
  - intros t Hin. apply Hf. rewrite Hty. set_solver.
  - apply map_subseteq_spec. intros t x Hx. rewrite lookup_unregister_all, decide_False.
    + by eapply lookup_weaken.
    + intros Hin. assert (base !! t = None) by (apply Hf; rewrite Hty; set_solver). congruence.
  - intros t. rewrite lookup_unregister_all. case_decide as Hin.
    + split; [by intros []|]. intros [[x Hx]|Hr]; [|by destruct (Hdis t)].
      assert (base !! t = None) by (apply Hf; rewrite Hty; set_solver). congruence.
    + rewrite Ho, Hty. set_solver.
Qed.

(** Plugin code that only registers: none of it removes or replaces a type. *)
Record only_adds (lib : Library) : Prop := {
  oa_init : ∀ r, r ⊆ lib_init lib r;
  oa_descriptor : ∀ de r, lib_descriptor lib = Some de → r ⊆ (de r).1;
  oa_register : ∀ re r, lib_register lib = Some re → r ⊆ (re r).1;
}.

(** A platform all of whose libraries only register. *)
Definition registering_platform : Prop :=
  ∀ w path w' lib, openLibrary w path = (w', inl lib) → only_adds lib.

Lemma load_success_grows s s' path l lib :
  only_adds lib → load_success s s' path l lib → pr_registry s ⊆ pr_registry s'.
Proof.
  intros [Hi Hd Hr] Hls. destruct (ls_entries _ _ _ _ _ Hls) as (de & re & r1 & d & Hde & Hre & E1 & E2 & _).
  specialize (Hd de (lib_init lib (pr_registry s)) Hde). rewrite E1 in Hd.
  specialize (Hr re r1 Hre). rewrite E2 in Hr. cbn [fst] in *.
  etrans; [apply Hi|]. by etrans.
Qed.

Lemma loader_inv_load base s path :
  registering_platform → loader_inv base s → loader_inv base (load s path).1.
Proof.
  intros Hplat Hinv. destruct (load s path) as [s' res] eqn:Hl. cbn [fst].
  apply load_cases in Hl as [(e & -> & _ & Hu)|(l & lib & -> & Hls)]; [by eapply loader_inv_untouched|].
  destruct (ls_open _ _ _ _ _ Hls) as [w Ho]. apply Hplat in Ho.
  pose proof (load_success_grows _ _ _ _ _ Ho Hls) as Hsub.
  destruct Hinv as [Hp Hn Hs Ht Hf Hb Honly], Hls as [_ _ Hfp _ Hfn _ _ Hty Hne Hpl].
  assert (all_types (plugins (pr_loader s')) =
    all_types (plugins (pr_loader s)) ++ lp_registered_types l) as Hall.
  { rewrite Hpl, all_types_app. unfold all_types at 2. csimpl. by rewrite app_nil_r. }
  assert (∀ t, t ∈ lp_registered_types l ↔ pr_registry s !! t = None ∧ is_Some (pr_registry s' !! t)) as Hnew.
  { intros t. rewrite Hty. apply elem_of_new_types. }
  assert (∀ t, pr_registry s !! t = None → base !! t = None ∧ t ∉ all_types (plugins (pr_loader s))) as Hnone.
  { intros t Hno. apply eq_None_not_Some in Hno. rewrite Honly in Hno.
    split; [apply eq_None_not_Some|]; naive_solver. }
  constructor; rewrite ?Hall.
  - rewrite Hpl, fmap_app. apply NoDup_app. split_and!; [done|set_solver|apply NoDup_singleton].
  - rewrite Hpl, fmap_app. apply NoDup_app. split_and!; [done|set_solver|apply NoDup_singleton].
  - rewrite Hpl. apply Forall_app. split; [done|by apply Forall_singleton].
  - apply NoDup_app. split_and!; [done| |rewrite Hty; apply new_types_NoDup].
    intros t Hin [Hno _]%Hnew. by apply Hnone in Hno as [].
  - intros t [?|[Hno _]%Hnew]%elem_of_app; [by apply Hf|by apply Hnone].
  - by etrans.
  - intros t. rewrite elem_of_app, Hnew.
    destruct (pr_registry s !! t) as [f|] eqn:E.
    + assert (is_Some (base !! t) ∨ t ∈ all_types (plugins (pr_loader s))) by (apply Honly; eauto).
      split; [naive_solver|]. intros _. exists f. by eapply lookup_weaken.
    + specialize (Hnone t E). rewrite (proj1 Hnone), is_Some_alt. simpl. naive_solver.
Qed.

Lemma loader_inv_load_all base cs :
  ∀ s acc, registering_platform → loader_inv base s → loader_inv base (load_all s cs acc).1.
Proof.
  induction cs as [|c cs IH]; intros s acc Hplat Hinv; simpl; [done|].
  pose proof (loader_inv_load base s c Hplat Hinv) as Hinv'.
  destruct (load s c) as [s' [l|e]]; simpl in *; auto.
Qed.

Lemma loader_inv_loadDirectory base s dir :
  registering_platform → loader_inv base s → loader_inv base (loadDirectory s dir).1.
Proof.
  intros Hplat Hinv. unfold loadDirectory. destruct (negb _); [done|].
  destruct (directory_iterator _ _) as [entries [why|]]; [done|]. by apply loader_inv_load_all.
Qed.

Lemma loader_inv_discover base paths :
  ∀ s visited acc, registering_platform → loader_inv base s →
  loader_inv base (discover_go s paths visited acc).1.
Proof.
  induction paths as [|p paths IH]; intros s visited acc Hplat Hinv; simpl; [done|].
  destruct (negb _); [by apply IH|]. case_decide; [by apply IH|].
  pose proof (loader_inv_loadDirectory base s (canonicalIdentity p) Hplat Hinv) as Hinv'.
  destruct (loadDirectory s (canonicalIdentity p)) as [s' [ls|e]]; simpl in *; auto.
Qed.

(** The loader's operations, and a sequence of them. *)
Inductive PluginOp :=
  | OpLoad (path : string)
  | OpLoadDirectory (directory : string)
  | OpDiscover (env : option string) (library_directory : string) (search_paths : list string)
  | OpUnload (path : string).

Definition plugin_op (s : Process) (op : PluginOp) : Process :=
  match op with
  | OpLoad path => (load s path).1
  | OpLoadDirectory directory => (loadDirectory s directory).1
  | OpDiscover env dir paths => (discover s env dir paths).1
  | OpUnload path => (unload s path).1
  end.

Definition plugin_run (w : W) (base : NodeRegistry W) (ops : list PluginOp) : Process :=
  foldl plugin_op (mkProcess w (mkLoader [] []) base) ops.

Lemma plugin_run_inv w base ops : registering_platform → loader_inv base (plugin_run w base ops).
Proof.
  intros Hplat. unfold plugin_run.
  assert (loader_inv base (mkProcess w (mkLoader [] []) base)) as H0'.
  { constructor; simpl; try done; try apply NoDup_nil_2; [by intros t ?%elem_of_nil|].
    intros t. unfold all_types. simpl. rewrite elem_of_nil. naive_solver. }
  revert H0'. generalize (mkProcess w (mkLoader [] []) base).
  induction ops as [|op ops IH]; intros s Hs; [done|]. simpl. apply IH.
  destruct op; simpl; auto using loader_inv_load, loader_inv_loadDirectory, loader_inv_unload.
  by apply loader_inv_discover.
Qed.

End Registry.

(** ** Claims *)

(** C32: Loading a plugin is all or nothing.  When [load] answers with an error, the
    registry holds exactly the factories it held before (whatever the library's
    static initialisers, its descriptor or its registration entry did to it) and
    the loader's list is unchanged; the error is one of the four documented codes.
    When it succeeds, the plugin was not loaded before under this path or name, its
    major and minor version are the host's, and the types recorded for it are
    exactly those present now that were not there before, sorted, at least one. *)
Theorem plugin_load_transactional `{CppTypes} {W} `{!Platform (W := W)} (s s' : Process) (path : string) res :
  load s path = (s', res) →
  match res with
  | RErr e => pr_registry s' = pr_registry s ∧ pr_loader s' = pr_loader s ∧ err_code e ∈ rejection_codes
  | ROk l =>
      plugins (pr_loader s') = plugins (pr_loader s) ++ [l] ∧
      lp_path l = canonicalIdentity path ∧
      lp_path l ∉ lp_path <$> plugins (pr_loader s) ∧ lp_name l ∉ lp_name <$> plugins (pr_loader s) ∧
      (lp_ai_pipe_version l / 100 = AI_PIPE_VERSION / 100)%Z ∧
      (∀ t, t ∈ lp_registered_types l ↔ pr_registry s !! t = None ∧ is_Some (pr_registry s' !! t)) ∧
      Sorted String.le (lp_registered_types l) ∧ lp_registered_types l ≠ []
  end.
Proof.
  intros [(e & -> & Hc & Hl & Hr)|(l & lib & -> & Hls)]%load_cases; [done|].
  destruct Hls as [_ Hpath Hfp _ Hfn Hv _ Hty Hne Hpl]. split_and!; try done.
  - intros t. rewrite Hty. apply elem_of_new_types.
  - rewrite Hty. apply (Sorted_merge_sort _).
Qed.

(** C33: What a loader brings in goes when it does.  Take any registry and any
    sequence of [load], [loadDirectory], [discover] and [unload] calls on a fresh
    loader, on a platform whose plugins only register types: at every point the
    registry contains what it started with plus the types of the plugins currently
    loaded, each type owned by one plugin, no two plugins with one path or name;
    and destroying the loader gives back exactly the registry it started from. *)
Theorem plugin_loader_scoped `{CppTypes} {W} `{!Platform (W := W)} (w : W) (base : NodeRegistry W)
    (ops : list PluginOp) :
  registering_platform →
  let s := plugin_run w base ops in
  destroy s = base ∧ base ⊆ pr_registry s ∧
  (∀ t, isRegistered (pr_registry s) t = true ↔
     isRegistered base t = true ∨ t ∈ all_types (plugins (pr_loader s))) ∧
  NoDup (all_types (plugins (pr_loader s))) ∧
  NoDup (lp_path <$> plugins (pr_loader s)) ∧ NoDup (lp_name <$> plugins (pr_loader s)).
Proof.
  intros Hplat s. pose proof (plugin_run_inv w base ops Hplat) as Hinv. fold s in Hinv.
  pose proof (loader_inv_destroy _ _ Hinv) as Hd. destruct Hinv as [Hp Hn _ Ht _ Hb Ho].
  split_and!; try done. intros t. unfold isRegistered. rewrite !bool_decide_eq_true. apply Ho.
Qed.

(** *** A concrete platform *)

#[export] Instance unit_types : CppTypes := {|
  ty := unit; ty_name _ := "unit"; ty_val _ := unit;
|}.

Definition ex_factory : Factory unit := λ w _ _, (w, ROk (Some 0)).
Definition ex_descriptor (name : string) : PluginDescriptor :=
  mkDescriptor 2 600 (Some name) (Some "1.0") None None (Some [Some "node"]) 1.

(** Two good libraries and one built for another version, which registers a type
    from a static initialiser. *)
Definition ex_register (type : string) (r : NodeRegistry unit) : NodeRegistry unit * Call bool :=
  let '(r', res) := registerFactory r type (Some ex_factory) in (r', Returned (void_isOk res)).
Definition ex_lib (name type : string) : Library (W := unit) :=
  mkLibrary (λ r, r) (Some (λ r, (r, Returned (Some (ex_descriptor name))))) (Some (ex_register type)).
Definition ex_old : Library (W := unit) :=
  mkLibrary (λ r, (registerFactory r "old.node" (Some ex_factory)).1)
    (Some (λ r, (r, Returned (Some (mkDescriptor 2 500 (Some "old") None None None None 0))))) None.

#[export] Instance ex_platform : Platform (W := unit) := {|
  weakly_canonical p := Some p;
  openLibrary w p :=
    (w, if decide (p = "a.so") then inl (ex_lib "a" "acme.a")
        else if decide (p = "b.so") then inl (ex_lib "b" "acme.b")
        else if decide (p = "old.so") then inl ex_old else inr "no such file");
  closeLibrary w _ := w;
  is_directory _ _ := false;
  directory_iterator _ _ := ([], None);
|}.

Lemma registerFactory_grows `{CppTypes} {W} (r : NodeRegistry W) t f : r ⊆ (registerFactory r t f).1.
Proof.
  unfold registerFactory. destruct f as [f|]; [|done]. case_decide; [done|].
  destruct (r !! t) eqn:E; [done|]. by apply insert_subseteq.
Qed.

Lemma ex_lib_adds name type : only_adds (ex_lib name type).
Proof.
  constructor; [intros r; reflexivity|intros de r [= <-]; reflexivity|]. intros re r [= <-].
  pose proof (registerFactory_grows r type (Some ex_factory)) as Hr. unfold ex_register.
  by destruct (registerFactory r type (Some ex_factory)).
Qed.

Lemma ex_platform_registering : registering_platform (W := unit).
Proof.
  intros w path w' lib [= _ Hopen]. revert Hopen.
  do 2 (case_decide; [intros [= <-]; apply ex_lib_adds|]).
  case_decide; [intros [= <-]|done].
  constructor; [intros r; apply registerFactory_grows|intros de r [= <-]; reflexivity|done].
Qed.

Definition ex_base : NodeRegistry unit := {["core.node" := ex_factory]}.
Definition ex_start : Process (W := unit) := mkProcess tt (mkLoader [] []) ex_base.

Lemma plugin_load_transactional_witness :
  (∃ e, (load ex_start "old.so").2 = RErr e ∧ err_code e = EC_PluginVersionMismatch) ∧
  pr_registry (load ex_start "old.so").1 = ex_base ∧
  Sorted String.le (lp_registered_types (result_valueOr (load ex_start "a.so").2 (mkLoaded "" "" "" "" "" [] 0 []))).
Proof.
  split; [eexists; split; vm_compute; reflexivity|]. split.
  - destruct (load ex_start "old.so") as [s' [l|e]] eqn:E; [vm_compute in E; discriminate|].
    apply (plugin_load_transactional _ _ _ _ E).
  - destruct (load ex_start "a.so") as [s' [l|e]] eqn:E; [|vm_compute in E; discriminate].
    pose proof (plugin_load_transactional _ _ _ _ E) as (_ & _ & _ & _ & _ & _ & Hs & _). exact Hs.
Defined.

Lemma plugin_loader_scoped_witness :
  let ops := [OpLoad "a.so"; OpLoad "old.so"; OpLoad "b.so"; OpLoad "a.so"; OpUnload "a.so"] in
  registering_platform (W := unit) ∧
  all_types (plugins (pr_loader (plugin_run tt ex_base ops))) = ["acme.b"] ∧
  destroy (plugin_run tt ex_base ops) = ex_base.
Proof.
  intros ops. split; [exact ex_platform_registering|]. split; [vm_compute; reflexivity|].
  apply (plugin_loader_scoped tt ex_base ops ex_platform_registering).
Defined.

(** First registration wins, and an unknown type is an error, not a null node. *)
Lemma registerFactory_first_wins `{CppTypes} {W} (r : NodeRegistry W) t f r' res :
  registerFactory r t (Some f) = (r', res) → t ≠ "" →
  (void_isOk res = true ↔ r !! t = None) ∧
  (∀ t', r' !! t' = if decide (t' = t) then Some (default f (r !! t)) else r !! t').
Proof.
  unfold registerFactory. intros Hr Ht. rewrite decide_False in Hr by done.
  destruct (r !! t) as [g|] eqn:E; injection Hr as <- <-.
  - split; [split; intros Hx; vm_compute in Hx; discriminate|]. intros t'. case_decide; by simplify_eq/=.
  - split; [done|]. intros t'. rewrite lookup_insert. repeat case_decide; by simplify_eq/=.
Qed.
