(* ===== verification/Options.v ===== *)
(** * Pipeline options

    [PipelineOptions] of [include/ai_pipe/pipeline.hpp] with its two factories,
    and the translation to the engine's configuration,
    [Pipeline::Impl::buildEngineConfig] of [src/pipeline_impl.cpp].  Durations are
    integers in the unit of their C++ type. *)

From S2P Require Import Prelude ExecutionTypes.
Local Open Scope string_scope.
Local Open Scope Z_scope.

(** src/include/ai_pipe/pipeline.hpp:25-43 PipelineOptions (data members) *)
Record PipelineOptions := mkOptions {
  po_mode : ExecutionMode;
  po_num_workers : Z;
  po_execution_timeout : Z;
  po_queue_capacity : Z;
  po_drop_strategy : string;
  po_enable_sync_coordination : bool;
  po_enable_statistics : bool;
  po_alignment_policy : AlignmentPolicy;
  po_alignment_tolerance : Z;
  po_join_wait_timeout : Z;
  po_join_timeout_policy : JoinTimeoutPolicy;
}.

#[export] Instance PipelineOptions_eq_dec : EqDecision PipelineOptions.
Proof. solve_decision. Defined.

(** src/include/ai_pipe/pipeline.hpp:26-43 PipelineOptions (default member initializers) *)
Definition default_options : PipelineOptions :=
  mkOptions BATCH 4 0 0 "DropHead" false true AP_FrameId 33000 0 PartialInputs.

(** src/include/ai_pipe/pipeline.hpp:45-52 PipelineOptions::batch *)
Definition options_batch (workers : Z) : PipelineOptions :=
  mkOptions BATCH workers 0 0 "DropHead" false true AP_FrameId 33000 0 PartialInputs.

(** src/include/ai_pipe/pipeline.hpp:54-62 PipelineOptions::stream *)
Definition options_stream (workers queue_cap : Z) : PipelineOptions :=
  mkOptions STREAM workers 0 queue_cap "DropHead" true true AP_FrameId 33000 0 PartialInputs.

(** src/src/pipeline_impl.cpp:109-122 Pipeline::Impl::buildEngineConfig *)
Definition buildEngineConfig (o : PipelineOptions) : EngineConfig :=
  mkEngineConfig (po_mode o) (po_num_workers o) (po_queue_capacity o) (po_drop_strategy o)
    (po_enable_sync_coordination o) false 0 (po_alignment_policy o) (po_alignment_tolerance o)
    (po_join_wait_timeout o) (po_join_timeout_policy o) (po_enable_statistics o) true.

(** The engine sees what the factories of the options announce. *)
Lemma buildEngineConfig_batch workers : buildEngineConfig (options_batch workers) = config_batch workers.
Proof. done. Qed.

Lemma buildEngineConfig_stream workers cap :
  buildEngineConfig (options_stream workers cap) = config_stream workers cap.
Proof. done. Qed.
