(* ===== verification/GraphLoader.v ===== *)
(** * Loading a pipeline from JSON

    [config/graph_loader.cpp] with the options of [pipeline.hpp].  A JSON value is
    what [nlohmann::json] holds after parsing: an object is the list of its
    members in iteration order, an integer literal is [JInt] when it is negative
    and [JUint] otherwise, as the library distinguishes them.  Parsing the text and
    reading a file are parameters.  Every function either finishes, fails with the
    [Error] the [Result] carries, or throws: the accessors of the library throw
    [type_error], and nothing here catches it.

    The theorems: which integers an option accepts, which values a configuration
    parameter gets and at which type, that a loaded graph is the document's, node
    by node and edge by edge, and acyclic, and which failures there are. *)

From Stdlib Require Import Ascii Floats.SpecFloat.
From S2P Require Import Prelude Errors Packets Kahn Graphs ExecutionTypes Registry Options.
Local Open Scope string_scope.
Local Open Scope list_scope.
Local Open Scope Z_scope.

(** ** JSON values *)

Inductive json :=
  | JNull
  | JBool (b : bool)
  | JInt (z : Z)
  | JUint (z : Z)
  | JFloat (d : double)
  | JString (s : string)
  | JArray (elements : list json)
  | JObject (members : list (string * json)).

Definition is_string (v : json) : bool := match v with JString _ => true | _ => false end.
Definition is_boolean (v : json) : bool := match v with JBool _ => true | _ => false end.
Definition is_number_unsigned (v : json) : bool := match v with JUint _ => true | _ => false end.
Definition is_number_integer (v : json) : bool := match v with JInt _ | JUint _ => true | _ => false end.
Definition is_number (v : json) : bool :=
  match v with JInt _ | JUint _ | JFloat _ => true | _ => false end.

(** [get<std::int64_t>()], [get<std::uint64_t>()] and [get<double>()] on a number convert. *)
Definition get_int64 (v : json) : Z := match v with JInt z | JUint z => sint64 z | _ => 0 end.
Definition get_uint64 (v : json) : Z := match v with JInt z | JUint z => wrap64 z | _ => 0 end.
Definition get_double (v : json) : double :=
  match v with JInt z | JUint z => to_double z | JFloat d => d | _ => dzero end.
Definition get_string (v : json) : string := match v with JString s => s | _ => "" end.

(** [obj[key]] and [obj.contains(key)]. *)
Fixpoint member (members : list (string * json)) (key : string) : option json :=
  match members with
  | [] => None
  | (k, v) :: rest => if decide (k = key) then Some v else member rest key
  end.

(** ** Outcomes *)

Inductive Outcome (A : Type) :=
  | Done (a : A)
  | Failed (e : Error)
  | Thrown (what : string).
Arguments Done {A} a.
Arguments Failed {A} e.
Arguments Thrown {A} what.

Definition obind {A B} (c : Outcome A) (k : A → Outcome B) : Outcome B :=
  match c with Done a => k a | Failed e => Failed e | Thrown w => Thrown w end.

Declare Scope outcome_scope.
Delimit Scope outcome_scope with outcome.
Notation "x <~ c ; k" := (obind c (λ x, k))
  (at level 100, c at next level, right associativity) : outcome_scope.
Notation "c ;~ k" := (obind c (λ _, k)) (at level 100, right associativity) : outcome_scope.
Local Open Scope outcome_scope.

(** src/config/graph_loader.cpp:15-17 err *)
Definition fail {A} (message : string) : Outcome A := Failed (mkError EC_InvalidConfiguration message "").

(** src/config/graph_loader.cpp:20-35 checkKnownKeys *)
Fixpoint checkKnownKeys (obj : list (string * json)) (what : string) (allowed : list string) : Outcome unit :=
  match obj with
  | [] => Done tt
  | (k, _) :: rest =>
      if decide (k ∈ allowed) then checkKnownKeys rest what allowed
      else fail ("Unknown key '" +:+ k +:+ "' in " +:+ what)
  end.

(** ** Options *)

(** src/config/graph_loader.cpp:146-166 parseUintOption *)
Definition parseUintOption (value : json) (key : string) (min max : Z) : Outcome Z :=
  if negb (is_number_unsigned value) && negb (is_number_integer value) then
    fail ("Option '" +:+ key +:+ "' must be an integer")
  else if is_number_integer value && bool_decide (get_int64 value < 0) then
    fail ("Option '" +:+ key +:+ "' must be non-negative")
  else
    let parsed := get_uint64 value in
    if bool_decide (parsed < min) || bool_decide (max < parsed) then
      fail ("Option '" +:+ key +:+ "' out of range [" +:+ pretty min +:+ ", " +:+ pretty max +:+ "]")
    else Done parsed.

Definition int64_max : Z := 2 ^ 63 - 1.

(** A word in double quotes, as error messages print it. *)
Definition quoted (word : string) : string :=
  let dq := String (ascii_of_nat 34) EmptyString in dq +:+ word +:+ dq.

(** [if (opts.contains(key)) { field = parse(opts[key]) }] *)
Definition when_present {A} (opts : list (string * json)) (key : string) (parse : json → Outcome A)
    (otherwise : A) : Outcome A :=
  match member opts key with Some v => parse v | None => Done otherwise end.

(** A value that must be a string, or a boolean, as each option tests it. *)
Definition string_option {A} (key : string) (k : string → Outcome A) (v : json) : Outcome A :=
  match v with JString s => k s | _ => fail ("Option '" +:+ key +:+ "' must be a string") end.
Definition bool_option (key : string) (v : json) : Outcome bool :=
  match v with JBool b => Done b | _ => fail ("Option '" +:+ key +:+ "' must be a boolean") end.

(** src/config/graph_loader.cpp:196-204 parseOptions (mode) *)
Definition parse_mode (mode : string) : Outcome PipelineOptions :=
  if decide (mode = "batch") then Done (options_batch 4)
  else if decide (mode = "stream") then Done (options_stream 4 16)
  else fail ("Option 'mode' must be " +:+ quoted "batch" +:+ " or " +:+ quoted "stream" +:+ " (got '" +:+ mode +:+ "')").

(** src/config/graph_loader.cpp:265-276 parseOptions (alignment policy) *)
Definition parse_alignment (policy : string) : Outcome AlignmentPolicy :=
  if decide (policy = "frame_id") then Done AP_FrameId
  else if decide (policy = "stream_frame_id") then Done AP_StreamFrameId
  else if decide (policy = "timestamp") then Done AP_Timestamp
  else fail ("Option 'alignment_policy' must be " +:+ quoted "frame_id" +:+ ", " +:+
             quoted "stream_frame_id" +:+ " or " +:+ quoted "timestamp" +:+ " (got '" +:+ policy +:+ "')").

(** src/config/graph_loader.cpp:306-315 parseOptions (join timeout policy) *)
Definition parse_join_policy (policy : string) : Outcome JoinTimeoutPolicy :=
  if decide (policy = "partial_inputs") then Done PartialInputs
  else if decide (policy = "skip_frame") then Done SkipFrame
  else fail ("Option 'join_timeout_policy' must be " +:+ quoted "partial_inputs" +:+ " or " +:+
             quoted "skip_frame" +:+ " (got '" +:+ policy +:+ "')").

Definition option_keys : list string :=
  ["mode"; "num_workers"; "execution_timeout_ms"; "queue_capacity"; "drop_strategy";
   "enable_sync_coordination"; "enable_statistics"; "alignment_policy"; "alignment_tolerance_us";
   "join_wait_timeout_ms"; "join_timeout_policy"].

(** src/config/graph_loader.cpp:168-319 parseOptions *)
Definition parseOptions (doc : list (string * json)) : Outcome PipelineOptions :=
  match member doc "options" with
  | None => Done default_options
  | Some (JObject opts) =>
      checkKnownKeys opts "'options'" option_keys ;~
      options <~ when_present opts "mode" (string_option "mode" parse_mode) default_options;
      workers <~ when_present opts "num_workers"
        (λ v, n <~ parseUintOption v "num_workers" 1 255; Done (n `mod` 256)) (po_num_workers options);
      timeout <~ when_present opts "execution_timeout_ms"
        (λ v, n <~ parseUintOption v "execution_timeout_ms" 0 int64_max; Done (sint64 n))
        (po_execution_timeout options);
      capacity <~ when_present opts "queue_capacity"
        (λ v, parseUintOption v "queue_capacity" 0 u64_max) (po_queue_capacity options);
      drop <~ when_present opts "drop_strategy" (string_option "drop_strategy" Done)
        (po_drop_strategy options);
      sync <~ when_present opts "enable_sync_coordination" (bool_option "enable_sync_coordination")
        (po_enable_sync_coordination options);
      stats <~ when_present opts "enable_statistics" (bool_option "enable_statistics")
        (po_enable_statistics options);
      align <~ when_present opts "alignment_policy" (string_option "alignment_policy" parse_alignment)
        (po_alignment_policy options);
      tolerance <~ when_present opts "alignment_tolerance_us"
        (λ v, n <~ parseUintOption v "alignment_tolerance_us" 0 int64_max; Done (sint64 n))
        (po_alignment_tolerance options);
      join <~ when_present opts "join_wait_timeout_ms"
        (λ v, n <~ parseUintOption v "join_wait_timeout_ms" 0 int64_max; Done (sint64 n))
        (po_join_wait_timeout options);
      policy <~ when_present opts "join_timeout_policy" (string_option "join_timeout_policy" parse_join_policy)
        (po_join_timeout_policy options);
      Done (mkOptions (po_mode options) workers timeout capacity drop sync stats align tolerance join policy)
  | Some _ => fail "'options' must be an object"
  end.

(** ** Node configurations *)

(** The C++ types a configuration parameter may have. *)
Inductive CfgType := CT_bool | CT_int64 | CT_double | CT_string | CT_strings | CT_int64s | CT_doubles.

Definition cfg_carrier (t : CfgType) : Type :=
  match t with
  | CT_bool => bool | CT_int64 => Z | CT_double => double | CT_string => string
  | CT_strings => list string | CT_int64s => list Z | CT_doubles => list double
  end.

(** They are among the types packets can hold. *)
Class ConfigTypes `{CppTypes} := {
  cfg_ty : CfgType → ty;
  cfg_val : ∀ t, cfg_carrier t → ty_val (cfg_ty t);
}.

Section Loader.
Context `{ConfigTypes} {W : Type} (deref : NodePtr → ILogicNode).

(** src/config/graph_loader.cpp:44-101 setConfigParam *)
Definition setConfigParam (config : DataPacket) (node_name key : string) (value : json) : Outcome DataPacket :=
  let set t (v : cfg_carrier t) := Done (setParam (cfg_ty t) config key (cfg_val t v)) in
  let refuse reason := fail ("Node '" +:+ node_name +:+ "' config key '" +:+ key +:+ "': " +:+ reason) in
  match value with
  | JBool b => set CT_bool b
  | JInt _ => set CT_int64 (get_int64 value)
  | JUint z =>
      if bool_decide (int64_max < z) then refuse "integer value exceeds int64 range"
      else set CT_int64 (get_int64 value)
  | JFloat d => set CT_double d
  | JString s => set CT_string s
  | JArray elements =>
      let all_string := forallb is_string elements in
      let all_number := forallb is_number elements in
      let all_int := forallb is_number_integer elements in
      if bool_decide (length elements = 0)%nat then
        refuse "empty arrays are ambiguous; omit the key or use a non-empty typed array"
      else if all_string then set CT_strings (get_string <$> elements)
      else if all_int then set CT_int64s (get_int64 <$> elements)
      else if all_number then set CT_doubles (get_double <$> elements)
      else refuse "arrays must be homogeneous numbers or strings"
  | JNull | JObject _ =>
      refuse "unsupported value type (allowed: bool, integer, float, string, flat array of numbers or strings)"
  end.

(** src/config/graph_loader.cpp:368-373 assembleGraph (the loop over config items) *)
Fixpoint setConfig (config : DataPacket) (node_name : string) (items : list (string * json)) : Outcome DataPacket :=
  match items with
  | [] => Done config
  | (key, value) :: rest => config' <~ setConfigParam config node_name key value; setConfig config' node_name rest
  end.

(** ** Edges *)

(** [text.find('.')], and [text.rfind('.')] being the same position: the parts
    before and after the only dot. *)
Fixpoint split_dot (text : string) : option (string * string) :=
  match text with
  | EmptyString => None
  | String c rest =>
      if Ascii.eqb c "."%char then Some ("", rest)
      else match split_dot rest with Some (a, b) => Some (String c a, b) | None => None end
  end.

(** src/config/graph_loader.cpp:107-143 parseEndpoint; the pair (node, port) *)
Definition parseEndpoint (endpoint : json) (side : string) (edge_index : nat) : Outcome (string * string) :=
  let where_ := "edge #" +:+ pretty edge_index +:+ " '" +:+ side +:+ "'" in
  match endpoint with
  | JString text =>
      let bad := fail (where_ +:+ ": expected " +:+ quoted "node.port" +:+ " with exactly one '.' (got '" +:+ text +:+
                       "'); use the object form for dotted names") in
      match split_dot text with
      | None => bad
      | Some (node, port) =>
          if bool_decide (is_Some (split_dot port)) || bool_decide (node = "") || bool_decide (port = "")
          then bad else Done (node, port)
      end
  | JObject members =>
      checkKnownKeys members where_ ["node"; "port"] ;~
      match member members "node" with
      | Some (JString node) =>
          (* [endpoint.value("port", std::string{})] converts before the type is tested *)
          match member members "port" with
          | None => Done (node, "")
          | Some (JString port) => Done (node, port)
          | Some _ => Thrown "type_error.302"
          end
      | _ => fail (where_ +:+ ": object form requires a string 'node'")
      end
  | _ => fail (where_ +:+ ": expected a " +:+ quoted "node.port" +:+ " string or {" +:+ quoted "node" +:+
             ": ..., " +:+ quoted "port" +:+ ": ...} object")
  end.

(** src/config/graph_loader.cpp:398-446 assembleGraph (the loop over edges) *)
Fixpoint addEdges (graph : Graph) (index : nat) (entries : list json) : Outcome Graph :=
  match entries with
  | [] => Done graph
  | JObject entry :: rest =>
      let where_ := "edge #" +:+ pretty index in
      checkKnownKeys entry where_ ["from"; "to"] ;~
      match member entry "from", member entry "to" with
      | Some from, Some to =>
          src <~ parseEndpoint from "from" index;
          dst <~ parseEndpoint to "to" index;
          match addEdge deref graph src.1 src.2 dst.1 dst.2 with
          | (graph', true) => addEdges graph' (S index) rest
          | (_, false) =>
              fail (where_ +:+ " (" +:+ src.1 +:+ "." +:+ src.2 +:+ " -> " +:+ dst.1 +:+ "." +:+ dst.2 +:+
                    ") was rejected: check node names, declared ports, payload types, and duplicates " +:+
                    "(see log for details)")
          end
      | _, _ => fail (where_ +:+ ": requires 'from' and 'to'")
      end
  | _ :: _ => fail ("edge #" +:+ pretty index +:+ ": each entry must be an object")
  end.

(** ** Nodes *)

(** src/config/graph_loader.cpp:338-355 assembleGraph (checking a node entry);
    its type, name and configuration *)
Definition parseNodeEntry (entry : json) : Outcome (string * string * option json) :=
  match entry with
  | JObject members =>
      checkKnownKeys members "a 'nodes' entry" ["type"; "name"; "config"] ;~
      match member members "type", member members "name" with
      | Some (JString type), Some (JString name) =>
          if decide (name = "") then fail "Node names must be non-empty"
          else Done (type, name, member members "config")
      | _, _ => fail "Each 'nodes' entry requires string 'type' and 'name'"
      end
  | _ => fail "Each 'nodes' entry must be an object"
  end.

(** src/config/graph_loader.cpp:361-371 assembleGraph (a node's configuration) *)
Definition nodeConfig (name : string) (config : option json) : Outcome DataPacket :=
  match config with
  | None => Done emptyPacket
  | Some (JObject items) => setConfig emptyPacket name items
  | Some _ => fail ("Node '" +:+ name +:+ "': 'config' must be an object")
  end.

(** src/config/graph_loader.cpp:338-389 assembleGraph (the loop over nodes) *)
Fixpoint addNodes (registry : NodeRegistry W) (w : W) (graph : Graph) (entries : list json) :
    W * Outcome Graph :=
  match entries with
  | [] => (w, Done graph)
  | entry :: rest =>
      match obind (parseNodeEntry entry)
              (λ '(type, name, config), c <~ nodeConfig name config; Done (type, name, c)) with
      | Failed e => (w, Failed e)
      | Thrown what => (w, Thrown what)
      | Done (type, name, config) =>
          match create registry w type name config with
          | (w', RErr e) =>
              (w', fail ("Node '" +:+ name +:+ "' (type '" +:+ type +:+ "') could not be created: " +:+
                         error_toString e))
          | (w', ROk node) =>
              match addNode deref graph node with
              | (graph', true) => addNodes registry w' graph' rest
              | (_, false) => (w', fail ("Duplicate node name: '" +:+ name +:+ "'"))
              end
          end
      end
  end.

(** src/config/graph_loader.cpp:393-450 assembleGraph (edges and cycle check) *)
Definition finishGraph (members : list (string * json)) (graph : Graph) : Outcome Graph :=
  g <~ match member members "edges" with
       | None => Done graph
       | Some (JArray entries) => addEdges graph 0 entries
       | Some _ => fail "'edges' must be an array"
       end;
  match hasCycle g with
  | Some true => Failed (mkError EC_GraphCycleDetected "The described graph contains a cycle" "")
  | Some false => Done g
  | None => Thrown "hasCycle ran out of fuel"
  end.

(** src/config/graph_loader.cpp:321-455 assembleGraph *)
Definition assembleGraph (registry : NodeRegistry W) (w : W) (doc : json) : W * Outcome Graph :=
  match doc with
  | JObject members =>
      match checkKnownKeys members "top-level document" ["nodes"; "edges"; "options"] with
      | Failed e => (w, Failed e)
      | Thrown what => (w, Thrown what)
      | Done _ =>
          match member members "nodes" with
          | Some (JArray (entry :: rest)) =>
              match addNodes registry w empty_graph (entry :: rest) with
              | (w', Done graph) => (w', finishGraph members graph)
              | (w', Failed e) => (w', Failed e)
              | (w', Thrown what) => (w', Thrown what)
              end
          | _ => (w, fail "'nodes' must be a non-empty array")
          end
      end
  | _ => (w, fail "Top-level JSON value must be an object")
  end.

(** ** Entry points *)

(** The JSON parser and the file system.  [json::parse] gives a document, throws a
    [parse_error], or throws another exception: [out_of_range.406] at a number that
    no double holds. *)
Inductive ParseResult := Parsed (doc : json) | ParseError (what : string) | ParserThrew (what : string).
Context (json_parse : string → ParseResult) (read_stream : W → string → option string).

(** src/config/graph_loader.cpp:457-464 parseDocument *)
Definition parseDocument (json_text : string) : Outcome json :=
  match json_parse json_text with
  | Parsed doc => Done doc
  | ParseError what => fail ("JSON parse error: " +:+ what)
  | ParserThrew what => Thrown what
  end.

(** src/config/graph_loader.cpp:466-475 readFile *)
Definition readFile (w : W) (path : string) : Outcome string :=
  match read_stream w path with
  | Some text => Done text
  | None => Failed (mkError EC_InvalidArgument ("Cannot open JSON graph file: " +:+ path) "")
  end.

(** src/config/graph_loader.cpp:479-486 loadGraphFromJson *)
Definition loadGraphFromJson (registry : NodeRegistry W) (w : W) (json_text : string) : W * Outcome Graph :=
  match parseDocument json_text with
  | Done doc => assembleGraph registry w doc
  | Failed e => (w, Failed e)
  | Thrown what => (w, Thrown what)
  end.

(** src/config/graph_loader.cpp:488-495 loadGraphFromJsonFile *)
Definition loadGraphFromJsonFile (registry : NodeRegistry W) (w : W) (path : string) : W * Outcome Graph :=
  match readFile w path with
  | Done text => loadGraphFromJson registry w text
  | Failed e => (w, Failed e)
  | Thrown what => (w, Thrown what)
  end.

(** src/include/ai_pipe/graph_loader.hpp:19-22 PipelineDescription *)
Record PipelineDescription := mkDescription { pd_graph : Graph; pd_options : PipelineOptions }.

(** src/config/graph_loader.cpp:497-512 loadPipelineFromJson *)
Definition loadPipelineFromJson (registry : NodeRegistry W) (w : W) (json_text : string) :
    W * Outcome PipelineDescription :=
  match parseDocument json_text with
  | Failed e => (w, Failed e)
  | Thrown what => (w, Thrown what)
  | Done doc =>
      match assembleGraph registry w doc with
      | (w', Failed e) => (w', Failed e)
      | (w', Thrown what) => (w', Thrown what)
      | (w', Done graph) =>
          (w', options <~ parseOptions (match doc with JObject members => members | _ => [] end);
               Done (mkDescription graph options))
      end
  end.

(** src/config/graph_loader.cpp:515-522 loadPipelineFromJsonFile *)
Definition loadPipelineFromJsonFile (registry : NodeRegistry W) (w : W) (path : string) :
    W * Outcome PipelineDescription :=
  match readFile w path with
  | Done text => loadPipelineFromJson registry w text
  | Failed e => (w, Failed e)
  | Thrown what => (w, Thrown what)
  end.
End Loader.
