(* ===== verification/LoaderCorrect.v ===== *)
(** * Correctness of the JSON loader

    What a document means, stated without the parsing code: the integers an option
    accepts, the value and C++ type of a configuration parameter, the endpoints an
    edge names.  The theorems relate the loader of [GraphLoader] to these
    meanings. *)

From Stdlib Require Import Ascii Floats.SpecFloat.
From S2P Require Import Prelude Errors Packets Kahn Graphs ExecutionTypes Registry Options GraphLoader.
Local Open Scope string_scope.
Local Open Scope list_scope.
Local Open Scope Z_scope.

(** ** Meanings *)

(** The integer a number literal denotes. *)
Definition json_int (v : json) : option Z := match v with JInt z | JUint z => Some z | _ => None end.

(** Numbers are in the range their representation has. *)
Definition number_ok (v : json) : Prop :=
  match v with
  | JInt z => - 2 ^ 63 ≤ z < 2 ^ 63
  | JUint z => 0 ≤ z < u64_mod
  | _ => True
  end.

(** An integer option with bounds. *)
Definition uint_denotes (lo hi : Z) (v : json) (n : Z) : Prop :=
  json_int v = Some n ∧ lo ≤ n ≤ hi ∧ 0 ≤ n < 2 ^ 63.

(** One of the words of a table. *)
Definition word_denotes {A} (table : list (string * A)) (v : json) (a : A) : Prop :=
  ∃ s, v = JString s ∧ (s, a) ∈ table.

(** An option: the value its key gives, or the default. *)
Definition field_spec {A} (opts : list (string * json)) (key : string) (denotes : json → A → Prop)
    (dflt a : A) : Prop :=
  match member opts key with Some v => denotes v a | None => a = dflt end.

(** The whole ['options'] object. *)
Record options_spec (opts : list (string * json)) (base o : PipelineOptions) : Prop := {
  os_keys : ∀ k, k ∈ opts.*1 → k ∈ option_keys;
  os_base : field_spec opts "mode"
    (word_denotes [("batch", options_batch 4); ("stream", options_stream 4 16)]) default_options base;
  os_mode : po_mode o = po_mode base;
  os_workers : field_spec opts "num_workers" (uint_denotes 1 255) (po_num_workers base) (po_num_workers o);
  os_timeout : field_spec opts "execution_timeout_ms" (uint_denotes 0 int64_max)
    (po_execution_timeout base) (po_execution_timeout o);
  os_capacity : field_spec opts "queue_capacity" (uint_denotes 0 u64_max)
    (po_queue_capacity base) (po_queue_capacity o);
  os_drop : field_spec opts "drop_strategy" (λ v s, v = JString s)
    (po_drop_strategy base) (po_drop_strategy o);
  os_sync : field_spec opts "enable_sync_coordination" (λ v b, v = JBool b)
    (po_enable_sync_coordination base) (po_enable_sync_coordination o);
  os_stats : field_spec opts "enable_statistics" (λ v b, v = JBool b)
    (po_enable_statistics base) (po_enable_statistics o);
  os_align : field_spec opts "alignment_policy"
    (word_denotes [("frame_id", AP_FrameId); ("stream_frame_id", AP_StreamFrameId); ("timestamp", AP_Timestamp)])
    (po_alignment_policy base) (po_alignment_policy o);
  os_tolerance : field_spec opts "alignment_tolerance_us" (uint_denotes 0 int64_max)
    (po_alignment_tolerance base) (po_alignment_tolerance o);
  os_join : field_spec opts "join_wait_timeout_ms" (uint_denotes 0 int64_max)
    (po_join_wait_timeout base) (po_join_wait_timeout o);
  os_policy : field_spec opts "join_timeout_policy"
    (word_denotes [("partial_inputs", PartialInputs); ("skip_frame", SkipFrame)])
    (po_join_timeout_policy base) (po_join_timeout_policy o);
}.

(** ** Lemmas on outcomes *)

Definition refused {A} (c : Outcome A) : Prop := ∃ e, c = Failed e ∧ err_code e = EC_InvalidConfiguration.

(** Finishes, or fails with [InvalidConfiguration]. *)
Definition graceful {A} (c : Outcome A) : Prop := (∃ a, c = Done a) ∨ refused c.

Lemma fail_refused {A} m : refused (A := A) (fail m).
Proof. by eexists. Qed.
#[local] Hint Resolve fail_refused : pipe.

Lemma fail_graceful {A} m : graceful (A := A) (fail m).
Proof. right. apply fail_refused. Qed.
Lemma done_graceful {A} (a : A) : graceful (Done a).
Proof. left. eauto. Qed.
Lemma obind_graceful {A B} (c : Outcome A) (k : A → Outcome B) :
  graceful c → (∀ a, c = Done a → graceful (k a)) → graceful (obind c k).
Proof. intros [[a ->]|(e & -> & He)] Hk; [by apply Hk|right; by exists e]. Qed.
#[local] Hint Resolve fail_graceful done_graceful obind_graceful : pipe.

Lemma obind_Done {A B} (c : Outcome A) (k : A → Outcome B) b :
  obind c k = Done b ↔ ∃ a, c = Done a ∧ k a = Done b.
Proof. destruct c; simpl; naive_solver. Qed.

Lemma member_elem members key v : member members key = Some v → (key, v) ∈ members.
Proof.
  induction members as [|[k w] rest IH]; simpl; [done|]. case_decide; [intros [= ->]; set_solver|set_solver].
Qed.

Lemma checkKnownKeys_Done obj what allowed :
  checkKnownKeys obj what allowed = Done tt ↔ ∀ k, k ∈ obj.*1 → k ∈ allowed.
Proof.
  induction obj as [|[k v] rest IH]; csimpl; [set_solver|].
  case_decide; [rewrite IH; set_solver|]. split; [done|]. set_solver.
Qed.

Lemma checkKnownKeys_graceful obj what allowed : graceful (checkKnownKeys obj what allowed).
Proof. induction obj as [|[k v] rest IH]; simpl; [auto with pipe|]. case_decide; auto with pipe. Qed.
#[local] Hint Resolve checkKnownKeys_graceful : pipe.

Lemma sint64_range z : 0 ≤ z < 2 ^ 63 → sint64 z = z.
Proof.
  intros Hz. unfold sint64. rewrite wrap64_small by (unfold u64_mod; lia). by rewrite decide_True by lia.
Qed.

Lemma sint64_high z : 2 ^ 63 ≤ z < u64_mod → sint64 z = z - u64_mod.
Proof. intros Hz. unfold sint64. rewrite wrap64_small by lia. by rewrite decide_False by lia. Qed.

Lemma sint64_signed z : - 2 ^ 63 ≤ z < 2 ^ 63 → sint64 z = z.
Proof.
  intros Hz. destruct (decide (0 ≤ z)); [apply sint64_range; lia|].
  unfold sint64, wrap64. rewrite <-(Z_mod_plus_full z 1 u64_mod), (Z.mod_small (z + 1 * u64_mod))
    by (unfold u64_mod; lia).
  rewrite decide_False by (unfold u64_mod; lia). lia.
Qed.

(** ** Options *)

Lemma parseUintOption_Done v key lo hi n :
  number_ok v → parseUintOption v key lo hi = Done n ↔ uint_denotes lo hi v n.
Proof.
  intros Hok. unfold parseUintOption, uint_denotes.
  assert (∀ (c : bool) m, (if c then fail m else Done n) = Done n ↔ c = false) as Hif by (by intros []).
  destruct v as [|b|z|z|d|s|l|l]; simpl in *; try naive_solver.
  - rewrite sint64_signed by lia. case_bool_decide as Hneg; [naive_solver lia|].
    rewrite wrap64_small by (unfold u64_mod; lia).
    repeat case_bool_decide; naive_solver lia.
  - destruct (decide (z < 2 ^ 63)).
    + rewrite sint64_range by lia. rewrite bool_decide_false by lia. rewrite wrap64_small by lia.
      repeat case_bool_decide; naive_solver lia.
    + rewrite sint64_high, bool_decide_true by lia. naive_solver lia.
Qed.

Lemma parseUintOption_graceful v key lo hi : graceful (parseUintOption v key lo hi).
Proof. unfold parseUintOption. repeat case_match; auto with pipe. Qed.

Lemma when_present_Done {A} opts key (parse : json → Outcome A) denotes d a :
  (∀ v, member opts key = Some v → parse v = Done a ↔ denotes v a) →
  when_present opts key parse d = Done a ↔ field_spec opts key denotes d a.
Proof.
  intros Hp. unfold when_present, field_spec. destruct (member opts key) as [v|]; [by apply Hp|].
  split; [by intros [= ->]|by intros ->].
Qed.

Lemma when_present_graceful {A} opts key (parse : json → Outcome A) d :
  (∀ v, graceful (parse v)) → graceful (when_present opts key parse d).
Proof. intros Hp. unfold when_present. destruct (member opts key); auto with pipe. Qed.

Lemma string_option_Done {A} key (k : string → Outcome A) v a :
  string_option key k v = Done a ↔ ∃ s, v = JString s ∧ k s = Done a.
Proof. destruct v; simpl; naive_solver. Qed.

Lemma bool_option_Done key v b : bool_option key v = Done b ↔ v = JBool b.
Proof. destruct v; simpl; naive_solver. Qed.

Lemma narrow_Done (f : Z → Z) v key lo hi n :
  number_ok v → (∀ n, lo ≤ n ≤ hi → 0 ≤ n < 2 ^ 63 → f n = n) →
  (x <~ parseUintOption v key lo hi; Done (f x))%outcome = Done n ↔ uint_denotes lo hi v n.
Proof.
  intros Hok Hf. rewrite obind_Done. setoid_rewrite parseUintOption_Done; [|done..]. split.
  - intros (a & Ha & [= <-]). pose proof Ha as (_ & ? & ?). by rewrite Hf.
  - intros Hn. exists n. split; [done|]. pose proof Hn as (_ & ? & ?). by rewrite Hf.
Qed.

Lemma parse_mode_Done s o :
  parse_mode s = Done o ↔ (s, o) ∈ [("batch", options_batch 4); ("stream", options_stream 4 16)].
Proof. unfold parse_mode. repeat case_decide; set_solver. Qed.
Lemma parse_alignment_Done s p : parse_alignment s = Done p ↔
  (s, p) ∈ [("frame_id", AP_FrameId); ("stream_frame_id", AP_StreamFrameId); ("timestamp", AP_Timestamp)].
Proof. unfold parse_alignment. repeat case_decide; set_solver. Qed.
Lemma parse_join_policy_Done s p : parse_join_policy s = Done p ↔
  (s, p) ∈ [("partial_inputs", PartialInputs); ("skip_frame", SkipFrame)].
Proof. unfold parse_join_policy. repeat case_decide; set_solver. Qed.

Lemma word_option_Done {A} key (k : string → Outcome A) table v a :
  (∀ s, k s = Done a ↔ (s, a) ∈ table) → string_option key k v = Done a ↔ word_denotes table v a.
Proof. intros Hk. rewrite string_option_Done. unfold word_denotes. by setoid_rewrite Hk. Qed.

Section OptionFields.
Context (opts : list (string * json)).
Context (Hok : Forall (λ kv, number_ok kv.2) opts).

Lemma option_number_ok key v : member opts key = Some v → number_ok v.
Proof using Hok. intros Hm%member_elem. rewrite Forall_forall in Hok. by apply (Hok (key, v)). Qed.

Lemma narrow_field key f lo hi d n :
  (∀ n, lo ≤ n ≤ hi → 0 ≤ n < 2 ^ 63 → f n = n) →
  when_present opts key (λ v, x <~ parseUintOption v key lo hi; Done (f x))%outcome d = Done n ↔
  field_spec opts key (uint_denotes lo hi) d n.
Proof using Hok.
  intros Hf. apply when_present_Done. intros v Hv. apply narrow_Done; [by eapply option_number_ok|done].
Qed.

Lemma uint_field key lo hi d n :
  when_present opts key (λ v, parseUintOption v key lo hi) d = Done n ↔
  field_spec opts key (uint_denotes lo hi) d n.
Proof using Hok.
  apply when_present_Done. intros v Hv. apply parseUintOption_Done. by eapply option_number_ok.
Qed.

Lemma bool_field key d b :
  when_present opts key (bool_option key) d = Done b ↔ field_spec opts key (λ v b, v = JBool b) d b.
Proof using. apply when_present_Done. intros v _. apply bool_option_Done. Qed.

Lemma string_field key d s :
  when_present opts key (string_option key Done) d = Done s ↔ field_spec opts key (λ v s, v = JString s) d s.
Proof using. apply when_present_Done. intros v _. rewrite string_option_Done. naive_solver. Qed.

Lemma word_field {A} key (k : string → Outcome A) table d a :
  (∀ s a, k s = Done a ↔ (s, a) ∈ table) →
  when_present opts key (string_option key k) d = Done a ↔ field_spec opts key (word_denotes table) d a.
Proof using. intros Hk. apply when_present_Done. intros v _. by apply word_option_Done. Qed.

Lemma parseOptions_Done doc o :
  member doc "options" = Some (JObject opts) →
  parseOptions doc = Done o ↔ ∃ base, options_spec opts base o.
Proof using Hok.
  intros Hdoc. unfold parseOptions. rewrite Hdoc.
  assert (∀ n, 1 ≤ n ≤ 255 → 0 ≤ n < 2 ^ 63 → n `mod` 256 = n) as H8 by (intros; apply Z.mod_small; lia).
  assert (∀ n, 0 ≤ n ≤ int64_max → 0 ≤ n < 2 ^ 63 → sint64 n = n) as H64 by (intros; by apply sint64_range).
  split.
  - intros Hrun. do 12 (let x := fresh "x" in let E := fresh "E" in apply obind_Done in Hrun as (x & E & Hrun)).
    injection Hrun as <-. exists x0. destruct x.
    pose proof (proj1 (checkKnownKeys_Done _ _ _) E) as Hkeys. constructor; simpl; [exact Hkeys|..]; try done.
    + by apply (word_field _ _ _ _ _ parse_mode_Done).
    + by apply (narrow_field _ (λ n, n `mod` 256)).
    + by apply (narrow_field _ sint64).
    + by apply uint_field.
    + by apply string_field.
    + by apply bool_field.
    + by apply bool_field.
    + by apply (word_field _ _ _ _ _ parse_alignment_Done).
    + by apply (narrow_field _ sint64).
    + by apply (narrow_field _ sint64).
    + by apply (word_field _ _ _ _ _ parse_join_policy_Done).
  - intros (base & [Hk Hb Hm Hw Ht Hc Hd Hsy Hst Ha Hto Hj Hp]).
    apply obind_Done. exists tt. split; [by apply checkKnownKeys_Done|].
    apply obind_Done. exists base. split; [by apply (word_field _ _ _ _ _ parse_mode_Done)|].
    apply obind_Done. eexists. split; [by apply (narrow_field _ (λ n, n `mod` 256))|].
    apply obind_Done. eexists. split; [by apply (narrow_field _ sint64)|].
    apply obind_Done. eexists. split; [by apply uint_field|].
    apply obind_Done. eexists. split; [by apply string_field|].
    apply obind_Done. eexists. split; [by apply bool_field|].
    apply obind_Done. eexists. split; [by apply bool_field|].
    apply obind_Done. eexists. split; [by apply (word_field _ _ _ _ _ parse_alignment_Done)|].
    apply obind_Done. eexists. split; [by apply (narrow_field _ sint64)|].
    apply obind_Done. eexists. split; [by apply (narrow_field _ sint64)|].
    apply obind_Done. eexists. split; [by apply (word_field _ _ _ _ _ parse_join_policy_Done)|].
    rewrite <-Hm. by destruct o.
Qed.
End OptionFields.

Lemma parse_words_graceful :
  (∀ s, graceful (parse_mode s)) ∧ (∀ s, graceful (parse_alignment s)) ∧ (∀ s, graceful (parse_join_policy s)).
Proof.
  unfold parse_mode, parse_alignment, parse_join_policy.
  split_and!; intros s; repeat case_decide; auto with pipe.
Qed.

Lemma string_option_graceful {A} key (k : string → Outcome A) v :
  (∀ s, graceful (k s)) → graceful (string_option key k v).
Proof. intros Hk. destruct v; simpl; auto with pipe. Qed.

Lemma bool_option_graceful key v : graceful (bool_option key v).
Proof. destruct v; simpl; auto with pipe. Qed.
#[local] Hint Resolve parseUintOption_graceful when_present_graceful string_option_graceful bool_option_graceful : pipe.

Lemma parseOptions_graceful doc : graceful (parseOptions doc).
Proof.
  destruct parse_words_graceful as (Hm & Ha & Hj).
  unfold parseOptions. destruct (member doc "options") as [[]|]; auto with pipe.
  repeat (apply obind_graceful; [eauto 6 with pipe|intros ? _]); auto with pipe.
Qed.

(** ** Node configurations *)

(** The number a literal denotes as a double. *)
Definition json_double (v : json) : option double :=
  match v with JInt z | JUint z => Some (to_double z) | JFloat d => Some d | _ => None end.
Definition json_text (v : json) : option string := match v with JString s => Some s | _ => None end.

(** The documented mapping of values to C++ types: scalars to their type, non-empty
    arrays to a vector of strings, of 64-bit integers, or, when a number among
    them is a float, of doubles. *)
Inductive config_means : json → ∀ t, cfg_carrier t → Prop :=
  | cm_bool b : config_means (JBool b) CT_bool b
  | cm_int v z : json_int v = Some z → config_means v CT_int64 z
  | cm_float d : config_means (JFloat d) CT_double d
  | cm_string s : config_means (JString s) CT_string s
  | cm_strings vs ss : vs ≠ [] → mapM json_text vs = Some ss → config_means (JArray vs) CT_strings ss
  | cm_ints vs zs : vs ≠ [] → mapM json_int vs = Some zs → config_means (JArray vs) CT_int64s zs
  | cm_doubles vs ds : mapM json_int vs = None → mapM json_double vs = Some ds →
      config_means (JArray vs) CT_doubles ds.

(** Numbers of a configuration value: in range, and the integers of an array fit [int64_t]. *)
Definition config_ok (v : json) : Prop :=
  number_ok v ∧
  match v with JArray vs => Forall (λ x, number_ok x ∧ ∀ z, json_int x = Some z → z ≤ int64_max) vs | _ => True end.

Lemma mapM_forallb {A} (test : json → bool) (get : json → A) (meaning : json → option A) vs :
  Forall (λ v, meaning v = if test v then Some (get v) else None) vs →
  mapM meaning vs = if forallb test vs then Some (get <$> vs) else None.
Proof.
  induction 1 as [|v vs Hv _ IH]; [done|]. simpl mapM. cbn [forallb fmap list_fmap]. rewrite Hv.
  destruct (test v); simpl; [|done].
  rewrite IH. by destruct (forallb test vs).
Qed.

Lemma mapM_text vs : mapM json_text vs = if forallb is_string vs then Some (get_string <$> vs) else None.
Proof. apply mapM_forallb, Forall_true. by intros []. Qed.

Lemma mapM_double vs : mapM json_double vs = if forallb is_number vs then Some (get_double <$> vs) else None.
Proof. apply mapM_forallb, Forall_true. by intros []. Qed.

Lemma mapM_int vs :
  Forall (λ x, number_ok x ∧ ∀ z, json_int x = Some z → z ≤ int64_max) vs →
  mapM json_int vs = if forallb is_number_integer vs then Some (get_int64 <$> vs) else None.
Proof.
  intros Hvs. apply mapM_forallb. eapply Forall_impl; [exact Hvs|]. unfold int64_max.
  intros [] [Hr Hz]; simpl in *; try done.
  - by rewrite sint64_signed.
  - specialize (Hz _ eq_refl). rewrite sint64_range by lia. done.
Qed.

Section Config.
Context `{ConfigTypes}.

Lemma setConfigParam_Done config name key v p :
  config_ok v → setConfigParam config name key v = Done p →
  ∃ t c, config_means v t c ∧ p = setParam (cfg_ty t) config key (cfg_val t c).
Proof.
  intros [Hok Hin] Hset. destruct v as [|b|z|z|d|s|vs|ms]; simpl in Hset; try discriminate.
  - injection Hset as <-. exists CT_bool, b. split; [constructor|done].
  - injection Hset as <-. rewrite sint64_signed by done. exists CT_int64, z. split; [by constructor|done].
  - case_bool_decide; [discriminate|]. injection Hset as <-. simpl in Hok.
    rewrite sint64_range by (unfold int64_max in *; lia). exists CT_int64, z. split; [by constructor|done].
  - injection Hset as <-. exists CT_double, d. split; [constructor|done].
  - injection Hset as <-. exists CT_string, s. split; [constructor|done].
  - case_bool_decide as Hlen; [discriminate|]. assert (vs ≠ []) as Hne by (by intros ->).
    destruct (forallb is_string vs) eqn:Hs.
    { injection Hset as <-. exists CT_strings, (get_string <$> vs). split; [constructor; [done|]|done].
      by rewrite mapM_text, Hs. }
    destruct (forallb is_number_integer vs) eqn:Hi.
    { injection Hset as <-. exists CT_int64s, (get_int64 <$> vs). split; [constructor; [done|]|done].
      by rewrite mapM_int, Hi. }
    destruct (forallb is_number vs) eqn:Hn; [|discriminate].
    injection Hset as <-. exists CT_doubles, (get_double <$> vs).
    split; [constructor|done]; [by rewrite mapM_int, Hi|by rewrite mapM_double, Hn].
Qed.

Lemma setConfigParam_graceful config name key v : graceful (setConfigParam config name key v).
Proof. unfold setConfigParam. repeat case_match; auto with pipe. Qed.

Lemma setConfig_graceful config name items : graceful (setConfig config name items).
Proof.
  revert config. induction items as [|[k v] items IH]; intros config; simpl; [auto with pipe|].
  apply obind_graceful; [apply setConfigParam_graceful|auto].
Qed.

(** What the whole loop leaves in the packet. *)
Lemma setConfig_params items : ∀ config name p,
  Forall (λ kv, config_ok kv.2) items → NoDup items.*1 → (∀ k, k ∈ items.*1 → k ∉ paramKeys config) →
  setConfig config name items = Done p →
  paramKeys p = paramKeys config ++ items.*1 ∧
  (∀ k, k ∉ items.*1 → findParam p k = findParam config k) ∧
  (∀ k v, (k, v) ∈ items → ∃ t c, config_means v t c ∧ findParam p k = Some (existT (cfg_ty t) (cfg_val t c))).
Proof.
  induction items as [|[k v] items IH]; intros config name p Hok Hnd Hfresh Hrun; csimpl in *.
  { injection Hrun as <-. rewrite app_nil_r. split_and!; [done|done|]. intros k v ?%elem_of_nil. done. }
  apply Forall_cons in Hok as [Hv Hok]. apply NoDup_cons in Hnd as [Hk Hnd].
  apply obind_Done in Hrun as (q & Hset & Hrun).
  apply setConfigParam_Done in Hset as (t & c & Hm & ->); [|done].
  assert (k ∉ paramKeys config) as Hkf by (apply Hfresh; set_solver).
  edestruct IH as (Hkeys & Hold & Hnew); [done|done| |exact Hrun|].
  { intros k' Hk'. rewrite paramKeys_setParam, decide_False by done. set_solver. }
  rewrite paramKeys_setParam, decide_False in Hkeys by done.
  split_and!.
  - by rewrite Hkeys, <-(assoc (++)).
  - intros k' Hk'. rewrite Hold, findParam_setParam, decide_False by set_solver. done.
  - intros k' v' [[= -> ->]|Hin]%elem_of_cons; [|by apply Hnew].
    exists t, c. split; [done|]. rewrite Hold by done. by rewrite findParam_setParam, decide_True.
Qed.
End Config.

(** ** Endpoints *)

Definition dot_free (s : string) : Prop := ∀ a b, s ≠ a +:+ "." +:+ b.

(** What an endpoint of an edge names. *)
Inductive endpoint_denotes : json → string * string → Prop :=
  | ed_compact node port : node ≠ "" → port ≠ "" → dot_free node → dot_free port →
      endpoint_denotes (JString (node +:+ "." +:+ port)) (node, port)
  | ed_object members node port :
      (∀ k, k ∈ members.*1 → k ∈ ["node"; "port"]) →
      member members "node" = Some (JString node) →
      match member members "port" with Some v => v = JString port | None => port = "" end →
      endpoint_denotes (JObject members) (node, port).

(** An endpoint whose port is not text: converting it throws. *)
Definition bad_port (v : json) : Prop :=
  ∃ members p, v = JObject members ∧ member members "port" = Some p ∧ is_string p = false.

Lemma split_dot_Some s a b : split_dot s = Some (a, b) → s = a +:+ "." +:+ b ∧ split_dot a = None.
Proof.
  revert a b. induction s as [|c s IH]; intros a b; simpl; [done|].
  destruct (Ascii.eqb c ".") eqn:Hc.
  - intros [= <- <-]. apply Ascii.eqb_eq in Hc as ->. done.
  - destruct (split_dot s) as [[a' b']|]; [|done]. intros [= <- <-].
    destruct (IH a' b' eq_refl) as [-> Ha]. split; [done|]. simpl. by rewrite Hc, Ha.
Qed.

Lemma split_dot_app a b : split_dot a = None → split_dot (a +:+ "." +:+ b) = Some (a, b).
Proof.
  induction a as [|c a IH]; simpl; [done|]. destruct (Ascii.eqb c "."); [done|].
  destruct (split_dot a) as [[]|]; [done|]. intros _. by rewrite IH.
Qed.

Lemma split_dot_None s : split_dot s = None ↔ dot_free s.
Proof.
  split.
  - intros Hs a b ->. revert Hs. induction a as [|c a IH]; simpl; [done|].
    destruct (Ascii.eqb c "."); [done|]. by destruct (split_dot (a +:+ "." +:+ b)) as [[]|].
  - intros Hs. destruct (split_dot s) as [[a b]|] eqn:E; [|done].
    apply split_dot_Some in E as [-> _]. by destruct (Hs a b).
Qed.

Lemma parseEndpoint_Done v side i np : parseEndpoint v side i = Done np ↔ endpoint_denotes v np.
Proof.
  destruct np as [node port]. split.
  - destruct v as [| | | | |text| |members]; try done; simpl.
    + destruct (split_dot text) as [[a b]|] eqn:E; [|done].
      apply split_dot_Some in E as [-> Ha]. do 3 (case_bool_decide; [done|]). intros [= <- <-].
      constructor; [done|done|by apply split_dot_None|].
      apply split_dot_None, eq_None_not_Some. done.
    + intros ([] & Hk & Hrun)%obind_Done. pose proof (proj1 (checkKnownKeys_Done _ _ _) Hk) as Hk'.
      destruct (member members "node") as [[]|] eqn:Hn; try done.
      destruct (member members "port") as [[]|] eqn:Hp; try done;
        simplify_eq; econstructor; eauto; by rewrite Hp.
  - inversion 1 as [n p Hn Hp Hdn Hdp|members n p Hk Hn Hp]; subst; simpl.
    + rewrite split_dot_app by (by apply split_dot_None).
      apply split_dot_None in Hdp. rewrite Hdp.
      by rewrite !bool_decide_eq_false_2 by (done || by intros []).
    + apply obind_Done. exists tt. split; [by apply checkKnownKeys_Done|]. rewrite Hn.
      by destruct (member members "port") as [[]|]; simplify_eq.
Qed.

Lemma parseEndpoint_cases v side i :
  graceful (parseEndpoint v side i) ∨ ((∃ what, parseEndpoint v side i = Thrown what) ∧ bad_port v).
Proof.
  destruct v as [| | | | |text| |members]; simpl; try (left; apply fail_graceful).
  - left. destruct (split_dot text) as [[]|]; [case_match|]; auto with pipe.
  - destruct (checkKnownKeys_graceful members ("edge #" +:+ pretty i +:+ " '" +:+ side +:+ "'") ["node"; "port"])
      as [[[] ->]|(e & -> & He)]; simpl; [|left; right; by exists e].
    destruct (member members "node") as [[]|]; try (left; apply fail_graceful).
    destruct (member members "port") as [[]|] eqn:Hp; simpl; try (left; apply done_graceful);
      right; (split; [by eexists|]); eexists members, _; eauto.
Qed.

(** ** The graph *)

(** What a document's entries name. *)
Definition node_denotes (entry : json) (name : string) : Prop :=
  ∃ members type, entry = JObject members ∧ member members "type" = Some (JString type) ∧
    member members "name" = Some (JString name) ∧ name ≠ "".

Definition edge_denotes (entry : json) (e : string * string * string * string) : Prop :=
  ∃ members from to, entry = JObject members ∧
    member members "from" = Some from ∧ member members "to" = Some to ∧
    endpoint_denotes from (e.1.1.1, e.1.1.2) ∧ endpoint_denotes to (e.1.2, e.2).

Definition doc_nodes (members : list (string * json)) : list json :=
  match member members "nodes" with Some (JArray entries) => entries | _ => [] end.
Definition doc_edges (members : list (string * json)) : list json :=
  match member members "edges" with Some (JArray entries) => entries | _ => [] end.

(** An edge entry with an endpoint that makes the conversion throw. *)
Definition throwing_edge (entry : json) : Prop :=
  ∃ members side v, entry = JObject members ∧ member members side = Some v ∧ bad_port v.

Section Assemble.
Context `{ConfigTypes} {W : Type} (deref : NodePtr → ILogicNode).
Implicit Types (g : Graph) (w : W).

(** The graph by names, as the document speaks of it. *)
Definition named_edges g : list (string * string * string * string) :=
  (λ e, (getName (deref (source_node e)), source_port e, getName (deref (dest_node e)), dest_port e))
    <$> m_edges g.
Definition node_names g : list string := (λ p, getName (deref p)) <$> m_nodes g.

Definition built g : Prop := rtc (graph_step deref) empty_graph g.

(** Factories name the nodes they make as asked. *)
Definition factories_name (registry : NodeRegistry W) : Prop :=
  ∀ type f w name config w' p, registry !! type = Some f →
    f w name config = (w', ROk (Some p)) → getName (deref p) = name.

Lemma addEdge_accepted g sn sp dn dp g' :
  built g → addEdge deref g sn sp dn dp = (g', true) →
  built g' ∧ m_nodes g' = m_nodes g ∧ named_edges g' = named_edges g ++ [(sn, sp, dn, dp)].
Proof.
  intros Hg Hadd. pose proof (reachable_graph_wf _ _ Hg) as Hwf.
  assert (built g') as Hg'.
  { eapply rtc_r; [exact Hg|]. replace g' with (addEdge deref g sn sp dn dp).1 by (by rewrite Hadd). constructor. }
  apply addEdge_cases in Hadd as [[? _]|(_ & p & q & Hp & Hq & _ & _ & _ & _ & ->)]; [done|].
  split; [done|]. split; [done|]. apply (gw_map _ _ Hwf) in Hp as [_ <-], Hq as [_ <-].
  unfold named_edges. simpl. by rewrite fmap_app.
Qed.

Lemma addEdges_Done entries : ∀ g i g',
  built g → addEdges deref g i entries = Done g' →
  built g' ∧ m_nodes g' = m_nodes g ∧
  ∃ es, named_edges g' = named_edges g ++ es ∧ Forall2 edge_denotes entries es.
Proof.
  induction entries as [|entry entries IH]; intros g i g' Hg Hrun; simpl in Hrun.
  { injection Hrun as <-. split_and!; [done|done|]. exists []. by rewrite app_nil_r. }
  destruct entry as [| | | | | | |members]; try discriminate.
  apply obind_Done in Hrun as (_ & _ & Hrun).
  destruct (member members "from") as [from|] eqn:Hf; [|discriminate].
  destruct (member members "to") as [to|] eqn:Ht; [|discriminate].
  apply obind_Done in Hrun as ([sn sp] & Hs & Hrun). apply parseEndpoint_Done in Hs.
  apply obind_Done in Hrun as ([dn dp] & Hd & Hrun). apply parseEndpoint_Done in Hd. cbn [fst snd] in Hrun.
  destruct (addEdge deref g sn sp dn dp) as [g1 [|]] eqn:Hadd; [|discriminate].
  destruct (addEdge_accepted _ _ _ _ _ _ Hg Hadd) as (Hg1 & Hn1 & He1).
  destruct (IH _ _ _ Hg1 Hrun) as (Hg' & Hn' & es & He' & Hes).
  split; [done|]. split; [by rewrite Hn'|]. exists ((sn, sp, dn, dp) :: es).
  split; [by rewrite He', He1, <-(assoc (++))|]. constructor; [|done]. by exists members, from, to.
Qed.

Lemma addEdges_cases entries : ∀ g i,
  graceful (addEdges deref g i entries) ∨
  ((∃ what, addEdges deref g i entries = Thrown what) ∧ Exists throwing_edge entries).
Proof.
  induction entries as [|entry entries IH]; intros g i; simpl; [left; apply done_graceful|].
  destruct entry as [| | | | | | |members]; try (left; apply fail_graceful).
  destruct (checkKnownKeys_graceful members ("edge #" +:+ pretty i) ["from"; "to"])
    as [[[] ->]|(e & -> & He)]; simpl; [|left; right; by exists e].
  destruct (member members "from") as [from|] eqn:Hf; [|left; apply fail_graceful].
  destruct (member members "to") as [to|] eqn:Ht; [|left; apply fail_graceful].
  assert (∀ side v, member members side = Some v → bad_port v → throwing_edge (JObject members)) as Hbad.
  { intros side v Hv Hb. by exists members, side, v. }
  destruct (parseEndpoint_cases from "from" i) as [[[src ->]|(e & -> & He)]|[[what ->] Hb]];
    simpl; [|left; right; by exists e|right; split; [by eexists|exact (Exists_cons_hd _ _ _ (Hbad _ _ Hf Hb))]].
  destruct (parseEndpoint_cases to "to" i) as [[[dst ->]|(e & -> & He)]|[[what ->] Hb]];
    simpl; [|left; right; by exists e|right; split; [by eexists|exact (Exists_cons_hd _ _ _ (Hbad _ _ Ht Hb))]].
  destruct (addEdge deref g _ _ _ _) as [g1 [|]]; [|left; apply fail_graceful].
  destruct (IH g1 (S i)) as [|[? ?]]; [by left|right; split; [done|by apply Exists_cons_tl]].
Qed.

Lemma addNode_accepted g p g' :
  built g → addNode deref g p = (g', true) →
  built g' ∧ m_edges g' = m_edges g ∧ ∃ q, p = Some q ∧ m_nodes g' = m_nodes g ++ [q].
Proof.
  intros Hg Hadd. assert (built g') as Hg'.
  { eapply rtc_r; [exact Hg|]. replace g' with (addNode deref g p).1 by (by rewrite Hadd). constructor. }
  split; [done|]. unfold addNode in Hadd. destruct p as [q|]; [|discriminate].
  destruct (m_nodeMap g !! _); [discriminate|]. injection Hadd as <-. simpl. eauto.
Qed.

Lemma parseNodeEntry_Done entry type name config :
  parseNodeEntry entry = Done (type, name, config) → node_denotes entry name.
Proof.
  destruct entry as [| | | | | | |members]; try discriminate. simpl.
  intros (_ & _ & Hrun)%obind_Done.
  destruct (member members "type") as [[]|] eqn:Ht; try discriminate.
  destruct (member members "name") as [[]|] eqn:Hn; try discriminate.
  case_decide; [discriminate|]. injection Hrun as <- <- <-. by exists members, s.
Qed.

Lemma parseNodeEntry_graceful entry : graceful (parseNodeEntry entry).
Proof.
  destruct entry as [| | | | | | |members]; simpl; try apply fail_graceful.
  apply obind_graceful; [apply checkKnownKeys_graceful|]. intros _ _.
  repeat case_match; auto with pipe.
Qed.

Lemma nodeConfig_graceful name config : graceful (nodeConfig name config).
Proof. destruct config as [[]|]; simpl; auto using setConfig_graceful with pipe. Qed.

Lemma addNodes_Done registry entries : factories_name registry → ∀ w g w' g',
  built g → addNodes deref registry w g entries = (w', Done g') →
  built g' ∧ m_edges g' = m_edges g ∧
  ∃ names, node_names g' = node_names g ++ names ∧ Forall2 node_denotes entries names.
Proof.
  intros Hnames. induction entries as [|entry entries IH]; intros w g w' g' Hg Hrun; simpl in Hrun.
  { injection Hrun as _ <-. split_and!; [done|done|]. exists []. by rewrite app_nil_r. }
  destruct (obind _ _) as [[[type name] config]| |] eqn:E; try discriminate.
  apply obind_Done in E as ([[type' name'] c'] & Hp & (config' & _ & [= -> -> ->])%obind_Done).
  apply parseNodeEntry_Done in Hp.
  unfold create in Hrun. destruct (registry !! type) as [f|] eqn:Hf; [|discriminate].
  destruct (f w name config) as [w1 [node|e]] eqn:Hc; [|discriminate].
  destruct (addNode deref g node) as [g1 [|]] eqn:Hadd; [|discriminate].
  destruct (addNode_accepted _ _ _ Hg Hadd) as (Hg1 & He1 & q & -> & Hn1).
  destruct (IH _ _ _ _ Hg1 Hrun) as (Hg' & He' & names & Hn' & Hall).
  split; [done|]. split; [by rewrite He'|]. exists (name :: names). split; [|by constructor].
  rewrite Hn'. unfold node_names. rewrite Hn1, fmap_app, <-(assoc (++)). csimpl.
  by rewrite (Hnames _ _ _ _ _ _ _ Hf Hc).
Qed.

Lemma addNodes_graceful registry entries : ∀ w g, graceful (addNodes deref registry w g entries).2.
Proof.
  induction entries as [|entry entries IH]; intros w g; simpl; [apply done_graceful|].
  destruct (parseNodeEntry_graceful entry) as [[[[type name] c] ->]|(e & -> & He)]; simpl; [|right; by exists e].
  destruct (nodeConfig_graceful name c) as [[config ->]|(e & -> & He)]; simpl; [|right; by exists e].
  destruct (create registry w type name config) as [w1 [node|e]]; simpl; [|apply fail_graceful].
  destruct (addNode deref g node) as [g1 [|]]; [apply IH|apply fail_graceful].
Qed.

Lemma addNodes_built registry entries : ∀ w g w' g',
  built g → addNodes deref registry w g entries = (w', Done g') → built g' ∧ m_edges g' = m_edges g.
Proof.
  induction entries as [|entry entries IH]; intros w g w' g' Hg Hrun; simpl in Hrun; [by injection Hrun as _ <-|].
  destruct (obind _ _) as [[[type name] config]| |]; try discriminate.
  destruct (create registry w type name config) as [w1 [node|e]]; [|discriminate].
  destruct (addNode deref g node) as [g1 [|]] eqn:Hadd; [|discriminate].
  destruct (addNode_accepted _ _ _ Hg Hadd) as (Hg1 & He1 & _).
  destruct (IH _ _ _ _ Hg1 Hrun) as [? ->]. by rewrite He1.
Qed.

(** A graph with the document's edges. *)
Definition edges_of_document members g : Prop := Forall2 edge_denotes (doc_edges members) (named_edges g).

Lemma finishGraph_cases members g :
  built g → m_edges g = [] →
  match finishGraph deref members g with
  | Done g' => built g' ∧ m_nodes g' = m_nodes g ∧ edges_of_document members g' ∧ ¬ graph_cyclic g'
  | Failed e => err_code e = EC_InvalidConfiguration ∨
      (err_code e = EC_GraphCycleDetected ∧ ∃ g', built g' ∧ edges_of_document members g' ∧ graph_cyclic g')
  | Thrown _ => Exists throwing_edge (doc_edges members)
  end.
Proof.
  intros Hg Hnone. unfold finishGraph, edges_of_document, doc_edges.
  assert (∀ es g', built g' → m_nodes g' = m_nodes g → Forall2 edge_denotes es (named_edges g') →
    match match hasCycle g' with
          | Some true => Failed (mkError EC_GraphCycleDetected "The described graph contains a cycle" "")
          | Some false => Done g' | None => Thrown "hasCycle ran out of fuel" end with
    | Done g' => built g' ∧ m_nodes g' = m_nodes g ∧ Forall2 edge_denotes es (named_edges g') ∧ ¬ graph_cyclic g'
    | Failed e => err_code e = EC_InvalidConfiguration ∨ (err_code e = EC_GraphCycleDetected ∧
        ∃ g', built g' ∧ Forall2 edge_denotes es (named_edges g') ∧ graph_cyclic g')
    | Thrown _ => Exists throwing_edge es
    end) as Hlast.
  { intros es g' Hg' Hn He. destruct (hasCycle_total deref g' (reachable_graph_wf _ _ Hg')) as (b & -> & Hb).
    destruct b; naive_solver. }
  destruct (member members "edges") as [v|]; simpl; [|apply Hlast; [done|done|unfold named_edges; by rewrite Hnone]].
  destruct v as [| | | | | |entries|]; simpl; try (left; done).
  destruct (addEdges_cases entries g 0) as [[[g' Hrun]|(e & -> & He)]|[[what ->] Hex]]; simpl; [|by left|done].
  rewrite Hrun. simpl. destruct (addEdges_Done _ _ _ _ Hg Hrun) as (Hg' & Hn & es & He & Hes).
  apply Hlast; [done|done|]. rewrite He. unfold named_edges at 1. by rewrite Hnone.
Qed.

Lemma assembleGraph_cases registry w doc :
  match (assembleGraph deref registry w doc).2 with
  | Done g => ∃ members, doc = JObject members ∧ built g ∧ edges_of_document members g ∧ ¬ graph_cyclic g
  | Failed e => err_code e = EC_InvalidConfiguration ∨ (err_code e = EC_GraphCycleDetected ∧
      ∃ members g, doc = JObject members ∧ built g ∧ edges_of_document members g ∧ graph_cyclic g)
  | Thrown _ => ∃ members, doc = JObject members ∧ Exists throwing_edge (doc_edges members)
  end.
Proof.
  unfold assembleGraph. destruct doc as [| | | | | | |members]; try (left; done).
  destruct (checkKnownKeys_graceful members "top-level document" ["nodes"; "edges"; "options"])
    as [[[] ->]|(e & -> & He)]; [|by left].
  destruct (member members "nodes") as [[| | | | | |[|entry rest]|]|]; try (left; done).
  pose proof (addNodes_graceful registry (entry :: rest) w empty_graph) as Hgr.
  destruct (addNodes deref registry w empty_graph (entry :: rest)) as [w' out] eqn:Hrun.
  destruct Hgr as [[g Hout]|(e & Hout & He)]; cbn [snd] in Hout; subst out; cbn [snd]; [|by left].
  destruct (addNodes_built _ _ _ _ _ _ (rtc_refl _ _) Hrun) as [Hg Hnone].
  pose proof (finishGraph_cases members g Hg Hnone) as Hfin.
  destruct (finishGraph deref members g); naive_solver.
Qed.
End Assemble.

(** ** Claims *)

(** C29: The options object means what the schema says.  Parsing succeeds exactly
    when every key is known and every value present has the documented form, and
    then each field is the value its key gives or, when the key is absent, the
    default of the mode that was chosen (batch, stream, or the plain defaults).
    Integers arrive unchanged: one inside its bounds and below [2^63] is stored as
    it was written, every other one is refused; no narrowing cast ever truncates. *)
Theorem options_exact (doc opts : list (string * json)) (o : PipelineOptions) :
  member doc "options" = Some (JObject opts) → Forall (λ kv, number_ok kv.2) opts →
  (parseOptions doc = Done o ↔ ∃ base, options_spec opts base o) ∧
  ((∃ o', parseOptions doc = Done o') ∨ refused (parseOptions doc)).
Proof. intros Hdoc Hok. split; [by apply parseOptions_Done|apply parseOptions_graceful]. Qed.

Lemma options_exact_witness :
  let opts := [("mode", JString "stream"); ("num_workers", JUint 8); ("queue_capacity", JUint 32)] in
  let o := mkOptions STREAM 8 0 32 "DropHead" true true AP_FrameId 33000 0 PartialInputs in
  parseOptions [("options", JObject opts)] = Done o ∧ ∃ base, options_spec opts base o.
Proof.
  intros opts o. assert (parseOptions [("options", JObject opts)] = Done o) as Hrun by reflexivity.
  split; [exact Hrun|]. apply (options_exact [("options", JObject opts)] opts o); [reflexivity| |exact Hrun].
  repeat constructor; vm_compute; congruence.
Defined.

(** C30: Configuration parameters arrive at the documented C++ type.  When a node's
    [config] object is accepted, the packet handed to the factory holds exactly its
    keys, in order, and reading a key at the type its JSON value maps to (bool,
    64-bit integer, double, string, or a vector of these) gives that value; a
    rejected configuration is an [InvalidConfiguration] error.  Integers inside
    arrays are assumed to fit 64 signed bits, which the code does not test. *)
Theorem config_params_typed `{ConfigTypes} (name : string) (items : list (string * json)) :
  NoDup items.*1 → Forall (λ kv, config_ok kv.2) items →
  match setConfig emptyPacket name items with
  | Done p =>
      paramKeys p = items.*1 ∧
      ∀ k v, (k, v) ∈ items → ∃ t c, config_means v t c ∧ param (cfg_ty t) p k = ROk (cfg_val t c)
  | Failed e => err_code e = EC_InvalidConfiguration
  | Thrown _ => False
  end.
Proof.
  intros Hnd Hok. destruct (setConfig_graceful emptyPacket name items) as [[p Hp]|(e & Hp & He)];
    rewrite Hp; [|done].
  apply setConfig_params in Hp as (Hkeys & _ & Hfind); [|done|done|by intros k _ ?%elem_of_nil].
  split; [done|]. intros k v Hin. destruct (Hfind k v Hin) as (t & c & Hm & Hf).
  exists t, c. split; [done|]. unfold param. by rewrite Hf, any_cast_same.
Qed.

(** C28: A loaded graph is the document's graph.  When a document is accepted, its
    top level is an object with a non-empty [nodes] array; the graph has one node
    per entry, in order, under the entry's name (given factories that name nodes
    as asked), and one edge per [edges] entry, in order, between the endpoints the
    entry names in either notation; it was built by [addNode] and [addEdge] only,
    so it satisfies the graph invariant, and it has no cycle. *)
Theorem loaded_graph_matches_document `{ConfigTypes} {W} (deref : NodePtr → ILogicNode)
    (registry : NodeRegistry W) (w w' : W) (doc : json) (g : Graph) :
  factories_name deref registry →
  assembleGraph deref registry w doc = (w', Done g) →
  ∃ members, doc = JObject members ∧ doc_nodes members ≠ [] ∧
    Forall2 node_denotes (doc_nodes members) (node_names deref g) ∧
    Forall2 edge_denotes (doc_edges members) (named_edges deref g) ∧
    graph_wf deref g ∧ ¬ graph_cyclic g.
Proof.
  unfold assembleGraph. intros Hnames Hrun. destruct doc as [| | | | | | |members]; try discriminate.
  destruct (checkKnownKeys _ _ _); try discriminate.
  destruct (member members "nodes") as [[| | | | | |[|entry rest]|]|] eqn:Hn; try discriminate.
  destruct (addNodes deref registry w empty_graph (entry :: rest)) as [w1 [g1| |]] eqn:Hadd; try discriminate.
  destruct (addNodes_Done _ _ _ Hnames _ _ _ _ (rtc_refl _ _) Hadd) as (Hg1 & He1 & names & Hnn & Hden).
  pose proof (finishGraph_cases deref members g1 Hg1 He1) as Hfin. injection Hrun as _ Hfg.
  rewrite Hfg in Hfin. destruct Hfin as (Hg & Hnodes & Hedges & Hac).
  exists members. unfold doc_nodes. rewrite Hn. split_and!; [done|done| |done|by apply reachable_graph_wf|done].
  unfold node_names in *. rewrite Hnodes, Hnn. done.
Qed.

(** C31: How loading can fail.  A pipeline file that cannot be opened gives
    [InvalidArgument]; anything wrong with the text or the document gives
    [InvalidConfiguration]; [GraphCycleDetected] is answered only when the edges the
    document lists do form a cycle; and an accepted description has an acyclic
    graph.  Two exceptions can leave the function, if the factories of the nodes throw
    none: the type error of an endpoint object whose [port] is not a string, and an
    exception of the JSON parser that is not a [parse_error], which [parseDocument]
    lets through. *)
Theorem loader_failures `{ConfigTypes} {W} (deref : NodePtr → ILogicNode) (json_parse : string → ParseResult)
    (read_stream : W → string → option string) (registry : NodeRegistry W) (w : W) (path : string) :
  match (loadPipelineFromJsonFile deref json_parse read_stream registry w path).2 with
  | Done d => built deref (pd_graph d) ∧ ¬ graph_cyclic (pd_graph d)
  | Failed e =>
      (err_code e = EC_InvalidArgument ∧ read_stream w path = None) ∨ err_code e = EC_InvalidConfiguration ∨
      (err_code e = EC_GraphCycleDetected ∧ ∃ text members g,
         read_stream w path = Some text ∧ json_parse text = Parsed (JObject members) ∧
         built deref g ∧ edges_of_document deref members g ∧ graph_cyclic g)
  | Thrown what => ∃ text, read_stream w path = Some text ∧
      (json_parse text = ParserThrew what ∨
       ∃ members, json_parse text = Parsed (JObject members) ∧ Exists throwing_edge (doc_edges members))
  end.
Proof.
  unfold loadPipelineFromJsonFile, readFile. destruct (read_stream w path) as [text|] eqn:Hr; simpl; [|by left].
  unfold loadPipelineFromJson, parseDocument. destruct (json_parse text) as [doc|what|what] eqn:Hp; simpl; [|by right; left|by eauto].
  pose proof (assembleGraph_cases deref registry w doc) as Hc.
  destruct (assembleGraph deref registry w doc) as [w' [g|e|what]]; simpl in *; [|naive_solver..].
  destruct Hc as (members & -> & Hg & _ & Hac).
  destruct (parseOptions_graceful members) as [[o ->]|(e & -> & He)]; simpl; auto.
Qed.

(** *** A concrete document *)

#[local] Instance cfg_universe : CppTypes.
Proof.
  refine {| ty := CfgType; ty_val := cfg_carrier; ty_name := λ _, "type" |}. solve_decision.
Defined.
#[local] Instance cfg_config_types : ConfigTypes := {| cfg_ty t := t; cfg_val t c := c |}.

Definition ex_ln (p : NodePtr) : ILogicNode :=
  mkNode (if decide (p = 0%nat) then "camera" else "display") ["in"] ["out"] (λ _, typeid_void).
Definition ex_node_factory : Factory unit := λ w name _,
  (w, if decide (name = "camera") then ROk (Some 0%nat)
      else if decide (name = "display") then ROk (Some 1%nat) else result_err EC_InvalidArgument "name" "").
Definition ex_registry : NodeRegistry unit := {["node" := ex_node_factory]}.

Definition ex_entry (name : string) : json := JObject [("name", JString name); ("type", JString "node")].
Definition ex_doc (to : json) : json :=
  JObject [("edges", JArray [JObject [("from", JString "camera.out"); ("to", to)]]);
           ("nodes", JArray [ex_entry "camera"; ex_entry "display"])].

Lemma ex_factories_name : factories_name ex_ln ex_registry.
Proof.
  unfold ex_registry. intros type f w name config w' p Hf. apply lookup_singleton_Some in Hf as [_ <-].
  unfold ex_node_factory. repeat case_decide; intros [=]; by subst.
Qed.

Lemma config_params_typed_witness :
  let items := [("gain", JFloat (to_double 2)); ("labels", JArray [JString "a"; JString "b"]); ("size", JUint 640)] in
  NoDup items.*1 ∧ Forall (λ kv, config_ok kv.2) items ∧
  match setConfig emptyPacket "n" items with Done p => paramKeys p = ["gain"; "labels"; "size"] | _ => False end.
Proof.
  intros items. assert (NoDup items.*1) as Hnd by (apply (bool_decide_unpack _); vm_compute; exact I).
  assert (Forall (λ kv, config_ok kv.2) items) as Hok.
  { repeat constructor; try (intros ? [=]); vm_compute; congruence. }
  split; [exact Hnd|]. split; [exact Hok|].
  pose proof (config_params_typed "n" items Hnd Hok) as Hc.
  destruct (setConfig emptyPacket "n" items) as [p|e|what] eqn:E; [apply Hc|vm_compute in E; discriminate..].
Defined.

Lemma loaded_graph_matches_document_witness :
  factories_name ex_ln ex_registry ∧
  match assembleGraph ex_ln ex_registry tt (ex_doc (JString "display.in")) with
  | (_, Done g) => node_names ex_ln g = ["camera"; "display"] ∧
      Forall2 edge_denotes (doc_edges [("edges", JArray [JObject [("from", JString "camera.out"); ("to", JString "display.in")]])])
        (named_edges ex_ln g) ∧ ¬ graph_cyclic g
  | _ => False
  end.
Proof.
  split; [exact ex_factories_name|].
  destruct (assembleGraph ex_ln ex_registry tt (ex_doc (JString "display.in"))) as [w' [g|e|what]] eqn:E;
    [|vm_compute in E; discriminate..].
  split; [vm_compute in E; injection E as _ <-; reflexivity|].
  destruct (loaded_graph_matches_document ex_ln ex_registry tt w' _ g ex_factories_name E)
    as (members & Hm & _ & _ & He & _ & Hac).
  injection Hm as <-. split; [exact He|exact Hac].
Defined.

(** ** Where the code and its documentation part *)

(** An endpoint whose port is a number is not reported as an error: the conversion
    throws out of the loader before the test that would report it. *)
Lemma endpoint_port_throws :
  (assembleGraph ex_ln ex_registry tt
     (ex_doc (JObject [("node", JString "display"); ("port", JUint 1)]))).2 = Thrown "type_error.302".
Proof. vm_compute. reflexivity. Qed.

(** A number that no double holds is not reported as an error either: the parser
    throws [out_of_range], which is not a [parse_error], and the loader lets it through. *)
Lemma parser_exception_escapes :
  let json_parse text := if decide (text = "[1e999]") then ParserThrew "out_of_range.406" else ParseError "" in
  (loadPipelineFromJsonFile ex_ln json_parse (λ _ _, Some "[1e999]") ex_registry tt "graph.json").2 = Thrown "out_of_range.406".
Proof. vm_compute. reflexivity. Qed.

(** A capacity from [2^63] up lies inside the range the option announces, and is
    refused as if it were negative. *)
Lemma large_capacity_refused :
  uint_denotes 0 u64_max (JUint (2 ^ 63 - 1)) (2 ^ 63 - 1) ∧
  parseUintOption (JUint (2 ^ 63)) "queue_capacity" 0 u64_max =
    fail "Option 'queue_capacity' must be non-negative".
Proof. split; [|vm_compute; reflexivity]. repeat split; vm_compute; congruence. Qed.

(** A large integer alone is refused; inside an array it becomes a negative one. *)
Lemma array_integers_wrap :
  refused (setConfigParam emptyPacket "n" "k" (JUint (2 ^ 63))) ∧
  match setConfigParam emptyPacket "n" "k" (JArray [JUint (2 ^ 63)]) with
  | Done p => param CT_int64s p "k" = ROk [- 2 ^ 63]
  | _ => False
  end.
Proof. split; [eexists; split; vm_compute; reflexivity|vm_compute; reflexivity]. Qed.
