(* ===== verification/Trace.v ===== *)
(** * Tracing: the Chrome trace sink

    [include/ai_pipe/trace.hpp]: events, the buffering [ChromeTraceSink], and its
    export.  The reference is a printer for JSON documents and a reader for JSON
    strings, written from the format and not from the code: the theorem says that
    the exported text is the rendering of the document with one object per event,
    and that every name in it reads back. *)

From Stdlib Require Import Ascii.
From S2P Require Import Prelude Errors Packets.
Local Open Scope string_scope.
Local Open Scope list_scope.
Local Open Scope Z_scope.

(** src/include/ai_pipe/trace.hpp:22-27 TracePhase *)
Inductive TracePhase := TP_Enqueue | TP_Schedule | TP_Execute | TP_Propagate.

(** src/include/ai_pipe/trace.hpp:32-44 tracePhaseToString *)
Definition tracePhaseToString (phase : TracePhase) : string :=
  match phase with
  | TP_Enqueue => "enqueue" | TP_Schedule => "schedule"
  | TP_Execute => "execute" | TP_Propagate => "propagate"
  end.

(** src/include/ai_pipe/trace.hpp:53-62 TraceEvent; start in nanoseconds, duration in microseconds *)
Record TraceEvent := mkTraceEvent {
  te_phase : TracePhase;
  te_node : string;
  te_detail : string;
  te_frame_id : FrameId;
  te_stream_id : StreamId;
  te_start : Timestamp;
  te_duration : Z;
  te_thread_id : Z;
}.

(** src/include/ai_pipe/trace.hpp:176-185 ChromeTraceSink::Record *)
Record TraceRecord := mkTraceRecord {
  tr_phase : TracePhase;
  tr_node : string;
  tr_detail : string;
  tr_frame_id : FrameId;
  tr_stream_id : StreamId;
  tr_start_us : Z;
  tr_duration_us : Z;
  tr_thread_id : Z;
}.

(** src/include/ai_pipe/trace.hpp:216-217 ChromeTraceSink (data members) *)
Record ChromeTraceSink := mkSink { m_records : list TraceRecord }.

(** src/include/ai_pipe/trace.hpp:97-112 ChromeTraceSink::onEvent *)
Definition onEvent (sink : ChromeTraceSink) (event : TraceEvent) : ChromeTraceSink :=
  mkSink (m_records sink ++
    [mkTraceRecord (te_phase event) (te_node event) (te_detail event) (te_frame_id event)
       (te_stream_id event) (Z.quot (te_start event) 1000) (te_duration event) (te_thread_id event)]).

(** src/include/ai_pipe/trace.hpp:115-118 ChromeTraceSink::eventCount *)
Definition eventCount (sink : ChromeTraceSink) : nat := length (m_records sink).

(** src/include/ai_pipe/trace.hpp:121-124 ChromeTraceSink::clear *)
Definition sink_clear (sink : ChromeTraceSink) : ChromeTraceSink := mkSink [].

Definition dq : ascii := ascii_of_nat 34.
Definition backslash : ascii := ascii_of_nat 92.
Definition newline : ascii := ascii_of_nat 10.
Definition tab : ascii := ascii_of_nat 9.
Definition carriage_return : ascii := ascii_of_nat 13.

(** src/include/ai_pipe/trace.hpp:191-211 ChromeTraceSink::escape (one character) *)
Definition escape_char (character : ascii) : string :=
  if decide (character = dq) then String backslash (String dq "")
  else if decide (character = backslash) then String backslash (String backslash "")
  else if decide (character = newline) then String backslash "n"
  else if decide (character = tab) then String backslash "t"
  else if decide (nat_of_ascii character < 32)%nat then " "
  else String character "".

(** src/include/ai_pipe/trace.hpp:187-214 ChromeTraceSink::escape *)
Fixpoint escape (raw : string) : string :=
  match raw with
  | EmptyString => ""
  | String character rest => escape_char character +:+ escape rest
  end.

(** A JSON key or text in quotes, as the literals of the code spell it. *)
Definition q (s : string) : string := String dq (s +:+ String dq "").

(** src/include/ai_pipe/trace.hpp:142-154 ChromeTraceSink::toJson (one record) *)
Definition record_json (record : TraceRecord) : string :=
  "{" +:+ q "name" +:+ ":" +:+ q (escape (tr_node record)) +:+
  "," +:+ q "cat" +:+ ":" +:+ q (tracePhaseToString (tr_phase record)) +:+
  "," +:+ q "ph" +:+ ":" +:+ q (if decide (0 < tr_duration_us record) then "X" else "i") +:+
  "," +:+ q "ts" +:+ ":" +:+ pretty (tr_start_us record) +:+
  "," +:+ q "pid" +:+ ":1," +:+ q "tid" +:+ ":" +:+ pretty (tr_thread_id record) +:+
  (if decide (0 < tr_duration_us record) then "," +:+ q "dur" +:+ ":" +:+ pretty (tr_duration_us record)
   else "," +:+ q "s" +:+ ":" +:+ q "t") +:+
  "," +:+ q "args" +:+ ":{" +:+ q "frame_id" +:+ ":" +:+ pretty (tr_frame_id record) +:+
  "," +:+ q "stream_id" +:+ ":" +:+ pretty (tr_stream_id record) +:+
  "," +:+ q "detail" +:+ ":" +:+ q (escape (tr_detail record)) +:+ "}}".

(** src/include/ai_pipe/trace.hpp:136-154 ChromeTraceSink::toJson (the loop) *)
Fixpoint records_json (first : bool) (records : list TraceRecord) : string :=
  match records with
  | [] => ""
  | record :: rest => (if first then "" else ",") +:+ record_json record +:+ records_json false rest
  end.

(** src/include/ai_pipe/trace.hpp:127-158 ChromeTraceSink::toJson *)
Definition toJson (sink : ChromeTraceSink) : string :=
  "{" +:+ q "traceEvents" +:+ ":[" +:+ records_json true (m_records sink) +:+ "]}".

(** src/include/ai_pipe/trace.hpp:161-173 ChromeTraceSink::writeFile; the file system says whether
    the file opens and whether writing the text succeeds *)
Definition writeFile (opens : string → bool) (writes : string → string → bool) (sink : ChromeTraceSink)
    (path : string) : VoidResult :=
  if negb (opens path) then void_err EC_InvalidArgument ("Cannot open trace file for writing: " +:+ path) ""
  else if negb (writes path (toJson sink)) then void_err EC_InvalidArgument ("Failed writing trace file: " +:+ path) ""
  else void_ok.

(** ** The reference *)

(** JSON documents, as far as traces use them. *)
Inductive jdoc :=
  | JNum (z : Z)
  | JStr (s : string)
  | JArr (elements : list jdoc)
  | JObj (members : list (string * jdoc)).

Definition hex_digit (n : nat) : ascii :=
  ascii_of_nat (if decide (n < 10)%nat then 48 + n else 87 + n).

(** JSON's own escaping of one character. *)
Definition json_char (c : ascii) : string :=
  if decide (c = dq) then String backslash (String dq "")
  else if decide (c = backslash) then String backslash (String backslash "")
  else if decide (c = newline) then String backslash "n"
  else if decide (c = tab) then String backslash "t"
  else if decide (nat_of_ascii c < 32)%nat then
    String backslash ("u00" +:+ String (hex_digit (nat_of_ascii c / 16)) (String (hex_digit (nat_of_ascii c mod 16)) ""))
  else String c "".

Fixpoint json_text (s : string) : string :=
  match s with EmptyString => "" | String c rest => json_char c +:+ json_text rest end.

Definition join_comma (parts : list string) : string :=
  match parts with [] => "" | p :: rest => p +:+ foldr (λ x acc, "," +:+ x +:+ acc) "" rest end.

(** The compact rendering of a document. *)
Fixpoint render (d : jdoc) : string :=
  match d with
  | JNum z => pretty z
  | JStr s => q (json_text s)
  | JArr elements => "[" +:+ join_comma (map render elements) +:+ "]"
  | JObj members => "{" +:+ join_comma (map (λ kv, q (json_text kv.1) +:+ ":" +:+ render kv.2) members) +:+ "}"
  end.

(** Reading a string after its opening quote: the text up to the closing one. *)
Fixpoint read_string (s : string) : option (string * string) :=
  match s with
  | EmptyString => None
  | String c rest =>
      if decide (c = dq) then Some ("", rest)
      else if decide (c = backslash) then
        match rest with
        | String e rest' =>
            c' ← (if decide (e = dq) then Some dq else if decide (e = backslash) then Some backslash
                  else if decide (e = "n"%char) then Some newline
                  else if decide (e = "r"%char) then Some carriage_return
                  else if decide (e = "t"%char) then Some tab else None);
            '(t, r) ← read_string rest'; Some (String c' t, r)
        | EmptyString => None
        end
      else if decide (nat_of_ascii c < 32)%nat then None
      else '(t, r) ← read_string rest; Some (String c t, r)
  end.

(** What the exporter keeps of a text: control characters other than newline and tab become spaces. *)
Definition sane (c : ascii) : ascii :=
  if decide (nat_of_ascii c < 32 ∧ c ≠ newline ∧ c ≠ tab)%nat then " "%char else c.
Fixpoint sanitize (s : string) : string :=
  match s with EmptyString => "" | String c rest => String (sane c) (sanitize rest) end.

(** The trace-event object of a record. *)
Definition event_doc (r : TraceRecord) : jdoc :=
  JObj ([("name", JStr (sanitize (tr_node r))); ("cat", JStr (tracePhaseToString (tr_phase r)));
         ("ph", JStr (if decide (0 < tr_duration_us r) then "X" else "i"));
         ("ts", JNum (tr_start_us r)); ("pid", JNum 1); ("tid", JNum (tr_thread_id r));
         (if decide (0 < tr_duration_us r) then ("dur", JNum (tr_duration_us r)) else ("s", JStr "t"));
         ("args", JObj [("frame_id", JNum (tr_frame_id r)); ("stream_id", JNum (tr_stream_id r));
                        ("detail", JStr (sanitize (tr_detail r)))])]).

(** ** Lemmas *)

Lemma escape_char_sane c : escape_char c = json_char (sane c).
Proof. by destruct c as [[] [] [] [] [] [] [] []]. Qed.

Lemma escape_sanitize s : escape s = json_text (sanitize s).
Proof. induction s as [|c s IH]; simpl; [done|]. by rewrite escape_char_sane, IH. Qed.

Lemma read_char c t :
  read_string (json_char (sane c) +:+ t) = ('(u, r) ← read_string t; Some (String (sane c) u, r)).
Proof. by destruct c as [[] [] [] [] [] [] [] []]. Qed.

Lemma string_app_assoc (a b c : string) : (a +:+ b) +:+ c = a +:+ b +:+ c.
Proof. induction a as [|x a IH]; [done|]. exact (f_equal (String x) IH). Qed.

Lemma append_nil (a : string) : "" +:+ a = a.
Proof. done. Qed.
Lemma append_cons c (a b : string) : String c a +:+ b = String c (a +:+ b).
Proof. done. Qed.
#[export] Hint Rewrite string_app_assoc append_nil append_cons : text.

Lemma read_escape s rest : read_string (escape s +:+ String dq rest) = Some (sanitize s, rest).
Proof.
  induction s as [|c s IH]; [done|]. simpl. rewrite escape_char_sane, string_app_assoc, read_char, IH. done.
Qed.

(** Joining with commas, as the loop does it. *)
Lemma records_json_join records :
  records_json true records = join_comma (map record_json records).
Proof.
  destruct records as [|r rs]; [done|]. simpl. rewrite append_nil. f_equal.
  induction rs as [|r' rs IH]; [done|]. simpl. by rewrite IH.
Qed.

Lemma phase_text phase : json_text (tracePhaseToString phase) = tracePhaseToString phase.
Proof. by destruct phase. Qed.

Lemma record_json_render r : record_json r = render (event_doc r).
Proof.
  unfold record_json, event_doc. rewrite !escape_sanitize. cbn [render map join_comma foldr fst snd].
  rewrite phase_text. case_decide; cbn [fst snd render]; unfold q; simpl;
    by autorewrite with text.
Qed.

(** ** Claims *)

(** C39: The exported trace is well-formed and faithful.  The text [toJson] produces
    is the rendering of the JSON document with one trace-event object per buffered
    event, in the order of the [onEvent] calls, with its name, phase, start in
    microseconds, thread, duration (for spans) and ids; and a JSON reader that
    reaches the opening quote of a node name or detail stops at the quote the
    exporter wrote, with the text back (control characters other than newline and
    tab as spaces). *)
Theorem trace_export_faithful (events : list TraceEvent) :
  let sink := foldl onEvent (mkSink []) events in
  eventCount sink = length events ∧
  toJson sink = render (JObj [("traceEvents", JArr (event_doc <$> m_records sink))]) ∧
  Forall2 (λ e r, tr_node r = te_node e ∧ tr_phase r = te_phase e ∧ tr_detail r = te_detail e ∧
    tr_frame_id r = te_frame_id e ∧ tr_stream_id r = te_stream_id e ∧
    tr_start_us r = Z.quot (te_start e) 1000 ∧ tr_duration_us r = te_duration e ∧ tr_thread_id r = te_thread_id e)
    events (m_records sink) ∧
  (∀ e rest, e ∈ events →
     read_string (escape (te_node e) +:+ String dq rest) = Some (sanitize (te_node e), rest) ∧
     read_string (escape (te_detail e) +:+ String dq rest) = Some (sanitize (te_detail e), rest)).
Proof.
  intros sink.
  assert (Forall2 (λ e r, tr_node r = te_node e ∧ tr_phase r = te_phase e ∧ tr_detail r = te_detail e ∧
    tr_frame_id r = te_frame_id e ∧ tr_stream_id r = te_stream_id e ∧
    tr_start_us r = Z.quot (te_start e) 1000 ∧ tr_duration_us r = te_duration e ∧ tr_thread_id r = te_thread_id e)
    events (m_records sink)) as Hall.
  { unfold sink. induction events as [|e events IH] using rev_ind; [constructor|].
    rewrite foldl_app. simpl. apply Forall2_app; [apply IH|]. by repeat constructor. }
  split_and!; [|unfold toJson|done|intros; split; apply read_escape].
  - unfold eventCount. by rewrite (Forall2_length _ _ _ Hall).
  - rewrite records_json_join. cbn [render map join_comma foldr fst snd].
    change (map render (event_doc <$> m_records sink)) with (render <$> (event_doc <$> m_records sink)).
    rewrite <-list_fmap_compose. change (map record_json (m_records sink)) with (record_json <$> m_records sink).
    rewrite (list_fmap_ext record_json (render ∘ event_doc) (m_records sink)); [|intros; apply record_json_render].
    simpl. unfold q. simpl. by autorewrite with text.
Qed.

(** Two events of two threads, exported. *)
Lemma trace_export_faithful_witness :
  let events := [mkTraceEvent TP_Execute "camera" "" 1 0 5000 12 7; mkTraceEvent TP_Enqueue "display" "in" 1 0 17000 0 8] in
  let sink := foldl onEvent (mkSink []) events in
  eventCount sink = 2%nat ∧ tr_thread_id <$> m_records sink = [7; 8] ∧
  toJson sink = render (JObj [("traceEvents", JArr (event_doc <$> m_records sink))]).
Proof.
  intros events sink. destruct (trace_export_faithful events) as (Hc & Hj & _ & _).
  split; [exact Hc|]. split; [vm_compute; reflexivity|exact Hj].
Defined.

(** A name with a quote, a backslash and a bell in it, exported and read back. *)
Lemma trace_example :
  let name := "a" +:+ String dq (String backslash (String (ascii_of_nat 7) "b")) in
  read_string (escape name +:+ String dq ",") =
    Some ("a" +:+ String dq (String backslash " b"), ",").
Proof. vm_compute. reflexivity. Qed.
