(* ===== verification/Contexts.v ===== *)
(** * The pipeline context

    [include/ai_pipe/context.hpp] and [src/context.cpp]: typed resources, services,
    configuration and user data, execution ids, per-node metrics, cancellation,
    progress and the logger adapters.  The four stores keep [std::any] values (the
    [any] of [Packets]); a clock reading is an argument, in nanoseconds.  The
    accessors take one lock each, so operations are atomic steps on the record.

    The registration of the engine-log bridge takes two critical sections around a
    call into the logger, and is modelled as such, in [Bridge].

    The theorems: each store is a map (what was put is what is read, at its type),
    execution ids are distinct and never zero, and the metrics account for every
    node execution since the last begin. *)

From Stdlib Require Import Ascii Floats.SpecFloat.
From S2P Require Import Prelude Errors Packets ExecutionTypes.
Local Open Scope string_scope.
Local Open Scope list_scope.
Local Open Scope Z_scope.

(** ** Identifiers and metrics *)

(** src/src/context.cpp:11-19 ExecutionId::generate; the counter before the call,
    and the steady-clock count of the first call *)
Definition generate (first_tick counter : Z) : Z * Z :=
  let base := Z.land (wrap64 first_tick) (Z.shiftl (2 ^ 32 - 1) 32) in
  let counter' := wrap64 (counter + 1) in
  (counter', Z.lor base counter').

Definition hex_char (n : Z) : ascii :=
  ascii_of_nat (Z.to_nat (if decide (n < 10) then 48 + n else 87 + n)).

(** The [k] low hexadecimal digits of a number, most significant first. *)
Fixpoint hex_digits (k : nat) (n : Z) : string :=
  match k with
  | O => ""
  | S k => hex_digits k (n / 16) +:+ String (hex_char (n `mod` 16)) ""
  end.

(** src/src/context.cpp:21-25 ExecutionId::toString (hexadecimal, sixteen digits) *)
Definition executionId_toString (value : Z) : string := hex_digits 16 value.

(** src/include/ai_pipe/context.hpp:46-54 NodeMetrics *)
Record NodeMetrics := mkNodeMetrics {
  nm_node_name : string;
  nm_start_time : Timestamp;
  nm_end_time : Timestamp;
  nm_duration_us : Z;
  nm_success : bool;
  nm_error_message : string;
  nm_input_size : Z;
  nm_output_size : Z;
}.

(** src/include/ai_pipe/context.hpp:56-58 NodeMetrics::durationMs *)
Definition durationMs (m : NodeMetrics) : double := ddiv (to_double (nm_duration_us m)) (to_double 1000).

(** src/include/ai_pipe/context.hpp:64-71 ExecutionMetrics *)
Record ExecutionMetrics := mkExecutionMetrics {
  em_execution_id : Z;
  em_start_time : Timestamp;
  em_end_time : Timestamp;
  em_total_duration_ms : Z;
  em_nodes_executed : Z;
  em_nodes_failed : Z;
  em_node_metrics : list NodeMetrics;
}.

(** src/include/ai_pipe/context.hpp:73-78 ExecutionMetrics::successRate *)
Definition em_successRate (m : ExecutionMetrics) : double :=
  if decide (em_nodes_executed m = 0) then dzero
  else dmul (ddiv (to_double (wrap64 (em_nodes_executed m - em_nodes_failed m)))
                  (to_double (em_nodes_executed m))) dhundred.

(** ** Progress and logging *)

(** src/include/ai_pipe/context.hpp:103-129 ProgressReporter; the callback is recorded by the
    calls it receives *)
Record ProgressReporter := mkReporter {
  pr_has_callback : bool;
  pr_progress : double;
  pr_message : string;
  pr_calls : list (double * string);
}.

Definition newReporter : ProgressReporter := mkReporter false dzero "" [].

(** src/include/ai_pipe/context.hpp:111-117 ProgressReporter::report *)
Definition report (r : ProgressReporter) (progress : double) (message : string) : ProgressReporter :=
  mkReporter (pr_has_callback r) progress message
    (if pr_has_callback r then pr_calls r ++ [(progress, message)] else pr_calls r).

(** src/include/ai_pipe/context.hpp:136-142 PipeLogLevel *)
Inductive PipeLogLevel := KTrace | KDebug | KInfo | KWarning | KError.

(** src/src/context.cpp:29-61 ConsoleLoggerAdapter::log; the line written *)
Definition console_line (level : PipeLogLevel) (node_name message : string) : string :=
  let level_str := match level with
    | KDebug => "DEBUG" | KInfo => "INFO" | KWarning => "WARN" | KError => "ERROR" | KTrace => "???"
    end in
  "[" +:+ level_str +:+ "]" +:+ (if decide (node_name = "") then "" else " [" +:+ node_name +:+ "]") +:+
  " " +:+ message.

(** src/include/ai_pipe/context.hpp:706-711 MemoryLoggerAdapter::Entry *)
Record LogEntry := mkLogEntry {
  le_level : PipeLogLevel;
  le_node : string;
  le_message : string;
  le_timestamp : Timestamp;
}.

(** src/include/ai_pipe/context.hpp:713-718 MemoryLoggerAdapter::log *)
Definition memory_log (entries : list LogEntry) (now : Timestamp) (level : PipeLogLevel)
    (node_name message : string) : list LogEntry :=
  entries ++ [mkLogEntry level node_name message now].

(** src/include/ai_pipe/context.hpp:725-728 MemoryLoggerAdapter::clear *)
Definition memory_clear (entries : list LogEntry) : list LogEntry := [].

(** ** The context *)

Section Context.
Context `{CppTypes}.

(** The adapters a context may have: none, one that discards, or one that keeps entries. *)
Inductive LoggerAdapter := NullLoggerAdapter | MemoryLoggerAdapter (entries : list LogEntry).

(** src/include/ai_pipe/context.hpp:574-618 PipelineContext (data members) *)
Record PipelineContext := mkContext {
  m_resources : gmap string any;
  m_services : list (ty * any);
  m_config : gmap string any;
  m_userData : gmap string any;
  m_executionId : Z;
  m_isExecuting : bool;
  m_executionStartTime : Timestamp;
  m_nodeMetrics : gmap string NodeMetrics;
  m_nodesExecuted : Z;
  m_nodesFailed : Z;
  m_cancelled : bool;
  m_loggerAdapter : option LoggerAdapter;
  m_overallProgress : double;
  m_progressCallback : bool;
  m_progressCalls : list (double * string);
  m_nodeProgressReporters : gmap string ProgressReporter;
}.

(** src/src/context.cpp:65-65 PipelineContext::PipelineContext *)
Definition newContext : PipelineContext :=
  mkContext ∅ [] ∅ ∅ 0 false 0 ∅ 0 0 false None dzero false [] ∅.

Definition set_stores res svc cfg usr (c : PipelineContext) : PipelineContext :=
  mkContext res svc cfg usr (m_executionId c) (m_isExecuting c) (m_executionStartTime c)
    (m_nodeMetrics c) (m_nodesExecuted c) (m_nodesFailed c) (m_cancelled c) (m_loggerAdapter c)
    (m_overallProgress c) (m_progressCallback c) (m_progressCalls c) (m_nodeProgressReporters c).

Definition set_metrics ms executed failed (c : PipelineContext) : PipelineContext :=
  mkContext (m_resources c) (m_services c) (m_config c) (m_userData c) (m_executionId c)
    (m_isExecuting c) (m_executionStartTime c) ms executed failed (m_cancelled c) (m_loggerAdapter c)
    (m_overallProgress c) (m_progressCallback c) (m_progressCalls c) (m_nodeProgressReporters c).

Definition set_execution id executing start (c : PipelineContext) : PipelineContext :=
  mkContext (m_resources c) (m_services c) (m_config c) (m_userData c) id executing start
    (m_nodeMetrics c) (m_nodesExecuted c) (m_nodesFailed c) (m_cancelled c) (m_loggerAdapter c)
    (m_overallProgress c) (m_progressCallback c) (m_progressCalls c) (m_nodeProgressReporters c).

Definition set_cancelled b (c : PipelineContext) : PipelineContext :=
  mkContext (m_resources c) (m_services c) (m_config c) (m_userData c) (m_executionId c)
    (m_isExecuting c) (m_executionStartTime c) (m_nodeMetrics c) (m_nodesExecuted c) (m_nodesFailed c)
    b (m_loggerAdapter c) (m_overallProgress c) (m_progressCallback c) (m_progressCalls c)
    (m_nodeProgressReporters c).

Definition set_adapter a (c : PipelineContext) : PipelineContext :=
  mkContext (m_resources c) (m_services c) (m_config c) (m_userData c) (m_executionId c)
    (m_isExecuting c) (m_executionStartTime c) (m_nodeMetrics c) (m_nodesExecuted c) (m_nodesFailed c)
    (m_cancelled c) a (m_overallProgress c) (m_progressCallback c) (m_progressCalls c)
    (m_nodeProgressReporters c).

Definition set_progress overall callback calls reporters (c : PipelineContext) : PipelineContext :=
  mkContext (m_resources c) (m_services c) (m_config c) (m_userData c) (m_executionId c)
    (m_isExecuting c) (m_executionStartTime c) (m_nodeMetrics c) (m_nodesExecuted c) (m_nodesFailed c)
    (m_cancelled c) (m_loggerAdapter c) overall callback calls reporters.

(** *** Resources, configuration, user data *)

(** A [std::any] table read at a type: absent or of another type is nothing. *)
Definition any_get (t : ty) (m : gmap string any) (key : string) : option (ty_val t) :=
  match m !! key with Some a => any_cast t a | None => None end.

(** src/include/ai_pipe/context.hpp:238-241 PipelineContext::setResource; [t] is [shared_ptr<T>] *)
Definition setResource (t : ty) (c : PipelineContext) (name : string) (resource : ty_val t) : PipelineContext :=
  set_stores (<[name := existT t resource]> (m_resources c)) (m_services c) (m_config c) (m_userData c) c.

(** src/include/ai_pipe/context.hpp:248-259 PipelineContext::getResource; [None] is the null pointer *)
Definition getResource (t : ty) (c : PipelineContext) (name : string) : option (ty_val t) :=
  any_get t (m_resources c) name.

(** src/include/ai_pipe/context.hpp:264-267 PipelineContext::hasResource *)
Definition hasResource (c : PipelineContext) (name : string) : bool :=
  bool_decide (is_Some (m_resources c !! name)).

(** src/include/ai_pipe/context.hpp:272-275 PipelineContext::removeResource *)
Definition removeResource (c : PipelineContext) (name : string) : PipelineContext * bool :=
  (set_stores (delete name (m_resources c)) (m_services c) (m_config c) (m_userData c) c, hasResource c name).

(** src/include/ai_pipe/context.hpp:280-288 PipelineContext::resourceNames *)
Definition resourceNames (c : PipelineContext) : list string := (map_to_list (m_resources c)).*1.

(** The service table: [m_services[type_index] = service] and [find]. *)
Fixpoint service_put (t : ty) (a : any) (l : list (ty * any)) : list (ty * any) :=
  match l with
  | [] => [(t, a)]
  | (t', a') :: rest => if decide (t' = t) then (t', a) :: rest else (t', a') :: service_put t a rest
  end.
Fixpoint service_find (t : ty) (l : list (ty * any)) : option any :=
  match l with
  | [] => None
  | (t', a) :: rest => if decide (t' = t) then Some a else service_find t rest
  end.

(** src/include/ai_pipe/context.hpp:296-299 PipelineContext::setService *)
Definition setService (t : ty) (c : PipelineContext) (service : ty_val t) : PipelineContext :=
  set_stores (m_resources c) (service_put t (existT t service) (m_services c)) (m_config c) (m_userData c) c.

(** src/include/ai_pipe/context.hpp:305-316 PipelineContext::getService *)
Definition getService (t : ty) (c : PipelineContext) : option (ty_val t) :=
  match service_find t (m_services c) with Some a => any_cast t a | None => None end.

(** src/include/ai_pipe/context.hpp:321-324 PipelineContext::hasService *)
Definition hasService (t : ty) (c : PipelineContext) : bool :=
  bool_decide (is_Some (service_find t (m_services c))).

(** src/include/ai_pipe/context.hpp:331-334 PipelineContext::setConfig *)
Definition ctx_setConfig (t : ty) (c : PipelineContext) (key : string) (value : ty_val t) : PipelineContext :=
  set_stores (m_resources c) (m_services c) (<[key := existT t value]> (m_config c)) (m_userData c) c.

(** src/include/ai_pipe/context.hpp:340-352 PipelineContext::getConfig *)
Definition getConfig (t : ty) (c : PipelineContext) (key : string) (default_value : ty_val t) : ty_val t :=
  default default_value (any_get t (m_config c) key).

(** src/include/ai_pipe/context.hpp:357-360 PipelineContext::hasConfig *)
Definition hasConfig (c : PipelineContext) (key : string) : bool := bool_decide (is_Some (m_config c !! key)).

(** src/include/ai_pipe/context.hpp:530-533 PipelineContext::setUserData *)
Definition setUserData (t : ty) (c : PipelineContext) (key : string) (value : ty_val t) : PipelineContext :=
  set_stores (m_resources c) (m_services c) (m_config c) (<[key := existT t value]> (m_userData c)) c.

(** src/include/ai_pipe/context.hpp:539-550 PipelineContext::getUserData *)
Definition getUserData (t : ty) (c : PipelineContext) (key : string) : option (ty_val t) :=
  any_get t (m_userData c) key.

(** src/include/ai_pipe/context.hpp:555-558 PipelineContext::removeUserData *)
Definition removeUserData (c : PipelineContext) (key : string) : PipelineContext * bool :=
  (set_stores (m_resources c) (m_services c) (m_config c) (delete key (m_userData c)) c,
   bool_decide (is_Some (m_userData c !! key))).

(** *** Cancellation, logging, progress *)

(** src/include/ai_pipe/context.hpp:426-426 PipelineContext::requestCancellation *)
Definition requestCancellation (c : PipelineContext) : PipelineContext := set_cancelled true c.

(** src/include/ai_pipe/context.hpp:431-433 PipelineContext::isCancellationRequested *)
Definition isCancellationRequested (c : PipelineContext) : bool := m_cancelled c.

(** src/include/ai_pipe/context.hpp:443-446 PipelineContext::setLoggerAdapter *)
Definition setLoggerAdapter (c : PipelineContext) (adapter : option LoggerAdapter) : PipelineContext :=
  set_adapter adapter c.

(** src/include/ai_pipe/context.hpp:470-480 PipelineContext::log *)
Definition log (c : PipelineContext) (now : Timestamp) (level : PipeLogLevel) (node_name message : string) :
    PipelineContext :=
  match m_loggerAdapter c with
  | Some (MemoryLoggerAdapter entries) =>
      set_adapter (Some (MemoryLoggerAdapter (memory_log entries now level node_name message))) c
  | _ => c
  end.

(** src/src/context.cpp:306-316 PipelineContext::progressReporter (with a report through it) *)
Definition reportNodeProgress (c : PipelineContext) (node_name : string) (progress : double) (message : string) :
    PipelineContext :=
  let r := default newReporter (m_nodeProgressReporters c !! node_name) in
  set_progress (m_overallProgress c) (m_progressCallback c) (m_progressCalls c)
    (<[node_name := report r progress message]> (m_nodeProgressReporters c)) c.

(** src/src/context.cpp:318-324 PipelineContext::reportProgress *)
Definition reportProgress (c : PipelineContext) (progress : double) (message : string) : PipelineContext :=
  set_progress progress (m_progressCallback c)
    (if m_progressCallback c then m_progressCalls c ++ [(progress, message)] else m_progressCalls c)
    (m_nodeProgressReporters c) c.

(** src/include/ai_pipe/context.hpp:521-523 PipelineContext::setProgressCallback *)
Definition setProgressCallback (c : PipelineContext) (callback : bool) : PipelineContext :=
  set_progress (m_overallProgress c) callback (m_progressCalls c) (m_nodeProgressReporters c) c.

(** *** Executions and metrics *)

(** src/src/context.cpp:328-350 PipelineContext::resetExecution *)
Definition resetExecution (c : PipelineContext) : PipelineContext :=
  let c := set_cancelled false c in
  let c := set_metrics ∅ 0 0 c in
  let c := set_progress dzero (m_progressCallback c) (m_progressCalls c) ∅ c in
  set_execution 0 false (m_executionStartTime c) c.

(** src/src/context.cpp:352-376 PipelineContext::reset *)
Definition ctx_reset (c : PipelineContext) : PipelineContext := set_stores ∅ [] ∅ ∅ (resetExecution c).

(** src/src/context.cpp:219-227 PipelineContext::beginExecution; with the id generator's state *)
Definition beginExecution (c : PipelineContext) (first_tick counter now : Z) : PipelineContext * Z * Z :=
  let c := resetExecution c in
  let '(counter', id) := generate first_tick counter in
  (set_execution id true now c, counter', id).

(** src/src/context.cpp:229-231 PipelineContext::endExecution *)
Definition endExecution (c : PipelineContext) : PipelineContext :=
  set_execution (m_executionId c) false (m_executionStartTime c) c.

(** src/src/context.cpp:235-244 PipelineContext::beginNodeExecution *)
Definition beginNodeExecution (c : PipelineContext) (now : Timestamp) (node_name : string) : PipelineContext :=
  set_metrics (<[node_name := mkNodeMetrics node_name now 0 0 false "" 0 0]> (m_nodeMetrics c))
    (m_nodesExecuted c) (m_nodesFailed c) c.

(** src/src/context.cpp:246-270 PipelineContext::endNodeExecution; [now] at both readings *)
Definition endNodeExecution (c : PipelineContext) (now : Timestamp) (node_name : string) (success : bool)
    (error_message : string) : PipelineContext :=
  let metrics := default (mkNodeMetrics node_name now 0 0 false "" 0 0) (m_nodeMetrics c !! node_name) in
  let metrics' := mkNodeMetrics (nm_node_name metrics) (nm_start_time metrics) now
    (Z.quot (now - nm_start_time metrics) 1000) success error_message
    (nm_input_size metrics) (nm_output_size metrics) in
  set_metrics (<[node_name := metrics']> (m_nodeMetrics c)) (wrap64 (m_nodesExecuted c + 1))
    (if success then m_nodesFailed c else wrap64 (m_nodesFailed c + 1)) c.

(** src/src/context.cpp:272-290 PipelineContext::executionMetrics *)
Definition executionMetrics (c : PipelineContext) (now : Timestamp) : ExecutionMetrics :=
  mkExecutionMetrics (m_executionId c) (m_executionStartTime c) now
    (Z.quot (now - m_executionStartTime c) 1000000) (m_nodesExecuted c) (m_nodesFailed c)
    ((map_to_list (m_nodeMetrics c)).*2).

(** src/src/context.cpp:293-301 PipelineContext::nodeMetrics *)
Definition nodeMetrics (c : PipelineContext) (node_name : string) : option NodeMetrics :=
  m_nodeMetrics c !! node_name.

(** src/src/context.cpp:150-174 PipelineContext::PipelineContext (move);
    the cancellation token is not among what moves *)
Definition moveContext (other : PipelineContext) : PipelineContext := set_cancelled false other.

(** src/src/context.cpp:176-215 PipelineContext::operator= (move); the token stays the target's *)
Definition moveAssign (c other : PipelineContext) : PipelineContext := set_cancelled (m_cancelled c) other.

(** src/include/ai_pipe/context.hpp:628-638 ScopedNodeExecution (constructor and destructor);
    [failure] is the message of the last [setFailed], if any *)
Definition scopedNodeExecution (c : PipelineContext) (start stop : Timestamp) (node_name : string)
    (body : PipelineContext → PipelineContext * option string) : PipelineContext :=
  let '(c', failure) := body (beginNodeExecution c start node_name) in
  endNodeExecution c' stop node_name (bool_decide (failure = None)) (default "" failure).
End Context.

(** ** The engine-log bridge *)

Module Bridge.

(** src/include/ai_pipe/context.hpp:609-611 PipelineContext (bridge registration) *)
Definition k_attach_in_progress : Z := u64_max.

(** The context's registration word, the logger's callbacks and its next id. *)
Record State := mkState { m_engineLogCallbackId : Z; callbacks : list Z; next_id : Z }.

(** Where a thread is inside [attachEngineLogs] or [detachEngineLogs]. *)
Inductive Phase := AttachStart | AttachRegister | AttachStore (id : Z) | DetachStart | DetachRemove (id : Z) | Finished.

(** src/src/context.cpp:91-134 PipelineContext::attachEngineLogs (one critical section or call at a time) *)
Definition attach_step (s : State) (ph : Phase) : option (State * Phase) :=
  match ph with
  | AttachStart =>
      if decide (m_engineLogCallbackId s ≠ 0) then Some (s, Finished)
      else Some (mkState k_attach_in_progress (callbacks s) (next_id s), AttachRegister)
  | AttachRegister =>
      Some (mkState (m_engineLogCallbackId s) (callbacks s ++ [next_id s]) (next_id s + 1), AttachStore (next_id s))
  | AttachStore id => Some (mkState id (callbacks s) (next_id s), Finished)
  | _ => None
  end.

(** src/src/context.cpp:136-148 PipelineContext::detachEngineLogs *)
Definition detach_step (s : State) (ph : Phase) : option (State * Phase) :=
  match ph with
  | DetachStart => Some (mkState 0 (callbacks s) (next_id s), DetachRemove (m_engineLogCallbackId s))
  | DetachRemove id =>
      if decide (id ≠ 0 ∧ id ≠ k_attach_in_progress) then
        Some (mkState (m_engineLogCallbackId s) (filter (λ x, x ≠ id) (callbacks s)) (next_id s), Finished)
      else Some (s, Finished)
  | _ => None
  end.

Definition phase_step (s : State) (ph : Phase) : option (State * Phase) :=
  match attach_step s ph with Some r => Some r | None => detach_step s ph end.

(** A schedule picks the thread that moves next. *)
Fixpoint run (s : State) (threads : list Phase) (schedule : list nat) : option (State * list Phase) :=
  match schedule with
  | [] => Some (s, threads)
  | i :: rest =>
      ph ← threads !! i; '(s', ph') ← phase_step s ph;
      run s' (<[i := ph']> threads) rest
  end.

Definition initial : State := mkState 0 [] 1.

(** One call at a time: the registration word names the only callback of this context. *)
Definition settled (s : State) : Prop :=
  0 < next_id s < k_attach_in_progress ∧
  (m_engineLogCallbackId s = 0 ∧ callbacks s = [] ∨
   0 < m_engineLogCallbackId s < next_id s ∧ callbacks s = [m_engineLogCallbackId s]).

Lemma attach_settled s :
  settled s → next_id s + 1 < k_attach_in_progress →
  (m_engineLogCallbackId s ≠ 0 → run s [AttachStart] [0%nat] = Some (s, [Finished])) ∧
  (m_engineLogCallbackId s = 0 → ∃ s', run s [AttachStart] [0; 0; 0]%nat = Some (s', [Finished]) ∧ settled s' ∧
     m_engineLogCallbackId s' ≠ 0).
Proof.
  intros [Hn Hs] Hlt. split; intros Hid; simpl; unfold phase_step; simpl.
  - by rewrite decide_True.
  - rewrite decide_False by tauto. simpl. eexists. split; [done|].
    destruct Hs as [[_ ->]|[? _]]; [|lia]. unfold settled. simpl. split; [|lia].
    split; [lia|]. right. split; [lia|done].
Qed.

Lemma detach_settled s :
  settled s → ∃ s', run s [DetachStart] [0; 0]%nat = Some (s', [Finished]) ∧ settled s' ∧ callbacks s' = [].
Proof.
  intros [Hn Hs]. simpl. unfold phase_step. simpl.
  destruct Hs as [[-> Hc]|[Hid Hc]].
  - rewrite decide_False by (by intros []). eexists. split; [done|]. unfold settled. simpl. auto.
  - rewrite decide_True by lia. eexists. split; [done|]. unfold settled. simpl. rewrite Hc.
    rewrite filter_cons_False by tauto. auto.
Qed.

(** Overlapping calls: a detach while an attach is registering removes nothing and
    clears the word; a second attach then registers again, and the first callback is
    never removed by any later detach. *)
Lemma detach_during_attach_leaks :
  run initial [AttachStart; DetachStart; AttachStart; DetachStart]
    [0; 0; 1; 1; 2; 2; 0; 2; 3; 3]%nat
  = Some (mkState 0 [1] 3, [Finished; Finished; Finished; Finished]).
Proof. vm_compute. reflexivity. Qed.
End Bridge.

(** ** Lemmas *)

Section Lemmas.
Context `{CppTypes}.
Implicit Types c : PipelineContext.

(** The typed stores: a value is read back at its type, nothing else changes. *)
Lemma any_get_insert (t : ty) m k v t' k' :
  any_get t' (<[k := existT t v]> m) k' =
    if decide (k' = k) then any_cast t' (existT t v) else any_get t' m k'.
Proof.
  unfold any_get. case_decide as Hk; [subst; by rewrite lookup_insert_eq|by rewrite lookup_insert_ne].
Qed.

Lemma resource_roundtrip (t : ty) c name (r : ty_val t) :
  getResource t (setResource t c name r) name = Some r ∧
  (∀ t', t' ≠ t → getResource t' (setResource t c name r) name = None) ∧
  (∀ t' name', name' ≠ name → getResource t' (setResource t c name r) name' = getResource t' c name') ∧
  (∀ t', getResource t' (removeResource (setResource t c name r) name).1 name = None).
Proof.
  unfold getResource, setResource, removeResource. cbn [fst m_resources set_stores]. split_and!.
  - by rewrite any_get_insert, decide_True, any_cast_same.
  - intros t' Ht. rewrite any_get_insert, decide_True by done. by apply any_cast_other.
  - intros t' n Hn. by rewrite any_get_insert, decide_False.
  - intros t'. unfold any_get. by rewrite lookup_delete_eq.
Qed.

Lemma service_roundtrip (t : ty) c (s : ty_val t) :
  getService t (setService t c s) = Some s ∧
  (∀ t', t' ≠ t → getService t' (setService t c s) = getService t' c).
Proof.
  unfold getService, setService. cbn [m_services set_stores].
  assert (∀ a l t', service_find t' (service_put t a l) = if decide (t' = t) then Some a else service_find t' l) as Hf.
  { intros a l t'. induction l as [|[u b] l IH]; simpl; [repeat case_decide; congruence|].
    destruct (decide (u = t)) as [->|Hu]; simpl; [repeat case_decide; congruence|].
    rewrite IH. repeat case_decide; congruence. }
  split.
  - by rewrite Hf, decide_True, any_cast_same.
  - intros t' Ht. by rewrite Hf, decide_False.
Qed.

(** A sequence of node executions: begin or end with its verdict. *)
Inductive NodeEvent := NBegin (node : string) | NEnd (node : string) (success : bool) (message : string).

Definition node_event (c : PipelineContext) (ev : Timestamp * NodeEvent) : PipelineContext :=
  match ev.2 with
  | NBegin node => beginNodeExecution c ev.1 node
  | NEnd node success message => endNodeExecution c ev.1 node success message
  end.

Definition is_end (ev : NodeEvent) : bool := match ev with NEnd _ _ _ => true | NBegin _ => false end.
Definition is_failure (ev : NodeEvent) : bool := match ev with NEnd _ ok _ => negb ok | NBegin _ => false end.
Definition ends (evs : list (Timestamp * NodeEvent)) : nat :=
  length (filter (λ ev, is_end ev.2 = true) evs).
Definition failures (evs : list (Timestamp * NodeEvent)) : nat :=
  length (filter (λ ev, is_failure ev.2 = true) evs).

(** The verdict of the last event on a node: a begin counts as not yet successful. *)
Definition verdict (evs : list (Timestamp * NodeEvent)) (node : string) : option bool :=
  foldl (λ acc ev, match ev.2 with
    | NBegin n => if decide (n = node) then Some false else acc
    | NEnd n success _ => if decide (n = node) then Some success else acc
    end) None evs.

Definition event_run c0 evs := foldl node_event c0 evs.

Lemma event_run_stores evs : ∀ c,
  m_resources (event_run c evs) = m_resources c ∧ m_executionId (event_run c evs) = m_executionId c ∧
  m_config (event_run c evs) = m_config c.
Proof.
  induction evs as [|[now [n|n ok m]] evs IH]; intros c; [done|..]; unfold event_run in *; simpl;
    by rewrite !(proj1 (IH _)), !(proj1 (proj2 (IH _))), !(proj2 (proj2 (IH _))).
Qed.

Lemma event_run_metrics c evs :
  m_nodeMetrics c = ∅ → m_nodesExecuted c = 0 → m_nodesFailed c = 0 →
  m_nodesExecuted (event_run c evs) = wrap64 (Z.of_nat (ends evs)) ∧
  m_nodesFailed (event_run c evs) = wrap64 (Z.of_nat (failures evs)) ∧
  (∀ node, nm_success <$> nodeMetrics (event_run c evs) node = verdict evs node) ∧
  (∀ node m, nodeMetrics (event_run c evs) node = Some m → nm_node_name m = node).
Proof.
  intros Hm He Hf. unfold event_run, nodeMetrics, verdict. induction evs as [|[now ev] evs IH] using rev_ind.
  { simpl. rewrite Hm, He, Hf. split_and!; [done|done|..]; intros node; rewrite lookup_empty; done. }
  unfold ends, failures in *. rewrite !foldl_app, !filter_app, !length_app. simpl.
  destruct IH as (IH1 & IH2 & IH3 & IH4). set (c' := foldl node_event c evs) in *.
  destruct ev as [n|n ok msg]; rewrite !filter_cons; simpl; rewrite ?filter_nil; simpl.
  - rewrite IH1, IH2, !Nat.add_0_r. split_and!; [done|done|..]; intros node; rewrite lookup_insert.
    + rewrite foldl_app. simpl. case_decide; [done|apply IH3].
    + case_decide; [by intros m [= <-]|apply IH4].
  - rewrite IH1, IH2. split_and!.
    + rewrite Nat2Z.inj_add. by rewrite wrap64_add_l.
    + destruct ok; simpl; rewrite ?Nat.add_0_r; [done|]. rewrite Nat2Z.inj_add. by rewrite wrap64_add_l.
    + intros node. rewrite lookup_insert, foldl_app. simpl. case_decide; [done|apply IH3].
    + intros node m. rewrite lookup_insert. case_decide as Hn; [|apply IH4]. intros [= <-]. simpl.
      destruct (m_nodeMetrics c' !! n) as [m0|] eqn:E; simpl; [by rewrite (IH4 _ _ E)|done].
Qed.

Lemma failures_le_ends evs : (failures evs ≤ ends evs)%nat.
Proof.
  unfold failures, ends. induction evs as [|[now [n|n [] m]] evs IH]; rewrite ?filter_cons; simpl in *; lia.
Qed.
End Lemmas.

(** The id generator called [n] times in a row. *)
Fixpoint generate_many (first_tick counter : Z) (n : nat) : list Z :=
  match n with
  | O => []
  | S n => let '(counter', id) := generate first_tick counter in id :: generate_many first_tick counter' n
  end.

Lemma mask_low_bits x i : 0 ≤ i < 32 → Z.testbit (Z.land x (Z.shiftl (2 ^ 32 - 1) 32)) i = false.
Proof. intros Hi. rewrite Z.land_spec, Z.shiftl_spec by lia. rewrite (Z.testbit_neg_r _ (i - 32)) by lia. apply andb_false_r. Qed.

Lemma small_high_bits a i : 0 ≤ a < 2 ^ 32 → 32 ≤ i → Z.testbit a i = false.
Proof.
  intros Ha Hi. destruct (decide (a = 0)) as [->|]; [apply Z.testbit_0_l|].
  apply Z.bits_above_log2; [lia|]. pose proof (Z.log2_lt_pow2 a 32). lia.
Qed.

Lemma low_half x a i : 0 ≤ i < 32 → Z.testbit (Z.lor (Z.land x (Z.shiftl (2 ^ 32 - 1) 32)) a) i = Z.testbit a i.
Proof. intros Hi. by rewrite Z.lor_spec, mask_low_bits. Qed.

Lemma id_injective x a b :
  0 ≤ a < 2 ^ 32 → 0 ≤ b < 2 ^ 32 →
  Z.lor (Z.land x (Z.shiftl (2 ^ 32 - 1) 32)) a = Z.lor (Z.land x (Z.shiftl (2 ^ 32 - 1) 32)) b → a = b.
Proof.
  intros Ha Hb Heq. apply Z.bits_inj'. intros i Hi. destruct (decide (i < 32)).
  - by rewrite <-(low_half x a), <-(low_half x b), Heq by lia.
  - by rewrite !small_high_bits by lia.
Qed.

Lemma generate_many_spec tick n : ∀ counter,
  0 ≤ counter → counter + Z.of_nat n < 2 ^ 32 →
  generate_many tick counter n =
  (λ k, Z.lor (Z.land (wrap64 tick) (Z.shiftl (2 ^ 32 - 1) 32)) (counter + 1 + Z.of_nat k)) <$> seq 0 n.
Proof.
  induction n as [|n IH]; intros counter Hc Hn; [done|]. cbn [generate_many generate seq fmap list_fmap].
  rewrite (wrap64_small (counter + 1)) by (unfold u64_mod; lia). rewrite IH by lia. f_equal; [f_equal; lia|].
  rewrite <-fmap_S_seq, <-list_fmap_compose. apply list_fmap_ext. intros _ k _. simpl. f_equal. lia.
Qed.

(** ** Claims *)

(** C40: Execution ids are usable as identities.  The first [2^32 - 1] calls of
    [ExecutionId::generate] return pairwise different values, none of them zero (the
    value that means no execution), whatever the clock said at the first call. *)
Theorem execution_ids_distinct (first_tick : Z) (n : nat) :
  Z.of_nat n < 2 ^ 32 →
  NoDup (generate_many first_tick 0 n) ∧ (∀ id, id ∈ generate_many first_tick 0 n → id ≠ 0).
Proof.
  intros Hn. rewrite generate_many_spec by lia. split.
  - apply NoDup_fmap_2_strong; [|apply NoDup_seq]. intros i j Hi%elem_of_seq Hj%elem_of_seq Heq.
    apply id_injective in Heq; lia.
  - intros id (k & -> & Hk%elem_of_seq)%list_elem_of_fmap Hz.
    apply Z.lor_eq_0_iff in Hz as [_ Hz]. lia.
Qed.

Lemma execution_ids_distinct_witness :
  NoDup (generate_many (5 * 2 ^ 33 + 17) 0 3) ∧ generate_many (5 * 2 ^ 33 + 17) 0 2 = [5 * 2 ^ 33 + 1; 5 * 2 ^ 33 + 2].
Proof. split; [apply (execution_ids_distinct (5 * 2 ^ 33 + 17) 3); lia|vm_compute; reflexivity]. Defined.

(** The metrics of an execution account for it.  From a context on which
    [beginExecution] was just called, after any sequence of node begins and ends:
    the executed count is the number of ends and the failed count the number of
    failed ends (modulo [2^64]), failures never exceed executions, a node has an
    entry exactly when an event named it, under its own name, with the verdict of
    its last event, and resources and configuration are untouched. *)
Theorem context_metrics_account `{CppTypes} (c : PipelineContext) (tick counter now : Z)
    (evs : list (Timestamp * NodeEvent)) :
  let c0 := (beginExecution c tick counter now).1.1 in
  let c1 := event_run c0 evs in
  m_nodesExecuted c1 = wrap64 (Z.of_nat (ends evs)) ∧
  m_nodesFailed c1 = wrap64 (Z.of_nat (failures evs)) ∧ (failures evs ≤ ends evs)%nat ∧
  (∀ node, nm_success <$> nodeMetrics c1 node = verdict evs node) ∧
  (∀ node m, nodeMetrics c1 node = Some m → nm_node_name m = node) ∧
  m_resources c1 = m_resources c ∧ m_config c1 = m_config c ∧ m_executionId c1 = (generate tick counter).2.
Proof.
  intros c0 c1. destruct (event_run_metrics c0 evs) as (H1 & H2 & H3 & H4); [done..|].
  destruct (event_run_stores evs c0) as (H5 & H6 & H7).
  split_and!; try done. apply failures_le_ends.
Qed.

(** What a full reset keeps besides the logger adapter. *)
Lemma reset_keeps_callback `{CppTypes} (c : PipelineContext) :
  m_progressCallback (ctx_reset c) = m_progressCallback c ∧ m_loggerAdapter (ctx_reset c) = m_loggerAdapter c ∧
  m_resources (ctx_reset c) = ∅ ∧ m_config (ctx_reset c) = ∅ ∧ m_userData (ctx_reset c) = ∅ ∧
  m_services (ctx_reset c) = [] ∧ m_cancelled (ctx_reset c) = false ∧ m_executionId (ctx_reset c) = 0.
Proof. done. Qed.

(** A moved context forgets that cancellation was requested. *)
Lemma move_loses_cancellation `{CppTypes} (c : PipelineContext) :
  isCancellationRequested (moveContext (requestCancellation c)) = false.
Proof. done. Qed.
