(* ===== verification/SpscRing.v ===== *)
(** * The logger's ring buffer

    [SPSCRingBuffer] of [src/logger.hpp], with its threads interleaving at every access
    to the shared indices and slots (sequentially consistent, as in [MpmcConcurrent]).
    One producer and one consumer see a bounded FIFO that loses nothing and keeps one
    slot free; the invariant relates the wrapped indices to the numbers of items sent
    and received, which are not part of the code's state. *)

From S2P Require Import Prelude MpmcQueue.
Local Open Scope Z_scope.

(** src/src/logger.hpp:176-185 SPSCRingBuffer::nextPowerOf2 *)
Definition nextPowerOf2 (n : Z) : Z :=
  let n := wrap64 (n - 1) in
  let n := Z.lor n (Z.shiftr n 1) in
  let n := Z.lor n (Z.shiftr n 2) in
  let n := Z.lor n (Z.shiftr n 4) in
  let n := Z.lor n (Z.shiftr n 8) in
  let n := Z.lor n (Z.shiftr n 16) in
  let n := Z.lor n (Z.shiftr n 32) in
  wrap64 (n + 1).

(** src/src/logger.hpp:187-197 SPSCRingBuffer (data members); a slot that was moved from is [None] *)
Record Spsc (T : Type) := mkSpsc {
  sp_capacity : Z;
  sp_mask : Z;
  sp_buffer : list (option T);
  sp_head : Z;
  sp_tail : Z;
}.
Arguments mkSpsc {T} _ _ _ _ _.
Arguments sp_capacity {T} _.
Arguments sp_mask {T} _.
Arguments sp_buffer {T} _.
Arguments sp_head {T} _.
Arguments sp_tail {T} _.

Section Ring.
Context {T : Type}.
Implicit Types (r : Spsc T) (item : T).

(** src/src/logger.hpp:137-139 SPSCRingBuffer::SPSCRingBuffer *)
Definition newSpsc (capacity : Z) : Spsc T :=
  let cap := nextPowerOf2 capacity in mkSpsc cap (wrap64 (cap - 1)) (replicate (Z.to_nat cap) None) 0 0.

(** src/src/logger.hpp:144-144 SPSCRingBuffer::tryPush (the next index) *)
Definition next_index r (i : Z) : Z := Z.land (wrap64 (i + 1)) (sp_mask r).

Definition set_slot r (i : Z) (x : option T) : Spsc T :=
  mkSpsc (sp_capacity r) (sp_mask r) (<[Z.to_nat i := x]> (sp_buffer r)) (sp_head r) (sp_tail r).
Definition set_head r (i : Z) : Spsc T := mkSpsc (sp_capacity r) (sp_mask r) (sp_buffer r) i (sp_tail r).
Definition set_tail r (i : Z) : Spsc T := mkSpsc (sp_capacity r) (sp_mask r) (sp_buffer r) (sp_head r) i.

(** src/src/logger.hpp:168-171 SPSCRingBuffer::empty *)
Definition spsc_empty r : bool := bool_decide (sp_head r = sp_tail r).

(** ** Calls that are not interrupted *)

(** src/src/logger.hpp:142-153 SPSCRingBuffer::tryPush *)
Definition spsc_tryPush r item : Spsc T * bool :=
  let head := sp_head r in
  let next_head := next_index r head in
  if decide (next_head = sp_tail r) then (r, false)
  else (set_head (set_slot r head (Some item)) next_head, true).

(** src/src/logger.hpp:156-166 SPSCRingBuffer::tryPop; the outer [None]: a slot that holds no item is read *)
Definition spsc_tryPop r : Spsc T * option (option T) :=
  let tail := sp_tail r in
  if decide (tail = sp_head r) then (r, None)
  else (set_tail (set_slot r tail None) (next_index r tail), Some (mjoin (sp_buffer r !! Z.to_nat tail))).

(** ** Threads *)

(** src/src/logger.hpp:142-153 SPSCRingBuffer::tryPush (program points between two shared accesses) *)
Inductive ppc :=
  | PIdle
  | PHead (item : T) (head : Z)
  | PRoom (item : T) (head next_head : Z)
  | PWritten (item : T) (next_head : Z).

(** src/src/logger.hpp:156-166 SPSCRingBuffer::tryPop (program points between two shared accesses) *)
Inductive cpc :=
  | CIdle
  | CTail (tail : Z)
  | CFound (tail : Z)
  | CTaken (tail : Z) (item : option T).

(** What a call answers: an accepted or refused push, a pop of a slot, an empty ring. *)
Inductive answer := APushed (item : T) | ARefused (item : T) | APopped (item : option T) | AEmpty.

(** src/src/logger.hpp:142-153 SPSCRingBuffer::tryPush (one step; an idle producer starts to push [item]) *)
Definition producer_step r (pc : ppc) item : Spsc T * ppc * option answer :=
  match pc with
  | PIdle => (r, PHead item (sp_head r), None)
  | PHead x head =>
      let next_head := next_index r head in
      if decide (next_head = sp_tail r) then (r, PIdle, Some (ARefused x)) else (r, PRoom x head next_head, None)
  | PRoom x head next_head => (set_slot r head (Some x), PWritten x next_head, None)
  | PWritten x next_head => (set_head r next_head, PIdle, Some (APushed x))
  end.

(** src/src/logger.hpp:156-166 SPSCRingBuffer::tryPop (one step) *)
Definition consumer_step r (pc : cpc) : Spsc T * cpc * option answer :=
  match pc with
  | CIdle => (r, CTail (sp_tail r), None)
  | CTail tail => if decide (tail = sp_head r) then (r, CIdle, Some AEmpty) else (r, CFound tail, None)
  | CFound tail => (set_slot r tail None, CTaken tail (mjoin (sp_buffer r !! Z.to_nat tail)), None)
  | CTaken tail x => (set_tail r (next_index r tail), CIdle, Some (APopped x))
  end.

(** A ring with its producers and its consumer, and what calls have answered. *)
Record Conf := mkConf { cf_ring : Spsc T; cf_producers : list ppc; cf_consumer : cpc; cf_answers : list answer }.
Inductive Action := AProduce (k : nat) (item : T) | AConsume.

Definition conf_step (c : Conf) (a : Action) : Conf :=
  match a with
  | AProduce k item =>
      match cf_producers c !! k with
      | None => c
      | Some pc =>
          let '(r, pc, out) := producer_step (cf_ring c) pc item in
          mkConf r (<[k := pc]> (cf_producers c)) (cf_consumer c) (cf_answers c ++ option_list out)
      end
  | AConsume =>
      let '(r, pc, out) := consumer_step (cf_ring c) (cf_consumer c) in
      mkConf r (cf_producers c) pc (cf_answers c ++ option_list out)
  end.

Definition start_conf (capacity : Z) (producers : nat) : Conf :=
  mkConf (newSpsc capacity) (replicate producers PIdle) CIdle [].

(** The items of accepted pushes and of pops. *)
Definition sent (l : list answer) : list T := omap (λ a, match a with APushed x => Some x | _ => None end) l.
Definition received (l : list answer) : list (option T) := omap (λ a, match a with APopped x => Some x | _ => None end) l.

(** ** The invariant *)

(** The ring between [t] items received and [h = length l] items sent. *)
Record ring_inv r (l : list T) (t : Z) : Prop := {
  ri_cap : ∃ k, 0 ≤ k ≤ 63 ∧ sp_capacity r = 2 ^ k;
  ri_mask : sp_mask r = sp_capacity r - 1;
  ri_len : length (sp_buffer r) = Z.to_nat (sp_capacity r);
  ri_head : sp_head r = Z.of_nat (length l) `mod` sp_capacity r;
  ri_tail : sp_tail r = t `mod` sp_capacity r;
  ri_window : 0 ≤ t ≤ Z.of_nat (length l) ∧ Z.of_nat (length l) ≤ t + sp_capacity r - 1;
}.

(** The slots of the items sent and not received, from [from] on. *)
Definition slots_ok r (l : list T) (from : Z) : Prop :=
  ∀ i x, from ≤ i → l !! Z.to_nat i = Some x → sp_buffer r !! Z.to_nat (i `mod` sp_capacity r) = Some (Some x).

Definition producer_ok r (l : list T) (t : Z) (pc : ppc) : Prop :=
  let h := Z.of_nat (length l) in
  match pc with
  | PIdle => True
  | PHead _ head => head = h `mod` sp_capacity r
  | PRoom _ head next => head = h `mod` sp_capacity r ∧ next = (h + 1) `mod` sp_capacity r ∧ h < t + sp_capacity r - 1
  | PWritten x next => next = (h + 1) `mod` sp_capacity r ∧ h < t + sp_capacity r - 1 ∧
      sp_buffer r !! Z.to_nat (h `mod` sp_capacity r) = Some (Some x)
  end.

Definition consumer_ok r (l : list T) (t : Z) (pc : cpc) : Prop :=
  match pc with
  | CIdle => slots_ok r l t
  | CTail tail => tail = t `mod` sp_capacity r ∧ slots_ok r l t
  | CFound tail => tail = t `mod` sp_capacity r ∧ t < Z.of_nat (length l) ∧ slots_ok r l t
  | CTaken tail x => tail = t `mod` sp_capacity r ∧ (∃ y, x = Some y ∧ l !! Z.to_nat t = Some y) ∧ slots_ok r l (t + 1)
  end.

Lemma inv_cap r l t : ring_inv r l t → 0 < sp_capacity r ≤ 2 ^ 63.
Proof.
  intros [(k & Hk & ->) _ _ _ _ _]. split; [apply Z.pow_pos_nonneg; lia|]. apply Z.pow_le_mono_r; lia.
Qed.

Lemma next_mod r l t i : ring_inv r l t → 0 ≤ i → next_index r (i `mod` sp_capacity r) = (i + 1) `mod` sp_capacity r.
Proof.
  intros I Hi. pose proof (inv_cap _ _ _ I) as Hc. unfold next_index.
  pose proof (Z.mod_pos_bound i (sp_capacity r) ltac:(lia)) as Hm.
  rewrite wrap64_small by (unfold u64_mod; lia). rewrite (ri_mask _ _ _ I).
  destruct (ri_cap _ _ _ I) as (k & Hk & Hcap). rewrite Hcap.
  replace (2 ^ k - 1) with (Z.ones k) by (rewrite Z.ones_equiv; lia).
  rewrite Z.land_ones by lia. apply Zplus_mod_idemp_l.
Qed.

(** What the invariant says of a whole configuration with one producer. *)
Record conf_inv (c : Conf) : Prop := {
  ci_ring : ring_inv (cf_ring c) (sent (cf_answers c)) (Z.of_nat (length (received (cf_answers c))));
  ci_producer : ∃ pc, cf_producers c = [pc] ∧
    producer_ok (cf_ring c) (sent (cf_answers c)) (Z.of_nat (length (received (cf_answers c)))) pc;
  ci_consumer : consumer_ok (cf_ring c) (sent (cf_answers c)) (Z.of_nat (length (received (cf_answers c)))) (cf_consumer c);
  ci_received : received (cf_answers c) = Some <$> take (length (received (cf_answers c))) (sent (cf_answers c));
}.

Lemma sent_snoc l a : sent (l ++ option_list a) = sent l ++ sent (option_list a).
Proof. apply omap_app. Qed.
Lemma received_snoc l a : received (l ++ option_list a) = received l ++ received (option_list a).
Proof. apply omap_app. Qed.

(** Two indices of the window are at different slots. *)
Lemma slot_ne r l t i j : ring_inv r l t → t ≤ i < t + sp_capacity r → t ≤ j < t + sp_capacity r → i ≠ j →
  Z.to_nat (i `mod` sp_capacity r) ≠ Z.to_nat (j `mod` sp_capacity r).
Proof.
  intros I Hi Hj Hne Heq. pose proof (inv_cap _ _ _ I) as Hc. apply Hne.
  apply (window_mod_inj (sp_capacity r) t); [lia|lia|lia|].
  pose proof (Z.mod_pos_bound i (sp_capacity r) ltac:(lia)). pose proof (Z.mod_pos_bound j (sp_capacity r) ltac:(lia)). lia.
Qed.

Lemma ring_inv_slot r l t i x : ring_inv r l t → ring_inv (set_slot r i x) l t.
Proof. intros [H1 H2 H3 H4 H5 H6]. split; simpl; try done. by rewrite length_insert. Qed.

Lemma slots_ok_slot r l t from i x : ring_inv r l t → t ≤ from → t ≤ i < t + sp_capacity r →
  (i < from ∨ Z.of_nat (length l) ≤ i) → slots_ok r l from → slots_ok (set_slot r (i `mod` sp_capacity r) x) l from.
Proof.
  intros I Hf Hi Hout S j y Hj Hy. simpl. pose proof (lookup_lt_Some _ _ _ Hy) as Hlt. pose proof (ri_window _ _ _ I) as Hw.
  rewrite list_lookup_insert_ne; [by apply S|]. apply (slot_ne r l t); [done|lia|lia|lia].
Qed.

Lemma window_end r l t i : ring_inv r l t → Z.of_nat (length l) < t + sp_capacity r - 1 ∨ Z.of_nat (length l) = t + sp_capacity r - 1 →
  (i = Z.of_nat (length l) + 1) → (i `mod` sp_capacity r = t `mod` sp_capacity r ↔ Z.of_nat (length l) = t + sp_capacity r - 1).
Proof.
  intros I Hw ->. pose proof (inv_cap _ _ _ I) as Hc. pose proof (ri_window _ _ _ I) as Hwin. split.
  - intros Heq. destruct Hw as [Hw|Hw]; [|done]. exfalso.
    assert (Z.of_nat (length l) + 1 = t); [|lia]. apply (window_mod_inj (sp_capacity r) t); [lia|lia|lia|done].
  - intros ->. replace (t + sp_capacity r - 1 + 1) with (t + 1 * sp_capacity r) by lia. apply Z_mod_plus_full.
Qed.

(** A push is refused only when every slot but one is taken. *)
Lemma full_spec r l t : ring_inv r l t →
  next_index r (Z.of_nat (length l) `mod` sp_capacity r) = sp_tail r ↔ Z.of_nat (length l) = t + sp_capacity r - 1.
Proof.
  intros I. rewrite (next_mod r l t) by (done || lia). rewrite (ri_tail _ _ _ I). apply (window_end r l t); [done| |done].
  pose proof (ri_window _ _ _ I). lia.
Qed.

Lemma empty_spec r l t : ring_inv r l t → t `mod` sp_capacity r = sp_head r ↔ t = Z.of_nat (length l).
Proof.
  intros I. rewrite (ri_head _ _ _ I). pose proof (inv_cap _ _ _ I) as Hc. pose proof (ri_window _ _ _ I). split; [|by intros ->].
  intros Heq. apply (window_mod_inj (sp_capacity r) t); [lia|lia|lia|done].
Qed.

(** *** Steps keep it *)

Lemma producer_keeps r l t pc cpc x r' pc' out :
  ring_inv r l t → producer_ok r l t pc → consumer_ok r l t cpc → producer_step r pc x = (r', pc', out) →
  let l' := l ++ sent (option_list out) in
  ring_inv r' l' t ∧ producer_ok r' l' t pc' ∧ consumer_ok r' l' t cpc ∧ received (option_list out) = [] ∧
  (∀ y, out = Some (ARefused y) → Z.of_nat (length l) = t + sp_capacity r - 1).
Proof.
  intros I P C Hs. pose proof (inv_cap _ _ _ I) as Hc. pose proof (ri_window _ _ _ I) as Hw.
  destruct pc as [|y head|y head next|y next]; simpl in Hs.
  - injection Hs as <- <- <-. simpl. rewrite app_nil_r. split_and!; try done. by rewrite (ri_head _ _ _ I).
  - simpl in P. subst head. case_decide as Hfull; injection Hs as <- <- <-; simpl; rewrite app_nil_r.
    + apply (full_spec r l t I) in Hfull. split_and!; try done.
    + split_and!; try done; [by apply (next_mod r l t); [|lia]|]. rewrite (full_spec r l t I) in Hfull. lia.
  - destruct P as (-> & -> & Hroom). injection Hs as <- <- <-. cbn [sent option_list omap list_omap]. rewrite app_nil_r.
    split_and!; [by apply ring_inv_slot| | |done|done].
    + simpl. split_and!; try done. apply list_lookup_insert_eq. rewrite (ri_len _ _ _ I).
      pose proof (Z.mod_pos_bound (Z.of_nat (length l)) (sp_capacity r) ltac:(lia)). lia.
    + assert (∀ from, t ≤ from → slots_ok r l from →
        slots_ok (set_slot r (Z.of_nat (length l) `mod` sp_capacity r) (Some y)) l from) as Hk
        by (intros from Hf S; apply (slots_ok_slot r l t); [done|done|lia|lia|done]).
      destruct cpc; simpl in C |- *; naive_solver (try lia).
  - destruct P as (-> & Hroom & Hslot). injection Hs as <- <- <-. cbn [sent option_list omap list_omap].
    assert (Z.of_nat (length (l ++ [y])) = Z.of_nat (length l) + 1) as Hlen by (rewrite length_app; simpl; lia).
    split_and!; [| done | |done|done].
    + destruct I as [H1 H2 H3 H4 H5 H6]. split; simpl; try done; rewrite Hlen; [done|lia].
    + assert (∀ from, 0 ≤ from → slots_ok r l from → slots_ok (set_head r ((Z.of_nat (length l) + 1) `mod` sp_capacity r)) (l ++ [y]) from) as Hk.
      { intros from H0 S j z Hj Hz. simpl. apply lookup_app_Some in Hz as [Hz|[Hge Hz]]; [by apply S|].
        assert (j = Z.of_nat (length l)) as ->; [|destruct (Z.to_nat _ - _)%nat eqn:E; [|done]; injection Hz as <-; done].
        apply list_lookup_singleton_Some in Hz as [Hz _]. lia. }
      destruct cpc as [|tl|tl|tl z]; simpl in C |- *.
      * apply Hk; [lia|done].
      * destruct C. split; [done|]. apply Hk; [lia|done].
      * destruct C as (? & ? & ?). split_and!; [done|lia|]. apply Hk; [lia|done].
      * destruct C as (? & (w & -> & Hl) & ?). split_and!; [done| |apply Hk; [lia|done]].
        exists w. split; [done|]. by apply lookup_app_l_Some.
Qed.

Lemma consumer_keeps r l t pc cpc r' cpc' out :
  ring_inv r l t → producer_ok r l t pc → consumer_ok r l t cpc → consumer_step r cpc = (r', cpc', out) →
  let t' := t + Z.of_nat (length (received (option_list out))) in
  ring_inv r' l t' ∧ producer_ok r' l t' pc ∧ consumer_ok r' l t' cpc' ∧ sent (option_list out) = [] ∧
  (out = Some AEmpty → t = Z.of_nat (length l)) ∧
  (∀ x, out = Some (APopped x) → ∃ y, x = Some y ∧ l !! Z.to_nat t = Some y).
Proof.
  intros I P C Hs. pose proof (inv_cap _ _ _ I) as Hc. pose proof (ri_window _ _ _ I) as Hw.
  destruct cpc as [|tl|tl|tl y]; simpl in Hs.
  - injection Hs as <- <- <-. simpl. rewrite Z.add_0_r. split_and!; try done. apply (ri_tail _ _ _ I).
  - destruct C as [-> S]. case_decide as He; injection Hs as <- <- <-; simpl; rewrite Z.add_0_r.
    + split_and!; try done. intros _. by apply (empty_spec r l t I).
    + rewrite (empty_spec r l t I) in He. split_and!; try done. lia.
  - destruct C as (-> & Hlt & S). injection Hs as <- <- <-. cbn [received option_list omap list_omap length]. rewrite Z.add_0_r.
    destruct (lookup_lt_is_Some_2 l (Z.to_nat t)) as [y Hy]; [lia|].
    split_and!; [by apply ring_inv_slot| | |done|done|done].
    + destruct pc as [|z hd|z hd nx|z nx]; simpl in P |- *; try done. destruct P as (? & ? & Hz). split_and!; try done.
      rewrite list_lookup_insert_ne; [done|]. apply (slot_ne r l t); [done|lia|lia|lia].
    + simpl. split_and!; [done| |].
      * exists y. rewrite (S t y) by (done || lia). done.
      * apply (slots_ok_slot r l t); [done|lia|lia|lia|]. intros j z Hj Hz. apply S; [lia|done].
  - destruct C as (-> & (w & -> & Hl) & S). injection Hs as <- <- <-. cbn [received option_list omap list_omap length].
    change (Z.of_nat 1) with 1. pose proof (lookup_lt_Some _ _ _ Hl) as Hlt.
    split_and!; [| |done|done|done|].
    + pose proof (next_mod r l t t I ltac:(lia)) as Hn. destruct I as [H1 H2 H3 H4 H5 H6]. split; simpl; try done. lia.
    + destruct pc as [|z hd|z hd nx|z nx]; simpl in P |- *; try done; naive_solver lia.
    + intros x [= <-]. by exists w.
Qed.

Lemma conf_step_inv c a : conf_inv c → conf_inv (conf_step c a).
Proof.
  intros Hinv. pose proof Hinv as [I (pc & Hpc & P) C R]. destruct a as [k x|]; simpl.
  - rewrite Hpc. destruct k as [|k]; [|exact Hinv]. simpl. destruct (producer_step (cf_ring c) pc x) as [[r' pc'] out] eqn:Hs.
    destruct (producer_keeps _ _ _ _ _ _ _ _ _ I P C Hs) as (I' & P' & C' & Hr & _).
    split; simpl; rewrite ?sent_snoc, ?received_snoc, ?Hr, ?app_nil_r; [done|by exists pc'|done|].
    rewrite R at 1. f_equal. symmetry. apply take_app_le. pose proof (ri_window _ _ _ I). lia.
  - destruct (consumer_step (cf_ring c) (cf_consumer c)) as [[r' pc'] out] eqn:Hs.
    destruct (consumer_keeps _ _ _ _ _ _ _ _ I P C Hs) as (I' & P' & C' & Hr & _ & Hpop).
    split; simpl; rewrite ?sent_snoc, ?received_snoc, ?Hr, ?app_nil_r, ?length_app, ?Nat2Z.inj_add; [done|by exists pc|done|].
    destruct out as [[| |x|]|]; simpl; rewrite ?app_nil_r, ?Nat.add_0_r; try done.
    destruct (Hpop x eq_refl) as (y & -> & Hy). rewrite Nat2Z.id in Hy.
    rewrite Nat.add_1_r, (take_S_r _ _ y), fmap_app by done. by rewrite <-R.
Qed.

Lemma nextPowerOf2_spec v : 1 ≤ v ≤ 2 ^ 63 → ∃ k, 0 ≤ k ≤ 63 ∧ nextPowerOf2 v = 2 ^ k ∧ v ≤ 2 ^ k ∧ (1 < v → 2 ^ (k - 1) < v).
Proof.
  intros Hv. destruct (decide (v = 1)) as [->|]; [by exists 0|]. destruct (decide (v = 2)) as [->|]; [by exists 1|].
  destruct (roundUpPowerOf2_spec v ltac:(lia)) as (k & Hk & Heq & H1 & H2). exists k.
  split_and!; [lia|lia| |done|intros; apply H2; lia].
  unfold nextPowerOf2. rewrite (wrap64_small (v - 1)) by (unfold u64_mod; lia).
  unfold roundUpPowerOf2 in Heq. rewrite decide_False in Heq by lia. exact Heq.
Qed.

Lemma start_inv capacity : 1 ≤ capacity ≤ 2 ^ 63 → conf_inv (start_conf capacity 1).
Proof.
  intros Hc. destruct (nextPowerOf2_spec capacity Hc) as (k & Hk & Heq & Hge & _).
  assert (0 < 2 ^ k < u64_mod) as Hb.
  { split; [apply Z.pow_pos_nonneg; lia|]. unfold u64_mod. apply Z.pow_lt_mono_r; lia. }
  split; simpl; [|by exists PIdle|done|done].
  split; simpl; rewrite ?Heq; [by exists k|by apply wrap64_small; lia|by rewrite length_replicate| | |lia].
  - by rewrite Z.mod_0_l by lia.
  - by rewrite Z.mod_0_l by lia.
Qed.

Lemma run_inv capacity actions : 1 ≤ capacity ≤ 2 ^ 63 → conf_inv (foldl conf_step (start_conf capacity 1) actions).
Proof.
  intros Hc. induction actions as [|a actions IH] using rev_ind; [by apply start_inv|].
  rewrite foldl_app. by apply conf_step_inv.
Qed.

Lemma run_capacity capacity producers actions :
  sp_capacity (cf_ring (foldl conf_step (start_conf capacity producers) actions)) = nextPowerOf2 capacity.
Proof.
  induction actions as [|a actions IH] using rev_ind; [done|]. rewrite foldl_app. simpl.
  destruct (foldl conf_step _ actions) as [r ps cp an]. simpl in *. destruct a as [k x|]; simpl.
  - destruct (ps !! k) as [pc|]; [|done]. unfold producer_step. repeat case_match; simplify_eq; done.
  - unfold consumer_step. repeat case_match; simplify_eq; done.
Qed.
End Ring.

Lemma snoc_ne {A} (l : list A) x : l ≠ l ++ [x].
Proof. intros Heq%(f_equal length). rewrite length_app in Heq. simpl in Heq. lia. Qed.

(** ** Claims *)

(** C19: one producer and one consumer share a bounded FIFO.  Whatever the interleaving
    of their memory accesses: what has been popped is a prefix of what was pushed, every
    pop yields the item that was pushed in that place, and fewer items are under way
    than the capacity, which is the least power of two at or above the one asked for;
    at the step that refuses a push all slots but one are taken, and at the step that
    finds the ring empty everything accepted has been popped. *)
Theorem spsc_fifo {T : Type} (capacity : Z) (actions : list (Action (T := T))) :
  1 ≤ capacity ≤ 2 ^ 63 →
  let c := foldl conf_step (start_conf capacity 1) actions in
  let cap := nextPowerOf2 capacity in
  (∃ pending, (Some <$> sent (cf_answers c)) = received (cf_answers c) ++ (Some <$> pending) ∧
     Z.of_nat (length pending) < cap ∧
     (∀ a x, cf_answers (conf_step c a) = cf_answers c ++ [ARefused x] → Z.of_nat (length pending) = cap - 1) ∧
     (∀ a, cf_answers (conf_step c a) = cf_answers c ++ [AEmpty] → pending = [])) ∧
  ∃ k, 0 ≤ k ∧ cap = 2 ^ k ∧ capacity ≤ cap ∧ (1 < capacity → 2 ^ (k - 1) < capacity).
Proof.
  intros Hcap c cap. destruct (nextPowerOf2_spec capacity Hcap) as (k & Hk & Heq & Hge & Hleast).
  split; [|exists k; split_and!; [lia|done|unfold cap; lia|done]].
  destruct (run_inv capacity actions Hcap) as [I (pc & Hpc & P) C R]. fold c in I, Hpc, P, C, R.
  pose proof (run_capacity capacity 1 actions) as Hc. fold c cap in Hc. pose proof (ri_window _ _ _ I) as Hw. rewrite Hc in Hw.
  exists (drop (length (received (cf_answers c))) (sent (cf_answers c))). split_and!.
  - rewrite R at 1. by rewrite <-fmap_app, take_drop.
  - rewrite length_drop. lia.
  - intros a x Ha. destruct a as [i y|]; simpl in Ha.
    + rewrite Hpc in Ha. destruct i as [|i]; [|by apply snoc_ne in Ha].
      simpl in Ha. destruct (producer_step (cf_ring c) pc y) as [[r' pc'] out] eqn:Hs. simpl in Ha. apply app_inv_head in Ha.
      destruct (producer_keeps _ _ _ _ _ _ _ _ _ I P C Hs) as (_ & _ & _ & _ & Href).
      destruct out as [o|]; [|done]. injection Ha as ->. specialize (Href x eq_refl). rewrite Hc in Href. rewrite length_drop. lia.
    + destruct (consumer_step _ _) as [[r' pc'] out] eqn:Hs. simpl in Ha. apply app_inv_head in Ha. unfold consumer_step in Hs.
      repeat case_match; simplify_eq; done.
  - intros a Ha. destruct a as [i y|]; simpl in Ha.
    + rewrite Hpc in Ha. destruct i as [|i]; [|by apply snoc_ne in Ha].
      simpl in Ha. destruct (producer_step (cf_ring c) pc y) as [[r' pc'] out] eqn:Hs. simpl in Ha. apply app_inv_head in Ha.
      unfold producer_step in Hs. repeat case_match; simplify_eq; done.
    + destruct (consumer_step _ _) as [[r' pc'] out] eqn:Hs. simpl in Ha. apply app_inv_head in Ha.
      destruct (consumer_keeps _ _ _ _ _ _ _ _ I P C Hs) as (_ & _ & _ & _ & Hemp & _).
      destruct out as [o|]; [|done]. injection Ha as ->. specialize (Hemp eq_refl). apply drop_ge. lia.
Qed.

Definition ex_spsc : list (Action (T := nat)) :=
  [AProduce 0 10%nat; AConsume; AProduce 0 0%nat; AConsume; AProduce 0 0%nat; AProduce 0 0%nat; AConsume; AConsume;
   AProduce 0 11%nat; AConsume; AConsume].

Lemma spsc_fifo_witness :
  let c := foldl conf_step (start_conf 2 1) ex_spsc in
  cf_answers c = [AEmpty; APushed 10%nat; APopped (Some 10%nat)] ∧
  ∃ pending, (Some <$> sent (cf_answers c)) = received (cf_answers c) ++ (Some <$> pending).
Proof.
  intros c. split; [vm_compute; reflexivity|].
  destruct (spsc_fifo 2 ex_spsc ltac:(lia)) as [(pending & Hp & _) _]. exists pending. exact Hp.
Defined.

(** Two producers: both are told that their item was accepted, and one is gone. *)
Lemma two_producers_lose_an_item :
  let actions := [AProduce 0 1%nat; AProduce 1 2%nat; AProduce 0 0%nat; AProduce 1 0%nat; AProduce 0 0%nat; AProduce 1 0%nat;
                  AProduce 0 0%nat; AProduce 1 0%nat; AConsume; AConsume; AConsume; AConsume; AConsume; AConsume] in
  cf_answers (foldl conf_step (start_conf 8 2) actions) = [APushed 1%nat; APushed 2%nat; APopped (Some 2%nat); AEmpty].
Proof. vm_compute. reflexivity. Qed.

(** A ring asked to have no slot has none, and the first push writes outside of it. *)
Lemma no_slot_ring : sp_buffer (newSpsc (T := nat) 0) = [] ∧ (spsc_tryPush (newSpsc 0) 1%nat).2 = true.
Proof. vm_compute. split; reflexivity. Qed.
