(* ===== verification/LogFormat.v ===== *)
(** * Text of log records

    The formatting side of [src/logger.hpp] and [src/logger.cpp]: levels, the decimal
    conversions of [FormatBuffer], the two layouts of a log entry, and the hex dump.
    A buffer is a string and appending is concatenation.  A thread id is given as the
    text [operator<<] prints for it and a local time as its calendar fields; a null
    [const char *] is [None]. *)

From Stdlib Require Import Ascii.
From S2P Require Import Prelude Errors Packets Trace.
Local Open Scope string_scope.
Local Open Scope list_scope.
Local Open Scope Z_scope.

(** ** Levels *)

(** src/src/logger.hpp:33-41 LogLevel *)
Inductive LogLevel := L_Trace | L_Debug | L_Info | L_Warning | L_Error | L_Fatal | L_Off.

#[export] Instance LogLevel_eq : EqDecision LogLevel.
Proof. solve_decision. Defined.

(** src/src/logger.hpp:33-41 LogLevel (the underlying value) *)
Definition level_value (level : LogLevel) : Z :=
  match level with
  | L_Trace => 0 | L_Debug => 1 | L_Info => 2 | L_Warning => 3 | L_Error => 4 | L_Fatal => 5 | L_Off => 6
  end.

(** [level >= threshold] on the enumeration. *)
Definition level_ge (level threshold : LogLevel) : bool := bool_decide (level_value threshold ≤ level_value level).

(** src/src/logger.cpp:616-633 Logger::levelName *)
Definition levelName (level : LogLevel) : string :=
  match level with
  | L_Trace => "TRACE" | L_Debug => "DEBUG" | L_Info => "INFO" | L_Warning => "WARNING"
  | L_Error => "ERROR" | L_Fatal => "FATAL" | L_Off => "UNKNOWN"
  end.

(** src/src/logger.hpp:57-68 color; the escape character and its code *)
Definition ansi (code : string) : string := String (ascii_of_nat 27) ("[" +:+ code +:+ "m").

(** src/src/logger.cpp:635-652 Logger::levelColor *)
Definition levelColor (level : LogLevel) : string :=
  match level with
  | L_Trace => ansi "90" | L_Debug => ansi "36" | L_Info => ansi "32" | L_Warning => ansi "33"
  | L_Error => ansi "1;31" | L_Fatal => ansi "35" | L_Off => ansi "37"
  end.

(** ** Numbers *)

(** ['0' + d] *)
Definition digit_char (d : Z) : ascii := ascii_of_nat (Z.to_nat (48 + d)).

(** src/src/logger.hpp:225-228 FormatBuffer::appendNumber (the digits, written backwards from the end of [temp]) *)
Fixpoint emit_digits (room : nat) (value : Z) (acc : string) : string :=
  match room with
  | O => acc
  | S room =>
      let acc := String (digit_char (Z.rem value 10)) acc in
      let value := Z.quot value 10 in
      if decide (0 < value) then emit_digits room value acc else acc
  end.

(** src/src/logger.hpp:214-240 FormatBuffer::appendNumber (signed; [value = -value] overflows for the least value) *)
Definition appendNumber (buf : string) (value : Z) : string :=
  let negative := bool_decide (value < 0) in
  let digits := emit_digits 32 (if negative then - value else value) "" in
  buf +:+ (if negative then String "-" digits else digits).

(** [n] copies of a character *)
Definition pad_with (c : ascii) (n : nat) : string := Nat.iter n (String c) "".

(** src/src/logger.hpp:242-259 FormatBuffer::appendPadded; [temp] holds 16 digits *)
Definition appendPadded (buf : string) (value : Z) (width : nat) (pad : ascii) : string :=
  let digits := emit_digits 16 value "" in
  buf +:+ pad_with pad (width - String.length digits) +:+ digits.

(** ** Entries *)

(** src/src/logger.hpp:72-88 SourceLocation *)
Record SourceLocation := mkLocation { sl_file : option string; sl_function : option string; sl_line : Z }.
Definition no_location : SourceLocation := mkLocation (Some "") (Some "") 0.

(** The fields of [std::tm] that are printed, and the milliseconds. *)
Record LocalTime := mkTime {
  tm_year : Z; tm_mon : Z; tm_mday : Z; tm_hour : Z; tm_min : Z; tm_sec : Z; tm_ms : Z }.

(** src/src/logger.hpp:92-107 LogEntry *)
Record LogEntry := mkEntry {
  le_level : LogLevel;
  le_message : string;
  le_timestamp : LocalTime;
  le_location : SourceLocation;
  le_thread_id : string;
  le_category : string;
}.

#[export] Instance LogEntry_eq : EqDecision LogEntry.
Proof. assert (EqDecision SourceLocation) by solve_decision. assert (EqDecision LocalTime) by solve_decision. solve_decision. Defined.

(** What the layout shows. *)
Record Shown := mkShown { sh_threadId : bool; sh_source : bool; sh_category : bool }.

(** src/src/logger.cpp:600-613 Logger::formatTimestamp (the layout) *)
Definition formatTimestamp (buf : string) (t : LocalTime) : string :=
  let buf := appendNumber buf (tm_year t + 1900) in
  let buf := appendPadded (buf +:+ "-") (tm_mon t + 1) 2 "0" in
  let buf := appendPadded (buf +:+ "-") (tm_mday t) 2 "0" in
  let buf := appendPadded (buf +:+ " ") (tm_hour t) 2 "0" in
  let buf := appendPadded (buf +:+ ":") (tm_min t) 2 "0" in
  let buf := appendPadded (buf +:+ ":") (tm_sec t) 2 "0" in
  appendPadded (buf +:+ ".") (tm_ms t) 3 "0".

(** [path.find_last_of("/\\")], from position [i] *)
Fixpoint find_last_separator (path : string) (i : nat) : option nat :=
  match path with
  | EmptyString => None
  | String c rest =>
      match find_last_separator rest (S i) with
      | Some k => Some k
      | None => if decide (c = "/"%char ∨ c = backslash) then Some i else None
      end
  end.

(** src/src/logger.cpp:654-660 Logger::extractFilename *)
Definition extractFilename (path : string) : string :=
  match find_last_separator path 0 with
  | Some pos => String.substring (S pos) (String.length path - S pos) path
  | None => path
  end.

(** A pointer to a non-empty C string. *)
Definition c_string (s : option string) : option string :=
  match s with Some s => if decide (s = "") then None else Some s | None => None end.

(** src/src/logger.cpp:458-520 Logger::formatEntry *)
Definition formatEntry (show : Shown) (buf : string) (entry : LogEntry) (with_color : bool) : string :=
  let buf := formatTimestamp (buf +:+ "[") (le_timestamp entry) +:+ "]" in
  let buf := buf +:+ " [" +:+ (if with_color then levelColor (le_level entry) else "") in
  let level_str := levelName (le_level entry) in
  let buf := buf +:+ pad_with " " (7 - String.length level_str) +:+ level_str in
  let buf := buf +:+ (if with_color then ansi "0" else "") +:+ "]" in
  let buf := if sh_threadId show then buf +:+ " [T:" +:+ le_thread_id entry +:+ "]" else buf in
  let buf := if sh_category show && bool_decide (le_category entry ≠ "")
             then buf +:+ " [" +:+ le_category entry +:+ "]" else buf in
  let buf := match (if sh_source show then c_string (sl_file (le_location entry)) else None) with
             | None => buf
             | Some file =>
                 let buf := appendNumber (buf +:+ " [" +:+ extractFilename file +:+ ":") (sl_line (le_location entry)) in
                 match c_string (sl_function (le_location entry)) with
                 | None => buf
                 | Some function => buf +:+ " " +:+ function +:+ "()"
                 end +:+ "]"
             end in
  buf +:+ " " +:+ le_message entry.

(** src/src/logger.cpp:562-581 Logger::formatJson (one character of the message) *)
Definition json_message_char (c : ascii) : string :=
  if decide (c = dq) then String backslash (String dq "")
  else if decide (c = backslash) then String backslash (String backslash "")
  else if decide (c = newline) then String backslash "n"
  else if decide (c = carriage_return) then String backslash "r"
  else if decide (c = tab) then String backslash "t"
  else String c "".

(** src/src/logger.cpp:560-583 Logger::formatJson (the message) *)
Fixpoint json_message (message : string) : string :=
  match message with EmptyString => "" | String c rest => json_message_char c +:+ json_message rest end.

(** src/src/logger.cpp:522-584 Logger::formatJson *)
Definition formatJson (show : Shown) (buf : string) (entry : LogEntry) : string :=
  let buf := formatTimestamp (buf +:+ "{" +:+ q "ts" +:+ ":" +:+ String dq "") (le_timestamp entry) in
  let buf := buf +:+ String dq "," +:+ q "level" +:+ ":" +:+ q (levelName (le_level entry)) in
  let buf := if sh_threadId show then buf +:+ "," +:+ q "thread" +:+ ":" +:+ q (le_thread_id entry) else buf in
  let buf := if sh_category show && bool_decide (le_category entry ≠ "")
             then buf +:+ "," +:+ q "cat" +:+ ":" +:+ q (le_category entry) else buf in
  let buf := match (if sh_source show then c_string (sl_file (le_location entry)) else None) with
             | None => buf
             | Some file =>
                 let buf := appendNumber (buf +:+ "," +:+ q "file" +:+ ":" +:+ q (extractFilename file) +:+ "," +:+ q "line" +:+ ":")
                              (sl_line (le_location entry)) in
                 match c_string (sl_function (le_location entry)) with
                 | None => buf
                 | Some function => buf +:+ "," +:+ q "func" +:+ ":" +:+ q function
                 end
             end in
  buf +:+ "," +:+ q "msg" +:+ ":" +:+ q (json_message (le_message entry)) +:+ "}".

(** ** The hex dump *)

(** src/src/logger.cpp:665-665 hexDump (hex_chars) *)
Definition hex_char (n : nat) : ascii := ascii_of_nat (if decide (n < 10)%nat then 48 + n else 55 + n).

(** [snprintf("%08zx ", i)] *)
Fixpoint lower_hex (room : nat) (i : nat) (acc : string) : string :=
  match room with
  | O => acc
  | S room =>
      let acc := String (hex_digit (i mod 16)) acc in
      if decide (0 < i / 16)%nat then lower_hex room (i / 16) acc else acc
  end.
Definition offset_text (i : nat) : string :=
  let digits := lower_hex 16 i "" in pad_with "0" (8 - String.length digits) +:+ digits +:+ " ".

(** src/src/logger.cpp:678-689 hexDump (one position of the hex column) *)
Definition hex_cell (line : list ascii) (j : nat) : string :=
  match line !! j with
  | Some b => String (hex_char (nat_of_ascii b / 16)) (String (hex_char (nat_of_ascii b mod 16)) " ")
  | None => "   "
  end +:+ (if decide (j = 7)%nat then " " else "").

(** src/src/logger.cpp:694-697 hexDump (one character of the ASCII column) *)
Definition ascii_cell (b : ascii) : ascii :=
  if decide (32 ≤ nat_of_ascii b < 127)%nat then b else "."%char.

Definition text_of (l : list ascii) : string := foldr String "" l.
Definition concat_text (l : list string) : string := foldr String.append "" l.

(** src/src/logger.cpp:671-700 hexDump (one line) *)
Definition hex_line (i : nat) (bytes_per_line : nat) (line : list ascii) : string :=
  offset_text i +:+ concat_text (hex_cell line <$> seq 0 bytes_per_line) +:+ " |" +:+
  text_of (ascii_cell <$> line) +:+ "|" +:+ String newline "".

(** src/src/logger.cpp:664-703 hexDump; [fuel] bounds the lines, and the loop does not end when no byte
    goes on a line *)
Fixpoint hexDump_from (fuel : nat) (i : nat) (bytes : list ascii) (bytes_per_line : nat) : option string :=
  match bytes with
  | [] => Some ""
  | _ =>
      match fuel with
      | O => None
      | S fuel =>
          rest ← hexDump_from fuel (i + bytes_per_line) (drop bytes_per_line bytes) bytes_per_line;
          Some (hex_line i bytes_per_line (take bytes_per_line bytes) +:+ rest)
      end
  end.
Definition hexDump (bytes : list ascii) (bytes_per_line : nat) : option string :=
  hexDump_from (length bytes) 0 bytes bytes_per_line.

(** ** Numbers are decimal *)

Lemma digit_char_pretty (n : N) : (n < 10)%N → digit_char (Z.of_N n) = pretty_N_char n.
Proof.
  intros Hn. assert (n = 0 ∨ n = 1 ∨ n = 2 ∨ n = 3 ∨ n = 4 ∨ n = 5 ∨ n = 6 ∨ n = 7 ∨ n = 8 ∨ n = 9)%N as Hc by lia.
  by destruct_or?; subst.
Qed.

Lemma emit_digits_pretty room (n : N) acc :
  (Z.of_N n < 10 ^ Z.of_nat room)%Z → (0 < n)%N → emit_digits room (Z.of_N n) acc = pretty_N_go n acc.
Proof.
  revert n acc. induction room as [|room IH]; intros n acc Hroom Hn; [simpl in Hroom; lia|].
  cbn [emit_digits]. rewrite pretty_N_go_step by done.
  rewrite Z.rem_mod_nonneg, Z.quot_div_nonneg by lia. change 10 with (Z.of_N 10).
  rewrite <-N2Z.inj_mod, <-N2Z.inj_div, digit_char_pretty by (apply N.mod_upper_bound; lia).
  case_decide as Hd; [|by destruct (n `div` 10)%N].
  apply IH; [|lia]. rewrite N2Z.inj_div. apply Z.div_lt_upper_bound; [lia|].
  rewrite Nat2Z.inj_succ, Z.pow_succ_r in Hroom by lia. lia.
Qed.

Lemma emit_digits_nonneg room v :
  (0 ≤ v < 10 ^ Z.of_nat (S room))%Z → emit_digits (S room) v "" = pretty v.
Proof.
  intros [Hv Hr]. destruct (decide (v = 0)) as [->|Hz]; [done|].
  rewrite <-(Z2N.id v) by done. rewrite emit_digits_pretty by lia.
  assert (0 < Z.to_N v)%N as Hp by lia. destruct (Z.to_N v) as [|p]; [lia|]. done.
Qed.

Lemma pretty_Z_neg (v : Z) : v < 0 → pretty v = "-" +:+ pretty (- v).
Proof. intros Hv. destruct v as [|p|p]; [lia|lia|]. done. Qed.

Lemma appendNumber_decimal buf v : - 2 ^ 63 < v < 2 ^ 63 → appendNumber buf v = buf +:+ pretty v.
Proof.
  intros Hv. unfold appendNumber. assert (2 ^ 63 < 10 ^ Z.of_nat 32) as Hlim by done.
  destruct (bool_decide_reflect (v < 0)) as [Hn|Hn].
  - rewrite (pretty_Z_neg v) by done. rewrite emit_digits_nonneg by lia. done.
  - by rewrite emit_digits_nonneg by lia.
Qed.

Lemma appendPadded_decimal buf v width pad :
  0 ≤ v < 10 ^ 16 → appendPadded buf v width pad = buf +:+ pad_with pad (width - String.length (pretty v)) +:+ pretty v.
Proof. intros Hv. unfold appendPadded. by rewrite emit_digits_nonneg. Qed.

(** ** Reading a dump back *)

Definition hex_value (c : ascii) : option nat :=
  let n := nat_of_ascii c in
  if decide (48 ≤ n < 58)%nat then Some (n - 48)%nat else if decide (65 ≤ n < 71)%nat then Some (n - 55)%nat else None.

(** The text after the first [c]. *)
Fixpoint after (c : ascii) (s : string) : string :=
  match s with EmptyString => "" | String x rest => if decide (x = c) then rest else after c rest end.

(** The hex column from position [j] on, [n] positions long. *)
Fixpoint read_cells (n j : nat) (s : string) : option (list ascii) :=
  match n, s with
  | O, _ => Some []
  | S n, String a (String b (String _ rest)) =>
      let rest := if decide (j = 7)%nat then match rest with String _ r => r | EmptyString => "" end else rest in
      if decide (a = " "%char) then Some []
      else x ← hex_value a; y ← hex_value b; l ← read_cells n (S j) rest; Some (ascii_of_nat (16 * x + y) :: l)
  | _, _ => None
  end.

Fixpoint undump (fuel : nat) (bytes_per_line : nat) (s : string) : option (list ascii) :=
  match fuel, s with
  | _, EmptyString => Some []
  | O, _ => None
  | S fuel, _ =>
      line ← read_cells bytes_per_line 0 (after " " s);
      rest ← undump fuel bytes_per_line (after newline s);
      Some (line ++ rest)
  end.

(** A text without the character [c]. *)
Fixpoint free_of (c : ascii) (s : string) : Prop :=
  match s with EmptyString => True | String x rest => x ≠ c ∧ free_of c rest end.

Lemma after_app c s rest : free_of c s → after c (s +:+ String c rest) = rest.
Proof. induction s as [|x s IH]; simpl; [by rewrite decide_True|]. intros [Hx Hs]. rewrite decide_False by done. auto. Qed.

Lemma free_of_app c s t : free_of c s → free_of c t → free_of c (s +:+ t).
Proof. induction s as [|x s IH]; simpl; [done|]. intros [? ?] ?. auto. Qed.

Lemma free_of_pad c d n : c ≠ d → free_of c (pad_with d n).
Proof. intros. induction n; simpl; auto. Qed.

Lemma free_of_concat c l : Forall (free_of c) l → free_of c (concat_text l).
Proof. induction 1; simpl; [done|]. by apply free_of_app. Qed.

Lemma nibble_cases (P : nat → Prop) n :
  (n < 16)%nat → P 0%nat → P 1%nat → P 2%nat → P 3%nat → P 4%nat → P 5%nat → P 6%nat → P 7%nat → P 8%nat → P 9%nat →
  P 10%nat → P 11%nat → P 12%nat → P 13%nat → P 14%nat → P 15%nat → P n.
Proof. intros Hn. intros. do 16 (destruct n as [|n]; [done|]). lia. Qed.

Lemma hex_digit_ne n : (n < 16)%nat → hex_digit n ≠ " "%char ∧ hex_digit n ≠ newline.
Proof. intros Hn. apply (nibble_cases (λ n, hex_digit n ≠ " "%char ∧ hex_digit n ≠ newline)); by auto. Qed.

Lemma hex_char_value n : (n < 16)%nat → hex_value (hex_char n) = Some n ∧ hex_char n ≠ " "%char ∧ hex_char n ≠ newline.
Proof.
  intros Hn. apply (nibble_cases (λ n, hex_value (hex_char n) = Some n ∧ hex_char n ≠ " "%char ∧ hex_char n ≠ newline)); by auto.
Qed.

Lemma free_lower_hex c room i acc : c = " "%char ∨ c = newline → free_of c acc → free_of c (lower_hex room i acc).
Proof.
  intros Hc. revert i acc. induction room as [|room IH]; intros i acc Ha; simpl; [done|].
  assert (free_of c (String (hex_digit (i mod 16)) acc)) as Hs.
  { split; [|done]. destruct (hex_digit_ne (i mod 16)) as [? ?]; [apply Nat.mod_upper_bound; lia|]. destruct Hc as [->| ->]; done. }
  case_decide; [by apply IH|done].
Qed.

Lemma byte_nibbles (b : ascii) :
  (nat_of_ascii b / 16 < 16)%nat ∧ (nat_of_ascii b mod 16 < 16)%nat ∧
  ascii_of_nat (16 * (nat_of_ascii b / 16) + nat_of_ascii b mod 16) = b.
Proof.
  pose proof (nat_ascii_bounded b) as Hb. split; [apply Nat.Div0.div_lt_upper_bound; lia|].
  split; [apply Nat.mod_upper_bound; lia|]. rewrite <-Nat.div_mod_eq. apply ascii_nat_embedding.
Qed.

Lemma read_cell line n j rest :
  read_cells (S n) j (hex_cell line j +:+ rest) =
  match line !! j with Some b => l ← read_cells n (S j) rest; Some (b :: l) | None => Some [] end.
Proof.
  unfold hex_cell. destruct (line !! j) as [b|]; [|by case_decide].
  destruct (byte_nibbles b) as (H1 & H2 & H3). destruct (hex_char_value _ H1) as (V1 & W1 & _).
  destruct (hex_char_value _ H2) as (V2 & _). rewrite string_app_assoc, !append_cons, append_nil. cbn [read_cells].
  rewrite (decide_False (P := hex_char _ = " "%char)), V1, V2 by done. cbn [mbind option_bind]. rewrite H3. by case_decide.
Qed.

Lemma read_cells_line line n j rest :
  (length line ≤ j + n)%nat →
  read_cells n j (concat_text (hex_cell line <$> seq j n) +:+ rest) = Some (drop j line).
Proof.
  revert j. induction n as [|n IH]; intros j Hn.
  - by rewrite drop_ge by lia.
  - change (concat_text (hex_cell line <$> seq j (S n))) with (hex_cell line j +:+ concat_text (hex_cell line <$> seq (S j) n)).
    rewrite string_app_assoc, read_cell.
    destruct (line !! j) as [b|] eqn:Hb.
    + rewrite (drop_S _ b) by done. by rewrite IH by lia.
    + by rewrite (drop_ge line) by (by apply lookup_ge_None).
Qed.

Lemma free_hex_cell line j : free_of newline (hex_cell line j).
Proof.
  unfold hex_cell. apply free_of_app; [|by case_decide]. destruct (line !! j) as [b|]; [|by repeat split].
  destruct (byte_nibbles b) as (H1 & H2 & _).
  repeat split; try done; by apply hex_char_value.
Qed.

Lemma free_ascii_cells line : free_of newline (text_of (ascii_cell <$> line)).
Proof.
  induction line as [|b line IH]; [done|]. split; [|done]. unfold ascii_cell. case_decide as Hb; [|done].
  intros ->. by cbv in Hb; lia.
Qed.

Lemma offset_text_split i : ∃ digits, offset_text i = digits +:+ " " ∧ free_of " " digits ∧ free_of newline digits.
Proof.
  exists (pad_with "0" (8 - String.length (lower_hex 16 i "")) +:+ lower_hex 16 i "").
  unfold offset_text. rewrite string_app_assoc.
  split; [done|split]; apply free_of_app; try (by apply free_of_pad); apply free_lower_hex; auto; done.
Qed.

Lemma hex_line_reads i n line rest :
  (length line ≤ n)%nat →
  read_cells n 0 (after " " (hex_line i n line +:+ rest)) = Some line ∧ after newline (hex_line i n line +:+ rest) = rest.
Proof.
  intros Hl. unfold hex_line. destruct (offset_text_split i) as (digits & -> & Hs & Hn). split.
  - rewrite !string_app_assoc, append_cons, append_nil, after_app by done.
    rewrite read_cells_line by lia. done.
  - rewrite <-!string_app_assoc, !string_app_assoc. change (String newline "" +:+ rest) with (String newline rest).
    rewrite <-!string_app_assoc. apply after_app.
    repeat apply free_of_app; auto using free_ascii_cells; try done; try (repeat split; done).
    apply free_of_concat, Forall_fmap, Forall_true. intros j. apply free_hex_cell.
Qed.

Lemma hexDump_reads fuel i bytes n :
  (0 < n)%nat → (length bytes ≤ fuel)%nat →
  ∃ s, hexDump_from fuel i bytes n = Some s ∧ undump fuel n s = Some bytes.
Proof.
  intros Hn. revert i bytes. induction fuel as [|fuel IH]; intros i bytes Hlen.
  { destruct bytes; [|simpl in Hlen; lia]. by exists "". }
  destruct bytes as [|b bytes]; [by exists ""|].
  destruct (IH (i + n)%nat (drop n (b :: bytes))) as (s & Hs & Hu); [rewrite length_drop; lia|].
  exists (hex_line i n (take n (b :: bytes)) +:+ s). cbn [hexDump_from]. rewrite Hs. split; [done|].
  destruct (hex_line_reads i n (take n (b :: bytes)) s) as [Hc Hr]; [rewrite length_take; lia|].
  cbn [undump]. rewrite Hc, Hr, Hu. cbn [mbind option_bind].
  destruct (hex_line i n (take n (b :: bytes)) +:+ s) eqn:He.
  - destruct (offset_text_split i) as (d & Hd & _). unfold hex_line in He. rewrite Hd in He. by destruct d.
  - by rewrite take_drop.
Qed.

(** ** Reading a JSON line back *)

(** A member's value: a text, or the token of a number. *)
Inductive field := FText (s : string) | FNum (token : string).

Definition numeric (c : ascii) : bool := bool_decide (48 ≤ nat_of_ascii c < 58)%nat || bool_decide (c = "-"%char).

(** The longest numeric prefix. *)
Fixpoint read_token (s : string) : string * string :=
  match s with
  | String c rest => if numeric c then let (t, r) := read_token rest in (String c t, r) else ("", s)
  | EmptyString => ("", "")
  end.

Definition expect (c : ascii) (s : string) : option string :=
  match s with String x rest => if decide (x = c) then Some rest else None | EmptyString => None end.

Definition read_value (s : string) : option (field * string) :=
  match expect dq s with
  | Some s => '(t, r) ← read_string s; Some (FText t, r)
  | None => let (t, r) := read_token s in if decide (t = "") then None else Some (FNum t, r)
  end.

(** The members of an object up to its closing brace. *)
Fixpoint read_members (fuel : nat) (s : string) : option (list (string * field) * string) :=
  match fuel with
  | O => None
  | S fuel =>
      s ← expect dq s; '(k, s) ← read_string s; s ← expect ":" s; '(v, s) ← read_value s;
      match expect "," s with
      | Some s => '(l, r) ← read_members fuel s; Some ((k, v) :: l, r)
      | None => r ← expect "}" s; Some ([(k, v)], r)
      end
  end.
Definition read_object (fuel : nat) (s : string) : option (list (string * field) * string) :=
  s ← expect "{" s; read_members fuel s.

(** [raw] is what is between the quotes of a JSON string that reads as [v]. *)
Definition quotes (raw v : string) : Prop := ∀ rest, read_string (raw +:+ String dq rest) = Some (v, rest).

(** A text that JSON writes as it is. *)
Fixpoint plain (s : string) : Prop :=
  match s with EmptyString => True | String c rest => c ≠ dq ∧ c ≠ backslash ∧ (32 ≤ nat_of_ascii c)%nat ∧ plain rest end.

#[export] Instance plain_dec s : Decision (plain s).
Proof. induction s; simpl; apply _. Defined.

(** A text whose control characters are newlines, tabs and carriage returns. *)
Definition common_char (c : ascii) : Prop := (32 ≤ nat_of_ascii c)%nat ∨ c = newline ∨ c = tab ∨ c = carriage_return.
Fixpoint common (s : string) : Prop :=
  match s with EmptyString => True | String c rest => common_char c ∧ common rest end.

#[export] Instance common_dec s : Decision (common s).
Proof. induction s; simpl; unfold common_char; apply _. Defined.

Lemma plain_quotes s : plain s → quotes s s.
Proof.
  intros Hs rest. induction s as [|c s IH]; [done|]. destruct Hs as (H1 & H2 & H3 & Hs). rewrite append_cons. cbn [read_string].
  rewrite (decide_False (P := c = dq)), (decide_False (P := c = backslash)), decide_False by (done || lia). by rewrite IH.
Qed.

Lemma message_char_reads c t : common_char c →
  read_string (json_message_char c +:+ t) = ('(u, r) ← read_string t; Some (String c u, r)).
Proof.
  intros Hc. destruct (decide (c = dq ∨ c = backslash ∨ c = newline ∨ c = carriage_return ∨ c = tab)) as [Hd|Hd].
  - by destruct_or? Hd; subst.
  - unfold json_message_char. rewrite !decide_False by tauto. rewrite append_cons, append_nil. cbn [read_string].
    rewrite (decide_False (P := c = dq)), (decide_False (P := c = backslash)) by tauto.
    rewrite decide_False by (unfold common_char in Hc; intros ?; destruct Hc; [lia|tauto]). done.
Qed.

Lemma message_quotes s : common s → quotes (json_message s) s.
Proof.
  intros Hs rest. induction s as [|c s IH]; [done|]. destruct Hs as [Hc Hs].
  cbn [json_message]. by rewrite string_app_assoc, message_char_reads, IH.
Qed.

(** *** Objects *)

Definition field_text (f : string * field) (raw : string) : string :=
  q f.1 +:+ ":" +:+ match f.2 with FText _ => q raw | FNum token => token end.

Inductive field_ok : string * field → string → Prop :=
  | text_ok k v raw : plain k → quotes raw v → field_ok (k, FText v) raw
  | num_ok k t raw : plain k → t ≠ "" → (∀ c rest, numeric c = false → read_token (t +:+ String c rest) = (t, String c rest)) →
      expect dq t = None → field_ok (k, FNum t) raw.

Lemma expect_q raw rest : expect dq (q raw +:+ rest) = Some (raw +:+ String dq rest).
Proof. unfold q. rewrite append_cons, string_app_assoc. done. Qed.

Lemma read_field f raw c rest fuel :
  field_ok f raw → numeric c = false →
  read_members (S fuel) (field_text f raw +:+ String c rest) =
  match expect "," (String c rest) with
  | Some s => '(l, r) ← read_members fuel s; Some (f :: l, r)
  | None => r ← expect "}" (String c rest); Some ([f], r)
  end.
Proof.
  intros Hf Hc. unfold field_text. rewrite !string_app_assoc. cbn [read_members]. rewrite expect_q. cbn [mbind option_bind].
  destruct Hf as [k v raw Hk Hv|k t raw Hk Ht Hn He]; cbn [fst snd]; rewrite (plain_quotes k Hk);
    cbn [mbind option_bind]; rewrite append_cons, append_nil; cbn [expect]; rewrite decide_True by done; cbn [mbind option_bind].
  - unfold read_value. rewrite expect_q, Hv. done.
  - unfold read_value. destruct t as [|x t]; [done|]. rewrite append_cons.
    assert (expect dq (String x (t +:+ String c rest)) = None) as -> by (revert He; cbn [expect]; by case_decide).
    rewrite <-append_cons, Hn by done. by rewrite decide_False by done.
Qed.

Lemma read_fields f raw fs raws rest :
  field_ok f raw → Forall2 field_ok fs raws →
  read_members (S (length fs)) (field_text f raw +:+
    foldr (λ x acc, "," +:+ x +:+ acc) "" (zip_with field_text fs raws) +:+ "}" +:+ rest) = Some (f :: fs, rest).
Proof.
  intros Hf Hfs. revert f raw Hf. induction Hfs as [|f' raw' fs raws Hf' Hfs IH]; intros f raw Hf.
  - cbn [zip_with foldr length]. rewrite append_nil, append_cons, append_nil. by rewrite read_field.
  - cbn [zip_with foldr length]. rewrite !string_app_assoc, append_cons, append_nil, read_field by done.
    cbn [expect]. rewrite decide_True by done. by rewrite IH.
Qed.

(** *** The line of an entry *)

Definition shown_file (show : Shown) (e : LogEntry) : option string :=
  if sh_source show then c_string (sl_file (le_location e)) else None.

(** The members of an entry's line, each with the text between its quotes. *)
Definition entry_fields (show : Shown) (e : LogEntry) : list (string * field * string) :=
  [("level", FText (levelName (le_level e)), levelName (le_level e))] ++
  (if sh_threadId show then [("thread", FText (le_thread_id e), le_thread_id e)] else []) ++
  (if sh_category show && bool_decide (le_category e ≠ "") then [("cat", FText (le_category e), le_category e)] else []) ++
  match shown_file show e with
  | None => []
  | Some file =>
      [("file", FText (extractFilename file), extractFilename file); ("line", FNum (pretty (sl_line (le_location e))), "")] ++
      match c_string (sl_function (le_location e)) with None => [] | Some fn => [("func", FText fn, fn)] end
  end ++
  [("msg", FText (le_message e), json_message (le_message e))].
Definition timestamp_field (e : LogEntry) : string * field := ("ts", FText (formatTimestamp "" (le_timestamp e))).

Definition commas (l : list (string * field * string)) : string :=
  foldr (λ x acc, "," +:+ x +:+ acc) "" ((λ f, field_text f.1 f.2) <$> l).

Lemma commas_cons f l : commas (f :: l) = "," +:+ field_text f.1 f.2 +:+ commas l.
Proof. done. Qed.

Lemma commas_app l l' : commas (l ++ l') = commas l +:+ commas l'.
Proof.
  induction l as [|f l IH]; [done|]. rewrite <-app_comm_cons, !commas_cons, IH. by rewrite !string_app_assoc.
Qed.

Lemma append_nil_r (s : string) : s +:+ "" = s.
Proof. induction s as [|c s IH]; [done|]. exact (f_equal (String c) IH). Qed.

Lemma padded_app buf b v w p : appendPadded (buf +:+ b) v w p = buf +:+ appendPadded b v w p.
Proof. unfold appendPadded. by rewrite string_app_assoc. Qed.

Lemma timestamp_app buf t : formatTimestamp buf t = buf +:+ formatTimestamp "" t.
Proof. unfold formatTimestamp, appendNumber. by rewrite !append_nil, !padded_app, ?string_app_assoc. Qed.

Definition in_int (z : Z) : Prop := - 2 ^ 31 < z < 2 ^ 31.

Lemma formatJson_fields show e : in_int (sl_line (le_location e)) →
  formatJson show "" e =
  "{" +:+ field_text (timestamp_field e) (formatTimestamp "" (le_timestamp e)) +:+ commas (entry_fields show e) +:+ "}".
Proof.
  intros Hl. unfold in_int in Hl. unfold formatJson, entry_fields, shown_file. rewrite (timestamp_app ("" +:+ _)), !commas_app.
  unfold field_text at 1. cbn [timestamp_field fst snd].
  destruct (sh_threadId show), (sh_category show && bool_decide (le_category e ≠ ""));
    destruct (if sh_source show then c_string (sl_file (le_location e)) else None) as [file|];
    [destruct (c_string (sl_function (le_location e)))| |destruct (c_string (sl_function (le_location e)))|
    |destruct (c_string (sl_function (le_location e)))| |destruct (c_string (sl_function (le_location e)))|];
    rewrite ?commas_app, ?commas_cons, ?appendNumber_decimal by lia;
    unfold commas, field_text, q; cbn [fmap list_fmap foldr fst snd];
    autorewrite with text; rewrite ?append_nil_r; reflexivity.
Qed.

(** Numbers are numeric tokens, and plain. *)
Fixpoint all_numeric (s : string) : Prop :=
  match s with EmptyString => True | String c rest => numeric c = true ∧ all_numeric rest end.

Lemma pretty_char_numeric (n : N) : numeric (pretty_N_char n) = true.
Proof. unfold pretty_N_char. by repeat case_match. Qed.

Lemma pretty_go_numeric (n : N) s : all_numeric s → all_numeric (pretty_N_go n s).
Proof.
  revert s. induction (N.lt_wf_0 n) as [n _ IH]. intros s Hs. destruct (decide (0 < n)%N) as [Hn|Hn].
  - rewrite pretty_N_go_step by done. apply IH; [apply N.div_lt; lia|]. split; [apply pretty_char_numeric|done].
  - by replace n with 0%N by lia.
Qed.

Lemma pretty_numeric (z : Z) : all_numeric (pretty z) ∧ pretty z ≠ "".
Proof.
  assert (∀ p s, all_numeric s → all_numeric (pretty_N_go (Npos p) s)) as Hp by (intros; by apply pretty_go_numeric).
  assert (∀ p, pretty_N_go (Npos p) "" ≠ "") as Hne.
  { intros p Heq. pose proof (inj pretty (Npos p) 0%N) as Hinj. assert (pretty (Npos p) = "") as Hp' by exact Heq.
    rewrite <-emit_digits_pretty with (room := S (Z.to_nat (Z.of_N (Npos p)))) in Heq; [|apply Z.lt_le_trans with (10 ^ Z.of_N (Npos p))|lia].
    - revert Heq. cbn [emit_digits]. case_decide; [|done]. generalize (Z.to_nat (Z.of_N (N.pos p))). intros room.
      assert (∀ room v acc, emit_digits room v acc = "" → acc = "") as He.
      { clear. induction room as [|room IH]; intros v acc; simpl; [done|]. case_decide; [|done]. intros ?%IH. done. }
      intros ?%He. done.
    - apply Z.pow_gt_lin_r; lia.
    - apply Z.pow_le_mono_r; lia. }
  destruct z as [|p|p]; [done| |].
  - split; [by apply Hp|apply Hne].
  - split; [|done]. split; [done|]. by apply Hp.
Qed.

Lemma numeric_plain s : all_numeric s → plain s.
Proof.
  induction s as [|c s IH]; simpl; [done|]. intros [Hc Hs]. unfold numeric in Hc.
  apply orb_true_iff in Hc. rewrite !bool_decide_eq_true in Hc.
  split_and!; [| | |by apply IH]; destruct Hc as [Hc|Hc]; try (intros ->; cbv in Hc; lia); try (by subst); try lia.
  subst. cbv. lia.
Qed.

Lemma numeric_token t c rest : all_numeric t → numeric c = false → read_token (t +:+ String c rest) = (t, String c rest).
Proof.
  intros Ht Hc. induction t as [|x t IH]; [by cbn [String.append read_token]; rewrite append_nil; cbn [read_token]; rewrite Hc|].
  destruct Ht as [Hx Ht]. rewrite append_cons. cbn [read_token]. by rewrite Hx, IH.
Qed.

Lemma plain_app s t : plain s → plain t → plain (s +:+ t).
Proof. induction s as [|c s IH]; simpl; [done|]. intros (? & ? & ? & ?) ?. auto. Qed.

Lemma plain_pad n : plain (pad_with "0" n).
Proof. induction n as [|n IH]; simpl; [done|]. split_and!; [done|done|cbv; lia|done]. Qed.

(** A time as the calendar has it. *)
Definition valid_time (t : LocalTime) : Prop :=
  - 2 ^ 31 < tm_year t + 1900 < 2 ^ 31 ∧ 0 ≤ tm_mon t ≤ 11 ∧ 1 ≤ tm_mday t ≤ 31 ∧ 0 ≤ tm_hour t ≤ 23 ∧ 0 ≤ tm_min t ≤ 59 ∧
  0 ≤ tm_sec t ≤ 60 ∧ 0 ≤ tm_ms t ≤ 999.

Lemma timestamp_plain t : valid_time t → plain (formatTimestamp "" t).
Proof.
  intros (? & ? & ? & ? & ? & ? & ?). unfold formatTimestamp.
  assert (∀ z : Z, plain (pretty z)) as Hz by (intros z; apply numeric_plain, pretty_numeric).
  rewrite appendNumber_decimal, !appendPadded_decimal by lia.
  repeat apply plain_app; auto using plain_pad; by apply (bool_decide_unpack _).
Qed.

Lemma number_field_ok k (z : Z) : plain k → field_ok (k, FNum (pretty z)) "".
Proof.
  intros Hk. destruct (pretty_numeric z) as [Hn He]. constructor; [done|done|intros; by apply numeric_token|].
  destruct (pretty z) as [|c s]; [done|]. destruct Hn as [Hc _]. cbn [expect]. case_decide as Hd; [|done]. by rewrite Hd in Hc.
Qed.

(** What an entry must be for its line to be JSON: the message may be any text with the
    usual control characters, everything else must not need escaping. *)
Record json_entry (show : Shown) (e : LogEntry) : Prop := {
  jl_time : valid_time (le_timestamp e);
  jl_line : in_int (sl_line (le_location e));
  jl_message : common (le_message e);
  jl_thread : plain (le_thread_id e);
  jl_category : plain (le_category e);
  jl_file file : c_string (sl_file (le_location e)) = Some file → plain (extractFilename file);
  jl_function fn : c_string (sl_function (le_location e)) = Some fn → plain fn;
}.

Lemma entry_fields_ok show e : json_entry show e → Forall (λ f, field_ok f.1 f.2) (entry_fields show e).
Proof.
  intros [J1 J2 J3 J4 J5 J6 J7]. unfold entry_fields, shown_file.
  assert (∀ s, (bool_decide (plain s) = true) → plain s) as Hk by (intros s ?; by eapply bool_decide_eq_true).
  assert (∀ k v, plain k → plain v → field_ok (k, FText v) v) as Ht by (intros; constructor; [done|by apply plain_quotes]).
  repeat apply Forall_app_2.
  - constructor; [|done]. apply Ht; [by apply Hk|]. destruct (le_level e); by apply Hk.
  - destruct (sh_threadId show); [|done]. constructor; [|done]. apply Ht; [by apply Hk|done].
  - case_match; [|done]. constructor; [|done]. apply Ht; [by apply Hk|done].
  - destruct (sh_source show); [|done]. destruct (c_string (sl_file _)) as [file|] eqn:Hf; [|done].
    constructor; [apply Ht; [by apply Hk|by apply J6]|]. constructor; [apply number_field_ok; by apply Hk|].
    destruct (c_string (sl_function _)) as [fn|] eqn:Hfn; [|done]. constructor; [|done]. apply Ht; [by apply Hk|by apply J7].
  - constructor; [|done]. constructor; [by apply Hk|by apply message_quotes].
Qed.

Lemma json_line_reads show e rest : json_entry show e →
  read_object (S (length (entry_fields show e))) (formatJson show "" e +:+ rest) =
  Some (timestamp_field e :: (fst <$> entry_fields show e), rest).
Proof.
  intros J. rewrite formatJson_fields by apply J. rewrite !string_app_assoc, append_cons, append_nil.
  unfold read_object. cbn [expect]. rewrite decide_True by done. cbn [mbind option_bind].
  pose proof (read_fields (timestamp_field e) (formatTimestamp "" (le_timestamp e)) (fst <$> entry_fields show e)
    (snd <$> entry_fields show e) rest) as Hr. rewrite length_fmap in Hr.
  assert (zip_with field_text (entry_fields show e).*1 (entry_fields show e).*2 = (λ f, field_text f.1 f.2) <$> entry_fields show e) as Hz.
  { clear. induction (entry_fields show e) as [|f l IH]; [done|]. cbn [fmap list_fmap zip_with]. f_equal. exact IH. }
  rewrite Hz in Hr. apply Hr.
  - apply text_ok; [by apply (bool_decide_unpack _)|]. apply plain_quotes, timestamp_plain, J.
  - apply Forall2_fmap_2, Forall_Forall2_diag. by apply entry_fields_ok.
Qed.

(** ** Claims *)

(** A hex dump loses nothing.  For any bytes and any positive line length the loop
    ends, and a reader that takes the hex column of each line gets the bytes back. *)
Theorem hexDump_roundtrip (bytes : list ascii) (bytes_per_line : nat) :
  (0 < bytes_per_line)%nat →
  ∃ s, hexDump bytes bytes_per_line = Some s ∧ undump (length bytes) bytes_per_line s = Some bytes.
Proof. intros Hn. by apply hexDump_reads. Qed.

Lemma hexDump_roundtrip_witness :
  ∃ s, hexDump (String.list_ascii_of_string "a log record") 5 = Some s ∧
    undump 12 5 s = Some (String.list_ascii_of_string "a log record").
Proof. exact (hexDump_roundtrip (String.list_ascii_of_string "a log record") 5 ltac:(lia)). Defined.

(** C35: a structured log line reads back as the entry.  When the thread id, category,
    file and function need no escaping and the message's control characters are the
    usual ones, a JSON reader finds in the line [formatJson] makes one object with the
    time, the level, the shown fields and the message, each with its value (the line
    number in decimal), and stops where the line ends. *)
Theorem json_line_roundtrip (show : Shown) (e : LogEntry) (rest : string) :
  json_entry show e →
  read_object (S (length (entry_fields show e))) (formatJson show "" e +:+ rest) =
  Some (timestamp_field e :: (fst <$> entry_fields show e), rest).
Proof. apply json_line_reads. Qed.

Definition ex_time : LocalTime := mkTime 124 6 9 8 5 3 42.
Definition ex_entry (message category : string) : LogEntry :=
  mkEntry L_Warning message ex_time (mkLocation (Some "/src/logger.cpp") (Some "log") 209) "140" category.

Lemma json_line_roundtrip_witness :
  read_object 8 (formatJson (mkShown true true true) "" (ex_entry (String dq "tab" +:+ String tab "") "engine") +:+ "next") =
  Some ([("ts", FText "2024-07-09 08:05:03.042"); ("level", FText "WARNING"); ("thread", FText "140"); ("cat", FText "engine");
         ("file", FText "logger.cpp"); ("line", FNum "209"); ("func", FText "log");
         ("msg", FText (String dq "tab" +:+ String tab ""))], "next").
Proof.
  refine (json_line_roundtrip (mkShown true true true) (ex_entry (String dq "tab" +:+ String tab "") "engine") "next" _).
  split; try (apply (bool_decide_unpack _); vm_compute; exact I).
  - intros file [= <-]. apply (bool_decide_unpack _). vm_compute. exact I.
  - intros fn [= <-]. apply (bool_decide_unpack _). vm_compute. exact I.
Defined.

(** The conditions are needed.  A control character in the message is written as it
    is, and the category, file and function are not escaped at all: such lines are not
    JSON. *)
Lemma control_character_breaks_json :
  read_object 9 (formatJson (mkShown false false false) "" (ex_entry (String (ascii_of_nat 27) "[31m") "")) = None.
Proof. vm_compute. reflexivity. Qed.

Lemma category_breaks_json :
  read_object 9 (formatJson (mkShown false false true) "" (ex_entry "m" (String dq "net"))) = None.
Proof. vm_compute. reflexivity. Qed.

(** With no byte per line the dump never ends. *)
Lemma hexDump_zero_diverges fuel i b bytes : hexDump_from fuel i (b :: bytes) 0 = None.
Proof. revert i. induction fuel as [|fuel IH]; intros i; [done|]. cbn [hexDump_from drop]. by rewrite IH. Qed.
