(* ===== verification/Logger.v ===== *)
(** * The logger

    [Logger] of [src/logger.hpp] and [src/logger.cpp], the stream and macro front ends,
    and the public functions of [engine_log.cpp].  An operation of one thread is a
    function on the state; the asynchronous worker is a thread of its own that takes
    one step at a time ([worker_step]), so that the operations of a logging thread
    interleave with it anywhere.  The calls on the ring are those of [SpscRing], whose
    concurrent refinement allows to take each as one step.

    The file system is a map from paths to contents.  [opens] says which paths can be
    opened (directories are not represented); [append_pos] is the position that
    [tellp] reports for a file that was just opened for appending, which C++ leaves to
    the implementation.  Writes reach the file at once. *)

From Stdlib Require Import Ascii.
From S2P Require Import Prelude Errors Packets MpmcQueue SpscRing Trace.
From S2P Require Import Contexts LogFormat.
Local Open Scope string_scope.
Local Open Scope list_scope.
Local Open Scope Z_scope.

(** src/src/logger.hpp:111-131 LoggerConfig *)
Record LoggerConfig := mkLoggerConfig {
  lc_min_level : LogLevel;
  lc_console_enabled : bool;
  lc_file_enabled : bool;
  lc_color_enabled : bool;
  lc_async_enabled : bool;
  lc_show_thread_id : bool;
  lc_show_source_location : bool;
  lc_show_category : bool;
  lc_json_output : bool;
  lc_file_path : string;
  lc_max_file_size : Z;
  lc_max_backup_count : Z;
  lc_async_queue_size : Z;
  lc_flush_interval_ms : Z;
  lc_pattern : string;
}.

(** src/src/logger.hpp:111-131 LoggerConfig (default member initializers) *)
Definition default_config : LoggerConfig :=
  mkLoggerConfig L_Debug true false true false true true true false "app.log" (10 * 1024 * 1024) 5 8192 1000
    "[%T] [%L] [%t] [%s] %m".

(** An open output stream and its position. *)
Record Stream := mkStream { st_path : string; st_pos : Z }.

(** src/src/logger.cpp:385-415 Logger::asyncWorker (program points) *)
Inductive Worker :=
  | WTop
  | WBatch (batch : list LogEntry)
  | WProcess (batch : list LogEntry)
  | WDrain
  | WDone.

(** What has been written: files, the two console streams, calls of callbacks. *)
Record World := mkWorld {
  w_files : gmap string string;
  w_stdout : list string;
  w_stderr : list string;
  w_calls : list (Z * LogEntry);
}.

(** src/src/logger.hpp:372-402 Logger (data members); a callback is known by its id *)
Record Logger := mkLogger {
  lg_level : LogLevel;
  lg_console : bool;
  lg_file : bool;
  lg_color : bool;
  lg_async : bool;
  lg_json : bool;
  lg_show : Shown;
  lg_config : LoggerConfig;
  lg_stream : option Stream;
  lg_ring : option (Spsc LogEntry);
  lg_worker : option Worker;
  lg_running : bool;
  lg_initialized : bool;
  lg_callbacks : list Z;
  lg_nextId : Z;
  lg_world : World;
}.

(** src/src/logger.cpp:15-26 Logger::Logger *)
Definition newLogger (files : gmap string string) : Logger :=
  mkLogger L_Debug true false true false false (mkShown true true true) default_config None None None false true [] 1
    (mkWorld files [] [] []).

Section Logger.
Context (opens : string → bool) (append_pos : string → Z).
Implicit Types (lg : Logger) (entry : LogEntry).

Definition set_flags lg level console color json show := mkLogger level console (lg_file lg) color (lg_async lg) json show
  (lg_config lg) (lg_stream lg) (lg_ring lg) (lg_worker lg) (lg_running lg) (lg_initialized lg) (lg_callbacks lg) (lg_nextId lg) (lg_world lg).
Definition set_config lg x := mkLogger (lg_level lg) (lg_console lg) (lg_file lg) (lg_color lg) (lg_async lg) (lg_json lg) (lg_show lg)
  x (lg_stream lg) (lg_ring lg) (lg_worker lg) (lg_running lg) (lg_initialized lg) (lg_callbacks lg) (lg_nextId lg) (lg_world lg).
Definition set_file lg enabled stream := mkLogger (lg_level lg) (lg_console lg) enabled (lg_color lg) (lg_async lg) (lg_json lg) (lg_show lg)
  (lg_config lg) stream (lg_ring lg) (lg_worker lg) (lg_running lg) (lg_initialized lg) (lg_callbacks lg) (lg_nextId lg) (lg_world lg).
Definition set_thread lg ring worker running := mkLogger (lg_level lg) (lg_console lg) (lg_file lg) (lg_color lg) (lg_async lg) (lg_json lg)
  (lg_show lg) (lg_config lg) (lg_stream lg) ring worker running (lg_initialized lg) (lg_callbacks lg) (lg_nextId lg) (lg_world lg).
Definition set_async lg x := mkLogger (lg_level lg) (lg_console lg) (lg_file lg) (lg_color lg) x (lg_json lg) (lg_show lg)
  (lg_config lg) (lg_stream lg) (lg_ring lg) (lg_worker lg) (lg_running lg) (lg_initialized lg) (lg_callbacks lg) (lg_nextId lg) (lg_world lg).
Definition set_initialized lg x := mkLogger (lg_level lg) (lg_console lg) (lg_file lg) (lg_color lg) (lg_async lg) (lg_json lg) (lg_show lg)
  (lg_config lg) (lg_stream lg) (lg_ring lg) (lg_worker lg) (lg_running lg) x (lg_callbacks lg) (lg_nextId lg) (lg_world lg).
Definition set_callbacks lg cbs next := mkLogger (lg_level lg) (lg_console lg) (lg_file lg) (lg_color lg) (lg_async lg) (lg_json lg) (lg_show lg)
  (lg_config lg) (lg_stream lg) (lg_ring lg) (lg_worker lg) (lg_running lg) (lg_initialized lg) cbs next (lg_world lg).
Definition set_world lg x := mkLogger (lg_level lg) (lg_console lg) (lg_file lg) (lg_color lg) (lg_async lg) (lg_json lg) (lg_show lg)
  (lg_config lg) (lg_stream lg) (lg_ring lg) (lg_worker lg) (lg_running lg) (lg_initialized lg) (lg_callbacks lg) (lg_nextId lg) x.

(** ** Files *)

Definition with_files (w : World) (files : gmap string string) : World :=
  mkWorld files (w_stdout w) (w_stderr w) (w_calls w).

(** [m_fileStream.open(path, out | app)]: creates the file when it is missing *)
Definition open_append lg (path : string) : Logger :=
  if opens path then
    let content := default "" (w_files (lg_world lg) !! path) in
    set_file (set_world lg (with_files (lg_world lg) (<[path := content]> (w_files (lg_world lg)))))
      (lg_file lg) (Some (mkStream path (append_pos content)))
  else set_file lg (lg_file lg) None.

Definition close_stream lg : Logger := set_file lg (lg_file lg) None.

(** [std::filesystem::rename] and [remove] on an existing file *)
Definition fs_rename (files : gmap string string) (a b : string) : gmap string string :=
  match files !! a with Some content => <[b := content]> (delete a files) | None => files end.

(** src/src/logger.cpp:443-443 Logger::rotateFile (backup names) *)
Definition backup_name (path : string) (i : Z) : string := if decide (0 < i) then path +:+ "." +:+ pretty i else path.

(** src/src/logger.cpp:442-453 Logger::rotateFile (the loop, from [i] down to 0) *)
Fixpoint rotate_loop (path : string) (max_backups : Z) (i : nat) (files : gmap string string) : gmap string string :=
  let old_name := backup_name path (Z.of_nat i) in
  let new_name := path +:+ "." +:+ pretty (Z.of_nat i + 1) in
  let files := match files !! old_name with
               | Some _ => if decide (Z.of_nat i = max_backups - 1) then delete old_name files else fs_rename files old_name new_name
               | None => files
               end in
  match i with O => files | S i => rotate_loop path max_backups i files end.

(** src/src/logger.cpp:417-456 Logger::rotateFile *)
Definition rotateFile lg : Logger :=
  match lg_stream lg with
  | None => lg
  | Some st =>
      let max_size := lc_max_file_size (lg_config lg) in
      let max_backups := lc_max_backup_count (lg_config lg) in
      let path := lc_file_path (lg_config lg) in
      if decide (st_pos st < 0 ∨ st_pos st < max_size) then lg
      else
        let files := w_files (lg_world lg) in
        let files := if decide (0 < max_backups) then rotate_loop path max_backups (Z.to_nat (max_backups - 1)) files else files in
        open_append (set_world (close_stream lg) (with_files (lg_world lg) files)) path
  end.

(** ** Writing *)

Definition layout lg entry (color : bool) : string :=
  if lg_json lg then formatJson (lg_show lg) "" entry else formatEntry (lg_show lg) "" entry color.

(** src/src/logger.cpp:342-359 Logger::writeConsole *)
Definition writeConsole lg entry : Logger :=
  let line := layout lg entry (lg_color lg) in
  let w := lg_world lg in
  set_world lg (if level_ge (le_level entry) L_Error then mkWorld (w_files w) (w_stdout w) (w_stderr w ++ [line]) (w_calls w)
                else mkWorld (w_files w) (w_stdout w ++ [line]) (w_stderr w) (w_calls w)).

(** src/src/logger.cpp:361-383 Logger::writeFile *)
Definition writeFile lg entry : Logger :=
  match lg_stream lg with
  | None => lg
  | Some _ =>
      let lg := rotateFile lg in
      match lg_stream lg with
      | None => lg
      | Some st =>
          let content := default "" (w_files (lg_world lg) !! st_path st) +:+ layout lg entry false +:+ String newline "" in
          set_file (set_world lg (with_files (lg_world lg) (<[st_path st := content]> (w_files (lg_world lg)))))
            (lg_file lg) (Some (mkStream (st_path st) (Z.of_nat (String.length content))))
      end
  end.

(** src/src/logger.cpp:329-338 Logger::processEntry (callbacks); what they throw is swallowed *)
Definition call_all lg entry : Logger :=
  let w := lg_world lg in
  set_world lg (mkWorld (w_files w) (w_stdout w) (w_stderr w) (w_calls w ++ ((λ id, (id, entry)) <$> lg_callbacks lg))).

(** src/src/logger.cpp:319-340 Logger::processEntry *)
Definition processEntry lg entry : Logger :=
  let lg := if lg_console lg then writeConsole lg entry else lg in
  let lg := if lg_file lg then writeFile lg entry else lg in
  call_all lg entry.

(** ** Callbacks and settings *)

(** src/src/logger.cpp:191-196 Logger::addCallback *)
Definition addCallback lg : Logger * Z :=
  (set_callbacks lg (lg_callbacks lg ++ [lg_nextId lg]) (wrap64 (lg_nextId lg + 1)), lg_nextId lg).

(** src/src/logger.cpp:198-202 Logger::removeCallback *)
Definition removeCallback lg (id : Z) : Logger := set_callbacks lg (filter (λ i, i ≠ id) (lg_callbacks lg)) (lg_nextId lg).

(** src/src/logger.cpp:204-207 Logger::clearCallbacks *)
Definition clearCallbacks lg : Logger := set_callbacks lg [] (lg_nextId lg).

(** src/src/logger.cpp:111-113 Logger::setLevel *)
Definition setLevel lg (level : LogLevel) : Logger := set_flags lg level (lg_console lg) (lg_color lg) (lg_json lg) (lg_show lg).

(** src/src/logger.cpp:119-121 Logger::enableConsole *)
Definition enableConsole lg (enable : bool) : Logger := set_flags lg (lg_level lg) enable (lg_color lg) (lg_json lg) (lg_show lg).

(** src/src/logger.cpp:145-147 Logger::enableColor *)
Definition enableColor lg (enable : bool) : Logger := set_flags lg (lg_level lg) (lg_console lg) enable (lg_json lg) (lg_show lg).

(** src/src/logger.cpp:155-157 Logger::enableJson *)
Definition enableJson lg (enable : bool) : Logger := set_flags lg (lg_level lg) (lg_console lg) (lg_color lg) enable (lg_show lg).

(** src/src/logger.cpp:123-143 Logger::enableFile *)
Definition enableFile lg (enable : bool) : Logger :=
  if decide (enable = lg_file lg) then lg
  else
    let lg := match enable, lg_stream lg with
              | true, None => open_append lg (lc_file_path (lg_config lg))
              | false, Some _ => close_stream lg
              | _, _ => lg
              end in
    set_file lg enable (lg_stream lg).

Definition set_path (c : LoggerConfig) (path : string) : LoggerConfig :=
  mkLoggerConfig (lc_min_level c) (lc_console_enabled c) (lc_file_enabled c) (lc_color_enabled c) (lc_async_enabled c)
    (lc_show_thread_id c) (lc_show_source_location c) (lc_show_category c) (lc_json_output c) path (lc_max_file_size c)
    (lc_max_backup_count c) (lc_async_queue_size c) (lc_flush_interval_ms c) (lc_pattern c).

(** src/src/logger.cpp:159-184 Logger::setFilePath *)
Definition setFilePath lg (path : string) : Logger :=
  if decide (lc_file_path (lg_config lg) = path) then lg
  else
    let lg := close_stream (set_config lg (set_path (lg_config lg) path)) in
    if lg_file lg then open_append lg path else lg.

(** src/src/logger.cpp:186-189 Logger::setPattern *)
Definition setPattern lg (pattern : string) : Logger :=
  let c := lg_config lg in
  set_config lg (mkLoggerConfig (lc_min_level c) (lc_console_enabled c) (lc_file_enabled c) (lc_color_enabled c) (lc_async_enabled c)
    (lc_show_thread_id c) (lc_show_source_location c) (lc_show_category c) (lc_json_output c) (lc_file_path c) (lc_max_file_size c)
    (lc_max_backup_count c) (lc_async_queue_size c) (lc_flush_interval_ms c) pattern).

(** ** Logging *)

(** src/src/logger.hpp:348-350 Logger::isEnabled *)
Definition isEnabled lg (level : LogLevel) : bool := level_ge level (lg_level lg).

(** src/src/logger.cpp:209-229 Logger::log, with the entry it makes *)
Definition log lg entry : Logger :=
  if negb (isEnabled lg (le_level entry)) then lg
  else if lg_async lg then
    match lg_ring lg with
    | Some ring =>
        let (ring, ok) := spsc_tryPush ring entry in
        if ok then set_thread lg (Some ring) (lg_worker lg) (lg_running lg) else processEntry lg entry
    | None => processEntry lg entry
    end
  else processEntry lg entry.

(** ** The worker *)

(** [m_ringBuffer->tryPop(entry)] *)
Definition pop_entry lg : option (Logger * LogEntry) :=
  ring ← lg_ring lg;
  match spsc_tryPop ring with
  | (ring, Some (Some e)) => Some (set_thread lg (Some ring) (lg_worker lg) (lg_running lg), e)
  | _ => None
  end.

Definition set_worker lg (w : Worker) : Logger := set_thread lg (lg_ring lg) (Some w) (lg_running lg).

(** src/src/logger.cpp:385-415 Logger::asyncWorker (one step) *)
Definition worker_step lg : Logger :=
  match lg_worker lg with
  | None | Some WDone => lg
  | Some WTop => set_worker lg (if lg_running lg then WBatch [] else WDrain)
  | Some (WBatch batch) =>
      if decide (length batch < 64)%nat then
        match pop_entry lg with
        | Some (lg, e) => set_worker lg (WBatch (batch ++ [e]))
        | None => set_worker lg (WProcess batch)
        end
      else set_worker lg (WProcess batch)
  | Some (WProcess []) => set_worker lg WTop
  | Some (WProcess (e :: batch)) => set_worker (processEntry lg e) (WProcess batch)
  | Some WDrain =>
      match pop_entry lg with
      | Some (lg, e) => processEntry lg e
      | None => set_worker lg WDone
      end
  end.

(** [m_workerThread->join()], once the worker was told to stop: the steps it still takes *)
Definition join_fuel lg : nat :=
  match lg_ring lg with Some ring => 2 * Z.to_nat (sp_capacity ring) + 70 | None => 0 end.
Definition join lg : Logger := Nat.iter (join_fuel lg) worker_step lg.

(** src/src/logger.cpp:92-97 Logger::configure (drain) *)
Fixpoint drain (fuel : nat) lg : Logger :=
  match fuel with
  | O => lg
  | S fuel => match pop_entry lg with Some (lg, e) => drain fuel (processEntry lg e) | None => lg end
  end.

(** src/src/logger.cpp:79-99 Logger::configure (stopping the worker) *)
Definition stop_worker lg : Logger :=
  let lg := set_thread lg (lg_ring lg) (lg_worker lg) false in
  let lg := set_thread (join lg) (lg_ring (join lg)) None false in
  set_thread (drain (join_fuel lg) lg) None None false.

(** src/src/logger.cpp:30-104 Logger::configure *)
Definition configure lg (config : LoggerConfig) : Logger :=
  let lg := set_flags lg (lc_min_level config) (lc_console_enabled config) (lc_color_enabled config) (lc_json_output config)
    (mkShown (lc_show_thread_id config) (lc_show_source_location config) (lc_show_category config)) in
  let old := lg_config lg in
  let need_file_reopen := bool_decide (lc_file_path old ≠ lc_file_path config) ||
    bool_decide (lc_file_enabled old ≠ lc_file_enabled config) in
  let need_async_change := bool_decide (lc_async_enabled old ≠ lc_async_enabled config) in
  let lg := set_config lg config in
  let lg := if need_file_reopen then
              let lg := close_stream lg in
              let lg := if lc_file_enabled config then open_append lg (lc_file_path config) else lg in
              set_file lg (lc_file_enabled config) (lg_stream lg)
            else lg in
  if need_async_change then
    let lg := if lc_async_enabled config && negb (lg_running lg)
              then set_thread lg (Some (newSpsc (lc_async_queue_size config))) (Some WTop) true
              else if negb (lc_async_enabled config) && lg_running lg then stop_worker lg
              else lg in
    set_async lg (lc_async_enabled config)
  else lg.

(** src/src/logger.cpp:149-153 Logger::enableAsync *)
Definition enableAsync lg (enable : bool) : Logger :=
  let c := lg_config lg in
  configure lg (mkLoggerConfig (lc_min_level c) (lc_console_enabled c) (lc_file_enabled c) (lc_color_enabled c) enable
    (lc_show_thread_id c) (lc_show_source_location c) (lc_show_category c) (lc_json_output c) (lc_file_path c) (lc_max_file_size c)
    (lc_max_backup_count c) (lc_async_queue_size c) (lc_flush_interval_ms c) (lc_pattern c)).

(** src/src/logger.cpp:281-317 Logger::shutdown *)
Definition shutdown lg : Logger :=
  if negb (lg_initialized lg) then lg
  else
    let lg := set_initialized lg false in
    let lg := if lg_running lg then stop_worker lg else lg in
    let lg := clearCallbacks lg in
    close_stream lg.
End Logger.

(** ** Front ends *)

(** src/src/logger.hpp:407-448 LogStream; what is streamed is kept only when the level is enabled as the
    stream is made, and logged when it is destroyed *)
Definition log_stream (enabled_at_start : bool) (opens : string → bool) (append_pos : string → Z) (lg : Logger)
    (entry : LogEntry) (pieces : list string) : Logger :=
  if enabled_at_start then
    log opens append_pos lg (mkEntry (le_level entry) (concat_text pieces) (le_timestamp entry) (le_location entry)
      (le_thread_id entry) (le_category entry))
  else lg.

(** src/src/logger.hpp:452-467 Logger::logf; [snprintf] gives the text, and nothing is logged when it is empty *)
Definition logf (opens : string → bool) (append_pos : string → Z) (lg : Logger) (entry : LogEntry) (formatted : string) : Logger :=
  if negb (isEnabled lg (le_level entry)) then lg
  else if decide (formatted = "") then lg
  else log opens append_pos lg (mkEntry (le_level entry) formatted (le_timestamp entry) (le_location entry)
    (le_thread_id entry) (le_category entry)).

(** src/src/logger.hpp:643-652 LOG_ONCE; the flag and whether the message is logged *)
Definition log_once (logged : bool) : bool * bool := (true, negb logged).

(** src/src/logger.hpp:655-669 LOG_EVERY_MS: [last_log_time] is [word], this thread loaded [last] from it
    at the time [now] (nanoseconds) *)
Definition log_every_ms (word last now ms : Z) : Z * bool :=
  if decide (ms * 1000000 ≤ now - last) then
    if decide (word = last) then (now, true) else (word, false)
  else (word, false).

(** ** The public interface *)

(** src/src/engine_log.cpp:8-22 toInternalLevel *)
Definition toInternalLevel (level : PipeLogLevel) : LogLevel :=
  match level with
  | KTrace => L_Trace | KDebug => L_Debug | KInfo => L_Info | KWarning => L_Warning | KError => L_Error
  end.

(** src/src/engine_log.cpp:24-40 toPublicLevel *)
Definition toPublicLevel (level : LogLevel) : PipeLogLevel :=
  match level with
  | L_Trace => KTrace | L_Debug => KDebug | L_Info => KInfo | L_Warning => KWarning
  | L_Error | L_Fatal | L_Off => KError
  end.

(** src/src/engine_log.cpp:44-46 setEngineLogLevel *)
Definition setEngineLogLevel (lg : Logger) (level : PipeLogLevel) : Logger := setLevel lg (toInternalLevel level).

(** src/src/engine_log.cpp:48-50 engineLogLevel *)
Definition engineLogLevel (lg : Logger) : PipeLogLevel := toPublicLevel (lg_level lg).

(** src/src/engine_log.cpp:52-54 setEngineConsoleLogging *)
Definition setEngineConsoleLogging (lg : Logger) (enabled : bool) : Logger := enableConsole lg enabled.

(** src/src/engine_log.cpp:56-63 addEngineLogSink *)
Definition addEngineLogSink (lg : Logger) : Logger * Z := addCallback lg.

(** What the sink [id] was called with. *)
Definition sink_calls (lg : Logger) (id : Z) : list (PipeLogLevel * string) :=
  omap (λ c : Z * LogEntry, if decide (c.1 = id) then Some (toPublicLevel (le_level c.2), le_message c.2) else None)
    (w_calls (lg_world lg)).

(** src/src/engine_log.cpp:65-67 removeEngineLogSink *)
Definition removeEngineLogSink (lg : Logger) (id : Z) : Logger := removeCallback lg id.

(** ** The bridge to a context *)

(** src/src/context.cpp:71-87 toPipeLogLevel *)
Definition toPipeLogLevel (level : LogLevel) : PipeLogLevel :=
  match level with
  | L_Trace => KTrace | L_Debug => KDebug | L_Info => KInfo | L_Warning => KWarning
  | L_Error | L_Fatal | L_Off => KError
  end.

Section Bridge.
Context `{CppTypes}.

(** src/src/context.cpp:111-125 PipelineContext::attachEngineLogs (the callback it registers), for a context that is
    alive *)
Definition bridge_callback (now : Z) (c : PipelineContext) (entry : LogEntry) : PipelineContext :=
  Contexts.log c now (toPipeLogLevel (le_level entry)) (le_category entry) (le_message entry).

(** A memory adapter behind the bridge keeps the records it is called with, in order. *)
Lemma bridge_keeps_records now c kept entries :
  m_loggerAdapter c = Some (MemoryLoggerAdapter kept) →
  m_loggerAdapter (foldl (bridge_callback now) c entries) =
    Some (MemoryLoggerAdapter (kept ++ ((λ e, mkLogEntry (toPipeLogLevel (le_level e)) (le_category e) (le_message e) now) <$> entries))).
Proof.
  revert c kept. induction entries as [|e entries IH]; intros c kept Hc; [by rewrite app_nil_r|]. cbn [foldl fmap list_fmap].
  rewrite (IH _ (kept ++ [mkLogEntry (toPipeLogLevel (le_level e)) (le_category e) (le_message e) now])).
  - by rewrite <-app_assoc.
  - unfold bridge_callback, Contexts.log. rewrite Hc. done.
Qed.
End Bridge.
