(* ===== verification/LoggerCorrect.v ===== *)
(** * What the logger guarantees

    Every record that passes the level filter reaches a registered sink exactly once,
    whether it goes through the asynchronous ring or not; rotation keeps backups in
    order.  Where the code falls short of its comments, a lemma shows it. *)

From Stdlib Require Import Ascii.
From S2P Require Import Prelude Errors Packets MpmcQueue SpscRing Trace Contexts LogFormat Logger.
Local Open Scope string_scope.
Local Open Scope list_scope.
Local Open Scope Z_scope.

(** ** The ring between calls *)

Section Holds.
Context {T : Type}.
Implicit Types (r : Spsc T) (l : list T).

(** A ring with the items [l] in it, between calls. *)
Definition holds r l : Prop := ∃ hist t, ring_inv r hist t ∧ slots_ok r hist t ∧ l = drop (Z.to_nat t) hist.

Lemma holds_new capacity : 1 ≤ capacity ≤ 2 ^ 63 → holds (newSpsc (T := T) capacity) [].
Proof. intros Hc. destruct (start_inv (T := T) capacity Hc) as [I _ C _]. by exists [], 0. Qed.

Lemma holds_push r l x r' ok : holds r l → spsc_tryPush r x = (r', ok) → holds r' (if ok then l ++ [x] else l).
Proof.
  intros (hist & t & I & S & ->) Hp. unfold spsc_tryPush in Hp. pose proof (ri_window _ _ _ I) as Hw.
  assert (consumer_ok r hist t CIdle) as C by exact S.
  case_decide as Hf; injection Hp as <- <-; [by exists hist, t|].
  destruct (producer_keeps r hist t (PHead x (sp_head r)) CIdle x r (PRoom x (sp_head r) (next_index r (sp_head r))) None I (ri_head _ _ _ I) C)
    as (I1 & P1 & C1 & _); [simpl; by rewrite decide_False|]. simpl in I1, P1, C1. rewrite app_nil_r in *.
  destruct (producer_keeps r hist t (PRoom x (sp_head r) (next_index r (sp_head r))) CIdle x _ _ None I1 P1 C1 eq_refl) as (I2 & P2 & C2 & _). simpl in I2, P2, C2. rewrite app_nil_r in *.
  destruct (producer_keeps _ hist t (PWritten x (next_index r (sp_head r))) CIdle x _ _ (Some (APushed x)) I2 P2 C2 eq_refl) as (I3 & _ & C3 & _). simpl in I3, C3.
  exists (hist ++ [x]), t. split_and!; [done|done|]. rewrite drop_app_le by lia. done.
Qed.

Lemma holds_pop r l : holds r l →
  match l with
  | [] => spsc_tryPop r = (r, None)
  | x :: l' => ∃ r', spsc_tryPop r = (r', Some (Some x)) ∧ holds r' l' ∧ sp_capacity r' = sp_capacity r
  end.
Proof.
  intros (hist & t & I & S & ->). unfold spsc_tryPop. pose proof (ri_window _ _ _ I) as Hw. rewrite (ri_tail _ _ _ I).
  assert (consumer_ok r hist t (CTail (t `mod` sp_capacity r))) as C by (by split).
  destruct (decide (t = Z.of_nat (length hist))) as [Ht|Ht].
  - rewrite decide_True by (by apply (empty_spec r hist t I)). by rewrite drop_ge by lia.
  - rewrite decide_False by (by rewrite (empty_spec r hist t I)).
    destruct (lookup_lt_is_Some_2 hist (Z.to_nat t)) as [x Hx]; [lia|]. rewrite (drop_S _ x) by done.
    destruct (consumer_keeps r hist t PIdle _ r (CFound (t `mod` sp_capacity r)) None I Logic.I C) as (I1 & _ & C1 & _).
    { simpl. by rewrite decide_False by (by rewrite (empty_spec r hist t I)). }
    simpl in I1, C1. rewrite Z.add_0_r in *.
    destruct (consumer_keeps r hist t PIdle (CFound (t `mod` sp_capacity r)) _ _ None I1 Logic.I C1 eq_refl) as (I2 & _ & C2 & _). cbn [received option_list omap list_omap length] in I2, C2. rewrite Z.add_0_r in *.
    assert (mjoin (sp_buffer r !! Z.to_nat (t `mod` sp_capacity r)) = Some x) as Hb by (by rewrite (S t x) by (done || lia)).
    destruct (consumer_keeps _ hist t PIdle (CTaken (t `mod` sp_capacity r) _) _ _ (Some (APopped _)) I2 Logic.I C2 eq_refl) as (I3 & _ & C3 & _).
    rewrite Hb. eexists. split; [done|]. split; [|done]. exists hist, (t + 1).
    split_and!; [exact I3|exact C3|]. f_equal. lia.
Qed.

Lemma holds_length r l : holds r l → (length l < Z.to_nat (sp_capacity r))%nat.
Proof. intros (hist & t & I & _ & ->). pose proof (ri_window _ _ _ I). pose proof (inv_cap _ _ _ I). rewrite length_drop. lia. Qed.
End Holds.

(** ** Where records are *)

Section Flow.
Context (opens : string → bool) (append_pos : string → Z) (id : Z).
Implicit Types (lg : Logger) (e : LogEntry) (l logged accepted : list LogEntry).
Notation processEntry := (processEntry opens append_pos).
Notation worker_step := (worker_step opens append_pos).

(** The records the sink [id] was called with. *)
Definition delivered lg : list LogEntry := omap (λ c : Z * LogEntry, if decide (c.1 = id) then Some c.2 else None) (w_calls (lg_world lg)).

(** The records the worker has taken off the ring. *)
Definition hands lg : list LogEntry := match lg_worker lg with Some (WBatch b) | Some (WProcess b) => b | _ => [] end.

(** What writing to the console or the file leaves alone. *)
Definition core lg := (lg_ring lg, lg_worker lg, lg_running lg, lg_async lg, lg_callbacks lg, lg_config lg, lg_initialized lg,
  w_calls (lg_world lg)).

Lemma open_core lg path : core (open_append opens append_pos lg path) = core lg.
Proof. unfold open_append. by case_match. Qed.

Lemma rotate_core lg : core (rotateFile opens append_pos lg) = core lg.
Proof. unfold rotateFile. repeat case_match; try done; by rewrite open_core. Qed.

Lemma console_core lg e : core (writeConsole lg e) = core lg.
Proof. unfold writeConsole. by case_match. Qed.

Lemma file_core lg e : core (writeFile opens append_pos lg e) = core lg.
Proof.
  unfold writeFile. destruct (lg_stream lg); [|done]. rewrite <-(rotate_core lg). by destruct (lg_stream (rotateFile _ _ lg)).
Qed.

Lemma process_core lg e : core (processEntry lg e) =
  (lg_ring lg, lg_worker lg, lg_running lg, lg_async lg, lg_callbacks lg, lg_config lg, lg_initialized lg,
   w_calls (lg_world lg) ++ ((λ i, (i, e)) <$> lg_callbacks lg)).
Proof.
  unfold Logger.processEntry. set (a := if lg_console lg then _ else _). set (b := if lg_file a then _ else _).
  assert (core b = core lg) as Hb.
  { unfold b, a. destruct (lg_console lg); case_match; by rewrite ?file_core, ?console_core. }
  unfold core, call_all in *. simpl. injection Hb as -> -> -> -> -> -> -> ->. done.
Qed.

(** Its parts. *)
Lemma process_keeps lg e : let lg' := processEntry lg e in
  lg_ring lg' = lg_ring lg ∧ lg_worker lg' = lg_worker lg ∧ lg_running lg' = lg_running lg ∧ lg_async lg' = lg_async lg ∧
  lg_callbacks lg' = lg_callbacks lg ∧ lg_config lg' = lg_config lg ∧ lg_initialized lg' = lg_initialized lg.
Proof.
  intros lg'. pose proof (process_core lg e) as Hc. split_and!.
  - exact (f_equal (λ t, t.1.1.1.1.1.1.1) Hc).
  - exact (f_equal (λ t, t.1.1.1.1.1.1.2) Hc).
  - exact (f_equal (λ t, t.1.1.1.1.1.2) Hc).
  - exact (f_equal (λ t, t.1.1.1.1.2) Hc).
  - exact (f_equal (λ t, t.1.1.1.2) Hc).
  - exact (f_equal (λ t, t.1.1.2) Hc).
  - exact (f_equal (λ t, t.1.2) Hc).
Qed.

(** One sink among the callbacks. *)
Definition registered lg : Prop := omap (λ i, if decide (i = id) then Some () else None) (lg_callbacks lg) = [()].

Lemma delivered_call (cbs : list Z) e calls : omap (λ i, if decide (i = id) then Some () else None) cbs = [()] →
  omap (λ c : Z * LogEntry, if decide (c.1 = id) then Some c.2 else None) (calls ++ ((λ i, (i, e)) <$> cbs)) =
  omap (λ c : Z * LogEntry, if decide (c.1 = id) then Some c.2 else None) calls ++ [e].
Proof.
  intros Hr. rewrite omap_app. f_equal.
  assert (∀ us, omap (λ i, if decide (i = id) then Some () else None) cbs = us →
    omap (λ c : Z * LogEntry, if decide (c.1 = id) then Some c.2 else None) ((λ i, (i, e)) <$> cbs) = (λ _, e) <$> us) as Hm.
  { clear Hr. induction cbs as [|i cbs IH]; intros us <-; [done|]. simpl. case_decide; simpl; [f_equal|]; by apply IH. }
  by rewrite (Hm _ Hr).
Qed.

Lemma delivered_process lg e : registered lg → delivered (processEntry lg e) = delivered lg ++ [e].
Proof.
  intros Hr. pose proof (f_equal (λ t, t.2) (process_core lg e)) as Hcalls. cbn [core snd] in Hcalls.
  unfold delivered. rewrite Hcalls. by apply delivered_call.
Qed.

(** *** Invariant *)

(** The thread: not there, or running with the records [l] in its ring. *)
Inductive thread_ok lg l : Prop :=
  | no_thread : lg_running lg = false → lg_ring lg = None → lg_worker lg = None → l = [] → thread_ok lg l
  | with_thread r w : lg_running lg = true → lg_ring lg = Some r → holds r l → lg_worker lg = Some w →
      w ≠ WDrain → w ≠ WDone → (length (hands lg) ≤ 64)%nat → thread_ok lg l.

(** Every accepted record is delivered, in the worker's hands or in the ring, in order; every record
    that was logged is somewhere, once. *)
Record accounted lg l logged accepted : Prop := {
  ac_registered : registered lg;
  ac_perm : delivered lg ++ hands lg ++ l ≡ₚ logged;
  ac_order : ∃ done, accepted = done ++ hands lg ++ l ∧ sublist done (delivered lg);
}.

Definition size_ok (c : LoggerConfig) : Prop := 1 ≤ lc_async_queue_size c ≤ 2 ^ 63.

Definition flow_ok lg logged accepted : Prop :=
  ∃ l, thread_ok lg l ∧ accounted lg l logged accepted ∧ size_ok (lg_config lg).

(** Writing a record that was not put on the ring. *)
Lemma process_direct lg l logged accepted e :
  accounted lg l logged accepted → accounted (processEntry lg e) l (logged ++ [e]) accepted.
Proof.
  intros [R P (done & Ha & Hs)]. destruct (process_keeps lg e) as (_ & Hw & _ & _ & Hcb & _).
  assert (hands (processEntry lg e) = hands lg) as Hh by (unfold hands; by rewrite Hw).
  split.
  - unfold registered. by rewrite Hcb.
  - rewrite delivered_process, Hh by done. rewrite <-P. by rewrite <-(assoc_L (++)), (Permutation_app_comm [e]), (assoc_L (++)).
  - exists done. rewrite Hh, delivered_process by done. split; [done|]. by apply sublist_inserts_r.
Qed.

(** The worker writes the first of the records in its hands, or the first of the ring. *)
Lemma process_next lg lg' e l l' logged accepted :
  accounted lg l logged accepted → hands lg ++ l = e :: hands lg' ++ l' →
  lg_callbacks lg' = lg_callbacks lg → delivered lg' = delivered lg ++ [e] → accounted lg' l' logged accepted.
Proof.
  intros [R P (done & Ha & Hs)] Heq Hcb Hd. split.
  - unfold registered. by rewrite Hcb.
  - rewrite <-P, Hd, Heq, <-(assoc_L (++)). done.
  - exists (done ++ [e]). rewrite Ha, Heq, Hd, <-(assoc_L (++)). split; [done|]. by apply sublist_app.
Qed.

(** A step that moves records without writing any. *)
Lemma accounted_move lg lg' l l' logged accepted :
  accounted lg l logged accepted → hands lg' ++ l' = hands lg ++ l → lg_callbacks lg' = lg_callbacks lg →
  w_calls (lg_world lg') = w_calls (lg_world lg) → accounted lg' l' logged accepted.
Proof.
  intros [R P (done & Ha & Hs)] Heq Hcb Hcalls. assert (delivered lg' = delivered lg) as Hd by (unfold delivered; by rewrite Hcalls).
  split; [unfold registered; by rewrite Hcb|by rewrite Hd, Heq|]. exists done. by rewrite Heq, Hd.
Qed.

(** *** Logging *)

(** What a call of [log] adds to what was logged, and to what the ring accepted. *)
Definition logs lg e : list LogEntry := if isEnabled lg (le_level e) then [e] else [].
Definition accepts lg e : list LogEntry :=
  if isEnabled lg (le_level e) && lg_async lg then
    match lg_ring lg with Some r => if (spsc_tryPush r e).2 then [e] else [] | None => [] end
  else [].

Lemma flow_process lg logged accepted e : flow_ok lg logged accepted → flow_ok (processEntry lg e) (logged ++ [e]) accepted.
Proof.
  intros (l & Th & A & Sz). destruct (process_keeps lg e) as (Hr & Hw & Hrun & _ & _ & Hcfg & _). exists l.
  split_and!; [|by apply process_direct|by rewrite Hcfg].
  assert (hands (processEntry lg e) = hands lg) as Hh by (unfold hands; by rewrite Hw).
  destruct Th as [? ? ? ?|r w ? ? ? ? ? ? ?]; [apply no_thread|apply (with_thread _ _ r w)];
    rewrite ?Hr, ?Hw, ?Hrun, ?Hh; done.
Qed.

Lemma flow_log lg logged accepted e :
  flow_ok lg logged accepted → flow_ok (log opens append_pos lg e) (logged ++ logs lg e) (accepted ++ accepts lg e).
Proof.
  intros F. unfold log, logs, accepts. destruct (isEnabled lg (le_level e)); simpl; [|by rewrite !app_nil_r].
  destruct (lg_async lg); [|rewrite app_nil_r; by apply flow_process].
  destruct (lg_ring lg) as [r|] eqn:Hring; [|rewrite app_nil_r; by apply flow_process].
  destruct (spsc_tryPush r e) as [r' ok] eqn:Hpush. destruct ok; simpl; [|rewrite app_nil_r; by apply flow_process].
  destruct F as (l & Th & [R P (done & Ha & Hs)] & Sz). destruct Th as [? Hn|r0 w Hrun Hr Hh Hw ? ? Hlen]; [congruence|].
  rewrite Hring in Hr. injection Hr as <-. exists (l ++ [e]). split_and!; [|split|done].
  - apply (with_thread _ _ r' w); try done. exact (holds_push _ _ _ _ true Hh Hpush).
  - done.
  - rewrite <-P. by rewrite !(assoc_L (++)).
  - exists done. rewrite Ha, !(assoc_L (++)). done.
Qed.

(** *** The worker *)

Lemma pop_some lg r e l : lg_ring lg = Some r → holds r (e :: l) →
  ∃ r', pop_entry lg = Some (set_thread lg (Some r') (lg_worker lg) (lg_running lg), e) ∧ holds r' l ∧ sp_capacity r' = sp_capacity r.
Proof.
  intros Hr Hh. destruct (holds_pop r (e :: l) Hh) as (r' & Hp & Hh' & Hc). exists r'. unfold pop_entry. rewrite Hr. simpl. by rewrite Hp.
Qed.

Lemma pop_none lg r : lg_ring lg = Some r → holds r [] → pop_entry lg = None.
Proof. intros Hr Hh. unfold pop_entry. rewrite Hr. simpl. by rewrite (holds_pop r [] Hh). Qed.

(** A worker that may be told to stop. *)
Record working lg l logged accepted : Prop := {
  wk_ring : ∃ r, lg_ring lg = Some r ∧ holds r l;
  wk_worker : ∃ w, lg_worker lg = Some w ∧ (w = WDone → l = []);
  wk_hands : (length (hands lg) ≤ 64)%nat;
  wk_accounted : accounted lg l logged accepted;
}.

(** How many steps it takes at most to end, once it was told to. *)
Definition steps_left lg l : nat :=
  match lg_worker lg with
  | Some WTop => 2 * length l + 2
  | Some (WBatch b) => 2 * length l + length b + 4
  | Some (WProcess b) => 2 * length l + length b + 3
  | Some WDrain => 2 * length l + 1
  | Some WDone | None => 0
  end.

Lemma worker_step_works lg l logged accepted : working lg l logged accepted →
  ∃ l', working (worker_step lg) l' logged accepted ∧ lg_running (worker_step lg) = lg_running lg ∧
    lg_config (worker_step lg) = lg_config lg ∧ lg_async (worker_step lg) = lg_async lg ∧
    lg_initialized (worker_step lg) = lg_initialized lg ∧
    (sp_capacity <$> lg_ring (worker_step lg)) = (sp_capacity <$> lg_ring lg) ∧
    (lg_running lg = true → lg_worker lg ≠ Some WDrain → lg_worker lg ≠ Some WDone →
       lg_worker (worker_step lg) ≠ Some WDrain ∧ lg_worker (worker_step lg) ≠ Some WDone) ∧
    (lg_running lg = false → steps_left (worker_step lg) l' ≤ steps_left lg l - 1)%nat.
Proof.
  intros [(r & Hr & Hh) (w & Hw & Hdone) Hhands A]. unfold worker_step. rewrite Hw.
  assert (∀ w', hands (set_worker lg w') = match w' with WBatch b | WProcess b => b | _ => [] end) as Hset by done.
  unfold hands in Hhands. rewrite Hw in Hhands. unfold steps_left. rewrite Hw. destruct w as [|b|b| |].
  - exists l. split_and!; try done; [|by intros Hrun; rewrite Hrun|intros ->; simpl; lia].
    split; [by exists r|by destruct (lg_running lg); eexists|by destruct (lg_running lg); simpl; lia|].
    eapply accounted_move; [exact A| |done|done]. destruct (lg_running lg); unfold hands; by rewrite Hw.
  - case_decide as Hb; [destruct l as [|e l]|].
    + rewrite (pop_none lg r Hr Hh). exists []. split_and!; try done; [|intros _; simpl; lia]. split; [by exists r|by eexists|done|].
      eapply accounted_move; [exact A| |done|done]. unfold hands. by rewrite Hw.
    + destruct (pop_some lg r e l Hr Hh) as (r' & -> & Hh' & Hcap). exists l. split_and!; try done.
      * split; [by exists r'|by eexists|unfold hands; simpl; rewrite length_app; simpl; lia|].
        eapply accounted_move; [exact A| |done|done]. unfold hands. rewrite Hw. simpl. by rewrite <-(assoc_L (++)).
      * rewrite Hr. simpl. by rewrite Hcap.
      * intros _. simpl. rewrite length_app. simpl. lia.
    + exists l. split_and!; try done; [|intros _; simpl; lia]. split; [by exists r|by eexists|done|].
      eapply accounted_move; [exact A| |done|done]. unfold hands. by rewrite Hw.
  - destruct b as [|e b].
    + exists l. split_and!; try done; [|intros _; simpl; lia]. split; [by exists r|by eexists|simpl; lia|].
      eapply accounted_move; [exact A| |done|done]. unfold hands. by rewrite Hw.
    + destruct (process_keeps lg e) as (Kr & Kw & Krun & Kas & Kcb & Kcf & Kin). exists l.
      pose proof (delivered_process lg e (ac_registered _ _ _ _ A)) as Kd. set (lg1 := processEntry lg e) in *. clearbody lg1.
      cbn [set_worker set_thread lg_ring lg_worker lg_running lg_config lg_async lg_initialized].
      rewrite Kr, Krun, Kas, Kcf, Kin. split_and!; try done; [|intros _; simpl; lia].
      split; [exists r; by rewrite <-Kr in Hr|by eexists|unfold hands; simpl in *; lia|].
      eapply process_next; [exact A| |exact Kcb|exact Kd]. unfold hands. by rewrite Hw.
  - destruct l as [|e l].
    + rewrite (pop_none lg r Hr Hh). exists []. split_and!; try done. split; [by exists r|by eexists|simpl; lia|].
      eapply accounted_move; [exact A| |done|done]. unfold hands. by rewrite Hw.
    + destruct (pop_some lg r e l Hr Hh) as (r' & -> & Hh' & Hcap). set (lg1 := set_thread lg (Some r') (lg_worker lg) (lg_running lg)).
      destruct (process_keeps lg1 e) as (Kr & Kw & Krun & Kas & Kcb & Kcf & Kin). exists l.
      rewrite Kr, Kw, Krun, Kas, Kcf, Kin. assert (lg_worker lg1 = Some WDrain) as Hw1 by done. rewrite Hw1.
      split_and!; try done; [|rewrite Hr; simpl; by rewrite Hcap|intros _; simpl; lia].
      split; [by exists r'|exists WDrain; by rewrite Kw|unfold hands; rewrite Kw, Hw1; simpl; lia|].
      assert (registered lg1) as Hreg by exact (ac_registered _ _ _ _ A).
      eapply process_next; [exact A| |exact Kcb|exact (delivered_process lg1 e Hreg)].
      unfold hands. by rewrite Kw, Hw1, Hw.
  - exists l. split_and!; try done; [|intros _; rewrite Hw; done]. split; [by exists r|by exists WDone|unfold hands; by rewrite Hw|done].
Qed.

(** A running worker's step keeps the invariant. *)
Lemma flow_work lg logged accepted : flow_ok lg logged accepted → flow_ok (worker_step lg) logged accepted.
Proof.
  intros (l & [Hrun Hr Hw ->|r w Hrun Hr Hh Hw Hd Hx Hlen] & A & Sz).
  - exists []. unfold worker_step. rewrite Hw. split_and!; [by apply no_thread|done|done].
  - destruct (worker_step_works lg l logged accepted) as (l' & [(r' & Hr' & Hh') (w' & Hw' & _) Hlen' A'] & Krun & Kcf & _ & _ & _ & Kw & _);
      [split; [by exists r|by exists w|done|done]|].
    destruct Kw as [Kd Kx]; [done|congruence|congruence|].
    exists l'. split_and!; [|done|by rewrite Kcf]. apply (with_thread _ _ r' w'); try done; congruence.
Qed.

(** *** Stopping *)

(** Once told to stop, the worker ends, having written all it had. *)
Lemma join_ends n lg l logged accepted : working lg l logged accepted → lg_running lg = false → (steps_left lg l ≤ n)%nat →
  let lg' := Nat.iter n worker_step lg in
  working lg' [] logged accepted ∧ hands lg' = [] ∧ lg_config lg' = lg_config lg ∧ lg_running lg' = false ∧
  lg_initialized lg' = lg_initialized lg.
Proof.
  revert lg l. induction n as [|n IH]; intros lg l W Hrun Hs.
  - simpl. destruct W as [? (w & Hw & Hd) ? ?]. unfold steps_left in Hs. rewrite Hw in Hs. destruct w; try lia.
    rewrite (Hd eq_refl) in *. split_and!; try done; [split; [done|by exists WDone|done|done]|unfold hands; by rewrite Hw].
  - destruct (worker_step_works lg l logged accepted W) as (l' & W' & Krun & Kcf & _ & Kin & _ & _ & Hdec).
    cbv zeta. rewrite Nat.iter_succ_r. specialize (Hdec Hrun). rewrite <-Kcf, <-Kin. apply (IH _ l' W'); [by rewrite Krun|lia].
Qed.

Lemma stop_flow lg l logged accepted :
  thread_ok lg l → accounted lg l logged accepted → lg_running lg = true →
  let lg' := stop_worker opens append_pos lg in
  thread_ok lg' [] ∧ accounted lg' [] logged accepted ∧ lg_running lg' = false ∧ lg_config lg' = lg_config lg ∧
  lg_initialized lg' = lg_initialized lg.
Proof.
  intros [Hn|r w Hrun Hr Hh Hw Hd Hx Hlen] A Hr1; [congruence|]. unfold stop_worker.
  set (lg1 := set_thread lg (lg_ring lg) (lg_worker lg) false).
  assert (working lg1 l logged accepted) as W.
  { split; [by exists r|exists w; split; [done|by intros ->]|done|]. eapply accounted_move; [exact A|done|done|done]. }
  assert (steps_left lg1 l ≤ join_fuel lg1)%nat as Hf.
  { unfold steps_left, join_fuel, lg1. cbn [lg_worker lg_ring set_thread]. rewrite Hw, Hr. pose proof (holds_length _ _ Hh).
    unfold hands in Hlen. rewrite Hw in Hlen. destruct w; lia. }
  destruct (join_ends (join_fuel lg1) lg1 l logged accepted W eq_refl Hf) as (W2 & Hh2 & Kcf & _ & Kin). fold (join opens append_pos lg1) in *.
  set (lg2 := join opens append_pos lg1) in *. clearbody lg2. destruct W2 as [(r2 & Hr2 & Hho) _ _ A2].
  set (lg3 := set_thread lg2 (lg_ring lg2) None false).
  assert (∀ n, drain opens append_pos n lg3 = lg3) as ->.
  { intros [|n]; [done|]. cbn [drain]. by rewrite (pop_none lg3 r2). }
  simpl. split_and!; [by apply no_thread| |done|exact Kcf|exact Kin].
  eapply accounted_move; [exact A2| |done|done]. by rewrite Hh2.
Qed.

(** *** Configuration *)

(** Settings that touch neither the records nor the thread. *)
Lemma flow_core lg lg' logged accepted : core lg' = core lg → flow_ok lg logged accepted → flow_ok lg' logged accepted.
Proof.
  intros Hc (l & Th & A & Sz). unfold core in Hc. injection Hc as Hr Hw Hrun _ Hcb Hcf _ Hcalls. exists l.
  assert (hands lg' = hands lg) as Hh by (unfold hands; by rewrite Hw).
  split_and!; [|eapply accounted_move; [exact A|by rewrite Hh|done|done]|by rewrite Hcf].
  destruct Th as [? ? ? ?|r w ? ? ? ? ? ? ?]; [apply no_thread|apply (with_thread _ _ r w)]; rewrite ?Hr, ?Hw, ?Hrun, ?Hh; done.
Qed.

Lemma flow_config lg c logged accepted : size_ok c → flow_ok lg logged accepted → flow_ok (set_config lg c) logged accepted.
Proof.
  intros Hc (l & Th & A & _). exists l. split_and!; [|eapply accounted_move; [exact A|done|done|done]|done].
  destruct Th as [? ? ? ?|r w ? ? ? ? ? ? ?]; [by apply no_thread|by apply (with_thread _ _ r w)].
Qed.

Lemma flow_configure lg c logged accepted :
  size_ok c → flow_ok lg logged accepted → flow_ok (configure opens append_pos lg c) logged accepted.
Proof.
  intros Hc F. unfold configure. set (lg0 := set_flags lg _ _ _ _ _).
  assert (flow_ok (set_config lg0 c) logged accepted) as F1 by (apply flow_config; [done|by apply (flow_core lg)]).
  cbv zeta. set (lg1 := set_config lg0 c) in *. set (lg2 := if _ || _ then _ else lg1).
  assert (core lg2 = core lg1) as H2.
  { unfold lg2. destruct (_ || _); [|done]. destruct (lc_file_enabled c); [|done]. unfold open_append. by case_match. }
  assert (flow_ok lg2 logged accepted) as F2 by (by apply (flow_core lg1)).
  assert (∀ lg' b, flow_ok lg' logged accepted → flow_ok (set_async lg' b) logged accepted) as Hset.
  { intros lg' b (l & Th & A & Sz). exists l. split_and!; [|eapply accounted_move; [exact A|done|done|done]|done].
    destruct Th as [? ? ? ?|r w ? ? ? ? ? ? ?]; [by apply no_thread|by apply (with_thread _ _ r w)]. }
  clearbody lg2. destruct (bool_decide _); [|done]. apply Hset. clear Hset.
  destruct F2 as (l & Th & A & Sz). assert (lg_config lg2 = c) as Hcfg by exact (f_equal (λ t, t.1.1.2) H2).
  destruct (lg_running lg2) eqn:Hrun; destruct (lc_async_enabled c); cbn [negb andb].
  - by exists l.
  - destruct (stop_flow lg2 l logged accepted Th A Hrun) as (Th' & A' & _ & Kcf & _). exists []. by rewrite Kcf.
  - destruct Th as [_ Hr Hw ->|]; [|congruence]. exists []. split_and!; [|eapply accounted_move; [exact A| |done|done]|done].
    + apply (with_thread _ _ (newSpsc (lc_async_queue_size c)) WTop); try done; [by apply holds_new|simpl; lia].
    + unfold hands. simpl. by rewrite Hw.
  - by exists l.
Qed.

(** *** Sequences of calls *)

(** What the logging thread does, and the worker in between. *)
Inductive Op :=
  | OLog (e : LogEntry)
  | OWork
  | OLevel (level : LogLevel)
  | OConsole (b : bool)
  | OColor (b : bool)
  | OJson (b : bool)
  | OFile (b : bool)
  | OConfigure (c : LoggerConfig)
  | OAsync (b : bool)
  | OPath (path : string).

Definition run_op lg (op : Op) : Logger :=
  match op with
  | OLog e => log opens append_pos lg e
  | OWork => worker_step lg
  | OLevel level => setLevel lg level
  | OConsole b => enableConsole lg b
  | OColor b => enableColor lg b
  | OJson b => enableJson lg b
  | OFile b => enableFile opens append_pos lg b
  | OConfigure c => configure opens append_pos lg c
  | OAsync b => enableAsync opens append_pos lg b
  | OPath path => setFilePath opens append_pos lg path
  end.

Definition op_ok (op : Op) : Prop := match op with OConfigure c => size_ok c | _ => True end.

(** The state, and what was logged and accepted by the ring, after a sequence of operations. *)
Definition op_step (acc : Logger * list LogEntry * list LogEntry) (op : Op) : Logger * list LogEntry * list LogEntry :=
  let '(lg, logged, accepted) := acc in
  match op with
  | OLog e => (run_op lg op, logged ++ logs lg e, accepted ++ accepts lg e)
  | _ => (run_op lg op, logged, accepted)
  end.

Lemma flow_step lg logged accepted op : op_ok op → flow_ok lg logged accepted →
  let '(lg', logged', accepted') := op_step (lg, logged, accepted) op in flow_ok lg' logged' accepted'.
Proof.
  intros Hop F. destruct op as [e| |level|b|b|b|b|c|b|path]; simpl.
  - by apply flow_log.
  - by apply flow_work.
  - by apply (flow_core lg).
  - by apply (flow_core lg).
  - by apply (flow_core lg).
  - by apply (flow_core lg).
  - apply (flow_core lg); [|done]. unfold enableFile, open_append. repeat case_match; done.
  - by apply flow_configure.
  - apply flow_configure; [|done]. destruct F as (? & _ & _ & Sz). exact Sz.
  - unfold setFilePath. case_decide; [done|]. set (lg1 := close_stream _).
    assert (flow_ok lg1 logged accepted) as F1.
    { apply (flow_core (set_config lg (set_path (lg_config lg) path))); [done|]. apply flow_config; [|done].
      destruct F as (? & _ & _ & Sz). exact Sz. }
    destruct (lg_file lg1); [|done]. apply (flow_core lg1); [|done]. apply open_core.
Qed.

Lemma flow_steps ops lg logged accepted : Forall op_ok ops → flow_ok lg logged accepted →
  let '(lg', logged', accepted') := foldl op_step (lg, logged, accepted) ops in flow_ok lg' logged' accepted'.
Proof.
  revert lg logged accepted. induction ops as [|op ops IH]; intros lg logged accepted Hops F; [done|].
  apply Forall_cons in Hops as [Hop Hops]. cbn [foldl]. pose proof (flow_step lg logged accepted op Hop F) as F'.
  destruct (op_step (lg, logged, accepted) op) as [[lg' logged'] accepted']. by apply IH.
Qed.

(** No operation ends the logger. *)
Lemma process_init lg e : lg_initialized (processEntry lg e) = lg_initialized lg.
Proof. apply process_keeps. Qed.

Lemma pop_init lg lg' e : pop_entry lg = Some (lg', e) → lg_initialized lg' = lg_initialized lg.
Proof. unfold pop_entry. destruct (lg_ring lg); simpl; [|done]. repeat case_match; intros; by simplify_eq. Qed.

Lemma worker_init lg : lg_initialized (worker_step lg) = lg_initialized lg.
Proof.
  unfold worker_step. destruct (lg_worker lg) as [[|b|b| |]|]; try done.
  - case_decide; [|done]. destruct (pop_entry lg) as [[lg' e]|] eqn:Hp; [|done]. exact (pop_init _ _ _ Hp).
  - destruct b as [|e b]; [done|]. exact (process_init lg e).
  - destruct (pop_entry lg) as [[lg' e]|] eqn:Hp; [|done]. rewrite process_init. exact (pop_init _ _ _ Hp).
Qed.

Lemma drain_init n lg : lg_initialized (drain opens append_pos n lg) = lg_initialized lg.
Proof.
  revert lg. induction n as [|n IH]; intros lg; [done|]. simpl. destruct (pop_entry lg) as [[lg' e]|] eqn:Hp; [|done].
  by rewrite IH, process_init, (pop_init _ _ _ Hp).
Qed.

Lemma stop_init lg : lg_initialized (stop_worker opens append_pos lg) = lg_initialized lg.
Proof.
  unfold stop_worker. cbn [lg_initialized set_thread]. rewrite drain_init. cbn [lg_initialized set_thread]. unfold join.
  set (lg1 := set_thread _ _ _ false). change (lg_initialized lg) with (lg_initialized lg1).
  generalize (join_fuel lg1). intros n. induction n as [|n IH]; [done|]. simpl. by rewrite worker_init.
Qed.

Lemma configure_init lg c : lg_initialized (configure opens append_pos lg c) = lg_initialized lg.
Proof.
  unfold configure. cbv zeta. set (lg1 := set_config _ c). set (lg2 := if _ || _ then _ else lg1).
  assert (lg_initialized lg2 = lg_initialized lg) as <-.
  { unfold lg2. destruct (_ || _); [|done]. destruct (lc_file_enabled c); [|done]. unfold open_append. by case_match. }
  clearbody lg2. destruct (bool_decide _); [|done]. cbn [lg_initialized set_async].
  destruct (_ && _); [done|]. destruct (_ && _); [apply stop_init|done].
Qed.

Lemma op_init lg logged accepted op : lg_initialized (op_step (lg, logged, accepted) op).1.1 = lg_initialized lg.
Proof.
  destruct op as [e| |level|b|b|b|b|c|b|path]; simpl; try done.
  - unfold log. repeat case_match; try done; apply process_init.
  - apply worker_init.
  - unfold enableFile, open_append. repeat case_match; done.
  - apply configure_init.
  - apply configure_init.
  - unfold setFilePath, open_append. repeat case_match; done.
Qed.

Lemma ops_init ops acc : lg_initialized (foldl op_step acc ops).1.1 = lg_initialized acc.1.1.
Proof.
  revert acc. induction ops as [|op ops IH]; intros [[lg logged] accepted]; [done|]. cbn [foldl]. by rewrite IH, op_init.
Qed.

(** After a shutdown everything is written. *)
Lemma shutdown_flow lg logged accepted : flow_ok lg logged accepted → lg_initialized lg = true →
  delivered (shutdown opens append_pos lg) ≡ₚ logged ∧ sublist accepted (delivered (shutdown opens append_pos lg)).
Proof.
  intros (l & Th & A & _) Hi. unfold shutdown. rewrite Hi. cbn [negb]. set (lg1 := set_initialized lg false).
  assert (thread_ok lg1 l) as Th1 by (destruct Th as [? ? ? ?|r w ? ? ? ? ? ? ?]; [by apply no_thread|by apply (with_thread _ _ r w)]).
  assert (accounted lg1 l logged accepted) as A1 by (eapply accounted_move; [exact A|done|done|done]).
  assert (∃ lg2, (if lg_running lg1 then stop_worker opens append_pos lg1 else lg1) = lg2 ∧ thread_ok lg2 [] ∧ lg_running lg2 = false ∧ accounted lg2 [] logged accepted)
    as (lg2 & -> & Th2 & Hrun2 & [_ P (done & Ha & Hs)]).
  { destruct (lg_running lg1) eqn:Hrun.
    - destruct (stop_flow lg1 l logged accepted Th1 A1 Hrun) as (? & ? & ? & _). eauto.
    - destruct Th1 as [? ? ? ->|]; [|congruence]. eexists. split_and!; [done|by apply no_thread|done|done]. }
  assert (hands lg2 = []) as Hh by (destruct Th2 as [_ _ Hw _|r w ? ? ? ? ? ? ?]; [unfold hands; by rewrite Hw|congruence]).
  change (delivered (close_stream (clearCallbacks lg2))) with (delivered lg2). rewrite Hh in *. simpl in *. rewrite !app_nil_r in *.
  by subst.
Qed.
End Flow.

(** ** Rotation *)

Section Rotation.
Implicit Types (files : gmap string string) (path : string).

Lemma backup_inj path i j : 0 ≤ i → 0 ≤ j → backup_name path i = backup_name path j → i = j.
Proof.
  assert (∀ a b c : string, a +:+ b = a +:+ c → b = c) as Hcancel.
  { intros a. induction a as [|x a IH]; intros b c Heq; [done|]. apply IH. by injection Heq. }
  assert (∀ a b : string, a +:+ b = a → b = "") as Hnil.
  { intros a b Heq. apply (Hcancel a). by rewrite append_nil_r. }
  intros Hi Hj. unfold backup_name. repeat case_decide; intros Heq.
  - apply Hcancel, Hcancel in Heq. by apply (inj pretty) in Heq.
  - by apply Hnil in Heq.
  - symmetry in Heq. by apply Hnil in Heq.
  - lia.
Qed.

Lemma backup_next path (i : nat) : path +:+ "." +:+ pretty (Z.of_nat i + 1) = backup_name path (Z.of_nat (S i)).
Proof. unfold backup_name. rewrite decide_True by lia. by replace (Z.of_nat (S i)) with (Z.of_nat i + 1) by lia. Qed.

(** One renaming. *)
Lemma rename_spec files a b : a ≠ b → files !! b = None →
  let files' := match files !! a with Some _ => fs_rename files a b | None => files end in
  files' !! b = files !! a ∧ files' !! a = None ∧ ∀ c, c ≠ a → c ≠ b → files' !! c = files !! c.
Proof.
  intros Hne Hb. destruct (files !! a) as [x|] eqn:Ha; simpl; [|done]. unfold fs_rename. rewrite Ha.
  split_and!; [by rewrite lookup_insert_eq| |].
  - by rewrite lookup_insert_ne, lookup_delete_eq by done.
  - intros c ? ?. by rewrite lookup_insert_ne, lookup_delete_ne by done.
Qed.

(** Below the last backup the loop moves every file one up. *)
Lemma rotate_shifts path n i files : (S i < n)%nat → files !! backup_name path (Z.of_nat (S i)) = None →
  let files' := rotate_loop path (Z.of_nat n) i files in
  files' !! path = None ∧
  (∀ j, (j ≤ i)%nat → files' !! backup_name path (Z.of_nat (S j)) = files !! backup_name path (Z.of_nat j)) ∧
  (∀ name, (∀ j, (j ≤ S i)%nat → name ≠ backup_name path (Z.of_nat j)) → files' !! name = files !! name).
Proof.
  revert files. induction i as [|i IH]; intros files Hi Hfree; cbn [rotate_loop]; rewrite backup_next, decide_False by lia;
    match goal with |- context [match files !! ?a with Some _ => fs_rename files ?a ?b | None => files end] =>
      destruct (rename_spec files a b) as (H1 & H2 & H3); [by intros ?%backup_inj; lia|done|];
      set (files1 := match files !! a with Some _ => fs_rename files a b | None => files end) in * end; clearbody files1.
  - split_and!; [done| |].
    + intros j Hj. by replace j with 0%nat by lia.
    + intros name Hn. apply H3; [exact (Hn 0%nat ltac:(lia))|exact (Hn 1%nat ltac:(lia))].
  - destruct (IH files1 ltac:(lia) H2) as (I1 & I2 & I3). split_and!; [done| |].
    + intros j Hj. destruct (decide (j = S i)) as [->|].
      * rewrite I3; [exact H1|]. intros k Hk ?%backup_inj; lia.
      * rewrite I2 by lia. apply H3; intros ?%backup_inj; lia.
    + intros name Hn. rewrite I3 by (intros j Hj; apply Hn; lia). apply H3; apply Hn; lia.
Qed.

(** The whole loop, for two backups or more. *)
Lemma rotate_all path n files : (2 ≤ n)%nat →
  let files' := rotate_loop path (Z.of_nat n) (n - 1) files in
  files' !! path = None ∧
  (∀ j, (S j < n)%nat → files' !! backup_name path (Z.of_nat (S j)) = files !! backup_name path (Z.of_nat j)) ∧
  (∀ name, (∀ j, (j < n)%nat → name ≠ backup_name path (Z.of_nat j)) → files' !! name = files !! name).
Proof.
  intros Hn. destruct n as [|[|n]]; [lia|lia|]. replace (S (S n) - 1)%nat with (S n) by lia. cbn [rotate_loop].
  rewrite decide_True by lia. set (top := backup_name path (Z.of_nat (S n))).
  set (files1 := match files !! top with Some _ => delete top files | None => files end).
  assert (files1 !! top = None ∧ ∀ c, c ≠ top → files1 !! c = files !! c) as [Htop Hother].
  { unfold files1. destruct (files !! top) eqn:Ht; [|done]. split; [apply lookup_delete_eq|]. intros c Hc. by apply lookup_delete_ne. }
  clearbody files1. destruct (rotate_shifts path (S (S n)) n files1 ltac:(lia) Htop) as (I1 & I2 & I3). split_and!; [done| |].
  - intros j Hj. rewrite I2 by lia. apply Hother. intros ?%backup_inj; lia.
  - intros name Hname. rewrite I3 by (intros j Hj; apply Hname; lia). apply Hother, Hname. lia.
Qed.
End Rotation.

(** ** Claims *)

(** C18: no log record is lost or repeated.  Register a sink on a fresh logger and let one
    thread log and change any setting (level, outputs, file, asynchronous mode on and
    off, whole configurations with a ring of at least one slot), while the worker takes
    its steps anywhere in between.  After [shutdown] the sink was called exactly once
    with each record that passed the level filter when it was logged, and those that
    went through the ring arrived in the order in which they were logged. *)
Theorem logger_loses_nothing opens append_pos (files : gmap string string) (ops : list Op) :
  Forall op_ok ops →
  let start := (addCallback (newLogger files)).1 in
  let '(lg, logged, accepted) := foldl (op_step opens append_pos) (start, [], []) ops in
  delivered 1 (shutdown opens append_pos lg) ≡ₚ logged ∧ sublist accepted (delivered 1 (shutdown opens append_pos lg)).
Proof.
  intros Hops start. assert (flow_ok 1 start [] []) as F.
  { exists []. split_and!; [by apply no_thread| |vm_compute; split; discriminate]. split; [done|done|by exists []]. }
  pose proof (flow_steps opens append_pos 1 ops start [] [] Hops F) as F'.
  pose proof (ops_init opens append_pos ops (start, [], [])) as Hi.
  destruct (foldl (op_step opens append_pos) (start, [], []) ops) as [[lg logged] accepted]. by apply shutdown_flow.
Qed.

Definition ex_log (level : LogLevel) (message : string) : LogEntry := mkEntry level message ex_time no_location "1" "".
Definition ex_small : LoggerConfig :=
  mkLoggerConfig L_Info false false false true false false false false "a.log" 100 3 2 1000 "".
Definition ex_ops : list Op :=
  [OConfigure ex_small; OLog (ex_log L_Info "one"); OLog (ex_log L_Info "two"); OLog (ex_log L_Debug "no");
   OWork; OWork; OWork; OWork; OLog (ex_log L_Error "three")].

Lemma logger_loses_nothing_witness :
  delivered 1 (shutdown (λ _, true) (λ _, 0)
    (foldl (op_step (λ _, true) (λ _, 0)) ((addCallback (newLogger ∅)).1, [], []) ex_ops).1.1) =
    [ex_log L_Info "two"; ex_log L_Info "one"; ex_log L_Error "three"] ∧
  [ex_log L_Info "two"; ex_log L_Info "one"; ex_log L_Error "three"] ≡ₚ [ex_log L_Info "one"; ex_log L_Info "two"; ex_log L_Error "three"].
Proof.
  assert (Forall op_ok ex_ops) as Hok by (repeat constructor; vm_compute; discriminate).
  pose proof (logger_loses_nothing (λ _, true) (λ _, 0) ∅ ex_ops Hok) as Hl. split; [vm_compute; reflexivity|].
  vm_compute in Hl. destruct Hl as [Hl _]. exact Hl.
Defined.

(** Rotation keeps the newest files in order.  When the log file has reached its limit
    and at least two backups are configured, the next write starts an empty file, the
    old one becomes [.1], each [.j] below the last becomes [.(j+1)], and no other file
    changes.  (With [n] backups the numbers [.1] to [.(n-1)] are used.) *)
Theorem rotation_shifts_backups opens append_pos (lg : Logger) (st : Stream) :
  let n := lc_max_backup_count (lg_config lg) in
  let path := lc_file_path (lg_config lg) in
  lg_stream lg = Some st → 0 ≤ st_pos st → lc_max_file_size (lg_config lg) ≤ st_pos st → 2 ≤ n → opens path = true →
  let lg' := rotateFile opens append_pos lg in
  let files := w_files (lg_world lg) in
  let files' := w_files (lg_world lg') in
  lg_stream lg' = Some (mkStream path (append_pos "")) ∧ files' !! path = Some "" ∧
  files' !! (path +:+ ".1") = files !! path ∧
  (∀ j, 1 ≤ j < n - 1 → files' !! (path +:+ "." +:+ pretty (j + 1)) = files !! (path +:+ "." +:+ pretty j)) ∧
  (∀ name, name ≠ path → (∀ j, 1 ≤ j < n → name ≠ path +:+ "." +:+ pretty j) → files' !! name = files !! name).
Proof.
  intros n path Hst Hpos Hfull Hn Hopen lg' files files'. unfold files', lg', rotateFile. rewrite Hst.
  rewrite decide_False by lia. fold n path. rewrite decide_True by lia.
  destruct (rotate_all path (Z.to_nat n) files ltac:(lia)) as (R1 & R2 & R3).
  rewrite Z2Nat.id in R1, R2, R3 by lia. replace (Z.to_nat n - 1)%nat with (Z.to_nat (n - 1)) in R1, R2, R3 by lia.
  fold files. set (fs := rotate_loop path n (Z.to_nat (n - 1)) files) in *. clearbody fs.
  unfold open_append. rewrite Hopen. cbn [lg_stream set_file set_world lg_world w_files with_files close_stream]. rewrite R1.
  assert (∀ j, 0 < j → path +:+ "." +:+ pretty j = backup_name path j) as Hb by (intros j Hj; unfold backup_name; by rewrite decide_True).
  assert (path = backup_name path 0) as Hp by done.
  assert (∀ j, 0 < j → path ≠ backup_name path j) as Hne by (intros j Hj; rewrite Hp at 1; intros ?%backup_inj; lia).
  split_and!; [done|by rewrite lookup_insert_eq| | |].
  - change (path +:+ ".1") with (path +:+ "." +:+ pretty 1). rewrite Hb, lookup_insert_ne by (by try apply Hne; lia). exact (R2 0%nat ltac:(lia)).
  - intros j Hj. rewrite !Hb, lookup_insert_ne by (by try apply Hne; lia). specialize (R2 (Z.to_nat j) ltac:(lia)).
    by replace (Z.of_nat (S (Z.to_nat j))) with (j + 1) in R2 by lia; rewrite Z2Nat.id in R2 by lia.
  - intros name Hname Hback. rewrite lookup_insert_ne by done. apply R3. intros j Hj.
    destruct (decide (j = 0)%nat) as [->|]; [done|]. rewrite <-Hb by lia. apply Hback. lia.
Qed.

Definition ex_full : Logger :=
  set_file (set_config (newLogger (<["a.log" := "new"]> (<["a.log.1" := "old"]> (<["a.log.2" := "older"]> ∅)))) ex_small)
    true (Some (mkStream "a.log" 100)).

Lemma rotation_shifts_backups_witness :
  let files' := w_files (lg_world (rotateFile (λ _, true) (λ _, 0) ex_full)) in
  files' !! "a.log" = Some "" ∧ files' !! "a.log.1" = Some "new" ∧ files' !! "a.log.2" = Some "old" ∧ files' !! "a.log.3" = None.
Proof.
  intros files'. destruct (rotation_shifts_backups (λ _, true) (λ _, 0) ex_full (mkStream "a.log" 100)) as (_ & H1 & H2 & H3 & H4);
    [reflexivity|vm_compute; discriminate|vm_compute; discriminate|vm_compute; discriminate|reflexivity|].
  split; [exact H1|]. split; [exact H2|]. split; [apply (H3 1); split; vm_compute; [discriminate|reflexivity]|].
  assert (files' !! "a.log.3" = w_files (lg_world ex_full) !! "a.log.3") as Hlast; [|rewrite Hlast; reflexivity].
  apply H4; [discriminate|]. intros j Hj. assert (j = 1 ∨ j = 2) as [-> | ->] by (simpl in Hj; lia); discriminate.
Defined.

(** ** Where the code and its comments part *)

(** The comment has [.5] deleted and [.4] renamed to [.5] for five backups; the code deletes [.4]. *)
Lemma last_backup_is_never_made :
  let files := <["a.log" := "0"]> (<["a.log.1" := "1"]> (<["a.log.2" := "2"]> (<["a.log.3" := "3"]> (<["a.log.4" := "4"]> ∅)))) in
  let files' := rotate_loop "a.log" 5 4 files in
  files' !! "a.log.4" = Some "3" ∧ files' !! "a.log.5" = None.
Proof. vm_compute. split; reflexivity. Qed.

(** With one backup the current log is deleted, with none it grows for ever. *)
Lemma one_backup_deletes_the_log : rotate_loop "a.log" 1 0 {["a.log" := "all of it"]} = ∅.
Proof. vm_compute. reflexivity. Qed.

Lemma no_backups_never_rotates opens append_pos (lg : Logger) (st : Stream) :
  lg_stream lg = Some st → lc_max_backup_count (lg_config lg) = 0 →
  ∀ name content, w_files (lg_world lg) !! name = Some content →
  w_files (lg_world (rotateFile opens append_pos lg)) !! name = Some content.
Proof.
  intros Hst Hn name content Hname. unfold rotateFile. rewrite Hst, Hn. case_decide; [done|]. rewrite decide_False by lia.
  unfold open_append. case_match; [|done]. simpl. destruct (decide (lc_file_path (lg_config lg) = name)) as [->|].
  - by rewrite lookup_insert_eq, Hname.
  - by rewrite lookup_insert_ne.
Qed.

(** Switching asynchronous mode applies the stored configuration and so undoes [setLevel]. *)
Lemma enableAsync_forgets_level :
  let lg := enableAsync (λ _, true) (λ _, 0) (setLevel (newLogger ∅) L_Error) true in lg_level lg = L_Debug.
Proof. vm_compute. reflexivity. Qed.

(** [enableFile] does not record itself in the configuration: configuring no file then leaves it on. *)
Lemma configure_leaves_file_on :
  let lg := enableFile (λ _, true) (λ _, 0) (newLogger ∅) true in
  lc_file_enabled default_config = false ∧ lg_file (configure (λ _, true) (λ _, 0) lg default_config) = true.
Proof. vm_compute. split; reflexivity. Qed.

(** The public level reads back as it was set, though not every internal one has a public name. *)
Lemma engineLogLevel_set lg level : engineLogLevel (setEngineLogLevel lg level) = level.
Proof. by destruct level. Qed.

(** Rate-limited messages are apart by the interval. *)
Lemma log_every_ms_spaced word last now ms word' : 
  log_every_ms word last now ms = (word', true) → word' = now ∧ ms * 1000000 ≤ now - word.
Proof. unfold log_every_ms. repeat case_decide; intros; simplify_eq. lia. Qed.
