(* ===== verification/Schedulers.v ===== *)
(** * Scheduling strategies

    [BatchSchedulerStrategy] and [StreamSchedulerStrategy]
    ([src/scheduler_strategies.hpp]), the interface they implement
    ([include/ai_pipe/i_scheduler_strategy.hpp]) and the factories
    ([src/strategies.cpp]).  The clock the stream scheduler reads is the argument
    [now] (nanoseconds); the readiness ratio is an IEEE double.

    The theorems: when the stream scheduler runs, defers or holds a node, the
    delay it asks for wakes the node exactly when the rate limit allows it, and a
    batch run is complete exactly when nothing is active and every sink has
    executed. *)

From Stdlib Require Import Floats.SpecFloat.
From S2P Require Import Prelude Packets Graphs ExecutionTypes.
Local Open Scope string_scope.
Local Open Scope list_scope.
Local Open Scope Z_scope.

(** ** Interface *)

(** src/include/ai_pipe/i_scheduler_strategy.hpp:24-35 ScheduleDecision *)
Inductive ScheduleDecision := ScheduleNow | WaitForInputs | SkipExecution | DeferToNextCycle.

#[export] Instance ScheduleDecision_eq : EqDecision ScheduleDecision.
Proof. solve_decision. Defined.

(** src/include/ai_pipe/i_scheduler_strategy.hpp:40-59 SchedulingContext *)
Record SchedulingContext := mkContext {
  cx_node : NodePtr;
  cx_expected_input_count : Z;
  cx_ready_input_count : Z;
  cx_ready_port_mask : Z;
  cx_pending_predecessor_count : Z;
  cx_is_source_node : bool;
  cx_is_sink_node : bool;
  cx_has_initial_input : bool;
  cx_last_execution_time : Z;
  cx_execution_count : Z;
}.

(** src/include/ai_pipe/i_scheduler_strategy.hpp:61-63 SchedulingContext::allInputsReady *)
Definition allInputsReady (c : SchedulingContext) : bool :=
  bool_decide (cx_expected_input_count c ≤ cx_ready_input_count c).

(** src/include/ai_pipe/i_scheduler_strategy.hpp:65-65 SchedulingContext::hasReadyInput *)
Definition hasReadyInput (c : SchedulingContext) : bool := bool_decide (0 < cx_ready_input_count c).

(** src/include/ai_pipe/i_scheduler_strategy.hpp:67-72 SchedulingContext::inputReadinessRatio *)
Definition inputReadinessRatio (c : SchedulingContext) : spec_float :=
  if decide (cx_expected_input_count c = 0) then to_double 1
  else ddiv (to_double (cx_ready_input_count c)) (to_double (cx_expected_input_count c)).

(** src/include/ai_pipe/i_scheduler_strategy.hpp:78-81 ScheduleResult; the delay in milliseconds *)
Record ScheduleResult := mkScheduleResult {
  sr_decision : ScheduleDecision;
  sr_retry_delay : option Z;
  sr_reason : string;
}.

(** src/include/ai_pipe/i_scheduler_strategy.hpp:83-85 ScheduleResult::scheduleNow *)
Definition scheduleNow (reason : string) : ScheduleResult := mkScheduleResult ScheduleNow None reason.

(** src/include/ai_pipe/i_scheduler_strategy.hpp:87-89 ScheduleResult::waitForInputs *)
Definition waitForInputs (reason : string) : ScheduleResult := mkScheduleResult WaitForInputs None reason.

(** src/include/ai_pipe/i_scheduler_strategy.hpp:91-93 ScheduleResult::skip *)
Definition skip (reason : string) : ScheduleResult := mkScheduleResult SkipExecution None reason.

(** src/include/ai_pipe/i_scheduler_strategy.hpp:95-99 ScheduleResult::defer *)
Definition defer (delay_ms : Z) (reason : string) : ScheduleResult :=
  mkScheduleResult DeferToNextCycle (Some delay_ms) reason.

(** src/include/ai_pipe/i_scheduler_strategy.hpp:105-110 CompletionSemantics *)
Inductive CompletionSemantics := SinglePass | Continuous | ConditionBased | TimeoutBased.

(** src/include/ai_pipe/i_scheduler_strategy.hpp:115-119 CompletionStatus *)
Record CompletionStatus := mkCompletion {
  cs_is_complete : bool;
  cs_reason : string;
  cs_time_to_completion : option Z;
}.

(** src/include/ai_pipe/i_scheduler_strategy.hpp:128-131 SinkExecutionCount *)
Record SinkExecutionCount := mkSinkCount { sk_name : string; sk_executions : Z }.

(** ** Batch *)

(** src/src/scheduler_strategies.hpp:20-39 BatchSchedulerStrategy::shouldSchedule *)
Definition batch_shouldSchedule (c : SchedulingContext) : ScheduleResult :=
  if cx_is_source_node c && cx_has_initial_input c then scheduleNow "source node with initial input"
  else if cx_is_source_node c && bool_decide (cx_expected_input_count c = 0)
  then scheduleNow "source node with no expected inputs"
  else if allInputsReady c then scheduleNow "all inputs ready"
  else waitForInputs ("waiting for " +:+ pretty (wrap32 (cx_expected_input_count c - cx_ready_input_count c))
                      +:+ " more inputs").

(** src/src/scheduler_strategies.hpp:56-63 BatchSchedulerStrategy::checkCompletion (the sinks) *)
Fixpoint batch_checkSinks (sinks : list SinkExecutionCount) : CompletionStatus :=
  match sinks with
  | [] => mkCompletion true "all sinks executed" None
  | sink :: rest =>
      if decide (sk_executions sink = 0)
      then mkCompletion false ("sink '" +:+ sk_name sink +:+ "' has not executed") None
      else batch_checkSinks rest
  end.

(** src/src/scheduler_strategies.hpp:47-64 BatchSchedulerStrategy::checkCompletion *)
Definition batch_checkCompletion (active_node_count pending_node_count : Z) (sinks : list SinkExecutionCount)
    : CompletionStatus :=
  if decide (0 < active_node_count) then mkCompletion false "active tasks remaining" None
  else batch_checkSinks sinks.

(** ** Stream *)

(** src/include/ai_pipe/strategies.hpp:20-35 StreamSchedulerConfig; the interval in milliseconds *)
Record StreamSchedulerConfig := mkStreamConfig {
  ssc_allow_partial_inputs : bool;
  ssc_min_input_ratio : spec_float;
  ssc_auto_reschedule : bool;
  ssc_min_interval : Z;
}.

(** src/include/ai_pipe/strategies.hpp:29-34 StreamSchedulerConfig (defaults) *)
Definition default_stream_config : StreamSchedulerConfig := mkStreamConfig false dzero true 0.

(** src/src/scheduler_strategies.hpp:165-174 StreamSchedulerStrategy::hasReadyWork *)
Definition hasReadyWork (cfg : StreamSchedulerConfig) (c : SchedulingContext) : bool :=
  if cx_is_source_node c && cx_has_initial_input c then true
  else if ssc_allow_partial_inputs cfg
  then hasReadyInput c && SFleb (ssc_min_input_ratio cfg) (inputReadinessRatio c)
  else allInputsReady c.

(** src/src/scheduler_strategies.hpp:113-129 StreamSchedulerStrategy::shouldSchedule (after the rate
    limit) *)
Definition stream_byInputs (cfg : StreamSchedulerConfig) (c : SchedulingContext) : ScheduleResult :=
  if cx_is_source_node c && cx_has_initial_input c then scheduleNow "source node with input ready"
  else if ssc_allow_partial_inputs cfg then
    if SFleb (ssc_min_input_ratio cfg) (inputReadinessRatio c) && hasReadyInput c
    then scheduleNow "partial inputs ready"
    else waitForInputs "waiting for inputs in stream mode"
  else if allInputsReady c then scheduleNow "all inputs ready"
  else waitForInputs "waiting for inputs in stream mode".

(** src/src/scheduler_strategies.hpp:95-130 StreamSchedulerStrategy::shouldSchedule *)
Definition stream_shouldSchedule (now : Z) (cfg : StreamSchedulerConfig) (c : SchedulingContext) : ScheduleResult :=
  if bool_decide (0 < ssc_min_interval cfg) && bool_decide (0 < cx_execution_count c) && hasReadyWork cfg c then
    let elapsed := now - cx_last_execution_time c in
    if decide (elapsed < ssc_min_interval cfg * ns_per_ms) then
      let remaining := ssc_min_interval cfg - Z.quot elapsed ns_per_ms in
      defer (Z.max remaining 1) "rate limited"
    else stream_byInputs cfg c
  else stream_byInputs cfg c.

(** src/src/scheduler_strategies.hpp:132-136 StreamSchedulerStrategy::onNodeComplete *)
Definition stream_onNodeComplete (cfg : StreamSchedulerConfig) (success : bool) : bool :=
  success && ssc_auto_reschedule cfg.

(** src/src/scheduler_strategies.hpp:138-143 StreamSchedulerStrategy::checkCompletion *)
Definition stream_checkCompletion (active_node_count pending_node_count : Z) (sinks : list SinkExecutionCount)
    : CompletionStatus :=
  mkCompletion false "streaming mode - continuous execution" None.

(** ** The strategies behind the interface *)

(** src/include/ai_pipe/i_scheduler_strategy.hpp:146-212 ISchedulerStrategy; the two built-in
    strategies are its constructors *)
Inductive SchedulerStrategy := BatchScheduler | StreamScheduler (config : StreamSchedulerConfig).

(** src/src/scheduler_strategies.hpp:95-96 ISchedulerStrategy::shouldSchedule (dispatch) *)
Definition shouldSchedule (now : Z) (s : SchedulerStrategy) (c : SchedulingContext) : ScheduleResult :=
  match s with BatchScheduler => batch_shouldSchedule c | StreamScheduler cfg => stream_shouldSchedule now cfg c end.

(** src/src/scheduler_strategies.hpp:41-45 BatchSchedulerStrategy::onNodeComplete *)
Definition onNodeComplete (s : SchedulerStrategy) (success : bool) : bool :=
  match s with BatchScheduler => false | StreamScheduler cfg => stream_onNodeComplete cfg success end.

(** src/src/scheduler_strategies.hpp:47-51 ISchedulerStrategy::checkCompletion (dispatch) *)
Definition checkCompletion (s : SchedulerStrategy) (active pending : Z) (sinks : list SinkExecutionCount)
    : CompletionStatus :=
  match s with
  | BatchScheduler => batch_checkCompletion active pending sinks
  | StreamScheduler _ => stream_checkCompletion active pending sinks
  end.

(** src/src/scheduler_strategies.hpp:66-70 BatchSchedulerStrategy::completionSemantics,
    supportsStreaming *)
Definition completionSemantics (s : SchedulerStrategy) : CompletionSemantics :=
  match s with BatchScheduler => SinglePass | StreamScheduler _ => Continuous end.

(** src/src/scheduler_strategies.hpp:145-149 StreamSchedulerStrategy::completionSemantics,
    supportsStreaming *)
Definition supportsStreaming (s : SchedulerStrategy) : bool :=
  match s with BatchScheduler => false | StreamScheduler _ => true end.

(** src/src/strategies.cpp:18-28 createSchedulerStrategy *)
Definition createSchedulerStrategy (mode : ExecutionMode) (stream_config : StreamSchedulerConfig) : SchedulerStrategy :=
  match mode with BATCH => BatchScheduler | STREAM => StreamScheduler stream_config end.

(** ** Lemmas *)

(** The rate limit and the readiness test agree on what ready means. *)
Lemma stream_byInputs_ready cfg c :
  sr_decision (stream_byInputs cfg c) = if hasReadyWork cfg c then ScheduleNow else WaitForInputs.
Proof.
  unfold stream_byInputs, hasReadyWork.
  destruct (cx_is_source_node c && cx_has_initial_input c); [done|].
  destruct (ssc_allow_partial_inputs cfg).
  - rewrite andb_comm. by destruct (hasReadyInput c && _).
  - by destruct (allInputsReady c).
Qed.

Lemma batch_checkSinks_complete sinks :
  cs_is_complete (batch_checkSinks sinks) = true ↔ ∀ sk, sk ∈ sinks → sk_executions sk ≠ 0.
Proof.
  induction sinks as [|sk l IH]; simpl; [split; [by intros _ sk ?%not_elem_of_nil|done]|].
  case_decide as Hd; simpl.
  - split; [done|]. intros Hall. exfalso. by apply (Hall sk); [set_solver|].
  - rewrite IH. set_solver.
Qed.

(** ** Claims *)

(** The stream scheduler runs a node exactly when it has ready work and, if a
    rate limit is set and the node ran before, the interval has passed since; a
    node with ready work inside the interval is deferred, and one without is
    never deferred but waits for inputs.  The delay it is deferred by is positive
    and exact: evaluated again with the same inputs at any time after that delay
    the node runs, while one millisecond earlier it would still be inside the
    interval. *)
Theorem stream_rate_limit_exact (now later : Z) (cfg : StreamSchedulerConfig) (c : SchedulingContext) :
  cx_last_execution_time c ≤ now →
  let limited := bool_decide (0 < ssc_min_interval cfg ∧ 0 < cx_execution_count c ∧
    now - cx_last_execution_time c < ssc_min_interval cfg * ns_per_ms) in
  sr_decision (stream_shouldSchedule now cfg c) =
    (if hasReadyWork cfg c then if limited then DeferToNextCycle else ScheduleNow else WaitForInputs) ∧
  (∀ delay, sr_retry_delay (stream_shouldSchedule now cfg c) = Some delay →
     0 < delay ≤ ssc_min_interval cfg ∧
     now + (delay - 1) * ns_per_ms < cx_last_execution_time c + ssc_min_interval cfg * ns_per_ms ∧
     (now + delay * ns_per_ms ≤ later → sr_decision (stream_shouldSchedule later cfg c) = ScheduleNow)).
Proof.
  intros Hnow limited. unfold stream_shouldSchedule.
  pose proof (stream_byInputs_ready cfg c) as Hin.
  assert (sr_retry_delay (stream_byInputs cfg c) = None) as Hno.
  { unfold stream_byInputs. by repeat case_match. }
  destruct (hasReadyWork cfg c) eqn:Hw.
  2:{ rewrite andb_false_r. split; [done|]. intros delay Hd. by rewrite Hno in Hd. }
  rewrite andb_true_r, <-bool_decide_and. unfold limited. clear limited.
  repeat case_bool_decide; try tauto.
  - rewrite decide_True by tauto. split; [done|]. simpl. intros delay [= <-].
    set (e := now - cx_last_execution_time c) in *. set (m := ssc_min_interval cfg) in *.
    assert (0 ≤ e) as He by lia. assert (0 < m) as Hm by tauto. unfold ns_per_ms in *.
    rewrite Z.quot_div_nonneg by lia. pose proof (Z.div_mod e 1000000) as Hdiv.
    pose proof (Z.mod_pos_bound e 1000000). split_and!; try lia. intros Hl.
    rewrite decide_False; [done|]. lia.
  - rewrite decide_False by tauto. split; [done|]. intros delay Hd. by rewrite Hno in Hd.
  - split; [done|]. intros delay Hd. by rewrite Hno in Hd.
Qed.

Lemma stream_rate_limit_exact_witness :
  let cfg := mkStreamConfig false dzero true 10 in
  let c := mkContext 0%nat 1 1 1 0 false false false 1000000 3 in
  sr_retry_delay (stream_shouldSchedule 4500000 cfg c) = Some 7 ∧
  sr_decision (stream_shouldSchedule 11500000 cfg c) = ScheduleNow.
Proof.
  simpl. split; [reflexivity|].
  refine (proj2 (proj2 (proj2 (stream_rate_limit_exact 4500000 11500000 (mkStreamConfig false dzero true 10)
    (mkContext 0%nat 1 1 1 0 false false false 1000000 3) _) 7 _)) _).
  - simpl. lia.
  - reflexivity.
  - unfold ns_per_ms. lia.
Defined.

(** Under the batch strategy a node is run exactly when it is a source with
    an initial input or all its inputs are ready and otherwise waits, nothing is
    rescheduled, and a run is complete exactly when no task is active and every
    sink has executed; under the stream strategy a run is never complete. *)
Theorem batch_completes_when_sinks_ran (now active pending : Z) (c : SchedulingContext)
    (sinks : list SinkExecutionCount) (cfg : StreamSchedulerConfig) :
  0 ≤ active → 0 ≤ cx_ready_input_count c →
  (sr_decision (shouldSchedule now BatchScheduler c) = ScheduleNow ↔
     (cx_is_source_node c = true ∧ cx_has_initial_input c = true) ∨
     cx_expected_input_count c ≤ cx_ready_input_count c) ∧
  (sr_decision (shouldSchedule now BatchScheduler c) ≠ ScheduleNow →
     sr_decision (shouldSchedule now BatchScheduler c) = WaitForInputs) ∧
  (∀ success, onNodeComplete BatchScheduler success = false) ∧
  (cs_is_complete (checkCompletion BatchScheduler active pending sinks) = true ↔
     active = 0 ∧ ∀ sk, sk ∈ sinks → sk_executions sk ≠ 0) ∧
  cs_is_complete (checkCompletion (StreamScheduler cfg) active pending sinks) = false.
Proof.
  intros Ha Hr. simpl. split_and!; [| |done| |done].
  - unfold batch_shouldSchedule, allInputsReady.
    destruct (cx_is_source_node c), (cx_has_initial_input c); repeat case_bool_decide; simpl; naive_solver lia.
  - unfold batch_shouldSchedule. by repeat case_match.
  - unfold batch_checkCompletion. case_decide; simpl; [naive_solver lia|].
    rewrite batch_checkSinks_complete. naive_solver lia.
Qed.

Lemma batch_completes_when_sinks_ran_witness :
  cs_is_complete (checkCompletion BatchScheduler 0 0 [mkSinkCount "out" 1]) = true.
Proof.
  apply (batch_completes_when_sinks_ran 0 0 0 (mkContext 0%nat 1 0 0 0 false true false 0 0)
           [mkSinkCount "out" 1] default_stream_config).
  - lia.
  - simpl; lia.
  - split; [reflexivity|]. intros sk Hsk. apply list_elem_of_singleton in Hsk. rewrite Hsk. simpl. lia.
Defined.
