(* ===== verification/ThreadPool.v ===== *)
(** * The work-stealing thread pool

    [WorkStealingDeque] and [WorkStealingThreadPool] of
    [src/work_stealing_thread_pool.hpp], as threads that interleave: workers,
    submissions (from outside or from inside a task, [sb_worker]) and one call of
    [shutdown].  A step is one critical section of a deque, one atomic access, one
    lock or unlock of the global mutex, or one operation of its condition variable;
    [step] is executable and takes what the code leaves open (the random victim,
    whether a submission has timed out, which sleeper is woken).

    A task is a value of [T]; what running it does is not part of the pool, and
    [executeTask] goes on in the same way whether it returns or throws.  The ghost
    fields [sy_accepted], [sy_done] and [sy_discarded] record what happened to
    tasks, [sy_clean] whether no submission was under way when the shutdown began. *)

From S2P Require Import Prelude.
Local Open Scope list_scope.
Local Open Scope Z_scope.

(** ** The deque *)

Section Deque.
Context {T : Type}.

(** src/src/work_stealing_thread_pool.hpp:42-45 WorkStealingDeque::pushFront *)
Definition pushFront (d : list T) (item : T) : list T := item :: d.

(** src/src/work_stealing_thread_pool.hpp:49-57 WorkStealingDeque::popFront *)
Definition popFront (d : list T) : list T * option T :=
  match d with [] => ([], None) | x :: d' => (d', Some x) end.

(** src/src/work_stealing_thread_pool.hpp:61-69 WorkStealingDeque::stealBack *)
Definition stealBack (d : list T) : list T * option T :=
  match last d with None => (d, None) | Some x => (take (length d - 1) d, Some x) end.

(** src/src/work_stealing_thread_pool.hpp:81-84 WorkStealingDeque::stealBatch (the loop) *)
Fixpoint steal_loop (count : nat) (d stolen : list T) : list T * list T :=
  match count with
  | O => (d, stolen)
  | S count' =>
      match stealBack d with
      | (d', Some x) => steal_loop count' d' (stolen ++ [x])
      | (_, None) => (d, stolen)
      end
  end.

(** src/src/work_stealing_thread_pool.hpp:74-86 WorkStealingDeque::stealBatch *)
Definition stealBatch (max_count : nat) (d : list T) : list T * list T :=
  steal_loop (max_count `min` (length d / 2 + 1)) d [].

(** src/src/work_stealing_thread_pool.hpp:93-96 WorkStealingDeque::size *)
Definition deque_size (d : list T) : Z := Z.of_nat (length d).
End Deque.

(** ** Threads *)

(** src/src/work_stealing_thread_pool.hpp:322-322 WorkStealingThreadPool::State *)
Inductive PoolState := KRunning | KStopping | KStopped.

#[export] Instance PoolState_eq : EqDecision PoolState.
Proof. solve_decision. Defined.

(** src/src/work_stealing_thread_pool.hpp:109-115 WorkStealingConfig (the fields the pool reads) *)
Record WorkStealingConfig := mkPoolConfig {
  pc_num_threads : nat;
  pc_max_queue_size_per_worker : Z;
}.

(** Who holds [m_globalMutex]. *)
Inductive Owner := ByWorker (i : nat) | BySubmission (j : nat) | ByShutdown.

#[export] Instance Owner_eq : EqDecision Owner.
Proof. solve_decision. Defined.

(** Where a worker is in [workerLoop]. *)
Inductive WorkerPc (T : Type) :=
  | WPop                      (* take from the own deque *)
  | WSteal (start k : nat)    (* ask the k-th victim *)
  | WClaim (t : T)            (* decrement m_unclaimedTasks *)
  | WRun (t : T)              (* run the task *)
  | WCompleted                (* increment m_completedTasks *)
  | WPending                  (* decrement m_pendingTasks *)
  | WIdle                     (* nothing found: read m_state *)
  | WDrain                    (* stopping: read m_unclaimedTasks *)
  | WLock                     (* lock m_globalMutex *)
  | WPred                     (* predicate: read m_unclaimedTasks *)
  | WPredState                (* predicate: read m_state *)
  | WSleep                    (* predicate false: release and sleep *)
  | WAsleep                   (* waiting *)
  | WWoken                    (* woken: lock again *)
  | WUnlock                   (* predicate true: unlock *)
  | WExit.
Arguments WPop {T}.
Arguments WSteal {T} _ _.
Arguments WClaim {T} _.
Arguments WRun {T} _.
Arguments WCompleted {T}.
Arguments WPending {T}.
Arguments WIdle {T}.
Arguments WDrain {T}.
Arguments WLock {T}.
Arguments WPred {T}.
Arguments WPredState {T}.
Arguments WSleep {T}.
Arguments WAsleep {T}.
Arguments WWoken {T}.
Arguments WUnlock {T}.
Arguments WExit {T}.

(** Where a submission is. *)
Inductive SubmitPc :=
  | SStart                    (* isRunning() of submit, post, trySubmit *)
  | STryRunning               (* isRunning() of tryEnqueueTask *)
  | SSelect                   (* selectTargetQueue *)
  | SSize (q : nat)           (* while: size of the target *)
  | SRunning (q : nat)        (* in the loop: isRunning() *)
  | STime (q : nat)           (* in the loop: the clock *)
  | SNext (q : nat)           (* in the loop: size of the next queue *)
  | STryScan (q k : nat)      (* tryEnqueueTask: size of the k-th queue from q *)
  | SFinal (q : nat)          (* isRunning() before the push *)
  | SPush (q : nat)
  | SPending                  (* increment m_pendingTasks *)
  | SUnclaimed                (* increment m_unclaimedTasks *)
  | SLock | SUnlock           (* the empty critical section *)
  | SNotify                   (* notify_one *)
  | SAccepted | SRejected.

Record Submission (T : Type) := mkSubmission {
  sb_task : T;
  sb_worker : option nat;     (* tl_worker_index *)
  sb_try : bool;              (* trySubmit *)
  sb_pc : SubmitPc;
}.
Arguments mkSubmission {T} _ _ _ _.
Arguments sb_task {T} _.
Arguments sb_worker {T} _.
Arguments sb_try {T} _.
Arguments sb_pc {T} _.

(** Where [shutdown] is. *)
Inductive ShutdownPc :=
  | HNone
  | HStart (wait_for_tasks : bool)   (* the compare-exchange *)
  | HClear (k : nat)                 (* clear the k-th queue *)
  | HPending | HUnclaimed            (* store 0 *)
  | HLock | HUnlock | HNotify        (* wake all *)
  | HJoin                            (* waitForWorkers, then KStopped *)
  | HRejoin                          (* waitForWorkers of a later call *)
  | HDone.

(** src/src/work_stealing_thread_pool.hpp:563-594 WorkStealingThreadPool (data members) *)
Record Sys (T : Type) := mkSys {
  sy_queues : list (list T);
  sy_state : PoolState;
  sy_mutex : option Owner;
  sy_next : Z;
  sy_pending : Z;
  sy_completed : Z;
  sy_unclaimed : Z;
  sy_steals : Z;
  sy_workers : list (WorkerPc T);
  sy_subs : list (Submission T);
  sy_shutdown : ShutdownPc;
  sy_accepted : list T;
  sy_done : list T;
  sy_discarded : list T;
  sy_discard : bool;
  sy_clean : bool;
}.
Arguments mkSys {T} _ _ _ _ _ _ _ _ _ _ _ _ _ _ _ _.
Arguments sy_queues {T} _.
Arguments sy_state {T} _.
Arguments sy_mutex {T} _.
Arguments sy_next {T} _.
Arguments sy_pending {T} _.
Arguments sy_completed {T} _.
Arguments sy_unclaimed {T} _.
Arguments sy_steals {T} _.
Arguments sy_workers {T} _.
Arguments sy_subs {T} _.
Arguments sy_shutdown {T} _.
Arguments sy_accepted {T} _.
Arguments sy_done {T} _.
Arguments sy_discarded {T} _.
Arguments sy_discard {T} _.
Arguments sy_clean {T} _.

Section Setters.
Context {T : Type}.
Implicit Types (s : Sys T).

Definition set_queues s (x : list (list T)) : Sys T :=
  mkSys x (sy_state s) (sy_mutex s) (sy_next s) (sy_pending s) (sy_completed s) (sy_unclaimed s)
    (sy_steals s) (sy_workers s) (sy_subs s) (sy_shutdown s) (sy_accepted s) (sy_done s) (sy_discarded s)
    (sy_discard s) (sy_clean s).
Definition set_state s (x : PoolState) : Sys T :=
  mkSys (sy_queues s) x (sy_mutex s) (sy_next s) (sy_pending s) (sy_completed s) (sy_unclaimed s)
    (sy_steals s) (sy_workers s) (sy_subs s) (sy_shutdown s) (sy_accepted s) (sy_done s) (sy_discarded s)
    (sy_discard s) (sy_clean s).
Definition set_mutex s (x : option Owner) : Sys T :=
  mkSys (sy_queues s) (sy_state s) x (sy_next s) (sy_pending s) (sy_completed s) (sy_unclaimed s)
    (sy_steals s) (sy_workers s) (sy_subs s) (sy_shutdown s) (sy_accepted s) (sy_done s) (sy_discarded s)
    (sy_discard s) (sy_clean s).
Definition set_next s (x : Z) : Sys T :=
  mkSys (sy_queues s) (sy_state s) (sy_mutex s) x (sy_pending s) (sy_completed s) (sy_unclaimed s)
    (sy_steals s) (sy_workers s) (sy_subs s) (sy_shutdown s) (sy_accepted s) (sy_done s) (sy_discarded s)
    (sy_discard s) (sy_clean s).
Definition set_pending s (x : Z) : Sys T :=
  mkSys (sy_queues s) (sy_state s) (sy_mutex s) (sy_next s) x (sy_completed s) (sy_unclaimed s)
    (sy_steals s) (sy_workers s) (sy_subs s) (sy_shutdown s) (sy_accepted s) (sy_done s) (sy_discarded s)
    (sy_discard s) (sy_clean s).
Definition set_completed s (x : Z) : Sys T :=
  mkSys (sy_queues s) (sy_state s) (sy_mutex s) (sy_next s) (sy_pending s) x (sy_unclaimed s) (sy_steals s)
    (sy_workers s) (sy_subs s) (sy_shutdown s) (sy_accepted s) (sy_done s) (sy_discarded s) (sy_discard s)
    (sy_clean s).
Definition set_unclaimed s (x : Z) : Sys T :=
  mkSys (sy_queues s) (sy_state s) (sy_mutex s) (sy_next s) (sy_pending s) (sy_completed s) x (sy_steals s)
    (sy_workers s) (sy_subs s) (sy_shutdown s) (sy_accepted s) (sy_done s) (sy_discarded s) (sy_discard s)
    (sy_clean s).
Definition set_steals s (x : Z) : Sys T :=
  mkSys (sy_queues s) (sy_state s) (sy_mutex s) (sy_next s) (sy_pending s) (sy_completed s) (sy_unclaimed s)
    x (sy_workers s) (sy_subs s) (sy_shutdown s) (sy_accepted s) (sy_done s) (sy_discarded s) (sy_discard s)
    (sy_clean s).
Definition set_workers s (x : list (WorkerPc T)) : Sys T :=
  mkSys (sy_queues s) (sy_state s) (sy_mutex s) (sy_next s) (sy_pending s) (sy_completed s) (sy_unclaimed s)
    (sy_steals s) x (sy_subs s) (sy_shutdown s) (sy_accepted s) (sy_done s) (sy_discarded s) (sy_discard s)
    (sy_clean s).
Definition set_subs s (x : list (Submission T)) : Sys T :=
  mkSys (sy_queues s) (sy_state s) (sy_mutex s) (sy_next s) (sy_pending s) (sy_completed s) (sy_unclaimed s)
    (sy_steals s) (sy_workers s) x (sy_shutdown s) (sy_accepted s) (sy_done s) (sy_discarded s)
    (sy_discard s) (sy_clean s).
Definition set_shutdown s (x : ShutdownPc) : Sys T :=
  mkSys (sy_queues s) (sy_state s) (sy_mutex s) (sy_next s) (sy_pending s) (sy_completed s) (sy_unclaimed s)
    (sy_steals s) (sy_workers s) (sy_subs s) x (sy_accepted s) (sy_done s) (sy_discarded s) (sy_discard s)
    (sy_clean s).
Definition set_accepted s (x : list T) : Sys T :=
  mkSys (sy_queues s) (sy_state s) (sy_mutex s) (sy_next s) (sy_pending s) (sy_completed s) (sy_unclaimed s)
    (sy_steals s) (sy_workers s) (sy_subs s) (sy_shutdown s) x (sy_done s) (sy_discarded s) (sy_discard s)
    (sy_clean s).
Definition set_done s (x : list T) : Sys T :=
  mkSys (sy_queues s) (sy_state s) (sy_mutex s) (sy_next s) (sy_pending s) (sy_completed s) (sy_unclaimed s)
    (sy_steals s) (sy_workers s) (sy_subs s) (sy_shutdown s) (sy_accepted s) x (sy_discarded s)
    (sy_discard s) (sy_clean s).
Definition set_discarded s (x : list T) : Sys T :=
  mkSys (sy_queues s) (sy_state s) (sy_mutex s) (sy_next s) (sy_pending s) (sy_completed s) (sy_unclaimed s)
    (sy_steals s) (sy_workers s) (sy_subs s) (sy_shutdown s) (sy_accepted s) (sy_done s) x (sy_discard s)
    (sy_clean s).
Definition set_discard s (x : bool) : Sys T :=
  mkSys (sy_queues s) (sy_state s) (sy_mutex s) (sy_next s) (sy_pending s) (sy_completed s) (sy_unclaimed s)
    (sy_steals s) (sy_workers s) (sy_subs s) (sy_shutdown s) (sy_accepted s) (sy_done s) (sy_discarded s) x
    (sy_clean s).
Definition set_clean s (x : bool) : Sys T :=
  mkSys (sy_queues s) (sy_state s) (sy_mutex s) (sy_next s) (sy_pending s) (sy_completed s) (sy_unclaimed s)
    (sy_steals s) (sy_workers s) (sy_subs s) (sy_shutdown s) (sy_accepted s) (sy_done s) (sy_discarded s)
    (sy_discard s) x.
End Setters.

Section Steps.
Context {T : Type} (cfg : WorkStealingConfig).
Implicit Types (s : Sys T).

Definition to_worker s (i : nat) (pc : WorkerPc T) : Sys T := set_workers s (<[i := pc]> (sy_workers s)).
Definition to_sub s (j : nat) (sb : Submission T) (pc : SubmitPc) : Sys T :=
  set_subs s (<[j := mkSubmission (sb_task sb) (sb_worker sb) (sb_try sb) pc]> (sy_subs s)).
Definition queue_count s : nat := length (sy_queues s).
Definition queue_size s (q : nat) : Z := match sy_queues s !! q with Some d => deque_size d | None => 0 end.
Definition max_size : Z := pc_max_queue_size_per_worker cfg.

(** src/src/work_stealing_thread_pool.hpp:282-284 WorkStealingThreadPool::isRunning *)
Definition isRunning s : bool := bool_decide (sy_state s = KRunning).

Definition lock s (o : Owner) : option (Sys T) :=
  match sy_mutex s with None => Some (set_mutex s (Some o)) | Some _ => None end.
Definition unlock s : Sys T := set_mutex s None.

(** src/src/work_stealing_thread_pool.hpp:406-429 WorkStealingThreadPool::trySteal (one victim) *)
Definition steal_step s (i start k : nat) : option (Sys T) :=
  if decide (queue_count s ≤ k)%nat then Some (to_worker s i WIdle)
  else
    let victim := ((start + k) `mod` queue_count s)%nat in
    if decide (victim = i) then Some (to_worker s i (WSteal start (S k)))
    else
      match sy_queues s !! victim with
      | None => None
      | Some d =>
          match stealBack d with
          | (_, None) => Some (to_worker s i (WSteal start (S k)))
          | (d', Some t) =>
              let s := set_steals (set_queues s (<[victim := d']> (sy_queues s))) (wrap64 (sy_steals s + 1)) in
              Some (to_worker s i (WClaim t))
          end
      end.

(** src/src/work_stealing_thread_pool.hpp:363-446 WorkStealingThreadPool::workerLoop and executeTask;
    [choice] is the random number of [dist(rng)] *)
Definition worker_step s (i : nat) (pc : WorkerPc T) (choice : nat) : option (Sys T) :=
  match pc with
  | WPop =>
      match sy_queues s !! i with
      | None => None
      | Some d =>
          match popFront d with
          | (d', Some t) => Some (to_worker (set_queues s (<[i := d']> (sy_queues s))) i (WClaim t))
          | (_, None) =>
              if decide (queue_count s ≤ 1)%nat then Some (to_worker s i WIdle)
              else Some (to_worker s i (WSteal (choice `mod` queue_count s) 0))
          end
      end
  | WSteal start k => steal_step s i start k
  | WClaim t => Some (to_worker (set_unclaimed s (wrap64 (sy_unclaimed s - 1))) i (WRun t))
  | WRun t => Some (to_worker (set_done s (sy_done s ++ [t])) i WCompleted)
  | WCompleted => Some (to_worker (set_completed s (wrap64 (sy_completed s + 1))) i WPending)
  | WPending => Some (to_worker (set_pending s (wrap64 (sy_pending s - 1))) i WPop)
  | WIdle => Some (to_worker s i (if isRunning s then WLock else WDrain))
  | WDrain => Some (to_worker s i (if decide (sy_unclaimed s = 0) then WExit else WPop))
  | WLock | WWoken => s' ← lock s (ByWorker i); Some (to_worker s' i WPred)
  | WPred => Some (to_worker s i (if decide (0 < sy_unclaimed s) then WUnlock else WPredState))
  | WPredState => Some (to_worker s i (if isRunning s then WSleep else WUnlock))
  | WSleep => Some (to_worker (unlock s) i WAsleep)
  | WUnlock => Some (to_worker (unlock s) i WPop)
  | WAsleep | WExit => None
  end.

(** src/src/work_stealing_thread_pool.hpp:552-561 WorkStealingThreadPool::selectTargetQueue *)
Definition selectTargetQueue s (worker : option nat) : Sys T * nat :=
  match worker with
  | Some w => (s, w)
  | None => (set_next s (wrap64 (sy_next s + 1)), Z.to_nat (sy_next s `mod` Z.of_nat (queue_count s)))
  end.

(** src/src/work_stealing_thread_pool.hpp:467-494 WorkStealingThreadPool::enqueueTask (the wait for
    room); [expired]: the submission timeout has passed *)
Definition enqueue_step s (j : nat) (sb : Submission T) (expired : bool) : option (Sys T) :=
  match sb_pc sb with
  | SSize q => Some (to_sub s j sb (if decide (max_size ≤ queue_size s q) then SRunning q else SFinal q))
  | SRunning q => Some (to_sub s j sb (if isRunning s then STime q else SRejected))
  | STime q => Some (to_sub s j sb (if expired then SRejected else SNext ((q + 1) `mod` queue_count s)%nat))
  | SNext q => Some (to_sub s j sb (if decide (queue_size s q < max_size) then SFinal q else SSize q))
  | SFinal q => Some (to_sub s j sb (if isRunning s then SPush q else SRejected))
  | _ => None
  end.

(** src/src/work_stealing_thread_pool.hpp:507-533 WorkStealingThreadPool::tryEnqueueTask (the scan) *)
Definition try_step s (j : nat) (sb : Submission T) (q k : nat) : option (Sys T) :=
  let idx := ((q + k) `mod` queue_count s)%nat in
  if decide (queue_size s idx < max_size) then Some (to_sub s j sb (SPush idx))
  else if decide (k + 1 = queue_count s)%nat then Some (to_sub s j sb SRejected)
  else Some (to_sub s j sb (STryScan q (S k))).

(** src/src/work_stealing_thread_pool.hpp:501-546 WorkStealingThreadPool::enqueueTask (the push) and
    publishTask; [woken] is the sleeper [notify_one] wakes *)
Definition publish_step s (j : nat) (sb : Submission T) (woken : nat) : option (Sys T) :=
  match sb_pc sb with
  | SPush q =>
      match sy_queues s !! q with
      | None => None
      | Some d =>
          let s := set_queues s (<[q := pushFront d (sb_task sb)]> (sy_queues s)) in
          Some (to_sub (set_accepted s (sy_accepted s ++ [sb_task sb])) j sb SPending)
      end
  | SPending => Some (to_sub (set_pending s (wrap64 (sy_pending s + 1))) j sb SUnclaimed)
  | SUnclaimed => Some (to_sub (set_unclaimed s (wrap64 (sy_unclaimed s + 1))) j sb SLock)
  | SLock => s' ← lock s (BySubmission j); Some (to_sub s' j sb SUnlock)
  | SUnlock => Some (to_sub (unlock s) j sb SNotify)
  | SNotify =>
      match sy_workers s !! woken with
      | Some WAsleep => Some (to_sub (to_worker s woken WWoken) j sb SAccepted)
      | _ => if forallb (λ pc, match pc with WAsleep => false | _ => true end) (sy_workers s)
             then Some (to_sub s j sb SAccepted) else None
      end
  | _ => None
  end.

(** src/src/work_stealing_thread_pool.hpp:162-235 WorkStealingThreadPool::submit, post and trySubmit *)
Definition submit_step s (j : nat) (sb : Submission T) (expired : bool) (woken : nat) : option (Sys T) :=
  match sb_pc sb with
  | SStart =>
      Some (to_sub s j sb (if isRunning s then if sb_try sb then STryRunning else SSelect else SRejected))
  | STryRunning => Some (to_sub s j sb (if isRunning s then SSelect else SRejected))
  | SSelect =>
      let (s, q) := selectTargetQueue s (sb_worker sb) in
      Some (to_sub s j sb
        (if decide (0 < max_size) then if sb_try sb then STryScan q 0 else SSize q
         else if sb_try sb then SPush q else SFinal q))
  | STryScan q k => try_step s j sb q k
  | SSize _ | SRunning _ | STime _ | SNext _ | SFinal _ => enqueue_step s j sb expired
  | SPush _ | SPending | SUnclaimed | SLock | SUnlock | SNotify => publish_step s j sb woken
  | SAccepted | SRejected => None
  end.

(** A submission that will push without looking at the state again. *)
Definition in_flight (sb : Submission T) : bool :=
  match sb_pc sb with
  | SPush _ | SPending | SUnclaimed | STryScan _ _ => true
  | SSelect => sb_try sb
  | _ => false
  end.

Definition wake_all s : Sys T :=
  set_workers s ((λ pc, match pc with WAsleep => WWoken | _ => pc end) <$> sy_workers s).

(** src/src/work_stealing_thread_pool.hpp:241-266 WorkStealingThreadPool::shutdown *)
Definition shutdown_step s : option (Sys T) :=
  match sy_shutdown s with
  | HStart wait =>
      if isRunning s then
        let s := set_clean (set_state s KStopping) (forallb (λ sb, negb (in_flight sb)) (sy_subs s)) in
        Some (if wait then set_shutdown s HLock else set_shutdown (set_discard s true) (HClear 0))
      else Some (set_shutdown s HRejoin)
  | HClear k =>
      match sy_queues s !! k with
      | Some d => Some (set_shutdown (set_discarded (set_queues s (<[k := []]> (sy_queues s)))
                                        (sy_discarded s ++ d)) (HClear (S k)))
      | None => Some (set_shutdown s HPending)
      end
  | HPending => Some (set_shutdown (set_pending s 0) HUnclaimed)
  | HUnclaimed => Some (set_shutdown (set_unclaimed s 0) HLock)
  | HLock => s' ← lock s ByShutdown; Some (set_shutdown s' HUnlock)
  | HUnlock => Some (set_shutdown (unlock s) HNotify)
  | HNotify => Some (set_shutdown (wake_all s) HJoin)
  | HJoin =>
      if forallb (λ pc, match pc with WExit => true | _ => false end) (sy_workers s)
      then Some (set_shutdown (set_state s KStopped) HDone) else None
  | HRejoin =>
      if forallb (λ pc, match pc with WExit => true | _ => false end) (sy_workers s)
      then Some (set_shutdown s HDone) else None
  | HNone | HDone => None
  end.

(** ** The system *)

Inductive Move :=
  | MWorker (i choice : nat)
  | MSpurious (i : nat)                                  (* a sleeper wakes by itself *)
  | MNew (t : T) (worker : option nat) (try : bool)      (* a submission begins *)
  | MSub (j : nat) (expired : bool) (woken : nat)
  | MShutdown (wait_for_tasks : bool)
  | MShut.

Definition step s (m : Move) : option (Sys T) :=
  match m with
  | MWorker i choice => pc ← sy_workers s !! i; worker_step s i pc choice
  | MSpurious i => match sy_workers s !! i with Some WAsleep => Some (to_worker s i WWoken) | _ => None end
  | MNew t worker try =>
      if match worker with Some w => bool_decide (w < queue_count s)%nat | None => true end
      then Some (set_subs s (sy_subs s ++ [mkSubmission t worker try SStart])) else None
  | MSub j expired woken => sb ← sy_subs s !! j; submit_step s j sb expired woken
  | MShutdown wait =>
      match sy_shutdown s with HNone | HDone => Some (set_shutdown s (HStart wait)) | _ => None end
  | MShut => shutdown_step s
  end.

(** src/src/work_stealing_thread_pool.hpp:332-342 WorkStealingThreadPool::initialize *)
Definition newPool : Sys T :=
  mkSys (replicate (pc_num_threads cfg) []) KRunning None 0 0 0 0 0 (replicate (pc_num_threads cfg) WPop) [] HNone
    [] [] [] false false.

Definition pool_step s s' : Prop := ∃ m, step s m = Some s'.

Fixpoint pool_run s (ms : list Move) : option (Sys T) :=
  match ms with [] => Some s | m :: ms => s' ← step s m; pool_run s' ms end.
End Steps.
