(* ===== verification/ThreadPoolCorrect.v ===== *)
(** * Properties of the work-stealing thread pool

    Every invariant is a sum over the queues, the workers and the submissions, so
    that a step changes it by the difference between two program counters. *)

From S2P Require Import Prelude ThreadPool.
Local Open Scope list_scope.
Local Open Scope Z_scope.

(** ** Weighted sums *)

Definition wsum {A} (f : A → Z) (l : list A) : Z := foldr (λ a z, f a + z) 0 l.

Section Sums.
Context {A : Type}.
Implicit Types (f g : A → Z) (l : list A).

Lemma wsum_app f l l' : wsum f (l ++ l') = wsum f l + wsum f l'.
Proof. induction l as [|a l IH]; simpl; [lia|]. rewrite IH. lia. Qed.

Lemma wsum_insert f l i x y : l !! i = Some x → wsum f (<[i := y]> l) = wsum f l - f x + f y.
Proof.
  revert i. induction l as [|a l IH]; intros [|i] Hi; simplify_eq/=; [lia|]. rewrite (IH i Hi). lia.
Qed.

Lemma wsum_zero f l : (∀ a, a ∈ l → f a = 0) → wsum f l = 0.
Proof. induction l as [|a l IH]; intros Hf; simpl; [done|]. rewrite Hf, IH by set_solver. done. Qed.

Lemma wsum_nonneg f l : (∀ a, 0 ≤ f a) → 0 ≤ wsum f l.
Proof. intros Hf. induction l as [|a l IH]; simpl; [lia|]. specialize (Hf a). lia. Qed.

Lemma wsum_elem f l a : (∀ a, 0 ≤ f a) → a ∈ l → f a ≤ wsum f l.
Proof.
  intros Hf. induction l as [|b l IH]; intros Ha; [by apply not_elem_of_nil in Ha|]. simpl.
  pose proof (wsum_nonneg f l Hf). specialize (Hf b). apply elem_of_cons in Ha as [->|Ha]; [lia|]. specialize (IH Ha). lia.
Qed.

Lemma wsum_le f g l : (∀ a, f a ≤ g a) → wsum f l ≤ wsum g l.
Proof. intros Hf. induction l as [|a l IH]; simpl; [lia|]. specialize (Hf a). lia. Qed.

Lemma wsum_fmap f (h : A → A) l : (∀ a, f (h a) = f a) → wsum f (h <$> l) = wsum f l.
Proof. intros Hh. induction l as [|a l IH]; csimpl; [done|]. by rewrite Hh, IH. Qed.

Lemma wsum_const l : wsum (λ _, 1) l = Z.of_nat (length l).
Proof. induction l as [|a l IH]; simpl; [done|]. rewrite IH. lia. Qed.

Lemma popFront_wsum f l l' x : popFront l = (l', Some x) → wsum f l = wsum f l' + f x.
Proof. destruct l as [|a l]; simpl; intros [= <- <-]. lia. Qed.

Lemma stealBack_app l l' x : stealBack l = (l', Some x) → l = l' ++ [x].
Proof.
  unfold stealBack. destruct (last l) as [y|] eqn:Hl; [|done]. apply last_Some in Hl as [l0 ->].
  intros [= <- <-]. rewrite length_app. simpl. by rewrite Nat.add_sub, take_app_length.
Qed.

Lemma stealBack_wsum f l l' x : stealBack l = (l', Some x) → wsum f l = wsum f l' + f x.
Proof. intros ->%stealBack_app. rewrite wsum_app. simpl. lia. Qed.
End Sums.

Section Invariant.
Context {T : Type} (cfg : WorkStealingConfig).
Implicit Types (s : Sys T).

(** ** What each thread contributes *)

Definition one (_ : T) : Z := 1.
Definition held (f : T → Z) (pc : WorkerPc T) : Z := match pc with WClaim t | WRun t => f t | _ => 0 end.
Definition claiming (pc : WorkerPc T) : Z := match pc with WClaim _ => 1 | _ => 0 end.
Definition busy (pc : WorkerPc T) : Z := match pc with WClaim _ | WRun _ | WCompleted | WPending => 1 | _ => 0 end.
Definition uncompleted (pc : WorkerPc T) : Z := match pc with WCompleted => 1 | _ => 0 end.
Definition unpublished (sb : Submission T) : Z := match sb_pc sb with SPending | SUnclaimed => 1 | _ => 0 end.
Definition uncounted (sb : Submission T) : Z := match sb_pc sb with SPending => 1 | _ => 0 end.

Definition queued (f : T → Z) s : Z := wsum (wsum f) (sy_queues s).

(** Tasks and counters. *)
Record counts_ok s : Prop := {
  co_tasks f : wsum f (sy_accepted s) =
    queued f s + wsum (held f) (sy_workers s) + wsum f (sy_done s) + wsum f (sy_discarded s);
  co_unclaimed : sy_discard s = false → sy_unclaimed s =
    wrap64 (queued one s + wsum claiming (sy_workers s) - wsum unpublished (sy_subs s));
  co_pending : sy_discard s = false → sy_pending s =
    wrap64 (queued one s + wsum busy (sy_workers s) - wsum uncounted (sy_subs s));
  co_completed : sy_completed s = wrap64 (wsum one (sy_done s) - wsum uncompleted (sy_workers s));
}.

Lemma counts_new : counts_ok (newPool cfg).
Proof.
  assert (∀ f, wsum (wsum f) (replicate (pc_num_threads cfg) (@nil T)) = 0) as Hq.
  { intros f. apply wsum_zero. intros l Hl. by apply elem_of_replicate in Hl as [-> _]. }
  assert (∀ f, f (@WPop T) = 0 → wsum f (replicate (pc_num_threads cfg) WPop) = 0) as Hw.
  { intros f Hf. apply wsum_zero. intros l Hl. by apply elem_of_replicate in Hl as [-> _]. }
  split; simpl; unfold queued; simpl; intros; rewrite ?Hq, ?Hw by done; done.
Qed.

(** A step of the pool changes the sums by what it moves: [moved] says what it
    takes from a queue or puts there. *)
Ltac sums :=
  repeat match goal with
  | H : ?l !! ?i = Some ?x |- context [wsum ?f (<[?i := ?y]> ?l)] => rewrite (wsum_insert f l i x y H)
  end; rewrite ?wsum_app; simpl.

Ltac counting moved :=
  match goal with C : counts_ok _ |- _ =>
    destruct C as [Ct Cu Cp Cc]; split; unfold queued in *; simpl in *;
    [intros f; specialize (Ct f); pose proof (moved f)
    |intros Hd; rewrite ?(Cu Hd); autorewrite with wrap; f_equal; pose proof (moved one)
    |intros Hd; rewrite ?(Cp Hd); autorewrite with wrap; f_equal; pose proof (moved one)
    |rewrite ?Cc; autorewrite with wrap; f_equal; pose proof (moved one)];
    sums; unfold one, unpublished, uncounted in *; simpl in *; lia
  end.

Definition nothing_moved (f : T → Z) : True := I.

Lemma counts_steal s i start k s' :
  sy_workers s !! i = Some (WSteal start k) → steal_step s i start k = Some s' → counts_ok s → counts_ok s'.
Proof.
  intros Hi Hs C. unfold steal_step in Hs. case_decide; [injection Hs as <-; counting nothing_moved|].
  case_decide; [injection Hs as <-; counting nothing_moved|].
  destruct (sy_queues s !! _) as [d|] eqn:Hq; [|done].
  destruct (stealBack d) as [d' [t|]] eqn:Hp; injection Hs as <-; [|counting nothing_moved].
  assert (∀ f, wsum f d = wsum f d' + f t) as Hm by (intros f; by apply stealBack_wsum). counting Hm.
Qed.

Lemma counts_worker s i pc choice s' :
  sy_workers s !! i = Some pc → worker_step s i pc choice = Some s' → counts_ok s → counts_ok s'.
Proof.
  intros Hi Hs C. destruct pc; simpl in Hs; try (injection Hs as <-; counting nothing_moved).
  - destruct (sy_queues s !! i) as [d|] eqn:Hq; [|done].
    destruct (popFront d) as [d' [t|]] eqn:Hp; [|case_decide; injection Hs as <-; counting nothing_moved].
    injection Hs as <-. assert (∀ f, wsum f d = wsum f d' + f t) as Hm by (intros f; by apply popFront_wsum).
    counting Hm.
  - by eapply counts_steal.
  - injection Hs as <-. case_match; counting nothing_moved.
  - injection Hs as <-. case_decide; counting nothing_moved.
  - unfold lock in Hs. destruct (sy_mutex s); [done|]. injection Hs as <-. counting nothing_moved.
  - injection Hs as <-. case_decide; counting nothing_moved.
  - injection Hs as <-. case_match; counting nothing_moved.
  - done.
  - unfold lock in Hs. destruct (sy_mutex s); [done|]. injection Hs as <-. counting nothing_moved.
  - done.
Qed.

Lemma counts_sub s j sb expired woken s' :
  sy_subs s !! j = Some sb → submit_step cfg s j sb expired woken = Some s' → counts_ok s → counts_ok s'.
Proof.
  intros Hj Hs C. destruct sb as [t w try pc]. unfold submit_step in Hs. simpl in Hs.
  destruct pc; simpl in Hs; try done;
    try (injection Hs as <-; repeat case_match; counting nothing_moved).
  - destruct w as [w|]; simpl in Hs; injection Hs as <-; repeat case_match; counting nothing_moved.
  - unfold try_step in Hs. repeat case_match; injection Hs as <-; counting nothing_moved.
  - unfold publish_step in Hs. simpl in Hs. destruct (sy_queues s !! q) as [d|] eqn:Hq; [|done]. injection Hs as <-.
    assert (∀ f, wsum f (pushFront d t) = wsum f d + f t) as Hm by (intros f; simpl; lia). counting Hm.
  - unfold publish_step, lock in Hs. simpl in Hs. destruct (sy_mutex s); [done|]. injection Hs as <-.
    counting nothing_moved.
  - unfold publish_step in Hs. simpl in Hs. destruct (sy_workers s !! woken) as [pc|] eqn:Hw.
    + destruct pc; try (destruct (forallb _ _); [injection Hs as <-; counting nothing_moved|done]).
      injection Hs as <-. counting nothing_moved.
    + destruct (forallb _ _); [injection Hs as <-; counting nothing_moved|done].
Qed.

(** ** Who is where *)

Definition worker_holds (pc : WorkerPc T) : bool :=
  match pc with WPred | WPredState | WSleep | WUnlock => true | _ => false end.
Definition sub_holds (sb : Submission T) : bool := match sb_pc sb with SUnlock => true | _ => false end.
Definition draining (pc : WorkerPc T) : bool := match pc with WDrain | WExit => true | _ => false end.

Record control_ok s : Prop := {
  ct_len : length (sy_workers s) = length (sy_queues s);
  ct_discard : match sy_shutdown s with HClear _ | HPending | HUnclaimed => sy_discard s = true | _ => True end;
  ct_stopping : match sy_shutdown s with HNone | HStart _ => True | _ => sy_state s ≠ KRunning end;
  ct_drain i pc : sy_workers s !! i = Some pc → draining pc = true → sy_state s ≠ KRunning;
  ct_clean j sb : sy_subs s !! j = Some sb → sy_state s ≠ KRunning → sy_clean s = true → in_flight sb = false;
  ct_worker i pc : sy_workers s !! i = Some pc → worker_holds pc = true ↔ sy_mutex s = Some (ByWorker i);
  ct_sub j sb : sy_subs s !! j = Some sb → sub_holds sb = true ↔ sy_mutex s = Some (BySubmission j);
  ct_shut : sy_shutdown s = HUnlock ↔ sy_mutex s = Some ByShutdown;
  ct_owner j : sy_mutex s = Some (BySubmission j) → (j < length (sy_subs s))%nat;
}.

Lemma control_new : control_ok (newPool cfg).
Proof.
  split; simpl; try done.
  - by rewrite !length_replicate.
  - intros i pc [-> _]%lookup_replicate. done.
  - intros i pc [-> _]%lookup_replicate. done.
Qed.

(** How a thread may treat the mutex: leave it, take it or give it back. *)
Definition mutex_move (o : Owner) (m m' : option Owner) (h h' : bool) : Prop :=
  (m' = m ∧ h' = h) ∨ (m = None ∧ m' = Some o ∧ h' = true) ∨ (h = true ∧ m' = None ∧ h' = false).

(** [s'] differs from [s] in counters, the contents of queues, the mutex and worker [i]. *)
Definition worker_moves s s' (i : nat) (pc' : WorkerPc T) : Prop :=
  length (sy_queues s') = length (sy_queues s) ∧ sy_state s' = sy_state s ∧ sy_subs s' = sy_subs s ∧
  sy_shutdown s' = sy_shutdown s ∧ sy_discard s' = sy_discard s ∧ sy_clean s' = sy_clean s ∧
  sy_workers s' = <[i := pc']> (sy_workers s).

Lemma control_worker_moves s s' i pc pc' :
  control_ok s → sy_workers s !! i = Some pc → worker_moves s s' i pc' →
  mutex_move (ByWorker i) (sy_mutex s) (sy_mutex s') (worker_holds pc) (worker_holds pc') →
  (draining pc' = true → sy_state s ≠ KRunning) → control_ok s'.
Proof.
  intros [K1 K2 K3 K4 K5 K6 K7 K8 K9] Hi (E1 & E2 & E3 & E4 & E5 & E6 & E7) Hm Hd.
  pose proof (K6 i pc Hi) as K6i. split; rewrite ?E1, ?E2, ?E3, ?E4, ?E5, ?E6, ?E7, ?length_insert; try done.
  - intros k pc0 [[<- ->]|[_ Hk]]%lookup_insert_inv; [done|by eapply K4].
  - intros k pc0 [[<- ->]|[Hne Hk]]%lookup_insert_inv.
    + destruct Hm as [[-> Hh]|[(_ & -> & Hh)|(_ & -> & Hh)]]; rewrite Hh; naive_solver.
    + specialize (K6 k pc0 Hk). destruct Hm as [[-> _]|[(Hn & -> & _)|(Hh & -> & _)]]; [done| |];
        split; intros Hx; try naive_solver; apply K6 in Hx; naive_solver.
  - intros j sb Hj. specialize (K7 j sb Hj). destruct Hm as [[-> _]|[(Hn & -> & _)|(Hh & -> & _)]]; [done| |];
      split; intros Hx; try naive_solver; apply K7 in Hx; naive_solver.
  - destruct Hm as [[-> _]|[(Hn & -> & _)|(Hh & -> & _)]]; [done| |];
      split; intros Hx; try naive_solver; apply K8 in Hx; naive_solver.
  - intros j Hx. apply K9. destruct Hm as [[<- _]|[(Hn & Hm & _)|(Hh & Hm & _)]]; congruence.
Qed.

Ltac stay := by left.
Ltac take := by right; left.
Ltac give := by right; right.
Ltac wmove K Hi := eapply (control_worker_moves _ _ _ _ _ K Hi); [split_and!; simpl; rewrite ?length_insert; reflexivity| |try done].

Lemma control_worker s i pc choice s' :
  sy_workers s !! i = Some pc → worker_step s i pc choice = Some s' → control_ok s → control_ok s'.
Proof.
  intros Hi Hs K. destruct pc; simpl in Hs; try done.
  - destruct (sy_queues s !! i) as [d|] eqn:Hq; [|done].
    destruct (popFront d) as [d' [t|]]; [|case_decide]; injection Hs as <-; wmove K Hi; stay.
  - unfold steal_step in Hs. repeat case_match; try done; injection Hs as <-; wmove K Hi; stay.
  - injection Hs as <-. wmove K Hi; stay.
  - injection Hs as <-. wmove K Hi; stay.
  - injection Hs as <-. wmove K Hi; stay.
  - injection Hs as <-. wmove K Hi; stay.
  - injection Hs as <-. unfold isRunning. case_bool_decide; wmove K Hi; stay.
  - injection Hs as <-. pose proof (ct_drain _ K i _ Hi eq_refl). case_decide; wmove K Hi; stay.
  - unfold lock in Hs. destruct (sy_mutex s) eqn:Hm; [done|]. injection Hs as <-. wmove K Hi; rewrite Hm; take.
  - injection Hs as <-. case_decide; wmove K Hi; stay.
  - injection Hs as <-. case_match; wmove K Hi; stay.
  - injection Hs as <-. wmove K Hi; give.
  - unfold lock in Hs. destruct (sy_mutex s) eqn:Hm; [done|]. injection Hs as <-. wmove K Hi; rewrite Hm; take.
  - injection Hs as <-. wmove K Hi; give.
Qed.

Definition sub_moves s s' (j : nat) (sb' : Submission T) : Prop :=
  length (sy_queues s') = length (sy_queues s) ∧ sy_state s' = sy_state s ∧ sy_workers s' = sy_workers s ∧
  sy_shutdown s' = sy_shutdown s ∧ sy_discard s' = sy_discard s ∧ sy_clean s' = sy_clean s ∧
  sy_subs s' = <[j := sb']> (sy_subs s).

Lemma control_sub_moves s s' j sb sb' :
  control_ok s → sy_subs s !! j = Some sb → sub_moves s s' j sb' →
  mutex_move (BySubmission j) (sy_mutex s) (sy_mutex s') (sub_holds sb) (sub_holds sb') →
  (sy_state s ≠ KRunning → in_flight sb' = true → in_flight sb = true) → control_ok s'.
Proof.
  intros [K1 K2 K3 K4 K5 K6 K7 K8 K9] Hj (E1 & E2 & E3 & E4 & E5 & E6 & E7) Hm Hd.
  pose proof (K7 j sb Hj) as K7j. pose proof (K5 j sb Hj) as K5j.
  split; rewrite ?E1, ?E2, ?E3, ?E4, ?E5, ?E6, ?E7; try done.
  - intros k sb0 [[<- ->]|[_ Hk]]%lookup_insert_inv Hr Hc; [|by eapply K5].
    apply not_true_iff_false. intros Hf. apply Hd in Hf; [|done]. specialize (K5j Hr Hc). congruence.
  - intros i pc Hi. specialize (K6 i pc Hi). destruct Hm as [[-> _]|[(Hn & -> & _)|(Hh & -> & _)]]; [done| |];
      split; intros Hx; try naive_solver; apply K6 in Hx; naive_solver.
  - intros k sb0 [[<- ->]|[Hne Hk]]%lookup_insert_inv.
    + destruct Hm as [[-> Hh]|[(_ & -> & Hh)|(_ & -> & Hh)]]; rewrite Hh; naive_solver.
    + specialize (K7 k sb0 Hk). destruct Hm as [[-> _]|[(Hn & -> & _)|(Hh & -> & _)]]; [done| |];
        split; intros Hx; try naive_solver; apply K7 in Hx; naive_solver.
  - destruct Hm as [[-> _]|[(Hn & -> & _)|(Hh & -> & _)]]; [done| |];
      split; intros Hx; try naive_solver; apply K8 in Hx; naive_solver.
  - rewrite length_insert. intros k Hx. destruct Hm as [[Hm _]|[(Hn & Hm & _)|(Hh & Hm & _)]]; rewrite Hm in Hx.
    + by apply K9.
    + injection Hx as <-. by eapply lookup_lt_Some.
    + done.
Qed.

Ltac smove K Hj :=
  eapply (control_sub_moves _ _ _ _ _ K Hj); [split_and!; simpl; rewrite ?length_insert; reflexivity| |try done].

Lemma control_wake s i : control_ok s → sy_workers s !! i = Some WAsleep → control_ok (to_worker s i WWoken).
Proof. intros K Hi. wmove K Hi. stay. Qed.

Lemma control_sub s j sb expired woken s' :
  sy_subs s !! j = Some sb → submit_step cfg s j sb expired woken = Some s' → control_ok s → control_ok s'.
Proof.
  intros Hj Hs K. destruct sb as [t w try pc]. unfold submit_step in Hs. simpl in Hs.
  destruct pc; simpl in Hs; try done.
  - injection Hs as <-. unfold isRunning. case_bool_decide; [destruct try|]; smove K Hj; stay.
  - injection Hs as <-. unfold isRunning. case_bool_decide; smove K Hj; stay.
  - destruct w as [w|]; simpl in Hs; injection Hs as <-; case_decide; destruct try; smove K Hj; stay.
  - injection Hs as <-. case_decide; smove K Hj; stay.
  - injection Hs as <-. case_match; smove K Hj; stay.
  - injection Hs as <-. case_match; smove K Hj; stay.
  - injection Hs as <-. case_decide; smove K Hj; stay.
  - unfold try_step in Hs. repeat case_decide; injection Hs as <-; smove K Hj; stay.
  - injection Hs as <-. unfold isRunning. case_bool_decide; smove K Hj; stay.
  - unfold publish_step in Hs. simpl in Hs. destruct (sy_queues s !! q) as [d|]; [|done]. injection Hs as <-.
    smove K Hj; stay.
  - injection Hs as <-. smove K Hj; stay.
  - injection Hs as <-. smove K Hj; stay.
  - unfold publish_step, lock in Hs. simpl in Hs. destruct (sy_mutex s) eqn:Hm; [done|]. injection Hs as <-.
    smove K Hj; rewrite Hm; take.
  - injection Hs as <-. smove K Hj; give.
  - unfold publish_step in Hs. simpl in Hs.
    assert (forallb (λ pc, match pc with WAsleep => false | _ => true end) (sy_workers s) = true →
      control_ok (to_sub s j (mkSubmission t w try SNotify) SAccepted)) as Hnone by (intros _; smove K Hj; stay).
    destruct (sy_workers s !! woken) as [pc|] eqn:Hw;
      [|destruct (forallb _ _); [injection Hs as <-; by apply Hnone|done]].
    destruct pc; try (destruct (forallb _ _); [injection Hs as <-; by apply Hnone|done]).
    injection Hs as <-. pose proof (control_wake _ _ K Hw) as K'.
    assert (sy_subs (to_worker s woken WWoken) !! j = Some (mkSubmission t w try SNotify)) as Hj' by done.
    smove K' Hj'; stay.
Qed.

Lemma control_shutdown s s' : shutdown_step s = Some s' → control_ok s → control_ok s'.
Proof.
  intros Hs [K1 K2 K3 K4 K5 K6 K7 K8 K9]. unfold shutdown_step in Hs. destruct (sy_shutdown s) eqn:Hh; try done.
  - unfold isRunning in Hs. case_bool_decide as Hr; [|injection Hs as <-; split; simpl; try done; naive_solver].
    assert (∀ j sb, sy_subs s !! j = Some sb → forallb (λ sb, negb (in_flight sb)) (sy_subs s) = true →
      in_flight sb = false) as Hfl.
    { intros j sb Hj Hf. rewrite forallb_forall in Hf. apply list_elem_of_lookup_2, list_elem_of_In, Hf in Hj.
      by apply negb_true_iff. }
    destruct wait_for_tasks; injection Hs as <-; split; simpl; try done; try naive_solver; intros j sb Hj _ Hc; by eapply Hfl.
  - destruct (sy_queues s !! k) as [d|]; injection Hs as <-; split; simpl; rewrite ?length_insert; done || naive_solver.
  - injection Hs as <-. split; simpl; done || naive_solver.
  - injection Hs as <-. split; simpl; done || naive_solver.
  - unfold lock in Hs. destruct (sy_mutex s) eqn:Hm; [done|]. injection Hs as <-. split; simpl; try done.
    + intros i pc Hi. rewrite (K6 i pc Hi). done.
    + intros j sb Hj. rewrite (K7 j sb Hj). done.
  - injection Hs as <-. assert (sy_mutex s = Some ByShutdown) as Hm by (by apply K8). split; simpl; try done.
    + intros i pc Hi. rewrite (K6 i pc Hi), Hm. done.
    + intros j sb Hj. rewrite (K7 j sb Hj), Hm. done.
  - injection Hs as <-. split; simpl; try done; [..|naive_solver].
    + by rewrite length_fmap.
    + intros i pc. rewrite list_lookup_fmap. intros (pc0 & Hi & ->)%fmap_Some. specialize (K6 i pc0 Hi). by destruct pc0.
  - destruct (forallb _ _); [|done]. injection Hs as <-. split; simpl; try done; [|naive_solver].
    intros j sb Hj _. by eapply K5.
  - destruct (forallb _ _); [|done]. injection Hs as <-. split; simpl; done || naive_solver.
Qed.

Lemma counts_shutdown s s' : shutdown_step s = Some s' → control_ok s → counts_ok s → counts_ok s'.
Proof.
  intros Hs K C. pose proof (ct_discard _ K) as Hdis. unfold shutdown_step in Hs.
  destruct (sy_shutdown s); try done.
  - destruct (isRunning s); [destruct wait_for_tasks|]; injection Hs as <-; destruct C as [Ct Cu Cp Cc];
      split; simpl; done.
  - destruct (sy_queues s !! k) as [d|] eqn:Hq; injection Hs as <-; destruct C as [Ct Cu Cp Cc];
      split; simpl; try done; try (intros Hd; congruence).
    intros f. specialize (Ct f). unfold queued in *. simpl. sums. lia.
  - injection Hs as <-. destruct C as [Ct Cu Cp Cc]. split; simpl; try done; intros Hd; congruence.
  - injection Hs as <-. destruct C as [Ct Cu Cp Cc]. split; simpl; try done; intros Hd; congruence.
  - unfold lock in Hs. destruct (sy_mutex s); [done|]. injection Hs as <-. by destruct C as [Ct Cu Cp Cc].
  - injection Hs as <-. by destruct C as [Ct Cu Cp Cc].
  - injection Hs as <-. destruct C as [Ct Cu Cp Cc].
    split; unfold queued in *; simpl; intros; rewrite !wsum_fmap by (by intros []); by auto.
  - destruct (forallb _ _); [|done]. injection Hs as <-. by destruct C as [Ct Cu Cp Cc].
  - destruct (forallb _ _); [|done]. injection Hs as <-. by destruct C as [Ct Cu Cp Cc].
Qed.

(** ** Sleep and wake *)

Definition asleep (pc : WorkerPc T) : bool := match pc with WAsleep => true | _ => false end.
(** Has found nothing to do, under the lock or already asleep. *)
Definition drowsy (pc : WorkerPc T) : bool := match pc with WPredState | WSleep | WAsleep => true | _ => false end.
Definition about_to_sleep (pc : WorkerPc T) : bool := match pc with WPredState | WSleep => true | _ => false end.
(** Has published its task and not yet woken anybody. *)
Definition notifying (sb : Submission T) : bool :=
  match sb_pc sb with SLock | SUnlock | SNotify => true | _ => false end.
Definition at_lock (sb : Submission T) : bool := match sb_pc sb with SLock => true | _ => false end.

Record wake_ok s : Prop := {
  wk_falling i pc : sy_workers s !! i = Some pc → about_to_sleep pc = true →
    sy_unclaimed s = 0 ∨ (∃ j sb, sy_subs s !! j = Some sb ∧ at_lock sb = true) ∨
    (∃ k pc', sy_workers s !! k = Some pc' ∧ drowsy pc' = false);
  wk_asleep : (∀ i pc, sy_workers s !! i = Some pc → asleep pc = true) →
    sy_unclaimed s = 0 ∨ ∃ j sb, sy_subs s !! j = Some sb ∧ notifying sb = true;
}.

(** A worker that is up and stays out of the lock, or changes nothing but its place. *)
Lemma wake_worker_up s s' i pc' :
  (i < length (sy_workers s))%nat → sy_workers s' = <[i := pc']> (sy_workers s) → drowsy pc' = false → wake_ok s'.
Proof.
  intros Hl Hw Hd. assert (sy_workers s' !! i = Some pc') as Hi by (by rewrite Hw, list_lookup_insert_eq).
  split.
  - intros k pc _ _. right; right. by exists i, pc'.
  - intros Hall. specialize (Hall i pc' Hi). by destruct pc'.
Qed.

Lemma wake_worker s i pc choice s' :
  sy_workers s !! i = Some pc → worker_step s i pc choice = Some s' → control_ok s → 0 ≤ sy_unclaimed s →
  wake_ok s → wake_ok s'.
Proof.
  intros Hi Hs K Hu W. pose proof (lookup_lt_Some _ _ _ Hi) as Hl.
  assert (∀ s' pc', sy_workers s' = <[i := pc']> (sy_workers s) → drowsy pc' = false → wake_ok s') as Hup
    by (intros s1 pc'; by apply wake_worker_up).
  destruct pc; simpl in Hs; try done.
  - destruct (sy_queues s !! i) as [d|]; [|done].
    destruct (popFront d) as [d' [t|]]; [|case_decide]; injection Hs as <-; by eapply Hup.
  - unfold steal_step in Hs. repeat case_match; try done; injection Hs as <-; by eapply Hup.
  - injection Hs as <-. by eapply Hup.
  - injection Hs as <-. by eapply Hup.
  - injection Hs as <-. by eapply Hup.
  - injection Hs as <-. by eapply Hup.
  - injection Hs as <-. case_match; by eapply Hup.
  - injection Hs as <-. case_decide; by eapply Hup.
  - unfold lock in Hs. destruct (sy_mutex s); [done|]. injection Hs as <-. by eapply Hup.
  - injection Hs as <-. case_decide as Hpos; [by eapply Hup|]. assert (sy_unclaimed s = 0) as H0 by lia.
    split; simpl; intros; by left.
  - injection Hs as <-. case_match; [|by eapply Hup]. destruct W as [W1 W2]. split; simpl.
    + intros k pc Hk Hf. destruct (W1 i _ Hi eq_refl) as [H0|[Hs|(k' & pc' & Hk' & Hd)]]; [by left|by right; left|].
      right; right. exists k', pc'. split; [|done]. rewrite list_lookup_insert_ne; [done|]. intros ->. by simplify_eq.
    + intros Hall. specialize (Hall i WSleep). rewrite list_lookup_insert_eq in Hall by done. by specialize (Hall eq_refl).
  - injection Hs as <-. destruct W as [W1 W2]. split; simpl.
    + intros k pc Hk Hf. exfalso. apply lookup_insert_inv in Hk as [[<- ->]|[Hne Hk]]; [done|].
      assert (worker_holds pc = true) as Hh by (by destruct pc). apply (ct_worker _ K k pc Hk) in Hh.
      assert (sy_mutex s = Some (ByWorker i)) as Hm by (by apply (ct_worker _ K i _ Hi)). congruence.
    + intros Hall. destruct (W1 i _ Hi eq_refl) as [H0|[(j & sb & Hj & Ha)|(k & pc & Hk & Hd)]]; [by left| |].
      * right. exists j, sb. split; [done|]. unfold at_lock, notifying in *. by destruct (sb_pc sb).
      * destruct (decide (i = k)) as [<-|Hne]; [by simplify_eq|].
        specialize (Hall k pc). rewrite list_lookup_insert_ne in Hall by done. specialize (Hall Hk). by destruct pc.
  - unfold lock in Hs. destruct (sy_mutex s); [done|]. injection Hs as <-. by eapply Hup.
  - injection Hs as <-. by eapply Hup.
Qed.

(** A submission that was not publishing and still is not. *)
Lemma wake_sub_same s s' j sb sb' :
  wake_ok s → sy_subs s !! j = Some sb → notifying sb = false → sy_workers s' = sy_workers s →
  sy_unclaimed s' = sy_unclaimed s → sy_subs s' = <[j := sb']> (sy_subs s) → wake_ok s'.
Proof.
  intros [W1 W2] Hj Hn Ew Eu Es.
  assert (∀ (P : Submission T → bool), P sb = false → (∃ k sb0, sy_subs s !! k = Some sb0 ∧ P sb0 = true) →
    ∃ k sb0, sy_subs s' !! k = Some sb0 ∧ P sb0 = true) as Hkeep.
  { intros P HP (k & sb0 & Hk & H0). exists k, sb0. split; [|done]. rewrite Es, list_lookup_insert_ne; [done|].
    intros <-. congruence. }
  split; rewrite Ew, Eu.
  - intros i pc Hi Hf. destruct (W1 i pc Hi Hf) as [H0|[Hs|Hw]]; [by left| |by right; right].
    right; left. apply Hkeep; [|done]. unfold notifying, at_lock in *. by destruct (sb_pc sb).
  - intros Hall. destruct (W2 Hall) as [H0|Hs]; [by left|]. right. by apply Hkeep.
Qed.

(** A submission at the lock. *)
Lemma wake_sub_at_lock s j sb : sy_subs s !! j = Some sb → at_lock sb = true → wake_ok s.
Proof.
  intros Hj Ha. split.
  - intros i pc _ _. right; left. by exists j, sb.
  - intros _. right. exists j, sb. split; [done|]. unfold at_lock, notifying in *. by destruct (sb_pc sb).
Qed.

(** A submission past the lock, when no worker holds it. *)
Lemma wake_sub_past_lock s s' j sb :
  control_ok s → (∀ i, sy_mutex s ≠ Some (ByWorker i)) → sy_workers s' = sy_workers s →
  sy_subs s' !! j = Some sb → notifying sb = true → wake_ok s'.
Proof.
  intros K Hm Ew Hj Hn. split; rewrite ?Ew.
  - intros i pc Hi Hf. exfalso. apply (Hm i), (ct_worker _ K i pc Hi). by destruct pc.
  - intros _. right. by exists j, sb.
Qed.

Lemma wake_notify_none s j sb sb' :
  wake_ok s → (0 < length (sy_workers s))%nat → sy_subs s !! j = Some sb → at_lock sb = false →
  forallb (λ pc : WorkerPc T, match pc with WAsleep => false | _ => true end) (sy_workers s) = true →
  wake_ok (set_subs s (<[j := sb']> (sy_subs s))).
Proof.
  intros [W1 _] Hl Hj Ha Hf. split; simpl.
  - intros i pc Hi Hfa. destruct (W1 i pc Hi Hfa) as [H0|[(k & sb0 & Hk & Hs)|Hw]]; [by left| |by right; right].
    right; left. exists k, sb0. split; [|done]. rewrite list_lookup_insert_ne; [done|]. intros <-. congruence.
  - intros Hall. exfalso. destruct (lookup_lt_is_Some_2 _ _ Hl) as [pc Hpc]. specialize (Hall 0%nat pc Hpc).
    rewrite forallb_forall in Hf. apply list_elem_of_lookup_2, list_elem_of_In, Hf in Hpc. by destruct pc.
Qed.

Lemma wake_sub s j sb expired woken s' :
  sy_subs s !! j = Some sb → submit_step cfg s j sb expired woken = Some s' → control_ok s →
  (0 < length (sy_workers s))%nat → wake_ok s → wake_ok s'.
Proof.
  intros Hj Hs K Hl W. destruct sb as [t w try pc]. unfold submit_step in Hs. simpl in Hs.
  pose proof (lookup_lt_Some _ _ _ Hj) as Hjl.
  destruct pc; simpl in Hs; try done; try (injection Hs as <-; by eapply (wake_sub_same _ _ _ _ _ W Hj)).
  - destruct w as [w|]; simpl in Hs; injection Hs as <-; by eapply (wake_sub_same _ _ _ _ _ W Hj).
  - unfold try_step in Hs. repeat case_decide; injection Hs as <-; by eapply (wake_sub_same _ _ _ _ _ W Hj).
  - unfold publish_step in Hs. simpl in Hs. destruct (sy_queues s !! q) as [d|]; [|done]. injection Hs as <-.
    by eapply (wake_sub_same _ _ _ _ _ W Hj).
  - injection Hs as <-. eapply (wake_sub_at_lock _ j); [by apply list_lookup_insert_eq|done].
  - unfold publish_step, lock in Hs. simpl in Hs. destruct (sy_mutex s) eqn:Hm; [done|]. injection Hs as <-.
    eapply (wake_sub_past_lock s _ j); [done|by rewrite Hm|done|by apply list_lookup_insert_eq|done].
  - injection Hs as <-. assert (sy_mutex s = Some (BySubmission j)) as Hm by (by apply (ct_sub _ K j _ Hj)).
    eapply (wake_sub_past_lock s _ j); [done|by rewrite Hm|done|by apply list_lookup_insert_eq|done].
  - unfold publish_step in Hs. simpl in Hs.
    assert (forallb (λ pc : WorkerPc T, match pc with WAsleep => false | _ => true end) (sy_workers s) = true →
      wake_ok (to_sub s j (mkSubmission t w try SNotify) SAccepted)) as Hnone.
    { intros Hf. by eapply wake_notify_none. }
    destruct (sy_workers s !! woken) as [pc|] eqn:Hw;
      [|destruct (forallb _ _); [injection Hs as <-; by apply Hnone|done]].
    destruct pc; try (destruct (forallb _ _); [injection Hs as <-; by apply Hnone|done]).
    injection Hs as <-. eapply (wake_worker_up s _ woken WWoken); [by eapply lookup_lt_Some|done|done].
Qed.

Lemma wake_shutdown s s' :
  shutdown_step s = Some s' → (0 < length (sy_workers s))%nat → wake_ok s → wake_ok s'.
Proof.
  intros Hs Hl [W1 W2]. unfold shutdown_step in Hs. destruct (sy_shutdown s); try done.
  - destruct (isRunning s); [destruct wait_for_tasks|]; injection Hs as <-; by split.
  - destruct (sy_queues s !! k) as [d|]; injection Hs as <-; by split.
  - injection Hs as <-. by split.
  - injection Hs as <-. split; simpl; intros; by left.
  - unfold lock in Hs. destruct (sy_mutex s); [done|]. injection Hs as <-. by split.
  - injection Hs as <-. by split.
  - injection Hs as <-. split; simpl.
    + intros i pc. rewrite list_lookup_fmap. intros (pc0 & Hi & ->)%fmap_Some Hf.
      destruct (W1 i pc0 Hi) as [H0|[Hs|(k & pc & Hk & Hd)]]; [by destruct pc0|by left|by right; left|].
      right; right. exists k, pc. rewrite list_lookup_fmap, Hk. split; [by destruct pc|done].
    + intros Hall. exfalso. destruct (lookup_lt_is_Some_2 _ _ Hl) as [pc Hpc].
      specialize (Hall 0%nat (match pc with WAsleep => WWoken | _ => pc end)).
      rewrite list_lookup_fmap, Hpc in Hall. specialize (Hall eq_refl). by destruct pc.
  - destruct (forallb _ _); [|done]. injection Hs as <-. by split.
  - destruct (forallb _ _); [|done]. injection Hs as <-. by split.
Qed.

(** ** Draining *)

Definition drained_ok s : Prop :=
  sy_clean s = true → sy_discard s = false → wsum one (sy_accepted s) < u64_mod →
  (∃ i, sy_workers s !! i = Some WExit) → queued one s = 0.

Lemma queued_nonneg s : 0 ≤ queued one s.
Proof. apply wsum_nonneg. intros d. apply wsum_nonneg. intros a. unfold one. lia. Qed.

Lemma held_nonneg s : 0 ≤ wsum (held one) (sy_workers s).
Proof. apply wsum_nonneg. intros []; simpl; unfold one; lia. Qed.

Lemma claiming_held s : 0 ≤ wsum claiming (sy_workers s) ≤ wsum (held one) (sy_workers s).
Proof. split; [apply wsum_nonneg|apply wsum_le]; intros []; simpl; unfold one; lia. Qed.

Lemma one_nonneg (l : list T) : 0 ≤ wsum one l.
Proof. apply wsum_nonneg. unfold one. lia. Qed.

(** With nothing unpublished, the counter is exact. *)
Lemma unclaimed_exact s :
  counts_ok s → sy_discard s = false → wsum one (sy_accepted s) < u64_mod → wsum unpublished (sy_subs s) = 0 →
  sy_unclaimed s = queued one s + wsum claiming (sy_workers s).
Proof.
  intros C Hd Hb Hu. rewrite (co_unclaimed _ C Hd), Hu. pose proof (co_tasks _ C one) as Ht.
  pose proof (queued_nonneg s). pose proof (claiming_held s). pose proof (one_nonneg (sy_done s)).
  pose proof (one_nonneg (sy_discarded s)). unfold wrap64. rewrite Z.sub_0_r.
  apply Z.mod_small. lia.
Qed.

Lemma busy_bounds s : 0 ≤ wsum busy (sy_workers s) ≤ Z.of_nat (length (sy_workers s)).
Proof. rewrite <-(wsum_const (sy_workers s)). split; [apply wsum_nonneg|apply wsum_le]; intros []; simpl; lia. Qed.

(** With nothing uncounted, so is the counter of pending tasks. *)
Lemma pending_exact s :
  counts_ok s → sy_discard s = false → wsum one (sy_accepted s) + Z.of_nat (length (sy_workers s)) < u64_mod →
  wsum uncounted (sy_subs s) = 0 → sy_pending s = queued one s + wsum busy (sy_workers s).
Proof.
  intros C Hd Hb Hu. rewrite (co_pending _ C Hd), Hu. unfold wrap64. rewrite Z.sub_0_r. apply Z.mod_small.
  pose proof (co_tasks _ C one). pose proof (queued_nonneg s). pose proof (held_nonneg s).
  pose proof (one_nonneg (sy_done s)). pose proof (one_nonneg (sy_discarded s)). pose proof (busy_bounds s). lia.
Qed.

Lemma clean_unpublished s :
  control_ok s → sy_state s ≠ KRunning → sy_clean s = true → wsum unpublished (sy_subs s) = 0.
Proof.
  intros K Hr Hc. apply wsum_zero. intros sb [j Hj]%list_elem_of_lookup. pose proof (ct_clean _ K j sb Hj Hr Hc) as Hf.
  unfold in_flight, unpublished in *. by destruct (sb_pc sb).
Qed.

Lemma worker_step_queued s i pc choice s' :
  worker_step s i pc choice = Some s' → queued one s' ≤ queued one s ∧ sy_accepted s' = sy_accepted s.
Proof.
  intros Hs. destruct pc; simpl in Hs; try done; try (injection Hs as <-; by split).
  - destruct (sy_queues s !! i) as [d|] eqn:Hq; [|done].
    destruct (popFront d) as [d' [t|]] eqn:Hp; [|case_decide]; injection Hs as <-; try by split.
    split; [|done]. unfold queued; simpl. pose proof (popFront_wsum one _ _ _ Hp). sums. unfold one in *. lia.
  - unfold steal_step in Hs. case_decide; [by injection Hs as <-|]. case_decide; [by injection Hs as <-|].
    destruct (sy_queues s !! _) as [d|] eqn:Hq; [|done].
    destruct (stealBack d) as [d' [t|]] eqn:Hp; injection Hs as <-; [|by split]. split; [|done].
    unfold queued; simpl. pose proof (stealBack_wsum one _ _ _ Hp). sums. unfold one in *. lia.
  - unfold lock in Hs. destruct (sy_mutex s); [done|]. by injection Hs as <-.
  - unfold lock in Hs. destruct (sy_mutex s); [done|]. by injection Hs as <-.
Qed.

Lemma worker_step_shape s i pc choice s' :
  worker_step s i pc choice = Some s' →
  ∃ pc', sy_workers s' = <[i := pc']> (sy_workers s) ∧ sy_clean s' = sy_clean s ∧ sy_discard s' = sy_discard s ∧
    (pc' = WExit → draining pc = true ∧ sy_unclaimed s = 0).
Proof.
  intros Hs. destruct pc; simpl in Hs; try done; try (injection Hs as <-; eexists; by split_and!).
  - destruct (sy_queues s !! i) as [d|]; [|done].
    destruct (popFront d) as [d' [t|]]; [|case_decide]; injection Hs as <-; eexists; by split_and!.
  - unfold steal_step in Hs. repeat case_match; try done; injection Hs as <-; eexists; by split_and!.
  - injection Hs as <-. case_match; eexists; by split_and!.
  - injection Hs as <-. case_decide; eexists; by split_and!.
  - unfold lock in Hs. destruct (sy_mutex s); [done|]. injection Hs as <-. eexists; by split_and!.
  - injection Hs as <-. case_decide; eexists; by split_and!.
  - injection Hs as <-. case_match; eexists; by split_and!.
  - unfold lock in Hs. destruct (sy_mutex s); [done|]. injection Hs as <-. eexists; by split_and!.
Qed.

Lemma drained_worker s i pc choice s' :
  sy_workers s !! i = Some pc → worker_step s i pc choice = Some s' → control_ok s → counts_ok s →
  drained_ok s → drained_ok s'.
Proof.
  intros Hi Hs K C D. destruct (worker_step_queued _ _ _ _ _ Hs) as [Hle Hacc].
  destruct (worker_step_shape _ _ _ _ _ Hs) as (pc' & Ew & Ec & Ed & Hx). intros Hc Hd Hb [k Hk].
  rewrite Hacc in Hb. rewrite Ec in Hc. rewrite Ed in Hd. rewrite Ew in Hk.
  pose proof (queued_nonneg s'). enough (queued one s = 0) by lia.
  apply lookup_insert_inv in Hk as [[<- <-]|[Hne Hk]]; [|apply D; try done; by exists k].
  destruct (Hx eq_refl) as [Hdr H0]. pose proof (ct_drain _ K i _ Hi Hdr) as Hr.
  rewrite (unclaimed_exact s C Hd Hb (clean_unpublished s K Hr Hc)) in H0.
  pose proof (queued_nonneg s). pose proof (claiming_held s). lia.
Qed.

Lemma drained_sub s j sb expired woken s' :
  sy_subs s !! j = Some sb → submit_step cfg s j sb expired woken = Some s' → control_ok s →
  drained_ok s → drained_ok s'.
Proof.
  intros Hj Hs K D.
  assert (∀ s', sy_queues s' = sy_queues s → sy_clean s' = sy_clean s → sy_discard s' = sy_discard s →
    sy_accepted s' = sy_accepted s →
    (∀ i, sy_workers s' !! i = Some WExit → sy_workers s !! i = Some WExit) → drained_ok s') as Hsame.
  { intros s1 E1 E2 E3 E4 E5. unfold drained_ok, queued. rewrite E1, E2, E3, E4. intros Hc Hd Hb [i Hi].
    apply D; try done. exists i. by apply E5. }
  destruct sb as [t w try pc]. unfold submit_step in Hs. simpl in Hs.
  destruct pc; simpl in Hs; try done; try (injection Hs as <-; by apply Hsame).
  - destruct w as [w|]; simpl in Hs; injection Hs as <-; by apply Hsame.
  - unfold try_step in Hs. repeat case_decide; injection Hs as <-; by apply Hsame.
  - unfold publish_step in Hs. simpl in Hs. destruct (sy_queues s !! q) as [d|]; [|done]. injection Hs as <-.
    intros Hc _ _ [i Hi]. simpl in Hc, Hi. pose proof (ct_drain _ K i _ Hi eq_refl) as Hr.
    by pose proof (ct_clean _ K j _ Hj Hr Hc).
  - unfold publish_step, lock in Hs. simpl in Hs. destruct (sy_mutex s); [done|]. injection Hs as <-. by apply Hsame.
  - unfold publish_step in Hs. simpl in Hs. destruct (sy_workers s !! woken) as [pc|] eqn:Hw;
      [|destruct (forallb _ _); [injection Hs as <-; by apply Hsame|done]].
    destruct pc; try (destruct (forallb _ _); [injection Hs as <-; by apply Hsame|done]).
    injection Hs as <-. apply Hsame; try done. simpl. intros i [[_ Hx]|[_ Hx]]%lookup_insert_inv; done.
Qed.

Lemma drained_shutdown s s' : shutdown_step s = Some s' → control_ok s → drained_ok s → drained_ok s'.
Proof.
  intros Hs K D. pose proof (ct_discard _ K) as Hdis. unfold shutdown_step in Hs. destruct (sy_shutdown s); try done.
  - unfold isRunning in Hs. case_bool_decide as Hr; [|by injection Hs as <-].
    destruct wait_for_tasks; injection Hs as <-; intros _ Hd _ [i Hi]; simpl in *; [|done].
    by pose proof (ct_drain _ K i _ Hi eq_refl).
  - destruct (sy_queues s !! k) as [d|]; injection Hs as <-; intros _ Hd; simpl in Hd; congruence.
  - injection Hs as <-. exact D.
  - injection Hs as <-. exact D.
  - unfold lock in Hs. destruct (sy_mutex s); [done|]. injection Hs as <-. exact D.
  - injection Hs as <-. exact D.
  - injection Hs as <-. intros Hc Hd Hb [i Hi]. simpl in *. apply D; try done. exists i.
    rewrite list_lookup_fmap in Hi. apply fmap_Some in Hi as (pc & Hi & Heq). by destruct pc.
  - destruct (forallb _ _); [|done]. injection Hs as <-. exact D.
  - destruct (forallb _ _); [|done]. injection Hs as <-. exact D.
Qed.

Lemma control_begin s wait :
  sy_shutdown s = HNone ∨ sy_shutdown s = HDone → control_ok s → control_ok (set_shutdown s (HStart wait)).
Proof.
  intros Hh [K1 K2 K3 K4 K5 K6 K7 K8 K9]. split; simpl; try done. rewrite <-K8. by destruct Hh as [->| ->].
Qed.

(** ** The invariant *)

Record pool_inv s : Prop := {
  pv_counts : counts_ok s;
  pv_control : control_ok s;
  pv_wake : wake_ok s;
  pv_drained : drained_ok s;
  pv_range : 0 ≤ sy_unclaimed s;
  pv_workers : (0 < length (sy_workers s))%nat;
  pv_discarded : sy_discard s = false → sy_discarded s = [];
}.

Lemma step_range s m s' :
  step cfg s m = Some s' → 0 ≤ sy_unclaimed s → 0 ≤ sy_unclaimed s' ∧ length (sy_workers s') = length (sy_workers s).
Proof.
  intros Hs Hu. destruct m as [i choice|i|t w try|j expired woken|wait|]; simpl in Hs.
  - destruct (sy_workers s !! i) as [pc|]; [|done]. simpl in Hs.
    destruct pc; simpl in Hs; unfold steal_step, lock in Hs;
      repeat (case_match; simpl in Hs); simplify_eq; simpl; rewrite ?length_insert; split; done || auto with pipe.
  - repeat case_match; simplify_eq; simpl; by rewrite length_insert.
  - repeat case_match; simplify_eq; done.
  - destruct (sy_subs s !! j) as [sb|]; [|done]. simpl in Hs. unfold submit_step in Hs.
    destruct (sb_pc sb) eqn:Hpc; unfold try_step, enqueue_step, publish_step, selectTargetQueue, lock in Hs;
      rewrite ?Hpc in Hs;
      repeat (case_match; simpl in Hs); simplify_eq; simpl; rewrite ?length_insert; split; done || auto with pipe.
  - repeat case_match; simplify_eq; done.
  - unfold shutdown_step, lock in Hs. repeat (case_match; simpl in Hs); simplify_eq; simpl; rewrite ?length_fmap; split; done || lia.
Qed.

(** What a discarding shutdown clears is recorded only when there is one. *)
Lemma step_discarded s m s' :
  step cfg s m = Some s' → control_ok s → (sy_discard s = false → sy_discarded s = []) →
  sy_discard s' = false → sy_discarded s' = [].
Proof.
  intros Hs K Hd. pose proof (ct_discard _ K) as Hc. destruct m as [i choice|i|t w try|j expired woken|wait|]; simpl in Hs.
  - destruct (sy_workers s !! i) as [pc|]; [|done]. simpl in Hs.
    destruct pc; simpl in Hs; unfold steal_step, lock in Hs; repeat (case_match; simpl in Hs); by simplify_eq.
  - repeat case_match; by simplify_eq.
  - repeat case_match; by simplify_eq.
  - destruct (sy_subs s !! j) as [sb|]; [|done]. simpl in Hs. unfold submit_step in Hs.
    destruct (sb_pc sb) eqn:Hpc; unfold try_step, enqueue_step, publish_step, selectTargetQueue, lock in Hs;
      rewrite ?Hpc in Hs; repeat (case_match; simpl in Hs); by simplify_eq.
  - repeat case_match; by simplify_eq.
  - unfold shutdown_step, lock in Hs. destruct (sy_shutdown s) eqn:Hh; repeat (case_match; simpl in Hs); simplify_eq; simpl; done || congruence.
Qed.

Lemma new_inv : (0 < pc_num_threads cfg)%nat → pool_inv (newPool cfg).
Proof.
  intros Hn. split; [apply counts_new|apply control_new| | |done|by simpl; rewrite length_replicate|done].
  - split; simpl; intros; by left.
  - intros Hc. done.
Qed.

Lemma step_inv s m s' : step cfg s m = Some s' → pool_inv s → pool_inv s'.
Proof.
  intros Hs [C K W D R N E]. destruct (step_range s m s' Hs R) as [R' Hl]. pose proof (step_discarded s m s' Hs K E) as E'.
  destruct m as [i choice|i|t w try|j expired woken|wait|]; simpl in Hs.
  - destruct (sy_workers s !! i) as [pc|] eqn:Hi; [|done]. simpl in Hs. split; try done; [..|lia].
    + by eapply counts_worker.
    + by eapply control_worker.
    + by eapply wake_worker.
    + by eapply drained_worker.
  - destruct (sy_workers s !! i) as [[]|] eqn:Hi; try done. injection Hs as <-. split; try done; [..|lia].
    + counting nothing_moved.
    + by apply control_wake.
    + eapply (wake_worker_up s _ i WWoken); [by eapply lookup_lt_Some|done|done].
    + intros Hc Hd Hb [k Hk]. apply D; try done. exists k. simpl in Hk. by apply lookup_insert_inv in Hk as [[_ Hx]|[_ Hx]].
  - destruct (match w with Some _ => _ | None => _ end); [|done]. injection Hs as <-.
    assert (∀ P : Submission T → bool, (∃ j sb, sy_subs s !! j = Some sb ∧ P sb = true) →
      ∃ j sb, (sy_subs s ++ [mkSubmission t w try SStart]) !! j = Some sb ∧ P sb = true) as Hkeep.
    { intros P (j & sb & Hj & HP). exists j, sb. split; [by apply lookup_app_l_Some|done]. }
    split; try done.
    + counting nothing_moved.
    + destruct K as [K1 K2 K3 K4 K5 K6 K7 K8 K9]. split; simpl; try done.
      * intros j sb [->|Hj]%lookup_snoc_inv; [done|by eapply K5].
      * intros j sb Hj. apply lookup_app_Some in Hj as [Hj|[Hle Hj]]; [by apply K7|].
        apply list_lookup_singleton_Some in Hj as [_ <-]. split; [done|]. intros Hm%K9. lia.
      * intros j Hm%K9. rewrite length_app. lia.
    + destruct W as [W1 W2]. split; simpl.
      * intros i pc Hi Hf. destruct (W1 i pc Hi Hf) as [?|[?|?]]; [by left|right; left|by right; right]. by apply Hkeep.
      * intros Hall. destruct (W2 Hall) as [?|?]; [by left|right]. by apply Hkeep.
  - destruct (sy_subs s !! j) as [sb|] eqn:Hj; [|done]. simpl in Hs. split; try done; [..|lia].
    + by eapply counts_sub.
    + by eapply control_sub.
    + by eapply wake_sub.
    + by eapply drained_sub.
  - assert (sy_shutdown s = HNone ∨ sy_shutdown s = HDone) as Hh by (destruct (sy_shutdown s); auto; done).
    assert (s' = set_shutdown s (HStart wait)) as -> by (by destruct Hh as [Hh|Hh]; rewrite Hh in Hs; injection Hs as <-).
    split; [by destruct C| |by destruct W|exact D|done|done|done]. by apply control_begin.
  - split; try done; [..|lia].
    + by eapply counts_shutdown.
    + by eapply control_shutdown.
    + by eapply wake_shutdown.
    + by eapply drained_shutdown.
Qed.
End Invariant.

(** ** Properties *)

Section Properties.
Context {T : Type} `{!EqDecision T}.
Implicit Types (s : Sys T).

Definition held_task (pc : WorkerPc T) : option T := match pc with WClaim t | WRun t => Some t | _ => None end.

Lemma wsum_concat (f : T → Z) (ls : list (list T)) : wsum (wsum f) ls = wsum f (concat ls).
Proof. induction ls as [|l ls IH]; simpl; [done|]. by rewrite wsum_app, IH. Qed.

Lemma wsum_held (f : T → Z) (ws : list (WorkerPc T)) : wsum (held f) ws = wsum f (omap held_task ws).
Proof. induction ws as [|pc ws IH]; csimpl; [done|]. rewrite IH. by destruct pc. Qed.

Lemma wsum_count (t : T) (l : list T) :
  wsum (λ x, if decide (x = t) then 1 else 0) l = Z.of_nat (count_occ (λ x y, decide (x = y)) l t).
Proof. induction l as [|x l IH]; simpl; [done|]. rewrite IH. destruct (decide (x = t)); lia. Qed.

Lemma wsum_permutation (l l' : list T) : (∀ f, wsum f l = wsum f l') → l ≡ₚ l'.
Proof.
  intros Hf. apply (Permutation_count_occ (λ x y, decide (x = y))). intros t.
  specialize (Hf (λ x, if decide (x = t) then 1 else 0)). rewrite !wsum_count in Hf. lia.
Qed.

Lemma wsum_one (l : list T) : wsum one l = Z.of_nat (length l).
Proof. apply wsum_const. Qed.

Lemma tasks_permutation s : counts_ok s →
  sy_accepted s ≡ₚ concat (sy_queues s) ++ omap held_task (sy_workers s) ++ sy_done s ++ sy_discarded s.
Proof.
  intros C. apply wsum_permutation. intros f. rewrite (co_tasks _ C f). unfold queued.
  rewrite !wsum_app, wsum_concat, wsum_held. lia.
Qed.

Context (cfg : WorkStealingConfig) (Hn : (0 < pc_num_threads cfg)%nat).

Lemma reachable_inv s : rtc (pool_step cfg) (newPool cfg) s → pool_inv s.
Proof using Hn.
  intros Hr. assert (∀ s1 s2, rtc (pool_step cfg) s1 s2 → pool_inv s1 → pool_inv s2) as Hall.
  { induction 1 as [|s1 s2 s3 [m Hm] _ IH]; [done|]. intros I. by eapply IH, step_inv. }
  eapply Hall; [exact Hr|]. by apply new_inv.
Qed.

(** C10: no task is lost or run twice: in every interleaving of workers, thieves,
    submissions and shutdown, the accepted tasks are exactly those waiting in a
    deque, those a worker has taken, those that have run and those a discarding
    shutdown cleared, each as often as it was submitted. *)
Theorem pool_runs_each_task_once s :
  rtc (pool_step cfg) (newPool cfg) s →
  sy_accepted s ≡ₚ concat (sy_queues s) ++ omap held_task (sy_workers s) ++ sy_done s ++ sy_discarded s.
Proof using All. intros I%reachable_inv. apply tasks_permutation, I. Qed.

(** C11: no wake-up is lost: if every worker is asleep and no submission is between
    its push and its notification, then no task is waiting. *)
Theorem pool_no_lost_wakeup s :
  rtc (pool_step cfg) (newPool cfg) s → sy_discard s = false → Z.of_nat (length (sy_accepted s)) < u64_mod →
  (∀ i pc, sy_workers s !! i = Some pc → pc = WAsleep) →
  (∀ j sb, sy_subs s !! j = Some sb → unpublished sb = 0 ∧ notifying sb = false) →
  concat (sy_queues s) = [].
Proof using All.
  intros [C K W _ _ _ _]%reachable_inv Hd Hb Hall Hs.
  destruct (wk_asleep _ W) as [H0|(j & sb & Hj & Hnf)].
  - intros i pc Hi. by rewrite (Hall i pc Hi).
  - assert (wsum unpublished (sy_subs s) = 0) as Hu.
    { apply wsum_zero. intros sb [j Hj]%list_elem_of_lookup. apply (Hs j sb Hj). }
    rewrite <-wsum_one in Hb. rewrite (unclaimed_exact s C Hd Hb Hu) in H0. pose proof (claiming_held s).
    unfold queued in H0. rewrite wsum_concat, wsum_one in H0. apply length_zero_iff_nil. lia.
  - destruct (Hs j sb Hj). congruence.
Qed.

(** While no submission is between its push and the counters, [m_unclaimedTasks]
    is the number of tasks waiting or being claimed and [m_pendingTasks] the number
    of tasks waiting or with a worker. *)
Theorem pool_counters_exact s :
  rtc (pool_step cfg) (newPool cfg) s → sy_discard s = false →
  Z.of_nat (length (sy_accepted s) + length (sy_workers s)) < u64_mod →
  (∀ j sb, sy_subs s !! j = Some sb → unpublished sb = 0) →
  sy_unclaimed s = Z.of_nat (length (concat (sy_queues s))) + wsum claiming (sy_workers s) ∧
  sy_pending s = Z.of_nat (length (concat (sy_queues s))) + wsum busy (sy_workers s).
Proof using All.
  intros [C K _ _ _ _ _]%reachable_inv Hd Hb Hs.
  assert (wsum unpublished (sy_subs s) = 0) as Hu.
  { apply wsum_zero. intros sb [j Hj]%list_elem_of_lookup. by apply (Hs j sb). }
  assert (wsum uncounted (sy_subs s) = 0) as Hu'.
  { apply wsum_zero. intros sb [j Hj]%list_elem_of_lookup. specialize (Hs j sb Hj).
    unfold unpublished, uncounted in *. by destruct (sb_pc sb). }
  rewrite <-wsum_one, <-wsum_concat. split; [apply unclaimed_exact|apply pending_exact]; rewrite ?wsum_one; done || lia.
Qed.

(** A draining shutdown that begins while no submission is about to push leaves
    no task behind: once every worker has returned, all accepted tasks have run. *)
Theorem draining_shutdown_runs_all s :
  rtc (pool_step cfg) (newPool cfg) s → sy_clean s = true → sy_discard s = false →
  Z.of_nat (length (sy_accepted s)) < u64_mod →
  (∀ i pc, sy_workers s !! i = Some pc → pc = WExit) →
  concat (sy_queues s) = [] ∧ sy_done s ≡ₚ sy_accepted s.
Proof using All.
  intros [C K _ D _ Hl E]%reachable_inv Hc Hd Hb Hall. pose proof (E Hd) as Hdd.
  assert (concat (sy_queues s) = []) as Hq.
  { apply length_zero_iff_nil. apply Nat2Z.inj. rewrite <-wsum_one, <-wsum_concat. apply D; [done|done|by rewrite wsum_one|].
    destruct (lookup_lt_is_Some_2 _ _ Hl) as [pc Hpc]. exists 0%nat. by rewrite Hpc, (Hall _ _ Hpc). }
  split; [done|]. pose proof (tasks_permutation s C) as Hp. rewrite Hq, Hdd, app_nil_r in Hp. simpl in Hp.
  assert (omap held_task (sy_workers s) = []) as Hh; [|by rewrite Hh in Hp].
  clear -Hall. induction (sy_workers s) as [|pc ws IH]; [done|]. csimpl. rewrite (Hall 0%nat pc eq_refl). simpl.
  apply IH. intros i pc' Hi. by apply (Hall (S i)).
Qed.
End Properties.

(** ** Runs *)

Section Examples.

Definition ex_pool : WorkStealingConfig := mkPoolConfig 2 4.
Definition works (i n : nat) : list (@Move nat) := replicate n (MWorker i 0).
Definition submits (j n woken : nat) : list (@Move nat) := replicate n (MSub j false woken).

(** Both workers fall asleep; a task is submitted, wakes one and runs; they sleep again. *)
Definition ex_sleep : list (@Move nat) := works 0 9 ++ works 1 9.
Definition ex_task : list (@Move nat) := MNew 7%nat None false :: submits 0 10 0 ++ works 0 8 ++ works 0 9.
(** A draining shutdown wakes both; they find nothing and return. *)
Definition ex_shutdown : list (@Move nat) := MShutdown true :: replicate 4 MShut ++ works 0 10 ++ works 1 10 ++ [MShut].

Definition ex_after (ms : list (@Move nat)) : Sys nat := default (newPool ex_pool) (pool_run ex_pool (newPool ex_pool) ms).

Lemma pool_run_steps cfg (s s' : Sys nat) ms : pool_run cfg s ms = Some s' → rtc (pool_step cfg) s s'.
Proof.
  revert s. induction ms as [|m ms IH]; intros s; simpl; [by intros [= <-]|].
  destruct (step cfg s m) as [s1|] eqn:Hs; [|done]. simpl. intros Hr. eapply rtc_l; [by exists m|by apply IH].
Qed.

Lemma ex_after_reachable ms :
  bool_decide (is_Some (pool_run ex_pool (newPool ex_pool) ms)) = true →
  rtc (pool_step ex_pool) (newPool ex_pool) (ex_after ms).
Proof.
  intros [s Hs]%bool_decide_eq_true. unfold ex_after. rewrite Hs. by apply pool_run_steps with ms.
Qed.

Lemma ex_asleep_facts :
  let s := ex_after (ex_sleep ++ ex_task) in
  rtc (pool_step ex_pool) (newPool ex_pool) s ∧ sy_workers s = [WAsleep; WAsleep] ∧
  sy_subs s = [mkSubmission 7%nat None false SAccepted] ∧ sy_discard s = false ∧ sy_accepted s = [7%nat] ∧
  sy_done s = [7%nat].
Proof. split; [apply ex_after_reachable; vm_compute; reflexivity|]. vm_compute. split_and!; reflexivity. Qed.

Lemma ex_stopped_facts :
  let s := ex_after (ex_sleep ++ ex_task ++ ex_shutdown) in
  rtc (pool_step ex_pool) (newPool ex_pool) s ∧ sy_workers s = [WExit; WExit] ∧ sy_clean s = true ∧
  sy_discard s = false ∧ sy_accepted s = [7%nat] ∧ sy_shutdown s = HDone.
Proof. split; [apply ex_after_reachable; vm_compute; reflexivity|]. vm_compute. split_and!; reflexivity. Qed.

Lemma pair_lookup {A} (x y : A) i : [x; x] !! i = Some y → y = x.
Proof. by destruct i as [|[|i]]; simpl; intros; simplify_eq. Qed.

Lemma single_lookup {A} (x y : A) i : [x] !! i = Some y → y = x.
Proof. by destruct i as [|i]; simpl; intros; simplify_eq. Qed.

Lemma two_threads : (0 < pc_num_threads ex_pool)%nat.
Proof. simpl. lia. Qed.

Lemma pool_runs_each_task_once_witness :
  let s := ex_after (ex_sleep ++ take 15 ex_task) in
  sy_accepted s ≡ₚ concat (sy_queues s) ++ omap held_task (sy_workers s) ++ sy_done s ++ sy_discarded s.
Proof.
  apply (pool_runs_each_task_once ex_pool two_threads). apply ex_after_reachable. vm_compute. reflexivity.
Defined.

Lemma pool_no_lost_wakeup_witness : concat (sy_queues (ex_after (ex_sleep ++ ex_task))) = [].
Proof.
  destruct ex_asleep_facts as (Hr & Hw & Hs & Hd & Ha & _).
  apply (pool_no_lost_wakeup ex_pool two_threads _ Hr Hd); rewrite ?Ha, ?Hw, ?Hs.
  - vm_compute. reflexivity.
  - intros i pc. apply pair_lookup.
  - intros j sb ->%single_lookup. split; reflexivity.
Defined.

Lemma pool_counters_exact_witness :
  sy_pending (ex_after (ex_sleep ++ ex_task)) =
    Z.of_nat (length (concat (sy_queues (ex_after (ex_sleep ++ ex_task))))) +
    wsum busy (sy_workers (ex_after (ex_sleep ++ ex_task))).
Proof.
  destruct ex_asleep_facts as (Hr & Hw & Hs & Hd & Ha & _).
  apply (pool_counters_exact ex_pool two_threads _ Hr Hd); rewrite ?Ha, ?Hw, ?Hs.
  - vm_compute. reflexivity.
  - intros j sb ->%single_lookup. reflexivity.
Defined.

Lemma draining_shutdown_runs_all_witness :
  let s := ex_after (ex_sleep ++ ex_task ++ ex_shutdown) in
  concat (sy_queues s) = [] ∧ sy_done s ≡ₚ sy_accepted s.
Proof.
  destruct ex_stopped_facts as (Hr & Hw & Hc & Hd & Ha & _).
  apply (draining_shutdown_runs_all ex_pool two_threads _ Hr Hc Hd); rewrite ?Ha, ?Hw.
  - vm_compute. reflexivity.
  - intros i pc. apply pair_lookup.
Defined.

(** ** Divergences *)

(** A submission that has passed its last look at the state when a draining
    shutdown begins is accepted, and its task never runs. *)
Lemma late_submission_stranded :
  let s := ex_after (MNew 7%nat None false :: submits 0 4 0 ++ MShutdown true :: replicate 4 MShut ++
                     works 0 6 ++ works 1 6 ++ [MShut] ++ submits 0 6 0) in
  rtc (pool_step ex_pool) (newPool ex_pool) s ∧ sy_shutdown s = HDone ∧ sy_workers s = [WExit; WExit] ∧
  sb_pc <$> sy_subs s = [SAccepted] ∧ concat (sy_queues s) = [7%nat] ∧ sy_done s = [].
Proof. split; [apply ex_after_reachable; vm_compute; reflexivity|]. vm_compute. split_and!; reflexivity. Qed.

(** No worker can return: the counter of unclaimed tasks is not zero, nothing is
    queued and nothing will be. *)
Definition stuck (s : Sys nat) : Prop :=
  sy_state s = KStopping ∧ sy_shutdown s = HJoin ∧ sy_unclaimed s ≠ 0 ∧ (0 < length (sy_workers s))%nat ∧
  (∀ q d, sy_queues s !! q = Some d → d = []) ∧
  (∀ i pc, sy_workers s !! i = Some pc → match pc with WPop | WSteal _ _ | WIdle | WDrain => True | _ => False end) ∧
  (∀ j sb, sy_subs s !! j = Some sb → match sb_pc sb with SStart | SAccepted | SRejected => True | _ => False end).

Lemma stuck_step cfg s s' : stuck s → pool_step cfg s s' → stuck s'.
Proof.
  intros (H1 & H2 & H3 & H4 & H5 & H6 & H7) [m Hm]. unfold stuck.
  assert (∀ i pc pc', sy_workers s !! i = Some pc →
    match pc' with WPop | WSteal _ _ | WIdle | WDrain => True | _ => False end → s' = to_worker s i pc' → stuck s') as Hw.
  { intros i pc pc' Hi Hp ->. unfold stuck; simpl. rewrite length_insert. split_and!; try done.
    intros k pc0 [[_ ->]|[_ Hk]]%lookup_insert_inv; [done|by apply (H6 k)]. }
  destruct m as [i choice|i|t w try|j expired woken|wait|]; simpl in Hm.
  - destruct (sy_workers s !! i) as [pc|] eqn:Hi; [|done]. simpl in Hm. specialize (H6 i pc Hi).
    destruct pc; simpl in Hm; try done.
    + destruct (sy_queues s !! i) as [d|] eqn:Hq; [|done]. rewrite (H5 _ _ Hq) in Hm. simpl in Hm.
      case_decide; injection Hm as <-; refine (Hw i _ _ Hi _ eq_refl); exact I.
    + unfold steal_step in Hm. case_decide; [injection Hm as <-; refine (Hw i _ _ Hi _ eq_refl); exact I|].
      case_decide; [injection Hm as <-; refine (Hw i _ _ Hi _ eq_refl); exact I|]. destruct (sy_queues s !! _) as [d|] eqn:Hq; [|done].
      rewrite (H5 _ _ Hq) in Hm. simpl in Hm. injection Hm as <-. refine (Hw i _ _ Hi _ eq_refl); exact I.
    + unfold isRunning in Hm. rewrite bool_decide_eq_false_2 in Hm by (rewrite H1; done). injection Hm as <-. refine (Hw i _ _ Hi _ eq_refl); exact I.
    + rewrite decide_False in Hm by done. injection Hm as <-. refine (Hw i _ _ Hi _ eq_refl); exact I.
  - destruct (sy_workers s !! i) as [pc|] eqn:Hi; [|done]. specialize (H6 i pc Hi). by destruct pc.
  - destruct (match w with Some _ => _ | None => _ end); [|done]. injection Hm as <-. simpl. split_and!; try done.
    intros j sb [->|Hj]%lookup_snoc_inv; [done|by apply (H7 j)].
  - destruct (sy_subs s !! j) as [sb|] eqn:Hj; [|done]. simpl in Hm. specialize (H7 j sb Hj) as Hp.
    destruct sb as [t w try pc]. unfold submit_step in Hm. simpl in Hm, Hp. destruct pc; try done.
    unfold isRunning in Hm. rewrite bool_decide_eq_false_2 in Hm by (rewrite H1; done). injection Hm as <-. simpl.
    split_and!; try done. intros k sb [[_ ->]|[_ Hk]]%lookup_insert_inv; [done|by apply (H7 k)].
  - by rewrite H2 in Hm.
  - unfold shutdown_step in Hm. rewrite H2 in Hm. destruct (forallb _ _) eqn:Hf; [|done]. exfalso.
    destruct (lookup_lt_is_Some_2 _ _ H4) as [pc Hpc]. specialize (H6 0%nat pc Hpc).
    rewrite forallb_forall in Hf. apply list_elem_of_lookup_2, list_elem_of_In, Hf in Hpc. by destruct pc.
Qed.

Definition ex_hang : list (@Move nat) :=
  MNew 7%nat None false :: submits 0 10 0 ++ works 0 1 ++ MShutdown false :: replicate 6 MShut ++ works 0 4 ++ replicate 3 MShut.

Lemma ex_hang_facts :
  rtc (pool_step ex_pool) (newPool ex_pool) (ex_after ex_hang) ∧ sy_state (ex_after ex_hang) = KStopping ∧
  sy_shutdown (ex_after ex_hang) = HJoin ∧ sy_unclaimed (ex_after ex_hang) = u64_max ∧
  sy_queues (ex_after ex_hang) = [[]; []] ∧ sy_workers (ex_after ex_hang) = [WPop; WPop] ∧
  sy_subs (ex_after ex_hang) = [mkSubmission 7%nat None false SAccepted].
Proof. split; [apply ex_after_reachable; vm_compute; reflexivity|]. vm_compute. split_and!; reflexivity. Qed.

(** A worker that has taken a task but not yet counted it when a discarding
    shutdown stores zero makes the counter wrap around: [shutdown(false)] waits for
    workers that never return, whatever happens next. *)
Lemma discarding_shutdown_hangs :
  rtc (pool_step ex_pool) (newPool ex_pool) (ex_after ex_hang) ∧
  ∀ s', rtc (pool_step ex_pool) (ex_after ex_hang) s' → sy_shutdown s' = HJoin.
Proof.
  pose proof ex_hang_facts as (Hr & H1 & H2 & H3 & Hq & Hw & Hb). revert Hr H1 H2 H3 Hq Hw Hb.
  generalize (ex_after ex_hang). intros s Hr H1 H2 H3 Hq Hw Hb. split; [done|].
  assert (stuck s) as Hs.
  { unfold stuck. rewrite H1, H2, H3, Hq, Hw, Hb. split_and!; try done; [simpl; lia|..].
    - by intros [|[|q]] d Hd; simplify_eq/=.
    - by intros [|[|q]] d Hd; simplify_eq/=.
    - by intros [|q] d Hd; simplify_eq/=. }
  clear -Hs. intros s' Hr. assert (stuck s') as Hs'; [|by destruct Hs' as (_ & ? & _)].
  induction Hr as [|s1 s2 s3 H12 _ IH]; [done|]. by eapply IH, stuck_step.
Qed.
End Examples.
