(* ===== verification/PoolClients.v ===== *)
(** * The clients of the thread pool

    What [src/work_stealing_thread_pool.hpp] offers its callers beyond submission:
    [waitForTasks], the futures of [submit] and [trySubmit], the exception handler,
    and the queries.

    [Wait] adds threads inside [waitForTasks] and the notification at the end of
    [executeTask] to the system of [ThreadPool]: a step of the larger system is one of
    the smaller or leaves it alone ([waiting_pool_reachable]), so what is proved of the
    pool holds here.  [Tasks] says what running a task does to its future and to the
    handler; a task is [Packaged] ([submit], [trySubmit]) or [Posted] ([post]), with
    the outcome of its body. *)

From S2P Require Import Prelude ThreadPool ThreadPoolCorrect.
Local Open Scope list_scope.
Local Open Scope Z_scope.

(** ** Waiting for tasks *)

(** Where a thread is in [waitForTasks]. *)
Inductive WaiterPc :=
  | ALock                     (* lock m_globalMutex *)
  | APred                     (* predicate: read m_pendingTasks *)
  | APredState                (* predicate: read m_state *)
  | ASleep                    (* predicate false: release and sleep *)
  | AAsleep                   (* waiting on m_allTasksDone *)
  | AWoken                    (* woken: lock again *)
  | AUnlock                   (* predicate true: unlock *)
  | AReturned.

#[export] Instance WaiterPc_eq : EqDecision WaiterPc.
Proof. solve_decision. Defined.

Section Wait.
Context {T : Type} (cfg : WorkStealingConfig).

(** The pool, the waiter that holds [m_globalMutex], the workers between taking
    [m_pendingTasks] to zero and [m_allTasksDone.notify_all()], and the waiters. *)
Record WaitSys := mkWaitSys {
  wp_pool : Sys T;
  wp_holder : option nat;
  wp_notify : list nat;
  wp_waiters : list WaiterPc;
}.
Implicit Types (w : WaitSys).

Definition to_waiter w (k : nat) (pc : WaiterPc) (holder : option nat) : WaitSys :=
  mkWaitSys (wp_pool w) holder (wp_notify w) (<[k := pc]> (wp_waiters w)).

(** src/src/work_stealing_thread_pool.hpp:268-274 WorkStealingThreadPool::waitForTasks *)
Definition waiter_step w (k : nat) (pc : WaiterPc) : option WaitSys :=
  match pc with
  | ALock | AWoken =>
      match sy_mutex (wp_pool w), wp_holder w with
      | None, None => Some (to_waiter w k APred (Some k))
      | _, _ => None
      end
  | APred => Some (to_waiter w k (if decide (sy_pending (wp_pool w) = 0) then AUnlock else APredState) (wp_holder w))
  | APredState => Some (to_waiter w k (if isRunning (wp_pool w) then ASleep else AUnlock) (wp_holder w))
  | ASleep => Some (to_waiter w k AAsleep None)
  | AUnlock => Some (to_waiter w k AReturned None)
  | AAsleep | AReturned => None
  end.

(** A worker is about to take [m_pendingTasks] from one to zero. *)
Definition finishes (s : Sys T) (m : @Move T) : option nat :=
  match m with
  | MWorker i _ =>
      match sy_workers s !! i with
      | Some WPending => if decide (wrap64 (sy_pending s - 1) = 0) then Some i else None
      | _ => None
      end
  | _ => None
  end.

(** The move takes the mutex while a waiter holds it. *)
Definition blocked w (s' : Sys T) : bool :=
  bool_decide (sy_mutex (wp_pool w) = None) && bool_decide (is_Some (sy_mutex s')) && bool_decide (is_Some (wp_holder w)).

(** A worker that owes a notification does nothing else. *)
Definition owes w (m : @Move T) : bool :=
  match m with MWorker i _ => bool_decide (i ∈ wp_notify w) | _ => false end.

(** src/src/work_stealing_thread_pool.hpp:431-446 WorkStealingThreadPool::executeTask (when the last
    pending task is done, the worker has a notification to send); every other move is
    the pool's *)
Definition pool_part w (m : @Move T) : option WaitSys :=
  if owes w m then None
  else
    s' ← step cfg (wp_pool w) m;
    if blocked w s' then None
    else Some (mkWaitSys s' (wp_holder w)
                 (match finishes (wp_pool w) m with Some i => i :: wp_notify w | None => wp_notify w end)
                 (wp_waiters w)).

(** src/src/work_stealing_thread_pool.hpp:443-445 WorkStealingThreadPool::executeTask (notify_all, without
    the mutex) *)
Definition notify_step w (i : nat) : option WaitSys :=
  if bool_decide (i ∈ wp_notify w) then
    Some (mkWaitSys (wp_pool w) (wp_holder w) (filter (λ k, k ≠ i) (wp_notify w))
            ((λ pc, match pc with AAsleep => AWoken | _ => pc end) <$> wp_waiters w))
  else None.

Inductive WaitMove :=
  | PoolMove (m : @Move T)
  | NotifyDone (i : nat)
  | CallWait                        (* a thread calls waitForTasks *)
  | WaiterMove (k : nat)
  | WaiterSpurious (k : nat).

Definition wait_step w (m : WaitMove) : option WaitSys :=
  match m with
  | PoolMove m => pool_part w m
  | NotifyDone i => notify_step w i
  | CallWait => Some (mkWaitSys (wp_pool w) (wp_holder w) (wp_notify w) (wp_waiters w ++ [ALock]))
  | WaiterMove k => pc ← wp_waiters w !! k; waiter_step w k pc
  | WaiterSpurious k =>
      match wp_waiters w !! k with
      | Some AAsleep => Some (to_waiter w k AWoken (wp_holder w))
      | _ => None
      end
  end.

Definition newWaiting : WaitSys := mkWaitSys (newPool cfg) None [] [].

Definition waiting_step w w' : Prop := ∃ m, wait_step w m = Some w'.

Fixpoint wait_run w (ms : list WaitMove) : option WaitSys :=
  match ms with [] => Some w | m :: ms => w' ← wait_step w m; wait_run w' ms end.

(** ** What waiting does to the pool *)

Lemma wait_step_pool w m w' :
  wait_step w m = Some w' → wp_pool w' = wp_pool w ∨ pool_step cfg (wp_pool w) (wp_pool w').
Proof.
  destruct m as [m|i| |k|k]; simpl.
  - unfold pool_part. destruct (owes w m); [done|]. destruct (step cfg (wp_pool w) m) as [s'|] eqn:Hs; simpl; [|done].
    destruct (blocked w s'); [done|]. intros [= <-]. right. by exists m.
  - unfold notify_step. case_bool_decide; [|done]. intros [= <-]. by left.
  - intros [= <-]. by left.
  - destruct (wp_waiters w !! k) as [pc|]; simpl; [|done]. unfold waiter_step.
    destruct pc; try done; repeat case_match; try done; intros [= <-]; by left.
  - destruct (wp_waiters w !! k) as [[]|]; try done. intros [= <-]. by left.
Qed.

Lemma waiting_pool_steps w w' : rtc waiting_step w w' → rtc (pool_step cfg) (wp_pool w) (wp_pool w').
Proof.
  induction 1 as [|w1 w2 w3 [m Hm] _ IH]; [done|].
  destruct (wait_step_pool _ _ _ Hm) as [<-|Hs]; [done|by eapply rtc_l].
Qed.

Lemma waiting_pool_reachable w : rtc waiting_step newWaiting w → rtc (pool_step cfg) (newPool cfg) (wp_pool w).
Proof. apply waiting_pool_steps. Qed.

(** A thread holds the mutex at most once: a waiter exactly between its lock and its
    release, and only while no worker, submission or shutdown does. *)
Definition waiter_holds (pc : WaiterPc) : bool :=
  match pc with APred | APredState | ASleep | AUnlock => true | _ => false end.

Record holders_ok w : Prop := {
  ho_waiter k pc : wp_waiters w !! k = Some pc → waiter_holds pc = true ↔ wp_holder w = Some k;
  ho_pool : is_Some (wp_holder w) → sy_mutex (wp_pool w) = None;
  ho_range k : wp_holder w = Some k → (k < length (wp_waiters w))%nat;
}.

Lemma holders_new : holders_ok newWaiting.
Proof. split; simpl; [done|by intros []|done]. Qed.

Lemma holders_waiter w k pc w' :
  wp_waiters w !! k = Some pc → waiter_step w k pc = Some w' → holders_ok w → holders_ok w'.
Proof.
  intros Hk Hs [H1 H2 H3]. pose proof (H1 k pc Hk) as Hpc. pose proof (lookup_lt_Some _ _ _ Hk) as Hl.
  assert (∀ pc' h, waiter_holds pc' = bool_decide (h = Some k) → h = Some k ∨ h = None →
    (h = Some k → sy_mutex (wp_pool w) = None) → wp_holder w = None ∨ wp_holder w = Some k →
    holders_ok (to_waiter w k pc' h)) as Hto.
  { intros pc' h Hh Hor Hm Hw. split; simpl; rewrite ?length_insert.
    - intros j pcj [[<- ->]|[Hne Hj]]%lookup_insert_inv; [by rewrite Hh, bool_decide_eq_true|].
      rewrite (H1 j pcj Hj). destruct Hor as [-> | ->], Hw as [-> | ->]; naive_solver.
    - intros [j Hj]. apply Hm. destruct Hor; congruence.
    - intros j Hj. destruct Hor; naive_solver. }
  unfold waiter_step in Hs. destruct pc; simpl in Hpc; try done.
  1, 5: destruct (sy_mutex (wp_pool w)) eqn:Hm, (wp_holder w) eqn:Hh; try done; injection Hs as <-; apply Hto; try by (auto || rewrite bool_decide_eq_true_2).
  1, 2: assert (wp_holder w = Some k) as Hh by (by apply Hpc); case_match; injection Hs as <-; apply Hto;
    try by (auto || rewrite bool_decide_eq_true_2).
  1, 2: assert (wp_holder w = Some k) as Hh by (by apply Hpc); injection Hs as <-; apply Hto; auto; done.
Qed.

Lemma holders_sleep w k pc pc' :
  wp_waiters w !! k = Some pc → waiter_holds pc = waiter_holds pc' → holders_ok w →
  holders_ok (to_waiter w k pc' (wp_holder w)).
Proof.
  intros Hk Hh [H1 H2 H3]. split; simpl; rewrite ?length_insert; try done.
  intros j pcj [[<- ->]|[Hne Hj]]%lookup_insert_inv; [rewrite <-Hh|]; by apply H1.
Qed.

Lemma holders_step w m w' : wait_step w m = Some w' → holders_ok w → holders_ok w'.
Proof.
  intros Hs H. destruct m as [m|i| |k|k]; simpl in Hs.
  - destruct H as [H1 H2 H3]. unfold pool_part in Hs. destruct (owes w m); [done|].
    destruct (step cfg (wp_pool w) m) as [s'|] eqn:Hm; simpl in Hs; [|done].
    destruct (blocked w s') eqn:Hb; [done|]. injection Hs as <-. split; simpl; try done.
    intros Hh. specialize (H2 Hh). unfold blocked in Hb. rewrite (bool_decide_eq_true_2 _ H2), (bool_decide_eq_true_2 _ Hh) in Hb.
    rewrite andb_true_r in Hb. simpl in Hb. apply bool_decide_eq_false in Hb. by apply eq_None_not_Some.
  - destruct H as [H1 H2 H3]. unfold notify_step in Hs. case_bool_decide; [|done]. injection Hs as <-.
    split; simpl; try done; [|by rewrite length_fmap].
    intros k pc. rewrite list_lookup_fmap. intros (pc0 & Hk & ->)%fmap_Some. rewrite <-(H1 k pc0 Hk). by destruct pc0.
  - destruct H as [H1 H2 H3]. injection Hs as <-. split; simpl; try done.
    + intros k pc [Hk|[Hle Hk]]%lookup_app_Some; [by apply H1|]. apply list_lookup_singleton_Some in Hk as [_ <-].
      split; [done|]. intros Hh%H3. lia.
    + intros k Hh%H3. rewrite length_app. lia.
  - destruct (wp_waiters w !! k) as [pc|] eqn:Hk; [|done]. by eapply holders_waiter.
  - destruct (wp_waiters w !! k) as [[]|] eqn:Hk; try done. injection Hs as <-. by eapply holders_sleep.
Qed.

(** Waiters and the pool's own threads exclude one another. *)
Lemma waiters_exclusive w :
  rtc waiting_step newWaiting w →
  (is_Some (wp_holder w) → sy_mutex (wp_pool w) = None) ∧
  ∀ k k' pc pc', wp_waiters w !! k = Some pc → wp_waiters w !! k' = Some pc' →
    waiter_holds pc = true → waiter_holds pc' = true → k = k'.
Proof.
  intros Hr. assert (holders_ok w) as [H1 H2 _].
  { assert (∀ w1 w2, rtc waiting_step w1 w2 → holders_ok w1 → holders_ok w2) as Hall; [|by eapply Hall, holders_new].
    induction 1 as [|w1 w2 w3 [m Hm] _ IH]; [done|]. intros H. by eapply IH, holders_step. }
  split; [done|]. intros k k' pc pc' Hk Hk' Hh%(H1 _ _ Hk) Hh'%(H1 _ _ Hk'). congruence.
Qed.
End Wait.

Arguments WaitSys T : clear implicits.
Arguments WaitMove T : clear implicits.

(** ** Futures and exceptions *)

(** What is thrown: a [std::exception] with its text, or something else. *)
Inductive Thrown := StdException (what : string) | OtherException.

Inductive Outcome (R : Type) := Returned (r : R) | Threw (e : Thrown).
Arguments Returned {R} _.
Arguments Threw {R} _.

(** What a future holds; a task that is destroyed before it ran breaks its promise. *)
Inductive FutureState (R : Type) := NotReady | Ready (o : Outcome R) | BrokenPromise.
Arguments NotReady {R}.
Arguments Ready {R} _.
Arguments BrokenPromise {R}.

(** src/src/work_stealing_thread_pool.hpp:324-324 Task *)
Inductive Task (R : Type) :=
  | Packaged (future : nat) (body : Outcome R)    (* submit and trySubmit *)
  | Posted (body : Outcome unit).                 (* post *)
Arguments Packaged {R} _ _.
Arguments Posted {R} _.

#[export] Instance Thrown_eq : EqDecision Thrown.
Proof. solve_decision. Defined.
#[export] Instance Outcome_eq {R} `{!EqDecision R} : EqDecision (Outcome R).
Proof. solve_decision. Defined.
#[export] Instance FutureState_eq {R} `{!EqDecision R} : EqDecision (FutureState R).
Proof. solve_decision. Defined.
#[export] Instance Task_eq {R} `{!EqDecision R} : EqDecision (Task R).
Proof. solve_decision. Defined.

Section Tasks.
Context {R : Type}.

(** src/src/work_stealing_thread_pool.hpp:118-119 WorkStealingExceptionHandler: whether a call throws *)
Definition Handler : Type := Thrown → string → bool.

(** What running tasks has done: the futures that have a result, the calls of the
    handler, and whether an exception left a worker, which ends the program. *)
Record Effects := mkEffects {
  ef_ready : gmap nat (Outcome R);
  ef_handled : list (Thrown * string);
  ef_terminated : bool;
}.

Definition noEffects : Effects := mkEffects ∅ [] false.

(** src/src/work_stealing_thread_pool.hpp:448-464 WorkStealingThreadPool::handleException *)
Definition handleException (handler : option Handler) (e : Thrown) (ef : Effects) : Effects :=
  match handler with
  | None => ef
  | Some h =>
      let message := match e with StdException what => what | OtherException => "Unknown exception"%string end in
      mkEffects (ef_ready ef) (ef_handled ef ++ [(e, message)]) (ef_terminated ef || h e message)
  end.

(** src/src/work_stealing_thread_pool.hpp:431-438 WorkStealingThreadPool::executeTask (the call of the task:
    a packaged task keeps what its body throws, at lines 176-183 and 220-227) *)
Definition callTask (handler : option Handler) (ef : Effects) (t : Task R) : Effects :=
  match t with
  | Packaged f body => mkEffects (<[f := body]> (ef_ready ef)) (ef_handled ef) (ef_terminated ef)
  | Posted (Returned _) => ef
  | Posted (Threw e) => handleException handler e ef
  end.

Definition effects (handler : option Handler) (s : Sys (Task R)) : Effects :=
  foldl (callTask handler) noEffects (sy_done s).

Definition future_of (t : Task R) : option nat := match t with Packaged f _ => Some f | Posted _ => None end.

(** src/src/work_stealing_thread_pool.hpp:162-187 WorkStealingThreadPool::submit (the future it returns);
    a task that [shutdown] clears breaks its promise *)
Definition future_state (handler : option Handler) (s : Sys (Task R)) (f : nat) : FutureState R :=
  match ef_ready (effects handler s) !! f with
  | Some o => Ready o
  | None => if existsb (λ t, bool_decide (future_of t = Some f)) (sy_discarded s) then BrokenPromise else NotReady
  end.

(** The call of the handler a task causes. *)
Definition handled_of (t : Task R) : option (Thrown * string) :=
  match t with
  | Posted (Threw (StdException what)) => Some (StdException what, what)
  | Posted (Threw OtherException) => Some (OtherException, "Unknown exception"%string)
  | _ => None
  end.

(** ** Queries *)

(** src/src/work_stealing_thread_pool.hpp:286-288 WorkStealingThreadPool::isStopped *)
Definition isStopped {T} (s : Sys T) : bool := bool_decide (sy_state s = KStopped).

(** src/src/work_stealing_thread_pool.hpp:303-305 WorkStealingThreadPool::queueCapacity *)
Definition queueCapacity (cfg : WorkStealingConfig) : Z :=
  wrap64 (pc_max_queue_size_per_worker cfg * Z.of_nat (pc_num_threads cfg)).

(** src/src/work_stealing_thread_pool.hpp:308-315 WorkStealingThreadPool::queueSizes (one deque after the
    other, with its lock) *)
Definition queueSizes {T} (s : Sys T) : list Z := deque_size <$> sy_queues s.

(** ** What clients get *)

Lemma callTask_ready handler ts ef f :
  ef_ready (foldl (callTask handler) ef ts) !! f =
  match last (omap (λ t, match t with Packaged g o => if decide (g = f) then Some o else None | Posted _ => None end) ts) with
  | Some o => Some o
  | None => ef_ready ef !! f
  end.
Proof.
  revert ef. induction ts as [|t ts IH] using rev_ind; intros ef; [done|]. rewrite foldl_app, omap_app, last_app. simpl.
  destruct t as [g o|[[]|e]]; simpl; [| |].
  - destruct (decide (g = f)) as [->|Hne]; simpl; [by rewrite lookup_insert_eq|].
    rewrite lookup_insert_ne by done. apply IH.
  - apply IH.
  - unfold handleException. destruct handler; apply IH.
Qed.

Lemma callTask_handled (h : Handler) ts ef :
  ef_handled (foldl (callTask (Some h)) ef ts) = ef_handled ef ++ omap handled_of ts.
Proof.
  revert ef. induction ts as [|t ts IH]; intros ef; csimpl; [by rewrite app_nil_r|]. rewrite IH.
  destruct t as [g o|[[]|[]]]; simpl; [done|done|by rewrite <-app_assoc|by rewrite <-app_assoc].
Qed.

(** Futures are distinct, as each call of [submit] makes one. *)
Definition own_futures (ts : list (Task R)) : Prop := NoDup (omap future_of ts).

Lemma own_future_outcome handler ts f o :
  own_futures ts → Packaged f o ∈ ts → ef_ready (foldl (callTask handler) noEffects ts) !! f = Some o.
Proof.
  intros Hd Ht. rewrite callTask_ready.
  assert (∀ ts, own_futures ts → Packaged f o ∈ ts →
    omap (λ t : Task R, match t with Packaged g o => if decide (g = f) then Some o else None | Posted _ => None end) ts = [o]) as Hone.
  2: by rewrite (Hone ts Hd Ht).
  clear ts Hd Ht. induction ts as [|t ts IH]; intros Hd Ht; [by apply not_elem_of_nil in Ht|].
  unfold own_futures in *. csimpl in Hd. csimpl.
  assert (∀ ts, f ∉ omap future_of ts →
    omap (λ t : Task R, match t with Packaged g o => if decide (g = f) then Some o else None | Posted _ => None end) ts = []) as Hnone.
  { clear. induction ts as [|[g o|b] ts IH]; csimpl; intros Hf; [done| |by apply IH].
    apply not_elem_of_cons in Hf as [Hne Hf]. rewrite decide_False by done. by apply IH. }
  apply elem_of_cons in Ht as [<-|Ht].
  - simpl in *. apply NoDup_cons in Hd as [Hf _]. by rewrite decide_True, Hnone.
  - destruct t as [g o'|b]; simpl in *; [|by apply IH]. apply NoDup_cons in Hd as [Hg Hd].
    rewrite decide_False; [by apply IH|]. intros ->. apply Hg. apply list_elem_of_omap. by exists (Packaged f o).
Qed.

Lemma no_future_outcome handler ts f :
  f ∉ omap future_of ts → ef_ready (foldl (callTask handler) noEffects ts) !! f = None.
Proof.
  intros Hf. rewrite callTask_ready. simpl. rewrite lookup_empty.
  destruct (last _) as [o|] eqn:Hl; [|done]. exfalso. apply Hf. apply last_Some_elem_of in Hl.
  apply list_elem_of_omap in Hl as (t & Ht & Ho). apply list_elem_of_omap. exists t. split; [done|].
  destruct t as [g o'|b]; [|done]. simpl. case_decide; by simplify_eq.
Qed.
End Tasks.

(** ** Properties *)

Section Clients.
Context {R : Type} `{!EqDecision R} (cfg : WorkStealingConfig) (Hn : (0 < pc_num_threads cfg)%nat).
Implicit Types (s : Sys (Task R)) (w : WaitSys (Task R)) (handler : option Handler).

Lemma own_split (l l' l1 : list (Task R)) :
  l ≡ₚ l1 ++ l' → own_futures l →
  own_futures l1 ∧ own_futures l' ∧ ∀ f o, Packaged f o ∈ l1 → f ∉ omap future_of l'.
Proof.
  intros Hp Ho. unfold own_futures in *. assert (NoDup (omap future_of (l1 ++ l'))) as Hd by (by rewrite <-Hp).
  rewrite omap_app in Hd. apply NoDup_app in Hd as (H1 & H2 & H3). split_and!; try done.
  intros f o Hf. apply H2. apply list_elem_of_omap. by exists (Packaged f o).
Qed.

(** In every reachable state of the pool a future has the outcome of its task once
    that has run, is broken once it has been discarded and is not ready before. *)
Lemma futures_resolved handler s :
  rtc (pool_step cfg) (newPool cfg) s → own_futures (sy_accepted s) →
  (∀ f o, Packaged f o ∈ sy_done s → future_state handler s f = Ready o) ∧
  (∀ f o, Packaged f o ∈ sy_discarded s → future_state handler s f = BrokenPromise) ∧
  (∀ f o, Packaged f o ∈ concat (sy_queues s) ++ omap held_task (sy_workers s) → future_state handler s f = NotReady).
Proof using All.
  intros Hr Ho. pose proof (tasks_permutation s (pv_counts _ (reachable_inv cfg Hn s Hr))) as Hp.
  rewrite (app_assoc (concat _)) in Hp.
  destruct (own_split _ _ _ Hp Ho) as (_ & Ho2 & Hq). destruct (own_split _ _ _ (reflexivity _) Ho2) as (Ho3 & _ & Hd).
  unfold future_state, effects. split_and!; intros f o Hf.
  - by rewrite (own_future_outcome _ _ f o Ho3 Hf).
  - rewrite no_future_outcome.
    + assert (existsb (λ t, bool_decide (future_of t = Some f)) (sy_discarded s) = true) as ->; [|done].
      apply existsb_exists. exists (Packaged f o). split; [by apply list_elem_of_In|]. by apply bool_decide_eq_true.
    + intros (t & Ht & Hft)%list_elem_of_omap. destruct t as [g o'|]; [|done]. injection Hft as ->. apply (Hd f o' Ht).
      apply list_elem_of_omap. by exists (Packaged f o).
  - specialize (Hq f o Hf). rewrite omap_app, not_elem_of_app in Hq. destruct Hq as [Hq1 Hq2].
    rewrite no_future_outcome by done.
    destruct (existsb _ _) eqn:He; [|done]. apply existsb_exists in He as (t & Ht & Hft%bool_decide_eq_true). exfalso.
    apply Hq2, list_elem_of_omap. exists t. split; [by apply list_elem_of_In|done].
Qed.

Lemma idle_workers s : wsum busy (sy_workers s) = 0 → omap held_task (sy_workers s) = [].
Proof.
  induction (sy_workers s) as [|pc ws IH]; csimpl; [done|]. intros Hb.
  assert (0 ≤ wsum busy ws) by (apply wsum_nonneg; intros []; simpl; lia).
  destruct pc; simpl in *; try lia; apply IH; lia.
Qed.

(** When nothing is pending and no submission is between its push and the counter,
    every accepted task has run. *)
Lemma nothing_pending s :
  rtc (pool_step cfg) (newPool cfg) s → sy_discard s = false →
  Z.of_nat (length (sy_accepted s) + length (sy_workers s)) < u64_mod →
  (∀ j sb, sy_subs s !! j = Some sb → uncounted sb = 0) → sy_pending s = 0 → sy_accepted s ≡ₚ sy_done s.
Proof using All.
  intros Hr Hd Hb Hs H0. pose proof (reachable_inv cfg Hn s Hr) as [C _ _ _ _ _ E].
  assert (wsum uncounted (sy_subs s) = 0) as Hu.
  { apply wsum_zero. intros sb [j Hj]%list_elem_of_lookup. by apply (Hs j sb). }
  rewrite (pending_exact s C Hd) in H0; [|rewrite wsum_one; lia|done].
  pose proof (queued_nonneg s) as Hq. pose proof (busy_bounds s) as Hbusy.
  assert (concat (sy_queues s) = []) as Hc.
  { assert (queued one s = 0) as Hz by lia. unfold queued in Hz. rewrite wsum_concat, wsum_one in Hz. apply length_zero_iff_nil. lia. }
  pose proof (tasks_permutation s C) as Hp. rewrite Hc, (idle_workers s) in Hp by lia. rewrite (E Hd), app_nil_r in Hp. done.
Qed.

(** C12: [waitForTasks] waits for the tasks.  Take any interleaving of workers, thieves,
    submissions, a draining shutdown and threads that wait.  When a waiting thread reads
    that nothing is pending and goes on to return, then, unless a submission is at that
    moment between pushing its task and counting it, every accepted task has run exactly
    once and every future handed out holds the value its task returned or the exception
    it threw. *)
Theorem waited_futures_ready handler w k w' :
  rtc (waiting_step cfg) (newWaiting cfg) w →
  wp_waiters w !! k = Some APred → wait_step cfg w (WaiterMove k) = Some w' → wp_waiters w' !! k = Some AUnlock →
  sy_discard (wp_pool w) = false →
  Z.of_nat (length (sy_accepted (wp_pool w)) + length (sy_workers (wp_pool w))) < u64_mod →
  (∀ j sb, sy_subs (wp_pool w) !! j = Some sb → uncounted sb = 0) → own_futures (sy_accepted (wp_pool w)) →
  sy_accepted (wp_pool w) ≡ₚ sy_done (wp_pool w) ∧
  ∀ f o, Packaged f o ∈ sy_accepted (wp_pool w) → future_state handler (wp_pool w) f = Ready o.
Proof using All.
  intros Hr%waiting_pool_reachable Hk Hstep Hk' Hd Hb Hs Ho. simpl in Hstep. rewrite Hk in Hstep. simpl in Hstep.
  injection Hstep as <-. simpl in Hk'. rewrite list_lookup_insert_eq in Hk' by (by eapply lookup_lt_Some).
  case_decide as H0; [|done]. pose proof (nothing_pending _ Hr Hd Hb Hs H0) as Hp. split; [done|].
  intros f o Hf. apply (futures_resolved handler _ Hr Ho). by rewrite <-Hp.
Qed.
End Clients.

(** ** Runs *)

Section Runs.

Definition ex_waiting {T} (ms : list (WaitMove T)) : WaitSys T :=
  default (newWaiting ex_pool) (wait_run ex_pool (newWaiting ex_pool) ms).
Definition wworks {T} (i n : nat) : list (WaitMove T) := replicate n (PoolMove (MWorker i 0)).
Definition wsubmits {T} (j n : nat) : list (WaitMove T) := replicate n (PoolMove (MSub j false 0)).
Definition waits {T} (k n : nat) : list (WaitMove T) := replicate n (WaiterMove k).

Lemma wait_run_steps {T} cfg (w w' : WaitSys T) ms : wait_run cfg w ms = Some w' → rtc (waiting_step cfg) w w'.
Proof.
  revert w. induction ms as [|m ms IH]; intros w; simpl; [by intros [= <-]|].
  destruct (wait_step cfg w m) as [w1|] eqn:Hs; [|done]. simpl. intros Hr. eapply rtc_l; [by exists m|by apply IH].
Qed.

Lemma ex_waiting_reachable {T} (ms : list (WaitMove T)) :
  bool_decide (is_Some (wait_run ex_pool (newWaiting ex_pool) ms)) = true →
  rtc (waiting_step ex_pool) (newWaiting ex_pool) (ex_waiting ms).
Proof. intros [w Hw]%bool_decide_eq_true. unfold ex_waiting. rewrite Hw. by apply wait_run_steps with ms. Qed.

(** A task is submitted; a thread waits and sleeps; the task throws; the thread is
    woken, locks and looks again. *)
Definition ex_wait : list (WaitMove (Task nat)) :=
  PoolMove (MNew (Packaged 0 (Threw OtherException)) None false) :: wsubmits 0 10 ++
  CallWait :: waits 0 4 ++ wworks 0 5 ++ [NotifyDone 0] ++ waits 0 1.

Lemma waited_futures_ready_witness : future_state None (wp_pool (ex_waiting ex_wait)) 0 = Ready (Threw OtherException).
Proof.
  apply (waited_futures_ready ex_pool two_threads None (ex_waiting ex_wait) 0
    (to_waiter (ex_waiting ex_wait) 0 AUnlock (Some 0%nat))).
  - apply ex_waiting_reachable. vm_compute. reflexivity.
  - vm_compute. reflexivity.
  - vm_compute. reflexivity.
  - vm_compute. reflexivity.
  - vm_compute. reflexivity.
  - vm_compute. reflexivity.
  - intros j sb Hj. assert (sy_subs (wp_pool (ex_waiting ex_wait)) =
      [mkSubmission (Packaged 0 (Threw OtherException)) None false SAccepted]) as Hs by (vm_compute; reflexivity).
    rewrite Hs in Hj. apply single_lookup in Hj as ->. reflexivity.
  - unfold own_futures. assert (omap future_of (sy_accepted (wp_pool (ex_waiting ex_wait))) = [0%nat]) as ->
      by (vm_compute; reflexivity). apply NoDup_singleton.
  - assert (sy_accepted (wp_pool (ex_waiting ex_wait)) = [Packaged 0 (Threw OtherException)]) as ->
      by (vm_compute; reflexivity). left.
Defined.

(** ** Divergences *)

(** A thread that had submitted a task returns from [waitForTasks] while the task is
    still queued: another submission has pushed its task, the task has run and been
    counted as done before it was counted as pending. *)
Lemma waitForTasks_returns_early :
  let w := ex_waiting (PoolMove (MNew 7%nat None false) :: wsubmits 0 10 ++ PoolMove (MNew 8%nat None false) ::
                       wsubmits 1 5 ++ wworks 1 5 ++ [NotifyDone 1; CallWait] ++ waits 0 3) in
  rtc (waiting_step ex_pool) (newWaiting ex_pool) w ∧ wp_waiters w = [AReturned] ∧ sy_state (wp_pool w) = KRunning ∧
  sb_pc <$> sy_subs (wp_pool w) = [SAccepted; SPending] ∧ sy_done (wp_pool w) = [8%nat] ∧
  concat (sy_queues (wp_pool w)) = [7%nat].
Proof. split; [apply ex_waiting_reachable; vm_compute; reflexivity|]. vm_compute. split_and!; reflexivity. Qed.

(** No thread can take a step: what is left is that somebody calls the pool or that a
    sleeper wakes by itself. *)
Definition at_rest {T} (w : WaitSys T) : Prop :=
  (∀ i choice, wait_step ex_pool w (PoolMove (MWorker i choice)) = None) ∧
  (∀ j expired woken, wait_step ex_pool w (PoolMove (MSub j expired woken)) = None) ∧
  wait_step ex_pool w (PoolMove MShut) = None ∧ (∀ i, wait_step ex_pool w (NotifyDone i) = None) ∧
  (∀ k, wait_step ex_pool w (WaiterMove k) = None).

Lemma resting_state {T} (w : WaitSys T) :
  (∀ i pc, sy_workers (wp_pool w) !! i = Some pc → pc = WAsleep ∨ pc = WExit) →
  (∀ j sb, sy_subs (wp_pool w) !! j = Some sb → sb_pc sb = SAccepted) →
  sy_shutdown (wp_pool w) = HNone ∨ sy_shutdown (wp_pool w) = HDone → wp_notify w = [] →
  (∀ k pc, wp_waiters w !! k = Some pc → pc = AAsleep) → at_rest w.
Proof.
  intros H1 H2 H3 H4 H5. split_and!; simpl; unfold pool_part; simpl.
  - intros i choice. rewrite H4. case_bool_decide; [done|]. destruct (sy_workers (wp_pool w) !! i) as [pc|] eqn:Hi; [|done].
    by destruct (H1 i pc Hi) as [-> | ->].
  - intros j expired woken. destruct (sy_subs (wp_pool w) !! j) as [sb|] eqn:Hj; [|done]. simpl.
    unfold submit_step. by rewrite (H2 j sb Hj).
  - unfold shutdown_step. by destruct H3 as [-> | ->].
  - intros i. unfold notify_step. rewrite H4. by rewrite bool_decide_eq_false_2 by apply not_elem_of_nil.
  - intros k. destruct (wp_waiters w !! k) as [pc|] eqn:Hk; [|done]. by rewrite (H5 k pc Hk).
Qed.

(** The last worker notifies without the mutex: a thread that has seen a task pending
    and is about to sleep misses it and sleeps on when nothing is pending and every
    worker is idle. *)
Lemma waitForTasks_misses_wakeup :
  let w := ex_waiting (wworks 1 9 ++ PoolMove (MNew 7%nat None false) :: wsubmits 0 9 ++ [PoolMove (MSub 0 false 1)] ++
             wworks 0 4 ++ wworks 1 4 ++ CallWait :: waits 0 3 ++ wworks 0 1 ++ [NotifyDone 0] ++ waits 0 1 ++ wworks 0 9) in
  rtc (waiting_step ex_pool) (newWaiting ex_pool) w ∧ wp_waiters w = [AAsleep] ∧ sy_done (wp_pool w) = [7%nat] ∧
  sy_pending (wp_pool w) = 0 ∧ at_rest w.
Proof.
  split; [apply ex_waiting_reachable; vm_compute; reflexivity|].
  split_and!; [vm_compute; reflexivity..|]. apply resting_state; vm_compute.
  - intros i pc ->%pair_lookup. by left.
  - intros j sb ->%single_lookup. reflexivity.
  - by left.
  - reflexivity.
  - intros k pc ->%single_lookup. reflexivity.
Qed.

(** A discarding shutdown makes the predicate of [waitForTasks] true and wakes nobody
    who waits for it: the pool has stopped and the thread sleeps on. *)
Lemma shutdown_leaves_waiter :
  let w := ex_waiting (PoolMove (MNew 7%nat None false) :: wsubmits 0 10 ++ wworks 0 3 ++
             PoolMove (MNew 8%nat None false) :: wsubmits 1 10 ++ CallWait :: waits 0 4 ++
             PoolMove (MShutdown false) :: replicate 9 (PoolMove MShut) ++ wworks 0 8 ++ wworks 1 6 ++ [PoolMove MShut]) in
  rtc (waiting_step ex_pool) (newWaiting ex_pool) w ∧ wp_waiters w = [AAsleep] ∧ isStopped (wp_pool w) = true ∧ at_rest w.
Proof.
  split; [apply ex_waiting_reachable; vm_compute; reflexivity|].
  split_and!; [vm_compute; reflexivity..|]. apply resting_state; vm_compute.
  - intros i pc ->%pair_lookup. by right.
  - intros [|[|j]] sb Hj; simplify_eq/=; reflexivity.
  - by right.
  - reflexivity.
  - intros k pc ->%single_lookup. reflexivity.
Qed.
End Runs.
