(* ===== verification/EngineCore.v ===== *)
(** * The execution engine: state and elementary operations

    [ExecutionEngine::Impl] of [src/execution_engine_impl.hpp] and the parts of
    [src/execution_engine_impl.cpp] that do not schedule: queues and their drop
    callback, frame identity, the gathering of a node's inputs, the end-of-stream
    latches, the setup and teardown of nodes.

    The engine's state is the record [Engine].  The thread pool is the list
    [e_pool] of posted tasks (node indices), each of which runs as one step, with the
    times the tasks captured at the same positions of [e_scheduledAt]; the condition
    variable has no state.  A node's queues are reached through the
    interface [PortQueue], whose laws the node queue of [NodeQueue.v] satisfies
    ([lock_free_queues] and [input_queues] hold the same objects, here [nd_queues]
    in declaration order, for nodes whose port names are distinct); the
    synchronization strategy is any instance of [SyncStrategy].  User code (setup,
    process, onEndOfStream) is a parameter that may depend on everything observed
    so far; what the engine calls of it, and every callback it invokes, is
    appended to [e_log].  Packets are values: a [PortDataPtr] points to a constant,
    and the one mutation, the stamping of an incoming packet, happens before anyone
    else sees it (the same unstamped packet given for two sources is not
    represented).  The trace sink is the list of the events it was called with; log
    lines are not modelled. *)

From Stdlib Require Import Strings.String.
From S2P Require Import Prelude Errors Packets Graphs CompiledGraphs MpmcQueue NodeQueue FrameAlignment.
From S2P Require Import SyncCoordinator JoinAwareSync ExecutionTypes Trace Schedulers.
Local Open Scope string_scope.
Local Open Scope nat_scope.
Local Open Scope list_scope.
Local Open Scope Z_scope.

(** ** Data *)

(** src/include/ai_pipe/enum.hpp:6-12 NodeExecutionState *)
Inductive NodeExecutionState := WAITING | READY | EXECUTING | COMPLETED | FAILED.

(** src/include/ai_pipe/enum.hpp:15-20 EngineState *)
Inductive EngineState := IDLE | RUNNING | STOPPED | ERROR.

#[export] Instance NodeExecutionState_eq : EqDecision NodeExecutionState.
Proof. solve_decision. Defined.
#[export] Instance EngineState_eq : EqDecision EngineState.
Proof. solve_decision. Defined.

(** src/src/execution_engine_impl.cpp:2736-2748 ExecutionEngine::Impl::stateToString *)
Definition stateToString (s : EngineState) : string :=
  match s with IDLE => "IDLE" | RUNNING => "RUNNING" | STOPPED => "STOPPED" | ERROR => "ERROR" end.

(** What the engine asks of a port's queue: [push] also gives the drop events the
    callback is called with. *)
Class PortQueue `{CppTypes} (Q : Type) := {
  pq_new : QConfig → Q;
  pq_push : Q → PortDataPtr → Q * bool * list DropEvent;
  pq_tryPop : Q → Q * option PortDataPtr;
  pq_tryPeek : Q → option PortDataPtr;
  pq_size : Q → Z;
  pq_isFull : Q → bool;
  pq_clear : Q → Q;
  pq_resetStatistics : Q → Q;
}.

(** A queue [q] holds [pq_items q], oldest first; if it is in order ([pq_ok]), a
    push evicts from the front or is rejected. *)
Class PortQueueLaws `{CppTypes} (Q : Type) `{!PortQueue Q} := {
  pq_ok : Q → Prop;
  pq_items : Q → list PortDataPtr;
  pq_new_spec config : qc_capacity config ≤ 2 ^ 63 → pq_ok (pq_new config) ∧ pq_items (pq_new config) = [];
  pq_push_spec q x q' ok ev : pq_ok q → pq_push q x = (q', ok, ev) →
    pq_ok q' ∧ if ok then ∃ k, pq_items q' = drop k (pq_items q) ++ [x] else pq_items q' = pq_items q;
  pq_push_empty q x q' ok ev : pq_ok q → pq_items q = [] → pq_push q x = (q', ok, ev) → ok = true ∧ ev = [];
  pq_pop_spec q q' r : pq_tryPop q = (q', r) →
    (pq_ok q → pq_ok q') ∧ r = head (pq_items q) ∧ pq_items q' = tail (pq_items q);
  pq_peek_spec q : pq_tryPeek q = head (pq_items q);
  pq_size_spec q : pq_size q = Z.of_nat (length (pq_items q));
  pq_clear_spec q : (pq_ok q → pq_ok (pq_clear q)) ∧ pq_items (pq_clear q) = [];
  pq_reset_spec q : (pq_ok q → pq_ok (pq_resetStatistics q)) ∧ pq_items (pq_resetStatistics q) = pq_items q;
}.

(** src/include/ai_pipe/data_types.hpp:22-22 PortDataMap: a [std::map], ordered by key *)
Definition PortDataMap `{CppTypes} : Type := list (string * PortDataPtr).

Fixpoint pm_insert `{CppTypes} (m : PortDataMap) (k : string) (v : PortDataPtr) : PortDataMap :=
  match m with
  | [] => [(k, v)]
  | (k', v') :: rest =>
      match String.compare k k' with
      | Lt => (k, v) :: m
      | Eq => (k, v) :: rest
      | Gt => (k', v') :: pm_insert rest k v
      end
  end.

Definition pm_find `{CppTypes} (m : PortDataMap) (k : string) : option PortDataPtr :=
  snd <$> (snd <$> list_find (λ kv, kv.1 = k) m).

(** What is observed of the engine: calls of user code and of the callbacks. *)
Inductive Event `{CppTypes} :=
  | EvSetup (node : NodePtr)
  | EvTeardown (node : NodePtr)
  | EvProcess (node : NodePtr) (inputs : PortDataMap)
  | EvFlush (node : NodePtr)
  | EvResult (results : PortDataMap)
  | EvError (message node : string)
  | EvDrop (node : string) (frame : FrameId) (reason : string)
  | EvEndOfStream.

(** What a call of user code does: returns outputs, or throws ([None]: something
    that is not a [std::exception]). *)
Inductive Outcome `{CppTypes} := Returned (outputs : PortDataMap) | Threw (what : option string).

(** src/src/execution_engine_impl.hpp:28-111 ExecutionEngine::Impl::NodeState *)
Record NodeState `{CppTypes} (Q : Type) := mkNodeState {
  nd_node : NodePtr;
  nd_name : string;
  nd_index : nat;
  nd_input_ports : list string;
  nd_queues : list Q;
  nd_sync_tracked : bool;
  nd_stats : AtomicNodeStatistics;
  nd_exec_state : NodeExecutionState;
  nd_last_execution : Z;
  nd_execution_count : Z;
  nd_join_wait_since : Z;
  nd_degrade_pending : bool;
  nd_defer_pending : bool;
  nd_eos_mask : Z;
  nd_eos_propagated : bool;
}.
Arguments mkNodeState {_ Q} _ _ _ _ _ _ _ _ _ _ _ _ _ _ _.
Arguments nd_node {_ Q} _.
Arguments nd_name {_ Q} _.
Arguments nd_index {_ Q} _.
Arguments nd_input_ports {_ Q} _.
Arguments nd_queues {_ Q} _.
Arguments nd_sync_tracked {_ Q} _.
Arguments nd_stats {_ Q} _.
Arguments nd_exec_state {_ Q} _.
Arguments nd_last_execution {_ Q} _.
Arguments nd_execution_count {_ Q} _.
Arguments nd_join_wait_since {_ Q} _.
Arguments nd_degrade_pending {_ Q} _.
Arguments nd_defer_pending {_ Q} _.
Arguments nd_eos_mask {_ Q} _.
Arguments nd_eos_propagated {_ Q} _.

(** An installed [ITraceSink]: the events it was called with, and the hash of the id of
    the thread that makes its [n]-th call. *)
Record TraceSink := mkTraceSink { ts_events : list TraceEvent; ts_thread : nat → Z }.

(** src/src/execution_engine_impl.hpp:453-556 ExecutionEngine::Impl (data members that change while
    the engine runs) *)
Record Engine `{CppTypes} (Q Sy : Type) := mkEngine {
  e_nodes : list (NodeState Q);
  e_sync : Sy;
  e_pool : list nat;
  e_accepting : bool;
  e_statistics : EngineStatistics;
  e_state : EngineState;
  e_activeTasks : Z;
  e_completionReported : bool;
  e_stopFlag : bool;
  e_streamingMode : bool;
  e_sinksAtEos : Z;
  e_endOfStreamReached : bool;
  e_nextFrameId : Z;
  e_nextStreamFrameId : gmap Z Z;
  e_results : PortDataMap;
  e_context : bool;
  e_cancelled : bool;
  e_deferQueue : list (Z * nat);
  e_setUpNodes : list NodePtr;
  e_now : Z;
  e_log : list Event;
  e_scheduledAt : list Z;
  e_traceSink : option TraceSink;
}.
Arguments mkEngine {_ Q Sy} _ _ _ _ _ _ _ _ _ _ _ _ _ _ _ _ _ _ _ _ _ _ _.
Arguments e_nodes {_ Q Sy} _.
Arguments e_sync {_ Q Sy} _.
Arguments e_pool {_ Q Sy} _.
Arguments e_accepting {_ Q Sy} _.
Arguments e_statistics {_ Q Sy} _.
Arguments e_state {_ Q Sy} _.
Arguments e_activeTasks {_ Q Sy} _.
Arguments e_completionReported {_ Q Sy} _.
Arguments e_stopFlag {_ Q Sy} _.
Arguments e_streamingMode {_ Q Sy} _.
Arguments e_sinksAtEos {_ Q Sy} _.
Arguments e_endOfStreamReached {_ Q Sy} _.
Arguments e_nextFrameId {_ Q Sy} _.
Arguments e_nextStreamFrameId {_ Q Sy} _.
Arguments e_results {_ Q Sy} _.
Arguments e_context {_ Q Sy} _.
Arguments e_cancelled {_ Q Sy} _.
Arguments e_deferQueue {_ Q Sy} _.
Arguments e_setUpNodes {_ Q Sy} _.
Arguments e_now {_ Q Sy} _.
Arguments e_log {_ Q Sy} _.
Arguments e_scheduledAt {_ Q Sy} _.
Arguments e_traceSink {_ Q Sy} _.

Section Setters.
Context `{CppTypes} {Q Sy : Type}.

Definition nd_set_queues (s : NodeState Q) (x : list Q) : NodeState Q :=
  mkNodeState (nd_node s) (nd_name s) (nd_index s) (nd_input_ports s) x (nd_sync_tracked s) (nd_stats s)
    (nd_exec_state s) (nd_last_execution s) (nd_execution_count s) (nd_join_wait_since s) (nd_degrade_pending s)
    (nd_defer_pending s) (nd_eos_mask s) (nd_eos_propagated s).
Definition nd_set_sync_tracked (s : NodeState Q) (x : bool) : NodeState Q :=
  mkNodeState (nd_node s) (nd_name s) (nd_index s) (nd_input_ports s) (nd_queues s) x (nd_stats s)
    (nd_exec_state s) (nd_last_execution s) (nd_execution_count s) (nd_join_wait_since s) (nd_degrade_pending s)
    (nd_defer_pending s) (nd_eos_mask s) (nd_eos_propagated s).
Definition nd_set_stats (s : NodeState Q) (x : AtomicNodeStatistics) : NodeState Q :=
  mkNodeState (nd_node s) (nd_name s) (nd_index s) (nd_input_ports s) (nd_queues s) (nd_sync_tracked s) x
    (nd_exec_state s) (nd_last_execution s) (nd_execution_count s) (nd_join_wait_since s) (nd_degrade_pending s)
    (nd_defer_pending s) (nd_eos_mask s) (nd_eos_propagated s).
Definition nd_set_exec_state (s : NodeState Q) (x : NodeExecutionState) : NodeState Q :=
  mkNodeState (nd_node s) (nd_name s) (nd_index s) (nd_input_ports s) (nd_queues s) (nd_sync_tracked s)
    (nd_stats s) x (nd_last_execution s) (nd_execution_count s) (nd_join_wait_since s) (nd_degrade_pending s)
    (nd_defer_pending s) (nd_eos_mask s) (nd_eos_propagated s).
Definition nd_set_last_execution (s : NodeState Q) (x : Z) : NodeState Q :=
  mkNodeState (nd_node s) (nd_name s) (nd_index s) (nd_input_ports s) (nd_queues s) (nd_sync_tracked s)
    (nd_stats s) (nd_exec_state s) x (nd_execution_count s) (nd_join_wait_since s) (nd_degrade_pending s)
    (nd_defer_pending s) (nd_eos_mask s) (nd_eos_propagated s).
Definition nd_set_execution_count (s : NodeState Q) (x : Z) : NodeState Q :=
  mkNodeState (nd_node s) (nd_name s) (nd_index s) (nd_input_ports s) (nd_queues s) (nd_sync_tracked s)
    (nd_stats s) (nd_exec_state s) (nd_last_execution s) x (nd_join_wait_since s) (nd_degrade_pending s)
    (nd_defer_pending s) (nd_eos_mask s) (nd_eos_propagated s).
Definition nd_set_join_wait_since (s : NodeState Q) (x : Z) : NodeState Q :=
  mkNodeState (nd_node s) (nd_name s) (nd_index s) (nd_input_ports s) (nd_queues s) (nd_sync_tracked s)
    (nd_stats s) (nd_exec_state s) (nd_last_execution s) (nd_execution_count s) x (nd_degrade_pending s)
    (nd_defer_pending s) (nd_eos_mask s) (nd_eos_propagated s).
Definition nd_set_degrade_pending (s : NodeState Q) (x : bool) : NodeState Q :=
  mkNodeState (nd_node s) (nd_name s) (nd_index s) (nd_input_ports s) (nd_queues s) (nd_sync_tracked s)
    (nd_stats s) (nd_exec_state s) (nd_last_execution s) (nd_execution_count s) (nd_join_wait_since s) x
    (nd_defer_pending s) (nd_eos_mask s) (nd_eos_propagated s).
Definition nd_set_defer_pending (s : NodeState Q) (x : bool) : NodeState Q :=
  mkNodeState (nd_node s) (nd_name s) (nd_index s) (nd_input_ports s) (nd_queues s) (nd_sync_tracked s)
    (nd_stats s) (nd_exec_state s) (nd_last_execution s) (nd_execution_count s) (nd_join_wait_since s)
    (nd_degrade_pending s) x (nd_eos_mask s) (nd_eos_propagated s).
Definition nd_set_eos_mask (s : NodeState Q) (x : Z) : NodeState Q :=
  mkNodeState (nd_node s) (nd_name s) (nd_index s) (nd_input_ports s) (nd_queues s) (nd_sync_tracked s)
    (nd_stats s) (nd_exec_state s) (nd_last_execution s) (nd_execution_count s) (nd_join_wait_since s)
    (nd_degrade_pending s) (nd_defer_pending s) x (nd_eos_propagated s).
Definition nd_set_eos_propagated (s : NodeState Q) (x : bool) : NodeState Q :=
  mkNodeState (nd_node s) (nd_name s) (nd_index s) (nd_input_ports s) (nd_queues s) (nd_sync_tracked s)
    (nd_stats s) (nd_exec_state s) (nd_last_execution s) (nd_execution_count s) (nd_join_wait_since s)
    (nd_degrade_pending s) (nd_defer_pending s) (nd_eos_mask s) x.

Definition e_set_nodes (s : Engine Q Sy) (x : list (NodeState Q)) : Engine Q Sy :=
  mkEngine x (e_sync s) (e_pool s) (e_accepting s) (e_statistics s) (e_state s) (e_activeTasks s)
    (e_completionReported s) (e_stopFlag s) (e_streamingMode s) (e_sinksAtEos s) (e_endOfStreamReached s)
    (e_nextFrameId s) (e_nextStreamFrameId s) (e_results s) (e_context s) (e_cancelled s) (e_deferQueue s)
    (e_setUpNodes s) (e_now s) (e_log s) (e_scheduledAt s) (e_traceSink s).
Definition e_set_sync (s : Engine Q Sy) (x : Sy) : Engine Q Sy :=
  mkEngine (e_nodes s) x (e_pool s) (e_accepting s) (e_statistics s) (e_state s) (e_activeTasks s)
    (e_completionReported s) (e_stopFlag s) (e_streamingMode s) (e_sinksAtEos s) (e_endOfStreamReached s)
    (e_nextFrameId s) (e_nextStreamFrameId s) (e_results s) (e_context s) (e_cancelled s) (e_deferQueue s)
    (e_setUpNodes s) (e_now s) (e_log s) (e_scheduledAt s) (e_traceSink s).
Definition e_set_pool (s : Engine Q Sy) (x : list nat) : Engine Q Sy :=
  mkEngine (e_nodes s) (e_sync s) x (e_accepting s) (e_statistics s) (e_state s) (e_activeTasks s)
    (e_completionReported s) (e_stopFlag s) (e_streamingMode s) (e_sinksAtEos s) (e_endOfStreamReached s)
    (e_nextFrameId s) (e_nextStreamFrameId s) (e_results s) (e_context s) (e_cancelled s) (e_deferQueue s)
    (e_setUpNodes s) (e_now s) (e_log s) (e_scheduledAt s) (e_traceSink s).
Definition e_set_accepting (s : Engine Q Sy) (x : bool) : Engine Q Sy :=
  mkEngine (e_nodes s) (e_sync s) (e_pool s) x (e_statistics s) (e_state s) (e_activeTasks s)
    (e_completionReported s) (e_stopFlag s) (e_streamingMode s) (e_sinksAtEos s) (e_endOfStreamReached s)
    (e_nextFrameId s) (e_nextStreamFrameId s) (e_results s) (e_context s) (e_cancelled s) (e_deferQueue s)
    (e_setUpNodes s) (e_now s) (e_log s) (e_scheduledAt s) (e_traceSink s).
Definition e_set_statistics (s : Engine Q Sy) (x : EngineStatistics) : Engine Q Sy :=
  mkEngine (e_nodes s) (e_sync s) (e_pool s) (e_accepting s) x (e_state s) (e_activeTasks s)
    (e_completionReported s) (e_stopFlag s) (e_streamingMode s) (e_sinksAtEos s) (e_endOfStreamReached s)
    (e_nextFrameId s) (e_nextStreamFrameId s) (e_results s) (e_context s) (e_cancelled s) (e_deferQueue s)
    (e_setUpNodes s) (e_now s) (e_log s) (e_scheduledAt s) (e_traceSink s).
Definition e_set_state (s : Engine Q Sy) (x : EngineState) : Engine Q Sy :=
  mkEngine (e_nodes s) (e_sync s) (e_pool s) (e_accepting s) (e_statistics s) x (e_activeTasks s)
    (e_completionReported s) (e_stopFlag s) (e_streamingMode s) (e_sinksAtEos s) (e_endOfStreamReached s)
    (e_nextFrameId s) (e_nextStreamFrameId s) (e_results s) (e_context s) (e_cancelled s) (e_deferQueue s)
    (e_setUpNodes s) (e_now s) (e_log s) (e_scheduledAt s) (e_traceSink s).
Definition e_set_activeTasks (s : Engine Q Sy) (x : Z) : Engine Q Sy :=
  mkEngine (e_nodes s) (e_sync s) (e_pool s) (e_accepting s) (e_statistics s) (e_state s) x
    (e_completionReported s) (e_stopFlag s) (e_streamingMode s) (e_sinksAtEos s) (e_endOfStreamReached s)
    (e_nextFrameId s) (e_nextStreamFrameId s) (e_results s) (e_context s) (e_cancelled s) (e_deferQueue s)
    (e_setUpNodes s) (e_now s) (e_log s) (e_scheduledAt s) (e_traceSink s).
Definition e_set_completionReported (s : Engine Q Sy) (x : bool) : Engine Q Sy :=
  mkEngine (e_nodes s) (e_sync s) (e_pool s) (e_accepting s) (e_statistics s) (e_state s) (e_activeTasks s) x
    (e_stopFlag s) (e_streamingMode s) (e_sinksAtEos s) (e_endOfStreamReached s) (e_nextFrameId s)
    (e_nextStreamFrameId s) (e_results s) (e_context s) (e_cancelled s) (e_deferQueue s) (e_setUpNodes s)
    (e_now s) (e_log s) (e_scheduledAt s) (e_traceSink s).
Definition e_set_stopFlag (s : Engine Q Sy) (x : bool) : Engine Q Sy :=
  mkEngine (e_nodes s) (e_sync s) (e_pool s) (e_accepting s) (e_statistics s) (e_state s) (e_activeTasks s)
    (e_completionReported s) x (e_streamingMode s) (e_sinksAtEos s) (e_endOfStreamReached s) (e_nextFrameId s)
    (e_nextStreamFrameId s) (e_results s) (e_context s) (e_cancelled s) (e_deferQueue s) (e_setUpNodes s)
    (e_now s) (e_log s) (e_scheduledAt s) (e_traceSink s).
Definition e_set_streamingMode (s : Engine Q Sy) (x : bool) : Engine Q Sy :=
  mkEngine (e_nodes s) (e_sync s) (e_pool s) (e_accepting s) (e_statistics s) (e_state s) (e_activeTasks s)
    (e_completionReported s) (e_stopFlag s) x (e_sinksAtEos s) (e_endOfStreamReached s) (e_nextFrameId s)
    (e_nextStreamFrameId s) (e_results s) (e_context s) (e_cancelled s) (e_deferQueue s) (e_setUpNodes s)
    (e_now s) (e_log s) (e_scheduledAt s) (e_traceSink s).
Definition e_set_sinksAtEos (s : Engine Q Sy) (x : Z) : Engine Q Sy :=
  mkEngine (e_nodes s) (e_sync s) (e_pool s) (e_accepting s) (e_statistics s) (e_state s) (e_activeTasks s)
    (e_completionReported s) (e_stopFlag s) (e_streamingMode s) x (e_endOfStreamReached s) (e_nextFrameId s)
    (e_nextStreamFrameId s) (e_results s) (e_context s) (e_cancelled s) (e_deferQueue s) (e_setUpNodes s)
    (e_now s) (e_log s) (e_scheduledAt s) (e_traceSink s).
Definition e_set_endOfStreamReached (s : Engine Q Sy) (x : bool) : Engine Q Sy :=
  mkEngine (e_nodes s) (e_sync s) (e_pool s) (e_accepting s) (e_statistics s) (e_state s) (e_activeTasks s)
    (e_completionReported s) (e_stopFlag s) (e_streamingMode s) (e_sinksAtEos s) x (e_nextFrameId s)
    (e_nextStreamFrameId s) (e_results s) (e_context s) (e_cancelled s) (e_deferQueue s) (e_setUpNodes s)
    (e_now s) (e_log s) (e_scheduledAt s) (e_traceSink s).
Definition e_set_nextFrameId (s : Engine Q Sy) (x : Z) : Engine Q Sy :=
  mkEngine (e_nodes s) (e_sync s) (e_pool s) (e_accepting s) (e_statistics s) (e_state s) (e_activeTasks s)
    (e_completionReported s) (e_stopFlag s) (e_streamingMode s) (e_sinksAtEos s) (e_endOfStreamReached s) x
    (e_nextStreamFrameId s) (e_results s) (e_context s) (e_cancelled s) (e_deferQueue s) (e_setUpNodes s)
    (e_now s) (e_log s) (e_scheduledAt s) (e_traceSink s).
Definition e_set_nextStreamFrameId (s : Engine Q Sy) (x : gmap Z Z) : Engine Q Sy :=
  mkEngine (e_nodes s) (e_sync s) (e_pool s) (e_accepting s) (e_statistics s) (e_state s) (e_activeTasks s)
    (e_completionReported s) (e_stopFlag s) (e_streamingMode s) (e_sinksAtEos s) (e_endOfStreamReached s)
    (e_nextFrameId s) x (e_results s) (e_context s) (e_cancelled s) (e_deferQueue s) (e_setUpNodes s) (e_now s)
    (e_log s) (e_scheduledAt s) (e_traceSink s).
Definition e_set_results (s : Engine Q Sy) (x : PortDataMap) : Engine Q Sy :=
  mkEngine (e_nodes s) (e_sync s) (e_pool s) (e_accepting s) (e_statistics s) (e_state s) (e_activeTasks s)
    (e_completionReported s) (e_stopFlag s) (e_streamingMode s) (e_sinksAtEos s) (e_endOfStreamReached s)
    (e_nextFrameId s) (e_nextStreamFrameId s) x (e_context s) (e_cancelled s) (e_deferQueue s) (e_setUpNodes s)
    (e_now s) (e_log s) (e_scheduledAt s) (e_traceSink s).
Definition e_set_context (s : Engine Q Sy) (x : bool) : Engine Q Sy :=
  mkEngine (e_nodes s) (e_sync s) (e_pool s) (e_accepting s) (e_statistics s) (e_state s) (e_activeTasks s)
    (e_completionReported s) (e_stopFlag s) (e_streamingMode s) (e_sinksAtEos s) (e_endOfStreamReached s)
    (e_nextFrameId s) (e_nextStreamFrameId s) (e_results s) x (e_cancelled s) (e_deferQueue s) (e_setUpNodes s)
    (e_now s) (e_log s) (e_scheduledAt s) (e_traceSink s).
Definition e_set_cancelled (s : Engine Q Sy) (x : bool) : Engine Q Sy :=
  mkEngine (e_nodes s) (e_sync s) (e_pool s) (e_accepting s) (e_statistics s) (e_state s) (e_activeTasks s)
    (e_completionReported s) (e_stopFlag s) (e_streamingMode s) (e_sinksAtEos s) (e_endOfStreamReached s)
    (e_nextFrameId s) (e_nextStreamFrameId s) (e_results s) (e_context s) x (e_deferQueue s) (e_setUpNodes s)
    (e_now s) (e_log s) (e_scheduledAt s) (e_traceSink s).
Definition e_set_deferQueue (s : Engine Q Sy) (x : list (Z * nat)) : Engine Q Sy :=
  mkEngine (e_nodes s) (e_sync s) (e_pool s) (e_accepting s) (e_statistics s) (e_state s) (e_activeTasks s)
    (e_completionReported s) (e_stopFlag s) (e_streamingMode s) (e_sinksAtEos s) (e_endOfStreamReached s)
    (e_nextFrameId s) (e_nextStreamFrameId s) (e_results s) (e_context s) (e_cancelled s) x (e_setUpNodes s)
    (e_now s) (e_log s) (e_scheduledAt s) (e_traceSink s).
Definition e_set_setUpNodes (s : Engine Q Sy) (x : list NodePtr) : Engine Q Sy :=
  mkEngine (e_nodes s) (e_sync s) (e_pool s) (e_accepting s) (e_statistics s) (e_state s) (e_activeTasks s)
    (e_completionReported s) (e_stopFlag s) (e_streamingMode s) (e_sinksAtEos s) (e_endOfStreamReached s)
    (e_nextFrameId s) (e_nextStreamFrameId s) (e_results s) (e_context s) (e_cancelled s) (e_deferQueue s) x
    (e_now s) (e_log s) (e_scheduledAt s) (e_traceSink s).
Definition e_set_now (s : Engine Q Sy) (x : Z) : Engine Q Sy :=
  mkEngine (e_nodes s) (e_sync s) (e_pool s) (e_accepting s) (e_statistics s) (e_state s) (e_activeTasks s)
    (e_completionReported s) (e_stopFlag s) (e_streamingMode s) (e_sinksAtEos s) (e_endOfStreamReached s)
    (e_nextFrameId s) (e_nextStreamFrameId s) (e_results s) (e_context s) (e_cancelled s) (e_deferQueue s)
    (e_setUpNodes s) x (e_log s) (e_scheduledAt s) (e_traceSink s).
Definition e_set_log (s : Engine Q Sy) (x : list Event) : Engine Q Sy :=
  mkEngine (e_nodes s) (e_sync s) (e_pool s) (e_accepting s) (e_statistics s) (e_state s) (e_activeTasks s)
    (e_completionReported s) (e_stopFlag s) (e_streamingMode s) (e_sinksAtEos s) (e_endOfStreamReached s)
    (e_nextFrameId s) (e_nextStreamFrameId s) (e_results s) (e_context s) (e_cancelled s) (e_deferQueue s)
    (e_setUpNodes s) (e_now s) x (e_scheduledAt s) (e_traceSink s).
Definition e_set_scheduledAt (s : Engine Q Sy) (x : list Z) : Engine Q Sy :=
  mkEngine (e_nodes s) (e_sync s) (e_pool s) (e_accepting s) (e_statistics s) (e_state s) (e_activeTasks s)
    (e_completionReported s) (e_stopFlag s) (e_streamingMode s) (e_sinksAtEos s) (e_endOfStreamReached s)
    (e_nextFrameId s) (e_nextStreamFrameId s) (e_results s) (e_context s) (e_cancelled s) (e_deferQueue s)
    (e_setUpNodes s) (e_now s) (e_log s) x (e_traceSink s).
Definition e_set_traceSink (s : Engine Q Sy) (x : option TraceSink) : Engine Q Sy :=
  mkEngine (e_nodes s) (e_sync s) (e_pool s) (e_accepting s) (e_statistics s) (e_state s) (e_activeTasks s)
    (e_completionReported s) (e_stopFlag s) (e_streamingMode s) (e_sinksAtEos s) (e_endOfStreamReached s)
    (e_nextFrameId s) (e_nextStreamFrameId s) (e_results s) (e_context s) (e_cancelled s) (e_deferQueue s)
    (e_setUpNodes s) (e_now s) (e_log s) (e_scheduledAt s) x.

End Setters.

(** ** Elementary operations *)

Section Core.
Context `{CppTypes} {Q Sy : Type} `{!PortQueue Q, !SyncStrategy Sy}.
Context (cfg : EngineConfig).
Notation Engine := (Engine Q Sy).
Notation NodeState := (NodeState Q).
Implicit Types (s : Engine) (nd : NodeState).

(** src/src/execution_engine_impl.hpp:209-212 ExecutionEngine::Impl::stateByIndex *)
Definition stateByIndex s (index : nat) : option NodeState := e_nodes s !! index.

Definition upd_node s (index : nat) (f : NodeState → NodeState) : Engine :=
  e_set_nodes s (alter f index (e_nodes s)).

Definition upd_queue s (index port : nat) (q : Q) : Engine :=
  upd_node s index (λ nd, nd_set_queues nd (<[port := q]> (nd_queues nd))).

Definition bump s (f : EngineStatistics → EngineStatistics) : Engine := e_set_statistics s (f (e_statistics s)).

Definition observe s (ev : Event) : Engine := e_set_log s (e_log s ++ [ev]).

(** src/src/execution_engine_impl.cpp:275-295 ExecutionEngine::Impl::emitTrace *)
Definition emitTrace s (phase : TracePhase) (node detail : string) (packet : option DataPacket) (start : Timestamp)
    (duration : Z) : Engine :=
  e_set_traceSink s ((λ sink,
    let event := mkTraceEvent phase node detail (from_option dp_id 0 packet) (from_option dp_stream_id 0 packet) start
                   duration (ts_thread sink (length (ts_events sink))) in
    mkTraceSink (ts_events sink ++ [event]) (ts_thread sink)) <$> e_traceSink s).

(** src/src/execution_engine_impl.cpp:1912-1924 ExecutionEngine::Impl::recordSyncDrop *)
Definition recordSyncDrop s (name : string) (frame_id : FrameId) (reason : string) : Engine :=
  observe (bump s (λ t, es_add_total_dropped_frames t 1)) (EvDrop name frame_id reason).

(** src/src/execution_engine_impl.cpp:2589-2601 ExecutionEngine::Impl::recordQueueRejection *)
Definition recordQueueRejection s (name : string) : Engine :=
  observe (bump s (λ t, es_add_total_dropped_frames (es_add_queue_full_events t 1) 1))
    (EvDrop name k_invalid_frame_id "DropTail queue full").

(** src/src/execution_engine_impl.cpp:1163-1180 ExecutionEngine::Impl::setupDropCallbacks (the
    callback of a queue) *)
Definition queueDropped (name : string) s (ev : DropEvent) : Engine :=
  let s := observe (bump s (λ t, es_add_total_dropped_frames t 1))
             (EvDrop (de_node_name ev) (de_frame_id ev) (de_reason ev)) in
  if sy_isEnabled (e_sync s) && bool_decide (de_frame_id ev ≠ k_invalid_frame_id)
  then e_set_sync s (fst (sy_reportDrop (e_sync s) name (de_frame_id ev) (de_reason ev)))
  else s.

(** [queue->push], with the callbacks it makes. *)
Definition queue_push s (index port : nat) (data : PortDataPtr) : Engine * bool :=
  match stateByIndex s index with
  | None => (s, false)
  | Some nd =>
      match nd_queues nd !! port with
      | None => (s, false)
      | Some q =>
          let '(q', ok, events) := pq_push q data in
          (foldl (queueDropped (nd_name nd)) (upd_queue s index port q') events, ok)
      end
  end.

(** [queue->tryPop]. *)
Definition queue_pop s (index port : nat) : Engine * option PortDataPtr :=
  match stateByIndex s index ≫= (λ nd, nd_queues nd !! port) with
  | None => (s, None)
  | Some q => let (q', r) := pq_tryPop q in (upd_queue s index port q', r)
  end.

(** src/src/execution_engine_impl.cpp:2501-2529 ExecutionEngine::Impl::pushToQueue *)
Definition pushToQueue s (index : nat) (port_name : string) (data : PortDataPtr) : Engine * bool :=
  match stateByIndex s index with
  | None => (s, false)
  | Some nd =>
      match port_index (nd_input_ports nd) port_name with
      | None => (s, false)
      | Some port =>
          let (s', ok) := queue_push s index port data in
          if ok then (emitTrace s' TP_Enqueue (nd_name nd) port_name data (e_now s') 0, true)
          else (recordQueueRejection s' (nd_name nd), false)
      end
  end.

(** src/src/execution_engine_impl.cpp:2603-2611 ExecutionEngine::Impl::getQueueSize *)
Definition getQueueSize nd (port_name : string) : Z :=
  match port_index (nd_input_ports nd) port_name ≫= (λ port, nd_queues nd !! port) with
  | Some q => pq_size q
  | None => 0
  end.

(** src/src/execution_engine_impl.cpp:1896-1910 ExecutionEngine::Impl::recordDequeue *)
Definition recordDequeue s (data : PortDataPtr) : Engine :=
  if ec_enable_statistics cfg then
    let s := bump s (λ t, es_add_total_queue_pops t 1) in
    match data with
    | Some p =>
        if decide (dp_timestamp p ≠ 0) then
          let age := Z.quot (e_now s - dp_timestamp p) ns_per_us in
          if decide (0 < age) then bump s (λ t, es_add_total_wait_time_us t age) else s
        else s
    | None => s
    end
  else s.

(** ** Frame identity *)

Definition set_identity (p : DataPacket) (id : FrameId) (stream : StreamId) (ts : Timestamp) : DataPacket :=
  mkPacket id stream (if decide (dp_timestamp p = 0) then ts else dp_timestamp p) (dp_params p).

(** src/src/execution_engine_impl.cpp:2531-2551 ExecutionEngine::Impl::stampIncomingFrame *)
Definition stampIncomingFrame s (data : PortDataPtr) : Engine * PortDataPtr :=
  match data with
  | None => (s, None)
  | Some p =>
      if hasFrameId p then (s, data)
      else if decide (ec_alignment_policy cfg = AP_StreamFrameId) then
        let id := wrap64 (default 0 (e_nextStreamFrameId s !! dp_stream_id p) + 1) in
        (e_set_nextStreamFrameId s (<[dp_stream_id p := id]> (e_nextStreamFrameId s)),
         Some (set_identity p id (dp_stream_id p) (e_now s)))
      else
        (e_set_nextFrameId s (wrap64 (e_nextFrameId s + 1)),
         Some (set_identity p (e_nextFrameId s) (dp_stream_id p) (e_now s)))
  end.

(** src/src/execution_engine_impl.cpp:297-305 ExecutionEngine::Impl::primaryFrame *)
Definition primaryFrame (packets : PortDataMap) : option DataPacket :=
  head (omap (λ kp, match snd kp with Some p => if hasFrameId p then Some p else None | None => None end) packets).

(** src/src/execution_engine_impl.cpp:2553-2587 ExecutionEngine::Impl::inheritFrameIdentity *)
Definition inheritFrameIdentity (inputs outputs : PortDataMap) : PortDataMap :=
  match primaryFrame inputs with
  | None => outputs
  | Some primary =>
      (λ kp, (fst kp,
        match snd kp with
        | Some p => Some (if hasFrameId p then p
                          else set_identity p (dp_id primary) (dp_stream_id primary) (dp_timestamp primary))
        | None => None
        end)) <$> outputs
  end.

(** src/src/execution_engine_impl.cpp:2615-2623 ExecutionEngine::Impl::collectResults *)
Definition collectResults s (name : string) (outputs : PortDataMap) : Engine :=
  e_set_results s (foldl (λ m kp, pm_insert m (name +:+ ":" +:+ fst kp) (snd kp)) (e_results s) outputs).

(** ** End-of-stream latches *)

(** src/src/execution_engine_impl.hpp:26-26 ExecutionEngine::Impl::k_max_eos_ports *)
Definition k_max_eos_ports : nat := 64.

(** src/src/execution_engine_impl.cpp:2056-2063 ExecutionEngine::Impl::portEosLatched *)
Definition portEosLatched nd (port : nat) : bool :=
  if decide (k_max_eos_ports ≤ port)%nat then false else Z.testbit (nd_eos_mask nd) (Z.of_nat port).

(** src/src/execution_engine_impl.cpp:2065-2078 ExecutionEngine::Impl::portDrained *)
Definition portDrained nd (port : nat) : bool :=
  portEosLatched nd port &&
  match nd_queues nd !! port with None => true | Some q => bool_decide (pq_size q = 0) end.

(** src/src/execution_engine_impl.cpp:2080-2090 ExecutionEngine::Impl::allInputPortsDrained *)
Definition allInputPortsDrained nd : bool :=
  negb (bool_decide (nd_input_ports nd = [])) && forallb (portDrained nd) (seq 0 (length (nd_input_ports nd))).

(** src/src/execution_engine_impl.cpp:2092-2103 ExecutionEngine::Impl::hasPartiallyDrainedInputs *)
Definition hasPartiallyDrainedInputs nd : bool :=
  let ports := seq 0 (length (nd_input_ports nd)) in
  existsb (portDrained nd) ports && existsb (λ i, negb (portDrained nd i)) ports.

Definition latch nd (port : nat) : NodeState :=
  nd_set_eos_mask nd (Z.lor (nd_eos_mask nd) (Z.shiftl 1 (Z.of_nat port))).

(** ** Gathering a node's inputs *)

(** src/src/execution_engine_impl.cpp:1697-1716 ExecutionEngine::Impl::peekAlignmentHead; each round
    takes a packet off, so one round more than there are packets is enough *)
Fixpoint peek_loop (fuel : nat) s (index port : nat) : Engine * option PortDataPtr :=
  match fuel with
  | O => (s, None)
  | S fuel' =>
      match stateByIndex s index with
      | None => (s, None)
      | Some nd =>
          match nd_queues nd !! port ≫= pq_tryPeek with
          | None => (s, None)
          | Some head =>
              let frame := match head with Some p => dp_frameId p | None => 0 end in
              if nd_sync_tracked nd && bool_decide (frame ≠ k_invalid_frame_id) &&
                 sy_shouldDrop (e_sync s) (nd_name nd) frame
              then
                let s := fst (queue_pop s index port) in
                peek_loop fuel' (recordSyncDrop s (nd_name nd) frame "coordinated sync drop") index port
              else (s, Some head)
          end
      end
  end.

Definition queue_length s (index port : nat) : nat :=
  match stateByIndex s index ≫= (λ nd, nd_queues nd !! port) with
  | Some q => Z.to_nat (pq_size q)
  | None => 0
  end.

Definition peekAlignmentHead s (index port : nat) : Engine * option PortDataPtr :=
  peek_loop (S (queue_length s index port)) s index port.

(** src/src/execution_engine_impl.cpp:1718-1727 ExecutionEngine::Impl::dropStaleHead *)
Definition dropStaleHead s (index port : nat) (head : PortDataPtr) (reason : string) : Engine :=
  match stateByIndex s index with
  | None => s
  | Some nd =>
      let h := match head with Some p => p | None => emptyPacket end in
      let s := recordSyncDrop (fst (queue_pop s index port)) (nd_name nd) (dp_frameId h) reason in
      if nd_sync_tracked nd && hasFrameId h
      then e_set_sync s (fst (sy_reportDrop (e_sync s) (nd_name nd) (dp_frameId h) reason))
      else s
  end.

(** The engine while one node gathers, with the packets delivered so far, by port. *)
Record Gather := mkGather { ga_engine : Engine; ga_index : nat; ga_delivered : list (nat * PortDataPtr) }.

Definition deliver (g : Gather) (port : nat) (data : PortDataPtr) : Gather :=
  mkGather (recordDequeue (ga_engine g) data) (ga_index g) (ga_delivered g ++ [(port, data)]).

(** [inputs[state.input_ports[i]] = data] for each delivery in turn. *)
Definition gathered_inputs nd (g : Gather) : PortDataMap :=
  foldl (λ m pd, pm_insert m (default "" (nd_input_ports nd !! fst pd)) (snd pd)) [] (ga_delivered g).

(** src/src/execution_engine_impl.cpp:1673-1695 ExecutionEngine::Impl::runAlignedGather (the
    callbacks) *)
Instance engine_ports : PortOps Gather := {
  po_peek g port :=
    let (s, h) := peekAlignmentHead (ga_engine g) (ga_index g) port in (mkGather s (ga_index g) (ga_delivered g), h);
  po_pop g port :=
    match queue_pop (ga_engine g) (ga_index g) port with
    | (s, None) => (mkGather s (ga_index g) (ga_delivered g), false)
    | (s, Some data) => (deliver (mkGather s (ga_index g) (ga_delivered g)) port data, true)
    end;
  po_drop g port head reason :=
    mkGather (dropStaleHead (ga_engine g) (ga_index g) port head reason) (ga_index g) (ga_delivered g);
  po_closed g port :=
    match stateByIndex (ga_engine g) (ga_index g) with Some nd => portDrained nd port | None => false end;
}.

Definition queued nd : nat := sum_list ((λ q, Z.to_nat (pq_size q)) <$> nd_queues nd).

(** src/src/execution_engine_impl.cpp:1673-1695 ExecutionEngine::Impl::runAlignedGather *)
Definition runAlignedGather {P} `{!AlignPolicy P} (policy : P) (g : Gather) : option (Gather * bool) :=
  match stateByIndex (ga_engine g) (ga_index g) with
  | None => Some (g, false)
  | Some nd => gatherAligned (S (queued nd)) (length (nd_input_ports nd)) policy g
  end.

(** src/src/execution_engine_impl.cpp:1750-1763 ExecutionEngine::Impl::degradeJoinGather (reference) *)
Definition reference_head (heads : list (option PortDataPtr)) : option DataPacket :=
  foldl (λ reference h,
    match h with
    | Some (Some head) =>
        if bool_decide (ec_alignment_policy cfg ≠ AP_Timestamp) && negb (hasFrameId head) then reference
        else match reference with
             | None => Some head
             | Some r => if decide (dp_timestamp head < dp_timestamp r) then Some head else reference
             end
    | _ => reference
    end) None heads.

(** src/src/execution_engine_impl.cpp:1767-1781 ExecutionEngine::Impl::degradeJoinGather
    (pairs_with_reference) *)
Definition pairs_with_reference (reference : option DataPacket) (head : DataPacket) : bool :=
  match reference with
  | None => true
  | Some r =>
      match ec_alignment_policy cfg with
      | AP_StreamFrameId => stream_pairsWith head r
      | AP_Timestamp => ts_pairsWith (mkTimestampPolicy (ec_alignment_tolerance_us cfg)) head r
      | AP_FrameId => frameId_pairsWith head r
      end
  end.

(** src/src/execution_engine_impl.cpp:1788-1808 ExecutionEngine::Impl::degradeJoinGather (one port) *)
Definition degrade_port (reference : option DataPacket) (acc : Gather * bool) (ph : nat * option PortDataPtr)
    : Gather * bool :=
  let '(g, delivered) := acc in
  match snd ph with
  | None => acc
  | Some head =>
      if match head with Some p => negb (pairs_with_reference reference p) | None => false end then acc
      else if decide (ec_join_timeout_policy cfg = PartialInputs) then
        match queue_pop (ga_engine g) (ga_index g) (fst ph) with
        | (s, None) => (mkGather s (ga_index g) (ga_delivered g), delivered)
        | (s, Some data) => (deliver (mkGather s (ga_index g) (ga_delivered g)) (fst ph) data, true)
        end
      else
        (mkGather (dropStaleHead (ga_engine g) (ga_index g) (fst ph) head "join wait timeout - frame skipped")
           (ga_index g) (ga_delivered g), delivered)
  end.

(** src/src/execution_engine_impl.cpp:1729-1817 ExecutionEngine::Impl::degradeJoinGather *)
Definition degradeJoinGather (g : Gather) : Gather * bool :=
  match stateByIndex (ga_engine g) (ga_index g) with
  | None => (g, false)
  | Some nd =>
      let ports := seq 0 (length (nd_input_ports nd)) in
      let '(s, heads) :=
        foldl (λ '(s, hs) i, let (s', h) := peekAlignmentHead s (ga_index g) i in (s', hs ++ [h]))
          (ga_engine g, []) ports in
      let g := mkGather s (ga_index g) (ga_delivered g) in
      let available := length (filter is_Some heads) in
      if decide (available = 0%nat ∨ available = length ports) then (g, false)
      else
        let g := mkGather (bump s (λ t, es_add_total_join_timeouts t 1)) (ga_index g) (ga_delivered g) in
        let '(g', delivered) := foldl (degrade_port (reference_head heads)) (g, false) (zip ports heads) in
        (g', bool_decide (ec_join_timeout_policy cfg = PartialInputs) && delivered)
  end.

(** src/src/execution_engine_impl.cpp:1647-1665 ExecutionEngine::Impl::gatherNodeInputs (one port) *)
Fixpoint pop_undropped (fuel : nat) (g : Gather) (port : nat) : Gather * bool :=
  match fuel with
  | O => (g, false)
  | S fuel' =>
      match queue_pop (ga_engine g) (ga_index g) port with
      | (s, None) => (mkGather s (ga_index g) (ga_delivered g), false)
      | (s, Some data) =>
          match stateByIndex s (ga_index g) with
          | None => (g, false)
          | Some nd =>
              let dropped := match data with
                             | Some p => nd_sync_tracked nd && hasFrameId p &&
                                         sy_shouldDrop (e_sync s) (nd_name nd) (dp_frameId p)
                             | None => false
                             end in
              if dropped then
                let frame := match data with Some p => dp_frameId p | None => 0 end in
                pop_undropped fuel'
                  (mkGather (recordSyncDrop s (nd_name nd) frame "coordinated sync drop") (ga_index g) (ga_delivered g))
                  port
              else (deliver (mkGather s (ga_index g) (ga_delivered g)) port data, true)
          end
      end
  end.

(** src/src/execution_engine_impl.cpp:1638-1671 ExecutionEngine::Impl::gatherNodeInputs (plain) *)
Fixpoint plain_gather (ports : list nat) (any_open_port : bool) (g : Gather) : Gather * bool :=
  match ports with
  | [] => (g, any_open_port)
  | i :: rest =>
      match stateByIndex (ga_engine g) (ga_index g) with
      | None => (g, false)
      | Some nd =>
          if portDrained nd i then plain_gather rest any_open_port g
          else
            match pop_undropped (S (queue_length (ga_engine g) (ga_index g) i)) g i with
            | (g', false) => (g', false)
            | (g', true) => plain_gather rest true g'
            end
      end
  end.

(** src/src/execution_engine_impl.cpp:1592-1610 ExecutionEngine::Impl::gatherNodeInputs (the aligned
    paths); [None] for [aligned_path == false] *)
Definition aligned_gather (g : Gather) : option (option (Gather * bool)) :=
  match ec_alignment_policy cfg with
  | AP_StreamFrameId => Some (runAlignedGather mkStreamFrameIdPolicy g)
  | AP_Timestamp => Some (runAlignedGather (mkTimestampPolicy (ec_alignment_tolerance_us cfg)) g)
  | AP_FrameId => if sy_isEnabled (e_sync (ga_engine g)) then Some (runAlignedGather mkFrameIdPolicy g) else None
  end.

(** src/src/execution_engine_impl.cpp:1574-1671 ExecutionEngine::Impl::gatherNodeInputs *)
Definition gatherNodeInputs s (index : nat) : option (Gather * bool) :=
  match stateByIndex s index with
  | None => Some (mkGather s index [], false)
  | Some nd =>
      let ports := seq 0 (length (nd_input_ports nd)) in
      let plain g := plain_gather ports (bool_decide (nd_input_ports nd = [])) g in
      if decide (1 < length (nd_input_ports nd))%nat then
        let degrade_requested := bool_decide (0 < ec_join_wait_timeout_ms cfg) && nd_degrade_pending nd in
        let s := if decide (0 < ec_join_wait_timeout_ms cfg)
                 then upd_node s index (λ nd, nd_set_degrade_pending nd false) else s in
        let g := mkGather s index [] in
        match aligned_gather g with
        | Some r =>
            '(g', gathered) ← r;
            Some (if negb gathered && degrade_requested then degradeJoinGather g' else (g', gathered))
        | None =>
            let any_port_dry := existsb (λ q, bool_decide (pq_size q = 0)) (nd_queues nd) in
            Some (if degrade_requested && any_port_dry then degradeJoinGather g else plain g)
        end
      else Some (plain (mkGather s index []))
  end.
End Core.

Arguments mkGather {_ Q Sy} _ _ _.
Arguments ga_engine {_ Q Sy} _.
Arguments ga_index {_ Q Sy} _.
Arguments ga_delivered {_ Q Sy} _.
#[export] Existing Instance engine_ports.

(** ** Initialization *)

Section Init.
Context `{CppTypes} {Q Sy : Type} `{!PortQueue Q, !SyncStrategy Sy}.
Context (deref : NodePtr → ILogicNode) (cfg : EngineConfig) (queue_configs : gmap string QueueConfig).

(** src/src/execution_engine_impl.cpp:2625-2637 ExecutionEngine::Impl::getNodeQueueConfig *)
Definition getNodeQueueConfig (node_name : string) : QueueConfig :=
  match queue_configs !! node_name with
  | Some config => config
  | None => mkQueueConfig (ec_default_queue_capacity cfg) (ec_default_drop_strategy cfg) 1 (ec_enable_statistics cfg)
  end.

(** src/src/execution_engine_impl.cpp:1119-1126 ExecutionEngine::Impl::initializeQueues (drop_policy) *)
Definition drop_policy_of (strategy : string) : LockFreeDropPolicy :=
  if decide (strategy = "KeepLatest" ∨ strategy = "keep_latest") then KeepLatest
  else if decide (strategy = "DropTail" ∨ strategy = "drop_tail") then DropTail
  else DropHead.

(** src/src/execution_engine_impl.cpp:1111-1135 ExecutionEngine::Impl::initializeQueues (queue_config) *)
Definition port_queue_config (name port : string) : QConfig :=
  let config := getNodeQueueConfig name in
  let cap := if decide (0 < qcfg_capacity config) then qcfg_capacity config else ec_default_queue_capacity cfg in
  mkQConfig (if decide (cap = 0) then 1024 else cap) (drop_policy_of (qcfg_drop_strategy config))
    (qcfg_keep_latest_n config) (qcfg_track_statistics config) name port.

(** src/src/execution_engine_impl.cpp:1101-1147 ExecutionEngine::Impl::initializeQueues (the queues of
    a node) *)
Definition initializeQueues (p : NodePtr) : list Q :=
  (λ port, pq_new (port_queue_config (getName (deref p)) port)) <$> getExpectedInputPorts (deref p).

(** src/src/execution_engine_impl.cpp:1076-1099 ExecutionEngine::Impl::initializeNodeStates *)
Definition initializeNodeStates (cg : CompiledGraph) (sync : Sy) : list (NodeState Q) :=
  imap (λ i p,
    mkNodeState p (getName (deref p)) i (getExpectedInputPorts (deref p)) (initializeQueues p)
      (sy_isEnabled sync && sy_tracksNode sync (getName (deref p))) as_reset WAITING 0 0 0 false false 0 false)
    (cg_nodes cg).

(** src/src/execution_engine_impl.cpp:359-406 ExecutionEngine::Impl::initialize (a first
    initialization, once the graph is compiled and the strategies are initialized from it) *)
Definition initialized (cg : CompiledGraph) (sync : Sy) (now : Z) : Engine Q Sy :=
  mkEngine (initializeNodeStates cg sync) sync [] true (newEngineStatistics now) IDLE 0 false false false 0 false
    1 ∅ [] false false [] [] now [] [] None.
End Init.

(** src/src/execution_engine_impl.cpp:307-331 ExecutionEngine::Impl::configureForMode (the scheduler) *)
Definition scheduler_for (cfg : EngineConfig) (mode : ExecutionMode) : SchedulerStrategy :=
  match mode with
  | BATCH => BatchScheduler
  | STREAM => StreamScheduler (mkStreamConfig (ec_allow_partial_inputs cfg) dzero true (ec_min_execution_interval_ms cfg))
  end.

(** ** The node queue behind the interface *)

Section Queues.
Context `{CppTypes}.

(** src/src/execution_engine_impl.cpp:1156-1162 ExecutionEngine::Impl::setupDropCallbacks (frame id
    accessor) *)
Definition frame_accessor (item : PortDataPtr) : option FrameId :=
  match item with Some p => if hasFrameId p then Some (dp_frameId p) else None | None => None end.

(** The queue of a port: a [LockFreeNodeQueue] over the reference FIFO, which the
    ring buffer refines ([ring_refines_fifo]). *)
Notation PQ := (NodeQueue (BoundedList PortDataPtr) PortDataPtr).

Definition queue_items (q : PQ) : list PortDataPtr := bl_items (nq_queue q).

Definition queue_ok (q : PQ) : Prop :=
  2 ≤ bl_capacity (nq_queue q) ∧ Z.of_nat (length (queue_items q)) ≤ bl_capacity (nq_queue q).

#[global] Instance node_queue_port : PortQueue PQ := {
  pq_new config := mkNQ config (mkBounded (roundUpPowerOf2 (qc_capacity config)) []) qstats_reset true
                     (Some frame_accessor) [];
  pq_push q x :=
    match push (S (length (queue_items q))) q x with
    | Some (q', ok) => (q', ok, drop (length (nq_events q)) (nq_events q'))
    | None => (q, false, [])
    end;
  pq_tryPop q := match nq_tryPop q with Some r => r | None => (q, None) end;
  pq_tryPeek q := nq_tryPeek q;
  pq_size q := nq_size q;
  pq_isFull q := bool_decide (q_capacity (nq_queue q) ≤ nq_size q);
  pq_clear q := match nq_clear (S (length (queue_items q))) q with Some q' => q' | None => q end;
  pq_resetStatistics q := resetStatistics q;
}.

#[global] Instance node_queue_port_laws : PortQueueLaws PQ.
Proof.
  refine {| pq_ok := queue_ok; pq_items := queue_items |}; unfold queue_ok, queue_items.
  - intros config Hc. simpl. split; [|done]. destruct (roundUpPowerOf2_spec _ Hc) as (k & Hk & -> & _).
    assert (2 ^ 1 ≤ 2 ^ k) by (apply Z.pow_le_mono_r; lia). lia.
  - intros q x q' ok ev [H2 Hl] Hp. unfold pq_push, node_queue_port, queue_items in Hp.
    pose proof (push_spec 0 (S (length (bl_items (nq_queue q)))) q (bl_items (nq_queue q)) x) as Hs.
    destruct (spec_push _ _ _ _ _) as [[l' dropped] ok0] eqn:Hsp.
    destruct Hs as (s' & Hpush & (Hl' & Hc & Hle) & _); [by split_and!|lia|].
    rewrite Hpush in Hp. injection Hp as <- <- _. rewrite Hl'. split; [done|].
    unfold spec_push in Hsp. case_decide; simplify_eq; eauto.
  - intros q x q' ok ev [H2 Hl] He Hp. unfold pq_push, node_queue_port, queue_items in Hp.
    pose proof (push_spec 0 (S (length (bl_items (nq_queue q)))) q (bl_items (nq_queue q)) x) as Hs.
    unfold queue_items in He. unfold spec_push in Hs. rewrite decide_False in Hs by (rewrite He; simpl; lia).
    destruct Hs as (s' & Hpush & _ & _ & Hev & _); [by split_and!|lia|].
    rewrite Hpush in Hp. injection Hp as _ <- <-. split; [done|]. apply drop_ge.
    rewrite He, take_nil in Hev. unfold event_frames in Hev. simpl in Hev. destruct (nq_callback q); [|by rewrite Hev].
    rewrite app_nil_r in Hev. apply (f_equal length) in Hev. rewrite !length_fmap in Hev. lia.
  - intros q q' r. simpl. unfold nq_tryPop; simpl. destruct (bl_items (nq_queue q)) as [|y l] eqn:Hi;
      intros [= <- <-]; simpl; rewrite ?Hi.
    + by destruct q.
    + unfold tracked. simpl in *. destruct (qc_track_statistics _); simpl; split_and!; try done; lia.
  - done.
  - done.
  - intros q. simpl. unfold nq_clear.
    assert (∀ l b, bl_items b = l → clear_loop (T := PortDataPtr) (S (length l)) b = Some (mkBounded (bl_capacity b) []))
      as Hcl.
    { intros l. induction l as [|y l IH]; intros [c its] Hits; simpl in Hits; subst its; [done|].
      transitivity (clear_loop (T := PortDataPtr) (S (length l)) (mkBounded c l)); [done|]. by rewrite IH. }
    pose proof (Hcl _ (nq_queue q) eq_refl) as Hq. unfold queue_items. cbn [length] in Hq. rewrite Hq. simpl.
    split; [lia|done].
  - done.
Defined.
End Queues.
