(* ===== verification/EngineGather.v ===== *)
(** * What the engine's gather sees of its queues

    The engine hands [gatherAligned] three callbacks that peek, pop and drop at the
    queues of the executing node.  They satisfy the laws [FrameAlignment.v] asks of
    ports, for any queue that satisfies [PortQueueLaws]: so what is proved there of
    the loop holds in the engine, and the gather always ends. *)

From S2P Require Import Prelude Errors Packets Graphs CompiledGraphs MpmcQueue NodeQueue FrameAlignment.
From S2P Require Import SyncCoordinator JoinAwareSync ExecutionTypes Schedulers EngineCore.
Local Open Scope list_scope.
Local Open Scope nat_scope.

Section Gather.
Context `{CppTypes} {Q Sy : Type} `{!PortQueue Q, !PortQueueLaws Q, !SyncStrategy Sy}.
Context (cfg : EngineConfig).
Notation Engine := (Engine Q Sy).
Notation NodeState := (NodeState Q).
Notation Gather := (Gather (Q := Q) (Sy := Sy)).
Implicit Types (s : Engine) (nd : NodeState) (g : Gather).

(** The packets waiting at node [i], by port. *)
Definition items s (i : nat) : list (list PortDataPtr) :=
  match stateByIndex s i with Some nd => pq_items <$> nd_queues nd | None => [] end.

Lemma items_upd_queue s i k q : items (upd_queue s i k q) i = <[k := pq_items q]> (items s i).
Proof.
  unfold items, stateByIndex, upd_queue, upd_node. simpl. rewrite list_lookup_alter, decide_True by done.
  destruct (e_nodes s !! i) as [nd|]; simpl; [apply list_fmap_insert|done].
Qed.

Lemma items_lookup s i k :
  items s i !! k = pq_items <$> (stateByIndex s i ≫= (λ nd, nd_queues nd !! k)).
Proof. unfold items. destruct (stateByIndex s i) as [nd|]; simpl; [apply list_lookup_fmap|done]. Qed.

Lemma queue_pop_items s i k s' r :
  queue_pop s i k = (s', r) → items s' i = alter tail k (items s i) ∧ r = (items s i !! k) ≫= head.
Proof.
  unfold queue_pop. rewrite items_lookup.
  destruct (stateByIndex s i ≫= (λ nd, nd_queues nd !! k)) as [q|] eqn:Hq; simpl.
  - destruct (pq_tryPop q) as [q' r'] eqn:Hp. intros [= <- <-]. destruct (pq_pop_spec _ _ _ Hp) as (_ & -> & Hi).
    split; [|done]. rewrite items_upd_queue, Hi. apply list_eq. intros j.
    assert (items s i !! k = Some (pq_items q)) as Hk by (by rewrite items_lookup, Hq).
    rewrite list_lookup_alter. case_decide as Hj.
    + subst j. rewrite list_lookup_insert_eq by (by eapply lookup_lt_Some). by rewrite Hk.
    + by rewrite list_lookup_insert_ne.
  - intros [= <- <-]. split; [|done]. apply list_eq. intros j. rewrite list_lookup_alter. case_decide; [|done].
    subst j. by rewrite items_lookup, Hq.
Qed.

Lemma alter_tail_insert (l : list (list PortDataPtr)) k x q : l !! k = Some (x :: q) → alter tail k l = <[k := q]> l.
Proof.
  intros Hk. apply list_eq. intros j. rewrite list_lookup_alter. case_decide as Hj.
  - subst j. rewrite Hk, list_lookup_insert_eq by (by eapply lookup_lt_Some). done.
  - by rewrite list_lookup_insert_ne.
Qed.

Lemma peek_loop_items fuel s i k s' r :
  length (items s i !!! k) < fuel → peek_loop fuel s i k = (s', r) →
  ∃ q', q' `suffix_of` (items s i !!! k) ∧ items s' i = <[k := q']> (items s i) ∧ r = head q'.
Proof.
  revert s. induction fuel as [|fuel IH]; intros s Hf; [lia|]. cbn [peek_loop].
  destruct (stateByIndex s i) as [nd|] eqn:Hi.
  2:{ intros [= <- <-]. exists []. split_and!; [apply suffix_nil| |done]. unfold items. by rewrite Hi. }
  pose proof (items_lookup s i k) as Hk. rewrite Hi in Hk. simpl in Hk.
  destruct (nd_queues nd !! k) as [q|] eqn:Hq; simpl in Hk |- *.
  2:{ intros [= <- <-]. exists []. split_and!; [apply suffix_nil| |done].
      rewrite list_insert_ge; [done|]. by apply lookup_ge_None. }
  rewrite (list_lookup_total_correct _ _ _ Hk) in Hf |- *.
  rewrite pq_peek_spec. destruct (pq_items q) as [|h rest] eqn:Hits; simpl.
  { intros [= <- <-]. exists []. split_and!; [done| |done]. by rewrite list_insert_id. }
  case_match.
  - destruct (queue_pop s i k) as [s1 r1] eqn:Hp. apply queue_pop_items in Hp as [Hp _]. simpl.
    set (s2 := recordSyncDrop s1 _ _ _). intros Hl.
    assert (items s2 i = <[k := rest]> (items s i)) as H2.
    { change (items s1 i = <[k := rest]> (items s i)). rewrite Hp. by eapply alter_tail_insert. }
    assert (items s2 i !!! k = rest) as H2k.
    { rewrite H2. apply list_lookup_total_insert_eq. by eapply lookup_lt_Some. }
    destruct (IH s2) as (q' & Hs & Hi' & ->); [rewrite H2k; simpl in Hf; lia|exact Hl|].
    exists q'. split_and!; [|by rewrite Hi', H2, list_insert_insert_eq|done]. rewrite H2k in Hs. by apply suffix_cons_r.
  - intros [= <- <-]. exists (h :: rest). split_and!; [done| |done]. by rewrite list_insert_id.
Qed.

Lemma queue_length_items s i k : queue_length s i k = length (items s i !!! k).
Proof.
  unfold queue_length. rewrite list_lookup_total_alt, items_lookup.
  destruct (stateByIndex s i ≫= (λ nd, nd_queues nd !! k)) as [q|]; simpl; [|done].
  by rewrite pq_size_spec, Nat2Z.id.
Qed.

Lemma dropStaleHead_items s i k h r : items (dropStaleHead s i k h r) i = alter tail k (items s i).
Proof.
  unfold dropStaleHead. destruct (stateByIndex s i) as [nd|] eqn:Hi.
  - destruct (queue_pop s i k) as [s1 r1] eqn:Hp. apply queue_pop_items in Hp as [Hp _]. simpl. rewrite <-Hp.
    by case_match.
  - unfold items. rewrite Hi. done.
Qed.

Lemma recordDequeue_items s x i : items (recordDequeue cfg s x) i = items s i.
Proof. unfold recordDequeue. by repeat case_match. Qed.

(** The callbacks of [runAlignedGather] are lawful ports. *)
#[global] Instance engine_ports_laws : @PortLaws _ Gather (engine_ports cfg).
Proof.
  refine {| po_ports g := items (ga_engine g) (ga_index g); po_out g := ga_delivered g |}; simpl.
  - intros g k g' r. unfold peekAlignmentHead. destruct (peek_loop _ _ _ _) as [s1 h] eqn:Hp. intros [= <- <-].
    apply peek_loop_items in Hp; [|by rewrite queue_length_items; lia]. destruct Hp as (q' & Hs & Hi & ->).
    by exists q'.
  - intros g k x q Hk. destruct (queue_pop _ _ _) as [s1 r] eqn:Hp. apply queue_pop_items in Hp as [Hi ->].
    rewrite Hk. simpl. eexists. split_and!; [done| |done]. simpl. rewrite recordDequeue_items, Hi. by eapply alter_tail_insert.
  - intros g k h r. split; [apply dropStaleHead_items|done].
Defined.

(** ** The gather ends *)

(** One queue per input port, as [initializeQueues] makes them. *)
Definition wired nd : bool := bool_decide (length (nd_queues nd) = length (nd_input_ports nd)).

Lemma wired_items s i nd :
  stateByIndex s i = Some nd → wired nd = true → length (items s i) = length (nd_input_ports nd).
Proof. intros Hi Hw%bool_decide_eq_true. unfold items. by rewrite Hi, length_fmap. Qed.

Lemma queued_total s i nd : stateByIndex s i = Some nd → queued nd = total (items s i).
Proof.
  intros Hi. unfold queued, total, items. rewrite Hi. f_equal. rewrite <-list_fmap_compose. apply list_fmap_ext.
  intros k q _. simpl. by rewrite pq_size_spec, Nat2Z.id.
Qed.

Lemma runAligned_spec {P} `{!AlignPolicy P, !AlignLaws P} (policy : P) g nd :
  stateByIndex (ga_engine g) (ga_index g) = Some nd → wired nd = true →
  ∃ g' ok, runAlignedGather cfg policy g = Some (g', ok) ∧
    @gather_outcome _ P _ _ _ (engine_ports_laws) (length (nd_input_ports nd)) policy g g' ok.
Proof.
  intros Hi Hw. unfold runAlignedGather. rewrite Hi. apply (gather_spec (St := Gather)); simpl.
  - by rewrite (wired_items _ _ _ Hi Hw).
  - rewrite (queued_total _ _ _ Hi). lia.
Qed.

(** The gather stays at its node. *)
Lemma runAligned_index {P} `{!AlignPolicy P} (policy : P) g g' ok :
  runAlignedGather cfg policy g = Some (g', ok) → ga_index g' = ga_index g.
Proof.
  unfold runAlignedGather. destruct (stateByIndex _ _) as [nd|]; [|by intros [= <- _]].
  apply (gatherAligned_preserves (λ g0, ga_index g0 = ga_index g)); [..|done].
  - intros g0 k H0. simpl. by destruct (peekAlignmentHead _ _ _).
  - intros g0 k H0. simpl. by destruct (queue_pop _ _ _) as [s1 [x|]].
  - intros g0 k h r H0. done.
Qed.

Lemma aligned_gather_total g nd r :
  stateByIndex (ga_engine g) (ga_index g) = Some nd → wired nd = true → aligned_gather cfg g = Some r → is_Some r.
Proof.
  intros Hi Hw. unfold aligned_gather.
  destruct (ec_alignment_policy cfg); [destruct (sy_isEnabled _); [|done]|..]; intros [= <-].
  - destruct (runAligned_spec mkFrameIdPolicy g nd Hi Hw) as (g' & ok & -> & _). by eexists.
  - destruct (runAligned_spec mkStreamFrameIdPolicy g nd Hi Hw) as (g' & ok & -> & _). by eexists.
  - destruct (runAligned_spec (mkTimestampPolicy (ec_alignment_tolerance_us cfg)) g nd Hi Hw) as (g' & ok & -> & _).
    by eexists.
Qed.

(** The state the gather of a join starts from. *)
Definition consume_degrade s (i : nat) : Engine :=
  if decide (0 < ec_join_wait_timeout_ms cfg)%Z then upd_node s i (λ nd, nd_set_degrade_pending nd false) else s.

Lemma consume_degrade_node s i nd : stateByIndex s i = Some nd →
  ∃ nd', stateByIndex (consume_degrade s i) i = Some nd' ∧ wired nd' = wired nd ∧
    nd_input_ports nd' = nd_input_ports nd ∧ items (consume_degrade s i) i = items s i.
Proof.
  intros Hi. unfold consume_degrade. case_decide; [|by exists nd]. exists (nd_set_degrade_pending nd false).
  unfold items, stateByIndex, upd_node in *; simpl. rewrite list_lookup_alter, decide_True by done. rewrite Hi. done.
Qed.

Lemma gatherNodeInputs_total s i :
  (∀ nd, stateByIndex s i = Some nd → wired nd = true) → is_Some (gatherNodeInputs cfg s i).
Proof.
  intros Hw. unfold gatherNodeInputs. destruct (stateByIndex s i) as [nd|] eqn:Hi; [|by eexists].
  case_decide; [|by eexists]. fold (consume_degrade s i). destruct (consume_degrade_node s i nd Hi) as (nd' & Hi' & Hw' & _).
  destruct (aligned_gather cfg _) as [r|] eqn:Ha; [|by eexists].
  eapply aligned_gather_total in Ha as [[g' ok] ->]; [by eexists|done|]. rewrite Hw'. by apply Hw.
Qed.

(** ** What a join receives *)

Lemma elem_of_delivered i hs k x :
  (k, x) ∈ delivered i hs ↔ i ≤ k ∧ hs !! (k - i) = Some (false, x).
Proof.
  unfold delivered. rewrite list_elem_of_omap. split.
  - intros ([j [c h]] & Hin & Hs). destruct c; [done|]. injection Hs as -> ->.
    apply list_elem_of_lookup in Hin as [n Hn]. apply lookup_zip_with_Some in Hn as (j' & p & [= -> <-] & Hj & Hh).
    apply lookup_seq in Hj as [-> _]. split; [lia|]. by replace (i + n - i) with n by lia.
  - intros [Hle Hk]. exists (k, (false, x)). split; [|done]. apply list_elem_of_lookup. exists (k - i).
    apply lookup_zip_with_Some. exists k, (false, x). split_and!; [done| |done].
    apply lookup_seq. apply lookup_lt_Some in Hk. lia.
Qed.

Lemma delivered_nodup i hs : NoDup (delivered i hs).*1.
Proof.
  revert i. induction hs as [|[c h] hs IH]; intros i; [apply NoDup_nil_2|].
  assert (delivered i ((c, h) :: hs) = (if c then [] else [(i, h)]) ++ delivered (S i) hs) as ->
    by (unfold delivered; destruct c; done).
  destruct c; [apply IH|]. simpl. apply NoDup_cons. split; [|apply IH].
  intros ([k x] & -> & Hk)%list_elem_of_fmap. apply elem_of_delivered in Hk. simpl in Hk. lia.
Qed.

(** What [gather_outcome] says of the packets delivered under frame-id alignment. *)
Lemma frame_outcome n g g' ok :
  @gather_outcome _ _ _ _ (engine_ports cfg) engine_ports_laws n mkFrameIdPolicy g g' ok → ga_delivered g = [] →
  n = length (items (ga_engine g) (ga_index g)) →
  if ok then
    ga_delivered g' ≠ [] ∧ NoDup (ga_delivered g').*1 ∧
    (∀ k x, (k, x) ∈ ga_delivered g' → ∃ pre post,
       items (ga_engine g) (ga_index g) !! k = Some (pre ++ x :: post) ∧
       items (ga_engine g') (ga_index g') !! k = Some post) ∧
    (∀ x y, x ∈ (ga_delivered g').*2 → y ∈ (ga_delivered g').*2 →
       headId x ≠ k_invalid_frame_id → headId y ≠ k_invalid_frame_id → headId x = headId y)
  else ga_delivered g' = [].
Proof.
  intros Ho Hd Hn. destruct ok; simpl in Ho; [|destruct Ho; congruence].
  destruct Ho as (hs & sp & Hlen & Hopen & Hal & Ht & Hout & Hin & _). rewrite Hd in Hout. simpl in Hout. rewrite Hout.
  assert (∀ k x, (k, x) ∈ delivered 0 hs → hs !! k = Some (false, x)) as Hel.
  { intros k x Hk. apply elem_of_delivered in Hk as [_ Hk]. by rewrite Nat.sub_0_r in Hk. }
  split_and!; [|apply delivered_nodup| |].
  - intros Hnil. assert (forallb fst hs = true) as Hall; [|congruence]. apply forallb_forall. intros [[] h] Hh; [done|].
    apply list_elem_of_In, list_elem_of_lookup in Hh as [k Hk].
    assert ((k, h) ∈ delivered 0 hs) as Hkd by (apply elem_of_delivered; split; [lia|by rewrite Nat.sub_0_r]).
    rewrite Hnil in Hkd. by apply not_elem_of_nil in Hkd.
  - intros k x Hk. destruct (Hin k x (Hel k x Hk)) as (q & Hq & Hq'). destruct Ht as [_ Ht].
    destruct (Ht k _ Hq) as (q0 & Hq0 & [pre ->]). by exists pre, q.
  - pose proof (proj1 (frameId_aligned_true hs.*2) Hal) as Hids.
    assert (∀ x, x ∈ (delivered 0 hs).*2 → x ∈ hs.*2) as Hsub.
    { intros x ([k y] & -> & Hk)%list_elem_of_fmap. apply Hel in Hk. simpl. apply list_elem_of_fmap.
      exists (false, y). split; [done|]. by eapply list_elem_of_lookup_2. }
    intros x y Hx Hy Hx0 Hy0. destruct (Hids x (Hsub x Hx)), (Hids y (Hsub y Hy)); congruence.
Qed.
End Gather.

(** ** What a gather touches *)

(** A relation that allows pops at the node and the bookkeeping around them holds
    between the engine before and after a gather. *)
Section Closed.
Context `{CppTypes} {Q Sy : Type} `{!PortQueue Q, !SyncStrategy Sy}.
Context (cfg : EngineConfig) (i : nat) (R : Engine Q Sy → Engine Q Sy → Prop) `{!PreOrder R}.
Context (Rpop : ∀ s k, R s (queue_pop s i k).1) (Rbump : ∀ s f, R s (bump s f)).
Context (Rdrop : ∀ s name frame reason, R s (observe s (EvDrop name frame reason))) (Rsync : ∀ s x, R s (e_set_sync s x)).
Context (Rdegrade : ∀ s, R s (upd_node s i (λ nd, nd_set_degrade_pending nd false))).
Implicit Types (s : Engine Q Sy) (g : Gather (Q := Q) (Sy := Sy)).

Lemma recordSyncDrop_closed s name frame reason : R s (recordSyncDrop s name frame reason).
Proof using All. unfold recordSyncDrop. etrans; [apply Rbump|apply Rdrop]. Qed.

Lemma recordDequeue_closed s x : R s (recordDequeue cfg s x).
Proof using All.
  unfold recordDequeue. destruct (ec_enable_statistics cfg); [|done]. etrans; [apply (Rbump s)|].
  repeat case_match; try reflexivity; apply Rbump.
Qed.

Lemma pop_closed s s0 k s1 r : R s s0 → queue_pop s0 i k = (s1, r) → R s s1.
Proof using All. intros Hs Hp. etrans; [exact Hs|]. pose proof (Rpop s0 k) as Hr. by rewrite Hp in Hr. Qed.

Lemma peek_loop_closed fuel s k s' r : peek_loop fuel s i k = (s', r) → R s s'.
Proof using All.
  revert s. induction fuel as [|fuel IH]; intros s; simpl; [by intros [= <- _]|].
  destruct (stateByIndex s i) as [nd|]; [|by intros [= <- _]].
  destruct (nd_queues nd !! k ≫= pq_tryPeek) as [h|]; [|by intros [= <- _]].
  case_match; [|by intros [= <- _]]. intros Hp. apply IH in Hp. etrans; [apply Rpop|]. etrans; [|exact Hp].
  apply recordSyncDrop_closed.
Qed.

Lemma dropStaleHead_closed s k h reason : R s (dropStaleHead s i k h reason).
Proof using All.
  unfold dropStaleHead. destruct (stateByIndex s i) as [nd|]; [|done]. etrans; [apply (Rpop s k)|].
  etrans; [apply recordSyncDrop_closed|]. case_match; [apply Rsync|done].
Qed.

(** The gather is at its node, and the engine is related to the one it started from. *)
Definition gathers s g : Prop := R s (ga_engine g) ∧ ga_index g = i.

Lemma deliver_gathers s g k x : gathers s g → gathers s (deliver cfg g k x).
Proof using All. intros [Hg Hi]. split; [|done]. etrans; [exact Hg|]. apply recordDequeue_closed. Qed.

Lemma pop_gathers s g k s1 r : gathers s g → queue_pop (ga_engine g) (ga_index g) k = (s1, r) →
  gathers s (mkGather s1 (ga_index g) (ga_delivered g)).
Proof using All. intros [Hg Hi] Hp. split; [|done]. rewrite Hi in Hp. by eapply pop_closed. Qed.

Lemma runAligned_gathers {P} `{!AlignPolicy P} (policy : P) s g g' ok :
  gathers s g → runAlignedGather cfg policy g = Some (g', ok) → gathers s g'.
Proof using All.
  intros Hg. unfold runAlignedGather. destruct (stateByIndex _ _) as [nd|]; [|by intros [= <- _]].
  apply gatherAligned_preserves; [..|done].
  - intros g0 k [H0 Hi]. simpl. unfold peekAlignmentHead. rewrite Hi. destruct (peek_loop _ _ _ _) as [s1 h] eqn:Hp.
    split; [|done]. apply peek_loop_closed in Hp. simpl. by etrans.
  - intros g0 k H0. simpl. destruct (queue_pop _ _ _) as [s1 [x|]] eqn:Hp; eapply pop_gathers in Hp; try done.
    by apply deliver_gathers.
  - intros g0 k h r [H0 Hi]. split; [|done]. simpl. rewrite Hi. etrans; [exact H0|]. apply dropStaleHead_closed.
Qed.

Lemma degrade_port_gathers reference s g d k h :
  gathers s g → gathers s (degrade_port cfg reference (g, d) (k, h)).1.
Proof using All.
  intros Hg. unfold degrade_port. simpl. destruct h as [h|]; [|done].
  destruct (match h with Some _ => _ | None => _ end); [done|]. case_decide.
  - destruct (queue_pop _ _ _) as [s3 [x|]] eqn:Hp; eapply pop_gathers in Hp; try done. by apply deliver_gathers.
  - destruct Hg as [Hg Hi]. split; [|done]. simpl. rewrite Hi. etrans; [exact Hg|]. apply dropStaleHead_closed.
Qed.

Lemma degrade_gathers s g g' ok : gathers s g → degradeJoinGather cfg g = (g', ok) → gathers s g'.
Proof using All.
  intros [Hg Hi]. unfold degradeJoinGather. rewrite Hi. destruct (stateByIndex _ _) as [nd|]; [|by intros [= <- _]].
  assert (∀ l s1 hs s2 hs2, R s s1 →
    foldl (λ '(s, hs) k, let (s', h) := peekAlignmentHead s i k in (s', hs ++ [h])) (s1, hs) l = (s2, hs2) → R s s2) as Hpeeks.
  { intros l. induction l as [|k l IH]; intros s1 hs s2 hs2 Hs1; simpl; [by intros [= <- _]|].
    unfold peekAlignmentHead at 2. destruct (peek_loop _ _ _ _) as [s3 h] eqn:Hp. apply peek_loop_closed in Hp.
    apply IH. by etrans. }
  destruct (foldl _ (ga_engine g, []) _) as [s1 heads] eqn:Hf. apply Hpeeks in Hf; [|done].
  case_decide; [by intros [= <- _]|].
  assert (∀ l g1 d g2 d2, gathers s g1 → foldl (degrade_port cfg (reference_head cfg heads)) (g1, d) l = (g2, d2) →
    gathers s g2) as Hports.
  { intros l. induction l as [|[k h] l IH]; intros g1 d g2 d2 Hg1; [by intros [= <- _]|]. cbn [foldl].
    destruct (degrade_port _ _ (g1, d) (k, h)) as [g3 d3] eqn:Hd. apply IH.
    pose proof (degrade_port_gathers (reference_head cfg heads) s g1 d k h Hg1) as H3. by rewrite Hd in H3. }
  destruct (foldl (degrade_port _ _) _ _) as [g2 d2] eqn:Hd. apply Hports in Hd; [by intros [= <- _]|].
  split; [|done]. simpl. etrans; [exact Hf|]. apply Rbump.
Qed.

Lemma pop_undropped_gathers fuel s g k g' ok : gathers s g → pop_undropped cfg fuel g k = (g', ok) → gathers s g'.
Proof using All.
  revert g. induction fuel as [|fuel IH]; intros g Hg; simpl; [by intros [= <- _]|].
  destruct (queue_pop _ _ _) as [s1 [x|]] eqn:Hp; eapply pop_gathers in Hp as [H1 Hi]; try done; [|by intros [= <- _]].
  destruct (stateByIndex s1 (ga_index g)) as [nd|]; [|by intros [= <- _]].
  destruct (match x with Some _ => _ | None => _ end).
  - apply IH. split; [|done]. simpl. etrans; [exact H1|]. apply recordSyncDrop_closed.
  - intros [= <- _]. by apply deliver_gathers.
Qed.

Lemma plain_gather_gathers ports b s g g' ok : gathers s g → plain_gather cfg ports b g = (g', ok) → gathers s g'.
Proof using All.
  revert b g. induction ports as [|k ports IH]; intros b g Hg; cbn [plain_gather]; [by intros [= <- _]|].
  destruct (stateByIndex _ _) as [nd|]; [|by intros [= <- _]]. destruct (portDrained nd k); [by apply IH|].
  destruct (pop_undropped cfg _ g k) as [g1 b1] eqn:Hp. apply (pop_undropped_gathers _ s) in Hp; [|done].
  destruct b1; [by apply IH|by intros [= <- _]].
Qed.

Lemma gatherNodeInputs_closed s g ok : gatherNodeInputs cfg s i = Some (g, ok) → R s (ga_engine g).
Proof using All.
  unfold gatherNodeInputs. destruct (stateByIndex s i) as [nd|]; [|by intros [= <- _]].
  enough (∀ s0, R s s0 → gathers s (mkGather s0 i [])) as Hstart; [|done].
  case_decide as Hmulti; [|intros [= Hg]; eapply plain_gather_gathers in Hg; [apply Hg|by apply Hstart]].
  set (s0 := if decide (0 < ec_join_wait_timeout_ms cfg)%Z then _ else s).
  assert (R s s0) as H0 by (unfold s0; case_decide; [apply Rdegrade|done]).
  destruct (aligned_gather cfg (mkGather s0 i [])) as [r|] eqn:Ha.
  - assert (∀ g1 b1, r = Some (g1, b1) → gathers s g1) as Hr.
    { intros g1 b1 ->. unfold aligned_gather in Ha. simpl in Ha.
      destruct (ec_alignment_policy cfg); [destruct (sy_isEnabled (e_sync s0)); [|done]|..]; injection Ha as Ha;
        eapply runAligned_gathers in Ha; try done; by apply Hstart. }
    destruct r as [[g1 b1]|]; [|done]. specialize (Hr g1 b1 eq_refl). cbn [mbind option_bind]. intros [= Hg].
    destruct (negb b1 && _); [by eapply degrade_gathers in Hg as [? _]|]. simplify_eq. apply Hr.
  - intros [= Hg]. destruct (_ && existsb _ _).
    + eapply degrade_gathers in Hg as [? _]; [done|by apply Hstart].
    + eapply plain_gather_gathers in Hg as [? _]; [done|by apply Hstart].
Qed.
End Closed.
