(* ===== verification/Dataflow.v ===== *)
(** * What a batch run is to compute

    The reference for batch executions: the graph read as a system of equations.
    Each source gets its initial packet, every other node the packets of the edges
    that feed its ports, and a node's outputs are its function of those inputs.
    Evaluating the nodes in topological order solves the equations
    ([dataflow_eq]); nothing here knows of queues, tasks or threads.

    Port maps are compared by lookup ([pm_equiv]), since the engine inserts the
    results of the sinks in the order in which they happen to run. *)

From Stdlib Require Import Ascii.
From S2P Require Import Prelude Errors Packets Kahn Graphs CompiledGraphs EngineCore.
Local Open Scope string_scope.
Local Open Scope list_scope.
Local Open Scope nat_scope.

(** ** Port maps up to lookup *)

Section Maps.
Context `{CppTypes}.
Implicit Types (m : PortDataMap).

Definition pm_equiv m m' : Prop := ∀ k, pm_find m k = pm_find m' k.

#[global] Instance pm_equiv_equivalence : Equivalence pm_equiv.
Proof. unfold pm_equiv. split; [done|by intros ???|]. intros m1 m2 m3 H1 H2 k. by rewrite H1. Qed.

Lemma pm_find_cons k v m k' : pm_find ((k, v) :: m) k' = if decide (k = k') then Some v else pm_find m k'.
Proof.
  unfold pm_find. cbn [list_find]. destruct (decide (k = k')) as [Hk|Hk].
  - by rewrite decide_True by exact Hk.
  - rewrite decide_False by exact Hk. by destruct (list_find _ m) as [[]|].
Qed.

Lemma pm_find_insert m k v k' : pm_find (pm_insert m k v) k' = if decide (k = k') then Some v else pm_find m k'.
Proof.
  induction m as [|[k0 v0] m IH]; simpl; [by rewrite pm_find_cons|].
  destruct (String.compare k k0) eqn:E.
  - apply String.compare_eq_iff in E as ->. rewrite !pm_find_cons. by case_decide.
  - by rewrite pm_find_cons.
  - rewrite !pm_find_cons, IH. assert (k ≠ k0).
    { intros ->. pose proof (String.compare_antisym k0 k0) as Ha. by rewrite E in Ha. }
    repeat case_decide; congruence.
Qed.

#[global] Instance pm_insert_proper : Proper (pm_equiv ==> eq ==> eq ==> pm_equiv) pm_insert.
Proof. intros m m' Hm k ? <- v ? <- k'. rewrite !pm_find_insert. by rewrite Hm. Qed.

Lemma pm_insert_swap m k v k' v' : k ≠ k' →
  pm_equiv (pm_insert (pm_insert m k v) k' v') (pm_insert (pm_insert m k' v') k v).
Proof. intros Hne k0. rewrite !pm_find_insert. repeat case_decide; congruence. Qed.

(** The engine's [collectResults]: the outputs of one sink go under [name:port]. *)
Definition collect m (name : string) (outputs : PortDataMap) : PortDataMap :=
  foldl (λ m kp, pm_insert m (name +:+ ":" +:+ fst kp) (snd kp)) m outputs.

#[global] Instance collect_proper : Proper (pm_equiv ==> eq ==> eq ==> pm_equiv) collect.
Proof.
  intros m m' Hm name ? <- outs ? <-. unfold collect. revert m m' Hm.
  induction outs as [|kp outs IH]; intros m m' Hm; [done|]. apply IH. by rewrite Hm.
Qed.

Fixpoint colon_free (s : string) : bool :=
  match s with EmptyString => true | String c rest => negb (Ascii.eqb c ":") && colon_free rest end.

(** Up to its first colon, a key is the name of its node. *)
Lemma result_key_inj a b x y :
  colon_free a = true → colon_free b = true → a +:+ ":" +:+ x = b +:+ ":" +:+ y → a = b.
Proof.
  revert b. induction a as [|c a IH]; intros [|d b] Ha Hb Heq; [done| | |].
  - unfold String.append in Heq. injection Heq as <- _. cbn in Hb. done.
  - unfold String.append in Heq. injection Heq as -> _. cbn in Ha. done.
  - change (String c (a +:+ ":" +:+ x) = String d (b +:+ ":" +:+ y)) in Heq. injection Heq as -> Heq.
    cbn in Ha, Hb. apply andb_prop in Ha as [_ Ha], Hb as [_ Hb]. f_equal. by apply IH.
Qed.

Lemma collect_insert_swap m k v name outs :
  (∀ port, name +:+ ":" +:+ port ≠ k) →
  pm_equiv (collect (pm_insert m k v) name outs) (pm_insert (collect m name outs) k v).
Proof.
  intros Hk. revert m. unfold collect. induction outs as [|kp outs IH]; intros m; [done|]. simpl.
  rewrite <-IH. apply collect_proper; [|done|done]. apply pm_insert_swap. intros Heq. by apply (Hk (fst kp)).
Qed.

Lemma collect_swap m a x b y : colon_free a = true → colon_free b = true → a ≠ b →
  pm_equiv (collect (collect m a x) b y) (collect (collect m b y) a x).
Proof.
  intros Ha Hb Hne. revert m. induction x as [|kp x IH]; intros m; [done|]. unfold collect at 2 4. simpl.
  fold (collect (pm_insert m (a +:+ ":" +:+ fst kp) (snd kp)) a x).
  fold (collect (pm_insert (collect m b y) (a +:+ ":" +:+ fst kp) (snd kp)) a x). rewrite IH.
  apply collect_proper; [|done|done]. apply collect_insert_swap.
  intros port Heq. apply Hne. symmetry. by eapply result_key_inj.
Qed.
End Maps.

(** ** The equations *)

Section Reference.
Context `{CppTypes} (deref : NodePtr → ILogicNode) (cg : CompiledGraph).
(** What each node computes. *)
Context (f : NodePtr → PortDataMap → PortDataMap).

Definition node_ports (j : nat) : list string :=
  match cg_nodes cg !! j with Some p => getExpectedInputPorts (deref p) | None => [] end.
Definition node_name (j : nat) : string :=
  match cg_nodes cg !! j with Some p => getName (deref p) | None => "" end.

(** Every edge with the node it starts from, and the edge that feeds a port. *)
Definition links : list (nat * OutEdge) :=
  seq 0 (length (cg_nodes cg)) ≫= λ i, (λ e, (i, e)) <$> outEdges cg i.
Definition target (l : nat * OutEdge) : nat * option nat := (oe_dest_node l.2, oe_dest_port_index l.2).
Definition feeder (j k : nat) : option (nat * OutEdge) :=
  snd <$> list_find (λ l, target l = (j, Some k)) links.

Section Values.
(** The packet each source is given, and the outputs of the nodes. *)
Context (fed : gmap nat PortDataPtr).
Implicit Types (den : gmap nat PortDataMap).

Definition packet den (j k : nat) : option PortDataPtr :=
  if isSource cg j then fed !! j
  else '(i, e) ← feeder j k; outs ← den !! i; pm_find outs (oe_source_port e).

Definition node_in den (j : nat) : PortDataMap :=
  foldl (λ m k, pm_insert m (default "" (node_ports j !! k)) (default None (packet den j k))) []
    (seq 0 (length (node_ports j))).

Definition node_out den (j : nat) : PortDataMap :=
  match cg_nodes cg !! j with
  | Some p => inheritFrameIdentity (node_in den j) (f p (node_in den j))
  | None => []
  end.

Definition dataflow : gmap nat PortDataMap :=
  foldl (λ den j, <[j := node_out den j]> den) ∅ (cg_topoOrder cg).

(** The outputs of some nodes, as results. *)
Definition results_of den (nodes : list nat) : PortDataMap :=
  foldl (λ m j, collect m (node_name j) (default [] (den !! j))) [] nodes.

Definition dataflow_results : PortDataMap := results_of dataflow (cg_sinkNodes cg).
End Values.

(** ** Graphs whose batch runs are determined *)

(** Every edge names its port, no port is fed twice, a source has at most one port,
    and no sink has a colon in its name. *)
Record determined : Prop := {
  dt_named : Forall (λ l, is_Some (oe_dest_port_index l.2)) links;
  dt_single : NoDup (target <$> links);
  dt_sources : Forall (λ j, length (node_ports j) ≤ 1) (cg_sourceNodes cg);
  dt_sinks : Forall (λ j, colon_free (node_name j) = true) (cg_sinkNodes cg);
}.

Lemma elem_of_links i e : (i, e) ∈ links ↔ i < length (cg_nodes cg) ∧ e ∈ outEdges cg i.
Proof.
  unfold links. rewrite list_elem_of_bind. setoid_rewrite list_elem_of_fmap. split.
  - intros (i' & (e' & [= -> ->] & He) & Hi%elem_of_seq). split; [lia|done].
  - intros [Hi He]. exists i. split; [by exists e|]. apply elem_of_seq. lia.
Qed.

Lemma feeder_Some j k i e : feeder j k = Some (i, e) →
  i < length (cg_nodes cg) ∧ e ∈ outEdges cg i ∧ oe_dest_node e = j ∧ oe_dest_port_index e = Some k.
Proof.
  unfold feeder. intros ([x l] & Hl & Heq)%fmap_Some. simpl in Heq. subst l.
  apply list_find_Some in Hl as (Hl & Ht & _). apply list_elem_of_lookup_2, elem_of_links in Hl as [Hi He].
  unfold target in Ht. simpl in Ht. by simplify_eq.
Qed.

Lemma feeder_of i e k : determined → i < length (cg_nodes cg) → e ∈ outEdges cg i →
  oe_dest_port_index e = Some k → feeder (oe_dest_node e) k = Some (i, e).
Proof.
  intros D Hi He Hk. assert ((i, e) ∈ links) as Hl by (by apply elem_of_links).
  assert (target (i, e) = (oe_dest_node e, Some k)) as Ht by (unfold target; simpl; by rewrite Hk).
  apply list_elem_of_lookup in Hl as [a Ha]. unfold feeder.
  destruct (list_find _ links) as [[b l]|] eqn:Hf.
  - simpl. apply list_find_Some in Hf as (Hb & Ht' & _).
    assert (a = b) as ->; [|congruence].
    eapply NoDup_lookup; [apply dt_single, D| |]; rewrite list_lookup_fmap; [rewrite Ha|rewrite Hb];
      simpl; [done|by rewrite Ht', Ht].
  - exfalso. apply list_find_None, Forall_forall with (x := (i, e)) in Hf; [done|by eapply list_elem_of_lookup_2].
Qed.

(** What the engine relies on of a compiled graph. *)
Record dag_ok : Prop := {
  dg_topo : cg_topoOrder cg ≡ₚ seq 0 (length (cg_nodes cg));
  dg_forward i e : i < length (cg_nodes cg) → e ∈ outEdges cg i →
    oe_dest_node e < length (cg_nodes cg) ∧ before (cg_topoOrder cg) i (oe_dest_node e) ∧
    isSource cg (oe_dest_node e) = false;
  dg_port i e k : i < length (cg_nodes cg) → e ∈ outEdges cg i → oe_dest_port_index e = Some k →
    k < length (node_ports (oe_dest_node e));
  dg_fed j k : j < length (cg_nodes cg) → isSource cg j = false → k < length (node_ports j) →
    ∃ i e, i < length (cg_nodes cg) ∧ e ∈ outEdges cg i ∧ oe_dest_node e = j ∧ oe_dest_port_index e = Some k;
  dg_inner j : j < length (cg_nodes cg) → isSource cg j = false →
    ∃ i e, i < length (cg_nodes cg) ∧ e ∈ outEdges cg i ∧ oe_dest_node e = j;
  dg_sources : cg_sourceNodes cg = filter (λ i, isSource cg i = true) (seq 0 (length (cg_nodes cg)));
  dg_sinks : cg_sinkNodes cg = filter (λ i, isSink cg i = true) (seq 0 (length (cg_nodes cg)));
  dg_names i j : i < length (cg_nodes cg) → j < length (cg_nodes cg) → node_name i = node_name j → i = j;
  dg_nodup : NoDup (cg_nodes cg);
  dg_nonempty : cg_nodes cg ≠ [];
}.

Section Solution.
Context (fed : gmap nat PortDataPtr) (G : dag_ok).
Implicit Types (den : gmap nat PortDataMap).

Lemma packet_ext den den' j k :
  (∀ i e, feeder j k = Some (i, e) → den !! i = den' !! i) → packet fed den j k = packet fed den' j k.
Proof.
  intros Hd. unfold packet. destruct (isSource cg j); [done|].
  destruct (feeder j k) as [[i e]|]; [|done]. simpl. by rewrite (Hd i e).
Qed.

Lemma node_out_ext den den' j :
  (∀ k i e, feeder j k = Some (i, e) → den !! i = den' !! i) → node_out fed den j = node_out fed den' j.
Proof.
  intros Hd. assert (node_in fed den j = node_in fed den' j) as Hin.
  { unfold node_in. generalize (@nil (string * PortDataPtr)).
    induction (seq 0 (length (node_ports j))) as [|k l IH]; intros m; [done|]. simpl.
    by rewrite (packet_ext den den' j k), IH by (intros i e; apply Hd). }
  unfold node_out. by rewrite Hin.
Qed.

Lemma fold_keeps l den j : j ∉ l → foldl (λ den j, <[j := node_out fed den j]> den) den l !! j = den !! j.
Proof.
  revert den. induction l as [|i l IH]; intros den Hj; [done|]. simpl. rewrite IH by set_solver.
  apply lookup_insert_ne. set_solver.
Qed.

(** Evaluating in topological order solves the equations. *)
Lemma dataflow_eq j : j < length (cg_nodes cg) → dataflow fed !! j = Some (node_out fed (dataflow fed) j).
Proof using G.
  intros Hj. assert (NoDup (cg_topoOrder cg)) as Hnd.
  { rewrite (dg_topo G). apply NoDup_seq. }
  assert (j ∈ cg_topoOrder cg) as Hin by (rewrite (dg_topo G); apply elem_of_seq; lia).
  apply list_elem_of_split in Hin as (l1 & l2 & Hl).
  assert (dataflow fed = foldl (λ den j, <[j := node_out fed den j]> den)
    (<[j := node_out fed (foldl (λ den j, <[j := node_out fed den j]> den) ∅ l1) j]>
       (foldl (λ den j, <[j := node_out fed den j]> den) ∅ l1)) l2) as Hd.
  { unfold dataflow. rewrite Hl, foldl_app. done. }
  rewrite Hl in Hnd. apply NoDup_app in Hnd as (Hnd1 & Hdis & Hnd2). apply NoDup_cons in Hnd2 as [Hj2 _].
  rewrite Hd at 1. rewrite fold_keeps, lookup_insert_eq by done. f_equal. apply node_out_ext.
  intros k i e (Hi & He & Hdest & _)%feeder_Some. destruct (dg_forward G i e Hi He) as (_ & (a & b & Ha & Hb & Hab) & _).
  rewrite Hdest, Hl in Hb. rewrite Hl in Ha.
  assert (i ∈ l1 ∧ i ≠ j ∧ i ∉ l2) as (H1 & Hne & H2).
  { assert (b = length l1) as ->.
    { eapply (NoDup_lookup (l1 ++ j :: l2)); [| exact Hb|by rewrite lookup_app_r, Nat.sub_diag by done].
      rewrite <-Hl, (dg_topo G). apply NoDup_seq. }
    rewrite lookup_app_l in Ha by done. apply list_elem_of_lookup_2 in Ha. split_and!; [done|set_solver|].
    intros Hc. apply (Hdis i Ha). set_solver. }
  rewrite Hd, (fold_keeps l2) by done. by rewrite lookup_insert_ne.
Qed.
End Solution.

(** The order in which sinks are collected does not matter. *)
Lemma results_of_perm den l l' :
  l ≡ₚ l' → NoDup l → Forall (λ j, colon_free (node_name j) = true) l →
  (∀ i j, i ∈ l → j ∈ l → node_name i = node_name j → i = j) →
  pm_equiv (results_of den l) (results_of den l').
Proof.
  intros Hp. unfold results_of. set (step := λ m j, collect m (node_name j) (default [] (den !! j))).
  assert (∀ l m m', pm_equiv m m' → pm_equiv (foldl step m l) (foldl step m' l)) as Hfold.
  { clear. intros l. induction l as [|a l IH]; intros m m' Hm; [done|]. simpl. apply IH. unfold step. by rewrite Hm. }
  change (λ m j, _) with step. generalize (@nil (string * PortDataPtr)) as m.
  induction Hp as [|x l l' _ IH|x y l|l l1 l' Hp1 IH1 Hp2 IH2]; intros m Hnd Hc Hn.
  - done.
  - simpl. apply NoDup_cons in Hnd as [_ Hnd]. apply Forall_cons in Hc as [_ Hc]. apply IH; [done|done|].
    intros i j Hi Hj. apply Hn; set_solver.
  - simpl. apply NoDup_cons in Hnd as [Hx _]. apply Forall_cons in Hc as [Hcy Hc].
    apply Forall_cons in Hc as [Hcx _].
    apply Hfold, collect_swap; [done|done|]. intros Heq. apply Hx.
    rewrite (Hn y x) by (done || set_solver). set_solver.
  - etrans; [by apply IH1|]. apply IH2.
    + by rewrite <-Hp1.
    + by rewrite <-Hp1.
    + intros i j Hi Hj. apply Hn; by rewrite Hp1.
Qed.
End Reference.

(** A graph that compiles is as the engine needs it. *)
Lemma compile_dag `{CppTypes} (deref : NodePtr → ILogicNode) g cg :
  rtc (graph_step deref) empty_graph g → (Z.of_nat (length (m_nodes g)) < u32_mod)%Z →
  compile deref g = Some (ROk cg) → dag_ok deref cg.
Proof.
  intros Hr Hsmall Hc. apply reachable_graph_wf in Hr as Hwf.
  destruct (compile_outcome_wf deref g Hwf Hsmall) as (r & Hr' & Hok).
  rewrite Hc in Hr'. injection Hr' as <-. destruct Hok as (Hne & _ & Hfed & Hok).
  pose proof (co_nodes _ _ _ Hok) as Hn.
  assert (∀ i e, i < length (cg_nodes cg) → e ∈ outEdges cg i → ∃ p q ge,
    m_nodes g !! i = Some p ∧ m_nodes g !! oe_dest_node e = Some q ∧ ge ∈ m_edges g ∧ source_node ge = p ∧
    dest_node ge = q ∧ routes deref g e ge) as Hedge.
  { intros i e Hi He. rewrite Hn in Hi. destruct (lookup_lt_is_Some_2 _ _ Hi) as [p Hp].
    pose proof (co_out _ _ _ Hok i p Hp) as Hf. apply list_elem_of_lookup in He as [a Ha].
    destruct (Forall2_lookup_l _ _ _ _ _ Hf Ha) as (ge & Hge & Hrt).
    apply list_elem_of_lookup_2, list_elem_of_filter in Hge as [Hs Hge].
    exists p, (dest_node ge), ge. split_and!; [done|apply Hrt|done|done|done|done]. }
  assert (∀ j q, m_nodes g !! j = Some q → isSource cg j = false ↔ getIncomingEdges g q ≠ []) as Hsrc.
  { intros j q Hq. unfold isSource. rewrite (co_deg _ _ _ Hok j q Hq), bool_decide_eq_false.
    destruct (getIncomingEdges g q); simpl; [by split|]. split; [done|lia]. }
  assert (∀ j q ge, m_nodes g !! j = Some q → ge ∈ getIncomingEdges g q → ∃ i e,
    i < length (cg_nodes cg) ∧ e ∈ outEdges cg i ∧ oe_dest_node e = j ∧
    oe_dest_port_index e = port_index (getExpectedInputPorts (deref q)) (dest_port ge)) as Hin_edge.
  { intros j q ge Hq [Hd Hge]%list_elem_of_filter. destruct (gw_ends _ _ Hwf ge Hge) as [Hs _].
    apply list_elem_of_lookup in Hs as [i Hi]. pose proof (co_out _ _ _ Hok i _ Hi) as Hf.
    assert (ge ∈ getOutgoingEdges g (source_node ge)) as Hout by (by apply list_elem_of_filter).
    apply list_elem_of_lookup in Hout as [a Ha]. destruct (Forall2_lookup_r _ _ _ _ _ Hf Ha) as (e & He & Hrt).
    exists i, e. rewrite Hn. destruct Hrt as (_ & _ & Hdn & Hdx).
    split_and!; [by eapply lookup_lt_Some|by eapply list_elem_of_lookup_2| |by rewrite Hdx, Hd].
    eapply (NoDup_lookup (m_nodes g)); [apply Hwf|exact Hdn|]. by rewrite Hd. }
  split.
  - rewrite Hn. apply Hok.
  - intros i e Hi He. destruct (Hedge i e Hi He) as (p & q & ge & Hp & Hq & Hge & Hs & Hd & _).
    rewrite Hn. split_and!; [by eapply lookup_lt_Some| |].
    + eapply (co_topo _ _ _ Hok); [done|done|by exists ge].
    + apply (Hsrc _ q Hq). intros Hnil. assert (ge ∈ getIncomingEdges g q) as Hin
        by (by apply list_elem_of_filter). rewrite Hnil in Hin. by apply not_elem_of_nil in Hin.
  - intros i e k Hi He Hk. destruct (Hedge i e Hi He) as (p & q & ge & Hp & Hq & Hge & Hs & Hd & (_ & _ & Hx & Hix)).
    unfold node_ports. rewrite Hn, Hq. rewrite Hk, Hd in Hix. symmetry in Hix.
    apply port_index_Some in Hix as [Hl _]. by eapply lookup_lt_Some.
  - intros j k Hj Hsj Hk. rewrite Hn in Hj. destruct (lookup_lt_is_Some_2 _ _ Hj) as [q Hq].
    unfold node_ports in Hk. rewrite Hn, Hq in Hk. destruct (lookup_lt_is_Some_2 _ _ Hk) as [port Hport].
    destruct (Hfed q) with k port as (ge & Hin & Hix); [by eapply list_elem_of_lookup_2|by apply (Hsrc j)|done|].
    destruct (Hin_edge j q ge Hq Hin) as (i & e & Hi & He & Hd & Hdx). exists i, e. by rewrite Hdx.
  - intros j Hj Hsj. rewrite Hn in Hj. destruct (lookup_lt_is_Some_2 _ _ Hj) as [q Hq]. apply (Hsrc j q Hq) in Hsj.
    destruct (getIncomingEdges g q) as [|ge l] eqn:Hinc; [done|].
    destruct (Hin_edge j q ge Hq) as (i & e & Hi & He & Hd & _); [rewrite Hinc; set_solver|]. by exists i, e.
  - rewrite Hn. apply Hok.
  - rewrite Hn. apply Hok.
  - intros i j Hi Hj. rewrite Hn in Hi, Hj. destruct (lookup_lt_is_Some_2 _ _ Hi) as [p Hp], (lookup_lt_is_Some_2 _ _ Hj) as [q Hq].
    unfold node_name. rewrite Hn, Hp, Hq. intros Heq. by eapply node_names_inj.
  - rewrite Hn. apply Hwf.
  - by rewrite Hn.
Qed.
