(* ===== verification/Engine.v ===== *)
(** * The execution engine: scheduling, execution and lifecycle

    The operations of [src/execution_engine_impl.cpp] that move nodes through
    their state machine: [tryScheduleNode], [scheduleNodeExecution],
    [executeNodeTask], the end-of-stream cascade, the external interface
    ([pushInput], [signalEndOfStream], [execute], [startStreaming], ...), the
    defer timer and the join watchdog.

    [checkNodeEndOfStream] recurses into the nodes downstream; it marks its node
    before it does, so [eos_fuel] (one more than there are nodes) is enough, which
    [cascade_terminates] proves.  [None] stands for fuel running out, here and in
    the aligned gather, and the theorems exclude it.  A blocking wait is the
    predicate it waits for; the code after it is a definition of its own. *)

From S2P Require Import Prelude Errors Packets Graphs CompiledGraphs MpmcQueue NodeQueue FrameAlignment.
From S2P Require Import SyncCoordinator JoinAwareSync ExecutionTypes Trace Schedulers EngineCore.
Local Open Scope string_scope.
Local Open Scope nat_scope.
Local Open Scope list_scope.
Local Open Scope Z_scope.

Section Run.
Context `{CppTypes} {Q Sy : Type} `{!PortQueue Q, !SyncStrategy Sy}.
Context (deref : NodePtr → ILogicNode) (cfg : EngineConfig) (cg : CompiledGraph) (sched : SchedulerStrategy).

(** User code: what a call does given everything observed before it, and how long
    (in nanoseconds) it takes. *)
Context (process : list Event → NodePtr → PortDataMap → Outcome).
Context (onEndOfStream : list Event → NodePtr → Outcome).
Context (elapsed : list Event → Z).
Notation Engine := (Engine Q Sy).
Notation NodeState := (NodeState Q).
Implicit Types (s : Engine) (nd : NodeState).

(** ** Stopping and completion *)

(** src/src/execution_engine_impl.cpp:512-527 ExecutionEngine::Impl::stopExecutionAsync *)
Definition stopExecutionAsync s : Engine :=
  if e_stopFlag s then s
  else
    let s := e_set_stopFlag s true in
    if decide (e_state s = RUNNING) then e_set_state s STOPPED else s.

(** src/src/execution_engine_impl.cpp:498-510 ExecutionEngine::Impl::isStopRequested *)
Definition isStopRequested s : Engine * bool :=
  if e_stopFlag s then (s, true)
  else if e_context s && e_cancelled s then (stopExecutionAsync s, true)
  else (s, false).

(** src/src/execution_engine_impl.cpp:2342-2353 ExecutionEngine::Impl::checkCompletionAndNotify
    (sink_counts) *)
Definition sink_counts s : list SinkExecutionCount :=
  omap (λ i, (λ nd, mkSinkCount (nd_name nd) (nd_execution_count nd)) <$> stateByIndex s i) (cg_sinkNodes cg).

(** src/src/execution_engine_impl.cpp:2324-2385 ExecutionEngine::Impl::checkCompletionAndNotify *)
Definition checkCompletionAndNotify s : Engine :=
  if e_streamingMode s then s
  else if decide (e_activeTasks s ≠ 0) then s
  else if cs_is_complete (checkCompletion sched (e_activeTasks s) 0 (sink_counts s)) then
    if e_completionReported s then s
    else
      let s := e_set_completionReported s true in
      let s := if decide (e_state s = RUNNING) then e_set_state s IDLE else s in
      observe s (EvResult (e_results s))
  else s.

Definition set_exec s (index : nat) (x : NodeExecutionState) : Engine :=
  upd_node s index (λ nd, nd_set_exec_state nd x).

Definition add_active s (n : Z) : Engine := e_set_activeTasks s (e_activeTasks s + n).

(** src/src/execution_engine_impl.cpp:1389-1428 ExecutionEngine::Impl::scheduleNodeExecution *)
Definition scheduleNodeExecution s (index : nat) : Engine :=
  match stateByIndex s index with
  | None => s
  | Some nd =>
      if decide (nd_exec_state nd ≠ WAITING) then s
      else
        let s := add_active (set_exec s index READY) 1 in
        if e_accepting s then e_set_scheduledAt (e_set_pool s (e_pool s ++ [index])) (e_scheduledAt s ++ [e_now s])
        else checkCompletionAndNotify (add_active (set_exec s index WAITING) (-1))
  end.

(** src/src/execution_engine_impl.cpp:1306-1331 ExecutionEngine::Impl::scheduleDeferredRetry; the
    delay in milliseconds *)
Definition scheduleDeferredRetry s (index : nat) (delay : Z) : Engine :=
  if e_stopFlag s then s
  else match stateByIndex s index with
       | None => s
       | Some nd =>
           if nd_defer_pending nd then s
           else
             let s := upd_node s index (λ nd, nd_set_defer_pending nd true) in
             e_set_deferQueue s (e_deferQueue s ++ [(e_now s + Z.max 1 delay * ns_per_ms, index)])
       end.

(** src/src/execution_engine_impl.cpp:1271-1294 ExecutionEngine::Impl::tryScheduleNode (the
    scheduling context) *)
Definition scheduling_context nd (index : nat) : SchedulingContext :=
  let open := filter (λ i, portDrained nd i = false) (seq 0 (length (nd_queues nd))) in
  let ready := filter (λ i, match nd_queues nd !! i with Some q => bool_decide (pq_size q ≠ 0) | None => false end = true) open in
  mkContext (nd_node nd) (Z.of_nat (length open)) (Z.of_nat (length ready))
    (foldl (λ m i, if decide (i < 64)%nat then Z.lor m (Z.shiftl 1 (Z.of_nat i)) else m) 0 ready)
    0 (isSource cg index) (isSink cg index) (bool_decide (ready ≠ [])) (nd_last_execution nd) (nd_execution_count nd).

(** ** Scheduling and the end-of-stream cascade *)

Section Cascade.
(** The check to run on a node whose ports have all drained. *)
Context (check : Engine → nat → option (Engine * bool)).

(** src/src/execution_engine_impl.cpp:1244-1304 ExecutionEngine::Impl::tryScheduleNode *)
Definition tryScheduleNode_with s (index : nat) : option Engine :=
  let (s, stop) := isStopRequested s in
  if stop then Some s
  else
    match stateByIndex s index with
    | None => Some s
    | Some nd =>
        if decide (nd_exec_state nd ≠ WAITING) then Some s
        else if allInputPortsDrained nd then fst <$> check s index
        else
          let result := shouldSchedule (e_now s) sched (scheduling_context nd index) in
          match sr_decision result with
          | ScheduleNow => Some (scheduleNodeExecution s index)
          | DeferToNextCycle => Some (scheduleDeferredRetry s index (default 1 (sr_retry_delay result)))
          | _ => Some s
          end
    end.

(** src/src/execution_engine_impl.cpp:1961-1994 ExecutionEngine::Impl::propagateOutputs (one edge) *)
Definition propagate_edge (outputs : PortDataMap) (acc : option Engine) (edge : OutEdge) : option Engine :=
  s ← acc;
  match pm_find outputs (oe_source_port edge), stateByIndex s (oe_dest_node edge), oe_dest_port_index edge with
  | Some data, Some dest, Some port =>
      match nd_queues dest !! port with
      | None => Some s
      | Some _ =>
          let (s', ok) := queue_push s (oe_dest_node edge) port data in
          if ok then tryScheduleNode_with s' (oe_dest_node edge)
          else Some (recordQueueRejection s' (nd_name dest))
      end
  | _, _, _ => Some s
  end.

(** src/src/execution_engine_impl.cpp:1955-1995 ExecutionEngine::Impl::propagateOutputs *)
Definition propagateOutputs_with s (index : nat) (outputs : PortDataMap) : option Engine :=
  if e_stopFlag s then Some s
  else foldl (propagate_edge outputs) (Some s) (outEdges cg index).

(** src/src/execution_engine_impl.cpp:2105-2117 ExecutionEngine::Impl::latchPortEos *)
Definition latchPortEos_with s (index : nat) (port : option nat) : option Engine :=
  match port with
  | Some port =>
      if decide (k_max_eos_ports ≤ port)%nat then Some s
      else fst <$> check (upd_node s index (λ nd, latch nd port)) index
  | None => Some s
  end.
End Cascade.

(** src/src/execution_engine_impl.cpp:2216-2228 ExecutionEngine::Impl::recordSinkEndOfStream *)
Definition recordSinkEndOfStream s : Engine :=
  let sink_count := Z.of_nat (length (filter (λ i, isSink cg i = true) (seq 0 (length (cg_nodes cg))))) in
  let reached := wrap64 (e_sinksAtEos s + 1) in
  let s := e_set_sinksAtEos s reached in
  if decide (sink_count = 0 ∨ reached < sink_count) then s
  else if e_endOfStreamReached s then s
  else observe (e_set_endOfStreamReached s true) EvEndOfStream.

(** src/src/execution_engine_impl.cpp:2136-2145 ExecutionEngine::Impl::checkNodeEndOfStream (the
    claim) *)
Definition claimable (x : NodeExecutionState) : bool :=
  match x with WAITING | COMPLETED => true | _ => false end.

(** src/src/execution_engine_impl.cpp:2162-2184 ExecutionEngine::Impl::checkNodeEndOfStream (the
    flush hook) *)
Definition run_flush s nd : Engine * PortDataMap :=
  let flush_start := e_now s in
  let outcome := onEndOfStream (e_log s) (nd_node nd) in
  let s := observe s (EvFlush (nd_node nd)) in
  let s := e_set_now s (e_now s + elapsed (e_log s)) in
  let (s, outputs) :=
    match outcome with
    | Returned outputs => (s, outputs)
    | Threw what =>
        let s := bump s (λ t, es_add_failed_executions t 1) in
        (observe s (EvError ("onEndOfStream: " +:+ default "unknown exception" what) (nd_name nd)), [])
    end in
  (emitTrace s TP_Execute (nd_name nd) "end-of-stream flush" (primaryFrame outputs) flush_start
     (Z.quot (e_now s - flush_start) ns_per_us), outputs).

(** src/src/execution_engine_impl.cpp:2119-2214 ExecutionEngine::Impl::checkNodeEndOfStream; the flag is
    read at the beginning and exchanged after the claim.  No other thread sets it in between here, so
    that the exchange is never lost; [NodeAtomic.v] has the threads that lose it *)
Fixpoint checkNodeEndOfStream (fuel : nat) s (index : nat) : option (Engine * bool) :=
  match fuel with
  | O => None
  | S fuel' =>
      if negb (e_streamingMode s) || e_stopFlag s then Some (s, false)
      else
        match stateByIndex s index with
        | None => Some (s, false)
        | Some nd =>
            if nd_eos_propagated nd then Some (s, false)
            else if negb (allInputPortsDrained nd) then Some (s, false)
            else if negb (claimable (nd_exec_state nd)) then Some (s, false)
            else if nd_eos_propagated nd then Some (set_exec s index WAITING, false)
            else
              let s := upd_node s index (λ nd, nd_set_eos_propagated (nd_set_exec_state nd EXECUTING) true) in
              let (s, outputs) := run_flush s nd in
              s ← (match outputs with
                   | [] => Some s
                   | _ =>
                       let s := if isSink cg index
                                then collectResults (bump s (λ t, es_add_total_output_frames t 1)) (nd_name nd) outputs
                                else s in
                       propagateOutputs_with (checkNodeEndOfStream fuel') s index outputs
                   end);
              let s := set_exec s index COMPLETED in
              s ← foldl (λ acc edge, s ← acc;
                      match stateByIndex s (oe_dest_node edge) with
                      | None => Some s
                      | Some _ => latchPortEos_with (checkNodeEndOfStream fuel') s (oe_dest_node edge)
                                    (oe_dest_port_index edge)
                      end) (Some s) (outEdges cg index);
              Some (if isSink cg index then recordSinkEndOfStream s else s, true)
        end
  end.

Definition eos_fuel s : nat := S (length (e_nodes s)).

Definition checkEos s (index : nat) : option (Engine * bool) := checkNodeEndOfStream (eos_fuel s) s index.

(** src/src/execution_engine_impl.cpp:1244-1304 ExecutionEngine::Impl::tryScheduleNode *)
Definition tryScheduleNode s (index : nat) : option Engine := tryScheduleNode_with checkEos s index.

(** src/src/execution_engine_impl.cpp:1955-1995 ExecutionEngine::Impl::propagateOutputs *)
Definition propagateOutputs s (index : nat) (outputs : PortDataMap) : option Engine :=
  propagateOutputs_with checkEos s index outputs.

(** ** Executing a node *)

(** src/src/execution_engine_impl.cpp:2014-2019 ExecutionEngine::Impl::handleNodeSuccess (the span of the
    propagation) *)
Definition trace_propagation s nd (outputs : PortDataMap) (propagate_start : Z) : Engine :=
  match outputs with
  | [] => s
  | _ => emitTrace s TP_Propagate (nd_name nd) "" (primaryFrame outputs) propagate_start
           (Z.quot (e_now s - propagate_start) ns_per_us)
  end.

(** src/src/execution_engine_impl.cpp:1997-2031 ExecutionEngine::Impl::handleNodeSuccess *)
Definition handleNodeSuccess s (index : nat) nd (outputs : PortDataMap) : option Engine :=
  let s := upd_node s index (λ nd, nd_set_last_execution
             (nd_set_execution_count nd (wrap64 (nd_execution_count nd + 1))) (e_now s)) in
  let s := bump s (λ t, es_add_successful_executions t 1) in
  let s := if isSink cg index
           then collectResults (bump s (λ t, es_add_total_output_frames t 1)) (nd_name nd) outputs else s in
  let propagate_start := e_now s in
  s ← propagateOutputs s index outputs;
  let s := trace_propagation s nd outputs propagate_start in
  if onNodeComplete sched true then tryScheduleNode (set_exec s index WAITING) index
  else Some (set_exec s index COMPLETED).

(** src/src/execution_engine_impl.cpp:2033-2052 ExecutionEngine::Impl::handleNodeFailure *)
Definition handleNodeFailure s (index : nat) : option Engine :=
  let s := bump s (λ t, es_add_failed_executions t 1) in
  if e_streamingMode s then tryScheduleNode (set_exec s index WAITING) index
  else Some (stopExecutionAsync (set_exec s index FAILED)).

(** The last lines of every path of [executeNodeTask]. *)
Definition task_done s : Engine := checkCompletionAndNotify (add_active s (-1)).

(** src/src/execution_engine_impl.cpp:1926-1953 ExecutionEngine::Impl::processNode *)
Definition processNode s nd (inputs : PortDataMap) : Engine * option PortDataMap :=
  let outcome := process (e_log s) (nd_node nd) inputs in
  let s := observe s (EvProcess (nd_node nd) inputs) in
  let s := e_set_now s (e_now s + elapsed (e_log s)) in
  match outcome with
  | Returned outputs => (s, Some outputs)
  | Threw what => (observe s (EvError (default "Unknown exception" what) (nd_name nd)), None)
  end.

(** src/src/execution_engine_impl.cpp:1527-1542 ExecutionEngine::Impl::executeNodeTask (latency) *)
Definition record_latency s (index : nat) (inputs : PortDataMap) : Engine :=
  if ec_enable_statistics cfg && isSink cg index then
    match head (omap (λ kp, match snd kp with
                            | Some p => if decide (dp_timestamp p ≠ 0) then Some p else None
                            | None => None
                            end) inputs) with
    | Some p =>
        let latency := Z.quot (e_now s - dp_timestamp p) ns_per_us in
        if decide (0 < latency) then bump s (λ t, recordLatency t latency) else s
    | None => s
    end
  else s.

(** src/src/execution_engine_impl.cpp:1544-1553 ExecutionEngine::Impl::executeNodeTask (watermark) *)
Definition mark_processed s nd (inputs : PortDataMap) : Engine :=
  if nd_sync_tracked nd then
    match primaryFrame inputs with
    | Some p => e_set_sync s (sy_markProcessed (e_sync s) (nd_name nd) (dp_frameId p))
    | None => s
    end
  else s.

Section Task.
(** What a task does last: the decrement of the task counter and, in [executeNodeTask],
    the check for completion. *)
Context (finish : Engine → Engine).

(** src/src/execution_engine_impl.cpp:1496-1571 ExecutionEngine::Impl::executeNodeTask (once the
    inputs are gathered) *)
Definition run_node_with s (index : nat) nd (inputs : PortDataMap) : option Engine :=
  let start_time := e_now s in
  let s := bump s (λ t, es_add_total_executions t 1) in
  let (s, result) := processNode s nd inputs in
  let duration_us := Z.quot (e_now s - start_time) ns_per_us in
  let s := emitTrace s TP_Execute (nd_name nd) match result with Some _ => "" | None => "failed" end (primaryFrame inputs)
             start_time duration_us in
  let s := bump s (λ t, es_add_total_processing_time_us t duration_us) in
  let s := if ec_enable_statistics cfg then
             upd_node s index (λ nd, nd_set_stats nd
               match result with
               | Some outputs => recordIo (recordExecution (nd_stats nd) true duration_us)
                                   (Z.of_nat (length inputs)) (Z.of_nat (length outputs))
               | None => recordExecution (nd_stats nd) false duration_us
               end)
           else s in
  s ← (if e_stopFlag s then Some (set_exec s index WAITING)
       else match result with
            | Some outputs =>
                let outputs := inheritFrameIdentity inputs outputs in
                handleNodeSuccess (mark_processed (record_latency s index inputs) nd inputs) index nd outputs
            | None => handleNodeFailure s index
            end);
  '(s, _) ← checkEos s index;
  Some (finish s).

(** src/src/execution_engine_impl.cpp:1430-1572 ExecutionEngine::Impl::executeNodeTask *)
Definition executeNodeTask_with s (index : nat) : option Engine :=
  match stateByIndex s index with
  | None => Some (finish s)
  | Some nd =>
      let (s, stop) := isStopRequested s in
      if stop then Some (finish (set_exec s index WAITING))
      else if decide (nd_exec_state nd ≠ READY) then Some (finish s)
      else
        let s := set_exec s index EXECUTING in
        '(g, inputs_ready) ← gatherNodeInputs cfg s index;
        let s := ga_engine g in
        if (inputs_ready : bool) then run_node_with s index nd (gathered_inputs nd g)
        else if e_streamingMode s && negb (e_stopFlag s) then
          let s := set_exec s index WAITING in
          '(s, at_eos) ← checkEos s index;
          s ← (if (at_eos : bool) then Some s else tryScheduleNode s index);
          Some (finish s)
        else (s ← handleNodeFailure s index; Some (finish s))
  end.
End Task.

(** src/src/execution_engine_impl.cpp:1496-1571 ExecutionEngine::Impl::executeNodeTask (once the
    inputs are gathered) *)
Definition run_node s (index : nat) nd (inputs : PortDataMap) : option Engine := run_node_with task_done s index nd inputs.

(** src/src/execution_engine_impl.cpp:1430-1572 ExecutionEngine::Impl::executeNodeTask *)
Definition executeNodeTask s (index : nat) : option Engine := executeNodeTask_with task_done s index.

(** src/src/execution_engine_impl.cpp:1402-1415 ExecutionEngine::Impl::scheduleNodeExecution (the posted
    task, up to the call of executeNodeTask) *)
Definition pick_up s (k index : nat) : Engine :=
  let scheduled_at := default (e_now s) (e_scheduledAt s !! k) in
  let delay := Z.quot (e_now s - scheduled_at) ns_per_us in
  let s := e_set_scheduledAt (e_set_pool s (delete k (e_pool s))) (delete k (e_scheduledAt s)) in
  let s := bump s (λ t, if ec_enable_statistics cfg && bool_decide (0 < delay)
                        then es_add_total_schedule_time_us t delay else t) in
  match stateByIndex s index with
  | Some nd => emitTrace s TP_Schedule (nd_name nd) "" None scheduled_at delay
  | None => s
  end.

(** A worker takes a posted task ([k]-th in the pool) and runs it. *)
Definition run_task s (k : nat) : option Engine :=
  match e_pool s !! k with
  | None => Some s
  | Some index => executeNodeTask (pick_up s k index) index
  end.

(** ** Feeding a running engine *)

Definition stateByName s (name : string) : option nat := i ← indexOf cg name; _ ← stateByIndex s i; Some i.

(** src/src/execution_engine_impl.cpp:2655-2688 ExecutionEngine::Impl::routeToDownstream (one edge);
    the counts of routed and rejected copies and the sum of the queue sizes *)
Definition route_edge (output_port : string) (data : PortDataPtr) (acc : option (Engine * (Z * Z * Z)))
    (edge : OutEdge) : option (Engine * (Z * Z * Z)) :=
  '(s, (routed, rejected, total)) ← acc;
  if decide (oe_source_port edge ≠ output_port) then Some (s, (routed, rejected, total))
  else
    match stateByIndex s (oe_dest_node edge) with
    | None => Some (s, (routed, rejected, total))
    | Some _ =>
        let (s, ok) := pushToQueue s (oe_dest_node edge) (oe_dest_port edge) data in
        if ok then
          let s := bump s (λ t, es_add_total_input_frames (es_add_total_queue_pushes t 1) 1) in
          s ← tryScheduleNode s (oe_dest_node edge);
          let size := match stateByIndex s (oe_dest_node edge) with
                      | Some dest => getQueueSize dest (oe_dest_port edge) | None => 0 end in
          Some (s, (routed + 1, rejected, total + size))
        else Some (s, (routed, rejected + 1, total))
    end.

(** src/src/execution_engine_impl.cpp:2645-2714 ExecutionEngine::Impl::routeToDownstream *)
Definition routeToDownstream s (source_node : NodePtr) (output_port : string) (data : PortDataPtr)
    : option (Engine * Result PushStatus) :=
  let name := getName (deref source_node) in
  match indexOfPtr cg source_node with
  | None => Some (s, RErr (error_nodeNotFound name))
  | Some src_index =>
      '(s, (routed, rejected, total)) ←
        foldl (route_edge output_port data) (Some (s, (0, 0, 0))) (outEdges cg src_index);
      Some (s,
        if decide (routed = 0) then
          if decide (0 < rejected)
          then result_err EC_QueueRejected
                 ("All downstream queues rejected data for port: " +:+ output_port) name
          else result_err EC_NoDownstreamConnection
                 ("No downstream connections for port: " +:+ output_port) name
        else if decide (0 < rejected)
        then ROk (push_dropped ("rejected on " +:+ pretty rejected +:+ " of " +:+ pretty (routed + rejected)
                                +:+ " downstream branches") total)
        else ROk (push_enqueued total))
  end.

(** src/src/execution_engine_impl.cpp:2639-2643 ExecutionEngine::Impl::getFirstInputPort *)
Definition getFirstInputPort (node : NodePtr) : string := default "" (head (getExpectedInputPorts (deref node))).

(** src/src/execution_engine_impl.cpp:2730-2734 ExecutionEngine::Impl::getFirstOutputPort *)
Definition getFirstOutputPort (node : NodePtr) : string := default "" (head (getExpectedOutputPorts (deref node))).

(** src/src/execution_engine_impl.cpp:2716-2721 ExecutionEngine::Impl::isInputPort *)
Definition isInputPort (node : NodePtr) (port : string) : bool :=
  bool_decide (port ∈ getExpectedInputPorts (deref node)).

(** src/src/execution_engine_impl.cpp:2723-2728 ExecutionEngine::Impl::isOutputPort *)
Definition isOutputPort (node : NodePtr) (port : string) : bool :=
  bool_decide (port ∈ getExpectedOutputPorts (deref node)).

(** src/src/execution_engine_impl.cpp:829-835 ExecutionEngine::Impl::pushInput (actual_port) *)
Definition actual_port (node : NodePtr) (port_name : string) : string :=
  if decide (port_name = "") then
    if decide (getFirstInputPort node = "") then getFirstOutputPort node else getFirstInputPort node
  else port_name.

(** src/src/execution_engine_impl.cpp:812-873 ExecutionEngine::Impl::pushInput *)
Definition pushInput s (source_node port_name : string) (data : PortDataPtr) : option (Engine * Result PushStatus) :=
  if negb (e_streamingMode s) && bool_decide (e_state s ≠ RUNNING)
  then Some (s, result_err EC_NotStreaming "Not in streaming/running mode" "")
  else
    match stateByName s source_node with
    | None => Some (s, RErr (error_nodeNotFound source_node))
    | Some index =>
        match stateByIndex s index with
        | None => Some (s, RErr (error_nodeNotFound source_node))
        | Some nd =>
            let port := actual_port (nd_node nd) port_name in
            if decide (port = "")
            then Some (s, result_err EC_PortNotFound ("No ports for node: " +:+ source_node) source_node)
            else if isInputPort (nd_node nd) port then
              if match port_index (nd_input_ports nd) port with
                 | Some i => portEosLatched nd i | None => false end
              then Some (s, result_err EC_EndOfStreamSignaled ("Port is at end of stream: " +:+ port) source_node)
              else
                let (s, data) := stampIncomingFrame cfg s data in
                let (s, ok) := pushToQueue s index port data in
                if ok then
                  let s := bump s (λ t, es_add_total_input_frames (es_add_total_queue_pushes t 1) 1) in
                  s ← tryScheduleNode s index;
                  Some (s, ROk (push_enqueued
                    match stateByIndex s index with Some nd => getQueueSize nd port | None => 0 end))
                else Some (s, result_err EC_QueueRejected ("Queue full (DropTail) on port: " +:+ port) source_node)
            else if isOutputPort (nd_node nd) port then routeToDownstream s (nd_node nd) port data
            else Some (s, RErr (error_portNotFound port source_node))
        end
    end.

(** src/src/execution_engine_impl.cpp:2230-2288 ExecutionEngine::Impl::signalEndOfStream *)
Definition signalEndOfStream s (source_node port_name : string) : option (Engine * VoidResult) :=
  if negb (e_streamingMode s)
  then Some (s, void_err EC_NotStreaming "signalEndOfStream requires streaming mode" "")
  else
    match stateByName s source_node with
    | None => Some (s, mkVoid (error_nodeNotFound source_node))
    | Some index =>
        match stateByIndex s index with
        | None => Some (s, mkVoid (error_nodeNotFound source_node))
        | Some nd =>
            match nd_input_ports nd with
            | [] => Some (s, void_err EC_PortNotFound ("Node has no input port to close: " +:+ source_node) source_node)
            | first :: _ =>
                let port := if decide (port_name = "") then first else port_name in
                match port_index (nd_input_ports nd) port with
                | None => Some (s, mkVoid (error_portNotFound port source_node))
                | Some i =>
                    if decide (k_max_eos_ports ≤ i)%nat
                    then Some (s, void_err EC_InvalidArgument
                                    ("Port index beyond the end-of-stream limit on: " +:+ source_node) source_node)
                    else if portEosLatched nd i
                    then Some (s, void_err EC_EndOfStreamSignaled
                                    ("Port already at end of stream: " +:+ port) source_node)
                    else
                      let s := upd_node s index (λ nd, latch nd i) in
                      '(s, at_eos) ← checkEos s index;
                      s ← (if (at_eos : bool) then Some s else tryScheduleNode s index);
                      Some (s, void_ok)
                end
            end
        end
    end.

(** src/src/execution_engine_impl.cpp:2290-2318 ExecutionEngine::Impl::waitForEndOfStream: the
    answer once the wait is over ([timed_out]: the bounded wait expired) *)
Definition waitForEndOfStream s (timed_out : bool) : VoidResult :=
  if e_endOfStreamReached s then void_ok
  else if negb (e_streamingMode s) then void_err EC_NotStreaming "waitForEndOfStream requires streaming mode" ""
  else if timed_out then void_err EC_ExecutionTimeout "Timed out waiting for end of stream" ""
  else void_err EC_ExecutionStopped "Engine stopped before end of stream" "".

(** ** Timers *)

(** src/src/execution_engine_impl.cpp:1344-1358 ExecutionEngine::Impl::deferTimerLoop (the entry that
    is due first, once it is due) *)
Definition defer_fire s (k : nat) : option Engine :=
  match e_deferQueue s !! k with
  | None => Some s
  | Some (due, index) =>
      if decide (due ≤ e_now s ∧ Forall (λ e, due ≤ fst e) (e_deferQueue s)) then
        let s := e_set_deferQueue s (delete k (e_deferQueue s)) in
        match stateByIndex s index with
        | None => Some s
        | Some _ => tryScheduleNode (upd_node s index (λ nd, nd_set_defer_pending nd false)) index
        end
      else Some s
  end.

(** src/src/execution_engine_impl.cpp:1362-1387 ExecutionEngine::Impl::stopDeferTimer *)
Definition stopDeferTimer s : Engine :=
  e_set_nodes (e_set_deferQueue s []) ((λ nd, nd_set_defer_pending nd false) <$> e_nodes s).

(** src/src/execution_engine_impl.cpp:1854-1892 ExecutionEngine::Impl::joinTimeoutWatchdogLoop (one
    node of a scan) *)
Definition watchdog_node s (index : nat) : Engine :=
  match stateByIndex s index with
  | None => s
  | Some nd =>
      let ready := length (filter (λ q, pq_size q ≠ 0) (nd_queues nd)) in
      if decide (ready = 0%nat ∨ ready = length (nd_queues nd))
      then upd_node s index (λ nd, nd_set_join_wait_since nd 0)
      else if decide (nd_join_wait_since nd = 0) then upd_node s index (λ nd, nd_set_join_wait_since nd (e_now s))
      else if decide (e_now s - nd_join_wait_since nd < ec_join_wait_timeout_ms cfg * ns_per_ms) then s
      else
        scheduleNodeExecution
          (upd_node s index (λ nd, nd_set_degrade_pending (nd_set_join_wait_since nd (e_now s)) true)) index
  end.

(** src/src/execution_engine_impl.cpp:1839-1894 ExecutionEngine::Impl::joinTimeoutWatchdogLoop (one
    scan) *)
Definition watchdog_scan s : Engine :=
  if e_stopFlag s then s
  else foldl watchdog_node s
         (filter (λ i, match stateByIndex s i with
                       | Some nd => bool_decide (1 < length (nd_input_ports nd))%nat | None => false end = true)
            (seq 0 (length (e_nodes s)))).

(** ** Lifecycle *)

(** src/src/execution_engine_impl.cpp:1064-1074 ExecutionEngine::Impl::teardownNodes *)
Definition teardownNodes s : Engine :=
  e_set_setUpNodes (foldl (λ s p, observe s (EvTeardown p)) s (rev (e_setUpNodes s))) [].

Section Setup.
(** What a node's [setup] answers: a result, or an exception ([None]: unknown). *)
Context (setup : list Event → NodePtr → VoidResult + option string).

(** src/src/execution_engine_impl.cpp:1037-1058 ExecutionEngine::Impl::setupNodes (the loop) *)
Fixpoint setup_loop s (order : list nat) : Engine * VoidResult :=
  match order with
  | [] => (s, void_ok)
  | index :: rest =>
      match cg_node cg index with
      | None => setup_loop s rest
      | Some p =>
          let name := getName (deref p) in
          let result := match setup (e_log s) p with
                        | inl r => r
                        | inr (Some what) => mkVoid (error_nodeException ("setup threw: " +:+ what) name)
                        | inr None => void_err EC_NodeUnknownException "setup threw unknown exception" name
                        end in
          let s := observe s (EvSetup p) in
          if void_isOk result then setup_loop (e_set_setUpNodes s (e_setUpNodes s ++ [p])) rest
          else (teardownNodes s, result)
      end
  end.

(** src/src/execution_engine_impl.cpp:1031-1062 ExecutionEngine::Impl::setupNodes *)
Definition setupNodes s : Engine * VoidResult :=
  match e_setUpNodes s with
  | [] => setup_loop s (cg_topoOrder cg)
  | _ => (s, void_ok)
  end.

(** src/src/execution_engine_impl.cpp:2480-2496 ExecutionEngine::Impl::resetInternalState (a node) *)
Definition reset_node_run nd : NodeState :=
  mkNodeState (nd_node nd) (nd_name nd) (nd_index nd) (nd_input_ports nd) (pq_clear <$> nd_queues nd)
    (nd_sync_tracked nd) as_reset WAITING (nd_last_execution nd) 0 0 false (nd_defer_pending nd) 0 false.

(** src/src/execution_engine_impl.cpp:2462-2497 ExecutionEngine::Impl::resetInternalState *)
Definition resetInternalState s : Engine :=
  mkEngine (reset_node_run <$> e_nodes s) (e_sync s) (e_pool s) (e_accepting s) (e_statistics s) (e_state s)
    0 false false (e_streamingMode s) 0 false 1 ∅ [] (e_context s) (e_cancelled s) (e_deferQueue s)
    (e_setUpNodes s) (e_now s) (e_log s) (e_scheduledAt s) (e_traceSink s).

(** src/src/execution_engine_impl.cpp:1192-1223 ExecutionEngine::Impl::distributeInitialInputs (one
    source); [None] in the pair is the early return *)
Definition distribute_source (initial_inputs : PortDataMap) (acc : option (Engine * option bool)) (index : nat)
    : option (Engine * option bool) :=
  '(s, has_scheduled) ← acc;
  match has_scheduled with
  | None => Some (s, None)
  | Some has =>
      match stateByIndex s index with
      | None => Some (s, Some has)
      | Some nd =>
          match pm_find initial_inputs (nd_name nd) with
          | Some data =>
              let (s, data) := stampIncomingFrame cfg s data in
              match nd_input_ports nd with
              | [] => s ← tryScheduleNode s index; Some (s, Some true)
              | port :: _ =>
                  let (s, ok) := pushToQueue s index port data in
                  if ok then
                    s ← tryScheduleNode (bump s (λ t, es_add_total_input_frames t 1)) index;
                    Some (s, Some true)
                  else Some (s, None)
              end
          | None =>
              match nd_input_ports nd with
              | [] => s ← tryScheduleNode s index; Some (s, Some true)
              | _ => Some (s, Some has)
              end
          end
      end
  end.

(** src/src/execution_engine_impl.cpp:1188-1232 ExecutionEngine::Impl::distributeInitialInputs *)
Definition distributeInitialInputs s (initial_inputs : PortDataMap) : option (Engine * bool) :=
  '(s, has_scheduled) ← foldl (distribute_source initial_inputs) (Some (s, Some false)) (cg_sourceNodes cg);
  Some (s, match has_scheduled with
           | None => false
           | Some has => has || bool_decide (initial_inputs = [])
           end).

(** src/src/execution_engine_impl.cpp:416-434 ExecutionEngine::Impl::execute (streaming mode, the
    inputs) *)
Fixpoint push_all s (inputs : PortDataMap) : option (Engine * VoidResult) :=
  match inputs with
  | [] => Some (s, void_ok)
  | (node_name, data) :: rest =>
      '(s, r) ← pushInput s node_name "" data;
      match r with ROk _ => push_all s rest | RErr e => Some (s, mkVoid e) end
  end.

(** src/src/execution_engine_impl.cpp:409-496 ExecutionEngine::Impl::execute up to the wait for
    completion; [context]: a context is given *)
Definition execute s (initial_inputs : PortDataMap) (context : bool) : option (Engine * VoidResult) :=
  if e_streamingMode s then push_all s initial_inputs
  else if decide (e_state s = RUNNING) then Some (s, void_err EC_AlreadyRunning "Engine is already running" "")
  else
    let s := e_set_context s context in
    let (s, result) := setupNodes s in
    if negb (void_isOk result) then Some (e_set_context (e_set_state s ERROR) false, result)
    else
      let s := e_set_cancelled (resetInternalState s) false in
      let s := e_set_state s RUNNING in
      '(s, ok) ← distributeInitialInputs s initial_inputs;
      if (ok : bool) then Some (s, void_ok)
      else Some (e_set_context (e_set_state s ERROR) false,
                 void_err EC_ExecutionFailed "Failed to distribute initial inputs to source nodes" "").

(** src/src/execution_engine_impl.cpp:2391-2394 ExecutionEngine::Impl::waitForCompletion
    (completion_reached) *)
Definition completion_reached s : bool := bool_decide (e_activeTasks s = 0) || e_stopFlag s.

(** src/src/execution_engine_impl.cpp:2421-2455 ExecutionEngine::Impl::waitForCompletion (the outcome) *)
Definition completion_outcome s : Engine * VoidResult :=
  let current := e_state s in
  if e_stopFlag s && bool_decide (current ≠ STOPPED)
  then (e_set_context (e_set_state s STOPPED) false, void_err EC_ExecutionStopped "Execution was stopped externally" "")
  else if bool_decide (e_activeTasks s = 0) && bool_decide (current = RUNNING ∨ current = IDLE)
  then (e_set_context (e_set_state s IDLE) false, void_ok)
  else if bool_decide (current ≠ ERROR ∧ current ≠ STOPPED)
  then (e_set_context (e_set_state s ERROR) false, void_err EC_ExecutionFailed "Execution finished abnormally" "")
  else (e_set_context s false,
        void_err EC_ExecutionFailed ("Execution ended in " +:+ stateToString current +:+ " state") "").

(** src/src/execution_engine_impl.cpp:2396-2412 ExecutionEngine::Impl::waitForCompletion (the timeout
    expires) *)
Definition completion_timeout s (ms : Z) : Engine * VoidResult :=
  let s := if e_context s then e_set_cancelled s true else s in
  (e_set_context (stopExecutionAsync s) false,
   void_err EC_ExecutionTimeout ("Execution timed out after " +:+ pretty ms +:+ "ms") "").

(** src/src/execution_engine_impl.cpp:541-546 ExecutionEngine::Impl::stopExecutionSync (after the
    wait for the active tasks) *)
Definition stopped_sync s : Engine := if decide (e_state s = RUNNING) then e_set_state s STOPPED else s.

(** src/src/execution_engine_impl.cpp:559-577 ExecutionEngine::Impl::reset (a node) *)
Definition reset_node nd : NodeState :=
  mkNodeState (nd_node nd) (nd_name nd) (nd_index nd) (nd_input_ports nd)
    ((λ q, pq_resetStatistics (pq_clear q)) <$> nd_queues nd)
    (nd_sync_tracked nd) (nd_stats nd) WAITING (nd_last_execution nd) 0 (nd_join_wait_since nd)
    (nd_degrade_pending nd) (nd_defer_pending nd) 0 false.

(** src/src/execution_engine_impl.cpp:551-599 ExecutionEngine::Impl::reset (once no task is active);
    [sync_reset] is the strategy's [reset] *)
Definition reset (sync_reset : Sy → Sy) s : Engine :=
  let s := stopDeferTimer (stopped_sync (stopExecutionAsync s)) in
  let s := teardownNodes (e_set_sync (e_set_nodes s (reset_node <$> e_nodes s)) (sync_reset (e_sync s))) in
  mkEngine (e_nodes s) (e_sync s) (e_pool s) (e_accepting s) (es_reset (e_statistics s) (e_now s)) IDLE 0 false
    false false 0 false (e_nextFrameId s) (e_nextStreamFrameId s) [] (e_context s) (e_cancelled s)
    (e_deferQueue s) (e_setUpNodes s) (e_now s) (e_log s) (e_scheduledAt s) (e_traceSink s).

(** src/src/execution_engine_impl.cpp:724-763 ExecutionEngine::Impl::startStreaming *)
Definition startStreaming s (context : bool) : Engine * VoidResult :=
  if decide (e_state s ≠ IDLE)
  then (s, void_err EC_InvalidState "Cannot start streaming - engine is not idle" "")
  else if negb (supportsStreaming sched)
  then (s, void_err EC_StreamingNotSupported "Current scheduler strategy does not support streaming mode" "")
  else
    let (s, result) := setupNodes s in
    if negb (void_isOk result) then (s, result)
    else
      let s := if context then e_set_cancelled s false else s in
      let s := e_set_completionReported (e_set_context s context) false in
      let s := e_set_stopFlag (e_set_streamingMode s true) false in
      (e_set_statistics (e_set_state s RUNNING) (es_reset (e_statistics s) (e_now s)), void_ok).
End Setup.

(** src/src/execution_engine_impl.cpp:967-979 ExecutionEngine::Impl::allQueuesDrained *)
Definition allQueuesDrained s (max_depth : Z) : bool :=
  forallb (λ nd, forallb (λ q, bool_decide (pq_size q ≤ max_depth)) (nd_queues nd)) (e_nodes s).

(** src/src/execution_engine_impl.cpp:946-952 ExecutionEngine::Impl::waitForDrain (the predicate) *)
Definition drain_reached s (max_depth : Z) : bool :=
  e_stopFlag s || (bool_decide (e_activeTasks s = 0) && allQueuesDrained s max_depth).

(** src/src/execution_engine_impl.cpp:766-780 ExecutionEngine::Impl::stopStreaming (until it waits);
    the answer says whether the call waits for the queues to drain *)
Definition stopStreaming_begin s (wait_for_drain : bool) : Engine * bool :=
  if negb (e_streamingMode s) then (s, false)
  else let s := e_set_stopFlag s true in (s, wait_for_drain && negb (drain_reached s 0)).

(** src/src/execution_engine_impl.cpp:782-797 ExecutionEngine::Impl::stopStreaming (once no task is
    active) *)
Definition stopStreaming_end s : Engine := e_set_state (e_set_streamingMode s false) IDLE.

(** ** What tracing leaves alone *)

Lemma trace_propagation_frame s nd outputs start :
  ∃ sink, trace_propagation s nd outputs start = e_set_traceSink s sink.
Proof. destruct outputs; [exists (e_traceSink s); by destruct s|by eexists]. Qed.

Lemma pick_up_frame s k index :
  ∃ stats sink, pick_up s k index =
    e_set_traceSink (e_set_statistics (e_set_scheduledAt (e_set_pool s (delete k (e_pool s))) (delete k (e_scheduledAt s))) stats) sink.
Proof.
  exists (e_statistics (pick_up s k index)), (e_traceSink (pick_up s k index)). unfold pick_up. by case_match.
Qed.
End Run.
