(* ===== verification/EngineLog.v ===== *)
(** * What every operation of the engine keeps

    A relation that contains the engine's elementary steps (the class [Follows])
    contains its operations: the cascade, tasks, pushes, the closing of a port, the
    timer and the watchdog.  The first relation of the kind says that the log of the
    calls of user code and callbacks only grows and that the mode stays, so that
    what an operation told the callbacks is what it added; the second that the clock
    advances by what the calls take; [EngineTrace.v] has another. *)

From S2P Require Import Prelude Errors Packets Graphs CompiledGraphs MpmcQueue NodeQueue FrameAlignment.
From S2P Require Import SyncCoordinator JoinAwareSync ExecutionTypes Trace Schedulers EngineCore EngineGather Engine.
Local Open Scope list_scope.
Local Open Scope nat_scope.

Section Follows.
Context `{CppTypes} {Q Sy : Type} `{!PortQueue Q, !SyncStrategy Sy}.
Context (deref : NodePtr → ILogicNode) (cfg : EngineConfig) (cg : CompiledGraph) (sched : SchedulerStrategy).
Context (process : list Event → NodePtr → PortDataMap → Outcome).
Context (onEndOfStream : list Event → NodePtr → Outcome) (elapsed : list Event → Z).
Notation Engine := (Engine Q Sy).
Notation NodeState := (NodeState Q).
Implicit Types (s : Engine) (nd : NodeState).

(** ** Elementary steps *)

(** The nodes and their names, in the order of the indices. *)
Definition named nd : NodePtr * string := (nd_node nd, nd_name nd).
Definition names s : list (NodePtr * string) := named <$> e_nodes s.

(** What an elementary step may only change in the ways of [Follows]. *)
Definition visible s :=
  (e_log s, e_streamingMode s, names s, e_traceSink s, e_pool s, e_scheduledAt s, e_now s).

(** Calls of a node's [process] and [onEndOfStream]. *)
Definition is_call (ev : Event) : bool := match ev with EvProcess _ _ | EvFlush _ => true | _ => false end.

Definition execute_detail {A} (result : option A) : string := match result with Some _ => "" | None => "failed" end.

Class Follows (R : Engine → Engine → Prop) := {
  fw_preorder :: PreOrder R;
  fw_names s s' : R s s' → names s' = names s;
  fw_same s s' : visible s' = visible s → R s s';
  fw_observe s ev : is_call ev = false → R s (observe s ev);
  fw_trace s phase node detail packet start duration :
    phase ≠ TP_Execute → R s (emitTrace s phase node detail packet start duration);
  fw_post s index :
    R s (e_set_scheduledAt (e_set_pool s (e_pool s ++ [index])) (e_scheduledAt s ++ [e_now s]));
  fw_take s k : k < length (e_pool s) →
    R s (e_set_scheduledAt (e_set_pool s (delete k (e_pool s))) (delete k (e_scheduledAt s)));
  fw_flush s nd s' outputs : named nd ∈ names s → run_flush onEndOfStream elapsed s nd = (s', outputs) → R s s';
  fw_process s nd inputs s' result start duration : named nd ∈ names s →
    processNode process elapsed s nd inputs = (s', result) →
    R s (emitTrace s' TP_Execute (nd_name nd) (execute_detail result) (primaryFrame inputs) start duration);
}.

Lemma named_at s i nd : stateByIndex s i = Some nd → named nd ∈ names s.
Proof. intros Hi. apply list_elem_of_fmap. exists nd. split; [done|]. by eapply list_elem_of_lookup_2. Qed.

Lemma names_alter (f : NodeState → NodeState) (i : nat) (l : list NodeState) :
  (∀ nd, named (f nd) = named nd) → named <$> alter f i l = named <$> l.
Proof.
  intros Hf. apply list_eq. intros j. rewrite !list_lookup_fmap, list_lookup_alter. case_decide; [|done]. subst.
  destruct (l !! _); simpl; [by rewrite Hf|done].
Qed.

Lemma visible_upd s (i : nat) (f : NodeState → NodeState) : (∀ nd, named (f nd) = named nd) → visible (upd_node s i f) = visible s.
Proof. intros Hf. unfold visible, names. simpl. by rewrite names_alter. Qed.

Context (R : Engine → Engine → Prop) `{!Follows R}.
Notation "s ⟶ s'" := (R s s') (at level 70).

Lemma follows_upd s (i : nat) (f : NodeState → NodeState) : (∀ nd, named (f nd) = named nd) → s ⟶ upd_node s i f.
Proof. intros Hf. by apply fw_same, visible_upd. Qed.

Lemma follows_exec s i x : s ⟶ set_exec s i x.
Proof. by apply follows_upd. Qed.

(** Updates that change nothing visible. *)
Ltac quiet :=
  first [reflexivity | by apply fw_same | by apply follows_upd
    | apply fw_same; unfold visible, names, set_exec, upd_node; simpl; by rewrite !names_alter by done].

Lemma follows_dropped name s ev : R s (queueDropped name s ev).
Proof.
  unfold queueDropped. set (s1 := observe _ _). assert (R s s1) as E.
  { etrans; [|by apply fw_observe]. quiet. }
  destruct (_ && _); [|done]. etrans; [exact E|quiet].
Qed.

Lemma follows_foldl {A} (f : Engine → A → Engine) l s : (∀ s a, R s (f s a)) → R s (foldl f s l).
Proof. intros Hf. revert s. induction l as [|a l IH]; intros s; [done|]. simpl. etrans; [apply Hf|apply IH]. Qed.

Lemma follows_push s i k x s' ok : queue_push s i k x = (s', ok) → R s s'.
Proof.
  unfold queue_push. destruct (stateByIndex s i) as [nd|]; [|by intros [= <- _]].
  destruct (nd_queues nd !! k) as [q|]; [|by intros [= <- _]]. destruct (pq_push q x) as [[q' ok'] evs]. intros [= <- _].
  etrans; [|apply follows_foldl; intros; apply follows_dropped]. quiet.
Qed.

Lemma follows_pushToQueue s i port x s' ok : pushToQueue s i port x = (s', ok) → R s s'.
Proof.
  unfold pushToQueue. destruct (stateByIndex s i) as [nd|]; [|by intros [= <- _]].
  destruct (port_index _ _) as [k|]; [|by intros [= <- _]]. destruct (queue_push s i k x) as [s1 ok1] eqn:Hp.
  apply follows_push in Hp. destruct ok1; intros [= <- _]; (etrans; [exact Hp|]); [by apply fw_trace|]. unfold recordQueueRejection.
  etrans; [|by apply fw_observe]. quiet.
Qed.

Lemma follows_pop s i k : R s (queue_pop s i k).1.
Proof.
  unfold queue_pop. destruct (_ ≫= _) as [q|]; [|done]. destruct (pq_tryPop q). quiet.
Qed.

Lemma follows_gather s i g ok : gatherNodeInputs cfg s i = Some (g, ok) → R s (ga_engine g).
Proof.
  apply gatherNodeInputs_closed; [apply _|..].
  - intros. apply follows_pop.
  - intros. quiet.
  - intros. by apply fw_observe.
  - intros. quiet.
  - intros. quiet.
Qed.

Lemma follows_stop s : R s (stopExecutionAsync s).
Proof. unfold stopExecutionAsync. repeat case_match; quiet. Qed.

Lemma follows_stopRequested s s' b : isStopRequested s = (s', b) → R s s'.
Proof.
  unfold isStopRequested. repeat case_match; intros [= <- _]; [done|apply follows_stop|done].
Qed.

Lemma follows_completion s : R s (checkCompletionAndNotify cg sched s).
Proof.
  unfold checkCompletionAndNotify. repeat case_match; try done; (etrans; [|by apply fw_observe]); quiet.
Qed.

Lemma follows_claim s i x n : R s (add_active (set_exec s i x) n).
Proof. etrans; [apply (follows_exec s i x)|quiet]. Qed.

Lemma follows_schedule s i : R s (scheduleNodeExecution cg sched s i).
Proof.
  unfold scheduleNodeExecution. destruct (stateByIndex s i); [|done]. case_decide; [done|].
  set (s1 := add_active (set_exec s i READY) 1). assert (R s s1) as E1 by apply follows_claim.
  destruct (e_accepting s1); (etrans; [exact E1|]); [apply fw_post|]. etrans; [apply (follows_claim s1)|apply follows_completion].
Qed.

Lemma follows_retry s i d : R s (scheduleDeferredRetry s i d).
Proof. unfold scheduleDeferredRetry. repeat case_match; quiet. Qed.

(** ** The cascade *)

Section Cascade.
Context (check : Engine → nat → option (Engine * bool)) (Hcheck : ∀ s i s' b, check s i = Some (s', b) → R s s').

Lemma follows_checked s i s' : fst <$> check s i = Some s' → R s s'.
Proof using Hcheck Follows0. destruct (check s i) as [[s1 b]|] eqn:Hc; simpl; [|done]. intros [= <-]. by eapply Hcheck. Qed.

Lemma follows_try s i s' : tryScheduleNode_with cg sched check s i = Some s' → R s s'.
Proof using Hcheck Follows0.
  unfold tryScheduleNode_with. destruct (isStopRequested s) as [s1 stop] eqn:Hs. apply follows_stopRequested in Hs.
  destruct stop; [by intros [= <-]|]. destruct (stateByIndex s1 i) as [nd|]; [|by intros [= <-]]. case_decide; [by intros [= <-]|].
  destruct (allInputPortsDrained nd); [intros Hc%follows_checked; by etrans|].
  destruct (sr_decision _); intros [= <-]; (etrans; [exact Hs|]); try done; [apply follows_schedule|apply follows_retry].
Qed.

Lemma follows_propagate_edge outputs s e s' :
  propagate_edge cg sched check outputs (Some s) e = Some s' → R s s'.
Proof using Hcheck Follows0.
  unfold propagate_edge. cbn [mbind option_bind]. destruct (pm_find _ _) as [x|]; [|by intros [= <-]].
  destruct (stateByIndex s _) as [dest|]; [|by intros [= <-]]. destruct (oe_dest_port_index e) as [k|]; [|by intros [= <-]].
  destruct (nd_queues dest !! k); [|by intros [= <-]]. destruct (queue_push s _ k x) as [s1 ok] eqn:Hp. apply follows_push in Hp.
  destruct ok; [intros Ht%follows_try; by etrans|]. intros [= <-]. etrans; [exact Hp|]. unfold recordQueueRejection.
  etrans; [|by apply fw_observe]. quiet.
Qed.
End Cascade.

(** A fold that may fail. *)
Lemma follows_fold {A} (f : option Engine → A → option Engine) l s s' :
  (∀ a, f None a = None) → (∀ s a s', f (Some s) a = Some s' → R s s') → foldl f (Some s) l = Some s' → R s s'.
Proof.
  intros Hn Hf. revert s. induction l as [|a l IH]; intros s; simpl; [by intros [= <-]|].
  destruct (f (Some s) a) as [s1|] eqn:Ha.
  - intros Hl%IH. etrans; [by eapply Hf|done].
  - intros Hl. exfalso. clear -Hn Hl. induction l as [|b l IH]; simpl in Hl; [done|]. rewrite Hn in Hl. by apply IH.
Qed.

Lemma follows_propagate check s i outputs s' : (∀ s i s' b, check s i = Some (s', b) → R s s') →
  propagateOutputs_with cg sched check s i outputs = Some s' → R s s'.
Proof.
  intros Hc. unfold propagateOutputs_with. destruct (e_stopFlag s); [by intros [= <-]|]. apply follows_fold; [done|].
  intros s1 e s2. by apply follows_propagate_edge.
Qed.

Lemma follows_sink s : R s (recordSinkEndOfStream cg s).
Proof. unfold recordSinkEndOfStream. repeat case_match; try quiet. etrans; [|by apply fw_observe]. quiet. Qed.

Lemma follows_check fuel s i s' b : checkNodeEndOfStream cg sched onEndOfStream elapsed fuel s i = Some (s', b) → R s s'.
Proof.
  revert s i s' b. induction fuel as [|fuel IH]; intros s i s' b; cbn [checkNodeEndOfStream]; [done|].
  destruct (_ || _); [by intros [= <- _]|]. destruct (stateByIndex s i) as [nd|] eqn:Hi; [|by intros [= <- _]].
  destruct (nd_eos_propagated nd); [by intros [= <- _]|]. destruct (negb (allInputPortsDrained nd)); [by intros [= <- _]|].
  destruct (negb (claimable _)); [by intros [= <- _]|]. set (s1 := upd_node s i _). destruct (run_flush _ _ s1 nd) as [s2 outputs] eqn:Hf.
  assert (R s s1) as E1 by quiet. assert (R s s2) as E2.
  { etrans; [exact E1|]. eapply fw_flush; [|exact Hf]. rewrite (fw_names _ _ E1). by eapply named_at. }
  clear Hf.
  set (o := match outputs with [] => Some s2 | _ => _ end). destruct o as [s3|] eqn:Ho; [|done]. cbn [mbind option_bind].
  assert (R s s3) as E3.
  { etrans; [exact E2|]. unfold o in Ho. destruct outputs as [|x outputs]; [by injection Ho as <-|]. apply follows_propagate in Ho; [|apply IH].
    etrans; [|exact Ho]. case_match; quiet. }
  destruct (foldl _ (Some (set_exec s3 i COMPLETED)) _) as [s4|] eqn:Hl; [|done]. cbn [mbind option_bind]. intros [= <- _].
  apply follows_fold in Hl; [|done|].
  - etrans; [exact E3|]. etrans; [|case_match; [apply follows_sink|done]]. etrans; [|exact Hl]. quiet.
  - intros s5 e s6. cbn [mbind option_bind]. destruct (stateByIndex s5 _); [|by intros [= <-]]. unfold latchPortEos_with.
    destruct (oe_dest_port_index e) as [k|]; [|by intros [= <-]]. case_decide; [by intros [= <-]|].
    intros Hc%follows_checked; [|apply IH]. etrans; [|exact Hc]. quiet.
Qed.

Lemma follows_checkEos s i s' b : checkEos cg sched onEndOfStream elapsed s i = Some (s', b) → R s s'.
Proof. apply follows_check. Qed.

Lemma follows_tryScheduleNode s i s' : tryScheduleNode cg sched onEndOfStream elapsed s i = Some s' → R s s'.
Proof. apply follows_try, follows_checkEos. Qed.

(** ** Tasks and calls *)

Lemma follows_done s : R s (task_done cg sched s).
Proof. unfold task_done. etrans; [|apply follows_completion]. quiet. Qed.

Lemma follows_success s i nd outputs s' : handleNodeSuccess cg sched onEndOfStream elapsed s i nd outputs = Some s' → R s s'.
Proof.
  unfold handleNodeSuccess. set (s2 := if isSink cg i then _ else _).
  assert (R s s2) as E2 by (unfold s2; case_match; quiet).
  destruct (propagateOutputs _ _ _ _ s2 i outputs) as [s3|] eqn:Hp; [|done]. cbn [mbind option_bind].
  apply follows_propagate in Hp; [|apply follows_checkEos]. assert (R s s3) as E3 by (by etrans).
  set (s4 := trace_propagation s3 nd outputs (e_now s2)). assert (R s s4) as E4.
  { etrans; [exact E3|]. unfold s4, trace_propagation. destruct outputs; [done|by apply fw_trace]. }
  destruct (onNodeComplete sched true); [intros Ht%follows_tryScheduleNode|intros [= <-]]; (etrans; [exact E4|]); [|apply follows_exec].
  etrans; [|exact Ht]. apply follows_exec.
Qed.

Lemma follows_failure s i s' : handleNodeFailure cg sched onEndOfStream elapsed s i = Some s' → R s s'.
Proof.
  unfold handleNodeFailure. destruct (e_streamingMode _); [intros Ht%follows_tryScheduleNode|intros [= <-]].
  - etrans; [|exact Ht]. quiet.
  - etrans; [|apply follows_stop]. quiet.
Qed.

Lemma follows_run_node s i nd inputs s' :
  named nd ∈ names s → run_node cfg cg sched process onEndOfStream elapsed s i nd inputs = Some s' → R s s'.
Proof.
  intros Hnd. unfold run_node, run_node_with. set (s0 := bump s _). destruct (processNode _ _ s0 nd inputs) as [s1 r] eqn:Hp.
  eapply (fw_process s0) in Hp; [|exact Hnd]. set (t1 := emitTrace s1 _ _ _ _ _ _).
  assert (R s t1) as E1 by (etrans; [|exact Hp]; quiet). clear Hp.
  set (s2 := if ec_enable_statistics cfg then _ else _). assert (R s s2) as E2 by (etrans; [exact E1|unfold s2; case_match; quiet]).
  destruct (if e_stopFlag s2 then _ else _) as [s3|] eqn:H3; [|done]. cbn [mbind option_bind].
  assert (R s s3) as E3.
  { etrans; [exact E2|]. destruct (e_stopFlag s2); [injection H3 as <-; quiet|]. destruct r as [outputs|]; [|by eapply follows_failure].
    apply follows_success in H3. etrans; [|exact H3]. unfold mark_processed, record_latency. repeat case_match; quiet. }
  destruct (checkEos _ _ _ _ s3 i) as [[s4 b]|] eqn:H4; [|done]. cbn [mbind option_bind]. intros [= <-].
  apply follows_checkEos in H4. etrans; [exact E3|]. etrans; [exact H4|apply follows_done].
Qed.

Lemma follows_task s i s' : executeNodeTask cfg cg sched process onEndOfStream elapsed s i = Some s' → R s s'.
Proof.
  unfold executeNodeTask, executeNodeTask_with. destruct (stateByIndex s i) as [nd|] eqn:Hi; [|intros [= <-]; apply follows_done].
  destruct (isStopRequested s) as [s1 stop] eqn:Hs. apply follows_stopRequested in Hs.
  assert (∀ s2, R s1 s2 → R s (task_done cg sched s2)) as Hdone.
  { intros s2 E. etrans; [exact Hs|]. etrans; [exact E|apply follows_done]. }
  destruct stop; [intros [= <-]; apply Hdone; quiet|]. case_decide; [intros [= <-]; by apply Hdone|].
  destruct (gatherNodeInputs cfg _ i) as [[g ok]|] eqn:Hg; [|done]. cbn [mbind option_bind].
  apply follows_gather in Hg. assert (R s1 (ga_engine g)) as Eg by (etrans; [|exact Hg]; quiet). clear Hg.
  destruct ok.
  { assert (R s (ga_engine g)) as E by (by etrans). intros Hr%follows_run_node; [by etrans|].
    rewrite (fw_names _ _ E). by eapply named_at. }
  case_match.
  - destruct (checkEos _ _ _ _ _ i) as [[s3 b]|] eqn:H3; [|done]. cbn [mbind option_bind]. apply follows_checkEos in H3.
    assert (R s1 s3) as E3 by (etrans; [exact Eg|]; etrans; [|exact H3]; quiet).
    destruct b; [intros [= <-]; by apply Hdone|]. destruct (tryScheduleNode _ _ _ _ s3 i) as [s4|] eqn:H4; [|done].
    cbn [mbind option_bind]. intros [= <-]. apply Hdone. etrans; [exact E3|by eapply follows_tryScheduleNode].
  - destruct (handleNodeFailure _ _ _ _ _ i) as [s3|] eqn:H3; [|done]. cbn [mbind option_bind]. intros [= <-]. apply Hdone.
    etrans; [exact Eg|by eapply follows_failure].
Qed.

Lemma follows_pick_up s k i : e_pool s !! k = Some i → R s (pick_up cfg s k i).
Proof.
  intros Hk%lookup_lt_Some. unfold pick_up. set (s1 := e_set_scheduledAt _ _). set (s2 := bump s1 _).
  assert (R s s2) as E by (etrans; [by apply fw_take|fold s1; quiet]).
  destruct (stateByIndex s2 i); (etrans; [exact E|]); [by apply fw_trace|done].
Qed.

Lemma follows_run_task s k s' : run_task cfg cg sched process onEndOfStream elapsed s k = Some s' → R s s'.
Proof.
  unfold run_task. destruct (e_pool s !! k) as [i|] eqn:Hk; [|by intros [= <-]]. intros Ht%follows_task.
  etrans; [by apply follows_pick_up|exact Ht].
Qed.

Lemma follows_stamp s x s' x' : stampIncomingFrame cfg s x = (s', x') → R s s'.
Proof. unfold stampIncomingFrame. repeat case_match; intros [= <- _]; quiet. Qed.

Lemma follows_route s node port x s' r : routeToDownstream deref cg sched onEndOfStream elapsed s node port x = Some (s', r) → R s s'.
Proof.
  unfold routeToDownstream. destruct (indexOfPtr cg node) as [i|]; [|by intros [= <- _]].
  destruct (foldl _ _ _) as [[s1 [[a b] c]]|] eqn:Hf; [|done]. cbn [mbind option_bind]. intros [= <- _].
  revert Hf. generalize (0, 0, 0)%Z. generalize (outEdges cg i). intros l. revert s.
  induction l as [|e l IH]; intros s z; cbn [foldl]; [by intros [= <- _]|]. destruct z as [[za zb] zc].
  destruct (route_edge _ _ _ _ _ _ (Some (s, (za, zb, zc))) e) as [[s2 z2]|] eqn:He.
  - intros Hl%IH. etrans; [|exact Hl]. unfold route_edge in He. cbn [mbind option_bind] in He. case_decide; [by injection He as <- _|].
    destruct (stateByIndex s _); [|by injection He as <- _]. destruct (pushToQueue s _ _ x) as [s3 ok] eqn:Hp. apply follows_pushToQueue in Hp.
    destruct ok; [|by injection He as <- _]. destruct (tryScheduleNode _ _ _ _ _ _) as [s4|] eqn:Ht; [|done]. injection He as <- _.
    apply follows_tryScheduleNode in Ht. etrans; [exact Hp|]. etrans; [|exact Ht]. quiet.
  - intros Hl. exfalso. clear -Hl. induction l as [|e l IH]; [done|]. by apply IH.
Qed.

Lemma follows_pushInput s node port x s' r : pushInput deref cfg cg sched onEndOfStream elapsed s node port x = Some (s', r) → R s s'.
Proof.
  unfold pushInput. destruct (_ && _); [by intros [= <- _]|]. destruct (stateByName cg s node) as [i|]; [|by intros [= <- _]].
  destruct (stateByIndex s i) as [nd|]; [|by intros [= <- _]]. case_decide; [by intros [= <- _]|].
  destruct (isInputPort _ _ _); [|destruct (isOutputPort _ _ _); [apply follows_route|by intros [= <- _]]].
  destruct (match port_index _ _ with Some _ => _ | None => _ end); [by intros [= <- _]|].
  destruct (stampIncomingFrame cfg s x) as [s1 x1] eqn:Hs. apply follows_stamp in Hs.
  destruct (pushToQueue s1 i _ x1) as [s2 ok] eqn:Hp. apply follows_pushToQueue in Hp. assert (R s s2) as E2 by (by etrans).
  destruct ok; [|by intros [= <- _]]. destruct (tryScheduleNode _ _ _ _ _ i) as [s3|] eqn:Ht; [|done]. cbn [mbind option_bind].
  intros [= <- _]. apply follows_tryScheduleNode in Ht. etrans; [exact E2|]. etrans; [|exact Ht]. quiet.
Qed.

Lemma follows_signal s node port s' r : signalEndOfStream cg sched onEndOfStream elapsed s node port = Some (s', r) → R s s'.
Proof.
  unfold signalEndOfStream. destruct (negb _); [by intros [= <- _]|]. destruct (stateByName cg s node) as [i|]; [|by intros [= <- _]].
  destruct (stateByIndex s i) as [nd|]; [|by intros [= <- _]]. destruct (nd_input_ports nd) as [|first ports]; [by intros [= <- _]|].
  destruct (port_index _ _) as [k|]; [|by intros [= <- _]]. case_decide; [by intros [= <- _]|].
  destruct (portEosLatched nd k); [by intros [= <- _]|]. destruct (checkEos _ _ _ _ _ i) as [[s1 b]|] eqn:Hc; [|done]. cbn [mbind option_bind].
  apply follows_checkEos in Hc. assert (R s s1) as E1 by (etrans; [|exact Hc]; quiet). destruct b; [by intros [= <- _]|].
  destruct (tryScheduleNode _ _ _ _ s1 i) as [s2|] eqn:Ht; [|done]. cbn [mbind option_bind]. intros [= <- _].
  etrans; [exact E1|by eapply follows_tryScheduleNode].
Qed.

(** ** The timer and the watchdog *)

Lemma follows_timer s k s' : defer_fire cg sched onEndOfStream elapsed s k = Some s' → R s s'.
Proof.
  unfold defer_fire. destruct (e_deferQueue s !! k) as [[due i]|]; [|by intros [= <-]]. case_decide; [|by intros [= <-]].
  set (s1 := e_set_deferQueue s _). assert (R s s1) as E1 by quiet.
  destruct (stateByIndex s1 i); [|by intros [= <-]]. intros Ht%follows_tryScheduleNode. etrans; [exact E1|]. etrans; [|exact Ht]. quiet.
Qed.

Lemma follows_watchdog s : R s (watchdog_scan cfg cg sched s).
Proof.
  unfold watchdog_scan. destruct (e_stopFlag s); [done|]. apply follows_foldl. clear s. intros s i. unfold watchdog_node.
  destruct (stateByIndex s i) as [nd|]; [|done]. repeat case_match; try done; try quiet.
  etrans; [|apply follows_schedule]. quiet.
Qed.

(** ** Setup, teardown and the inputs of a batch *)

Lemma follows_teardown s : R s (teardownNodes s).
Proof.
  unfold teardownNodes. set (s1 := foldl _ s _). transitivity s1; [|quiet]. apply follows_foldl. intros. by apply fw_observe.
Qed.

Lemma follows_setup setup s s' r : setupNodes deref cg setup s = (s', r) → R s s'.
Proof.
  unfold setupNodes. destruct (e_setUpNodes s); [|by intros [= <- _]].
  generalize (cg_topoOrder cg). intros order. revert s. induction order as [|i order IH]; intros s; simpl; [by intros [= <- _]|].
  destruct (cg_node cg i) as [p|]; [|apply IH]. set (s1 := observe s (EvSetup p)).
  assert (R s s1) as E1 by (by apply fw_observe). case_match.
  - intros Hl%IH. etrans; [exact E1|]. etrans; [|exact Hl]. quiet.
  - intros [= <- _]. etrans; [exact E1|apply follows_teardown].
Qed.

Lemma follows_source inputs s h i s' h' :
  distribute_source cfg cg sched onEndOfStream elapsed inputs (Some (s, h)) i = Some (s', h') → R s s'.
Proof.
  unfold distribute_source. cbn [mbind option_bind]. destruct h as [has|]; [|by intros [= <- _]].
  assert (∀ s, (s ← tryScheduleNode cg sched onEndOfStream elapsed s i; Some (s, Some true)) = Some (s', h') → R s s') as Htry.
  { intros s1. destruct (tryScheduleNode _ _ _ _ s1 i) as [s2|] eqn:Ht; [|done]. intros [= <- _]. by eapply follows_tryScheduleNode. }
  destruct (stateByIndex s i) as [nd|]; [|by intros [= <- _]]. destruct (pm_find inputs (nd_name nd)) as [x|].
  - destruct (stampIncomingFrame cfg s x) as [s1 x1] eqn:Hs. apply follows_stamp in Hs.
    destruct (nd_input_ports nd) as [|port ports]; [intros Ht%Htry; by etrans|].
    destruct (pushToQueue s1 i port x1) as [s2 ok] eqn:Hp. apply follows_pushToQueue in Hp. assert (R s s2) as E2 by (by etrans).
    destruct ok; [|by intros [= <- _]]. intros Ht%Htry. etrans; [exact E2|]. etrans; [|exact Ht]. quiet.
  - destruct (nd_input_ports nd); [by apply Htry|by intros [= <- _]].
Qed.

Lemma follows_distribute s inputs s' ok :
  distributeInitialInputs cfg cg sched onEndOfStream elapsed s inputs = Some (s', ok) → R s s'.
Proof.
  unfold distributeInitialInputs. destruct (foldl _ _ _) as [[s1 h1]|] eqn:Hf; [|done]. cbn [mbind option_bind]. intros [= <- _].
  revert Hf. generalize (Some false). generalize (cg_sourceNodes cg). intros l. revert s.
  induction l as [|i l IH]; intros s h; cbn [foldl]; [by intros [= <- _]|].
  destruct (distribute_source _ _ _ _ _ _ (Some (s, h)) i) as [[s2 h2]|] eqn:Hi.
  - intros Hl%IH. etrans; [by eapply follows_source|done].
  - intros Hl. exfalso. clear -Hl. induction l as [|e l IH]; [done|]. by apply IH.
Qed.
End Follows.

(** ** The log only grows *)

Section Log.
Context `{CppTypes} {Q Sy : Type} `{!PortQueue Q, !SyncStrategy Sy}.
Context (deref : NodePtr → ILogicNode) (cfg : EngineConfig) (cg : CompiledGraph) (sched : SchedulerStrategy).
Context (process : list Event → NodePtr → PortDataMap → Outcome).
Context (onEndOfStream : list Event → NodePtr → Outcome) (elapsed : list Event → Z).
Notation Engine := (Engine Q Sy).
Implicit Types (s : Engine).

Definition extends s s' : Prop :=
  e_log s `prefix_of` e_log s' ∧ e_streamingMode s' = e_streamingMode s ∧ names s' = names s.

#[local] Instance extends_preorder : PreOrder extends.
Proof.
  split; [by intros s|]. intros s1 s2 s3 (P1 & M1 & N1) (P2 & M2 & N2). split; [by etrans|split; congruence].
Qed.

#[local] Instance extends_follows : Follows process onEndOfStream elapsed extends.
Proof.
  assert (∀ s ev, extends s (observe s ev)) as Hobs by (intros; split; [by apply prefix_app_r|done]).
  assert (∀ s s', e_log s' = e_log s → e_streamingMode s' = e_streamingMode s → names s' = names s → extends s s') as Hsame
    by (intros s s' Hl Hm Hn; split; [by rewrite Hl|done]).
  split; try apply _; try (intros; by apply Hsame).
  - by intros s s' (_ & _ & Hn).
  - intros s s' [= Hl Hm Hn _ _ _ _]. by apply Hsame.
  - intros s ev _. apply Hobs.
  - intros s nd s' outputs _. unfold run_flush. set (s1 := observe s _). pose proof (Hobs s (EvFlush (nd_node nd))) as E.
    destruct (onEndOfStream _ _); intros [= <- _]; (etrans; [exact E|]); [by apply Hsame|].
    set (s2 := observe (bump _ _) _). transitivity s2; [|by apply Hsame]. etrans; [|apply Hobs]. by apply Hsame.
  - intros s nd inputs s' r start duration _. unfold processNode. set (s1 := observe s _).
    pose proof (Hobs s (EvProcess (nd_node nd) inputs)) as E.
    destruct (process _ _ _); intros [= <- _]; (etrans; [exact E|]); [by apply Hsame|]. set (s2 := observe (e_set_now _ _) _).
    transitivity s2; [|by apply Hsame]. etrans; [|apply Hobs]. by apply Hsame.
Qed.

Lemma run_task_extends s k s' : run_task cfg cg sched process onEndOfStream elapsed s k = Some s' → extends s s'.
Proof. apply (follows_run_task _ _ _ _ _ _ extends). Qed.

Lemma pushInput_extends s node port x s' r :
  pushInput deref cfg cg sched onEndOfStream elapsed s node port x = Some (s', r) → extends s s'.
Proof. apply (follows_pushInput _ _ _ _ process _ _ extends). Qed.

Lemma signal_extends s node port s' r :
  signalEndOfStream cg sched onEndOfStream elapsed s node port = Some (s', r) → extends s s'.
Proof. apply (follows_signal _ _ process _ _ extends). Qed.
End Log.

(** ** The clock advances by what the calls take *)

Definition calls `{CppTypes} (log : list Event) : nat := length (filter (λ ev, is_call ev = true) log).

Lemma calls_app `{CppTypes} (log log' : list Event) : calls (log ++ log') = calls log + calls log'.
Proof. unfold calls. by rewrite filter_app, length_app. Qed.

Section Pace.
Context `{CppTypes} {Q Sy : Type} `{!PortQueue Q, !SyncStrategy Sy}.
Context (cfg : EngineConfig) (cg : CompiledGraph) (sched : SchedulerStrategy).
Context (process : list Event → NodePtr → PortDataMap → Outcome).
Context (onEndOfStream : list Event → NodePtr → Outcome) (elapsed : list Event → Z).
Context (slow : Z) (Hslow : ∀ log, (0 ≤ elapsed log ≤ slow)%Z).
Notation Engine := (Engine Q Sy).
Implicit Types (s : Engine).

Definition paced s s' : Prop :=
  names s' = names s ∧
  ∃ events, e_log s' = e_log s ++ events ∧ (e_now s ≤ e_now s' ≤ e_now s + Z.of_nat (calls events) * slow)%Z.

#[local] Instance paced_preorder : PreOrder paced.
Proof.
  split.
  - intros s. split; [done|]. exists []. rewrite app_nil_r. split; [done|]. cbn [calls filter list_filter length]. lia.
  - intros s1 s2 s3 [N1 (l1 & L1 & T1)] [N2 (l2 & L2 & T2)]. split; [congruence|]. exists (l1 ++ l2).
    rewrite L2, L1, app_assoc, calls_app. split; [done|]. lia.
Qed.

Lemma paced_quiet s s' events : names s' = names s → e_log s' = e_log s ++ events → e_now s' = e_now s → calls events = 0 → paced s s'.
Proof. intros N L T C. split; [done|]. exists events. rewrite C, T. split; [done|]. lia. Qed.

Lemma paced_call s s' events :
  names s' = names s → e_log s' = e_log s ++ events → calls events = 1 → (∃ log, e_now s' = e_now s + elapsed log)%Z → paced s s'.
Proof using Hslow. intros N L C [log T]. split; [done|]. exists events. rewrite C, T. split; [done|]. specialize (Hslow log). lia. Qed.

#[local] Instance paced_follows : Follows process onEndOfStream elapsed paced.
Proof using Hslow.
  split; try apply _.
  - by intros s s' [].
  - intros s s' [= Hl _ Hn _ _ _ Ht]. apply (paced_quiet s s' []); [done|by rewrite app_nil_r|done|done].
  - intros s ev Hev. apply (paced_quiet _ _ [ev]); try done. unfold calls. rewrite filter_cons, Hev. done.
  - intros. apply (paced_quiet _ _ []); try done. by rewrite app_nil_r.
  - intros. apply (paced_quiet _ _ []); try done. by rewrite app_nil_r.
  - intros. apply (paced_quiet _ _ []); try done. by rewrite app_nil_r.
  - intros s nd s' outputs _. unfold run_flush. destruct (onEndOfStream _ _); intros [= <- _].
    + apply (paced_call _ _ [EvFlush (nd_node nd)]); try done. by eexists.
    + eapply paced_call; [done|simpl; by rewrite <-app_assoc|done|by eexists].
  - intros s nd inputs s' r start duration _. unfold processNode. destruct (process _ _ _); intros [= <- _].
    + apply (paced_call _ _ [EvProcess (nd_node nd) inputs]); try done. by eexists.
    + eapply paced_call; [done|simpl; by rewrite <-app_assoc|done|by eexists].
Qed.

Lemma run_task_paced s k s' : run_task cfg cg sched process onEndOfStream elapsed s k = Some s' → paced s s'.
Proof using Hslow. apply (follows_run_task _ _ _ _ _ _ paced). Qed.
End Pace.
