(* ===== verification/EngineWaits.v ===== *)
(** * Waiting for the engine

    Threads wait for the engine on one condition variable, [m_completionCV]: for a batch
    to complete, for tasks to end, for the engine to leave RUNNING, for the end of the
    stream, for queues to drain.  Tasks, stops, and the end of the stream change the
    atomics those conditions read and then call [notifyCompletionWaiters].  Here the
    threads of one run interleave at every load, store, lock and notification
    (sequentially consistent), and no wake-up is lost: a thread that sleeps although its
    condition holds will still be notified ([engine_no_lost_wakeup]).

    A call that waits in the middle, as [stopStreaming] does, appears as the thread that
    makes the call, which goes on when no task is active, and its wait as one of the
    waiters.  What a task does between being posted and its end is reduced to what waiters can
    see: it takes packets off queues and posts tasks.  Whether the scheduler finds a
    batch complete is given with the step.  A reset begins another run. *)

From S2P Require Import Prelude Errors Packets EngineCore.
Local Open Scope list_scope.
Local Open Scope nat_scope.

(** ** Conditions *)

(** Who waits: [waitForCompletion] (and [execute] on a stream), [stopExecutionSync] and
    [stopStreaming], [waitForIdle], [waitForEndOfStream], [waitForDrain]. *)
Inductive Wait := ForCompletion | ForTasks | ForIdle | ForEos | ForDrain (max_depth : nat).

(** The atomics the conditions read; the queues by their sizes. *)
Record Shared := mkShared {
  w_active : Z;
  w_stop : bool;
  w_eos : bool;
  w_streaming : bool;
  w_state : EngineState;
  w_queues : list nat;
}.
Implicit Types (sh : Shared) (w : Wait).

Definition set_active sh x := mkShared x (w_stop sh) (w_eos sh) (w_streaming sh) (w_state sh) (w_queues sh).
Definition set_stop sh := mkShared (w_active sh) true (w_eos sh) (w_streaming sh) (w_state sh) (w_queues sh).
Definition set_eos sh := mkShared (w_active sh) (w_stop sh) true (w_streaming sh) (w_state sh) (w_queues sh).
Definition set_state sh x := mkShared (w_active sh) (w_stop sh) (w_eos sh) (w_streaming sh) x (w_queues sh).
Definition set_batch sh := mkShared (w_active sh) (w_stop sh) (w_eos sh) false (w_state sh) (w_queues sh).
Definition set_queues sh x := mkShared (w_active sh) (w_stop sh) (w_eos sh) (w_streaming sh) (w_state sh) x.

(** The disjuncts of the conditions. *)
Inductive Cause := NoTasks | Stopped | AtEnd | NotRunning | Drained (max_depth : nat).

Definition holds sh (c : Cause) : bool :=
  match c with
  | NoTasks => bool_decide (w_active sh = 0%Z)
  | Stopped => w_stop sh
  | AtEnd => w_eos sh
  | NotRunning => bool_decide (w_state sh ≠ RUNNING)
  | Drained d => bool_decide (w_active sh = 0%Z) && forallb (λ n, n <=? d) (w_queues sh)
  end.

Definition causes w : list Cause :=
  match w with
  | ForCompletion => [NoTasks; Stopped]
  | ForTasks => [NoTasks]
  | ForIdle => [NotRunning]
  | ForEos => [AtEnd; Stopped]
  | ForDrain d => [Stopped; Drained d]
  end.

(** The condition at one moment. *)
Definition condition sh w : bool := existsb (holds sh) (causes w).

(** What one load of a predicate decides. *)
Inductive Verdict := Yes | No | Next.

(** src/src/execution_engine_impl.cpp:946-952 ExecutionEngine::Impl::waitForDrain (the predicate, one load at
    a time; then the sizes of the queues, lines 967-979) *)
Definition drain_load sh (max_depth n : nat) : Verdict :=
  match n with
  | 0 => if w_stop sh then Yes else Next
  | 1 => if bool_decide (w_active sh = 0%Z) then Next else No
  | S (S i) => match w_queues sh !! i with None => Yes | Some size => if size <=? max_depth then Next else No end
  end.

(** src/src/execution_engine_impl.cpp:2391-2394 ExecutionEngine::Impl::waitForCompletion (completion_reached, one
    load at a time); the other predicates are those of lines 536-538, 784-786, 806-809 and 2300-2303 *)
Definition load sh w (n : nat) : Verdict :=
  match w, n with
  | ForCompletion, 0 => if bool_decide (w_active sh = 0%Z) then Yes else Next
  | ForCompletion, _ => if w_stop sh then Yes else No
  | ForTasks, _ => if bool_decide (w_active sh = 0%Z) then Yes else No
  | ForIdle, _ => if bool_decide (w_state sh ≠ RUNNING) then Yes else No
  | ForEos, 0 => if w_eos sh then Yes else Next
  | ForEos, _ => if w_stop sh then Yes else No
  | ForDrain d, n => drain_load sh d n
  end.

(** ** Threads *)

(** Where a waiting thread is. *)
Inductive WaiterPc :=
  | QLock (w : Wait)                 (* lock m_completionMutex *)
  | QEval (w : Wait) (n : nat)       (* the n-th load of the predicate *)
  | QSleep (w : Wait)                (* predicate false: release and sleep *)
  | QAsleep (w : Wait)               (* waiting on m_completionCV *)
  | QWoken (w : Wait)                (* woken: lock again *)
  | QExpired                         (* the time is over: lock again *)
  | QUnlock                          (* unlock *)
  | QReturned.

(** What a thread does after a notification. *)
Inductive After := ThenDone | ThenStream | ThenSync.

(** Where a thread is that changes what others wait for. *)
Inductive ActorPc :=
  | TRunning                         (* a task, counted in m_activeTasks *)
  | TLeft                            (* off the count: read m_streamingMode *)
  | TBatch                           (* read m_activeTasks *)
  | TComplete                        (* the batch is complete: RUNNING to IDLE *)
  | SFlag (next : After)             (* exchange m_stopFlag *)
  | SState (next : After)            (* RUNNING to STOPPED *)
  | StreamFlag                       (* stopStreaming: set m_stopFlag *)
  | StreamWait                       (* stopStreaming: until no task is active *)
  | StreamEnd                        (* stopStreaming: IDLE *)
  | SyncWait                         (* stopExecutionSync: until no task is active *)
  | SyncTail                         (* stopExecutionSync: RUNNING to STOPPED *)
  | EExchange                        (* recordSinkEndOfStream: exchange m_endOfStreamReached *)
  | CStop                            (* the end of waitForCompletion: read m_stopFlag *)
  | CActive (stop : bool)            (* read m_activeTasks *)
  | CState (stop : bool) (active : Z)             (* read m_engineState *)
  | CStore (stop : bool) (active : Z) (state : EngineState)
  | NLock (next : After)             (* notifyCompletionWaiters: lock and unlock *)
  | NNotify (next : After)           (* notify_all *)
  | ADone.

#[export] Instance After_eq : EqDecision After.
Proof. solve_decision. Defined.
#[export] Instance ActorPc_eq : EqDecision ActorPc.
Proof. solve_decision. Defined.

Record Sys := mkSys {
  y_shared : Shared;
  y_holder : option nat;             (* the waiter that holds m_completionMutex *)
  y_actors : list ActorPc;
  y_waiters : list WaiterPc;
}.
Implicit Types (s : Sys).

(** Actor [j] goes on at [pc], and the atomics are [sh]. *)
Definition act s (j : nat) (pc : ActorPc) sh : Sys := mkSys sh (y_holder s) (<[j := pc]> (y_actors s)) (y_waiters s).
Definition to s (k : nat) (pc : WaiterPc) (holder : option nat) : Sys :=
  mkSys (y_shared s) holder (y_actors s) (<[k := pc]> (y_waiters s)).

Definition resume (next : After) : ActorPc :=
  match next with ThenDone => ADone | ThenStream => StreamWait | ThenSync => SyncWait end.

(** src/src/execution_engine_impl.cpp:981-986 ExecutionEngine::Impl::notifyCompletionWaiters *)
Definition notify_step s (j : nat) (pc : ActorPc) : option Sys :=
  match pc with
  | NLock next => match y_holder s with None => Some (act s j (NNotify next) (y_shared s)) | Some _ => None end
  | NNotify next =>
      Some (mkSys (y_shared s) (y_holder s) (<[j := resume next]> (y_actors s))
              ((λ pc, match pc with QAsleep w => QWoken w | _ => pc end) <$> y_waiters s))
  | _ => None
  end.

(** src/src/execution_engine_impl.cpp:2324-2385 ExecutionEngine::Impl::checkCompletionAndNotify (what waiters can see), after the
    decrement at the end of a task; [complete]: the scheduler finds the batch complete and this is the first to see it *)
Definition task_step s (j : nat) (complete : bool) (pc : ActorPc) : option Sys :=
  let sh := y_shared s in
  match pc with
  | TRunning => Some (act s j TLeft (set_active sh (w_active sh - 1)))
  | TLeft => Some (act s j (if w_streaming sh then NLock ThenDone else TBatch) sh)
  | TBatch =>
      Some (act s j (if bool_decide (w_active sh = 0%Z) then if complete then TComplete else NLock ThenDone else ADone) sh)
  | TComplete =>
      Some (act s j (NLock ThenDone) (if bool_decide (w_state sh = RUNNING) then set_state sh IDLE else sh))
  | _ => None
  end.

(** src/src/execution_engine_impl.cpp:512-549 ExecutionEngine::Impl::stopExecutionAsync and stopExecutionSync (what waiters can see) *)
Definition stop_step s (j : nat) (pc : ActorPc) : option Sys :=
  let sh := y_shared s in
  match pc with
  | SFlag next => Some (if w_stop sh then act s j (resume next) sh else act s j (SState next) (set_stop sh))
  | SState next => Some (act s j (NLock next) (if bool_decide (w_state sh = RUNNING) then set_state sh STOPPED else sh))
  | SyncWait => if bool_decide (w_active sh = 0%Z) then Some (act s j SyncTail sh) else None
  | SyncTail => Some (act s j ADone (if bool_decide (w_state sh = RUNNING) then set_state sh STOPPED else sh))
  | _ => None
  end.

(** src/src/execution_engine_impl.cpp:765-798 ExecutionEngine::Impl::stopStreaming (what waiters can see) *)
Definition stream_step s (j : nat) (pc : ActorPc) : option Sys :=
  let sh := y_shared s in
  match pc with
  | StreamFlag => Some (if w_streaming sh then act s j (NLock ThenStream) (set_stop sh) else act s j ADone sh)
  | StreamWait => if bool_decide (w_active sh = 0%Z) then Some (act s j StreamEnd sh) else None
  | StreamEnd => Some (act s j (NLock ThenDone) (set_state (set_batch sh) IDLE))
  | _ => None
  end.

(** src/src/execution_engine_impl.cpp:2216-2228 ExecutionEngine::Impl::recordSinkEndOfStream (at the last sink) *)
Definition eos_step s (j : nat) (pc : ActorPc) : option Sys :=
  let sh := y_shared s in
  match pc with
  | EExchange => Some (if w_eos sh then act s j ADone sh else act s j (NLock ThenDone) (set_eos sh))
  | _ => None
  end.

(** src/src/execution_engine_impl.cpp:2421-2455 ExecutionEngine::Impl::waitForCompletion (the state it leaves) *)
Definition final_state (stop : bool) (active : Z) (current : EngineState) : option EngineState :=
  if stop && bool_decide (current ≠ STOPPED) then Some STOPPED
  else if bool_decide (active = 0%Z) && (bool_decide (current = RUNNING) || bool_decide (current = IDLE)) then Some IDLE
  else if bool_decide (current ≠ ERROR) && bool_decide (current ≠ STOPPED) then Some ERROR
  else None.

(** src/src/execution_engine_impl.cpp:2417-2460 ExecutionEngine::Impl::waitForCompletion (once the wait is over) *)
Definition tail_step s (j : nat) (pc : ActorPc) : option Sys :=
  let sh := y_shared s in
  match pc with
  | CStop => Some (act s j (CActive (w_stop sh)) sh)
  | CActive b => Some (act s j (CState b (w_active sh)) sh)
  | CState b a => Some (act s j (CStore b a (w_state sh)) sh)
  | CStore b a st => Some (act s j (NLock ThenDone) (match final_state b a st with Some x => set_state sh x | None => sh end))
  | _ => None
  end.

Definition actor_step s (j : nat) (complete : bool) (pc : ActorPc) : option Sys :=
  match pc with
  | TRunning | TLeft | TBatch | TComplete => task_step s j complete pc
  | SFlag _ | SState _ | SyncWait | SyncTail => stop_step s j pc
  | StreamFlag | StreamWait | StreamEnd => stream_step s j pc
  | EExchange => eos_step s j pc
  | CStop | CActive _ | CState _ _ | CStore _ _ _ => tail_step s j pc
  | NLock _ | NNotify _ => notify_step s j pc
  | ADone => None
  end.

(** src/src/execution_engine_impl.cpp:2387-2419 ExecutionEngine::Impl::waitForCompletion (the wait on m_completionCV); the
    waits of lines 426-432, 534-539, 782-787, 804-810, 944-952 and 2305-2311 are alike *)
Definition waiter_step s (k : nat) (pc : WaiterPc) : option Sys :=
  match pc with
  | QLock w | QWoken w => match y_holder s with None => Some (to s k (QEval w 0) (Some k)) | Some _ => None end
  | QEval w n =>
      Some (to s k (match load (y_shared s) w n with Yes => QUnlock | No => QSleep w | Next => QEval w (S n) end) (y_holder s))
  | QSleep w => Some (to s k (QAsleep w) None)
  | QExpired => match y_holder s with None => Some (to s k QUnlock (Some k)) | Some _ => None end
  | QUnlock => Some (to s k QReturned None)
  | QAsleep _ | QReturned => None
  end.

(** ** Runs *)

Inductive Move :=
  | MPost                                 (* a task is posted and counted *)
  | MPush (i : nat)                       (* a packet enters queue i *)
  | MPop (j i : nat)                      (* task j takes a packet off queue i *)
  | MCall (pc : ActorPc)                  (* a thread begins to change something *)
  | MActor (j : nat) (complete : bool)
  | MWait (w : Wait)                      (* a thread begins to wait *)
  | MWaiter (k : nat)
  | MSpurious (k : nat)
  | MExpire (k : nat).

(** The beginnings of calls. *)
Definition begins (pc : ActorPc) : bool :=
  match pc with SFlag ThenDone | SFlag ThenSync | StreamFlag | EExchange | CStop => true | _ => false end.

Definition add s (pc : ActorPc) sh : Sys := mkSys sh (y_holder s) (y_actors s ++ [pc]) (y_waiters s).
Definition quiet s sh : Sys := mkSys sh (y_holder s) (y_actors s) (y_waiters s).

Definition step s (m : Move) : option Sys :=
  let sh := y_shared s in
  match m with
  | MPost => Some (add s TRunning (set_active sh (w_active sh + 1)))
  | MPush i => Some (quiet s (set_queues sh (alter S i (w_queues sh))))
  | MPop j i =>
      match y_actors s !! j with Some TRunning => Some (quiet s (set_queues sh (alter pred i (w_queues sh)))) | _ => None end
  | MCall pc => if begins pc then Some (add s pc sh) else None
  | MActor j complete => pc ← y_actors s !! j; actor_step s j complete pc
  | MWait w => Some (mkSys sh (y_holder s) (y_actors s) (y_waiters s ++ [QLock w]))
  | MWaiter k => pc ← y_waiters s !! k; waiter_step s k pc
  | MSpurious k => match y_waiters s !! k with Some (QAsleep w) => Some (to s k (QWoken w) (y_holder s)) | _ => None end
  | MExpire k => match y_waiters s !! k with Some (QAsleep _) => Some (to s k QExpired (y_holder s)) | _ => None end
  end.

Definition sys_step s s' : Prop := ∃ m, step s m = Some s'.

(** A run has just begun. *)
Definition begun (streaming : bool) (queues : nat) : Sys :=
  mkSys (mkShared 0 false false streaming RUNNING (replicate queues 0)) None [] [].

Fixpoint run s (ms : list Move) : option Sys :=
  match ms with [] => Some s | m :: ms => s' ← step s m; run s' ms end.

(** ** No wake-up is lost *)

(** Whether a cause is the end of tasks. *)
Definition task_cause (c : Cause) : bool := match c with NoTasks | Drained _ => true | _ => false end.

(** The thread will still notify, whatever happens; a task that has left the count
    will if no task is active when it looks. *)
Definition will_notify (c : Cause) (pc : ActorPc) : bool :=
  match pc with
  | TComplete | SState _ | StreamWait | StreamEnd | CStore _ _ _ | NLock _ | NNotify _ => true
  | TLeft | TBatch => task_cause c
  | _ => false
  end.

(** It will lock the mutex before that. *)
Definition will_lock (c : Cause) (pc : ActorPc) : bool :=
  match pc with NNotify ThenDone | NNotify ThenSync => false | _ => will_notify c pc end.

Definition someone s (P : ActorPc → bool) : Prop := ∃ j pc, y_actors s !! j = Some pc ∧ P pc = true.

(** The disjuncts a predicate has read as false. *)
Definition read w (n : nat) : list Cause :=
  match w with ForDrain _ => take (min n 1) (causes w) | _ => take n (causes w) end.

(** What holds of a waiter: what it has read as false and is true by now will still be
    notified, and not before it sleeps. *)
Definition covered s (pc : WaiterPc) : Prop :=
  match pc with
  | QEval w n => ∀ c, c ∈ read w n → holds (y_shared s) c = true → someone s (will_lock c)
  | QSleep w => ∀ c, c ∈ causes w → holds (y_shared s) c = true → someone s (will_lock c)
  | QAsleep w => ∀ c, c ∈ causes w → holds (y_shared s) c = true → someone s (will_notify c)
  | _ => True
  end.

(** The waiter holds the mutex. *)
Definition locked (pc : WaiterPc) : bool := match pc with QEval _ _ | QSleep _ | QUnlock => true | _ => false end.

(** The thread has found the engine stopping. *)
Definition in_sync (pc : ActorPc) : bool :=
  match pc with SState _ | NLock ThenSync | NNotify ThenSync | SyncWait | SyncTail | NLock ThenStream | NNotify ThenStream => true | _ => false end.

(** The thread will leave RUNNING and notify. *)
Definition will_leave (pc : ActorPc) : bool :=
  match pc with SState _ | StreamWait | StreamEnd | NLock ThenStream | NNotify ThenStream => true | _ => false end.

Definition running_tasks (l : list ActorPc) : nat := length (filter (λ pc, pc = TRunning) l).

Record sys_inv s : Prop := {
  sv_active : w_active (y_shared s) = Z.of_nat (running_tasks (y_actors s));
  sv_holder k pc : y_waiters s !! k = Some pc → locked pc = true ↔ y_holder s = Some k;
  sv_range k : y_holder s = Some k → k < length (y_waiters s);
  sv_covered k pc : y_waiters s !! k = Some pc → covered s pc;
  sv_sync j pc : y_actors s !! j = Some pc → in_sync pc = true → w_stop (y_shared s) = true;
  sv_leave : w_stop (y_shared s) = true → w_state (y_shared s) = RUNNING → someone s will_leave;
}.

Lemma begun_inv streaming queues : sys_inv (begun streaming queues).
Proof. by split. Qed.

(** *** Covered waiters *)

(** Coverage depends on who will notify of what holds. *)
Lemma covered_mono s s' pc :
  (∀ c, holds (y_shared s') c = true → someone s' (will_lock c) ∨
     holds (y_shared s) c = true ∧ (someone s (will_lock c) → someone s' (will_lock c)) ∧
     (someone s (will_notify c) → someone s' (will_notify c))) →
  covered s pc → covered s' pc.
Proof.
  intros Hc. assert (∀ c, someone s' (will_lock c) → someone s' (will_notify c)) as Hw.
  { intros c (j & pc' & Hj & Hl). exists j, pc'. split; [done|]. by destruct pc' as [| | | | | | | | | | | | | | | |[]|[]|]. }
  destruct pc as [w|w n|w|w|w| | |]; simpl; try done; intros Hp c Hin Ht; destruct (Hc c Ht) as [He|(Ht' & H1 & H2)]; eauto.
Qed.

Lemma someone_insert s j pc pc' sh P : y_actors s !! j = Some pc → (P pc = true → P pc' = true) →
  someone s P → someone (act s j pc' sh) P.
Proof.
  intros Hj HP (i & q & Hi & Hq). destruct (decide (i = j)) as [->|Hne].
  - rewrite Hj in Hi. injection Hi as <-. exists j, pc'. split; [|by apply HP]. simpl. apply list_lookup_insert_eq. by eapply lookup_lt_Some.
  - exists i, q. split; [|done]. simpl. by rewrite list_lookup_insert_ne.
Qed.

Lemma someone_at s j pc pc' sh P : y_actors s !! j = Some pc → P pc' = true → someone (act s j pc' sh) P.
Proof. intros Hj HP. exists j, pc'. split; [|done]. simpl. apply list_lookup_insert_eq. by eapply lookup_lt_Some. Qed.

(** A thread goes on: somebody will tell what becomes true, and what it was to tell it still is. *)
Lemma covered_act s j pc pc' sh q : y_actors s !! j = Some pc →
  (∀ c, holds sh c = true → someone (act s j pc' sh) (will_lock c) ∨
     holds (y_shared s) c = true ∧ (will_lock c pc = true → will_lock c pc' = true) ∧ (will_notify c pc = true → will_notify c pc' = true)) →
  covered s q → covered (act s j pc' sh) q.
Proof.
  intros Hj Hc. apply covered_mono. intros c Ht. destruct (Hc c Ht) as [Hl|(Ht' & H1 & H2)]; [by left|right].
  split; [done|]. split; by apply (someone_insert s j pc).
Qed.

Lemma running_insert l j pc pc' : l !! j = Some pc →
  running_tasks (<[j := pc']> l) + (if decide (pc = TRunning) then 1 else 0) =
  running_tasks l + (if decide (pc' = TRunning) then 1 else 0).
Proof.
  intros Hj. unfold running_tasks. rewrite <-(take_drop_middle l j pc Hj) at 2. rewrite insert_take_drop by (by eapply lookup_lt_Some).
  rewrite !filter_app, !filter_cons, !length_app. repeat case_decide; simpl; lia.
Qed.

(** *** Steps of the threads that notify *)

Lemma act_inv s j pc pc' sh : sys_inv s → y_actors s !! j = Some pc →
  w_active sh = Z.of_nat (running_tasks (<[j := pc']> (y_actors s))) →
  (∀ c, holds sh c = true → someone (act s j pc' sh) (will_lock c) ∨
     holds (y_shared s) c = true ∧ (will_lock c pc = true → will_lock c pc' = true) ∧ (will_notify c pc = true → will_notify c pc' = true)) →
  (w_stop (y_shared s) = true ∨ in_sync pc' = true → w_stop sh = true) →
  (w_stop sh = true → w_state sh = RUNNING → will_leave pc' = true ∨
     w_stop (y_shared s) = true ∧ w_state (y_shared s) = RUNNING ∧ (will_leave pc = true → will_leave pc' = true)) →
  sys_inv (act s j pc' sh).
Proof.
  intros [I1 I2 I3 I4 I5 I6] Hj Ha Hc Hs Hl. split; try done.
  - intros k q Hk. eapply covered_act; [exact Hj|exact Hc|by eapply I4].
  - simpl. intros i q [[<- ->]|[Hne Hi]]%lookup_insert_inv Hq; apply Hs; [by right|left; by eapply I5].
  - simpl. intros H1 H2. destruct (Hl H1 H2) as [H|(H3 & H4 & H5)]; [by eapply someone_at|].
    apply (someone_insert s j pc); [done|done|by apply I6].
Qed.

(** The mutex is free: only sleepers are waiting for what was read. *)
Lemma lock_inv s j next : sys_inv s → y_actors s !! j = Some (NLock next) → y_holder s = None →
  sys_inv (act s j (NNotify next) (y_shared s)).
Proof.
  intros [I1 I2 I3 I4 I5 I6] Hj Hh. split; try done; simpl.
  - rewrite I1. f_equal. pose proof (running_insert (y_actors s) j _ (NNotify next) Hj) as Hr. simpl in Hr. lia.
  - intros k q Hk. pose proof (I2 k q Hk) as Hq. rewrite Hh in Hq. pose proof (I4 k q Hk) as Hcov.
    destruct q as [w|w n|w|w|w| | |]; simpl in *; try done.
    all: try (destruct Hq as [Hq _]; by specialize (Hq eq_refl)).
    intros c Hin Ht. by apply (someone_insert s j (NLock next)), Hcov.
  - intros i q [[<- ->]|[Hne Hi]]%lookup_insert_inv Hq; [|by eapply I5]. apply (I5 j (NLock next) Hj). by destruct next.
  - intros H1 H2. apply (someone_insert s j (NLock next)); [done|by destruct next|by apply I6].
Qed.

(** Everybody who sleeps is woken. *)
Lemma notify_inv s j next s' : sys_inv s → y_actors s !! j = Some (NNotify next) →
  notify_step s j (NNotify next) = Some s' → sys_inv s'.
Proof.
  intros [I1 I2 I3 I4 I5 I6] Hj [= <-]. split; simpl.
  - rewrite I1. f_equal. pose proof (running_insert (y_actors s) j _ (resume next) Hj) as Hr. destruct next; simpl in Hr |- *; lia.
  - intros k q. rewrite list_lookup_fmap. intros (q0 & Hk & ->)%fmap_Some. rewrite <-(I2 k q0 Hk). by destruct q0.
  - intros k Hk. rewrite length_fmap. by apply I3.
  - intros k q. rewrite list_lookup_fmap. intros (q0 & Hk & ->)%fmap_Some. pose proof (I4 k q0 Hk) as Hcov.
    destruct q0 as [w|w n|w|w|w| | |]; simpl in *; try done; intros c Hin Ht;
      (apply (someone_insert s j (NNotify next) (resume next) (y_shared s)); [done|by destruct next|by apply Hcov]).
  - intros i q [[<- ->]|[Hne Hi]]%lookup_insert_inv Hq; [|by eapply I5]. apply (I5 j (NNotify next) Hj). by destruct next.
  - intros H1 H2. apply (someone_insert s j (NNotify next) (resume next) (y_shared s)); [done|by destruct next|by apply I6].
Qed.

(** Nothing that is seen changes but the thread. *)
Lemma silent_act s j pc pc' : sys_inv s → y_actors s !! j = Some pc → pc ≠ TRunning → pc' ≠ TRunning →
  (∀ c, holds (y_shared s) c = true → (will_lock c pc = true → will_lock c pc' = true) ∧ (will_notify c pc = true → will_notify c pc' = true)) →
  (in_sync pc' = true → w_stop (y_shared s) = true) → (will_leave pc = true → will_leave pc' = true) →
  sys_inv (act s j pc' (y_shared s)).
Proof.
  intros I Hj H1 H2 Hc Hs Hl. eapply act_inv; [done|exact Hj| |by right; auto|by intros [|]; auto|by right].
  rewrite (sv_active _ I). pose proof (running_insert (y_actors s) j pc pc' Hj) as Hr. rewrite !decide_False in Hr by done. lia.
Qed.

Lemma state_holds sh st c : holds (set_state sh st) c = true → c ≠ NotRunning → holds sh c = true.
Proof. by destruct c. Qed.

(** The engine leaves RUNNING, and somebody will tell. *)
Lemma state_act s j pc pc' st : sys_inv s → y_actors s !! j = Some pc → pc ≠ TRunning → pc' ≠ TRunning → st ≠ RUNNING →
  (∀ c, holds (y_shared s) c = true → (will_lock c pc = true → will_lock c pc' = true) ∧ (will_notify c pc = true → will_notify c pc' = true)) →
  (holds (y_shared s) NotRunning = true ∨ someone (act s j pc' (set_state (y_shared s) st)) (will_lock NotRunning)) →
  (in_sync pc' = true → w_stop (y_shared s) = true) → sys_inv (act s j pc' (set_state (y_shared s) st)).
Proof.
  intros I Hj H1 H2 Hst Hc Hn Hs. eapply act_inv; [done|exact Hj| | |by intros [|]; auto|by intros _ ?].
  - simpl. rewrite (sv_active _ I). pose proof (running_insert (y_actors s) j pc pc' Hj) as Hr. rewrite !decide_False in Hr by done. lia.
  - intros c Ht. destruct c as [| | | |d]; try (right; split; [exact Ht|by apply Hc]).
    destruct Hn as [Hn|Hn]; [right; split; [done|by apply Hc]|by left].
Qed.

Lemma task_step_inv s j complete pc s' : sys_inv s → y_actors s !! j = Some pc → task_step s j complete pc = Some s' → sys_inv s'.
Proof.
  intros I Hj. pose proof (sv_active _ I) as Ha. destruct pc; try done; cbn [task_step]; intros [= <-].
  - pose proof (running_insert (y_actors s) j TRunning TLeft Hj) as Hr. simpl in Hr.
    eapply act_inv; [done|exact Hj| | |by intros [|]; auto|by right].
    + simpl. lia.
    + intros c Ht. destruct c as [| | | |d]; try (by right); left; by eapply someone_at.
  - apply (silent_act s j TLeft); try done; destruct (w_streaming _); try done; intros c Ht; by destruct c.
  - case_bool_decide as H0.
    + apply (silent_act s j TBatch); try done; destruct complete; done.
    + apply (silent_act s j TBatch); try done. intros c Ht. destruct c; try done; simpl in Ht; by rewrite bool_decide_eq_false_2 in Ht.
  - case_bool_decide; [apply (state_act s j TComplete); try done; right; by eapply someone_at|by apply (silent_act s j TComplete)].
Qed.

Lemma stop_step_inv s j pc s' : sys_inv s → y_actors s !! j = Some pc → stop_step s j pc = Some s' → sys_inv s'.
Proof.
  intros I Hj. pose proof (sv_active _ I) as Ha. destruct pc as [| | | |next|next| | | | | | | | | | | | |]; try done; cbn [stop_step].
  - intros [= <-]. destruct (w_stop (y_shared s)) eqn:Hs; [apply (silent_act s j (SFlag next)); by destruct next|].
    pose proof (running_insert (y_actors s) j (SFlag next) (SState next) Hj) as Hr. simpl in Hr.
    eapply act_inv; [done|exact Hj|simpl; lia| |done|by left].
    intros c Ht. destruct c; try (by right); left; by eapply someone_at.
  - intros [= <-]. pose proof (sv_sync _ I j _ Hj eq_refl) as Hs. case_bool_decide.
    + apply (state_act s j (SState next)); try done. right. by eapply someone_at.
    + pose proof (running_insert (y_actors s) j (SState next) (NLock next) Hj) as Hr. simpl in Hr.
      eapply act_inv; [done|exact Hj|simpl; lia|by right|by intros [|]|done].
  - case_bool_decide; [|done]. intros [= <-]. apply (silent_act s j SyncWait); try done. intros _. by apply (sv_sync _ I j SyncWait).
  - intros [= <-]. pose proof (sv_sync _ I j _ Hj eq_refl) as Hs. case_bool_decide as Hr; [|by apply (silent_act s j SyncTail)].
    apply (state_act s j SyncTail); try done. right.
    destruct (sv_leave _ I Hs Hr) as (i & q & Hi & Hq). exists i, q. split; [|by destruct q as [| | | | | | | | | | | | | | | |[]|[]|]].
    simpl. rewrite list_lookup_insert_ne; [done|]. intros <-. rewrite Hj in Hi. by injection Hi as <-.
Qed.

Lemma stream_step_inv s j pc s' : sys_inv s → y_actors s !! j = Some pc → stream_step s j pc = Some s' → sys_inv s'.
Proof.
  intros I Hj. pose proof (sv_active _ I) as Ha. destruct pc; try done; cbn [stream_step].
  - intros [= <-]. destruct (w_streaming (y_shared s)); [|by apply (silent_act s j StreamFlag)].
    pose proof (running_insert (y_actors s) j StreamFlag (NLock ThenStream) Hj) as Hr. simpl in Hr.
    eapply act_inv; [done|exact Hj|simpl; lia| |done|by left].
    intros c Ht. destruct c; try (by right); left; by eapply someone_at.
  - case_bool_decide; [|done]. intros [= <-]. by apply (silent_act s j StreamWait).
  - intros [= <-]. pose proof (running_insert (y_actors s) j StreamEnd (NLock ThenDone) Hj) as Hr. simpl in Hr.
    eapply act_inv; [done|exact Hj|simpl; lia| |by intros [|]|done].
    intros c Ht. left. by eapply someone_at.
Qed.

Lemma eos_step_inv s j pc s' : sys_inv s → y_actors s !! j = Some pc → eos_step s j pc = Some s' → sys_inv s'.
Proof.
  intros I Hj. pose proof (sv_active _ I) as Ha. destruct pc; try done; cbn [eos_step]. intros [= <-].
  destruct (w_eos (y_shared s)); [by apply (silent_act s j EExchange)|].
  pose proof (running_insert (y_actors s) j EExchange (NLock ThenDone) Hj) as Hr. simpl in Hr.
  eapply act_inv; [done|exact Hj|simpl; lia| |by intros [|]|by right]. intros c Ht. destruct c; try (by right); left; by eapply someone_at.
Qed.

Lemma final_not_running b a st x : final_state b a st = Some x → x ≠ RUNNING.
Proof. unfold final_state. repeat case_match; by intros [= <-]. Qed.

Lemma tail_step_inv s j pc s' : sys_inv s → y_actors s !! j = Some pc → tail_step s j pc = Some s' → sys_inv s'.
Proof.
  intros I Hj. destruct pc as [| | | | | | | | | | | | |b|b a|b a st| | |]; try done; cbn [tail_step]; intros [= <-].
  - by apply (silent_act s j CStop).
  - by apply (silent_act s j (CActive b)).
  - by apply (silent_act s j (CState b a)).
  - destruct (final_state b a st) as [x|] eqn:Hx; [|by apply (silent_act s j (CStore b a st))].
    apply (state_act s j (CStore b a st)); try done; [by eapply final_not_running|]. right. by eapply someone_at.
Qed.

Lemma actor_step_inv s j complete pc s' : sys_inv s → y_actors s !! j = Some pc → actor_step s j complete pc = Some s' → sys_inv s'.
Proof.
  intros I Hj. destruct pc; cbn [actor_step];
    match goal with
    | |- task_step _ _ _ _ = _ → _ => by apply task_step_inv
    | |- stop_step _ _ _ = _ → _ => by apply stop_step_inv
    | |- stream_step _ _ _ = _ → _ => by apply stream_step_inv
    | |- eos_step _ _ _ = _ → _ => by apply eos_step_inv
    | |- tail_step _ _ _ = _ → _ => by apply tail_step_inv
    | |- notify_step _ _ (NNotify _) = _ → _ => by apply notify_inv
    | |- _ => idtac
    end; [|done].
  cbn [notify_step]. destruct (y_holder s) eqn:Hh; [done|]. intros [= <-]. by apply lock_inv.
Qed.

(** *** Steps of the waiters *)

(** A predicate that is false has read every disjunct that is true by now. *)
Lemma load_no sh w n c : load sh w n = No → c ∈ causes w → holds sh c = true → c ∈ read w n.
Proof.
  intros Hl Hin Ht. destruct w as [| | | |d].
  1-4: destruct n as [|n]; simpl in Hl;
    (match type of Hl with (if ?b then _ else _) = _ => destruct b eqn:Hb; [done|] end); try done;
    repeat (apply elem_of_cons in Hin as [->|Hin]); try (by apply not_elem_of_nil in Hin); try (simpl in Ht; congruence);
    by apply elem_of_cons; left.
  simpl in Hin. assert (c = Stopped ∨ c = Drained d) as [-> | ->] by set_solver; destruct n as [|n]; simpl in Hl; try by case_match.
  - simpl. destruct (min n 0); by apply elem_of_cons; left.
  - exfalso. simpl in Ht. apply andb_true_iff in Ht as [Ha Hall]. rewrite forallb_forall in Hall. destruct n as [|i]; [by rewrite Ha in Hl|].
    destruct (w_queues sh !! i) as [size|] eqn:Hi; [|done]. rewrite Hall in Hl; [done|]. apply list_elem_of_In. by eapply list_elem_of_lookup_2.
Qed.

Lemma load_next sh w n c : load sh w n = Next → c ∈ read w (S n) → holds sh c = true → c ∈ read w n.
Proof.
  destruct w as [| | | |d], n as [|n]; simpl; try by repeat case_match.
  - case_bool_decide; [done|]. intros _ Hin. assert (c = NoTasks) as -> by set_solver. simpl. by rewrite bool_decide_eq_false_2.
  - destruct (w_eos sh) eqn:He; [done|]. intros _ Hin. assert (c = AtEnd) as -> by set_solver. simpl. by rewrite He.
  - destruct (w_stop sh) eqn:He; [done|]. intros _ Hin. assert (c = Stopped) as -> by set_solver. simpl. by rewrite He.
Qed.

(** A waiter goes on, perhaps with or without the mutex. *)
Lemma to_inv s k pc pc' holder : sys_inv s → y_waiters s !! k = Some pc →
  (y_holder s = None ∨ y_holder s = Some k) → (holder = None ∨ holder = Some k) → (locked pc' = true ↔ holder = Some k) →
  covered s pc' → sys_inv (to s k pc' holder).
Proof.
  intros [I1 I2 I3 I4 I5 I6] Hk Hh Hh' Hl Hc. split; try done; simpl.
  - intros i q [[<- ->]|[Hne Hi]]%lookup_insert_inv; [done|]. rewrite (I2 i q Hi). destruct Hh as [-> | ->], Hh' as [-> | ->]; naive_solver.
  - intros i Hi. rewrite length_insert. destruct Hh' as [-> | ->]; [done|]. injection Hi as <-. by eapply lookup_lt_Some.
  - intros i q [[<- ->]|[Hne Hi]]%lookup_insert_inv; [by destruct pc'|]. pose proof (I4 i q Hi) as Hcov. by destruct q.
Qed.

Lemma waiter_step_inv s k pc s' : sys_inv s → y_waiters s !! k = Some pc → waiter_step s k pc = Some s' → sys_inv s'.
Proof.
  intros I Hk. pose proof (sv_holder _ I k pc Hk) as Hl. pose proof (sv_covered _ I k pc Hk) as Hc.
  destruct pc as [w|w n|w|w|w| | |]; simpl in Hl, Hc; cbn [waiter_step]; try done.
  - destruct (y_holder s) eqn:Hh; [done|]. intros [= <-]. eapply to_inv; [done|exact Hk|by left|by right|done|].
    intros c Hin. by destruct w; apply not_elem_of_nil in Hin.
  - intros [= <-]. assert (y_holder s = Some k) as Hh by (by apply Hl). eapply to_inv; [done|exact Hk|by right|by right| |].
    + rewrite Hh. by case_match.
    + destruct (load (y_shared s) w n) eqn:Hload; simpl; [done| |]; intros c Hin Ht; apply Hc; eauto using load_no, load_next.
  - intros [= <-]. assert (y_holder s = Some k) as Hh by (by apply Hl). eapply to_inv; [done|exact Hk|by right|by left|done|].
    simpl. intros c Hin Ht. destruct (Hc c Hin Ht) as (i & q & Hi & Hq). exists i, q. split; [done|].
    by destruct q as [| | | | | | | | | | | | | | | |[]|[]|].
  - destruct (y_holder s) eqn:Hh; [done|]. intros [= <-]. eapply to_inv; [done|exact Hk|by left|by right|done|].
    intros c Hin. by destruct w; apply not_elem_of_nil in Hin.
  - destruct (y_holder s) eqn:Hh; [done|]. intros [= <-]. by eapply to_inv; [done|exact Hk|left|right|..].
  - intros [= <-]. assert (y_holder s = Some k) as Hh by (by apply Hl). by eapply to_inv; [done|exact Hk|right|left|..].
Qed.

(** A sleeper wakes by itself. *)
Lemma wake_inv s k w pc' : sys_inv s → y_waiters s !! k = Some (QAsleep w) → locked pc' = false → covered s pc' →
  sys_inv (to s k pc' (y_holder s)).
Proof.
  intros [I1 I2 I3 I4 I5 I6] Hk Hl Hc. split; try done; simpl.
  - intros i q [[<- ->]|[Hne Hi]]%lookup_insert_inv; [|by apply I2]. rewrite Hl, <-(I2 k _ Hk). done.
  - intros i Hi. rewrite length_insert. by apply I3.
  - intros i q [[<- ->]|[Hne Hi]]%lookup_insert_inv; [by destruct pc'|]. pose proof (I4 i q Hi) as Hcov. by destruct q.
Qed.

(** *** Every move *)

Lemma someone_app s pc sh P : someone s P → someone (add s pc sh) P.
Proof. intros (j & q & Hj & Hq). exists j, q. split; [|done]. simpl. by apply lookup_app_l_Some. Qed.

Lemma add_inv s pc sh : sys_inv s →
  w_active sh = Z.of_nat (running_tasks (y_actors s ++ [pc])) → in_sync pc = false →
  w_stop sh = w_stop (y_shared s) → w_state sh = w_state (y_shared s) →
  (∀ c, holds sh c = true → holds (y_shared s) c = true) → sys_inv (add s pc sh).
Proof.
  intros [I1 I2 I3 I4 I5 I6] Ha Hp Hs Hst Hc. split; try done; simpl.
  - intros k q Hk. apply (covered_mono s); [|by eapply I4]. intros c Ht. right. split; [by apply Hc|]. split; apply someone_app.
  - intros j q [Hj|[_ Hj]]%lookup_app_Some Hq; rewrite Hs; [by eapply I5|]. apply list_lookup_singleton_Some in Hj as [_ <-]. congruence.
  - rewrite Hs, Hst. intros H1 H2. by apply someone_app, I6.
Qed.

Lemma queues_inv s qs : sys_inv s → (∀ d, holds (set_queues (y_shared s) qs) (Drained d) = true → holds (y_shared s) (Drained d) = true) →
  sys_inv (quiet s (set_queues (y_shared s) qs)).
Proof.
  intros [I1 I2 I3 I4 I5 I6] Hc. split; try done. intros k q Hk. apply (covered_mono s); [|by eapply I4].
  intros c Ht. right. split; [|done]. destruct c; try done. by apply Hc.
Qed.

Lemma move_inv s m s' : step s m = Some s' → sys_inv s → sys_inv s'.
Proof.
  intros Hs I. pose proof (sv_active _ I) as Ha. destruct m as [|i|j i|pc|j complete|w|k|k|k]; simpl in Hs.
  - injection Hs as <-. unfold running_tasks in *. apply add_inv; try done.
    + unfold running_tasks. rewrite filter_app, length_app. simpl. lia.
    + intros c. destruct c; simpl; try done; rewrite bool_decide_eq_false_2 by lia; done.
  - injection Hs as <-. apply queues_inv; [done|]. intros d. simpl. destruct (bool_decide _); [|done]. simpl.
    rewrite !forallb_forall. intros Hall n [j Hj]%list_elem_of_In%list_elem_of_lookup. apply Nat.leb_le.
    assert ((if decide (i = j) then S n else n) <=? d = true) as Hle%Nat.leb_le; [|case_decide; lia].
    apply Hall, list_elem_of_In, list_elem_of_lookup. exists j. rewrite list_lookup_alter. case_decide as Hij; [subst; by rewrite Hj|done].
  - destruct (y_actors s !! j) as [[]|] eqn:Hj; try done. injection Hs as <-. apply queues_inv; [done|]. intros d. simpl.
    assert (0 < running_tasks (y_actors s)) as Hpos.
    { pose proof (running_insert (y_actors s) j TRunning ADone Hj) as Hr. simpl in Hr. lia. }
    by rewrite bool_decide_eq_false_2 by lia.
  - destruct (begins pc) eqn:Hb; [|done]. injection Hs as <-. apply add_inv; try done.
    + unfold running_tasks. rewrite filter_app, length_app. rewrite Ha. unfold running_tasks. destruct pc; simpl in *; try done; lia.
    + by destruct pc as [| | | |[]|[]| | | | | | | | | | |[]|[]|].
  - destruct (y_actors s !! j) as [pc|] eqn:Hj; [|done]. by eapply actor_step_inv.
  - injection Hs as <-. destruct I as [I1 I2 I3 I4 I5 I6]. split; try done; simpl.
    + intros k pc [Hk|[Hle Hk]]%lookup_app_Some; [by apply I2|]. apply list_lookup_singleton_Some in Hk as [_ <-].
      split; [done|]. intros Hh%I3. lia.
    + intros k Hh%I3. rewrite length_app. lia.
    + intros k pc [Hk|[Hle Hk]]%lookup_app_Some; [|by apply list_lookup_singleton_Some in Hk as [_ <-]].
      pose proof (I4 k pc Hk) as Hcov. by destruct pc.
  - destruct (y_waiters s !! k) as [pc|] eqn:Hk; [|done]. by eapply waiter_step_inv.
  - destruct (y_waiters s !! k) as [[]|] eqn:Hk; try done. injection Hs as <-. by eapply wake_inv.
  - destruct (y_waiters s !! k) as [[]|] eqn:Hk; try done. injection Hs as <-. by eapply wake_inv.
Qed.

Lemma waiting_inv streaming queues s : rtc sys_step (begun streaming queues) s → sys_inv s.
Proof.
  intros Hr. assert (∀ s1 s2, rtc sys_step s1 s2 → sys_inv s1 → sys_inv s2) as Hall; [|by eapply Hall, begun_inv].
  induction 1 as [|s1 s2 s3 [m Hm] _ IH]; [done|]. intros I. by eapply IH, move_inv.
Qed.

(** C8: no wake-up is lost in the engine.  Take any interleaving of tasks, stops, ends of
    streams and waiters within a run, each load, store, lock and notification a step of
    its own.  A thread that sleeps in [waitForCompletion], [stopExecutionSync],
    [stopStreaming], [waitForIdle], [waitForEndOfStream] or [waitForDrain] although its
    condition holds will be notified: some thread is on its way to notify.  So once the
    tasks and the calls have come to their ends, whoever sleeps waits for something that
    is not the case.  Besides, [m_activeTasks] counts exactly the tasks under way. *)
Theorem engine_no_lost_wakeup streaming queues s :
  rtc sys_step (begun streaming queues) s →
  w_active (y_shared s) = Z.of_nat (running_tasks (y_actors s)) ∧
  (∀ k w, y_waiters s !! k = Some (QAsleep w) → condition (y_shared s) w = true →
     ∃ c, c ∈ causes w ∧ holds (y_shared s) c = true ∧ someone s (will_notify c)) ∧
  ((∀ j pc, y_actors s !! j = Some pc → pc = ADone) →
   ∀ k w, y_waiters s !! k = Some (QAsleep w) → condition (y_shared s) w = false).
Proof.
  intros I%waiting_inv. split; [apply I|].
  assert (∀ k w, y_waiters s !! k = Some (QAsleep w) → condition (y_shared s) w = true →
    ∃ c, c ∈ causes w ∧ holds (y_shared s) c = true ∧ someone s (will_notify c)) as Hw.
  { intros k w Hk Hc. apply existsb_exists in Hc as (c & Hin%list_elem_of_In & Ht). exists c. split_and!; try done.
    by apply (sv_covered _ I k _ Hk). }
  split; [done|]. intros Hdone k w Hk. destruct (condition (y_shared s) w) eqn:Hc; [exfalso|done].
  destruct (Hw k w Hk Hc) as (c & _ & _ & j & pc & Hj & Hp). by rewrite (Hdone j pc Hj) in Hp.
Qed.

(** ** A wait that ends *)

Lemma run_steps_to s s' ms : run s ms = Some s' → rtc sys_step s s'.
Proof.
  revert s. induction ms as [|m ms IH]; intros s; simpl; [by intros [= <-]|].
  destruct (step s m) as [s1|] eqn:Hs; [|done]. simpl. intros Hr. eapply rtc_l; [by exists m|by apply IH].
Qed.

(** A task runs and a thread waits for the batch; the task ends after the thread has
    read that it is active.  The task cannot notify before the thread sleeps. *)
Definition ex_moves : list Move :=
  [MPost; MWait ForCompletion; MWaiter 0; MWaiter 0; MActor 0 true; MWaiter 0; MActor 0 true; MActor 0 true; MActor 0 true].
Definition ex_asleep : Sys := default (begun false 0) (run (begun false 0) (ex_moves ++ [MWaiter 0])).

Lemma engine_no_lost_wakeup_witness :
  step (default (begun false 0) (run (begun false 0) ex_moves)) (MActor 0 true) = None ∧
  condition (y_shared ex_asleep) ForCompletion = true ∧
  (∃ c, c ∈ causes ForCompletion ∧ holds (y_shared ex_asleep) c = true ∧ someone ex_asleep (will_notify c)) ∧
  (y_waiters <$> run ex_asleep [MActor 0 true; MActor 0 true; MWaiter 0; MWaiter 0; MWaiter 0]) = Some [QReturned].
Proof.
  split; [reflexivity|]. split; [reflexivity|]. split; [|reflexivity].
  assert (rtc sys_step (begun false 0) ex_asleep) as Hr by (apply run_steps_to with (ex_moves ++ [MWaiter 0]); reflexivity).
  destruct (engine_no_lost_wakeup false 0 ex_asleep Hr) as (_ & Hw & _). apply (Hw 0 ForCompletion); reflexivity.
Defined.
