(* ===== verification/NodeLifecycle.v ===== *)
(** * The life of a node: an abstract machine

    What the engine promises about tasks, [process] calls and end-of-stream
    flushes, as a machine of its own: nodes with their execution state, the posted
    tasks, the workers that own a node ([v_running]), the flushes in progress
    ([v_flushing]) and the tasks that have released their node but not yet
    decremented the counter ([v_exiting]).  A rule is a step of the code from one
    compare-exchange on [exec_state] or store to the next, with the accesses that
    accompany it: claiming a node counts and posts its task, claiming it for its end
    of stream wins the exchange of the flag and calls the hook.  [lifecycle_inv] is
    invariant; the engine's operations, one after the other, are sequences of these
    rules ([EngineSim.v]).  [NodeAtomic.v] splits the rules into their single accesses,
    lets any number of threads interleave between them, and adds the path of the
    thread that loses the exchange. *)

From S2P Require Import Prelude Graphs EngineCore.
Local Open Scope list_scope.
Local Open Scope nat_scope.

(** What the machine observes. *)
Inductive Mark :=
  | MProcess (node : NodePtr) | MFlush (node : NodePtr) | MResult | MEndOfStream.

#[export] Instance Mark_eq : EqDecision Mark.
Proof. solve_decision. Defined.

(** [vn_wired]: the node has one queue per input port. *)
Record VNode := mkVNode {
  vn_node : NodePtr; vn_state : NodeExecutionState; vn_propagated : bool; vn_wired : bool }.

(** The workers' side of the machine. *)
Record Ghost := mkGhost { gh_running : list nat; gh_flushing : list nat; gh_exiting : nat }.

Definition no_ghost : Ghost := mkGhost [] [] 0.

Record View := mkView {
  v_nodes : list VNode;
  v_pool : list nat;
  v_active : Z;
  v_reported : bool;
  v_eos : bool;
  v_trace : list Mark;
  v_ghost : Ghost;
}.

Definition vset (i : nat) (x : NodeExecutionState) (ns : list VNode) : list VNode :=
  alter (λ n, mkVNode (vn_node n) x (vn_propagated n) (vn_wired n)) i ns.

Definition vclaim_eos (i : nat) (ns : list VNode) : list VNode :=
  alter (λ n, mkVNode (vn_node n) EXECUTING true (vn_wired n)) i ns.

(** ** Rules *)

Inductive vstep : View → View → Prop :=
  (* scheduleNodeExecution wins the WAITING -> READY exchange *)
  | V_claim ns pool act rep eos tr gh i n :
      ns !! i = Some n → vn_state n = WAITING →
      vstep (mkView ns pool act rep eos tr gh)
            (mkView (vset i READY ns) (pool ++ [i]) (act + 1)%Z rep eos tr gh)
  (* a worker takes a task and wins READY -> EXECUTING *)
  | V_start ns pool act rep eos tr ru fl ex k i n :
      pool !! k = Some i → ns !! i = Some n → vn_state n = READY →
      vstep (mkView ns pool act rep eos tr (mkGhost ru fl ex))
            (mkView (vset i EXECUTING ns) (delete k pool) act rep eos tr (mkGhost (ru ++ [i]) fl ex))
  (* a worker finds the engine stopping and puts the node back *)
  | V_abandon ns pool act rep eos tr ru fl ex k i :
      pool !! k = Some i →
      vstep (mkView ns pool act rep eos tr (mkGhost ru fl ex))
            (mkView (vset i WAITING ns) (delete k pool) act rep eos tr (mkGhost ru fl (S ex)))
  (* a worker that owns the node calls process *)
  | V_process ns pool act rep eos tr gh i n :
      i ∈ gh_running gh → ns !! i = Some n →
      vstep (mkView ns pool act rep eos tr gh) (mkView ns pool act rep eos (tr ++ [MProcess (vn_node n)]) gh)
  (* a worker gives the node back *)
  | V_release ns pool act rep eos tr ru fl ex k i x :
      ru !! k = Some i → x ∈ [WAITING; COMPLETED; FAILED] →
      vstep (mkView ns pool act rep eos tr (mkGhost ru fl ex))
            (mkView (vset i x ns) pool act rep eos tr (mkGhost (delete k ru) fl (S ex)))
  (* ... and decrements the counter *)
  | V_exit ns pool act rep eos tr ru fl ex :
      vstep (mkView ns pool act rep eos tr (mkGhost ru fl (S ex)))
            (mkView ns pool (act - 1)%Z rep eos tr (mkGhost ru fl ex))
  (* checkNodeEndOfStream claims the node and runs the hook *)
  | V_flush ns pool act rep eos tr ru fl ex i n :
      ns !! i = Some n → vn_propagated n = false → vn_state n ∈ [WAITING; COMPLETED] →
      vstep (mkView ns pool act rep eos tr (mkGhost ru fl ex))
            (mkView (vclaim_eos i ns) pool act rep eos (tr ++ [MFlush (vn_node n)]) (mkGhost ru (fl ++ [i]) ex))
  | V_flushed ns pool act rep eos tr ru fl ex k i :
      fl !! k = Some i →
      vstep (mkView ns pool act rep eos tr (mkGhost ru fl ex))
            (mkView (vset i COMPLETED ns) pool act rep eos tr (mkGhost ru (delete k fl) ex))
  (* recordSinkEndOfStream wins its latch *)
  | V_eos ns pool act rep tr gh :
      vstep (mkView ns pool act rep false tr gh) (mkView ns pool act rep true (tr ++ [MEndOfStream]) gh)
  (* checkCompletionAndNotify wins its latch, with no task active *)
  | V_report ns pool act eos tr gh :
      act = 0%Z →
      vstep (mkView ns pool act false eos tr gh) (mkView ns pool act true eos (tr ++ [MResult]) gh).

(** ** The invariant *)

Definition marks (m : Mark) (tr : list Mark) : nat := length (filter (λ x, x = m) tr).

Definition never_after {A} (a b : A) (l : list A) : Prop := ∀ pre post, l = pre ++ a :: post → b ∉ post.

(** Nothing of [p] is processed after its flush. *)
Definition flush_last (p : NodePtr) (tr : list Mark) : Prop := never_after (MFlush p) (MProcess p) tr.

(** Who owns which node: a task in the pool owns a READY one, a worker or a flush
    an EXECUTING one, nobody owns a node twice, and a node whose end of stream has
    been handled is being flushed or completed. *)
Record owner_inv (ns : list VNode) (pool ru fl : list nat) : Prop := {
  oi_nodup : NoDup (pool ++ ru ++ fl);
  oi_ready i n : ns !! i = Some n → vn_state n = READY ↔ i ∈ pool;
  oi_exec i n : ns !! i = Some n → vn_state n = EXECUTING ↔ i ∈ ru ++ fl;
  oi_prop i n : ns !! i = Some n → vn_propagated n = true → i ∈ fl ∨ vn_state n = COMPLETED;
  oi_range i : i ∈ pool ++ ru ++ fl → i < length ns;
}.

(** Each node is flushed once if its end of stream is handled and not otherwise,
    and never processed after that. *)
Definition trace_ok (ns : list VNode) (tr : list Mark) : Prop :=
  ∀ i n, ns !! i = Some n →
    marks (MFlush (vn_node n)) tr = (if vn_propagated n then 1 else 0) ∧ flush_last (vn_node n) tr.

Record lifecycle_inv (v : View) : Prop := {
  li_active : v_active v =
    Z.of_nat (length (v_pool v) + length (gh_running (v_ghost v)) + gh_exiting (v_ghost v));
  li_owner : owner_inv (v_nodes v) (v_pool v) (gh_running (v_ghost v)) (gh_flushing (v_ghost v));
  li_trace : trace_ok (v_nodes v) (v_trace v);
  li_result : marks MResult (v_trace v) = if v_reported v then 1 else 0;
  li_eos : marks MEndOfStream (v_trace v) = if v_eos v then 1 else 0;
  li_ptrs : NoDup (vn_node <$> v_nodes v);
  li_wired : Forall (λ n, vn_wired n = true) (v_nodes v);
}.

(** ** Lemmas *)

Lemma marks_app m tr tr' : marks m (tr ++ tr') = marks m tr + marks m tr'.
Proof. unfold marks. by rewrite filter_app, length_app. Qed.

Lemma marks_one m x : marks m [x] = if decide (x = m) then 1 else 0.
Proof. unfold marks. rewrite filter_cons. by case_decide. Qed.

Lemma marks_zero_notin m tr : marks m tr = 0 → m ∉ tr.
Proof.
  unfold marks. intros Hl Hin. apply length_zero_iff_nil in Hl.
  assert (m ∈ filter (λ x, x = m) tr) as Hf by (by apply list_elem_of_filter).
  rewrite Hl in Hf. by apply not_elem_of_nil in Hf.
Qed.

(** Appending keeps the order unless [b] follows an [a]. *)
Lemma never_after_snoc {A} (a b : A) l x : never_after a b l → (x = b → a ∉ l) → never_after a b (l ++ [x]).
Proof.
  intros Hf Hx pre post Heq.
  destruct (decide (post = [])) as [->|Hne]; [apply not_elem_of_nil|].
  destruct (exists_last Hne) as (post' & y & ->).
  rewrite app_comm_cons, app_assoc in Heq. apply app_inj_tail in Heq as [Heq ->].
  rewrite elem_of_app, list_elem_of_singleton. intros [Hin|Hp].
  - by apply (Hf pre post').
  - apply (Hx ltac:(done)). rewrite Heq. set_solver.
Qed.

Lemma elem_of_delete_NoDup {A} (l : list A) k x y :
  NoDup l → l !! k = Some x → y ∈ delete k l ↔ y ∈ l ∧ y ≠ x.
Proof.
  intros Hnd Hk. pose proof (delete_Permutation l k x Hk) as Hp.
  assert (y ∈ l ↔ y ∈ x :: delete k l) as Hy by (f_equiv; exact Hp).
  assert (NoDup (x :: delete k l)) as Hn by (eapply NoDup_Permutation_proper; [symmetry; exact Hp|done]).
  apply NoDup_cons in Hn as [Hx _]. rewrite Hy, elem_of_cons. naive_solver.
Qed.

Lemma lookup_vset i x ns j :
  vset i x ns !! j = (λ n, if decide (i = j) then mkVNode (vn_node n) x (vn_propagated n) (vn_wired n) else n) <$> ns !! j.
Proof.
  unfold vset. rewrite list_lookup_alter. destruct (decide (i = j)) as [->|]; [done|]. by destruct (ns !! j).
Qed.

Lemma lookup_vclaim i ns j :
  vclaim_eos i ns !! j = (λ n, if decide (i = j) then mkVNode (vn_node n) EXECUTING true (vn_wired n) else n) <$> ns !! j.
Proof.
  unfold vclaim_eos. rewrite list_lookup_alter. destruct (decide (i = j)) as [->|]; [done|]. by destruct (ns !! j).
Qed.

Lemma ptrs_alter (f : VNode → VNode) (i : nat) (ns : list VNode) : (∀ n, vn_node (f n) = vn_node n) → vn_node <$> alter f i ns = vn_node <$> ns.
Proof.
  intros Hf. apply list_eq. intros j. rewrite !list_lookup_fmap, list_lookup_alter.
  destruct (decide (i = j)) as [<-|]; [|done]. destruct (ns !! i); simpl; [by rewrite Hf|done].
Qed.

Lemma wired_alter (f : VNode → VNode) (i : nat) (ns : list VNode) :
  (∀ n, vn_wired (f n) = vn_wired n) → Forall (λ n, vn_wired n = true) ns → Forall (λ n, vn_wired n = true) (alter f i ns).
Proof. intros Hf Hw. apply Forall_alter; [done|]. intros n _ Hn. by rewrite Hf. Qed.

Lemma trace_ok_vset i x ns tr : trace_ok ns tr → trace_ok (vset i x ns) tr.
Proof.
  intros Ht j n. rewrite lookup_vset. intros (m & Hm & ->)%fmap_Some. specialize (Ht j m Hm). by case_decide.
Qed.

Lemma trace_ok_other ns tr m :
  (∀ p, m ≠ MFlush p) → (∀ i n, ns !! i = Some n → m = MProcess (vn_node n) → vn_propagated n = false) →
  trace_ok ns tr → trace_ok ns (tr ++ [m]).
Proof.
  intros Hm Hp Ht i n Hi. destruct (Ht i n Hi) as [Hc Ho]. rewrite marks_app, marks_one, decide_False by (apply Hm).
  split; [lia|]. apply never_after_snoc; [done|]. intros ->. rewrite (Hp i n Hi eq_refl) in Hc. by apply marks_zero_notin.
Qed.

Lemma trace_ok_flush i n ns tr :
  NoDup (vn_node <$> ns) → ns !! i = Some n → vn_propagated n = false →
  trace_ok ns tr → trace_ok (vclaim_eos i ns) (tr ++ [MFlush (vn_node n)]).
Proof.
  intros Hnd Hi Hp Ht j m. rewrite lookup_vclaim. intros (m0 & Hm0 & ->)%fmap_Some.
  destruct (Ht j m0 Hm0) as [Hc Ho]. rewrite marks_app, marks_one.
  destruct (decide (i = j)) as [->|Hne]; simpl.
  - simplify_eq. rewrite decide_True by done. rewrite Hp in Hc. split; [lia|]. by apply never_after_snoc.
  - rewrite decide_False; [split; [lia|by apply never_after_snoc]|]. intros [= Heq].
    apply Hne. eapply (NoDup_lookup _ _ _ _ Hnd); rewrite list_lookup_fmap; [by rewrite Hi|by rewrite Hm0; simpl; rewrite Heq].
Qed.

(** Moving one node from owner to owner. *)
Lemma owner_move ns pool ru fl ns' pool' ru' fl' i n' :
  owner_inv ns pool ru fl → NoDup (pool' ++ ru' ++ fl') →
  (∀ j, j ≠ i → (j ∈ pool' ↔ j ∈ pool) ∧ (j ∈ ru' ↔ j ∈ ru) ∧ (j ∈ fl' ↔ j ∈ fl)) →
  (∀ j, j ≠ i → ns' !! j = ns !! j) → length ns' = length ns → ns' !! i = Some n' →
  (vn_state n' = READY ↔ i ∈ pool') → (vn_state n' = EXECUTING ↔ i ∈ ru' ++ fl') →
  (vn_propagated n' = true → i ∈ fl' ∨ vn_state n' = COMPLETED) → owner_inv ns' pool' ru' fl'.
Proof.
  intros [Hnd Hr He Hp Hrg] Hnd' Hm Hns Hlen Hi H1 H2 H3. split; [done|..].
  - intros j n Hj. destruct (decide (j = i)) as [->|Hne]; [by simplify_eq|].
    rewrite Hns in Hj by done. rewrite (Hr j n Hj). by destruct (Hm j Hne) as (-> & _).
  - intros j n Hj. destruct (decide (j = i)) as [->|Hne]; [by simplify_eq|].
    rewrite Hns in Hj by done. rewrite (He j n Hj), !elem_of_app. by destruct (Hm j Hne) as (_ & -> & ->).
  - intros j n Hj Hpr. destruct (decide (j = i)) as [->|Hne]; [simplify_eq; by apply H3|].
    rewrite Hns in Hj by done. destruct (Hm j Hne) as (_ & _ & ->). by apply (Hp j).
  - intros j Hj. rewrite Hlen. destruct (decide (j = i)) as [->|Hne].
    + apply lookup_lt_Some in Hi. lia.
    + apply Hrg. rewrite !elem_of_app in Hj |- *. destruct (Hm j Hne) as (<- & <- & <-). done.
Qed.

Lemma length_vset i x ns : length (vset i x ns) = length ns.
Proof. apply length_alter. Qed.

Lemma lookup_vset_eq i x ns n : ns !! i = Some n → vset i x ns !! i = Some (mkVNode (vn_node n) x (vn_propagated n) (vn_wired n)).
Proof. intros Hi. rewrite lookup_vset, Hi. simpl. by rewrite decide_True. Qed.

Lemma lookup_vset_ne i x ns j : j ≠ i → vset i x ns !! j = ns !! j.
Proof. intros Hne. rewrite lookup_vset. destruct (ns !! j); simpl; [by rewrite decide_False|done]. Qed.

Section Moves.
Context (ns : list VNode) (pool ru fl : list nat) (I : owner_inv ns pool ru fl).

Lemma owner_lists : NoDup pool ∧ NoDup ru ∧ NoDup fl ∧
  (∀ j, j ∈ pool → j ∉ ru ∧ j ∉ fl) ∧ (∀ j, j ∈ ru → j ∉ fl).
Proof using I.
  pose proof (oi_nodup _ _ _ _ I) as Hnd. apply NoDup_app in Hnd as (H1 & H2 & Hnd).
  apply NoDup_app in Hnd as (H3 & H4 & H5). split_and!; try done.
  intros j Hj. specialize (H2 j Hj). rewrite elem_of_app in H2. tauto.
Qed.

Lemma owner_node i : i ∈ pool ++ ru ++ fl → ∃ n, ns !! i = Some n.
Proof using I. intros Hi. apply lookup_lt_is_Some. by apply (oi_range _ _ _ _ I). Qed.

Lemma owner_free i n : ns !! i = Some n → vn_state n ≠ READY → vn_state n ≠ EXECUTING → i ∉ pool ++ ru ++ fl.
Proof using I.
  intros Hi Hr He. rewrite !elem_of_app. pose proof (oi_ready _ _ _ _ I i n Hi).
  pose proof (oi_exec _ _ _ _ I i n Hi) as Hx. rewrite elem_of_app in Hx. tauto.
Qed.

Lemma owner_claim i n : ns !! i = Some n → vn_state n = WAITING → owner_inv (vset i READY ns) (pool ++ [i]) ru fl.
Proof using I.
  intros Hi Hw. assert (i ∉ pool ++ ru ++ fl) as Hfree by (eapply owner_free; [done|by rewrite Hw|by rewrite Hw]).
  rewrite !elem_of_app in Hfree.
  eapply (owner_move ns pool ru fl _ _ _ _ i); [done| | | |apply length_vset|by apply lookup_vset_eq|..]; simpl.
  - rewrite <-app_assoc. apply (NoDup_Permutation_proper (i :: pool ++ ru ++ fl)).
    + simpl. apply Permutation_middle.
    + apply NoDup_cons. split; [rewrite !elem_of_app; tauto|apply I].
  - intros j Hne. rewrite elem_of_app, list_elem_of_singleton. tauto.
  - intros j Hne. by apply lookup_vset_ne.
  - set_solver.
  - split; [done|]. rewrite elem_of_app. tauto.
  - intros Hp. destruct (oi_prop _ _ _ _ I i n Hi Hp) as [Hf|Hf]; [by left|congruence].
Qed.

Lemma owner_start k i : pool !! k = Some i → owner_inv (vset i EXECUTING ns) (delete k pool) (ru ++ [i]) fl.
Proof using I.
  intros Hk. destruct owner_lists as (Hp & Hr & Hf & Hd1 & Hd2).
  assert (i ∈ pool) as Hin by (by eapply list_elem_of_lookup_2).
  destruct (owner_node i) as [n Hi]; [by apply elem_of_app; left|]. destruct (Hd1 i Hin) as [Hnr Hnf].
  pose proof (elem_of_delete_NoDup pool k i) as Hdel.
  eapply (owner_move ns pool ru fl _ _ _ _ i); [done| | | |apply length_vset|by apply lookup_vset_eq|..]; simpl.
  - apply (NoDup_Permutation_proper (pool ++ ru ++ fl)); [|apply I].
    rewrite (delete_Permutation pool k i Hk) at 1. simpl. rewrite <-!app_assoc. simpl.
    rewrite Permutation_middle. f_equiv. apply Permutation_middle.
  - intros j Hne. rewrite (Hdel j Hp Hk), elem_of_app, list_elem_of_singleton. tauto.
  - intros j Hne. by apply lookup_vset_ne.
  - split; [done|]. rewrite (Hdel i Hp Hk). tauto.
  - set_solver.
  - intros Hpr. destruct (oi_prop _ _ _ _ I i n Hi Hpr) as [?|Hc]; [by left|].
    apply (oi_ready _ _ _ _ I i n Hi) in Hin. congruence.
Qed.

Lemma owner_abandon k i : pool !! k = Some i → owner_inv (vset i WAITING ns) (delete k pool) ru fl.
Proof using I.
  intros Hk. destruct owner_lists as (Hp & Hr & Hf & Hd1 & Hd2).
  assert (i ∈ pool) as Hin by (by eapply list_elem_of_lookup_2).
  destruct (owner_node i) as [n Hi]; [by apply elem_of_app; left|]. destruct (Hd1 i Hin) as [Hnr Hnf].
  pose proof (elem_of_delete_NoDup pool k i) as Hdel.
  eapply (owner_move ns pool ru fl _ _ _ _ i); [done| | | |apply length_vset|by apply lookup_vset_eq|..]; simpl.
  - pose proof (oi_nodup _ _ _ _ I) as Hnd.
    apply (NoDup_Permutation_proper _ (i :: delete k pool ++ ru ++ fl)) in Hnd; [by apply NoDup_cons in Hnd as [_ ?]|].
    by rewrite (delete_Permutation pool k i Hk) at 1.
  - intros j Hne. rewrite (Hdel j Hp Hk). tauto.
  - intros j Hne. by apply lookup_vset_ne.
  - split; [done|]. rewrite (Hdel i Hp Hk). tauto.
  - split; [done|]. rewrite elem_of_app. tauto.
  - intros Hpr. destruct (oi_prop _ _ _ _ I i n Hi Hpr) as [?|Hc]; [done|].
    apply (oi_ready _ _ _ _ I i n Hi) in Hin. congruence.
Qed.

Lemma owner_release k i x :
  ru !! k = Some i → x ∈ [WAITING; COMPLETED; FAILED] → owner_inv (vset i x ns) pool (delete k ru) fl.
Proof using I.
  intros Hk Hx. destruct owner_lists as (Hp & Hr & Hf & Hd1 & Hd2).
  assert (i ∈ ru) as Hin by (by eapply list_elem_of_lookup_2).
  destruct (owner_node i) as [n Hi]; [rewrite !elem_of_app; tauto|]. pose proof (Hd2 i Hin) as Hnf.
  assert (i ∉ pool) as Hnp by (intros Hip; by destruct (Hd1 i Hip)).
  pose proof (elem_of_delete_NoDup ru k i) as Hdel.
  assert (x ≠ READY ∧ x ≠ EXECUTING) as [Hx1 Hx2] by set_solver.
  eapply (owner_move ns pool ru fl _ _ _ _ i); [done| | | |apply length_vset|by apply lookup_vset_eq|..]; simpl.
  - pose proof (oi_nodup _ _ _ _ I) as Hnd.
    apply (NoDup_Permutation_proper _ (i :: pool ++ delete k ru ++ fl)) in Hnd; [by apply NoDup_cons in Hnd as [_ ?]|].
    rewrite (delete_Permutation ru k i Hk) at 1. simpl. symmetry. apply Permutation_middle.
  - intros j Hne. rewrite (Hdel j Hr Hk). tauto.
  - intros j Hne. by apply lookup_vset_ne.
  - tauto.
  - split; [done|]. rewrite elem_of_app, (Hdel i Hr Hk). tauto.
  - intros Hpr. destruct (oi_prop _ _ _ _ I i n Hi Hpr) as [?|Hc]; [done|].
    assert (vn_state n = EXECUTING) as He by (apply (oi_exec _ _ _ _ I i n Hi), elem_of_app; by left). congruence.
Qed.

Lemma owner_flush i n :
  ns !! i = Some n → vn_state n ∈ [WAITING; COMPLETED] → owner_inv (vclaim_eos i ns) pool ru (fl ++ [i]).
Proof using I.
  intros Hi Hx. assert (vn_state n ≠ READY ∧ vn_state n ≠ EXECUTING) as [Hx1 Hx2] by (split; intros Hn; rewrite Hn in Hx; set_solver).
  pose proof (owner_free i n Hi Hx1 Hx2) as Hfree. rewrite !elem_of_app in Hfree.
  eapply (owner_move ns pool ru fl _ _ _ _ i); [done| | | |apply length_alter|by rewrite lookup_vclaim, Hi|..];
    try (rewrite decide_True by done); simpl.
  - rewrite !app_assoc. apply (NoDup_Permutation_proper (i :: (pool ++ ru) ++ fl)).
    + apply Permutation_cons_append.
    + apply NoDup_cons. split; [rewrite !elem_of_app; tauto|]. rewrite <-app_assoc. apply I.
  - intros j Hne. rewrite elem_of_app, list_elem_of_singleton. tauto.
  - intros j Hne. rewrite lookup_vclaim. destruct (ns !! j); simpl; [by rewrite decide_False|done].
  - split; [done|]. tauto.
  - set_solver.
  - set_solver.
Qed.

Lemma owner_flushed k i : fl !! k = Some i → owner_inv (vset i COMPLETED ns) pool ru (delete k fl).
Proof using I.
  intros Hk. destruct owner_lists as (Hp & Hr & Hf & Hd1 & Hd2).
  assert (i ∈ fl) as Hin by (by eapply list_elem_of_lookup_2).
  destruct (owner_node i) as [n Hi]; [rewrite !elem_of_app; tauto|].
  pose proof (elem_of_delete_NoDup fl k i) as Hdel.
  assert (i ∉ pool ∧ i ∉ ru) as [Hnp Hnr] by naive_solver.
  eapply (owner_move ns pool ru fl _ _ _ _ i); [done| | | |apply length_vset|by apply lookup_vset_eq|..]; simpl.
  - pose proof (oi_nodup _ _ _ _ I) as Hnd.
    apply (NoDup_Permutation_proper _ (i :: pool ++ ru ++ delete k fl)) in Hnd; [by apply NoDup_cons in Hnd as [_ ?]|].
    rewrite (delete_Permutation fl k i Hk) at 1. rewrite !app_assoc. symmetry. apply Permutation_middle.
  - intros j Hne. rewrite (Hdel j Hf Hk). tauto.
  - intros j Hne. by apply lookup_vset_ne.
  - split; [done|tauto].
  - split; [done|]. rewrite elem_of_app, (Hdel i Hf Hk). tauto.
  - by right.
Qed.
End Moves.

Lemma length_delete_some {A} (l : list A) k x : l !! k = Some x → length l = S (length (delete k l)).
Proof. intros Hk. by rewrite (delete_Permutation l k x Hk) at 1. Qed.

Lemma ptrs_vset i x ns : vn_node <$> vset i x ns = vn_node <$> ns.
Proof. by apply ptrs_alter. Qed.

(** ** The invariant holds in every interleaving *)

Lemma vstep_inv v v' : vstep v v' → lifecycle_inv v → lifecycle_inv v'.
Proof.
  intros Hs [Ha Ho Ht Hr He Hp Hw]. destruct Hs; simpl in *; subst.
  - split; simpl; try done; [rewrite length_app; simpl; lia|by eapply owner_claim|by apply trace_ok_vset|by rewrite ptrs_vset|by apply wired_alter].
  - split; simpl; try done; [|by eapply owner_start|by apply trace_ok_vset|by rewrite ptrs_vset|by apply wired_alter].
    erewrite (length_delete_some pool) by done. rewrite length_app. simpl. lia.
  - split; simpl; try done; [|by eapply owner_abandon|by apply trace_ok_vset|by rewrite ptrs_vset|by apply wired_alter].
    erewrite (length_delete_some pool) by done. lia.
  - split; simpl; try done; try (rewrite marks_app, marks_one, decide_False by done; lia).
    apply trace_ok_other; [done| |done]. intros j m Hj [= Heq].
    assert (i = j) as <-.
    { eapply (NoDup_lookup _ _ _ _ Hp); rewrite list_lookup_fmap; [by rewrite H0|by rewrite Hj, Heq]. }
    rewrite H0 in Hj. injection Hj as <-.
    destruct (vn_propagated n) eqn:Hprop; [|done]. exfalso.
    assert (vn_state n = EXECUTING) as Hx by (apply (oi_exec _ _ _ _ Ho i n H0), elem_of_app; by left).
    destruct (oi_prop _ _ _ _ Ho i n H0 Hprop) as [Hf|Hf]; [|congruence].
    destruct (owner_lists _ _ _ _ Ho) as (_ & _ & _ & _ & Hd). by eapply Hd.
  - split; simpl; try done; [|by eapply owner_release|by apply trace_ok_vset|by rewrite ptrs_vset|by apply wired_alter].
    erewrite (length_delete_some ru) by done. lia.
  - split; simpl; try done. lia.
  - split; simpl; try (rewrite marks_app, marks_one, decide_False by done; lia).
    + done.
    + by eapply owner_flush.
    + by eapply trace_ok_flush.
    + unfold vclaim_eos. by rewrite ptrs_alter.
    + by apply wired_alter.
  - split; simpl; try done; [by eapply owner_flushed|by apply trace_ok_vset|by rewrite ptrs_vset|by apply wired_alter].
  - split; simpl; try done; try (rewrite marks_app, marks_one; simpl; lia).
    by apply trace_ok_other.
  - split; simpl; try done; try (rewrite marks_app, marks_one; simpl; lia).
    by apply trace_ok_other.
Qed.

Lemma vsteps_inv v v' : rtc vstep v v' → lifecycle_inv v → lifecycle_inv v'.
Proof. induction 1; [done|]. intros I. by eapply IHrtc, vstep_inv. Qed.
