(* ===== verification/NodeAtomic.v ===== *)
(** * The life of a node, one atomic action at a time

    The machine of [NodeLifecycle.v] takes several atomic accesses of the code in one
    step.  Here each compare-exchange, exchange and store on a node's state and flags,
    each update of the task counter and each call of user code or of the trace sink is
    an action of its own, and a thread is where it stands between two of them
    ([Thread]).  Any number of threads interleave, in particular those that detect the
    end of stream of a node at the same time and lose the exchange that decides who
    flushes it.  [fine_inv] holds in every interleaving: nodes have one owner, the hook
    runs once, each call of a node is told before the next, the callbacks fire once.
    The machine of [NodeLifecycle.v], and with it the engine, takes steps of this one
    ([vsteps_fine]).  That a node is not processed after its flush holds as long as no
    check loses that exchange ([won_inv]), and can fail when one does
    ([losing_check_reopens_node]).

    A thread of the code is several threads here when it calls one function from
    another (a task that schedules the next node, a cascade): the actions of the inner
    call are those of a thread of its own, which allows more interleavings than the
    code has.  The tests that decide whether a thread acts at all (ports drained, the
    scheduler's decision, a stop) are not represented either: any thread may act
    whenever the accesses allow it. *)

From S2P Require Import Prelude Graphs EngineCore NodeLifecycle.
Local Open Scope list_scope.
Local Open Scope nat_scope.

(** ** Threads and what they share *)

(** What can be seen: the calls of a node's [process] and [onEndOfStream], the event
    told to the trace sink after each, the callbacks. *)
Inductive Seen :=
  | SCall (p : NodePtr) | SFlush (p : NodePtr) | STold (p : NodePtr) | SResult | SEndOfStream.

#[export] Instance Seen_eq : EqDecision Seen.
Proof. solve_decision. Defined.

Record Shared := mkShared {
  h_nodes : list VNode;
  h_pool : list nat;
  h_active : Z;
  h_reported : bool;
  h_eos : bool;
  h_seen : list Seen;
}.

(** Where a thread stands; [i] is the index of a node. *)
Inductive Thread :=
  | TClaimed (i : nat)   (* scheduleNodeExecution has won WAITING -> READY *)
  | TCounted (i : nat)   (* ... and counted the task *)
  | THeld (i : nat)      (* a worker has taken the task *)
  | TOwner (i : nat)     (* ... and won READY -> EXECUTING *)
  | TCalling (i : nat)   (* ... and called process *)
  | TLeaving             (* the node is given back, the task still counted *)
  | TChecking (i : nat)  (* checkNodeEndOfStream has read that nobody has flushed the node *)
  | TClaimer (i : nat)   (* ... and claimed it *)
  | TLoser (i : nat)     (* ... and lost the exchange of eos_propagated *)
  | TFlusher (i : nat)   (* ... or won it *)
  | TFlushing (i : nat)  (* ... and called onEndOfStream *)
  | TClosing (i : nat)   (* ... and told the trace sink *)
  | TEnder               (* recordSinkEndOfStream has won its exchange *)
  | TComplete            (* checkCompletionAndNotify has read that no task is active *)
  | TReporter.           (* ... and won its exchange *)

Definition vpropagate (i : nat) (ns : list VNode) : list VNode :=
  alter (λ n, mkVNode (vn_node n) (vn_state n) true (vn_wired n)) i ns.

Definition with_nodes (h : Shared) (ns : list VNode) : Shared :=
  mkShared ns (h_pool h) (h_active h) (h_reported h) (h_eos h) (h_seen h).
Definition with_pool (h : Shared) (pool : list nat) : Shared :=
  mkShared (h_nodes h) pool (h_active h) (h_reported h) (h_eos h) (h_seen h).
Definition with_active (h : Shared) (n : Z) : Shared :=
  mkShared (h_nodes h) (h_pool h) n (h_reported h) (h_eos h) (h_seen h).
Definition see (h : Shared) (x : Seen) : Shared :=
  mkShared (h_nodes h) (h_pool h) (h_active h) (h_reported h) (h_eos h) (h_seen h ++ [x]).
Definition put_state (h : Shared) (i : nat) (x : NodeExecutionState) : Shared := with_nodes h (vset i x (h_nodes h)).

(** ** Atomic actions *)

(** src/src/execution_engine_impl.cpp:1389-1428 ExecutionEngine::Impl::scheduleNodeExecution (its
    accesses) *)
Inductive schedule_action (h : Shared) : list Thread → Shared → list Thread → Prop :=
  | A_claim i n : h_nodes h !! i = Some n → vn_state n = WAITING →
      schedule_action h [] (put_state h i READY) [TClaimed i]
  | A_count i : schedule_action h [TClaimed i] (with_active h (h_active h + 1)) [TCounted i]
  | A_post i : schedule_action h [TCounted i] (with_pool h (h_pool h ++ [i])) []
  | A_refused i : schedule_action h [TCounted i] (put_state h i WAITING) [TLeaving].

(** src/src/execution_engine_impl.cpp:1430-1572 ExecutionEngine::Impl::executeNodeTask (its accesses);
    [A_abandon] once a stop is requested *)
Inductive task_action (h : Shared) : list Thread → Shared → list Thread → Prop :=
  | A_take k i : h_pool h !! k = Some i → task_action h [] (with_pool h (delete k (h_pool h))) [THeld i]
  | A_abandon i : task_action h [THeld i] (put_state h i WAITING) [TLeaving]
  | A_start i n : h_nodes h !! i = Some n → vn_state n = READY → task_action h [THeld i] (put_state h i EXECUTING) [TOwner i]
  | A_stale i n : h_nodes h !! i = Some n → vn_state n ≠ READY → task_action h [THeld i] h [TLeaving]
  | A_call i n : h_nodes h !! i = Some n → task_action h [TOwner i] (see h (SCall (vn_node n))) [TCalling i]
  | A_told i n : h_nodes h !! i = Some n → task_action h [TCalling i] (see h (STold (vn_node n))) [TOwner i]
  | A_release i x : x ∈ [WAITING; COMPLETED; FAILED] → task_action h [TOwner i] (put_state h i x) [TLeaving]
  | A_leave : task_action h [TLeaving] (with_active h (h_active h - 1)) [].

(** src/src/execution_engine_impl.cpp:2119-2214 ExecutionEngine::Impl::checkNodeEndOfStream (its
    accesses); that the ports have drained is not represented *)
Inductive eos_action (h : Shared) : list Thread → Shared → list Thread → Prop :=
  | A_check i n : h_nodes h !! i = Some n → vn_propagated n = false → eos_action h [] h [TChecking i]
  | A_own i n : h_nodes h !! i = Some n → vn_state n ∈ [WAITING; COMPLETED] →
      eos_action h [TChecking i] (put_state h i EXECUTING) [TClaimer i]
  | A_pass i : eos_action h [TChecking i] h []
  | A_win i n : h_nodes h !! i = Some n → vn_propagated n = false →
      eos_action h [TClaimer i] (with_nodes h (vpropagate i (h_nodes h))) [TFlusher i]
  | A_lose i n : h_nodes h !! i = Some n → vn_propagated n = true → eos_action h [TClaimer i] h [TLoser i]
  | A_restore i : eos_action h [TLoser i] (put_state h i WAITING) []
  | A_flush i n : h_nodes h !! i = Some n → eos_action h [TFlusher i] (see h (SFlush (vn_node n))) [TFlushing i]
  | A_flush_told i n : h_nodes h !! i = Some n → eos_action h [TFlushing i] (see h (STold (vn_node n))) [TClosing i]
  | A_close i : eos_action h [TClosing i] (put_state h i COMPLETED) [].

(** src/src/execution_engine_impl.cpp:2216-2228 ExecutionEngine::Impl::recordSinkEndOfStream (its latch
    and callback) *)
Inductive sink_action (h : Shared) : list Thread → Shared → list Thread → Prop :=
  | A_end : h_eos h = false →
      sink_action h [] (mkShared (h_nodes h) (h_pool h) (h_active h) (h_reported h) true (h_seen h)) [TEnder]
  | A_end_told : sink_action h [TEnder] (see h SEndOfStream) [].

(** src/src/execution_engine_impl.cpp:2324-2385 ExecutionEngine::Impl::checkCompletionAndNotify (its
    accesses) *)
Inductive completion_action (h : Shared) : list Thread → Shared → list Thread → Prop :=
  | A_idle : h_active h = 0%Z → completion_action h [] h [TComplete]
  | A_report : h_reported h = false →
      completion_action h [TComplete] (mkShared (h_nodes h) (h_pool h) (h_active h) true (h_eos h) (h_seen h)) [TReporter]
  | A_reported : completion_action h [TComplete] h []
  | A_result : completion_action h [TReporter] (see h SResult) [].

Definition action (h : Shared) (ts : list Thread) (h' : Shared) (ts' : list Thread) : Prop :=
  schedule_action h ts h' ts' ∨ task_action h ts h' ts' ∨ eos_action h ts h' ts' ∨ sink_action h ts h' ts' ∨
  completion_action h ts h' ts'.

(** One thread acts, or appears in the code with its first action; the others stand
    where they are. *)
Record Fine := mkFine { f_shared : Shared; f_threads : list Thread }.

Inductive fstep : Fine → Fine → Prop :=
  | F_step h ts h' ts' before after others :
      action h before h' after → ts ≡ₚ before ++ others → ts' ≡ₚ after ++ others →
      fstep (mkFine h ts) (mkFine h' ts').

(** ** The invariant *)

(** How many threads stand where [w] counts them. *)
Notation total w ts := (sum_list_with w ts).

Definition one (i j : nat) : nat := if decide (i = j) then 1 else 0.

(** Threads that own node [i] while it is READY, and while it is EXECUTING. *)
Definition ready_at (i : nat) (t : Thread) : nat :=
  match t with TClaimed j | TCounted j | THeld j => one i j | _ => 0 end.
Definition exec_at (i : nat) (t : Thread) : nat :=
  match t with
  | TOwner j | TCalling j | TClaimer j | TLoser j | TFlusher j | TFlushing j | TClosing j => one i j
  | _ => 0
  end.

(** Threads whose call of node [i] is not told yet. *)
Definition calling_at (i : nat) (t : Thread) : nat := match t with TCalling j | TFlushing j => one i j | _ => 0 end.
Definition flusher_at (i : nat) (t : Thread) : nat := match t with TFlusher j => one i j | _ => 0 end.
Definition counted (t : Thread) : nat :=
  match t with TCounted _ | THeld _ | TOwner _ | TCalling _ | TLeaving => 1 | _ => 0 end.
Definition reporting (t : Thread) : nat := match t with TReporter => 1 | _ => 0 end.
Definition ending (t : Thread) : nat := match t with TEnder => 1 | _ => 0 end.

Definition sights (x : Seen) (seen : list Seen) : nat := total (λ y, if decide (x = y) then 1 else 0) seen.

(** The calls of a node and what is told of them: [Some true] if a call is not told
    yet, [None] if a call came before the last one was told, or something was told
    without a call. *)
Definition talk_step (p : NodePtr) (o : option bool) (x : Seen) : option bool :=
  match o, x with
  | Some open, SCall q | Some open, SFlush q => if decide (p = q) then (if open then None else Some true) else o
  | Some open, STold q => if decide (p = q) then (if open then Some false else None) else o
  | _, _ => o
  end.
Definition talk (p : NodePtr) (seen : list Seen) : option bool := foldl (talk_step p) (Some false) seen.

Definition owners_of (x : NodeExecutionState) : nat * nat :=
  match x with READY => (1, 0) | EXECUTING => (0, 1) | _ => (0, 0) end.

Record node_inv (h : Shared) (ts : list Thread) (i : nat) (n : VNode) : Prop := {
  ni_owners : (total (one i) (h_pool h) + total (ready_at i) ts, total (exec_at i) ts) = owners_of (vn_state n);
  ni_flush : sights (SFlush (vn_node n)) (h_seen h) + total (flusher_at i) ts = if vn_propagated n then 1 else 0;
  ni_talk : talk (vn_node n) (h_seen h) = Some (bool_decide (0 < total (calling_at i) ts));
}.

Record fine_inv (f : Fine) : Prop := {
  fi_active : h_active (f_shared f) = Z.of_nat (length (h_pool (f_shared f)) + total counted (f_threads f));
  fi_node i n : h_nodes (f_shared f) !! i = Some n → node_inv (f_shared f) (f_threads f) i n;
  fi_range i : length (h_nodes (f_shared f)) ≤ i →
    total (one i) (h_pool (f_shared f)) + total (ready_at i) (f_threads f) + total (exec_at i) (f_threads f) = 0;
  fi_result : sights SResult (h_seen (f_shared f)) + total reporting (f_threads f) = if h_reported (f_shared f) then 1 else 0;
  fi_eos : sights SEndOfStream (h_seen (f_shared f)) + total ending (f_threads f) = if h_eos (f_shared f) then 1 else 0;
  fi_ptrs : NoDup (vn_node <$> h_nodes (f_shared f));
}.

(** ** Lemmas *)

Lemma total_perm {A} (w : A → nat) l l' : l ≡ₚ l' → total w l = total w l'.
Proof. induction 1; simpl; lia. Qed.

Lemma total_app {A} (w : A → nat) l l' : total w (l ++ l') = total w l + total w l'.
Proof. induction l; simpl; lia. Qed.

Lemma total_delete {A} (w : A → nat) l k x : l !! k = Some x → total w l = w x + total w (delete k l).
Proof. intros Hk. by rewrite (total_perm w _ _ (delete_Permutation l k x Hk)). Qed.

Lemma total_le {A} (w w' : A → nat) l : (∀ x, w x ≤ w' x) → total w l ≤ total w' l.
Proof. intros Hw. induction l as [|x l IH]; simpl; [lia|]. specialize (Hw x). lia. Qed.

Lemma sights_snoc x seen y : sights x (seen ++ [y]) = sights x seen + if decide (x = y) then 1 else 0.
Proof. unfold sights. rewrite total_app. simpl. lia. Qed.

Lemma talk_snoc p seen x : talk p (seen ++ [x]) = talk_step p (talk p seen) x.
Proof. unfold talk. by rewrite foldl_app. Qed.

Lemma one_eq i : one i i = 1.
Proof. unfold one. by rewrite decide_True. Qed.
Lemma one_ne i j : i ≠ j → one i j = 0.
Proof. intros. unfold one. by rewrite decide_False. Qed.

Lemma calling_exec i ts : total (calling_at i) ts ≤ total (exec_at i) ts.
Proof. apply total_le. intros []; simpl; lia. Qed.
Lemma flusher_exec i ts : total (flusher_at i) ts ≤ total (exec_at i) ts.
Proof. apply total_le. intros []; simpl; lia. Qed.

Lemma fine_perm h ts ts' : ts ≡ₚ ts' → fine_inv (mkFine h ts) → fine_inv (mkFine h ts').
Proof.
  intros Hp [A N R S E P]. simpl in *.
  split; simpl; rewrite <-?(total_perm _ _ _ Hp); try done; [|intros i Hi; by rewrite <-!(total_perm _ _ _ Hp), R].
  intros i n Hi. destruct (N i n Hi) as [O F T]. by split; rewrite <-!(total_perm _ _ _ Hp).
Qed.

(** Different nodes have different pointers. *)
Lemma ptr_ne ns i j n m :
  NoDup (vn_node <$> ns) → ns !! i = Some n → ns !! j = Some m → i ≠ j → vn_node m ≠ vn_node n.
Proof.
  intros Hnd Hi Hj Hne Heq. apply Hne. eapply (NoDup_lookup _ _ _ _ Hnd); rewrite list_lookup_fmap; [by rewrite Hi|by rewrite Hj, <-Heq].
Qed.

(** A store on the state of node [i], by its owner or from a state without one. *)
Lemma inv_put h b a o i x :
  fine_inv (mkFine h (b ++ o)) →
  total counted a = total counted b →
  (∀ w, w = reporting ∨ w = ending → total w a = total w b) →
  (∀ j, j ≠ i → total (ready_at j) a = total (ready_at j) b ∧ total (exec_at j) a = total (exec_at j) b ∧
     total (calling_at j) a = total (calling_at j) b ∧ total (flusher_at j) a = total (flusher_at j) b) →
  (total (calling_at i) a = total (calling_at i) b ∧ total (flusher_at i) a = total (flusher_at i) b) →
  (∀ n, h_nodes h !! i = Some n → ∀ P R X, (P + (total (ready_at i) b + R), total (exec_at i) b + X) = owners_of (vn_state n) →
     (P + (total (ready_at i) a + R), total (exec_at i) a + X) = owners_of x) →
  (length (h_nodes h) ≤ i → total (ready_at i) a + total (exec_at i) a = 0) →
  fine_inv (mkFine (put_state h i x) (a ++ o)).
Proof.
  intros [A N R S E P] Hc Hw Hj [Hi1 Hi2] Hst Hout. simpl in *. rewrite !total_app in *.
  split; simpl; rewrite ?total_app; unfold put_state, with_nodes; simpl.
  - lia.
  - intros j m Hm. rewrite lookup_vset in Hm. apply fmap_Some in Hm as (m0 & Hm0 & ->).
    destruct (N j m0 Hm0) as [O F T]. rewrite !total_app in *. destruct (decide (i = j)) as [<-|Hne]; simpl.
    + split; simpl; rewrite ?total_app, ?Hi1, ?Hi2; [by eapply Hst|done|done].
    + destruct (Hj j) as (H1 & H2 & H3 & H4); [done|]. split; simpl; rewrite ?total_app, ?H1, ?H2, ?H3, ?H4; done.
  - intros j Hlen. rewrite length_vset in Hlen. specialize (R j Hlen). rewrite !total_app in *.
    destruct (decide (j = i)) as [->|Hne]; [specialize (Hout Hlen); lia|]. destruct (Hj j) as (H1 & H2 & _); [done|lia].
  - rewrite (Hw reporting) by auto. done.
  - rewrite (Hw ending) by auto. done.
  - by rewrite ptrs_vset.
Qed.

(** What is seen of node [i] by its owner. *)
Lemma inv_see h b a o i n x :
  fine_inv (mkFine h (b ++ o)) → h_nodes h !! i = Some n →
  x ∈ [SCall (vn_node n); SFlush (vn_node n); STold (vn_node n)] →
  total counted a = total counted b → total reporting a = total reporting b → total ending a = total ending b →
  (∀ j, total (ready_at j) a = total (ready_at j) b ∧ total (exec_at j) a = total (exec_at j) b) →
  (∀ j, j ≠ i → total (calling_at j) a = total (calling_at j) b ∧ total (flusher_at j) a = total (flusher_at j) b) →
  total (exec_at i) b = 1 →
  (if decide (x = SFlush (vn_node n)) then 1 else 0) + total (flusher_at i) a = total (flusher_at i) b →
  talk_step (vn_node n) (Some (bool_decide (0 < total (calling_at i) b))) x = Some (bool_decide (0 < total (calling_at i) a)) →
  fine_inv (mkFine (see h x) (a ++ o)).
Proof.
  intros [A N R S E P] Hi Hx H1 H2 H3 H4 H5 H6 H7 H8. simpl in *. rewrite !total_app in *.
  assert (x ≠ SResult ∧ x ≠ SEndOfStream) as [Hx1 Hx2] by set_solver.
  split; simpl; rewrite ?total_app, ?sights_snoc.
  - lia.
  - intros j m Hm. destruct (N j m Hm) as [O F T]. rewrite !total_app in *. destruct (H4 j) as [Hr He].
    destruct (decide (j = i)) as [->|Hne].
    + simplify_eq. assert (total (exec_at i) o = 0) as Ho.
      { apply (f_equal snd) in O. simpl in O. destruct (vn_state n); simpl in O; lia. }
      pose proof (calling_exec i o) as Hc. assert (total (calling_at i) o = 0) as Hc0 by lia.
      split; simpl; rewrite ?total_app, ?sights_snoc, ?Hr, ?He; [done| |].
      * rewrite <-F, <-H7. destruct (decide (x = SFlush (vn_node n))); [rewrite decide_True by done|rewrite decide_False by congruence]; lia.
      * rewrite talk_snoc, T. rewrite Hc0, !Nat.add_0_r in *. done.
    + destruct (H5 j Hne) as [Hc Hf]. assert (vn_node m ≠ vn_node n) as Hp by (by eapply (ptr_ne (h_nodes h) i j)).
      split; simpl; rewrite ?total_app, ?sights_snoc, ?Hr, ?He, ?Hc, ?Hf; [done| |].
      * rewrite decide_False by set_solver. lia.
      * rewrite talk_snoc, T. unfold talk_step.
        rewrite !elem_of_cons in Hx. destruct Hx as [->|[->|[->|Hx]]]; [by rewrite decide_False by congruence..|].
        by apply elem_of_nil in Hx.
  - intros j Hj. specialize (R j Hj). rewrite !total_app in *. destruct (H4 j) as [Hr He]. lia.
  - rewrite decide_False by congruence. lia.
  - rewrite decide_False by congruence. lia.
  - done.
Qed.

(** Threads that move without touching what is shared, or touch only the counter or a
    latch of the engine. *)
Lemma inv_move h h' b a o :
  fine_inv (mkFine h (b ++ o)) → h_nodes h' = h_nodes h → h_pool h' = h_pool h → h_seen h' = h_seen h →
  (h_active h' + Z.of_nat (total counted b) = h_active h + Z.of_nat (total counted a))%Z →
  (total reporting a + (if h_reported h then 1 else 0) = total reporting b + if h_reported h' then 1 else 0) →
  (total ending a + (if h_eos h then 1 else 0) = total ending b + if h_eos h' then 1 else 0) →
  (∀ j, total (ready_at j) a = total (ready_at j) b ∧ total (exec_at j) a = total (exec_at j) b ∧
     total (calling_at j) a = total (calling_at j) b ∧ total (flusher_at j) a = total (flusher_at j) b) →
  fine_inv (mkFine h' (a ++ o)).
Proof.
  intros [A N R S E P] Hn Hp Hs H1 H2 H3 H4. simpl in *. rewrite !total_app in *.
  split; simpl; rewrite ?total_app, ?Hn, ?Hp, ?Hs; try done; try lia.
  - intros j m Hm. destruct (N j m Hm) as [O F T]. destruct (H4 j) as (E1 & E2 & E3 & E4). rewrite !total_app in *.
    split; simpl; rewrite ?total_app, ?Hn, ?Hp, ?Hs, ?E1, ?E2, ?E3, ?E4; done.
  - intros j Hj. specialize (R j Hj). destruct (H4 j) as (E1 & E2 & _). rewrite !total_app in *. lia.
Qed.

(** The conditions of the lemmas above for concrete threads. *)
Ltac elsewhere := intros; simpl; rewrite ?one_ne by done; split_and?; reflexivity.
Ltac owned := intros ? ? ? ? ?; simpl; rewrite ?one_eq; destruct (vn_state _); simpl; intros [=]; f_equal; lia.

Ltac stored := try done; try elsewhere; try (by intros w [->| ->]).

Lemma schedule_action_inv h b h' a o : schedule_action h b h' a → fine_inv (mkFine h (b ++ o)) → fine_inv (mkFine h' (a ++ o)).
Proof.
  intros [i n Hi Hw|i|i|i] I.
  - apply (inv_put _ []); stored.
    + intros m Hm P R X. simpl. simplify_eq. rewrite one_eq, Hw. simpl. intros [=]. f_equal; lia.
    + apply lookup_lt_Some in Hi. lia.
  - apply (inv_move h _ [TClaimed i]); stored; simpl; lia.
  - destruct I as [A N R S E P]. simpl in *. split; simpl; try done; [rewrite length_app; simpl; lia| |].
    + intros j m Hm. destruct (N j m Hm) as [O F T]. split; try done. simpl in *. rewrite total_app. simpl. rewrite <-O. f_equal. lia.
    + intros j Hj. specialize (R j Hj). rewrite total_app. simpl in *. lia.
  - apply (inv_put _ [TCounted i]); stored; owned.
Qed.

Lemma task_action_inv h b h' a o : task_action h b h' a → fine_inv (mkFine h (b ++ o)) → fine_inv (mkFine h' (a ++ o)).
Proof.
  intros [k i Hk|i|i n Hi Hr|i n Hi Hr|i n Hi|i n Hi|i x Hx|] I.
  - destruct I as [A N R S E P]. simpl in *. pose proof (length_delete_some _ _ _ Hk) as Hl.
    split; simpl; try done; [lia| |].
    + intros j m Hm. destruct (N j m Hm) as [O F T]. split; try done. simpl. rewrite (total_delete (one j) _ _ _ Hk) in O. rewrite <-O. f_equal. lia.
    + intros j Hj. specialize (R j Hj). rewrite (total_delete (one j) _ _ _ Hk) in R. lia.
  - apply (inv_put _ [THeld i]); stored; owned.
  - apply (inv_put _ [THeld i]); stored.
    + intros m Hm P R X. simpl. simplify_eq. rewrite one_eq, Hr. simpl. intros [=]. f_equal; lia.
    + apply lookup_lt_Some in Hi. lia.
  - exfalso. destruct I as [_ N _ _ _ _]. destruct (N i n Hi) as [O _ _]. simpl in O. rewrite one_eq in O.
    destruct (vn_state n); simpl in O; try done; injection O; lia.
  - eapply (inv_see _ [TOwner i]); try done; try elsewhere; simpl; rewrite ?one_eq, ?decide_True; try done. set_solver.
  - eapply (inv_see _ [TCalling i]); try done; try elsewhere; simpl; rewrite ?one_eq, ?decide_True; try done. set_solver.
  - apply (inv_put _ [TOwner i]); stored.
    intros m Hm P R X. simpl. rewrite one_eq. assert (owners_of x = (0, 0)) as ->.
    { rewrite !elem_of_cons in Hx. destruct Hx as [->|[->|[->|Hx]]]; try done. by apply elem_of_nil in Hx. }
    destruct (vn_state m); simpl; intros [=]; f_equal; lia.
  - apply (inv_move h _ [TLeaving]); stored; simpl; lia.
Qed.

Lemma eos_action_inv h b h' a o : eos_action h b h' a → fine_inv (mkFine h (b ++ o)) → fine_inv (mkFine h' (a ++ o)).
Proof.
  intros [i n Hi Hp|i n Hi Hs|i|i n Hi Hp|i n Hi Hp|i|i n Hi|i n Hi|i] I.
  - by apply (inv_move h _ []).
  - apply (inv_put _ [TChecking i]); stored.
    + intros m Hm P R X. simpl. simplify_eq. rewrite one_eq.
      rewrite !elem_of_cons in Hs. destruct Hs as [->|[->|Hs]]; [simpl; intros [=]; f_equal; lia..|]. by apply elem_of_nil in Hs.
    + apply lookup_lt_Some in Hi. lia.
  - by apply (inv_move h _ [TChecking i]).
  - destruct I as [A N R S E P]. simpl in *. split; simpl; try done.
    + intros j m Hm. unfold vpropagate in Hm. rewrite list_lookup_alter in Hm. case_decide as Hij.
      * subst j. rewrite Hi in Hm. injection Hm as <-. destruct (N i n Hi) as [O F T]. simpl in *. rewrite one_eq in *. rewrite Hp in F.
        split; simpl; rewrite ?one_eq; try done. lia.
      * destruct (N j m Hm) as [O F T]. simpl in *. rewrite one_ne in * by done. split; simpl; rewrite ?one_ne by done; done.
    + intros j Hj. unfold vpropagate in Hj. rewrite length_alter in Hj. by apply R.
    + unfold vpropagate. by rewrite ptrs_alter.
  - by apply (inv_move h _ [TClaimer i]).
  - apply (inv_put _ [TLoser i]); stored; owned.
  - eapply (inv_see _ [TFlusher i]); try done; try elsewhere; simpl; rewrite ?one_eq, ?decide_True; try done. set_solver.
  - eapply (inv_see _ [TFlushing i]); try done; try elsewhere; simpl; rewrite ?one_eq, ?decide_True; try done. set_solver.
  - apply (inv_put _ [TClosing i]); stored; owned.
Qed.

Lemma sink_action_inv h b h' a o : sink_action h b h' a → fine_inv (mkFine h (b ++ o)) → fine_inv (mkFine h' (a ++ o)).
Proof.
  intros [He|] I.
  - apply (inv_move h _ []); stored; simpl; rewrite He; lia.
  - destruct I as [A N R S E P]. simpl in *. split; simpl; rewrite ?sights_snoc, ?decide_False, ?decide_True by done; try done; [|lia..].
    intros j m Hm. destruct (N j m Hm) as [O F T]. split; simpl; rewrite ?sights_snoc, ?talk_snoc, ?T, ?decide_False by done; [done|simpl in F; lia|done].
Qed.

Lemma completion_action_inv h b h' a o :
  completion_action h b h' a → fine_inv (mkFine h (b ++ o)) → fine_inv (mkFine h' (a ++ o)).
Proof.
  intros [Ha|Hr| |] I.
  - by apply (inv_move h _ []).
  - apply (inv_move h _ [TComplete]); stored; simpl; rewrite Hr; lia.
  - by apply (inv_move h _ [TComplete]).
  - destruct I as [A N R S E P]. simpl in *. split; simpl; rewrite ?sights_snoc, ?decide_False, ?decide_True by done; try done; [|lia..].
    intros j m Hm. destruct (N j m Hm) as [O F T]. split; simpl; rewrite ?sights_snoc, ?talk_snoc, ?T, ?decide_False by done; [done|simpl in F; lia|done].
Qed.

(** ** The invariant holds in every interleaving *)

Lemma fstep_inv f f' : fstep f f' → fine_inv f → fine_inv f'.
Proof.
  intros [h ts h' ts' b a o Ha Hb Hafter] I. apply (fine_perm _ _ _ Hb) in I. apply (fine_perm _ (a ++ o)); [done|].
  destruct Ha as [Ha|[Ha|[Ha|[Ha|Ha]]]].
  - by eapply schedule_action_inv.
  - by eapply task_action_inv.
  - by eapply eos_action_inv.
  - by eapply sink_action_inv.
  - by eapply completion_action_inv.
Qed.

Lemma fsteps_inv f f' : rtc fstep f f' → fine_inv f → fine_inv f'.
Proof. induction 1; [done|]. intros I. by eapply IHrtc, fstep_inv. Qed.

(** ** What the invariant means *)

(** The node a thread owns. *)
Definition owned_by (t : Thread) : option nat :=
  match t with
  | TClaimed i | TCounted i | THeld i | TOwner i | TCalling i | TClaimer i | TLoser i | TFlusher i | TFlushing i | TClosing i => Some i
  | _ => None
  end.

Definition owners (f : Fine) : list nat := h_pool (f_shared f) ++ omap owned_by (f_threads f).

Lemma total_owned i ts : total (one i) (omap owned_by ts) = total (ready_at i) ts + total (exec_at i) ts.
Proof.
  induction ts as [|t ts IH]; [done|].
  change (omap owned_by (t :: ts)) with (match owned_by t with Some j => j :: omap owned_by ts | None => omap owned_by ts end).
  destruct t; cbn [owned_by sum_list_with ready_at exec_at]; lia.
Qed.

Lemma NoDup_total (l : list nat) : (∀ i, total (one i) l ≤ 1) → NoDup l.
Proof.
  induction l as [|j l IH]; intros Hl; [constructor|]. apply NoDup_cons. split.
  - intros (k & Hk)%list_elem_of_lookup. specialize (Hl j). simpl in Hl. rewrite (total_delete (one j) _ _ _ Hk), one_eq in Hl. lia.
  - apply IH. intros i. specialize (Hl i). simpl in Hl. lia.
Qed.

Lemma owners_nodup f : fine_inv f → NoDup (owners f).
Proof.
  intros [A N R S E P]. apply NoDup_total. intros i. unfold owners. rewrite total_app, total_owned.
  destruct (h_nodes (f_shared f) !! i) as [n|] eqn:Hi.
  - destruct (N i n Hi) as [O _ _]. destruct (vn_state n); simpl in O; injection O; lia.
  - apply lookup_ge_None in Hi. specialize (R i Hi). lia.
Qed.

Lemma owner_states f i n : fine_inv f → h_nodes (f_shared f) !! i = Some n →
  i ∈ owners f → vn_state n = READY ∨ vn_state n = EXECUTING.
Proof.
  intros [A N R S E P] Hi (k & Hk)%list_elem_of_lookup. destruct (N i n Hi) as [O _ _].
  pose proof (total_delete (one i) _ _ _ Hk) as Ht. unfold owners in Ht. rewrite total_app, total_owned, one_eq in Ht.
  destruct (vn_state n); simpl in O; try (by left); try (by right); injection O; lia.
Qed.

(** ** The machine of [NodeLifecycle.v] takes these actions *)

Definition seen_of (tr : list Mark) : list Seen :=
  tr ≫= λ m, match m with
             | MProcess p => [SCall p; STold p] | MFlush p => [SFlush p; STold p]
             | MResult => [SResult] | MEndOfStream => [SEndOfStream]
             end.

Definition threads_of (gh : Ghost) : list Thread :=
  (TOwner <$> gh_running gh) ++ (TClosing <$> gh_flushing gh) ++ replicate (gh_exiting gh) TLeaving.

Definition fine_of (v : View) : Fine :=
  mkFine (mkShared (v_nodes v) (v_pool v) (v_active v) (v_reported v) (v_eos v) (seen_of (v_trace v))) (threads_of (v_ghost v)).

Lemma seen_of_snoc tr m : seen_of (tr ++ [m]) = seen_of tr ++ seen_of [m].
Proof. unfold seen_of. by rewrite bind_app. Qed.

(** A thread acts and the others follow in any order. *)
Lemma fine_l h h' b a o ts f :
  action h b h' a → ts ≡ₚ b ++ o → rtc fstep (mkFine h' (a ++ o)) f → rtc fstep (mkFine h ts) f.
Proof. intros Ha Hts Hr. eapply rtc_l; [by eapply F_step|done]. Qed.

Lemma fine_end h h' b a o ts ts' :
  action h b h' a → ts ≡ₚ b ++ o → ts' ≡ₚ a ++ o → rtc fstep (mkFine h ts) (mkFine h' ts').
Proof. intros. apply rtc_once. by eapply F_step. Qed.

Lemma threads_running ru fl ex i : threads_of (mkGhost (ru ++ [i]) fl ex) ≡ₚ TOwner i :: threads_of (mkGhost ru fl ex).
Proof. unfold threads_of. simpl. rewrite fmap_app, <-app_assoc. simpl. symmetry. apply Permutation_middle. Qed.
Lemma threads_flushing ru fl ex i : threads_of (mkGhost ru (fl ++ [i]) ex) ≡ₚ TClosing i :: threads_of (mkGhost ru fl ex).
Proof.
  unfold threads_of. simpl. rewrite fmap_app, <-(app_assoc (TClosing <$> fl)). simpl.
  rewrite <-Permutation_middle. symmetry. apply Permutation_middle.
Qed.
Lemma threads_exiting ru fl ex : threads_of (mkGhost ru fl (S ex)) ≡ₚ TLeaving :: threads_of (mkGhost ru fl ex).
Proof. unfold threads_of. simpl. rewrite <-Permutation_middle. symmetry. apply Permutation_middle. Qed.
Lemma threads_runner ru fl ex k i : ru !! k = Some i → threads_of (mkGhost ru fl ex) ≡ₚ TOwner i :: threads_of (mkGhost (delete k ru) fl ex).
Proof. intros Hk. unfold threads_of. simpl. by rewrite (delete_Permutation ru k i Hk) at 1. Qed.
Lemma threads_flusher ru fl ex k i : fl !! k = Some i → threads_of (mkGhost ru fl ex) ≡ₚ TClosing i :: threads_of (mkGhost ru (delete k fl) ex).
Proof.
  intros Hk. unfold threads_of. simpl. rewrite (delete_Permutation fl k i Hk) at 1. simpl. symmetry. apply Permutation_middle.
Qed.

Lemma vpropagate_vset i ns : vpropagate i (vset i EXECUTING ns) = vclaim_eos i ns.
Proof.
  unfold vpropagate, vset, vclaim_eos. apply list_eq. intros j. rewrite !list_lookup_alter.
  destruct (decide (i = j)) as [->|]; [|done].
  rewrite decide_True by done. by destruct (ns !! j).
Qed.

Lemma vstep_fine v v' : vstep v v' → rtc fstep (fine_of v) (fine_of v').
Proof.
  intros Hs. destruct Hs as [ns pool act rep eos tr gh i n Hi Hw|ns pool act rep eos tr ru fl ex k i n Hk Hi Hr|
    ns pool act rep eos tr ru fl ex k i Hk|ns pool act rep eos tr gh i n Hi Hn|ns pool act rep eos tr ru fl ex k i x Hk Hx|
    ns pool act rep eos tr ru fl ex|ns pool act rep eos tr ru fl ex i n Hi Hp Hs|ns pool act rep eos tr ru fl ex k i Hk|
    ns pool act rep tr gh|ns pool act eos tr gh Ha]; unfold fine_of; simpl; rewrite ?seen_of_snoc; simpl.
  - eapply (fine_l _ _ []); [left; by eapply A_claim|simpl; reflexivity|]. eapply (fine_l _ _ [_]); [left; apply A_count|simpl; reflexivity|].
    eapply (fine_end _ _ [_]); [left; apply A_post|simpl; reflexivity|simpl; reflexivity].
  - eapply (fine_l _ _ []); [right; left; by eapply A_take|simpl; reflexivity|].
    eapply (fine_end _ _ [_] [_]); [right; left; by eapply A_start|simpl; reflexivity|apply threads_running].
  - eapply (fine_l _ _ []); [right; left; by eapply A_take|simpl; reflexivity|].
    eapply (fine_end _ _ [_] [_]); [right; left; by eapply A_abandon|simpl; reflexivity|apply threads_exiting].
  - destruct gh as [ru fl ex]. simpl in Hi. apply list_elem_of_lookup in Hi as [k Hk]. pose proof (threads_runner ru fl ex k i Hk) as Ht.
    eapply (fine_l _ _ [_]); [right; left; by eapply A_call|exact Ht|].
    change [SCall (vn_node n); STold (vn_node n)] with ([SCall (vn_node n)] ++ [STold (vn_node n)]). rewrite app_assoc.
    eapply (fine_end _ _ [_] [_]); [right; left; by eapply A_told|simpl; reflexivity|exact Ht].
  - pose proof (threads_runner ru fl ex k i Hk) as Ht.
    eapply (fine_end _ _ [_] [_]); [right; left; by eapply A_release|exact Ht|apply threads_exiting].
  - eapply (fine_end _ _ [_] []); [right; left; apply A_leave|apply threads_exiting|simpl; reflexivity].
  - eapply (fine_l _ _ []); [right; right; left; by eapply A_check|simpl; reflexivity|].
    eapply (fine_l _ _ [_]); [right; right; left; by eapply A_own|simpl; reflexivity|].
    eapply (fine_l _ _ [_]); [right; right; left; eapply A_win; [by apply lookup_vset_eq|done]|simpl; reflexivity|]. unfold with_nodes. simpl.
    rewrite vpropagate_vset. assert (vclaim_eos i ns !! i = Some (mkVNode (vn_node n) EXECUTING true (vn_wired n))) as Hn.
    { rewrite lookup_vclaim, Hi. simpl. by rewrite decide_True. }
    eapply (fine_l _ _ [_]); [right; right; left; by eapply A_flush|simpl; reflexivity|].
    change [SFlush (vn_node n); STold (vn_node n)] with ([SFlush (vn_node n)] ++ [STold (vn_node n)]). rewrite app_assoc.
    match goal with |- rtc fstep (mkFine ?h _) _ =>
      eapply (fine_end h _ [TFlushing i] [TClosing i]); [right; right; left; exact (A_flush_told h i _ Hn)|simpl; reflexivity|apply threads_flushing] end.
  - pose proof (threads_flusher ru fl ex k i Hk) as Ht. eapply (fine_end _ _ [_] []); [right; right; left; apply A_close|exact Ht|simpl; reflexivity].
  - eapply (fine_l _ _ []); [do 3 right; left; by apply A_end|simpl; reflexivity|]. eapply (fine_end _ _ [_] []); [do 3 right; left; apply A_end_told|simpl; reflexivity|simpl; reflexivity].
  - eapply (fine_l _ _ []); [do 4 right; by apply A_idle|simpl; reflexivity|]. eapply (fine_l _ _ [_]); [do 4 right; by apply A_report|simpl; reflexivity|].
    eapply (fine_end _ _ [_] []); [do 4 right; apply A_result|simpl; reflexivity|simpl; reflexivity].
Qed.

Lemma vsteps_fine v v' : rtc vstep v v' → rtc fstep (fine_of v) (fine_of v').
Proof. induction 1; [done|]. etrans; [by apply vstep_fine|done]. Qed.

(** ** Between two operations of the engine *)

Lemma seen_of_cons m tr : seen_of (m :: tr) = seen_of [m] ++ seen_of tr.
Proof. exact (bind_app _ [m] tr). Qed.

Lemma sights_of m x tr :
  (∀ y, sights x (seen_of [y]) = if decide (y = m) then 1 else 0) → sights x (seen_of tr) = marks m tr.
Proof.
  intros Hy. induction tr as [|y tr IH]; [done|].
  rewrite seen_of_cons. change (y :: tr) with ([y] ++ tr). rewrite marks_app, marks_one, <-Hy, <-IH. apply total_app.
Qed.

Lemma sights_flush p tr : sights (SFlush p) (seen_of tr) = marks (MFlush p) tr.
Proof. apply sights_of. intros []; unfold sights; simpl; repeat case_decide; naive_solver. Qed.
Lemma sights_result tr : sights SResult (seen_of tr) = marks MResult tr.
Proof. apply sights_of. by intros []. Qed.
Lemma sights_eos tr : sights SEndOfStream (seen_of tr) = marks MEndOfStream tr.
Proof. apply sights_of. by intros []. Qed.

Lemma talk_seen p tr : talk p (seen_of tr) = Some false.
Proof.
  induction tr as [|m tr IH]; [done|]. rewrite seen_of_cons. unfold talk. rewrite foldl_app.
  assert (foldl (talk_step p) (Some false) (seen_of [m]) = Some false) as ->; [|done].
  destruct m as [q|q| |]; try done; cbn; destruct (decide (p = q)); cbn; by case_decide.
Qed.

Lemma total_one_nodup i (l : list nat) : NoDup l → total (one i) l = if decide (i ∈ l) then 1 else 0.
Proof.
  induction 1 as [|j l Hj Hl IH]; [done|]. simpl. rewrite IH. unfold one. repeat case_decide; set_solver.
Qed.

(** No thread is inside the code: the invariant of [NodeLifecycle.v] gives this one. *)
Lemma fine_of_inv v : v_ghost v = no_ghost → lifecycle_inv v → fine_inv (fine_of v).
Proof.
  intros Hg [Ha [Hnd Hr Hx _ Hrg] Ht Hres He Hp _]. rewrite Hg in *. simpl in *. rewrite !app_nil_r in *.
  unfold fine_of. rewrite Hg. split; simpl; rewrite ?Nat.add_0_r, ?sights_result, ?sights_eos; try done.
  - rewrite Ha. f_equal. simpl. lia.
  - intros i n Hi. destruct (Ht i n Hi) as [Hm _]. split; simpl; rewrite ?sights_flush, ?talk_seen, ?Nat.add_0_r; try done.
    rewrite total_one_nodup by done. specialize (Hr i n Hi). specialize (Hx i n Hi).
    case_decide as Hin; [by apply Hr in Hin as ->|]. destruct (vn_state n); try done; [tauto|].
    exfalso. eapply not_elem_of_nil. by apply Hx.
  - intros i Hi. rewrite total_one_nodup by done. rewrite decide_False; [done|]. intros Hin%Hrg. lia.
Qed.

(** ** The check that loses the exchange *)

Definition one_node (p : NodePtr) (x : NodeExecutionState) (propagated : bool) (pool : list nat) (active : Z) (seen : list Seen) : Shared :=
  mkShared [mkVNode p x propagated true] pool active false false seen.

(** Two threads read that node [p] is drained and not flushed.  The first flushes it and
    leaves it COMPLETED; the second claims it from COMPLETED, loses the exchange of
    [eos_propagated] and stores WAITING, not the COMPLETED it claimed. *)
Lemma losing_check_stores_waiting p :
  rtc fstep (mkFine (one_node p WAITING false [] 0 []) []) (mkFine (one_node p WAITING true [] 0 [SFlush p; STold p]) []).
Proof.
  eapply (fine_l _ _ []); [do 2 right; left; by eapply (A_check _ 0)|simpl; reflexivity|].
  eapply (fine_l _ _ []); [do 2 right; left; by eapply (A_check _ 0)|simpl; reflexivity|].
  eapply (fine_l _ _ [_]); [do 2 right; left; eapply (A_own _ 0); [done|set_solver]|simpl; reflexivity|].
  eapply (fine_l _ _ [_]); [do 2 right; left; by eapply (A_win _ 0)|simpl; reflexivity|].
  eapply (fine_l _ _ [_]); [do 2 right; left; by eapply (A_flush _ 0)|simpl; reflexivity|].
  eapply (fine_l _ _ [_]); [do 2 right; left; by eapply (A_flush_told _ 0)|simpl; reflexivity|].
  eapply (fine_l _ _ [_]); [do 2 right; left; by eapply (A_close _ 0)|simpl; reflexivity|].
  eapply (fine_l _ _ [_]); [do 2 right; left; eapply (A_own _ 0); [done|set_solver]|simpl; reflexivity|].
  eapply (fine_l _ _ [_]); [do 2 right; left; by eapply (A_lose _ 0)|simpl; reflexivity|].
  apply (fine_end (one_node p EXECUTING true [] 0 [SFlush p; STold p]) _ [TLoser 0] [] []); [|done..].
  do 2 right. left. exact (A_restore (one_node p EXECUTING true [] 0 [SFlush p; STold p]) 0).
Qed.

(** So a packet whose push passed the test of the latch before the latch was set can
    still schedule the node: [process] is called after the flush. *)
Lemma losing_check_reopens_node p :
  ∃ f, rtc fstep (mkFine (one_node p WAITING false [] 0 []) []) f ∧ h_seen (f_shared f) = [SFlush p; STold p; SCall p].
Proof.
  exists (mkFine (one_node p EXECUTING true [] 1 [SFlush p; STold p; SCall p]) [TCalling 0]). split; [|done].
  etrans; [apply losing_check_stores_waiting|].
  eapply (fine_l _ _ []); [left; by eapply (A_claim _ 0)|simpl; reflexivity|].
  eapply (fine_l _ _ [_]); [left; by eapply (A_count _ 0)|simpl; reflexivity|].
  eapply (fine_l _ _ [_]); [left; by eapply (A_post _ 0)|simpl; reflexivity|].
  eapply (fine_l _ _ []); [right; left; by eapply (A_take _ 0)|simpl; reflexivity|].
  eapply (fine_l _ _ [_]); [right; left; by eapply (A_start _ 0)|simpl; reflexivity|].
  apply (fine_end (one_node p EXECUTING true [] 1 [SFlush p; STold p]) _ [TOwner 0] [TCalling 0] []); [|done..].
  right. left. exact (A_call (one_node p EXECUTING true [] 1 [SFlush p; STold p]) 0 (mkVNode p EXECUTING true true) eq_refl).
Qed.

(** ** Interleavings in which no check loses the exchange *)

Definition fstep_won (f f' : Fine) : Prop := fstep f f' ∧ ∀ i, TLoser i ∉ f_threads f'.

Definition owner_at (i : nat) (t : Thread) : nat := match t with TOwner j | TCalling j => one i j | _ => 0 end.

(** A node whose end of stream is handled is claimed or completed, and no worker owns it. *)
Definition all_settled (h : Shared) (ts : list Thread) : Prop :=
  ∀ i n, h_nodes h !! i = Some n → vn_propagated n = true →
    (vn_state n = COMPLETED ∨ vn_state n = EXECUTING) ∧ total (owner_at i) ts = 0.

Record won_inv (f : Fine) : Prop := {
  wi_fine : fine_inv f;
  wi_settled : all_settled (f_shared f) (f_threads f);
  wi_last p : p ∈ vn_node <$> h_nodes (f_shared f) → never_after (SFlush p) (SCall p) (h_seen (f_shared f));
  wi_won i : TLoser i ∉ f_threads f;
}.

Lemma settled_put h b a o i x :
  all_settled h (b ++ o) → (∀ j, j ≠ i → total (owner_at j) a = total (owner_at j) b) →
  (∀ n, h_nodes h !! i = Some n → vn_propagated n = true → vn_state n = COMPLETED ∨ vn_state n = EXECUTING →
     total (owner_at i) b = 0 → (x = COMPLETED ∨ x = EXECUTING) ∧ total (owner_at i) a = 0) →
  all_settled (put_state h i x) (a ++ o).
Proof.
  intros Hs Hj Hi j m. simpl. rewrite lookup_vset. intros (n & Hn & ->)%fmap_Some Hp.
  assert (vn_propagated n = true) as Hpn by (by case_decide). destruct (Hs j n Hn Hpn) as [Hst Ho]. rewrite total_app in *.
  case_decide as Hij; simpl.
  - subst j. destruct (Hi n Hn Hpn Hst) as [Hx Ha]; [lia|]. split; [done|lia].
  - rewrite Hj by done. split; [done|lia].
Qed.

(** The state of the node a thread owns. *)
Lemma ready_state h t o i n :
  fine_inv (mkFine h ([t] ++ o)) → h_nodes h !! i = Some n → ready_at i t = 1 → vn_state n = READY.
Proof.
  intros I Hi Ht. destruct (fi_node _ I i n Hi) as [O _ _]. simpl in O. rewrite Ht in O.
  destruct (vn_state n); simpl in O; try done; injection O; lia.
Qed.

Lemma owner_exec i ts : total (owner_at i) ts ≤ total (exec_at i) ts.
Proof. apply total_le. intros []; simpl; lia. Qed.

Lemma claimer_alone h o i n :
  fine_inv (mkFine h ([TClaimer i] ++ o)) → h_nodes h !! i = Some n → vn_state n = EXECUTING ∧ total (owner_at i) o = 0.
Proof.
  intros I Hi. destruct (fi_node _ I i n Hi) as [O _ _]. simpl in O. rewrite one_eq in O. pose proof (owner_exec i o).
  destruct (vn_state n); simpl in O; try done; injection O as O1 O2. split; [done|lia].
Qed.

Ltac unowned := simpl; intros; rewrite ?one_ne by done; reflexivity.
Ltac ready_now I :=
  let n := fresh in let Hn := fresh in let Hx := fresh in
  intros n Hn _ Hx _; rewrite (ready_state _ _ _ _ _ I Hn (one_eq _)) in Hx; by destruct Hx.

Lemma settled_same h h' b a o :
  all_settled h (b ++ o) → h_nodes h' = h_nodes h → (∀ i, total (owner_at i) a = total (owner_at i) b) → all_settled h' (a ++ o).
Proof. intros Hs Hn Ho i n. rewrite Hn, total_app, Ho, <-total_app. apply Hs. Qed.

Lemma action_settled h b h' a o :
  action h b h' a → fine_inv (mkFine h (b ++ o)) → (∀ i, TLoser i ∉ b ++ o) → all_settled h (b ++ o) → all_settled h' (a ++ o).
Proof.
  intros [[i n Hi Hst|i|i|i]|[[k i Hk|i|i n Hi Hr|i n Hi Hr|i n Hi|i n Hi|i x Hx|]|
    [[i n Hi Hp|i n Hi Hst|i|i n Hi Hp|i n Hi Hp|i|i n Hi|i n Hi|i]|[[He|]|[Ha|Hr| |]]]]] I Hw Hs;
    try (by eapply settled_same).
  - apply (settled_put _ []); [done|unowned|]. intros m Hm _ Hx _. simplify_eq. rewrite Hst in Hx. by destruct Hx.
  - apply (settled_put _ [TCounted i]); [done|unowned|ready_now I].
  - apply (settled_put _ [THeld i]); [done|unowned|ready_now I].
  - apply (settled_put _ [THeld i]); [done|unowned|ready_now I].
  - apply (settled_put _ [TOwner i]); [done|unowned|]. intros m _ _ _ Ho. simpl in Ho. rewrite one_eq in Ho. done.
  - apply (settled_put _ [TChecking i]); [done|unowned|]. intros m _ _ _ _. split; [by right|done].
  - intros j m. simpl. unfold vpropagate. rewrite list_lookup_alter. destruct (decide (i = j)) as [<-|Hne].
    + intros (n' & Hn' & ->)%fmap_Some _. destruct (claimer_alone _ _ _ _ I Hn') as [Hx Ho]. simpl. split; [by right|done].
    + intros Hm Hpm. destruct (Hs j m Hm Hpm) as [Hst Ho]. split; [done|]. exact Ho.
  - exfalso. apply (Hw i). set_solver.
  - apply (settled_put _ [TClosing i]); [done|unowned|]. intros m _ _ _ _. split; [by left|done].
Qed.

Lemma sights_notin x seen : sights x seen = 0 → x ∉ seen.
Proof. intros Hs (k & Hk)%list_elem_of_lookup. unfold sights in Hs. rewrite (total_delete _ _ _ _ Hk), decide_True in Hs by done. lia. Qed.

(** An action is seen or not, and [process] is called by a worker that owns the node. *)
Lemma action_seen h b h' a :
  action h b h' a → h_seen h' = h_seen h ∨
    ∃ x, h_seen h' = h_seen h ++ [x] ∧ ∀ p, x = SCall p → ∃ i n, b = [TOwner i] ∧ h_nodes h !! i = Some n ∧ p = vn_node n.
Proof.
  intros [[i n Hi Hst|i|i|i]|[[k i Hk|i|i n Hi Hr|i n Hi Hr|i n Hi|i n Hi|i x Hx|]|
    [[i n Hi Hp|i n Hi Hst|i|i n Hi Hp|i n Hi Hp|i|i n Hi|i n Hi|i]|[[He|]|[Ha|Hr| |]]]]];
    try (by left); right; eexists; (split; [done|]); try done. intros p [= <-]. by exists i, n.
Qed.

Lemma action_last h b h' a o p :
  action h b h' a → fine_inv (mkFine h (b ++ o)) → all_settled h (b ++ o) →
  never_after (SFlush p) (SCall p) (h_seen h) → never_after (SFlush p) (SCall p) (h_seen h').
Proof.
  intros Ha I Hs Hl. destruct (action_seen _ _ _ _ Ha) as [->|(x & -> & Hx)]; [done|]. apply never_after_snoc; [done|].
  intros (i & n & -> & Hi & ->)%Hx. apply sights_notin. destruct (fi_node _ I i n Hi) as [_ F _]. simpl in F.
  destruct (vn_propagated n) eqn:Hp; [|lia]. destruct (Hs i n Hi Hp) as [_ Ho]. simpl in Ho. rewrite one_eq in Ho. lia.
Qed.

Lemma action_ptrs h b h' a : action h b h' a → vn_node <$> h_nodes h' = vn_node <$> h_nodes h.
Proof.
  intros [[i n Hi Hst|i|i|i]|[[k i Hk|i|i n Hi Hr|i n Hi Hr|i n Hi|i n Hi|i x Hx|]|
    [[i n Hi Hp|i n Hi Hst|i|i n Hi Hp|i n Hi Hp|i|i n Hi|i n Hi|i]|[[He|]|[Ha|Hr| |]]]]]; try done; by apply ptrs_alter.
Qed.

Lemma fstep_won_inv f f' : fstep_won f f' → won_inv f → won_inv f'.
Proof.
  intros [Hf Hw] [I Hs Hl Hn]. split; [by eapply fstep_inv| | |done]; destruct Hf as [h ts h' ts' b a o Ha Hb Hafter]; simpl in *;
    (assert (fine_inv (mkFine h (b ++ o))) as Ib by (by eapply fine_perm));
    (assert (all_settled h (b ++ o)) as Hsb by (intros i n Hi Hp; rewrite <-(total_perm _ _ _ Hb); by apply Hs)).
  - intros i n Hi Hp. rewrite (total_perm _ _ _ Hafter).
    apply (action_settled _ _ _ _ _ Ha Ib); [|done|done|done]. intros j. by rewrite <-Hb.
  - intros p Hp. rewrite (action_ptrs _ _ _ _ Ha) in Hp. eapply action_last; [done..|by apply Hl].
Qed.

Lemma fsteps_won_inv f f' : rtc fstep_won f f' → won_inv f → won_inv f'.
Proof. induction 1; [done|]. intros I. by eapply IHrtc, fstep_won_inv. Qed.

Lemma notin_marks m tr : m ∉ tr → marks m tr = 0.
Proof.
  induction tr as [|x tr IH]; [done|]. intros [Hx Hm]%not_elem_of_cons. unfold marks. rewrite filter_cons, decide_False by congruence. by apply IH.
Qed.

Lemma seen_never_after p tr : flush_last p tr → never_after (SFlush p) (SCall p) (seen_of tr).
Proof.
  induction tr as [|m tr IH] using rev_ind; intros Hf.
  { intros pre post Heq. symmetry in Heq. by apply app_eq_nil in Heq as [_ ?]. }
  assert (never_after (SFlush p) (SCall p) (seen_of tr)) as Hn.
  { apply IH. intros pre post -> Hin. apply (Hf pre (post ++ [m])); [by rewrite <-app_assoc|]. by apply elem_of_app; left. }
  assert (∀ q, m = MProcess q → p = q → SFlush p ∉ seen_of tr) as Hm.
  { intros q -> ->. apply sights_notin. rewrite sights_flush. destruct (decide (MFlush q ∈ tr)) as [Hin|Hin].
    - apply list_elem_of_split in Hin as (pre & post & ->). exfalso. apply (Hf pre (post ++ [MProcess q])); [by rewrite <-app_assoc|].
      apply elem_of_app. right. set_solver.
    - by apply notin_marks. }
  rewrite seen_of_snoc. destruct m as [q|q| |]; simpl.
  - change [SCall q; STold q] with ([SCall q] ++ [STold q]). rewrite app_assoc.
    apply never_after_snoc; [apply never_after_snoc; [done|]|done]. intros [= ->]. by eapply Hm.
  - change [SFlush q; STold q] with ([SFlush q] ++ [STold q]). rewrite app_assoc. by apply never_after_snoc; [apply never_after_snoc|].
  - by apply never_after_snoc.
  - by apply never_after_snoc.
Qed.

Lemma fine_of_won v : v_ghost v = no_ghost → lifecycle_inv v → won_inv (fine_of v).
Proof.
  intros Hg I. split; [by apply fine_of_inv|..].
  - intros i n Hi Hp. unfold fine_of in Hi |- *. rewrite Hg in *. simpl in Hi |- *. split; [|done]. left.
    destruct (oi_prop _ _ _ _ (li_owner _ I) i n Hi Hp) as [Hf|Hc]; [|done]. rewrite Hg in Hf. by apply not_elem_of_nil in Hf.
  - intros p (n & -> & (i & Hi)%list_elem_of_lookup)%list_elem_of_fmap. apply seen_never_after. by destruct (li_trace _ I i n Hi).
  - intros i. unfold fine_of. rewrite Hg. apply not_elem_of_nil.
Qed.
