(* ===== verification/EngineSim.v ===== *)
(** * The engine follows the life of its nodes

    Every operation of the engine is a sequence of rules of the abstract machine
    of [NodeLifecycle.v].  [abs gh s] is the machine's view of the engine's state
    [s], where [gh] says which workers and flushes are in progress; [sim s s'] that
    the machine can follow from [s] to [s'] whatever is in progress elsewhere. *)

From S2P Require Import Prelude Errors Packets Graphs CompiledGraphs MpmcQueue NodeQueue FrameAlignment.
From S2P Require Import SyncCoordinator JoinAwareSync ExecutionTypes Schedulers EngineCore EngineGather.
From S2P Require Import Engine.
From S2P Require Import NodeLifecycle.
Local Open Scope list_scope.
Local Open Scope nat_scope.

Section Sim.
Context `{CppTypes} {Q Sy : Type} `{!PortQueue Q, !SyncStrategy Sy}.
Context (cfg : EngineConfig) (cg : CompiledGraph) (sched : SchedulerStrategy).
Notation Engine := (Engine Q Sy).
Notation NodeState := (NodeState Q).
Implicit Types (s : Engine) (nd : NodeState).

(** ** The view *)

Definition mark_of (ev : Event) : option Mark :=
  match ev with
  | EvProcess p _ => Some (MProcess p)
  | EvFlush p => Some (MFlush p)
  | EvResult _ => Some MResult
  | EvEndOfStream => Some MEndOfStream
  | _ => None
  end.

Definition abs_node nd : VNode := mkVNode (nd_node nd) (nd_exec_state nd) (nd_eos_propagated nd) (wired nd).

Definition abs (gh : Ghost) s : View :=
  mkView (abs_node <$> e_nodes s) (e_pool s) (e_activeTasks s) (e_completionReported s)
    (e_endOfStreamReached s) (omap mark_of (e_log s)) gh.

(** The two states look the same to the machine. *)
Definition neutral s s' : Prop := ∀ gh, abs gh s' = abs gh s.

Definition sim s s' : Prop := ∀ gh, rtc vstep (abs gh s) (abs gh s').

(** From [s], where a worker owns [i], to [s'], where it has given it back. *)
Definition releases (i : nat) s s' : Prop :=
  ∀ ru fl ex, rtc vstep (abs (mkGhost (ru ++ [i]) fl ex) s) (abs (mkGhost ru fl (S ex)) s').

#[global] Instance neutral_refl : Reflexive neutral.
Proof. by intros s gh. Qed.
#[global] Instance neutral_trans : Transitive neutral.
Proof. intros s1 s2 s3 H1 H2 gh. by rewrite H2, H1. Qed.
#[global] Instance sim_refl : Reflexive sim.
Proof. by intros s gh. Qed.
#[global] Instance sim_trans : Transitive sim.
Proof. intros s1 s2 s3 H1 H2 gh. etrans; [apply H1|apply H2]. Qed.

Lemma neutral_sim s s' : neutral s s' → sim s s'.
Proof. intros Hn gh. by rewrite Hn. Qed.

Lemma sim_releases i s s1 s2 s3 : sim s s1 → releases i s1 s2 → sim s2 s3 → releases i s s3.
Proof. intros H1 H2 H3 ru fl ex. etrans; [apply H1|]. etrans; [apply H2|apply H3]. Qed.

(** ** Operations the machine does not see *)

Lemma neutral_upd s i f : (∀ nd, abs_node (f nd) = abs_node nd) → neutral s (upd_node s i f).
Proof.
  intros Hf gh. unfold abs, upd_node; simpl. f_equal. apply list_eq. intros j.
  rewrite !list_lookup_fmap, list_lookup_alter. destruct (decide (i = j)) as [<-|]; [|done].
  destruct (e_nodes s !! i); simpl; [by rewrite Hf|done].
Qed.

Lemma neutral_observe s ev : mark_of ev = None → neutral s (observe s ev).
Proof.
  intros He gh. unfold abs, observe; simpl. f_equal. rewrite omap_app. simpl. rewrite He. by rewrite app_nil_r.
Qed.

Lemma neutral_bump s f : neutral s (bump s f).
Proof. by intros gh. Qed.

Lemma neutral_upd_queue s i k q : neutral s (upd_queue s i k q).
Proof. apply neutral_upd. intros nd. unfold abs_node, wired; simpl. by rewrite length_insert. Qed.

Lemma neutral_sync s x : neutral s (e_set_sync s x).
Proof. by intros gh. Qed.

Lemma neutral_now s x : neutral s (e_set_now s x).
Proof. by intros gh. Qed.

Lemma recordSyncDrop_neutral s name f r : neutral s (recordSyncDrop s name f r).
Proof. unfold recordSyncDrop. etrans; [apply neutral_bump|by apply neutral_observe]. Qed.

Lemma recordQueueRejection_neutral s name : neutral s (recordQueueRejection s name).
Proof. unfold recordQueueRejection. etrans; [apply neutral_bump|by apply neutral_observe]. Qed.

Lemma queueDropped_neutral name s ev : neutral s (queueDropped name s ev).
Proof.
  unfold queueDropped. set (s1 := observe _ _).
  assert (neutral s s1) as Hs1 by (etrans; [apply neutral_bump|by apply neutral_observe]).
  case_match; [|done]. etrans; [exact Hs1|apply neutral_sync].
Qed.

Lemma foldl_neutral {A} (f : Engine → A → Engine) l s : (∀ s a, neutral s (f s a)) → neutral s (foldl f s l).
Proof. intros Hf. revert s. induction l as [|a l IH]; intros s; simpl; [done|]. etrans; [apply Hf|apply IH]. Qed.

Lemma queue_push_neutral s i k x s' ok : queue_push s i k x = (s', ok) → neutral s s'.
Proof.
  unfold queue_push. destruct (stateByIndex s i) as [nd|]; [|by intros [= <- _]].
  destruct (nd_queues nd !! k) as [q|]; [|by intros [= <- _]]. destruct (pq_push q x) as [[q' ok'] evs].
  intros [= <- _]. etrans; [apply neutral_upd_queue|]. apply foldl_neutral. intros. apply queueDropped_neutral.
Qed.

Lemma queue_pop_neutral s i k s' r : queue_pop s i k = (s', r) → neutral s s'.
Proof.
  unfold queue_pop. case_match; [|by intros [= <- _]]. destruct (pq_tryPop _). intros [= <- _]. apply neutral_upd_queue.
Qed.

Lemma pushToQueue_neutral s i name x s' ok : pushToQueue s i name x = (s', ok) → neutral s s'.
Proof.
  unfold pushToQueue. destruct (stateByIndex s i) as [nd|]; [|by intros [= <- _]].
  destruct (port_index _ _) as [k|]; [|by intros [= <- _]]. destruct (queue_push s i k x) as [s1 b] eqn:Hp.
  apply queue_push_neutral in Hp. destruct b; intros [= <- _]; [done|]. etrans; [exact Hp|].
  apply recordQueueRejection_neutral.
Qed.

Lemma recordDequeue_neutral s x : neutral s (recordDequeue cfg s x).
Proof.
  unfold recordDequeue. destruct (ec_enable_statistics cfg); [|done]. etrans; [apply (neutral_bump s)|].
  repeat case_match; try reflexivity; apply neutral_bump.
Qed.

Lemma stampIncomingFrame_neutral s x s' x' : stampIncomingFrame cfg s x = (s', x') → neutral s s'.
Proof. unfold stampIncomingFrame. intros Hs gh. repeat case_match; by simplify_eq. Qed.

Lemma collectResults_neutral s name m : neutral s (collectResults s name m).
Proof. by intros gh. Qed.

Lemma record_latency_neutral s i m : neutral s (record_latency cfg cg s i m).
Proof. unfold record_latency. repeat case_match; try reflexivity; apply neutral_bump. Qed.

Lemma mark_processed_neutral s nd m : neutral s (mark_processed s nd m).
Proof. unfold mark_processed. repeat case_match; try reflexivity; apply neutral_sync. Qed.

Lemma stopExecutionAsync_neutral s : neutral s (stopExecutionAsync s).
Proof. unfold stopExecutionAsync. intros gh. by repeat case_match. Qed.

Lemma isStopRequested_neutral s s' b : isStopRequested s = (s', b) → neutral s s'.
Proof.
  unfold isStopRequested. intros Hs. repeat case_match; simplify_eq; try reflexivity. apply stopExecutionAsync_neutral.
Qed.

Lemma scheduleDeferredRetry_neutral s i d : neutral s (scheduleDeferredRetry s i d).
Proof.
  unfold scheduleDeferredRetry. repeat case_match; try reflexivity.
  etrans; [by apply (neutral_upd s i (λ nd, nd_set_defer_pending nd true))|]. by intros gh.
Qed.

Lemma gatherNodeInputs_neutral s i g ok : gatherNodeInputs cfg s i = Some (g, ok) → neutral s (ga_engine g).
Proof.
  apply gatherNodeInputs_closed; [split; apply _| | | | |].
  - intros s0 k. destruct (queue_pop s0 i k) as [s1 r] eqn:Hp. by eapply queue_pop_neutral.
  - intros. apply neutral_bump.
  - intros. by apply neutral_observe.
  - intros. apply neutral_sync.
  - intros. by apply neutral_upd.
Qed.

(** ** Operations that follow the rules *)

Lemma abs_set_exec gh s i x :
  abs gh (set_exec s i x) = mkView (vset i x (abs_node <$> e_nodes s)) (e_pool s) (e_activeTasks s)
    (e_completionReported s) (e_endOfStreamReached s) (omap mark_of (e_log s)) gh.
Proof.
  unfold abs, set_exec, upd_node; simpl. f_equal. apply list_eq. intros j. unfold vset.
  rewrite list_lookup_fmap, !list_lookup_alter, !list_lookup_fmap.
  destruct (decide (i = j)) as [<-|]; [by destruct (e_nodes s !! i)|done].
Qed.

Lemma lookup_abs s i nd : stateByIndex s i = Some nd → (abs_node <$> e_nodes s) !! i = Some (abs_node nd).
Proof. unfold stateByIndex. intros Hi. by rewrite list_lookup_fmap, Hi. Qed.

Lemma vset_same i x ns n : ns !! i = Some n → vn_state n = x → vset i x ns = ns.
Proof.
  intros Hi Hx. apply list_eq. intros j. rewrite lookup_vset. destruct (ns !! j) as [m|] eqn:Hj; [|done]. simpl.
  destruct (decide (i = j)) as [<-|]; [|done]. simplify_eq. by destruct n.
Qed.

Lemma vset_vset i x y ns : vset i x (vset i y ns) = vset i x ns.
Proof.
  apply list_eq. intros j. rewrite !lookup_vset. destruct (ns !! j); [|done]. simpl. by destruct (decide (i = j)).
Qed.

Lemma checkCompletion_sim s : sim s (checkCompletionAndNotify cg sched s).
Proof.
  unfold checkCompletionAndNotify. destruct (e_streamingMode s); [done|].
  case_decide as Ha; [done|]. destruct (cs_is_complete _); [|done].
  destruct (e_completionReported s) eqn:Hr; [done|]. intros gh. apply rtc_once.
  assert (e_activeTasks s = 0%Z) as H0 by (destruct (decide (e_activeTasks s = 0%Z)); tauto).
  case_decide; unfold abs; simpl; rewrite omap_app; simpl; rewrite Hr; by constructor.
Qed.

Lemma scheduleNodeExecution_sim s i : sim s (scheduleNodeExecution cg sched s i).
Proof.
  unfold scheduleNodeExecution. destruct (stateByIndex s i) as [nd|] eqn:Hi; [|done].
  case_decide as Hw; [done|]. assert (nd_exec_state nd = WAITING) as Hw' by (destruct (nd_exec_state nd); tauto).
  apply lookup_abs in Hi as Hv. change (e_accepting (add_active (set_exec s i READY) 1)) with (e_accepting s).
  destruct (e_accepting s).
  - intros gh. apply rtc_once. pose proof (abs_set_exec gh s i READY) as He. unfold abs in He. injection He as He.
    unfold abs; simpl. simpl in He. rewrite He. by econstructor.
  - etrans; [|apply checkCompletion_sim]. apply neutral_sim. intros gh.
    pose proof (abs_set_exec gh (add_active (set_exec s i READY) 1) i WAITING) as H1.
    pose proof (abs_set_exec gh s i READY) as H2. unfold abs in *; simpl in *. injection H1 as H1. injection H2 as H2.
    rewrite H1, H2, vset_vset. erewrite vset_same; [|done|done]. f_equal. lia.
Qed.

Lemma foldl_option_sim {A} (f : option Engine → A → option Engine) l s s' :
  (∀ a, f None a = None) → (∀ s0 a s1, f (Some s0) a = Some s1 → sim s0 s1) →
  foldl f (Some s) l = Some s' → sim s s'.
Proof.
  intros Hn Hf. revert s. induction l as [|a l IH]; intros s; simpl; [by intros [= <-]|].
  destruct (f (Some s) a) as [s1|] eqn:Ha.
  - intros Hl. etrans; [by eapply Hf|by apply IH].
  - clear IH. induction l as [|a' l IHl]; simpl; [done|]. by rewrite Hn.
Qed.

Section WithCheck.
Context (check : Engine → nat → option (Engine * bool)).
Context (Hcheck : ∀ s i s' b, check s i = Some (s', b) → sim s s').

Lemma tryScheduleNode_with_sim s i s' : tryScheduleNode_with cg sched check s i = Some s' → sim s s'.
Proof using Hcheck.
  unfold tryScheduleNode_with. destruct (isStopRequested s) as [s1 stop] eqn:Hs. apply isStopRequested_neutral, neutral_sim in Hs.
  destruct stop; [by intros [= <-]|]. destruct (stateByIndex s1 i) as [nd|]; [|by intros [= <-]].
  case_decide as Hw; [by intros [= <-]|]. destruct (allInputPortsDrained nd).
  - destruct (check s1 i) as [[s2 b]|] eqn:Hc; simpl; [|done]. intros [= <-]. etrans; [exact Hs|by eapply Hcheck].
  - destruct (sr_decision _); intros [= <-]; try done.
    + etrans; [exact Hs|apply scheduleNodeExecution_sim].
    + etrans; [exact Hs|]. apply neutral_sim, scheduleDeferredRetry_neutral.
Qed.

Lemma propagate_edge_sim m s e s' : propagate_edge cg sched check m (Some s) e = Some s' → sim s s'.
Proof using Hcheck.
  unfold propagate_edge. cbn [mbind option_bind].
  destruct (pm_find m _) as [x|]; [|by intros [= <-]]. destruct (stateByIndex s _) as [dest|]; [|by intros [= <-]].
  destruct (oe_dest_port_index e) as [k|]; [|by intros [= <-]]. destruct (nd_queues dest !! k); [|by intros [= <-]].
  destruct (queue_push s _ k x) as [s1 ok] eqn:Hq. apply queue_push_neutral, neutral_sim in Hq.
  destruct ok; intros Hs; etrans; [exact Hq| |exact Hq|].
  - by apply tryScheduleNode_with_sim in Hs.
  - injection Hs as <-. apply neutral_sim, recordQueueRejection_neutral.
Qed.

Lemma propagateOutputs_with_sim s i m s' : propagateOutputs_with cg sched check s i m = Some s' → sim s s'.
Proof using Hcheck.
  unfold propagateOutputs_with. destruct (e_stopFlag s); [by intros [= <-]|].
  apply foldl_option_sim; [done|]. intros s0 e s1. apply propagate_edge_sim.
Qed.

Lemma latchPortEos_with_sim s i k s' : latchPortEos_with check s i k = Some s' → sim s s'.
Proof using Hcheck.
  unfold latchPortEos_with. destruct k as [k|]; [|by intros [= <-]]. case_decide; [by intros [= <-]|].
  destruct (check _ i) as [[s1 b]|] eqn:Hc; simpl; [|done]. intros [= <-].
  etrans; [|by eapply Hcheck]. by apply neutral_sim, neutral_upd.
Qed.
End WithCheck.

Lemma recordSinkEndOfStream_sim s : sim s (recordSinkEndOfStream cg s).
Proof.
  unfold recordSinkEndOfStream. set (s1 := e_set_sinksAtEos s _). assert (neutral s s1) as H1 by (by intros gh).
  case_decide; [by apply neutral_sim|]. destruct (e_endOfStreamReached s1) eqn:He; [by apply neutral_sim|].
  etrans; [by apply neutral_sim|]. intros gh. apply rtc_once. unfold abs; simpl. rewrite omap_app. simpl.
  simpl in He. rewrite He. constructor.
Qed.

Context (onEndOfStream : list Event → NodePtr → Outcome) (elapsed : list Event → Z).

Lemma run_flush_abs s nd s' m gh : run_flush onEndOfStream elapsed s nd = (s', m) →
  abs gh s' = mkView (abs_node <$> e_nodes s) (e_pool s) (e_activeTasks s) (e_completionReported s)
    (e_endOfStreamReached s) (omap mark_of (e_log s) ++ [MFlush (nd_node nd)]) gh.
Proof.
  unfold run_flush. set (s1 := e_set_now _ _).
  assert (∀ gh, abs gh s1 = mkView (abs_node <$> e_nodes s) (e_pool s) (e_activeTasks s) (e_completionReported s)
    (e_endOfStreamReached s) (omap mark_of (e_log s) ++ [MFlush (nd_node nd)]) gh) as H1.
  { intros gh0. unfold abs; simpl. by rewrite omap_app. }
  destruct (onEndOfStream _ _) as [m'|w]; intros [= <- <-]; [exact (H1 gh)|]. rewrite <-H1.
  assert (neutral s1 (observe (bump s1 (λ t, es_add_failed_executions t 1))
    (EvError ("onEndOfStream: " +:+ default "unknown exception" w) (nd_name nd)))) as Hn.
  { etrans; [apply neutral_bump|by apply neutral_observe]. }
  apply Hn.
Qed.

Lemma abs_claim_eos gh s i :
  abs gh (upd_node s i (λ nd, nd_set_eos_propagated (nd_set_exec_state nd EXECUTING) true)) =
  mkView (vclaim_eos i (abs_node <$> e_nodes s)) (e_pool s) (e_activeTasks s)
    (e_completionReported s) (e_endOfStreamReached s) (omap mark_of (e_log s)) gh.
Proof.
  unfold abs, upd_node; simpl. f_equal. apply list_eq. intros j. unfold vclaim_eos.
  rewrite list_lookup_fmap, !list_lookup_alter, !list_lookup_fmap.
  destruct (decide (i = j)) as [<-|]; [by destruct (e_nodes s !! i)|done].
Qed.

(** A flush in progress ends. *)
Lemma flushed_step s i ru fl ex :
  rtc vstep (abs (mkGhost ru (fl ++ [i]) ex) s) (abs (mkGhost ru fl ex) (set_exec s i COMPLETED)).
Proof.
  apply rtc_once. rewrite abs_set_exec. unfold abs.
  assert (delete (length fl) (fl ++ [i]) = fl) as Hd by (by rewrite delete_middle, app_nil_r).
  rewrite <-Hd at 2. econstructor. by rewrite list_lookup_middle.
Qed.

Notation checkNodeEndOfStream := (checkNodeEndOfStream cg sched onEndOfStream elapsed).

Lemma checkNodeEndOfStream_sim fuel s i s' b : checkNodeEndOfStream fuel s i = Some (s', b) → sim s s'.
Proof.
  revert s i s' b. induction fuel as [|fuel IH]; intros s i s' b; [done|]. cbn [Engine.checkNodeEndOfStream].
  destruct (negb (e_streamingMode s) || e_stopFlag s); [by intros [= <- _]|].
  destruct (stateByIndex s i) as [nd|] eqn:Hi; [|by intros [= <- _]].
  destruct (nd_eos_propagated nd) eqn:Hp; [by intros [= <- _]|].
  destruct (negb (allInputPortsDrained nd)); [by intros [= <- _]|].
  destruct (claimable (nd_exec_state nd)) eqn:Hc; [|by intros [= <- _]]. simpl.
  set (s1 := upd_node s i _). destruct (run_flush onEndOfStream elapsed s1 nd) as [s2 m] eqn:Hf.
  set (r := match m with [] => _ | _ => _ end). destruct r as [s3|] eqn:Hr; [|done]. cbn [mbind option_bind].
  assert (sim s2 s3) as H23.
  { subst r. destruct m as [|e m]; [by simplify_eq|].
    eapply propagateOutputs_with_sim in Hr; [|exact IH]. etrans; [|exact Hr]. apply neutral_sim.
    by destruct (isSink cg i). }
  destruct (foldl _ (Some (set_exec s3 i COMPLETED)) _) as [s4|] eqn:Hl; [|done]. cbn [mbind option_bind].
  assert (sim (set_exec s3 i COMPLETED) s4) as H34.
  { eapply foldl_option_sim; [| |exact Hl]; [done|]. intros s0 e s5. cbn [mbind option_bind].
    destruct (stateByIndex s0 _); [|by intros [= <-]]. apply latchPortEos_with_sim. exact IH. }
  intros [= <- _]. etrans; [|destruct (isSink cg i); [apply recordSinkEndOfStream_sim|reflexivity]].
  etrans; [|exact H34]. intros [ru fl ex]. etrans; [|apply (flushed_step s3 i ru fl ex)].
  etrans; [|apply H23]. apply rtc_once. rewrite (run_flush_abs _ _ _ _ _ Hf).
  pose proof (f_equal v_nodes (abs_claim_eos (mkGhost ru fl ex) s i)) as H1. simpl in H1.
  assert (abs_node <$> e_nodes s1 = vclaim_eos i (abs_node <$> e_nodes s)) as -> by exact H1.
  apply lookup_abs in Hi. change (nd_node nd) with (vn_node (abs_node nd)).
  econstructor; [exact Hi|done|]. simpl. destruct (nd_exec_state nd); simpl in Hc; set_solver.
Qed.

Lemma checkEos_sim s i s' b : checkEos cg sched onEndOfStream elapsed s i = Some (s', b) → sim s s'.
Proof. apply checkNodeEndOfStream_sim. Qed.

Notation tryScheduleNode := (tryScheduleNode cg sched onEndOfStream elapsed).

Lemma tryScheduleNode_sim s i s' : tryScheduleNode s i = Some s' → sim s s'.
Proof. apply tryScheduleNode_with_sim. intros ????. apply checkEos_sim. Qed.

Lemma propagateOutputs_sim s i m s' : propagateOutputs cg sched onEndOfStream elapsed s i m = Some s' → sim s s'.
Proof. apply propagateOutputs_with_sim. intros ????. apply checkEos_sim. Qed.

(** ** A task *)

Lemma set_exec_releases s i x : x ∈ [WAITING; COMPLETED; FAILED] → releases i s (set_exec s i x).
Proof.
  intros Hx ru fl ex. apply rtc_once. rewrite abs_set_exec. unfold abs.
  assert (delete (length ru) (ru ++ [i]) = ru) as Hd by (by rewrite delete_middle, app_nil_r).
  rewrite <-Hd at 2. econstructor; [|exact Hx]. by rewrite list_lookup_middle.
Qed.

Lemma handleNodeSuccess_releases s i nd m s' :
  handleNodeSuccess cg sched onEndOfStream elapsed s i nd m = Some s' → releases i s s'.
Proof.
  unfold handleNodeSuccess. set (s1 := upd_node s i _). set (s2 := bump s1 _).
  assert (neutral s s2) as H2 by (etrans; [|apply (neutral_bump s1)]; by apply neutral_upd).
  set (s3 := if isSink cg i then _ else s2).
  assert (neutral s s3) as H3 by (unfold s3; destruct (isSink cg i); [|done]; intros gh; by rewrite <-H2).
  destruct (propagateOutputs _ _ _ _ s3 i m) as [s4|] eqn:Hp; [|done]. apply propagateOutputs_sim in Hp.
  assert (sim s s4) as H4 by (etrans; [by apply neutral_sim|done]). cbn [mbind option_bind].
  destruct (trace_propagation_frame s4 nd m (e_now s3)) as [sink ->]. change (sim s (e_set_traceSink s4 sink)) in H4.
  destruct (onNodeComplete sched true).
  - intros Ht. eapply sim_releases; [exact H4|apply (set_exec_releases _ _ WAITING); set_solver|].
    by eapply tryScheduleNode_sim.
  - intros [= <-]. eapply sim_releases; [exact H4|apply (set_exec_releases _ _ COMPLETED); set_solver|reflexivity].
Qed.

Lemma handleNodeFailure_releases s i s' :
  handleNodeFailure cg sched onEndOfStream elapsed s i = Some s' → releases i s s'.
Proof.
  unfold handleNodeFailure. set (s1 := bump s _). assert (sim s s1) as H1 by (apply neutral_sim, neutral_bump).
  destruct (e_streamingMode s1).
  - intros Ht. eapply sim_releases; [exact H1|apply (set_exec_releases _ _ WAITING); set_solver|].
    by eapply tryScheduleNode_sim.
  - intros [= <-]. eapply sim_releases; [exact H1|apply (set_exec_releases _ _ FAILED); set_solver|].
    apply neutral_sim, stopExecutionAsync_neutral.
Qed.

Lemma task_done_step s ru fl ex :
  rtc vstep (abs (mkGhost ru fl (S ex)) s) (abs (mkGhost ru fl ex) (task_done cg sched s)).
Proof.
  unfold task_done. etrans; [|apply checkCompletion_sim]. apply rtc_once. unfold abs; simpl.
  rewrite <-Z.sub_opp_r. constructor.
Qed.

Context (process : list Event → NodePtr → PortDataMap → Outcome).
Context (deref : NodePtr → ILogicNode).
Notation executeNodeTask := (executeNodeTask cfg cg sched process onEndOfStream elapsed).
Notation run_node := (run_node cfg cg sched process onEndOfStream elapsed).
Notation run_task := (run_task cfg cg sched process onEndOfStream elapsed).

(** A call of [process] by the worker that owns the node. *)
Lemma processNode_step s i nd m s' r gh n :
  processNode process elapsed s nd m = (s', r) → i ∈ gh_running gh →
  (abs_node <$> e_nodes s) !! i = Some n → vn_node n = nd_node nd → rtc vstep (abs gh s) (abs gh s').
Proof.
  unfold processNode. intros Hp Hi Hn Hnode. set (s1 := e_set_now _ _) in Hp.
  assert (rtc vstep (abs gh s) (abs gh s1)) as H1.
  { apply rtc_once. unfold abs; simpl. rewrite omap_app. simpl. rewrite <-Hnode. by econstructor. }
  destruct (process _ _ _) as [m'|w]; simplify_eq; [done|].
  pose proof (neutral_observe s1 (EvError (default "Unknown exception"%string w) (nd_name nd)) eq_refl gh) as Hobs.
  by rewrite Hobs.
Qed.

(** The task once it has its inputs: process, give the node back, count down. *)
Lemma run_node_steps s i nd m s' n ru fl ex :
  run_node s i nd m = Some s' → (abs_node <$> e_nodes s) !! i = Some n → vn_node n = nd_node nd →
  rtc vstep (abs (mkGhost (ru ++ [i]) fl ex) s) (abs (mkGhost ru fl ex) s').
Proof.
  unfold Engine.run_node, run_node_with. intros Hr Hn Hnode. set (s0 := bump s _) in Hr.
  destruct (processNode process elapsed s0 nd m) as [s1 r] eqn:Hp.
  eapply (processNode_step s0 i _ _ _ _ (mkGhost (ru ++ [i]) fl ex)) in Hp; [|simpl; set_solver|exact Hn|exact Hnode].
  etrans; [exact Hp|]. set (t1 := emitTrace s1 _ _ _ _ _ _) in Hr. set (s2 := bump t1 _) in Hr.
  set (s3 := if ec_enable_statistics cfg then _ else s2) in Hr.
  assert (neutral s1 s3) as H13.
  { etrans; [by apply (neutral_bump t1)|]. fold s2. unfold s3.
    destruct (ec_enable_statistics cfg); [by apply neutral_upd|reflexivity]. }
  set (o := if e_stopFlag s3 then _ else _) in Hr. destruct o as [s4|] eqn:Ho; [|done]. cbn [mbind option_bind] in Hr.
  assert (releases i s3 s4) as H34.
  { subst o. destruct (e_stopFlag s3); [injection Ho as <-; apply set_exec_releases; set_solver|].
    destruct r as [m'|]; [|by apply handleNodeFailure_releases]. apply handleNodeSuccess_releases in Ho.
    eapply sim_releases; [|exact Ho|reflexivity]. apply neutral_sim.
    etrans; [apply record_latency_neutral|apply mark_processed_neutral]. }
  rewrite <-H13. etrans; [apply H34|].
  destruct (checkEos _ _ _ _ s4 i) as [[s5 b]|] eqn:Hc; [|done]. simpl in Hr. injection Hr as <-.
  etrans; [by eapply checkEos_sim|apply task_done_step].
Qed.

(** The task whose inputs were not there after all. *)
Lemma unready_steps s i s' ru fl ex :
  (if e_streamingMode s && negb (e_stopFlag s) then
     '(s1, at_eos) ← checkEos cg sched onEndOfStream elapsed (set_exec s i WAITING) i;
     s2 ← (if (at_eos : bool) then Some s1 else tryScheduleNode s1 i);
     Some (task_done cg sched s2)
   else (s1 ← handleNodeFailure cg sched onEndOfStream elapsed s i; Some (task_done cg sched s1))) = Some s' →
  rtc vstep (abs (mkGhost (ru ++ [i]) fl ex) s) (abs (mkGhost ru fl ex) s').
Proof.
  intros Hr. destruct (e_streamingMode s && negb (e_stopFlag s)).
  - destruct (checkEos _ _ _ _ _ i) as [[s1 b]|] eqn:Hc; [|done]. cbn [mbind option_bind] in Hr. apply checkEos_sim in Hc.
    set (o := if b then _ else _) in Hr. destruct o as [s2|] eqn:Ho; [|done]. simpl in Hr. injection Hr as <-.
    assert (sim s1 s2) as H12.
    { subst o. destruct b; [by injection Ho as ->|by eapply tryScheduleNode_sim]. }
    etrans; [|apply task_done_step].
    eapply (sim_releases i s s (set_exec s i WAITING)); [done|apply set_exec_releases; set_solver|by etrans].
  - destruct (handleNodeFailure _ _ _ _ s i) as [s1|] eqn:Ho; [|done]. simpl in Hr. injection Hr as <-.
    etrans; [|apply task_done_step]. by apply handleNodeFailure_releases.
Qed.

Lemma nodes_set_exec s i x : abs_node <$> e_nodes (set_exec s i x) = vset i x (abs_node <$> e_nodes s).
Proof. exact (f_equal v_nodes (abs_set_exec no_ghost s i x)). Qed.

Lemma neutral_nodes s s' : neutral s s' → abs_node <$> e_nodes s' = abs_node <$> e_nodes s.
Proof. intros Hn. exact (f_equal v_nodes (Hn no_ghost)). Qed.

(** A task in the pool is for a READY node. *)
Lemma posted_node gh s k i :
  lifecycle_inv (abs gh s) → e_pool s !! k = Some i →
  ∃ nd, stateByIndex s i = Some nd ∧ nd_exec_state nd = READY.
Proof.
  intros I Hk. pose proof (li_owner _ I) as O. simpl in O.
  assert (i ∈ e_pool s) as Hin by (by eapply list_elem_of_lookup_2).
  destruct (owner_node _ _ _ _ O i) as [n Hn]; [apply elem_of_app; by left|].
  apply (oi_ready _ _ _ _ O i n Hn) in Hin. rewrite list_lookup_fmap in Hn.
  apply fmap_Some in Hn as (nd & Hnd & ->). by exists nd.
Qed.

(** A posted task, from the moment a worker takes it until its last decrement. *)
Lemma run_task_steps s k s' gh :
  run_task s k = Some s' → lifecycle_inv (abs gh s) → rtc vstep (abs gh s) (abs gh s').
Proof.
  unfold Engine.run_task. destruct (e_pool s !! k) as [i|] eqn:Hk; [|by intros [= <-]]. intros Hr I.
  destruct (posted_node _ _ _ _ I Hk) as (nd & Hnd & Hready).
  destruct (pick_up_frame cfg s k i) as (stats & sink & Hs0). rewrite Hs0 in Hr. set (s0 := e_set_traceSink _ _) in Hr.
  unfold Engine.executeNodeTask, executeNodeTask_with in Hr.
  change (stateByIndex s0 i) with (stateByIndex s i) in Hr. rewrite Hnd in Hr.
  destruct (isStopRequested s0) as [s1 stop] eqn:Hstop. apply isStopRequested_neutral in Hstop.
  destruct gh as [ru fl ex]. pose proof (lookup_abs s i nd Hnd) as Hv.
  pose proof (Hstop (mkGhost ru fl ex)) as Ha. unfold abs in Ha. injection Ha as Hnodes Hpool Hact Hrep Heos Htr.
  destruct stop.
  { injection Hr as <-. etrans; [|apply task_done_step]. apply rtc_once.
    rewrite abs_set_exec, Hnodes, Hpool, Hact, Hrep, Heos, Htr. by constructor. }
  rewrite decide_False in Hr by (rewrite Hready; tauto). set (s2 := set_exec s1 i EXECUTING) in Hr.
  assert (rtc vstep (abs (mkGhost ru fl ex) s) (abs (mkGhost (ru ++ [i]) fl ex) s2)) as H2.
  { apply rtc_once. unfold s2. rewrite abs_set_exec, Hnodes, Hpool, Hact, Hrep, Heos, Htr. by econstructor. }
  etrans; [exact H2|]. destruct (gatherNodeInputs cfg s2 i) as [[g ok]|] eqn:Hg; [|done]. cbn [mbind option_bind] in Hr.
  apply gatherNodeInputs_neutral in Hg. rewrite <-(Hg (mkGhost (ru ++ [i]) fl ex)). destruct ok; [|by apply unready_steps].
  eapply (run_node_steps _ _ _ _ _ (mkVNode (nd_node nd) EXECUTING (nd_eos_propagated nd) (wired nd))); [exact Hr| |reflexivity].
  rewrite (neutral_nodes _ _ Hg).
  unfold s2. rewrite nodes_set_exec, (neutral_nodes _ _ Hstop). by apply (lookup_vset_eq i EXECUTING _ (abs_node nd)).
Qed.

(** ** The external interface *)

Lemma route_edge_sim port data acc e s' z :
  route_edge cg sched onEndOfStream elapsed port data acc e = Some (s', z) →
  ∃ s z0, acc = Some (s, z0) ∧ sim s s'.
Proof.
  unfold route_edge. destruct acc as [[s [[a b] c]]|]; [|done]. cbn [mbind option_bind]. intros Hr.
  exists s, (a, b, c). split; [done|]. case_decide; [by simplify_eq|].
  destruct (stateByIndex s _); [|by simplify_eq].
  destruct (pushToQueue s _ _ data) as [s1 ok] eqn:Hp. apply pushToQueue_neutral, neutral_sim in Hp.
  destruct ok; [|by simplify_eq]. set (s2 := bump s1 _) in Hr.
  destruct (Engine.tryScheduleNode _ _ _ _ s2 _) as [s3|] eqn:Ht; [|done]. cbn [mbind option_bind] in Hr. simplify_eq.
  apply tryScheduleNode_sim in Ht. etrans; [exact Hp|]. etrans; [apply neutral_sim, (neutral_bump s1)|exact Ht].
Qed.

Lemma routeToDownstream_sim s p port data s' r :
  routeToDownstream deref cg sched onEndOfStream elapsed s p port data = Some (s', r) → sim s s'.
Proof.
  unfold routeToDownstream. destruct (indexOfPtr cg p) as [i|]; [|by intros [= <- _]].
  destruct (foldl _ _ _) as [[s1 [[a b] c]]|] eqn:Hf; [|done]. cbn [mbind option_bind]. intros [= <- _].
  enough (∀ l acc s1 z, foldl (route_edge cg sched onEndOfStream elapsed port data) acc l = Some (s1, z) →
    ∃ s z0, acc = Some (s, z0) ∧ sim s s1) as Hall by (apply Hall in Hf as (? & ? & [= <- _] & ?); done).
  clear. intros l. induction l as [|e l IH]; intros acc s1 z; simpl; [intros ->; by exists s1, z|].
  intros (s0 & z0 & He & Hsim)%IH. apply route_edge_sim in He as (s & z1 & -> & H0). exists s, z1. split; [done|by etrans].
Qed.

Lemma pushInput_sim s src port data s' r :
  pushInput deref cfg cg sched onEndOfStream elapsed s src port data = Some (s', r) → sim s s'.
Proof.
  unfold pushInput. destruct (negb _ && _); [by intros [= <- _]|].
  destruct (stateByName _ _ _) as [i|]; [|by intros [= <- _]].
  destruct (stateByIndex s i) as [nd|]; [|by intros [= <- _]].
  case_decide; [by intros [= <- _]|]. destruct (isInputPort _ _ _).
  - destruct (match port_index _ _ with Some _ => _ | None => _ end); [by intros [= <- _]|].
    destruct (stampIncomingFrame cfg s data) as [s1 x] eqn:Hst. apply stampIncomingFrame_neutral, neutral_sim in Hst.
    destruct (pushToQueue s1 _ _ x) as [s2 ok] eqn:Hp. apply pushToQueue_neutral, neutral_sim in Hp.
    destruct ok; [|intros [= <- _]; by etrans]. set (s3 := bump s2 _).
    destruct (Engine.tryScheduleNode _ _ _ _ s3 _) as [s4|] eqn:Ht; [|done]. cbn [mbind option_bind]. intros [= <- _].
    apply tryScheduleNode_sim in Ht. etrans; [exact Hst|]. etrans; [exact Hp|].
    etrans; [apply neutral_sim, (neutral_bump s2)|exact Ht].
  - destruct (isOutputPort _ _ _); [apply routeToDownstream_sim|by intros [= <- _]].
Qed.

Lemma signalEndOfStream_sim s src port s' r :
  signalEndOfStream cg sched onEndOfStream elapsed s src port = Some (s', r) → sim s s'.
Proof.
  unfold signalEndOfStream. destruct (negb _); [by intros [= <- _]|].
  destruct (stateByName _ _ _) as [i|]; [|by intros [= <- _]].
  destruct (stateByIndex s i) as [nd|]; [|by intros [= <- _]].
  destruct (nd_input_ports nd) as [|first l]; [by intros [= <- _]|].
  destruct (port_index _ _) as [k|]; [|by intros [= <- _]].
  case_decide; [by intros [= <- _]|]. destruct (portEosLatched nd k); [by intros [= <- _]|].
  set (s1 := upd_node s i _). destruct (checkEos _ _ _ _ s1 i) as [[s2 b]|] eqn:Hc; [|done]. cbn [mbind option_bind].
  apply checkEos_sim in Hc. set (o := if b then _ else _). destruct o as [s3|] eqn:Ho; [|done].
  cbn [mbind option_bind]. intros [= <- _].
  assert (sim s s1) as H1 by (by apply neutral_sim, neutral_upd). etrans; [exact H1|]. etrans; [exact Hc|]. subst o. destruct b; [by injection Ho as ->|by eapply tryScheduleNode_sim].
Qed.

Lemma defer_fire_sim s k s' : defer_fire cg sched onEndOfStream elapsed s k = Some s' → sim s s'.
Proof.
  unfold defer_fire. destruct (e_deferQueue s !! k) as [[due i]|]; [|by intros [= <-]].
  case_decide; [|by intros [= <-]]. set (s1 := e_set_deferQueue s _). assert (neutral s s1) as H1 by (by intros gh).
  destruct (stateByIndex s1 i); [|intros [= <-]; by apply neutral_sim]. intros Ht. apply tryScheduleNode_sim in Ht.
  etrans; [by apply neutral_sim|]. etrans; [|exact Ht]. apply neutral_sim. by apply (neutral_upd s1 i).
Qed.

Lemma watchdog_node_sim s i : sim s (watchdog_node cfg cg sched s i).
Proof.
  unfold watchdog_node. destruct (stateByIndex s i) as [nd|]; [|done].
  case_decide; [by apply neutral_sim, neutral_upd|]. case_decide; [by apply neutral_sim, neutral_upd|].
  case_decide; [done|]. etrans; [|apply scheduleNodeExecution_sim]. by apply neutral_sim, neutral_upd.
Qed.

Lemma watchdog_scan_sim s : sim s (watchdog_scan cfg cg sched s).
Proof.
  unfold watchdog_scan. destruct (e_stopFlag s); [done|]. generalize (filter (λ i, match stateByIndex s i with
    | Some nd => bool_decide (1 < length (nd_input_ports nd))%nat | None => false end = true) (seq 0 (length (e_nodes s)))).
  intros l. generalize s. induction l as [|i l IH]; intros s0; simpl; [done|]. etrans; [apply watchdog_node_sim|apply IH].
Qed.

Lemma distributeInitialInputs_sim s m s' b :
  distributeInitialInputs cfg cg sched onEndOfStream elapsed s m = Some (s', b) → sim s s'.
Proof.
  unfold distributeInitialInputs. destruct (foldl _ _ _) as [[s1 h]|] eqn:Hf; [|done]. cbn [mbind option_bind].
  intros [= <- _].
  enough (∀ l acc s1 h, foldl (distribute_source cfg cg sched onEndOfStream elapsed m) acc l = Some (s1, h) →
    ∃ s h0, acc = Some (s, h0) ∧ sim s s1) as Hall by (apply Hall in Hf as (? & ? & [= <- _] & ?); done).
  clear. intros l. induction l as [|i l IH]; intros acc s1 h; simpl; [intros ->; by exists s1, h|].
  intros (s2 & h2 & He & Hsim)%IH. unfold distribute_source in He. destruct acc as [[s h0]|]; [|done].
  exists s, h0. split; [done|]. etrans; [|exact Hsim]. clear IH Hsim. cbn [mbind option_bind] in He.
  assert (∀ s0 s3 (b : option bool), (s4 ← tryScheduleNode s0 i; Some (s4, b)) = Some (s3, h2) → sim s0 s3) as Htry.
  { intros s0 s3 b Ht. destruct (Engine.tryScheduleNode _ _ _ _ s0 i) as [s4|] eqn:Hs; [|done].
    cbn [mbind option_bind] in Ht. simplify_eq. by eapply tryScheduleNode_sim. }
  destruct h0 as [has|]; [|by simplify_eq]. destruct (stateByIndex s i) as [nd|]; [|by simplify_eq].
  destruct (pm_find m (nd_name nd)) as [x|].
  - destruct (stampIncomingFrame cfg s x) as [s3 x3] eqn:Hst. apply stampIncomingFrame_neutral, neutral_sim in Hst.
    etrans; [exact Hst|]. destruct (nd_input_ports nd) as [|port ports]; [by eapply Htry|].
    destruct (pushToQueue s3 _ _ x3) as [s4 ok] eqn:Hp. apply pushToQueue_neutral, neutral_sim in Hp.
    etrans; [exact Hp|]. destruct ok; [|by simplify_eq]. apply Htry in He.
    etrans; [apply neutral_sim, (neutral_bump s4)|exact He].
  - destruct (nd_input_ports nd); [by eapply Htry|by simplify_eq].
Qed.
End Sim.
