(* ===== verification/EngineTermination.v ===== *)
(** * The engine's operations terminate

    The end-of-stream cascade recurses into the nodes downstream, the scheduler
    into the cascade; the aligned gather loops until the heads agree.  The model
    gives each of them fuel and answers [None] when it runs out.  Here it never
    does: a cascade marks a node before it recurses and no step of the machine of
    [NodeLifecycle.v] unmarks one, and the gather of [FrameAlignment.v] takes a
    packet off a queue in each round. *)

From S2P Require Import Prelude Errors Packets Graphs CompiledGraphs MpmcQueue NodeQueue FrameAlignment.
From S2P Require Import SyncCoordinator JoinAwareSync ExecutionTypes Schedulers EngineCore EngineGather.
From S2P Require Import Engine.
From S2P Require Import NodeLifecycle EngineSim.
Local Open Scope list_scope.
Local Open Scope nat_scope.

(** ** The measure *)

Definition pending_flush (ns : list VNode) : nat := length (filter (λ n, vn_propagated n = false) ns).

Lemma pending_alter (f : VNode → VNode) i ns n :
  ns !! i = Some n → pending_flush (alter f i ns) + (if vn_propagated n then 0 else 1) =
    pending_flush ns + (if vn_propagated (f n) then 0 else 1).
Proof.
  unfold pending_flush. revert i. induction ns as [|m ns IH]; intros i Hi; [done|]. destruct i as [|i].
  - injection Hi as ->. simpl. rewrite !filter_cons. destruct (vn_propagated n) eqn:Hn, (vn_propagated (f n)) eqn:Hf;
    repeat case_decide; simpl; congruence || lia.
  - change (alter f (S i) (m :: ns)) with (m :: alter f i ns). rewrite !filter_cons. specialize (IH i Hi).
    case_decide; simpl; lia.
Qed.

Lemma pending_alter_le (f : VNode → VNode) i ns :
  (∀ n, vn_propagated n = true → vn_propagated (f n) = true) → pending_flush (alter f i ns) ≤ pending_flush ns.
Proof.
  intros Hf. destruct (ns !! i) as [n|] eqn:Hi.
  - pose proof (pending_alter f i ns n Hi) as Hp. specialize (Hf n).
    destruct (vn_propagated n), (vn_propagated (f n)); lia || by specialize (Hf eq_refl).
  - assert (alter f i ns = ns) as ->; [|done]. apply list_eq. intros j. rewrite list_lookup_alter.
    case_decide; [by subst; rewrite Hi|done].
Qed.

Lemma vstep_pending v v' : vstep v v' → pending_flush (v_nodes v') ≤ pending_flush (v_nodes v).
Proof. destruct 1; simpl; unfold vset, vclaim_eos; try reflexivity; by apply pending_alter_le. Qed.

Lemma vsteps_pending v v' : rtc vstep v v' → pending_flush (v_nodes v') ≤ pending_flush (v_nodes v).
Proof. induction 1 as [|v1 v2 v3 H12 _ IH]; [done|]. apply vstep_pending in H12. lia. Qed.

Section Termination.
Context `{CppTypes} {Q Sy : Type} `{!PortQueue Q, !PortQueueLaws Q, !SyncStrategy Sy}.
Context (cfg : EngineConfig) (cg : CompiledGraph) (sched : SchedulerStrategy).
Notation Engine := (Engine Q Sy).
Implicit Types (s : Engine).

Definition pending s : nat := pending_flush (abs_node <$> e_nodes s).

Lemma sim_pending s s' : sim s s' → pending s' ≤ pending s.
Proof. intros Hs. exact (vsteps_pending _ _ (Hs no_ghost)). Qed.

Lemma neutral_pending s s' : neutral s s' → pending s' = pending s.
Proof. intros Hn. unfold pending. by rewrite (neutral_nodes _ _ Hn). Qed.

Lemma pending_le_nodes s : pending s ≤ length (e_nodes s).
Proof. unfold pending, pending_flush. rewrite length_filter, length_fmap. done. Qed.

(** ** The cascade *)

Section WithCheck.
Context (bound : nat) (check : Engine → nat → option (Engine * bool)).
Context (Hsim : ∀ s i s' b, check s i = Some (s', b) → sim s s').
Context (Htotal : ∀ s i, pending s ≤ bound → is_Some (check s i)).

Lemma tryScheduleNode_with_total s i : pending s ≤ bound → is_Some (tryScheduleNode_with cg sched check s i).
Proof using Htotal.
  intros Hp. unfold tryScheduleNode_with. destruct (isStopRequested s) as [s1 stop] eqn:Hs.
  apply isStopRequested_neutral, neutral_pending in Hs. destruct stop; [by eexists|].
  destruct (stateByIndex s1 i) as [nd|]; [|by eexists]. case_decide; [by eexists|]. destruct (allInputPortsDrained nd).
  - destruct (Htotal s1 i) as [[s2 b] Hc]; [lia|]. rewrite Hc. by eexists.
  - destruct (sr_decision _); by eexists.
Qed.

Lemma propagate_edge_total m s e : pending s ≤ bound → is_Some (propagate_edge cg sched check m (Some s) e).
Proof using Htotal.
  intros Hp. unfold propagate_edge. cbn [mbind option_bind].
  destruct (pm_find m _) as [x|]; [|by eexists]. destruct (stateByIndex s _) as [dest|]; [|by eexists].
  destruct (oe_dest_port_index e) as [k|]; [|by eexists]. destruct (nd_queues dest !! k); [|by eexists].
  destruct (queue_push s _ k x) as [s1 ok] eqn:Hq. apply queue_push_neutral, neutral_pending in Hq.
  destruct ok; [|by eexists]. apply tryScheduleNode_with_total. lia.
Qed.

Lemma foldl_option_total {A} (f : option Engine → A → option Engine) l s :
  (∀ s a, pending s ≤ bound → is_Some (f (Some s) a)) → (∀ s a s', f (Some s) a = Some s' → sim s s') →
  pending s ≤ bound → is_Some (foldl f (Some s) l).
Proof.
  intros Ht Hs. revert s. induction l as [|a l IH]; intros s Hp; simpl; [by eexists|].
  destruct (Ht s a Hp) as [s1 H1]. rewrite H1. apply IH. apply Hs, sim_pending in H1. lia.
Qed.

Lemma propagateOutputs_with_total s i m : pending s ≤ bound → is_Some (propagateOutputs_with cg sched check s i m).
Proof using Hsim Htotal.
  intros Hp. unfold propagateOutputs_with. destruct (e_stopFlag s); [by eexists|]. apply foldl_option_total; [| |done].
  - intros. by apply propagate_edge_total.
  - intros s0 e s1. by apply propagate_edge_sim.
Qed.

Lemma latchPortEos_with_total s i k : pending s ≤ bound → is_Some (latchPortEos_with check s i k).
Proof using Htotal.
  intros Hp. unfold latchPortEos_with. destruct k as [k|]; [|by eexists]. case_decide; [by eexists|].
  set (s1 := upd_node s i _). assert (neutral s s1) as H1 by (by apply neutral_upd). apply neutral_pending in H1.
  destruct (Htotal s1 i) as [[s2 b] ->]; [lia|by eexists].
Qed.
End WithCheck.

Context (onEndOfStream : list Event → NodePtr → Outcome) (elapsed : list Event → Z).
Notation checkNodeEndOfStream := (checkNodeEndOfStream cg sched onEndOfStream elapsed).

(** Claiming the node takes it off the measure. *)
Lemma claim_pending s i nd s2 m :
  stateByIndex s i = Some nd → nd_eos_propagated nd = false →
  run_flush onEndOfStream elapsed
    (upd_node s i (λ nd, nd_set_eos_propagated (nd_set_exec_state nd EXECUTING) true)) nd = (s2, m) →
  S (pending s2) = pending s.
Proof.
  intros Hi Hp Hf. pose proof (f_equal v_nodes (run_flush_abs _ _ _ _ _ _ no_ghost Hf)) as Hn. simpl in Hn.
  pose proof (f_equal v_nodes (abs_claim_eos no_ghost s i)) as Hc. simpl in Hc. unfold pending. rewrite Hn.
  transitivity (S (pending_flush (vclaim_eos i (abs_node <$> e_nodes s)))); [by rewrite <-Hc|].
  pose proof (pending_alter (λ n, mkVNode (vn_node n) EXECUTING true (vn_wired n)) i _ _ (lookup_abs s i nd Hi)) as Ha.
  simpl in Ha. rewrite Hp in Ha. unfold vclaim_eos. lia.
Qed.

Lemma checkNodeEndOfStream_total fuel s i : pending s < fuel → is_Some (checkNodeEndOfStream fuel s i).
Proof.
  revert s i. induction fuel as [|fuel IH]; intros s i Hlt; [lia|]. cbn [Engine.checkNodeEndOfStream].
  destruct (negb (e_streamingMode s) || e_stopFlag s); [by eexists|].
  destruct (stateByIndex s i) as [nd|] eqn:Hi; [|by eexists].
  destruct (nd_eos_propagated nd) eqn:Hp; [by eexists|]. destruct (negb (allInputPortsDrained nd)); [by eexists|].
  destruct (claimable (nd_exec_state nd)); [|by eexists]. simpl.
  destruct (run_flush _ _ _ nd) as [s2 m] eqn:Hf. pose proof (claim_pending s i nd s2 m Hi Hp Hf) as H2.
  assert (∀ s i, pending s ≤ fuel - 1 → is_Some (checkNodeEndOfStream fuel s i)) as IH' by (intros; apply IH; lia).
  set (r := match m with [] => _ | _ => _ end).
  assert (∃ s3, r = Some s3 ∧ pending s3 ≤ fuel - 1) as (s3 & -> & H3).
  { subst r. destruct m as [|e m]; [exists s2; split; [done|lia]|]. set (s2' := if isSink cg i then _ else s2).
    assert (pending s2' = pending s2) as H2' by (unfold s2'; by destruct (isSink cg i)).
    destruct (propagateOutputs_with_total (fuel - 1) _ (checkNodeEndOfStream_sim cg sched onEndOfStream elapsed fuel)
      IH' s2' i (e :: m)) as [s3 H3]; [lia|]. exists s3. split; [done|].
    apply propagateOutputs_with_sim in H3; [|apply checkNodeEndOfStream_sim]. apply sim_pending in H3. lia. }
  cbn [mbind option_bind]. set (s4 := set_exec s3 i COMPLETED).
  assert (pending s4 ≤ fuel - 1) as H4.
  { etrans; [|exact H3]. unfold pending, s4. rewrite nodes_set_exec. by apply pending_alter_le. }
  match goal with |- is_Some (foldl ?f (Some s4) ?l ≫= _) =>
    destruct (foldl_option_total (fuel - 1) f l s4) as [s5 H5]; [| |exact H4|rewrite H5; by eexists] end.
  - intros s0 e H0. cbn [mbind option_bind]. destruct (stateByIndex s0 _); [|by eexists].
    by apply (latchPortEos_with_total (fuel - 1)).
  - intros s0 e s6. cbn [mbind option_bind]. destruct (stateByIndex s0 _); [|by intros [= <-]].
    apply latchPortEos_with_sim, checkNodeEndOfStream_sim.
Qed.

Lemma checkEos_total s i : is_Some (checkEos cg sched onEndOfStream elapsed s i).
Proof. apply checkNodeEndOfStream_total. unfold eos_fuel. pose proof (pending_le_nodes s). lia. Qed.

Lemma tryScheduleNode_total s i : is_Some (tryScheduleNode cg sched onEndOfStream elapsed s i).
Proof. apply (tryScheduleNode_with_total (pending s)); [|done]. intros. apply checkEos_total. Qed.

Lemma propagateOutputs_total s i m : is_Some (propagateOutputs cg sched onEndOfStream elapsed s i m).
Proof.
  apply (propagateOutputs_with_total (pending s)); [apply checkEos_sim| |done]. intros. apply checkEos_total.
Qed.

(** ** Tasks *)

Lemma handleNodeSuccess_total s i nd m : is_Some (handleNodeSuccess cg sched onEndOfStream elapsed s i nd m).
Proof.
  unfold handleNodeSuccess. set (s0 := if isSink cg i then _ else _). destruct (propagateOutputs_total s0 i m) as [s1 H1].
  rewrite H1. cbn [mbind option_bind]. destruct (onNodeComplete sched true); [apply tryScheduleNode_total|by eexists].
Qed.

Lemma handleNodeFailure_total s i : is_Some (handleNodeFailure cg sched onEndOfStream elapsed s i).
Proof. unfold handleNodeFailure. case_match; [apply tryScheduleNode_total|by eexists]. Qed.

Context (process : list Event → NodePtr → PortDataMap → Outcome).

Lemma run_node_total s i nd m : is_Some (run_node cfg cg sched process onEndOfStream elapsed s i nd m).
Proof.
  unfold run_node, run_node_with. destruct (processNode _ _ _ _ _) as [s1 r].
  set (s2 := if ec_enable_statistics cfg then _ else _). set (o := if e_stopFlag s2 then _ else _).
  assert (is_Some o) as [s3 ->].
  { subst o. destruct (e_stopFlag s2); [by eexists|].
    destruct r; [apply handleNodeSuccess_total|apply handleNodeFailure_total]. }
  cbn [mbind option_bind]. destruct (checkEos_total s3 i) as [[s4 b] ->]. by eexists.
Qed.

(** Every node has one queue per port. *)
Definition all_wired s : Prop := Forall (λ n, vn_wired n = true) (abs_node <$> e_nodes s).

Lemma all_wired_node s i nd : all_wired s → stateByIndex s i = Some nd → wired nd = true.
Proof. intros Hw Hi. apply lookup_abs in Hi. by apply (Forall_lookup_1 _ _ _ _ Hw Hi). Qed.

Lemma executeNodeTask_total s i :
  all_wired s → is_Some (executeNodeTask cfg cg sched process onEndOfStream elapsed s i).
Proof.
  intros Hw. unfold executeNodeTask, executeNodeTask_with. destruct (stateByIndex s i) as [nd|]; [|by eexists].
  destruct (isStopRequested s) as [s1 stop] eqn:Hs. apply isStopRequested_neutral in Hs.
  destruct stop; [by eexists|]. case_decide; [by eexists|].
  assert (all_wired (set_exec s1 i EXECUTING)) as Hw1.
  { unfold all_wired. rewrite nodes_set_exec, (neutral_nodes _ _ Hs). by apply wired_alter. }
  destruct (gatherNodeInputs_total cfg (set_exec s1 i EXECUTING) i) as [[g ok] ->].
  { intros nd'. by apply all_wired_node. }
  cbn [mbind option_bind]. destruct ok; [apply run_node_total|]. case_match.
  - destruct (checkEos_total (set_exec (ga_engine g) i WAITING) i) as [[s2 b] ->]. cbn [mbind option_bind].
    destruct b; [by eexists|]. destruct (tryScheduleNode_total s2 i) as [s3 ->]. by eexists.
  - destruct (handleNodeFailure_total (ga_engine g) i) as [s2 ->]. by eexists.
Qed.

Lemma run_task_total s k : all_wired s → is_Some (run_task cfg cg sched process onEndOfStream elapsed s k).
Proof.
  intros Hw. unfold run_task. destruct (e_pool s !! k) as [i|]; [|by eexists].
  destruct (pick_up_frame cfg s k i) as (? & ? & ->). by apply executeNodeTask_total.
Qed.

(** ** The external interface *)

Context (deref : NodePtr → ILogicNode).

Lemma routeToDownstream_total s p port x :
  is_Some (routeToDownstream deref cg sched onEndOfStream elapsed s p port x).
Proof.
  unfold routeToDownstream. destruct (indexOfPtr cg p) as [i|]; [|by eexists].
  enough (∀ l s z, is_Some (foldl (route_edge cg sched onEndOfStream elapsed port x) (Some (s, z)) l)) as Hall.
  { destruct (Hall (outEdges cg i) s (0, 0, 0)%Z) as [[s1 [[a b] c]] ->]. by eexists. }
  clear. intros l. induction l as [|e l IH]; intros s z; cbn [foldl]; [by eexists|].
  assert (is_Some (route_edge cg sched onEndOfStream elapsed port x (Some (s, z)) e)) as [[s1 z1] ->]; [|apply IH].
  unfold route_edge. destruct z as [[a b] c]. cbn [mbind option_bind]. case_decide; [by eexists|].
  destruct (stateByIndex s _); [|by eexists]. destruct (pushToQueue s _ _ x) as [s1 []]; [|by eexists].
  destruct (tryScheduleNode_total (bump s1 (λ t, es_add_total_input_frames (es_add_total_queue_pushes t 1) 1))
    (oe_dest_node e)) as [s2 ->]. by eexists.
Qed.

Lemma pushInput_total s src port x : is_Some (pushInput deref cfg cg sched onEndOfStream elapsed s src port x).
Proof.
  unfold pushInput. destruct (negb _ && _); [by eexists|]. destruct (stateByName _ _ _) as [i|]; [|by eexists].
  destruct (stateByIndex s i) as [nd|]; [|by eexists]. case_decide; [by eexists|]. destruct (isInputPort _ _ _).
  - destruct (match port_index _ _ with Some _ => _ | None => _ end); [by eexists|].
    destruct (stampIncomingFrame cfg s x) as [s1 x1]. destruct (pushToQueue s1 _ _ x1) as [s2 []]; [|by eexists].
    destruct (tryScheduleNode_total (bump s2 (λ t, es_add_total_input_frames (es_add_total_queue_pushes t 1) 1)) i)
      as [s3 ->]. by eexists.
  - destruct (isOutputPort _ _ _); [apply routeToDownstream_total|by eexists].
Qed.

Lemma signalEndOfStream_total s src port : is_Some (signalEndOfStream cg sched onEndOfStream elapsed s src port).
Proof.
  unfold signalEndOfStream. destruct (negb _); [by eexists|]. destruct (stateByName _ _ _) as [i|]; [|by eexists].
  destruct (stateByIndex s i) as [nd|]; [|by eexists]. destruct (nd_input_ports nd) as [|first l]; [by eexists|].
  destruct (port_index _ _) as [k|]; [|by eexists]. case_decide; [by eexists|].
  destruct (portEosLatched nd k); [by eexists|].
  destruct (checkEos_total (upd_node s i (λ nd, latch nd k)) i) as [[s2 b] ->]. cbn [mbind option_bind].
  destruct b; [by eexists|]. destruct (tryScheduleNode_total s2 i) as [s3 ->]. by eexists.
Qed.

Lemma defer_fire_total s k : is_Some (defer_fire cg sched onEndOfStream elapsed s k).
Proof.
  unfold defer_fire. destruct (e_deferQueue s !! k) as [[due i]|]; [|by eexists]. case_decide; [|by eexists].
  destruct (stateByIndex _ i); [apply tryScheduleNode_total|by eexists].
Qed.

Lemma distributeInitialInputs_total s m : is_Some (distributeInitialInputs cfg cg sched onEndOfStream elapsed s m).
Proof.
  unfold distributeInitialInputs.
  enough (∀ l s h, is_Some (foldl (distribute_source cfg cg sched onEndOfStream elapsed m) (Some (s, h)) l)) as Hall.
  { destruct (Hall (cg_sourceNodes cg) s (Some false)) as [[s1 h] ->]. by eexists. }
  clear. intros l. induction l as [|i l IH]; intros s h; cbn [foldl]; [by eexists|].
  assert (is_Some (distribute_source cfg cg sched onEndOfStream elapsed m (Some (s, h)) i)) as [[s1 h1] ->]; [|apply IH].
  unfold distribute_source. cbn [mbind option_bind]. destruct h as [has|]; [|by eexists].
  destruct (stateByIndex s i) as [nd|]; [|by eexists].
  assert (∀ s0, is_Some (s1 ← tryScheduleNode cg sched onEndOfStream elapsed s0 i; Some (s1, Some true))) as Htry.
  { intros s0. destruct (tryScheduleNode_total s0 i) as [s1 ->]. by eexists. }
  destruct (pm_find m (nd_name nd)) as [x|].
  - destruct (stampIncomingFrame cfg s x) as [s1 x1]. destruct (nd_input_ports nd) as [|port ports]; [apply Htry|].
    destruct (pushToQueue s1 _ _ x1) as [s2 []]; [apply Htry|by eexists].
  - destruct (nd_input_ports nd); [apply Htry|by eexists].
Qed.
End Termination.
