(* ===== verification/EngineRuns.v ===== *)
(** * Runs of the engine

    A run starts an initialized engine, in streaming mode or on a batch, and then
    performs operations in any order: workers run posted tasks, callers push
    frames, close ports, stop or cancel, the defer timer and the join watchdog
    fire, time passes.  Every run is a run of the abstract machine of
    [NodeLifecycle.v] ([run_steps]) and never gets stuck ([run_total]); the
    properties of the machine become properties of the engine. *)

From S2P Require Import Prelude Errors Packets Graphs CompiledGraphs MpmcQueue NodeQueue FrameAlignment.
From S2P Require Import SyncCoordinator JoinAwareSync ExecutionTypes Schedulers EngineCore EngineGather.
From S2P Require Import Engine NodeLifecycle EngineSim EngineTermination.
Local Open Scope string_scope.
Local Open Scope list_scope.
Local Open Scope nat_scope.

Section Runs.
Context `{CppTypes} {Q Sy : Type} `{!PortQueue Q, !PortQueueLaws Q, !SyncStrategy Sy}.
Context (deref : NodePtr → ILogicNode) (cfg : EngineConfig) (cg : CompiledGraph) (sched : SchedulerStrategy).
Context (process : list Event → NodePtr → PortDataMap → Outcome).
Context (onEndOfStream : list Event → NodePtr → Outcome) (elapsed : list Event → Z).
Context (setup : list Event → NodePtr → VoidResult + option string).
Notation Engine := (Engine Q Sy).
Implicit Types (s : Engine).

(** ** Operations *)

Inductive EngineOp :=
  | OpTask (k : nat)                               (* a worker runs the k-th posted task *)
  | OpPush (node port : string) (data : PortDataPtr)
  | OpClose (node port : string)                   (* signalEndOfStream *)
  | OpTimer (k : nat)                              (* the defer timer fires an entry *)
  | OpWatchdog                                     (* one scan of the join watchdog *)
  | OpStop                                         (* stopExecutionAsync *)
  | OpCancel                                       (* the caller cancels the context *)
  | OpTick (ns : Z).                               (* time passes *)

Definition engine_op s (op : EngineOp) : option Engine :=
  match op with
  | OpTask k => run_task cfg cg sched process onEndOfStream elapsed s k
  | OpPush node port data => fst <$> pushInput deref cfg cg sched onEndOfStream elapsed s node port data
  | OpClose node port => fst <$> signalEndOfStream cg sched onEndOfStream elapsed s node port
  | OpTimer k => defer_fire cg sched onEndOfStream elapsed s k
  | OpWatchdog => Some (watchdog_scan cfg cg sched s)
  | OpStop => Some (stopExecutionAsync s)
  | OpCancel => Some (e_set_cancelled s true)
  | OpTick ns => Some (e_set_now s (e_now s + ns))
  end.

Fixpoint engine_run s (ops : list EngineOp) : option Engine :=
  match ops with
  | [] => Some s
  | op :: rest => s' ← engine_op s op; engine_run s' rest
  end.

Lemma engine_run_app s ops ops' : engine_run s (ops ++ ops') = s' ← engine_run s ops; engine_run s' ops'.
Proof. revert s. induction ops as [|op ops IH]; intros s; simpl; [done|]. destruct (engine_op s op); simpl; [apply IH|done]. Qed.

(** How a run begins. *)
Inductive started (s0 : Engine) : Engine → Prop :=
  | started_streaming context s r :
      startStreaming deref cg sched setup s0 context = (s, r) → started s0 s
  | started_batch inputs context s r :
      execute deref cfg cg sched onEndOfStream elapsed setup s0 inputs context = Some (s, r) → started s0 s.

(** ** Every operation follows the machine *)

Lemma fst_fmap_Some {A B} (o : option (A * B)) a : fst <$> o = Some a → ∃ b, o = Some (a, b).
Proof. destruct o as [[x b]|]; simpl; [intros [= <-]; by exists b|done]. Qed.

Lemma engine_op_steps s op s' gh :
  engine_op s op = Some s' → lifecycle_inv (abs gh s) → rtc vstep (abs gh s) (abs gh s').
Proof.
  destruct op as [k|node port x|node port|k| | | |ns]; simpl; intros Ho I.
  - by eapply run_task_steps.
  - apply fst_fmap_Some in Ho as [r Ho]. by eapply pushInput_sim.
  - apply fst_fmap_Some in Ho as [r Ho]. by eapply signalEndOfStream_sim.
  - by eapply defer_fire_sim.
  - injection Ho as <-. apply watchdog_scan_sim.
  - injection Ho as <-. apply neutral_sim, stopExecutionAsync_neutral.
  - injection Ho as <-. done.
  - injection Ho as <-. done.
Qed.

Lemma engine_op_total s op : all_wired s → is_Some (engine_op s op).
Proof.
  intros Hw. destruct op; simpl; try by eexists.
  - by apply run_task_total.
  - apply fmap_is_Some, pushInput_total.
  - apply fmap_is_Some, signalEndOfStream_total.
  - apply defer_fire_total.
Qed.

Lemma run_steps s ops s' gh :
  engine_run s ops = Some s' → lifecycle_inv (abs gh s) → rtc vstep (abs gh s) (abs gh s').
Proof.
  revert s. induction ops as [|op ops IH]; intros s; simpl; [by intros [= <-]|].
  destruct (engine_op s op) as [s1|] eqn:Ho; [|done]. simpl. intros Hr I.
  pose proof (engine_op_steps _ _ _ _ Ho I) as H1. etrans; [exact H1|]. apply IH; [done|]. by eapply vsteps_inv.
Qed.

Lemma run_total s ops gh : lifecycle_inv (abs gh s) → is_Some (engine_run s ops).
Proof.
  revert s. induction ops as [|op ops IH]; intros s I; simpl; [by eexists|].
  destruct (engine_op_total s op (li_wired _ I)) as [s1 Ho]. rewrite Ho. simpl. apply IH.
  eapply vsteps_inv; [by eapply engine_op_steps|done].
Qed.

(** ** Starting *)

(** The machine's view of an engine on which nothing has happened. *)
Definition fresh_view (v : View) : Prop :=
  v_pool v = [] ∧ v_active v = 0%Z ∧ v_reported v = false ∧ v_eos v = false ∧ v_trace v = [] ∧
  v_ghost v = no_ghost ∧ NoDup (vn_node <$> v_nodes v) ∧
  Forall (λ n, vn_state n = WAITING ∧ vn_propagated n = false ∧ vn_wired n = true) (v_nodes v).

Lemma fresh_view_inv v : fresh_view v → lifecycle_inv v.
Proof.
  destruct v as [ns pool act rep eos tr gh]. intros (? & ? & ? & ? & ? & ? & Hnd & Hall); simpl in *; subst.
  split; simpl; try done.
  - split; simpl.
    + by apply NoDup_nil_2.
    + intros i n Hi. destruct (Forall_lookup_1 _ _ _ _ Hall Hi) as (-> & _). set_solver.
    + intros i n Hi. destruct (Forall_lookup_1 _ _ _ _ Hall Hi) as (-> & _). set_solver.
    + intros i n Hi. destruct (Forall_lookup_1 _ _ _ _ Hall Hi) as (_ & -> & _). done.
    + intros i Hi. by apply not_elem_of_nil in Hi.
  - intros i n Hi. destruct (Forall_lookup_1 _ _ _ _ Hall Hi) as (_ & -> & _). split; [done|].
    intros pre post Heq. by destruct pre.
  - eapply Forall_impl; [done|]. naive_solver.
Qed.

Definition fresh s : Prop := fresh_view (abs no_ghost s).

Lemma neutral_fresh s s' : neutral s s' → fresh s → fresh s'.
Proof. unfold fresh. intros Hn. by rewrite (Hn no_ghost). Qed.

Lemma initialized_fresh qcs sync now :
  NoDup (cg_nodes cg) → fresh (initialized (Q := Q) deref cfg qcs cg sync now).
Proof.
  intros Hnd. unfold fresh, fresh_view, abs, initialized, initializeNodeStates; simpl. split_and!; try done.
  - assert (vn_node <$> (abs_node <$> imap (λ i p, mkNodeState p (getName (deref p)) i (getExpectedInputPorts (deref p))
      (initializeQueues deref cfg qcs p) (sy_isEnabled sync && sy_tracksNode sync (getName (deref p))) as_reset
      WAITING 0 0 0 false false 0 false) (cg_nodes cg)) = cg_nodes cg) as ->; [|done].
    rewrite <-list_fmap_compose. apply list_eq. intros j. rewrite list_lookup_fmap, list_lookup_imap.
    by destruct (cg_nodes cg !! j).
  - rewrite Forall_fmap, Forall_lookup. intros i nd. rewrite list_lookup_imap. intros (p & Hp & ->)%fmap_Some.
    simpl. split_and!; try done. unfold wired, initializeQueues; simpl. rewrite length_fmap.
    by apply bool_decide_eq_true.
Qed.

Lemma teardownNodes_neutral s : neutral s (teardownNodes s).
Proof.
  unfold teardownNodes. intros gh.
  transitivity (abs gh (foldl (λ s p, observe s (EvTeardown p)) s (rev (e_setUpNodes s)))); [done|].
  apply foldl_neutral. intros s0 p. by apply neutral_observe.
Qed.

Lemma setupNodes_neutral s s' r : setupNodes deref cg setup s = (s', r) → neutral s s'.
Proof.
  unfold setupNodes. destruct (e_setUpNodes s); [|by intros [= <- _]].
  generalize (cg_topoOrder cg). intros order. revert s. induction order as [|i order IH]; intros s; simpl; [by intros [= <- _]|].
  destruct (cg_node cg i) as [p|]; [|apply IH]. set (s1 := observe s (EvSetup p)).
  assert (neutral s s1) as H1 by (by apply neutral_observe). case_match.
  - intros Hl. apply IH in Hl. etrans; [exact H1|]. exact Hl.
  - intros [= <- _]. etrans; [exact H1|apply teardownNodes_neutral].
Qed.

Lemma resetInternalState_fresh s : fresh s → fresh (resetInternalState s).
Proof.
  unfold fresh, fresh_view, abs, resetInternalState; simpl. intros (H1 & H2 & H3 & H4 & H5 & H6 & H7 & H8).
  assert (abs_node <$> (reset_node_run <$> e_nodes s) = abs_node <$> e_nodes s) as ->; [|done].
  rewrite <-list_fmap_compose. apply list_fmap_ext. intros i nd Hi. unfold abs_node, wired; simpl.
  rewrite length_fmap. destruct (Forall_lookup_1 _ _ i (abs_node nd) H8) as (Hs & Hp & _).
  - by rewrite list_lookup_fmap, Hi.
  - simpl in Hs, Hp. by rewrite Hs, Hp.
Qed.

Lemma started_inv s0 s : fresh s0 → e_streamingMode s0 = false → started s0 s → lifecycle_inv (abs no_ghost s).
Proof.
  intros F Hm [context s' r Hs|inputs context s' r Hs].
  - apply fresh_view_inv. unfold startStreaming in Hs. case_decide; [by simplify_eq|].
    destruct (negb _); [by simplify_eq|]. destruct (setupNodes _ _ _ s0) as [s1 r1] eqn:Hset.
    apply setupNodes_neutral in Hset. apply (neutral_fresh _ _ Hset) in F. destruct (negb _); simplify_eq; [done|].
    destruct F as (? & ? & ? & ? & ? & ? & ? & ?). destruct context; by split_and!.
  - unfold execute in Hs. rewrite Hm in Hs. case_decide; [simplify_eq; by apply fresh_view_inv|].
    destruct (setupNodes _ _ _ _) as [s1 r1] eqn:Hset. apply setupNodes_neutral in Hset.
    apply (neutral_fresh _ _ Hset) in F. destruct (negb _); [simplify_eq; by apply fresh_view_inv|].
    apply resetInternalState_fresh, fresh_view_inv in F.
    destruct (distributeInitialInputs _ _ _ _ _ _ _) as [[s2 ok]|] eqn:Hd; [|done]. cbn [mbind option_bind] in Hs.
    apply distributeInitialInputs_sim in Hd. specialize (Hd no_ghost).
    assert (lifecycle_inv (abs no_ghost s2)) as I by (eapply vsteps_inv; [exact Hd|exact F]).
    destruct ok; simplify_eq; exact I.
Qed.

(** An execution of a batch starts, whatever the inputs. *)
Lemma execute_total s0 inputs context :
  is_Some (execute deref cfg cg sched onEndOfStream elapsed setup s0 inputs context).
Proof.
  unfold execute. destruct (e_streamingMode s0).
  - revert s0. induction inputs as [|[node x] inputs IH]; intros s0; simpl; [by eexists|].
    destruct (pushInput_total cfg cg sched onEndOfStream elapsed deref s0 node "" x) as [[s1 r] ->]. simpl.
    destruct r; [apply IH|by eexists].
  - case_decide; [by eexists|]. destruct (setupNodes _ _ _ _) as [s1 r]. destruct (negb _); [by eexists|].
    set (s2 := e_set_state _ RUNNING).
    destruct (distributeInitialInputs_total cfg cg sched onEndOfStream elapsed s2 inputs) as [[s3 ok] ->]. simpl.
    destruct ok; by eexists.
Qed.
End Runs.
