(* ===== verification/EngineCorrect.v ===== *)
(** * Properties of the engine

    For any graph that compiles, any user code, any scheduler, any synchronization
    strategy and any queue that satisfies [PortQueueLaws]. *)

From S2P Require Import Prelude Errors Packets Graphs CompiledGraphs MpmcQueue NodeQueue FrameAlignment.
From S2P Require Import SyncCoordinator JoinAwareSync ExecutionTypes Schedulers EngineCore EngineGather.
From S2P Require Import Engine NodeLifecycle NodeAtomic EngineSim EngineTermination EngineRuns.
Local Open Scope string_scope.
Local Open Scope list_scope.
Local Open Scope nat_scope.

Section Correct.
Context `{CppTypes} {Q Sy : Type} `{!PortQueue Q, !PortQueueLaws Q, !SyncStrategy Sy}.
Context (deref : NodePtr → ILogicNode) (cfg : EngineConfig) (sched : SchedulerStrategy).
Context (process : list Event → NodePtr → PortDataMap → Outcome).
Context (onEndOfStream : list Event → NodePtr → Outcome) (elapsed : list Event → Z).
Context (setup : list Event → NodePtr → VoidResult + option string).
Notation Engine := (Engine Q Sy).
Notation run cg := (engine_run deref cfg cg sched process onEndOfStream elapsed).

(** An engine for a compiled graph, with a trace sink or none, started. *)
Definition running_with (sink : option TraceSink) (cg : CompiledGraph) (s : Engine) : Prop :=
  ∃ g qcs sync now,
    rtc (graph_step deref) empty_graph g ∧ (Z.of_nat (length (m_nodes g)) < u32_mod)%Z ∧
    compile deref g = Some (ROk cg) ∧
    started deref cfg cg sched onEndOfStream elapsed setup (e_set_traceSink (initialized deref cfg qcs cg sync now) sink) s.

Definition running_engine (cg : CompiledGraph) (s : Engine) : Prop := ∃ sink, running_with sink cg s.

Lemma running_inv cg s : running_engine cg s → lifecycle_inv (abs no_ghost s).
Proof.
  intros (sink & g & qcs & sync & now & Hr & Hsmall & Hc & Hs). eapply started_inv; [| |exact Hs]; [|done].
  apply (initialized_fresh deref cfg). destruct (compile_inv _ _ _ Hr Hsmall Hc) as [Hok _]. rewrite (co_nodes _ _ _ Hok).
  by apply reachable_graph_wf in Hr as [].
Qed.

Lemma running_run cg s ops :
  running_engine cg s → ∃ s', run cg s ops = Some s' ∧ rtc vstep (abs no_ghost s) (abs no_ghost s') ∧
    lifecycle_inv (abs no_ghost s').
Proof.
  intros I%running_inv. destruct (run_total deref cfg cg sched process onEndOfStream elapsed s ops no_ghost I) as [s' Hs].
  exists s'. split; [done|]. pose proof (run_steps _ _ _ _ _ _ _ _ _ _ _ Hs I) as Hst. split; [done|]. by eapply vsteps_inv.
Qed.

(** The engine as the machine of single accesses sees it, no thread inside its code. *)
Definition fine (s : Engine) : Fine := fine_of (abs no_ghost s).

Lemma running_fine cg s ops s' f : running_engine cg s → run cg s ops = Some s' → rtc fstep (fine s') f → fine_inv f.
Proof.
  intros Hr Hs Hf. destruct (running_run cg s ops Hr) as (s1 & Hs1 & _ & I). rewrite Hs in Hs1. injection Hs1 as <-.
  eapply fsteps_inv; [exact Hf|]. by apply fine_of_inv.
Qed.

Lemma running_wired cg s : running_engine cg s → all_wired s.
Proof. intros I%running_inv. exact (li_wired _ I). Qed.

Lemma count_marks (m : Mark) (log : list Event) :
  marks m (omap mark_of log) = length (filter (λ ev, mark_of ev = Some m) log).
Proof.
  unfold marks. induction log as [|ev log IH]; [done|]. rewrite (filter_cons (λ ev, mark_of ev = Some m)).
  cbn [omap list_omap]. destruct (decide (mark_of ev = Some m)) as [Hm|Hm].
  - rewrite Hm, filter_cons, decide_True by done. cbn [length]. f_equal. exact IH.
  - destruct (mark_of ev) as [m'|]; [|exact IH]. rewrite filter_cons, decide_False by congruence. exact IH.
Qed.

Lemma omap_split (tr : list Event) ev pre post m :
  mark_of ev = Some m → tr = pre ++ ev :: post → omap mark_of tr = omap mark_of pre ++ m :: omap mark_of post.
Proof. intros Hm ->. rewrite omap_app. simpl. by rewrite Hm. Qed.

(** ** Properties *)

(** C6: the engine implements the node lifecycle: however an engine for a compiled
    graph is started and whatever operations follow, one after the other and in any
    order (tasks run by workers, frames pushed, ports closed, timers, stop, cancel),
    every operation returns, the engine's steps are steps of the lifecycle machine and
    of the machine of single accesses, in which each compare-exchange, exchange and
    store on a node's state and flags, each counter update, each call of a node and
    each event told of it is an action of its own; and from there, in every
    interleaving of such actions by any number of threads (the thread that loses the
    exchange of the end of stream included), the invariant of the latter holds: one
    owner per READY or EXECUTING node and none otherwise, the counter counts the tasks
    posted or held, the hook runs at most once per node and each callback at most
    once. *)
Theorem engine_refines_lifecycle cg s ops :
  running_engine cg s →
  ∃ s', run cg s ops = Some s' ∧ rtc vstep (abs no_ghost s) (abs no_ghost s') ∧ lifecycle_inv (abs no_ghost s') ∧
    rtc fstep (fine s) (fine s') ∧ ∀ f, rtc fstep (fine s') f → fine_inv f.
Proof.
  intros Hr. destruct (running_run cg s ops Hr) as (s' & Hs & Hst & I). exists s'.
  split_and!; [done..|by apply vsteps_fine|]. intros f Hf. by eapply running_fine.
Qed.

(** C7: between operations the task counter is the number of posted tasks, no node
    is posted twice, a node is READY exactly when its task is posted and none is
    EXECUTING; and from there no node has two owners: in every interleaving of the
    lifecycle machine's rules no node is owned by two workers, by a worker and a posted
    task, or by a worker and a flush, and in every interleaving of single accesses
    none is owned by two threads or by a thread and a posted task. *)
Theorem node_tasks_exclusive cg s ops :
  running_engine cg s →
  ∃ s', run cg s ops = Some s' ∧ e_activeTasks s' = Z.of_nat (length (e_pool s')) ∧ NoDup (e_pool s') ∧
    (∀ i nd, stateByIndex s' i = Some nd →
       (nd_exec_state nd = READY ↔ i ∈ e_pool s') ∧ nd_exec_state nd ≠ EXECUTING) ∧
    (∀ v, rtc vstep (abs no_ghost s') v →
       NoDup (v_pool v ++ gh_running (v_ghost v) ++ gh_flushing (v_ghost v))) ∧
    (∀ f, rtc fstep (fine s') f → NoDup (owners f)).
Proof.
  intros Hr. destruct (running_run cg s ops Hr) as (s' & Hs & _ & I). exists s'. split; [done|].
  pose proof (li_active _ I) as Ha. pose proof (li_owner _ I) as O. simpl in Ha, O. split_and!.
  - lia.
  - pose proof (oi_nodup _ _ _ _ O) as Hnd. by rewrite app_nil_r in Hnd.
  - intros i nd Hi%lookup_abs. pose proof (oi_ready _ _ _ _ O i _ Hi) as H1. pose proof (oi_exec _ _ _ _ O i _ Hi) as H2.
    simpl in H1, H2. split; [done|]. rewrite H2. set_solver.
  - intros v Hv. apply (li_owner _ (vsteps_inv _ _ Hv I)).
  - intros f Hf. eapply owners_nodup, running_fine; [exact Hr|exact Hs|exact Hf].
Qed.

(** C13: after operations run one after the other, the end-of-stream hook of a node has
    run at most once, exactly once if its end of stream has been handled, and the
    node's [process] has not been called after it.  From there, in every interleaving
    of single accesses by any number of threads, the hook still runs at most once per
    node; and [process] is still not called after it as long as no thread that detects
    the end of stream of a node loses the exchange that decides who runs its hook (if
    one does, it can be: [losing_check_reopens_node]). *)
Theorem flush_once_and_last cg s ops :
  running_engine cg s →
  ∃ s', run cg s ops = Some s' ∧
    ∀ i nd, stateByIndex s' i = Some nd →
      length (filter (λ ev, mark_of ev = Some (MFlush (nd_node nd))) (e_log s')) =
        (if nd_eos_propagated nd then 1 else 0) ∧
      (∀ pre post inputs, e_log s' = pre ++ EvFlush (nd_node nd) :: post → EvProcess (nd_node nd) inputs ∉ post) ∧
      (∀ f n, rtc fstep (fine s') f → h_nodes (f_shared f) !! i = Some n →
         sights (SFlush (vn_node n)) (h_seen (f_shared f)) ≤ if vn_propagated n then 1 else 0) ∧
      (∀ f n, rtc fstep_won (fine s') f → h_nodes (f_shared f) !! i = Some n →
         never_after (SFlush (vn_node n)) (SCall (vn_node n)) (h_seen (f_shared f))).
Proof.
  intros Hr. destruct (running_run cg s ops Hr) as (s' & Hs & _ & I). exists s'. split; [done|].
  intros i nd Hi%lookup_abs. destruct (li_trace _ I i _ Hi) as [Hc Hl]. simpl in Hc, Hl. split_and!.
  - by rewrite <-count_marks.
  - intros pre post inputs Hlog Hin. apply (Hl _ _ (omap_split _ (EvFlush (nd_node nd)) _ _ _ eq_refl Hlog)).
    apply list_elem_of_omap. by exists (EvProcess (nd_node nd) inputs).
  - intros f n Hf Hn. destruct (fi_node _ (running_fine cg s ops s' f Hr Hs Hf) i n Hn) as [_ F _]. lia.
  - intros f n Hf Hn. apply (wi_last _ (fsteps_won_inv _ _ Hf (fine_of_won (abs no_ghost s') eq_refl I))).
    rewrite list_elem_of_fmap. exists n. split; [done|]. by eapply list_elem_of_lookup_2.
Qed.

(** C16: the result callback and the end-of-stream callback are called at most once
    in a run, exactly once when the engine's latch for it is set. *)
Theorem callbacks_at_most_once cg s ops :
  running_engine cg s →
  ∃ s', run cg s ops = Some s' ∧
    length (filter (λ ev, mark_of ev = Some MResult) (e_log s')) = (if e_completionReported s' then 1 else 0) ∧
    length (filter (λ ev, mark_of ev = Some MEndOfStream) (e_log s')) = (if e_endOfStreamReached s' then 1 else 0).
Proof.
  intros Hr. destruct (running_run cg s ops Hr) as (s' & Hs & _ & I). exists s'.
  rewrite <-!count_marks. split_and!; [done|apply (li_result _ I)|apply (li_eos _ I)].
Qed.

(** C15: the mutual recursion of scheduling, output propagation and the end-of-stream
    cascade ends on every state, however the graph is wired and whatever the flush
    hooks return; and so does every posted task if each node has one queue per input
    port. *)
Theorem cascade_terminates cg (s : Engine) i m :
  is_Some (checkEos cg sched onEndOfStream elapsed s i) ∧
  is_Some (tryScheduleNode cg sched onEndOfStream elapsed s i) ∧
  is_Some (propagateOutputs cg sched onEndOfStream elapsed s i m) ∧
  (all_wired s → ∀ k, is_Some (run_task cfg cg sched process onEndOfStream elapsed s k)).
Proof.
  split_and!; [apply checkEos_total|apply tryScheduleNode_total|apply propagateOutputs_total|].
  intros Hw k. by apply run_task_total.
Qed.

(** ** Setup and teardown *)

Lemma teardown_log (l : list NodePtr) (s : Engine) :
  e_log (foldl (λ s p, observe s (EvTeardown p)) s l) = e_log s ++ (EvTeardown <$> l).
Proof.
  revert s. induction l as [|p l IH]; intros s; simpl; [by rewrite app_nil_r|]. rewrite IH. simpl. by rewrite <-app_assoc.
Qed.

(** The nodes of [order] in that order. *)
Definition nodes_of (cg : CompiledGraph) (order : list nat) : list NodePtr := omap (cg_node cg) order.

Definition setup_outcome (s s' : Engine) (done todo : list NodePtr) (ok : bool) : Prop :=
  if ok then e_log s' = e_log s ++ (EvSetup <$> todo) ∧ e_setUpNodes s' = done ++ todo
  else ∃ pre p post, todo = pre ++ p :: post ∧ e_setUpNodes s' = [] ∧
    e_log s' = e_log s ++ (EvSetup <$> pre ++ [p]) ++ (EvTeardown <$> rev (done ++ pre)).

Lemma setup_loop_spec cg order (s s' : Engine) r :
  setup_loop deref cg setup s order = (s', r) →
  setup_outcome s s' (e_setUpNodes s) (nodes_of cg order) (void_isOk r).
Proof.
  revert s. induction order as [|i order IH]; intros s; simpl.
  { intros [= <- <-]. simpl. by rewrite !app_nil_r. }
  unfold nodes_of. cbn [omap list_omap]. destruct (cg_node cg i) as [p|]; [|apply IH].
  intros Hl. match type of Hl with (if void_isOk ?res then _ else _) = _ => destruct (void_isOk res) eqn:Hok end.
  - apply IH in Hl. unfold setup_outcome in *. simpl in Hl. destruct (void_isOk r).
    + destruct Hl as [-> ->]. rewrite <-!app_assoc. done.
    + destruct Hl as (pre & q & post & Heq & Hn & ->). exists (p :: pre), q, post. split_and!; [|done|].
      * simpl. by f_equal.
      * cbn [observe e_log e_set_setUpNodes e_set_log]. rewrite <-!app_assoc. simpl. done.
  - injection Hl as <- <-. rewrite Hok. exists [], p, (nodes_of cg order). split_and!; [done|done|].
    unfold teardownNodes. simpl. rewrite teardown_log. simpl. by rewrite app_nil_r, <-app_assoc.
Qed.

(** C21: starting an engine sets up the nodes in topological order; if a node's
    [setup] fails or throws, exactly the nodes that had been set up are torn down,
    in reverse order, and none counts as set up; a second start sets up nothing; and
    [teardownNodes], which [reset] runs, tears down every node that is set up, last
    one first. *)
Theorem setup_teardown_order cg (s s' : Engine) r :
  setupNodes deref cg setup s = (s', r) →
  (if decide (e_setUpNodes s = []) then setup_outcome s s' [] (nodes_of cg (cg_topoOrder cg)) (void_isOk r)
   else s' = s ∧ r = void_ok) ∧
  e_setUpNodes (teardownNodes s') = [] ∧
  e_log (teardownNodes s') = e_log s' ++ (EvTeardown <$> rev (e_setUpNodes s')).
Proof.
  intros Hs. split; [|split; [done|apply teardown_log]].
  unfold setupNodes in Hs. destruct (e_setUpNodes s) as [|p l] eqn:Hl.
  - rewrite decide_True by done. apply setup_loop_spec in Hs. by rewrite Hl in Hs.
  - rewrite decide_False by done. by simplify_eq.
Qed.

(** C20: a join under frame-id alignment with a synchronization strategy (and no
    timeout pending) gathers in finitely many steps, and if it runs the node, then
    on one packet from each port that delivered, taken from the front of its queue
    after discarding older ones, and all packets with a frame id carry the same
    one; if it does not, nothing is delivered. *)
Theorem join_inputs_paired (s : Engine) i nd :
  stateByIndex s i = Some nd → wired nd = true → 1 < length (nd_input_ports nd) →
  ec_alignment_policy cfg = AP_FrameId → sy_isEnabled (e_sync s) = true → nd_degrade_pending nd = false →
  ∃ g ok, gatherNodeInputs cfg s i = Some (g, ok) ∧
    if ok then
      ga_delivered g ≠ [] ∧ NoDup (ga_delivered g).*1 ∧
      (∀ k x, (k, x) ∈ ga_delivered g → ∃ pre post,
         items s i !! k = Some (pre ++ x :: post) ∧ items (ga_engine g) i !! k = Some post) ∧
      (∀ x y, x ∈ (ga_delivered g).*2 → y ∈ (ga_delivered g).*2 →
         headId x ≠ k_invalid_frame_id → headId y ≠ k_invalid_frame_id → headId x = headId y)
    else ga_delivered g = [].
Proof.
  intros Hi Hw Hn Hal Hsy Hd. unfold gatherNodeInputs. rewrite Hi, decide_True by done. fold (consume_degrade cfg s i).
  destruct (consume_degrade_node cfg s i nd Hi) as (nd' & Hi' & Hw' & Hp' & Hit).
  assert (e_sync (consume_degrade cfg s i) = e_sync s) as Hsync by (unfold consume_degrade; by case_decide).
  unfold aligned_gather. rewrite Hal. simpl. rewrite Hsync, Hsy.
  destruct (runAligned_spec cfg mkFrameIdPolicy (mkGather (consume_degrade cfg s i) i []) nd') as (g & ok & Hg & Ho);
    [exact Hi'|congruence|].
  rewrite Hg. cbn [mbind option_bind]. rewrite Hd, andb_false_r, andb_false_r. exists g, ok. split; [done|].
  apply runAligned_index in Hg. simpl in Hg. apply frame_outcome in Ho; [|done|].
  - simpl in Ho. by rewrite Hit, Hg in Ho.
  - simpl. rewrite Hit, Hp'. symmetry. by apply wired_items.
Qed.
End Correct.

(** ** Divergences *)

(** [stopStreaming(true)] raises the stop flag before it waits for the queues to
    drain, and the wait is over as soon as that flag is up: it never waits. *)
Lemma stopStreaming_never_waits `{CppTypes} {Q Sy} `{!PortQueue Q} (s : Engine Q Sy) wait_for_drain :
  (stopStreaming_begin s wait_for_drain).2 = false.
Proof. unfold stopStreaming_begin. destruct (negb _); [done|]. simpl. by rewrite andb_false_r. Qed.

(** ** A run on the diamond *)

Section Example.

(** Packets that carry integers. *)
Local Instance ex_types : CppTypes :=
  {| ty := unit; ty_name _ := "int"; ty_val _ := Z |}.
Notation PQ := (NodeQueue (BoundedList PortDataPtr) PortDataPtr).

Definition ex_cfg : EngineConfig := config_stream 2 8.
Definition ex_sched : SchedulerStrategy := scheduler_for ex_cfg STREAM.
Definition ex_process (_ : list Event) (_ : NodePtr) (inputs : PortDataMap) : Outcome :=
  Returned ((λ kp, ("out", snd kp)) <$> inputs).
Definition ex_flush (_ : list Event) (p : NodePtr) : Outcome :=
  if decide (p = 1) then Threw (Some "flush failed") else Returned [].
Definition ex_elapsed (_ : list Event) : Z := 1000.
Definition ex_setup (_ : list Event) (_ : NodePtr) : VoidResult + option string := inl void_ok.

Definition ex_init : Engine PQ NoSync := initialized ex_node ex_cfg ∅ ex_cg mkNoSync 0.
Definition ex_engine : Engine PQ NoSync := (startStreaming ex_node ex_cg ex_sched ex_setup ex_init false).1.
Definition ex_run := engine_run (Q := PQ) (Sy := NoSync) ex_node ex_cfg ex_cg ex_sched ex_process ex_flush ex_elapsed.

Lemma ex_running : running_engine ex_node ex_cfg ex_sched ex_flush ex_elapsed ex_setup ex_cg ex_engine.
Proof.
  exists None, ex_diamond, ∅, mkNoSync, 0%Z. split_and!.
  - exact ex_diamond_reachable.
  - exact (proj2 (proj2 ex_compiled_indices)).
  - exact ex_cg_compiled.
  - eapply (started_streaming _ _ _ _ _ _ _ _ false). unfold ex_engine. apply surjective_pairing.
Qed.

(** A frame through the diamond, then the source is closed. *)
Definition ex_ops : list EngineOp :=
  [OpPush "n0" "in" (Some (mkPacket 0 0 0 [])); OpTask 0; OpTask 1; OpTick 5; OpTask 0; OpTask 0; OpTask 0;
   OpClose "n0" "in"; OpWatchdog].

Definition ex_summary (o : option (Engine PQ NoSync)) : option (list nat * Z * bool * nat) :=
  (λ s, (e_pool s, e_activeTasks s, e_endOfStreamReached s, length (filter (λ ev, is_Some (mark_of ev)) (e_log s)))) <$> o.

Example ex_run_result : ex_summary (ex_run ex_engine ex_ops) = Some ([], 0%Z, true, 10).
Proof. vm_compute. reflexivity. Qed.

Lemma engine_refines_lifecycle_witness :
  ∃ s', ex_run ex_engine ex_ops = Some s' ∧ rtc vstep (abs no_ghost ex_engine) (abs no_ghost s') ∧
    rtc fstep (fine ex_engine) (fine s').
Proof.
  destruct (engine_refines_lifecycle ex_node ex_cfg ex_sched ex_process ex_flush ex_elapsed ex_setup ex_cg ex_engine
    ex_ops ex_running) as (s' & Hs & Hst & _ & Hf & _). exists s'. exact (conj Hs (conj Hst Hf)).
Defined.

Lemma node_tasks_exclusive_witness :
  ∃ s', ex_run ex_engine (take 2 ex_ops) = Some s' ∧ e_activeTasks s' = Z.of_nat (length (e_pool s')) ∧ NoDup (e_pool s').
Proof.
  destruct (node_tasks_exclusive ex_node ex_cfg ex_sched ex_process ex_flush ex_elapsed ex_setup ex_cg ex_engine
    (take 2 ex_ops) ex_running) as (s' & Hs & Ha & Hn & _). exists s'. exact (conj Hs (conj Ha Hn)).
Defined.

Lemma flush_once_and_last_witness :
  ∃ s', ex_run ex_engine ex_ops = Some s' ∧
    ∀ i nd, stateByIndex s' i = Some nd →
      length (filter (λ ev, mark_of ev = Some (MFlush (nd_node nd))) (e_log s')) =
        (if nd_eos_propagated nd then 1 else 0).
Proof.
  destruct (flush_once_and_last ex_node ex_cfg ex_sched ex_process ex_flush ex_elapsed ex_setup ex_cg ex_engine
    ex_ops ex_running) as (s' & Hs & Hf). exists s'. split; [exact Hs|]. intros i nd Hi. exact (proj1 (Hf i nd Hi)).
Defined.

Lemma callbacks_at_most_once_witness :
  ∃ s', ex_run ex_engine ex_ops = Some s' ∧
    length (filter (λ ev, mark_of ev = Some MEndOfStream) (e_log s')) = (if e_endOfStreamReached s' then 1 else 0).
Proof.
  destruct (callbacks_at_most_once ex_node ex_cfg ex_sched ex_process ex_flush ex_elapsed ex_setup ex_cg ex_engine
    ex_ops ex_running) as (s' & Hs & _ & He). exists s'. exact (conj Hs He).
Defined.

(** The engine as it starts has its queues. *)
Lemma cascade_terminates_witness :
  all_wired ex_engine ∧ is_Some (run_task ex_cfg ex_cg ex_sched ex_process ex_flush ex_elapsed ex_engine 0).
Proof.
  pose proof (running_wired _ _ _ _ _ _ _ _ ex_running) as Hw.
  split; [exact Hw|].
  exact (proj2 (proj2 (proj2 (cascade_terminates ex_cfg ex_sched ex_process ex_flush ex_elapsed ex_cg ex_engine 0 []))) Hw 0).
Defined.

(** Setting up when the third node fails. *)
Definition ex_bad_setup (_ : list Event) (p : NodePtr) : VoidResult + option string :=
  if decide (p = 2) then inr (Some "no device") else inl void_ok.

Lemma setup_teardown_order_witness :
  let sr := setupNodes ex_node ex_cg ex_bad_setup ex_init in
  setup_outcome ex_init sr.1 [] (nodes_of ex_cg (cg_topoOrder ex_cg)) (void_isOk sr.2) ∧ void_isOk sr.2 = false.
Proof.
  split; [|vm_compute; reflexivity].
  pose proof (setup_teardown_order ex_node ex_bad_setup ex_cg ex_init
    (setupNodes ex_node ex_cg ex_bad_setup ex_init).1 (setupNodes ex_node ex_cg ex_bad_setup ex_init).2
    (surjective_pairing _)) as [Ho _].
  rewrite decide_True in Ho by reflexivity. exact Ho.
Defined.

(** A join with frames 1, 3 at one port and 2, 3 at the other. *)
Definition ex_packet (id : Z) : PortDataPtr := Some (mkPacket id 0 0 []).
Definition ex_queue (ids : list Z) : PQ :=
  foldl (λ q id, (pq_push q (ex_packet id)).1.1) (pq_new (mkQConfig 8 DropHead 1 true "join" "p")) ids.
Definition ex_join : NodeState PQ :=
  mkNodeState 0 "join" 0 ["a"; "b"] [ex_queue [1; 3]%Z; ex_queue [2; 3]%Z] true as_reset EXECUTING 0 0 0 false false 0 false.
Definition ex_join_engine : Engine PQ JoinAware := e_set_nodes
  (initialized ex_node ex_cfg ∅ ex_cg newJoinAware 0) [ex_join].

Lemma join_inputs_paired_witness :
  ∃ g ok, gatherNodeInputs ex_cfg ex_join_engine 0 = Some (g, ok) ∧ ok = true ∧
    (∀ x y, x ∈ (ga_delivered g).*2 → y ∈ (ga_delivered g).*2 →
         headId x ≠ k_invalid_frame_id → headId y ≠ k_invalid_frame_id → headId x = headId y).
Proof.
  assert ((snd <$> gatherNodeInputs ex_cfg ex_join_engine 0) = Some true) as Hok by (vm_compute; reflexivity).
  destruct (join_inputs_paired ex_cfg ex_join_engine 0 ex_join) as (g & ok & Hg & Ho);
    [reflexivity|reflexivity|simpl; lia|reflexivity|reflexivity|reflexivity|].
  rewrite Hg in Hok. injection Hok as ->. exists g, true. split; [exact Hg|]. split; [reflexivity|].
  exact (proj2 (proj2 (proj2 Ho))).
Defined.

(** With partial inputs allowed and no synchronization strategy, a join with a
    frame at one port only is scheduled; its gather takes the frame off, fails at
    the dry port, and the frame is neither processed nor reported as dropped. *)
Definition ex_partial_cfg : EngineConfig :=
  mkEngineConfig STREAM 2 8 "DropHead" false true 0 AP_FrameId 33000 0 PartialInputs true true.
Definition ex_partial : Engine PQ NoSync :=
  let nd := mkNodeState 0 "join" 0 ["a"; "b"] [ex_queue [1]%Z; ex_queue []] false as_reset WAITING 0 0 0 false false 0 false in
  e_set_state (e_set_streamingMode (e_set_nodes (initialized ex_node ex_partial_cfg ∅ ex_cg mkNoSync 0) [nd]) true) RUNNING.
Definition ex_partial_run : option (Engine PQ NoSync) :=
  let sched := scheduler_for ex_partial_cfg STREAM in
  s ← tryScheduleNode ex_cg sched ex_flush ex_elapsed ex_partial 0;
  run_task ex_partial_cfg ex_cg sched ex_process ex_flush ex_elapsed s 0.

Lemma partial_inputs_lose_frame :
  items ex_partial 0 = [[ex_packet 1]; []] ∧
  ((λ s, (items s 0, e_log s, es_total_dropped_frames (e_statistics s))) <$> ex_partial_run) = Some ([[]; []], [], 0%Z).
Proof. vm_compute. split; reflexivity. Qed.
End Example.
