(* ===== verification/EngineTrace.v ===== *)
(** * What the engine's trace tells

    The [Execute] events a trace sink is given are the calls of user code, one event
    per call of [process] and [onEndOfStream], with the node's name, whether the call
    failed and the frame it was about.  The reference [call_spans] reads them off the
    log of the calls and the user code; the relation [traced] says that an operation
    adds to the trace what it adds to the log, and contains the elementary steps
    ([Follows]), hence every operation.  In a run of operations one after the other the
    events come in the order of the calls; when tasks overlap, the events of different
    nodes come in the order in which the calls return, and those of one node still in
    the order of its calls ([NodeAtomic.v]: [talk]).  Beside it, there is one time in
    [e_scheduledAt] per posted task ([posted_tasks_timed]). *)

From S2P Require Import Prelude Errors Packets Graphs CompiledGraphs MpmcQueue NodeQueue FrameAlignment.
From S2P Require Import SyncCoordinator JoinAwareSync ExecutionTypes Trace Schedulers EngineCore EngineGather.
From S2P Require Import Engine EngineLog NodeLifecycle NodeAtomic EngineSim EngineTermination EngineRuns EngineCorrect.
Local Open Scope string_scope.
Local Open Scope list_scope.
Local Open Scope nat_scope.

#[export] Instance TracePhase_eq : EqDecision TracePhase.
Proof. solve_decision. Defined.

Section Traced.
Context `{CppTypes} {Q Sy : Type} `{!PortQueue Q, !PortQueueLaws Q, !SyncStrategy Sy}.
Context (deref : NodePtr → ILogicNode) (cfg : EngineConfig) (sched : SchedulerStrategy).
Context (process : list Event → NodePtr → PortDataMap → Outcome).
Context (onEndOfStream : list Event → NodePtr → Outcome) (elapsed : list Event → Z).
Context (setup : list Event → NodePtr → VoidResult + option string).
Notation Engine := (Engine Q Sy).
Implicit Types (s : Engine).

(** ** The reference *)

(** A node's name, the detail, and the frame and stream of the packet. *)
Notation Span := (string * string * FrameId * StreamId)%type.

Definition span (node detail : string) (packet : option DataPacket) : Span :=
  (node, detail, from_option dp_id 0%Z packet, from_option dp_stream_id 0%Z packet).

(** What a call tells, after [log]: nothing if the event is not a call of [process]
    or [onEndOfStream]. *)
Definition call_span (log : list Event) (ev : Event) : list Span :=
  match ev with
  | EvProcess p inputs =>
      [span (getName (deref p)) match process log p inputs with Returned _ => "" | Threw _ => "failed" end (primaryFrame inputs)]
  | EvFlush p =>
      [span (getName (deref p)) "end-of-stream flush"
         match onEndOfStream log p with Returned outputs => primaryFrame outputs | Threw _ => None end]
  | _ => []
  end.

Fixpoint call_spans (log events : list Event) : list Span :=
  match events with
  | [] => []
  | ev :: rest => call_span log ev ++ call_spans (log ++ [ev]) rest
  end.

Lemma call_spans_app log l l' : call_spans log (l ++ l') = call_spans log l ++ call_spans (log ++ l) l'.
Proof.
  revert log. induction l as [|ev l IH]; intros log; simpl; [by rewrite app_nil_r|].
  by rewrite IH, <-!app_assoc.
Qed.

Lemma call_spans_quiet log ev : is_call ev = false → call_spans log [ev] = [].
Proof. by destruct ev. Qed.

(** ** The trace *)

Definition span_of (e : TraceEvent) : Span := (te_node e, te_detail e, te_frame_id e, te_stream_id e).

Definition executions (sink : TraceSink) : list Span :=
  span_of <$> filter (λ e, te_phase e = TP_Execute) (ts_events sink).

Lemma executions_emit s phase node detail packet start duration :
  executions <$> e_traceSink (emitTrace s phase node detail packet start duration) =
  (λ l, l ++ if decide (phase = TP_Execute) then [span node detail packet] else []) <$> (executions <$> e_traceSink s).
Proof.
  unfold emitTrace. simpl. destruct (e_traceSink s) as [k|]; [|done]. simpl. f_equal. unfold executions. simpl.
  rewrite filter_app, fmap_app. f_equal. rewrite filter_cons. simpl. by case_decide.
Qed.

(** The names the nodes were registered with. *)
Definition names_ok s : Prop := ∀ p n, (p, n) ∈ names s → n = getName (deref p).

Definition timed s : Prop := length (e_scheduledAt s) = length (e_pool s).

Record traced s s' : Prop := {
  td_names : names s' = names s;
  td_timed : timed s → timed s';
  td_spans : ∃ events, e_log s' = e_log s ++ events ∧
    (names_ok s → executions <$> e_traceSink s' =
       (λ l, l ++ call_spans (e_log s) events) <$> (executions <$> e_traceSink s));
}.

#[local] Instance traced_preorder : PreOrder traced.
Proof.
  split.
  - intros s. split; [done|done|]. exists []. rewrite app_nil_r. split; [done|]. intros _.
    destruct (executions <$> e_traceSink s); simpl; [by rewrite app_nil_r|done].
  - intros s1 s2 s3 [N1 A1 (l1 & L1 & T1)] [N2 A2 (l2 & L2 & T2)]. split; [congruence|auto|]. exists (l1 ++ l2).
    rewrite L2, L1, app_assoc. split; [done|]. intros Hn. rewrite T2, T1 by (unfold names_ok; by rewrite ?N1).
    rewrite call_spans_app, L1. destruct (executions <$> e_traceSink s1); simpl; [by rewrite app_assoc|done].
Qed.

(** Steps that leave the log and the trace. *)
Lemma traced_same s s' :
  names s' = names s → (timed s → timed s') → e_log s' = e_log s → e_traceSink s' = e_traceSink s → traced s s'.
Proof.
  intros N A L T. split; [done|done|]. exists []. rewrite app_nil_r. split; [done|]. intros _. rewrite T.
  destruct (executions <$> e_traceSink s); simpl; [by rewrite app_nil_r|done].
Qed.

(** A call and the event it is told by. *)
Lemma traced_call s s' ev events phase node detail packet start duration :
  names s' = names s → (timed s → timed s') → e_log s' = e_log s ++ ev :: events →
  e_traceSink s' = e_traceSink s → phase = TP_Execute → Forall (λ ev, is_call ev = false) events →
  (names_ok s → call_span (e_log s) ev = [span node detail packet]) →
  traced s (emitTrace s' phase node detail packet start duration).
Proof.
  intros N A L T -> Hquiet Hspan. split; [done|done|]. exists (ev :: events). split; [done|]. intros Hn.
  rewrite executions_emit, T. rewrite decide_True by done. simpl. rewrite Hspan by done.
  assert (∀ log, call_spans log events = []) as ->; [|done].
  clear -Hquiet. induction Hquiet as [|ev' l Hev Hl IH]; intros log; [done|]. simpl. rewrite IH, app_nil_r. by destruct ev'.
Qed.

Lemma named_ok s (nd : NodeState Q) : names_ok s → named nd ∈ names s → nd_name nd = getName (deref (nd_node nd)).
Proof. intros Hn Hin. by apply Hn. Qed.

#[local] Instance traced_follows : Follows process onEndOfStream elapsed traced.
Proof.
  split; try apply _.
  - by intros s s' [].
  - intros s s' [= Hl _ Hn Ht Hp Ha _]. apply traced_same; [done| |done|done]. unfold timed. by rewrite Ha, Hp.
  - intros s ev Hev. split; [done|done|]. exists [ev]. split; [done|]. intros _. rewrite call_spans_quiet by done. simpl.
    destruct (executions <$> e_traceSink s); simpl; [by rewrite app_nil_r|done].
  - intros s phase node detail packet start duration Hp. split; [done|done|]. exists []. rewrite app_nil_r. split; [done|].
    intros _. by rewrite executions_emit, decide_False.
  - intros s i. apply traced_same; [done| |done|done]. unfold timed. simpl. rewrite !length_app. simpl. lia.
  - intros s k Hk. apply traced_same; [done| |done|done]. unfold timed. simpl. intros Ht. rewrite !length_delete; [lia|..];
      apply lookup_lt_is_Some; [done|]. by rewrite Ht.
  - intros s nd s' outputs Hnd. unfold run_flush. destruct (onEndOfStream (e_log s) (nd_node nd)) as [outs|what] eqn:Hf;
      intros [= <- <-]; (eapply traced_call; [done|done| |done|done| |]).
    + done.
    + by constructor.
    + intros Hn. simpl. by rewrite Hf, (named_ok s nd).
    + simpl. by rewrite <-app_assoc.
    + by repeat constructor.
    + intros Hn. simpl. by rewrite Hf, (named_ok s nd).
  - intros s nd inputs s' r start duration Hnd. unfold processNode. destruct (process (e_log s) (nd_node nd) inputs) as [outs|what] eqn:Hf;
      intros [= <- <-]; (eapply traced_call; [done|done| |done|done| |]).
    + done.
    + by constructor.
    + intros Hn. simpl. by rewrite Hf, (named_ok s nd).
    + simpl. by rewrite <-app_assoc.
    + by repeat constructor.
    + intros Hn. simpl. by rewrite Hf, (named_ok s nd).
Qed.

(** ** Runs *)

Section Run.
Context (cg : CompiledGraph).

Lemma op_traced s op s' : engine_op deref cfg cg sched process onEndOfStream elapsed s op = Some s' → traced s s'.
Proof.
  destruct op as [k|node port x|node port|k| | | |ns]; simpl; intros Ho.
  - by apply (follows_run_task _ _ _ _ _ _ traced) in Ho.
  - apply fst_fmap_Some in Ho as [r Ho]. by apply (follows_pushInput _ _ _ _ process _ _ traced) in Ho.
  - apply fst_fmap_Some in Ho as [r Ho]. by apply (follows_signal _ _ process _ _ traced) in Ho.
  - by apply (follows_timer _ _ process _ _ traced) in Ho.
  - injection Ho as <-. apply (follows_watchdog _ _ _ process onEndOfStream elapsed traced).
  - injection Ho as <-. apply (follows_stop process onEndOfStream elapsed traced).
  - injection Ho as <-. by apply traced_same.
  - injection Ho as <-. by apply traced_same.
Qed.

Lemma run_traced s ops s' : engine_run deref cfg cg sched process onEndOfStream elapsed s ops = Some s' → traced s s'.
Proof.
  revert s. induction ops as [|op ops IH]; intros s; simpl; [by intros [= <-]|].
  destruct (engine_op _ _ _ _ _ _ _ s op) as [s1|] eqn:Ho; [|done]. simpl. intros Hr%IH. apply op_traced in Ho. by etrans.
Qed.

Lemma names_reset s : names (resetInternalState s) = names s.
Proof. unfold names, resetInternalState. simpl. rewrite <-list_fmap_compose. by apply list_fmap_ext. Qed.

Lemma started_traced s0 s :
  e_streamingMode s0 = false → started deref cfg cg sched onEndOfStream elapsed setup s0 s → traced s0 s.
Proof.
  intros Hm [context s' r Hs|inputs context s' r Hs].
  - unfold startStreaming in Hs. case_decide; [by simplify_eq|]. destruct (negb _); [by simplify_eq|].
    destruct (setupNodes _ _ _ s0) as [s1 r1] eqn:Hset. apply (follows_setup _ _ process onEndOfStream elapsed traced) in Hset.
    destruct (negb _); simplify_eq; [done|]. etrans; [exact Hset|]. destruct context; by apply traced_same.
  - unfold execute in Hs. rewrite Hm in Hs. case_decide; [by simplify_eq|]. set (s1 := e_set_context s0 context) in Hs.
    destruct (setupNodes _ _ _ s1) as [s2 r2] eqn:Hset. apply (follows_setup _ _ process onEndOfStream elapsed traced) in Hset.
    assert (traced s0 s2) as T2 by (etrans; [by apply (traced_same s0 s1)|done]).
    destruct (negb _); [simplify_eq; etrans; [exact T2|by apply traced_same]|].
    destruct (distributeInitialInputs _ _ _ _ _ _ _) as [[s4 ok]|] eqn:Hd; [|done]. cbn [mbind option_bind] in Hs.
    apply (follows_distribute _ _ _ process _ _ traced) in Hd.
    assert (traced s0 s4) as T4.
    { etrans; [exact T2|]. etrans; [|exact Hd]. apply traced_same; [apply names_reset|done|done|done]. }
    destruct ok; simplify_eq; [done|]. etrans; [exact T4|by apply traced_same].
Qed.
End Run.

Lemma names_initialized cg qcs sync now : names_ok (initialized (Q := Q) (Sy := Sy) deref cfg qcs cg sync now).
Proof.
  intros p n Hin. apply list_elem_of_fmap in Hin as (nd & Hn & Hnd). apply list_elem_of_lookup_1 in Hnd as [i Hi].
  simpl in Hi. unfold initializeNodeStates in Hi. rewrite list_lookup_imap in Hi.
  apply fmap_Some in Hi as (p' & _ & ->). simpl in Hn. by injection Hn as -> ->.
Qed.

(** ** Claims *)

(** C17: the trace is the record of the calls of user code.  However an engine for a
    compiled graph is started and whatever operations follow, one after the other, the
    [Execute] events its trace sink is given are the calls of [process] and
    [onEndOfStream] the engine made, one event per call and in their order, each with
    the node's name, with the detail [failed] exactly when [process] threw, and with
    the frame and stream of the first identified input (of the first identified
    output, for a flush).  From there, when threads overlap, a call and its event are
    two actions and other nodes may be called or told between them: in every such
    interleaving each node's calls and events still alternate, a call being told
    before the next call of that node and nothing told without a call. *)
Theorem trace_tells_the_calls sink cg s ops :
  running_with deref cfg sched onEndOfStream elapsed setup sink cg s →
  ∃ s', engine_run deref cfg cg sched process onEndOfStream elapsed s ops = Some s' ∧
    executions <$> e_traceSink s' = (λ l, l ++ call_spans [] (e_log s')) <$> (executions <$> sink) ∧
    ∀ f, rtc fstep (fine s') f → ∀ i n, h_nodes (f_shared f) !! i = Some n →
      ∃ calling, talk (vn_node n) (h_seen (f_shared f)) = Some calling.
Proof.
  intros Hr. assert (running_engine deref cfg sched onEndOfStream elapsed setup cg s) as He by (by exists sink).
  destruct (running_run deref cfg sched process onEndOfStream elapsed setup cg s ops He) as (s' & Hs & _).
  exists s'. split; [done|]. split.
  - apply run_traced in Hs. destruct Hr as (g & qcs & sync & now & _ & _ & _ & H0).
    apply started_traced in H0; [|done]. destruct (transitivity (R := traced) H0 Hs) as [_ A (events & L & T)].
    rewrite T, L by apply names_initialized. done.
  - intros f Hf i n Hn. destruct (fi_node _ (running_fine _ _ _ _ _ _ _ cg s ops s' f He Hs Hf) i n Hn) as [_ _ Ht]. by eexists.
Qed.

(** Each posted task has a time of posting. *)
Lemma posted_tasks_timed sink cg s ops s' :
  running_with deref cfg sched onEndOfStream elapsed setup sink cg s →
  engine_run deref cfg cg sched process onEndOfStream elapsed s ops = Some s' → timed s'.
Proof.
  intros (g & qcs & sync & now & _ & _ & _ & H0) Hs. apply run_traced in Hs. apply started_traced in H0; [|done].
  by apply (td_timed _ _ (transitivity (R := traced) H0 Hs)).
Qed.
End Traced.

(** ** A traced run on the diamond *)

Section Example.
#[local] Existing Instance ex_types.
Notation PQ := (NodeQueue (BoundedList PortDataPtr) PortDataPtr).

(** One of the two branches fails. *)
Definition tx_process (log : list Event) (p : NodePtr) (inputs : PortDataMap) : Outcome :=
  if decide (p = 2) then Threw (Some "no model") else ex_process log p inputs.

Definition tx_sink : option TraceSink := Some (mkTraceSink [] (λ _, 7%Z)).
Definition tx_engine : Engine PQ NoSync :=
  (startStreaming ex_node ex_cg ex_sched ex_setup (e_set_traceSink ex_init tx_sink) false).1.
Definition tx_run := engine_run (Q := PQ) (Sy := NoSync) ex_node ex_cfg ex_cg ex_sched tx_process ex_flush ex_elapsed tx_engine ex_ops.

Lemma tx_running : running_with ex_node ex_cfg ex_sched ex_flush ex_elapsed ex_setup tx_sink ex_cg tx_engine.
Proof.
  exists ex_diamond, ∅, mkNoSync, 0%Z. split_and!.
  - exact ex_diamond_reachable.
  - exact (proj2 (proj2 ex_compiled_indices)).
  - exact ex_cg_compiled.
  - eapply (started_streaming _ _ _ _ _ _ _ _ false). unfold tx_engine. apply surjective_pairing.
Qed.

Definition events_of (o : option (Engine PQ NoSync)) : list TraceEvent :=
  default [] (s ← o; ts_events <$> e_traceSink s).
Definition told (phase : TracePhase) (o : option (Engine PQ NoSync)) :=
  (λ e, (te_node e, te_detail e, te_frame_id e, te_start e, te_duration e)) <$> filter (λ e, te_phase e = phase) (events_of o).

(** Four calls of [process], one of them failed, and four flushes; a delay of one
    microsecond was accounted. *)
Example tx_executions :
  (λ '(n, d, f, _, _), (n, d, f)) <$> told TP_Execute tx_run =
    [("n0", "", 1%Z); ("n2", "failed", 1%Z); ("n1", "", 1%Z); ("n3", "", 1%Z); ("n0", "end-of-stream flush", 0%Z);
     ("n1", "end-of-stream flush", 0%Z); ("n3", "end-of-stream flush", 0%Z); ("n2", "end-of-stream flush", 0%Z)] ∧
  (λ '(n, _, _, a, d), (n, a, d)) <$> told TP_Schedule tx_run =
    [("n0", 0, 0); ("n2", 1000, 0); ("n1", 1000, 1); ("n3", 3005, 0)]%Z ∧
  (λ s, es_total_schedule_time_us (e_statistics s)) <$> tx_run = Some 1%Z.
Proof. vm_compute. done. Qed.

Lemma trace_tells_the_calls_witness :
  ∃ s', tx_run = Some s' ∧
    executions <$> e_traceSink s' = Some (call_spans ex_node tx_process ex_flush [] (e_log s')) ∧
    ∀ f, rtc fstep (fine s') f → ∀ i n, h_nodes (f_shared f) !! i = Some n →
      ∃ calling, talk (vn_node n) (h_seen (f_shared f)) = Some calling.
Proof.
  destruct (trace_tells_the_calls ex_node ex_cfg ex_sched tx_process ex_flush ex_elapsed ex_setup tx_sink ex_cg tx_engine
    ex_ops tx_running) as (s' & Hs & He & Ht). exists s'. exact (conj Hs (conj He Ht)).
Defined.

(** A packet that reaches a node over an edge is accepted by the node's queue without
    an [Enqueue] event: of the four nodes that were called on frame 1, only the one it
    was pushed to is in the trace. *)
Theorem propagated_packets_not_enqueued :
  (λ '(n, d, f, _, _), (n, d, f)) <$> told TP_Enqueue tx_run = [("n0", "in", 1%Z)] ∧
  (λ '(n, _, f, _, _), (n, f)) <$> filter (λ '(_, d, _, _, _), d ≠ "end-of-stream flush") (told TP_Execute tx_run) =
    [("n0", 1%Z); ("n2", 1%Z); ("n1", 1%Z); ("n3", 1%Z)].
Proof. vm_compute. done. Qed.
End Example.
