(* ===== verification/BatchRun.v ===== *)
(** * Batch runs compute the dataflow

    An engine for a batch, with nodes that are functions of their inputs, started on
    inputs for its sources: whatever order the workers take the posted tasks in,
    every node runs exactly once, on the packets the equations of [Dataflow] give
    it, and the result callback is called once, with the outputs of the sinks.

    A [Stage] says how far a run has come; [stage_ok] that the engine's state is the
    one that belongs to it.  Tasks run one after the other here, each as one step;
    that tasks of different nodes may overlap is the subject of [NodeLifecycle]. *)

From S2P Require Import Prelude Errors Packets Kahn Graphs CompiledGraphs MpmcQueue NodeQueue FrameAlignment.
From S2P Require Import SyncCoordinator JoinAwareSync ExecutionTypes Schedulers EngineCore EngineGather Dataflow Engine NodeLifecycle.
Local Open Scope string_scope.
Local Open Scope list_scope.
Local Open Scope nat_scope.

Section Batch.
Context `{CppTypes} {Q Sy : Type} `{!PortQueue Q, !PortQueueLaws Q, !SyncStrategy Sy}.
Context (deref : NodePtr → ILogicNode) (cfg : EngineConfig) (cg : CompiledGraph).
Context (onEndOfStream : list Event → NodePtr → Outcome) (elapsed : list Event → Z).
Notation Engine := (Engine Q Sy).
Notation NodeState := (NodeState Q).
Notation Gather := (Gather (Q := Q) (Sy := Sy)).
Notation N := (length (cg_nodes cg)).
Notation ports := (node_ports deref cg).
Implicit Types (s : Engine) (nd : NodeState) (g : Gather).

(** ** Stages *)

(** The nodes that have run, in order; the node that is running; sources not yet
    started; the packets delivered to each port so far. *)
Record Stage := mkStage {
  st_done : list nat;
  st_running : option nat;
  st_held : gset nat;
  st_filled : nat → nat → option PortDataPtr;
}.
Implicit Types (st : Stage).

Definition all_filled (fl : nat → nat → option PortDataPtr) (j : nat) : bool :=
  forallb (λ k, bool_decide (is_Some (fl j k))) (seq 0 (length (ports j))).

Definition consumed st (j : nat) : bool := bool_decide (st_running st = Some j ∨ j ∈ st_done st).

Definition stage_state st (j : nat) : NodeExecutionState :=
  if decide (st_running st = Some j) then EXECUTING
  else if decide (j ∈ st_done st) then COMPLETED
  else if decide (j ∈ st_held st) then WAITING
  else if all_filled (st_filled st) j then READY else WAITING.

Definition stage_items st (j : nat) : list (list PortDataPtr) :=
  (λ k, if consumed st j then [] else from_option (λ x, [x]) [] (st_filled st j k)) <$> seq 0 (length (ports j)).

(** What does not change at a node, and what its queues, state and count are. *)
Record node_base (j : nat) nd : Prop := {
  nb_node : cg_nodes cg !! j = Some (nd_node nd);
  nb_name : nd_name nd = node_name deref cg j;
  nb_ports : nd_input_ports nd = ports j;
  nb_qok : Forall pq_ok (nd_queues nd);
  nb_sync : nd_sync_tracked nd = false;
  nb_degrade : nd_degrade_pending nd = false;
  nb_eos : nd_eos_mask nd = 0%Z;
}.
Record node_is nd (its : list (list PortDataPtr)) (x : NodeExecutionState) (count : Z) : Prop := {
  ni_items : pq_items <$> nd_queues nd = its;
  ni_exec : nd_exec_state nd = x;
  ni_count : nd_execution_count nd = count;
}.

Definition node_ok st (j : nat) nd : Prop :=
  node_base j nd ∧ node_is nd (stage_items st j) (stage_state st j) (if consumed st j then 1 else 0)%Z.

Record flags_ok s : Prop := {
  fo_stop : e_stopFlag s = false;
  fo_stream : e_streamingMode s = false;
  fo_cancel : e_cancelled s = false;
  fo_accepting : e_accepting s = true;
  fo_sync : sy_isEnabled (e_sync s) = false;
}.

Record stage_ok st s : Prop := {
  so_len : length (e_nodes s) = N;
  so_node j nd : e_nodes s !! j = Some nd → node_ok st j nd;
  so_nodup : NoDup (e_pool s);
  so_pool j : j ∈ e_pool s ↔ j < N ∧ stage_state st j = READY;
  so_active : e_activeTasks s = (Z.of_nat (length (e_pool s)) + if st_running st then 1 else 0)%Z;
  so_flags : flags_ok s;
}.

(** What callers see: results, log, latch and state. *)
Definition outside s := (e_results s, e_log s, e_completionReported s, e_state s).

(** What frames are stamped with. *)
Definition stamps s := (e_nextFrameId s, e_nextStreamFrameId s, e_now s).

(** [s'] differs from [s] at node [i] and in statistics and clocks only. *)
Record only (i : nat) s s' : Prop := {
  on_other j : j ≠ i → e_nodes s' !! j = e_nodes s !! j;
  on_len : length (e_nodes s') = length (e_nodes s);
  on_pool : e_pool s' = e_pool s;
  on_active : e_activeTasks s' = e_activeTasks s;
  on_flags : flags_ok s → flags_ok s';
  on_outside : outside s' = outside s;
}.

#[local] Instance only_refl i : Reflexive (only i).
Proof. intros s. by split. Qed.

#[local] Instance only_trans i : Transitive (only i).
Proof.
  intros s1 s2 s3 H1 H2. split.
  - intros j Hj. by rewrite (on_other _ _ _ H2), (on_other _ _ _ H1).
  - by rewrite (on_len _ _ _ H2), (on_len _ _ _ H1).
  - by rewrite (on_pool _ _ _ H2), (on_pool _ _ _ H1).
  - by rewrite (on_active _ _ _ H2), (on_active _ _ _ H1).
  - intros F. by apply H2, H1.
  - by rewrite (on_outside _ _ _ H2), (on_outside _ _ _ H1).
Qed.

Lemma only_upd i s fn : only i s (upd_node s i fn).
Proof.
  split; try done; unfold upd_node; simpl.
  - intros j Hj. by rewrite list_lookup_alter_ne.
  - apply length_alter.
  - by intros [].
Qed.

Lemma only_bump i s fn : only i s (bump s fn).
Proof. split; try done. by intros []. Qed.

Lemma only_now i s t : only i s (e_set_now s t).
Proof. split; try done. by intros []. Qed.

Lemma node_upd i s fn : e_nodes (upd_node s i fn) !! i = fn <$> e_nodes s !! i.
Proof. unfold upd_node. simpl. apply list_lookup_alter_eq. Qed.

Lemma recordDequeue_same i s x : only i s (recordDequeue cfg s x) ∧ e_nodes (recordDequeue cfg s x) = e_nodes s.
Proof. unfold recordDequeue. repeat case_match; (split; [|done]); split; try done; by intros []. Qed.

(** ** Gathering *)

Lemma base_queues j nd qs : node_base j nd → Forall pq_ok qs → node_base j (nd_set_queues nd qs).
Proof. intros [] Hq. by split. Qed.

(** No port is at end of stream. *)
Lemma base_open j nd k : node_base j nd → portDrained nd k = false.
Proof.
  intros B. unfold portDrained, portEosLatched. rewrite (nb_eos _ _ B), Z.testbit_0_l. by case_decide.
Qed.

(** Popping a port that holds one packet. *)
Lemma pop_one s i nd k x l c y :
  e_nodes s !! i = Some nd → node_base i nd → node_is nd l c y → l !! k = Some [x] →
  ∃ s' nd', queue_pop s i k = (s', Some x) ∧ only i s s' ∧ e_nodes s' !! i = Some nd' ∧ node_base i nd' ∧
    node_is nd' (<[k := []]> l) c y.
Proof.
  intros Hi B [Hl He Hc] Hk. rewrite <-Hl, list_lookup_fmap in Hk.
  destruct (nd_queues nd !! k) as [q|] eqn:Hq; [|done]. injection Hk as Hx.
  unfold queue_pop, stateByIndex. rewrite Hi. simpl. rewrite Hq.
  destruct (pq_tryPop q) as [q' r] eqn:Hp. destruct (pq_pop_spec _ _ _ Hp) as (Hok & -> & Hi').
  rewrite Hx in Hi' |- *. simpl in Hi'. eexists _, _. split_and!; [done|apply only_upd| | |].
  - unfold upd_queue. rewrite node_upd, Hi. done.
  - apply base_queues; [done|]. apply Forall_insert; [apply B|]. apply Hok.
    eapply (Forall_lookup_1 pq_ok); [apply B|done].
  - split; [|done|done]. simpl. by rewrite list_fmap_insert, Hi', Hl.
Qed.

Lemma pop_undropped_one g nd k x l c y fuel :
  e_nodes (ga_engine g) !! ga_index g = Some nd → node_base (ga_index g) nd → node_is nd l c y → l !! k = Some [x] →
  ∃ g' nd', pop_undropped cfg (S fuel) g k = (g', true) ∧ only (ga_index g) (ga_engine g) (ga_engine g') ∧
    ga_index g' = ga_index g ∧ ga_delivered g' = ga_delivered g ++ [(k, x)] ∧
    e_nodes (ga_engine g') !! ga_index g = Some nd' ∧ node_base (ga_index g) nd' ∧ node_is nd' (<[k := []]> l) c y.
Proof.
  intros Hi B I Hk. destruct (pop_one _ _ _ _ _ _ _ _ Hi B I Hk) as (s' & nd' & Hp & Ho & Hi' & B' & I').
  cbn [pop_undropped]. rewrite Hp. unfold stateByIndex. rewrite Hi', (nb_sync _ _ B').
  destruct (recordDequeue_same (ga_index g) s' x) as [Hr Hn].
  assert ((match x with Some p => false && hasFrameId p && sy_shouldDrop (e_sync s') (nd_name nd') (dp_frameId p)
                   | None => false end) = false) as -> by (by destruct x).
  eexists _, nd'. split_and!; [done| |done|done| |done|done]; simpl.
  - by etrans.
  - by rewrite Hn.
Qed.

Lemma plain_gather_all n b g nd (x : nat → PortDataPtr) l c y a :
  e_nodes (ga_engine g) !! ga_index g = Some nd → node_base (ga_index g) nd → node_is nd l c y →
  length l = a + n → (∀ k, a ≤ k < a + n → l !! k = Some [x k]) → (b = true ∨ n ≠ 0) →
  ∃ g' nd', plain_gather cfg (seq a n) b g = (g', true) ∧ only (ga_index g) (ga_engine g) (ga_engine g') ∧
    ga_delivered g' = ga_delivered g ++ ((λ k, (k, x k)) <$> seq a n) ∧
    e_nodes (ga_engine g') !! ga_index g = Some nd' ∧ node_base (ga_index g) nd' ∧
    node_is nd' (take a l ++ replicate n []) c y.
Proof.
  revert b g nd l a. induction n as [|n IH]; intros b g nd l a Hi B I Hlen Hx Hb; cbn [seq plain_gather].
  - destruct Hb as [->|]; [|done]. exists g, nd. split_and!; [done|done|by rewrite app_nil_r|done|done|].
    by rewrite app_nil_r, take_ge by lia.
  - unfold stateByIndex. rewrite Hi, (base_open _ _ _ B).
    destruct (pop_undropped_one g nd a (x a) l c y (queue_length (ga_engine g) (ga_index g) a) Hi B I)
      as (g1 & nd1 & -> & Ho1 & Hx1 & Hd1 & Hi1 & B1 & I1); [apply Hx; lia|]. rewrite <-Hx1 in Hi1, B1.
    destruct (IH true g1 nd1 (<[a := []]> l) (S a)) as (g2 & nd2 & -> & Ho2 & Hd2 & Hi2 & B2 & I2);
      [done|done|done|rewrite length_insert; lia| |by left|].
    { intros k Hk. rewrite list_lookup_insert_ne by lia. apply Hx. lia. }
    rewrite Hx1 in *. exists g2, nd2. split_and!; [done|by etrans| |done|done|].
    + rewrite Hd2, Hd1, <-(assoc_L (++)). done.
    + assert (take (S a) (<[a := []]> l) = take a l ++ [[]]) as Ht.
      { rewrite (take_S_r _ _ []), take_insert_ge by (try lia; apply list_lookup_insert_eq; lia). done. }
      rewrite Ht, <-(assoc_L (++)) in I2. done.
Qed.

(** With a packet at every port, no synchronization strategy and the default
    alignment, a node gathers them all. *)
Lemma gather_all s i nd (x : nat → PortDataPtr) c y :
  ec_alignment_policy cfg = AP_FrameId → flags_ok s → e_nodes s !! i = Some nd → node_base i nd →
  node_is nd ((λ k, [x k]) <$> seq 0 (length (ports i))) c y →
  ∃ g nd', gatherNodeInputs cfg s i = Some (g, true) ∧ only i s (ga_engine g) ∧
    ga_delivered g = (λ k, (k, x k)) <$> seq 0 (length (ports i)) ∧
    e_nodes (ga_engine g) !! i = Some nd' ∧ node_base i nd' ∧ node_is nd' (replicate (length (ports i)) []) c y.
Proof.
  intros Hal F Hi B I. unfold gatherNodeInputs, stateByIndex. rewrite Hi, (nb_ports _ _ B).
  assert (∀ s1 nd1, only i s s1 → e_nodes s1 !! i = Some nd1 → node_base i nd1 →
    node_is nd1 ((λ k, [x k]) <$> seq 0 (length (ports i))) c y →
    ∃ g nd', plain_gather cfg (seq 0 (length (ports i))) (bool_decide (ports i = [])) (mkGather s1 i []) = (g, true) ∧
      only i s (ga_engine g) ∧ ga_delivered g = (λ k, (k, x k)) <$> seq 0 (length (ports i)) ∧
      e_nodes (ga_engine g) !! i = Some nd' ∧ node_base i nd' ∧
      node_is nd' (replicate (length (ports i)) []) c y) as Hplain.
  { intros s1 nd1 H1 Hi1 B1 I1.
    destruct (plain_gather_all (length (ports i)) (bool_decide (ports i = [])) (mkGather s1 i []) nd1 x _ c y 0 Hi1 B1 I1)
      as (g & nd' & Hg & Ho & Hd & Hi' & B' & I').
    - by rewrite length_fmap, length_seq.
    - intros k Hk. rewrite list_lookup_fmap, lookup_seq_lt by lia. done.
    - destruct (ports i); [by left|by right].
    - exists g, nd'. split_and!; [done|by etrans|done|done|done|done]. }
  case_decide as Hn.
  - rewrite (nb_degrade _ _ B), andb_false_r. fold (consume_degrade cfg s i). unfold aligned_gather. rewrite Hal. simpl.
    assert (∃ nd1, only i s (consume_degrade cfg s i) ∧ e_nodes (consume_degrade cfg s i) !! i = Some nd1 ∧ node_base i nd1 ∧
      node_is nd1 ((λ k, [x k]) <$> seq 0 (length (ports i))) c y) as (nd1 & H1 & Hi1 & B1 & I1).
    { unfold consume_degrade. case_decide; [|by exists nd]. exists (nd_set_degrade_pending nd false).
      split_and!; [apply only_upd|by rewrite node_upd, Hi|destruct B; by split|destruct I; by split]. }
    rewrite (fo_sync _ (on_flags _ _ _ H1 F)).
    destruct (Hplain _ _ H1 Hi1 B1 I1) as (g & nd' & -> & ?). eauto.
  - destruct (Hplain s nd) as (g & nd' & -> & ?); eauto. reflexivity.
Qed.

Lemma stage_state_open st j : consumed st j = false →
  stage_state st j = if decide (j ∈ st_held st) then WAITING else if all_filled (st_filled st) j then READY else WAITING.
Proof.
  intros Hc%bool_decide_eq_false. unfold stage_state.
  by rewrite (decide_False (P := st_running st = Some j)), (decide_False (P := j ∈ st_done st)) by tauto.
Qed.

(** ** Scheduling *)

Notation tryScheduleNode := (tryScheduleNode cg BatchScheduler onEndOfStream elapsed).

Definition with_held st (h : gset nat) : Stage := mkStage (st_done st) (st_running st) h (st_filled st).

Lemma stop_not_requested s : flags_ok s → isStopRequested s = (s, false).
Proof. intros F. unfold isStopRequested. by rewrite (fo_stop _ F), (fo_cancel _ F), andb_false_r. Qed.

Lemma filter_all {A} (P : A → Prop) `{!∀ x, Decision (P x)} (l : list A) : (∀ x, x ∈ l → P x) → filter P l = l.
Proof.
  induction l as [|a l IH]; intros Hp; [done|]. rewrite filter_cons, decide_True by (apply Hp; set_solver).
  f_equal. apply IH. intros x Hx. apply Hp. set_solver.
Qed.

(** A waiting node is scheduled exactly when each of its ports has a packet. *)
Lemma batch_decision st j nd :
  node_ok st j nd → consumed st j = false →
  let decision := sr_decision (batch_shouldSchedule (scheduling_context cg nd j)) in
  (all_filled (st_filled st) j = true → decision = ScheduleNow) ∧
  (all_filled (st_filled st) j = false → isSource cg j = false → decision = WaitForInputs).
Proof.
  intros [B I] Hc. assert (length (nd_queues nd) = length (ports j)) as Hlen.
  { rewrite <-(length_fmap pq_items), (ni_items _ _ _ _ I). unfold stage_items. by rewrite length_fmap, length_seq. }
  assert (∀ k, k < length (ports j) → match nd_queues nd !! k with
    | Some q => bool_decide (pq_size q ≠ 0%Z) | None => false end = bool_decide (is_Some (st_filled st j k))) as Hsize.
  { intros k Hk. destruct (lookup_lt_is_Some_2 (nd_queues nd) k) as [q Hq]; [lia|]. rewrite Hq, pq_size_spec.
    assert (pq_items <$> nd_queues nd !! k = Some (from_option (λ x, [x]) [] (st_filled st j k))) as Hits.
    { rewrite <-list_lookup_fmap, (ni_items _ _ _ _ I). unfold stage_items.
      rewrite list_lookup_fmap, lookup_seq_lt, Hc by done. done. }
    rewrite Hq in Hits. injection Hits as ->. apply bool_decide_ext. destruct (st_filled st j k); simpl; [by split|].
    split; [done|]. by intros [? ?]. }
  cbv zeta. unfold batch_shouldSchedule, scheduling_context. simpl.
  rewrite Hlen, (filter_all (λ i, portDrained nd i = false)) by (intros k _; by eapply base_open).
  rewrite length_seq. set (ready := filter _ _).
  assert (all_filled (st_filled st) j = true ↔ length (ports j) ≤ length ready) as Hall.
  { unfold all_filled. rewrite <-Is_true_true, forallb_True, Forall_forall. split.
    - intros Ha. unfold ready. rewrite filter_all, length_seq; [done|]. intros k Hk. specialize (Ha k Hk).
      apply elem_of_seq in Hk. rewrite Hsize by lia. by apply Is_true_true.
    - intros Hl k Hk. destruct (decide (is_Some (st_filled st j k))) as [Hs|Hs]; [by case_bool_decide|].
      exfalso. pose proof (length_filter_lt (λ i, match nd_queues nd !! i with
        | Some q => bool_decide (pq_size q ≠ 0%Z) | None => false end = true) (seq 0 (length (ports j))) k Hk) as Hlt.
      rewrite length_seq in Hlt. fold ready in Hlt. apply elem_of_seq in Hk. rewrite Hsize in Hlt by lia.
      rewrite bool_decide_eq_false_2 in Hlt by done. specialize (Hlt ltac:(done)). lia. }
  unfold allInputsReady. simpl. split.
  - intros Ha%Hall. rewrite (bool_decide_eq_true_2 (Z.of_nat (length (ports j)) ≤ Z.of_nat (length ready))%Z) by lia.
    by repeat case_match.
  - intros Ha Hs. rewrite Hs. simpl. rewrite bool_decide_eq_false_2; [done|]. intros Hle.
    assert (all_filled (st_filled st) j = true) by (apply Hall; lia). congruence.
Qed.

Lemma lookup_set_exec s i x j :
  e_nodes (set_exec s i x) !! j = (λ nd, if decide (i = j) then nd_set_exec_state nd x else nd) <$> e_nodes s !! j.
Proof.
  unfold set_exec, upd_node. simpl. rewrite list_lookup_alter. case_decide; [by subst|by destruct (e_nodes s !! j)].
Qed.

(** A node that may start is posted if its ports are filled; otherwise it waits. *)
Lemma try_release st s j :
  stage_ok st s → j < N → j ∈ st_held st → consumed st j = false →
  (all_filled (st_filled st) j = true ∨ isSource cg j = false) →
  ∃ s', tryScheduleNode s j = Some s' ∧ stage_ok (with_held st (st_held st ∖ {[j]})) s' ∧
    outside s' = outside s ∧ stamps s' = stamps s.
Proof.
  intros S Hj Hh Hc Hready. unfold Engine.tryScheduleNode, tryScheduleNode_with.
  rewrite stop_not_requested by apply S. destruct (lookup_lt_is_Some_2 (e_nodes s) j) as [nd Hnd]; [by rewrite (so_len _ _ S)|].
  unfold stateByIndex. rewrite Hnd. destruct (so_node _ _ S j nd Hnd) as [B I].
  assert (stage_state st j = WAITING) as Hw by (by rewrite stage_state_open, decide_True).
  rewrite decide_False by (rewrite (ni_exec _ _ _ _ I), Hw; naive_solver).
  assert (allInputPortsDrained nd = false) as ->.
  { unfold allInputPortsDrained. rewrite (nb_ports _ _ B). destruct (ports j) as [|p l]; [done|]. simpl.
    by rewrite (base_open _ _ _ B). }
  destruct (batch_decision st j nd) as [Hnow Hwait]; [by split|done|]. cbv zeta in Hnow, Hwait.
  set (st' := with_held st _).
  assert (∀ i, i ≠ j → stage_state st' i = stage_state st i) as Hother.
  { intros i Hi. unfold stage_state, st'. simpl. repeat case_decide; set_solver. }
  assert (stage_state st' j = if all_filled (st_filled st) j then READY else WAITING) as Hself.
  { rewrite stage_state_open by done. rewrite decide_False by (simpl; set_solver). done. }
  unfold shouldSchedule. destruct (all_filled (st_filled st) j) eqn:Hall.
  - rewrite Hnow by done. eexists. split; [done|]. unfold scheduleNodeExecution, stateByIndex. rewrite Hnd.
    rewrite decide_False by (rewrite (ni_exec _ _ _ _ I), Hw; naive_solver). simpl.
    rewrite (fo_accepting _ (so_flags _ _ S)).
    assert (j ∉ e_pool s) as Hnp by (rewrite (so_pool _ _ S), Hw; naive_solver).
    split; [|done]. split; simpl.
    + unfold set_exec, upd_node. simpl. by rewrite length_alter, (so_len _ _ S).
    + intros i nd'. change (e_nodes (set_exec s j READY) !! i = Some nd' → node_ok st' i nd').
      rewrite lookup_set_exec. intros (nd0 & H0 & ->)%fmap_Some. destruct (so_node _ _ S i nd0 H0) as [[] [I1 I2 I3]].
      case_decide as Hij; (split; [by split|split; [exact I1| |exact I3]]); simpl.
      * subst i. by rewrite Hself.
      * by rewrite Hother.
    + apply NoDup_app. split_and!; [apply S|set_solver|apply NoDup_singleton].
    + intros i. rewrite elem_of_app, list_elem_of_singleton, (so_pool _ _ S). destruct (decide (i = j)) as [->|Hij].
      * rewrite Hself. naive_solver.
      * rewrite Hother by done. naive_solver.
    + rewrite (so_active _ _ S), length_app. simpl. lia.
    + by destruct (so_flags _ _ S).
  - destruct Hready as [|Hs]; [done|]. rewrite Hwait by done. eexists. split; [done|]. split; [|done].
    assert (∀ i, stage_state st' i = stage_state st i) as Hsame.
    { intros i. destruct (decide (i = j)) as [->|]; [|by apply Hother]. by rewrite Hself, Hw. }
    split; try apply S.
    + intros i nd' Hi. destruct (so_node _ _ S i nd' Hi) as [B' [I1 I2 I3]]. split; [done|]. split; [done| |done].
      by rewrite Hsame.
    + intros i. rewrite Hsame. apply S.
Qed.

(** ** Delivering outputs *)

Definition upd_filled (fl : nat → nat → option PortDataPtr) (j k : nat) (x : option PortDataPtr) :=
  λ j' k', if decide (j' = j ∧ k' = k) then x else fl j' k'.

Lemma all_filled_spec fl j : all_filled fl j = true ↔ ∀ k, k < length (ports j) → is_Some (fl j k).
Proof.
  unfold all_filled. rewrite <-Is_true_true, forallb_True, Forall_forall. split.
  - intros Ha k Hk. specialize (Ha k). rewrite elem_of_seq in Ha. specialize (Ha ltac:(lia)). by case_bool_decide.
  - intros Ha k [_ Hk]%elem_of_seq. apply Is_true_true, bool_decide_eq_true, Ha. lia.
Qed.

Lemma all_filled_ext fl fl' j : (∀ k, fl j k = fl' j k) → all_filled fl j = all_filled fl' j.
Proof. intros Hfl. apply eq_bool_prop_intro. rewrite !Is_true_true, !all_filled_spec. by setoid_rewrite Hfl. Qed.

(** The engine's view depends on a stage through states and queue contents only. *)
Lemma stage_ext st st' s :
  stage_ok st s → (∀ j, stage_state st' j = stage_state st j) → (∀ j, consumed st' j = consumed st j) →
  (∀ j k, consumed st j = false → k < length (ports j) → st_filled st' j k = st_filled st j k) →
  (if st_running st' then 1 else 0)%Z = (if st_running st then 1 else 0)%Z → stage_ok st' s.
Proof.
  intros S Hst Hc Hfl Hr. split; try apply S.
  - intros j nd Hj. destruct (so_node _ _ S j nd Hj) as [B [I1 I2 I3]]. split; [done|]. split.
    + rewrite I1. unfold stage_items. rewrite Hc. apply list_fmap_ext. intros a k [-> Ha]%lookup_seq.
      destruct (consumed st j) eqn:E; [done|]. by rewrite Hfl.
    + by rewrite Hst.
    + by rewrite Hc.
  - intros j. rewrite Hst. apply S.
  - rewrite Hr. apply S.
Qed.

Lemma push_fill st s j k x :
  stage_ok st s → j < N → consumed st j = false → st_filled st j k = None → k < length (ports j) →
  ∃ s', queue_push s j k x = (s', true) ∧
    stage_ok (mkStage (st_done st) (st_running st) ({[j]} ∪ st_held st) (upd_filled (st_filled st) j k (Some x))) s' ∧
    outside s' = outside s ∧ stamps s' = stamps s.
Proof.
  intros S Hj Hc Hnone Hk. set (st' := mkStage _ _ _ _).
  destruct (lookup_lt_is_Some_2 (e_nodes s) j) as [nd Hnd]; [by rewrite (so_len _ _ S)|].
  destruct (so_node _ _ S j nd Hnd) as [B [I1 I2 I3]]. unfold queue_push, stateByIndex. rewrite Hnd.
  assert (pq_items <$> nd_queues nd !! k = Some []) as Hq.
  { rewrite <-list_lookup_fmap, I1. unfold stage_items. rewrite list_lookup_fmap, lookup_seq_lt by done. simpl.
    by rewrite Hc, Hnone. }
  destruct (nd_queues nd !! k) as [q|] eqn:Hqk; [|done]. injection Hq as Hq.
  assert (pq_ok q) as Hok by (eapply (Forall_lookup_1 pq_ok); [apply B|done]).
  destruct (pq_push q x) as [[q' ok] ev] eqn:Hp. destruct (pq_push_empty _ _ _ _ _ Hok Hq Hp) as [-> ->].
  destruct (pq_push_spec _ _ _ _ _ Hok Hp) as [Hok' (d & Hits)]. rewrite Hq, drop_nil in Hits. simpl in Hits.
  eexists. split; [done|]. split; [|done].
  assert (stage_state st j = WAITING) as Hw.
  { rewrite stage_state_open by done. case_decide; [done|].
    destruct (all_filled _ j) eqn:Ha; [|done]. rewrite all_filled_spec in Ha. destruct (Ha k Hk). congruence. }
  assert (∀ i, stage_state st' i = stage_state st i) as Hst.
  { intros i. destruct (decide (i = j)) as [->|Hij].
    - rewrite Hw, stage_state_open by done. by rewrite decide_True by (simpl; set_solver).
    - unfold stage_state, st'. simpl.
      rewrite (all_filled_ext (upd_filled _ _ _ _) (st_filled st)) by (intros k'; unfold upd_filled; by rewrite decide_False by tauto).
      repeat case_decide; set_solver. }
  split; cbn [foldl]; unfold upd_queue, upd_node; cbn [e_nodes e_pool e_activeTasks st_running e_set_nodes].
  - by rewrite length_alter, (so_len _ _ S).
  - intros i nd'. rewrite list_lookup_alter. case_decide as Hij.
    + subst i. rewrite Hnd. intros [= <-]. split; [by apply base_queues; [|apply Forall_insert; [apply B|]]|].
      split; simpl; [|by rewrite Hst|exact I3]. rewrite list_fmap_insert, Hits, I1. unfold stage_items.
      change (consumed st' j) with (consumed st j). rewrite Hc. apply list_eq. intros m.
      rewrite list_lookup_fmap. destruct (decide (m < length (ports j))) as [Hm|Hm].
      * rewrite lookup_seq_lt by done. simpl. unfold upd_filled. destruct (decide (k = m)) as [->|Hkm].
        -- rewrite list_lookup_insert_eq by (rewrite length_fmap, length_seq; done). by rewrite decide_True.
        -- rewrite list_lookup_insert_ne, list_lookup_fmap, lookup_seq_lt by done. by rewrite decide_False by (intros [? ?]; congruence).
      * rewrite !lookup_ge_None_2; [done|rewrite length_seq; lia|rewrite length_insert, length_fmap, length_seq; lia].
    + intros Hi. destruct (so_node _ _ S i nd' Hi) as [B' [J1 J2 J3]]. split; [done|].
      split; [|by rewrite Hst|exact J3]. rewrite J1. unfold stage_items. apply list_fmap_ext. intros _ m _.
      change (consumed st' i) with (consumed st i). case_match; [done|]. unfold st', upd_filled. simpl.
      by rewrite decide_False by (intros [? ?]; congruence).
  - apply S.
  - intros i. rewrite Hst. apply S.
  - apply S.
  - by destruct (so_flags _ _ S).
Qed.

Notation propagate_edge := (propagate_edge cg BatchScheduler (checkEos cg BatchScheduler onEndOfStream elapsed)).

(** The ports an edge list fills. *)
Definition fill (outputs : PortDataMap) fl (edges : list OutEdge) : nat → nat → option PortDataPtr :=
  foldl (λ fl e, match oe_dest_port_index e with
                 | Some k => upd_filled fl (oe_dest_node e) k (pm_find outputs (oe_source_port e))
                 | None => fl
                 end) fl edges.

(** An edge whose port is still empty and whose packet is there. *)
Definition deliverable st (outputs : PortDataMap) (e : OutEdge) : Prop :=
  ∃ k x, oe_dest_port_index e = Some k ∧ pm_find outputs (oe_source_port e) = Some x ∧ oe_dest_node e < N ∧
    consumed st (oe_dest_node e) = false ∧ isSource cg (oe_dest_node e) = false ∧
    k < length (ports (oe_dest_node e)) ∧ st_filled st (oe_dest_node e) k = None.

Lemma deliver_edge st s outputs e :
  stage_ok st s → st_held st = ∅ → deliverable st outputs e →
  ∃ s', propagate_edge outputs (Some s) e = Some s' ∧
    stage_ok (mkStage (st_done st) (st_running st) ∅ (fill outputs (st_filled st) [e])) s' ∧ outside s' = outside s.
Proof.
  intros S Hh (k & x & Hk & Hx & Hd & Hc & Hs & Hlt & Hn). unfold Engine.propagate_edge. cbn [mbind option_bind].
  destruct (lookup_lt_is_Some_2 (e_nodes s) (oe_dest_node e)) as [nd Hnd]; [by rewrite (so_len _ _ S)|].
  unfold stateByIndex. rewrite Hx, Hnd, Hk. destruct (so_node _ _ S _ nd Hnd) as [B [I1 I2 I3]].
  destruct (lookup_lt_is_Some_2 (nd_queues nd) k) as [q Hq].
  { rewrite <-(length_fmap pq_items), I1. unfold stage_items. by rewrite length_fmap, length_seq. }
  rewrite Hq. destruct (push_fill st s _ k x S Hd Hc Hn Hlt) as (s1 & -> & S1 & Ho1 & _).
  destruct (try_release _ s1 (oe_dest_node e) S1) as (s2 & Ht & S2 & Ho2 & _);
    [done|simpl; set_solver|exact Hc|by right|].
  exists s2. split; [exact Ht|]. split; [|by rewrite Ho2].
  simpl in S2. rewrite Hh in S2. unfold with_held in S2. simpl in S2. unfold fill. cbn [foldl]. rewrite Hk, Hx.
  replace (({[oe_dest_node e]} ∪ ∅) ∖ {[oe_dest_node e]} : gset nat) with (∅ : gset nat) in S2 by set_solver. exact S2.
Qed.

Lemma deliver_edges st s outputs es :
  stage_ok st s → st_held st = ∅ → Forall (deliverable st outputs) es →
  NoDup ((λ e, (oe_dest_node e, oe_dest_port_index e)) <$> es) →
  ∃ s', foldl (propagate_edge outputs) (Some s) es = Some s' ∧
    stage_ok (mkStage (st_done st) (st_running st) ∅ (fill outputs (st_filled st) es)) s' ∧ outside s' = outside s.
Proof.
  revert st s. induction es as [|e es IH]; intros st s S Hh Hall Hnd.
  - exists s. split; [done|]. split; [|done]. by eapply stage_ext; [exact S|..]; unfold stage_state; rewrite ?Hh.
  - apply Forall_cons in Hall as [He Hall]. rewrite fmap_cons in Hnd. apply NoDup_cons in Hnd as [Hfresh Hnd].
    destruct (deliver_edge st s outputs e S Hh He) as (s1 & Hs1 & S1 & Ho1).
    destruct (IH _ s1 S1) as (s2 & Hs2 & S2 & Ho2); [done| |done|].
    + rewrite Forall_forall in Hall |- *. intros e' He'. destruct (Hall e' He') as (k & x & Hk & Hx & Hd & Hc & Hs & Hlt & Hn).
      exists k, x. split_and!; try done. simpl. unfold fill. simpl. destruct He as (k0 & x0 & Hk0 & _). rewrite Hk0.
      unfold upd_filled. rewrite decide_False; [done|]. intros [Hd' Hk']. apply Hfresh, list_elem_of_fmap.
      exists e'. split; [|done]. by rewrite Hk0, Hk, Hd', Hk'.
    + exists s2. cbn [foldl]. rewrite Hs1. split; [exact Hs2|]. split; [exact S2|]. by rewrite Ho2.
Qed.

(** ** Running a node *)

(** What each node computes. *)
Context (f : NodePtr → PortDataMap → PortDataMap).

Notation process := (λ (_ : list Event) (p : NodePtr) (inputs : PortDataMap), Returned (f p inputs)).
Notation propagateOutputs := (propagateOutputs cg BatchScheduler onEndOfStream elapsed).
Notation checkEos := (checkEos cg BatchScheduler onEndOfStream elapsed).
Notation task_done := (task_done cg BatchScheduler).
Notation run_task := (run_task cfg cg BatchScheduler process onEndOfStream elapsed).

(** Node [i] of [s'] has taken its inputs and is running; the rest is as in [s]. *)
Record running_at (i : nat) (its : list (list PortDataPtr)) (count : Z) s s' : Prop := {
  ra_other j : j ≠ i → e_nodes s' !! j = e_nodes s !! j;
  ra_len : length (e_nodes s') = length (e_nodes s);
  ra_node : ∃ nd, e_nodes s' !! i = Some nd ∧ node_base i nd ∧ node_is nd its EXECUTING count;
  ra_pool : e_pool s' = e_pool s;
  ra_active : e_activeTasks s' = e_activeTasks s;
  ra_flags : flags_ok s';
}.

Lemma running_only i its count s s1 s2 :
  running_at i its count s s1 → only i s1 s2 → (∀ nd, e_nodes s1 !! i = Some nd → ∃ nd', e_nodes s2 !! i = Some nd' ∧
    (node_base i nd → node_base i nd') ∧ (node_is nd its EXECUTING count → node_is nd' its EXECUTING count)) →
  running_at i its count s s2.
Proof.
  intros [R1 R2 (nd & Hi & B & I) R4 R5 R6] O Hnd. destruct (Hnd nd Hi) as (nd' & Hi' & HB & HI). split.
  - intros j Hj. by rewrite (on_other _ _ _ O), R1.
  - by rewrite (on_len _ _ _ O), R2.
  - exists nd'. auto.
  - by rewrite (on_pool _ _ _ O).
  - by rewrite (on_active _ _ _ O).
  - by apply O.
Qed.

(** What happens between the gather and the propagation of the outputs. *)
Lemma run_node_start s s2 i nd inputs its :
  node_base i nd → running_at i its 0 s s2 →
  let outputs := inheritFrameIdentity inputs (f (nd_node nd) inputs) in
  ∃ s3 start, running_at i its 1 s s3 ∧
    outside s3 = (if isSink cg i then collect (e_results s2) (nd_name nd) outputs else e_results s2,
                  e_log s2 ++ [EvProcess (nd_node nd) inputs], e_completionReported s2, e_state s2) ∧
    run_node cfg cg BatchScheduler process onEndOfStream elapsed s2 i nd inputs =
      (s ← propagateOutputs s3 i outputs;
       '(s, _) ← checkEos (set_exec (trace_propagation s nd outputs start) i COMPLETED) i; Some (task_done s)).
Proof.
  intros B R outputs. unfold run_node, run_node_with. cbn [processNode].
  set (s3 := e_set_now _ _).
  assert (running_at i its 0 s s3) as R3.
  { destruct R as [R1 R2 R3 R4 R5 [F1 F2 F3 F4 F5]]. by split. }
  assert (outside s3 = (e_results s2, e_log s2 ++ [EvProcess (nd_node nd) inputs], e_completionReported s2, e_state s2)) as O3
    by done.
  generalize dependent s3. intros s3 R3 O3. set (t3 := emitTrace s3 _ _ _ _ _ _). set (s4 := bump t3 _).
  assert (running_at i its 0 s s4) as R4.
  { destruct R3 as [A1 A2 A3 A4 A5 [F1 F2 F3 F4 F5]]. by split. }
  assert (outside s4 = outside s3) as O4 by done. generalize dependent s4. intros s4 R4 O4.
  set (s5 := if ec_enable_statistics cfg then _ else s4).
  assert (running_at i its 0 s s5 ∧ outside s5 = outside s4) as [R5 O5].
  { unfold s5. destruct (ec_enable_statistics cfg); [|done]. split; [|done].
    eapply running_only; [exact R4|apply only_upd|]. intros nd0 Hnd0. rewrite node_upd, Hnd0. eexists. split; [done|].
    split; intros []; by split. }
  generalize dependent s5. intros s5 R5 O5. rewrite (fo_stop _ (ra_flags _ _ _ _ _ R5)).
  unfold mark_processed. rewrite (nb_sync _ _ B). fold outputs.
  assert (running_at i its 0 s (record_latency cfg cg s5 i inputs) ∧
    outside (record_latency cfg cg s5 i inputs) = outside s5) as [R6 O6].
  { unfold record_latency. repeat case_match; (split; [|done]); try done.
    eapply running_only; [exact R5|apply only_bump|]. intros nd0 Hnd0. by exists nd0. }
  generalize dependent (record_latency cfg cg s5 i inputs). intros s6 R6 O6. unfold handleNodeSuccess.
  cbn [onNodeComplete]. set (s7 := bump (upd_node s6 _ _) _).
  assert (running_at i its 1 s s7) as R7.
  { destruct R6 as [A1 A2 (nd0 & Hi & [] & [I1 I2 I3]) A4 A5 [F1 F2 F3 F4 F5]]. split; try done; simpl.
    - intros j Hj. unfold upd_node. simpl. by rewrite list_lookup_alter_ne, A1.
    - by rewrite length_alter, A2.
    - rewrite list_lookup_alter_eq, Hi. eexists. split; [done|]. split; [by split|]. split; [done|done|]. simpl.
      by rewrite I3. }
  assert (outside s7 = outside s6) as O7 by done. generalize dependent s7. intros s7 R7 O7.
  set (s8 := if isSink cg i then _ else s7). exists s8, (e_now s8). split_and!.
  - unfold s8. destruct (isSink cg i); [|done]. destruct R7 as [A1 A2 A3 A4 A5 [F1 F2 F3 F4 F5]]. by split.
  - rewrite O6, O5, O4, O3 in O7. injection O7 as H1 H2 H3 H4. unfold s8.
    destruct (isSink cg i); unfold outside; simpl; [|congruence]. unfold collect. congruence.
  - fold s8. destruct (propagateOutputs s8 i outputs) as [s9|]; done.
Qed.

(** An edge that is delivered, and ports that are not touched. *)
Lemma fill_other outs fl es j k :
  (∀ e, e ∈ es → (oe_dest_node e, oe_dest_port_index e) ≠ (j, Some k)) → fill outs fl es j k = fl j k.
Proof.
  revert fl. unfold fill. induction es as [|e es IH]; intros fl He; [done|]. simpl. rewrite IH by (intros; apply He; set_solver).
  specialize (He e ltac:(set_solver)). destruct (oe_dest_port_index e) as [k0|]; [|done]. unfold upd_filled.
  rewrite decide_False; [done|]. intros [-> ->]. done.
Qed.

Lemma fill_edge outs fl es e k :
  NoDup ((λ e, (oe_dest_node e, oe_dest_port_index e)) <$> es) → e ∈ es → oe_dest_port_index e = Some k →
  fill outs fl es (oe_dest_node e) k = pm_find outs (oe_source_port e).
Proof.
  revert fl. induction es as [|e0 es IH]; intros fl Hnd He Hk; [by apply not_elem_of_nil in He|].
  rewrite fmap_cons in Hnd. apply NoDup_cons in Hnd as [Hf Hnd].
  apply elem_of_cons in He as [<-|He]; [|by apply (IH _ Hnd He Hk)].
  change (fill outs (fill outs fl [e]) es (oe_dest_node e) k = pm_find outs (oe_source_port e)).
  rewrite fill_other.
  - unfold fill. simpl. rewrite Hk. unfold upd_filled. by rewrite decide_True.
  - intros e' He' Heq. apply Hf, list_elem_of_fmap. exists e'. split; [|done]. by rewrite Heq, Hk.
Qed.

Lemma inherit_find inputs outputs k :
  is_Some (pm_find outputs k) → is_Some (pm_find (inheritFrameIdentity inputs outputs) k).
Proof.
  unfold inheritFrameIdentity. destruct (primaryFrame inputs) as [pr|]; [|done].
  induction outputs as [|[k0 v] outputs IH]; [done|]. rewrite fmap_cons. simpl. rewrite !pm_find_cons.
  case_decide; [by eexists|done].
Qed.

(** ** The stages of a run *)

Context (fed : gmap nat PortDataPtr).
Context (G : dag_ok deref cg) (D : determined deref cg).
(** Sources that need a packet have one, and nodes put out what their edges carry. *)
Definition sources_fed : Prop := ∀ j, j < N → isSource cg j = true → ports j ≠ [] → is_Some (fed !! j).
Definition outputs_complete : Prop :=
  ∀ i p e, cg_nodes cg !! i = Some p → e ∈ outEdges cg i → ∀ inputs, is_Some (pm_find (f p inputs) (oe_source_port e)).
Context (Hfed : sources_fed) (Hfull : outputs_complete).
Notation den := (dataflow deref cg f fed).
Notation packet := (packet cg fed den).

Definition filled_after (dn : list nat) (j k : nat) : option PortDataPtr :=
  if isSource cg j then fed !! j
  else match feeder cg j k with
       | Some (i, e) => if decide (i ∈ dn) then packet j k else None
       | None => None
       end.

Definition stage_after (dn : list nat) : Stage := mkStage dn None ∅ (filled_after dn).

(** A node has run only after the nodes that feed it. *)
Definition closed (dn : list nat) : Prop :=
  ∀ i e, i < N → e ∈ outEdges cg i → oe_dest_node e ∈ dn → i ∈ dn.

Lemma den_packet i e : i < N → e ∈ outEdges cg i →
  ∃ outs x, den !! i = Some outs ∧ pm_find outs (oe_source_port e) = Some x.
Proof using G Hfull.
  intros Hi He. pose proof (dataflow_eq deref cg f fed G i Hi) as Hden.
  destruct (lookup_lt_is_Some_2 _ _ Hi) as [p Hp]. unfold node_out in Hden. rewrite Hp in Hden.
  destruct (inherit_find (node_in deref cg fed den i) (f p (node_in deref cg fed den i)) (oe_source_port e)) as [x Hx].
  { by eapply Hfull. }
  eauto.
Qed.

Lemma packet_of i e k : i < N → e ∈ outEdges cg i → oe_dest_port_index e = Some k →
  ∃ outs x, den !! i = Some outs ∧ pm_find outs (oe_source_port e) = Some x ∧ packet (oe_dest_node e) k = Some x.
Proof using G D Hfull.
  intros Hi He Hk. destruct (den_packet i e Hi He) as (outs & x & Hd & Hx). exists outs, x. split_and!; [done|done|].
  unfold Dataflow.packet. destruct (dg_forward _ _ G i e Hi He) as (_ & _ & ->).
  rewrite (feeder_of deref cg i e k D Hi He Hk). simpl. by rewrite Hd.
Qed.

Lemma out_targets_nodup i : i < N → NoDup ((λ e, (oe_dest_node e, oe_dest_port_index e)) <$> outEdges cg i).
Proof using D.
  intros Hi. pose proof (dt_single _ _ D) as Hnd. unfold links in Hnd.
  assert (∃ l1 l2, seq 0 N = l1 ++ i :: l2) as (l1 & l2 & Hl).
  { apply list_elem_of_split, elem_of_seq. lia. }
  rewrite Hl, bind_app, bind_cons, !fmap_app in Hnd. apply NoDup_app in Hnd as (_ & _ & Hnd).
  apply NoDup_app in Hnd as (Hnd & _). rewrite <-list_fmap_compose in Hnd. exact Hnd.
Qed.

(** After all edges of a node, the ports are filled as the stage after it says. *)
Lemma fill_after dn i outs j k : i < N → den !! i = Some outs →
  fill outs (filled_after dn) (outEdges cg i) j k = filled_after (dn ++ [i]) j k.
Proof using G D.
  clear Hfed Hfull. intros Hi Hden. destruct (decide (Exists (λ e, (oe_dest_node e, oe_dest_port_index e) = (j, Some k)) (outEdges cg i)))
    as [(e & He & [= <- Hk])%Exists_exists|Hno]; [|rewrite Exists_exists in Hno].
  - rewrite (fill_edge _ _ _ _ _ (out_targets_nodup i Hi) He Hk). unfold filled_after, Dataflow.packet.
    destruct (dg_forward _ _ G i e Hi He) as (_ & _ & ->). rewrite (feeder_of deref cg i e k D Hi He Hk).
    rewrite decide_True by set_solver. simpl. by rewrite Hden.
  - rewrite fill_other by (intros e He Heq; apply Hno; eauto). unfold filled_after. destruct (isSource cg j); [done|].
    destruct (feeder cg j k) as [[i' e']|] eqn:Hf; [|done]. apply feeder_Some in Hf as (Hi' & He' & Hd' & Hk').
    assert (i' ≠ i) as Hne by (intros ->; apply Hno; exists e'; split; [done|by rewrite Hd', Hk']).
    repeat case_decide; set_solver.
Qed.

(** With nothing left to run, everything has run. *)
Lemma all_done dn s : stage_ok (stage_after dn) s → e_pool s = [] → ∀ j, j < N → j ∈ dn.
Proof using G D Hfed Hfull.
  intros S Hp. assert (∀ b j, cg_topoOrder cg !! b = Some j → j ∈ dn) as Htopo.
  { intros b. induction (lt_wf b) as [b _ IH]. intros j Hb. destruct (decide (j ∈ dn)) as [|Hj]; [done|]. exfalso.
    assert (j < N) as Hlt.
    { apply list_elem_of_lookup_2 in Hb. rewrite (dg_topo _ _ G) in Hb. apply elem_of_seq in Hb. lia. }
    assert (j ∈ e_pool s) as Hin; [|rewrite Hp in Hin; by apply not_elem_of_nil in Hin].
    apply (so_pool _ _ S). split; [done|]. rewrite stage_state_open by (apply bool_decide_eq_false; simpl; naive_solver).
    rewrite decide_False by (simpl; set_solver).
    assert (all_filled (st_filled (stage_after dn)) j = true) as ->; [|done]. apply all_filled_spec. intros k Hk.
    simpl. unfold filled_after. destruct (isSource cg j) eqn:Hs.
    - apply Hfed; [done|done|]. intros Hnil. by rewrite Hnil in Hk; simpl in Hk; lia.
    - destruct (dg_fed _ _ G j k Hlt Hs Hk) as (i & e & Hi & He & <- & Hke).
      rewrite (feeder_of deref cg i e k D Hi He Hke). destruct (packet_of i e k Hi He Hke) as (_ & x & _ & _ & ->).
      destruct (dg_forward _ _ G i e Hi He) as (_ & (a & b' & Ha & Hb' & Hab) & _).
      assert (b' = b) as ->.
      { eapply (NoDup_lookup (cg_topoOrder cg)); [|exact Hb'|exact Hb]. rewrite (dg_topo _ _ G). apply NoDup_seq. }
      rewrite decide_True by (by eapply IH). by eexists. }
  intros j Hj. assert (j ∈ cg_topoOrder cg) as Hin by (rewrite (dg_topo _ _ G); apply elem_of_seq; lia).
  apply list_elem_of_lookup in Hin as [b Hb]. by eapply Htopo.
Qed.

(** ** One task *)

Lemma posted dn s k i :
  stage_ok (stage_after dn) s → e_pool s !! k = Some i →
  i < N ∧ i ∉ dn ∧ all_filled (filled_after dn) i = true ∧ stage_state (stage_after dn) i = READY.
Proof.
  intros S Hk. apply list_elem_of_lookup_2 in Hk. apply (so_pool _ _ S) in Hk as [Hi Hr].
  pose proof Hr as Hr'. unfold stage_state in Hr.
  cbn [st_running st_done st_held st_filled stage_after] in Hr.
  rewrite (decide_False (P := None = Some i)) in Hr by done. case_decide as Hd; [done|].
  rewrite (decide_False (P := i ∈ (∅ : gset nat))) in Hr by set_solver.
  destruct (all_filled (filled_after dn) i) eqn:Ha; [by split_and!|done].
Qed.

Lemma start_stage dn s k i s3 :
  stage_ok (stage_after dn) s → e_pool s !! k = Some i →
  running_at i (replicate (length (ports i)) []) 1 (pick_up cfg s k i) s3 →
  stage_ok (mkStage dn (Some i) ∅ (filled_after dn)) s3.
Proof.
  intros S Hk. destruct (pick_up_frame cfg s k i) as (stats & sink & ->).
  intros [R1 R2 (nd & Hnd & B & I) R4 R5 R6]. destruct (posted dn s k i S Hk) as (Hi & Hdn & _ & Hr). simpl in *.
  assert (∀ j, j ≠ i → stage_state (mkStage dn (Some i) ∅ (filled_after dn)) j = stage_state (stage_after dn) j) as Hst.
  { intros j Hj. unfold stage_state. cbn [st_running st_done st_held st_filled stage_after]. by rewrite (decide_False (P := Some i = Some j)) by congruence. }
  assert (stage_state (mkStage dn (Some i) ∅ (filled_after dn)) i = EXECUTING) as Hrun.
  { unfold stage_state. cbn [st_running st_done st_held st_filled stage_after]. by rewrite decide_True. }
  split; simpl.
  - by rewrite R2, (so_len _ _ S).
  - intros j nd' Hj. destruct (decide (j = i)) as [->|Hji].
    + rewrite Hnd in Hj. injection Hj as <-. split; [done|]. destruct I as [I1 I2 I3].
      assert (consumed (mkStage dn (Some i) ∅ (filled_after dn)) i = true) as Hc by (apply bool_decide_eq_true; by left).
      split; [|by rewrite Hrun|by rewrite Hc]. rewrite I1. unfold stage_items. rewrite Hc.
      apply list_eq. intros m. rewrite list_lookup_fmap. destruct (decide (m < length (ports i))).
      * by rewrite lookup_replicate_2, lookup_seq_lt.
      * rewrite !lookup_ge_None_2; [done|rewrite length_seq; lia|rewrite length_replicate; lia].
    + rewrite R1 in Hj by done. destruct (so_node _ _ S j nd' Hj) as [B' [J1 J2 J3]].
      assert (consumed (mkStage dn (Some i) ∅ (filled_after dn)) j = consumed (stage_after dn) j) as Hc.
      { apply bool_decide_ext. simpl. split; [intros [[= ->]|]; [done|by right]|intros [|]; [done|by right]]. }
      split; [done|]. split; [|by rewrite Hst|by rewrite Hc]. rewrite J1. unfold stage_items. by rewrite Hc.
  - rewrite R4. eapply sublist_NoDup; [apply S|apply sublist_delete].
  - intros j. rewrite R4, (elem_of_delete_NoDup _ _ i) by (done || apply S). rewrite (so_pool _ _ S).
    destruct (decide (j = i)) as [->|Hji]; [rewrite Hrun; naive_solver|]. rewrite Hst by done. naive_solver.
  - rewrite R5, R4, (so_active _ _ S), length_delete by done. simpl. apply lookup_lt_Some in Hk. lia.
  - exact R6.
Qed.

(** The node completes and its task leaves. *)
Lemma stage_traced st s sink : stage_ok st s → stage_ok st (e_set_traceSink s sink).
Proof. intros [S1 S2 S3 S4 S5 [F1 F2 F3 F4 F5]]. by split. Qed.

Lemma finish_stage dn i fl s :
  stage_ok (mkStage dn (Some i) ∅ fl) s →
  stage_ok (mkStage (dn ++ [i]) None ∅ fl) (add_active (set_exec s i COMPLETED) (-1)) ∧
  outside (add_active (set_exec s i COMPLETED) (-1)) = outside s.
Proof.
  intros S. split; [|done]. set (st := mkStage dn (Some i) ∅ fl) in *. set (st' := mkStage (dn ++ [i]) None ∅ fl).
  assert (∀ j, consumed st' j = consumed st j) as Hc.
  { intros j. apply bool_decide_ext. simpl. rewrite elem_of_app, list_elem_of_singleton. naive_solver congruence. }
  assert (∀ j, stage_state st' j = if decide (i = j) then COMPLETED else stage_state st j) as Hst.
  { intros j. unfold stage_state, st', st. cbn [st_running st_done st_held st_filled].
    rewrite (decide_False (P := None = Some j)) by done. destruct (decide (i = j)) as [<-|Hij].
    - by rewrite decide_True by set_solver.
    - rewrite (decide_False (P := Some i = Some j)) by congruence.
      destruct (decide (j ∈ dn)); [by rewrite decide_True by set_solver|].
      by rewrite decide_False by (rewrite elem_of_app, list_elem_of_singleton; naive_solver). }
  split; simpl.
  - by rewrite length_alter, (so_len _ _ S).
  - intros j nd'. change (e_nodes (set_exec s i COMPLETED) !! j = Some nd' → node_ok st' j nd').
    rewrite lookup_set_exec. intros (nd & Hj & ->)%fmap_Some. destruct (so_node _ _ S j nd Hj) as [[] [I1 I2 I3]].
    assert (stage_items st' j = stage_items st j) as Hits by (unfold stage_items; by rewrite Hc).
    case_decide as Hij; (split; [by split|]); (split; [by rewrite Hits| |by rewrite Hc]).
    + by rewrite Hst, decide_True.
    + by rewrite Hst, decide_False.
  - apply S.
  - intros j. rewrite Hst, (so_pool _ _ S). case_decide as Hij; [|done]. subst j.
    unfold stage_state. cbn [st_running st_done st_held st_filled stage_after]. rewrite decide_True by done. naive_solver.
  - rewrite (so_active _ _ S). simpl. lia.
  - by destruct (so_flags _ _ S).
Qed.

(** The completion check of the last task. *)
Lemma completion dn s :
  stage_ok (stage_after dn) s → e_completionReported s = false → e_state s = RUNNING →
  (e_pool s = [] → ∀ j, j < N → j ∈ dn) →
  let s' := checkCompletionAndNotify cg BatchScheduler s in
  stage_ok (stage_after dn) s' ∧ e_pool s' = e_pool s ∧
  outside s' = if decide (e_pool s = []) then (e_results s, e_log s ++ [EvResult (e_results s)], true, IDLE) else outside s.
Proof.
  intros S Hrep Hrun Hall. unfold checkCompletionAndNotify. rewrite (fo_stream _ (so_flags _ _ S)).
  pose proof (so_active _ _ S) as Ha. simpl in Ha. destruct (decide (e_pool s = [])) as [Hp|Hp].
  - rewrite Hp in Ha. simpl in Ha. rewrite decide_False by lia.
    assert (cs_is_complete (checkCompletion BatchScheduler (e_activeTasks s) 0 (sink_counts cg s)) = true) as ->.
    { unfold checkCompletion, batch_checkCompletion. rewrite decide_False by lia.
      assert (Forall (λ c, sk_executions c ≠ 0%Z) (sink_counts cg s)) as Hsinks.
      { unfold sink_counts, stateByIndex. rewrite Forall_forall. intros c (j & _ & Hj)%list_elem_of_omap.
        apply fmap_Some in Hj as (nd & Hnd & ->). simpl. destruct (so_node _ _ S j nd Hnd) as [_ [_ _ ->]].
        assert (consumed (stage_after dn) j = true) as ->; [|done]. apply bool_decide_eq_true. right. simpl.
        apply Hall; [done|]. rewrite <-(so_len _ _ S). by eapply lookup_lt_Some. }
      induction Hsinks as [|c l Hc _ IH]; [done|]. simpl. by rewrite decide_False. }
    rewrite Hrep. cbn [e_state e_set_completionReported]. rewrite Hrun, decide_True by done. split; [|done].
    destruct S as [S1 S2 S3 S4 S5 [F1 F2 F3 F4 F5]]. by split.
  - rewrite decide_True; [done|]. intros Hz. apply Hp. destruct (e_pool s); [done|]. simpl in Ha. lia.
Qed.

Lemma filled_packet dn j k x : filled_after dn j k = Some x → packet j k = Some x.
Proof.
  unfold filled_after. destruct (isSource cg j) eqn:Hs; [unfold Dataflow.packet; by rewrite Hs|].
  destruct (feeder cg j k) as [[i e]|]; [|done]. by case_decide.
Qed.

(** The edges of a node that runs can all be delivered. *)
Lemma edges_deliverable dn i outs :
  i < N → i ∉ dn → closed dn → den !! i = Some outs →
  Forall (deliverable (mkStage dn (Some i) ∅ (filled_after dn)) outs) (outEdges cg i).
Proof using G D Hfull.
  intros Hi Hdn Hcl Hden. rewrite Forall_forall. intros e He.
  destruct (proj1 (Forall_forall _ _) (dt_named _ _ D) (i, e)) as [k Hk]; [by apply elem_of_links|]. simpl in Hk.
  destruct (den_packet i e Hi He) as (outs' & x & Hd & Hx). rewrite Hden in Hd. injection Hd as <-.
  destruct (dg_forward _ _ G i e Hi He) as (Hlt & (a & b & Ha & Hb & Hab) & Hs). exists k, x.
  split_and!; [done|done|done| |done|exact (dg_port _ _ G i e k Hi He Hk)|].
  - apply bool_decide_eq_false. simpl. intros [[= Heq]|Hin].
    + rewrite <-Heq in Hb. assert (a = b); [|lia]. eapply (NoDup_lookup (cg_topoOrder cg)); [|done|done].
      rewrite (dg_topo _ _ G). apply NoDup_seq.
    + apply Hdn. by eapply Hcl.
  - simpl. unfold filled_after. rewrite Hs, (feeder_of deref cg i e k D Hi He Hk). by rewrite decide_False.
Qed.

Lemma closed_snoc dn i : closed dn → i < N → all_filled (filled_after dn) i = true → closed (dn ++ [i]).
Proof using G D.
  intros Hcl Hi Ha i' e Hi' He Hin. apply elem_of_app. apply elem_of_app in Hin as [Hin|Hin]; [left; by eapply Hcl|].
  apply list_elem_of_singleton in Hin.
  destruct (proj1 (Forall_forall _ _) (dt_named _ _ D) (i', e)) as [k Hk]; [by apply elem_of_links|]. simpl in Hk.
  rewrite all_filled_spec in Ha. destruct (dg_forward _ _ G i' e Hi' He) as (_ & _ & Hs).
  pose proof (dg_port _ _ G i' e k Hi' He Hk) as Hlt. rewrite Hin in Hlt, Hs. destruct (Ha k Hlt) as [x Hx].
  unfold filled_after in Hx. rewrite Hs, <-Hin, (feeder_of deref cg i' e k D Hi' He Hk) in Hx.
  case_decide; [by left|done].
Qed.

Context (Halign : ec_alignment_policy cfg = AP_FrameId).
Notation name := (node_name deref cg).

Definition process_event (j : nat) : Event :=
  EvProcess (default 0 (cg_nodes cg !! j)) (node_in deref cg fed den j).

(** A task that is taken gathers the packets of its ports... *)
Lemma task_gathers dn s k i :
  stage_ok (stage_after dn) s → e_pool s !! k = Some i →
  let s0 := pick_up cfg s k i in
  ∃ nd g, e_nodes s !! i = Some nd ∧ node_base i nd ∧ nd_exec_state nd = READY ∧
    gatherNodeInputs cfg (set_exec s0 i EXECUTING) i = Some (g, true) ∧
    gathered_inputs nd g = node_in deref cg fed den i ∧
    running_at i (replicate (length (ports i)) []) 0 s0 (ga_engine g) ∧ outside (ga_engine g) = outside s.
Proof using G D Hfed Hfull Halign.
  intros S Hk s0. subst s0. destruct (pick_up_frame cfg s k i) as (stats & sink & ->). set (s0 := e_set_traceSink _ sink).
  destruct (posted dn s k i S Hk) as (Hi & Hdn & Ha & Hr).
  destruct (lookup_lt_is_Some_2 (e_nodes s) i) as [nd Hnd]; [by rewrite (so_len _ _ S)|].
  destruct (so_node _ _ S i nd Hnd) as [B [I1 I2 I3]]. rewrite Hr in I2.
  assert (consumed (stage_after dn) i = false) as Hc by (apply bool_decide_eq_false; simpl; naive_solver).
  rewrite Hc in I3. set (nd1 := nd_set_exec_state nd EXECUTING).
  assert (flags_ok s0) as F0 by (by destruct (so_flags _ _ S)).
  assert (e_nodes (set_exec s0 i EXECUTING) !! i = Some nd1) as Hnd1.
  { rewrite lookup_set_exec. change (e_nodes s0) with (e_nodes s). rewrite Hnd. simpl. by rewrite decide_True. }
  assert (only i s0 (set_exec s0 i EXECUTING)) as O1 by apply only_upd.
  destruct (gather_all (set_exec s0 i EXECUTING) i nd1 (λ k, default None (packet i k)) EXECUTING 0%Z Halign)
    as (g & nd2 & Hg & O2 & Hd & Hnd2 & B2 & I2'); [by apply O1|done|by destruct B|split; simpl; [|done|done]|].
  { rewrite I1. unfold stage_items. rewrite Hc. apply list_fmap_ext. intros a m Hm. apply lookup_seq in Hm as [-> Hm].
    simpl. rewrite all_filled_spec in Ha. destruct (Ha a) as [x Hx]; [lia|]. rewrite Hx. simpl.
    by rewrite (filled_packet _ _ _ _ Hx). }
  exists nd, g. split_and!; [done|done|done|done| | |].
  - unfold gathered_inputs, node_in. rewrite Hd, (nb_ports _ _ B). generalize (@nil (string * PortDataPtr)).
    generalize (seq 0 (length (ports i))) as l. intros l. induction l as [|a l IH]; intros m; [done|]. simpl. apply IH.
  - pose proof (only_trans i _ _ _ O1 O2) as O. destruct O as [P1 P2 P3 P4 P5 _].
    split; [done|done|by exists nd2|done|done|by apply P5].
  - rewrite (on_outside _ _ _ O2). done.
Qed.

(** ... runs the node, delivers its outputs and completes it. *)
Lemma run_task_stage dn s k i :
  stage_ok (stage_after dn) s → closed dn → e_completionReported s = false → e_state s = RUNNING →
  e_pool s !! k = Some i →
  let r := if isSink cg i then collect (e_results s) (name i) (default [] (den !! i)) else e_results s in
  let log := e_log s ++ [process_event i] in
  ∃ s', run_task s k = Some s' ∧ stage_ok (stage_after (dn ++ [i])) s' ∧
    outside s' = if decide (e_pool s' = []) then (r, log ++ [EvResult r], true, IDLE) else (r, log, false, RUNNING).
Proof using G D Hfed Hfull Halign.
  intros S Hcl Hrep Hrun Hk r log. destruct (posted dn s k i S Hk) as (Hi & Hdn & Ha & _).
  destruct (task_gathers dn s k i S Hk) as (nd & g & Hnd & B & Hready & Hg & Hin & Hat & Hout).
  set (s0 := pick_up cfg s k i) in *. assert (e_nodes s0 = e_nodes s ∧ flags_ok s0) as [Hn0 F0].
  { unfold s0. destruct (pick_up_frame cfg s k i) as (? & ? & ->). split; [done|]. by destruct (so_flags _ _ S). }
  destruct (run_node_start s0 (ga_engine g) i nd (node_in deref cg fed den i) _ B Hat) as (s3 & start & R3 & O3 & Hnode).
  pose proof (dataflow_eq deref cg f fed G i Hi) as Hden. unfold node_out in Hden. rewrite (nb_node _ _ B) in Hden.
  set (outs := inheritFrameIdentity _ _) in *.
  destruct (deliver_edges (mkStage dn (Some i) ∅ (filled_after dn)) s3 outs (outEdges cg i)) as (t4 & Hs4 & T4 & O4);
    [by eapply start_stage|done|by apply edges_deliverable|by apply out_targets_nodup|].
  destruct (trace_propagation_frame t4 nd outs start) as [sink Htr]. set (s4 := e_set_traceSink t4 sink) in *.
  pose proof (stage_traced _ _ sink T4) as S4. change (outside t4) with (outside s4) in O4. fold s4 in S4.
  destruct (finish_stage _ _ _ _ S4) as [S5 O5]. set (s5 := add_active (set_exec s4 i COMPLETED) (-1)) in *.
  assert (stage_ok (stage_after (dn ++ [i])) s5) as S6.
  { eapply stage_ext; [exact S5| |done|intros j m _ _; simpl; symmetry; by apply fill_after|done].
    intros j. unfold stage_state. cbn [st_running st_done st_held st_filled stage_after].
    by rewrite (all_filled_ext (fill outs _ _) (filled_after (dn ++ [i])) j) by (intros m; by apply fill_after). }
  assert (outside s5 = (r, log, false, RUNNING)) as O6.
  { rewrite O5, O4, O3. injection Hout as -> -> -> ->. rewrite Hrep, Hrun, (nb_name _ _ B). unfold r, log, process_event.
    assert (default [] (den !! i) = outs) as -> by (exact (f_equal (default []) Hden)). by rewrite (nb_node _ _ B). }
  assert (e_results s5 = r) as Hr6 by (exact (f_equal (λ t, t.1.1.1) O6)).
  assert (e_log s5 = log) as Hl6 by (exact (f_equal (λ t, t.1.1.2) O6)).
  assert (e_completionReported s5 = false) as Hrep6 by (exact (f_equal (λ t, t.1.2) O6)).
  assert (e_state s5 = RUNNING) as Hrun6 by (exact (f_equal (λ t, t.2) O6)).
  destruct (completion (dn ++ [i]) s5 S6 Hrep6 Hrun6) as (S7 & Hp7 & O7); [intros Hp; by eapply all_done|].
  exists (checkCompletionAndNotify cg BatchScheduler s5). split_and!; [|done|].
  - unfold Engine.run_task. rewrite Hk. fold s0. unfold executeNodeTask, executeNodeTask_with, stateByIndex.
    rewrite Hn0, Hnd, stop_not_requested by (by destruct F0). rewrite decide_False by (rewrite Hready; naive_solver).
    rewrite Hg. cbn [mbind option_bind]. rewrite Hin. unfold run_node in Hnode. rewrite Hnode. unfold Engine.propagateOutputs, propagateOutputs_with.
    rewrite (fo_stop _ (ra_flags _ _ _ _ _ R3)), Hs4. cbn [mbind option_bind]. rewrite Htr. unfold Engine.checkEos, eos_fuel.
    cbn [checkNodeEndOfStream]. change (e_streamingMode (set_exec s4 i COMPLETED)) with (e_streamingMode s4).
    rewrite (fo_stream _ (so_flags _ _ S4)). done.
  - rewrite Hp7, O7, Hr6, Hl6, O6. by case_decide.
Qed.

(** ** Runs *)

(** Workers take posted tasks, each time one of those there are. *)
Fixpoint workers s (picks : list nat) : option Engine :=
  match picks with
  | [] => Some s
  | k :: rest => s' ← run_task s (k mod length (e_pool s)); workers s' rest
  end.

(** Every node comes after the nodes that feed it. *)
Definition ordered (dn : list nat) : Prop :=
  ∀ pre j post, dn = pre ++ j :: post → ∀ i e, i < N → e ∈ outEdges cg i → oe_dest_node e = j → i ∈ pre.

Record run_inv (log : list Event) (dn : list nat) s : Prop := {
  ri_stage : stage_ok (stage_after dn) s;
  ri_nodup : NoDup dn;
  ri_range : dn ⊆ seq 0 N;
  ri_ordered : ordered dn;
  ri_outside :
    let r := results_of deref cg den (filter (λ j, isSink cg j = true) dn) in
    outside s = if decide (e_pool s = []) then (r, log ++ (process_event <$> dn) ++ [EvResult r], true, IDLE)
                else (r, log ++ (process_event <$> dn), false, RUNNING);
}.

Lemma ordered_closed dn : ordered dn → closed dn.
Proof.
  intros Ho i e Hi He (pre & post & Hdn)%list_elem_of_split. rewrite Hdn. apply elem_of_app. left. by eapply Ho.
Qed.

Lemma ordered_snoc dn i : ordered dn → i ∉ dn → i < N → all_filled (filled_after dn) i = true → ordered (dn ++ [i]).
Proof using G D Hfed Hfull Halign.
  intros Ho Hni Hi Ha pre j post Heq i' e Hi' He Hj.
  assert (i' ∈ dn ++ [i]) as Hin.
  { apply (closed_snoc dn i (ordered_closed dn Ho) Hi Ha i' e Hi' He). rewrite Hj, Heq. set_solver. }
  destruct (decide (post = [])) as [->|Hne].
  - apply app_inj_tail in Heq as [-> ->]. apply elem_of_app in Hin as [|Hin]; [done|].
    apply list_elem_of_singleton in Hin as ->. exfalso.
    destruct (dg_forward _ _ G _ e Hi' He) as (_ & (a & b & Ha' & Hb & Hab) & _). rewrite Hj in Hb.
    assert (a = b); [|lia]. eapply (NoDup_lookup (cg_topoOrder cg)); [|done|done]. rewrite (dg_topo _ _ G). apply NoDup_seq.
  - destruct (exists_last Hne) as (post' & y & ->). rewrite app_comm_cons, app_assoc in Heq.
    apply app_inj_tail in Heq as [-> _]. by eapply Ho.
Qed.

Lemma run_inv_length log dn s : run_inv log dn s →
  length dn ≤ N ∧ (e_pool s = [] ↔ length dn = N).
Proof using G D Hfed Hfull Halign.
  intros R. pose proof (NoDup_submseteq _ _ (ri_nodup _ _ _ R) (ri_range _ _ _ R)) as Hsub.
  pose proof (submseteq_length _ _ Hsub) as Hle. rewrite length_seq in Hle. split; [done|]. split.
  - intros Hp. assert (seq 0 N ⊆+ dn) as Hsub'.
    { apply NoDup_submseteq; [apply NoDup_seq|]. intros j [_ Hj]%elem_of_seq.
      eapply all_done; [apply R|done|lia]. }
    apply submseteq_length in Hsub'. rewrite length_seq in Hsub'. lia.
  - intros Hl. destruct (e_pool s) as [|i pool] eqn:Hp; [done|]. exfalso.
    destruct (posted dn s 0 i (ri_stage _ _ _ R)) as (Hi & Hni & _); [by rewrite Hp|].
    apply Hni. assert (dn ≡ₚ seq 0 N) as Hperm.
    { apply submseteq_length_Permutation; [done|]. rewrite length_seq. lia. }
    rewrite Hperm. apply elem_of_seq. lia.
Qed.

(** A task more, a node more. *)
Lemma run_inv_step log dn s k :
  run_inv log dn s → k < length (e_pool s) →
  ∃ i s', run_task s k = Some s' ∧ run_inv log (dn ++ [i]) s'.
Proof using G D Hfed Hfull Halign.
  intros R Hk. destruct (lookup_lt_is_Some_2 _ _ Hk) as [i Hi].
  destruct (posted dn s k i (ri_stage _ _ _ R) Hi) as (HN & Hni & Ha & _).
  pose proof (ri_outside _ _ _ R) as Ho. cbv zeta in Ho.
  rewrite decide_False in Ho by (intros Hp; rewrite Hp in Hk; simpl in Hk; lia). injection Ho as Hr Hl Hrep Hrun.
  destruct (run_task_stage dn s k i (ri_stage _ _ _ R)) as (s' & Hs & S' & O');
    [by apply ordered_closed, R|done|done|done|]. exists i, s'. split; [done|]. split; [done| | | |].
  - apply NoDup_app. split_and!; [apply R|set_solver|apply NoDup_singleton].
  - intros j [Hj|Hj%list_elem_of_singleton]%elem_of_app; [by apply (ri_range _ _ _ R)|]. subst j. apply elem_of_seq. lia.
  - apply ordered_snoc; [apply R|done|done|done].
  - cbv zeta. rewrite O', Hr, Hl, filter_app, fmap_app, !(assoc_L (++)).
    assert (results_of deref cg den (filter (λ j, isSink cg j = true) dn ++ filter (λ j, isSink cg j = true) [i]) =
      if isSink cg i then collect (results_of deref cg den (filter (λ j, isSink cg j = true) dn)) (name i) (default [] (den !! i))
      else results_of deref cg den (filter (λ j, isSink cg j = true) dn)) as ->; [|done].
    rewrite filter_cons, filter_nil. destruct (isSink cg i).
    + rewrite decide_True by done. unfold results_of. by rewrite foldl_app.
    + rewrite decide_False by done. by rewrite app_nil_r.
Qed.

Lemma workers_run log dn s picks :
  run_inv log dn s → ∃ more s', workers s picks = Some s' ∧ run_inv log (dn ++ more) s' ∧
    length (dn ++ more) = min (length dn + length picks) N.
Proof using G D Hfed Hfull Halign.
  revert dn s. induction picks as [|k picks IH]; intros dn s R.
  - exists [], s. rewrite app_nil_r. destruct (run_inv_length _ _ _ R). simpl. split_and!; [done|done|lia].
  - cbn [workers]. destruct (e_pool s) as [|a pool] eqn:Hp.
    + destruct (IH dn s R) as (more & s' & Hs & R' & Hl). exists more, s'.
      unfold Engine.run_task at 1. rewrite Hp. simpl. split_and!; [exact Hs|done|].
      destruct (run_inv_length _ _ _ R) as [_ Hfin]. rewrite Hl. apply Hfin in Hp. simpl. lia.
    + rewrite <-Hp. destruct (run_inv_step log dn s (k mod length (e_pool s)) R) as (i & s1 & -> & R1).
      { apply Nat.mod_upper_bound. by rewrite Hp. }
      destruct (IH _ _ R1) as (more & s' & Hs & R' & Hl). exists (i :: more), s'. cbn [mbind option_bind].
      rewrite <-(assoc_L (++)) in R', Hl. split_and!; [done|done|]. simpl in *. rewrite Hl, length_app. simpl. lia.
Qed.
End Batch.
