(* ===== verification/BatchCorrect.v ===== *)
(** * Batch executions, from [execute] to the result callback

    [execute] sets the nodes up, resets the engine and gives the sources their
    initial packets; what the workers then do is the subject of [BatchRun]. *)

From S2P Require Import Prelude Errors Packets Kahn Graphs CompiledGraphs MpmcQueue NodeQueue FrameAlignment.
From S2P Require Import SyncCoordinator JoinAwareSync ExecutionTypes Schedulers EngineCore EngineGather Dataflow Engine BatchRun.
Local Open Scope string_scope.
Local Open Scope list_scope.
Local Open Scope nat_scope.

Section Start.
Context `{CppTypes} {Q Sy : Type} `{!PortQueue Q, !PortQueueLaws Q, !SyncStrategy Sy}.
Context (deref : NodePtr → ILogicNode) (cfg : EngineConfig) (cg : CompiledGraph).
Context (onEndOfStream : list Event → NodePtr → Outcome) (elapsed : list Event → Z).
Context (setup : list Event → NodePtr → VoidResult + option string).
Notation Engine := (Engine Q Sy).
Notation N := (length (cg_nodes cg)).
Notation ports := (node_ports deref cg).
Notation name := (node_name deref cg).
Notation stage_ok := (stage_ok deref cg).
Implicit Types (s : Engine).

(** ** Stamping the initial packets *)

(** The packets of the sources, stamped in the order of the sources. *)
Definition stamp_step (inputs : PortDataMap) (acc : Engine * gmap nat PortDataPtr) (j : nat) : Engine * gmap nat PortDataPtr :=
  match pm_find inputs (name j) with
  | Some data => let (s, data') := stampIncomingFrame cfg acc.1 data in (s, <[j := data']> acc.2)
  | None => acc
  end.
Definition stamp_sources s (inputs : PortDataMap) : gmap nat PortDataPtr :=
  (foldl (stamp_step inputs) (s, ∅) (cg_sourceNodes cg)).2.

Lemma stamp_alike s s' data : stamps s = stamps s' →
  (stampIncomingFrame cfg s data).2 = (stampIncomingFrame cfg s' data).2 ∧
  stamps (stampIncomingFrame cfg s data).1 = stamps (stampIncomingFrame cfg s' data).1.
Proof.
  intros Hs. unfold stamps in *. injection Hs as H1 H2 H3. unfold stampIncomingFrame.
  destruct data as [p|]; simpl; [|by rewrite H1, H2, H3].
  repeat case_match; simpl; rewrite ?H1, ?H2, ?H3; done.
Qed.

Lemma stamp_keeps inputs l acc j : j ∉ l → (foldl (stamp_step inputs) acc l).2 !! j = acc.2 !! j.
Proof.
  revert acc. induction l as [|i l IH]; intros acc Hj; [done|]. simpl. rewrite IH by set_solver. unfold stamp_step.
  destruct (pm_find inputs (name i)) as [d|]; [|done]. destruct (stampIncomingFrame cfg acc.1 d). simpl.
  apply lookup_insert_ne. set_solver.
Qed.

Lemma stamp_has inputs l acc j : j ∈ l → is_Some (pm_find inputs (name j)) →
  is_Some ((foldl (stamp_step inputs) acc l).2 !! j).
Proof.
  revert acc. induction l as [|i l IH]; intros acc Hj Hd; [by apply not_elem_of_nil in Hj|]. simpl.
  destruct (decide (j ∈ l)) as [Hl|Hl]; [by apply IH|]. rewrite stamp_keeps by done.
  apply elem_of_cons in Hj as [<-|]; [|done]. unfold stamp_step. destruct Hd as [d ->].
  destruct (stampIncomingFrame cfg acc.1 d). simpl. rewrite lookup_insert_eq. by eexists.
Qed.

(** ** Distribution *)

Notation distribute := (distribute_source cfg cg BatchScheduler onEndOfStream elapsed).

Lemma stamp_stage st s data s' data' :
  stampIncomingFrame cfg s data = (s', data') → stage_ok st s → stage_ok st s' ∧ outside s' = outside s.
Proof.
  intros Hst S. unfold stampIncomingFrame in Hst. repeat case_match; simplify_eq; try done;
    (split; [|done]); destruct S as [S1 S2 S3 S4 S5 [F1 F2 F3 F4 F5]]; by split.
Qed.

(** One source is given its packet, if it takes one, and posted. *)
Lemma distribute_one st s s0 inputs has j :
  stage_ok st s → st_done st = [] → st_running st = None → j < N → j ∈ st_held st →
  length (ports j) ≤ 1 → (ports j ≠ [] → is_Some (pm_find inputs (name j))) →
  (∀ k, st_filled st j k = None) → stamps s = stamps s0 →
  ∃ s' fl', distribute inputs (Some (s, Some has)) j = Some (s', Some true) ∧
    stage_ok (mkStage [] None (st_held st ∖ {[j]}) fl') s' ∧ outside s' = outside s ∧
    stamps s' = stamps (stamp_step inputs (s0, ∅) j).1 ∧
    (∀ i k, i ≠ j → fl' i k = st_filled st i k) ∧
    (∀ k, k < length (ports j) → fl' j k = (stamp_step inputs (s0, ∅) j).2 !! j).
Proof.
  intros S Hd Hr Hj Hh Hone Hin Hnone Hst. unfold distribute_source. cbn [mbind option_bind].
  destruct (lookup_lt_is_Some_2 (e_nodes s) j) as [nd Hnd]; [by rewrite (so_len _ _ _ _ S)|].
  destruct (so_node _ _ _ _ S j nd Hnd) as [B _]. unfold stateByIndex. rewrite Hnd, (nb_name _ _ _ _ B), (nb_ports _ _ _ _ B).
  assert (consumed st j = false) as Hc by (apply bool_decide_eq_false; rewrite Hd, Hr; set_solver).
  unfold stamp_step. simpl. destruct (ports j) as [|port [|? ?]] eqn:Hp; [| |simpl in Hone; lia].
  - assert (∀ s1, stage_ok st s1 → ∃ s', tryScheduleNode cg BatchScheduler onEndOfStream elapsed s1 j = Some s' ∧
      stage_ok (mkStage [] None (st_held st ∖ {[j]}) (st_filled st)) s' ∧ outside s' = outside s1 ∧ stamps s' = stamps s1) as Htry.
    { intros s1 S1. destruct (try_release deref cg onEndOfStream elapsed st s1 j S1 Hj Hh Hc) as (s' & Ht & S' & Ho).
      - left. apply all_filled_spec. rewrite Hp. simpl. lia.
      - exists s'. split; [exact Ht|]. split; [|exact Ho]. unfold with_held in S'. by rewrite Hd, Hr in S'. }
    destruct (pm_find inputs (name j)) as [data|].
    + destruct (stampIncomingFrame cfg s data) as [s1 d1] eqn:E1. destruct (stamp_stage _ _ _ _ _ E1 S) as [S1 O1].
      destruct (Htry s1 S1) as (s' & -> & S' & O' & T'). exists s', (st_filled st).
      split_and!; [done|done|by rewrite O'| |done|simpl; lia]. rewrite T'.
      destruct (stamp_alike s s0 data Hst) as [_ Ha]. rewrite E1 in Ha. by destruct (stampIncomingFrame cfg s0 data).
    + destruct (Htry s S) as (s' & -> & S' & O' & T'). exists s', (st_filled st).
      split_and!; [done|done|done|by rewrite T'|done|simpl; lia].
  - destruct (Hin ltac:(done)) as [data Hdata]. rewrite Hdata.
    destruct (stampIncomingFrame cfg s data) as [s1 d1] eqn:E1. destruct (stamp_stage _ _ _ _ _ E1 S) as [S1 O1].
    destruct (stamp_alike s s0 data Hst) as [Hd0 Ha]. rewrite E1 in Hd0, Ha. simpl in Hd0, Ha.
    destruct (stampIncomingFrame cfg s0 data) as [s0' d0] eqn:E0. simpl in Hd0, Ha |- *. subst d0.
    assert (∃ nd1, e_nodes s1 !! j = Some nd1 ∧ nd_input_ports nd1 = [port]) as (nd1 & Hnd1 & Hp1).
    { destruct (lookup_lt_is_Some_2 (e_nodes s1) j) as [nd1 H1]; [by rewrite (so_len _ _ _ _ S1)|]. exists nd1. split; [done|].
      destruct (so_node _ _ _ _ S1 j nd1 H1) as [B1 _]. by rewrite (nb_ports _ _ _ _ B1). }
    destruct (push_fill deref cg st s1 j 0 d1 S1 Hj Hc (Hnone 0)) as (s2 & Hpush & S2 & O2 & T2); [rewrite Hp; simpl; lia|].
    unfold pushToQueue, stateByIndex. rewrite Hnd1, Hp1.
    assert (port_index [port] port = Some 0) as ->.
    { unfold port_index. simpl. by rewrite decide_True. }
    rewrite Hpush. set (t2 := emitTrace s2 _ _ _ _ _ _). set (s3 := bump t2 _).
    assert (stage_ok (mkStage (st_done st) (st_running st) ({[j]} ∪ st_held st) (upd_filled (st_filled st) j 0 (Some d1))) s3) as S3
      by (destruct S2 as [P1 P2 P3 P4 P5 [F1 F2 F3 F4 F5]]; by split).
    destruct (try_release deref cg onEndOfStream elapsed _ s3 j S3) as (s4 & Ht & S4 & O4 & T4);
      [done|simpl; set_solver|done| |].
    { left. apply all_filled_spec. rewrite Hp. intros k Hk. simpl in Hk. assert (k = 0) as -> by lia. simpl.
      unfold upd_filled. rewrite decide_True by done. by eexists. }
    rewrite Ht. cbn [mbind option_bind]. exists s4, (upd_filled (st_filled st) j 0 (Some d1)).
    split_and!; [done| |by rewrite O4; rewrite <-O1, <-O2| | |].
    + unfold with_held in S4. simpl in S4. rewrite Hd, Hr in S4.
      by replace ((({[j]} ∪ st_held st) ∖ {[j]}) : gset nat) with (st_held st ∖ {[j]}) in S4 by set_solver.
    + rewrite T4. change (stamps s3) with (stamps s2). by rewrite T2.
    + intros i k Hij. unfold upd_filled. by rewrite decide_False by (intros [? ?]; congruence).
    + intros k Hk. simpl in Hk. assert (k = 0) as -> by lia. unfold upd_filled. rewrite decide_True by done.
      by rewrite lookup_insert_eq.
Qed.

Lemma stamp_step_acc inputs s0 fed j :
  (stamp_step inputs (s0, fed) j).1 = (stamp_step inputs (s0, ∅) j).1 ∧
  (is_Some (pm_find inputs (name j)) → (stamp_step inputs (s0, fed) j).2 !! j = (stamp_step inputs (s0, ∅) j).2 !! j).
Proof.
  unfold stamp_step. simpl. destruct (pm_find inputs (name j)) as [d|]; [|by split; [|intros []]].
  destruct (stampIncomingFrame cfg s0 d). simpl. split; [done|]. intros _. by rewrite !lookup_insert_eq.
Qed.

Lemma distribute_all inputs l st s acc has :
  stage_ok st s → st_done st = [] → st_running st = None → st_held st = list_to_set l → NoDup l →
  (∀ j, j ∈ l → j < N ∧ length (ports j) ≤ 1 ∧ (ports j ≠ [] → is_Some (pm_find inputs (name j))) ∧
                ∀ k, st_filled st j k = None) →
  stamps s = stamps acc.1 →
  ∃ s' fl' has', foldl (distribute inputs) (Some (s, Some has)) l = Some (s', Some has') ∧
    has' = has || bool_decide (l ≠ []) ∧ stage_ok (mkStage [] None ∅ fl') s' ∧ outside s' = outside s ∧
    (∀ i k, i ∉ l → fl' i k = st_filled st i k) ∧
    (∀ i k, i ∈ l → k < length (ports i) → fl' i k = (foldl (stamp_step inputs) acc l).2 !! i).
Proof.
  revert st s acc has. induction l as [|j l IH]; intros st s acc has S Hd Hr Hh Hnd Hl Hst.
  - exists s, (st_filled st), has. split_and!; [done|by destruct has| |done|done|set_solver].
    simpl in Hh. rewrite <-Hd, <-Hr, <-Hh. by destruct st.
  - apply NoDup_cons in Hnd as [Hj Hnd]. destruct (Hl j ltac:(set_solver)) as (HN & Hone & Hin & Hnone).
    destruct (distribute_one st s acc.1 inputs has j S Hd Hr HN) as (s1 & fl1 & Hs1 & S1 & O1 & T1 & Hkeep & Hset);
      [rewrite Hh; set_solver|done|done|done|done|].
    destruct (IH (mkStage [] None (st_held st ∖ {[j]}) fl1) s1 (stamp_step inputs acc j) true S1)
      as (s2 & fl2 & has2 & Hs2 & Hhas & S2 & O2 & Hkeep2 & Hset2); [done|done| |done| | |].
    + simpl. rewrite Hh. simpl. apply set_eq. intros x. rewrite elem_of_difference, elem_of_union, elem_of_list_to_set,
        elem_of_singleton. set_solver.
    + intros i Hi. destruct (Hl i ltac:(set_solver)) as (? & ? & ? & Hi0). split_and!; [done|done|done|].
      intros k. simpl. rewrite Hkeep by (intros ->; done). apply Hi0.
    + rewrite T1. destruct acc as [s0 fed]. simpl. by rewrite (proj1 (stamp_step_acc inputs s0 fed j)).
    + exists s2, fl2, has2. cbn [foldl]. rewrite Hs1. split_and!; [done|by rewrite Hhas, orb_true_r|done|by rewrite O2| |].
      * intros i k Hi. rewrite Hkeep2 by set_solver. simpl. apply Hkeep. set_solver.
      * intros i k Hi Hk. destruct (decide (i ∈ l)) as [Hil|Hil]; [by apply Hset2|].
        apply elem_of_cons in Hi as [->|]; [|done]. rewrite Hkeep2 by done. simpl. rewrite Hset by done.
        rewrite stamp_keeps by done. destruct acc as [s0 fed]. symmetry. apply stamp_step_acc, Hin. intros Hnil.
        rewrite Hnil in Hk. simpl in Hk. lia.
Qed.

(** ** The engine that [execute] prepares *)

Section Execute.
Context (G : dag_ok deref cg) (D : determined deref cg).

(** Setting nodes up changes the log and the list of set-up nodes only. *)
Definition same_engine s s' : Prop :=
  e_nodes s' = e_nodes s ∧ e_pool s' = e_pool s ∧ e_accepting s' = e_accepting s ∧ e_sync s' = e_sync s ∧
  e_streamingMode s' = e_streamingMode s ∧ e_now s' = e_now s.

#[local] Instance same_engine_trans : Transitive same_engine.
Proof. intros s1 s2 s3. unfold same_engine. intros. destruct_and!. split_and!; congruence. Qed.

Lemma teardown_same s : same_engine s (teardownNodes s).
Proof.
  unfold teardownNodes. generalize (rev (e_setUpNodes s)). intros l.
  assert (same_engine s (foldl (λ s p, observe s (EvTeardown p)) s l)) as Hl; [|exact Hl].
  revert s. induction l as [|p l IH]; intros s; [done|]. simpl.
  apply (same_engine_trans _ (observe s (EvTeardown p))); [done|apply IH].
Qed.

Lemma setup_same s s' r : setupNodes deref cg setup s = (s', r) → same_engine s s'.
Proof.
  unfold setupNodes. destruct (e_setUpNodes s); [|by intros [= <- _]].
  generalize (cg_topoOrder cg). intros order. revert s. induction order as [|i order IH]; intros s; simpl; [by intros [= <- _]|].
  destruct (cg_node cg i) as [p|]; [|apply IH]. case_match.
  - intros Hl%IH. refine (same_engine_trans _ _ _ _ Hl). done.
  - intros [= <- _]. refine (same_engine_trans _ _ _ _ (teardown_same _)). done.
Qed.

Lemma source_elem j : j ∈ cg_sourceNodes cg ↔ j < N ∧ isSource cg j = true.
Proof using G. rewrite (dg_sources _ _ G), list_elem_of_filter, elem_of_seq. split; intros [? ?]; (split; [done || lia|done || lia]). Qed.

(** Nodes that are no sources have a port. *)
Lemma inner_has_port j : j < N → isSource cg j = false → ports j ≠ [].
Proof using G D.
  intros Hj Hs Hp. destruct (dg_inner _ _ G j Hj Hs) as (i & e & Hi & He & Hd).
  destruct (proj1 (Forall_forall _ _) (dt_named _ _ D) (i, e)) as [k Hk]; [by apply elem_of_links|].
  pose proof (dg_port _ _ G i e k Hi He Hk) as Hlt. rewrite Hd, Hp in Hlt. simpl in Hlt. lia.
Qed.

(** Before distribution nothing is filled and the sources are held. *)
Definition first_stage : Stage := mkStage [] None (list_to_set (cg_sourceNodes cg)) (λ _ _, None).

Lemma first_stage_waiting j : j < N → stage_state deref cg first_stage j = WAITING.
Proof using G D.
  intros Hj. rewrite stage_state_open by (apply bool_decide_eq_false; simpl; set_solver). simpl. case_decide as Hh; [done|].
  destruct (all_filled deref cg (λ _ _, None) j) eqn:Ha; [|done]. rewrite all_filled_spec in Ha. exfalso.
  apply (inner_has_port j Hj).
  - destruct (isSource cg j) eqn:Hs; [|done]. exfalso. apply Hh, elem_of_list_to_set, source_elem. done.
  - destruct (ports j) as [|p l] eqn:Hp; [done|]. destruct (Ha 0) as [x Hx]; [simpl; lia|done].
Qed.

(** *** Engines at rest *)

(** A node as [initialize] made it, whatever a batch then did to its counters. *)
Record node_at_rest (j : nat) (nd : NodeState Q) : Prop := {
  nr_node : cg_nodes cg !! j = Some (nd_node nd);
  nr_name : nd_name nd = name j;
  nr_ports : nd_input_ports nd = ports j;
  nr_queues : length (nd_queues nd) = length (ports j);
  nr_qok : Forall pq_ok (nd_queues nd);
  nr_sync : nd_sync_tracked nd = false;
}.

(** An engine for the graph that waits for its next batch. *)
Record at_rest s : Prop := {
  ar_len : length (e_nodes s) = N;
  ar_node j nd : e_nodes s !! j = Some nd → node_at_rest j nd;
  ar_pool : e_pool s = [];
  ar_accepting : e_accepting s = true;
  ar_sync : sy_isEnabled (e_sync s) = false;
  ar_stream : e_streamingMode s = false;
  ar_state : e_state s ≠ RUNNING;
}.

(** It is one when it has been initialized without a synchronization strategy. *)
Lemma initialized_at_rest qcs (sync : Sy) (now : Z) :
  sy_isEnabled sync = false → (∀ name port, (qc_capacity (port_queue_config cfg qcs name port) ≤ 2 ^ 63)%Z) →
  at_rest (initialized (Q := Q) deref cfg qcs cg sync now).
Proof.
  intros Hsync Hcap. split; try done; unfold initialized, initializeNodeStates; simpl.
  - apply length_imap.
  - intros j nd. rewrite list_lookup_imap. intros (p & Hj & ->)%fmap_Some. split; simpl; unfold node_name, node_ports; rewrite ?Hj; try done.
    + unfold initializeQueues. by rewrite length_fmap.
    + unfold initializeQueues. rewrite Forall_fmap, Forall_forall. intros port _. by apply pq_new_spec, Hcap.
    + by rewrite Hsync.
Qed.

(** And when a batch is over. *)
Lemma stage_at_rest st s : stage_ok st s → e_pool s = [] → e_state s ≠ RUNNING → at_rest s.
Proof.
  intros S Hp Hs. pose proof (so_flags _ _ _ _ S) as F. split; [apply S| |done|apply F|apply F|apply F|done].
  intros j nd Hj. destruct (so_node _ _ _ _ S j nd Hj) as [B [I _ _]]. split; try apply B.
  rewrite <-(length_fmap pq_items), I. unfold stage_items. by rewrite length_fmap, length_seq.
Qed.

Context (start : Engine) (Hrest : at_rest start).

Lemma reset_stage s : same_engine start s → stage_ok first_stage (e_set_state (e_set_cancelled (resetInternalState s) false) RUNNING).
Proof using G D Hrest.
  intros (Hn & Hp & Ha & Hs & Hm & _). destruct Hrest as [R1 R2 R3 R4 R5 R6 _]. split; simpl.
  - by rewrite length_fmap, Hn.
  - intros j nd'. rewrite list_lookup_fmap, Hn. intros (nd & Hj & ->)%fmap_Some. destruct (R2 j nd Hj) as [M1 M2 M3 M4 M5 M6].
    assert (Forall (λ q, pq_ok q ∧ pq_items q = []) (pq_clear <$> nd_queues nd)) as Hq.
    { rewrite Forall_fmap. eapply Forall_impl; [exact M5|]. intros q Hok. split; [by apply pq_clear_spec|apply pq_clear_spec]. }
    split; [split; simpl; try done|split; simpl; try done].
    + eapply Forall_impl; [exact Hq|]. by intros q [? _].
    + unfold stage_items. apply list_eq. intros k. rewrite !list_lookup_fmap. destruct (decide (k < length (ports j))) as [Hk|Hk].
      * rewrite lookup_seq_lt by done. destruct (lookup_lt_is_Some_2 (nd_queues nd) k) as [q Hqk]; [lia|].
        rewrite Hqk. simpl. rewrite Forall_fmap in Hq. by destruct (Forall_lookup_1 _ _ k q Hq Hqk) as [_ ->].
      * by rewrite (lookup_ge_None_2 (seq _ _)), (lookup_ge_None_2 (nd_queues nd)) by (rewrite ?length_seq; lia).
    + symmetry. apply first_stage_waiting. by eapply lookup_lt_Some.
  - rewrite Hp, R3. apply NoDup_nil_2.
  - intros j. rewrite Hp, R3. split; [by intros ?%not_elem_of_nil|]. intros [Hj Hr]. by rewrite first_stage_waiting in Hr.
  - by rewrite Hp, R3.
  - split; simpl; [done|by rewrite Hm|done|by rewrite Ha|by rewrite Hs].
Qed.

(** Every source that takes a packet is given one. *)
Definition inputs_given (inputs : PortDataMap) : Prop :=
  Forall (λ j, ports j ≠ [] → is_Some (pm_find inputs (name j))) (cg_sourceNodes cg).

(** Some node is a source. *)
Lemma has_source : cg_sourceNodes cg ≠ [].
Proof using G.
  pose proof (dg_topo _ _ G) as Ht. assert (0 < N) as HN by (pose proof (dg_nonempty _ _ G); destruct (cg_nodes cg); simpl; [done|lia]).
  assert (length (cg_topoOrder cg) = N) as Hl by (by rewrite Ht, length_seq).
  destruct (lookup_lt_is_Some_2 (cg_topoOrder cg) 0) as [j Hj]; [lia|].
  assert (j < N) as HjN by (apply list_elem_of_lookup_2 in Hj; rewrite Ht, elem_of_seq in Hj; lia).
  enough (j ∈ cg_sourceNodes cg) as Hin by (intros Hnil; rewrite Hnil in Hin; by apply not_elem_of_nil in Hin).
  apply source_elem. split; [done|]. destruct (isSource cg j) eqn:Hs; [done|exfalso].
  destruct (dg_inner _ _ G j HjN Hs) as (i & e & Hi & He & <-).
  destruct (dg_forward _ _ G i e Hi He) as (_ & (a & b & Ha & Hb & Hab) & _).
  assert (b = 0) as ->; [|lia]. eapply NoDup_lookup; [|exact Hb|exact Hj]. rewrite Ht. apply NoDup_seq.
Qed.

(** What [execute] leaves once the nodes are set up: an answer of success and an engine
    whose sources hold their packets. *)
Lemma execute_begins f inputs context :
  inputs_given inputs → outputs_complete cg f →
  void_isOk (setupNodes deref cg setup (e_set_context start context)).2 = true →
  let fed := stamp_sources (resetInternalState start) inputs in
  sources_fed deref cg fed ∧
  ∃ s1, execute deref cfg cg BatchScheduler onEndOfStream elapsed setup start inputs context = Some (s1, void_ok) ∧
    run_inv deref cg f fed (e_log s1) [] s1 ∧
    e_log s1 = e_log (setupNodes deref cg setup (e_set_context start context)).1.
Proof using G D Hrest.
  intros Hin Hfull Hset_ok fed. unfold inputs_given in Hin. rewrite Forall_forall in Hin.
  assert (sources_fed deref cg fed) as Hfed.
  { intros j Hj Hs Hp. assert (j ∈ cg_sourceNodes cg) as Hsrc by (by apply source_elem).
    apply stamp_has; [done|]. by apply Hin. }
  split; [done|]. unfold execute. rewrite (ar_stream _ Hrest), decide_False by apply Hrest.
  destruct (setupNodes deref cg setup (e_set_context start context)) as [s2 r] eqn:Hset. apply setup_same in Hset.
  cbn [snd fst] in *. rewrite Hset_ok. cbn [negb].
  assert (same_engine start s2) as H2 by exact Hset. pose proof (reset_stage s2 H2) as S3.
  set (s3 := e_set_state _ RUNNING) in *. unfold distributeInitialInputs.
  destruct (distribute_all inputs (cg_sourceNodes cg) first_stage s3 (resetInternalState start, ∅) false S3)
    as (s4 & fl & has & Hd & Hhas & S4 & O4 & Hkeep & Hset4); try done.
  { rewrite (dg_sources _ _ G). apply NoDup_filter, NoDup_seq. }
  { intros j Hj. pose proof Hj as [HN _]%source_elem. split_and!; [done| |by apply Hin|done].
    by apply (proj1 (Forall_forall _ _) (dt_sources _ _ D)). }
  { destruct H2 as (_ & _ & _ & _ & _ & Hnow). unfold stamps. simpl. by rewrite Hnow. }
  rewrite Hd. cbn [mbind option_bind]. rewrite Hhas, bool_decide_eq_true_2 by apply has_source. cbn [orb].
  exists s4. split; [done|].
  assert (stage_ok (stage_after deref cg f fed []) s4) as S5.
  { assert (∀ j k, k < length (ports j) → filled_after deref cg f fed [] j k = fl j k) as Hfl.
    { intros j k Hk. unfold filled_after. destruct (isSource cg j) eqn:Hs.
      - destruct (decide (j < N)) as [Hj|Hj].
        + symmetry. apply Hset4; [by apply source_elem|done].
        + unfold node_ports in Hk. rewrite lookup_ge_None_2 in Hk by lia. simpl in Hk. lia.
      - rewrite Hkeep by (intros [_ ?]%source_elem; congruence). 
        destruct (feeder cg j k) as [[i e]|]; [|done]. by rewrite decide_False by set_solver. }
    eapply stage_ext; [exact S4| |done|intros j k _; apply Hfl|done].
    intros j. unfold stage_state. cbn [st_running st_done st_held st_filled stage_after].
    assert (all_filled deref cg (filled_after deref cg f fed []) j = all_filled deref cg fl j) as ->; [|done].
    apply eq_bool_prop_intro. rewrite !Is_true_true, !all_filled_spec.
    split; intros Ha k Hk; specialize (Ha k Hk); by rewrite Hfl in * by done. }
  assert (e_log s4 = e_log s2) as Hlog by exact (f_equal (λ t, t.1.1.2) O4). split; [|done].
  split; [done|apply NoDup_nil_2|apply list_subseteq_nil| |].
  - intros pre j post Heq. by destruct pre.
  - cbv zeta. rewrite decide_False.
    + rewrite O4, Hlog, fmap_nil, app_nil_r. done.
    + intros Hp. pose proof (all_done deref cg f fed G D Hfed Hfull [] s4 S5 Hp) as Hall.
      destruct (cg_nodes cg) as [|p l] eqn:Hc; [by apply (dg_nonempty _ _ G)|].
      specialize (Hall 0 ltac:(simpl; lia)). by apply not_elem_of_nil in Hall.
Qed.

Lemma execute_started f inputs context s1 :
  inputs_given inputs → outputs_complete cg f →
  execute deref cfg cg BatchScheduler onEndOfStream elapsed setup start inputs context = Some (s1, void_ok) →
  let fed := stamp_sources (resetInternalState start) inputs in
  sources_fed deref cg fed ∧ run_inv deref cg f fed (e_log s1) [] s1 ∧
  e_log s1 = e_log (setupNodes deref cg setup (e_set_context start context)).1.
Proof using G D Hrest.
  intros Hin Hfull Hex fed. destruct (void_isOk (setupNodes deref cg setup (e_set_context start context)).2) eqn:Hset.
  - destruct (execute_begins f inputs context Hin Hfull Hset) as (Hfed & s1' & Hex' & Hrun). rewrite Hex in Hex'. by injection Hex' as <-.
  - exfalso. unfold execute in Hex. rewrite (ar_stream _ Hrest), decide_False in Hex by apply Hrest.
    destruct (setupNodes _ _ _ _) as [s2 r]. cbn [snd] in Hset. rewrite Hset in Hex. by injection Hex as _ ->.
Qed.
End Execute.
End Start.

(** ** The property *)

Section Property.
Context `{CppTypes} {Q Sy : Type} `{!PortQueue Q, !PortQueueLaws Q, !SyncStrategy Sy}.
Context (deref : NodePtr → ILogicNode) (cfg : EngineConfig).
Context (f : NodePtr → PortDataMap → PortDataMap).
Context (onEndOfStream : list Event → NodePtr → Outcome) (elapsed : list Event → Z).
Context (setup : list Event → NodePtr → VoidResult + option string).

(** A batch engine for a compiled graph, at rest (that is, initialized, or done with a
    batch), started on inputs for its sources, with the default alignment and no
    synchronization strategy. *)
Record batch_started (cg : CompiledGraph) (inputs : PortDataMap) (s0 s1 : Engine Q Sy) : Prop := {
  bs_graph : ∃ g, rtc (graph_step deref) empty_graph g ∧ (Z.of_nat (length (m_nodes g)) < u32_mod)%Z ∧
    compile deref g = Some (ROk cg);
  bs_engine : at_rest deref cg s0;
  bs_align : ec_alignment_policy cfg = AP_FrameId;
  bs_inputs : inputs_given deref cg inputs;
  bs_start : ∃ context, execute deref cfg cg BatchScheduler onEndOfStream elapsed setup s0 inputs context = Some (s1, void_ok);
}.

(** However posted tasks are picked, nodes run on what the equations give them. *)
Lemma batch_runs cg inputs (s0 s1 : Engine Q Sy) (picks : list nat) :
  batch_started cg inputs s0 s1 → determined deref cg → outputs_complete cg f →
  let fed := stamp_sources deref cfg cg (resetInternalState s0) inputs in
  let n := length (cg_nodes cg) in
  ∃ order s', workers cfg cg onEndOfStream elapsed f s1 picks = Some s' ∧
    NoDup order ∧ order ⊆ seq 0 n ∧ ordered cg order ∧ length order = min (length picks) n ∧
    if decide (n ≤ length picks) then
      ∃ results, e_log s' = e_log s1 ++ (process_event deref cg f fed <$> order) ++ [EvResult results] ∧
        pm_equiv results (dataflow_results deref cg f fed) ∧ e_pool s' = [] ∧
        completion_reached s' = true ∧ (completion_outcome s').2 = void_ok ∧
        at_rest deref cg (completion_outcome s').1
    else e_log s' = e_log s1 ++ (process_event deref cg f fed <$> order) ∧ e_pool s' ≠ [] ∧ completion_reached s' = false.
Proof.
  intros [(g & Hr & Hsmall & Hc) Hrest Hal Hin (context & Hex)] D Hfull fed n.
  pose proof (compile_dag deref g cg Hr Hsmall Hc) as G.
  destruct (execute_started deref cfg cg onEndOfStream elapsed setup G D s0 Hrest f inputs context s1
    Hin Hfull Hex) as (Hfed & R & _).
  destruct (workers_run deref cfg cg onEndOfStream elapsed f fed G D Hfed Hfull Hal _ _ _ picks R)
    as (order & s' & Hs & R' & Hlen). cbn [app length Nat.add] in R', Hlen. fold n in Hlen. exists order, s'.
  destruct (run_inv_length deref cfg cg f fed G D Hfed Hfull Hal _ _ _ R') as [_ Hfin]. fold n in Hfin.
  pose proof (ri_outside _ _ _ _ _ _ _ R') as Ho. cbv zeta in Ho. split_and!; [done|apply R'..|done|].
  destruct (decide (n ≤ length picks)) as [Hn|Hn].
  - assert (e_pool s' = []) as Hp by (apply Hfin; lia). rewrite (decide_True (P := e_pool s' = [])) in Ho by done. injection Ho as Hres Hlog Hrep Hst.
    eexists. split; [exact Hlog|]. pose proof (so_flags _ _ _ _ (ri_stage _ _ _ _ _ _ _ R')) as F.
    pose proof (so_active _ _ _ _ (ri_stage _ _ _ _ _ _ _ R')) as Ha. rewrite Hp in Ha. simpl in Ha.
    split_and!; [|done|unfold completion_reached; by rewrite bool_decide_eq_true_2| |].
    + assert (order ≡ₚ seq 0 n) as Hperm.
      { apply submseteq_length_Permutation; [apply NoDup_submseteq; apply R'|]. rewrite length_seq. lia. }
      unfold dataflow_results. rewrite (dg_sinks _ _ G). apply (results_of_perm deref cg f).
      * by rewrite Hperm.
      * apply NoDup_filter, R'.
      * pose proof (dt_sinks _ _ D) as Hsinks. rewrite (dg_sinks _ _ G) in Hsinks. by rewrite Hperm.
      * intros i j. rewrite !list_elem_of_filter, Hperm, !elem_of_seq. intros [_ Hi] [_ Hj].
        apply (dg_names _ _ G); lia.
    + unfold completion_outcome. rewrite (fo_stop _ F), Ha, Hst. done.
    + unfold completion_outcome. rewrite (fo_stop _ F), Ha, Hst. simpl.
      pose proof (ri_stage _ _ _ _ _ _ _ R') as [P1 P2 P3 P4 P5 [F1 F2 F3 F4 F5]].
      apply (stage_at_rest deref cg (stage_after deref cg f fed order)); [by split; [..|split]|exact Hp|done].
  - assert (e_pool s' ≠ []) as Hp by (intros Hp; apply Hfin in Hp; lia). rewrite (decide_False (P := e_pool s' = [])) in Ho by done.
    injection Ho as _ Hlog _ _. split_and!; [done|done|]. unfold completion_reached.
    rewrite (fo_stop _ (so_flags _ _ _ _ (ri_stage _ _ _ _ _ _ _ R'))), (so_active _ _ _ _ (ri_stage _ _ _ _ _ _ _ R')), orb_false_r.
    apply bool_decide_eq_false. destruct (e_pool s'); [done|]. simpl. lia.
Qed.

(** C4: a batch execution computes the dataflow of its graph, whatever the schedule.
    Take a compiled graph that determines what a batch computes: no port is fed twice
    (else [shared_port_races]), a source has at most one input port (else
    [two_port_source_fails]), edges lead to input ports that their nodes declare, and
    the names of sinks have no colon; nodes that are functions of their inputs and put
    out a packet on every port an edge leaves from; the default alignment (by frame id)
    and no synchronization strategy; and an execution that has been started on inputs
    for the sources.  However the workers pick posted tasks, one after the other: after [m] tasks
    exactly [min m n] of the [n] nodes have run, each once, after the nodes that feed
    it and on exactly the packets the equations of the graph give it; until all nodes
    have run there is work to pick and the wait for completion does not end, and then
    the result callback is called once, with the outputs of the sinks as the equations
    determine them, the wait for completion succeeds, and the engine is at rest again,
    so that the next batch is computed like this one. *)
Theorem batch_computes_dataflow cg inputs (s0 s1 : Engine Q Sy) (picks : list nat) :
  batch_started cg inputs s0 s1 → determined deref cg → outputs_complete cg f →
  let fed := stamp_sources deref cfg cg (resetInternalState s0) inputs in
  let n := length (cg_nodes cg) in
  ∃ order s', workers cfg cg onEndOfStream elapsed f s1 picks = Some s' ∧
    NoDup order ∧ order ⊆ seq 0 n ∧ ordered cg order ∧ length order = min (length picks) n ∧
    if decide (n ≤ length picks) then
      ∃ results, e_log s' = e_log s1 ++ (process_event deref cg f fed <$> order) ++ [EvResult results] ∧
        pm_equiv results (dataflow_results deref cg f fed) ∧ e_pool s' = [] ∧
        completion_reached s' = true ∧ (completion_outcome s').2 = void_ok ∧
        at_rest deref cg (completion_outcome s').1
    else e_log s' = e_log s1 ++ (process_event deref cg f fed <$> order) ∧ e_pool s' ≠ [] ∧ completion_reached s' = false.
Proof. apply batch_runs. Qed.
End Property.

(** Nodes with a single output port put out all they are asked for. *)
Lemma one_output `{CppTypes} (cg : CompiledGraph) (f : NodePtr → PortDataMap → PortDataMap) (port : string) :
  Forall (λ l, oe_source_port l.2 = port) (links cg) →
  (∀ p inputs, is_Some (pm_find (f p inputs) port)) → outputs_complete cg f.
Proof.
  intros Hall Hf i p e Hi He inputs. rewrite Forall_forall in Hall. apply lookup_lt_Some in Hi.
  specialize (Hall (i, e)). rewrite elem_of_links in Hall. simpl in Hall. by rewrite Hall.
Qed.

(** ** An execution *)

Section Example.
#[local] Instance unit_types : CppTypes := {| ty := unit; ty_name _ := "unit"; ty_val _ := unit |}.
Notation PQ := (NodeQueue (BoundedList PortDataPtr) PortDataPtr).

(** A source, two nodes behind it, and a join with a port for each. *)
Definition bx_node (p : NodePtr) : ILogicNode :=
  mkNode ("n" +:+ pretty p) (if decide (p = 3) then ["a"; "b"] else ["in"]) ["out"] (λ _, typeid_void).
Definition bx_nodes : Graph := fold_left (λ g p, (addNode bx_node g (Some p)).1) [0; 1; 2; 3] empty_graph.
Definition bx_link g (a b : NodePtr) (port : string) : Graph :=
  (addEdge bx_node g ("n" +:+ pretty a) "out" ("n" +:+ pretty b) port).1.
Definition bx_graph : Graph := bx_link (bx_link (bx_link (bx_link bx_nodes 0 1 "in") 0 2 "in") 1 3 "a") 2 3 "b".
Definition bx_cg : CompiledGraph :=
  match compile bx_node bx_graph with Some (ROk cg) => cg | _ => mkCompiled [] ∅ ∅ [] [] [] [] [] [] [] end.
Definition bx_cfg : EngineConfig := config_batch 2.
(** Each node passes on its last input. *)
Definition bx_f (p : NodePtr) (inputs : PortDataMap) : PortDataMap := [("out", default None (snd <$> last inputs))].
Definition bx_flush (_ : list Event) (p : NodePtr) : Outcome := Returned [].
Definition bx_elapsed (_ : list Event) : Z := 7.
Definition bx_setup (_ : list Event) (_ : NodePtr) : VoidResult + option string := inl void_ok.
Definition bx_inputs : PortDataMap := [("n0", Some (mkPacket 0 0 0 []))].
Definition bx_init : Engine PQ NoSync := initialized bx_node bx_cfg ∅ bx_cg mkNoSync 0.
Definition bx_engine : Engine PQ NoSync :=
  match execute bx_node bx_cfg bx_cg BatchScheduler bx_flush bx_elapsed bx_setup bx_init bx_inputs false with
  | Some (s, _) => s | None => bx_init end.

Lemma bx_reachable : rtc (graph_step bx_node) empty_graph bx_graph.
Proof.
  assert (∀ g a b port, rtc (graph_step bx_node) empty_graph g → rtc (graph_step bx_node) empty_graph (bx_link g a b port)) as Hl.
  { intros. eapply rtc_r; [done|constructor]. }
  do 4 apply Hl. unfold bx_nodes. generalize (@rtc_refl _ (graph_step bx_node) empty_graph).
  generalize empty_graph at 2 4. generalize [0; 1; 2; 3]. intros l. induction l as [|p l IH]; intros g Hg; [done|].
  apply IH. eapply rtc_r; [done|constructor].
Qed.

Lemma bx_started : batch_started bx_node bx_cfg bx_flush bx_elapsed bx_setup bx_cg bx_inputs bx_init bx_engine.
Proof.
  split.
  - exists bx_graph. split_and!; [exact bx_reachable|vm_compute; reflexivity|vm_compute; reflexivity].
  - apply initialized_at_rest; [done|]. intros name port.
    unfold port_queue_config, getNodeQueueConfig. rewrite lookup_empty. vm_compute. discriminate.
  - done.
  - apply (bool_decide_unpack _). vm_compute. exact I.
  - exists false. vm_compute. reflexivity.
Qed.

Lemma bx_determined : determined bx_node bx_cg.
Proof. split; apply (bool_decide_unpack _); vm_compute; exact I. Qed.

Lemma bx_complete : outputs_complete bx_cg bx_f.
Proof.
  apply (one_output bx_cg bx_f "out").
  - apply (bool_decide_unpack _). vm_compute. exact I.
  - intros p inputs. unfold bx_f. rewrite pm_find_cons. by eexists.
Qed.

(** The second branch runs before the first, the join last. *)
Lemma batch_computes_dataflow_witness :
  ∃ (order : list nat) s' results, workers bx_cfg bx_cg bx_flush bx_elapsed bx_f bx_engine [0; 1; 0; 0] = Some s' ∧
    length order = 4 ∧ last (e_log s') = Some (EvResult results) ∧
    pm_find results "n3:out" = Some (Some (mkPacket 1 0 0 [])) ∧ e_pool s' = [].
Proof.
  destruct (batch_computes_dataflow bx_node bx_cfg bx_f bx_flush bx_elapsed bx_setup bx_cg bx_inputs bx_init bx_engine
    [0; 1; 0; 0] bx_started bx_determined bx_complete) as (order & s' & Hs & _ & _ & _ & Hlen & Hend).
  rewrite decide_True in Hend by (vm_compute; lia). destruct Hend as (results & Hlog & Hres & Hp & _).
  exists order, s', results. split; [exact Hs|]. split; [exact Hlen|]. split; [|split; [|exact Hp]].
  - rewrite Hlog, !last_app. reflexivity.
  - rewrite (Hres "n3:out"). vm_compute. reflexivity.
Defined.

(** The conditions on the graph are needed.  Here the two branches feed one port of
    the last node, which runs when the first packet is there: which of the two
    results comes out depends on the schedule. *)
Definition bx_tag (p : NodePtr) (inputs : PortDataMap) : PortDataMap := [("out", Some (mkPacket (Z.of_nat p) 0 0 []))].
Definition bx_outcome (deref : NodePtr → ILogicNode) (g : Graph) (f : NodePtr → PortDataMap → PortDataMap) (picks : list nat) : option (list Event) :=
  cg ← match compile deref g with Some (ROk cg) => Some cg | _ => None end;
  '(s, _) ← execute deref bx_cfg cg BatchScheduler bx_flush bx_elapsed bx_setup
     (initialized (Q := PQ) (Sy := NoSync) deref bx_cfg ∅ cg mkNoSync 0) bx_inputs false;
  s' ← workers bx_cfg cg bx_flush bx_elapsed f s picks;
  Some (omap (λ ev, match ev with EvProcess 3 _ | EvError _ _ | EvResult _ => Some ev | _ => None end) (e_log s')).

Lemma shared_port_races :
  let packet i := [("in", Some (mkPacket i 0 0 []))] in
  let result := EvResult [("n3:out", Some (mkPacket 3 0 0 []))] in
  bx_outcome ex_node ex_diamond bx_tag [0; 0; 0; 0] = Some [EvProcess 3 (packet 1%Z); result] ∧
  bx_outcome ex_node ex_diamond bx_tag [0; 1; 0; 0] = Some [EvProcess 3 (packet 2%Z); result].
Proof. vm_compute. split; reflexivity. Qed.

(** A source with two input ports is given a packet at the first only; it is
    scheduled nevertheless, finds its second port empty, and the batch fails. *)
Definition bx_wide (p : NodePtr) : ILogicNode := mkNode "n0" ["a"; "b"] ["out"] (λ _, typeid_void).
Definition bx_wide_graph : Graph := (addNode bx_wide empty_graph (Some 0)).1.
Definition bx_wide_run : option (EngineState * list Event * list (list PortDataPtr)) :=
  cg ← match compile bx_wide bx_wide_graph with Some (ROk cg) => Some cg | _ => None end;
  '(s, r) ← execute bx_wide bx_cfg cg BatchScheduler bx_flush bx_elapsed bx_setup
     (initialized (Q := PQ) (Sy := NoSync) bx_wide bx_cfg ∅ cg mkNoSync 0) bx_inputs false;
  s' ← workers bx_cfg cg bx_flush bx_elapsed bx_f s [0];
  Some (e_state s', e_log s', items s' 0).

Lemma two_port_source_fails : bx_wide_run = Some (STOPPED, [EvSetup 0], [[]; []]).
Proof. vm_compute. reflexivity. Qed.
(** A batch that failed leaves the task of another node posted.  The next batch stores
    zero into the count of active tasks; the old task then takes the new batch's source
    off the count, and the wait for the new batch is over, with success and without a
    result, before any of its nodes has run. *)
Definition bx_once (log : list Event) (p : NodePtr) (inputs : PortDataMap) : Outcome :=
  if decide (p = 1 ∧ length (filter (λ ev, match ev with EvProcess 1 _ => true | _ => false end = true) log) ≤ 1)
  then Threw None else Returned (bx_f p inputs).
Definition bx_retry : option (Z * list nat * EngineState * (list nat * bool * VoidResult * list Event)) :=
  s ← run_task bx_cfg bx_cg BatchScheduler bx_once bx_flush bx_elapsed bx_engine 0;
  s ← run_task bx_cfg bx_cg BatchScheduler bx_once bx_flush bx_elapsed s 0;
  let s := (completion_outcome s).1 in
  '(s1, _) ← execute bx_node bx_cfg bx_cg BatchScheduler bx_flush bx_elapsed bx_setup s bx_inputs false;
  s2 ← run_task bx_cfg bx_cg BatchScheduler bx_once bx_flush bx_elapsed s1 0;
  Some (e_activeTasks s, e_pool s, e_state s,
        (e_pool s2, completion_reached s2, (completion_outcome s2).2, drop (length (e_log s)) (e_log s2))).

Lemma straggler_ends_next_batch : bx_retry = Some (1%Z, [2], STOPPED, ([0], true, void_ok, [])).
Proof. vm_compute. reflexivity. Qed.
End Example.
