(* ===== verification/EngineShell.v ===== *)
(** * The execution engine as its users see it

    [ExecutionEngine] of [src/execution_engine_impl.cpp]: construction, strategies, the
    compilation of a graph in [initialize] (also of a new graph, later), the guards of
    the calls that need one, and the queries.  What runs inside is [Engine]; here are
    the members around it.

    Calls that wait return once their condition holds; their conditions and outcomes
    are in [Engine] ([completion_reached], [drain_reached], [completion_outcome]) and
    here.  [initialize] is called while no task is posted or running. *)

From S2P Require Import Prelude Errors Packets Kahn Graphs CompiledGraphs MpmcQueue NodeQueue FrameAlignment.
From S2P Require Import SyncCoordinator JoinAwareSync ExecutionTypes Trace Schedulers EngineCore EngineGather Dataflow Engine.
From S2P Require Import BatchRun BatchCorrect.
Local Open Scope string_scope.
Local Open Scope list_scope.
Local Open Scope Z_scope.

(** ** Strategies chosen at run time *)

(** A pointer to one of the two synchronization strategies. *)
Inductive AnySync := NoneSync (s : NoSync) | JoinSync (s : JoinAware).

#[export] Instance AnySync_strategy : SyncStrategy AnySync := {
  sy_reportDrop s node f reason := match s with
    | NoneSync s => let (s, l) := sy_reportDrop s node f reason in (NoneSync s, l)
    | JoinSync s => let (s, l) := sy_reportDrop s node f reason in (JoinSync s, l) end;
  sy_shouldDrop s node f := match s with NoneSync s => sy_shouldDrop s node f | JoinSync s => sy_shouldDrop s node f end;
  sy_markProcessed s node f := match s with
    | NoneSync s => NoneSync (sy_markProcessed s node f) | JoinSync s => JoinSync (sy_markProcessed s node f) end;
  sy_getWatermark s g := match s with NoneSync s => sy_getWatermark s g | JoinSync s => sy_getWatermark s g end;
  sy_isEnabled s := match s with NoneSync s => sy_isEnabled s | JoinSync s => sy_isEnabled s end;
  sy_tracksNode s node := match s with NoneSync s => sy_tracksNode s node | JoinSync s => sy_tracksNode s node end;
}.

#[export] Instance AnySync_laws : SyncStrategyLaws AnySync.
Proof.
  split.
  - intros [s|s] nd f; [exact (untracked_shouldDrop s nd f)|exact (untracked_shouldDrop s nd f)].
  - intros [s|s] nd f Ht; [done|]. exact (f_equal JoinSync (untracked_markProcessed s nd f Ht)).
  - intros [s|s] nd f r Ht; [done|]. pose proof (untracked_reportDrop s nd f r Ht) as Hr. simpl in *. by rewrite Hr.
  - intros [s|s] nd f r nd'; [done|]. pose proof (tracksNode_drop s nd f r nd') as Ht. simpl in *. by destruct (ja_reportDrop s nd f r).
  - intros [s|s] nd f nd'; [done|]. exact (tracksNode_processed s nd f nd').
Qed.

Section Shell.
Context `{CppTypes} {Q : Type} `{!PortQueue Q}.
Context (deref : NodePtr → ILogicNode) (iter : gset nat → list nat).
Context (onEndOfStream : list Event → NodePtr → Outcome) (elapsed : list Event → Z).
Context (setup : list Event → NodePtr → VoidResult + option string).
Notation Impl := (Engine Q AnySync).

(** [ISyncStrategy::initialize] *)
Definition sync_initialize (s : AnySync) (cg : CompiledGraph) : AnySync :=
  match s with NoneSync s => NoneSync s | JoinSync s => JoinSync (JoinAwareSync.initialize iter deref s cg) end.

(** [ISyncStrategy::reset] *)
Definition sync_reset (s : AnySync) : AnySync := match s with NoneSync s => NoneSync s | JoinSync s => JoinSync (ja_reset s) end.

(** src/src/execution_engine_impl.hpp:454-470 ExecutionEngine::Impl (configuration, graph and strategies);
    the graph and the thread pool are there together *)
Record ExecutionEngine := mkExecutionEngine {
  ee_config : EngineConfig;
  ee_compiled : option CompiledGraph;
  ee_scheduler : SchedulerStrategy;
  ee_queueConfigs : gmap string QueueConfig;
  ee_impl : Impl;
}.
Implicit Types (ee : ExecutionEngine) (s : Impl).

Definition set_impl ee s : ExecutionEngine :=
  mkExecutionEngine (ee_config ee) (ee_compiled ee) (ee_scheduler ee) (ee_queueConfigs ee) s.

(** ** Construction and strategies *)

(** An implementation without nodes. *)
Definition bare (sync : AnySync) (now : Z) : Impl :=
  mkEngine [] sync [] false (newEngineStatistics now) IDLE 0 false false false 0 false 1 ∅ [] false false [] [] now [] [] None.

(** src/src/execution_engine_impl.cpp:307-331 ExecutionEngine::Impl::configureForMode (the synchronization) *)
Definition sync_for (config : EngineConfig) (mode : ExecutionMode) : AnySync :=
  match mode with
  | BATCH => NoneSync mkNoSync
  | STREAM => if ec_enable_sync_coordination config then JoinSync newJoinAware else NoneSync mkNoSync
  end.

(** src/src/execution_engine_impl.cpp:307-331 ExecutionEngine::Impl::configureForMode *)
Definition configureForMode ee (mode : ExecutionMode) : ExecutionEngine :=
  mkExecutionEngine (ee_config ee) (ee_compiled ee) (scheduler_for (ee_config ee) mode) (ee_queueConfigs ee)
    (e_set_sync (ee_impl ee) (sync_for (ee_config ee) mode)).

(** src/src/execution_engine_impl.cpp:187-192 ExecutionEngine::Impl::Impl *)
Definition newImpl (config : EngineConfig) (now : Z) : ExecutionEngine :=
  configureForMode (mkExecutionEngine config None BatchScheduler ∅ (bare (NoneSync mkNoSync) now)) (ec_mode config).

(** src/src/execution_engine_impl.cpp:16-21 ExecutionEngine::create *)
Definition create (config : EngineConfig) (now : Z) : ExecutionEngine := configureForMode (newImpl config now) (ec_mode config).

(** src/src/execution_engine_impl.cpp:217-234 ExecutionEngine::Impl::setSchedulerStrategy *)
Definition setSchedulerStrategy ee (strategy : option SchedulerStrategy) : ExecutionEngine * VoidResult :=
  match strategy with
  | None => (ee, void_err EC_InvalidArgument "Scheduler strategy must not be null" "")
  | Some strategy =>
      if decide (e_state (ee_impl ee) ≠ IDLE)
      then (ee, void_err EC_InvalidState "Cannot change strategies while engine is running" "")
      else (mkExecutionEngine (ee_config ee) (ee_compiled ee) strategy (ee_queueConfigs ee) (ee_impl ee), void_ok)
  end.

(** src/src/execution_engine_impl.cpp:253-259 ExecutionEngine::Impl::setSyncStrategy (sync_tracked) *)
Definition retrack (sync : AnySync) (nd : NodeState Q) : NodeState Q :=
  mkNodeState (nd_node nd) (nd_name nd) (nd_index nd) (nd_input_ports nd) (nd_queues nd)
    (sy_isEnabled sync && sy_tracksNode sync (nd_name nd)) (nd_stats nd) (nd_exec_state nd) (nd_last_execution nd)
    (nd_execution_count nd) (nd_join_wait_since nd) (nd_degrade_pending nd) (nd_defer_pending nd) (nd_eos_mask nd)
    (nd_eos_propagated nd).

(** src/src/execution_engine_impl.cpp:236-262 ExecutionEngine::Impl::setSyncStrategy *)
Definition setSyncStrategy ee (strategy : option AnySync) : ExecutionEngine * VoidResult :=
  match strategy with
  | None => (ee, void_err EC_InvalidArgument "Sync strategy must not be null" "")
  | Some strategy =>
      if decide (e_state (ee_impl ee) ≠ IDLE)
      then (ee, void_err EC_InvalidState "Cannot change strategies while engine is running" "")
      else
        let strategy := match ee_compiled ee with Some cg => sync_initialize strategy cg | None => strategy end in
        (set_impl ee (e_set_nodes (e_set_sync (ee_impl ee) strategy) (retrack strategy <$> e_nodes (ee_impl ee))), void_ok)
  end.

(** src/src/execution_engine_impl.cpp:264-273 ExecutionEngine::Impl::setTraceSink *)
Definition setTraceSink ee (sink : option TraceSink) : ExecutionEngine * VoidResult :=
  if decide (e_state (ee_impl ee) ≠ IDLE)
  then (ee, void_err EC_InvalidState "Cannot change trace sink while engine is running" "")
  else (set_impl ee (e_set_traceSink (ee_impl ee) sink), void_ok).

(** src/src/execution_engine_impl.cpp:990-993 ExecutionEngine::Impl::setNodeQueueConfig *)
Definition setNodeQueueConfig ee (node_name : string) (config : QueueConfig) : ExecutionEngine :=
  mkExecutionEngine (ee_config ee) (ee_compiled ee) (ee_scheduler ee) (<[node_name := config]> (ee_queueConfigs ee))
    (ee_impl ee).

(** ** Initialization *)

Definition with_workers (c : EngineConfig) (n : Z) : EngineConfig :=
  if decide (0 < n) then
    mkEngineConfig (ec_mode c) n (ec_default_queue_capacity c) (ec_default_drop_strategy c) (ec_enable_sync_coordination c)
      (ec_allow_partial_inputs c) (ec_min_execution_interval_ms c) (ec_alignment_policy c) (ec_alignment_tolerance_us c)
      (ec_join_wait_timeout_ms c) (ec_join_timeout_policy c) (ec_enable_statistics c) (ec_enable_drop_logging c)
  else c.

(** src/src/execution_engine_impl.cpp:362-399 ExecutionEngine::Impl::initialize (once the graph is compiled) *)
Definition install ee (cg : CompiledGraph) (num_workers : Z) : ExecutionEngine :=
  let s := ee_impl ee in
  let config := with_workers (ee_config ee) num_workers in
  let sync := sync_initialize (e_sync s) cg in
  mkExecutionEngine config (Some cg) (ee_scheduler ee) (ee_queueConfigs ee)
    (mkEngine (initializeNodeStates deref config (ee_queueConfigs ee) cg sync) sync [] true (es_reset (e_statistics s) (e_now s)) IDLE
       0 false false false (e_sinksAtEos s) (e_endOfStreamReached s) (e_nextFrameId s) (e_nextStreamFrameId s) (e_results s)
       (e_context s) (e_cancelled s) (e_deferQueue s) (e_setUpNodes s) (e_now s) (e_log s) [] (e_traceSink s)).

(** src/src/execution_engine_impl.cpp:335-407 ExecutionEngine::Impl::initialize *)
Definition initialize ee (graph : option Graph) (num_workers : Z) : option (ExecutionEngine * VoidResult) :=
  match graph with
  | None => Some (ee, void_err EC_InvalidArgument "Graph pointer is null" "")
  | Some graph =>
      let ee := set_impl ee (teardownNodes (stopDeferTimer (ee_impl ee))) in
      compiled ← compile deref graph;
      match compiled with
      | RErr e => Some (ee, mkVoid e)
      | ROk cg => Some (install ee cg num_workers, void_ok)
      end
  end.

(** ** Calls that need a graph *)

(** src/src/execution_engine_impl.cpp:409-496 ExecutionEngine::Impl::execute (its guards; then [Engine.execute]) *)
Definition start_execute ee (inputs : PortDataMap) (context : bool) : option (ExecutionEngine * VoidResult) :=
  match ee_compiled ee with
  | Some cg =>
      '(s, r) ← Engine.execute deref (ee_config ee) cg (ee_scheduler ee) onEndOfStream elapsed setup (ee_impl ee) inputs context;
      Some (set_impl ee s, r)
  | None =>
      if decide (e_state (ee_impl ee) = RUNNING) then Some (ee, void_err EC_AlreadyRunning "Engine is already running" "")
      else Some (ee, void_err EC_NotInitialized "Engine not initialized (missing graph or thread pool)" "")
  end.

(** src/src/execution_engine_impl.cpp:724-763 ExecutionEngine::Impl::startStreaming; [None]: the compiled graph is read
    though there is none *)
Definition start_streaming ee (context : bool) : option (ExecutionEngine * VoidResult) :=
  match ee_compiled ee with
  | Some cg =>
      let (s, r) := Engine.startStreaming deref cg (ee_scheduler ee) setup (ee_impl ee) context in Some (set_impl ee s, r)
  | None =>
      if decide (e_state (ee_impl ee) ≠ IDLE)
      then Some (ee, void_err EC_InvalidState "Cannot start streaming - engine is not idle" "")
      else if negb (supportsStreaming (ee_scheduler ee))
      then Some (ee, void_err EC_StreamingNotSupported "Current scheduler strategy does not support streaming mode" "")
      else None
  end.

(** src/src/execution_engine_impl.cpp:812-873 ExecutionEngine::Impl::pushInput (its guards; then [Engine.pushInput]) *)
Definition push_input ee (source_node port_name : string) (data : PortDataPtr) : option (ExecutionEngine * Result PushStatus) :=
  match ee_compiled ee with
  | Some cg =>
      '(s, r) ← Engine.pushInput deref (ee_config ee) cg (ee_scheduler ee) onEndOfStream elapsed (ee_impl ee) source_node port_name data;
      Some (set_impl ee s, r)
  | None =>
      if negb (e_streamingMode (ee_impl ee)) && bool_decide (e_state (ee_impl ee) ≠ RUNNING)
      then Some (ee, result_err EC_NotStreaming "Not in streaming/running mode" "")
      else Some (ee, RErr (error_nodeNotFound source_node))
  end.

(** ** Queries *)

(** src/src/execution_engine_impl.cpp:605-616 ExecutionEngine::Impl::getNodeStates *)
Definition getNodeStates ee : gmap string NodeExecutionState :=
  foldl (λ m nd, <[nd_name nd := nd_exec_state nd]> m) ∅ (e_nodes (ee_impl ee)).

(** src/src/execution_engine_impl.cpp:887-900 ExecutionEngine::Impl::statistics (one node) *)
Definition node_snapshot (nd : NodeState Q) : NodeStatistics :=
  let ns := as_snapshot (nd_stats nd) (nd_name nd) in
  mkNodeStatistics (ns_node_name ns) (ns_execution_count ns) (ns_success_count ns) (ns_failure_count ns)
    (ns_total_processing_us ns) (ns_min_processing_us ns) (ns_max_processing_us ns) (ns_total_input_count ns)
    (ns_total_output_count ns) (foldl (λ d q, wrap64 (d + pq_size q)) 0 (nd_queues nd)).

(** src/src/execution_engine_impl.cpp:883-903 ExecutionEngine::Impl::statistics *)
Definition statistics ee : EngineStatisticsSnapshot :=
  let sn := takeSnapshot (e_statistics (ee_impl ee)) (e_now (ee_impl ee)) in
  mkSnapshot (sn_stats sn) (sn_success_rate sn) (sn_drop_rate sn) (sn_throughput sn) (sn_snapshot_time sn)
    (node_snapshot <$> e_nodes (ee_impl ee)).

(** [stateByName] *)
Definition node_by_name ee (name : string) : option (NodeState Q) :=
  cg ← ee_compiled ee; i ← stateByName cg (ee_impl ee) name; stateByIndex (ee_impl ee) i.

Definition query_port (nd : NodeState Q) (port_name : string) : string :=
  if decide (port_name = "") then getFirstInputPort deref (nd_node nd) else port_name.

(** src/src/execution_engine_impl.cpp:905-917 ExecutionEngine::Impl::queueDepth *)
Definition queueDepth ee (node_name port_name : string) : Z :=
  match node_by_name ee node_name with None => 0 | Some nd => getQueueSize nd (query_port nd port_name) end.

(** src/src/execution_engine_impl.cpp:919-935 ExecutionEngine::Impl::hasQueueCapacity *)
Definition hasQueueCapacity ee (node_name port_name : string) : bool :=
  match node_by_name ee node_name with
  | None => false
  | Some nd =>
      match (k ← port_index (nd_input_ports nd) (query_port nd port_name); nd_queues nd !! k) with
      | Some q => negb (pq_isFull q)
      | None => true
      end
  end.

(** src/src/execution_engine_impl.cpp:937-965 ExecutionEngine::Impl::waitForDrain: the answer when the wait is
    over, by its condition or by the deadline *)
Definition waitForDrain ee (max_depth timeout_ms : Z) : VoidResult :=
  if drain_reached (ee_impl ee) max_depth then void_ok
  else void_err EC_ExecutionTimeout ("waitForDrain timed out after " +:+ pretty timeout_ms +:+ "ms") "".

(** src/src/execution_engine_impl.cpp:804-810 ExecutionEngine::Impl::waitForIdle: the condition *)
Definition idle_reached ee : bool := bool_decide (e_state (ee_impl ee) ≠ RUNNING).

(** src/src/execution_engine_impl.cpp:1020-1027 ExecutionEngine::Impl::strategyInfo *)
Definition strategyInfo ee : string :=
  "{ scheduler: " +:+ match ee_scheduler ee with BatchScheduler => "BatchSchedulerStrategy" | StreamScheduler _ => "StreamSchedulerStrategy" end +:+
  ", sync: " +:+ match e_sync (ee_impl ee) with NoneSync _ => "NoSyncStrategy" | JoinSync _ => "JoinAwareSyncStrategy" end +:+ " }".

(** src/src/execution_engine_impl.cpp:997-1018 ExecutionEngine::Impl::info *)
Definition info ee : string :=
  let s := ee_impl ee in
  let t := e_statistics s in
  let line (indent text : string) := indent +:+ text +:+ String newline "" in
  line "" "ExecutionEngine{" +:+
  line "  mode: " (executionModeToString (ec_mode (ee_config ee))) +:+
  line "  workers: " (pretty (ec_num_workers (ee_config ee))) +:+
  line "  state: " (stateToString (e_state s)) +:+
  line "  streaming: " (if e_streamingMode s then "yes" else "no") +:+
  line "  nodes: " (pretty (Z.of_nat (length (e_nodes s)))) +:+
  line "  strategies: " (strategyInfo ee) +:+
  line "  statistics: " "{" +:+
  line "    executions: " (pretty (es_total_executions t)) +:+
  line "    success_rate: " (print_double (es_successRate t) +:+ "%") +:+
  line "    frames_processed: " (pretty (es_total_output_frames t)) +:+
  line "    frames_dropped: " (pretty (es_total_dropped_frames t)) +:+
  line "    drop_rate: " (print_double (es_dropRate t) +:+ "%") +:+
  line "    throughput: " (print_double (es_throughput t (e_now s)) +:+ " fps") +:+
  line "  " "}" +:+ "}".

(** src/src/execution_engine_impl.cpp:194-213 ExecutionEngine::Impl::~Impl; [shutdown(false)] discards posted tasks *)
Definition destroy ee : ExecutionEngine :=
  set_impl ee (teardownNodes (e_set_scheduledAt (e_set_pool (stopDeferTimer (ee_impl ee)) []) [])).

(** src/src/execution_engine_impl.cpp:551-599 ExecutionEngine::Impl::reset *)
Definition ee_reset ee : ExecutionEngine := set_impl ee (Engine.reset sync_reset (ee_impl ee)).
(** ** Callbacks *)

(** src/src/execution_engine_impl.hpp:550-554 ExecutionEngine::Impl (the callbacks): which of them are set *)
Record EngineCallbacks := mkCallbacks {
  cb_result : bool;
  cb_error : bool;
  cb_drop : bool;
  cb_endOfStream : bool;
}.

Definition no_callbacks : EngineCallbacks := mkCallbacks false false false false.

(** src/src/execution_engine_impl.cpp:620-624 ExecutionEngine::Impl::setPipelineResultCallback *)
Definition setPipelineResultCallback (c : EngineCallbacks) (given : bool) : EngineCallbacks :=
  mkCallbacks given (cb_error c) (cb_drop c) (cb_endOfStream c).

(** src/src/execution_engine_impl.cpp:626-630 ExecutionEngine::Impl::setPipelineErrorCallback *)
Definition setPipelineErrorCallback (c : EngineCallbacks) (given : bool) : EngineCallbacks :=
  mkCallbacks (cb_result c) given (cb_drop c) (cb_endOfStream c).

(** src/src/execution_engine_impl.cpp:632-637 ExecutionEngine::Impl::setDropCallback *)
Definition setDropCallback (c : EngineCallbacks) (given : bool) : EngineCallbacks :=
  mkCallbacks (cb_result c) (cb_error c) given (cb_endOfStream c).

(** src/src/execution_engine_impl.cpp:639-643 ExecutionEngine::Impl::setEndOfStreamCallback *)
Definition setEndOfStreamCallback (c : EngineCallbacks) (given : bool) : EngineCallbacks :=
  mkCallbacks (cb_result c) (cb_error c) (cb_drop c) given.

(** src/src/execution_engine_impl.cpp:645-720 ExecutionEngine::Impl::invokeEndOfStreamCallback, invokeResultCallback,
    invokeErrorCallback and invokeDropCallback: a callback that is set is called, and what it throws is caught, so
    that the engine goes on in the same way *)
Definition invokes (c : EngineCallbacks) (ev : Event) : bool :=
  match ev with
  | EvResult _ => cb_result c
  | EvError _ _ => cb_error c
  | EvDrop _ _ _ => cb_drop c
  | EvEndOfStream => cb_endOfStream c
  | _ => false
  end.
End Shell.

(** ** Initialization prepares batches *)

Section Initialize.
Context `{CppTypes} {Q : Type} `{!PortQueue Q, !PortQueueLaws Q}.
Context (deref : NodePtr → ILogicNode) (iter : gset nat → list nat).
Context (onEndOfStream : list Event → NodePtr → Outcome) (elapsed : list Event → Z).
Context (setup : list Event → NodePtr → VoidResult + option string).
Implicit Types (ee : ExecutionEngine (Q := Q)).

(** What a teardown writes and keeps. *)
Lemma teardown_spec {Sy} (s : Engine Q Sy) :
  e_setUpNodes (teardownNodes s) = [] ∧ e_log (teardownNodes s) = e_log s ++ (EvTeardown <$> rev (e_setUpNodes s)) ∧
  e_nodes (teardownNodes s) = e_nodes s ∧ e_sync (teardownNodes s) = e_sync s ∧ e_state (teardownNodes s) = e_state s.
Proof.
  unfold teardownNodes. split; [done|]. generalize (rev (e_setUpNodes s)). intros l. cbn [e_set_setUpNodes e_log e_nodes e_sync e_state].
  revert s. induction l as [|p l IH]; intros s; simpl; [by rewrite app_nil_r|].
  destruct (IH (observe s (EvTeardown p))) as (-> & -> & -> & ->). simpl. by rewrite <-(assoc_L (++)).
Qed.

(** Nodes that [initializeNodeStates] makes are at rest. *)
Lemma node_states_at_rest cfg qcs cg (sync : AnySync) :
  sy_isEnabled sync = false → (∀ name port, qc_capacity (port_queue_config cfg qcs name port) ≤ 2 ^ 63) →
  length (initializeNodeStates (Q := Q) deref cfg qcs cg sync) = length (cg_nodes cg) ∧
  ∀ j nd, initializeNodeStates (Q := Q) deref cfg qcs cg sync !! j = Some nd → node_at_rest deref cg j nd.
Proof.
  intros Hs Hc. destruct (initialized_at_rest (Q := Q) deref cfg cg qcs sync 0 Hs Hc) as [R1 R2 _ _ _ _ _]. by split.
Qed.

(** The answers of [initialize]. *)
Lemma initialize_answers ee g num_workers r : compile deref g = Some r →
  ∃ ee', initialize deref iter ee (Some g) num_workers = Some (ee', match r with ROk _ => void_ok | RErr e => mkVoid e end) ∧
    e_setUpNodes (ee_impl ee') = [] ∧
    e_log (ee_impl ee') = e_log (ee_impl ee) ++ (EvTeardown <$> rev (e_setUpNodes (ee_impl ee))) ∧
    match r with
    | RErr _ => ee_compiled ee' = ee_compiled ee ∧ ee_config ee' = ee_config ee ∧ e_state (ee_impl ee') = e_state (ee_impl ee) ∧
        length (e_nodes (ee_impl ee')) = length (e_nodes (ee_impl ee))
    | ROk cg => ee_compiled ee' = Some cg ∧ ee_config ee' = with_workers (ee_config ee) num_workers ∧ ee_scheduler ee' = ee_scheduler ee ∧
        e_state (ee_impl ee') = IDLE ∧
        (sy_isEnabled (e_sync (ee_impl ee)) = false →
         (∀ name port, qc_capacity (port_queue_config (ee_config ee') (ee_queueConfigs ee) name port) ≤ 2 ^ 63) →
         at_rest deref cg (ee_impl ee'))
    end.
Proof.
  intros Hc. unfold initialize. rewrite Hc. cbn [mbind option_bind].
  set (s := stopDeferTimer (ee_impl ee)). destruct (teardown_spec s) as (T1 & T2 & T3 & T4 & T5).
  destruct r as [cg|e]; eexists; (split; [done|]).
  - cbn [ee_impl install set_impl e_setUpNodes e_log ee_compiled ee_config ee_scheduler e_state]. split_and!; try done.
    intros Hs Hcap. set (sync := sync_initialize deref iter (e_sync (teardownNodes s)) cg).
    assert (sy_isEnabled sync = false) as Hsync.
    { unfold sync. rewrite T4. change (e_sync s) with (e_sync (ee_impl ee)). by destruct (e_sync (ee_impl ee)). }
    destruct (node_states_at_rest (with_workers (ee_config ee) num_workers) (ee_queueConfigs ee) cg sync Hsync Hcap) as [R1 R2].
    by split.
  - cbn [ee_impl set_impl ee_compiled ee_config]. split_and!; try done. rewrite T3. unfold s, stopDeferTimer. simpl. apply length_fmap.
Qed.

(** An initialized batch engine starts as [batch_started] has it. *)
Lemma initialized_starts ee ee1 ee2 g cg num_workers inputs context :
  rtc (graph_step deref) empty_graph g → Z.of_nat (length (m_nodes g)) < u32_mod → compile deref g = Some (ROk cg) →
  initialize deref iter ee (Some g) num_workers = Some (ee1, void_ok) →
  ee_scheduler ee = BatchScheduler → sy_isEnabled (e_sync (ee_impl ee)) = false →
  (∀ name port, qc_capacity (port_queue_config (ee_config ee1) (ee_queueConfigs ee) name port) ≤ 2 ^ 63) →
  ec_alignment_policy (ee_config ee) = AP_FrameId → inputs_given deref cg inputs →
  start_execute deref onEndOfStream elapsed setup ee1 inputs context = Some (ee2, void_ok) →
  batch_started deref (ee_config ee1) onEndOfStream elapsed setup cg inputs (ee_impl ee1) (ee_impl ee2).
Proof.
  intros Hr Hsmall Hc Hi Hsched Hs Hcap Hal Hin Hex.
  destruct (initialize_answers ee g num_workers _ Hc) as (ee' & Hi' & _ & _ & Hcg & Hcfg & Hsc & _ & Hrest).
  rewrite Hi' in Hi. injection Hi as ->. unfold start_execute in Hex. rewrite Hcg, Hsc, Hsched in Hex.
  destruct (Engine.execute _ _ _ _ _ _ _ _ _ _) as [[s r]|] eqn:He; [|done]. injection Hex as <- ->. split.
  - by exists g.
  - by apply Hrest.
  - rewrite Hcfg. unfold with_workers. by case_decide.
  - done.
  - by exists context.
Qed.

(** An engine can be given a graph at any time, the first or a new one, and then
    computes the dataflow of that graph: whatever ran before, [initialize] answers with
    the error of the compiler, or the nodes set up earlier are torn down in reverse and
    a batch that starts afterwards runs each node of the new graph once, in an order its
    edges allow, reports the results the dataflow of the graph gives to its inputs, and
    leaves the engine at rest.  Coordination is off, and no queue capacity is above
    [2 ^ 63]. *)
Theorem initialized_engine_computes ee g num_workers cg (f : NodePtr → PortDataMap → PortDataMap) :
  rtc (graph_step deref) empty_graph g → Z.of_nat (length (m_nodes g)) < u32_mod → compile deref g = Some (ROk cg) →
  ee_scheduler ee = BatchScheduler → sy_isEnabled (e_sync (ee_impl ee)) = false →
  (∀ name port, qc_capacity (port_queue_config (with_workers (ee_config ee) num_workers) (ee_queueConfigs ee) name port) ≤ 2 ^ 63) →
  ec_alignment_policy (ee_config ee) = AP_FrameId → determined deref cg → outputs_complete cg f →
  ∃ ee1, initialize deref iter ee (Some g) num_workers = Some (ee1, void_ok) ∧
    e_log (ee_impl ee1) = e_log (ee_impl ee) ++ (EvTeardown <$> rev (e_setUpNodes (ee_impl ee))) ∧
    ∀ inputs context ee2 picks, inputs_given deref cg inputs →
      start_execute deref onEndOfStream elapsed setup ee1 inputs context = Some (ee2, void_ok) →
      (length (cg_nodes cg) ≤ length picks)%nat →
      let fed := stamp_sources deref (ee_config ee1) cg (resetInternalState (ee_impl ee1)) inputs in
      ∃ order s' results, workers (ee_config ee1) cg onEndOfStream elapsed f (ee_impl ee2) picks = Some s' ∧
        order ≡ₚ seq 0 (length (cg_nodes cg)) ∧ ordered cg order ∧
        e_log s' = e_log (ee_impl ee2) ++ (process_event deref cg f fed <$> order) ++ [EvResult results] ∧
        pm_equiv results (dataflow_results deref cg f fed) ∧
        completion_reached s' = true ∧ (completion_outcome s').2 = void_ok ∧ at_rest deref cg (completion_outcome s').1.
Proof.
  intros Hr Hsmall Hc Hsched Hs Hcap Hal D Hfull.
  destruct (initialize_answers ee g num_workers _ Hc) as (ee1 & Hi & _ & Hlog & _ & Hcfg & _).
  exists ee1. split_and!; [exact Hi|exact Hlog|]. intros inputs context ee2 picks Hin Hex Hn fed.
  rewrite <-Hcfg in Hcap.
  pose proof (initialized_starts ee ee1 ee2 g cg num_workers inputs context Hr Hsmall Hc Hi Hsched Hs Hcap Hal Hin Hex) as Hst.
  destruct (batch_runs _ _ f _ _ _ cg inputs _ _ picks Hst D Hfull) as (order & s' & Hw & Hnd & Hsub & Hord & Hlen & Hend).
  rewrite decide_True in Hend by done. destruct Hend as (results & Hl & Hres & _ & Hdone & Hok & Hrest).
  exists order, s', results. split_and!; try done.
  apply submseteq_length_Permutation; [by apply NoDup_submseteq|]. rewrite length_seq. lia.
Qed.
End Initialize.

(** ** An engine given two graphs *)

Section Example.
#[local] Existing Instance unit_types.
Notation PQ := (NodeQueue (BoundedList PortDataPtr) PortDataPtr).
Notation EE := (ExecutionEngine (Q := PQ)).
Definition sx_iter (_ : gset nat) : list nat := [].

(** A graph of one node, run once. *)
Definition sx_first_graph : Graph := (addNode bx_node empty_graph (Some 0%nat)).1.
Definition sx_initialized (ee : EE) (g : Graph) : EE :=
  match initialize bx_node sx_iter ee (Some g) 2 with Some (ee, _) => ee | None => ee end.
Definition sx_executed (ee : EE) : EE :=
  match start_execute bx_node bx_flush bx_elapsed bx_setup ee bx_inputs false with Some (ee, _) => ee | None => ee end.
Definition sx_worked (ee : EE) (cg : CompiledGraph) (picks : list nat) : EE :=
  match workers bx_cfg cg bx_flush bx_elapsed bx_f (ee_impl ee) picks with
  | Some s => set_impl ee (completion_outcome s).1 | None => ee end.
Definition sx_first : EE :=
  let ee := sx_executed (sx_initialized (create (config_batch 2) 0) sx_first_graph) in
  match ee_compiled ee with Some cg => sx_worked ee cg [0%nat] | None => ee end.
Definition sx_second : EE := sx_executed (sx_initialized sx_first bx_graph).

Lemma initialized_engine_computes_witness :
  ∃ results s', initialize bx_node sx_iter sx_first (Some bx_graph) 2 = Some (sx_initialized sx_first bx_graph, void_ok) ∧
    workers bx_cfg bx_cg bx_flush bx_elapsed bx_f (ee_impl sx_second) [0; 1; 0; 0]%nat = Some s' ∧
    last (e_log s') = Some (EvResult results) ∧ pm_find results "n3:out" = Some (Some (mkPacket 1 0 7 [])).
Proof.
  destruct (initialized_engine_computes bx_node sx_iter bx_flush bx_elapsed bx_setup sx_first bx_graph 2 bx_cg bx_f
    bx_reachable) as (ee1 & Hi & _ & Hrun);
    [vm_compute; reflexivity|vm_compute; reflexivity|vm_compute; reflexivity|vm_compute; reflexivity| |vm_compute; reflexivity
    |exact bx_determined|exact bx_complete|].
  { intros name port. change (ee_queueConfigs sx_first) with (∅ : gmap string QueueConfig).
    unfold port_queue_config, getNodeQueueConfig. rewrite lookup_empty. vm_compute. discriminate. }
  assert (sx_initialized sx_first bx_graph = ee1) as <- by (unfold sx_initialized at 1; by rewrite Hi).
  destruct (Hrun bx_inputs false sx_second [0; 1; 0; 0]%nat) as (order & s' & results & Hw & _ & _ & Hlog & Hres & _);
    [apply (bool_decide_unpack _); vm_compute; exact I|vm_compute; reflexivity|vm_compute; lia|].
  exists results, s'. split; [exact Hi|]. split; [exact Hw|]. split; [rewrite Hlog, !last_app; reflexivity|].
  rewrite (Hres "n3:out"). vm_compute. reflexivity.
Defined.

(** Streaming cannot be started before a graph is there, but no guard says so: the
    sources of the missing graph are read. *)
Lemma streaming_needs_a_graph : ∀ config now context, ec_mode config = STREAM →
  start_streaming (Q := PQ) bx_node bx_setup (create config now) context = None.
Proof. intros [] now context. simpl. intros ->. reflexivity. Qed.

(** A graph given to an engine whose stream has ended leaves the end of the stream
    reached: a wait for the end of the next stream would be over before it starts. *)
Lemma initialize_keeps_end_of_stream (ee ee' : EE) g num_workers r :
  initialize bx_node sx_iter ee (Some g) num_workers = Some (ee', r) →
  e_endOfStreamReached (ee_impl ee') = e_endOfStreamReached (ee_impl ee).
Proof.
  assert (∀ s : Engine PQ AnySync, e_endOfStreamReached (teardownNodes s) = e_endOfStreamReached s) as Ht.
  { intros s. unfold teardownNodes. simpl. generalize (rev (e_setUpNodes s)). intros l. revert s.
    induction l as [|p l IH]; intros s; [done|]. apply (IH (observe s (EvTeardown p))). }
  intros Hi. unfold initialize in Hi. destruct (compile bx_node g) as [[cg|e]|]; [| |done]; injection Hi as <- _; apply (Ht (stopDeferTimer _)).
Qed.
End Example.
