(* ===== verification/StreamInv.v ===== *)
(** * A stream keeps going

    The invariant behind the end of a stream.  [sview] is what it needs of the
    engine's state: for each node its state, latches, queue lengths and whether it is
    flushed or deferred.  [stream_inv] says that nothing that should happen is
    forgotten: a waiting node has not drained, and with a single port it has nothing to
    process unless a retry is due; a flushed node has closed the ports it feeds; the
    sinks are counted.  It also bounds the work that is left: a packet at a node weighs
    more than all the packets its processing can put out, and so does a flush that is
    still to come.

    The engine is streaming with the scheduler [configureForMode] makes, and is neither
    stopped nor cancelled. *)

From S2P Require Import Prelude Errors Packets Kahn Graphs CompiledGraphs MpmcQueue NodeQueue FrameAlignment.
From S2P Require Import SyncCoordinator JoinAwareSync ExecutionTypes Schedulers EngineCore EngineGather Dataflow Engine.
Local Open Scope list_scope.
Local Open Scope nat_scope.

(** ** The view *)

Record SNode := mkSNode {
  sn_ports : nat; sn_state : NodeExecutionState; sn_propagated : bool; sn_mask : Z; sn_sizes : list nat; sn_deferred : bool }.

Record SView := mkSView {
  sv_nodes : list SNode; sv_live : bool; sv_sinks : Z; sv_eos : bool; sv_defer : list nat }.

Definition sn_latched (n : SNode) (k : nat) : bool :=
  if decide (k_max_eos_ports ≤ k) then false else Z.testbit (sn_mask n) (Z.of_nat k).

Definition sn_drained (n : SNode) : bool :=
  negb (bool_decide (sn_ports n = 0)) &&
  forallb (λ k, sn_latched n k && bool_decide (default 0 (sn_sizes n !! k) = 0)) (seq 0 (sn_ports n)).

(** Nothing is to be done for the node. *)
Definition settled (n : SNode) : Prop :=
  match sn_state n with
  | WAITING => sn_drained n = false ∧ (sn_ports n = 1 → sn_deferred n = false → sn_sizes n = [0])
  | READY => sn_ports n = 1 → sn_sizes n ≠ [0]
  | EXECUTING => True
  | COMPLETED => sn_propagated n = true
  | FAILED => False
  end.

(** ** Work left *)

Section Work.
Context (weight : nat → nat).

Definition cost (j : nat) (n : SNode) : nat :=
  sum_list (sn_sizes n) * weight j + if sn_propagated n then 0 else weight j.

Fixpoint work_from (j : nat) (ns : list SNode) : nat :=
  match ns with [] => 0 | n :: ns => cost j n + work_from (S j) ns end.

Definition work (ns : list SNode) : nat := work_from 0 ns.

Lemma work_insert ns i n n' : ns !! i = Some n → work (<[i := n']> ns) + cost i n = work ns + cost i n'.
Proof.
  enough (∀ j, ns !! i = Some n → work_from j (<[i := n']> ns) + cost (j + i) n = work_from j ns + cost (j + i) n') as Hall
    by exact (Hall 0).
  revert i. induction ns as [|m ns IH]; intros [|i] j Hi; [done|done| |]; simpl in Hi |- *.
  - injection Hi as ->. rewrite Nat.add_0_r. lia.
  - specialize (IH i (S j) Hi). rewrite <-Nat.add_succ_comm. lia.
Qed.
End Work.

Section Stream.
Context `{CppTypes} {Q Sy : Type} `{!PortQueue Q, !PortQueueLaws Q, !SyncStrategy Sy}.
Notation Engine := (Engine Q Sy).
Notation NodeState := (NodeState Q).
Implicit Types (s : Engine) (nd : NodeState).

Definition view_node nd : SNode :=
  mkSNode (length (nd_input_ports nd)) (nd_exec_state nd) (nd_eos_propagated nd) (nd_eos_mask nd)
    ((λ q, length (pq_items q)) <$> nd_queues nd) (nd_defer_pending nd).

Definition live s : bool :=
  e_streamingMode s && negb (e_stopFlag s) && negb (e_context s && e_cancelled s) && e_accepting s.

Definition sview s : SView :=
  mkSView (view_node <$> e_nodes s) (live s) (e_sinksAtEos s) (e_endOfStreamReached s) (snd <$> e_deferQueue s).

Definition queues_ok s : Prop := Forall (λ nd, Forall pq_ok (nd_queues nd)) (e_nodes s).

Lemma drained_view nd : allInputPortsDrained nd = sn_drained (view_node nd).
Proof.
  unfold allInputPortsDrained, sn_drained. f_equal.
  - f_equal. apply bool_decide_ext. simpl. by destruct (nd_input_ports nd).
  - simpl. induction (seq _ _) as [|k l IH]; [done|]. simpl. rewrite IH. f_equal. unfold portDrained. f_equal.
    rewrite list_lookup_fmap. destruct (nd_queues nd !! k) as [q|]; simpl; [|done].
    apply bool_decide_ext. rewrite pq_size_spec. lia.
Qed.

Lemma lookup_view s i nd : stateByIndex s i = Some nd → sv_nodes (sview s) !! i = Some (view_node nd).
Proof. unfold stateByIndex. intros Hi. simpl. by rewrite list_lookup_fmap, Hi. Qed.

Lemma view_lookup s i n : sv_nodes (sview s) !! i = Some n → ∃ nd, stateByIndex s i = Some nd ∧ n = view_node nd.
Proof. simpl. rewrite list_lookup_fmap. intros (nd & Hnd & ->)%fmap_Some. by exists nd. Qed.

(** Nothing the invariant speaks of has changed. *)
Definition quiet s s' : Prop := sview s' = sview s ∧ (queues_ok s → queues_ok s').

#[global] Instance quiet_preorder : PreOrder quiet.
Proof. split; [by intros s|]. intros s1 s2 s3 [H1 Q1] [H2 Q2]. split; [by rewrite H2|auto]. Qed.

Lemma quiet_nodes s s' :
  e_nodes s' = e_nodes s → live s' = live s → e_sinksAtEos s' = e_sinksAtEos s →
  e_endOfStreamReached s' = e_endOfStreamReached s → e_deferQueue s' = e_deferQueue s → quiet s s'.
Proof. intros Hn Hl Hs He Hd. unfold quiet, sview, queues_ok. by rewrite Hn, Hl, Hs, He, Hd. Qed.

Lemma quiet_bump s f : quiet s (bump s f).
Proof. by apply quiet_nodes. Qed.
Lemma quiet_observe s ev : quiet s (observe s ev).
Proof. by apply quiet_nodes. Qed.
Lemma quiet_sync s x : quiet s (e_set_sync s x).
Proof. by apply quiet_nodes. Qed.

Lemma quiet_upd s i f :
  (∀ nd, view_node (f nd) = view_node nd ∧ nd_queues (f nd) = nd_queues nd) → quiet s (upd_node s i f).
Proof.
  intros Hf. unfold quiet, sview, queues_ok, upd_node; simpl. split.
  - f_equal. apply list_eq. intros j. rewrite !list_lookup_fmap, list_lookup_alter. case_decide; [|done]. subst.
    destruct (e_nodes s !! j) as [nd|]; [|done]. simpl. by rewrite (proj1 (Hf nd)).
  - intros Hq. apply Forall_alter; [done|]. intros nd _ Hnd. by rewrite (proj2 (Hf nd)).
Qed.

Lemma foldl_quiet {A} (f : Engine → A → Engine) l s : (∀ s a, quiet s (f s a)) → quiet s (foldl f s l).
Proof. intros Hf. revert s. induction l as [|a l IH]; intros s; simpl; [done|]. etrans; [apply Hf|apply IH]. Qed.

Lemma queueDropped_quiet name s ev : quiet s (queueDropped name s ev).
Proof. unfold queueDropped. etrans; [|case_match; [apply quiet_sync|reflexivity]]. by apply quiet_nodes. Qed.

Lemma queue_at s i nd k q : queues_ok s → stateByIndex s i = Some nd → nd_queues nd !! k = Some q → pq_ok q.
Proof. intros Hq Hi Hk. pose proof (Forall_lookup_1 _ _ _ _ Hq Hi) as Hn. exact (Forall_lookup_1 _ _ _ _ Hn Hk). Qed.
End Stream.

(** ** The invariant *)

(** What is under way: flushes, each with the edges still to be closed; the node a task
    owns; the node whose schedule is to be looked at next. *)
Record Progress := mkProgress { pr_flushing : list (nat * list OutEdge); pr_task : option nat; pr_due : option nat }.

Definition idle : Progress := mkProgress [] None None.
Definition settle (pr : Progress) : Progress := mkProgress (pr_flushing pr) (pr_task pr) None.
Definition due (pr : Progress) (i : nat) : Progress := mkProgress (pr_flushing pr) (pr_task pr) (Some i).

Section Invariant.
Context `{CppTypes} {Q Sy : Type} `{!PortQueue Q, !PortQueueLaws Q, !SyncStrategy Sy}.
Context (deref : NodePtr → ILogicNode) (cfg : EngineConfig) (cg : CompiledGraph) (weight : nat → nat).
(** Ports known to be closed. *)
Context (known : list (nat * nat)).
Notation Engine := (Engine Q Sy).
Notation NodeState := (NodeState Q).
Notation N := (length (cg_nodes cg)).
Implicit Types (s : Engine) (nd : NodeState) (pr : Progress) (ns : list SNode).

Definition sinks : list nat := filter (λ i, isSink cg i = true) (seq 0 N).

Definition flushed ns (j : nat) : bool := match ns !! j with Some n => sn_propagated n | None => false end.

Definition sinks_done pr ns : nat :=
  length (filter (λ j, flushed ns j = true ∧ j ∉ (pr_flushing pr).*1) sinks).

Definition closed ns (e : OutEdge) (k : nat) : Prop := ∃ d, ns !! oe_dest_node e = Some d ∧ sn_latched d k = true.

Record nodes_inv pr (defer : list nat) ns : Prop := {
  ni_length : length ns = N;
  ni_shape j n : ns !! j = Some n → sn_ports n = length (node_ports deref cg j) ∧ length (sn_sizes n) = sn_ports n;
  ni_settled j n : ns !! j = Some n → pr_due pr = Some j ∧ sn_state n = WAITING ∨ settled n;
  ni_prop j n : ns !! j = Some n → sn_propagated n = true → sn_state n = COMPLETED ∨ sn_state n = EXECUTING;
  ni_task j : pr_task pr = Some j → ∃ n, ns !! j = Some n ∧ sn_state n = EXECUTING ∧ sn_propagated n = false;
  ni_defer j n : ns !! j = Some n → sn_deferred n = true → (0 < ec_min_execution_interval_ms cfg)%Z ∧ j ∈ defer;
  ni_flushing j : j ∈ (pr_flushing pr).*1 → flushed ns j = true;
  ni_closed j e k : flushed ns j = true → e ∈ outEdges cg j → oe_dest_port_index e = Some k → k < k_max_eos_ports →
    (∃ es, (j, es) ∈ pr_flushing pr ∧ e ∈ es) ∨ closed ns e k;
  ni_known j k : (j, k) ∈ known → ∃ n, ns !! j = Some n ∧ sn_latched n k = true;
}.

Record stream_inv pr (w : nat) s : Prop := {
  si_live : live s = true;
  si_queues : queues_ok s;
  si_nodes : nodes_inv pr (snd <$> e_deferQueue s) (sv_nodes (sview s));
  si_sinks : e_sinksAtEos s = Z.of_nat (sinks_done pr (sv_nodes (sview s)));
  si_eos : e_sinksAtEos s = Z.of_nat (length sinks) → sinks ≠ [] → e_endOfStreamReached s = true;
  si_work : work weight (sv_nodes (sview s)) ≤ w;
}.

Lemma quiet_inv pr w s s' : quiet s s' → stream_inv pr w s → stream_inv pr w s'.
Proof.
  intros [Hv Hq] [I1 I2 I3 I4 I5 I6].
  assert (live s' = live s ∧ e_sinksAtEos s' = e_sinksAtEos s ∧ e_endOfStreamReached s' = e_endOfStreamReached s ∧
    snd <$> e_deferQueue s' = snd <$> e_deferQueue s) as (Hl & Hs & He & Hd).
  { pose proof (f_equal sv_live Hv). pose proof (f_equal sv_sinks Hv). pose proof (f_equal sv_eos Hv).
    by pose proof (f_equal sv_defer Hv). }
  split; rewrite ?Hv, ?Hl, ?Hs, ?He, ?Hd; auto.
Qed.

Lemma inv_weaken pr w w' s : w ≤ w' → stream_inv pr w s → stream_inv pr w' s.
Proof. intros Hw [I1 I2 I3 I4 I5 I6]. split; try done. lia. Qed.

(** A node changes; its end of stream does not. *)
Record node_change pr (defer : list nat) (task' due' : option nat) (i : nat) (n n' : SNode) : Prop := {
  nc_ports : sn_ports n' = sn_ports n;
  nc_sizes : length (sn_sizes n') = length (sn_sizes n);
  nc_prop : sn_propagated n' = sn_propagated n;
  nc_latched k : sn_latched n k = true → sn_latched n' k = true;
  nc_settled : due' = Some i ∧ sn_state n' = WAITING ∨ settled n';
  nc_state : sn_propagated n' = true → sn_state n' = COMPLETED ∨ sn_state n' = EXECUTING;
  nc_task : task' = Some i → sn_state n' = EXECUTING ∧ sn_propagated n' = false;
  nc_others j : j ≠ i → (pr_due pr = Some j → due' = Some j) ∧ (task' = Some j → pr_task pr = Some j);
  nc_defer : sn_deferred n' = true → (0 < ec_min_execution_interval_ms cfg)%Z ∧ i ∈ defer;
}.

Lemma flushed_insert ns i n n' j : ns !! i = Some n → flushed (<[i := n']> ns) j =
  if decide (i = j) then sn_propagated n' else flushed ns j.
Proof.
  intros Hi. unfold flushed. case_decide as Hj.
  - subst. rewrite list_lookup_insert_eq by (by eapply lookup_lt_Some). done.
  - by rewrite list_lookup_insert_ne.
Qed.

Lemma closed_insert ns i n n' e k : ns !! i = Some n → (∀ k, sn_latched n k = true → sn_latched n' k = true) →
  closed ns e k → closed (<[i := n']> ns) e k.
Proof.
  intros Hi Hl (d & Hd & Hk). unfold closed. destruct (decide (oe_dest_node e = i)) as [Heq|Hne].
  - rewrite Heq, list_lookup_insert_eq by (by eapply lookup_lt_Some). exists n'. split; [done|]. apply Hl. congruence.
  - rewrite list_lookup_insert_ne by done. by exists d.
Qed.

Lemma nodes_change pr defer task' due' i n n' ns :
  nodes_inv pr defer ns → ns !! i = Some n → node_change pr defer task' due' i n n' →
  nodes_inv (mkProgress (pr_flushing pr) task' due') defer (<[i := n']> ns).
Proof.
  intros [I1 I2 I3 I4 I5 I6 I7 I8 I9] Hi [C1 C2 C3 C4 C5 C6 C7 C8 C9].
  assert (i < length ns) as Hlt by (by eapply lookup_lt_Some).
  assert (∀ j, flushed (<[i := n']> ns) j = flushed ns j) as Hf.
  { intros j. rewrite (flushed_insert ns i n n' j Hi). case_decide; [|done]. subst. unfold flushed. by rewrite Hi, C3. }
  assert (∀ j m, <[i := n']> ns !! j = Some m → j = i ∧ m = n' ∨ j ≠ i ∧ ns !! j = Some m) as Hcase.
  { intros j m. destruct (decide (j = i)) as [->|Hne].
    - rewrite list_lookup_insert_eq by done. intros [= <-]. by left.
    - rewrite list_lookup_insert_ne by done. intros Hm. by right. }
  split; cbn [pr_flushing pr_task pr_due].
  - by rewrite length_insert.
  - intros j m [[-> ->]|[Hne Hm]]%Hcase; [|by apply I2]. destruct (I2 i n Hi). split; congruence.
  - intros j m [[-> ->]|[Hne Hm]]%Hcase; [done|]. destruct (I3 j m Hm) as [[Hd Hw]|Hs]; [|by right].
    left. split; [|done]. by apply (proj1 (C8 j Hne)).
  - intros j m [[-> ->]|[Hne Hm]]%Hcase; [done|by eapply I4].
  - intros j Ht. destruct (decide (j = i)) as [->|Hne].
    + exists n'. rewrite list_lookup_insert_eq by done. split; [done|]. by apply C7.
    + rewrite list_lookup_insert_ne by done. apply I5. by apply (proj2 (C8 j Hne)).
  - intros j m [[-> ->]|[Hne Hm]]%Hcase; [done|by eapply I6].
  - intros j Hj. rewrite Hf. by apply I7.
  - intros j e k. rewrite Hf. intros Hj He Hk Hmax. destruct (I8 j e k Hj He Hk Hmax) as [Hp|Hc]; [by left|right].
    by eapply closed_insert.
  - intros j k (m & Hm & Hl)%I9. destruct (decide (j = i)) as [->|Hne].
    + exists n'. rewrite list_lookup_insert_eq by done. split; [done|]. apply C4. congruence.
    + exists m. by rewrite list_lookup_insert_ne.
Qed.

Lemma sview_upd s i nd f : stateByIndex s i = Some nd →
  sv_nodes (sview (upd_node s i f)) = <[i := view_node (f nd)]> (sv_nodes (sview s)).
Proof.
  intros Hi. simpl. unfold stateByIndex in Hi. apply list_eq. intros j. rewrite list_lookup_fmap, list_lookup_alter.
  case_decide as Hj.
  - subst. rewrite Hi, list_lookup_insert_eq; [done|]. rewrite length_fmap. by eapply lookup_lt_Some.
  - rewrite list_lookup_insert_ne by done. by rewrite list_lookup_fmap.
Qed.

Lemma inv_change pr w s i nd f task' due' w' :
  stream_inv pr w s → stateByIndex s i = Some nd →
  node_change pr (snd <$> e_deferQueue s) task' due' i (view_node nd) (view_node (f nd)) →
  (Forall pq_ok (nd_queues nd) → Forall pq_ok (nd_queues (f nd))) →
  w + cost weight i (view_node (f nd)) ≤ w' + cost weight i (view_node nd) →
  stream_inv (mkProgress (pr_flushing pr) task' due') w' (upd_node s i f).
Proof.
  intros [I1 I2 I3 I4 I5 I6] Hi C Hq Hw. pose proof (lookup_view s i nd Hi) as Hv. split.
  - done.
  - unfold queues_ok in *. simpl. apply Forall_alter; [done|]. unfold stateByIndex in Hi. intros nd' Hnd'. rewrite Hi in Hnd'. by injection Hnd' as <-.
  - rewrite (sview_upd s i nd f Hi). by eapply nodes_change.
  - rewrite (sview_upd s i nd f Hi). change (e_sinksAtEos (upd_node s i f)) with (e_sinksAtEos s). rewrite I4. f_equal.
    unfold sinks_done. f_equal. apply list_filter_iff. intros j. cbn [pr_flushing].
    rewrite (flushed_insert _ i _ _ j Hv). case_decide; [|done]. subst. unfold flushed. rewrite Hv.
    by rewrite (nc_prop _ _ _ _ _ _ _ C).
  - done.
  - rewrite (sview_upd s i nd f Hi). pose proof (work_insert weight _ i _ (view_node (f nd)) Hv) as Hwk. lia.
Qed.

(** Only node [i] may be due. *)
Definition only_due pr (i : nat) : Prop := ∀ j, pr_due pr = Some j → j = i.

Lemma only_due_none pr i : pr_due pr = None → only_due pr i.
Proof. intros Hd j. by rewrite Hd. Qed.

Lemma only_due_due pr i : only_due (due pr i) i.
Proof. intros j. simpl. by intros [= ->]. Qed.
#[local] Hint Resolve only_due_none only_due_due : core.

Lemma inv_node pr w s i : stream_inv pr w s → i < N → ∃ nd, stateByIndex s i = Some nd.
Proof.
  intros I Hi. apply lookup_lt_is_Some. pose proof (ni_length _ _ _ (si_nodes _ _ _ I)) as Hl. simpl in Hl.
  rewrite length_fmap in Hl. lia.
Qed.

Lemma inv_range pr w s i nd : stream_inv pr w s → stateByIndex s i = Some nd → i < N.
Proof.
  intros I Hi%lookup_lt_Some. pose proof (ni_length _ _ _ (si_nodes _ _ _ I)) as Hl. simpl in Hl. rewrite length_fmap in Hl. lia.
Qed.

(** The invariant of one node. *)
Lemma inv_at pr w s i nd : stream_inv pr w s → stateByIndex s i = Some nd →
  let n := view_node nd in
  (sn_ports n = length (node_ports deref cg i) ∧ length (sn_sizes n) = sn_ports n) ∧
  (pr_due pr = Some i ∧ nd_exec_state nd = WAITING ∨ settled n) ∧
  (nd_eos_propagated nd = true → nd_exec_state nd = COMPLETED ∨ nd_exec_state nd = EXECUTING) ∧
  (pr_task pr = Some i → nd_exec_state nd = EXECUTING ∧ nd_eos_propagated nd = false) ∧
  (nd_defer_pending nd = true → (0 < ec_min_execution_interval_ms cfg)%Z ∧ i ∈ (e_deferQueue s).*2) ∧
  (i ∈ (pr_flushing pr).*1 → nd_eos_propagated nd = true).
Proof.
  intros [_ _ [I1 I2 I3 I4 I5 I6 I7 I8 I9] _ _ _] Hi. apply lookup_view in Hi. split_and!; [by apply (I2 _ _ Hi)|by apply (I2 _ _ Hi)|exact (I3 _ _ Hi)|exact (I4 _ _ Hi)| |exact (I6 _ _ Hi)|].
  - intros (n & Hn & ? & ?)%I5. rewrite Hi in Hn. by injection Hn as <-.
  - intros Hf%I7. unfold flushed in Hf. by rewrite Hi in Hf.
Qed.

Lemma inv_set_exec pr w s i nd x task' due' :
  stream_inv pr w s → stateByIndex s i = Some nd → let n' := view_node (nd_set_exec_state nd x) in
  due' = Some i ∧ x = WAITING ∨ settled n' →
  (nd_eos_propagated nd = true → x = COMPLETED ∨ x = EXECUTING) →
  (task' = Some i → x = EXECUTING ∧ nd_eos_propagated nd = false) →
  (∀ j, j ≠ i → (pr_due pr = Some j → due' = Some j) ∧ (task' = Some j → pr_task pr = Some j)) →
  stream_inv (mkProgress (pr_flushing pr) task' due') w (set_exec s i x).
Proof.
  intros I Hi n' Hs Hp Ht Ho. destruct (inv_at pr w s i nd I Hi) as (Hsh & _ & _ & _ & Hd & _).
  eapply inv_change; [exact I|exact Hi| |done|done]. split; try done.
Qed.

Lemma sum_insert (l : list nat) k m m' : l !! k = Some m → sum_list (<[k := m']> l) + m = sum_list l + m'.
Proof.
  revert k. induction l as [|x l IH]; intros [|k] Hk; [done|done| |]; simpl in Hk |- *.
  - injection Hk as ->. lia.
  - specialize (IH k Hk). lia.
Qed.

(** The queue of a port changes. *)
Lemma inv_upd_queue pr w s i nd k q q' due' w' :
  stream_inv pr w s → stateByIndex s i = Some nd → nd_queues nd !! k = Some q → only_due pr i → (pq_ok q → pq_ok q') →
  let n := view_node nd in
  let n' := mkSNode (sn_ports n) (sn_state n) (sn_propagated n) (sn_mask n) (<[k := length (pq_items q')]> (sn_sizes n)) (sn_deferred n) in
  due' = Some i ∧ nd_exec_state nd = WAITING ∨ settled n' →
  w + length (pq_items q') * weight i ≤ w' + length (pq_items q) * weight i →
  stream_inv (mkProgress (pr_flushing pr) (pr_task pr) due') w' (upd_queue s i k q').
Proof.
  intros I Hi Hk Hd Hq n n' Hs Hw. destruct (inv_at pr w s i nd I Hi) as (Hsh & _ & Hp & Ht & Hdf & _).
  assert (view_node (nd_set_queues nd (<[k := q']> (nd_queues nd))) = n') as Hn'.
  { unfold n', n, view_node. simpl. f_equal. apply (list_fmap_insert (λ q, length (pq_items q))). }
  eapply inv_change; [exact I|exact Hi|rewrite Hn'|..].
  - split; try done; [by simpl; rewrite length_insert|]. intros j Hne. split; [|done]. by intros ->%Hd.
  - intros Hok. simpl. apply Forall_insert; [done|]. apply Hq. by eapply Forall_lookup_1.
  - rewrite Hn'. unfold cost. simpl.
    assert (sn_sizes n !! k = Some (length (pq_items q))) as Hl by (simpl; by rewrite list_lookup_fmap, Hk).
    pose proof (sum_insert _ _ _ (length (pq_items q')) Hl) as Hsum. simpl in Hsum. nia.
Qed.

Lemma single_size n k m : sn_ports n = 1 → length (sn_sizes n) = sn_ports n → sn_sizes n !! k = Some m → k = 0 ∧ sn_sizes n = [m].
Proof. intros -> Hl Hk. destruct (sn_sizes n) as [|x [|]]; try done. by destruct k; [injection Hk as ->|]. Qed.

Lemma inv_push pr w s i k x s' ok :
  stream_inv pr w s → pr_due pr = None → queue_push s i k x = (s', ok) →
  stream_inv (if ok then due pr i else pr) (w + weight i) s'.
Proof.
  intros I Hd. unfold queue_push.
  assert (stream_inv pr (w + weight i) s) as I' by (eapply inv_weaken; [|exact I]; lia).
  destruct (stateByIndex s i) as [nd|] eqn:Hi; [|by intros [= <- <-]].
  destruct (nd_queues nd !! k) as [q|] eqn:Hk; [|by intros [= <- <-]].
  destruct (pq_push q x) as [[q' ok'] evs] eqn:Hp. intros [= <- <-].
  eapply quiet_inv; [apply foldl_quiet; intros; apply queueDropped_quiet|].
  pose proof (queue_at s i nd k q (si_queues _ _ _ I) Hi Hk) as Hqok. destruct (pq_push_spec _ _ _ _ _ Hqok Hp) as [Hok' Hits].
  destruct (inv_at pr w s i nd I Hi) as ([Hsh1 Hsh2] & [[Hd' _]|Hset] & _); [congruence|].
  assert (sn_sizes (view_node nd) !! k = Some (length (pq_items q))) as Hl by (simpl; by rewrite list_lookup_fmap, Hk).
  destruct ok'.
  - destruct Hits as [m Hits]. assert (length (pq_items q') = S (length (pq_items q) - m)) as Hlen.
    { rewrite Hits, length_app, length_drop. simpl. lia. }
    eapply inv_upd_queue; [exact I|exact Hi|exact Hk|auto|done| |rewrite Hlen; nia].
    destruct (nd_exec_state nd) eqn:Hst; [by left|right..]; unfold settled in *; simpl in *; rewrite Hst in *; try done.
    intros H1 Heq. destruct (single_size (view_node nd) k _ H1 Hsh2 Hl) as [-> Hsz]. simpl in Hsz. rewrite Hsz in Heq. simpl in Heq.
    injection Heq as Heq. lia.
  - destruct pr as [F t d]. simpl in Hd. subst d. eapply (inv_upd_queue (mkProgress F t None) _ _ _ _ _ _ _ None); [exact I|exact Hi|exact Hk|by apply only_due_none|done| |rewrite Hits; lia].
    right. rewrite Hits, list_insert_id by done. exact Hset.
Qed.

(** ** Scheduling *)

Notation sched := (scheduler_for cfg STREAM).

Lemma live_parts s : live s = true →
  e_streamingMode s = true ∧ e_stopFlag s = false ∧ e_context s && e_cancelled s = false ∧ e_accepting s = true.
Proof. unfold live. by destruct (e_streamingMode s), (e_stopFlag s), (e_context s && e_cancelled s), (e_accepting s). Qed.

Lemma defers_by_rate now c :
  sr_decision (shouldSchedule now sched c) = DeferToNextCycle → (0 < ec_min_execution_interval_ms cfg)%Z.
Proof.
  simpl. unfold stream_shouldSchedule. simpl. destruct (bool_decide_reflect (0 < ec_min_execution_interval_ms cfg)%Z) as [|Hi]; [done|].
  simpl. unfold stream_byInputs. by repeat case_match.
Qed.

(** A node with one open port is scheduled when a packet is there. *)
Lemma single_schedule nd i q now :
  length (nd_input_ports nd) = 1 → nd_queues nd = [q] → allInputPortsDrained nd = false →
  let d := sr_decision (shouldSchedule now sched (scheduling_context cg nd i)) in
  if decide (pq_items q = []) then d = WaitForInputs else d = ScheduleNow ∨ d = DeferToNextCycle.
Proof.
  intros H1 Hq Hdr d. unfold allInputPortsDrained in Hdr.
  rewrite bool_decide_eq_false_2 in Hdr by (by destruct (nd_input_ports nd)). rewrite H1 in Hdr. simpl in Hdr. rewrite andb_true_r in Hdr.
  assert (filter (λ k, portDrained nd k = false) (seq 0 (length (nd_queues nd))) = [0]) as Hopen.
  { rewrite Hq. simpl. rewrite filter_cons, decide_True by done. done. }
  assert (filter (λ k, match [q] !! k with Some q => bool_decide (pq_size q ≠ 0%Z) | None => false end = true) [0] =
    if decide (pq_items q = []) then [] else [0]) as Hready.
  { rewrite filter_cons, filter_nil. simpl. pose proof (pq_size_spec q) as Hsz. destruct (decide (pq_items q = [])) as [He|He].
    - rewrite He in Hsz. rewrite decide_False; [done|]. intros Hb%bool_decide_eq_true. by rewrite Hsz in Hb.
    - rewrite decide_True; [done|]. rewrite bool_decide_eq_true, Hsz. destruct (pq_items q); simpl; [done|lia]. }
  unfold d, scheduling_context. rewrite Hopen, Hq, Hready. destruct (decide (pq_items q = [])) as [He|He].
  - simpl. unfold stream_shouldSchedule, hasReadyWork, stream_byInputs, hasReadyInput, allInputsReady. simpl. rewrite !andb_false_r.
    destruct (ec_allow_partial_inputs cfg); by rewrite ?andb_false_r.
  - simpl. unfold stream_shouldSchedule. destruct (_ && hasReadyWork _ _); [case_decide; [by right|]|].
    all: left; unfold stream_byInputs; destruct (_ && _); [done|]; simpl; destruct (ec_allow_partial_inputs cfg); vm_compute; reflexivity.
Qed.

Lemma inv_settle pr w s i :
  stream_inv pr w s → only_due pr i → (∀ nd, stateByIndex s i = Some nd → settled (view_node nd)) → stream_inv (settle pr) w s.
Proof.
  intros [I1 I2 [J1 J2 J3 J4 J5 J6 J7 J8 J9] I4 I5 I6] Hd Hs. split; try done. split; try done.
  intros j n Hj. right. destruct (J3 j n Hj) as [[Hdue _]|]; [|done]. apply Hd in Hdue as ->.
  apply view_lookup in Hj as (nd & Hi & ->). by apply Hs.
Qed.

Lemma inv_deferQueue pr w s l :
  stream_inv pr w s → (∀ j nd, stateByIndex s j = Some nd → nd_defer_pending nd = true → j ∈ l.*2) →
  stream_inv pr w (e_set_deferQueue s l).
Proof.
  intros [I1 I2 [J1 J2 J3 J4 J5 J6 J7 J8 J9] I4 I5 I6] Hl. split; try done. split; try done.
  intros j n Hj Hn. split; [by eapply J6|]. apply view_lookup in Hj as (nd & Hi & ->). by eapply Hl.
Qed.

Lemma inv_schedule pr w s i nd :
  stream_inv pr w s → only_due pr i → stateByIndex s i = Some nd → nd_exec_state nd = WAITING →
  (length (nd_input_ports nd) = 1 → sn_sizes (view_node nd) ≠ [0]) →
  stream_inv (settle pr) w (scheduleNodeExecution cg sched s i).
Proof.
  intros I Hd Hi Hw Hne. unfold scheduleNodeExecution. rewrite Hi, decide_False by (rewrite Hw; tauto).
  destruct (live_parts s (si_live _ _ _ I)) as (_ & _ & _ & Hacc). simpl. rewrite Hacc.
  destruct (inv_at pr w s i nd I Hi) as (_ & _ & Hp & Ht & _).
  eapply (quiet_inv _ _ (set_exec s i READY)); [by apply quiet_nodes|].
  eapply inv_set_exec; [exact I|exact Hi|by right| | |].
  - intros Hpr. destruct (Hp Hpr); congruence.
  - intros Htk%Ht. destruct Htk. congruence.
  - intros j Hj. split; [|done]. by intros ->%Hd.
Qed.

Lemma inv_defer pr w s i nd delay :
  stream_inv pr w s → only_due pr i → stateByIndex s i = Some nd → nd_exec_state nd = WAITING →
  allInputPortsDrained nd = false → (0 < ec_min_execution_interval_ms cfg)%Z →
  stream_inv (settle pr) w (scheduleDeferredRetry s i delay).
Proof.
  intros I Hd Hi Hw Hdr Hrate. unfold scheduleDeferredRetry.
  destruct (live_parts s (si_live _ _ _ I)) as (_ & Hstop & _). rewrite Hstop, Hi. rewrite drained_view in Hdr.
  destruct (inv_at pr w s i nd I Hi) as (_ & _ & Hp & Ht & Hdf & _). destruct (nd_defer_pending nd) eqn:Hpend.
  - eapply inv_settle; [exact I|exact Hd|]. intros nd' Hi'. rewrite Hi in Hi'. injection Hi' as <-.
    unfold settled. simpl. rewrite Hw, Hpend. done.
  - simpl. set (l := _ ++ [_]). change (stream_inv (settle pr) w (upd_node (e_set_deferQueue s l) i (λ nd, nd_set_defer_pending nd true))).
    assert (∀ j, j ∈ (e_deferQueue s).*2 → j ∈ l.*2) as Hl by (intros j Hj; unfold l; rewrite fmap_app; set_solver).
    eapply inv_change; [apply (inv_deferQueue _ _ s l I)|exact Hi| |done|done].
    + intros j nd' Hj Hpj. apply Hl. by destruct (inv_at pr w s j nd' I Hj) as (_ & _ & _ & _ & Hdj & _); apply Hdj.
    + split; simpl; try done.
      * right. unfold settled. simpl. rewrite Hw. done.
      * intros j Hj. split; [|done]. by intros ->%Hd.
      * intros _. split; [done|]. unfold l. rewrite fmap_app. set_solver.
Qed.

Lemma settle_id pr : pr_due pr = None → settle pr = pr.
Proof. destruct pr. simpl. by intros ->. Qed.

Lemma not_stopping s : live s = true → isStopRequested s = (s, false).
Proof. intros (_ & Hs & Hc & _)%live_parts. unfold isStopRequested. by rewrite Hs, Hc. Qed.

(** ** The cascade *)

(** A check flushes its node, or leaves everything as it is and the node not drained. *)
Definition check_ok (check : Engine → nat → option (Engine * bool)) : Prop :=
  ∀ pr w s i s' b, stream_inv pr w s → only_due pr i → check s i = Some (s', b) →
    if b then stream_inv (settle pr) w s'
    else s' = s ∧ ∀ nd, stateByIndex s i = Some nd → nd_exec_state nd = WAITING → allInputPortsDrained nd = false.

Section WithCheck.
Context (check : Engine → nat → option (Engine * bool)) (Hcheck : check_ok check).

Lemma try_schedule_inv pr w s i s' :
  stream_inv pr w s → only_due pr i → tryScheduleNode_with cg sched check s i = Some s' → stream_inv (settle pr) w s'.
Proof using Hcheck.
  intros I Hd. unfold tryScheduleNode_with. rewrite (not_stopping s (si_live _ _ _ I)).
  destruct (stateByIndex s i) as [nd|] eqn:Hi.
  2:{ intros [= <-]. eapply inv_settle; [exact I|exact Hd|]. by rewrite Hi. }
  destruct (inv_at pr w s i nd I Hi) as ([Hsh1 Hsh2] & Hset & Hp & Ht & _).
  assert (settled (view_node nd) → stream_inv (settle pr) w s) as Hdone.
  { intros Hs. eapply inv_settle; [exact I|exact Hd|]. intros nd' Hi'. rewrite Hi in Hi'. by injection Hi' as <-. }
  case_decide as Hw; [intros [= <-]; apply Hdone; naive_solver|].
  destruct (allInputPortsDrained nd) eqn:Hdr.
  { destruct (check s i) as [[s1 b]|] eqn:Hc; [|done]. simpl. intros [= <-].
    specialize (Hcheck pr w s i s1 b I Hd Hc). destruct b; [done|]. destruct Hcheck as [_ Hnd].
    specialize (Hnd nd Hi Hw). congruence. }
  pose proof (single_schedule nd i) as Hone.
  assert (∀ q, length (nd_input_ports nd) = 1 → nd_queues nd = [q] → sn_sizes (view_node nd) = [length (pq_items q)]) as Hq1.
  { intros q _ Hq. simpl. by rewrite Hq. }
  assert (length (nd_input_ports nd) = 1 → ∃ q, nd_queues nd = [q]) as Hq.
  { intros H1. simpl in Hsh2. rewrite length_fmap, H1 in Hsh2. destruct (nd_queues nd) as [|q [|]]; try done. by exists q. }
  set (d := shouldSchedule _ _ _). destruct (sr_decision d) eqn:Hdec; intros [= <-].
  - eapply inv_schedule; [exact I|exact Hd|exact Hi|exact Hw|]. intros H1. destruct (Hq H1) as [q Hqs].
    rewrite (Hq1 q H1 Hqs). specialize (Hone q (e_now s) H1 Hqs Hdr). cbv zeta in Hone. fold d in Hone. rewrite Hdec in Hone.
    destruct (decide (pq_items q = [])) as [|Hne]; [done|]. by destruct (pq_items q).
  - apply Hdone. unfold settled. simpl. rewrite Hw, <-drained_view. split; [done|]. intros H1 Hnd. destruct (Hq H1) as [q Hqs].
    specialize (Hone q (e_now s) H1 Hqs Hdr). cbv zeta in Hone. fold d in Hone. rewrite Hdec in Hone. rewrite Hqs. simpl.
    destruct (decide (pq_items q = [])) as [->|]; [done|]. by destruct Hone.
  - apply Hdone. unfold settled. simpl. rewrite Hw, <-drained_view. split; [done|]. intros H1 Hnd. destruct (Hq H1) as [q Hqs].
    specialize (Hone q (e_now s) H1 Hqs Hdr). cbv zeta in Hone. fold d in Hone. rewrite Hdec in Hone.
    destruct (decide (pq_items q = [])) as [|]; [done|]. by destruct Hone.
  - eapply inv_defer; [exact I|exact Hd|exact Hi|exact Hw|done|]. by eapply defers_by_rate.
Qed.

Lemma propagate_edge_inv outputs pr w s e s' :
  stream_inv pr w s → pr_due pr = None → propagate_edge cg sched check outputs (Some s) e = Some s' →
  stream_inv pr (w + weight (oe_dest_node e)) s'.
Proof using Hcheck.
  intros I Hd. unfold propagate_edge. cbn [mbind option_bind].
  assert (stream_inv pr (w + weight (oe_dest_node e)) s) as I' by (eapply inv_weaken; [|exact I]; lia).
  destruct (pm_find outputs _) as [x|]; [|by intros [= <-]]. destruct (stateByIndex s _) as [dest|]; [|by intros [= <-]].
  destruct (oe_dest_port_index e) as [k|]; [|by intros [= <-]]. destruct (nd_queues dest !! k); [|by intros [= <-]].
  destruct (queue_push s _ k x) as [s1 ok] eqn:Hq. pose proof (inv_push _ _ _ _ _ _ _ _ I Hd Hq) as I1. destruct ok.
  - intros Ht. eapply try_schedule_inv in Ht; [|exact I1|auto]. by rewrite <-(settle_id pr Hd).
  - intros [= <-]. eapply quiet_inv; [|exact I1]. by apply quiet_nodes.
Qed.

(** The outputs of a node go to the nodes behind its edges. *)
Definition weight_behind (i : nat) : nat := sum_list ((λ e, weight (oe_dest_node e)) <$> outEdges cg i).

Lemma propagate_edges_inv outputs es pr w s s' :
  stream_inv pr w s → pr_due pr = None → foldl (propagate_edge cg sched check outputs) (Some s) es = Some s' →
  stream_inv pr (w + sum_list ((λ e, weight (oe_dest_node e)) <$> es)) s'.
Proof using Hcheck.
  intros I Hd. revert w s I. induction es as [|e es IH]; intros w s I Hf; cbn [foldl] in Hf.
  { injection Hf as <-. eapply inv_weaken; [|exact I]. simpl. lia. }
  destruct (propagate_edge cg sched check outputs (Some s) e) as [s1|] eqn:He.
  - eapply propagate_edge_inv in He; [|exact I|exact Hd]. pose proof (IH _ _ He Hf) as I2. eapply inv_weaken; [|exact I2].
    rewrite fmap_cons. simpl. lia.
  - exfalso. clear IH I He. induction es; simpl in Hf; [done|auto].
Qed.

Lemma propagate_outputs_inv outputs pr w s i s' :
  stream_inv pr w s → pr_due pr = None → propagateOutputs_with cg sched check s i outputs = Some s' →
  stream_inv pr (w + weight_behind i) s'.
Proof using Hcheck.
  intros I Hd. unfold propagateOutputs_with. destruct (live_parts s (si_live _ _ _ I)) as (_ & -> & _).
  by apply propagate_edges_inv.
Qed.

(** *** Closing the ports behind a flushed node *)

Lemma latched_latch nd k j : k < k_max_eos_ports →
  sn_latched (view_node (latch nd k)) j = (bool_decide (j = k) || sn_latched (view_node nd) j).
Proof.
  intros Hk. unfold sn_latched. simpl. case_decide as Hj.
  - by rewrite bool_decide_eq_false_2 by lia.
  - rewrite Z.lor_spec, orb_comm. f_equal. rewrite Z.shiftl_spec by lia.
    destruct (bool_decide_reflect (j = k)) as [->|Hne]; [by rewrite Z.sub_diag|].
    destruct (Z.ltb_spec (Z.of_nat j - Z.of_nat k) 0); [by apply Z.testbit_neg_r|].
    rewrite Z.bits_above_log2; [done|done|]. simpl. lia.
Qed.

(** One edge less to close. *)
Lemma inv_closed j e es F t d w s :
  stream_inv (mkProgress ((j, e :: es) :: F) t d) w s →
  (∀ k, oe_dest_port_index e = Some k → k < k_max_eos_ports → closed (sv_nodes (sview s)) e k) →
  stream_inv (mkProgress ((j, es) :: F) t d) w s.
Proof.
  intros [I1 I2 [J1 J2 J3 J4 J5 J6 J7 J8 J9] I4 I5 I6] Hc. split; try done. split; try done.
  intros j' e' k Hf He Hk Hmax. destruct (J8 j' e' k Hf He Hk Hmax) as [(es' & Hin & Hes)|?]; [|by right].
  simpl in Hin. apply elem_of_cons in Hin as [[= -> ->]|Hin].
  - apply elem_of_cons in Hes as [->|Hes]; [right; by apply Hc|]. left. exists es. split; [by left|done].
  - left. exists es'. split; [by right|done].
Qed.

Lemma latch_inv j e es F t w s k s' :
  stream_inv (mkProgress ((j, e :: es) :: F) t None) w s → oe_dest_port_index e = Some k → is_Some (stateByIndex s (oe_dest_node e)) →
  latchPortEos_with check s (oe_dest_node e) (Some k) = Some s' → stream_inv (mkProgress ((j, es) :: F) t None) w s'.
Proof using Hcheck.
  intros I Hk [nd Hi]. unfold latchPortEos_with. set (i := oe_dest_node e) in *. case_decide as Hmax.
  { intros [= <-]. eapply inv_closed; [exact I|]. intros k' Hk'. rewrite Hk in Hk'. injection Hk' as <-. lia. }
  assert (k < k_max_eos_ports) as Hlt by lia. set (s1 := upd_node s i _).
  destruct (inv_at _ w s i nd I Hi) as ([Hsh1 Hsh2] & [[Hd _]|Hset] & Hp & Ht & Hdf & _); [done|].
  assert (stateByIndex s1 i = Some (latch nd k)) as Hi1.
  { unfold stateByIndex, s1, upd_node in *. simpl. by rewrite list_lookup_alter, decide_True, Hi by done. }
  assert (stream_inv (mkProgress ((j, e :: es) :: F) t (if decide (nd_exec_state nd = WAITING) then Some i else None)) w s1) as I1.
  { eapply (inv_change (mkProgress ((j, e :: es) :: F) t None)); [exact I|exact Hi| |done|done]. split; try done.
    - intros k' Hl. rewrite latched_latch by done. rewrite Hl. apply orb_true_r.
    - case_decide; [by left|right]. unfold settled in *. simpl in *. by destruct (nd_exec_state nd). }
  eapply inv_closed in I1.
  2:{ intros k' Hk' _. rewrite Hk in Hk'. injection Hk' as <-. exists (view_node (latch nd k)). fold i.
      split; [by apply lookup_view|]. by rewrite latched_latch, bool_decide_eq_true_2. }
  destruct (check s1 i) as [[s2 b]|] eqn:Hc; [|done]. simpl. intros [= <-].
  assert (only_due (mkProgress ((j, es) :: F) t (if decide (nd_exec_state nd = WAITING) then Some i else None)) i) as Hd.
  { intros j'. simpl. case_decide; [by intros [= ->]|done]. }
  pose proof (Hcheck _ _ _ _ _ _ I1 Hd Hc) as Hb. destruct b; [exact Hb|]. destruct Hb as [-> Hnd].
  eapply (inv_settle _ _ _ _ I1 Hd). intros nd' Hi'. rewrite Hi1 in Hi'. injection Hi' as <-.
  unfold settled in *. simpl in *. specialize (Hnd _ Hi1). simpl in Hnd. destruct (nd_exec_state nd); try done.
  rewrite drained_view in Hnd. split; [by apply Hnd|by apply Hset].
Qed.

(** Closing all of them in turn. *)
Definition close_edge (acc : option Engine) (e : OutEdge) : option Engine :=
  s ← acc;
  match stateByIndex s (oe_dest_node e) with
  | None => Some s
  | Some _ => latchPortEos_with check s (oe_dest_node e) (oe_dest_port_index e)
  end.

Lemma close_edges_inv j es F t w s s' :
  (∀ e, e ∈ es → oe_dest_node e < N) → stream_inv (mkProgress ((j, es) :: F) t None) w s →
  foldl close_edge (Some s) es = Some s' → stream_inv (mkProgress ((j, []) :: F) t None) w s'.
Proof using Hcheck.
  revert s. induction es as [|e es IH]; intros s Hes I Hf; cbn [foldl] in Hf; [by injection Hf as <-|].
  destruct (close_edge (Some s) e) as [s1|] eqn:He.
  - eapply IH; [|clear IH|exact Hf]; [intros; apply Hes; by right|]. unfold close_edge in He. cbn [mbind option_bind] in He.
    destruct (inv_node _ w s (oe_dest_node e) I) as [nd Hi]; [apply Hes; by left|]. rewrite Hi in He.
    destruct (oe_dest_port_index e) as [k|] eqn:Hk; [by eapply latch_inv|]. injection He as <-.
    eapply inv_closed; [exact I|]. by rewrite Hk.
  - exfalso. clear IH Hes I He. induction es; simpl in Hf; [done|auto].
Qed.
End WithCheck.

(** *** A flush *)

Definition claim nd : NodeState := nd_set_eos_propagated (nd_set_exec_state nd EXECUTING) true.

Lemma claim_inv pr w s i nd :
  stream_inv pr w s → only_due pr i → stateByIndex s i = Some nd → nd_eos_propagated nd = false →
  claimable (nd_exec_state nd) = true →
  weight i ≤ w ∧ i ∉ (pr_flushing pr).*1 ∧
  stream_inv (mkProgress ((i, outEdges cg i) :: pr_flushing pr) (pr_task pr) None) (w - weight i) (upd_node s i claim).
Proof.
  intros I Hd Hi Hp Hc. pose proof (lookup_view s i nd Hi) as Hv. destruct (inv_at pr w s i nd I Hi) as (Hsh & _ & _ & Ht & Hdf & Hfl).
  destruct I as [I1 I2 [J1 J2 J3 J4 J5 J6 J7 J8 J9] I4 I5 I6].
  set (n' := view_node (claim nd)). set (ns := sv_nodes (sview s)) in *.
  assert (i ∉ (pr_flushing pr).*1) as HnF by (intros Hin%Hfl; congruence).
  pose proof (work_insert weight ns i _ n' Hv) as Hwk. unfold cost in Hwk. simpl in Hwk. rewrite Hp in Hwk.
  pose proof (sview_upd s i nd claim Hi) as Hsv. fold n' ns in Hsv.
  assert (∀ j, flushed (<[i := n']> ns) j = (bool_decide (i = j) || flushed ns j)) as Hf.
  { intros j. rewrite (flushed_insert ns i _ n' j Hv). case_decide; [by rewrite bool_decide_eq_true_2|by rewrite bool_decide_eq_false_2]. }
  assert (∀ j m, <[i := n']> ns !! j = Some m → j = i ∧ m = n' ∨ j ≠ i ∧ ns !! j = Some m) as Hcase.
  { intros j m. destruct (decide (j = i)) as [->|Hne].
    - rewrite list_lookup_insert_eq by (by eapply lookup_lt_Some). intros [= <-]. by left.
    - rewrite list_lookup_insert_ne by done. intros Hm. by right. }
  split_and!; [lia|done|]. split; rewrite ?Hsv.
  - done.
  - unfold queues_ok in *. simpl. by apply Forall_alter.
  - split; cbn [pr_flushing pr_task pr_due].
    + by rewrite length_insert.
    + intros j m [[-> ->]|[Hne Hm]]%Hcase; [exact Hsh|by apply J2].
    + intros j m [[-> ->]|[Hne Hm]]%Hcase; [by right|]. destruct (J3 j m Hm) as [[Hdj _]|?]; [|by right].
      by apply Hd in Hdj.
    + intros j m [[-> ->]|[Hne Hm]]%Hcase; [by right|by eapply J4].
    + intros j Hj. destruct (decide (j = i)) as [->|Hne]; [|rewrite list_lookup_insert_ne by done; by apply J5].
      destruct (Ht Hj) as [He _]. by rewrite He in Hc.
    + intros j m [[-> ->]|[Hne Hm]]%Hcase; [exact Hdf|by eapply J6].
    + intros j. rewrite Hf. simpl. rewrite elem_of_cons. intros [->|Hj%J7]; [by rewrite bool_decide_eq_true_2|].
      rewrite Hj. apply orb_true_r.
    + intros j e k. rewrite Hf. intros Hj He Hk Hmax. destruct (bool_decide_reflect (i = j)) as [<-|Hne].
      { left. exists (outEdges cg i). split; [by left|done]. }
      destruct (J8 j e k Hj He Hk Hmax) as [(es & Hes & Hin)|Hcl].
      * left. exists es. split; [by right|done].
      * right. eapply closed_insert; [exact Hv|done|exact Hcl].
    + intros j k (m & Hm & Hl)%J9. destruct (decide (j = i)) as [->|Hne].
      * exists n'. rewrite list_lookup_insert_eq by (by eapply lookup_lt_Some). split; [done|]. rewrite Hv in Hm. by injection Hm as <-.
      * exists m. by rewrite list_lookup_insert_ne.
  - change (e_sinksAtEos (upd_node s i claim)) with (e_sinksAtEos s). rewrite I4. f_equal. unfold sinks_done. f_equal.
    apply list_filter_iff. intros j. cbn [pr_flushing]. rewrite Hf. simpl. rewrite elem_of_cons.
    destruct (bool_decide_reflect (i = j)) as [<-|Hne]; simpl.
    + split; [intros [Hfl' _]|tauto]. unfold flushed in Hfl'. rewrite Hv in Hfl'. simpl in Hfl'. congruence.
    + split; [intros [? ?]; split; [done|]; intros [->|]; done|tauto].
  - done.
  - lia.
Qed.

Lemma filter_length_cons (P P' : nat → Prop) `{!∀ x, Decision (P x), !∀ x, Decision (P' x)} (l : list nat) i :
  NoDup l → i ∈ l → ¬ P i → (∀ j, P' j ↔ P j ∨ j = i) → length (filter P' l) = S (length (filter P l)).
Proof.
  intros Hnd Hi Hn Hiff. change (S (length (filter P l))) with (length (i :: filter P l)). apply Permutation_length, NoDup_Permutation.
  - by apply NoDup_filter.
  - apply NoDup_cons. split; [|by apply NoDup_filter]. by rewrite list_elem_of_filter; intros [? _].
  - intros j. rewrite elem_of_cons, !list_elem_of_filter, Hiff. naive_solver.
Qed.

(** The last step: the node is no longer being flushed, and a sink is counted. *)
Lemma finish_inv i F t w s :
  (Z.of_nat N < u64_mod)%Z → i < N → i ∉ F.*1 → stream_inv (mkProgress ((i, []) :: F) t None) w s →
  stream_inv (mkProgress F t None) w (if isSink cg i then recordSinkEndOfStream cg s else s).
Proof.
  intros Hsmall Hi HnF [I1 I2 [J1 J2 J3 J4 J5 J6 J7 J8 J9] I4 I5 I6]. set (ns := sv_nodes (sview s)) in *.
  assert (flushed ns i = true) as Hfl by (apply J7; by left).
  assert (nodes_inv (mkProgress F t None) (e_deferQueue s).*2 ns) as J.
  { split; try done.
    - intros j Hj. apply J7. by right.
    - intros j e k Hj He Hk Hmax. destruct (J8 j e k Hj He Hk Hmax) as [(es & Hes & Hin)|?]; [|by right].
      simpl in Hes. apply elem_of_cons in Hes as [[= -> ->]|Hes]; [set_solver|]. left. by exists es. }
  assert (sinks_done (mkProgress F t None) ns =
    sinks_done (mkProgress ((i, []) :: F) t None) ns + if isSink cg i then 1 else 0) as Hcount.
  { unfold sinks_done. simpl. destruct (isSink cg i) eqn:Hs.
    - rewrite Nat.add_1_r. apply (filter_length_cons _ _ sinks i).
      + apply NoDup_filter, NoDup_seq.
      + apply list_elem_of_filter. split; [done|]. apply elem_of_seq. lia.
      + intros [_ Hn]. apply Hn. by left.
      + intros j. rewrite not_elem_of_cons. destruct (decide (j = i)) as [->|]; naive_solver.
    - rewrite Nat.add_0_r. f_equal. apply filter_ext_elem. intros j Hj. rewrite not_elem_of_cons.
      apply list_elem_of_filter in Hj as [Hj _]. assert (j ≠ i) by congruence. tauto. }
  destruct (isSink cg i) eqn:Hs; [|split; try done; fold ns; by rewrite I4, Hcount, Nat.add_0_r].
  assert (sinks_done (mkProgress F t None) ns ≤ length sinks) as Hle by (unfold sinks_done; apply length_filter).
  assert (length sinks ≤ N) as HleN by (unfold sinks; rewrite length_filter; by rewrite length_seq).
  assert (wrap64 (e_sinksAtEos s + 1) = Z.of_nat (sinks_done (mkProgress F t None) ns)) as Hreach.
  { rewrite I4, Hcount. unfold wrap64. rewrite Z.mod_small; lia. }
  assert (e_sinksAtEos s < Z.of_nat (length sinks))%Z as Hlt by (rewrite I4; lia).
  unfold recordSinkEndOfStream. fold sinks. rewrite Hreach.
  case_decide as Hr.
  - split; try done. simpl. intros Heq Hne. destruct Hr as [Hr|Hr]; [|lia]. assert (length sinks = 0) by lia. by destruct sinks.
  - destruct (e_endOfStreamReached (e_set_sinksAtEos s _)) eqn:He; split; try done.
Qed.

(** A packet outweighs what comes of it. *)
Context (Hweight : ∀ i, i < N → S (weight_behind i) ≤ weight i).
Context (Hforward : ∀ i e, i < N → e ∈ outEdges cg i → oe_dest_node e < N) (Hsmall : (Z.of_nat N < u64_mod)%Z).
Context (onEndOfStream : list Event → NodePtr → Outcome) (elapsed : list Event → Z).

Lemma run_flush_quiet s nd s' m : run_flush onEndOfStream elapsed s nd = (s', m) → quiet s s'.
Proof. unfold run_flush. destruct (onEndOfStream _ _); intros [= <- _]; by apply quiet_nodes. Qed.

Lemma check_inv fuel : check_ok (checkNodeEndOfStream cg sched onEndOfStream elapsed fuel).
Proof using Hweight Hforward Hsmall.
  induction fuel as [|fuel IH]; intros pr w s i s' b I Hd; [done|]. cbn [checkNodeEndOfStream].
  destruct (live_parts s (si_live _ _ _ I)) as (-> & -> & _). cbn [negb orb].
  destruct (stateByIndex s i) as [nd|] eqn:Hi; [|by intros [= <- <-]].
  destruct (inv_at pr w s i nd I Hi) as (_ & _ & Hp & Ht & _).
  destruct (nd_eos_propagated nd) eqn:Hprop.
  { intros [= <- <-]. split; [done|]. intros nd' [= <-] Hw. destruct (Hp eq_refl); congruence. }
  destruct (allInputPortsDrained nd) eqn:Hdr; cbn [negb]; [|by intros [= <- <-]; split; [|intros nd' [= <-]]].
  destruct (claimable (nd_exec_state nd)) eqn:Hc; cbn [negb].
  2:{ intros [= <- <-]. split; [done|]. intros nd' [= <-] Hw. by rewrite Hw in Hc. }
  destruct (claim_inv pr w s i nd I Hd Hi Hprop Hc) as (Hle & HnF & I1).
  pose proof (inv_range pr w s i nd I Hi) as Hrange. specialize (Hweight i Hrange).
  fold claim. change (λ nd, nd_set_eos_propagated (nd_set_exec_state nd EXECUTING) true) with claim.
  destruct (run_flush onEndOfStream elapsed _ nd) as [s2 m] eqn:Hf. apply run_flush_quiet in Hf.
  pose proof (quiet_inv _ _ _ _ Hf I1) as I2. set (pr1 := mkProgress (_ :: _) _ _) in I1, I2.
  set (r := match m with [] => _ | _ => _ end). destruct r as [s3|] eqn:Hr; [|done]. cbn [mbind option_bind].
  assert (stream_inv pr1 w s3) as I3.
  { subst r. destruct m as [|kp m].
    - injection Hr as <-. eapply inv_weaken; [|exact I2]. lia.
    - eapply (propagate_outputs_inv _ IH _ pr1 (w - weight i)) in Hr; [| |done].
      + eapply inv_weaken; [|exact Hr]. lia.
      + eapply quiet_inv; [|exact I2]. destruct (isSink cg i); [by apply quiet_nodes|done]. }
  destruct (inv_node _ _ _ i I3 Hrange) as [nd3 Hi3].
  destruct (inv_at _ _ _ i nd3 I3 Hi3) as (_ & _ & _ & Ht3 & _ & Hfl3).
  assert (nd_eos_propagated nd3 = true) as Hprop3 by (apply Hfl3; by left).
  assert (stream_inv pr1 w (set_exec s3 i COMPLETED)) as I4.
  { eapply (inv_set_exec pr1); [exact I3|exact Hi3|right; exact Hprop3|by left| |done]. intros [_ Hn]%Ht3. congruence. }
  destruct (foldl _ (Some (set_exec s3 i COMPLETED)) _) as [s4|] eqn:Hl; [|done]. cbn [mbind option_bind]. intros [= <- <-].
  eapply (close_edges_inv _ IH) in Hl; [|intros e He; by eapply Hforward|exact I4].
  by apply finish_inv.
Qed.

Lemma checkEos_inv : check_ok (checkEos cg sched onEndOfStream elapsed).
Proof using Hweight Hforward Hsmall. intros pr w s. apply check_inv. Qed.
End Invariant.
