(* ===== verification/StreamRuns.v ===== *)
(** * Tasks and calls of a stream

    Every operation of a streaming engine keeps [stream_inv]: tasks, pushes, ports
    closed by the caller, timers and the join watchdog.  The task of a node with a
    single port also leaves less work than it found. *)

From S2P Require Import Prelude Errors Packets Kahn Graphs CompiledGraphs MpmcQueue NodeQueue FrameAlignment.
From S2P Require Import SyncCoordinator JoinAwareSync ExecutionTypes Schedulers EngineCore EngineGather Dataflow Engine.
From S2P Require Import NodeLifecycle EngineSim EngineTermination EngineRuns StreamInv.
Local Open Scope list_scope.
Local Open Scope nat_scope.

Section Runs.
Context `{CppTypes} {Q Sy : Type} `{!PortQueue Q, !PortQueueLaws Q, !SyncStrategy Sy}.
Context (deref : NodePtr → ILogicNode) (cfg : EngineConfig) (cg : CompiledGraph) (weight : nat → nat) (known : list (nat * nat)).
Notation Engine := (Engine Q Sy).
Notation NodeState := (NodeState Q).
Notation N := (length (cg_nodes cg)).
Notation sched := (scheduler_for cfg STREAM).
Notation stream_inv := (stream_inv deref cfg cg weight known).
Implicit Types (s : Engine) (nd : NodeState) (pr : Progress).

(** ** Gathering *)

(** The state during a gather at [i], with [w] work left: its node is executing. *)
Definition gathering pr (i w : nat) s : Prop := stream_inv pr w s ∧ pr_task pr = Some i ∧ pr_due pr = None.

Lemma pop_inv pr i w s k : gathering pr i w s → gathering pr i w (queue_pop s i k).1.
Proof.
  intros (I & Ht & Hd). split; [|done]. unfold queue_pop.
  destruct (stateByIndex s i) as [nd|] eqn:Hi; [|done]. simpl. destruct (nd_queues nd !! k) as [q|] eqn:Hk; [|done].
  destruct (pq_tryPop q) as [q' r] eqn:Hp. destruct (pq_pop_spec _ _ _ Hp) as (Hok & _ & Hits). simpl.
  destruct (inv_at _ _ _ _ _ pr w s i nd I Hi) as (_ & _ & _ & Htask & _). destruct (Htask Ht) as [He _].
  rewrite <-(settle_id pr Hd). eapply inv_upd_queue; [exact I|exact Hi|exact Hk|by apply only_due_none|done| |].
  - right. unfold settled. simpl. by rewrite He.
  - rewrite Hits. destruct (pq_items q); simpl; nia.
Qed.

Lemma gather_inv pr i w s g ok : gathering pr i w s → gatherNodeInputs cfg s i = Some (g, ok) → gathering pr i w (ga_engine g).
Proof.
  intros I Hg. assert (PreOrder (λ s s', gathering pr i w s → gathering pr i w s')) as Hpre by (split; [by intros s0|intros ???; auto]).
  assert (∀ s0 s1, quiet s0 s1 → gathering pr i w s0 → gathering pr i w s1) as Hq.
  { intros s0 s1 Hs (I0 & ? & ?). split; [|done]. by eapply quiet_inv. }
  eapply (gatherNodeInputs_closed cfg i (λ s s', gathering pr i w s → gathering pr i w s')); [..|exact Hg|exact I].
  - intros s0 k. apply pop_inv.
  - intros s0 f. apply Hq, quiet_bump.
  - intros s0 nm fr re. apply Hq, quiet_observe.
  - intros s0 x. apply Hq, quiet_sync.
  - intros s0. by apply Hq, quiet_upd.
Qed.

(** With a single port a packet is taken. *)
Lemma gather_single_inv pr i w s nd q g ok :
  gathering pr i w s → stateByIndex s i = Some nd → length (nd_input_ports nd) = 1 → nd_queues nd = [q] → pq_items q ≠ [] →
  gatherNodeInputs cfg s i = Some (g, ok) → weight i ≤ w ∧ gathering pr i (w - weight i) (ga_engine g).
Proof.
  intros (I & Ht & Hd) Hi H1 Hq Hne. unfold gatherNodeInputs. rewrite Hi, decide_False by lia. rewrite H1. cbn [seq].
  intros Hg%(inj Some). cbn [plain_gather ga_engine ga_index] in Hg. rewrite Hi in Hg.
  assert (portDrained nd 0 = false) as Hdr.
  { unfold portDrained. rewrite Hq. simpl. rewrite bool_decide_eq_false_2; [apply andb_false_r|]. rewrite pq_size_spec.
    destruct (pq_items q); simpl; [done|lia]. }
  rewrite Hdr in Hg.
  assert (weight i ≤ w ∧ gathering pr i (w - weight i) (queue_pop s i 0).1) as [Hle I1].
  { destruct (inv_at _ _ _ _ _ pr w s i nd I Hi) as (_ & _ & _ & Htask & _). destruct (Htask Ht) as [He Hprop].
    unfold queue_pop. rewrite Hi. simpl. rewrite Hq. simpl. destruct (pq_tryPop q) as [q' r] eqn:Hp.
    destruct (pq_pop_spec _ _ _ Hp) as (Hok & _ & Hits). simpl.
    assert (weight i ≤ w) as Hle.
    { pose proof (si_work _ _ _ _ _ _ _ _ I) as Hw. pose proof (lookup_view s i nd Hi) as Hv.
      pose proof (work_insert weight _ i _ (mkSNode 0 WAITING true 0%Z [] false) Hv) as Hins.
      unfold cost in Hins at 1. simpl in Hins. rewrite Hprop in Hins. unfold cost in Hins. simpl in Hins, Hw. lia. }
    split; [exact Hle|]. split; [|done]. rewrite <-(settle_id pr Hd). eapply inv_upd_queue; [exact I|exact Hi|by rewrite Hq|by apply only_due_none|done| |].
    - right. unfold settled. simpl. by rewrite He.
    - rewrite Hits. destruct (pq_items q) as [|x l]; [done|]. simpl. lia. }
  split; [exact Hle|]. set (R := λ s0 s', gathering pr i (w - weight i) s0 → gathering pr i (w - weight i) s').
  assert (PreOrder R) as Hpre by (unfold R; split; [by intros s0|intros ???; auto]).
  assert (∀ s0 s1, quiet s0 s1 → R s0 s1) as Hqt.
  { intros s0 s1 Hs (I0 & ? & ?). split; [|done]. by eapply quiet_inv. }
  assert (∀ g1 b, pop_undropped cfg (S (queue_length s i 0)) (mkGather s i []) 0 = (g1, b) → gathers i R (queue_pop s i 0).1 g1) as Hpop.
  { intros g1 b. cbn [pop_undropped ga_engine ga_index ga_delivered]. destruct (queue_pop s i 0) as [s1 r]. simpl.
    assert (gathers i R s1 (mkGather s1 i [])) as Hs1 by (split; [by unfold R|done]).
    destruct r as [x|]; [|by intros [= <- _]]. destruct (stateByIndex s1 i) as [nd1|] eqn:Hi1.
    - destruct (match x with Some _ => _ | None => _ end).
      + apply (pop_undropped_gathers cfg i R); [intros ? k; exact (pop_inv pr i _ _ k)|intros; apply Hqt, quiet_bump|intros; apply Hqt, quiet_observe
          |intros; apply Hqt, quiet_sync|intros; by apply Hqt, quiet_upd|].
        split; [|done]. apply Hqt. by apply quiet_nodes.
      + intros [= <- _]. split; [|done]. apply Hqt. simpl. unfold recordDequeue. repeat case_match; by apply quiet_nodes.
    - exfalso. destruct I1 as (I1 & _). pose proof (inv_range _ _ _ _ _ _ _ _ _ _ I Hi) as Hr.
      destruct (inv_node _ _ _ _ _ _ _ _ _ I1 Hr) as [nd' Hnd']. simpl in Hnd'. congruence. }
  destruct (pop_undropped cfg _ (mkGather s i []) 0) as [g1 b] eqn:Hpu. destruct (Hpop g1 b eq_refl) as [HR _].
  destruct b; injection Hg as <- _; by apply HR.
Qed.

(** ** Tasks *)

Context (Hweight : ∀ i, i < N → S (weight_behind cg weight i) ≤ weight i).
Context (Hforward : ∀ i e, i < N → e ∈ outEdges cg i → oe_dest_node e < N) (Hsmall : (Z.of_nat N < u64_mod)%Z).
Context (process : list Event → NodePtr → PortDataMap → Outcome).
Context (onEndOfStream : list Event → NodePtr → Outcome) (elapsed : list Event → Z).
Notation checkEos := (checkEos cg sched onEndOfStream elapsed).
Notation tryScheduleNode := (tryScheduleNode cg sched onEndOfStream elapsed).

Lemma check_eos_ok : check_ok deref cfg cg weight known (Q := Q) (Sy := Sy) checkEos.
Proof using Hweight Hforward Hsmall. by apply checkEos_inv. Qed.

Lemma checkEos_idle w s i s' b : stream_inv idle w s → checkEos s i = Some (s', b) → stream_inv idle w s'.
Proof using Hweight Hforward Hsmall.
  intros I Hc. pose proof (check_eos_ok _ _ _ _ _ _ I (only_due_none idle i eq_refl) Hc) as Hb.
  destruct b; [exact Hb|]. by destruct Hb as [-> _].
Qed.

Lemma try_inv pr w s i s' :
  stream_inv pr w s → only_due pr i → tryScheduleNode s i = Some s' → stream_inv (settle pr) w s'.
Proof using Hweight Hforward Hsmall. apply try_schedule_inv, check_eos_ok. Qed.

(** The task gives its node back and looks at it once more. *)
Lemma release_inv pr i w s s' :
  gathering pr i w s → tryScheduleNode (set_exec s i WAITING) i = Some s' →
  stream_inv (mkProgress (pr_flushing pr) None None) w s'.
Proof using Hweight Hforward Hsmall.
  intros (I & Ht & Hd) Hs. destruct (ni_task _ _ _ _ _ _ _ (si_nodes _ _ _ _ _ _ _ _ I) i Ht) as (n & Hn & _).
  apply view_lookup in Hn as (nd & Hi & ->). destruct (inv_at _ _ _ _ _ pr w s i nd I Hi) as (_ & _ & _ & Htask & _).
  destruct (Htask Ht) as [_ Hprop].
  assert (stream_inv (mkProgress (pr_flushing pr) None (Some i)) w (set_exec s i WAITING)) as I1.
  { eapply inv_set_exec; [exact I|exact Hi|by left|congruence|done|]. intros j Hj. rewrite Hd. done. }
  apply (try_inv _ w _ i s' I1); [by intros j [= ->]|exact Hs].
Qed.

Lemma gathering_quiet pr i w s s' : quiet s s' → gathering pr i w s → gathering pr i w s'.
Proof. intros Hq (I & ? & ?). split; [by eapply quiet_inv|done]. Qed.

Lemma success_inv pr i w s nd m s' :
  gathering pr i w s → handleNodeSuccess cg sched onEndOfStream elapsed s i nd m = Some s' →
  stream_inv (mkProgress (pr_flushing pr) None None) (w + weight_behind cg weight i) s'.
Proof using Hweight Hforward Hsmall.
  intros I. unfold handleNodeSuccess. set (s1 := if isSink cg i then _ else _).
  assert (gathering pr i w s1) as I1.
  { eapply gathering_quiet; [|exact I]. transitivity (upd_node s i (λ nd, nd_set_last_execution (nd_set_execution_count nd
      (wrap64 (nd_execution_count nd + 1))) (e_now s))); [by apply quiet_upd|]. unfold s1. destruct (isSink cg i); by apply quiet_nodes. }
  destruct (propagateOutputs _ _ _ _ s1 i m) as [s2|] eqn:Hp; [|done]. cbn [mbind option_bind].
  destruct I1 as (I1 & Ht & Hd). eapply propagate_outputs_inv in Hp; [|exact check_eos_ok|exact I1|exact Hd].
  destruct (trace_propagation_frame s2 nd m (e_now s1)) as [sink ->]. simpl. intros Hs. eapply release_inv; [|exact Hs].
  split; [|done]. eapply quiet_inv; [|exact Hp]. by apply quiet_nodes.
Qed.

Lemma failure_inv pr i w s s' :
  gathering pr i w s → handleNodeFailure cg sched onEndOfStream elapsed s i = Some s' →
  stream_inv (mkProgress (pr_flushing pr) None None) w s'.
Proof using Hweight Hforward Hsmall.
  intros I. unfold handleNodeFailure. destruct I as (I & Ht & Hd).
  destruct (live_parts s (si_live _ _ _ _ _ _ _ _ I)) as (Hst & _). simpl. rewrite Hst. intros Hs.
  eapply release_inv; [|exact Hs]. split; [|done]. eapply quiet_inv; [apply quiet_bump|exact I].
Qed.

Lemma processNode_quiet s nd m s' r : processNode process elapsed s nd m = (s', r) → quiet s s'.
Proof. unfold processNode. destruct (process _ _ _); intros [= <- _]; by apply quiet_nodes. Qed.

Lemma task_done_quiet s : live s = true → quiet s (task_done cg sched s).
Proof.
  intros (Hst & _)%live_parts. unfold task_done, checkCompletionAndNotify.
  change (e_streamingMode (add_active s (-1))) with (e_streamingMode s). rewrite Hst. by apply quiet_nodes.
Qed.

Lemma run_node_inv i w s nd m s' :
  gathering (mkProgress [] (Some i) None) i w s → run_node cfg cg sched process onEndOfStream elapsed s i nd m = Some s' →
  stream_inv idle (w + weight_behind cg weight i) s'.
Proof using Hweight Hforward Hsmall.
  intros I. unfold run_node, run_node_with. destruct (processNode _ _ _ _ _) as [s1 r] eqn:Hp. apply processNode_quiet in Hp.
  set (s2 := if ec_enable_statistics cfg then _ else _).
  assert (gathering (mkProgress [] (Some i) None) i w s2) as I2.
  { eapply gathering_quiet; [|exact I]. etrans; [apply (quiet_bump s)|]. etrans; [exact Hp|].
    unfold s2. set (t1 := emitTrace s1 _ _ _ _ _ _). transitivity t1; [by apply quiet_nodes|]. etrans; [apply (quiet_bump t1)|].
    destruct (ec_enable_statistics cfg); [by apply quiet_upd|done]. }
  pose proof I2 as (I2' & _). destruct (live_parts s2 (si_live _ _ _ _ _ _ _ _ I2')) as (_ & Hstop & _). rewrite Hstop.
  set (o := match r with Some _ => _ | None => _ end). destruct o as [s3|] eqn:Ho; [|done]. cbn [mbind option_bind].
  assert (stream_inv idle (w + weight_behind cg weight i) s3) as I3.
  { subst o. destruct r as [m'|].
    - eapply (success_inv (mkProgress [] (Some i) None) i w) in Ho; [exact Ho|]. eapply gathering_quiet; [|exact I2].
      etrans; [|unfold mark_processed; repeat case_match; try reflexivity; apply quiet_sync].
      unfold record_latency. repeat case_match; try reflexivity; by apply quiet_nodes.
    - eapply (failure_inv (mkProgress [] (Some i) None) i w) in Ho; [|exact I2]. eapply inv_weaken; [|exact Ho]. lia. }
  destruct (checkEos s3 i) as [[s4 b]|] eqn:Hc; [|done]. cbn [mbind option_bind]. intros [= <-].
  apply (checkEos_idle _ _ _ _ _ I3) in Hc. eapply quiet_inv; [|exact Hc]. apply task_done_quiet, Hc.
Qed.

Lemma task_inv w s i nd s' :
  stream_inv idle w s → stateByIndex s i = Some nd → nd_exec_state nd = READY →
  executeNodeTask cfg cg sched process onEndOfStream elapsed s i = Some s' →
  ∃ w', stream_inv idle w' s' ∧ (length (nd_input_ports nd) = 1 → w' < w).
Proof using Hweight Hforward Hsmall.
  intros I Hi Hr. unfold executeNodeTask, executeNodeTask_with. rewrite Hi, (not_stopping s (si_live _ _ _ _ _ _ _ _ I)).
  rewrite decide_False by (rewrite Hr; tauto). destruct (inv_at _ _ _ _ _ idle w s i nd I Hi) as ([_ Hsh] & Hset & Hp & _).
  assert (nd_eos_propagated nd = false) as Hprop by (destruct (nd_eos_propagated nd); [destruct (Hp eq_refl); congruence|done]).
  pose proof (inv_range _ _ _ _ _ _ _ _ _ _ I Hi) as Hrange. specialize (Hweight i Hrange) as Hwt.
  set (s1 := set_exec s i EXECUTING). set (pr := mkProgress [] (Some i) None).
  assert (gathering pr i w s1) as I1.
  { split; [|done]. apply (inv_set_exec _ _ _ _ _ idle w s i nd EXECUTING (Some i) None); [exact I|exact Hi|by right|by right|done|].
    intros j Hj. split; [done|]. by intros [= ->]. }
  assert (stateByIndex s1 i = Some (nd_set_exec_state nd EXECUTING)) as Hi1.
  { unfold stateByIndex, s1, set_exec, upd_node in *. simpl. by rewrite list_lookup_alter, decide_True, Hi by done. }
  destruct (gatherNodeInputs cfg s1 i) as [[g ok]|] eqn:Hg; [|done]. cbn [mbind option_bind].
  assert (∃ w1, gathering pr i w1 (ga_engine g) ∧ (length (nd_input_ports nd) = 1 → w1 + weight i ≤ w)) as (w1 & I2 & Hw1).
  { destruct (decide (length (nd_input_ports nd) = 1)) as [H1|H1].
    - simpl in Hsh. rewrite length_fmap, H1 in Hsh. destruct (nd_queues nd) as [|q [|]] eqn:Hq; try done.
      destruct (gather_single_inv pr i w s1 _ q g ok I1 Hi1 H1 Hq) as [Hle I2]; [|exact Hg|exists (w - weight i); split; [done|lia]].
      destruct Hset as [[Hd _]|Hset]; [done|]. unfold settled in Hset. simpl in Hset. rewrite Hr, Hq in Hset. specialize (Hset H1).
      simpl in Hset. intros He. by rewrite He in Hset.
    - exists w. split; [by eapply gather_inv|done]. }
  destruct ok.
  - intros Hs. eapply run_node_inv in Hs; [|exact I2]. exists (w1 + weight_behind cg weight i). split; [done|]. intros H1%Hw1. lia.
  - pose proof I2 as (I2' & _). destruct (live_parts _ (si_live _ _ _ _ _ _ _ _ I2')) as (Hst & Hstop & _).
    rewrite Hst, Hstop. cbn [andb negb]. destruct (ni_task _ _ _ _ _ _ _ (si_nodes _ _ _ _ _ _ _ _ I2') i eq_refl) as (n2 & Hn2 & _).
    apply view_lookup in Hn2 as (nd2 & Hi2 & ->). destruct (inv_at _ _ _ _ _ pr w1 _ i nd2 I2' Hi2) as (_ & _ & _ & Htask & _).
    destruct (Htask eq_refl) as [_ Hprop2].
    assert (stream_inv (due idle i) w1 (set_exec (ga_engine g) i WAITING)) as I3.
    { apply (inv_set_exec _ _ _ _ _ pr w1 _ i nd2 WAITING None (Some i)); [exact I2'|exact Hi2|by left|congruence|done|done]. }
    destruct (checkEos (set_exec (ga_engine g) i WAITING) i) as [[s2 b]|] eqn:Hc; [|done]. cbn [mbind option_bind].
    pose proof (check_eos_ok _ _ _ _ _ _ I3 (only_due_due idle i) Hc) as Hb.
    set (o := if b then _ else _). destruct o as [s3|] eqn:Ho; [|done]. cbn [mbind option_bind]. intros [= <-].
    assert (stream_inv idle w1 s3) as I4.
    { subst o. destruct b; [by injection Ho as <-|]. destruct Hb as [-> _]. exact (try_inv (due idle i) w1 _ i s3 I3 (only_due_due idle i) Ho). }
    exists w1. split; [eapply quiet_inv; [|exact I4]; apply task_done_quiet, I4|]. intros H1%Hw1. lia.
Qed.

(** ** Calls and timers *)

(** There is some bound on the work left. *)
Definition streaming s : Prop := ∃ w, stream_inv idle w s.

Lemma quiet_streaming s s' : quiet s s' → streaming s → streaming s'.
Proof. intros Hq [w I]. exists w. by eapply quiet_inv. Qed.

Lemma pushToQueue_inv w s i name x s' ok :
  stream_inv idle w s → pushToQueue s i name x = (s', ok) → ∃ w', stream_inv (if ok then due idle i else idle) w' s'.
Proof.
  intros I. unfold pushToQueue. destruct (stateByIndex s i) as [nd|]; [|intros [= <- <-]; by exists w].
  destruct (port_index _ _) as [k|]; [|intros [= <- <-]; by exists w]. destruct (queue_push s i k x) as [s1 b] eqn:Hp.
  pose proof (inv_push _ _ _ _ _ _ _ _ _ _ _ _ _ I eq_refl Hp) as I1.
  destruct b; intros [= <- <-]; eexists; (eapply quiet_inv; [|exact I1]); by apply quiet_nodes.
Qed.

Lemma schedule_pushed s i name x s1 (f : EngineStatistics → EngineStatistics) s2 :
  streaming s → pushToQueue s i name x = (s1, true) → tryScheduleNode (bump s1 f) i = Some s2 → streaming s2.
Proof using Hweight Hforward Hsmall.
  intros [w I] Hp Ht. destruct (pushToQueue_inv w s i name x s1 true I Hp) as [w1 I1]. exists w1.
  apply (try_inv (due idle i) w1 (bump s1 f) i s2); [|apply only_due_due|exact Ht]. eapply quiet_inv; [apply quiet_bump|exact I1].
Qed.

Lemma rejected_push s i name x s1 : streaming s → pushToQueue s i name x = (s1, false) → streaming s1.
Proof. intros [w I] Hp. exact (pushToQueue_inv w s i name x s1 false I Hp). Qed.

Lemma route_inv s p port x s' r :
  streaming s → routeToDownstream deref cg sched onEndOfStream elapsed s p port x = Some (s', r) → streaming s'.
Proof using Hweight Hforward Hsmall.
  intros I. unfold routeToDownstream. destruct (indexOfPtr cg p) as [i|]; [|by intros [= <- _]].
  destruct (foldl _ _ _) as [[s1 [[a b] c]]|] eqn:Hf; [|done]. cbn [mbind option_bind]. intros [= <- _].
  enough (∀ l s z s1 z1, streaming s → foldl (route_edge cg sched onEndOfStream elapsed port x) (Some (s, z)) l = Some (s1, z1) →
    streaming s1) as Hall by (by eapply Hall). clear I Hf s s1 a b c r.
  intros l. induction l as [|e l IH]; intros s z s1 z1 I Hf; cbn [foldl] in Hf; [by injection Hf as <- _|].
  destruct (route_edge _ _ _ _ port x (Some (s, z)) e) as [[s2 z2]|] eqn:He.
  - apply (IH s2 z2 s1 z1); [|exact Hf]. unfold route_edge in He. destruct z as [[a b] c]. cbn [mbind option_bind] in He.
    case_decide; [by simplify_eq|]. destruct (stateByIndex s _); [|by simplify_eq].
    destruct (pushToQueue s _ _ x) as [s3 []] eqn:Hp; [|simplify_eq; by eapply rejected_push].
    destruct (tryScheduleNode _ _) as [s4|] eqn:Ht; [|done]. cbn [mbind option_bind] in He. simplify_eq.
    eapply schedule_pushed; [exact I|exact Hp|exact Ht].
  - exfalso. clear IH He. induction l; simpl in Hf; [done|auto].
Qed.

Lemma pushInput_inv s src port x s' r :
  streaming s → pushInput deref cfg cg sched onEndOfStream elapsed s src port x = Some (s', r) → streaming s'.
Proof using Hweight Hforward Hsmall.
  intros I. unfold pushInput. destruct (negb _ && _); [by intros [= <- _]|].
  destruct (stateByName _ _ _) as [i|]; [|by intros [= <- _]]. destruct (stateByIndex s i) as [nd|]; [|by intros [= <- _]].
  case_decide; [by intros [= <- _]|]. destruct (isInputPort _ _ _).
  - destruct (match port_index _ _ with Some _ => _ | None => _ end); [by intros [= <- _]|].
    destruct (stampIncomingFrame cfg s x) as [s1 x1] eqn:Hst.
    assert (quiet s s1) as Hq by (unfold stampIncomingFrame in Hst; repeat case_match; simplify_eq; by apply quiet_nodes).
    apply (quiet_streaming s s1 Hq) in I. destruct (pushToQueue s1 _ _ x1) as [s2 []] eqn:Hp.
    + destruct (tryScheduleNode _ _) as [s3|] eqn:Ht; [|done]. cbn [mbind option_bind]. intros [= <- _].
      eapply schedule_pushed; [exact I|exact Hp|exact Ht].
    + intros [= <- _]. by eapply rejected_push.
  - destruct (isOutputPort _ _ _); [by apply route_inv|by intros [= <- _]].
Qed.

(** A latch set by the caller. *)
Lemma caller_latch_inv w s i nd k : stream_inv idle w s → stateByIndex s i = Some nd → k < k_max_eos_ports →
  ∃ d, stream_inv (mkProgress [] None d) w (upd_node s i (λ nd, latch nd k)) ∧ only_due (mkProgress [] None d) i.
Proof.
  intros I Hi Hk. destruct (inv_at _ _ _ _ _ _ w s i nd I Hi) as (_ & [[Hd _]|Hset] & Hp & _ & Hdf & _); [done|].
  exists (if decide (nd_exec_state nd = WAITING) then Some i else None). split.
  - apply (inv_change _ _ _ _ _ idle w s i nd _ None _ w I Hi); [|done|done]. split; try done.
    + intros k' Hl. rewrite latched_latch by done. rewrite Hl. apply orb_true_r.
    + case_decide; [by left|right]. unfold settled in *. simpl in *. by destruct (nd_exec_state nd).
  - intros j. simpl. case_decide; [by intros [= ->]|done].
Qed.

Lemma signal_inv s src port s' r :
  streaming s → signalEndOfStream cg sched onEndOfStream elapsed s src port = Some (s', r) → streaming s'.
Proof using Hweight Hforward Hsmall.
  intros [w I]. assert (streaming s) as I0 by (by exists w). unfold signalEndOfStream. destruct (negb _); [by intros [= <- _]|].
  destruct (stateByName _ _ _) as [i|]; [|by intros [= <- _]]. destruct (stateByIndex s i) as [nd|] eqn:Hi; [|by intros [= <- _]].
  destruct (nd_input_ports nd) as [|first l]; [by intros [= <- _]|]. destruct (port_index _ _) as [k|]; [|by intros [= <- _]].
  case_decide; [by intros [= <- _]|]. destruct (portEosLatched nd k); [by intros [= <- _]|].
  destruct (caller_latch_inv w s i nd k I Hi) as (d & I1 & Hd); [lia|].
  destruct (checkEos _ i) as [[s2 b]|] eqn:Hc; [|done]. cbn [mbind option_bind].
  pose proof (check_eos_ok _ _ _ _ _ _ I1 Hd Hc) as Hb. set (o := if b then _ else _). destruct o as [s3|] eqn:Ho; [|done].
  cbn [mbind option_bind]. intros [= <- _]. exists w. subst o. destruct b; [by injection Ho as <-|]. destruct Hb as [-> _].
  exact (try_inv _ w _ i s3 I1 Hd Ho).
Qed.

Lemma defer_fire_inv s k s' : streaming s → defer_fire cg sched onEndOfStream elapsed s k = Some s' → streaming s'.
Proof using Hweight Hforward Hsmall.
  intros [w I]. assert (streaming s) as I0 by (by exists w). unfold defer_fire.
  destruct (e_deferQueue s !! k) as [[d i]|] eqn:Hk; [|by intros [= <-]]. case_decide; [|by intros [= <-]].
  set (l := delete k (e_deferQueue s)).
  assert (∀ j nd, stateByIndex s j = Some nd → nd_defer_pending nd = true → j ≠ i → j ∈ l.*2) as Hl.
  { intros j nd Hj Hpend Hne. destruct (inv_at _ _ _ _ _ _ w s j nd I Hj) as (_ & _ & _ & _ & Hdf & _).
    destruct (Hdf Hpend) as [_ Hin]. unfold l. rewrite (delete_Permutation _ _ _ Hk) in Hin. simpl in Hin. set_solver. }
  change (stateByIndex (e_set_deferQueue s l) i) with (stateByIndex s i). destruct (stateByIndex s i) as [nd|] eqn:Hi.
  - intros Ht. exists w. destruct (inv_at _ _ _ _ _ _ w s i nd I Hi) as (_ & [[Hd _]|Hset] & Hp & _ & Hdf & _); [done|].
    set (f := λ nd, nd_set_defer_pending nd false). set (x := if decide (nd_exec_state nd = WAITING) then Some i else None).
    assert (stream_inv (mkProgress [] None x) w (upd_node s i f)) as I1.
    { apply (inv_change _ _ _ _ _ idle w s i nd f None x w I Hi); [|done|done]. split; try done. unfold x.
      case_decide; [by left|right]. unfold settled in *. simpl in *. by destruct (nd_exec_state nd). }
    apply (try_inv (mkProgress [] None x) w (upd_node (e_set_deferQueue s l) i f) i s'); [|unfold x; intros j; simpl; case_decide; [by intros [= ->]|done]|exact Ht].
    apply (inv_deferQueue _ _ _ _ _ _ _ _ l I1). intros j nd' Hj Hpend.
    destruct (decide (j = i)) as [->|Hne].
    + unfold stateByIndex, upd_node in Hj, Hi. simpl in Hj. rewrite list_lookup_alter, decide_True, Hi in Hj by done. by injection Hj as <-.
    + apply (Hl j nd'); [|done|done]. unfold stateByIndex, upd_node in *. simpl in Hj. by rewrite list_lookup_alter, decide_False in Hj by done.
  - intros [= <-]. exists w. apply (inv_deferQueue _ _ _ _ _ _ _ _ l I). intros j nd' Hj Hpend.
    apply (Hl j nd'); [done|done|]. congruence.
Qed.

Lemma watchdog_node_inv s i nd :
  streaming s → stateByIndex s i = Some nd → length (nd_input_ports nd) ≠ 1 → streaming (watchdog_node cfg cg sched s i).
Proof.
  intros I Hi Hne. unfold watchdog_node. rewrite Hi. case_decide; [eapply quiet_streaming; [|exact I]; by apply quiet_upd|].
  case_decide; [eapply quiet_streaming; [|exact I]; by apply quiet_upd|]. case_decide; [done|].
  set (f := λ nd, nd_set_degrade_pending (nd_set_join_wait_since nd (e_now s)) true).
  apply (quiet_streaming s (upd_node s i f)) in I as [w I]; [|by apply quiet_upd].
  assert (stateByIndex (upd_node s i f) i = Some (f nd)) as Hi'.
  { unfold stateByIndex, upd_node in *. simpl. by rewrite list_lookup_alter, decide_True, Hi by done. }
  exists w. destruct (decide (nd_exec_state nd = WAITING)) as [Hw|Hw].
  - exact (inv_schedule _ _ _ _ _ idle w _ i (f nd) I (only_due_none idle i eq_refl) Hi' Hw (λ H1, False_ind _ (Hne H1))).
  - unfold scheduleNodeExecution. rewrite Hi', decide_True by done. exact I.
Qed.

Lemma watchdog_inv s : streaming s → streaming (watchdog_scan cfg cg sched s).
Proof.
  intros I. unfold watchdog_scan. destruct (e_stopFlag s); [done|]. set (l := filter _ _).
  assert (∀ i, i ∈ l → ∃ nd, stateByIndex s i = Some nd ∧ length (nd_input_ports nd) ≠ 1) as Hl.
  { intros i [Hm _]%list_elem_of_filter. destruct (stateByIndex s i) as [nd|] eqn:Hi; [|done]. apply bool_decide_eq_true in Hm.
    exists nd. split; [done|lia]. }
  clearbody l. revert s I Hl. induction l as [|i l IH]; intros s I Hl; [done|]. simpl.
  destruct (Hl i) as (nd & Hi & Hne); [by left|]. pose proof (watchdog_node_inv s i nd I Hi Hne) as I1. apply IH; [exact I1|].
  intros j Hj. destruct (Hl j) as (ndj & Hndj & Hnej); [by right|]. destruct I as [w I]. destruct I1 as [w1 I1].
  destruct (inv_node _ _ _ _ _ _ _ _ _ I1 (inv_range _ _ _ _ _ _ _ _ _ _ I Hndj)) as [nd' Hnd']. exists nd'. split; [done|].
  destruct (inv_at _ _ _ _ _ _ _ _ _ _ I1 Hnd') as ([H1 _] & _). destruct (inv_at _ _ _ _ _ _ _ _ _ _ I Hndj) as ([H0 _] & _).
  simpl in H0, H1. congruence.
Qed.
End Runs.
