(* ===== verification/StreamCorrect.v ===== *)
(** * The end of a stream

    When the sources of a running stream are closed, the end of the stream is reached
    after finitely many tasks, whatever the schedule, if no node has more than one input
    port.  With joins, the engine comes to rest at the end of the stream or with packets
    in a join that nobody schedules: [stalled_join] shows that this happens. *)

From S2P Require Import Prelude Errors Packets Kahn Graphs CompiledGraphs MpmcQueue NodeQueue FrameAlignment.
From S2P Require Import SyncCoordinator JoinAwareSync ExecutionTypes Schedulers EngineCore EngineGather Dataflow Engine.
From S2P Require Import NodeLifecycle EngineSim EngineTermination EngineRuns EngineCorrect BatchRun BatchCorrect StreamInv StreamRuns.
Local Open Scope string_scope.
Local Open Scope list_scope.
Local Open Scope nat_scope.

(** ** Weights *)

Section Weights.
Context `{CppTypes} (deref : NodePtr → ILogicNode) (cg : CompiledGraph) (G : dag_ok deref cg).
Notation N := (length (cg_nodes cg)).

Definition position (i : nat) : nat := default 0 (fst <$> list_find (λ j, j = i) (cg_topoOrder cg)).

Lemma position_at a i : cg_topoOrder cg !! a = Some i → position i = a.
Proof using G.
  intros Ha. unfold position. destruct (list_find _ _) as [[b j]|] eqn:Hf.
  - apply list_find_Some in Hf as (Hb & -> & _). simpl. eapply NoDup_lookup; [|exact Hb|exact Ha].
    rewrite (dg_topo _ _ G). apply NoDup_seq.
  - exfalso. eapply Forall_lookup_1 in Ha; [|by apply list_find_None in Hf]. done.
Qed.

Lemma topo_position i : i < N → cg_topoOrder cg !! position i = Some i.
Proof using G.
  intros Hi. assert (i ∈ cg_topoOrder cg) as Hin by (rewrite (dg_topo _ _ G); apply elem_of_seq; lia).
  apply list_elem_of_lookup in Hin as [a Ha]. by rewrite (position_at a i Ha).
Qed.

(** More than the number of edges of any node. *)
Definition base : nat := S (S (sum_list ((λ i, length (outEdges cg i)) <$> seq 0 N))).

Definition weight (i : nat) : nat := base ^ (N - position i).

Lemma degree_bound i : i < N → S (length (outEdges cg i)) < base.
Proof.
  intros Hi. unfold base. enough (length (outEdges cg i) ≤ sum_list ((λ i, length (outEdges cg i)) <$> seq 0 N)) by lia.
  assert (i ∈ seq 0 N) as Hin by (apply elem_of_seq; lia). induction (seq 0 N) as [|j l IH]; [by apply not_elem_of_nil in Hin|].
  rewrite fmap_cons. simpl. apply elem_of_cons in Hin as [->|Hin%IH]; lia.
Qed.

Lemma weight_decreases i : i < N → S (weight_behind cg weight i) ≤ weight i.
Proof using G.
  intros Hi. assert (position i < N) as Hp.
  { pose proof (topo_position i Hi) as Ht. apply lookup_lt_Some in Ht. by rewrite (dg_topo _ _ G), length_seq in Ht. }
  set (d := N - position i - 1). assert (weight i = base * base ^ d) as Hw.
  { unfold weight. replace (N - position i) with (S d) by lia. done. }
  assert (1 ≤ base ^ d) as H1 by (apply Nat.neq_0_lt_0, Nat.pow_nonzero; done).
  assert (∀ e, e ∈ outEdges cg i → weight (oe_dest_node e) ≤ base ^ d) as He.
  { intros e He. destruct (dg_forward _ _ G i e Hi He) as (Hd & (a & b & Ha & Hb & Hab) & _).
    unfold weight. apply Nat.pow_le_mono_r; [done|]. unfold d. rewrite (position_at b _ Hb), (position_at a _ Ha). lia. }
  assert (∀ l, (∀ e, e ∈ l → weight (oe_dest_node e) ≤ base ^ d) →
    sum_list ((λ e, weight (oe_dest_node e)) <$> l) ≤ length l * base ^ d) as Hsum.
  { intros l. induction l as [|e l IH]; intros Hl; [done|]. rewrite fmap_cons. simpl.
    specialize (IH ltac:(intros; apply Hl; by right)). specialize (Hl e ltac:(by left)). lia. }
  specialize (Hsum _ He). pose proof (degree_bound i Hi). unfold weight_behind. rewrite Hw. nia.
Qed.

(** The last node of the order is a sink. *)
Lemma has_sink : sinks cg ≠ [].
Proof using G.
  pose proof (dg_topo _ _ G) as Ht. assert (0 < N) as HN by (pose proof (dg_nonempty _ _ G); destruct (cg_nodes cg); simpl; [done|lia]).
  assert (length (cg_topoOrder cg) = N) as Hl by (by rewrite Ht, length_seq).
  destruct (lookup_lt_is_Some_2 (cg_topoOrder cg) (N - 1)) as [i Hi]; [lia|].
  assert (i < N) as HiN by (apply list_elem_of_lookup_2 in Hi; rewrite Ht, elem_of_seq in Hi; lia).
  enough (i ∈ sinks cg) as Hin by (intros Hnil; rewrite Hnil in Hin; by apply not_elem_of_nil in Hin).
  apply list_elem_of_filter. split; [|apply elem_of_seq; lia]. apply bool_decide_eq_true.
  destruct (outEdges cg i) as [|e l] eqn:He; [done|exfalso].
  destruct (dg_forward _ _ G i e HiN) as (_ & (a & b & Ha & Hb & Hab) & _); [rewrite He; by left|].
  pose proof (position_at _ _ Ha). pose proof (position_at _ _ Hi). apply lookup_lt_Some in Hb. lia.
Qed.
End Weights.

Section Streams.
Context `{CppTypes} {Q Sy : Type} `{!PortQueue Q, !PortQueueLaws Q, !SyncStrategy Sy}.
Context (deref : NodePtr → ILogicNode) (cfg : EngineConfig).
Context (process : list Event → NodePtr → PortDataMap → Outcome).
Context (onEndOfStream : list Event → NodePtr → Outcome) (elapsed : list Event → Z).
Context (setup : list Event → NodePtr → VoidResult + option string).
Notation Engine := (Engine Q Sy).
Notation sched := (scheduler_for cfg STREAM).
Notation run cg := (engine_run deref cfg cg sched process onEndOfStream elapsed).
Notation run_task cg := (run_task cfg cg sched process onEndOfStream elapsed).
Implicit Types (s : Engine) (cg : CompiledGraph).

(** ** Starting *)

(** An engine for a compiled graph on which streaming was started, with the scheduler
    [configureForMode] makes for streams. *)
Definition stream_started cg s : Prop :=
  ∃ g qcs sync now context,
    rtc (graph_step deref) empty_graph g ∧ (Z.of_nat (length (m_nodes g)) < u32_mod)%Z ∧ compile deref g = Some (ROk cg) ∧
    (∀ name port, (qc_capacity (port_queue_config cfg qcs name port) ≤ 2 ^ 63)%Z) ∧
    startStreaming deref cg sched setup (initialized deref cfg qcs cg sync now) context = (s, void_ok).

Lemma setup_frame cg s s' r : setupNodes deref cg setup s = (s', r) → ∃ nodes log, s' = e_set_log (e_set_setUpNodes s nodes) log.
Proof.
  unfold setupNodes. destruct (e_setUpNodes s) as [|p l] eqn:He; [|intros [= <- _]; exists (e_setUpNodes s), (e_log s); by destruct s].
  clear He. generalize (cg_topoOrder cg). intros order. revert s. induction order as [|i order IH]; intros s; cbn [setup_loop].
  { intros [= <- _]. exists (e_setUpNodes s), (e_log s). by destruct s. }
  destruct (cg_node cg i) as [p|]; [|apply IH]. case_match.
  - intros (nodes & log & ->)%IH. by exists nodes, log.
  - intros [= <- _]. unfold teardownNodes. generalize (rev (e_setUpNodes (observe s (EvSetup p)))). intros l.
    assert (∀ s, foldl (λ s p, observe s (EvTeardown p)) s l = e_set_log s (e_log (foldl (λ s p, observe s (EvTeardown p)) s l))) as Hf.
    { induction l as [|q l IHl]; intros s0; [by destruct s0|]. simpl. rewrite IHl. done. }
    rewrite Hf. by eexists _, _.
Qed.

Section Graph.
Context (cg : CompiledGraph) (G : dag_ok deref cg) (Hsmall : (Z.of_nat (length (cg_nodes cg)) < u64_mod)%Z).
Notation N := (length (cg_nodes cg)).
Notation stream_inv := (stream_inv deref cfg cg (weight cg)).
Notation streaming := (streaming deref cfg cg (weight cg)).

Lemma weight_ok i : i < N → S (weight_behind cg (weight cg) i) ≤ weight cg i.
Proof using G. by eapply weight_decreases. Qed.

Lemma forward_ok i e : i < N → e ∈ outEdges cg i → oe_dest_node e < N.
Proof using G. intros Hi He. by apply (dg_forward _ _ G i e Hi He). Qed.

Lemma initial_inv qcs sync now context s :
  (∀ name port, (qc_capacity (port_queue_config cfg qcs name port) ≤ 2 ^ 63)%Z) →
  startStreaming deref cg sched setup (initialized deref cfg qcs cg sync now) context = (s, void_ok) → streaming [] s.
Proof using G.
  intros Hcap. unfold startStreaming. rewrite decide_False by (by intros Hn; apply Hn). cbn [supportsStreaming scheduler_for negb].
  destruct (setupNodes _ _ _ _) as [s1 r] eqn:Hset. apply setup_frame in Hset as (nodes & log & ->).
  destruct (void_isOk r) eqn:Hok; cbn [negb]; [|intros [= _ ->]; done]. intros [= <-].
  set (s0 := e_set_statistics _ _).
  assert (∀ j n, sv_nodes (sview s0) !! j = Some n →
    n = mkSNode (length (node_ports deref cg j)) WAITING false 0 (replicate (length (node_ports deref cg j)) 0) false) as Hn.
  { intros j n Hj. apply view_lookup in Hj as (nd & Hj & ->). unfold stateByIndex, s0 in Hj.
    assert (initializeNodeStates (Q := Q) deref cfg qcs cg sync !! j = Some nd) as Hnd by (by destruct context). clear Hj.
    unfold initializeNodeStates in Hnd. rewrite list_lookup_imap in Hnd. apply fmap_Some in Hnd as (p & Hp & ->).
    unfold view_node, node_ports. rewrite Hp. simpl. f_equal. unfold initializeQueues. rewrite <-list_fmap_compose.
    apply list_eq. intros k. rewrite list_lookup_fmap. destruct (getExpectedInputPorts (deref p) !! k) as [port|] eqn:Hk; simpl.
    - destruct (pq_new_spec _ (Hcap (getName (deref p)) port)) as [_ ->]. symmetry. apply lookup_replicate_2. by eapply lookup_lt_Some.
    - symmetry. apply lookup_replicate_None. by apply lookup_ge_None. }
  assert (length (sv_nodes (sview s0)) = N) as Hlen.
  { unfold s0. destruct context; simpl; rewrite length_fmap; apply length_imap. }
  assert (∀ j, flushed (sv_nodes (sview s0)) j = false) as Hfl.
  { intros j. unfold flushed. destruct (sv_nodes (sview s0) !! j) as [n|] eqn:Hj; [|done]. by rewrite (Hn j n Hj). }
  eexists. split; [| | | | |reflexivity].
  - unfold s0. by destruct context.
  - assert (Forall (λ nd, Forall pq_ok (nd_queues nd)) (initializeNodeStates (Q := Q) deref cfg qcs cg sync)) as Hq.
    { apply Forall_lookup. intros j nd. unfold initializeNodeStates. rewrite list_lookup_imap. intros (p & Hp & ->)%fmap_Some.
      simpl. unfold initializeQueues. apply Forall_fmap, Forall_forall. intros port _. apply pq_new_spec, Hcap. }
    unfold s0, queues_ok. by destruct context.
  - split; cbn [pr_due pr_task pr_flushing idle]; try done.
    + intros j n ->%Hn. simpl. by rewrite length_replicate.
    + intros j n ->%Hn. right. unfold settled. simpl. split.
      * unfold sn_drained. simpl. by destruct (length (node_ports deref cg j)).
      * by intros -> _.
    + intros j n ->%Hn. done.
    + intros j n ->%Hn. done.
    + intros j Hj. by apply not_elem_of_nil in Hj.
    + intros j e k. by rewrite Hfl.
    + intros j k Hj. by apply not_elem_of_nil in Hj.
  - assert (sinks_done cg idle (sv_nodes (sview s0)) = 0) as ->; [|by unfold s0; destruct context].
    unfold sinks_done. rewrite (list_filter_iff _ (λ _, False)); [|intros j; rewrite Hfl; by split; [intros []|intros []]].
    induction (sinks cg) as [|x l IH]; [done|]. rewrite filter_cons, decide_False by (by intros []). exact IH.
  - intros Heq Hne. exfalso. unfold s0 in Heq. destruct (sinks cg); [done|]. destruct context; simpl in Heq; lia.
Qed.

(** ** Running *)

(** Operations other than stopping and cancelling. *)
Definition keeps_running (op : EngineOp) : Prop := match op with OpStop | OpCancel => False | _ => True end.

Lemma op_streaming known s op s' :
  streaming known s → lifecycle_inv (abs no_ghost s) → keeps_running op →
  engine_op deref cfg cg sched process onEndOfStream elapsed s op = Some s' → streaming known s'.
Proof using G Hsmall.
  intros I L Hk. destruct op as [k|node port x|node port|k| | | |ns]; simpl; intros Ho; try done.
  - unfold run_task in Ho. destruct (e_pool s !! k) as [i|] eqn:Hp; [|by injection Ho as <-].
    destruct (posted_node _ _ _ _ L Hp) as (nd & Hi & Hr). destruct I as [w I].
    destruct (task_inv deref cfg cg (weight cg) known weight_ok forward_ok Hsmall process onEndOfStream elapsed w
      (pick_up cfg s k i) i nd s') as (w' & I' & _);
      [|by destruct (pick_up_frame cfg s k i) as (? & ? & ->)|done|done|by exists w'].
    destruct (pick_up_frame cfg s k i) as (? & ? & ->).
    eapply quiet_inv; [|exact I]. by apply quiet_nodes.
  - apply fst_fmap_Some in Ho as [r Ho]. eapply (pushInput_inv deref cfg cg (weight cg) known weight_ok forward_ok Hsmall); eauto.
  - apply fst_fmap_Some in Ho as [r Ho]. eapply (signal_inv deref cfg cg (weight cg) known weight_ok forward_ok Hsmall); eauto.
  - eapply (defer_fire_inv deref cfg cg (weight cg) known weight_ok forward_ok Hsmall); eauto.
  - injection Ho as <-. by apply watchdog_inv.
  - injection Ho as <-. eapply quiet_streaming; [|exact I]. by apply quiet_nodes.
Qed.

Lemma run_streaming known s ops s' :
  streaming known s → lifecycle_inv (abs no_ghost s) → Forall keeps_running ops → run cg s ops = Some s' →
  streaming known s' ∧ lifecycle_inv (abs no_ghost s').
Proof using G Hsmall.
  intros I L Hk. revert s I L. induction Hk as [|op ops Hop Hops IH]; intros s I L; simpl; [by intros [= <-]|].
  destruct (engine_op _ _ _ _ _ _ _ s op) as [s1|] eqn:Ho; [|done]. simpl. apply IH; [by eapply op_streaming|].
  eapply vsteps_inv; [by eapply engine_op_steps|done].
Qed.

(** ** At rest *)

(** Every input port of every source has been closed. *)
Definition sources_closed s : Prop :=
  ∀ j nd k, isSource cg j = true → stateByIndex s j = Some nd → k < length (nd_input_ports nd) → portEosLatched nd k = true.

(** A join that has not reached its end holds a packet, though all its ports are closed. *)
Definition stalled s : Prop :=
  ∃ j nd, stateByIndex s j = Some nd ∧ nd_eos_propagated nd = false ∧ 1 < length (nd_input_ports nd) ∧
    (∀ k, k < length (nd_input_ports nd) → portEosLatched nd k = true) ∧ Exists (λ q, pq_size q ≠ 0%Z) (nd_queues nd).

(** No retry is under way. *)
Definition no_retry s : Prop := e_deferQueue s = [] ∨ (ec_min_execution_interval_ms cfg ≤ 0)%Z.

Lemma latched_view nd k : portEosLatched nd k = sn_latched (view_node nd) k.
Proof. done. Qed.

(** A node all of whose ports are closed has been flushed, or is stalled. *)
Lemma closed_node_flushed w s j nd :
  stream_inv [] idle w s → lifecycle_inv (abs no_ghost s) → e_pool s = [] → no_retry s → stateByIndex s j = Some nd →
  0 < length (nd_input_ports nd) → (∀ k, k < length (nd_input_ports nd) → portEosLatched nd k = true) →
  nd_eos_propagated nd = true ∨ stalled s.
Proof.
  intros I L Hp Hretry Hj Hpos Hlat. destruct (nd_eos_propagated nd) eqn:Hprop; [by left|right].
  destruct (inv_at _ _ _ _ _ _ _ _ _ _ I Hj) as ([_ Hsh] & [[Hd _]|Hset] & _ & _ & Hdf & _); [done|].
  pose proof (li_owner _ L) as O. simpl in O. pose proof (lookup_abs s j nd Hj) as Hv.
  pose proof (oi_ready _ _ _ _ O j _ Hv) as Hr. pose proof (oi_exec _ _ _ _ O j _ Hv) as He. simpl in Hr, He. rewrite Hp in Hr.
  unfold settled in Hset. simpl in Hset. destruct (nd_exec_state nd); [|by destruct (not_elem_of_nil j (proj1 Hr eq_refl))
    |by destruct (not_elem_of_nil j (proj1 He eq_refl))|congruence|done].
  destruct Hset as [Hdr Hone].
  assert (Exists (λ q, pq_size q ≠ 0%Z) (nd_queues nd)) as Hex.
  { apply dec_stable. intros Hn. apply not_Exists_Forall in Hn; [|intros q; solve_decision]. 
    unfold sn_drained in Hdr. simpl in Hdr. rewrite bool_decide_eq_false_2 in Hdr by lia. simpl in Hdr.
    apply not_true_iff_false in Hdr. apply Hdr, forallb_forall. intros k Hk. apply in_seq in Hk. rewrite <-latched_view, Hlat by lia. simpl.
    apply bool_decide_eq_true. rewrite list_lookup_fmap. destruct (nd_queues nd !! k) as [q|] eqn:Hq; [|done]. simpl.
    apply (Forall_lookup_1 _ _ _ _ Hn) in Hq. apply dec_stable in Hq. rewrite pq_size_spec in Hq. lia. }
  exists j, nd. split_and!; try done. destruct (decide (length (nd_input_ports nd) = 1)) as [H1|]; [|lia]. exfalso.
  destruct (nd_defer_pending nd) eqn:Hpend.
  - destruct (Hdf eq_refl) as [Hrate Hin]. destruct Hretry as [Hnil|]; [|lia]. rewrite Hnil in Hin. by apply not_elem_of_nil in Hin.
  - specialize (Hone H1 eq_refl). apply Exists_exists in Hex as (q & Hq & Hne). apply list_elem_of_lookup in Hq as [k Hk].
    assert (((λ q, length (pq_items q)) <$> nd_queues nd) !! k = Some (length (pq_items q))) as Hl by (by rewrite list_lookup_fmap, Hk).
    rewrite Hone in Hl. destruct k; [|done]. injection Hl as Hl. rewrite pq_size_spec in Hne. lia.
Qed.

(** By topological order, the whole graph has been flushed. *)
Lemma rest_flushed w s :
  stream_inv [] idle w s → lifecycle_inv (abs no_ghost s) → e_pool s = [] → no_retry s → sources_closed s →
  (∀ j, j < N → 0 < length (node_ports deref cg j) ≤ k_max_eos_ports) →
  (∀ j, j < N → flushed (sv_nodes (sview s)) j = true) ∨ stalled s.
Proof using G.
  intros I L Hp Hretry Hsrc Hports.
  enough (∀ a, (∀ b j, b < a → cg_topoOrder cg !! b = Some j → flushed (sv_nodes (sview s)) j = true) ∨ stalled s) as Hall.
  { destruct (Hall N) as [Hall'|]; [left|by right]. intros j Hj. pose proof (topo_position deref cg G j Hj) as Ht.
    apply (Hall' (position cg j) j); [|done]. apply lookup_lt_Some in Ht. by rewrite (dg_topo _ _ G), length_seq in Ht. }
  induction a as [|a [IH|]]; [left; lia| |by right].
  destruct (cg_topoOrder cg !! a) as [j|] eqn:Ha.
  2:{ left. intros b j Hb Hj. apply (IH b j); [|done]. destruct (decide (b = a)); [congruence|lia]. }
  assert (j < N) as HjN by (apply list_elem_of_lookup_2 in Ha; rewrite (dg_topo _ _ G), elem_of_seq in Ha; lia).
  destruct (inv_node _ _ _ _ _ _ _ _ _ I HjN) as [nd Hj]. destruct (inv_at _ _ _ _ _ _ _ _ _ _ I Hj) as ([Hsh _] & _).
  simpl in Hsh. destruct (closed_node_flushed w s j nd I L Hp Hretry Hj) as [Hf|]; [rewrite Hsh; by apply Hports| |left|by right].
  - intros k Hk. destruct (isSource cg j) eqn:Hs; [by eapply Hsrc|]. rewrite Hsh in Hk.
    destruct (dg_fed _ _ G j k HjN Hs Hk) as (i & e & Hi & He & Hd & Hx).
    destruct (dg_forward _ _ G i e Hi He) as (_ & (b & c & Hb & Hc & Hbc) & _). rewrite Hd in Hc.
    assert (c = a) as -> by (rewrite <-(position_at deref cg G _ _ Hc); by apply (position_at deref cg G)).
    destruct (ni_closed _ _ _ _ _ _ _ (si_nodes _ _ _ _ _ _ _ _ I) i e k (IH b i Hbc Hb) He Hx) as [(es & Hes & _)|(d & Hdd & Hl)].
    + specialize (Hports j HjN). lia.
    + by apply not_elem_of_nil in Hes.
    + rewrite Hd in Hdd. rewrite (lookup_view s j nd Hj) in Hdd. by injection Hdd as <-.
  - intros b j' Hb Hj'. destruct (decide (b = a)) as [->|]; [|apply (IH b j'); [lia|done]]. rewrite Ha in Hj'. injection Hj' as <-.
    unfold flushed. by rewrite (lookup_view s j nd Hj).
Qed.

Lemma flushed_reached w s known :
  stream_inv known idle w s → (∀ j, j < N → flushed (sv_nodes (sview s)) j = true) → e_endOfStreamReached s = true.
Proof using G.
  intros I Hall. apply (si_eos _ _ _ _ _ _ _ _ I); [|by eapply has_sink]. rewrite (si_sinks _ _ _ _ _ _ _ _ I). f_equal.
  unfold sinks_done. rewrite (filter_ext_elem _ (λ _, True)).
  - induction (sinks cg) as [|x l IH]; [done|]. rewrite filter_cons, decide_True by done. simpl. by f_equal.
  - intros j Hj. apply list_elem_of_filter in Hj as [_ Hj%elem_of_seq]. split; [done|]. intros _. split; [apply Hall; lia|].
    apply not_elem_of_nil.
Qed.

(** Once the end is reached, its callback has been called once and a wait is over. *)
Lemma reached_reported s : lifecycle_inv (abs no_ghost s) → e_endOfStreamReached s = true →
  length (filter (λ ev, mark_of ev = Some MEndOfStream) (e_log s)) = 1 ∧ ∀ timed_out, waitForEndOfStream s timed_out = void_ok.
Proof.
  intros L He. split; [|intros b; unfold waitForEndOfStream; by rewrite He]. pose proof (li_eos _ L) as Hm. simpl in Hm. rewrite He in Hm.
  by rewrite <-count_marks.
Qed.

(** ** Workers at work *)

(** Workers take posted tasks, one after the other, in an order given by [picks]. *)
Fixpoint serve s (picks : list nat) : option Engine :=
  match picks with
  | [] => Some s
  | k :: rest => s' ← run_task cg s (k mod length (e_pool s)); serve s' rest
  end.

Lemma run_task_idle s k : e_pool s = [] → run_task cg s k = Some s.
Proof. intros Hp. unfold Engine.run_task. by rewrite Hp. Qed.

Lemma serve_idle s picks : e_pool s = [] → serve s picks = Some s.
Proof. intros Hp. induction picks as [|k picks IH]; cbn [serve]; [done|]. by rewrite run_task_idle. Qed.

Lemma serve_app s picks picks' : serve s (picks ++ picks') = s' ← serve s picks; serve s' picks'.
Proof. revert s. induction picks as [|k picks IH]; intros s; cbn [serve app]; [done|]. destruct (run_task cg s _); simpl; [apply IH|done]. Qed.

Lemma single_tasks_end known w s picks :
  (∀ j, j < N → length (node_ports deref cg j) = 1) → stream_inv known idle w s → lifecycle_inv (abs no_ghost s) →
  w ≤ length picks →
  ∃ s' w', serve s picks = Some s' ∧ e_pool s' = [] ∧ stream_inv known idle w' s' ∧ lifecycle_inv (abs no_ghost s').
Proof using G Hsmall.
  intros Hone. revert w s. induction picks as [|k picks IH]; intros w s I L Hw; cbn [serve].
  - exists s, w. split_and!; try done. destruct (e_pool s) as [|i pool] eqn:Hp; [done|exfalso].
    destruct (posted_node _ _ 0 i L) as (nd & Hi & Hr); [by rewrite Hp|].
    destruct (inv_at _ _ _ _ _ _ _ _ _ _ I Hi) as (_ & _ & Hprop & _). pose proof (inv_range _ _ _ _ _ _ _ _ _ _ I Hi) as Hlt.
    pose proof (weight_ok i Hlt) as Hwt. pose proof (si_work _ _ _ _ _ _ _ _ I) as Hwork. pose proof (lookup_view s i nd Hi) as Hv.
    pose proof (work_insert (weight cg) _ i _ (mkSNode 0 WAITING true 0%Z [] false) Hv) as Hins. unfold cost in Hins. simpl in Hins, Hwork, Hw.
    destruct (nd_eos_propagated nd); [destruct (Hprop eq_refl); congruence|]. lia.
  - destruct (decide (e_pool s = [])) as [Hp|Hp].
    + rewrite run_task_idle by done. cbn [mbind option_bind]. simpl in Hw.
      rewrite serve_idle by done. by exists s, w.
    + assert (k mod length (e_pool s) < length (e_pool s)) as Hlt by (apply Nat.mod_upper_bound; by destruct (e_pool s)).
      destruct (lookup_lt_is_Some_2 _ _ Hlt) as [i Hi]. set (m := k mod length (e_pool s)) in *.
      destruct (run_task_total cfg cg sched onEndOfStream elapsed process s m (li_wired _ L)) as [s1 Hs1]. rewrite Hs1. simpl.
      destruct (posted_node _ _ _ _ L Hi) as (nd & Hnd & Hr). 
      assert (rtc vstep (abs no_ghost s) (abs no_ghost s1)) as Hst by (by eapply run_task_steps).
      unfold Engine.run_task in Hs1. rewrite Hi in Hs1.
      destruct (pick_up_frame cfg s m i) as (stats & sink & Hup). rewrite Hup in Hs1. set (s0 := e_set_traceSink _ _) in Hs1.
      assert (stream_inv known idle w s0) as I1 by (eapply quiet_inv; [|exact I]; by apply quiet_nodes).
      destruct (task_inv deref cfg cg (weight cg) known weight_ok forward_ok Hsmall process onEndOfStream elapsed w _ i nd s1 I1 Hnd Hr Hs1)
        as (w' & I' & Hdec).
      apply (IH w' s1 I'); [by eapply vsteps_inv|].
      destruct (inv_at _ _ _ _ _ _ _ _ _ _ I Hnd) as ([Hsh _] & _). simpl in Hsh. simpl in Hw.
      pose proof (inv_range _ _ _ _ _ _ _ _ _ _ I Hnd) as HiN. rewrite Hsh, (Hone i HiN) in Hdec. specialize (Hdec eq_refl). lia.
Qed.

(** A port that is closed is known to be. *)
Lemma learn_port known pr w s j k nd :
  stream_inv known pr w s → stateByIndex s j = Some nd → portEosLatched nd k = true → stream_inv ((j, k) :: known) pr w s.
Proof.
  intros I Hj Hk. pose proof I as [I1 I2 [J1 J2 J3 J4 J5 J6 J7 J8 J9] I4 I5 I6]. split; try done. split; try done.
  intros j' k' [[= -> ->]|Hin]%elem_of_cons; [|by apply J9]. exists (view_node nd). split; [by apply lookup_view|done].
Qed.

(** A caller that names a node with one input port closes it. *)
Lemma signal_learns known s name j s' r :
  streaming known s → indexOf cg name = Some j → j < N → length (node_ports deref cg j) = 1 →
  signalEndOfStream cg sched onEndOfStream elapsed s name "" = Some (s', r) → streaming ((j, 0) :: known) s'.
Proof using G Hsmall.
  intros [w I] Hname Hj Hone. destruct (inv_node _ _ _ _ _ _ _ _ _ I Hj) as [nd Hnd]. unfold signalEndOfStream.
  pose proof (si_live _ _ _ _ _ _ _ _ I) as Hlive. unfold live in Hlive. destruct (e_streamingMode s); [|done]. cbn [negb].
  unfold stateByName. rewrite Hname. cbn [mbind option_bind]. rewrite Hnd. cbn [mbind option_bind]. rewrite Hnd.
  destruct (inv_at _ _ _ _ _ _ _ _ _ _ I Hnd) as ([Hsh _] & _). simpl in Hsh. rewrite Hone in Hsh.
  destruct (nd_input_ports nd) as [|first [|]] eqn:Hports; try done. rewrite decide_True by done.
  assert (port_index [first] first = Some 0) as -> by (unfold port_index; simpl; by rewrite decide_True).
  rewrite decide_False by (unfold k_max_eos_ports; lia). destruct (portEosLatched nd 0) eqn:Hl.
  { intros [= <- _]. exists w. by eapply learn_port. }
  destruct (caller_latch_inv deref cfg cg (weight cg) known w s j nd 0 I Hnd) as (d & I1 & Hd); [unfold k_max_eos_ports; lia|].
  apply (learn_port _ _ _ _ j 0 (latch nd 0)) in I1.
  - destruct (checkEos _ _ _ _ _ j) as [[s2 b]|] eqn:Hc; [|done]. cbn [mbind option_bind].
    pose proof (check_eos_ok deref cfg cg (weight cg) _ weight_ok forward_ok Hsmall onEndOfStream elapsed _ _ _ _ _ _ I1 Hd Hc) as Hb.
    set (o := if b then _ else _). destruct o as [s3|] eqn:Ho; [|done]. cbn [mbind option_bind]. intros [= <- _]. exists w. subst o.
    destruct b; [by injection Ho as <-|]. destruct Hb as [-> _].
    exact (try_inv deref cfg cg (weight cg) _ weight_ok forward_ok Hsmall onEndOfStream elapsed _ w _ j s3 I1 Hd Ho).
  - unfold stateByIndex, upd_node in *. simpl. by rewrite list_lookup_alter, decide_True, Hnd by done.
  - change (portEosLatched (latch nd 0) 0) with (sn_latched (view_node (latch nd 0)) 0).
    rewrite latched_latch by (unfold k_max_eos_ports; lia). done.
Qed.

(** What the caller has closed stays closed. *)
Definition source_ports : list (nat * nat) :=
  filter (λ j, isSource cg j = true) (seq 0 N) ≫= λ j, pair j <$> seq 0 (length (node_ports deref cg j)).

Lemma elem_of_source_ports j k : (j, k) ∈ source_ports ↔ j < N ∧ isSource cg j = true ∧ k < length (node_ports deref cg j).
Proof.
  unfold source_ports. rewrite list_elem_of_bind. setoid_rewrite list_elem_of_fmap. setoid_rewrite list_elem_of_filter. split.
  - intros (j' & (k' & [= -> ->] & Hk%elem_of_seq) & Hs & Hj%elem_of_seq). split_and!; [lia|done|lia].
  - intros (Hj & Hs & Hk). exists j. split; [exists k; split; [done|apply elem_of_seq; lia]|]. split; [done|apply elem_of_seq; lia].
Qed.

Lemma learn_sources w s : stream_inv [] idle w s → sources_closed s → stream_inv source_ports idle w s.
Proof.
  intros I Hs. pose proof I as [I1 I2 [J1 J2 J3 J4 J5 J6 J7 J8 J9] I4 I5 I6]. split; try done. split; try done.
  intros j k (Hj & Hsrc & Hk)%elem_of_source_ports. destruct (inv_node _ _ _ _ _ _ _ _ _ I Hj) as [nd Hnd].
  exists (view_node nd). split; [by apply lookup_view|]. destruct (inv_at _ _ _ _ _ _ _ _ _ _ I Hnd) as ([Hsh _] & _).
  apply (Hs j nd k Hsrc Hnd). simpl in Hsh. lia.
Qed.

Lemma recall_sources w s : stream_inv source_ports idle w s → stream_inv [] idle w s ∧ sources_closed s.
Proof.
  intros I. pose proof I as [I1 I2 [J1 J2 J3 J4 J5 J6 J7 J8 J9] I4 I5 I6]. split.
  - split; try done. split; try done. intros j k Hj. by apply not_elem_of_nil in Hj.
  - intros j nd k Hsrc Hnd Hk. destruct (inv_at _ _ _ _ _ _ _ _ _ _ I Hnd) as ([Hsh _] & _). simpl in Hsh.
    destruct (J9 j k) as (n & Hn & Hl).
    + apply elem_of_source_ports. split_and!; [by eapply inv_range|done|lia].
    + rewrite (lookup_view s j nd Hnd) in Hn. by injection Hn as <-.
Qed.
End Graph.

Lemma stream_graph cg s : stream_started cg s →
  dag_ok deref cg ∧ (Z.of_nat (length (cg_nodes cg)) < u64_mod)%Z ∧ streaming deref cfg cg (weight cg) [] s ∧ lifecycle_inv (abs no_ghost s).
Proof.
  intros (g & qcs & sync & now & context & Hr & Hsmall & Hc & Hcap & Hs). pose proof (compile_dag deref g cg Hr Hsmall Hc) as G.
  split_and!; [done| |by eapply initial_inv|].
  - destruct (compile_inv _ _ _ Hr Hsmall Hc) as [Hok _]. rewrite (co_nodes _ _ _ Hok). unfold u64_mod, u32_mod in *. lia.
  - apply (running_inv deref cfg sched onEndOfStream elapsed setup cg). exists None, g, qcs, sync, now.
    split_and!; [done..|]. by eapply started_streaming.
Qed.

Lemma stream_runs cg s ops : stream_started cg s → Forall keeps_running ops →
  ∃ s', run cg s ops = Some s' ∧ streaming deref cfg cg (weight cg) [] s' ∧ lifecycle_inv (abs no_ghost s').
Proof.
  intros (G & Hsmall & I & L)%stream_graph Hops.
  destruct (run_total deref cfg cg sched process onEndOfStream elapsed s ops no_ghost L) as [s' Hs]. exists s'. split; [done|].
  by eapply run_streaming.
Qed.

(** What it means that a stream has ended. *)
Record ended s : Prop := {
  en_flushed i nd : stateByIndex s i = Some nd → nd_eos_propagated nd = true;
  en_reached : e_endOfStreamReached s = true;
  en_callback : length (filter (λ ev, mark_of ev = Some MEndOfStream) (e_log s)) = 1;
  en_wait timed_out : waitForEndOfStream s timed_out = void_ok;
  en_running : e_stopFlag s = false;
}.

Lemma flushed_ended cg w s known : dag_ok deref cg → stream_inv deref cfg cg (weight cg) known idle w s → lifecycle_inv (abs no_ghost s) →
  (∀ j, j < length (cg_nodes cg) → flushed (sv_nodes (sview s)) j = true) → ended s.
Proof.
  intros G I L Hf. pose proof (flushed_reached cg G w s known I Hf) as He. destruct (reached_reported s L He) as [H1 H2]. split; try done.
  2:{ pose proof (si_live _ _ _ _ _ _ _ _ I) as Hl. unfold live in Hl. by destruct (e_stopFlag s); rewrite ?andb_false_r in Hl. }
  intros i nd Hi. specialize (Hf i (inv_range _ _ _ _ _ _ _ _ _ _ I Hi)). unfold flushed in Hf. by rewrite (lookup_view s i nd Hi) in Hf.
Qed.

(** Single-port nodes: once every source is closed the tasks come to an end. *)
Lemma serving_ends cg w s picks :
  dag_ok deref cg → (Z.of_nat (length (cg_nodes cg)) < u64_mod)%Z →
  (∀ j, j < length (cg_nodes cg) → length (node_ports deref cg j) = 1) → (ec_min_execution_interval_ms cfg ≤ 0)%Z →
  stream_inv deref cfg cg (weight cg) [] idle w s → lifecycle_inv (abs no_ghost s) → sources_closed cg s → w ≤ length picks →
  ∃ s', serve cg s picks = Some s' ∧ e_pool s' = [] ∧ ended s'.
Proof.
  intros G Hsmall Hone Hrate I L Hsrc Hlen.
  destruct (single_tasks_end cg G Hsmall _ w s picks Hone (learn_sources cg w s I Hsrc) L Hlen) as (s' & w' & Hs' & Hp & I' & L').
  exists s'. split_and!; [done|done|]. destruct (recall_sources cg w' s' I') as [I0 Hsrc'].
  destruct (rest_flushed cg G w' s' I0 L' Hp (or_intror Hrate) Hsrc') as [Hf|(j & nd & Hj & _ & Hports & _)].
  - intros j Hj. rewrite Hone by done. unfold k_max_eos_ports. lia.
  - by eapply flushed_ended.
  - destruct (inv_at _ _ _ _ _ _ _ _ _ _ I0 Hj) as ([Hsh _] & _). simpl in Hsh. rewrite Hone in Hsh by (by eapply inv_range). lia.
Qed.

(** ** Properties *)

(** A stream whose sources are closed ends.  Take a graph whose nodes have one input
    port each (chains and trees, also with several edges into one port), streaming
    started without a rate limit, and any operations but stop and cancel: frames
    pushed, ports closed, tasks run, timers.  When then every source is closed, there is
    a bound on the tasks left to run: whatever order the workers take them in, they come
    to an end, every node has been flushed, the end of the stream is reached, its
    callback has been called once and [waitForEndOfStream] succeeds.  Nodes and hooks may
    throw, and queues may drop. *)
Theorem closed_stream_ends cg s ops :
  stream_started cg s → Forall keeps_running ops →
  (∀ j, j < length (cg_nodes cg) → length (node_ports deref cg j) = 1) → (ec_min_execution_interval_ms cfg ≤ 0)%Z →
  ∃ s', run cg s ops = Some s' ∧
    (sources_closed cg s' → ∃ bound, ∀ picks, bound ≤ length picks →
       ∃ s'', serve cg s' picks = Some s'' ∧ e_pool s'' = [] ∧ ended s'').
Proof.
  intros Hst Hops Hone Hrate. pose proof (stream_graph cg s Hst) as (G & Hsmall & _).
  destruct (stream_runs cg s ops Hst Hops) as (s' & Hs' & [w I] & L). exists s'. split; [done|]. intros Hsrc. exists w.
  intros picks Hlen. by eapply serving_ends.
Qed.

(** C14: a stream at rest has ended, or packets are left in a join.  For any graph whose
    nodes have between one and 64 input ports, after any operations but stop and
    cancel: when no task is posted, no retry is due and every source is closed, every
    node has been flushed and the end of the stream reported once, or some join is
    closed on all its ports, still holds a packet and has not been flushed. *)
Theorem resting_stream_ended cg s ops :
  stream_started cg s → Forall keeps_running ops →
  (∀ j, j < length (cg_nodes cg) → 0 < length (node_ports deref cg j) ≤ k_max_eos_ports) →
  ∃ s', run cg s ops = Some s' ∧
    (e_pool s' = [] → no_retry s' → sources_closed cg s' → ended s' ∨ stalled s').
Proof.
  intros Hst Hops Hports. pose proof (stream_graph cg s Hst) as (G & _).
  destruct (stream_runs cg s ops Hst Hops) as (s' & Hs' & [w I] & L). exists s'. split; [done|]. intros Hp Hretry Hsrc.
  destruct (rest_flushed cg G w s' I L Hp Hretry Hsrc Hports); [left|by right]. by eapply flushed_ended.
Qed.
End Streams.

(** ** Streams *)

Section Example.
#[local] Existing Instance unit_types.
Notation PQ := (NodeQueue (BoundedList PortDataPtr) PortDataPtr).
Definition tx_cfg : EngineConfig := config_stream 2 16.

(** A chain of three nodes. *)
Definition tx_chain : Graph := bx_link (bx_link (fold_left (λ g p, (addNode bx_node g (Some p)).1) [0; 1; 2] empty_graph) 0 1 "in") 1 2 "in".
Definition tx_compiled (deref : NodePtr → ILogicNode) (g : Graph) : CompiledGraph :=
  match compile deref g with Some (ROk cg) => cg | _ => mkCompiled [] ∅ ∅ [] [] [] [] [] [] [] end.
Definition tx_started (deref : NodePtr → ILogicNode) (cg : CompiledGraph) : Engine PQ NoSync :=
  (startStreaming deref cg (scheduler_for tx_cfg STREAM) bx_setup (initialized deref tx_cfg ∅ cg mkNoSync 0) false).1.
Definition tx_process (_ : list Event) (p : NodePtr) (inputs : PortDataMap) : Outcome := Returned (bx_f p inputs).
Definition tx_frame : PortDataPtr := Some (mkPacket 0 0 0 []).
Definition tx_run (deref : NodePtr → ILogicNode) (cg : CompiledGraph) (process : list Event → NodePtr → PortDataMap → Outcome)
    (ops : list EngineOp) : option (Engine PQ NoSync) :=
  engine_run deref tx_cfg cg (scheduler_for tx_cfg STREAM) process bx_flush bx_elapsed (tx_started deref cg) ops.

Lemma tx_capacity name port : (qc_capacity (port_queue_config tx_cfg ∅ name port) ≤ 2 ^ 63)%Z.
Proof. unfold port_queue_config, getNodeQueueConfig. rewrite lookup_empty. vm_compute. discriminate. Qed.

Lemma tx_nodes_reachable deref nodes : rtc (graph_step deref) empty_graph (fold_left (λ g p, (addNode deref g (Some p)).1) nodes empty_graph).
Proof.
  generalize (@rtc_refl _ (graph_step deref) empty_graph). generalize empty_graph at 2 4. induction nodes as [|p l IH]; intros g Hg; [done|].
  apply IH. eapply rtc_r; [done|constructor].
Qed.

Lemma tx_chain_started : stream_started bx_node tx_cfg bx_setup (tx_compiled bx_node tx_chain) (tx_started bx_node (tx_compiled bx_node tx_chain)).
Proof.
  exists tx_chain, ∅, mkNoSync, 0%Z, false. split_and!; [|vm_compute; reflexivity|vm_compute; reflexivity|exact tx_capacity|vm_compute; reflexivity].
  eapply rtc_r; [eapply rtc_r; [apply tx_nodes_reachable|constructor]|constructor].
Qed.

(** Two frames, then the end. *)
Lemma closed_stream_ends_witness :
  ∃ s' picks s'', tx_run bx_node (tx_compiled bx_node tx_chain) tx_process [OpPush "n0" "" tx_frame; OpPush "n0" "" tx_frame; OpClose "n0" ""] = Some s' ∧
    serve tx_cfg tx_process bx_flush bx_elapsed (tx_compiled bx_node tx_chain) s' picks = Some s'' ∧ e_endOfStreamReached s'' = true.
Proof.
  destruct (closed_stream_ends bx_node tx_cfg tx_process bx_flush bx_elapsed bx_setup (tx_compiled bx_node tx_chain) _
    [OpPush "n0" "" tx_frame; OpPush "n0" "" tx_frame; OpClose "n0" ""] tx_chain_started) as (s' & Hs' & Hend).
  - apply Forall_forall. intros op Hop. repeat (apply elem_of_cons in Hop as [->|Hop]; [exact I|]). by apply not_elem_of_nil in Hop.
  - intros j Hj. vm_compute in Hj. do 3 (destruct j as [|j]; [vm_compute; reflexivity|]). lia.
  - vm_compute. discriminate.
  - destruct Hend as [bound Hend].
    + intros j nd k Hj Hnd Hk. vm_compute in Hs'. injection Hs' as <-. destruct j as [|j].
      * vm_compute in Hnd. injection Hnd as <-. vm_compute in Hk. destruct k; [vm_compute; reflexivity|lia].
      * do 2 (destruct j as [|j]; [vm_compute in Hj; discriminate|]). vm_compute in Hnd. discriminate.
    + destruct (Hend (replicate bound 0)) as (s'' & Hs'' & _ & E); [by rewrite length_replicate|]. exists s', (replicate bound 0), s''.
      split; [exact Hs'|]. split; [exact Hs''|apply (en_reached _ E)].
Defined.

(** The second branch of a fork throws on its frame; the join keeps the frame of the
    first.  When both branches are closed, the last latch only looks whether the join
    has drained: nobody schedules it on the packet it has, though its dry port is out of
    the pairing.  The stream never ends. *)
Definition tx_broken (_ : list Event) (p : NodePtr) (inputs : PortDataMap) : Outcome :=
  if decide (p = 2) then Threw None else Returned (bx_f p inputs).
Definition tx_stall_ops : list EngineOp :=
  [OpPush "n0" "" tx_frame; OpTask 0; OpTask 0; OpTask 0; OpClose "n0" ""].

Lemma stalled_join :
  (s ← tx_run bx_node bx_cg tx_broken tx_stall_ops;
   Some (e_pool s, e_deferQueue s, e_endOfStreamReached s,
         (λ nd, (nd_exec_state nd, nd_eos_mask nd, pq_size <$> nd_queues nd)) <$> stateByIndex s 3)) =
  Some ([], [], false, Some (WAITING, 3%Z, [1%Z; 0%Z])).
Proof. vm_compute. reflexivity. Qed.

Lemma tx_fork_started : stream_started bx_node tx_cfg bx_setup bx_cg (tx_started bx_node bx_cg).
Proof.
  exists bx_graph, ∅, mkNoSync, 0%Z, false.
  split_and!; [exact bx_reachable|vm_compute; reflexivity|vm_compute; reflexivity|exact tx_capacity|vm_compute; reflexivity].
Qed.

(** At rest without an end there is a stalled join. *)
Lemma resting_stream_ended_witness : ∃ s', tx_run bx_node bx_cg tx_broken tx_stall_ops = Some s' ∧ stalled s'.
Proof.
  destruct (resting_stream_ended bx_node tx_cfg tx_broken bx_flush bx_elapsed bx_setup bx_cg _ tx_stall_ops tx_fork_started) as (s' & Hs' & Hrest).
  - apply Forall_forall. intros op Hop. repeat (apply elem_of_cons in Hop as [->|Hop]; [exact I|]). by apply not_elem_of_nil in Hop.
  - intros j Hj. vm_compute in Hj. unfold k_max_eos_ports. do 4 (destruct j as [|j]; [vm_compute; lia|]). lia.
  - exists s'. split; [exact Hs'|]. vm_compute in Hs'. injection Hs' as <-.
    destruct Hrest as [E|Hst]; [reflexivity|by left| |exfalso; pose proof (en_reached _ E); discriminate|exact Hst].
    intros j nd k Hj Hnd Hk. destruct j as [|j].
    + vm_compute in Hnd. injection Hnd as <-. vm_compute in Hk. destruct k; [vm_compute; reflexivity|lia].
    + do 3 (destruct j as [|j]; [vm_compute in Hj; discriminate|]). vm_compute in Hnd. discriminate.
Defined.

(** Two edges into one port: the first branch that ends closes the port, and the join
    is flushed while a frame is still to come from the other, which is never processed. *)
Lemma shared_port_closes_early :
  (s ← tx_run ex_node (tx_compiled ex_node ex_diamond) tx_process
         [OpPush "n0" "" tx_frame; OpTask 0; OpClose "n0" ""; OpTask 0; OpTask 1; OpTask 0];
   Some (e_pool s, e_endOfStreamReached s, (λ nd, (nd_exec_state nd, pq_size <$> nd_queues nd)) <$> stateByIndex s 3,
         length (filter (λ ev, match ev with EvProcess 3 _ => true | _ => false end = true) (e_log s)))) =
  Some ([], true, Some (COMPLETED, [1%Z]), 1).
Proof. vm_compute. reflexivity. Qed.
End Example.
