(* ===== verification/StreamLedger.v ===== *)
(** * The ledger of a node in a stream

    Fix a node [j] with one input port that is fed by the edges of one other node, or by
    callers if it is a source.  The ledger ([flow]) says where the packets sent to it are:
    processed, in hand, in its queue, on their way, or reported as dropped; it also says
    that a node whose port is closed has a feeder that will not send again, and that a
    flushed node has an empty queue.  Every operation of the engine keeps it, whatever the
    schedule, the rest of the graph and the user code do.

    What a node sends is read off the engine's log: the log records each call of
    [process] and of the flush hook, and what the call returns is a function of what was
    logged before.  Inside an operation a packet may be on its way: [hand] has been taken
    off the queue and not processed yet, [pend] has been sent and not queued yet. *)

From S2P Require Import Prelude Errors Packets Graphs CompiledGraphs MpmcQueue NodeQueue FrameAlignment.
From S2P Require Import SyncCoordinator JoinAwareSync ExecutionTypes Schedulers EngineCore EngineGather Engine EngineRuns.
Local Open Scope string_scope.
Local Open Scope list_scope.
Local Open Scope nat_scope.

(** ** Queues that report *)

(** A queue that reports what it evicts, under the name of its node. *)
Class PortQueueReports `{CppTypes} (Q : Type) `{!PortQueue Q, !PortQueueLaws Q} := {
  pq_owned : Q → string → Prop;
  pq_new_owned config : pq_owned (pq_new config) (qc_node_name config);
  pq_push_owned q name x q' ok evs : pq_ok q → pq_owned q name → pq_push q x = (q', ok, evs) →
    pq_owned q' name ∧ Forall (λ ev, de_node_name ev = name) evs ∧
    (ok = true → S (length (pq_items q)) ≤ length (pq_items q') + length evs);
  pq_pop_owned q name q' r : pq_owned q name → pq_tryPop q = (q', r) → pq_owned q' name;
}.

Section Reports.
Context {F T : Type} `{!FifoImpl F T}.
Implicit Types (q : NodeQueue F T).

(** A queue with a callback whose events all name its node. *)
Definition named (name : string) q : Prop :=
  nq_callback q = true ∧ qc_node_name (nq_config q) = name ∧ Forall (λ ev, de_node_name ev = name) (nq_events q).

Lemma named_queue name q f : named name q → named name (set_queue q f).
Proof. done. Qed.

Lemma named_tracked name q f : named name q → named name (tracked q f).
Proof. unfold tracked. by case_match. Qed.

Lemma named_accepted name q f : named name q → named name (accepted q f).
Proof.
  intros Hq. apply named_tracked. apply (named_queue name q f) in Hq. unfold updatePeakSize. by apply named_tracked || done.
Qed.

Lemma named_evict name q reason n q' b : named name q → evict_report q reason n = Some (q', b) → named name q'.
Proof.
  intros Hq. unfold evict_report, evictOne. destruct (q_tryPop (nq_queue q)) as [[f r]|]; [|done]. cbn [mbind option_bind].
  apply (named_queue name q f) in Hq. destruct r as [x|]; intros [= <- _]; [|done].
  apply (named_tracked name _ inc_dropped) in Hq. destruct Hq as (H1 & H2 & H3). unfold notifyDrop. rewrite H1.
  split_and!; [done|done|]. apply Forall_app. split; [done|]. by apply Forall_singleton.
Qed.

Lemma named_fallback name fuel reason q x q' b : named name q → fallback_push fuel reason q x = Some (q', b) → named name q'.
Proof.
  revert q. induction fuel as [|fuel IH]; intros q Hq; simpl; [done|].
  destruct (q_tryPush (nq_queue q) x) as [[f []]|]; [| |done]; cbn [mbind option_bind].
  - intros [= <- _]. by apply named_accepted.
  - destruct (evict_report _ _ _) as [[q1 b1]|] eqn:He; [|done]. cbn [mbind option_bind]. apply IH. by eapply named_evict in He.
Qed.

Lemma named_rounds name rounds q x q' b : named name q → dropHead_rounds rounds q x = Some (q', b) → named name q'.
Proof.
  revert q. induction rounds as [|rounds IH]; intros q Hq; cbn [dropHead_rounds]; [by intros [= <- _]|].
  destruct (evict_report _ _ _) as [[q1 b1]|] eqn:He; [|done]. cbn [mbind option_bind]. eapply named_evict in He; [|done].
  destruct (spin_push _ _ _) as [[f []]|]; [| |done]; cbn [mbind option_bind].
  - intros [= <- _]. by apply named_accepted.
  - by apply IH.
Qed.

Lemma named_window name fuel n q q' : named name q → keepLatest_evict fuel n q = Some q' → named name q'.
Proof.
  revert q. induction fuel as [|fuel IH]; intros q Hq; simpl; [done|]. case_decide; [|by intros [= <-]].
  destruct (evict_report _ _ _) as [[q1 []]|] eqn:He; [| |done]; cbn [mbind option_bind]; eapply named_evict in He; try done.
  - by apply IH.
  - by intros [= <-].
Qed.

(** Every push reports under the name of the node. *)
Lemma named_push name fuel q x q' b : named name q → push fuel q x = Some (q', b) → named name q'.
Proof.
  intros Hq. unfold push. destruct (qc_drop_policy (nq_config q)).
  - unfold pushDropTail. destruct (q_tryPush _ x) as [[f []]|]; [| |done]; cbn [mbind option_bind]; intros [= <- _].
    + by apply named_accepted.
    + by apply named_tracked.
  - unfold pushDropHead. destruct (q_tryPush _ x) as [[f []]|]; [| |done]; cbn [mbind option_bind].
    + intros [= <- _]. by apply named_accepted.
    + destruct (dropHead_rounds _ _ _) as [[q1 []]|] eqn:Hr; [| |done]; cbn [mbind option_bind]; eapply named_rounds in Hr; try done.
      * by intros [= <- _].
      * by apply named_fallback.
  - unfold pushKeepLatest. destruct (keepLatest_evict _ _ _) as [q1|] eqn:Hw; [|done]. cbn [mbind option_bind].
    eapply named_window in Hw; [|done]. destruct (q_tryPush _ x) as [[f []]|]; [| |done]; cbn [mbind option_bind].
    + intros [= <- _]. by apply named_accepted.
    + destruct (evict_report _ _ _) as [[q2 b2]|] eqn:He; [|done]. cbn [mbind option_bind]. eapply named_evict in He; [|done].
      destruct (spin_push _ _ _) as [[f2 []]|]; [| |done]; cbn [mbind option_bind].
      * intros [= <- _]. by apply named_accepted.
      * by apply named_fallback.
Qed.
End Reports.

#[export] Instance node_queue_reports `{CppTypes} : PortQueueReports (NodeQueue (BoundedList PortDataPtr) PortDataPtr).
Proof.
  refine {| pq_owned q name := named name q |}.
  - by intros config.
  - intros q name x q' ok evs [H2 Hl] Hn Hp. unfold pq_push, node_queue_port, queue_items in Hp.
    pose proof (push_spec 0 (S (length (bl_items (nq_queue q)))) q (bl_items (nq_queue q)) x) as Hs.
    destruct (spec_push _ _ _ _ _) as [[l' dropped] ok0] eqn:Hsp.
    destruct Hs as (s' & Hpush & (Hl' & _) & (_ & Hev & _)); [by split_and!|lia|].
    rewrite Hpush in Hp. injection Hp as <- <- <-. pose proof (named_push _ _ _ _ _ _ Hn Hpush) as Hn'. split_and!; [done|by apply Forall_drop, Hn'|].
    intros ->. destruct Hn as (Hcb & _). rewrite Hcb in Hev. apply (f_equal length) in Hev. unfold event_frames in Hev.
    rewrite length_app, !length_fmap in Hev. simpl. unfold queue_items. rewrite Hl', length_drop, Hev.
    unfold spec_push in Hsp. case_decide; [done|]. injection Hsp as <- <-.
    rewrite length_app, length_drop, length_take. simpl. lia.
  - intros q name q' r Hn. simpl. unfold nq_tryPop. destruct (q_tryPop (nq_queue q)) as [[f [x|]]|]; simpl; intros [= <- _]; try done.
    by apply named_tracked.
Defined.

(** ** What reaches a node *)

Section Flow.
Context `{CppTypes} {Q Sy : Type} `{!PortQueue Q, !PortQueueLaws Q, !PortQueueReports Q, !SyncStrategy Sy}.
Context (deref : NodePtr → ILogicNode) (cfg : EngineConfig) (cg : CompiledGraph) (sched : SchedulerStrategy).
Context (process : list Event → NodePtr → PortDataMap → Outcome).
Context (onEndOfStream : list Event → NodePtr → Outcome) (elapsed : list Event → Z).
Notation Engine := (Engine Q Sy).
Notation NodeState := (NodeState Q).
Implicit Types (s : Engine) (nd : NodeState) (log : list Event).

(** The node, and the node that feeds it, if any. *)
Context (j : nat) (pj : NodePtr) (nj port : string) (feed : option nat).

(** What the edges in [l] carry to the node. *)
Definition carried (outputs : PortDataMap) (l : list OutEdge) : list PortDataPtr :=
  e ← filter (λ e, oe_dest_node e = j) l; option_list (pm_find outputs (oe_source_port e)).

(** What a call of user code makes node [p] send to the node. *)
Definition sends log (ev : Event) : list PortDataPtr :=
  match ev with
  | EvProcess p inputs =>
      match process log p inputs, indexOfPtr cg p with
      | Returned outputs, Some k => carried (inheritFrameIdentity inputs outputs) (outEdges cg k)
      | _, _ => []
      end
  | EvFlush p =>
      match onEndOfStream log p, indexOfPtr cg p with
      | Returned outputs, Some k => carried outputs (outEdges cg k)
      | _, _ => []
      end
  | _ => []
  end.

(** Everything sent to the node, in the order of the calls. *)
Fixpoint sent_from (pre log : list Event) : list PortDataPtr :=
  match log with
  | [] => []
  | ev :: rest => sends pre ev ++ sent_from (pre ++ [ev]) rest
  end.
Definition sent log : list PortDataPtr := sent_from [] log.

(** What the node has processed. *)
Definition taken log : list PortDataPtr :=
  ev ← log; match ev with EvProcess p inputs => if decide (p = pj) then inputs.*2 else [] | _ => [] end.

(** How many packets were reported as dropped under the node's name. *)
Definition drops log : nat :=
  length (filter (λ ev, match ev with EvDrop name _ _ => bool_decide (name = nj) | _ => false end = true) log).

Lemma sent_app log log' : sent (log ++ log') = sent log ++ sent_from log log'.
Proof.
  enough (∀ pre, sent_from pre (log ++ log') = sent_from pre log ++ sent_from (pre ++ log) log') as He by apply He.
  induction log as [|ev log IH]; intros pre; simpl; [by rewrite app_nil_r|]. rewrite IH, <-!app_assoc. done.
Qed.

Lemma sent_call log ev : sent (log ++ [ev]) = sent log ++ sends log ev.
Proof. rewrite sent_app. simpl. by rewrite app_nil_r. Qed.

Lemma taken_app log log' : taken (log ++ log') = taken log ++ taken log'.
Proof. apply bind_app. Qed.

Lemma drops_app log log' : drops (log ++ log') = drops log + drops log'.
Proof. unfold drops. by rewrite filter_app, length_app. Qed.

(** Events that are not calls of user code on packets. *)
Definition harmless (ev : Event) : Prop := match ev with EvProcess _ _ | EvFlush _ => False | _ => True end.

Lemma harmless_sent log evs : Forall harmless evs → sent (log ++ evs) = sent log.
Proof.
  intros He. rewrite sent_app. enough (sent_from log evs = []) as -> by apply app_nil_r. revert log.
  induction He as [|ev evs Hev _ IH]; intros log; [done|]. simpl. rewrite IH. by destruct ev.
Qed.

Lemma harmless_taken log evs : Forall harmless evs → taken (log ++ evs) = taken log.
Proof.
  intros He. rewrite taken_app. enough (taken evs = []) as -> by apply app_nil_r.
  induction He as [|ev evs Hev _ IH]; [done|]. unfold taken in *. rewrite bind_cons, IH. by destruct ev.
Qed.

(** ** The ledger of a node *)

(** What is known of the feeder: nothing, a task executes it, it is being flushed, or it
    has been flushed and will not send again. *)
Inductive Phase := Free | Busy | Flushing | Done.

Definition phase_ok (ph : Phase) nd : bool :=
  match ph with
  | Free => true
  | Busy => bool_decide (nd_exec_state nd = EXECUTING)
  | Flushing => bool_decide (nd_exec_state nd = EXECUTING) && nd_eos_propagated nd
  | Done => bool_decide (nd_exec_state nd = COMPLETED) && nd_eos_propagated nd
  end.

Definition phase (ph : Phase) s : Prop := ∀ i nd, feed = Some i → stateByIndex s i = Some nd → phase_ok ph nd = true.

(** A feeder that may have packets on their way. *)
Definition sending (ph : Phase) : bool := match ph with Busy | Flushing => true | _ => false end.

Lemma sending_done ph nd : sending ph = true → phase_ok ph nd = true → phase_ok Done nd = true → False.
Proof.
  intros Hs Hp [Hd _]%andb_true_iff. apply bool_decide_eq_true in Hd. destruct ph; try done; simpl in Hp; rewrite Hd in Hp; done.
Qed.

(** What the engine keeps of the node that matters here: its name, port and queue,
    whether the port is closed, whether the node is flushed. *)
Definition shape s : option (string * list string * list Q * bool * bool) :=
  (λ nd, (nd_name nd, nd_input_ports nd, nd_queues nd, portEosLatched nd 0, nd_eos_propagated nd)) <$> stateByIndex s j.

(** What holds of the node while the engine is not stopped, if its port is closed
    ([lat]) or it is flushed ([fin]). *)
Definition over (pend items : list PortDataPtr) (lat fin : bool) s : Prop :=
  (lat = true → pend = [] ∧ phase Done s) ∧ (fin = true → lat = true ∧ items = []).

(** Callers have pushed [pushed] to the node; [hand] is taken off its queue and not yet
    processed, [pend] is sent to it and not yet queued. *)
Record flow (pushed hand pend : list PortDataPtr) (ph : Phase) s : Prop := {
  fl_nodes : nd_node <$> e_nodes s = cg_nodes cg;
  fl_pend : pend ≠ [] → sending ph = true;
  fl_phase : e_stopFlag s = false → phase ph s;
  fl_inputs inputs : EvProcess pj inputs ∈ e_log s → ∃ x, inputs = [(port, x)];
  fl_queue : ∃ q lat fin, shape s = Some (nj, [port], [q], lat, fin) ∧ pq_ok q ∧ pq_owned q nj ∧
    taken (e_log s) ++ hand ++ pq_items q ++ pend `sublist_of` pushed ++ sent (e_log s) ∧
    (e_stopFlag s = false → over pend (pq_items q) lat fin s ∧
       length (pushed ++ sent (e_log s)) ≤ length (taken (e_log s) ++ hand ++ pq_items q ++ pend) + drops (e_log s));
}.

(** Steps that do not touch the node's port nor what is known of its feeder. *)
Record calm s s' : Prop := {
  ca_nodes : nd_node <$> e_nodes s' = nd_node <$> e_nodes s;
  ca_phase ph : e_stopFlag s' = false → phase ph s → phase ph s';
  ca_shape : shape s' = shape s;
  ca_log : ∃ evs, e_log s' = e_log s ++ evs ∧ Forall harmless evs;
  ca_stop : e_stopFlag s' = false → e_stopFlag s = false;
}.

#[local] Instance calm_preorder : PreOrder calm.
Proof.
  split; [intros s; split; try done; exists []; by rewrite app_nil_r|].
  intros s1 s2 s3 [N1 B1 S1 (l1 & L1 & F1) P1] [N2 B2 S2 (l2 & L2 & F2) P2]. split; try congruence; eauto.
  exists (l1 ++ l2). rewrite L2, L1, app_assoc. split; [done|]. by apply Forall_app.
Qed.

(** A step that keeps the ledger, whatever is on its way. *)
Definition keeps s s' : Prop := ∀ pu ha pe ph, flow pu ha pe ph s → flow pu ha pe ph s'.

#[local] Instance keeps_preorder : PreOrder keeps.
Proof. split; [by intros s pu ha pe ph|]. intros s1 s2 s3 H1 H2 pu ha pe ph. auto. Qed.

Lemma calm_keeps s s' : calm s s' → keeps s s'.
Proof.
  intros [N B S (evs & L & F) P] pu ha pe ph [FN FB FP FI (q & lat & fin & Hs & Hq & Ho & Hsub & Hc)]. split; try done.
  - congruence.
  - intros Hst. auto.
  - intros inputs. rewrite L, elem_of_app. intros [Hin|Hin]; [auto|]. by apply (Forall_forall _ _) with (x := EvProcess pj inputs) in F.
  - exists q, lat, fin. rewrite S, L, harmless_sent, harmless_taken, drops_app by done. split_and!; try done.
    intros Hst. destruct (Hc (P Hst)) as [[Hlat Hfin] Hlen]. split; [split; [|done]|lia].
    intros Hl. destruct (Hlat Hl) as [-> Hd]. split; [done|]. by apply B.
Qed.

Lemma flow_calm s s' pu ha pe ph : calm s s' → flow pu ha pe ph s → flow pu ha pe ph s'.
Proof. intros Hc. by apply calm_keeps. Qed.

(** *** Elementary steps *)

(** The nodes, the log and the stop flag are as they were. *)
Lemma calm_same s s' : e_nodes s' = e_nodes s → e_log s' = e_log s → (e_stopFlag s' = false → e_stopFlag s = false) → calm s s'.
Proof.
  intros Hn Hl Hs. split; unfold phase, shape, stateByIndex; rewrite ?Hn; try done. exists []. by rewrite app_nil_r, Hl.
Qed.

Lemma calm_observe s ev : harmless ev → calm s (observe s ev).
Proof. intros Hh. split; try done. exists [ev]. split; [done|]. by constructor. Qed.

Lemma lookup_upd_node s k (f : NodeState → NodeState) i :
  stateByIndex (upd_node s k f) i = if decide (k = i) then f <$> stateByIndex s i else stateByIndex s i.
Proof. unfold stateByIndex, upd_node. simpl. rewrite list_lookup_alter. case_decide; [by subst|done]. Qed.

Lemma nodes_upd_node s k (f : NodeState → NodeState) : (∀ nd, nd_node (f nd) = nd_node nd) →
  nd_node <$> e_nodes (upd_node s k f) = nd_node <$> e_nodes s.
Proof.
  intros Hf. unfold upd_node. simpl. apply list_eq. intros i. rewrite !list_lookup_fmap, list_lookup_alter. case_decide; [|done].
  subst i. destruct (e_nodes s !! k) as [nd|]; simpl; [|done]. by rewrite Hf.
Qed.

Lemma phase_upd s k (f : NodeState → NodeState) ph :
  (feed = Some k → ∀ nd, stateByIndex s k = Some nd → phase_ok ph nd = true → phase_ok ph (f nd) = true) → phase ph s → phase ph (upd_node s k f).
Proof.
  intros Hf Hp i nd Hi. rewrite lookup_upd_node. case_decide as Hk; [|by apply Hp]. subst i. intros (nd0 & Hnd & ->)%fmap_Some. eauto.
Qed.

(** An update of a node that keeps what [shape] and [phase] look at. *)
Lemma calm_upd s k (f : NodeState → NodeState) :
  (∀ nd, nd_node (f nd) = nd_node nd ∧ (k = j → nd_name (f nd) = nd_name nd ∧ nd_input_ports (f nd) = nd_input_ports nd ∧
     nd_queues (f nd) = nd_queues nd ∧ nd_eos_mask (f nd) = nd_eos_mask nd ∧ nd_eos_propagated (f nd) = nd_eos_propagated nd)) →
  (feed = Some k → e_stopFlag s = false → ∀ nd ph, stateByIndex s k = Some nd → phase_ok ph nd = true → phase_ok ph (f nd) = true) →
  calm s (upd_node s k f).
Proof.
  intros Hf Hb. split; try done.
  - apply nodes_upd_node. intros nd. apply Hf.
  - intros ph Hst. apply phase_upd. eauto.
  - unfold shape. rewrite lookup_upd_node. case_decide; [|done]. subst k. destruct (stateByIndex s j) as [nd|]; simpl; [|done].
    destruct (Hf nd) as [_ Hn]. destruct (Hn eq_refl) as (H1 & H2 & H3 & H4 & H5). unfold portEosLatched. by rewrite H1, H2, H3, H4, H5.
  - exists []. split; [by rewrite app_nil_r|done].
Qed.

(** An update that leaves the execution state and the end of stream too. *)
Lemma calm_field s k (f : NodeState → NodeState) :
  (∀ nd, nd_node (f nd) = nd_node nd ∧ nd_name (f nd) = nd_name nd ∧ nd_input_ports (f nd) = nd_input_ports nd ∧
     nd_queues (f nd) = nd_queues nd ∧ nd_exec_state (f nd) = nd_exec_state nd ∧ nd_eos_mask (f nd) = nd_eos_mask nd ∧
     nd_eos_propagated (f nd) = nd_eos_propagated nd) → calm s (upd_node s k f).
Proof.
  intros Hf. apply calm_upd; [intros nd; destruct (Hf nd) as (? & ? & ? & ? & ? & ? & ?); by split_and!|].
  intros _ _ nd ph _. destruct (Hf nd) as (_ & _ & _ & _ & He & _ & Hp). unfold phase_ok. by rewrite He, Hp.
Qed.

(** A node that neither executes nor is flushed is in no known phase. *)
Lemma calm_exec_from s k nd x : stateByIndex s k = Some nd → nd_exec_state nd = WAITING ∨ nd_exec_state nd = READY → calm s (set_exec s k x).
Proof.
  intros Hk Hw. apply calm_upd; [done|]. intros _ _ nd' ph Hk'. rewrite Hk in Hk'. injection Hk' as <-.
  destruct ph, Hw as [Hw|Hw]; simpl; rewrite ?Hw; done.
Qed.

Lemma calm_exec_stopped s k x : e_stopFlag s = true → calm s (set_exec s k x).
Proof. intros Hst. apply calm_upd; [done|congruence]. Qed.

Lemma calm_queue s k n q : k ≠ j → calm s (upd_queue s k n q).
Proof. intros Hk. by apply calm_upd. Qed.

Lemma calm_dropped name s ev : calm s (queueDropped name s ev).
Proof.
  unfold queueDropped. set (s1 := observe _ _). assert (calm s s1) as E.
  { etrans; [|by apply calm_observe]. by apply calm_same. }
  destruct (_ && _); [|done]. etrans; [exact E|by apply calm_same].
Qed.

Lemma calm_foldl {A} (f : Engine → A → Engine) l s : (∀ s a, calm s (f s a)) → calm s (foldl f s l).
Proof. intros Hf. revert s. induction l as [|a l IH]; intros s; [done|]. simpl. etrans; [apply Hf|apply IH]. Qed.

Lemma calm_rejection s name : calm s (recordQueueRejection s name).
Proof. unfold recordQueueRejection. etrans; [|by apply calm_observe]. by apply calm_same. Qed.

Lemma calm_push s k n x s' ok : k ≠ j → queue_push s k n x = (s', ok) → calm s s'.
Proof.
  intros Hk. unfold queue_push. destruct (stateByIndex s k) as [nd|]; [|by intros [= <- _]].
  destruct (nd_queues nd !! n) as [q|]; [|by intros [= <- _]]. destruct (pq_push q x) as [[q' ok'] evs]. intros [= <- _].
  etrans; [by apply calm_queue|]. apply calm_foldl. intros. apply calm_dropped.
Qed.

Lemma calm_pushTo s k name x s' ok : k ≠ j → pushToQueue s k name x = (s', ok) → calm s s'.
Proof.
  intros Hk. unfold pushToQueue. destruct (stateByIndex s k) as [nd|]; [|by intros [= <- _]].
  destruct (port_index _ _) as [n|]; [|by intros [= <- _]]. destruct (queue_push s k n x) as [s1 ok1] eqn:Hp.
  eapply calm_push in Hp; [|done]. destruct ok1; intros [= <- _]; (etrans; [exact Hp|]); [by apply calm_same|apply calm_rejection].
Qed.

Lemma calm_pop s k n : k ≠ j → calm s (queue_pop s k n).1.
Proof. intros Hk. unfold queue_pop. destruct (_ ≫= _) as [q|]; [|done]. destruct (pq_tryPop q). by apply calm_queue. Qed.

Lemma calm_gather s k g ok : k ≠ j → gatherNodeInputs cfg s k = Some (g, ok) → calm s (ga_engine g).
Proof.
  intros Hk. apply gatherNodeInputs_closed; [apply _|..]; intros.
  - by apply calm_pop.
  - by apply calm_same.
  - by apply calm_observe.
  - by apply calm_same.
  - by apply calm_field.
Qed.

Lemma calm_stop s : calm s (stopExecutionAsync s).
Proof. unfold stopExecutionAsync. repeat case_match; by apply calm_same. Qed.

Lemma calm_stopRequested s s' r : isStopRequested s = (s', r) → calm s s'.
Proof. unfold isStopRequested. repeat case_match; intros [= <- _]; [done|apply calm_stop|done]. Qed.

Lemma calm_completion s : calm s (checkCompletionAndNotify cg sched s).
Proof. unfold checkCompletionAndNotify. repeat case_match; try done; (etrans; [|by apply calm_observe]); by apply calm_same. Qed.

Lemma set_exec_at s k nd x : stateByIndex s k = Some nd → stateByIndex (set_exec s k x) k = Some (nd_set_exec_state nd x).
Proof. unfold stateByIndex, set_exec, upd_node. simpl. intros Hk. by rewrite list_lookup_alter, decide_True, Hk. Qed.

Lemma calm_schedule s k : calm s (scheduleNodeExecution cg sched s k).
Proof.
  unfold scheduleNodeExecution. destruct (stateByIndex s k) as [nd|] eqn:Hk; [|done]. case_decide as Hw; [done|].
  assert (calm s (set_exec s k READY)) as H1 by (eapply calm_exec_from; [exact Hk|by left]). case_match.
  - etrans; [exact H1|]. by apply calm_same.
  - etrans; [|apply calm_completion]. etrans; [exact H1|].
    transitivity (set_exec (add_active (set_exec s k READY) 1) k WAITING); [|by apply calm_same].
    etrans; [apply (calm_same _ (add_active (set_exec s k READY) 1)); done|].
    eapply calm_exec_from; [by apply (set_exec_at s k nd READY)|by right].
Qed.

Lemma calm_retry s k d : calm s (scheduleDeferredRetry s k d).
Proof.
  unfold scheduleDeferredRetry. repeat case_match; try done.
  transitivity (upd_node s k (λ nd, nd_set_defer_pending nd true)); [by apply calm_field|by apply calm_same].
Qed.

Lemma calm_done s : calm s (task_done cg sched s).
Proof. unfold task_done. etrans; [|apply calm_completion]. by apply calm_same. Qed.

(** *** The node's queue *)

Lemma flow_node pu ha pe ph s : flow pu ha pe ph s →
  ∃ nd q, stateByIndex s j = Some nd ∧ nd_name nd = nj ∧ nd_input_ports nd = [port] ∧ nd_queues nd = [q] ∧
    shape s = Some (nj, [port], [q], portEosLatched nd 0, nd_eos_propagated nd) ∧ pq_ok q ∧ pq_owned q nj.
Proof.
  intros F. destruct (fl_queue _ _ _ _ _ F) as (q & lat & fin & Hs & Hq & Ho & _). pose proof Hs as Hs0. unfold shape in Hs0.
  destruct (stateByIndex s j) as [nd|]; [|done]. injection Hs0 as ? ? ? <- <-. by exists nd, q.
Qed.

Lemma dropped_fold name s evs :
  let s' := foldl (queueDropped name) s evs in
  e_nodes s' = e_nodes s ∧ e_stopFlag s' = e_stopFlag s ∧
  e_log s' = e_log s ++ ((λ ev, EvDrop (de_node_name ev) (de_frame_id ev) (de_reason ev)) <$> evs).
Proof.
  revert s. induction evs as [|ev evs IH]; intros s; simpl; [by rewrite app_nil_r|].
  destruct (IH (queueDropped name s ev)) as (-> & -> & ->). unfold queueDropped. case_match; simpl; rewrite <-app_assoc; done.
Qed.

Lemma drops_named evs : Forall (λ ev, de_node_name ev = nj) evs →
  drops ((λ ev, EvDrop (de_node_name ev) (de_frame_id ev) (de_reason ev)) <$> evs) = length evs.
Proof.
  unfold drops. induction 1 as [|ev evs Hev _ IH]; [done|]. rewrite fmap_cons, filter_cons, decide_True; [simpl; by rewrite IH|].
  by apply bool_decide_eq_true.
Qed.

(** The queue of the node is replaced, and drops are reported. *)
Lemma flow_requeue pu ha ha' pe pe' ph s s' q q' lat fin evs :
  flow pu ha pe ph s → shape s = Some (nj, [port], [q], lat, fin) → e_nodes s' = e_nodes (upd_queue s j 0 q') →
  e_stopFlag s' = e_stopFlag s → e_log s' = e_log s ++ evs → Forall harmless evs →
  (pe' ≠ [] → pe ≠ []) → pq_ok q' → pq_owned q' nj →
  ha' ++ pq_items q' ++ pe' `sublist_of` ha ++ pq_items q ++ pe →
  length (ha ++ pq_items q ++ pe) ≤ length (ha' ++ pq_items q' ++ pe') + drops evs →
  (lat = true → pe = [] → pe' = []) → (fin = true → pe = [] → pq_items q = [] → pq_items q' = []) → flow pu ha' pe' ph s'.
Proof.
  intros [FN FB FP FI (q0 & lat0 & fin0 & Hs0 & _ & _ & Hsub & Hc)] Hs Hn Hst Hl Hev Hpe Hq' Ho' Hsub' Hlen Hlat' Hfin'.
  rewrite Hs in Hs0. injection Hs0 as <- <- <-.
  assert (∀ ph', phase ph' s → phase ph' s') as Hph.
  { intros ph' Hp i nd Hi Hnd. apply (phase_upd s j (λ nd, nd_set_queues nd (<[0 := q']> (nd_queues nd))) ph') in Hp; [|done].
    apply (Hp i nd Hi). unfold stateByIndex in *. by rewrite Hn in Hnd. }
  split.
  - rewrite Hn. unfold upd_queue. by rewrite nodes_upd_node.
  - auto.
  - intros Hf. rewrite Hst in Hf. auto.
  - intros inputs. rewrite Hl, elem_of_app. intros [Hin|Hin]; [auto|]. apply (Forall_forall harmless evs) in Hin; done.
  - exists q', lat, fin. rewrite Hl, harmless_sent, harmless_taken, drops_app, Hst by done. split_and!; try done.
    + unfold shape, stateByIndex. rewrite Hn. unfold shape in Hs. fold (stateByIndex (upd_queue s j 0 q') j). unfold upd_queue.
      rewrite lookup_upd_node, decide_True by done. destruct (stateByIndex s j) as [nd|]; [|done]. simpl in Hs |- *.
      injection Hs as -> -> -> <- <-. done.
    + etrans; [|exact Hsub]. by apply sublist_app.
    + intros Hf. destruct (Hc Hf) as [[Hlat Hfin] Hle]. repeat rewrite (length_app (taken _)) in *. split; [split|lia].
      * intros Ht. destruct (Hlat Ht) as [Hnil Hd]. auto.
      * intros Ht. destruct (Hfin Ht) as [Ht' Hnil]. destruct (Hlat Ht'). auto.
Qed.

Lemma push_at pu ha pe ph s x s' ok : flow pu ha pe ph s → queue_push s j 0 x = (s', ok) →
  if ok then ∀ pe', pe = x :: pe' → flow pu ha pe' ph s' else flow pu ha pe ph s'.
Proof.
  intros F. destruct (flow_node _ _ _ _ _ F) as (nd & q & Hnd & Hname & _ & Hqs & Hs & Hq & Ho).
  unfold queue_push. rewrite Hnd, Hqs, Hname. simpl. destruct (pq_push q x) as [[q' ok'] evs] eqn:Hp. intros [= <- <-].
  destruct (dropped_fold nj (upd_queue s j 0 q') evs) as (Dn & Ds & Dl). set (s' := foldl _ _ _) in *.
  destruct (pq_push_spec _ _ _ _ _ Hq Hp) as [Hq' Hi]. destruct (pq_push_owned _ _ _ _ _ _ Hq Ho Hp) as (Ho' & Hev & Hlen).
  set (l := (λ ev, EvDrop _ _ _) <$> evs) in Dl. assert (Forall harmless l) as Hl by (by apply Forall_fmap, Forall_forall; intros).
  assert (drops l = length evs) as Hdl by (by apply drops_named).
  destruct ok'.
  - intros pe' ->. destruct Hi as [k Hi]. specialize (Hlen eq_refl). apply (flow_requeue pu ha ha (x :: pe') pe' ph s s' q q' _ _ l F Hs); try done.
    + rewrite Hi, <-app_assoc. repeat apply sublist_app; try done. apply sublist_drop.
    + rewrite Hdl. repeat rewrite length_app. simpl. lia.
  - apply (flow_requeue pu ha ha pe pe ph s s' q q' _ _ l F Hs); try done; rewrite Hi; [done|lia|done].
Qed.

(** The node takes a packet off its queue. *)
Lemma pop_at pu pe ph s s' r : queue_pop s j 0 = (s', r) → flow pu [] pe ph s → flow pu (option_list r) pe ph s'.
Proof.
  intros Hp F. destruct (flow_node _ _ _ _ _ F) as (nd & q & Hnd & Hname & _ & Hqs & Hs & Hq & Ho). unfold queue_pop in Hp.
  rewrite Hnd in Hp. simpl in Hp. rewrite Hqs in Hp. simpl in Hp. destruct (pq_tryPop q) as [q' r'] eqn:Hpop. injection Hp as <- <-.
  destruct (pq_pop_spec _ _ _ Hpop) as (Hq' & Hr & Hi).
  assert (option_list r' ++ pq_items q' = pq_items q) as Hcat by (rewrite Hr, Hi; by destruct (pq_items q)).
  apply (flow_requeue pu [] _ pe pe ph s _ q q' _ _ [] F Hs); try done; rewrite ?app_nil_r, ?(app_assoc (option_list r')), ?Hcat; try done.
  - by apply Hq'.
  - by eapply pq_pop_owned.
  - simpl. lia.
  - intros _ _ Hnil. by rewrite Hi, Hnil.
Qed.

(** A packet taken or on its way may be dropped, if it is reported. *)
Lemma pay_drop pu ha ha' pe pe' ph s frame reason :
  ha' `sublist_of` ha → pe' `sublist_of` pe → length ha + length pe ≤ S (length ha' + length pe') →
  flow pu ha pe ph s → flow pu ha' pe' ph (observe s (EvDrop nj frame reason)).
Proof.
  intros Hha Hpe Hle [FN FB FP FI (q & lat & fin & Hs & Hq & Ho & Hsub & Hc)]. split; try done.
  - intros Hne. apply FB. intros ->. by apply sublist_nil_r in Hpe.
  - intros inputs. simpl. rewrite elem_of_app, list_elem_of_singleton. intros [Hin|Hin]; [auto|done].
  - exists q, lat, fin. simpl. rewrite harmless_sent, harmless_taken, drops_app by (by repeat constructor). split_and!; try done.
    + etrans; [|exact Hsub]. by repeat apply sublist_app.
    + intros Hst. destruct (Hc Hst) as [[Hlat Hfin] Hlen]. assert (drops [EvDrop nj frame reason] = 1) as ->.
      { unfold drops. rewrite filter_cons, decide_True; [done|]. by apply bool_decide_eq_true. }
      repeat rewrite length_app in Hlen. repeat rewrite length_app. split; [split; [|done]|lia].
      intros Hl. destruct (Hlat Hl) as [-> Hd]. split; [|exact Hd]. by apply sublist_nil_r in Hpe.
Qed.

(** Once the engine stops, packets on their way are lost. *)
Lemma flow_stopped pu ha pe pe' ph ph' s : e_stopFlag s = true → (pe' ≠ [] → sending ph' = true) →
  flow pu ha (pe ++ pe') ph s → flow pu ha pe' ph' s.
Proof.
  intros Hst Hpe [FN FB FP FI (q & lat & fin & Hs & Hq & Ho & Hsub & _)]. split; try done; [congruence|].
  exists q, lat, fin. split_and!; try done; [|congruence]. etrans; [|exact Hsub]. do 3 (apply sublist_app; [done|]). by apply sublist_inserts_l.
Qed.

Lemma flow_free pu ha ph s : flow pu ha [] ph s → flow pu ha [] Free s.
Proof. intros [FN FB FP FI FQ]. by split. Qed.

(** ** The cascade *)

(** Only the feeder has edges to the node, and they lead to its port. *)
Definition fed_by : Prop :=
  feed ≠ Some j ∧ ∀ k e, e ∈ outEdges cg k → oe_dest_node e = j → feed = Some k ∧ oe_dest_port_index e = Some 0.

Context (Hptr : ∀ p k, indexOfPtr cg p = Some k ↔ cg_nodes cg !! k = Some p) (Hj : cg_nodes cg !! j = Some pj) (Hfed : fed_by).

Lemma node_at pu ha pe ph s k nd : flow pu ha pe ph s → stateByIndex s k = Some nd → indexOfPtr cg (nd_node nd) = Some k.
Proof using Hptr. intros F Hk. apply Hptr. rewrite <-(fl_nodes _ _ _ _ _ F), list_lookup_fmap. unfold stateByIndex in Hk. by rewrite Hk. Qed.

Lemma carried_other outputs k : feed ≠ Some k → carried outputs (outEdges cg k) = [].
Proof using Hfed.
  intros Hk. unfold carried. enough (filter (λ e, oe_dest_node e = j) (outEdges cg k) = []) as -> by done.
  destruct (filter _ _) as [|e l] eqn:He; [done|]. exfalso. assert (e ∈ e :: l) as Hin by (by left). rewrite <-He in Hin.
  apply list_elem_of_filter in Hin as [Hd Hin]. by apply Hk, (proj2 Hfed k e).
Qed.

Lemma carried_empty l : carried [] l = [].
Proof. unfold carried. induction (filter _ l) as [|e l' IH]; [done|]. rewrite bind_cons, IH. done. Qed.

Lemma carried_cons outputs e l :
  carried outputs (e :: l) = (if decide (oe_dest_node e = j) then option_list (pm_find outputs (oe_source_port e)) else []) ++ carried outputs l.
Proof. unfold carried. rewrite filter_cons. case_decide; [by rewrite bind_cons|done]. Qed.

(** A call of user code.  What it sends comes from the feeder. *)
Lemma flow_call pu ha ha' pe ph s s' ev :
  e_nodes s' = e_nodes s → e_stopFlag s' = e_stopFlag s → e_log s' = e_log s ++ [ev] →
  (∀ inputs, ev = EvProcess pj inputs → ∃ x, inputs = [(port, x)]) → ha = taken [ev] ++ ha' →
  (sends (e_log s) ev ≠ [] → sending ph = true ∧ ∃ k nd, feed = Some k ∧ stateByIndex s k = Some nd) →
  flow pu ha pe ph s → flow pu ha' (pe ++ sends (e_log s) ev) ph s'.
Proof.
  intros Hn Hst Hl Hin Hha Hb [FN FB FP FI (q & lat & fin & Hs & Hq & Ho & Hsub & Hc)].
  assert (∀ ph', phase ph' s → phase ph' s') as Hph by (intros ph'; unfold phase, stateByIndex; by rewrite Hn). split.
  - by rewrite Hn.
  - intros Hne. destruct pe; [by apply Hb|by apply FB].
  - rewrite Hst. auto.
  - intros inputs. rewrite Hl, elem_of_app, list_elem_of_singleton. intros [?|<-]; [auto|]. by apply Hin.
  - exists q, lat, fin. rewrite Hl, Hst, sent_call, taken_app, drops_app. unfold shape, stateByIndex. rewrite Hn. subst ha. split_and!; try done.
    + rewrite app_assoc, <-!app_assoc in *. rewrite !(app_assoc pu). rewrite !app_assoc in *. by apply sublist_app.
    + intros Hf. destruct (Hc Hf) as [[Hlat Hfin] Hlen]. repeat rewrite length_app in Hlen. repeat rewrite length_app.
      split; [split; [|done]|lia]. intros Ht. destruct (Hlat Ht) as [-> Hd]. split; [|by apply Hph]. simpl.
      destruct (sends (e_log s) ev) as [|y l]; [done|exfalso]. destruct (Hb ltac:(done)) as (Hsend & k & nd & Hk & Hnd).
      eapply (sending_done ph nd); [done|by eapply FP|by eapply Hd].
Qed.

(** The phase of the feeder while node [k] is in phase [x]. *)
Definition at_node (k : nat) (x ph : Phase) : Phase := if decide (feed = Some k) then x else ph.

Lemma flush_flow pu ha pe ph s k nd s' outputs :
  stateByIndex s k = Some nd → run_flush onEndOfStream elapsed s nd = (s', outputs) →
  flow pu ha pe (at_node k Flushing ph) s → flow pu ha (pe ++ carried outputs (outEdges cg k)) (at_node k Flushing ph) s'.
Proof using Hptr Hfed.
  intros Hk Hf F. pose proof (node_at _ _ _ _ _ _ _ F Hk) as Hix. unfold run_flush in Hf.
  set (s1 := observe s (EvFlush (nd_node nd))) in Hf.
  assert (flow pu ha (pe ++ sends (e_log s) (EvFlush (nd_node nd))) (at_node k Flushing ph) s1) as F1.
  { apply (flow_call pu ha ha); try done. intros Hne. unfold at_node. case_decide as Hfk; [split; [done|by exists k, nd]|exfalso].
    clear Hf. apply Hne. simpl. rewrite Hix. case_match; [by apply carried_other|done]. }
  simpl in F1. rewrite Hix in F1. set (s2 := e_set_now s1 _) in Hf. apply (flow_calm s1 s2) in F1; [|by apply calm_same].
  destruct (onEndOfStream (e_log s) (nd_node nd)) as [outs|what]; injection Hf as <- <-.
  { eapply flow_calm; [|exact F1]. by apply calm_same. }
  rewrite carried_empty. set (s3 := observe (bump s2 _) _).
  eapply flow_calm; [by apply (calm_same s3)|]. eapply flow_calm; [|exact F1]. etrans; [|by apply calm_observe]. by apply calm_same.
Qed.

(** A node changes its execution state or its end of stream. *)
Lemma flow_upd pu ha pe ph ph' s k (f : NodeState → NodeState) :
  (∀ nd, nd_node (f nd) = nd_node nd ∧ nd_name (f nd) = nd_name nd ∧ nd_input_ports (f nd) = nd_input_ports nd ∧
     nd_queues (f nd) = nd_queues nd) →
  (pe ≠ [] → sending ph' = true) →
  (e_stopFlag s = false → phase ph s → phase ph' (upd_node s k f) ∧ (phase Done s → phase Done (upd_node s k f))) →
  (∀ nd q, k = j → stateByIndex s j = Some nd → nd_queues nd = [q] → e_stopFlag s = false →
     over pe (pq_items q) (portEosLatched nd 0) (nd_eos_propagated nd) s →
     over pe (pq_items q) (portEosLatched (f nd) 0) (nd_eos_propagated (f nd)) s) →
  flow pu ha pe ph s → flow pu ha pe ph' (upd_node s k f).
Proof.
  intros Hf Hpe Hph Hov F. destruct (flow_node _ _ _ _ _ F) as (nd & q & Hnd & Hname & Hports & Hqs & Hs & _).
  destruct F as [FN FB FP FI (q0 & lat & fin & Hs0 & Hq & Ho & Hsub & Hc)]. rewrite Hs in Hs0. injection Hs0 as <- <- <-. split; try done.
  - rewrite nodes_upd_node; [done|]. intros nd0. apply Hf.
  - intros Hst. by apply Hph, FP.
  - set (nd' := if decide (k = j) then f nd else nd).
    assert (stateByIndex (upd_node s k f) j = Some nd') as Hnd'.
    { rewrite lookup_upd_node, Hnd. unfold nd'. by case_decide. }
    exists q, (portEosLatched nd' 0), (nd_eos_propagated nd'). split_and!; try done.
    + unfold shape. rewrite Hnd'. simpl. destruct (Hf nd) as (_ & Hf1 & Hf2 & Hf3).
      unfold nd'. case_decide; by rewrite ?Hf1, ?Hf2, ?Hf3, Hname, Hports, Hqs.
    + intros Hst. destruct (Hc Hst) as [Hover Hlen]. split; [|done].
      assert (over pe (pq_items q) (portEosLatched nd' 0) (nd_eos_propagated nd') s) as [Hlat Hfin].
      { unfold nd'. case_decide as Hkj; [by apply Hov|done]. }
      split; [|done]. intros Hl. destruct (Hlat Hl) as [? Hd]. split; [done|]. by apply (Hph Hst (FP Hst)).
Qed.

(** A worker starts a node. *)
Lemma flow_start pu s k nd : stateByIndex s k = Some nd → nd_exec_state nd = READY → flow pu [] [] Free s →
  flow pu [] [] (at_node k Busy Free) (set_exec s k EXECUTING).
Proof.
  intros Hk Hr. apply flow_upd; try done. intros _ _. split.
  - intros i nd' Hi. unfold at_node. case_decide as Hfk; [|done]. rewrite Hi in Hfk. injection Hfk as ->.
    rewrite lookup_upd_node, decide_True, Hk by done. by intros [= <-].
  - apply phase_upd. intros _ nd'. rewrite Hk. intros [= <-] [He _]%andb_true_iff. apply bool_decide_eq_true in He. congruence.
Qed.

(** A node stops executing. *)
Lemma flow_release pu ha s k x : flow pu ha [] (at_node k Busy Free) s → flow pu ha [] Free (set_exec s k x).
Proof.
  apply flow_upd; try done. intros _ Hp. split; [done|]. intros Hd. apply phase_upd; [|done]. intros Hfk nd Hk Hdone. exfalso.
  unfold at_node in Hp. rewrite decide_True in Hp by done. by eapply (sending_done Busy nd); [|eapply Hp|].
Qed.

(** A node that has drained is claimed for its flush. *)
Lemma flow_claim pu ha pe ph s k nd :
  stateByIndex s k = Some nd → e_stopFlag s = false → claimable (nd_exec_state nd) = true → nd_eos_propagated nd = false →
  allInputPortsDrained nd = true → flow pu ha pe ph s → (feed = Some k → ph = Free ∧ pe = []) ∧
  flow pu ha pe (at_node k Flushing ph) (upd_node s k (λ nd, nd_set_eos_propagated (nd_set_exec_state nd EXECUTING) true)).
Proof.
  intros Hk Hst Hcl Hprop Hdr F.
  assert (feed = Some k → ph = Free ∧ pe = []) as Hfree.
  { intros Hfk. pose proof (fl_phase _ _ _ _ _ F Hst k nd Hfk Hk) as Hp. assert (ph = Free) as ->.
    { destruct ph; [done|..]; simpl in Hp; rewrite ?Hprop, ?andb_false_r in Hp; try done. apply bool_decide_eq_true in Hp. by rewrite Hp in Hcl. }
    split; [done|]. destruct pe; [done|]. by pose proof (fl_pend _ _ _ _ _ F ltac:(done)). }
  split; [done|]. eapply flow_upd; [done| | | |exact F].
  - intros Hne. unfold at_node. case_decide as Hfk; [done|]. by apply (fl_pend _ _ _ _ _ F).
  - intros _ Hp. split.
    + unfold at_node. case_decide as Hfk; [|by apply phase_upd]. intros i nd' Hi. rewrite Hi in Hfk. injection Hfk as ->.
      rewrite lookup_upd_node, decide_True, Hk by done. by intros [= <-].
    + apply phase_upd. intros _ nd'. rewrite Hk. intros [= <-] [_ Hp']%andb_true_iff. congruence.
  - intros nd' q -> Hnd' Hqs _ [Hlat Hfin]. rewrite Hk in Hnd'. injection Hnd' as <-. split; [done|]. intros _.
    destruct (flow_node _ _ _ _ _ F) as (nd' & q' & Hnd' & _ & Hports & Hqs' & _). rewrite Hk in Hnd'. injection Hnd' as <-.
    unfold allInputPortsDrained in Hdr. rewrite Hports in Hdr. simpl in Hdr. rewrite andb_true_r in Hdr. unfold portDrained in Hdr.
    rewrite Hqs in Hdr. simpl in Hdr. apply andb_true_iff in Hdr as [Hl Hz]. split; [exact Hl|]. apply bool_decide_eq_true in Hz.
    rewrite pq_size_spec in Hz. destruct (pq_items q); [done|simpl in Hz; lia].
Qed.

(** The flush is over. *)
Lemma flow_flushed pu ha pe ph s k : (feed = Some k → pe = []) → flow pu ha pe (at_node k Flushing ph) s →
  flow pu ha pe (at_node k Done ph) (set_exec s k COMPLETED).
Proof.
  intros Hpe F. eapply flow_upd; [done| | |done|exact F].
  - intros Hne. unfold at_node. case_decide as Hfk; [by specialize (Hpe Hfk)|]. pose proof (fl_pend _ _ _ _ _ F Hne) as Hs.
    unfold at_node in Hs. by rewrite decide_False in Hs.
  - intros _ Hp. unfold at_node in *. case_decide as Hfk.
    + assert (phase Done (set_exec s k COMPLETED)) as Hd; [|done]. intros i nd Hi. rewrite Hi in Hfk. injection Hfk as ->.
      unfold set_exec. rewrite lookup_upd_node, decide_True by done. intros (nd0 & Hnd & ->)%fmap_Some.
      specialize (Hp k nd0 Hi Hnd). simpl in Hp. apply andb_true_iff in Hp as [_ Hp]. unfold phase_ok. simpl. by rewrite Hp.
    + split; [by apply phase_upd|]. intros Hd. by apply phase_upd.
Qed.

Lemma port_latched nd n : portEosLatched (latch nd n) 0 = portEosLatched nd 0 || bool_decide (n = 0).
Proof.
  unfold portEosLatched, latch. rewrite !decide_False by (unfold k_max_eos_ports; lia). unfold nd_set_eos_mask.
  cbn [nd_eos_mask]. rewrite Z.lor_spec. f_equal.
  rewrite Z.shiftl_spec by lia. destruct n as [|n]; [done|]. by rewrite Z.testbit_neg_r by lia.
Qed.

(** The port of the node is closed once its feeder is done. *)
Lemma flow_latch pu ha pe ph s k n : (k = j → pe = [] ∧ (e_stopFlag s = false → phase Done s)) →
  flow pu ha pe ph s → flow pu ha pe ph (upd_node s k (λ nd, latch nd n)).
Proof.
  intros Hdone F. eapply flow_upd; [done|apply (fl_pend _ _ _ _ _ F)| | |exact F].
  - intros _ Hp. split; [by apply phase_upd|]. by apply phase_upd.
  - intros nd q -> Hnd Hqs Hst [Hlat Hfin]. destruct (Hdone eq_refl) as [-> Hd]. rewrite port_latched. split.
    + intros _. split; [done|]. by apply Hd.
    + intros Ht. destruct (Hfin Ht) as [-> ?]. by split.
Qed.

Section Cascade.
Context (check : Engine → nat → option (Engine * bool)) (Hcheck : ∀ s k s' b, check s k = Some (s', b) → keeps s s').

Lemma keeps_checked s k s' : fst <$> check s k = Some s' → keeps s s'.
Proof using Hcheck. destruct (check s k) as [[s1 b]|] eqn:Hc; simpl; [|done]. intros [= <-]. by eapply Hcheck. Qed.

Lemma keeps_try s k s' : tryScheduleNode_with cg sched check s k = Some s' → keeps s s'.
Proof using Hcheck.
  unfold tryScheduleNode_with. destruct (isStopRequested s) as [s1 stop] eqn:Hs. apply calm_stopRequested, calm_keeps in Hs.
  destruct stop; [by intros [= <-]|]. destruct (stateByIndex s1 k) as [nd|]; [|by intros [= <-]]. case_decide; [by intros [= <-]|].
  destruct (allInputPortsDrained nd); [intros Hc%keeps_checked; by etrans|].
  destruct (sr_decision _); intros [= <-]; (etrans; [exact Hs|]); try done; [apply calm_keeps, calm_schedule|apply calm_keeps, calm_retry].
Qed.

(** An edge delivers what it carries. *)
Lemma edge_flow outputs pu ha pe ph s k e s' :
  e ∈ outEdges cg k → propagate_edge cg sched check outputs (Some s) e = Some s' →
  flow pu ha (carried outputs [e] ++ pe) ph s → flow pu ha pe ph s'.
Proof using Hcheck Hfed.
  intros Hin. unfold propagate_edge. cbn [mbind option_bind]. rewrite carried_cons. change (carried outputs []) with (@nil PortDataPtr).
  rewrite app_nil_r. case_decide as Hd.
  - destruct (proj2 Hfed k e Hin Hd) as (_ & Hport). rewrite Hport, Hd. intros Hp F.
    destruct (pm_find outputs (oe_source_port e)) as [x|]; simpl in F; [|by injection Hp as <-].
    destruct (flow_node _ _ _ _ _ F) as (nd & q & Hnd & Hname & _ & Hqs & _). rewrite Hnd, Hqs in Hp. simpl in Hp. destruct (queue_push s j 0 x) as [s1 ok] eqn:Hq.
    pose proof (push_at _ _ _ _ _ _ _ _ F Hq) as F1. destruct ok; [apply keeps_try in Hp; by apply Hp, F1|]. injection Hp as <-.
    unfold recordQueueRejection. rewrite Hname. eapply pay_drop; [done|by apply (sublist_cons x)|simpl; lia|]. eapply flow_calm; [ |exact F1]. by apply calm_same.
  - intros Hp F. assert (keeps s s') as Hkp; [|by apply Hkp]. destruct (pm_find _ _) as [x|]; [|by injection Hp as <-].
    destruct (stateByIndex s _) as [dest|]; [|by injection Hp as <-]. destruct (oe_dest_port_index e) as [n|]; [|by injection Hp as <-].
    destruct (nd_queues dest !! n); [|by injection Hp as <-]. destruct (queue_push s _ n x) as [s1 ok] eqn:Hq.
    apply calm_push in Hq; [|done]. apply calm_keeps in Hq. destruct ok; [apply keeps_try in Hp; by etrans|].
    injection Hp as <-. etrans; [exact Hq|]. apply calm_keeps, calm_rejection.
Qed.

Lemma propagate_none outputs l : foldl (propagate_edge cg sched check outputs) None l = None.
Proof. by induction l. Qed.

Lemma propagate_flow outputs pu ha pe ph s k s' :
  propagateOutputs_with cg sched check s k outputs = Some s' →
  (pe ≠ [] → sending ph = true) → flow pu ha (carried outputs (outEdges cg k) ++ pe) ph s → flow pu ha pe ph s'.
Proof using Hcheck Hfed.
  unfold propagateOutputs_with. destruct (e_stopFlag s) eqn:Hst; [intros [= <-] Hpe; by apply flow_stopped|]. intros Hp Hpe. revert Hp.
  assert (∀ e, e ∈ outEdges cg k → e ∈ outEdges cg k) as Hin by done. revert Hin. generalize (outEdges cg k) at 1 3 4. intros l.
  clear Hst. revert s. induction l as [|e l IH]; intros s Hin; cbn [foldl]; [by intros [= <-]|].
  destruct (propagate_edge cg sched check outputs (Some s) e) as [s1|] eqn:He; [|by rewrite propagate_none].
  intros Hp F. apply (IH s1); [intros; apply Hin; by right|done|]. eapply edge_flow; [apply Hin; by left|exact He|].
  rewrite carried_cons, <-app_assoc in F. rewrite carried_cons, <-app_assoc. exact F.
Qed.

(** The ports behind a node that is done are closed. *)
Lemma latches_flow pu ha pe ph k l s s' :
  (∀ e, e ∈ l → e ∈ outEdges cg k) → (feed = Some k → ph = Done) →
  foldl (λ acc edge, s ← acc;
    match stateByIndex s (oe_dest_node edge) with
    | None => Some s
    | Some _ => latchPortEos_with check s (oe_dest_node edge) (oe_dest_port_index edge)
    end) (Some s) l = Some s' →
  flow pu ha pe ph s → flow pu ha pe ph s'.
Proof using Hcheck Hfed.
  intros Hl Hph. revert s. induction l as [|e l IH]; intros s; cbn [foldl]; [by intros [= <-]|]. cbn [mbind option_bind].
  destruct (match stateByIndex s _ with Some _ => _ | None => _ end) as [s1|] eqn:He.
  2:{ intros Hn. exfalso. clear -Hn. induction l as [|e' l IHl]; [done|]. by apply IHl. }
  intros Hf F. apply (IH ltac:(intros; apply Hl; by right) s1 Hf). destruct (stateByIndex s _) as [dest|]; [|by injection He as <-].
  unfold latchPortEos_with in He. destruct (oe_dest_port_index e) as [n|]; [|by injection He as <-]. case_decide; [by injection He as <-|].
  apply keeps_checked in He. apply He. apply flow_latch; [|done]. intros Hd.
  destruct (proj2 Hfed k e (Hl e ltac:(by left)) Hd) as [Hfk _]. rewrite (Hph Hfk) in F.
  split; [|apply (fl_phase _ _ _ _ _ F)]. destruct pe; [done|]. by pose proof (fl_pend _ _ _ _ _ F ltac:(done)).
Qed.
End Cascade.

Lemma calm_sink s : calm s (recordSinkEndOfStream cg s).
Proof. unfold recordSinkEndOfStream. repeat case_match; try (by apply calm_same). etrans; [|by apply calm_observe]. by apply calm_same. Qed.

Lemma calm_collect (sink : bool) s name outputs :
  calm s (if sink then collectResults (bump s (λ t, es_add_total_output_frames t 1)) name outputs else s).
Proof. destruct sink; [by apply calm_same|done]. Qed.

(** The flush of a node: it claims the node, so nothing it has sent is on its way. *)
Lemma keeps_check fuel s k s' b : checkNodeEndOfStream cg sched onEndOfStream elapsed fuel s k = Some (s', b) → keeps s s'.
Proof using Hptr Hfed.
  revert s k s' b. induction fuel as [|fuel IH]; intros s k s' b; cbn [checkNodeEndOfStream]; [done|].
  destruct (_ || _) eqn:Hrun; [by intros [= <- _]|]. apply orb_false_iff in Hrun as [_ Hst].
  destruct (stateByIndex s k) as [nd|] eqn:Hk; [|by intros [= <- _]].
  destruct (nd_eos_propagated nd) eqn:Hprop; [by intros [= <- _]|]. destruct (allInputPortsDrained nd) eqn:Hdr; cbn [negb]; [|by intros [= <- _]].
  destruct (claimable _) eqn:Hcl; cbn [negb]; [|by intros [= <- _]]. set (f := λ nd, nd_set_eos_propagated _ _). set (s1 := upd_node s k f).
  destruct (run_flush _ _ s1 nd) as [s2 outputs] eqn:Hf. intros Hrun pu ha pe ph F.
  destruct (flow_claim _ _ _ _ _ _ _ Hk Hst Hcl Hprop Hdr F) as [Hfree F1]. fold f s1 in F1.
  assert (stateByIndex s1 k = Some (f nd)) as Hk1 by (unfold s1; by rewrite lookup_upd_node, decide_True, Hk).
  pose proof (flush_flow pu ha pe ph s1 k (f nd) s2 outputs Hk1 Hf F1) as F2.
  assert (pe ++ carried outputs (outEdges cg k) = carried outputs (outEdges cg k) ++ pe) as Hcomm.
  { destruct (decide (feed = Some k)) as [Hfk|Hfk]; [destruct (Hfree Hfk) as [_ ->]; by rewrite app_nil_r|].
    by rewrite (carried_other outputs k Hfk), app_nil_r. }
  rewrite Hcomm in F2. clear Hcomm. assert (pe ≠ [] → sending (at_node k Flushing ph) = true) as Hsend by apply (fl_pend _ _ _ _ _ F1).
  set (o := match outputs with [] => Some s2 | _ => _ end) in Hrun. destruct o as [s3|] eqn:Ho; [|done]. cbn [mbind option_bind] in Hrun.
  assert (flow pu ha pe (at_node k Flushing ph) s3) as F3.
  { unfold o in Ho. destruct outputs as [|x outputs]; [injection Ho as <-; by rewrite carried_empty in F2|].
    eapply propagate_flow; [exact IH|exact Ho|exact Hsend|]. eapply flow_calm; [apply calm_collect|exact F2]. }
  apply flow_flushed in F3; [|intros Hfk; by apply Hfree]. clear Ho o F2 F1.
  destruct (foldl _ (Some (set_exec s3 k COMPLETED)) _) as [s4|] eqn:Hl; [|done]. cbn [mbind option_bind] in Hrun. injection Hrun as <- _.
  apply (latches_flow _ IH pu ha pe (at_node k Done ph) k) in Hl; [|done|by intros Hfk; unfold at_node; rewrite decide_True|done].
  assert (flow pu ha pe ph s4) as F4.
  { unfold at_node in Hl. case_decide as Hfk; [|done]. destruct (Hfree Hfk) as [-> ->]. by eapply flow_free. }
  eapply flow_calm; [|exact F4]. case_match; [apply calm_sink|done].
Qed.

Lemma keeps_checkEos s k s' b : checkEos cg sched onEndOfStream elapsed s k = Some (s', b) → keeps s s'.
Proof using Hptr Hfed. apply keeps_check. Qed.

Lemma keeps_tryScheduleNode s k s' : tryScheduleNode cg sched onEndOfStream elapsed s k = Some s' → keeps s s'.
Proof using Hptr Hfed. apply keeps_try, keeps_checkEos. Qed.

(** ** Tasks *)

Lemma success_flow pu ha s k nd outputs s' :
  handleNodeSuccess cg sched onEndOfStream elapsed s k nd outputs = Some s' →
  flow pu ha (carried outputs (outEdges cg k)) (at_node k Busy Free) s → flow pu ha [] Free s'.
Proof using Hptr Hfed.
  unfold handleNodeSuccess. set (s0 := upd_node s k _). set (s2 := if isSink cg k then _ else _). intros Hp F.
  assert (calm s s2) as E2.
  { transitivity s0; [by apply calm_field|]. transitivity (bump s0 (λ t, es_add_successful_executions t 1)); [by apply calm_same|]. apply calm_collect. }
  apply (flow_calm _ s2) in F; [|done].
  destruct (propagateOutputs _ _ _ _ s2 k outputs) as [s3|] eqn:H3; [|done]. cbn [mbind option_bind] in Hp.
  rewrite <-(app_nil_r (carried _ _)) in F. eapply propagate_flow in F; [|exact keeps_checkEos|exact H3|done].
  destruct (trace_propagation_frame s3 nd outputs (e_now s2)) as [sink Ht]. rewrite Ht in Hp.
  apply (flow_calm _ (e_set_traceSink s3 sink)) in F; [|by apply calm_same].
  destruct (onNodeComplete sched true); [apply keeps_tryScheduleNode in Hp; apply Hp|injection Hp as <-]; by apply flow_release.
Qed.

Lemma failure_flow pu ha s k s' :
  handleNodeFailure cg sched onEndOfStream elapsed s k = Some s' → flow pu ha [] (at_node k Busy Free) s → flow pu ha [] Free s'.
Proof using Hptr Hfed.
  unfold handleNodeFailure. set (s0 := bump s _). intros Hp F. apply (flow_calm _ s0) in F; [|by apply calm_same].
  destruct (e_streamingMode s0); [apply keeps_tryScheduleNode in Hp; apply Hp; by apply flow_release|]. injection Hp as <-.
  apply (flow_release _ _ _ k FAILED) in F. eapply flow_calm; [apply calm_stop|exact F].
Qed.

Lemma take_at pu ph fuel g g' ok : ga_index g = j → ga_delivered g = [] → flow pu [] [] ph (ga_engine g) →
  pop_undropped cfg fuel g 0 = (g', ok) →
  if ok then ∃ x, flow pu [x] [] ph (ga_engine g') ∧ ga_delivered g' = [(0, x)] else flow pu [] [] ph (ga_engine g').
Proof.
  revert g. induction fuel as [|fuel IH]; intros [s i l]; simpl; intros -> -> F; [by intros [= <- <-]|].
  destruct (queue_pop s j 0) as [s1 r] eqn:Hp. apply (pop_at pu [] ph) in Hp; [|done].
  destruct r as [x|]; [|by intros [= <- <-]]. simpl in Hp. destruct (flow_node _ _ _ _ _ Hp) as (nd & q & Hj1 & Hname & _). rewrite Hj1.
  destruct (match x with Some _ => _ | None => _ end).
  - intros Hl. apply IH in Hl; [done|done|done|]. simpl. unfold recordSyncDrop. rewrite Hname.
    eapply (pay_drop pu [x] [] [] []); [by apply sublist_nil_l|done|done|]. eapply flow_calm; [|exact Hp]. by apply calm_same.
  - intros [= <- <-]. exists x. split; [|done]. simpl. eapply flow_calm; [|exact Hp]. unfold recordDequeue.
    repeat case_match; by apply calm_same.
Qed.

Lemma gather_at pu ph s nd g ok : stateByIndex s j = Some nd → flow pu [] [] ph s → gatherNodeInputs cfg s j = Some (g, ok) →
  if ok then ∃ x, flow pu [x] [] ph (ga_engine g) ∧ gathered_inputs nd g = [(port, x)] else flow pu [] [] ph (ga_engine g).
Proof.
  intros Hnd F. destruct (flow_node _ _ _ _ _ F) as (nd' & q & Hnd' & _ & Hports & _). rewrite Hnd in Hnd'. injection Hnd' as <-.
  unfold gatherNodeInputs. rewrite Hnd, Hports, decide_False by (simpl; lia). intros Hg%(inj Some).
  cbn [length seq plain_gather ga_engine ga_index] in Hg. rewrite Hnd in Hg. destruct (portDrained nd 0); [by injection Hg as <- <-|].
  destruct (pop_undropped _ _ _ _) as [g1 b] eqn:Hp. apply (take_at pu ph) in Hp; [|done|done|done].
  destruct b; injection Hg as <- <-; [|done]. destruct Hp as (x & Hx & Hd). exists x. split; [done|].
  unfold gathered_inputs. rewrite Hd, Hports. done.
Qed.

(** What node [k] has in hand when it is called with [inputs]. *)
Definition in_hand (k : nat) (inputs : PortDataMap) (ha : list PortDataPtr) : Prop :=
  if decide (k = j) then ∃ x, inputs = [(port, x)] ∧ ha = [x] else ha = [].

(** A task runs user code on what was gathered. *)
Lemma process_flow pu ha s k nd nd' inputs s' r :
  indexOfPtr cg (nd_node nd) = Some k → stateByIndex s k = Some nd' → in_hand k inputs ha → processNode process elapsed s nd inputs = (s', r) →
  flow pu ha [] (at_node k Busy Free) s →
  flow pu [] (match r with Some outputs => carried (inheritFrameIdentity inputs outputs) (outEdges cg k) | None => [] end) (at_node k Busy Free) s'.
Proof using Hptr Hj Hfed.
  intros Hk Hnd Hha Hp F. unfold processNode in Hp. set (ev := EvProcess (nd_node nd) inputs) in Hp. set (s1 := observe s ev) in Hp.
  assert (nd_node nd = pj ↔ k = j) as Hkj.
  { pose proof (proj2 (Hptr _ _) Hj) as Hj'. split; [intros E; rewrite E in Hk; congruence|intros ->]. apply Hptr in Hk. congruence. }
  unfold in_hand in Hha. assert (flow pu [] ([] ++ sends (e_log s) ev) (at_node k Busy Free) s1) as F1.
  { apply (flow_call pu ha []); try done.
    - intros inputs' [= Hpj <-]. rewrite decide_True in Hha by (by apply Hkj). destruct Hha as (x & -> & _). by exists x.
    - unfold ev, taken. simpl. rewrite !app_nil_r. destruct (decide (nd_node nd = pj)) as [Hpj|Hpj].
      + rewrite decide_True in Hha by (by apply Hkj). by destruct Hha as (x & -> & ->).
      + rewrite decide_False in Hha; [done|]. by rewrite <-Hkj.
    - intros Hne. unfold at_node. destruct (decide (feed = Some k)) as [Hfk|Hfk]; [split; [done|by exists k, nd']|exfalso].
      apply Hne. simpl. rewrite Hk. case_match; [by apply carried_other|done]. }
  simpl in F1. rewrite Hk in F1. set (s2 := e_set_now s1 _) in Hp. apply (flow_calm s1 s2) in F1; [|by apply calm_same].
  destruct (process (e_log s) (nd_node nd) inputs) as [outs|what]; injection Hp as <- <-; [done|].
  eapply flow_calm; [by apply calm_observe|exact F1].
Qed.

Lemma run_node_flow pu ha s k nd nd' inputs s' :
  indexOfPtr cg (nd_node nd) = Some k → stateByIndex s k = Some nd' → in_hand k inputs ha →
  run_node cfg cg sched process onEndOfStream elapsed s k nd inputs = Some s' →
  flow pu ha [] (at_node k Busy Free) s → flow pu [] [] Free s'.
Proof using Hptr Hj Hfed.
  intros Hk Hnd Hha Hr F. unfold run_node, run_node_with in Hr. set (s0 := bump s _) in Hr. apply (flow_calm s s0) in F; [|by apply calm_same].
  destruct (processNode _ _ s0 nd inputs) as [s1 r] eqn:Hp. apply (process_flow pu ha _ k _ nd') in Hp; [|done|done|done|done].
  set (pe := match r with Some _ => _ | None => _ end) in Hp. set (s1' := bump (emitTrace s1 _ _ _ _ _ _) _) in Hr.
  set (s2 := if ec_enable_statistics cfg then _ else _) in Hr.
  assert (calm s1 s2) as E2.
  { transitivity s1'; [by apply calm_same|]. unfold s2. destruct (ec_enable_statistics cfg); [by apply calm_field|done]. }
  apply (flow_calm _ s2) in Hp; [|done]. rename Hp into F2.
  destruct (if e_stopFlag s2 then _ else _) as [s3|] eqn:H3; [|done]. cbn [mbind option_bind] in Hr.
  assert (flow pu [] [] Free s3) as F3.
  { destruct (e_stopFlag s2) eqn:Hst.
    - injection H3 as <-. rewrite <-(app_nil_r pe) in F2. apply (flow_stopped _ _ _ _ _ Free) in F2; [|done|done].
      eapply flow_calm; [by apply calm_exec_stopped|exact F2].
    - unfold pe in F2. destruct r as [outputs|]; [|by eapply failure_flow]. eapply success_flow; [exact H3|].
      eapply flow_calm; [|exact F2]. unfold mark_processed, record_latency. repeat case_match; by apply calm_same. }
  destruct (checkEos _ _ _ _ s3 k) as [[s4 b]|] eqn:H4; [|done]. cbn [mbind option_bind] in Hr. injection Hr as <-.
  apply keeps_checkEos in H4. apply H4 in F3. eapply flow_calm; [apply calm_done|exact F3].
Qed.

(** The gather of the node, or of another. *)
Lemma gather_flow pu ph s k nd g ok :
  stateByIndex s k = Some nd → flow pu [] [] ph s → gatherNodeInputs cfg s k = Some (g, ok) →
  ∃ ha, flow pu ha [] ph (ga_engine g) ∧ if ok then in_hand k (gathered_inputs nd g) ha else ha = [].
Proof.
  intros Hk F Hg. unfold in_hand. destruct (decide (k = j)) as [->|Hkj].
  - apply (gather_at pu ph _ _ _ _ Hk) in Hg; [|done]. destruct ok; [|by exists []]. destruct Hg as (x & Fx & Hx). exists [x]. split; [done|]. by exists x.
  - apply calm_gather in Hg; [|done]. apply (flow_calm _ (ga_engine g)) in F; [|done]. exists []. by destruct ok.
Qed.

Lemma task_flow pu s k s' :
  executeNodeTask cfg cg sched process onEndOfStream elapsed s k = Some s' → flow pu [] [] Free s → flow pu [] [] Free s'.
Proof using Hptr Hj Hfed.
  assert (∀ s0, flow pu [] [] Free s0 → flow pu [] [] Free (task_done cg sched s0)) as Hdone by (intros s0; apply flow_calm, calm_done).
  unfold executeNodeTask, executeNodeTask_with. intros Hr F. destruct (stateByIndex s k) as [nd|] eqn:Hk; [|injection Hr as <-; by apply Hdone].
  pose proof (node_at _ _ _ _ _ _ _ F Hk) as Hix. destruct (isStopRequested s) as [s1 stop] eqn:Hs.
  assert (e_nodes s1 = e_nodes s ∧ (stop = true → e_stopFlag s1 = true)) as [Hn Hst].
  { unfold isStopRequested, stopExecutionAsync in Hs. repeat case_match; by simplify_eq. }
  apply calm_stopRequested in Hs. apply (flow_calm _ s1) in F; [|done].
  destruct stop; [injection Hr as <-; apply Hdone; eapply flow_calm; [by apply calm_exec_stopped, Hst|exact F]|].
  case_decide as Hready; [injection Hr as <-; by apply Hdone|].
  assert (stateByIndex s1 k = Some nd) as Hk1 by (unfold stateByIndex; by rewrite Hn). set (s2 := set_exec s1 k EXECUTING) in Hr.
  apply (flow_start pu s1 k nd Hk1 Hready) in F. fold s2 in F. pose proof (set_exec_at s1 k nd EXECUTING Hk1) as Hk2. fold s2 in Hk2.
  destruct (gatherNodeInputs cfg s2 k) as [[g ok]|] eqn:Hg; [|done]. cbn [mbind option_bind] in Hr.
  destruct (gather_flow pu _ _ _ _ _ _ Hk2 F Hg) as (ha & Fg & Hha).
  assert (∃ nd', stateByIndex (ga_engine g) k = Some nd') as [nd' Hkg].
  { apply Hptr in Hix. rewrite <-(fl_nodes _ _ _ _ _ Fg), list_lookup_fmap in Hix. apply fmap_Some in Hix as (nd' & ? & _). by exists nd'. }
  destruct ok; [by eapply run_node_flow|]. subst ha. case_match.
  - destruct (checkEos _ _ _ _ _ k) as [[s3 b]|] eqn:H3; [|done]. cbn [mbind option_bind] in Hr. apply keeps_checkEos in H3.
    apply (flow_release _ _ _ k WAITING), H3 in Fg. destruct b; [injection Hr as <-; by apply Hdone|].
    destruct (tryScheduleNode _ _ _ _ s3 k) as [s4|] eqn:H4; [|done]. cbn [mbind option_bind] in Hr. injection Hr as <-. apply Hdone.
    apply keeps_tryScheduleNode in H4. by apply H4.
  - destruct (handleNodeFailure _ _ _ _ _ k) as [s3|] eqn:H3; [|done]. cbn [mbind option_bind] in Hr. injection Hr as <-. apply Hdone.
    by eapply failure_flow.
Qed.

(** ** Calls *)

(** What a caller hands to the node, if the engine takes it. *)
Definition offers s (op : EngineOp) : list PortDataPtr :=
  match op with
  | OpPush node name x =>
      match pushInput deref cfg cg sched onEndOfStream elapsed s node name x with
      | Some (_, ROk _) =>
          if bool_decide (indexOf cg node = Some j) && isInputPort deref pj (actual_port deref pj name)
          then [(stampIncomingFrame cfg s x).2] else []
      | _ => []
      end
  | _ => []
  end.

(** Callers push to the node or close its port only if it has no feeder, and do not push
    to the output of the feeder. *)
Definition permitted (op : EngineOp) : Prop :=
  match op with
  | OpPush node name _ => ∀ k p, indexOf cg node = Some k → cg_nodes cg !! k = Some p →
      if isInputPort deref p (actual_port deref p name) then k = j → feed = None else feed ≠ Some k
  | OpClose node _ => indexOf cg node = Some j → feed = None
  | _ => True
  end.

Lemma sent_none log : feed = None → sent log = [].
Proof using Hfed.
  intros Hf. assert (∀ outputs k, carried outputs (outEdges cg k) = []) as Hc by (intros; apply carried_other; by rewrite Hf).
  unfold sent. generalize (@nil Event). induction log as [|ev log IH]; intros pre; [done|]. simpl. rewrite IH, app_nil_r.
  unfold sends. repeat case_match; try done.
Qed.

(** A packet from a caller is on its way. *)
Lemma flow_offer pu s x nd : feed = None → stateByIndex s j = Some nd → portEosLatched nd 0 = false →
  flow pu [] [] Free s → flow (pu ++ [x]) [] [x] Busy s.
Proof using Hfed.
  intros Hf Hnd Hopen F. destruct (flow_node _ _ _ _ _ F) as (nd' & q' & Hnd' & _ & _ & _ & Hs' & _).
  rewrite Hnd in Hnd'. injection Hnd' as <-. destruct F as [FN FB FP FI (q & lat & fin & Hs & Hq & Ho & Hsub & Hc)].
  rewrite Hs in Hs'. injection Hs' as <- -> ->. split; try done.
  - intros _ i nd' Hi. congruence.
  - exists q, (portEosLatched nd 0), (nd_eos_propagated nd). rewrite sent_none in * by done. rewrite !app_nil_r in *. split_and!; try done.
    + simpl in *. rewrite (app_assoc (taken _)). by apply sublist_app.
    + intros Hst. destruct (Hc Hst) as [[Hlat Hfin] Hlen]. repeat rewrite length_app in Hlen. repeat rewrite length_app. split; [split|lia].
      * congruence.
      * intros Ht. destruct (Hfin Ht). congruence.
Qed.

(** The packets a caller pushes to an output port go to other nodes. *)
Lemma route_flow pu s p k name x s' r :
  indexOfPtr cg p = Some k → feed ≠ Some k → routeToDownstream deref cg sched onEndOfStream elapsed s p name x = Some (s', r) →
  flow pu [] [] Free s → flow pu [] [] Free s'.
Proof using Hptr Hfed.
  intros Hk Hf. unfold routeToDownstream. rewrite Hk. destruct (foldl _ _ _) as [[s1 [[a b] c]]|] eqn:Hl; [|done]. cbn [mbind option_bind].
  intros [= <- _]. assert (∀ e, e ∈ outEdges cg k → oe_dest_node e ≠ j) as Hin by (intros e He Hd; by apply Hf, (proj2 Hfed k e)).
  revert Hl Hin. generalize (0, 0, 0)%Z. generalize (outEdges cg k). intros l. revert s.
  induction l as [|e l IH]; intros s z; cbn [foldl]; [by intros [= <- _]|]. destruct z as [[za zb] zc].
  destruct (route_edge _ _ _ _ _ _ (Some (s, (za, zb, zc))) e) as [[s2 z2]|] eqn:He.
  - intros Hl Hin F. eapply IH; [exact Hl|intros; apply Hin; by right|]. assert (oe_dest_node e ≠ j) as Hd by (apply Hin; by left).
    unfold route_edge in He. cbn [mbind option_bind] in He. case_decide; [by injection He as <- _|].
    destruct (stateByIndex s _); [|by injection He as <- _]. destruct (pushToQueue s _ _ x) as [s3 ok] eqn:Hp.
    apply calm_pushTo in Hp; [|done]. apply (flow_calm _ s3) in F; [|done].
    destruct ok; [|by injection He as <- _]. destruct (tryScheduleNode _ _ _ _ _ _) as [s4|] eqn:Ht; [|done]. injection He as <- _.
    apply keeps_tryScheduleNode in Ht. apply Ht. eapply flow_calm; [ |exact F]. by apply calm_same.
  - intros Hl. exfalso. clear -Hl. induction l as [|e l IH]; [done|]. by apply IH.
Qed.

(** A push to the node itself. *)
Lemma pushTo_flow pu s name x s' ok nd : feed = None → stateByIndex s j = Some nd →
  match port_index (nd_input_ports nd) name with Some n => portEosLatched nd n | None => false end = false →
  pushToQueue s j name x = (s', ok) → flow pu [] [] Free s → flow (pu ++ if ok then [x] else []) [] [] Free s'.
Proof using Hfed.
  intros Hf Hnd Hopen Hp F. destruct (flow_node _ _ _ _ _ F) as (nd' & q & Hnd' & _ & Hports & _). rewrite Hnd in Hnd'. injection Hnd' as <-.
  unfold pushToQueue in Hp. rewrite Hnd in Hp. rewrite Hports in Hp, Hopen.
  destruct (port_index [port] name) as [n|] eqn:Hn; [|injection Hp as <- <-; by rewrite app_nil_r].
  assert (n = 0) as ->.
  { apply port_index_Some in Hn as [Hn _]. by destruct n. }
  destruct (queue_push s j 0 x) as [s1 ok1] eqn:Hq. destruct ok1; injection Hp as <- <-.
  - eapply flow_calm; [by apply (calm_same s1)|]. eapply flow_free. apply (push_at (pu ++ [x]) [] [x] _ _ _ _ _ (flow_offer pu s x nd Hf Hnd Hopen F) Hq []). done.
  - rewrite app_nil_r. eapply flow_calm; [apply calm_rejection|]. exact (push_at pu [] [] _ _ _ _ _ F Hq).
Qed.

Lemma push_flow pu s node name x s' r :
  permitted (OpPush node name x) → pushInput deref cfg cg sched onEndOfStream elapsed s node name x = Some (s', r) → flow pu [] [] Free s →
  flow (pu ++ offers s (OpPush node name x)) [] [] Free s'.
Proof using Hptr Hj Hfed.
  intros Hperm Hpush F. unfold offers. rewrite Hpush. unfold pushInput in Hpush.
  assert (∀ e, Some (s, RErr e) = Some (s', r) → flow (pu ++ match r with ROk _ =>
    if bool_decide (indexOf cg node = Some j) && isInputPort deref pj (actual_port deref pj name) then [(stampIncomingFrame cfg s x).2] else []
    | RErr _ => [] end) [] [] Free s') as Herr by (intros e [= <- <-]; by rewrite app_nil_r).
  destruct (_ && _); [by eapply Herr|]. destruct (stateByName cg s node) as [k|] eqn:Hn; [|by eapply Herr].
  assert (indexOf cg node = Some k) as Hix.
  { unfold stateByName in Hn. destruct (indexOf cg node) as [k'|]; [|done]. simpl in Hn. by destruct (stateByIndex s k'); simplify_eq/=. }
  destruct (stateByIndex s k) as [nd|] eqn:Hk; [|by eapply Herr]. case_decide; [by eapply Herr|].
  pose proof (node_at _ _ _ _ _ _ _ F Hk) as Hp. pose proof (proj1 (Hptr _ _) Hp) as Hck. specialize (Hperm k (nd_node nd) Hix Hck).
  rewrite Hix in Herr |- *.
  destruct (isInputPort deref (nd_node nd) _) eqn:Hin.
  - destruct (match port_index _ _ with Some _ => _ | None => _ end) eqn:Hopen; [by eapply Herr|].
    destruct (stampIncomingFrame cfg s x) as [s1 x1] eqn:Hst. assert (e_nodes s1 = e_nodes s) as Hn1
      by (unfold stampIncomingFrame in Hst; repeat case_match; by injection Hst as <- _).
    apply (flow_calm _ s1) in F; [|unfold stampIncomingFrame in Hst; repeat case_match; injection Hst as <- _; by apply calm_same].
    destruct (pushToQueue s1 k _ x1) as [s2 ok] eqn:Hq. simpl. destruct (decide (k = j)) as [->|Hkj].
    + assert (nd_node nd = pj) as Hpj by congruence. assert (stateByIndex s1 j = Some nd) as Hk1 by (unfold stateByIndex; by rewrite Hn1).
      rewrite Hpj in Hin, Hq, Hopen. rewrite Hin, bool_decide_eq_true_2 by done. simpl.
      apply (pushTo_flow pu _ _ _ _ _ nd) in Hq; [|by apply Hperm|done|done|done]. destruct ok; [|by injection Hpush as <- <-].
      destruct (tryScheduleNode _ _ _ _ _ j) as [s3|] eqn:Ht; [|done]. cbn [mbind option_bind] in Hpush. injection Hpush as <- <-.
      apply keeps_tryScheduleNode in Ht. apply Ht. eapply flow_calm; [ |exact Hq]. by apply calm_same.
    + rewrite bool_decide_eq_false_2 by congruence. simpl. apply calm_pushTo in Hq; [|done].
      apply (flow_calm _ s2) in F; [|done]. destruct ok; [|injection Hpush as <- <-; by rewrite app_nil_r].
      destruct (tryScheduleNode _ _ _ _ _ k) as [s3|] eqn:Ht; [|done]. cbn [mbind option_bind] in Hpush. injection Hpush as <- <-.
      rewrite app_nil_r. apply keeps_tryScheduleNode in Ht. apply Ht. eapply flow_calm; [ |exact F]. by apply calm_same.
  - destruct (isOutputPort _ _ _); [|by eapply Herr]. apply (route_flow pu s _ k) in Hpush; [|done|done|done].
    assert (bool_decide (Some k = Some j) && isInputPort deref pj (actual_port deref pj name) = false) as ->.
    { destruct (decide (k = j)) as [->|Hkj]; [|by rewrite bool_decide_eq_false_2 by congruence].
      assert (nd_node nd = pj) as Hpj by congruence. rewrite <-Hpj, Hin. by rewrite andb_false_r. }
    by destruct r; rewrite app_nil_r.
Qed.

Lemma signal_flow pu s node name s' r :
  permitted (OpClose node name) → signalEndOfStream cg sched onEndOfStream elapsed s node name = Some (s', r) →
  flow pu [] [] Free s → flow pu [] [] Free s'.
Proof using Hptr Hfed.
  intros Hperm Hs F. unfold signalEndOfStream in Hs. destruct (negb _); [by injection Hs as <- _|].
  destruct (stateByName cg s node) as [k|] eqn:Hn; [|by injection Hs as <- _].
  assert (indexOf cg node = Some k) as Hix.
  { unfold stateByName in Hn. destruct (indexOf cg node) as [k'|]; [|done]. simpl in Hn. by destruct (stateByIndex s k'); simplify_eq/=. }
  destruct (stateByIndex s k) as [nd|]; [|by injection Hs as <- _]. destruct (nd_input_ports nd) as [|first ports]; [by injection Hs as <- _|].
  destruct (port_index _ _) as [n|]; [|by injection Hs as <- _]. case_decide; [by injection Hs as <- _|].
  destruct (portEosLatched nd n); [by injection Hs as <- _|]. destruct (checkEos _ _ _ _ _ k) as [[s1 b]|] eqn:Hc; [|done].
  cbn [mbind option_bind] in Hs. apply keeps_checkEos in Hc. apply (flow_latch pu [] [] Free s k n), Hc in F.
  - destruct b; [by injection Hs as <- _|]. destruct (tryScheduleNode _ _ _ _ s1 k) as [s2|] eqn:Ht; [|done]. cbn [mbind option_bind] in Hs.
    injection Hs as <- _. apply keeps_tryScheduleNode in Ht. by apply Ht.
  - intros ->. split; [done|]. intros _ i nd' Hi. rewrite (Hperm Hix) in Hi. done.
Qed.

Lemma keeps_timer s n s' : defer_fire cg sched onEndOfStream elapsed s n = Some s' → keeps s s'.
Proof using Hptr Hfed.
  unfold defer_fire. destruct (e_deferQueue s !! n) as [[due k]|]; [|by intros [= <-]]. case_decide; [|by intros [= <-]].
  set (s1 := e_set_deferQueue s _). assert (keeps s s1) as E1 by (by apply calm_keeps, calm_same).
  destruct (stateByIndex s1 k); [|by intros [= <-]]. intros Ht%keeps_tryScheduleNode. etrans; [exact E1|]. etrans; [|exact Ht].
  by apply calm_keeps, calm_field.
Qed.

Lemma calm_watchdog s : calm s (watchdog_scan cfg cg sched s).
Proof.
  unfold watchdog_scan. destruct (e_stopFlag s); [done|]. apply calm_foldl. clear s. intros s k. unfold watchdog_node.
  destruct (stateByIndex s k) as [nd|]; [|done]. repeat (case_decide; [by apply calm_field || done|]).
  etrans; [|apply calm_schedule]. by apply calm_field.
Qed.

(** ** Runs *)

Notation op_of := (engine_op deref cfg cg sched process onEndOfStream elapsed).
Notation run_of := (engine_run deref cfg cg sched process onEndOfStream elapsed).

Lemma op_flow pu s op s' : permitted op → op_of s op = Some s' → flow pu [] [] Free s → flow (pu ++ offers s op) [] [] Free s'.
Proof using Hptr Hj Hfed.
  intros Hperm Ho F. destruct op as [k|node name x|node name|k| | | |ns]; simpl in Ho;
    [rewrite app_nil_r|apply fst_fmap_Some in Ho as [r Ho]; by eapply push_flow|rewrite app_nil_r..].
  - unfold run_task in Ho. destruct (e_pool s !! k) as [i|]; [|by injection Ho as <-].
    destruct (pick_up_frame cfg s k i) as (? & ? & Hup). rewrite Hup in Ho. eapply task_flow; [exact Ho|].
    eapply flow_calm; [ |exact F]. by apply calm_same.
  - apply fst_fmap_Some in Ho as [r Ho]. by eapply signal_flow.
  - apply keeps_timer in Ho. by apply Ho.
  - injection Ho as <-. eapply flow_calm; [apply calm_watchdog|exact F].
  - injection Ho as <-. eapply flow_calm; [apply calm_stop|exact F].
  - injection Ho as <-. eapply flow_calm; [ |exact F]. by apply calm_same.
  - injection Ho as <-. eapply flow_calm; [ |exact F]. by apply calm_same.
Qed.

(** All that callers hand to the node in a run. *)
Fixpoint pushed_by s (ops : list EngineOp) : list PortDataPtr :=
  match ops with
  | [] => []
  | op :: rest => offers s op ++ match op_of s op with Some s' => pushed_by s' rest | None => [] end
  end.

Lemma run_flow pu s ops s' : Forall permitted ops → run_of s ops = Some s' →
  flow pu [] [] Free s → flow (pu ++ pushed_by s ops) [] [] Free s'.
Proof using Hptr Hj Hfed.
  intros Hperm. revert pu s. induction Hperm as [|op ops Hop _ IH]; intros pu s; simpl; [intros [= <-]; by rewrite app_nil_r|].
  destruct (op_of s op) as [s1|] eqn:Ho; [|done]. simpl. intros Hr F. rewrite app_assoc. eapply IH; [done|]. by eapply op_flow.
Qed.
End Flow.
