(* ===== verification/StreamFlow.v ===== *)
(** * What flows through a stream

    The packets a node processes are those that reach it, in order: from the ledger of
    [StreamLedger.v], for a stream that was started on a compiled graph.  At the end of
    the stream, if nothing was dropped, a graph whose nodes have one fed port each has
    computed the reference semantics [arrivals]: each node was called on what the node
    before it made of its packets. *)

From S2P Require Import Prelude Errors Packets Graphs CompiledGraphs MpmcQueue NodeQueue FrameAlignment.
From S2P Require Import SyncCoordinator JoinAwareSync ExecutionTypes Schedulers EngineCore EngineGather Dataflow Engine.
From S2P Require Import EngineRuns EngineCorrect BatchRun BatchCorrect StreamCorrect StreamLedger.
Local Open Scope string_scope.
Local Open Scope list_scope.
Local Open Scope nat_scope.

Lemma sublist_full {A} (l1 l2 : list A) : l1 `sublist_of` l2 → length l2 ≤ length l1 → l1 = l2.
Proof.
  induction 1 as [|x l1 l2 _ IH|x l1 l2 Hs IH]; simpl; intros Hl; [done|f_equal; apply IH; lia|].
  apply sublist_length in Hs. lia.
Qed.

(** ** Streams *)

Section Streams.
Context `{CppTypes} {Q Sy : Type} `{!PortQueue Q, !PortQueueLaws Q, !PortQueueReports Q, !SyncStrategy Sy}.
Context (deref : NodePtr → ILogicNode) (cfg : EngineConfig).
Context (process : list Event → NodePtr → PortDataMap → Outcome).
Context (onEndOfStream : list Event → NodePtr → Outcome) (elapsed : list Event → Z).
Context (setup : list Event → NodePtr → VoidResult + option string).
Notation Engine := (Engine Q Sy).
Notation sched := (scheduler_for cfg STREAM).
Notation run cg := (engine_run deref cfg cg sched process onEndOfStream elapsed).
Notation flow_at cg j p port feed := (flow cg process onEndOfStream j p (getName (deref p)) port feed).
Notation offered cg j p := (pushed_by deref cfg cg sched process onEndOfStream elapsed j p).
Notation sent_to cg j := (sent cg process onEndOfStream j).
Implicit Types (s : Engine) (cg : CompiledGraph).
#[local] Existing Instance calm_preorder.

Lemma calm_setup cg j feed s s' r : setupNodes deref cg setup s = (s', r) → calm j feed s s'.
Proof.
  unfold setupNodes. destruct (e_setUpNodes s); [|by intros [= <- _]]. generalize (cg_topoOrder cg). intros order. revert s.
  induction order as [|i order IH]; intros s; cbn [setup_loop]; [by intros [= <- _]|]. destruct (cg_node cg i) as [p|]; [|apply IH].
  assert (calm j feed s (observe s (EvSetup p))) as H1 by (by apply calm_observe). case_match.
  - intros Hl%IH. etrans; [exact H1|]. etrans; [|exact Hl]. by apply calm_same.
  - intros [= <- _]. etrans; [exact H1|]. generalize (observe s (EvSetup p)). intros s1. unfold teardownNodes.
    set (s2 := foldl _ _ _). transitivity s2; [|by apply calm_same]. apply calm_foldl. intros. by apply calm_observe.
Qed.

Lemma started_ptrs cg s : stream_started deref cfg setup cg s → ∀ p k, indexOfPtr cg p = Some k ↔ cg_nodes cg !! k = Some p.
Proof.
  intros (g & qcs & sync & now & context & Hr & Hsmall & Hc & _) p k. destruct (compile_inv _ _ _ Hr Hsmall Hc) as [Hok _].
  rewrite (co_nodes _ _ _ Hok). apply (co_ptrs _ _ _ Hok).
Qed.

(** A stream starts with nothing on its way. *)
Lemma started_flow cg s j p port feed :
  stream_started deref cfg setup cg s → cg_nodes cg !! j = Some p → getExpectedInputPorts (deref p) = [port] →
  flow_at cg j p port feed [] [] [] Free s.
Proof.
  intros (g & qcs & sync & now & context & _ & _ & _ & Hcap & Hs) Hj Hports. set (s0 := initialized _ _ _ _ _ _) in Hs.
  assert (flow_at cg j p port feed [] [] [] Free s0) as F.
  { assert (stateByIndex s0 j = Some (mkNodeState p (getName (deref p)) j [port] [pq_new (port_queue_config cfg qcs (getName (deref p)) port)]
      (sy_isEnabled sync && sy_tracksNode sync (getName (deref p))) as_reset WAITING 0 0 0 false false 0 false)) as Hnd.
    { unfold stateByIndex, s0. simpl. unfold initializeNodeStates. rewrite list_lookup_imap, Hj. simpl. unfold initializeQueues. by rewrite Hports. }
    destruct (pq_new_spec _ (Hcap (getName (deref p)) port)) as [Hok Hnil]. split; try done.
    - unfold s0. simpl. unfold initializeNodeStates. apply list_eq. intros i. rewrite list_lookup_fmap, list_lookup_imap. by destruct (cg_nodes cg !! i).
    - intros inputs Hin. by apply not_elem_of_nil in Hin.
    - eexists _, false, false. unfold shape. rewrite Hnd. split; [done|]. split_and!; [done|apply (pq_new_owned (port_queue_config cfg qcs (getName (deref p)) port))| |].
      + rewrite Hnil. done.
      + intros _. split; [by split|]. simpl. lia. }
  unfold startStreaming in Hs. rewrite decide_False in Hs by (by intros Hn; apply Hn). cbn [supportsStreaming scheduler_for negb] in Hs.
  destruct (setupNodes _ _ _ s0) as [s1 r] eqn:Hset. pose proof (setup_frame _ _ _ _ _ _ Hset) as (nodes & log & Hs1).
  apply (calm_setup cg j feed) in Hset. apply (flow_calm _ _ _ _ _ _ _ _ _ s1) in F; [|done]. destruct (void_isOk r) eqn:Hr; cbn [negb] in Hs; [|by injection Hs as _ ->].
  injection Hs as <-. eapply flow_calm; [|exact F]. rewrite Hs1. destruct context; by apply calm_same.
Qed.

Lemma stream_flow cg s ops s' j p port feed :
  stream_started deref cfg setup cg s → cg_nodes cg !! j = Some p → getExpectedInputPorts (deref p) = [port] →
  fed_by cg j feed → Forall (permitted deref cg j feed) ops → run cg s ops = Some s' →
  flow_at cg j p port feed (offered cg j p s ops) [] [] Free s'.
Proof.
  intros Hs Hj Hports Hfed Hops Hrun. pose proof (started_ptrs _ _ Hs) as Hptr.
  by apply (run_flow deref cfg cg sched process onEndOfStream elapsed j p _ port feed Hptr Hj Hfed [] s ops s' Hops Hrun), started_flow.
Qed.

(** C5: the frames of a stream flow in order.  Take a node with one input port in a
    running stream, fed by the edges of one other node or, if it is a source, by callers.
    Whatever the schedule, the rest of the graph, the drop policies and the user code do:
    each call of the node is given one packet; the packets it was given, followed by those
    in its queue, are a subsequence of what was sent to it; and unless the engine was
    stopped every packet that is missing was reported as dropped under the node's name,
    and a node that was flushed has nothing left in its queue. *)
Theorem stream_frames_in_order cg s ops s' j p port feed :
  stream_started deref cfg setup cg s → cg_nodes cg !! j = Some p → getExpectedInputPorts (deref p) = [port] →
  fed_by cg j feed → Forall (permitted deref cg j feed) ops → run cg s ops = Some s' →
  ∃ nd q, stateByIndex s' j = Some nd ∧ nd_queues nd = [q] ∧
    let sent := offered cg j p s ops ++ sent_to cg j (e_log s') in
    let kept := taken p (e_log s') ++ pq_items q in
    (∀ inputs, EvProcess p inputs ∈ e_log s' → ∃ x, inputs = [(port, x)]) ∧
    kept `sublist_of` sent ∧
    (e_stopFlag s' = false →
       length sent ≤ length kept + drops (getName (deref p)) (e_log s') ∧
       (nd_eos_propagated nd = true → pq_items q = [])).
Proof.
  intros Hs Hj Hports Hfed Hops Hrun. pose proof (stream_flow _ _ _ _ _ _ _ _ Hs Hj Hports Hfed Hops Hrun) as F.
  destruct (flow_node _ _ _ _ _ _ _ _ _ _ _ _ _ F) as (nd & q & Hnd & _ & _ & Hqs & Hsh & _). exists nd, q. split; [done|]. split; [done|].
  destruct (fl_queue _ _ _ _ _ _ _ _ _ _ _ _ _ F) as (q' & lat & fin & Hsh' & _ & _ & Hsub & Hc). rewrite Hsh in Hsh'. injection Hsh' as <- <- <-.
  simpl in Hsub, Hc. rewrite app_nil_r in Hsub, Hc. split; [apply (fl_inputs _ _ _ _ _ _ _ _ _ _ _ _ _ F)|]. split; [exact Hsub|].
  intros Hst. destruct (Hc Hst) as [[_ Hfin] Hlen]. split; [exact Hlen|]. intros Ht. by apply Hfin.
Qed.

(** ** What a stream computes *)

(** Nodes that compute a function, and flush nothing. *)
Section Pure.
Context (f : NodePtr → PortDataMap → PortDataMap).
Context (Hprocess : ∀ log p inputs, process log p inputs = Returned (f p inputs)).
Context (Hflush : ∀ log p, onEndOfStream log p = Returned []).

(** What node [i] makes of a packet. *)
Definition frame_out cg (i : nat) (x : PortDataPtr) : PortDataMap :=
  match cg_nodes cg !! i with
  | Some p => let inputs := [(default "" (head (getExpectedInputPorts (deref p))), x)] in inheritFrameIdentity inputs (f p inputs)
  | None => []
  end.

(** The packets that reach node [j], if callers push [pushed] to the sources. *)
Fixpoint arrivals cg (pushed : nat → list PortDataPtr) (fuel j : nat) : list PortDataPtr :=
  match fuel with
  | O => []
  | S fuel' =>
      match feeder cg j 0 with
      | None => pushed j
      | Some (i, e) => omap (λ x, pm_find (frame_out cg i x) (oe_source_port e)) (arrivals cg pushed fuel' i)
      end
  end.

Lemma arrivals_ext cg pushed pushed' fuel j : (∀ j, j < length (cg_nodes cg) → pushed j = pushed' j) → j < length (cg_nodes cg) →
  arrivals cg pushed fuel j = arrivals cg pushed' fuel j.
Proof using.
  intros Hp. revert j. induction fuel as [|fuel IH]; intros j Hj; [done|]. cbn [arrivals].
  destruct (feeder cg j 0) as [[i e]|] eqn:Hf; [|by apply Hp]. apply feeder_Some in Hf as (Hi & _). by rewrite IH.
Qed.

(** Pushes and closes at the input ports of sources. *)
Definition at_sources cg (op : EngineOp) : Prop :=
  match op with
  | OpPush node name _ => ∀ k p, indexOf cg node = Some k → cg_nodes cg !! k = Some p →
      isSource cg k = true ∧ isInputPort deref p (actual_port deref p name) = true
  | OpClose node _ => ∀ k, indexOf cg node = Some k → isSource cg k = true
  | _ => True
  end.

Section Tree.
Context (cg : CompiledGraph) (G : dag_ok deref cg) (D : determined deref cg).
Context (Hone : ∀ j, j < length (cg_nodes cg) → length (node_ports deref cg j) = 1).
Context (Hend : ∀ i, length (cg_nodes cg) ≤ i → outEdges cg i = []).
Context (Hptr : ∀ p k, indexOfPtr cg p = Some k ↔ cg_nodes cg !! k = Some p).
Notation N := (length (cg_nodes cg)).

Lemma edge_feeds k e : e ∈ outEdges cg k →
  k < N ∧ oe_dest_port_index e = Some 0 ∧ feeder cg (oe_dest_node e) 0 = Some (k, e) ∧ before (cg_topoOrder cg) k (oe_dest_node e) ∧
  isSource cg (oe_dest_node e) = false.
Proof using G D Hone Hend.
  intros He. assert (k < N) as Hk by (destruct (decide (k < N)); [done|rewrite Hend in He by lia; by apply not_elem_of_nil in He]).
  assert ((k, e) ∈ links cg) as Hl by (by apply elem_of_links). destruct (dg_forward _ _ G k e Hk He) as (Hd & Hb & Hs).
  pose proof (dt_named _ _ D) as Hn. rewrite Forall_forall in Hn. destruct (Hn _ Hl) as [n Hport]. simpl in Hport.
  assert (n = 0) as -> by (pose proof (dg_port _ _ G k e n Hk He Hport) as Hp; rewrite Hone in Hp by done; lia).
  split_and!; try done. by apply (feeder_of deref cg).
Qed.

Lemma tree_fed j : fed_by cg j (fst <$> feeder cg j 0).
Proof using G D Hone Hend.
  split.
  - intros (l & Hl & ->)%fmap_Some. destruct l as [i e]. simpl in *. apply feeder_Some in Hl as (Hi & He & Hd & _).
    destruct (edge_feeds i e He) as (_ & _ & _ & (a & b & Ha & Hb & Hab) & _). rewrite Hd in Hb.
    pose proof (position_at deref cg G a _ Ha). pose proof (position_at deref cg G b _ Hb). lia.
  - intros k e He <-. destruct (edge_feeds k e He) as (_ & -> & -> & _). done.
Qed.

Lemma source_unfed j : isSource cg j = true → feeder cg j 0 = None.
Proof using G D Hone Hend.
  intros Hs. destruct (feeder cg j 0) as [[i e]|] eqn:Hf; [|done]. apply feeder_Some in Hf as (_ & He & Hd & _).
  destruct (edge_feeds i e He) as (_ & _ & _ & _ & Hn). congruence.
Qed.

Lemma sources_permitted j op : at_sources cg op → permitted deref cg j (fst <$> feeder cg j 0) op.
Proof using G D Hone Hend.
  destruct op as [k|node name x|node name|k| | | |ns]; simpl; try done.
  - intros Hat k p Hk Hp. destruct (Hat k p Hk Hp) as [Hs ->]. intros ->. by rewrite source_unfed.
  - intros Hat Hk. by rewrite source_unfed by (by apply Hat).
Qed.

(** The edges from the feeder carry what its one edge carries. *)
Lemma carried_feeder j i e outputs : feeder cg j 0 = Some (i, e) →
  carried j outputs (outEdges cg i) = option_list (pm_find outputs (oe_source_port e)).
Proof using G D Hone Hend.
  intros Hf. apply feeder_Some in Hf as Hf'. destruct Hf' as (Hi & He & Hd & _).
  enough (filter (λ e, oe_dest_node e = j) (outEdges cg i) = [e]) as Hl by (unfold carried; rewrite Hl; simpl; by rewrite app_nil_r).
  assert (∀ e', e' ∈ filter (λ e, oe_dest_node e = j) (outEdges cg i) → e' = e) as Hall.
  { intros e' [Hd' He']%list_elem_of_filter. destruct (edge_feeds i e' He') as (_ & _ & Hf' & _). rewrite Hd', Hf in Hf'. congruence. }
  assert (NoDup (outEdges cg i)) as Hnd.
  { pose proof (dt_single _ _ D) as Hs. apply NoDup_fmap_1 in Hs. unfold links in Hs.
    assert (i ∈ seq 0 N) as (l1 & l2 & Hl)%list_elem_of_split by (apply elem_of_seq; lia).
    rewrite Hl, bind_app, bind_cons in Hs. apply NoDup_app in Hs as (_ & _ & Hs). apply NoDup_app in Hs as (Hs & _). by apply NoDup_fmap_1 in Hs. }
  apply (NoDup_filter (λ e, oe_dest_node e = j)) in Hnd. assert (e ∈ filter (λ e, oe_dest_node e = j) (outEdges cg i)) as Hin by (by apply list_elem_of_filter).
  destruct (filter _ _) as [|e1 [|e2 l]]; [by apply not_elem_of_nil in Hin|by rewrite (Hall e1 ltac:(by left))|exfalso].
  rewrite (Hall e1 ltac:(by left)), (Hall e2 ltac:(by right; left)) in Hnd. apply NoDup_cons in Hnd as [Hn _]. apply Hn. by left.
Qed.

(** What reaches a node is what its feeder makes of what it was given. *)
Lemma sent_pure j i e p log : feeder cg j 0 = Some (i, e) → cg_nodes cg !! i = Some p →
  (∀ inputs, EvProcess p inputs ∈ log → ∃ x, inputs = [(default "" (head (getExpectedInputPorts (deref p))), x)]) →
  sent_to cg j log = omap (λ x, pm_find (frame_out cg i x) (oe_source_port e)) (taken p log).
Proof using Hprocess Hflush G D Hone Hend Hptr.
  intros Hf Hi. induction log as [|ev log IH] using rev_ind; intros Hin; [done|].
  rewrite sent_call, taken_app, omap_app, IH by (intros inputs H'; apply Hin, elem_of_app; by left). f_equal. clear IH.
  destruct ev as [| |p' inputs|p'| | | |]; try done; simpl.
  - rewrite Hprocess, app_nil_r. case_decide as Hp.
    + subst p'. destruct (Hin inputs) as [x ->]; [apply elem_of_app; right; by left|]. rewrite (proj2 (Hptr p i) Hi), (carried_feeder j i e) by done.
      unfold frame_out. rewrite Hi. simpl. by destruct (pm_find _ _).
    + destruct (indexOfPtr cg p') as [k|] eqn:Hk; [|done]. apply Hptr in Hk. apply (carried_other cg j (fst <$> feeder cg j 0)); [apply tree_fed|].
      rewrite Hf. simpl. intros [= ->]. congruence.
  - rewrite Hflush. destruct (indexOfPtr cg p') as [k|]; [|done]. apply carried_empty.
Qed.

Lemma pushed_fed j p s ops : cg_nodes cg !! j = Some p → is_Some (feeder cg j 0) → Forall (at_sources cg) ops → offered cg j p s ops = [].
Proof using G D Hone Hend.
  intros Hj [l Hf] Hops. revert s. induction Hops as [|op ops Hop _ IH]; intros s; [done|]. cbn [pushed_by].
  assert (offers deref cfg cg sched onEndOfStream elapsed j p s op = []) as ->.
  { destruct op as [|node name x| | | | | |]; try done. simpl. destruct (pushInput _ _ _ _ _ _ _ _ _ _) as [[s1 [v|er]]|]; try done.
    destruct (bool_decide (indexOf cg node = Some j)) eqn:Hn; [|done]. apply bool_decide_eq_true in Hn.
    destruct (Hop j p Hn Hj) as [Hs _]. apply source_unfed in Hs. congruence. }
  destruct (engine_op _ _ _ _ _ _ _ s op) as [s1|]; [apply IH|done].
Qed.

(** The equations of a stream have one solution. *)
Lemma arrivals_solve (pushed : nat → list PortDataPtr) log fuel j p :
  (∀ j p, cg_nodes cg !! j = Some p → taken p log = pushed j ++ sent_to cg j log) →
  (∀ j p inputs, cg_nodes cg !! j = Some p → EvProcess p inputs ∈ log → ∃ x, inputs = [(default "" (head (getExpectedInputPorts (deref p))), x)]) →
  (∀ j p, cg_nodes cg !! j = Some p → is_Some (feeder cg j 0) → pushed j = []) →
  position cg j < fuel → cg_nodes cg !! j = Some p → taken p log = arrivals cg pushed fuel j.
Proof using Hprocess Hflush G D Hone Hend Hptr.
  intros Heq Hin Hnone. revert j p. induction fuel as [|fuel IH]; intros j p Hp Hj; [lia|]. rewrite (Heq j p Hj). cbn [arrivals].
  destruct (feeder cg j 0) as [[i e]|] eqn:Hf.
  - rewrite (Hnone j p Hj) by (by rewrite Hf). simpl. apply feeder_Some in Hf as Hf'. destruct Hf' as (Hi & He & Hd & _).
    destruct (lookup_lt_is_Some_2 _ _ Hi) as [pi Hpi]. rewrite (sent_pure j i e pi) by eauto. rewrite <-(IH i pi); [done| |done].
    destruct (edge_feeds i e He) as (_ & _ & _ & (a & b & Ha & Hb & Hab) & _). rewrite Hd in Hb.
    rewrite (position_at deref cg G a _ Ha). rewrite (position_at deref cg G b _ Hb) in Hp. lia.
  - rewrite (sent_none cg process onEndOfStream j None); [by rewrite app_nil_r| |done]. pose proof (tree_fed j) as Ht. by rewrite Hf in Ht.
Qed.
End Tree.

Lemma started_ends cg s : stream_started deref cfg setup cg s → ∀ i, length (cg_nodes cg) ≤ i → outEdges cg i = [].
Proof using.
  intros (g & qcs & sync & now & context & Hr & Hsmall & Hc & _) i. destruct (compile_inv _ _ _ Hr Hsmall Hc) as [Hok _].
  rewrite (co_nodes _ _ _ Hok). apply (co_out_end _ _ _ Hok).
Qed.

Lemma serve_flow cg j p port feed pu s picks s' :
  (∀ p k, indexOfPtr cg p = Some k ↔ cg_nodes cg !! k = Some p) → cg_nodes cg !! j = Some p → fed_by cg j feed →
  serve cfg process onEndOfStream elapsed cg s picks = Some s' → flow_at cg j p port feed pu [] [] Free s → flow_at cg j p port feed pu [] [] Free s'.
Proof using.
  intros Hptr Hj Hfed. revert s. induction picks as [|k picks IH]; intros s; simpl; [by intros [= <-]|].
  destruct (run_task _ _ _ _ _ _ s _) as [s1|] eqn:Ht; [|done]. simpl. intros Hs F. apply (IH s1); [done|]. unfold run_task in Ht.
  destruct (e_pool s !! _) as [i|]; [|by injection Ht as <-].
  destruct (pick_up_frame cfg s (k mod length (e_pool s)) i) as (? & ? & Hup). rewrite Hup in Ht.
  eapply task_flow; [done..|exact Ht|]. eapply flow_calm; [|exact F]. by apply calm_same.
Qed.

(** A node that was flushed and lost nothing was given all that was sent to it. *)
Lemma flow_over cg j p port feed pu s nd : flow_at cg j p port feed pu [] [] Free s → e_stopFlag s = false →
  stateByIndex s j = Some nd → nd_eos_propagated nd = true → drops (getName (deref p)) (e_log s) = 0 →
  taken p (e_log s) = pu ++ sent_to cg j (e_log s).
Proof using.
  intros F Hst Hnd Hfl Hd. destruct (flow_node _ _ _ _ _ _ _ _ _ _ _ _ _ F) as (nd' & q & Hnd' & _ & _ & _ & Hsh & _).
  rewrite Hnd in Hnd'. injection Hnd' as <-. destruct (fl_queue _ _ _ _ _ _ _ _ _ _ _ _ _ F) as (q' & lat & fin & Hsh' & _ & _ & Hsub & Hc).
  rewrite Hsh in Hsh'. injection Hsh' as <- <- <-. destruct (Hc Hst) as [[_ Hfin] Hlen]. destruct (Hfin Hfl) as [_ Hnil].
  rewrite Hnil, Hd in *. simpl in *. rewrite !app_nil_r in *. apply sublist_full; [done|lia].
Qed.

(** A stream that has ended without a drop has computed the reference semantics. *)
Lemma stream_computed cg s ops s' picks s'' :
  stream_started deref cfg setup cg s → determined deref cg →
  (∀ j, j < length (cg_nodes cg) → length (node_ports deref cg j) = 1) → Forall (at_sources cg) ops →
  run cg s ops = Some s' → serve cfg process onEndOfStream elapsed cg s' picks = Some s'' → ended s'' →
  (∀ name frame reason, EvDrop name frame reason ∉ e_log s'') →
  ∀ j p, cg_nodes cg !! j = Some p →
    taken p (e_log s'') =
    arrivals cg (λ j, default [] ((λ p, offered cg j p s ops) <$> cg_nodes cg !! j)) (length (cg_nodes cg)) j.
Proof using All.
  intros Hst D Hone Hops Hs' Hs'' E Hnodrop. pose proof (stream_graph deref cfg onEndOfStream elapsed setup cg s Hst) as (G & _).
  pose proof (started_ends cg s Hst) as Hend. pose proof (started_ptrs cg s Hst) as Hptr.
  assert (∀ j p, cg_nodes cg !! j = Some p → ∃ port, getExpectedInputPorts (deref p) = [port] ∧
    flow_at cg j p port (fst <$> feeder cg j 0) (offered cg j p s ops) [] [] Free s'') as Hflow.
  { intros j p Hj. pose proof (Hone j ltac:(by eapply lookup_lt_Some)) as H1. unfold node_ports in H1. rewrite Hj in H1.
    destruct (getExpectedInputPorts (deref p)) as [|port [|]] eqn:Hports; try done. exists port. split; [done|].
    pose proof (tree_fed cg G D Hone Hend j) as Hfed. eapply serve_flow; [done..|exact Hs''|]. eapply stream_flow; try done.
    eapply Forall_impl; [exact Hops|]. intros op. by apply sources_permitted. }
  assert (∀ name, drops name (e_log s'') = 0) as Hdrops.
  { intros name. unfold drops. destruct (filter _ (e_log s'')) as [|ev l] eqn:Hl; [done|exfalso]. assert (ev ∈ ev :: l) as Hin by (by left).
    rewrite <-Hl in Hin. apply list_elem_of_filter in Hin as [Hev Hin]. destruct ev; try done. by eapply Hnodrop. }
  intros j p Hj. eapply arrivals_solve; try done.
  - intros j' p' Hj'. rewrite Hj'. simpl. destruct (Hflow j' p' Hj') as (port & _ & F).
    destruct (flow_node _ _ _ _ _ _ _ _ _ _ _ _ _ F) as (nd & _ & Hnd & _). eapply flow_over; [exact F|apply (en_running _ E)|exact Hnd| |done].
    by eapply (en_flushed _ E).
  - intros j' p' inputs Hj' Hin. destruct (Hflow j' p' Hj') as (port & -> & F). by apply (fl_inputs _ _ _ _ _ _ _ _ _ _ _ _ _ F).
  - intros j' p' Hj' Hf. rewrite Hj'. simpl. by apply pushed_fed.
  - assert (cg_topoOrder cg !! position cg j = Some j) as Ht by (apply (topo_position deref cg G); by eapply lookup_lt_Some).
    apply lookup_lt_Some in Ht. by rewrite (dg_topo _ _ G), length_seq in Ht.
Qed.

(** What a stream computes.  Take a graph in which every node has one input port fed by at
    most one edge, nodes that compute a function of their packet and flush nothing,
    streaming without a rate limit, and callers that push to and close sources, in any
    order among tasks and timers.  When the sources are closed, any schedule of the
    workers leads in boundedly many tasks to the end of the stream; if no frame was
    reported as dropped, then each node has been called on the packets that reach it in
    the reference semantics, in the order in which the callers pushed them: a source on
    what was pushed to it, any other node on what the node before it makes of its
    packets. *)
Theorem stream_computes cg s ops :
  stream_started deref cfg setup cg s → determined deref cg →
  (∀ j, j < length (cg_nodes cg) → length (node_ports deref cg j) = 1) → (ec_min_execution_interval_ms cfg ≤ 0)%Z →
  Forall keeps_running ops → Forall (at_sources cg) ops →
  ∃ s', run cg s ops = Some s' ∧
    (sources_closed cg s' → ∃ bound, ∀ picks, bound ≤ length picks →
       ∃ s'', serve cfg process onEndOfStream elapsed cg s' picks = Some s'' ∧ ended s'' ∧
         ((∀ name frame reason, EvDrop name frame reason ∉ e_log s'') →
          ∀ j p, cg_nodes cg !! j = Some p →
            taken p (e_log s'') =
            arrivals cg (λ j, default [] ((λ p, offered cg j p s ops) <$> cg_nodes cg !! j)) (length (cg_nodes cg)) j)).
Proof using All.
  intros Hst D Hone Hrate Hrun Hops. pose proof (stream_graph deref cfg onEndOfStream elapsed setup cg s Hst) as (G & Hsmall & _).
  destruct (stream_runs deref cfg process onEndOfStream elapsed setup cg s ops Hst Hrun) as (s' & Hs' & [w I] & L).
  exists s'. split; [done|]. intros Hsrc. exists w. intros picks Hlen.
  destruct (serving_ends deref cfg process onEndOfStream elapsed cg w s' picks G Hsmall Hone Hrate I L Hsrc Hlen) as (s'' & Hs'' & _ & E).
  exists s''. split; [done|]. split; [exact E|]. intros Hnodrop. by eapply stream_computed.
Qed.
End Pure.
End Streams.

(** ** A chain *)

Section Example.
#[local] Existing Instance unit_types.
Notation PQ := (NodeQueue (BoundedList PortDataPtr) PortDataPtr).
Notation fx_cg := (tx_compiled bx_node tx_chain).
Notation fx_sched := (scheduler_for tx_cfg STREAM).

(** Two frames, pushed around the task of the first, then the end. *)
Definition fx_ops : list EngineOp := [OpPush "n0" "" tx_frame; OpTask 0; OpPush "n0" "" tx_frame; OpClose "n0" ""].

Lemma fx_fed : fed_by fx_cg 1 (Some 0).
Proof.
  assert (cg_outEdges fx_cg = [[mkOutEdge "out" 1 "in" (Some 0)]; [mkOutEdge "out" 2 "in" (Some 0)]; []]) as He by (vm_compute; reflexivity).
  revert He. generalize fx_cg. intros cg He. split; [done|]. intros k e. unfold outEdges. rewrite He.
  destruct k as [|[|[|k]]]; simpl; rewrite ?list_elem_of_singleton; [by intros ->|by intros ->|by intros ?%not_elem_of_nil..].
Qed.

Lemma fx_permitted : Forall (permitted bx_node fx_cg 1 (Some 0)) fx_ops.
Proof.
  assert (indexOf fx_cg "n0" = Some 0 ∧ cg_nodes fx_cg !! 0 = Some 0) as [Hi Hn] by (vm_compute; done).
  assert (∀ x, permitted bx_node fx_cg 1 (Some 0) (OpPush "n0" "" x)) as Hp.
  { intros x k p Hk Hp. rewrite Hi in Hk. injection Hk as <-. rewrite Hn in Hp. injection Hp as <-. by vm_compute. }
  unfold fx_ops. repeat constructor; try apply Hp. simpl. rewrite Hi. done.
Qed.

Definition fx_state (ops : list EngineOp) : Engine PQ NoSync :=
  default (tx_started bx_node fx_cg) (tx_run bx_node fx_cg tx_process ops).
Definition fx_middle : list EngineOp := fx_ops ++ [OpTask 1; OpTask 0].

(** The second node has been given the first frame; the second frame is on its way. *)
Lemma stream_frames_in_order_witness :
  ∃ nd q, stateByIndex (fx_state fx_middle) 1 = Some nd ∧ nd_queues nd = [q] ∧
    taken 1 (e_log (fx_state fx_middle)) ++ pq_items q `sublist_of` sent fx_cg tx_process bx_flush 1 (e_log (fx_state fx_middle)) ∧
    sent fx_cg tx_process bx_flush 1 (e_log (fx_state fx_middle)) = [Some (mkPacket 1 0 0 []); Some (mkPacket 2 0 7 [])].
Proof.
  destruct (stream_frames_in_order bx_node tx_cfg tx_process bx_flush bx_elapsed bx_setup fx_cg (tx_started bx_node fx_cg)
    fx_middle (fx_state fx_middle) 1 1 "in" (Some 0) tx_chain_started) as (nd & q & Hnd & Hq & _ & Hsub & _).
  - vm_compute. reflexivity.
  - vm_compute. reflexivity.
  - exact fx_fed.
  - apply Forall_app. split; [exact fx_permitted|]. by repeat constructor.
  - vm_compute. reflexivity.
  - exists nd, q. split; [exact Hnd|]. split; [exact Hq|].
    assert (pushed_by bx_node tx_cfg fx_cg fx_sched tx_process bx_flush bx_elapsed 1 1 (tx_started bx_node fx_cg) fx_middle = []) as Hp
      by (vm_compute; reflexivity).
    cbn zeta in Hsub. rewrite Hp, app_nil_l in Hsub. split; [exact Hsub|]. vm_compute. reflexivity.
Defined.

Lemma fx_determined : determined bx_node fx_cg.
Proof. split; apply (bool_decide_unpack _); vm_compute; exact I. Qed.

Lemma fx_at_sources : Forall (at_sources bx_node fx_cg) fx_ops.
Proof.
  assert (indexOf fx_cg "n0" = Some 0 ∧ cg_nodes fx_cg !! 0 = Some 0 ∧ isSource fx_cg 0 = true) as (Hi & Hn & Hs) by (vm_compute; done).
  assert (∀ x, at_sources bx_node fx_cg (OpPush "n0" "" x)) as Hp.
  { intros x k p Hk Hp. rewrite Hi in Hk. injection Hk as <-. rewrite Hn in Hp. injection Hp as <-. split; [exact Hs|]. by vm_compute. }
  apply Forall_cons. split; [apply Hp|]. apply Forall_cons. split; [exact I|]. apply Forall_cons. split; [apply Hp|].
  apply Forall_cons. split; [|by apply Forall_nil]. intros k Hk. rewrite Hi in Hk. by injection Hk as <-.
Qed.

Definition fx_end : Engine PQ NoSync :=
  default (fx_state fx_ops) (serve tx_cfg tx_process bx_flush bx_elapsed fx_cg (fx_state fx_ops) (replicate 9 0)).

Lemma fx_run : engine_run bx_node tx_cfg fx_cg fx_sched tx_process bx_flush bx_elapsed (tx_started bx_node fx_cg) fx_ops = Some (fx_state fx_ops).
Proof. vm_compute. reflexivity. Qed.

Lemma fx_closed : sources_closed fx_cg (fx_state fx_ops).
Proof.
  assert (forallb (λ j, bool_decide (j = 0) || negb (isSource fx_cg j)) (seq 0 3) = true) as Hsrc by (vm_compute; reflexivity).
  assert ((λ nd, (length (nd_input_ports nd), portEosLatched nd 0)) <$> stateByIndex (fx_state fx_ops) 0 = Some (1, true)) as H0 by (vm_compute; reflexivity).
  assert (length (e_nodes (fx_state fx_ops)) = 3) as H3 by (vm_compute; reflexivity).
  revert H0 H3. generalize (fx_state fx_ops). intros s H0 H3 j nd k Hj Hnd Hk. assert (j < 3) as Hlt by (rewrite <-H3; by eapply lookup_lt_Some).
  rewrite forallb_forall in Hsrc. specialize (Hsrc j ltac:(apply in_seq; lia)). rewrite Hj, orb_false_r in Hsrc. apply bool_decide_eq_true in Hsrc as ->.
  rewrite Hnd in H0. simpl in H0. injection H0 as Hl Hp. assert (k = 0) as -> by lia. exact Hp.
Qed.

Lemma fx_no_drop name frame reason : EvDrop name frame reason ∉ e_log fx_end.
Proof.
  assert (forallb (λ ev, match ev with EvDrop _ _ _ => false | _ => true end) (e_log fx_end) = true) as Hf by (vm_compute; reflexivity).
  intros Hin. rewrite forallb_forall in Hf. by specialize (Hf _ (proj1 (list_elem_of_In _ _) Hin)).
Qed.

(** The last node of the chain is called on both frames, in the order they were pushed. *)
Lemma stream_computes_witness : ended fx_end ∧ taken 2 (e_log fx_end) = [Some (mkPacket 1 0 0 []); Some (mkPacket 2 0 7 [])].
Proof.
  destruct (stream_computes bx_node tx_cfg tx_process bx_flush bx_elapsed bx_setup bx_f ltac:(done) ltac:(done) fx_cg (tx_started bx_node fx_cg) fx_ops
    tx_chain_started fx_determined) as (s' & Hs' & Hend).
  - intros j Hj. vm_compute in Hj. do 3 (destruct j as [|j]; [vm_compute; reflexivity|]). lia.
  - vm_compute. discriminate.
  - apply Forall_forall. intros op Hop. repeat (apply elem_of_cons in Hop as [->|Hop]; [exact I|]). by apply not_elem_of_nil in Hop.
  - exact fx_at_sources.
  - rewrite fx_run in Hs'. apply (inj Some) in Hs'. subst s'. destruct Hend as [bound Hend].
    + exact fx_closed.
    + destruct (Hend (replicate 9 0 ++ replicate bound 0)) as (s'' & Hs'' & E & Hcalls); [rewrite length_app, !length_replicate; lia|].
      assert (serve tx_cfg tx_process bx_flush bx_elapsed fx_cg (fx_state fx_ops) (replicate 9 0) = Some fx_end ∧ e_pool fx_end = []) as [H9 Hp]
        by (split; vm_compute; reflexivity).
      rewrite serve_app, H9 in Hs''. cbn [mbind option_bind] in Hs''. rewrite serve_idle in Hs'' by exact Hp.
      apply (inj Some) in Hs''. subst s''.
      split; [exact E|]. rewrite (Hcalls fx_no_drop 2 2 ltac:(vm_compute; reflexivity)). vm_compute. reflexivity.
Defined.

(** Why callers close sources only: the engine also closes a port that an edge feeds.
    The node is flushed while the node before it still has a frame to process; what that
    node sends stays in the queue of a node that is done, and is not reported. *)
Lemma inner_close_strands :
  (s ← tx_run bx_node fx_cg tx_process [OpPush "n0" "" tx_frame; OpClose "n1" ""; OpTask 0; OpClose "n0" ""];
   Some (e_pool s, e_endOfStreamReached s, (λ nd, (nd_exec_state nd, pq_size <$> nd_queues nd)) <$> stateByIndex s 1,
         taken 1 (e_log s), drops "n1" (e_log s))) =
  Some ([], true, Some (COMPLETED, [1%Z]), [], 0).
Proof. vm_compute. reflexivity. Qed.
End Example.
