(* ===== verification/Pipelines.v ===== *)
(** * The pipeline facade

    [Pipeline::Impl] of [src/pipeline_impl.cpp] and [pipeline_impl.hpp], the builder
    and the observers of [pipeline.hpp].  The facade keeps a state of its own beside
    the engine's, installs callbacks on the engine and answers with the results and
    errors those callbacks recorded.

    The engine is behind the interface [EngineApi]: each operation gives the new
    engine, what it answers, and the callbacks it invoked meanwhile, in order, each
    with what [isStreaming()] said at that moment; [api_work] is what worker threads
    do between two calls.  A value of the engine type may contain whatever decides
    the schedule, so a theorem for all engines covers all schedules.  The shared
    [PipelineContext] is passed in and handed back, since the engine resets and
    requests cancellation on it.  Clock readings are arguments, in milliseconds.

    Logging is not modelled; an observer that throws is as one that returns, as the
    code catches it. *)

From S2P Require Import Prelude Errors Packets Kahn Graphs ExecutionTypes Options Contexts EngineCore.
Local Open Scope string_scope.
Local Open Scope list_scope.
Local Open Scope Z_scope.

(** src/include/ai_pipe/enum.hpp:23-29 PipelineState *)
Inductive PipelineState := PS_UNINITIALIZED | PS_IDLE | PS_RUNNING | PS_STOPPING | PS_ERROR.

#[export] Instance PipelineState_eq : EqDecision PipelineState.
Proof. solve_decision. Defined.

(** What the facade asks of an engine. *)
Class EngineApi `{CppTypes} (E : Type) := {
  api_create : EngineConfig → option E;
  api_setSchedulerStrategy : E → E * VoidResult;
  api_setSyncStrategy : E → E * VoidResult;
  api_initialize : E → Graph → Z → E * VoidResult;
  api_execute : E → option PipelineContext → PortDataMap → bool → option Z →
    E * option PipelineContext * list (bool * Event) * VoidResult;
  api_work : E → E * list (bool * Event);
  api_startStreaming : E → option PipelineContext → E * option PipelineContext * list (bool * Event) * VoidResult;
  api_stopStreaming : E → bool → E * list (bool * Event);
  api_stopExecutionAsync : E → E * list (bool * Event);
  api_waitForIdle : E → E * list (bool * Event);
  api_reset : E → E * list (bool * Event);
  api_isStreaming : E → bool;
  api_getState : E → EngineState;
  api_pushInput : E → string → string → PortDataPtr → E * list (bool * Event) * Result PushStatus;
  api_signalEndOfStream : E → string → string → E * list (bool * Event) * VoidResult;
}.

Section Pipeline.
Context `{CppTypes} {E : Type} `{!EngineApi E}.

(** src/include/ai_pipe/pipeline.hpp:73-76 ExecutionOutput *)
Record ExecutionOutput := mkOutput { eo_outputs : PortDataMap; eo_elapsed : Z }.

(** What observers are told, and who. *)
Inductive Note :=
  | NStarted
  | NCompleted (results : PortDataMap)
  | NFailed (e : Error)
  | NDropped (node : string) (frame : FrameId) (reason : string)
  | NEndOfStream.

(** The callbacks installed on the engine: the resident ones, or the one-shot pair of
    a [runAsync] with its promise and start time. *)
Inductive Handlers := Resident | OneShot (promise : nat) (start_time : Z).

(** A promise of [runAsync] with its [done] flag; [pm_broken] when it is fulfilled a
    second time, which throws [future_error]. *)
Record Promise := mkPromise { pm_done : bool; pm_value : option (Result ExecutionOutput); pm_broken : bool }.

(** src/src/pipeline_impl.hpp:121-148 Pipeline::Impl (data members) *)
Record Pipeline := mkPipeline {
  p_graph : option Graph;
  p_engine : option E;
  p_context : option PipelineContext;
  p_options : PipelineOptions;
  p_state : PipelineState;
  p_observers : list (option nat);
  p_lastResults : PortDataMap;
  p_lastError : option Error;
  p_executionStart : Z;
  p_handlers : Handlers;
  p_promises : list Promise;
  p_notes : list (nat * Note);
}.

(** src/src/pipeline_impl.cpp:10-10 Pipeline::Impl::Impl *)
Definition newPipeline : Pipeline :=
  mkPipeline None None None default_options PS_UNINITIALIZED [] [] None 0 Resident [] [].

Implicit Types (p : Pipeline) (e : E).

Definition set_engine p x := mkPipeline (p_graph p) (Some x) (p_context p) (p_options p) (p_state p)
  (p_observers p) (p_lastResults p) (p_lastError p) (p_executionStart p) (p_handlers p) (p_promises p) (p_notes p).
Definition no_engine p := mkPipeline (p_graph p) None (p_context p) (p_options p) (p_state p)
  (p_observers p) (p_lastResults p) (p_lastError p) (p_executionStart p) (p_handlers p) (p_promises p) (p_notes p).
Definition set_ctx p x := mkPipeline (p_graph p) (p_engine p) x (p_options p) (p_state p)
  (p_observers p) (p_lastResults p) (p_lastError p) (p_executionStart p) (p_handlers p) (p_promises p) (p_notes p).
Definition set_results p rs err := mkPipeline (p_graph p) (p_engine p) (p_context p) (p_options p) (p_state p)
  (p_observers p) rs err (p_executionStart p) (p_handlers p) (p_promises p) (p_notes p).
Definition set_start p x := mkPipeline (p_graph p) (p_engine p) (p_context p) (p_options p) (p_state p)
  (p_observers p) (p_lastResults p) (p_lastError p) x (p_handlers p) (p_promises p) (p_notes p).
Definition set_handlers p x := mkPipeline (p_graph p) (p_engine p) (p_context p) (p_options p) (p_state p)
  (p_observers p) (p_lastResults p) (p_lastError p) (p_executionStart p) x (p_promises p) (p_notes p).
Definition set_promises p x := mkPipeline (p_graph p) (p_engine p) (p_context p) (p_options p) (p_state p)
  (p_observers p) (p_lastResults p) (p_lastError p) (p_executionStart p) (p_handlers p) x (p_notes p).

(** src/src/pipeline_impl.cpp:630-636 Pipeline::Impl::transitionTo *)
Definition transitionTo p (new_state : PipelineState) : Pipeline :=
  mkPipeline (p_graph p) (p_engine p) (p_context p) (p_options p) new_state (p_observers p)
    (p_lastResults p) (p_lastError p) (p_executionStart p) (p_handlers p) (p_promises p) (p_notes p).

(** ** Observers *)

(** src/src/pipeline_impl.cpp:577-580 Pipeline::Impl::addObserver; a null pointer is [None] *)
Definition addObserver p (observer : option nat) : Pipeline :=
  mkPipeline (p_graph p) (p_engine p) (p_context p) (p_options p) (p_state p) (p_observers p ++ [observer])
    (p_lastResults p) (p_lastError p) (p_executionStart p) (p_handlers p) (p_promises p) (p_notes p).

(** src/src/pipeline_impl.cpp:582-588 Pipeline::Impl::removeObserver *)
Definition removeObserver p (observer : option nat) : Pipeline :=
  mkPipeline (p_graph p) (p_engine p) (p_context p) (p_options p) (p_state p)
    (filter (λ o, o ≠ observer) (p_observers p))
    (p_lastResults p) (p_lastError p) (p_executionStart p) (p_handlers p) (p_promises p) (p_notes p).

(** src/src/pipeline_impl.cpp:638-703 Pipeline::Impl::notifyExecutionStarted and
    its four siblings: one loop over the observers, skipping null ones *)
Definition notify p (n : Note) : Pipeline :=
  mkPipeline (p_graph p) (p_engine p) (p_context p) (p_options p) (p_state p) (p_observers p)
    (p_lastResults p) (p_lastError p) (p_executionStart p) (p_handlers p) (p_promises p)
    (p_notes p ++ ((λ o, (o, n)) <$> omap id (p_observers p))).

(** ** Engine callbacks *)

(** src/src/pipeline_impl.cpp:124-164 Pipeline::Impl::setupEngineCallbacks (installation) *)
Definition setupEngineCallbacks p : Pipeline := set_handlers p Resident.

(** [promise->set_value(v)] *)
Definition fulfil p (k : nat) (v : Result ExecutionOutput) : Pipeline :=
  match p_promises p !! k with
  | None => p
  | Some pm =>
      set_promises p (<[k := match pm_value pm with
                             | None => mkPromise (pm_done pm) (Some v) (pm_broken pm)
                             | Some _ => mkPromise (pm_done pm) (pm_value pm) true
                             end]> (p_promises p))
  end.

(** [done->exchange(true)]: the new state and the old value *)
Definition exchange_done p (k : nat) : Pipeline * bool :=
  match p_promises p !! k with
  | None => (p, true)
  | Some pm => (set_promises p (<[k := mkPromise true (pm_value pm) (pm_broken pm)]> (p_promises p)), pm_done pm)
  end.

(** src/src/pipeline_impl.cpp:125-139 Pipeline::Impl::setupEngineCallbacks (result) *)
Definition resident_result p (streaming : bool) (results : PortDataMap) : Pipeline :=
  let p := set_results p results None in
  let p := if negb streaming && bool_decide (p_state p = PS_RUNNING) then transitionTo p PS_IDLE else p in
  notify p (NCompleted results).

(** src/src/pipeline_impl.cpp:143-154 Pipeline::Impl::setupEngineCallbacks (error) *)
Definition resident_error p (streaming : bool) (error node_name : string) : Pipeline :=
  let err := error_nodeException error node_name in
  let p := set_results p (p_lastResults p) (Some err) in
  let p := if negb streaming then transitionTo p PS_ERROR else p in
  notify p (NFailed err).

(** src/src/pipeline_impl.cpp:246-270 Pipeline::Impl::runAsync (result callback) *)
Definition oneshot_result p (k : nat) (start_time now : Z) (results : PortDataMap) : Pipeline :=
  let '(p, was_done) := exchange_done p k in
  if was_done then p
  else
    let elapsed := now - start_time in
    let p := transitionTo p PS_IDLE in
    let p := set_results p results (p_lastError p) in
    let p := setupEngineCallbacks p in
    let p := notify p (NCompleted results) in
    fulfil p k (ROk (mkOutput results elapsed)).

(** src/src/pipeline_impl.cpp:273-291 Pipeline::Impl::runAsync (error callback) *)
Definition oneshot_error p (k : nat) (error node_name : string) : Pipeline :=
  let '(p, was_done) := exchange_done p k in
  if was_done then p
  else
    let p := transitionTo p PS_ERROR in
    let err := error_nodeException error node_name in
    let p := set_results p (p_lastResults p) (Some err) in
    let p := setupEngineCallbacks p in
    let p := notify p (NFailed err) in
    fulfil p k (RErr err).

(** The engine invokes the callback [h] (a copy of the one registered, possibly
    taken before it was replaced) with an event. *)
Definition invoke (now : Z) (h : Handlers) p (streaming : bool) (ev : Event) : Pipeline :=
  match ev with
  | EvResult results =>
      match h with
      | Resident => resident_result p streaming results
      | OneShot k start_time => oneshot_result p k start_time now results
      end
  | EvError message node =>
      match h with
      | Resident => resident_error p streaming message node
      | OneShot k _ => oneshot_error p k message node
      end
  | EvDrop node frame reason => notify p (NDropped node frame reason)
  | EvEndOfStream => notify p NEndOfStream
  | _ => p
  end.

(** The callbacks of one engine operation, each through what is installed then. *)
Definition deliver (now : Z) p (evs : list (bool * Event)) : Pipeline :=
  foldl (λ p ev, invoke now (p_handlers p) p ev.1 ev.2) p evs.

(** ** Guards *)

(** src/src/pipeline_impl.cpp:592-628 Pipeline::Impl::validateState *)
Definition validateState p (operation : string) : VoidResult :=
  match p_state p with
  | PS_UNINITIALIZED =>
      void_err EC_NotInitialized ("Cannot " +:+ operation +:+ " - pipeline not initialized") ""
  | PS_ERROR =>
      void_err EC_InvalidState ("Cannot " +:+ operation +:+ " - pipeline in error state. Call reset() first") ""
  | PS_RUNNING | PS_STOPPING =>
      void_err EC_AlreadyRunning ("Cannot " +:+ operation +:+ " - pipeline already running") ""
  | PS_IDLE =>
      match p_engine p, p_graph p with
      | Some _, Some _ => void_ok
      | _, _ => void_err EC_NotInitialized ("Cannot " +:+ operation +:+ " - missing engine or graph") ""
      end
  end.

(** src/src/pipeline_impl.cpp:494-497 Pipeline::Impl::isReady *)
Definition isReady p : bool :=
  match p_engine p, p_graph p with Some _, Some _ => bool_decide (p_state p = PS_IDLE) | _, _ => false end.

(** src/src/pipeline_impl.cpp:499-503 Pipeline::Impl::isRunning *)
Definition isRunning p : bool := bool_decide (p_state p = PS_RUNNING) || bool_decide (p_state p = PS_STOPPING).

(** src/src/pipeline_impl.cpp:505-507 Pipeline::Impl::hasError *)
Definition hasError p : bool := bool_decide (p_state p = PS_ERROR).

(** src/src/pipeline_impl.cpp:383-385 Pipeline::Impl::isStreaming *)
Definition isStreaming p : bool := match p_engine p with Some e => api_isStreaming e | None => false end.

(** src/src/pipeline_impl.cpp:513-518 Pipeline::Impl::engineState *)
Definition engineState p : EngineState := match p_engine p with Some e => api_getState e | None => ERROR end.

(** ** Initialization *)

(** src/src/pipeline_impl.cpp:31-107 Pipeline::Impl::initialize; [scheduler] and [sync]: a custom
    strategy is given *)
Definition initialize p (graph : Graph) (context : option PipelineContext) (options : PipelineOptions)
    (scheduler sync : bool) : Pipeline * VoidResult :=
  let p := mkPipeline (Some graph) (p_engine p) (p_context p) options (p_state p) (p_observers p)
    (p_lastResults p) (p_lastError p) (p_executionStart p) (p_handlers p) (p_promises p) (p_notes p) in
  match hasCycle graph with
  | None | Some true =>
      (transitionTo p PS_ERROR, void_err EC_GraphCycleDetected "Pipeline graph contains a cycle" "")
  | Some false =>
  match api_create (buildEngineConfig options) with
  | None => (transitionTo (no_engine p) PS_ERROR, void_err EC_InternalError "Failed to create execution engine" "")
  | Some e =>
      let '(e, r1) := if scheduler then api_setSchedulerStrategy e else (e, void_ok) in
      if negb (void_isOk r1) then (transitionTo (set_engine p e) PS_ERROR, r1)
      else
      let '(e, r2) := if sync then api_setSyncStrategy e else (e, void_ok) in
      if negb (void_isOk r2) then (transitionTo (set_engine p e) PS_ERROR, r2)
      else
      let '(e, r3) := api_initialize e graph (po_num_workers options) in
      if negb (void_isOk r3) then (transitionTo (set_engine p e) PS_ERROR, r3)
      else
      let p := set_ctx (set_engine p e) (Some (default newContext context)) in
      (transitionTo (setupEngineCallbacks p) PS_IDLE, void_ok)
  end
  end.

(** ** Batch execution *)

(** The engine's [execute], with the callbacks it makes delivered at time [now]. *)
Definition engine_execute p (now : Z) (inputs : PortDataMap) (wait : bool) (timeout : option Z) :
    Pipeline * VoidResult :=
  match p_engine p with
  | None => (p, void_err EC_NotInitialized "" "")
  | Some e =>
      let '(e', ctx, evs, r) := api_execute e (p_context p) inputs wait timeout in
      (deliver now (set_ctx (set_engine p e') ctx) evs, r)
  end.

(** src/src/pipeline_impl.cpp:176-188 Pipeline::Impl::run (the bound handed to the engine) *)
Definition engine_timeout p (timeout : option Z) : option Z :=
  let actual_timeout := default (po_execution_timeout (p_options p)) timeout in
  if decide (0 < actual_timeout) then Some actual_timeout else None.

(** src/src/pipeline_impl.cpp:169-218 Pipeline::Impl::run; [now] when it starts, [later] when the engine
    returns *)
Definition run p (now later : Z) (inputs : PortDataMap) (timeout : option Z) : Pipeline * Result ExecutionOutput :=
  let validation := validateState p "run" in
  if negb (void_isOk validation) then (p, RErr (void_error validation))
  else
    let p := notify (set_start (transitionTo p PS_RUNNING) now) NStarted in
    let '(p, exec_result) := engine_execute p later inputs true (engine_timeout p timeout) in
    let elapsed := later - p_executionStart p in
    if negb (void_isOk exec_result) && bool_decide (void_errorCode exec_result = EC_ExecutionTimeout) then
      (transitionTo p PS_ERROR,
       result_err EC_ExecutionTimeout ("Execution timed out after " +:+ pretty elapsed +:+ "ms") "")
    else if void_isOk exec_result then
      (transitionTo p PS_IDLE, ROk (mkOutput (p_lastResults p) elapsed))
    else
      (transitionTo p PS_ERROR, RErr (default (void_error exec_result) (p_lastError p))).

(** src/src/pipeline_impl.cpp:221-303 Pipeline::Impl::runAsync; the index of the promise whose future it returns *)
Definition runAsync p (now : Z) (inputs : PortDataMap) : Pipeline * nat :=
  let k := length (p_promises p) in
  let p := set_promises p (p_promises p ++ [mkPromise false None false]) in
  let validation := validateState p "runAsync" in
  if negb (void_isOk validation) then (fulfil p k (RErr (void_error validation)), k)
  else
    let p := notify (set_start (transitionTo p PS_RUNNING) now) NStarted in
    let p := set_handlers p (OneShot k now) in
    let '(p, started) := engine_execute p now inputs false None in
    if void_isOk started then (p, k)
    else
      let '(p, was_done) := exchange_done p k in
      if was_done then (p, k)
      else
        let p := setupEngineCallbacks (transitionTo p PS_ERROR) in
        (fulfil p k (result_err EC_ExecutionFailed "Failed to start async execution" ""), k).

(** src/src/pipeline_impl.cpp:305-325 Pipeline::Impl::submit *)
Definition submit p (now : Z) (inputs : PortDataMap) : Pipeline * VoidResult :=
  let validation := validateState p "submit" in
  if negb (void_isOk validation) then (p, validation)
  else
    let p := notify (set_start (transitionTo p PS_RUNNING) now) NStarted in
    let '(p, result) := engine_execute p now inputs false None in
    if void_isOk result then (p, void_ok) else (transitionTo p PS_ERROR, result).

(** ** Streaming *)

(** src/src/pipeline_impl.cpp:329-360 Pipeline::Impl::start *)
Definition start p (now : Z) (context : option PipelineContext) : Pipeline * VoidResult :=
  let validation := validateState p "start streaming" in
  if negb (void_isOk validation) then (p, validation)
  else if bool_decide (po_mode (p_options p) ≠ STREAM) then
    (p, void_err EC_InvalidState
          "Cannot start streaming in batch mode. Pipeline must be configured with STREAM execution mode" "")
  else
    let p := match context with Some _ => set_ctx p context | None => p end in
    let p := set_start (transitionTo p PS_RUNNING) now in
    match p_engine p with
    | None => (p, void_ok)
    | Some e =>
        let '(e', ctx, evs, r) := api_startStreaming e (p_context p) in
        let p := deliver now (set_ctx (set_engine p e') ctx) evs in
        if void_isOk r then (p, void_ok) else (transitionTo p PS_ERROR, r)
    end.

(** An engine operation without an answer, with its callbacks. *)
Definition engine_call p (now : Z) (op : E → E * list (bool * Event)) : Pipeline :=
  match p_engine p with
  | None => p
  | Some e => let '(e', evs) := op e in deliver now (set_engine p e') evs
  end.

(** src/src/pipeline_impl.cpp:362-370 Pipeline::Impl::stop *)
Definition stop p (now : Z) (wait_for_drain : bool) : Pipeline :=
  if negb (isStreaming p) then p
  else transitionTo (engine_call p now (λ e, api_stopStreaming e wait_for_drain)) PS_IDLE.

(** src/src/pipeline_impl.cpp:372-381 Pipeline::Impl::pushInput *)
Definition pushInput p (now : Z) (source_node port_name : string) (data : PortDataPtr) :
    Pipeline * Result PushStatus :=
  match p_engine p with
  | None => (p, result_err EC_NotInitialized "Engine not initialized" "")
  | Some e =>
      let '(e', evs, r) := api_pushInput e source_node port_name data in
      (deliver now (set_engine p e') evs, r)
  end.

(** src/src/pipeline_impl.cpp:387-394 Pipeline::Impl::signalEndOfStream *)
Definition signalEndOfStream p (now : Z) (node_name port_name : string) : Pipeline * VoidResult :=
  match p_engine p with
  | None => (p, void_err EC_NotInitialized "Engine not initialized" "")
  | Some e =>
      let '(e', evs, r) := api_signalEndOfStream e node_name port_name in
      (deliver now (set_engine p e') evs, r)
  end.

(** ** Control *)

(** src/src/pipeline_impl.cpp:431-454 Pipeline::Impl::cancel *)
Definition cancel p (now : Z) : Pipeline :=
  if negb (isRunning p) && negb (isStreaming p) then p
  else
    let p := set_ctx p (requestCancellation <$> p_context p) in
    let p := if isStreaming p then engine_call p now (λ e, api_stopStreaming e false)
             else engine_call p now api_stopExecutionAsync in
    transitionTo p PS_STOPPING.

(** src/src/pipeline_impl.cpp:456-466 Pipeline::Impl::wait *)
Definition wait p (now : Z) : Pipeline := if isRunning p then engine_call p now api_waitForIdle else p.

(** src/src/pipeline_impl.cpp:468-490 Pipeline::Impl::reset *)
Definition reset p (now : Z) : Pipeline :=
  let p := if isStreaming p then stop p now false
           else if isRunning p then wait (cancel p now) now
           else p in
  let p := engine_call p now api_reset in
  transitionTo (set_results p [] None) PS_IDLE.

(** src/src/pipeline_impl.cpp:12-26 Pipeline::Impl::~Impl *)
Definition destruct_pipeline p (now : Z) : Pipeline :=
  if isRunning p || isStreaming p then
    if isStreaming p then stop p now false else wait (cancel p now) now
  else p.

(** ** Queries *)

(** What the facade asks of an engine without changing what it runs.  The two waits
    answer once they are over. *)
Class EngineQueries := {
  q_waitForEndOfStream : E → Z → VoidResult;
  q_isEndOfStreamReached : E → bool;
  q_queueDepth : E → string → Z;
  q_hasQueueCapacity : E → string → bool;
  q_waitForDrain : E → Z → Z → VoidResult;
  q_getNodeStates : E → gmap string NodeExecutionState;
  q_statistics : E → EngineStatisticsSnapshot;
  q_setTraceSink : E → option TraceSink → E * VoidResult;
  q_info : E → string;
}.

Section Queries.
Context `{!EngineQueries}.

(** src/src/pipeline_impl.cpp:396-403 Pipeline::Impl::waitForEndOfStream *)
Definition waitForEndOfStream p (timeout : Z) : VoidResult :=
  match p_engine p with
  | None => void_err EC_NotInitialized "Engine not initialized" ""
  | Some e => q_waitForEndOfStream e timeout
  end.

(** src/src/pipeline_impl.cpp:405-407 Pipeline::Impl::isEndOfStreamReached *)
Definition isEndOfStreamReached p : bool := match p_engine p with Some e => q_isEndOfStreamReached e | None => false end.

(** src/src/pipeline_impl.cpp:409-413 Pipeline::Impl::queueDepth *)
Definition queueDepth p (node_name : string) : Z := match p_engine p with Some e => q_queueDepth e node_name | None => 0 end.

(** src/src/pipeline_impl.cpp:415-419 Pipeline::Impl::hasQueueCapacity *)
Definition hasQueueCapacity p (node_name : string) : bool :=
  match p_engine p with Some e => q_hasQueueCapacity e node_name | None => false end.

(** src/src/pipeline_impl.cpp:421-427 Pipeline::Impl::waitForDrain *)
Definition waitForDrain p (max_depth timeout : Z) : VoidResult :=
  match p_engine p with Some e => q_waitForDrain e max_depth timeout | None => void_ok end.

(** src/src/pipeline_impl.cpp:520-526 Pipeline::Impl::nodeStates *)
Definition nodeStates p : gmap string NodeExecutionState := match p_engine p with Some e => q_getNodeStates e | None => ∅ end.

(** src/src/pipeline_impl.cpp:530-535 Pipeline::Impl::statistics *)
Definition statistics p (now : Z) : EngineStatisticsSnapshot :=
  match p_engine p with Some e => q_statistics e | None => emptySnapshot now end.

(** src/src/pipeline_impl.cpp:537-543 Pipeline::Impl::setTraceSink *)
Definition setTraceSink p (sink : option TraceSink) : Pipeline * VoidResult :=
  match p_engine p with
  | None => (p, void_err EC_NotInitialized "Pipeline has no engine" "")
  | Some e => let (e, r) := q_setTraceSink e sink in (set_engine p e, r)
  end.

(** src/src/pipeline_impl.cpp:568-573 Pipeline::Impl::info *)
Definition info p : string := match p_engine p with Some e => q_info e | None => "Pipeline: Not initialized" end.
End Queries.

(** src/src/pipeline_impl.cpp:509-511 Pipeline::Impl::state *)
Definition state p : PipelineState := p_state p.

(** src/src/pipeline_impl.cpp:528-528 Pipeline::Impl::mode *)
Definition mode p : ExecutionMode := po_mode (p_options p).

(** src/src/pipeline_impl.cpp:547-552 Pipeline::Impl::graph; [inr] is the exception *)
Definition graph_of p : Graph + string :=
  match p_graph p with Some g => inl g | None => inr "Pipeline: Graph not initialized" end.

(** src/src/pipeline_impl.cpp:554-559 Pipeline::Impl::context *)
Definition context_of p : Pipeline * PipelineContext :=
  match p_context p with Some c => (p, c) | None => (set_ctx p (Some newContext), newContext) end.

(** src/src/pipeline_impl.cpp:561-566 Pipeline::Impl::context (const) *)
Definition context_of_const p : PipelineContext + string :=
  match p_context p with Some c => inl c | None => inr "Pipeline: Context not initialized" end.

(** src/include/ai_pipe/pipeline.hpp:127-173 CallbackObserver: which callbacks it was given *)
Record CallbackObserver := mkCallbackObserver { co_start : bool; co_result : bool; co_error : bool; co_drop : bool }.

(** src/include/ai_pipe/pipeline.hpp:149-165 CallbackObserver::onExecutionStarted, onExecutionCompleted,
    onExecutionFailed and onFrameDropped: whether the user's callback is called; [onEndOfStream] is inherited and does
    nothing *)
Definition co_hears (o : CallbackObserver) (n : Note) : bool :=
  match n with
  | NStarted => co_start o
  | NCompleted _ => co_result o
  | NFailed _ => co_error o
  | NDropped _ _ _ => co_drop o
  | NEndOfStream => false
  end.

(** ** The builder *)

(** src/src/pipeline_impl.cpp:851-859 PipelineBuilder::BuilderState; the callback observer is one of the
    observers, identified by a number *)
Record BuilderState := mkBuilder {
  b_graph : option Graph;
  b_context : option PipelineContext;
  b_options : PipelineOptions;
  b_observers : list (option nat);
  b_callback_observer : option nat;
  b_scheduler : bool;
  b_sync : bool;
}.

Definition newBuilder : BuilderState := mkBuilder None None default_options [] None false false.

Definition with_options (b : BuilderState) (f : PipelineOptions → PipelineOptions) : BuilderState :=
  mkBuilder (b_graph b) (b_context b) (f (b_options b)) (b_observers b) (b_callback_observer b) (b_scheduler b) (b_sync b).

(** src/src/pipeline_impl.cpp:872-875 PipelineBuilder::withGraph *)
Definition withGraph (b : BuilderState) (graph : Graph) : BuilderState :=
  mkBuilder (Some graph) (b_context b) (b_options b) (b_observers b) (b_callback_observer b) (b_scheduler b) (b_sync b).

(** src/src/pipeline_impl.cpp:883-890 PipelineBuilder::withMode *)
Definition withMode (b : BuilderState) (mode : ExecutionMode) : BuilderState :=
  with_options b (λ o, mkOptions mode (po_num_workers o) (po_execution_timeout o) (po_queue_capacity o)
    (po_drop_strategy o) (match mode with STREAM => true | BATCH => po_enable_sync_coordination o end)
    (po_enable_statistics o) (po_alignment_policy o) (po_alignment_tolerance o)
    (po_join_wait_timeout o) (po_join_timeout_policy o)).

(** src/src/pipeline_impl.cpp:892-895 PipelineBuilder::withWorkers *)
Definition withWorkers (b : BuilderState) (count : Z) : BuilderState :=
  with_options b (λ o, mkOptions (po_mode o) count (po_execution_timeout o) (po_queue_capacity o)
    (po_drop_strategy o) (po_enable_sync_coordination o) (po_enable_statistics o) (po_alignment_policy o)
    (po_alignment_tolerance o) (po_join_wait_timeout o) (po_join_timeout_policy o)).

(** src/src/pipeline_impl.cpp:903-906 PipelineBuilder::withOptions *)
Definition withOptions (b : BuilderState) (options : PipelineOptions) : BuilderState :=
  with_options b (λ _, options).

(** src/src/pipeline_impl.cpp:909-912 PipelineBuilder::withQueueCapacity *)
Definition withQueueCapacity (b : BuilderState) (capacity : Z) : BuilderState :=
  with_options b (λ o, mkOptions (po_mode o) (po_num_workers o) (po_execution_timeout o) capacity
    (po_drop_strategy o) (po_enable_sync_coordination o) (po_enable_statistics o) (po_alignment_policy o)
    (po_alignment_tolerance o) (po_join_wait_timeout o) (po_join_timeout_policy o)).

(** src/src/pipeline_impl.cpp:919-922 PipelineBuilder::withSyncCoordination *)
Definition withSyncCoordination (b : BuilderState) (enable : bool) : BuilderState :=
  with_options b (λ o, mkOptions (po_mode o) (po_num_workers o) (po_execution_timeout o) (po_queue_capacity o)
    (po_drop_strategy o) enable (po_enable_statistics o) (po_alignment_policy o)
    (po_alignment_tolerance o) (po_join_wait_timeout o) (po_join_timeout_policy o)).

(** src/src/pipeline_impl.cpp:878-881 PipelineBuilder::withContext *)
Definition withContext (b : BuilderState) (context : option PipelineContext) : BuilderState :=
  mkBuilder (b_graph b) context (b_options b) (b_observers b) (b_callback_observer b) (b_scheduler b) (b_sync b).

(** src/src/pipeline_impl.cpp:898-901 PipelineBuilder::withTimeout *)
Definition withTimeout (b : BuilderState) (timeout : Z) : BuilderState :=
  with_options b (λ o, mkOptions (po_mode o) (po_num_workers o) timeout (po_queue_capacity o)
    (po_drop_strategy o) (po_enable_sync_coordination o) (po_enable_statistics o) (po_alignment_policy o)
    (po_alignment_tolerance o) (po_join_wait_timeout o) (po_join_timeout_policy o)).

(** src/src/pipeline_impl.cpp:914-917 PipelineBuilder::withDropStrategy *)
Definition withDropStrategy (b : BuilderState) (strategy : string) : BuilderState :=
  with_options b (λ o, mkOptions (po_mode o) (po_num_workers o) (po_execution_timeout o) (po_queue_capacity o)
    strategy (po_enable_sync_coordination o) (po_enable_statistics o) (po_alignment_policy o)
    (po_alignment_tolerance o) (po_join_wait_timeout o) (po_join_timeout_policy o)).

(** src/src/pipeline_impl.cpp:925-929 PipelineBuilder::withSchedulerStrategy *)
Definition withSchedulerStrategy (b : BuilderState) (given : bool) : BuilderState :=
  mkBuilder (b_graph b) (b_context b) (b_options b) (b_observers b) (b_callback_observer b) given (b_sync b).

(** src/src/pipeline_impl.cpp:932-935 PipelineBuilder::withSyncStrategy *)
Definition withSyncStrategy (b : BuilderState) (given : bool) : BuilderState :=
  mkBuilder (b_graph b) (b_context b) (b_options b) (b_observers b) (b_callback_observer b) (b_scheduler b) given.

(** src/src/pipeline_impl.cpp:939-964 PipelineBuilder::onResult, onError, onDrop: the callback
    observer is made on the first of them ([fresh] identifies it) and shared by all *)
Definition onCallback (b : BuilderState) (fresh : nat) : BuilderState :=
  mkBuilder (b_graph b) (b_context b) (b_options b) (b_observers b)
    (Some (default fresh (b_callback_observer b))) (b_scheduler b) (b_sync b).

(** src/src/pipeline_impl.cpp:967-970 PipelineBuilder::withObserver *)
Definition withObserver (b : BuilderState) (observer : option nat) : BuilderState :=
  mkBuilder (b_graph b) (b_context b) (b_options b) (b_observers b ++ [observer]) (b_callback_observer b)
    (b_scheduler b) (b_sync b).

(** src/src/pipeline_impl.cpp:973-1001 PipelineBuilder::build *)
Definition build (b : BuilderState) : Result Pipeline :=
  match b_graph b with
  | None => result_err EC_InvalidArgument
      "PipelineBuilder: No graph provided. Call withGraph() before build()" ""
  | Some graph =>
      let '(p, init_result) := initialize newPipeline graph (b_context b) (b_options b) (b_scheduler b) (b_sync b) in
      if negb (void_isOk init_result) then RErr (void_error init_result)
      else
        let p := match b_callback_observer b with Some o => addObserver p (Some o) | None => p end in
        ROk (foldl addObserver p (b_observers b))
  end.

(** src/include/ai_pipe/pipeline.hpp:410-417 makeBatchPipeline *)
Definition makeBatchPipeline (graph : Graph) (workers : Z) : Result Pipeline :=
  build (withWorkers (withMode (withGraph newBuilder graph) BATCH) workers).

(** src/include/ai_pipe/pipeline.hpp:419-429 makeStreamPipeline *)
Definition makeStreamPipeline (graph : Graph) (workers queue_capacity : Z) : Result Pipeline :=
  build (withSyncCoordination (withQueueCapacity (withWorkers (withMode (withGraph newBuilder graph) STREAM)
    workers) queue_capacity) true).

End Pipeline.
