(* ===== verification/PipelineCorrect.v ===== *)
(** * Correctness of the facade

    For every engine behind [EngineApi]: which calls are refused and how, what a
    synchronous run answers, that a promise is fulfilled at most once whatever
    stale callbacks the engine still holds, and that an error state is left only by
    [reset].  The last section shows where the code does not keep what its comments
    say. *)

From S2P Require Import Prelude Errors Packets Kahn Graphs CompiledGraphs ExecutionTypes Schedulers SyncCoordinator JoinAwareSync.
From S2P Require Import Options Contexts EngineCore Engine Pipelines.
Local Open Scope string_scope.
Local Open Scope list_scope.
Local Open Scope Z_scope.

Section Facade.
Context `{CppTypes} {E : Type} `{!EngineApi E}.
Implicit Types (p : Pipeline (E := E)).

(** ** Guards *)

(** The code with which an operation is refused. *)
Definition refusal p : option ErrorCode :=
  match p_state p with
  | PS_UNINITIALIZED => Some EC_NotInitialized
  | PS_ERROR => Some EC_InvalidState
  | PS_RUNNING | PS_STOPPING => Some EC_AlreadyRunning
  | PS_IDLE => if isReady p then None else Some EC_NotInitialized
  end.

Lemma validateState_code p op :
  match refusal p with
  | None => validateState p op = void_ok ∧ isReady p = true
  | Some code => void_errorCode (validateState p op) = code ∧ void_isOk (validateState p op) = false ∧ isReady p = false
  end.
Proof.
  unfold refusal, validateState, isReady. destruct (p_state p) eqn:Hs; simpl;
    destruct (p_engine p), (p_graph p); simpl; done.
Qed.

Lemma refusal_ready p : refusal p = None ↔ isReady p = true.
Proof.
  pose proof (validateState_code p "") as Hv. destruct (refusal p); [|naive_solver].
  destruct Hv as (_ & _ & ->). done.
Qed.

(** ** Callbacks *)

(** What a sequence of callbacks leaves in the two result slots. *)
Definition result_after (rs : PortDataMap) (evs : list (bool * Event)) : PortDataMap :=
  foldl (λ rs ev, match ev.2 with EvResult r => r | _ => rs end) rs evs.
Definition error_after (err : option Error) (evs : list (bool * Event)) : option Error :=
  foldl (λ err ev, match ev.2 with
    | EvResult _ => None
    | EvError m n => Some (error_nodeException m n)
    | _ => err end) err evs.

(** What observers hear of a callback. *)
Definition note_of (ev : Event) : option Note :=
  match ev with
  | EvResult r => Some (NCompleted r)
  | EvError m n => Some (NFailed (error_nodeException m n))
  | EvDrop n f r => Some (NDropped n f r)
  | EvEndOfStream => Some NEndOfStream
  | _ => None
  end.

Definition tell (observers : list (option nat)) (n : Note) : list (nat * Note) := (λ o, (o, n)) <$> omap id observers.
Definition told (observers : list (option nat)) (evs : list (bool * Event)) : list (nat * Note) :=
  evs ≫= λ ev, from_option (tell observers) [] (note_of ev.2).

(** What resident callbacks keep and change. *)
Record delivered (p q : Pipeline (E := E)) (evs : list (bool * Event)) : Prop := {
  dl_results : p_lastResults q = result_after (p_lastResults p) evs;
  dl_error : p_lastError q = error_after (p_lastError p) evs;
  dl_notes : p_notes q = p_notes p ++ told (p_observers p) evs;
  dl_handlers : p_handlers q = Resident;
  dl_rest : p_engine q = p_engine p ∧ p_graph q = p_graph p ∧ p_context q = p_context p ∧
    p_options q = p_options p ∧ p_observers q = p_observers p ∧ p_executionStart q = p_executionStart p ∧
    p_promises q = p_promises p;
}.

Lemma deliver_resident now evs : ∀ p, p_handlers p = Resident → delivered p (deliver now p evs) evs.
Proof.
  unfold deliver. induction evs as [|[st ev] evs IH] using rev_ind; intros p Hp.
  { constructor; simpl; try done. unfold told. by rewrite app_nil_r. }
  specialize (IH p Hp). rewrite foldl_app. simpl. set (q := foldl _ p evs) in *.
  destruct IH as [H1 H2 H3 H4 H5]. rewrite H4. destruct H5 as (G1 & G2 & G3 & G4 & G5 & G6 & G7).
  destruct ev; simpl; constructor; unfold result_after, error_after, told in *;
    rewrite ?foldl_app, ?bind_app; simpl; unfold resident_result, resident_error, notify, tell;
    simpl; try done; try (case_match; simpl); rewrite ?H1, ?H2, ?H3, ?G5, ?app_nil_r, ?(assoc (++)); done.
Qed.

(** ** Promises *)

(** [armed]: the promises a one-shot handler was ever installed for.  Such a promise
    is empty until its flag is set, and no promise is ever fulfilled twice. *)
Record promises_ok (armed : list nat) p : Prop := {
  po_unbroken : ∀ k pm, p_promises p !! k = Some pm →
    pm_broken pm = false ∧ (k ∈ armed → pm_done pm = false → pm_value pm = None);
  po_armed : ∀ k, k ∈ armed → (k < length (p_promises p))%nat;
  po_handler : ∀ k t, p_handlers p = OneShot k t → k ∈ armed;
}.

(** A handler the engine may hold: the resident one, or one that was installed. *)
Definition known (armed : list nat) (h : Handlers) : Prop :=
  match h with Resident => True | OneShot k _ => k ∈ armed end.

Lemma promises_ok_same armed p q :
  p_promises q = p_promises p → (p_handlers q = p_handlers p ∨ p_handlers q = Resident) →
  promises_ok armed p → promises_ok armed q.
Proof.
  intros Hp Hh [H1 H2 H3]. constructor; rewrite ?Hp; try done.
  intros k t Hq. destruct Hh as [Hh|Hh]; rewrite Hh in Hq; [by eapply H3|done].
Qed.

(** Claiming the flag: afterwards a fulfilment is safe, and only then. *)
Lemma fire_ok armed p k q v :
  promises_ok armed p → k ∈ armed → exchange_done p k = (q, false) →
  ∀ r, p_promises r = p_promises q → p_handlers r = Resident → promises_ok armed (fulfil r k v).
Proof.
  intros [H1 H2 H3] Hk Hex r Hr Hh. unfold exchange_done in Hex.
  destruct (p_promises p !! k) as [pm|] eqn:Hpm; [|done]. injection Hex as <- Hd.
  destruct (H1 _ _ Hpm) as [Hb Hv]. specialize (Hv Hk Hd). simpl in Hr.
  assert (p_promises r !! k = Some (mkPromise true None (pm_broken pm))) as Hrk.
  { rewrite Hr, list_lookup_insert_eq by (by apply H2). by rewrite Hv. }
  unfold fulfil. rewrite Hrk. simpl. constructor; simpl.
  - intros j pj Hj. destruct (decide (k = j)) as [<-|Hne].
    + rewrite Hr, list_lookup_insert_eq in Hj by (rewrite length_insert; by apply H2). injection Hj as <-. done.
    + rewrite Hr, !list_lookup_insert_ne in Hj by done. by apply H1.
  - intros j Hj. rewrite length_insert, Hr, length_insert. by apply H2.
  - intros j t. by rewrite Hh.
Qed.

Lemma exchange_ok armed p k q b : promises_ok armed p → exchange_done p k = (q, b) → promises_ok armed q.
Proof.
  intros [H1 H2 H3] Hex. unfold exchange_done in Hex.
  destruct (p_promises p !! k) as [pm|] eqn:Hpm; injection Hex as <- <-; [|done].
  constructor; simpl; [| |done].
  - intros j pj Hj. destruct (decide (k = j)) as [<-|Hne].
    + rewrite list_lookup_insert_eq in Hj by (by eapply lookup_lt_Some). injection Hj as <-. simpl.
      split; [by eapply H1|done].
    + rewrite list_lookup_insert_ne in Hj by done. by apply H1.
  - intros j Hj. rewrite length_insert. by apply H2.
Qed.

Lemma invoke_ok armed now h p st ev :
  promises_ok armed p → known armed h → promises_ok armed (invoke now h p st ev).
Proof.
  intros Hok Hh. destruct ev; simpl; try done; try (by eapply promises_ok_same; [| |exact Hok]; auto).
  - destruct h as [|k t]; simpl.
    + eapply promises_ok_same; [| |exact Hok]; unfold resident_result; case_match; simpl; auto.
    + unfold oneshot_result. destruct (exchange_done p k) as [q [|]] eqn:Hex; [by eapply exchange_ok|].
      by eapply fire_ok.
  - destruct h as [|k t]; simpl.
    + eapply promises_ok_same; [| |exact Hok]; unfold resident_error; case_match; simpl; auto.
    + unfold oneshot_error. destruct (exchange_done p k) as [q [|]] eqn:Hex; [by eapply exchange_ok|].
      by eapply fire_ok.
Qed.

Lemma deliver_ok armed now evs : ∀ p, promises_ok armed p → promises_ok armed (deliver now p evs).
Proof.
  unfold deliver. induction evs as [|ev evs IH]; intros p Hok; simpl; [done|]. apply IH, invoke_ok; [done|].
  destruct (p_handlers p) as [|k t] eqn:Hh; simpl; [done|]. by eapply po_handler.
Qed.

Lemma engine_call_ok armed p now op : promises_ok armed p → promises_ok armed (engine_call p now op).
Proof.
  intros Hok. unfold engine_call. destruct (p_engine p) as [e|]; [|done].
  destruct (op e) as [e' evs]. apply deliver_ok. eapply promises_ok_same; [| |exact Hok]; auto.
Qed.

Lemma engine_execute_ok armed p now inputs w t q r :
  promises_ok armed p → engine_execute p now inputs w t = (q, r) → promises_ok armed q.
Proof.
  intros Hok. unfold engine_execute. destruct (p_engine p) as [e|]; [|by intros [= <- _]].
  destruct (api_execute e _ _ _ _) as [[[e' ctx] evs] r']. intros [= <- _].
  apply deliver_ok. eapply promises_ok_same; [| |exact Hok]; auto.
Qed.

Lemma transition_ok armed p st : promises_ok armed p → promises_ok armed (transitionTo p st).
Proof. intros Hok. eapply promises_ok_same; [| |exact Hok]; auto. Qed.

(** Everything a program and the engine may do with a pipeline: calls of the facade,
    work of the engine's threads, and a callback through a copy taken earlier. *)
Inductive FacadeOp :=
  | FRun (now later : Z) (inputs : PortDataMap) (timeout : option Z)
  | FRunAsync (now : Z) (inputs : PortDataMap)
  | FSubmit (now : Z) (inputs : PortDataMap)
  | FStart (now : Z) (context : option PipelineContext)
  | FStop (now : Z) (wait_for_drain : bool)
  | FCancel (now : Z)
  | FWait (now : Z)
  | FReset (now : Z)
  | FWork (now : Z)
  | FStale (now : Z) (h : Handlers) (streaming : bool) (ev : Event).

Definition facade_op (st : Pipeline (E := E) * list nat) (op : FacadeOp) : Pipeline (E := E) * list nat :=
  let '(p, armed) := st in
  match op with
  | FRun now later inputs timeout => ((run p now later inputs timeout).1, armed)
  | FRunAsync now inputs =>
      ((runAsync p now inputs).1, if isReady p then armed ++ [length (p_promises p)] else armed)
  | FSubmit now inputs => ((submit p now inputs).1, armed)
  | FStart now context => ((start p now context).1, armed)
  | FStop now w => (stop p now w, armed)
  | FCancel now => (cancel p now, armed)
  | FWait now => (wait p now, armed)
  | FReset now => (reset p now, armed)
  | FWork now => (engine_call p now api_work, armed)
  | FStale now h streaming ev =>
      (match h with
       | Resident => invoke now h p streaming ev
       | OneShot k _ => if decide (k ∈ armed) then invoke now h p streaming ev else p
       end, armed)
  end.

Lemma run_ok armed p now later inputs t : promises_ok armed p → promises_ok armed (run p now later inputs t).1.
Proof.
  intros Hok. unfold run. destruct (negb _); [done|].
  destruct (engine_execute _ later inputs true _) as [q r] eqn:Hex.
  apply (engine_execute_ok armed) in Hex; [|eapply promises_ok_same; [| |exact Hok]; auto].
  repeat case_match; simpl; by apply transition_ok.
Qed.

Lemma submit_ok armed p now inputs : promises_ok armed p → promises_ok armed (submit p now inputs).1.
Proof.
  intros Hok. unfold submit. destruct (negb _); [done|].
  destruct (engine_execute _ now inputs false None) as [q r] eqn:Hex.
  apply (engine_execute_ok armed) in Hex; [|eapply promises_ok_same; [| |exact Hok]; auto].
  case_match; simpl; [done|by apply transition_ok].
Qed.

Lemma start_ok armed p now ctx : promises_ok armed p → promises_ok armed (start p now ctx).1.
Proof.
  intros Hok. unfold start. destruct (negb _); [done|]. case_bool_decide; [done|].
  set (q := set_start _ now). assert (promises_ok armed q) as Hq.
  { eapply promises_ok_same; [| |exact Hok]; unfold q; destruct ctx; auto. }
  clearbody q. destruct (p_engine q) as [e|]; [|done].
  destruct (api_startStreaming e _) as [[[e' c'] evs] r].
  assert (promises_ok armed (deliver now (set_ctx (set_engine q e') c') evs)) as Hd.
  { apply deliver_ok. eapply promises_ok_same; [| |exact Hq]; auto. }
  case_match; simpl; [done|by apply transition_ok].
Qed.

Lemma stop_ok armed p now w : promises_ok armed p → promises_ok armed (stop p now w).
Proof. intros Hok. unfold stop. destruct (negb _); [done|]. by apply transition_ok, engine_call_ok. Qed.

Lemma cancel_ok armed p now : promises_ok armed p → promises_ok armed (cancel p now).
Proof.
  intros Hok. unfold cancel. destruct (_ && _); [done|]. apply transition_ok.
  assert (promises_ok armed (set_ctx p (requestCancellation <$> p_context p))) as Hc
    by (eapply promises_ok_same; [| |exact Hok]; auto).
  destruct (isStreaming _); by apply engine_call_ok.
Qed.

Lemma wait_ok armed p now : promises_ok armed p → promises_ok armed (wait p now).
Proof. intros Hok. unfold wait. destruct (isRunning p); [by apply engine_call_ok|done]. Qed.

Lemma reset_ok armed p now : promises_ok armed p → promises_ok armed (reset p now).
Proof.
  intros Hok. unfold reset. apply transition_ok. eapply promises_ok_same; [| |apply engine_call_ok]; auto.
  destruct (isStreaming p); [by apply stop_ok|]. destruct (isRunning p); [by apply wait_ok, cancel_ok|done].
Qed.

(** A new promise beside the others. *)
Lemma new_promise_ok armed p (b : bool) :
  promises_ok armed p →
  promises_ok (if b then armed ++ [length (p_promises p)] else armed)
    (set_promises p (p_promises p ++ [mkPromise false None false])).
Proof.
  intros [H1 H2 H3]. constructor; simpl.
  - intros k pm [->|Hk]%lookup_snoc_inv; [done|]. destruct (H1 _ _ Hk) as [Hb Hv]. split; [done|].
    destruct b; [|done]. intros [Hin|Hin]%elem_of_app; [by apply Hv|].
    apply list_elem_of_singleton in Hin as ->. apply lookup_lt_Some in Hk. lia.
  - intros k. rewrite length_app. simpl. destruct b; [rewrite elem_of_app, list_elem_of_singleton|];
      intros Hk; [destruct Hk as [Hk%H2| ->]; lia|apply H2 in Hk; lia].
  - intros k t Hh%H3. destruct b; set_solver.
Qed.

(** A refused [runAsync]: its promise is fulfilled on the spot and never armed. *)
Lemma refused_promise_ok armed p v :
  promises_ok armed p →
  promises_ok armed (fulfil (set_promises p (p_promises p ++ [mkPromise false None false]))
                            (length (p_promises p)) v).
Proof.
  intros Hok. pose proof (new_promise_ok armed p false Hok) as [H1 H2 H3].
  unfold fulfil. cbn [p_promises set_promises] in *. rewrite lookup_app_r, Nat.sub_diag by done.
  constructor; simpl; [| |done].
  - intros j pj Hj. apply lookup_insert_inv in Hj as [[<- ->]|[_ Hj]]; [|by apply H1].
    split; [done|]. intros Hin%(po_armed _ _ Hok). lia.
  - intros j Hj. rewrite length_insert. by apply H2.
Qed.

Lemma runAsync_ok armed p now inputs :
  promises_ok armed p →
  promises_ok (if isReady p then armed ++ [length (p_promises p)] else armed) (runAsync p now inputs).1.
Proof.
  intros Hok. unfold runAsync. set (k := length (p_promises p)). set (q := set_promises p _).
  assert (isReady q = isReady p) as Hready by done.
  pose proof (validateState_code q "runAsync") as Hv.
  destruct (refusal q) as [code|].
  { destruct Hv as (_ & -> & Hr). rewrite <-Hready, Hr. by apply refused_promise_ok. }
  destruct Hv as [-> Hr]. rewrite <-Hready, Hr. cbn [void_isOk void_ok negb].
  assert (promises_ok (armed ++ [k]) q) as Hq by (apply (new_promise_ok armed p true Hok)).
  change (negb (void_isOk void_ok)) with false. cbv iota.
  set (q1 := set_handlers _ _).
  assert (promises_ok (armed ++ [k]) q1) as Hq1.
  { destruct Hq as [H1 H2 H3]. constructor; [done|done|]. intros j t [= <- _]. set_solver. }
  destruct (engine_execute q1 now inputs false None) as [q2 r] eqn:Hex.
  apply (engine_execute_ok _ _ _ _ _ _ _ _ Hq1) in Hex.
  destruct (void_isOk r); [done|].
  destruct (exchange_done q2 k) as [q3 [|]] eqn:Hd; [by eapply exchange_ok|].
  eapply fire_ok; [exact Hex|set_solver|exact Hd|done|done].
Qed.

Lemma facade_op_ok st op : promises_ok st.2 st.1 → promises_ok (facade_op st op).2 (facade_op st op).1.
Proof.
  destruct st as [p armed]. simpl. intros Hok. destruct op; simpl;
    auto using run_ok, submit_ok, start_ok, stop_ok, cancel_ok, wait_ok, reset_ok, runAsync_ok, engine_call_ok.
  destruct h as [|k t]; [by apply invoke_ok|]. case_decide; [by apply invoke_ok|done].
Qed.

Lemma facade_ops_ok ops : ∀ st, promises_ok st.2 st.1 →
  promises_ok (foldl facade_op st ops).2 (foldl facade_op st ops).1.
Proof. induction ops as [|op ops IH]; intros st Hok; simpl; [done|]. by apply IH, facade_op_ok. Qed.

(** ** The error state *)

Definition quiet (evs : list (bool * Event)) : Prop := Forall (λ ev, ev.1 = false) evs.

(** Callbacks of an engine that is not streaming cannot take a pipeline out of [ERROR]. *)
Lemma deliver_error now evs : ∀ p,
  p_handlers p = Resident → p_state p = PS_ERROR → p_state (deliver now p evs) = PS_ERROR.
Proof.
  unfold deliver. induction evs as [|[st ev] evs IH]; intros p Hh Hs; simpl; [done|]. rewrite Hh.
  apply IH; destruct ev; simpl; unfold resident_result, resident_error; try done; case_match; simpl; try done.
  simpl in *. by rewrite Hs, bool_decide_eq_false_2, andb_false_r in H0 by done.
Qed.

Definition has_parts p : Prop := is_Some (p_engine p) ∧ is_Some (p_graph p).

Lemma exchange_parts p k q b : exchange_done p k = (q, b) → has_parts p → has_parts q.
Proof. unfold exchange_done, has_parts. destruct (p_promises p !! k); by intros [= <- _]. Qed.

Lemma fulfil_parts p k v : has_parts (fulfil p k v) ↔ has_parts p.
Proof. unfold fulfil, has_parts. by destruct (p_promises p !! k). Qed.

Lemma invoke_parts now h p st ev : has_parts p → has_parts (invoke now h p st ev).
Proof.
  intros Hp. destruct ev; simpl; try done; destruct h as [|k t]; simpl;
    unfold resident_result, resident_error, oneshot_result, oneshot_error; try (by case_match);
    (destruct (exchange_done p k) as [q [|]] eqn:Hd; [by eapply exchange_parts|]);
    apply fulfil_parts; by eapply exchange_parts in Hd.
Qed.

Lemma deliver_parts now evs : ∀ p, has_parts p → has_parts (deliver now p evs).
Proof. unfold deliver. induction evs as [|ev evs IH]; intros p Hp; simpl; [done|]. by apply IH, invoke_parts. Qed.

Lemma engine_call_parts p now op : has_parts p → has_parts (engine_call p now op).
Proof.
  intros Hp. unfold engine_call. destruct (p_engine p) as [e|]; [|done]. destruct (op e) as [e' evs].
  apply deliver_parts. destruct Hp. by split.
Qed.
Lemma run_parts p now later inputs timeout : has_parts p → has_parts (run p now later inputs timeout).1.
Proof.
  intros Hp. unfold run. destruct (negb _); [done|]. unfold engine_execute.
  cbn [p_engine notify set_start transitionTo]. destruct (p_engine p) as [e|] eqn:He; [|by destruct Hp as [[? ?] _]; congruence].
  destruct (api_execute _ _ _ _ _) as [[[e' ctx] evs] r]. set (q := deliver _ _ _).
  assert (has_parts q) as Hq by (apply deliver_parts; destruct Hp; by split). by repeat case_match.
Qed.

Lemma run_options p now later inputs timeout : p_handlers p = Resident → p_options (run p now later inputs timeout).1 = p_options p.
Proof.
  intros Hh. unfold run. destruct (negb _); [done|]. unfold engine_execute. cbn [p_engine notify set_start transitionTo].
  destruct (p_engine p) as [e|]; [|by repeat case_match]. destruct (api_execute _ _ _ _ _) as [[[e' ctx] evs] r]. set (q0 := set_ctx _ ctx).
  destruct (dl_rest _ _ _ (deliver_resident later evs q0 Hh)) as (_ & _ & _ & Ho & _).
  change (p_options p) with (p_options q0). rewrite <-Ho. by repeat case_match.
Qed.

Lemma ready_parts p : isReady p = true ↔ has_parts p ∧ p_state p = PS_IDLE.
Proof.
  unfold isReady, has_parts. destruct (p_engine p), (p_graph p); rewrite ?bool_decide_eq_true; naive_solver.
Qed.
End Facade.

(** What a synchronous run does, for an idle pipeline with its resident callbacks. *)
Lemma run_answers `{CppTypes} {E} `{!EngineApi E} (p : Pipeline (E := E)) (e e' : E) (now later : Z)
    (inputs : PortDataMap) (timeout : option Z) ctx evs r :
  isReady p = true → p_handlers p = Resident → p_engine p = Some e →
  api_execute e (p_context p) inputs true (engine_timeout p timeout) = (e', ctx, evs, r) →
  let q := (run p now later inputs timeout).1 in
  let answer := (run p now later inputs timeout).2 in
  (if void_isOk r then
     p_state q = PS_IDLE ∧ answer = ROk (mkOutput (result_after (p_lastResults p) evs) (later - now))
   else
     p_state q = PS_ERROR ∧
     if decide (void_errorCode r = EC_ExecutionTimeout)
     then result_errorCode answer = EC_ExecutionTimeout
     else answer = RErr (default (void_error r) (error_after (p_lastError p) evs))) ∧
  p_notes q = p_notes p ++ tell (p_observers p) NStarted ++ told (p_observers p) evs ∧
  p_engine q = Some e' ∧ p_context q = ctx ∧ p_handlers q = Resident.
Proof.
  intros Hready Hh He Hex. apply refusal_ready in Hready. pose proof (validateState_code p "run") as Hv.
  rewrite Hready in Hv. destruct Hv as [Hv _]. unfold run. rewrite Hv.
  change (negb (void_isOk void_ok)) with false. cbv iota.
  unfold engine_execute. set (p1 := notify _ NStarted).
  change (p_engine p1) with (p_engine p). change (p_context p1) with (p_context p).
  change (engine_timeout p1 timeout) with (engine_timeout p timeout). rewrite He, Hex.
  destruct (deliver_resident later evs (set_ctx (set_engine p1 e') ctx)) as [D1 D2 D3 D4 D5]; [done|].
  set (p2 := deliver later _ evs) in *. destruct D5 as (D5 & D6 & D7 & _ & _ & D8 & _).
  assert (p_notes p2 = p_notes p ++ tell (p_observers p) NStarted ++ told (p_observers p) evs) as Hn.
  { rewrite D3. unfold p1, notify, tell. simpl. by rewrite <-(assoc (++)). }
  rewrite D8. cbv zeta. destruct (void_isOk r) eqn:Hr; cbn [negb andb]; cbn [fst snd].
  - split_and!; [done| |done|done|done|done]. by rewrite D1.
  - case_bool_decide as Ht; [rewrite decide_True by done|rewrite decide_False by done];
      cbn [fst snd]; (split_and!; [done| |done|done|done|done]); [done|].
    by rewrite D2.
Qed.

(** ** Claims *)

(** Which calls are refused.  A pipeline accepts [run], [runAsync], [submit] and
    [start] only when it is idle with an engine and a graph; otherwise each of them
    leaves the pipeline exactly as it is (no engine call, no observer told) and
    reports [NotInitialized], [InvalidState] or [AlreadyRunning] according to the
    state; a refused [runAsync] resolves its future at once with that error. *)
Theorem facade_guards `{CppTypes} {E} `{!EngineApi E} (p : Pipeline (E := E)) (now later : Z)
    (inputs : PortDataMap) (timeout : option Z) (context : option PipelineContext) (code : ErrorCode) :
  refusal p = Some code →
  (∃ e, run p now later inputs timeout = (p, RErr e) ∧ err_code e = code) ∧
  (∃ r, submit p now inputs = (p, r) ∧ void_errorCode r = code ∧ void_isOk r = false) ∧
  (∃ r, start p now context = (p, r) ∧ void_errorCode r = code ∧ void_isOk r = false) ∧
  (∃ e, runAsync p now inputs =
     (set_promises p (p_promises p ++ [mkPromise false (Some (RErr e)) false]), length (p_promises p)) ∧
     err_code e = code).
Proof.
  intros Href. unfold run, submit, start, runAsync.
  set (q := set_promises p (p_promises p ++ [mkPromise false None false])).
  assert (refusal q = Some code) as Hq by done.
  pose proof (validateState_code p "run") as H1. pose proof (validateState_code p "submit") as H2.
  pose proof (validateState_code p "start streaming") as H3. pose proof (validateState_code q "runAsync") as H4.
  rewrite Href in H1, H2, H3. rewrite Hq in H4.
  destruct H1 as (C1 & -> & _), H2 as (C2 & E2 & _), H3 as (C3 & E3 & _), H4 as (C4 & -> & _).
  rewrite E2, E3. cbn [negb]. split_and!; [by eexists|by eexists|by eexists|].
  eexists. split; [|exact C4]. f_equal. unfold fulfil, q. cbn [p_promises set_promises].
  rewrite lookup_app_r, Nat.sub_diag by done. simpl. unfold set_promises. simpl. f_equal.
  by rewrite insert_app_r_alt, Nat.sub_diag by done.
Qed.

(** C22: What a synchronous run answers.  An idle pipeline with its resident callbacks
    hands the inputs to the engine, with the given timeout or the configured one when
    positive.  If the engine succeeds, the pipeline is idle again and the outputs are
    those of the last result callback of this execution (or what was recorded before,
    when there was none); a timeout or any other failure leaves it in [ERROR] and is
    answered with [ExecutionTimeout], or with the node error recorded last, or the
    engine's own error.  Observers hear the start and then each callback once, in
    order. *)
Theorem run_outcome `{CppTypes} {E} `{!EngineApi E} (p : Pipeline (E := E)) (e e' : E) (now later : Z)
    (inputs : PortDataMap) (timeout : option Z) ctx evs r :
  isReady p = true → p_handlers p = Resident → p_engine p = Some e →
  api_execute e (p_context p) inputs true (engine_timeout p timeout) = (e', ctx, evs, r) →
  let q := (run p now later inputs timeout).1 in
  let answer := (run p now later inputs timeout).2 in
  (if void_isOk r then
     p_state q = PS_IDLE ∧ answer = ROk (mkOutput (result_after (p_lastResults p) evs) (later - now))
   else
     p_state q = PS_ERROR ∧
     if decide (void_errorCode r = EC_ExecutionTimeout)
     then result_errorCode answer = EC_ExecutionTimeout
     else answer = RErr (default (void_error r) (error_after (p_lastError p) evs))) ∧
  p_notes q = p_notes p ++ tell (p_observers p) NStarted ++ told (p_observers p) evs ∧
  p_engine q = Some e' ∧ p_context q = ctx ∧ p_handlers q = Resident.
Proof. apply run_answers. Qed.

(** C23: A future is resolved at most once.  Take a fresh pipeline and any sequence of
    facade calls, engine work and late callbacks, including callbacks through copies
    of one-shot handlers the engine took before they were replaced (several nodes may
    fail at once): no promise is ever fulfilled a second time, which would throw
    [std::future_error] out of a worker thread. *)
Theorem promise_single_fire `{CppTypes} {E} `{!EngineApi E} (p : Pipeline (E := E)) (ops : list FacadeOp) :
  p_promises p = [] → p_handlers p = Resident →
  ∀ k pm, p_promises (foldl facade_op (p, []) ops).1 !! k = Some pm → pm_broken pm = false.
Proof.
  intros Hp Hh k pm Hk. eapply (facade_ops_ok ops (p, [])); [|exact Hk].
  constructor; simpl; [by intros ? ?; rewrite Hp|set_solver|]. intros ? ?. by rewrite Hh.
Qed.

(** The error state is left by [reset] and by nothing else, and [reset] always
    works.  On a pipeline in [ERROR] with its resident callbacks and no stream, the
    four ways to start work, [cancel], [stop], [wait] and whatever the engine's
    threads still report leave it in [ERROR]; [reset], from any state, makes a
    pipeline that has its engine and graph ready again, with no recorded result or
    error. *)
Theorem error_needs_reset `{CppTypes} {E} `{!EngineApi E} (p : Pipeline (E := E)) (now later : Z)
    (inputs : PortDataMap) (timeout : option Z) (context : option PipelineContext) :
  (p_state p = PS_ERROR → p_handlers p = Resident → isStreaming p = false →
   p_state (run p now later inputs timeout).1 = PS_ERROR ∧ p_state (runAsync p now inputs).1 = PS_ERROR ∧
   p_state (submit p now inputs).1 = PS_ERROR ∧ p_state (start p now context).1 = PS_ERROR ∧
   cancel p now = p ∧ wait p now = p ∧ (∀ w, stop p now w = p) ∧
   p_state (engine_call p now api_work) = PS_ERROR) ∧
  (has_parts p → isReady (reset p now) = true ∧ p_lastResults (reset p now) = [] ∧ p_lastError (reset p now) = None).
Proof.
  split.
  - intros Hs Hh Hst. assert (isRunning p = false) as Hr by (unfold isRunning; by rewrite Hs).
    split_and!.
    + unfold run, validateState. rewrite Hs. exact Hs.
    + unfold runAsync, validateState. cbn [p_state set_promises]. rewrite Hs.
      cbn [negb void_isOk]. unfold fulfil. by destruct (p_promises _ !! _).
    + unfold submit, validateState. rewrite Hs. exact Hs.
    + unfold start, validateState. rewrite Hs. exact Hs.
    + unfold cancel. by rewrite Hr, Hst.
    + unfold wait. by rewrite Hr.
    + intros w. unfold stop. by rewrite Hst.
    + unfold engine_call. destruct (p_engine p) as [e|]; [|done]. destruct (api_work e). by apply deliver_error.
  - intros Hp. split; [|done]. unfold reset, isReady. cbn [p_engine p_graph p_state transitionTo set_results].
    assert (has_parts (engine_call (if isStreaming p then stop p now false
      else if isRunning p then wait (cancel p now) now else p) now api_reset)) as [[e ->] [g ->]]; [|done].
    apply engine_call_parts. destruct (isStreaming p) eqn:Hst.
    { unfold stop. rewrite Hst. simpl. by apply engine_call_parts. }
    destruct (isRunning p); [|done]. unfold wait, cancel. rewrite Hst.
    assert (∀ q, has_parts q → has_parts (if isRunning q then engine_call q now api_waitForIdle else q)) as Hw.
    { intros q Hq. destruct (isRunning q); [by apply engine_call_parts|done]. }
    apply Hw. destruct (_ && _); [done|].
    assert (has_parts (set_ctx p (requestCancellation <$> p_context p))) as Hc by done.
    destruct (isStreaming (set_ctx p _)); by apply engine_call_parts.
Qed.

(** *** A scripted engine *)

(** It finishes a batch inside the call when asked to wait, with the inputs as the
    results, and later otherwise; stopping makes it forget what it was doing. *)
Record ScriptedEngine `{CppTypes} := mkScripted { se_pending : option PortDataMap; se_streaming : bool }.
Arguments mkScripted {_} _ _.
Arguments se_pending {_} _.
Arguments se_streaming {_} _.

#[export] Instance scripted_api `{CppTypes} : EngineApi ScriptedEngine := {|
  api_create _ := Some (mkScripted None false);
  api_setSchedulerStrategy e := (e, void_ok);
  api_setSyncStrategy e := (e, void_ok);
  api_initialize e _ _ := (e, void_ok);
  api_execute e ctx inputs wait _ :=
    if wait then (e, ctx, match inputs with [] => [] | _ => [(false, EvResult inputs)] end, void_ok)
    else (mkScripted (Some inputs) false, ctx, [], void_ok);
  api_work e := match se_pending e with
    | Some inputs => (mkScripted None false, [(false, EvResult inputs)]) | None => (e, []) end;
  api_startStreaming e ctx := (mkScripted None true, ctx, [], void_ok);
  api_stopStreaming e _ := (mkScripted None false, []);
  api_stopExecutionAsync e := (mkScripted None false, []);
  api_waitForIdle e := (e, []);
  api_reset e := (mkScripted None false, []);
  api_isStreaming e := se_streaming e;
  api_getState e := if se_pending e then RUNNING else IDLE;
  api_pushInput e _ _ _ := (e, [], ROk (push_enqueued 1));
  api_signalEndOfStream e _ _ := (e, [], void_ok);
|}.

#[local] Instance no_types : CppTypes := {| ty := unit; ty_name _ := "unit"; ty_val _ := unit |}.

Definition ex_pipeline : Pipeline (E := ScriptedEngine) :=
  match makeBatchPipeline empty_graph 2 with ROk p => addObserver p (Some 7%nat) | RErr _ => newPipeline end.
Definition ex_in (id : Z) : PortDataMap := [("source", Some (mkPacket id 0 0 []))].

Lemma facade_guards_witness :
  let p := transitionTo ex_pipeline PS_ERROR in
  refusal p = Some EC_InvalidState ∧ ∃ e, run p 0 5 (ex_in 1) None = (p, RErr e) ∧ err_code e = EC_InvalidState.
Proof.
  intros p. split; [reflexivity|].
  destruct (facade_guards p 0 5 (ex_in 1) None None EC_InvalidState eq_refl) as [Hrun _]. exact Hrun.
Defined.

Lemma run_outcome_witness :
  isReady ex_pipeline = true ∧
  (run ex_pipeline 10 25 (ex_in 1) None).2 = ROk (mkOutput (ex_in 1) 15) ∧
  p_notes (run ex_pipeline 10 25 (ex_in 1) None).1 = [(7%nat, NStarted); (7%nat, NCompleted (ex_in 1))].
Proof.
  split; [reflexivity|].
  assert (api_execute (mkScripted None false) (p_context ex_pipeline) (ex_in 1) true
    (engine_timeout ex_pipeline None) =
    (mkScripted None false, p_context ex_pipeline, [(false, EvResult (ex_in 1))], void_ok)) as Hex
    by (vm_compute; reflexivity).
  destruct (run_outcome ex_pipeline (mkScripted None false) (mkScripted None false) 10 25 (ex_in 1) None
    (p_context ex_pipeline) [(false, EvResult (ex_in 1))] void_ok eq_refl eq_refl eq_refl Hex)
    as ((_ & Hans) & Hnotes & _).
  split; [exact Hans|exact Hnotes].
Defined.

Lemma promise_single_fire_witness :
  let ops := [FRunAsync 0 (ex_in 1); FWork 3; FStale 4 (OneShot 0 0) false (EvError "late" "node");
              FRunAsync 5 (ex_in 2)] in
  (pm_value <$> p_promises (foldl facade_op (ex_pipeline, []) ops).1) =
    [Some (ROk (mkOutput (ex_in 1) 3)); None] ∧
  (∀ k pm, p_promises (foldl facade_op (ex_pipeline, []) ops).1 !! k = Some pm → pm_broken pm = false).
Proof.
  intros ops. split; [vm_compute; reflexivity|].
  exact (promise_single_fire ex_pipeline ops eq_refl eq_refl).
Defined.

Lemma error_needs_reset_witness :
  let p := transitionTo ex_pipeline PS_ERROR in
  p_state (run p 0 1 (ex_in 1) None).1 = PS_ERROR ∧ isReady (reset p 2) = true.
Proof.
  intros p. destruct (error_needs_reset p 0 1 (ex_in 1) None None) as [Hstay _].
  destruct (error_needs_reset p 2 2 [] None None) as [_ Hreset]. split.
  - apply Hstay; reflexivity.
  - apply Hreset. split; eexists; reflexivity.
Defined.

(** ** Where the code and its comments part *)

(** A cancelled [runAsync] is never resolved: stopping the engine makes no callback.
    Its one-shot handlers stay installed across [reset], and the next [run] resolves
    the old future with the new outputs. *)
Lemma cancelled_promise_adopts_next_run :
  let p1 := (runAsync ex_pipeline 0 (ex_in 1)).1 in
  let p2 := reset (cancel p1 1) 2 in
  let p3 := (run p2 3 5 (ex_in 2) None).1 in
  (pm_value <$> p_promises p2) = [None] ∧ p_handlers p2 = OneShot 0 0 ∧ isReady p2 = true ∧
  (pm_value <$> p_promises p3) = [Some (ROk (mkOutput (ex_in 2) 5))].
Proof. vm_compute. split_and!; reflexivity. Qed.

(** An execution that succeeds without a result callback: [run] answers with the
    outputs of the run before, and no observer hears of its completion. *)
Lemma silent_success_returns_old_outputs :
  let p1 := (run ex_pipeline 0 5 (ex_in 1) None).1 in
  (run p1 6 8 [] None).2 = ROk (mkOutput (ex_in 1) 2) ∧
  p_notes (run p1 6 8 [] None).1 = p_notes p1 ++ [(7%nat, NStarted)].
Proof. vm_compute. split; reflexivity. Qed.

(** Streaming that was cancelled leaves the pipeline in [STOPPING]: waiting does not
    help, starting again is refused, only [reset] does. *)
Lemma cancelled_stream_needs_reset :
  let p0 := match makeStreamPipeline (E := ScriptedEngine) empty_graph 2 16 with ROk p => p | RErr _ => newPipeline end in
  let p1 := wait (cancel (start p0 0 None).1 1) 2 in
  p_state p1 = PS_STOPPING ∧ isStreaming p1 = false ∧
  void_errorCode (start p1 3 None).2 = EC_AlreadyRunning ∧ isReady (reset p1 4) = true.
Proof. vm_compute. split_and!; reflexivity. Qed.

(** The engine does answer so.  A batch that gives no input to sources that have input
    ports schedules nothing: [execute] accepts it, completion is reached at once with
    success, and no callback is made, now or later.  ([run] then returns old outputs;
    the future of [runAsync] stays unresolved and [submit] leaves the pipeline
    [RUNNING].) *)
Lemma unfed_batch_succeeds_silently `{CppTypes} {Q Sy} `{!PortQueue Q, !SyncStrategy Sy}
    deref cfg cg sched onEndOfStream elapsed setup (s s1 : Engine Q Sy) (context : bool) :
  e_streamingMode s = false → e_state s ≠ RUNNING → e_pool s1 = [] →
  setupNodes deref cg setup (e_set_context s context) = (s1, void_ok) →
  (∀ i nd, i ∈ cg_sourceNodes cg → stateByIndex s1 i = Some nd → nd_input_ports nd ≠ []) →
  ∃ s', Engine.execute deref cfg cg sched onEndOfStream elapsed setup s [] context = Some (s', void_ok) ∧
    e_log s' = e_log s1 ∧ e_pool s' = [] ∧ completion_reached s' = true ∧ (completion_outcome s').2 = void_ok.
Proof.
  intros Hst Hrun Hpool Hset Hports. unfold Engine.execute. rewrite Hst, decide_False, Hset by done.
  change (negb (void_isOk void_ok)) with false. cbv iota.
  set (s2 := e_set_state _ RUNNING).
  assert (∀ i nd, i ∈ cg_sourceNodes cg → stateByIndex s2 i = Some nd → nd_input_ports nd ≠ []) as Hp2.
  { intros i nd Hi Hnd. unfold stateByIndex, s2 in Hnd. simpl in Hnd.
    rewrite list_lookup_fmap in Hnd. destruct (e_nodes s1 !! i) as [nd0|] eqn:E; [|done].
    injection Hnd as <-. exact (Hports i nd0 Hi E). }
  assert (∀ l, (∀ i, i ∈ l → i ∈ cg_sourceNodes cg) →
    foldl (distribute_source cfg cg sched onEndOfStream elapsed []) (Some (s2, Some false)) l
    = Some (s2, Some false)) as Hfold.
  { induction l as [|i l IH]; intros Hl; [done|]. cbn [foldl].
    assert (distribute_source cfg cg sched onEndOfStream elapsed [] (Some (s2, Some false)) i
            = Some (s2, Some false)) as ->; [|apply IH; set_solver].
    unfold distribute_source. cbn [mbind option_bind].
    destruct (stateByIndex s2 i) as [nd|] eqn:Hnd; [|done]. cbn [pm_find].
    specialize (Hp2 i nd ltac:(set_solver) Hnd). by destruct (nd_input_ports nd). }
  unfold distributeInitialInputs. rewrite (Hfold _ (λ i Hi, Hi)). cbn [mbind option_bind].
  exists s2. split; [done|]. split_and!; [done|done| |]; reflexivity.
Qed.

(** The last worker decrements the active count before it makes the result callback.
    In between, the thread inside [execute] finds completion reached and successful,
    and [run] reads the results before they are recorded. *)
Lemma waiter_can_overtake_result `{CppTypes} {Q Sy} `{!PortQueue Q} (s : Engine Q Sy) :
  e_activeTasks s = 1 → e_stopFlag s = false → e_state s = RUNNING →
  let s' := add_active s (-1) in
  completion_reached s' = true ∧ (completion_outcome s').2 = void_ok ∧ e_log s' = e_log s.
Proof.
  intros Ha Hstop Hrun s'. unfold completion_reached, completion_outcome, s'. simpl. rewrite Ha, Hstop, Hrun. done.
Qed.
