(* ===== verification/EndToEnd.v ===== *)
(** * From [Pipeline::run] to the dataflow

    The facade, the engine, its queues and schedulers together: a caller who runs a
    batch gets the outputs that the equations of the graph determine.  The facade is
    that of [Pipelines]; its engine is one that executes as the model of [Engine]
    does, with tasks taken in any order until the wait for completion ends. *)

From S2P Require Import Prelude Errors Packets Kahn Graphs CompiledGraphs MpmcQueue NodeQueue FrameAlignment.
From S2P Require Import SyncCoordinator JoinAwareSync ExecutionTypes Schedulers EngineCore EngineGather Dataflow Engine.
From S2P Require Import BatchRun BatchCorrect Options Contexts Pipelines PipelineCorrect.
Local Open Scope string_scope.
Local Open Scope list_scope.
Local Open Scope nat_scope.

(** ** The callbacks of an execution *)

Section Callbacks.
Context `{CppTypes} {Q Sy : Type} `{!PortQueue Q, !SyncStrategy Sy}.
Context (deref : NodePtr → ILogicNode) (cg : CompiledGraph).
Context (setup : list Event → NodePtr → VoidResult + option string).
Notation Engine := (Engine Q Sy).
Implicit Types (s : Engine).

(** The events that reach the facade, outside streaming. *)
Definition is_callback (ev : Event) : bool :=
  match ev with EvResult _ | EvError _ _ | EvDrop _ _ _ | EvEndOfStream => true | _ => false end.
Definition callbacks (log : list Event) : list (bool * Event) := (λ ev, (false, ev)) <$> filter (λ ev, is_callback ev = true) log.

Lemma callbacks_app log log' : callbacks (log ++ log') = callbacks log ++ callbacks log'.
Proof. unfold callbacks. by rewrite filter_app, fmap_app. Qed.

Lemma callbacks_none log : Forall (λ ev, is_callback ev = false) log → callbacks log = [].
Proof.
  unfold callbacks. induction 1 as [|ev log Hev _ IH]; [done|]. rewrite filter_cons, decide_False by congruence. done.
Qed.

(** Setting up and tearing down make none. *)
Definition silent s s' : Prop := ∃ log, e_log s' = e_log s ++ log ∧ callbacks log = [].

#[local] Instance silent_refl : Reflexive silent.
Proof. intros s. exists []. by rewrite app_nil_r. Qed.
#[local] Instance silent_trans : Transitive silent.
Proof.
  intros s1 s2 s3 (l1 & H1 & C1) (l2 & H2 & C2). exists (l1 ++ l2). by rewrite H2, H1, callbacks_app, C1, C2, (assoc_L (++)).
Qed.

Lemma silent_observe s ev : is_callback ev = false → silent s (observe s ev).
Proof. intros Hev. exists [ev]. split; [done|]. apply callbacks_none. by constructor. Qed.

Lemma silent_teardown s : silent s (teardownNodes s).
Proof.
  unfold teardownNodes. generalize (rev (e_setUpNodes s)). intros l.
  assert (silent s (foldl (λ s p, observe s (EvTeardown p)) s l)) as Hl; [|exact Hl].
  revert s. induction l as [|p l IH]; intros s; [done|]. simpl. transitivity (observe s (EvTeardown p)); [by apply silent_observe|apply IH].
Qed.

Lemma silent_setup s s' r : setupNodes deref cg setup s = (s', r) → silent s s'.
Proof.
  unfold setupNodes. destruct (e_setUpNodes s); [|by intros [= <- _]].
  generalize (cg_topoOrder cg). intros order. revert s. induction order as [|i order IH]; intros s; simpl; [by intros [= <- _]|].
  destruct (cg_node cg i) as [p|]; [|apply IH].
  assert (silent s (observe s (EvSetup p))) as Hs by (by apply silent_observe). case_match.
  - intros Hl%IH. etrans; [exact Hs|exact Hl].
  - intros [= <- _]. etrans; [exact Hs|apply silent_teardown].
Qed.
End Callbacks.

(** ** The property *)

Section EndToEnd.
Context `{CppTypes} {Q Sy : Type} `{!PortQueue Q, !PortQueueLaws Q, !SyncStrategy Sy}.
Context (deref : NodePtr → ILogicNode) (cfg : EngineConfig).
Context (f : NodePtr → PortDataMap → PortDataMap).
Context (onEndOfStream : list Event → NodePtr → Outcome) (elapsed : list Event → Z).
Context (setup : list Event → NodePtr → VoidResult + option string).
Implicit Types (cg : CompiledGraph) (inputs : PortDataMap).
Notation batch_started := (batch_started deref cfg onEndOfStream elapsed setup).

(** What an execution added to the log. *)
Definition new_events (s0 s : Engine Q Sy) : list Event := drop (length (e_log s0)) (e_log s).

(** Starting makes no callback. *)
Lemma started_silent cg inputs (s0 s1 : Engine Q Sy) :
  batch_started cg inputs s0 s1 → determined deref cg → outputs_complete cg f → silent s0 s1.
Proof.
  intros [(g & Hr & Hsmall & Hc) Hrest _ Hin (context & Hex)] D Hfull.
  destruct (execute_started deref cfg cg onEndOfStream elapsed setup (compile_dag deref g cg Hr Hsmall Hc) D
    s0 Hrest f inputs context s1 Hin Hfull Hex) as (_ & _ & Hlog).
  destruct (setupNodes deref cg setup _) as [s2 r] eqn:Hset. apply silent_setup in Hset as (log & Hnew & Hnone).
  exists log. by rewrite Hlog.
Qed.

(** The wait for completion ends when the result callback has been made, and that is
    the only callback. *)
Lemma batch_callbacks cg inputs (s0 s1 s' : Engine Q Sy) picks :
  batch_started cg inputs s0 s1 → determined deref cg → outputs_complete cg f →
  workers cfg cg onEndOfStream elapsed f s1 picks = Some s' → completion_reached s' = true →
  ∃ results, callbacks (new_events s0 s') = [(false, EvResult results)] ∧ (completion_outcome s').2 = void_ok ∧
    pm_equiv results (dataflow_results deref cg f (stamp_sources deref cfg cg (resetInternalState s0) inputs)) ∧
    at_rest deref cg (completion_outcome s').1.
Proof.
  intros Hst D Hfull Hw Hdone. destruct (started_silent cg inputs s0 s1 Hst D Hfull) as (log & Hlog1 & Hsil).
  destruct (batch_runs deref cfg f onEndOfStream elapsed setup cg inputs s0 s1 picks Hst D Hfull)
    as (order & s2 & Hs2 & _ & _ & _ & _ & Hend). rewrite Hw in Hs2. injection Hs2 as <-.
  case_decide; [|by destruct Hend as (_ & _ & Hno); rewrite Hno in Hdone].
  destruct Hend as (results & Hlog & Hres & _ & _ & Hout & Hrest). exists results. split_and!; [|done|done|done].
  unfold new_events. rewrite Hlog, Hlog1, <-(assoc_L (++)), drop_app_length, !callbacks_app, Hsil, (callbacks_none (_ <$> order)); [done|].
  rewrite Forall_fmap. by apply Forall_true.
Qed.

(** Running a batch through the facade computes the dataflow of the graph.  Take a
    ready pipeline whose engine executes as the modelled engine does: at rest, after
    any number of batches, it starts on the inputs, the workers pick posted tasks in
    any order, and it answers when the wait for completion ends, having made the
    callbacks of the log.  Then [run] answers with exactly the outputs that the
    equations of the graph determine for these inputs and the time taken; the pipeline
    is ready and the engine at rest, as before, and each observer hears of the start
    and of one completion with those outputs.  (A task here is one step; that a waiter can see
    the active count reach zero before the callback of the last task is
    [waiter_can_overtake_result].) *)
Theorem pipeline_run_computes_dataflow {E} `{!EngineApi E} (p : Pipeline (E := E)) (e e' : E) (now later : Z)
    (timeout : option Z) ctx cg inputs (s0 s1 s' : Engine Q Sy) (picks : list nat) :
  isReady p = true → p_handlers p = Resident → p_engine p = Some e →
  batch_started cg inputs s0 s1 → determined deref cg → outputs_complete cg f →
  workers cfg cg onEndOfStream elapsed f s1 picks = Some s' → completion_reached s' = true →
  api_execute e (p_context p) inputs true (engine_timeout p timeout) =
    (e', ctx, callbacks (new_events s0 s'), (completion_outcome s').2) →
  let fed := stamp_sources deref cfg cg (resetInternalState s0) inputs in
  ∃ outputs, (run p now later inputs timeout).2 = ROk (mkOutput outputs (later - now)) ∧
    pm_equiv outputs (dataflow_results deref cg f fed) ∧
    isReady (run p now later inputs timeout).1 = true ∧ at_rest deref cg (completion_outcome s').1 ∧
    p_handlers (run p now later inputs timeout).1 = Resident ∧
    p_notes (run p now later inputs timeout).1 =
      p_notes p ++ tell (p_observers p) NStarted ++ tell (p_observers p) (NCompleted outputs).
Proof.
  intros Hready Hh He Hst D Hfull Hw Hdone Hex fed.
  destruct (batch_callbacks cg inputs s0 s1 s' picks Hst D Hfull Hw Hdone) as (results & Hcb & Hok & Hres & Hrest).
  rewrite Hcb, Hok in Hex.
  destruct (run_answers p e e' now later inputs timeout ctx _ _ Hready Hh He Hex) as ([Hidle Hans] & Hnotes & He' & _ & Hh').
  exists results. split_and!; [exact Hans|exact Hres|apply ready_parts; split; [by apply run_parts, ready_parts|exact Hidle]|exact Hrest|exact Hh'|]. rewrite Hnotes. unfold told. simpl. by rewrite app_nil_r.
Qed.
End EndToEnd.

(** ** A pipeline *)

Section Example.
#[local] Existing Instance unit_types.

(** The engine of the example of [BatchCorrect], with a schedule for its workers; it
    keeps its state from one batch to the next. *)
Notation BxEngine := (Engine (NodeQueue (BoundedList PortDataPtr) PortDataPtr) NoSync).
Record BatchEngine := mkBatchEngine { be_engine : BxEngine; be_schedule : list nat }.

Definition bx_execute (s : BxEngine) (inputs : PortDataMap) (picks : list nat) : option BxEngine :=
  '(s1, _) ← execute bx_node bx_cfg bx_cg BatchScheduler bx_flush bx_elapsed bx_setup s inputs false;
  workers bx_cfg bx_cg bx_flush bx_elapsed bx_f s1 picks.

#[local] Instance batch_api : EngineApi BatchEngine := {|
  api_create _ := Some (mkBatchEngine bx_init [0; 1; 0; 0]);
  api_setSchedulerStrategy e := (e, void_ok);
  api_setSyncStrategy e := (e, void_ok);
  api_initialize e _ _ := (e, void_ok);
  api_execute e ctx inputs _ _ :=
    match bx_execute (be_engine e) inputs (be_schedule e) with
    | Some s => (mkBatchEngine (completion_outcome s).1 (be_schedule e), ctx,
                 callbacks (new_events (be_engine e) s), (completion_outcome s).2)
    | None => (e, ctx, [], void_err EC_InternalError "" "")
    end;
  api_work e := (e, []);
  api_startStreaming e ctx := (e, ctx, [], void_err EC_StreamingNotSupported "" "");
  api_stopStreaming e _ := (e, []);
  api_stopExecutionAsync e := (e, []);
  api_waitForIdle e := (e, []);
  api_reset e := (e, []);
  api_isStreaming _ := false;
  api_getState e := e_state (be_engine e);
  api_pushInput e _ _ _ := (e, [], result_err EC_StreamingNotSupported "" "");
  api_signalEndOfStream e _ _ := (e, [], void_err EC_StreamingNotSupported "" "");
|}.

Definition bx_pipeline : Pipeline (E := BatchEngine) :=
  match makeBatchPipeline bx_graph 2 with ROk p => addObserver p (Some 7) | RErr _ => newPipeline end.
Definition bx_done : BxEngine := default bx_init (bx_execute bx_init bx_inputs [0; 1; 0; 0]).

(** Two runs: the engine of the second is the one the first left. *)
Definition bx_first : Pipeline (E := BatchEngine) := (run bx_pipeline 10 25 bx_inputs None).1.
Definition bx_inputs2 : PortDataMap := [("n0", Some (mkPacket 9 0 0 []))].
Definition bx_rest : BxEngine := (completion_outcome bx_done).1.
Definition bx_engine2 : BxEngine :=
  match execute bx_node bx_cfg bx_cg BatchScheduler bx_flush bx_elapsed bx_setup bx_rest bx_inputs2 false with
  | Some (s, _) => s | None => bx_init end.
Definition bx_done2 : BxEngine := default bx_init (bx_execute bx_rest bx_inputs2 [0; 1; 0; 0]).

Lemma bx_started2 : batch_started bx_node bx_cfg bx_flush bx_elapsed bx_setup bx_cg bx_inputs2 bx_rest bx_engine2.
Proof.
  destruct (batch_callbacks bx_node bx_cfg bx_f bx_flush bx_elapsed bx_setup bx_cg bx_inputs bx_init bx_engine bx_done
    [0; 1; 0; 0] bx_started bx_determined bx_complete) as (_ & _ & _ & _ & Hrest);
    [vm_compute; reflexivity|vm_compute; reflexivity|].
  destruct bx_started as [Hg _ Ha _ _]. split; [exact Hg|exact Hrest|exact Ha| |].
  - apply (bool_decide_unpack _). vm_compute. exact I.
  - exists false. vm_compute. reflexivity.
Qed.

Lemma pipeline_run_computes_dataflow_witness :
  ∃ outputs, (run bx_first 30 36 bx_inputs2 None).2 = ROk (mkOutput outputs 6) ∧
    pm_find outputs "n3:out" = Some (Some (mkPacket 9 0 0 [])) ∧ isReady (run bx_first 30 36 bx_inputs2 None).1 = true.
Proof.
  destruct (pipeline_run_computes_dataflow bx_node bx_cfg bx_f bx_flush bx_elapsed bx_setup bx_first
    (mkBatchEngine bx_rest [0; 1; 0; 0]) (mkBatchEngine (completion_outcome bx_done2).1 [0; 1; 0; 0]) 30 36 None
    (p_context bx_first) bx_cg bx_inputs2 bx_rest bx_engine2 bx_done2 [0; 1; 0; 0])
    as (outputs & Hans & Hres & Hready & _);
    [vm_compute; reflexivity|vm_compute; reflexivity|vm_compute; reflexivity|exact bx_started2|exact bx_determined
    |exact bx_complete|vm_compute; reflexivity|vm_compute; reflexivity|vm_compute; reflexivity|].
  exists outputs. split; [exact Hans|]. split; [|exact Hready]. rewrite (Hres "n3:out"). vm_compute. reflexivity.
Defined.
End Example.
