(* ===== verification/System.v ===== *)
(** * The whole system

    The engine of [EngineShell] behind the interface [EngineApi] that the facade of
    [Pipelines] calls: the modelled engine is an engine in the facade's sense, and what
    is proved of both holds of them together, from a graph to the answers of [run].

    The workers are an oracle [pick]: when a call waits, they take posted tasks in the
    order it gives until the wait is over.  Node calls take the time [elapsed] says, and
    the wait of an execution with a timeout ends when the next task would end after its
    deadline: that task then runs after the stop.  [overtakes] says after which tasks of
    a batch the waiter is faster than the worker, between its leaving the count of
    active tasks and its check for completion, which is then still owed ([le_owed]).
    [patience] bounds the tasks of one wait; a wait that needs more ends as by its
    timeout ([batch_pipeline_computes] shows that one task per node is enough for a
    batch).  [custom_scheduler] and [custom_sync] are the strategies a builder may have
    been given. *)

From S2P Require Import Prelude Errors Packets Kahn Graphs CompiledGraphs MpmcQueue NodeQueue FrameAlignment.
From S2P Require Import SyncCoordinator JoinAwareSync ExecutionTypes Schedulers EngineCore EngineGather Dataflow Engine EngineLog.
From S2P Require Import BatchRun BatchCorrect EngineShell Options Contexts Pipelines PipelineCorrect EndToEnd.
Local Open Scope string_scope.
Local Open Scope list_scope.
Local Open Scope nat_scope.

(** ** Building a pipeline *)

(** Observers are added and nothing else changes. *)
Lemma add_observers `{CppTypes} {E} os (q : Pipeline (E := E)) :
  isReady (foldl addObserver q os) = isReady q ∧ p_handlers (foldl addObserver q os) = p_handlers q ∧
  p_engine (foldl addObserver q os) = p_engine q ∧ p_options (foldl addObserver q os) = p_options q ∧
  p_notes (foldl addObserver q os) = p_notes q ∧ p_observers (foldl addObserver q os) = p_observers q ++ os.
Proof.
  revert q. induction os as [|o os IH]; intros q; simpl; [by rewrite app_nil_r|]. destruct (IH (addObserver q o)) as (-> & -> & -> & -> & -> & ->).
  split_and!; try done. simpl. by rewrite <-app_assoc.
Qed.

(** What the facade makes of an engine that takes the graph. *)
Lemma build_ready `{CppTypes} {E} `{!EngineApi E} (b : BuilderState) g (e e' : E) :
  b_graph b = Some g → b_scheduler b = false → b_sync b = false → hasCycle g = Some false →
  api_create (buildEngineConfig (b_options b)) = Some e → api_initialize e g (po_num_workers (b_options b)) = (e', void_ok) →
  ∃ p, build b = ROk p ∧ isReady p = true ∧ p_handlers p = Resident ∧ p_engine p = Some e' ∧ p_options p = b_options b ∧
    p_notes p = [] ∧ (b_callback_observer b = None → p_observers p = b_observers b).
Proof.
  intros Hg Hs Hy Hc He Hi. unfold build. rewrite Hg. unfold Pipelines.initialize. rewrite Hc, He, Hs, Hy. cbn [void_isOk negb]. rewrite Hi.
  cbn [void_isOk negb]. eexists. split; [reflexivity|]. set (p := transitionTo _ PS_IDLE).
  destruct (add_observers (b_observers b) (match b_callback_observer b with Some o => addObserver p (Some o) | None => p end))
    as (-> & -> & -> & -> & -> & ->). destruct (b_callback_observer b); split_and!; done.
Qed.

(** ** The engine as the facade sees it *)

Section Live.
Context `{CppTypes} {Q : Type} `{!PortQueue Q}.
Context (deref : NodePtr → ILogicNode) (iter : gset nat → list nat).
Context (process : list Event → NodePtr → PortDataMap → Outcome).
Context (onEndOfStream : list Event → NodePtr → Outcome) (elapsed : list Event → Z).
Context (setup : list Event → NodePtr → VoidResult + option string).
Context (custom_scheduler : SchedulerStrategy) (custom_sync : AnySync) (created : Z).
Context (overtakes : nat → bool) (pick : nat → nat) (patience : nat).
Notation Impl := (Engine Q AnySync).

(** The engine, how many tasks the workers have taken, and whether the last of them has
    left the count but not yet checked for completion. *)
Record LiveEngine := mkLive { le_engine : ExecutionEngine (Q := Q); le_turn : nat; le_owed : bool }.
Implicit Types (le : LiveEngine).

Definition le_impl le : Impl := ee_impl (le_engine le).
Definition le_set le (s : Impl) : LiveEngine := mkLive (set_impl (le_engine le) s) (le_turn le) (le_owed le).

(** src/src/execution_engine_impl.cpp:1430-1572 ExecutionEngine::Impl::executeNodeTask (up to line 1566, before
    it checks for completion) *)
Definition run_task_leaving cfg cg sched (s : Impl) (k : nat) : option Impl :=
  match e_pool s !! k with
  | None => Some s
  | Some index =>
      executeNodeTask_with cfg cg sched process onEndOfStream elapsed (λ s, add_active s (-1)) (pick_up cfg s k index) index
  end.

(** A worker runs one posted task, or makes the check the last one owes.  On a stream
    the check only notifies. *)
Definition take_task le : LiveEngine :=
  match ee_compiled (le_engine le) with
  | None => le
  | Some cg =>
      let cfg := ee_config (le_engine le) in let sched := ee_scheduler (le_engine le) in
      if le_owed le then mkLive (set_impl (le_engine le) (checkCompletionAndNotify cg sched (le_impl le))) (le_turn le) false
      else
        let k := pick (le_turn le) mod length (e_pool (le_impl le)) in
        let overtaken := overtakes (le_turn le) && negb (e_streamingMode (le_impl le)) && (k <? length (e_pool (le_impl le))) in
        match if overtaken then run_task_leaving cfg cg sched (le_impl le) k
              else run_task cfg cg sched process onEndOfStream elapsed (le_impl le) k with
        | Some s => mkLive (set_impl (le_engine le) s) (S (le_turn le)) overtaken
        | None => le
        end
  end.

(** A wait: workers run tasks until its condition holds; whether it did. *)
Fixpoint wait_until (cond : Impl → bool) (fuel : nat) le : LiveEngine * bool :=
  if cond (le_impl le) then (le, true)
  else match fuel with O => (le, false) | S fuel => wait_until cond fuel (take_task le) end.

Definition in_time (deadline : option Z) (now : Z) : bool := from_option (λ d, bool_decide (now ≤ d)%Z) true deadline.

(** src/src/execution_engine_impl.cpp:2387-2415 ExecutionEngine::Impl::waitForCompletion (the wait); the clock of a wait
    that expires stands at its deadline *)
Fixpoint wait_completion (deadline : option Z) (fuel : nat) le : LiveEngine * bool :=
  if completion_reached (le_impl le) then (le, true)
  else match fuel with
       | O => (le, false)
       | S fuel =>
           let le' := take_task le in
           if in_time deadline (e_now (le_impl le')) then wait_completion deadline fuel le'
           else (le_set le (e_set_now (le_impl le) (default 0%Z deadline)), false)
       end.

(** What an operation told the callbacks: the new events of its log. *)
Definition told_since le le' : list (bool * Event) :=
  (λ ev, (e_streamingMode (le_impl le), ev)) <$>
    filter (λ ev, is_callback ev = true) (drop (length (e_log (le_impl le))) (e_log (le_impl le'))).

(** The cancellation token is shared with the context. *)
Definition token_of (ctx : option PipelineContext) le : option PipelineContext := set_cancelled (e_cancelled (le_impl le)) <$> ctx.
Definition with_token le (ctx : option PipelineContext) : LiveEngine :=
  match ctx with Some c => le_set le (e_set_cancelled (le_impl le) (isCancellationRequested c)) | None => le end.

Definition no_tasks (s : Impl) : bool := bool_decide (e_activeTasks s = 0)%Z.

(** src/src/execution_engine_impl.cpp:409-496 ExecutionEngine::Impl::execute (the wait and the answer); the wait for
    completion of a batch is that of lines 2387-2460 *)
Definition live_execute le (ctx : option PipelineContext) (inputs : PortDataMap) (wait : bool) (timeout : option Z) :
    LiveEngine * option PipelineContext * list (bool * Event) * VoidResult :=
  let le := with_token le ctx in
  match start_execute deref onEndOfStream elapsed setup (le_engine le) inputs (bool_decide (is_Some ctx)) with
  | None => (le, ctx, [], void_err EC_InternalError "" "")
  | Some (ee1, r) =>
      let le1 := mkLive ee1 (le_turn le) (le_owed le) in
      if negb (void_isOk r && wait) then (le1, token_of ctx le1, told_since le le1, r)
      else
        let bound := if e_streamingMode (le_impl le1) then None else timeout in
        let deadline := (λ ms, e_now (le_impl le1) + ms * ns_per_ms)%Z <$> bound in
        let '(le2, reached) := wait_completion deadline patience le1 in
        if e_streamingMode (le_impl le1) then (le2, token_of ctx le2, told_since le le2, void_ok)
        else
          let '(s, r) := if reached : bool then completion_outcome (le_impl le2)
                         else completion_timeout (le_impl le2) (default 0%Z timeout) in
          let le3 := le_set le2 s in (le3, token_of ctx le3, told_since le le3, r)
  end.

Definition live_start le (ctx : option PipelineContext) : LiveEngine * option PipelineContext * list (bool * Event) * VoidResult :=
  match start_streaming deref setup (le_engine le) (bool_decide (is_Some ctx)) with
  | None => (le, ctx, [], void_err EC_InternalError "" "")
  | Some (ee1, r) => let le1 := mkLive ee1 (le_turn le) (le_owed le) in (le1, token_of ctx le1, told_since le le1, r)
  end.

(** src/src/execution_engine_impl.cpp:765-798 ExecutionEngine::Impl::stopStreaming *)
Definition live_stop le (wait_for_drain : bool) : LiveEngine * list (bool * Event) :=
  if negb (e_streamingMode (le_impl le)) then (le, [])
  else
    let '(s, drains) := stopStreaming_begin (le_impl le) wait_for_drain in
    let le1 := le_set le s in
    let le1 := if drains : bool then (wait_until (λ s, drain_reached s 0%Z) patience le1).1 else le1 in
    let le2 := (wait_until no_tasks patience le1).1 in
    let le3 := le_set le2 (stopStreaming_end (le_impl le2)) in (le3, told_since le le3).

(** src/src/execution_engine_impl.cpp:529-549 ExecutionEngine::Impl::stopExecutionSync *)
Definition stopExecutionSync le : LiveEngine :=
  let le := (wait_until no_tasks patience (le_set le (stopExecutionAsync (le_impl le)))).1 in
  le_set le (stopped_sync (le_impl le)).

Definition live_push le (source_node port_name : string) (data : PortDataPtr) : LiveEngine * list (bool * Event) * Result PushStatus :=
  match push_input deref onEndOfStream elapsed (le_engine le) source_node port_name data with
  | None => (le, [], result_err EC_InternalError "" "")
  | Some (ee1, r) => let le1 := mkLive ee1 (le_turn le) (le_owed le) in (le1, told_since le le1, r)
  end.

Definition live_close le (source_node port_name : string) : LiveEngine * list (bool * Event) * VoidResult :=
  match ee_compiled (le_engine le) with
  | None => (le, [], void_err EC_NotStreaming "signalEndOfStream requires streaming mode" "")
  | Some cg =>
      match Engine.signalEndOfStream cg (ee_scheduler (le_engine le)) onEndOfStream elapsed (le_impl le) source_node port_name with
      | None => (le, [], void_err EC_InternalError "" "")
      | Some (s, r) => let le1 := le_set le s in (le1, told_since le le1, r)
      end
  end.

(** An operation that answers nothing. *)
Definition quietly le (op : LiveEngine → LiveEngine) : LiveEngine * list (bool * Event) := (op le, told_since le (op le)).

Definition live_api : EngineApi LiveEngine := {|
  api_create config := Some (mkLive (create config created) 0 false);
  api_setSchedulerStrategy le :=
    let (ee, r) := setSchedulerStrategy (le_engine le) (Some custom_scheduler) in (mkLive ee (le_turn le) (le_owed le), r);
  api_setSyncStrategy le :=
    let (ee, r) := setSyncStrategy deref iter (le_engine le) (Some custom_sync) in (mkLive ee (le_turn le) (le_owed le), r);
  api_initialize le graph num_workers :=
    match EngineShell.initialize deref iter (le_engine le) (Some graph) num_workers with
    | Some (ee, r) => (mkLive ee (le_turn le) (le_owed le), r)
    | None => (le, void_err EC_InternalError "" "")
    end;
  api_execute := live_execute;
  api_work le := quietly le take_task;
  api_startStreaming := live_start;
  api_stopStreaming := live_stop;
  api_stopExecutionAsync le := quietly le (λ le, le_set le (stopExecutionAsync (le_impl le)));
  api_waitForIdle le := quietly le (λ le, (wait_until (λ s, bool_decide (e_state s ≠ RUNNING)) patience le).1);
  api_reset le := quietly le (λ le, let le := stopExecutionSync le in mkLive (ee_reset (le_engine le)) (le_turn le) (le_owed le));
  api_isStreaming le := e_streamingMode (le_impl le);
  api_getState le := e_state (le_impl le);
  api_pushInput := live_push;
  api_signalEndOfStream := live_close;
|}.

(** The queries, at a moment: a wait that is over has its condition or its deadline behind it. *)
Definition live_queries : EngineQueries (E := LiveEngine) := {|
  q_waitForEndOfStream le _ := Engine.waitForEndOfStream (le_impl le) true;
  q_isEndOfStreamReached le := e_endOfStreamReached (le_impl le);
  q_queueDepth le node := EngineShell.queueDepth deref (le_engine le) node "";
  q_hasQueueCapacity le node := EngineShell.hasQueueCapacity deref (le_engine le) node "";
  q_waitForDrain le max_depth timeout := EngineShell.waitForDrain (le_engine le) max_depth timeout;
  q_getNodeStates le := EngineShell.getNodeStates (le_engine le);
  q_statistics le := EngineShell.statistics (le_engine le);
  q_setTraceSink le sink := let (ee, r) := EngineShell.setTraceSink (le_engine le) sink in (mkLive ee (le_turn le) (le_owed le), r);
  q_info le := EngineShell.info (le_engine le);
|}.

(** The facade sets all four callbacks: it hears every event that is one. *)
Definition facade_callbacks : EngineCallbacks :=
  setEndOfStreamCallback (setDropCallback (setPipelineErrorCallback (setPipelineResultCallback no_callbacks true) true) true) true.

Lemma facade_hears_all ev : invokes facade_callbacks ev = is_callback ev.
Proof. by destruct ev. Qed.
End Live.

(** ** Batches *)

Section Batches.
Context `{CppTypes} {Q : Type} `{!PortQueue Q, !PortQueueLaws Q}.
Context (deref : NodePtr → ILogicNode) (iter : gset nat → list nat).
Context (f : NodePtr → PortDataMap → PortDataMap).
Context (onEndOfStream : list Event → NodePtr → Outcome) (elapsed : list Event → Z).
Context (setup : list Event → NodePtr → VoidResult + option string).
Context (custom_scheduler : SchedulerStrategy) (custom_sync : AnySync) (created : Z).
Context (overtakes : nat → bool) (pick : nat → nat) (patience : nat).
Notation Impl := (Engine Q AnySync).
Notation LiveEngine := (LiveEngine (Q := Q)).
Notation process := (λ (_ : list Event) (p : NodePtr) (inputs : PortDataMap), Returned (f p inputs)).
Notation wait_completion := (wait_completion process onEndOfStream elapsed overtakes pick).
Notation live_execute := (live_execute deref process onEndOfStream elapsed setup overtakes pick patience).
#[local] Instance api : EngineApi LiveEngine :=
  live_api deref iter process onEndOfStream elapsed setup custom_scheduler custom_sync created overtakes pick patience.
Implicit Types (le : LiveEngine) (cg : CompiledGraph) (p : Pipeline (E := LiveEngine)).

(** An engine with a compiled graph for batches, at rest. *)
Record batch_engine (cfg : EngineConfig) cg le : Prop := {
  be_compiled : ee_compiled (le_engine le) = Some cg;
  be_scheduler : ee_scheduler (le_engine le) = BatchScheduler;
  be_config : ee_config (le_engine le) = cfg;
  be_owed : le_owed le = false;
  be_rest : at_rest deref cg (le_impl le);
}.

(** The tasks the oracle picks. *)
Definition picks_from (turn n : nat) : list nat := pick <$> seq turn n.

Lemma wait_workers cfg cg n fuel deadline le s' :
  ee_compiled (le_engine le) = Some cg → ee_scheduler (le_engine le) = BatchScheduler → ee_config (le_engine le) = cfg → le_owed le = false →
  (∀ turn, overtakes turn = false) →
  (∀ k s, workers cfg cg onEndOfStream elapsed f (le_impl le) (picks_from (le_turn le) k) = Some s →
     (k < n → completion_reached s = false) ∧ (k ≤ n → in_time deadline (e_now s) = true)) →
  workers cfg cg onEndOfStream elapsed f (le_impl le) (picks_from (le_turn le) n) = Some s' → completion_reached s' = true → n ≤ fuel →
  wait_completion deadline fuel le = (mkLive (set_impl (le_engine le) s') (le_turn le + n) false, true).
Proof.
  revert fuel le. induction n as [|n IH]; intros fuel le Hc Hs He Ho Hov Hbefore Hw Hdone Hfuel.
  - injection Hw as <-. destruct le as [[] t o]. unfold le_impl in *. simpl in *. destruct fuel; simpl; unfold le_impl; simpl; rewrite Hdone, Nat.add_0_r; by rewrite Ho.
  - destruct fuel as [|fuel]; [lia|]. cbn [System.wait_completion]. rewrite (proj1 (Hbefore 0 (le_impl le) eq_refl)) by lia.
    cbn [picks_from seq fmap list_fmap workers] in Hw. unfold take_task. rewrite Hc, Hs, He, Ho, Hov. cbn [andb].
    destruct (run_task cfg cg BatchScheduler _ onEndOfStream elapsed (le_impl le) _) as [s1|] eqn:Hr; [|done].
    assert (∀ k, workers cfg cg onEndOfStream elapsed f (le_impl le) (picks_from (le_turn le) (S k)) =
      workers cfg cg onEndOfStream elapsed f s1 (picks_from (S (le_turn le)) k)) as Hk.
    { intros k. cbn [picks_from seq fmap list_fmap workers]. rewrite Hr. done. }
    cbv zeta. assert (in_time deadline (e_now s1) = true) as Hin by (apply (Hbefore 1 s1); [by rewrite Hk|lia]).
    cbn [le_impl le_engine ee_impl set_impl]. rewrite Hin.
    rewrite (IH fuel (mkLive (set_impl (le_engine le) s1) (S (le_turn le)) false)); try done; [| |lia].
    + simpl. by rewrite Nat.add_succ_r.
    + intros k s Hsk. destruct (Hbefore (S k) s) as [H1 H2]; [by rewrite Hk|]. split; [intros; apply H1; lia|intros; apply H2; lia].
Qed.

(** The clock after [workers]. *)
Lemma workers_paced slow cfg cg (s s' : Impl) picks : (∀ log, (0 ≤ elapsed log ≤ slow)%Z) →
  workers cfg cg onEndOfStream elapsed f s picks = Some s' → paced slow s s'.
Proof.
  intros Hslow. pose proof (paced_preorder (Q := Q) (Sy := AnySync) slow) as Hpre. revert s. induction picks as [|k picks IH]; intros s.
  - intros [= <-]. reflexivity.
  - cbn [workers]. destruct (run_task _ _ _ _ _ _ s _) as [s1|] eqn:Hr; [|done]. cbn [mbind option_bind]. intros Hw.
    transitivity s1; [by eapply run_task_paced|by apply IH].
Qed.

Lemma setup_succeeds cg (s : Impl) : (∀ log node, setup log node = inl void_ok) → void_isOk (setupNodes deref cg setup s).2 = true.
Proof.
  intros Hs. unfold setupNodes. destruct (e_setUpNodes s); [|done]. generalize (cg_topoOrder cg). intros order. revert s.
  induction order as [|i order IH]; intros s; [done|]. simpl. destruct (cg_node cg i) as [node|]; [|apply IH].
  rewrite Hs. simpl. apply IH.
Qed.

Lemma stamp_sources_alike cfg cg (s s' : Impl) inputs :
  stamps s = stamps s' → stamp_sources deref cfg cg s inputs = stamp_sources deref cfg cg s' inputs.
Proof.
  unfold stamp_sources. generalize (∅ : gmap nat PortDataPtr). generalize (cg_sourceNodes cg). intros l.
  revert s s'. induction l as [|j l IH]; intros s s' fed Hs; [done|]. simpl. unfold stamp_step at 2 4. simpl.
  destruct (pm_find inputs _) as [data|]; [|by apply IH]. destruct (stamp_alike cfg s s' data Hs) as [Hd Hs'].
  destruct (stampIncomingFrame cfg s data), (stampIncomingFrame cfg s' data). simpl in *. subst. by apply IH.
Qed.

Lemma completion_log (s : Impl) : e_log (completion_outcome s).1 = e_log s.
Proof. unfold completion_outcome. by repeat case_match. Qed.

Lemma with_token_engine cfg cg le ctx : batch_engine cfg cg le → batch_engine cfg cg (with_token le ctx).
Proof. intros [H1 H2 H3 H4 [R1 R2 R3 R4 R5 R6 R7]]. destruct ctx as [c|]; [|by split]. by split. Qed.

(** The conditions on a graph under which a batch has one outcome. *)
Record batch_graph (g : Graph) cg : Prop := {
  bg_reachable : rtc (graph_step deref) empty_graph g;
  bg_small : (Z.of_nat (length (m_nodes g)) < u32_mod)%Z;
  bg_compiles : compile deref g = Some (ROk cg);
  bg_determined : determined deref cg;
  bg_outputs : outputs_complete cg f;
  bg_setup log node : setup log node = inl void_ok;
}.

(** The conditions on a schedule: waits are not cut short by the bound of the model, a
    worker checks for completion before the waiter sees that it has left, and calls take
    at most [slow] nanoseconds. *)
Record batch_schedule (slow : Z) cg : Prop := {
  sc_patience : length (cg_nodes cg) ≤ patience;
  sc_waiter turn : overtakes turn = false;
  sc_slow log : (0 ≤ elapsed log ≤ slow)%Z;
}.

(** One call after the other of each node ends within the timeout. *)
Definition time_enough (slow : Z) cg (timeout : option Z) : Prop :=
  ∀ ms, timeout = Some ms → (Z.of_nat (length (cg_nodes cg)) * slow ≤ ms * ns_per_ms)%Z.

(** After [k] tasks of a batch: whether the wait is over, and the clock. *)
Lemma batch_progress slow cfg cg inputs (s0 s1 s : Impl) turn k :
  batch_schedule slow cg → batch_started deref cfg onEndOfStream elapsed setup cg inputs s0 s1 → determined deref cg → outputs_complete cg f →
  workers cfg cg onEndOfStream elapsed f s1 (picks_from turn k) = Some s →
  (k < length (cg_nodes cg) → completion_reached s = false) ∧
  (k ≤ length (cg_nodes cg) → (e_now s ≤ e_now s1 + Z.of_nat (length (cg_nodes cg)) * slow)%Z).
Proof.
  intros [_ _ Hslow] Hst D Hfull Hs. pose proof (workers_paced slow _ _ _ _ _ Hslow Hs) as [_ (events & Hev & Hnow)].
  destruct (batch_runs deref cfg f onEndOfStream elapsed setup cg inputs s0 s1 (picks_from turn k) Hst D Hfull)
    as (order & s2 & Hw & _ & _ & _ & Hlen & Hend). assert (Some s2 = Some s) as [= <-] by (rewrite <-Hs; symmetry; exact Hw). clear Hw.
  unfold picks_from in Hlen, Hend. rewrite length_fmap, length_seq in Hlen, Hend.
  assert (calls (process_event deref cg f (stamp_sources deref cfg cg (resetInternalState s0) inputs) <$> order) = length order) as Hcalls.
  { clear. induction order as [|i order IH]; [done|]. unfold calls in *. rewrite fmap_cons, filter_cons, decide_True by done. simpl. by rewrite IH. }
  assert (0 ≤ slow)%Z as Hpos by (specialize (Hslow []); lia). case_decide as Hk.
  - destruct Hend as (results & Hlog & _). rewrite Hev in Hlog. apply app_inv_head in Hlog as ->. rewrite calls_app, Hcalls in Hnow.
    split; [lia|]. intros Hle. change (calls [EvResult results]) with 0 in Hnow. nia.
  - destruct Hend as (Hlog & _ & Hno). rewrite Hev in Hlog. apply app_inv_head in Hlog as ->. rewrite Hcalls in Hnow. split; [done|]. intros Hle. nia.
Qed.

(** One batch on the engine. *)
Lemma live_execute_computes slow cfg g cg le ctx inputs timeout :
  batch_graph g cg → batch_schedule slow cg → time_enough slow cg timeout →
  ec_alignment_policy cfg = AP_FrameId → batch_engine cfg cg le → inputs_given deref cg inputs →
  ∃ le' results ctx', live_execute le ctx inputs true timeout = (le', ctx', [(false, EvResult results)], void_ok) ∧
    pm_equiv results (dataflow_results deref cg f (stamp_sources deref cfg cg (resetInternalState (le_impl le)) inputs)) ∧
    batch_engine cfg cg le'.
Proof.
  intros [Hr Hsmall Hc D Hfull Hset] Hsc Htime Hal B Hin.
  assert (stamp_sources deref cfg cg (resetInternalState (le_impl le)) inputs =
    stamp_sources deref cfg cg (resetInternalState (le_impl (with_token le ctx))) inputs) as ->
    by (apply stamp_sources_alike; by destruct ctx).
  apply (with_token_engine _ _ _ ctx) in B. unfold System.live_execute. revert B. generalize (with_token le ctx). clear le. intros le [B1 B2 B3 B5 B4].
  pose proof (compile_dag deref g cg Hr Hsmall Hc) as G.
  destruct (execute_begins deref cfg cg onEndOfStream elapsed setup G D _ B4 f inputs (bool_decide (is_Some ctx)) Hin Hfull)
    as (_ & s1 & Hex & R & _); [by apply setup_succeeds|].
  assert (batch_started deref cfg onEndOfStream elapsed setup cg inputs (le_impl le) s1) as Hst.
  { split; [by exists g|done|done|done|by eexists]. }
  unfold start_execute. rewrite B1, B2, B3. unfold le_impl in Hex. rewrite Hex. cbn [mbind option_bind void_isOk andb negb].
  set (n := length (cg_nodes cg)) in *. set (le1 := mkLive (set_impl (le_engine le) s1) (le_turn le) (le_owed le)).
  destruct (batch_runs deref cfg f onEndOfStream elapsed setup cg inputs _ s1 (picks_from (le_turn le) n) Hst D Hfull)
    as (order & s' & Hw & _ & _ & _ & _ & Hend). unfold picks_from in Hend. rewrite length_fmap, length_seq, decide_True in Hend by done.
  destruct Hend as (_ & _ & _ & _ & Hdone & _).
  assert (e_streamingMode (le_impl le1) = false) as -> by exact (fo_stream _ (so_flags _ _ _ _ (ri_stage _ _ _ _ _ _ _ R))).
  cbv zeta. set (deadline := _ <$> timeout).
  assert (wait_completion deadline patience le1 = (mkLive (set_impl (le_engine le) s') (le_turn le + n) false, true)) as ->.
  { apply (wait_workers cfg cg n patience deadline le1 s'); try done; [apply Hsc| |apply Hsc]. intros k s Hs.
    destruct (batch_progress slow cfg cg inputs _ s1 s (le_turn le) k Hsc Hst D Hfull Hs) as [Hno Hnow]. split; [exact Hno|].
    intros Hk. specialize (Hnow Hk). unfold deadline. destruct timeout as [ms|]; [|done]. simpl. apply bool_decide_eq_true.
    specialize (Htime ms eq_refl). fold n in Htime, Hnow. unfold le_impl. simpl. lia. }
  destruct (batch_callbacks deref cfg f onEndOfStream elapsed setup cg inputs _ s1 s' _ Hst D Hfull Hw Hdone)
    as (results & Hcb & Hok & Hres & Hrest).
  destruct (completion_outcome (le_impl _)) as [s3 r] eqn:Hout. cbn [le_impl le_engine ee_impl set_impl] in Hout.
  rewrite Hout in Hok, Hrest. cbn [fst snd] in Hok, Hrest. subst r. pose proof (completion_log s') as Hlog. rewrite Hout in Hlog. cbn [fst] in Hlog.
  set (le2 := le_set _ s3). exists le2, results, (token_of ctx le2). split; [|split; [exact Hres|by split]].
  assert (told_since le le2 = [(false, EvResult results)]) as ->; [|done]. rewrite <-Hcb.
  unfold told_since, callbacks, new_events. change (e_log (le_impl le2)) with (e_log s3). by rewrite Hlog, (ar_stream _ _ _ B4).
Qed.

(** A pipeline that is ready for a batch. *)
Record batch_pipeline (cfg : EngineConfig) cg p : Prop := {
  bp_ready : isReady p = true;
  bp_handlers : p_handlers p = Resident;
  bp_engine : ∃ le, p_engine p = Some le ∧ batch_engine cfg cg le;
  bp_timeout : po_execution_timeout (p_options p) = 0%Z;
}.

Definition batch_config (workers : Z) : EngineConfig := with_workers (config_batch workers) workers.

Lemma batch_capacity workers name port :
  (qc_capacity (port_queue_config (batch_config workers) ∅ name port) ≤ 2 ^ 63)%Z.
Proof.
  unfold port_queue_config, getNodeQueueConfig. rewrite lookup_empty. unfold batch_config, with_workers.
  destruct (decide (0 < workers)%Z); cbn [ec_default_queue_capacity ec_default_drop_strategy ec_enable_statistics config_batch qcfg_capacity qc_capacity];
    (rewrite (decide_False (P := (0 < 0)%Z)) by lia); (rewrite decide_True by lia); lia.
Qed.

(** What [makeBatchPipeline] makes. *)
Lemma made_batch_pipeline g cg workers : batch_graph g cg →
  ∃ p, makeBatchPipeline g workers = ROk p ∧ batch_pipeline (batch_config workers) cg p.
Proof.
  intros [Hr Hsmall Hc _ _ _]. pose proof (reachable_graph_wf deref g Hr) as Hwf.
  assert (hasCycle g = Some false) as Hcyc.
  { destruct (hasCycle_total deref g Hwf) as ([] & Hb & Hiff); [|done]. exfalso. by apply (proj2 (compile_inv deref g cg Hr Hsmall Hc)), Hiff. }
  destruct (initialize_answers (Q := Q) deref iter (create (config_batch workers) created) g workers _ Hc)
    as (ee & Hi & _ & _ & Hcg & Hcfg & Hsc & _ & Hrest).
  destruct (build_ready (withWorkers (withMode (withGraph newBuilder g) BATCH) workers) g
    (mkLive (create (config_batch workers) created) 0 false) (mkLive ee 0 false)) as (p & Hp & Hready & Hh & He & Hopt & _); try done.
  { cbn [api_initialize api live_api le_engine]. change (po_num_workers _) with workers. by rewrite Hi. }
  exists p. split; [exact Hp|]. split; [done|done| |by rewrite Hopt]. eexists. split; [exact He|]. split; [done|done|done|done|].
  apply Hrest; [done|]. intros name port. rewrite Hcfg. apply batch_capacity.
Qed.

(** A call of [run]. *)
Record Batch := mkBatch { ba_now : Z; ba_later : Z; ba_inputs : PortDataMap; ba_timeout : option Z }.

Definition run_batch p (b : Batch) : Pipeline * Result ExecutionOutput :=
  run p (ba_now b) (ba_later b) (ba_inputs b) (ba_timeout b).

(** The inputs of a batch are given, and its timeout, if it has one, leaves time enough. *)
Definition feasible (slow : Z) cg (b : Batch) : Prop :=
  inputs_given deref cg (ba_inputs b) ∧ ∀ ms, ba_timeout b = Some ms → (0 < ms)%Z → time_enough slow cg (Some ms).

Lemma run_computes slow cfg g cg p b :
  batch_graph g cg → batch_schedule slow cg → ec_alignment_policy cfg = AP_FrameId → batch_pipeline cfg cg p → feasible slow cg b →
  ∃ le outputs, p_engine p = Some le ∧ (run_batch p b).2 = ROk (mkOutput outputs (ba_later b - ba_now b)) ∧
    pm_equiv outputs (dataflow_results deref cg f (stamp_sources deref cfg cg (resetInternalState (le_impl le)) (ba_inputs b))) ∧
    batch_pipeline cfg cg (run_batch p b).1.
Proof.
  intros Hg Hsc Hal [Hready Hh (le & He & Hle) Hdef] [Hin Htime].
  assert (time_enough slow cg (engine_timeout p (ba_timeout b))) as Ht.
  { unfold engine_timeout. rewrite Hdef. destruct (ba_timeout b) as [ms|]; [|done]. simpl. destruct (decide (0 < ms)%Z); [by apply Htime|done]. }
  destruct (live_execute_computes slow cfg g cg le (p_context p) (ba_inputs b) (engine_timeout p (ba_timeout b)) Hg Hsc Ht Hal Hle Hin)
    as (le' & results & ctx & Hex & Hres & Hle').
  change (live_execute le (p_context p) (ba_inputs b) true (engine_timeout p (ba_timeout b)))
    with (api_execute le (p_context p) (ba_inputs b) true (engine_timeout p (ba_timeout b))) in Hex.
  destruct (run_answers p le le' (ba_now b) (ba_later b) (ba_inputs b) (ba_timeout b) ctx _ _ Hready Hh He Hex) as ([Hidle Hans] & _ & He' & _ & Hh').
  exists le, results. split_and!; [done|exact Hans|exact Hres|]. split; [|done|by exists le'|].
  - apply ready_parts. split; [by apply run_parts, ready_parts|exact Hidle].
  - unfold run_batch. by rewrite run_options.
Qed.

(** Every batch is answered with the dataflow of the graph on its inputs, stamped as
    the engine at that point stamps them. *)
Fixpoint answers_dataflow (cfg : EngineConfig) cg p (batches : list Batch) : Prop :=
  match batches with
  | [] => True
  | b :: rest =>
      ∃ le outputs, p_engine p = Some le ∧ (run_batch p b).2 = ROk (mkOutput outputs (ba_later b - ba_now b)) ∧
        pm_equiv outputs (dataflow_results deref cg f (stamp_sources deref cfg cg (resetInternalState (le_impl le)) (ba_inputs b))) ∧
        isReady (run_batch p b).1 = true ∧ answers_dataflow cfg cg (run_batch p b).1 rest
  end.

(** C1: from a graph to its results.  Take any graph that the public mutators can build,
    that compiles, and that determines what a batch computes: no port is fed twice, a
    source has at most one input port, edges lead to input ports that their nodes
    declare, the names of sinks have no colon; with nodes that are functions, put out a packet on
    every port an edge leaves from, and whose [setup] succeeds.  [makeBatchPipeline]
    makes a pipeline of it, and every [run] of any sequence of runs on that pipeline, on
    inputs for the sources, answers, whatever order the workers take tasks in, with the
    outputs that the equations of the graph determine for the inputs of that run, and
    leaves the pipeline ready for the next; provided that its timeout, if it has one,
    is not shorter than one call of each node, one after the other, each as long as the
    slowest, and that the waiting caller does not overtake the last task between its
    leaving the count of active tasks and its call of the result callback.  (Without
    these provisos: [slow_batch_times_out], [overtaken_batch_is_empty].)  Facade,
    builder, engine, queues and schedulers are the modelled ones. *)
Theorem batch_pipeline_computes slow g cg workers batches :
  batch_graph g cg → batch_schedule slow cg → Forall (feasible slow cg) batches →
  ∃ p, makeBatchPipeline g workers = ROk p ∧ answers_dataflow (batch_config workers) cg p batches.
Proof.
  intros Hg Hsc Hin. destruct (made_batch_pipeline g cg workers Hg) as (p & Hp & B). exists p. split; [done|].
  assert (ec_alignment_policy (batch_config workers) = AP_FrameId) as Hal by (unfold batch_config, with_workers; by case_decide).
  clear Hp. revert p B. induction Hin as [|b batches Hb _ IH]; intros p B; [done|].
  destruct (run_computes slow _ g cg p b Hg Hsc Hal B Hb) as (le & outputs & He & Hans & Hres & B'). exists le, outputs.
  split_and!; [done|done|done|apply B'|by apply IH].
Qed.
End Batches.

(** ** A pipeline made and run *)

Section Example.
#[local] Existing Instance unit_types.
Notation PQ := (NodeQueue (BoundedList PortDataPtr) PortDataPtr).

(** Workers that take the last posted task, and a waiter that lets them finish. *)
Definition yx_pick (turn : nat) : nat := turn + 1.
Definition yx_patient (_ : nat) : bool := false.
Definition yx_batches : list Batch := [mkBatch 10 25 bx_inputs None; mkBatch 30 36 [("n0", Some (mkPacket 9 0 0 []))] (Some 5%Z)].

(** What [run] answers, for nodes that take [elapsed] and a waiter that [overtakes]. *)
Definition yx_answers (elapsed : list Event → Z) (overtakes : nat → bool) : list (Result ExecutionOutput) :=
  let _ : EngineApi (LiveEngine (Q := PQ)) :=
    api bx_node sx_iter bx_f bx_flush elapsed bx_setup BatchScheduler (NoneSync mkNoSync) 0 overtakes yx_pick 9 in
  match makeBatchPipeline bx_graph 2 with
  | RErr _ => []
  | ROk p => (foldl (λ '(p, rs) b, let '(p, r) := run p (ba_now b) (ba_later b) (ba_inputs b) (ba_timeout b) in (p, rs ++ [r])) (p, []) yx_batches).2
  end.

Definition yx_output (r : Result ExecutionOutput) : option PortDataPtr + ErrorCode :=
  match r with ROk o => inl (pm_find (eo_outputs o) "n3:out") | RErr e => inr (err_code e) end.

#[local] Instance yx_api : EngineApi (LiveEngine (Q := PQ)) :=
  api bx_node sx_iter bx_f bx_flush bx_elapsed bx_setup BatchScheduler (NoneSync mkNoSync) 0 yx_patient yx_pick 9.

Lemma batch_pipeline_computes_witness :
  ∃ p, makeBatchPipeline bx_graph 2 = ROk p ∧
    answers_dataflow bx_node sx_iter bx_f bx_flush bx_elapsed bx_setup BatchScheduler (NoneSync mkNoSync) 0 yx_patient yx_pick 9
      (batch_config 2) bx_cg p yx_batches ∧
    yx_output <$> yx_answers bx_elapsed yx_patient = [inl (Some (Some (mkPacket 1 0 0 []))); inl (Some (Some (mkPacket 9 0 0 [])))].
Proof.
  destruct (batch_pipeline_computes bx_node sx_iter bx_f bx_flush bx_elapsed bx_setup BatchScheduler (NoneSync mkNoSync) 0 yx_patient yx_pick 9
    7 bx_graph bx_cg 2 yx_batches) as (p & Hp & Hall).
  - split; [exact bx_reachable|vm_compute; reflexivity|vm_compute; reflexivity|exact bx_determined|exact bx_complete|done].
  - split; [vm_compute; lia|done|intros log; unfold bx_elapsed; lia].
  - apply Forall_cons. split; [split|].
    { apply (bool_decide_unpack _). vm_compute. exact I. }
    { intros ms Hms. inversion Hms. }
    apply Forall_cons. split; [|by apply Forall_nil]. split; [apply (bool_decide_unpack _); vm_compute; exact I|].
    intros ms [= <-] _ ms' [= <-]. vm_compute. discriminate.
  - exists p. split; [exact Hp|]. split; [exact Hall|]. vm_compute. reflexivity.
Defined.

(** Nodes that take two milliseconds each: the first batch, which has no timeout, is
    computed; the second has five milliseconds for four nodes and times out. *)
Lemma slow_batch_times_out :
  yx_output <$> yx_answers (λ _, 2000000%Z) yx_patient = [inl (Some (Some (mkPacket 1 0 0 []))); inr EC_ExecutionTimeout].
Proof. vm_compute. reflexivity. Qed.

(** A caller that sees the count of active tasks reach zero before the last task of the
    first batch has called back is told success, with the outputs of an earlier batch:
    here none. *)
Lemma overtaken_batch_is_empty :
  yx_output <$> yx_answers bx_elapsed (λ turn, turn =? 3) = [inl None; inl (Some (Some (mkPacket 9 0 0 [])))].
Proof. vm_compute. reflexivity. Qed.
End Example.
