(* ===== verification/SystemStreams.v ===== *)
(** * Streams through the whole system

    A stream pipeline on the modelled engine of [System], from [makeStreamPipeline] and
    [start] through any calls of [pushInput] and [signalEndOfStream], with workers that
    run tasks in between in any order, to the end of the stream.  The invariant
    [stream_pipeline] joins the one of [StreamInv] with the facade: it is running, its
    resident callbacks are installed, and its observers have heard exactly the callbacks
    in the engine's log. *)

From S2P Require Import Prelude Errors Packets Kahn Graphs CompiledGraphs MpmcQueue NodeQueue FrameAlignment.
From S2P Require Import SyncCoordinator JoinAwareSync ExecutionTypes Schedulers EngineCore EngineGather Dataflow Engine EngineLog.
From S2P Require Import NodeLifecycle EngineSim EngineTermination EngineRuns EngineCorrect BatchRun BatchCorrect EngineShell.
From S2P Require Import StreamInv StreamRuns StreamCorrect Options Contexts Pipelines PipelineCorrect EndToEnd System.
Local Open Scope string_scope.
Local Open Scope list_scope.
Local Open Scope nat_scope.

(** ** What observers hear *)

Section Heard.
Context `{CppTypes}.

Definition heard (observers : list (option nat)) (log : list Event) : list (nat * Note) :=
  log ≫= λ ev, from_option (tell observers) [] (note_of ev).

Lemma heard_app observers log log' : heard observers (log ++ log') = heard observers log ++ heard observers log'.
Proof. apply bind_app. Qed.

(** The engine tells callbacks; the other events of its log are silent. *)
Lemma told_callbacks observers streaming log :
  told observers ((λ ev, (streaming, ev)) <$> filter (λ ev, is_callback ev = true) log) = heard observers log.
Proof.
  induction log as [|ev log IH]; [done|]. rewrite filter_cons. unfold heard in *. rewrite bind_cons, <-IH.
  by destruct ev; simpl.
Qed.

Definition is_end (n : nat * Note) : bool := match n.2 with NEndOfStream => true | _ => false end.

(** Who heard of the end of the stream. *)
Definition heard_end (notes : list (nat * Note)) : list nat := fst <$> filter (λ n, is_end n = true) notes.

Lemma heard_end_tell observers n : heard_end (tell observers n) = if is_end (0, n) then omap id observers else [].
Proof.
  unfold heard_end, tell. induction (omap id observers) as [|o os IH]; [by destruct (is_end _)|].
  rewrite fmap_cons, filter_cons. destruct n; simpl in *; [exact IH..|]. f_equal. exact IH.
Qed.

Lemma heard_end_log observers log :
  heard_end (heard observers log) =
  mjoin (replicate (length (filter (λ ev, mark_of ev = Some MEndOfStream) log)) (omap id observers)).
Proof.
  induction log as [|ev log IH]; [done|]. unfold heard, heard_end in *. rewrite bind_cons, filter_app, fmap_app, IH.
  fold (heard_end (from_option (tell observers) [] (note_of ev))).
  destruct ev; rewrite filter_cons; simpl; rewrite ?heard_end_tell; done.
Qed.
End Heard.

(** ** A running stream *)

Section Streams.
Context `{CppTypes} {Q : Type} `{!PortQueue Q, !PortQueueLaws Q}.
Context (deref : NodePtr → ILogicNode) (iter : gset nat → list nat).
Context (process : list Event → NodePtr → PortDataMap → Outcome).
Context (onEndOfStream : list Event → NodePtr → Outcome) (elapsed : list Event → Z).
Context (setup : list Event → NodePtr → VoidResult + option string).
Context (custom_scheduler : SchedulerStrategy) (custom_sync : AnySync) (created : Z).
Context (overtakes : nat → bool) (pick : nat → nat) (patience : nat).
Notation Impl := (Engine Q AnySync).
Notation LiveEngine := (LiveEngine (Q := Q)).
#[local] Instance stream_api : EngineApi LiveEngine :=
  live_api deref iter process onEndOfStream elapsed setup custom_scheduler custom_sync created overtakes pick patience.
#[local] Instance stream_queries : EngineQueries (E := LiveEngine) := live_queries deref.
Implicit Types (le : LiveEngine) (cg : CompiledGraph) (p : Pipeline (E := LiveEngine)).

(** What may happen to a running stream; the times are those of the callbacks. *)
Inductive StreamCall :=
  | CallPush (now : Z) (node port : string) (data : PortDataPtr)
  | CallClose (now : Z) (node port : string)
  | CallWork (now : Z).                              (* a worker runs a posted task *)

Definition perform p (c : StreamCall) : Pipeline :=
  match c with
  | CallPush now node port data => (pushInput p now node port data).1
  | CallClose now node port => (signalEndOfStream p now node port).1
  | CallWork now => engine_call p now api_work
  end.

Definition performs p (cs : list StreamCall) : Pipeline := foldl perform p cs.

Section Invariant.
Context (cfg : EngineConfig) (cg : CompiledGraph) (G : dag_ok deref cg) (Hsmall : (Z.of_nat (length (cg_nodes cg)) < u64_mod)%Z).
Context (observers : list (option nat)).
Notation sched := (scheduler_for cfg STREAM).

Record stream_engine (known : list (nat * nat)) le : Prop := {
  se_compiled : ee_compiled (le_engine le) = Some cg;
  se_scheduler : ee_scheduler (le_engine le) = sched;
  se_config : ee_config (le_engine le) = cfg;
  se_owed : le_owed le = false;
  se_streaming : streaming deref cfg cg (weight cg) known (le_impl le);
  se_lifecycle : lifecycle_inv (abs no_ghost (le_impl le));
}.

Record stream_pipeline (known : list (nat * nat)) le p : Prop := {
  sp_engine : p_engine p = Some le;
  sp_stream : stream_engine known le;
  sp_handlers : p_handlers p = Resident;
  sp_observers : p_observers p = observers;
  sp_state : p_state p = PS_RUNNING;
  sp_notes : p_notes p = heard observers (e_log (le_impl le));
}.

(** Callbacks while streaming do not touch the state of the facade. *)
Lemma deliver_running now evs p :
  p_handlers p = Resident → Forall (λ ev, ev.1 = true) evs → p_state (deliver now p evs) = p_state p.
Proof.
  intros Hp Hevs. revert p Hp. induction Hevs as [|[st ev] evs Hst _ IH]; intros p Hp; [done|]. simpl in Hst. subst.
  unfold deliver in *. cbn [foldl]. rewrite IH; rewrite Hp; by destruct ev.
Qed.

Lemma running_mode known le : stream_engine known le → e_streamingMode (le_impl le) = true.
Proof.
  intros [_ _ _ _ [w I] _]. pose proof (si_live _ _ _ _ _ _ _ _ I) as Hl. unfold live in Hl. by destruct (e_streamingMode _).
Qed.

(** The callbacks of an operation are delivered. *)
Lemma stream_deliver known known' le le' p now :
  stream_pipeline known le p → stream_engine known' le' → extends (le_impl le) (le_impl le') →
  stream_pipeline known' le' (deliver now (set_engine p le') (told_since le le')).
Proof.
  intros [P1 P2 P3 P4 P5 P6] S' [[new Hnew] _].
  destruct (deliver_resident now (told_since le le') (set_engine p le') P3) as [_ _ D3 D4 (D5 & _ & _ & _ & D6 & _)].
  split; [done|done|done|by rewrite D6| |].
  - rewrite deliver_running; [done|done|]. unfold told_since. rewrite (running_mode _ _ P2). by apply Forall_fmap, Forall_true.
  - rewrite D3. cbn [p_notes p_observers set_engine]. rewrite P4, P6, Hnew, heard_app. f_equal.
    unfold told_since. by rewrite Hnew, drop_app_length, told_callbacks.
Qed.

(** An operation of the engine. *)
Lemma stream_operates known le op s : stream_engine known le → keeps_running op →
  engine_op deref cfg cg sched process onEndOfStream elapsed (le_impl le) op = Some s →
  ∀ turn, stream_engine known (mkLive (set_impl (le_engine le) s) turn false).
Proof using G Hsmall.
  intros [S1 S2 S3 S6 S4 S5] Hk Ho turn. split; try done.
  - by eapply op_streaming.
  - eapply vsteps_inv; [by eapply engine_op_steps|done].
Qed.

Lemma stream_pushes known le p now node port data : stream_pipeline known le p →
  ∃ le' r, stream_pipeline known le' (perform p (CallPush now node port data)) ∧ (pushInput p now node port data).2 = r ∧
    Engine.pushInput deref cfg cg sched onEndOfStream elapsed (le_impl le) node port data = Some (le_impl le', r).
Proof using G Hsmall.
  intros P. pose proof (sp_stream _ _ _ P) as S. cbn [perform]. unfold pushInput. rewrite (sp_engine _ _ _ P).
  cbn [api_pushInput stream_api live_api]. unfold live_push, push_input. rewrite (se_compiled _ _ S), (se_scheduler _ _ S), (se_config _ _ S).
  destruct (pushInput_total cfg cg sched onEndOfStream elapsed deref (le_impl le) node port data) as [[s r] Hs].
  unfold le_impl in Hs. rewrite Hs. cbn [mbind option_bind fst snd]. rewrite (se_owed _ _ S). eexists (mkLive (set_impl (le_engine le) s) (le_turn le) false), r.
  split; [|split; [done|exact Hs]]. eapply stream_deliver; [exact P| |by eapply pushInput_extends].
  apply (stream_operates known le (OpPush node port data)); [done|done|]. cbn [engine_op]. unfold le_impl. by rewrite Hs.
Qed.

Lemma stream_closes known le p now node port : stream_pipeline known le p →
  ∃ le', stream_pipeline known le' (perform p (CallClose now node port)) ∧
    fst <$> Engine.signalEndOfStream cg sched onEndOfStream elapsed (le_impl le) node port = Some (le_impl le') ∧
    ∀ j, port = "" → indexOf cg node = Some j → j < length (cg_nodes cg) → length (node_ports deref cg j) = 1 →
      stream_pipeline ((j, 0) :: known) le' (perform p (CallClose now node port)).
Proof using G Hsmall.
  intros P. pose proof (sp_stream _ _ _ P) as S. cbn [perform]. unfold signalEndOfStream. rewrite (sp_engine _ _ _ P).
  cbn [api_signalEndOfStream stream_api live_api]. unfold live_close. rewrite (se_compiled _ _ S), (se_scheduler _ _ S).
  destruct (signalEndOfStream_total cg sched onEndOfStream elapsed (le_impl le) node port) as [[s r] Hs]. rewrite Hs. cbn [fst snd].
  assert (stream_engine known (le_set le s)) as S'.
  { unfold le_set. rewrite (se_owed _ _ S). apply (stream_operates known le (OpClose node port)); [done|done|]. cbn [engine_op]. by rewrite Hs. }
  assert (extends (le_impl le) (le_impl (le_set le s))) as E by (by eapply signal_extends).
  exists (le_set le s). split; [by eapply stream_deliver|]. split; [done|]. intros j -> Hj HjN Hone. eapply stream_deliver; [exact P| |exact E].
  destruct S' as [T1 T2 T3 T6 T4 T5]. split; try done. by eapply signal_learns; [..|apply (se_streaming _ _ S)| | | |exact Hs].
Qed.

(** The operation of the engine behind a call; the task of a worker is [pick]ed. *)
Definition call_op le (c : StreamCall) : EngineOp :=
  match c with
  | CallPush _ node port data => OpPush node port data
  | CallClose _ node port => OpClose node port
  | CallWork _ => OpTask (pick (le_turn le) mod length (e_pool (le_impl le)))
  end.

(** A worker runs a task: the engine goes on as [serve] has it. *)
Lemma stream_works known le p now : stream_pipeline known le p →
  ∃ s, run_task cfg cg sched process onEndOfStream elapsed (le_impl le) (pick (le_turn le) mod length (e_pool (le_impl le))) = Some s ∧
    stream_pipeline known (mkLive (set_impl (le_engine le) s) (S (le_turn le)) false) (perform p (CallWork now)).
Proof using G Hsmall.
  intros P. pose proof (sp_stream _ _ _ P) as S. cbn [perform]. unfold engine_call. rewrite (sp_engine _ _ _ P).
  cbn [api_work stream_api live_api]. unfold quietly, take_task. rewrite (se_compiled _ _ S), (se_scheduler _ _ S), (se_config _ _ S), (se_owed _ _ S), (running_mode _ _ S).
  rewrite andb_false_r. cbn [andb]. cbv zeta. set (k := pick _ mod _).
  destruct (engine_op_total deref cfg cg sched process onEndOfStream elapsed (le_impl le) (OpTask k)) as [s Hs].
  { apply (li_wired _ (se_lifecycle _ _ S)). }
  cbn [engine_op] in Hs. exists s. split; [exact Hs|]. rewrite Hs. eapply stream_deliver; [exact P| |by eapply run_task_extends].
  by apply (stream_operates known le (OpTask k)).
Qed.

Lemma stream_performs known le p c : stream_pipeline known le p →
  ∃ le', stream_pipeline known le' (perform p c) ∧
    engine_op deref cfg cg sched process onEndOfStream elapsed (le_impl le) (call_op le c) = Some (le_impl le').
Proof using G Hsmall.
  intros P. destruct c as [now node port data|now node port|now].
  - destruct (stream_pushes _ _ _ now node port data P) as (le' & r & P' & _ & Hs). exists le'. split; [done|]. cbn [call_op engine_op]. by rewrite Hs.
  - destruct (stream_closes _ _ _ now node port P) as (le' & P' & Hs & _). by exists le'.
  - destruct (stream_works _ _ _ now P) as (s & Hs & P'). by eexists.
Qed.

Lemma stream_performs_all known le p cs : stream_pipeline known le p → ∃ le', stream_pipeline known le' (performs p cs).
Proof using G Hsmall.
  revert le p. induction cs as [|c cs IH]; intros le p P; [by exists le|]. destruct (stream_performs _ _ _ c P) as (le' & P' & _). by eapply IH.
Qed.

(** A node that the caller has closed stays closed. *)
Lemma stream_closed known le p cs now name j : stream_pipeline known le p → CallClose now name "" ∈ cs →
  indexOf cg name = Some j → j < length (cg_nodes cg) → length (node_ports deref cg j) = 1 →
  ∃ le', stream_pipeline ((j, 0) :: known) le' (performs p cs).
Proof using G Hsmall.
  intros P (l1 & l2 & ->)%list_elem_of_split Hj HjN Hone. unfold performs. rewrite foldl_app. cbn [foldl].
  destruct (stream_performs_all _ _ _ l1 P) as [le1 P1]. destruct (stream_closes _ _ _ now name "" P1) as (le2 & _ & _ & P2).
  exact (stream_performs_all _ _ _ l2 (P2 j eq_refl Hj HjN Hone)).
Qed.

Definition picked (turn n : nat) : list nat := pick <$> seq turn n.

(** Workers alone: the engine goes on as [serve] has it. *)
Lemma stream_serves known le p times : stream_pipeline known le p →
  ∃ le', serve cfg process onEndOfStream elapsed cg (le_impl le) (picked (le_turn le) (length times)) = Some (le_impl le') ∧
    stream_pipeline known le' (performs p (CallWork <$> times)).
Proof using G Hsmall.
  revert le p. induction times as [|now times IH]; intros le p P; [by exists le|].
  destruct (stream_works _ _ _ now P) as (s & Hs & P1). destruct (IH _ _ P1) as (le' & Hserve & P'). exists le'. split; [|exact P'].
  cbn [length picked seq fmap list_fmap serve]. rewrite Hs. exact Hserve.
Qed.
End Invariant.

(** ** From a graph to the end of its stream *)

(** The graphs considered: every node has one input port, and its [setup] succeeds. *)
Record stream_ready (g : Graph) cg : Prop := {
  sr_reachable : rtc (graph_step deref) empty_graph g;
  sr_small : (Z.of_nat (length (m_nodes g)) < u32_mod)%Z;
  sr_compiles : compile deref g = Some (ROk cg);
  sr_single j : j < length (cg_nodes cg) → length (node_ports deref cg j) = 1;
  sr_setup log node : setup log node = inl void_ok;
}.

(** Every source is closed by one of the calls. *)
Definition sources_signalled cg (cs : list StreamCall) : Prop :=
  ∀ j node, cg_node cg j = Some node → isSource cg j = true → ∃ now, CallClose now (getName (deref node)) "" ∈ cs.

Definition stream_config (workers cap : Z) : EngineConfig := with_workers (config_stream workers cap) workers.

Lemma stream_capacity workers cap name port : (cap ≤ 2 ^ 63)%Z →
  (qc_capacity (port_queue_config (stream_config workers cap) ∅ name port) ≤ 2 ^ 63)%Z.
Proof.
  intros Hcap. unfold port_queue_config, getNodeQueueConfig. rewrite lookup_empty. unfold stream_config, with_workers.
  destruct (decide (0 < workers)%Z);
    cbn [ec_default_queue_capacity ec_default_drop_strategy ec_enable_statistics config_stream qcfg_capacity qc_capacity];
    repeat case_decide; lia.
Qed.

Lemma ready_graph g cg : stream_ready g cg →
  dag_ok deref cg ∧ (Z.of_nat (length (cg_nodes cg)) < u64_mod)%Z ∧ compiled_ok deref g cg ∧ hasCycle g = Some false.
Proof.
  intros [Hr Hsmall Hc _ _]. destruct (compile_inv deref g cg Hr Hsmall Hc) as [Hok Hcyc]. split_and!.
  - by eapply compile_dag.
  - rewrite (co_nodes _ _ _ Hok). unfold u64_mod, u32_mod in *. lia.
  - done.
  - destruct (hasCycle_total deref g (reachable_graph_wf deref g Hr)) as ([] & Hb & Hiff); [|done]. exfalso. by apply Hcyc, Hiff.
Qed.

(** Streaming starts on an idle engine, without a callback. *)
Lemma streaming_begins cfg cg (s0 : Impl) context :
  (∀ log node, setup log node = inl void_ok) → e_state s0 = IDLE →
  ∃ s, startStreaming deref cg (scheduler_for cfg STREAM) setup s0 context = (s, void_ok) ∧ silent s0 s.
Proof.
  intros Hset Hidle. unfold startStreaming. rewrite decide_False by (intros Hn; by apply Hn). cbn [supportsStreaming scheduler_for negb].
  pose proof (setup_succeeds deref setup cg s0 Hset) as Hok. destruct (setupNodes deref cg setup s0) as [s1 r] eqn:Hs. cbn [snd] in Hok.
  rewrite Hok. cbn [negb]. eexists. split; [reflexivity|]. destruct (silent_setup _ _ _ _ _ _ Hs) as (log & Hlog & Hcb). exists log.
  split; [|done]. rewrite <-Hlog. by destruct context.
Qed.

Lemma silent_tells_nothing le le' : silent (le_impl le) (le_impl le') → told_since le le' = [].
Proof.
  intros (log & Hlog & Hcb). unfold told_since. rewrite Hlog, drop_app_length. unfold callbacks in Hcb.
  by apply fmap_nil_inv in Hcb as ->.
Qed.

(** [makeStreamPipeline] and [start]. *)
Lemma stream_starts g cg workers cap os now : stream_ready g cg → (cap ≤ 2 ^ 63)%Z →
  ∃ p, makeStreamPipeline g workers cap = ROk p ∧ (start (foldl addObserver p os) now None).2 = void_ok ∧
    ∃ le, stream_pipeline (stream_config workers cap) cg os [] le (start (foldl addObserver p os) now None).1 ∧
      stream_started deref (stream_config workers cap) setup cg (le_impl le).
Proof.
  intros R Hcap. destruct (ready_graph g cg R) as (G & Hsmall & Hok & Hcyc). destruct R as [Hr Hs Hc Hone Hset].
  set (cfg := stream_config workers cap).
  set (sync := sync_initialize deref iter (JoinSync newJoinAware) cg).
  set (ee := mkExecutionEngine (Q := Q) cfg (Some cg) (scheduler_for (config_stream workers cap) STREAM) ∅ (initialized deref cfg ∅ cg sync created)).
  destruct (build_ready (withSyncCoordination (withQueueCapacity (withWorkers (withMode (withGraph newBuilder g) STREAM) workers) cap) true) g
    (mkLive (create (config_stream workers cap) created) 0 false) (mkLive ee 0 false)) as (p & Hp & Hready & Hh & He & Hopt & Hn & Hobs); try done.
  { cbn [api_initialize stream_api live_api le_engine]. unfold EngineShell.initialize. rewrite Hc. reflexivity. }
  exists p. split; [exact Hp|]. destruct (add_observers os p) as (O1 & O2 & O3 & O4 & O5 & O6). set (p1 := foldl addObserver p os) in *.
  assert (validateState p1 "start streaming" = void_ok) as Hv.
  { pose proof (validateState_code p1 "start streaming") as Hcode. rewrite (proj2 (refusal_ready p1)) in Hcode by congruence. by destruct Hcode. }
  assert (scheduler_for (config_stream workers cap) STREAM = scheduler_for cfg STREAM) as Hsched by (unfold cfg, stream_config, with_workers; by case_decide).
  destruct (streaming_begins cfg cg (ee_impl ee) (bool_decide (is_Some (p_context p1))) Hset eq_refl) as (s & Hstart & Hsilent).
  set (le := mkLive (set_impl ee s) 0 false).
  assert (live_start deref setup (mkLive ee 0 false) (p_context p1) = (le, token_of (p_context p1) le, [], void_ok)) as Hlive.
  { unfold live_start, start_streaming. cbn [le_engine ee ee_compiled ee_scheduler ee_impl]. rewrite Hsched.
    cbn [ee ee_impl] in Hstart. rewrite Hstart. cbv zeta. by rewrite silent_tells_nothing. }
  unfold start. rewrite Hv, O4, Hopt. change (void_isOk void_ok) with true. cbn [negb]. rewrite bool_decide_eq_false_2 by (intros Hne; by apply Hne).
  cbn [p_engine set_start transitionTo p_context]. rewrite O3, He. cbn [api_startStreaming stream_api live_api].
  cbn [p_context set_start transitionTo]. rewrite Hlive. change (void_isOk void_ok) with true. cbn [fst snd deliver foldl]. split; [done|]. exists le.
  assert (stream_started deref cfg setup cg s) as Hst.
  { exists g, ∅, sync, created, (bool_decide (is_Some (p_context p1))). split_and!; try done. intros name port. by apply stream_capacity. }
  destruct (stream_graph deref cfg onEndOfStream elapsed setup cg s Hst) as (_ & _ & I & L). split; [|exact Hst].
  split; cbn [p_engine p_handlers p_observers p_state p_notes set_ctx set_engine set_start transitionTo]; [done|by split|congruence| |done|].
  - by rewrite O6, Hobs.
  - rewrite O5, Hn. destruct Hsilent as (log & Hlog & Hcb). change (e_log (le_impl le)) with (e_log s). rewrite Hlog.
    change (e_log (ee_impl ee)) with (@nil Event). simpl. rewrite <-(told_callbacks os true log). apply fmap_nil_inv in Hcb. by rewrite Hcb.
Qed.

(** Sources that were signalled are closed. *)
Lemma signalled_closed cfg g cg os le0 p0 le cs : stream_ready g cg → stream_pipeline cfg cg os [] le0 p0 →
  stream_pipeline cfg cg os [] le (performs p0 cs) → sources_signalled cg cs → sources_closed cg (le_impl le).
Proof.
  intros R P0 P Hsig j nd k Hj Hnd Hk. destruct (ready_graph g cg R) as (G & Hsmall & Hok & _).
  pose proof (sp_stream _ _ _ _ _ _ P) as [_ _ _ _ [w I] L]. pose proof (inv_range _ _ _ _ _ _ _ _ _ _ I Hnd) as HjN.
  destruct (inv_at _ _ _ _ _ _ _ _ _ _ I Hnd) as ([Hsh _] & _). simpl in Hsh. rewrite (sr_single _ _ R j HjN) in Hsh.
  destruct (lookup_lt_is_Some_2 _ _ HjN) as [node Hnode]. destruct (Hsig j node Hnode Hj) as [t Ht].
  destruct (stream_closed cfg cg G Hsmall os _ _ _ cs t (getName (deref node)) j P0 Ht) as [le' P']; [|done|by apply (sr_single _ _ R)|].
  { apply (co_names _ _ _ Hok). exists node. by rewrite <-(co_nodes _ _ _ Hok). }
  pose proof (sp_engine _ _ _ _ _ _ P') as He. rewrite (sp_engine _ _ _ _ _ _ P) in He. injection He as <-.
  destruct (sp_stream _ _ _ _ _ _ P') as [_ _ _ _ [w' I'] _].
  destruct (ni_known _ _ _ _ _ _ _ (si_nodes _ _ _ _ _ _ _ _ I') j 0) as (n & Hn & Hl); [by left|].
  rewrite (lookup_view _ j nd Hnd) in Hn. injection Hn as <-. assert (k = 0) as -> by lia. exact Hl.
Qed.

(** Workers alone bring the end. *)
Lemma stream_reaches_end workers cap g cg os le p : stream_ready g cg → stream_pipeline (stream_config workers cap) cg os [] le p →
  sources_closed cg (le_impl le) → ∃ bound, ∀ times, bound ≤ length times →
    ∃ le', stream_pipeline (stream_config workers cap) cg os [] le' (performs p (CallWork <$> times)) ∧ ended (le_impl le') ∧
      serve (stream_config workers cap) process onEndOfStream elapsed cg (le_impl le) (picked (le_turn le) (length times)) = Some (le_impl le').
Proof.
  intros R P Hsrc. destruct (ready_graph g cg R) as (G & Hsmall & _). pose proof (sp_stream _ _ _ _ _ _ P) as [_ _ _ _ [w I] L].
  exists w. intros times Hlen. destruct (stream_serves _ cg G Hsmall os _ _ _ times P) as (le' & Hserve & P'). exists le'.
  destruct (serving_ends deref (stream_config workers cap) process onEndOfStream elapsed cg w (le_impl le) (picked (le_turn le) (length times)) G Hsmall)
    as (s' & Hs' & _ & E); [apply (sr_single _ _ R)|unfold stream_config, with_workers; by case_decide|done..|unfold picked; by rewrite length_fmap, length_seq|].
  rewrite Hserve in Hs'. injection Hs' as <-. done.
Qed.

(** C3: from a graph to the end of its stream.  Take any graph that the public mutators can
    build, that compiles, whose nodes have one input port each and set up without error.
    [makeStreamPipeline] makes a pipeline of it, observers are added, [start] succeeds; then
    frames are pushed and ports closed in any order while workers run tasks in any order,
    nodes and hooks may throw, and queues may drop.  The pipeline stays running throughout.
    If [signalEndOfStream] was called for every source, a bounded number of further tasks
    brings the end of the stream: the pipeline reports it, [waitForEndOfStream] succeeds,
    every node has been flushed, and each observer has been told of the end exactly once
    for each time it was registered.  Facade, builder, engine, queues, synchronization and
    scheduler are the modelled ones. *)
Theorem stream_pipeline_ends g cg workers cap os now cs :
  stream_ready g cg → (cap ≤ 2 ^ 63)%Z →
  ∃ p0, makeStreamPipeline g workers cap = ROk p0 ∧ (start (foldl addObserver p0 os) now None).2 = void_ok ∧
    let p := performs (start (foldl addObserver p0 os) now None).1 cs in
    state p = PS_RUNNING ∧
    (sources_signalled cg cs → ∃ bound, ∀ times, bound ≤ length times →
       let q := performs p (CallWork <$> times) in
       state q = PS_RUNNING ∧ isEndOfStreamReached q = true ∧ (∀ timeout, waitForEndOfStream q timeout = void_ok) ∧
       (∀ le i nd, p_engine q = Some le → stateByIndex (le_impl le) i = Some nd → nd_eos_propagated nd = true) ∧
       heard_end (p_notes q) = omap id os).
Proof.
  intros R Hcap. destruct (stream_starts g cg workers cap os now R Hcap) as (p0 & Hp0 & Hstart & le0 & P0 & _). exists p0. split; [done|]. split; [done|].
  destruct (ready_graph g cg R) as (G & Hsmall & Hok & _). cbv zeta.
  destruct (stream_performs_all _ cg G Hsmall os _ _ _ cs P0) as [le P]. split; [apply (sp_state _ _ _ _ _ _ P)|]. intros Hsig.
  destruct (stream_reaches_end workers cap g cg os le _ R P (signalled_closed _ _ _ _ _ _ _ _ R P0 P Hsig)) as [bound Hend].
  exists bound. intros times Hlen. destruct (Hend times Hlen) as (le' & P' & [E1 E2 E3 E4 _] & _).
  unfold isEndOfStreamReached, waitForEndOfStream. rewrite (sp_engine _ _ _ _ _ _ P'). split_and!.
  - apply (sp_state _ _ _ _ _ _ P').
  - exact E2.
  - intros timeout. apply E4.
  - intros ? i nd [= <-]. apply E1.
  - rewrite (sp_notes _ _ _ _ _ _ P'), heard_end_log, E3. simpl. apply app_nil_r.
Qed.
End Streams.

(** ** A stream made, fed and closed *)

Section Example.
#[local] Existing Instance unit_types.
Notation PQ := (NodeQueue (BoundedList PortDataPtr) PortDataPtr).

(** The middle node throws on what it gets. *)
Definition wx_process (log : list Event) (p : NodePtr) (inputs : PortDataMap) : Outcome :=
  if decide (p = 1) then Threw None else tx_process log p inputs.
#[local] Instance wx_api : EngineApi (LiveEngine (Q := PQ)) :=
  stream_api bx_node sx_iter wx_process bx_flush bx_elapsed bx_setup BatchScheduler (NoneSync mkNoSync) 0 yx_patient yx_pick 4.
#[local] Instance wx_queries : EngineQueries (E := LiveEngine (Q := PQ)) := stream_queries bx_node.
Notation performs := (performs bx_node sx_iter wx_process bx_flush bx_elapsed bx_setup BatchScheduler (NoneSync mkNoSync) 0 yx_patient yx_pick 4).

Definition wx_observers : list (option nat) := [Some 7; None; Some 9].
Definition wx_calls : list StreamCall := [CallPush 1 "n0" "" tx_frame; CallWork 2; CallPush 3 "n0" "" tx_frame; CallClose 4 "n0" ""].
Definition wx_run (n : nat) : option (list nat * list nat * PipelineState) :=
  match makeStreamPipeline tx_chain 2 16 with
  | RErr _ => None
  | ROk p0 =>
      let q := performs (performs (start (foldl addObserver p0 wx_observers) 0 None).1 wx_calls) (CallWork <$> replicate n 5%Z) in
      Some (heard_end (p_notes q), fst <$> filter (λ n, match n.2 with NFailed _ => true | _ => false end = true) (p_notes q), state q)
  end.

(** After three more tasks the end is told; the failures of the node were told before. *)
Lemma stream_pipeline_ends_witness :
  (∃ p0 times, makeStreamPipeline tx_chain 2 16 = ROk p0 ∧
    heard_end (p_notes (performs (performs (start (foldl addObserver p0 wx_observers) 0 None).1 wx_calls) (CallWork <$> times))) = [7; 9]) ∧
  wx_run 1 = Some ([], [7; 9], PS_RUNNING) ∧ wx_run 9 = Some ([7; 9], [7; 9; 7; 9], PS_RUNNING).
Proof.
  split; [|vm_compute; split; reflexivity].
  destruct (stream_pipeline_ends bx_node sx_iter wx_process bx_flush bx_elapsed bx_setup BatchScheduler (NoneSync mkNoSync) 0 yx_patient yx_pick 4
    tx_chain (tx_compiled bx_node tx_chain) 2 16 wx_observers 0 wx_calls) as (p0 & Hp0 & _ & _ & Hend).
  - split; [|vm_compute; reflexivity|vm_compute; reflexivity| |done].
    + eapply rtc_r; [eapply rtc_r; [apply tx_nodes_reachable|constructor]|constructor].
    + intros j Hj. vm_compute in Hj. do 3 (destruct j as [|j]; [vm_compute; reflexivity|]). lia.
  - vm_compute. discriminate.
  - destruct Hend as [bound Hend].
    + intros j node Hn Hj. destruct j as [|j].
      * vm_compute in Hn. injection Hn as <-. exists 4%Z. do 3 apply list_elem_of_further. left.
      * do 2 (destruct j as [|j]; [vm_compute in Hj; discriminate|]). vm_compute in Hn. discriminate.
    + exists p0, (replicate bound 5%Z). split; [exact Hp0|]. destruct (Hend (replicate bound 5%Z)) as (_ & _ & _ & _ & Hheard); [by rewrite length_replicate|].
      exact Hheard.
Defined.
End Example.
