(* ===== verification/SystemFlow.v ===== *)
(** * What a stream pipeline computes

    The calls on a running stream pipeline are operations of its engine ([performs_run]);
    so what the engine's stream computes ([StreamFlow.v]) is what the pipeline computes on
    the frames that [pushInput] took from its callers ([accepted]). *)

From S2P Require Import Prelude Errors Packets Kahn Graphs CompiledGraphs MpmcQueue NodeQueue FrameAlignment.
From S2P Require Import SyncCoordinator JoinAwareSync ExecutionTypes Schedulers EngineCore EngineGather Dataflow Engine EngineLog.
From S2P Require Import NodeLifecycle EngineSim EngineTermination EngineRuns EngineCorrect BatchRun BatchCorrect EngineShell.
From S2P Require Import StreamInv StreamRuns StreamCorrect StreamLedger StreamFlow Options Contexts Pipelines PipelineCorrect EndToEnd System SystemStreams.
Local Open Scope string_scope.
Local Open Scope list_scope.
Local Open Scope nat_scope.

Section Flow.
Context `{CppTypes} {Q : Type} `{!PortQueue Q, !PortQueueLaws Q, !PortQueueReports Q}.
Context (deref : NodePtr → ILogicNode) (iter : gset nat → list nat).
Context (process : list Event → NodePtr → PortDataMap → Outcome).
Context (onEndOfStream : list Event → NodePtr → Outcome) (elapsed : list Event → Z).
Context (setup : list Event → NodePtr → VoidResult + option string).
Context (custom_scheduler : SchedulerStrategy) (custom_sync : AnySync) (created : Z).
Context (overtakes : nat → bool) (pick : nat → nat) (patience : nat).
Notation LiveEngine := (LiveEngine (Q := Q)).
#[local] Hint Extern 0 (EngineApi _) =>
  exact (stream_api deref iter process onEndOfStream elapsed setup custom_scheduler custom_sync created overtakes pick patience) : typeclass_instances.
#[local] Hint Extern 0 EngineQueries => exact (stream_queries deref) : typeclass_instances.
Notation perform := (perform deref iter process onEndOfStream elapsed setup custom_scheduler custom_sync created overtakes pick patience).
Notation performs := (performs deref iter process onEndOfStream elapsed setup custom_scheduler custom_sync created overtakes pick patience).
Implicit Types (le : LiveEngine) (cg : CompiledGraph) (p : Pipeline (E := LiveEngine)).

(** Pushes and closes go to the input ports of sources. *)
Definition sources_only cg (c : StreamCall) : Prop :=
  match c with
  | CallPush _ node port data => at_sources deref cg (OpPush node port data)
  | CallClose _ node port => at_sources deref cg (OpClose node port)
  | CallWork _ => True
  end.

(** The frames that [pushInput] took for node [j], as the engine stamps them. *)
Fixpoint accepted cfg cg (j : nat) p (cs : list StreamCall) : list PortDataPtr :=
  match cs with
  | [] => []
  | c :: rest =>
      match c with
      | CallPush now node port data =>
          match (pushInput p now node port data).2, p_engine p with
          | ROk _, Some le => if decide (indexOf cg node = Some j) then [(stampIncomingFrame cfg (le_impl le) data).2] else []
          | _, _ => []
          end
      | _ => []
      end ++ accepted cfg cg j (perform p c) rest
  end.

Section Invariant.
Context (cfg : EngineConfig) (cg : CompiledGraph) (G : dag_ok deref cg) (Hsmall : (Z.of_nat (length (cg_nodes cg)) < u64_mod)%Z).
Context (observers : list (option nat)).
Notation sched := (scheduler_for cfg STREAM).
Notation stream_pipeline := (stream_pipeline deref cfg cg observers).
Notation offers := (offers deref cfg cg sched onEndOfStream elapsed).
Notation pushed_by := (pushed_by deref cfg cg sched process onEndOfStream elapsed).

(** What a call hands to a node, seen from the caller and from the engine. *)
Lemma accepted_offers le p c j node : stream_pipeline [] le p → sources_only cg c → cg_nodes cg !! j = Some node →
  offers j node (le_impl le) (call_op pick le c) =
  match c with
  | CallPush now name port data =>
      match (pushInput p now name port data).2, p_engine p with
      | ROk _, Some le => if decide (indexOf cg name = Some j) then [(stampIncomingFrame cfg (le_impl le) data).2] else []
      | _, _ => []
      end
  | _ => []
  end.
Proof using G Hsmall.
  intros P Hc Hj. destruct c as [now name port data|now name port|now]; try done.
  destruct (stream_pushes deref iter process onEndOfStream elapsed setup custom_scheduler custom_sync created overtakes pick patience cfg cg G Hsmall observers
    [] le p now name port data P) as (le' & r & _ & Hr & Hs).
  rewrite (sp_engine _ _ _ _ _ _ _ P). cbn [call_op StreamLedger.offers]. rewrite Hs. rewrite Hr.
  destruct r; [|done]. case_decide as Hn; [|by rewrite bool_decide_eq_false_2].
  rewrite bool_decide_eq_true_2 by done. destruct (Hc j node Hn Hj) as [_ ->]. done.
Qed.

(** The calls as a run of the engine. *)
Lemma performs_run le p cs : stream_pipeline [] le p → Forall (sources_only cg) cs →
  ∃ le' ops, stream_pipeline [] le' (performs p cs) ∧ Forall (at_sources deref cg) ops ∧
    engine_run deref cfg cg sched process onEndOfStream elapsed (le_impl le) ops = Some (le_impl le') ∧
    ∀ j node, cg_nodes cg !! j = Some node → pushed_by j node (le_impl le) ops = accepted cfg cg j p cs.
Proof using G Hsmall.
  intros P Hcs. revert le p P. induction Hcs as [|c cs Hc _ IH]; intros le p P; [by exists le, []|].
  destruct (stream_performs deref iter process onEndOfStream elapsed setup custom_scheduler custom_sync created overtakes pick patience cfg cg G Hsmall observers
    [] le p c P) as (le1 & P1 & Hop).
  destruct (IH le1 _ P1) as (le' & ops & P' & Hops & Hrun & Hpushed). exists le', (call_op pick le c :: ops). split_and!; [done| | |].
  - constructor; [|done]. by destruct c.
  - cbn [engine_run]. rewrite Hop. exact Hrun.
  - intros j node Hj. cbn [StreamLedger.pushed_by accepted]. rewrite Hop, (Hpushed j node Hj). f_equal. by apply accepted_offers.
Qed.
End Invariant.

(** C2: from a graph to what its stream computes.  Take any graph that the public mutators
    can build, that compiles, whose nodes have one input port each, fed by at most one
    edge, whose edges lead to declared ports and whose sinks have no colon in their
    names, with nodes that set up without error, compute a function of their packet and flush nothing.
    [makeStreamPipeline] makes a pipeline of it and [start] succeeds; then callers push
    frames to the sources and close them, in any order, while workers run tasks in any
    order.  Once every source was signalled, a bounded number of further tasks brings the
    end of the stream; and if the engine reported no drop, every node has been called on
    exactly the packets that reach it in the reference semantics, in order: a source on
    the frames that [pushInput] took from the callers, any other node on what the node
    before it makes of its packets. *)
Theorem stream_pipeline_computes f g cg workers cap os now cs :
  (∀ log node inputs, process log node inputs = Returned (f node inputs)) → (∀ log node, onEndOfStream log node = Returned []) →
  stream_ready deref setup g cg → determined deref cg → (cap ≤ 2 ^ 63)%Z → Forall (sources_only cg) cs →
  ∃ p0, makeStreamPipeline g workers cap = ROk p0 ∧ (start (foldl addObserver p0 os) now None).2 = void_ok ∧
    let p := (start (foldl addObserver p0 os) now None).1 in
    (sources_signalled deref cg cs → ∃ bound, ∀ times, bound ≤ length times →
       let q := performs p (cs ++ (CallWork <$> times)) in
       isEndOfStreamReached q = true ∧
       ∀ le, p_engine q = Some le → (∀ name frame reason, EvDrop name frame reason ∉ e_log (le_impl le)) →
         ∀ j node, cg_nodes cg !! j = Some node →
           taken node (e_log (le_impl le)) =
           arrivals deref f cg (λ j, accepted (stream_config workers cap) cg j p cs) (length (cg_nodes cg)) j).
Proof.
  intros Hprocess Hflush R D Hcap Hcs. destruct (ready_graph deref setup g cg R) as (G & Hsmall & _).
  destruct (stream_starts deref iter process onEndOfStream elapsed setup custom_scheduler custom_sync created overtakes pick patience g cg workers cap os now R Hcap)
    as (p0 & Hp0 & Hstart & le0 & P0 & Hst).
  exists p0. split; [done|]. split; [done|]. cbv zeta. intros Hsig.
  destruct (performs_run _ cg G Hsmall os le0 _ cs P0 Hcs) as (le & ops & P & Hops & Hrun & Hpushed).
  destruct (stream_reaches_end deref iter process onEndOfStream elapsed setup custom_scheduler custom_sync created overtakes pick patience workers cap g cg os le _ R P
    (signalled_closed _ _ _ _ _ _ _ _ _ _ _ _ _ _ _ _ _ _ _ _ R P0 P Hsig)) as [bound Hend].
  exists bound. intros times Hlen. destruct (Hend times Hlen) as (le' & P' & E & Hserve).
  assert (performs (start (foldl addObserver p0 os) now None).1 (cs ++ (CallWork <$> times)) =
    performs (performs (start (foldl addObserver p0 os) now None).1 cs) (CallWork <$> times)) as -> by (unfold SystemStreams.performs; by rewrite foldl_app).
  split; [unfold isEndOfStreamReached; rewrite (sp_engine _ _ _ _ _ _ _ P'); apply (en_reached _ E)|].
  intros le2 He Hnodrop j node Hj. rewrite (sp_engine _ _ _ _ _ _ _ P') in He. injection He as <-.
  rewrite (stream_computed deref _ process onEndOfStream elapsed setup f Hprocess Hflush cg _ _ _ _ _ Hst D (sr_single _ _ _ _ R) Hops Hrun Hserve E Hnodrop j node Hj).
  apply arrivals_ext; [|by eapply lookup_lt_Some]. intros i Hi. destruct (lookup_lt_is_Some_2 _ _ Hi) as [node' Hnode]. rewrite Hnode. simpl. by apply Hpushed.
Qed.
End Flow.

(** ** A chain *)

Section Example.
#[local] Existing Instance unit_types.
Notation PQ := (NodeQueue (BoundedList PortDataPtr) PortDataPtr).
Notation vx_cg := (tx_compiled bx_node tx_chain).
#[local] Instance vx_api : EngineApi (LiveEngine (Q := PQ)) :=
  stream_api bx_node sx_iter tx_process bx_flush bx_elapsed bx_setup BatchScheduler (NoneSync mkNoSync) 0 yx_patient yx_pick 4.
#[local] Instance vx_queries : EngineQueries (E := LiveEngine (Q := PQ)) := stream_queries bx_node.
Notation performs := (performs bx_node sx_iter tx_process bx_flush bx_elapsed bx_setup BatchScheduler (NoneSync mkNoSync) 0 yx_patient yx_pick 4).

(** The third push comes too late. *)
Definition vx_calls : list StreamCall :=
  [CallPush 1 "n0" "" tx_frame; CallWork 2; CallPush 3 "n0" "in" tx_frame; CallClose 4 "n0" ""; CallPush 5 "n0" "" tx_frame].

(** What the last node of the chain was called on, and whether the end was reached and
    frames were dropped, after [n] more tasks. *)
Definition vx_outcome (n : nat) : option (list PortDataPtr * bool * bool) :=
  match makeStreamPipeline tx_chain 2 16 with
  | RErr _ => None
  | ROk p0 =>
      let q := performs (start p0 0 None).1 (vx_calls ++ (CallWork <$> replicate n 5%Z)) in
      (λ le, (taken 2 (e_log (le_impl le)), isEndOfStreamReached q,
              existsb (λ ev, match ev with EvDrop _ _ _ => true | _ => false end) (e_log (le_impl le)))) <$> p_engine q
  end.

Lemma vx_sources : Forall (sources_only bx_node vx_cg) vx_calls.
Proof.
  assert (indexOf vx_cg "n0" = Some 0 ∧ cg_nodes vx_cg !! 0 = Some 0 ∧ isSource vx_cg 0 = true) as (Hi & Hn & Hs) by (vm_compute; done).
  assert (∀ now port x, isInputPort bx_node 0 (actual_port bx_node 0 port) = true → sources_only bx_node vx_cg (CallPush now "n0" port x)) as Hp.
  { intros now port x Hport k p Hk Hp. rewrite Hi in Hk. injection Hk as <-. rewrite Hn in Hp. injection Hp as <-. by split. }
  apply Forall_cons. split; [by apply Hp|]. apply Forall_cons. split; [exact I|]. apply Forall_cons. split; [by apply Hp|].
  apply Forall_cons. split; [intros k Hk; rewrite Hi in Hk; by injection Hk as <-|]. apply Forall_cons. split; [by apply Hp|by apply Forall_nil].
Qed.

(** Both frames that were taken go through the chain, in order. *)
Lemma stream_pipeline_computes_witness :
  (∃ p0 times, makeStreamPipeline tx_chain 2 16 = ROk p0 ∧
    let q := performs (start p0 0 None).1 (vx_calls ++ (CallWork <$> times)) in
    isEndOfStreamReached q = true ∧
    ∀ le, p_engine q = Some le → (∀ name frame reason, EvDrop name frame reason ∉ e_log (le_impl le)) →
      taken 2 (e_log (le_impl le)) =
      arrivals bx_node bx_f vx_cg
        (λ j, accepted bx_node sx_iter tx_process bx_flush bx_elapsed bx_setup BatchScheduler (NoneSync mkNoSync) 0 yx_patient yx_pick 4
                (stream_config 2 16) vx_cg j (start p0 0 None).1 vx_calls) 3 2) ∧
  vx_outcome 9 = Some ([Some (mkPacket 1 0 0 []); Some (mkPacket 2 0 7 [])], true, false).
Proof.
  split; [|vm_compute; reflexivity].
  destruct (stream_pipeline_computes bx_node sx_iter tx_process bx_flush bx_elapsed bx_setup BatchScheduler (NoneSync mkNoSync) 0 yx_patient yx_pick 4
    bx_f tx_chain vx_cg 2 16 [] 0 vx_calls) as (p0 & Hp0 & _ & Hend).
  - done.
  - done.
  - split; [|vm_compute; reflexivity|vm_compute; reflexivity| |done].
    + eapply rtc_r; [eapply rtc_r; [apply tx_nodes_reachable|constructor]|constructor].
    + intros j Hj. vm_compute in Hj. do 3 (destruct j as [|j]; [vm_compute; reflexivity|]). lia.
  - exact fx_determined.
  - vm_compute. discriminate.
  - exact vx_sources.
  - destruct Hend as [bound Hend].
    + intros j node Hn Hj. destruct j as [|j].
      * vm_compute in Hn. injection Hn as <-. exists 4%Z. do 3 apply list_elem_of_further. left.
      * do 2 (destruct j as [|j]; [vm_compute in Hj; discriminate|]). vm_compute in Hn. discriminate.
    + exists p0, (replicate bound 5%Z). split; [exact Hp0|]. destruct (Hend (replicate bound 5%Z)) as [Hreached Hcalls]; [by rewrite length_replicate|].
      split; [exact Hreached|]. intros le He Hnodrop. apply (Hcalls le He Hnodrop 2 2). vm_compute. reflexivity.
Defined.
End Example.
